(* ===== verification/_CoqProject ===== *)
-Q . S2P
Prelude.v
HandleIndex.v
Fifo.v
Intake.v
IntakeSort.v
Queues.v
Engine.v
EnginePass.v
EngineApi.v
Registry.v
EngineFacts.v
EngineAcct.v
EnginePassFacts.v
EngineApiFacts.v
EngineMgmtFacts.v
EngineStatic.v
Lifecycle.v
Outcomes.v
Ledger.v
LedgerFacts.v
LedgerAdmit.v
LedgerBudget.v
LedgerWorld.v
Toml.v
TomlParse.v
Settings.v
Save.v
TomlFacts.v
PathFacts.v
SaveFacts.v
ValueFacts.v
ParseFacts.v
EditDistance.v
SettingsFacts.v
Configs.v
SaveFile.v
SaveFileFacts.v
SaveAdds.v
Saved.v
HMap.v
BalanceHeap.v
Balance.v
BalanceFacts.v
Router.v
Journal.v
JournalFacts.v
ReplayFacts.v
Durable.v
DurableQueue.v
DurableFacts.v
DurableSteps.v
DurableWorld.v
Survival.v
DoneSet.v
Orch.v
Gates.v
Stats.v
Gauges.v
Statistics.v
Await.v
Pool.v
Quota.v
Wire.v
WireFacts.v
Xport.v
XportFacts.v
Remote.v
Callbacks.v
Addons.v
AddonFacts.v
AddonNames.v
AddonLoad.v
Bounded.v
Config.v
Knobs.v
CfgFile.v
CfgApply.v
CfgFacts.v
Configured.v
