(* ===== verification/Prelude.v ===== *)
(** * GPTPS: a verification development

    GPTPS is a task engine in C: a host registers task types, submits items of work, and
    the engine runs them on a pool of workers within budgets of memory, of concurrency
    and of named resources, with priorities, retries, deadlines, dead letters and an
    orderly shutdown.  Around the engine are a configuration file and a registry of
    settings that can be changed and saved at run time, a loader of add-ons, and the
    add-ons: a router over several engines, a crash-durable queue, gates between items,
    statistics, waiting, a pool, a quota, a transport to worker processes.

    ** Parts, and where each is modelled

    Every file is one Module of the same name - a few hold a second, of what is built on
    it - and the proof files' Modules hold lemmas only.  A definition has the name of the C function or type it translates; a
    loop of a function is a Fixpoint of its own.

    - Prelude.v: record update [r <| f := v |>] for assignments to fields of structs,
      unsigned arithmetic ([u32], [u64]), hint databases and shared lemmas.
    - The data structures of src/src/engine.c.  HandleIndex.v: [hidx_*], the hash table
      from handles to items, on its array of slots.  Fifo.v: [fifo_*], the linked queues,
      on a store of nodes.  Intake.v and IntakeSort.v: [intake_*], the queue ordered by
      score with its cache of run tails, and the bottom-up merge sort.  Queues.v states
      what they are: a finite map, lists, a priority queue.
    - The engine of src/src/engine.c.  Engine.v: [struct gptps], [gptps_item],
      [gptps_reg], events, and the operations every section uses; it takes a queue to be
      a list and the index to be the table of HandleIndex.v.  EnginePass.v:
      [engine_pass], step by step.  EngineApi.v: submit, cancel, the worker, removal of a
      type, dead letters, [gptps_step], shutdown.  Registry.v: registration, the setters
      and readers of a type, named resources.  Lifecycle.v: the relation [step] - one
      critical section of one thread, or the emission of an event an earlier section owes
      - and the invariant of the reachable worlds.  EngineFacts.v, EngineAcct.v,
      EnginePassFacts.v, EngineApiFacts.v, EngineMgmtFacts.v and EngineStatic.v prove
      that each section keeps it; Outcomes.v states what follows.  Ledger.v,
      LedgerFacts.v, LedgerAdmit.v, LedgerBudget.v and LedgerWorld.v do the same for
      the counters of committed memory, slots and resources; Module Budgets of
      LedgerWorld.v states it.
    - Other parts of src/src/engine.c, each with a state of its own.  Callbacks.v: the
      records of threads inside callbacks, with their lemmas.  Addons.v: observers,
      constraints, the scheduler seam, [gptps_load_addon], [addon_unwind],
      [gptps_addon_disable], and in Module AddonWorld a load section by section among
      calls of other threads; AddonFacts.v, AddonNames.v, AddonLoad.v.  Bounded.v: the working set of a
      bounded engine, [bounded_seal], [pool_take].
    - Config.v: the limits of src/src/config.c and the allocator seam of
      src/src/alloc.c.
    - The configuration.  Toml.v and TomlParse.v: src/src/config_toml.c, from
      characters to a parsed file, with its accessors.  Settings.v: the registry of
      src/src/settings.c, the checks of a value, [set_value], watchers, near misses.
      Save.v: the text of a key, a value, a line; SaveFile.v: [write_settings] and
      [gptps_settings_save_to], the whole file and its replacement.  TomlFacts.v,
      PathFacts.v, SaveFacts.v, ValueFacts.v, ParseFacts.v, EditDistance.v,
      SettingsFacts.v, SaveFileFacts.v and SaveAdds.v hold the lemmas, Configs.v and
      Saved.v the properties.
    - The configuration in the engine, src/src/engine.c again.  Knobs.v: what the
      settings of the engine and of its tasks are bound to, and how a value is judged.
      CfgFile.v: one entry of the file, the values that wait for their setting, the
      report of unused keys; in Module Defines, registering a task, defining settings and
      resources, each with the pass that gives them the file's values.  CfgApply.v:
      [gptps_open_ex] and [gptps_settings_reload].  CfgFacts.v: every pass claims what it
      accepts and counts what it refuses; Configured.v: the properties.
    - The late-binding router of src/addons/gptps_balance.c.  HMap.v: its hash tables.
      BalanceHeap.v: its heap.  Balance.v: its lock sections and their step relation.
      BalanceFacts.v: the invariant.  Router.v: the properties.
    - The durable queue of src/addons/gptps_durable_queue.c.  Journal.v: the bytes of
      the journal, replay, compaction, the open.  JournalFacts.v, ReplayFacts.v;
      Durable.v: the properties of a journal.  DurableQueue.v: each section of the queue
      under its mutex, and in Module DurableLog the file over time, and a crash.
      DurableFacts.v,
      DurableSteps.v, DurableWorld.v: the invariant of queue and file; Survival.v: the
      properties of the two.
    - The other add-ons.  DoneSet.v and Orch.v: src/addons/gptps_orch.c, over an
      interface for its set of ended handles; Gates.v.  Stats.v:
      src/addons/gptps_stats.c; Gauges.v, Statistics.v.  Await.v:
      src/addons/gptps_await.c.  Pool.v: src/addons/gptps_pool.c, over a class of
      shards.  Quota.v: src/addons/gptps_gpu_quota.c, over the engine's resources.
    - The transports.  Wire.v: the frames of src/addons/gptps_xport.c and the pieces a
      socket moves; WireFacts.v.  Xport.v: the parent's links and their interleavings;
      XportFacts.v.  Remote.v: the codec of src/addons/gptps_remote.c.

    ** What the theorems show

    - Refinement: the index and the router's tables are finite maps, the linked queues
      are lists, the intake queue and the router's heap are priority queues, first in
      first out among equals ([index_refines_map], [hmap_refines_map],
      [fifo_refines_list], [intake_is_priority_queue], [heap_is_priority_queue]); a load
      of an add-on is a run of its sections, and returns ([load_addon_is_a_run]).
    - One ending for each handle: in the engine ([closed_exactly_once],
      [shutdown_closes_all]), in the router ([router_closes_once], [close_tells_all]),
      and one outcome for each request of the transport ([request_has_one_outcome]), over
      every interleaving of sections.
    - Where things are: each item in the queue its tag names, handles never reused, the
      router's tables and counters exact ([queues_partition], [handles_distinct],
      [router_ledger]); nothing waits while a shard has room ([dispatch_leaves_no_room]);
      a pool's handle goes back to its shard ([pool_cancel_finds_its_shard]).
    - Budgets: the counters are what the admitted items hold ([ledger_exact]), no section
      commits past a budget while the sums fit 64 bits ([budgets_hold]), and what happens
      when they do not ([admission_sum_wraps]); a bounded engine's pool and arenas
      ([bounded_pool_holds]); the limits resolved ([limits_resolve]) and what an allocator
      is asked ([host_is_asked_soundly]).
    - Answers: what submit and cancel return and change on each branch
      ([submit_refused], [submit_check_spec], [cancel_outcome]).
    - Add-ons and callbacks: a load that fails leaves nothing, and takes nothing else with
      it ([failed_load_leaves_nothing]); names are claimed once
      ([namespaces_are_claimed]); a thread inside a callback is known
      ([callbacks_guarded]).
    - The configuration: a parse is strict ([parse_is_strict]); a saved file reads back to
      the values set, with every other line kept ([saved_file_reads_back]); the registry
      is a map that takes only values that fit ([registry_is_a_map],
      [set_value_contract], [remove_task_exact], [taken_values_fit]); the suggested key is
      the nearest ([suggestion_is_nearest]); texts stay in their buffers
      ([messages_fit]); an open takes every key of its file or fails
      ([open_judges_every_key]); the check before the start is exact
      ([config_check_is_exact]).  Two examples show where the code departs from its
      documents ([memory_gb_wins_at_open_only], [save_asks_for_the_wrong_default]).
    - Durability: what a crash leaves of a journal reads back to its history
      ([journal_survives_crash]), any file opens ([any_file_opens_in_order]) to one that
      reads back clean ([reopened_reads_back]), work that kills its process is put aside
      ([killer_is_quarantined]), what was acknowledged survives
      ([acknowledged_work_survives]) and what was told is not taken back
      ([told_outcomes_stick]).
    - Gates wait for all they name ([gated_work_waits]) and open in the end
      ([gates_converge]), but for a handle that ends twice around a prune
      ([prune_releases_early]).  Gauges are exact whatever order events arrive in
      ([gauges_exact]) and the figures settle ([statistics_settle]).  A wait is answered
      on either side of its completion ([late_wait_is_answered],
      [early_wait_is_answered]).
    - The wire: both ends of a channel stay in step ([channel_in_step]); the remote codec
      is exact ([remote_codec_exact]).

    ** Conventions

    A pointer is a key of a store ([gmap positive _]); NULL is [None].  An unsigned
    integer is the [Z] it denotes, wrapped with [u32] or [u64] where the code adds,
    subtracts or multiplies; a C string is the list of its characters, or a Rocq string
    where only its equality matters.  A function that can fail gives an option or a
    status; one that allocates takes, as an argument, whether the memory was there.  A
    critical section is a function from the state at its lock to the state at its unlock,
    with the events it decides on; the events are delivered after the unlock, which [step]
    models as a step of its own in the engine and the router records at the section that
    decides them.  Code of others - task bodies, hooks, an add-on's setup, the clock, the
    engines behind the router - is an argument of the definitions.  Sizes are those of a
    64-bit machine.

    Fuel.  A C loop that is not structural is a Fixpoint on fuel, with enough at the call
    that it never runs out, which is proved: a probe of a hash table visits each slot at
    most once, so the length of the table is enough; a sort of n items doubles its run
    length at most n times; the parser consumes a character a turn, so the length of the
    text is enough; the pops of the router's heap are at most its length and one more; a
    replay consumes a byte a turn; a reader of frames ends a frame a turn, so the number
    of frames and one more is enough; the save of new sections writes at least one
    addition a turn; the search of the callback records goes once round the buckets; an
    unwind removes a task type a turn; a size doubled from 64 reaches 2^63 in 57 turns.

    ** Not modelled

    - Threads, clocks, files and processes: src/src/hal_*.c, src/src/exec_*.c, the
      terminal dashboard, the sockets, fork and close of the transport, the condition
      variables of the group commit, the file operations of a rewritten or preserved
      journal and of a rename, and reading errors.  These lines are system calls; their
      results are arguments where other code depends on them.
    - Running out of memory in the parser, the settings and the durable queue's table:
      the code abandons the operation.
    - Other threads in the middle of a pass over the configuration file: a pass there runs
      from its beginning to its end, and the state its theorems range over changes between
      passes only.  The load of an add-on from the file is there a run of the calls its
      setup makes; Addons.v has the loader.  The setting the quota add-on makes for its
      budget.  The text that explains a refused setting, and the printing of floating
      point numbers, which is the C library's.
    - The probing of the statistics' table of handles, which is that of HMap.v.  The WASM
      add-on, the plug-in wrapper, examples and tools: glue.
    - Counters that cannot wrap in practice: a router is taken to be given fewer than
      2^64 items, and an engine fewer than 2^64 loads. *)

From stdpp Require Export prelude gmap functions strings list sorting.
From Stdlib Require Export ZArith Lia.

#[global] Set Default Goal Selector "!".
#[global] Open Scope Z_scope.

(** ** Functional record update

    The engine's structs have many fields, and C code assigns them one at a
    time.  [r <| f := v |>] is the struct [r] with its field [f] assigned. *)
Class Eta (R : Type) := eta : R → R.
Class Updater {R T : Type} (π : R → T) := update : (T → T) → R → R.
Arguments update {R T} π {_} _ _ /.

Ltac build_updater π :=
  lazymatch type of π with
  | ?R → ?T =>
      let inst := constr:(_ : Eta R) in
      let body := eval unfold eta in inst in
      let body := lazymatch body with
                  | ?c ?x => let b := eval cbv beta delta [c] in (c x) in b
                  | ?c => let b := eval unfold c in c in b
                  end in
      let abs := eval pattern π in body in
      lazymatch abs with
      | ?g π =>
          let u := eval cbv beta in (λ (f : T → T) (r : R), g (λ r, f (π r)) r) in
          exact u
      end
  end.

#[export] Hint Extern 0 (Updater ?π) => build_updater π : typeclass_instances.

Declare Scope gptps_scope.
Delimit Scope gptps_scope with gptps.
#[warnings="-postfix-notation-not-level-1"]
Notation "r <| π ::= f |>" := (update π f r)
  (at level 12, left associativity, format "r  <|  π  ::=  f  |>") : gptps_scope.
#[warnings="-postfix-notation-not-level-1"]
Notation "r <| π := v |>" := (update π (λ _, v) r)
  (at level 12, left associativity, format "r  <|  π  :=  v  |>") : gptps_scope.
#[global] Open Scope gptps_scope.

(** ** Machine integers

    A C unsigned integer of width [w] is the [Z] in [0, 2^w) it denotes; an
    operation that can leave the range is wrapped where the code performs it. *)
Definition u32 (z : Z) : Z := z mod 2 ^ 32.
Definition u64 (z : Z) : Z := z mod 2 ^ 64.
Definition UINT64_MAX : Z := 2 ^ 64 - 1.
Definition SIZE_MAX : Z := 2 ^ 64 - 1.

Lemma u64_range z : 0 ≤ u64 z < 2 ^ 64.
Proof. apply Z.mod_pos_bound. lia. Qed.
Lemma u32_range z : 0 ≤ u32 z < 2 ^ 32.
Proof. apply Z.mod_pos_bound. lia. Qed.
Lemma u64_small z : 0 ≤ z < 2 ^ 64 → u64 z = z.
Proof. apply Z.mod_small. Qed.
Lemma u32_small z : 0 ≤ z < 2 ^ 32 → u32 z = z.
Proof. apply Z.mod_small. Qed.

Lemma u64_sub a b : u64 (u64 a - b) = u64 (a - b).
Proof. unfold u64. by rewrite Zminus_mod_idemp_l. Qed.
Lemma u64_add a b : u64 (u64 a + b) = u64 (a + b).
Proof. unfold u64. by rewrite Zplus_mod_idemp_l. Qed.
Lemma u32_sub a b : u32 (u32 a - b) = u32 (a - b).
Proof. unfold u32. by rewrite Zminus_mod_idemp_l. Qed.
Lemma u32_add a b : u32 (u32 a + b) = u32 (a + b).
Proof. unfold u32. by rewrite Zplus_mod_idemp_l. Qed.

(** [x & (2^k - 1)] is [x mod 2^k]. *)
Lemma land_mask x k : 0 ≤ k → Z.land x (2 ^ k - 1) = x mod 2 ^ k.
Proof. intros Hk. rewrite <-Z.land_ones by done. by rewrite Z.ones_equiv, Z.sub_1_r. Qed.

Lemma land_mask_range x k : 0 ≤ k → 0 ≤ Z.land x (2 ^ k - 1) < 2 ^ k.
Proof. intros Hk. rewrite land_mask by done. apply Z.mod_pos_bound. lia. Qed.

(** ** Sums over finite maps

    What a counter counts: the weights of a map's values. *)
Section total.
Context {K A : Type} `{Countable K}.
Implicit Types (w : A → Z) (m : gmap K A).
Definition total (w : A → Z) (m : gmap K A) : Z := map_fold (λ _ c s, w c + s) 0 m.

Lemma total_insert w m p c : m !! p = None → total w (<[p := c]> m) = w c + total w m.
Proof.
  intros Hp. unfold total. apply (map_fold_insert_L (λ _ c s, w c + s) 0 p c m); [|done].
  intros. lia.
Qed.
Lemma total_delete w m p c : m !! p = Some c → total w (delete p m) = total w m - w c.
Proof.
  intros Hp. rewrite <-(insert_delete_id m p c Hp) at 2.
  rewrite total_insert by apply lookup_delete_eq. lia.
Qed.
Lemma total_nonneg w m : (∀ p c, m !! p = Some c → 0 ≤ w c) → 0 ≤ total w m.
Proof.
  induction m as [|p c m Hp IH] using map_ind; intros Hw; [done|].
  rewrite total_insert by done. assert (0 ≤ w c) by (apply (Hw p); by rewrite lookup_insert_eq).
  assert (0 ≤ total w m); [|lia]. apply IH. intros q d Hq. apply (Hw q). rewrite lookup_insert_ne; [done|congruence].
Qed.
Lemma total_zero w m : (∀ p c, m !! p = Some c → w c = 0) → total w m = 0.
Proof.
  induction m as [|p c m Hp IH] using map_ind; intros Hw; [done|].
  rewrite total_insert by done. rewrite (Hw p c) by (by rewrite lookup_insert_eq).
  rewrite IH; [done|]. intros q d Hq. apply (Hw q). rewrite lookup_insert_ne; [done|congruence].
Qed.
Lemma total_partial_alter w m p (o : option A) :
  total w (partial_alter (λ _, o) p m) = total w m - from_option w 0 (m !! p) + from_option w 0 o.
Proof.
  assert (total w (delete p m) = total w m - from_option w 0 (m !! p)) as Hd.
  { destruct (m !! p) as [c|] eqn:E; [by apply total_delete|]. rewrite delete_id by done. simpl. lia. }
  destruct o as [x|].
  - change (partial_alter (λ _, Some x) p m) with (<[p := x]> m). rewrite <-insert_delete_eq, total_insert by apply lookup_delete_eq.
    simpl. lia.
  - change (partial_alter (λ _, None) p m) with (delete p m). simpl. lia.
Qed.
Lemma total_mono w m m' :
  m' ⊆ m → (∀ p c, m !! p = Some c → 0 ≤ w c) → total w m' ≤ total w m.
Proof.
  revert m. induction m' as [|p c m' Hp IH] using map_ind; intros m Hs Hw; [by apply total_nonneg|].
  assert (m !! p = Some c) as Hc by (apply (lookup_weaken (<[p:=c]> m') m); [apply lookup_insert_eq|done]).
  rewrite total_insert by done. assert (total w m' ≤ total w (delete p m)) as Hle.
  { apply IH.
    - apply map_subseteq_spec. intros x d Hx. assert (p ≠ x) by (intros ->; congruence).
      rewrite lookup_delete_ne by done. eapply lookup_weaken; [|done]. by rewrite lookup_insert_ne.
    - intros x d [_ Hx]%lookup_delete_Some. by apply (Hw x). }
  rewrite (total_delete w m p c Hc) in Hle. lia.
Qed.
Lemma total_one m : total (λ _, 1) m = Z.of_nat (size m).
Proof.
  induction m as [|p c m Hp IH] using map_ind; [done|].
  rewrite total_insert by done. rewrite map_size_insert_None by done. lia.
Qed.
End total.

(** ** Automation shared by the components *)
Create HintDb gptps.
