(* ===== verification/HandleIndex.v ===== *)
(** * The handle index of [src/engine.c]

    An open-addressing table from a handle to its item, with linear probing and
    deletion without tombstones (Knuth's Algorithm R).  The first half is the
    code; the second proves it implements a finite map. *)

From S2P Require Import Prelude.

(** An item is known to the index by its address. *)
Abbreviation ptr := positive (only parsing).

Module HandleIndex.

(** ** The code *)

(** One slot: [h == 0] is empty. *)
Record hslot := HSlot { s_h : Z; s_it : option ptr }.
Definition empty_slot : hslot := HSlot 0 None.

(** [e->hidx], [e->nhidx] (the table's length) and [e->hidx_live]. *)
Record hidx := Hidx { tab : list hslot; live : Z }.
#[export] Instance eta_hidx : Eta hidx := λ x, Hidx (tab x) (live x).

Definition nslots (t : list hslot) : Z := Z.of_nat (length t).
Definition slot (t : list hslot) (j : Z) : hslot := default empty_slot (t !! Z.to_nat j).
Definition set_slot (t : list hslot) (j : Z) (s : hslot) : list hslot := <[Z.to_nat j := s]> t.
Definition occupied (t : list hslot) (j : Z) : bool := negb (s_h (slot t j) =? 0).

Definition hidx_slot (h n : Z) : Z :=
  let h := Z.lxor h (Z.shiftr h 33) in
  let h := u64 (h * 0xff51afd7ed558ccd) in
  let h := Z.lxor h (Z.shiftr h 33) in
  Z.land h (n - 1).

(** [(j + 1) & (nn - 1)]. *)
Definition next (t : list hslot) (j : Z) : Z := Z.land (j + 1) (nslots t - 1).

(** [for (nn = 64; nn < live * 4; nn <<= 1)]: sixty doublings pass any size the
    guard of [hidx_reserve] lets through. *)
Fixpoint size_loop (fuel : nat) (nn live : Z) : Z :=
  match fuel with
  | O => nn
  | S f => if nn <? live * 4 then size_loop f (Z.shiftl nn 1) live else nn
  end.
Definition hidx_size_for (live : Z) : Z := size_loop 60 64 live.

(** [while (hidx[j].h) j = next j]: the first free slot from [j]. *)
Fixpoint probe_free (fuel : nat) (t : list hslot) (j : Z) : option Z :=
  match fuel with
  | O => None
  | S f => if occupied t j then probe_free f t (next t j) else Some j
  end.

Definition put_slot (t : list hslot) (s : hslot) : option (list hslot) :=
  j ← probe_free (length t) t (hidx_slot (s_h s) (nslots t));
  Some (set_slot t j s).

Fixpoint rebuild_loop (old : list hslot) (nt : list hslot) : option (list hslot) :=
  match old with
  | [] => Some nt
  | s :: old' =>
      if s_h s =? 0 then rebuild_loop old' nt
      else nt' ← put_slot nt s; rebuild_loop old' nt'
  end.

(** [alloc] is whether [gptps_calloc] finds the memory.  [Some (false, x)] is the
    code's [-1]: the old table stands.  [None] would be a probe that never ends. *)
Definition hidx_rebuild (alloc : bool) (x : hidx) (nn : Z) : option (bool * hidx) :=
  if alloc then
    nt ← rebuild_loop (tab x) (replicate (Z.to_nat nn) empty_slot);
    Some (true, x <| tab := nt |>)
  else Some (false, x).

Definition sizeof_hslot : Z := 16.

Definition hidx_reserve (alloc : bool) (x : hidx) : option (bool * hidx) :=
  if (live x + 1) * 2 <=? nslots (tab x) then Some (true, x)
  else if live x + 1 >? SIZE_MAX / (8 * sizeof_hslot) then Some (false, x)
  else hidx_rebuild alloc x (hidx_size_for (live x + 1)).

Definition hidx_put (x : hidx) (h : Z) (it : ptr) : option hidx :=
  t ← put_slot (tab x) (HSlot h (Some it));
  Some (Hidx t (live x + 1)).

(** The search stops at an empty slot or after [nhidx] probes. *)
Fixpoint find_loop (fuel : nat) (t : list hslot) (h j : Z) : option Z :=
  match fuel with
  | O => None
  | S f => if occupied t j
           then if s_h (slot t j) =? h then Some j else find_loop f t h (next t j)
           else None
  end.

Definition hidx_find (x : hidx) (h : Z) : option Z :=
  if (nslots (tab x) =? 0) || (h =? 0) then None
  else find_loop (length (tab x)) (tab x) h (hidx_slot h (nslots (tab x))).

(** What [gptps_cancel] does with the search: the item of the handle's slot. *)
Definition hidx_lookup (x : hidx) (h : Z) : option ptr :=
  i ← hidx_find x h; s_it (slot (tab x) i).

(** Algorithm R: close the gap at [i], scanning from [j].  The result is the table
    and the slot left free. *)
Fixpoint close_gap (fuel : nat) (t : list hslot) (i j : Z) : option (list hslot * Z) :=
  match fuel with
  | O => None
  | S f =>
      if occupied t j then
        let k := hidx_slot (s_h (slot t j)) (nslots t) in
        if (if i <? j then (k <=? i) || (j <? k) else (k <=? i) && (j <? k))
        then close_gap f (set_slot t i (slot t j)) j (next t j)
        else close_gap f t i (next t j)
      else Some (t, i)
  end.

(** [indexed] is the item's flag; the caller clears it. *)
Definition hidx_del (x : hidx) (indexed : bool) (h : Z) : option hidx :=
  if indexed then
    match hidx_find x h with
    | None => Some x
    | Some i =>
        '(t, i) ← close_gap (length (tab x)) (tab x) i (next (tab x) i);
        Some (Hidx (set_slot t i empty_slot) (live x - 1))
    end
  else Some x.

Definition hidx_trim (alloc : bool) (max_items : Z) (x : hidx) : option hidx :=
  if negb (max_items =? 0) then Some x
  else if (64 <? nslots (tab x)) && (live x * 8 <? nslots (tab x))
  then '(_, x') ← hidx_rebuild alloc x (hidx_size_for (live x)); Some x'
  else Some x.


(** ** Cyclic distance

    [dist n a b] is how many steps of [next] lead from slot [a] to slot [b]. *)
Definition dist (n a b : Z) : Z := if a <=? b then b - a else b - a + n.

Lemma dist_spec n a b :
  0 ≤ a < n → 0 ≤ b < n →
  0 ≤ dist n a b < n ∧ (a ≤ b → dist n a b = b - a) ∧ (b < a → dist n a b = b - a + n).
Proof. intros. unfold dist. destruct (Z.leb_spec a b); lia. Qed.

(** Add the specification of every distance in sight, then decide. *)
Ltac pose_dist n a b :=
  lazymatch goal with
  | _ : 0 ≤ dist n a b < n ∧ _ |- _ => fail
  | _ => pose proof (dist_spec n a b ltac:(lia) ltac:(lia))
  end.
Ltac dist_lia :=
  repeat match goal with
  | |- context [dist ?n ?a ?b] => pose_dist n a b
  | _ : context [dist ?n ?a ?b] |- _ => pose_dist n a b
  end; lia.

Definition in_range (t : list hslot) (j : Z) : Prop := 0 ≤ j < nslots t.
Definition sized (t : list hslot) : Prop := ∃ k, 0 ≤ k ∧ nslots t = 2 ^ k.
#[export] Hint Unfold in_range : gptps.

Lemma nslots_set t i s : nslots (set_slot t i s) = nslots t.
Proof. unfold nslots, set_slot. by rewrite length_insert. Qed.

Lemma sized_set t i s : sized t → sized (set_slot t i s).
Proof. unfold sized. by rewrite nslots_set. Qed.

Lemma slot_set t i s j :
  in_range t i → 0 ≤ j → slot (set_slot t i s) j = if decide (i = j) then s else slot t j.
Proof.
  unfold in_range, nslots, slot, set_slot. intros Hi Hj. case_decide as Hij.
  - subst. by rewrite list_lookup_insert_eq by lia.
  - by rewrite list_lookup_insert_ne by lia.
Qed.

Lemma slot_set_eq t i s : in_range t i → slot (set_slot t i s) i = s.
Proof. intros Hi. rewrite slot_set by (unfold in_range in *; lia). by rewrite decide_True. Qed.
Lemma slot_set_ne t i s j : in_range t i → 0 ≤ j → i ≠ j → slot (set_slot t i s) j = slot t j.
Proof. intros. rewrite slot_set by done. by rewrite decide_False. Qed.

Lemma occupied_true t j : occupied t j = true ↔ s_h (slot t j) ≠ 0.
Proof. unfold occupied. rewrite negb_true_iff, Z.eqb_neq. done. Qed.
Lemma occupied_false t j : occupied t j = false ↔ s_h (slot t j) = 0.
Proof. unfold occupied. rewrite negb_false_iff, Z.eqb_eq. done. Qed.

Lemma next_spec t j :
  sized t → in_range t j →
  in_range t (next t j) ∧
  next t j = if decide (j + 1 = nslots t) then 0 else j + 1.
Proof.
  intros (k & Hk & Hn) Hj. unfold in_range, next in *. rewrite Hn in *.
  rewrite land_mask by done. case_decide as Hd.
  - rewrite Hd, Z.mod_same by lia. lia.
  - rewrite Z.mod_small by lia. lia.
Qed.

Lemma hidx_slot_range t h : sized t → in_range t (hidx_slot h (nslots t)).
Proof. intros (k & Hk & Hn). unfold hidx_slot, in_range. rewrite Hn. by apply land_mask_range. Qed.

(** ** Probing *)

(** Every slot passed on the way from [a] to [b] is occupied. *)
Definition path (t : list hslot) (a b : Z) : Prop :=
  ∀ q, in_range t q → dist (nslots t) a q < dist (nslots t) a b → occupied t q = true.

Lemma probe_free_spec fuel t j e :
  sized t → in_range t j → in_range t e → occupied t e = false →
  dist (nslots t) j e < Z.of_nat fuel →
  ∃ f, probe_free fuel t j = Some f ∧ in_range t f ∧ occupied t f = false ∧ path t j f.
Proof.
  intros Hs. revert j. induction fuel as [|fuel IH]; intros j Hj He Hoe Hf; simpl.
  { unfold in_range in *. dist_lia. }
  destruct (occupied t j) eqn:Hoj; last first.
  { exists j. split_and!; try done. intros q Hq Hd. unfold in_range in *. dist_lia. }
  destruct (next_spec t j Hs Hj) as [Hnr Hn].
  assert (j ≠ e) by congruence.
  destruct (IH (next t j) Hnr He Hoe) as (f & -> & Hfr & Hfo & Hp).
  { unfold in_range in *. case_decide; dist_lia. }
  exists f. split_and!; try done. intros q Hq Hd.
  assert (j ≠ f) by congruence.
  destruct (decide (q = j)) as [->|Hqj]; [done|]. apply Hp; [done|].
  unfold in_range in *. case_decide; dist_lia.
Qed.

Lemma find_loop_hit fuel t h j p :
  sized t → in_range t j → in_range t p → h ≠ 0 →
  s_h (slot t p) = h → (∀ q, in_range t q → s_h (slot t q) = h → q = p) →
  path t j p → dist (nslots t) j p < Z.of_nat fuel →
  find_loop fuel t h j = Some p.
Proof.
  intros Hs. revert j. induction fuel as [|fuel IH]; intros j Hj Hp Hh Hsp Hu Hpath Hf; simpl.
  { unfold in_range in *. dist_lia. }
  assert (occupied t j = true) as ->.
  { destruct (decide (j = p)) as [->|]; [apply occupied_true; congruence|].
    apply Hpath; [done|]. unfold in_range in *. dist_lia. }
  destruct (Z.eqb_spec (s_h (slot t j)) h) as [Hjh|Hjh]; [f_equal; by apply Hu|].
  destruct (next_spec t j Hs Hj) as [Hnr Hn].
  assert (j ≠ p) by congruence.
  apply IH; try done.
  - intros q Hq Hd. apply Hpath; [done|]. unfold in_range in *. case_decide; dist_lia.
  - unfold in_range in *. case_decide; dist_lia.
Qed.

Lemma find_loop_sound fuel t h j p :
  sized t → in_range t j →
  find_loop fuel t h j = Some p → in_range t p ∧ s_h (slot t p) = h.
Proof.
  intros Hs. revert j. induction fuel as [|fuel IH]; intros j Hj; simpl; [done|].
  destruct (occupied t j); [|done].
  destruct (Z.eqb_spec (s_h (slot t j)) h); [naive_solver|].
  apply IH. by apply next_spec.
Qed.

(** ** The map an index stands for *)
Record repr (x : hidx) (m : gmap Z ptr) : Prop := {
  r_sized : tab x = [] ∨ sized (tab x);
  (** a handle's slot is reached from its home without meeting an empty one *)
  r_probe : ∀ p, in_range (tab x) p → occupied (tab x) p = true →
            path (tab x) (hidx_slot (s_h (slot (tab x) p)) (nslots (tab x))) p;
  r_uniq : ∀ p q, in_range (tab x) p → in_range (tab x) q → occupied (tab x) p = true →
           s_h (slot (tab x) p) = s_h (slot (tab x) q) → p = q;
  r_full : ∀ p, in_range (tab x) p → occupied (tab x) p = true →
           is_Some (s_it (slot (tab x) p));
  r_map : ∀ h it, m !! h = Some it ↔
          h ≠ 0 ∧ ∃ p, in_range (tab x) p ∧ slot (tab x) p = HSlot h (Some it);
  r_live : live x = Z.of_nat (size m);
  (** a free slot, if there are slots *)
  r_load : live x = 0 ∨ live x < nslots (tab x) }.


Lemma in_range_pos t j : in_range t j → 0 ≤ j.
Proof. unfold in_range. lia. Qed.
#[local] Hint Resolve in_range_pos nslots_set sized_set : core.

Lemma in_range_set t i s j : in_range (set_slot t i s) j ↔ in_range t j.
Proof. unfold in_range. by rewrite nslots_set. Qed.

Lemma occupied_set_ne t i s j :
  in_range t i → 0 ≤ j → i ≠ j → occupied (set_slot t i s) j = occupied t j.
Proof. intros. unfold occupied. by rewrite slot_set_ne. Qed.

Lemma slot_lookup t j s : slot t j = s → in_range t j → t !! Z.to_nat j = Some s.
Proof.
  unfold slot, in_range, nslots. intros <- Hj.
  destruct (lookup_lt_is_Some_2 t (Z.to_nat j)) as [y Hy]; [lia|]. by rewrite Hy.
Qed.

Lemma lookup_slot t i s : t !! i = Some s → in_range t (Z.of_nat i) ∧ slot t (Z.of_nat i) = s.
Proof.
  intros Hi. unfold slot, in_range, nslots. rewrite Nat2Z.id, Hi.
  apply lookup_lt_Some in Hi. split; [lia|done].
Qed.

(** Distinct handles of a map are no more than its size. *)
Lemma handles_le_size (l : list Z) (m : gmap Z ptr) :
  NoDup l → Forall (λ h, is_Some (m !! h)) l → (length l ≤ size m)%nat.
Proof.
  intros Hnd Hin. rewrite <-size_dom, <-(size_list_to_set (C:=gset Z) l) by done.
  apply subseteq_size. intros h Hh. apply elem_of_list_to_set in Hh.
  rewrite Forall_forall in Hin. apply elem_of_dom. by apply Hin.
Qed.

Lemma repr_holds x m p :
  repr x m → in_range (tab x) p → occupied (tab x) p = true →
  ∃ it, slot (tab x) p = HSlot (s_h (slot (tab x) p)) (Some it) ∧
        m !! s_h (slot (tab x) p) = Some it.
Proof.
  intros Hr Hp Ho. destruct (r_full x m Hr p Hp Ho) as [it Hit]. exists it.
  assert (slot (tab x) p = HSlot (s_h (slot (tab x) p)) (Some it)) as Hs.
  { destruct (slot (tab x) p); simpl in *. by subst. }
  split; [done|]. apply (r_map x m Hr). split; [by apply occupied_true|]. by exists p.
Qed.

Lemma exists_free x m :
  repr x m → tab x ≠ [] → ∃ e, in_range (tab x) e ∧ occupied (tab x) e = false.
Proof.
  intros Hr Hne.
  destruct (decide (Exists (λ s, s_h s = 0) (tab x))) as [He|Hall].
  { apply Exists_exists in He as (s & Hs & Hz).
    apply list_elem_of_lookup in Hs as [i Hi]. apply lookup_slot in Hi as [? Hsl].
    exists (Z.of_nat i). split; [done|]. apply occupied_false. by rewrite Hsl. }
  exfalso. rewrite <-Forall_Exists_neg, Forall_lookup in Hall.
  assert (length (s_h <$> tab x) ≤ size m)%nat as Hle.
  { apply handles_le_size.
    - apply NoDup_alt. intros i j h Hi Hj.
      rewrite list_lookup_fmap in Hi, Hj.
      apply fmap_Some in Hi as (si & Hi & ->). apply fmap_Some in Hj as (sj & Hj & Hh).
      pose proof (Hall _ _ Hi) as Hz.
      apply lookup_slot in Hi as [Hri Hi], Hj as [Hrj Hj].
      apply Nat2Z.inj, (r_uniq x m Hr); try done.
      + apply occupied_true. by rewrite Hi.
      + by rewrite Hi, Hj.
    - apply Forall_fmap, Forall_lookup. intros i s Hi. simpl.
      pose proof (Hall _ _ Hi) as Hz. apply lookup_slot in Hi as [Hri Hi].
      destruct (repr_holds x m (Z.of_nat i) Hr Hri) as (it & _ & Hm).
      { apply occupied_true. by rewrite Hi. }
      rewrite Hi in Hm. by eexists. }
  rewrite length_fmap in Hle. pose proof (r_load x m Hr). pose proof (r_live x m Hr).
  unfold nslots in *. destruct (tab x); [done|]. simpl in *. lia.
Qed.

(** ** Lookup *)
Lemma hidx_find_spec x m h :
  repr x m →
  match hidx_find x h with
  | Some p => in_range (tab x) p ∧ h ≠ 0 ∧ s_h (slot (tab x) p) = h ∧
              m !! h = s_it (slot (tab x) p) ∧ is_Some (m !! h)
  | None => h = 0 ∨ m !! h = None
  end.
Proof.
  intros Hr. unfold hidx_find. destruct (Z.eqb_spec (nslots (tab x)) 0) as [Hz|Hz]; simpl.
  { right. destruct (m !! h) as [it|] eqn:Hm; [|done].
    apply (r_map x m Hr) in Hm as (_ & p & Hp & _). unfold in_range in Hp. lia. }
  destruct (Z.eqb_spec h 0) as [->|Hh]; simpl; [by left|].
  assert (sized (tab x)) as Hs.
  { destruct (r_sized x m Hr) as [He|]; [|done]. by rewrite He in Hz. }
  pose proof (hidx_slot_range (tab x) h Hs) as Hhome.
  destruct (find_loop _ _ _ _) as [p|] eqn:Hf.
  - apply find_loop_sound in Hf as [Hp Hsp]; [|done..].
    destruct (repr_holds x m p Hr Hp) as (it & Hsl & Hm).
    { apply occupied_true. congruence. }
    rewrite Hsp in Hm. rewrite Hm, Hsl. split_and!; done.
  - right. destruct (m !! h) as [it|] eqn:Hm; [|done]. exfalso.
    apply (r_map x m Hr) in Hm as (_ & p & Hp & Hsl).
    assert (occupied (tab x) p = true) as Ho by (apply occupied_true; by rewrite Hsl).
    pose proof (r_probe x m Hr p Hp Ho) as Hpath. rewrite Hsl in Hpath; simpl in Hpath.
    rewrite (find_loop_hit _ _ _ _ p) in Hf; try done.
    + by rewrite Hsl.
    + intros q Hq Hsq. symmetry. apply (r_uniq x m Hr); try done. by rewrite Hsl, Hsq.
    + unfold in_range in *. unfold nslots at 2. unfold nslots in *. dist_lia.
Qed.

(** ** Insertion *)
Lemma put_slot_spec x m h it :
  repr x m → h ≠ 0 → m !! h = None → live x + 1 < nslots (tab x) →
  ∃ t, put_slot (tab x) (HSlot h (Some it)) = Some t ∧ nslots t = nslots (tab x) ∧
       repr (Hidx t (live x + 1)) (<[h := it]> m).
Proof.
  intros Hr Hh Hm Hload.
  assert (0 ≤ live x) by (rewrite (r_live x m Hr); lia).
  assert (tab x ≠ []) as Hne by (intros He; rewrite He in Hload; unfold nslots in Hload; simpl in Hload; lia).
  assert (sized (tab x)) as Hs by (destruct (r_sized x m Hr); done).
  destruct (exists_free x m Hr Hne) as (e & He & Hoe).
  pose proof (hidx_slot_range (tab x) h Hs) as Hhome.
  destruct (probe_free_spec (length (tab x)) (tab x) (hidx_slot h (nslots (tab x))) e)
    as (f & Hf & Hfr & Hfo & Hfp); try done.
  { unfold in_range in *. unfold nslots at 2. unfold nslots in *. dist_lia. }
  unfold put_slot; simpl. rewrite Hf; simpl. eexists. split; [done|].
  split; [by rewrite nslots_set|].
  assert (∀ p, in_range (tab x) p → occupied (tab x) p = true → s_h (slot (tab x) p) ≠ h) as Hfresh.
  { intros p Hp Ho Heq. destruct (repr_holds x m p Hr Hp Ho) as (? & _ & Hm'). congruence. }
  constructor; simpl; rewrite ?nslots_set.
  - right; auto.
  - intros p. rewrite in_range_set. intros Hp Ho q. rewrite in_range_set, nslots_set.
    intros Hq Hd. destruct (decide (q = f)) as [->|Hqf].
    { apply occupied_true. by rewrite slot_set_eq. }
    rewrite occupied_set_ne by eauto.
    destruct (decide (p = f)) as [->|Hpf].
    + rewrite slot_set_eq in Hd by done. simpl in Hd. by apply Hfp.
    + rewrite slot_set_ne in Hd by eauto. rewrite occupied_set_ne in Ho by eauto.
      by apply (r_probe x m Hr p Hp Ho).
  - intros p q. rewrite !in_range_set. intros Hp Hq Ho Heq.
    destruct (decide (p = f)) as [->|Hpf], (decide (q = f)) as [->|Hqf]; [done|..].
    + rewrite slot_set_eq, slot_set_ne in Heq by eauto. simpl in Heq. exfalso.
      apply (Hfresh q); [done| |done]. apply occupied_true. congruence.
    + rewrite slot_set_eq, slot_set_ne in Heq by eauto. simpl in Heq. exfalso.
      rewrite occupied_set_ne in Ho by eauto. by apply (Hfresh p).
    + rewrite !slot_set_ne in Heq by eauto. rewrite occupied_set_ne in Ho by eauto.
      by apply (r_uniq x m Hr).
  - intros p. rewrite in_range_set. intros Hp Ho. destruct (decide (p = f)) as [->|Hpf].
    + rewrite slot_set_eq by done. by eexists.
    + rewrite slot_set_ne by eauto. rewrite occupied_set_ne in Ho by eauto. by apply (r_full x m Hr).
  - intros h' it'. destruct (decide (h = h')) as [<-|Hhh].
    + rewrite lookup_insert_eq. split.
      * intros [= <-]. split; [done|]. exists f. rewrite in_range_set. split; [done|].
        by rewrite slot_set_eq.
      * intros (_ & p & Hp & Hsl). rewrite in_range_set in Hp.
        destruct (decide (p = f)) as [->|Hpf].
        { rewrite slot_set_eq in Hsl by done. by injection Hsl as ->. }
        rewrite slot_set_ne in Hsl by eauto. exfalso.
        apply (Hfresh p); [done| |by rewrite Hsl]. apply occupied_true. by rewrite Hsl.
    + rewrite lookup_insert_ne by done. rewrite (r_map x m Hr). split.
      * intros (Hh' & p & Hp & Hsl). split; [done|]. exists p. rewrite in_range_set. split; [done|].
        rewrite slot_set_ne; [done|done|eauto|]. intros ->.
        apply occupied_false in Hfo. rewrite Hsl in Hfo. done.
      * intros (Hh' & p & Hp & Hsl). rewrite in_range_set in Hp. split; [done|]. exists p.
        split; [done|]. destruct (decide (p = f)) as [->|Hpf].
        { rewrite slot_set_eq in Hsl by done. by injection Hsl as ->. }
        by rewrite slot_set_ne in Hsl by eauto.
  - rewrite map_size_insert_None by done. rewrite (r_live x m Hr). lia.
  - right; lia.
Qed.


(** ** Rebuilding *)
Definition entries (t : list hslot) : list hslot := filter (λ s, s_h s ≠ 0) t.

Lemma repr_empty n :
  (n = 0 ∨ ∃ k, 0 ≤ k ∧ n = 2 ^ k) → repr (Hidx (replicate (Z.to_nat n) empty_slot) 0) ∅.
Proof.
  intros Hn.
  assert (nslots (replicate (Z.to_nat n) empty_slot) = n) as Hlen.
  { unfold nslots. rewrite length_replicate. destruct Hn as [->|(k & ? & ->)]; lia. }
  assert (∀ p, occupied (replicate (Z.to_nat n) empty_slot) p = false) as Ho.
  { intros p. apply occupied_false. unfold slot. destruct (_ !! _) as [s|] eqn:Hs; [|done].
    by apply lookup_replicate in Hs as [-> _]. }
  constructor; simpl; try (intros; congruence).
  - destruct Hn as [->|(k & ? & Hk)]; [by left|]. right. exists k. by rewrite Hlen.
  - intros h it. rewrite lookup_empty. split; [done|]. intros (Hh & p & _ & Hsl).
    exfalso. specialize (Ho p). apply occupied_false in Ho. by rewrite Hsl in Ho.
  - by rewrite map_size_empty.
  - rewrite Hlen. destruct Hn as [->|(k & ? & ->)]; lia.
Qed.

Lemma rebuild_loop_spec old nt m :
  repr (Hidx nt (Z.of_nat (size m))) m →
  NoDup (s_h <$> entries old) →
  (∀ s, s ∈ entries old → is_Some (s_it s) ∧ m !! s_h s = None) →
  Z.of_nat (size m) + Z.of_nat (length (entries old)) < nslots nt →
  ∃ nt' m', rebuild_loop old nt = Some nt' ∧ nslots nt' = nslots nt ∧
    repr (Hidx nt' (Z.of_nat (size m'))) m' ∧
    ∀ h it, m' !! h = Some it ↔ m !! h = Some it ∨ (h ≠ 0 ∧ HSlot h (Some it) ∈ old).
Proof.
  revert nt m. induction old as [|s old IH]; intros nt m Hr Hnd Hin Hload; simpl.
  { exists nt, m. split_and!; try done. intros h it. rewrite elem_of_nil. naive_solver. }
  destruct (Z.eqb_spec (s_h s) 0) as [Hz|Hz].
  { unfold entries in *. rewrite filter_cons_False in Hnd, Hin, Hload by naive_solver.
    destruct (IH nt m Hr Hnd Hin Hload) as (nt' & m' & Hl & Hn & Hr' & Hm').
    exists nt', m'. split_and!; try done. intros h it. rewrite Hm', elem_of_cons.
    split; [naive_solver|]. intros [?|(Hh & [<-|?])]; [by left|done|naive_solver]. }
  unfold entries in Hnd, Hin, Hload. rewrite filter_cons_True in Hnd, Hin, Hload by done.
  fold (entries old) in Hnd, Hin, Hload. rewrite fmap_cons, NoDup_cons in Hnd.
  destruct Hnd as [Hni Hnd]. simpl in Hload.
  destruct (Hin s) as [[it0 Hit] Hms]; [left|].
  assert (s = HSlot (s_h s) (Some it0)) as Hs by (destruct s; simpl in *; congruence).
  destruct (put_slot_spec (Hidx nt (Z.of_nat (size m))) m (s_h s) it0) as (t & Ht & Hn & Hr');
    simpl; try done; [lia|].
  simpl in Ht, Hn, Hr'. rewrite Hs, Ht; simpl.
  assert (Z.of_nat (size (<[s_h s:=it0]> m)) = Z.of_nat (size m) + 1) as Hsz.
  { rewrite map_size_insert_None by done. lia. }
  destruct (IH t (<[s_h s:=it0]> m)) as (nt' & m' & Hl & Hn' & Hr'' & Hm').
  - by rewrite Hsz.
  - done.
  - intros s' Hs'. destruct (Hin s') as [? Hm]; [by right|]. split; [done|].
    rewrite lookup_insert_ne; [done|]. intros Heq. apply Hni. rewrite Heq.
    apply list_elem_of_fmap. eauto.
  - rewrite Hsz, Hn. lia.
  - exists nt', m'. split_and!; try done; [congruence|]. intros h it. rewrite Hm', elem_of_cons.
    rewrite <-Hs. destruct (decide (s_h s = h)) as [<-|Hne].
    + rewrite lookup_insert_eq, Hms. split.
      * intros [[= <-]|[? ?]]; [|naive_solver]. right. split; [done|]. by left.
      * intros [?|(Hh & [Heq|?])]; [done| |naive_solver]. left. rewrite Hs in Heq. by injection Heq as ->.
    + rewrite lookup_insert_ne by done. split; [naive_solver|].
      intros [?|(Hh & [Heq|?])]; [by left| |naive_solver]. exfalso. apply Hne. by rewrite <-Heq.
Qed.

(** The occupied slots of a represented table, one per handle. *)
Lemma entries_spec x m :
  repr x m →
  NoDup (s_h <$> entries (tab x)) ∧
  (∀ s, s ∈ entries (tab x) → is_Some (s_it s)) ∧
  (length (entries (tab x)) ≤ size m)%nat.
Proof.
  intros Hr.
  assert (∀ s, s ∈ entries (tab x) → ∃ p, in_range (tab x) p ∧ slot (tab x) p = s ∧ s_h s ≠ 0) as Hin.
  { intros s. unfold entries. rewrite list_elem_of_filter. intros [Hz Hs].
    apply list_elem_of_lookup in Hs as [i Hi]. apply lookup_slot in Hi as [? ?]. eauto. }
  assert (NoDup (s_h <$> entries (tab x))) as Hnd.
  { pose proof (r_uniq x m Hr) as Hu.
    assert (∀ i j si sj, tab x !! i = Some si → tab x !! j = Some sj → s_h si ≠ 0 →
      s_h si = s_h sj → i = j) as Hu'.
    { intros i j si sj Hi Hj Hz He. apply lookup_slot in Hi as [? Hi], Hj as [? Hj].
      apply Nat2Z.inj, Hu; try done; [|by rewrite Hi, Hj]. apply occupied_true. by rewrite Hi. }
    clear -Hu'. unfold entries. revert Hu'. induction (tab x) as [|s t IH]; intros Hu'; [constructor|].
    assert (NoDup (s_h <$> filter (λ s, s_h s ≠ 0) t)) as IH'.
    { apply IH. intros i j si sj Hi Hj Hz He. pose proof (Hu' (S i) (S j) si sj Hi Hj Hz He). lia. }
    destruct (decide (s_h s ≠ 0)) as [Hz|Hz].
    - rewrite filter_cons_True by done. rewrite fmap_cons. apply NoDup_cons. split; [|done].
      intros (s' & He & Hs')%list_elem_of_fmap. apply list_elem_of_filter in Hs' as [Hz' Hs'].
      apply list_elem_of_lookup in Hs' as [j Hj].
      pose proof (Hu' 0%nat (S j) s s' eq_refl Hj Hz He). lia.
    - by rewrite filter_cons_False. }
  split_and!; [done| |].
  - intros s Hs. destruct (Hin s Hs) as (p & Hp & <- & Hz).
    apply (r_full x m Hr); [done|by apply occupied_true].
  - rewrite <-(length_fmap s_h (entries (tab x))). apply handles_le_size; [done|]. apply Forall_fmap, Forall_forall.
    intros s Hs. destruct (Hin s Hs) as (p & Hp & <- & Hz). simpl.
    destruct (repr_holds x m p Hr Hp) as (it & _ & ->); [by apply occupied_true|by eexists].
Qed.

Lemma hidx_rebuild_spec x m nn :
  repr x m → (∃ k, 0 ≤ k ∧ nn = 2 ^ k) → live x < nn →
  ∃ x', hidx_rebuild true x nn = Some (true, x') ∧ repr x' m ∧
        nslots (tab x') = nn ∧ live x' = live x.
Proof.
  intros Hr Hnn Hload. destruct (entries_spec x m Hr) as (Hnd & Hsome & Hlen).
  pose proof (r_live x m Hr) as Hlive.
  assert (0 < nn) by (destruct Hnn as (k & ? & ->); lia).
  destruct (rebuild_loop_spec (tab x) (replicate (Z.to_nat nn) empty_slot) ∅) as (nt & m' & Hl & Hn & Hr' & Hm').
  - rewrite map_size_empty. apply repr_empty. by right.
  - done.
  - intros s Hs. split; [by apply Hsome|done].
  - rewrite map_size_empty. unfold nslots. rewrite length_replicate. lia.
  - assert (m' = m) as ->.
    { apply map_eq. intros h. apply option_eq. intros it. rewrite Hm', (r_map x m Hr), lookup_empty.
      split.
      - intros [?|[? Hin]]; [done|]. split; [done|]. apply list_elem_of_lookup in Hin as [i Hi].
        apply lookup_slot in Hi as [??]. eauto.
      - intros (? & p & Hp & Hsl). right. split; [done|]. apply list_elem_of_lookup.
        eexists. by apply slot_lookup. }
    unfold hidx_rebuild. rewrite Hl; simpl. eexists. split; [done|]. simpl.
    rewrite Hlive. split_and!; try done. rewrite Hn. unfold nslots. rewrite length_replicate. lia.
Qed.

Lemma size_loop_spec fuel e live :
  0 ≤ e → 0 ≤ live → live * 4 ≤ 2 ^ (e + Z.of_nat fuel) →
  ∃ e', e ≤ e' ∧ size_loop fuel (2 ^ e) live = 2 ^ e' ∧ live * 4 ≤ 2 ^ e' ∧
        (e' = e ∨ 2 ^ e' < live * 8).
Proof.
  revert e. induction fuel as [|fuel IH]; intros e He Hl Hb; simpl.
  { exists e. rewrite Z.add_0_r in Hb. split_and!; try done. by left. }
  destruct (Z.ltb_spec (2 ^ e) (live * 4)) as [Hlt|Hge].
  - rewrite Z.shiftl_mul_pow2 by lia.
    assert (2 ^ e * 2 ^ 1 = 2 ^ (e + 1)) as He1 by (by rewrite Z.pow_add_r by lia).
    rewrite He1. destruct (IH (e + 1)) as (e' & ? & ? & ? & Hor); [lia|done| |].
    { by replace (e + 1 + Z.of_nat fuel) with (e + Z.of_nat (S fuel)) by lia. }
    exists e'. split_and!; try done; [lia|]. right. destruct Hor as [->|]; [lia|done].
  - exists e. split_and!; try done; by left.
Qed.

(** The table size for [live] entries: a power of two, at least 64, at most a
    quarter full, and less than twice what that takes. *)
Lemma hidx_size_for_spec live :
  0 ≤ live ≤ SIZE_MAX / (8 * sizeof_hslot) →
  ∃ k, 6 ≤ k ∧ hidx_size_for live = 2 ^ k ∧ live * 4 ≤ 2 ^ k ∧ (k = 6 ∨ 2 ^ k < live * 8).
Proof.
  intros [Hl Hmax]. unfold SIZE_MAX, sizeof_hslot in Hmax. unfold hidx_size_for.
  change 64 with (2 ^ 6). apply size_loop_spec; [lia..|].
  change (2 ^ (6 + Z.of_nat 60)) with 73786976294838206464.
  change ((2 ^ 64 - 1) / (8 * 16)) with 144115188075855871 in Hmax. lia.
Qed.


(** ** Deletion: closing the gap

    The invariant of Algorithm R's scan: [i] is the hole, [j] the next slot to
    look at, and nothing between them needs the hole to be reached. *)
Record gap (t : list hslot) (i j : Z) : Prop := {
  g_i : in_range t i;
  g_j : in_range t j;
  g_ne : i ≠ j;
  g_path : ∀ p q, in_range t p → occupied t p = true → p ≠ i →
    in_range t q → q ≠ i →
    dist (nslots t) (hidx_slot (s_h (slot t p)) (nslots t)) q
      < dist (nslots t) (hidx_slot (s_h (slot t p)) (nslots t)) p →
    occupied t q = true;
  g_hole : ∀ p, in_range t p → occupied t p = true → p ≠ i →
    dist (nslots t) (hidx_slot (s_h (slot t p)) (nslots t)) i
      < dist (nslots t) (hidx_slot (s_h (slot t p)) (nslots t)) p →
    dist (nslots t) i j ≤ dist (nslots t) i p;
  g_between : ∀ q, in_range t q → 0 < dist (nslots t) i q < dist (nslots t) i j →
    occupied t q = true;
  g_uniq : ∀ p q, in_range t p → in_range t q → p ≠ i → q ≠ i → occupied t p = true →
    s_h (slot t p) = s_h (slot t q) → p = q }.

(** The table with the hole taken out. *)
Definition holds (t : list hslot) (i : Z) (s : hslot) : Prop :=
  s_h s ≠ 0 ∧ ∃ p, in_range t p ∧ p ≠ i ∧ slot t p = s.

Definition stays (n i j k : Z) : bool :=
  if i <? j then (k <=? i) || (j <? k) else (k <=? i) && (j <? k).

(** The code's test says whether the home [k] lies outside the cyclic interval (i, j]. *)
Lemma stays_spec n i j k :
  0 ≤ i < n → 0 ≤ j < n → 0 ≤ k < n → i ≠ j →
  stays n i j k = true ↔ dist n k i < dist n k j.
Proof.
  intros. unfold stays. destruct (Z.ltb_spec i j), (Z.leb_spec k i), (Z.ltb_spec j k);
    simpl; split; intros; try done; dist_lia.
Qed.

Lemma gap_skip t i j :
  sized t → gap t i j → occupied t j = true →
  stays (nslots t) i j (hidx_slot (s_h (slot t j)) (nslots t)) = false →
  next t j ≠ i → gap t i (next t j).
Proof.
  intros Hs [Hi Hj Hne Hpath Hhole Hbet Hu] Hoj Hst Hni.
  destruct (next_spec t j Hs Hj) as [Hnr Hn].
  assert (dist (nslots t) i (next t j) = dist (nslots t) i j + 1) as Hd.
  { unfold in_range in *. case_decide; dist_lia. }
  constructor; try done.
  - intros p Hp Ho Hpi Hlt. rewrite Hd. specialize (Hhole p Hp Ho Hpi Hlt).
    destruct (decide (p = j)) as [->|Hpj]; [|unfold in_range in *; dist_lia].
    exfalso. apply not_true_iff_false in Hst. apply Hst. apply stays_spec; try done.
    by apply hidx_slot_range.
  - intros q Hq Hlt. rewrite Hd in Hlt. destruct (decide (q = j)) as [->|]; [done|].
    apply Hbet; [done|]. unfold in_range in *. dist_lia.
Qed.

Lemma gap_move t i j :
  sized t → gap t i j → occupied t j = true →
  stays (nslots t) i j (hidx_slot (s_h (slot t j)) (nslots t)) = true →
  next t j ≠ j → gap (set_slot t i (slot t j)) j (next t j).
Proof.
  intros Hs [Hi Hj Hne Hpath Hhole Hbet Hu] Hoj Hst Hni.
  destruct (next_spec t j Hs Hj) as [Hnr Hn].
  assert (dist (nslots t) j (next t j) = 1) as Hd.
  { unfold in_range in *. case_decide; dist_lia. }
  apply stays_spec in Hst; [|done..|by apply hidx_slot_range|done].
  constructor; rewrite ?in_range_set, ?nslots_set; try done.
  - intros p q. rewrite !in_range_set. intros Hp Ho Hpj Hq Hqj Hlt.
    destruct (decide (q = i)) as [->|Hqi].
    { apply occupied_true. rewrite slot_set_eq by done. by apply occupied_true. }
    rewrite occupied_set_ne by eauto.
    destruct (decide (p = i)) as [->|Hpi].
    + rewrite slot_set_eq in Hlt by done. apply (Hpath j q); try done.
      by etrans.
    + rewrite slot_set_ne in Hlt by eauto. rewrite occupied_set_ne in Ho by eauto.
      by apply (Hpath p q).
  - intros p. rewrite in_range_set. intros Hp Ho Hpj _. rewrite Hd. unfold in_range in *. dist_lia.
  - intros q _ Hlt. rewrite Hd in Hlt. lia.
  - intros p q. rewrite !in_range_set. intros Hp Hq Hpj Hqj Ho Heq.
    destruct (decide (p = i)) as [->|Hpi], (decide (q = i)) as [->|Hqi]; [done|..].
    + rewrite slot_set_eq, slot_set_ne in Heq by eauto. exfalso. apply Hqj.
      symmetry. by apply Hu.
    + rewrite slot_set_ne, slot_set_eq in Heq by eauto. rewrite occupied_set_ne in Ho by eauto.
      exfalso. apply Hpj. by apply Hu.
    + rewrite !slot_set_ne in Heq by eauto. rewrite occupied_set_ne in Ho by eauto. by apply Hu.
Qed.

Lemma holds_move t i j s :
  in_range t i → in_range t j → i ≠ j →
  holds (set_slot t i (slot t j)) j s ↔ holds t i s.
Proof.
  intros Hi Hj Hne. unfold holds. split; intros (Hz & p & Hp & Hpi & Hs); (split; [done|]).
  - rewrite in_range_set in Hp. destruct (decide (p = i)) as [->|].
    + exists j. rewrite slot_set_eq in Hs by done. done.
    + exists p. rewrite slot_set_ne in Hs by eauto. done.
  - destruct (decide (p = j)) as [->|].
    + exists i. rewrite in_range_set, slot_set_eq by done. done.
    + exists p. rewrite in_range_set, slot_set_ne by eauto. done.
Qed.

Lemma close_gap_spec fuel t i j e :
  sized t → gap t i j → in_range t e → e ≠ i → occupied t e = false →
  dist (nslots t) j e < Z.of_nat fuel →
  ∃ t' i' j', close_gap fuel t i j = Some (t', i') ∧ nslots t' = nslots t ∧ sized t' ∧
    gap t' i' j' ∧ occupied t' j' = false ∧ ∀ s, holds t' i' s ↔ holds t i s.
Proof.
  revert t i j. induction fuel as [|fuel IH]; intros t i j Hs Hg He Hei Hoe Hf; simpl.
  { pose proof (g_j _ _ _ Hg). unfold in_range in *. dist_lia. }
  pose proof (g_i _ _ _ Hg) as Hi. pose proof (g_j _ _ _ Hg) as Hj.
  pose proof (g_ne _ _ _ Hg) as Hne. pose proof (g_between _ _ _ Hg e He) as Hbet.
  destruct (occupied t j) eqn:Hoj; last first.
  { exists t, i, j. split_and!; done. }
  destruct (next_spec t j Hs Hj) as [Hnr Hn].
  assert (j ≠ e) as Hje by congruence.
  assert (dist (nslots t) (next t j) e < Z.of_nat fuel) as Hf'.
  { unfold in_range in *. case_decide; dist_lia. }
  fold (stays (nslots t) i j (hidx_slot (s_h (slot t j)) (nslots t))).
  destruct (stays _ _ _ _) eqn:Hst.
  - destruct (IH (set_slot t i (slot t j)) j (next t j)) as (t' & i' & j' & Hc & Hn' & Hs' & Hg' & Ho' & Hh').
    + auto.
    + apply gap_move; try done. unfold in_range in *. case_decide; lia.
    + by rewrite in_range_set.
    + congruence.
    + rewrite occupied_set_ne; eauto.
    + by rewrite nslots_set.
    + exists t', i', j'. rewrite nslots_set in Hn'. split_and!; try done.
      intros s. rewrite Hh'. by apply holds_move.
  - destruct (IH t i (next t j)) as (t' & i' & j' & ?); try done.
    + apply gap_skip; try done. intros Heq.
      assert (occupied t e = true); [|congruence].
      apply Hbet. unfold in_range in *. case_decide; dist_lia.
    + eauto.
Qed.

Lemma gap_init x m i :
  repr x m → sized (tab x) → in_range (tab x) i → occupied (tab x) i = true →
  next (tab x) i ≠ i → gap (tab x) i (next (tab x) i).
Proof.
  intros Hr Hs Hi Hoi Hne. destruct (next_spec (tab x) i Hs Hi) as [Hnr Hn].
  assert (dist (nslots (tab x)) i (next (tab x) i) = 1) as Hd.
  { unfold in_range in *. case_decide; dist_lia. }
  constructor; try done.
  - intros p q Hp Ho Hpi Hq Hqi Hlt. by apply (r_probe x m Hr p Hp Ho).
  - intros p Hp Ho Hpi _. rewrite Hd. unfold in_range in *. dist_lia.
  - intros q Hq Hlt. rewrite Hd in Hlt. lia.
  - intros p q Hp Hq _ _ Ho Heq. by apply (r_uniq x m Hr).
Qed.

(** Once the scan meets an empty slot the hole can be cleared: no lookup runs
    through it any more. *)
Lemma gap_close x m t i j h it :
  repr x m → m !! h = Some it → sized t → nslots t = nslots (tab x) →
  gap t i j → occupied t j = false →
  (∀ s, holds t i s ↔ s_h s ≠ 0 ∧ s_h s ≠ h ∧ ∃ p, in_range (tab x) p ∧ slot (tab x) p = s) →
  repr (Hidx (set_slot t i empty_slot) (live x - 1)) (delete h m).
Proof.
  intros Hr Hm Hs Hn [Hi Hj Hne Hpath Hhole Hbet Hu] Hoj Hh.
  assert (∀ p, in_range t p → occupied (set_slot t i empty_slot) p = true ↔ p ≠ i ∧ occupied t p = true) as Hocc.
  { intros p Hp. destruct (decide (p = i)) as [->|].
    - rewrite occupied_true, slot_set_eq by done. naive_solver.
    - rewrite occupied_set_ne by eauto. naive_solver. }
  constructor; simpl; rewrite ?nslots_set.
  - right; auto.
  - intros p. rewrite in_range_set. intros Hp Ho q. rewrite in_range_set, nslots_set. intros Hq Hlt.
    apply Hocc in Ho as [Hpi Ho]; [|done]. rewrite slot_set_ne in Hlt by eauto.
    apply Hocc; [done|]. assert (q ≠ i) as Hqi; [|split; [done|by apply (Hpath p q)]].
    intros ->. specialize (Hhole p Hp Ho Hpi Hlt).
    destruct (decide (p = j)) as [->|]; [congruence|].
    assert (occupied t j = true); [|congruence].
    apply (Hpath p j); try done.
    pose proof (hidx_slot_range t (s_h (slot t p)) Hs). unfold in_range in *. dist_lia.
  - intros p q. rewrite !in_range_set. intros Hp Hq Ho Heq.
    apply Hocc in Ho as [Hpi Ho]; [|done]. rewrite slot_set_ne in Heq by eauto.
    assert (q ≠ i).
    { intros ->. rewrite slot_set_eq in Heq by done. by apply occupied_true in Ho. }
    rewrite slot_set_ne in Heq by eauto. by apply Hu.
  - intros p. rewrite in_range_set. intros Hp Ho. apply Hocc in Ho as [Hpi Ho]; [|done].
    rewrite slot_set_ne by eauto.
    destruct (proj1 (Hh (slot t p))) as (Hz & _ & p' & Hp' & Hsl).
    { split; [by apply occupied_true|]. by exists p. }
    rewrite <-Hsl. apply (r_full x m Hr); [done|]. apply occupied_true. by rewrite Hsl.
  - intros h' it'. rewrite lookup_delete_Some, (r_map x m Hr). split.
    + intros (Hhh & Hz & p & Hp & Hsl). split; [done|].
      destruct (proj2 (Hh (HSlot h' (Some it')))) as (_ & p' & Hp' & Hpi & Hsl'); [naive_solver|].
      exists p'. rewrite in_range_set, slot_set_ne by eauto. done.
    + intros (Hz & p & Hp & Hsl). rewrite in_range_set in Hp.
      destruct (decide (p = i)) as [->|]; [rewrite slot_set_eq in Hsl by done; naive_solver|].
      rewrite slot_set_ne in Hsl by eauto.
      destruct (proj1 (Hh (HSlot h' (Some it')))) as (_ & Hhh & p' & ?); [by split; [|exists p]|].
      simpl in Hhh. split; [done|]. split; [done|]. by exists p'.
  - rewrite (r_live x m Hr). rewrite map_size_delete_Some by eauto.
    assert (size m ≠ 0%nat); [|lia]. intros H0. apply map_size_empty_inv in H0. by subst.
  - pose proof (r_load x m Hr). right. rewrite Hn. unfold nslots in *. lia.
Qed.

Lemma hidx_del_spec x m h it :
  repr x m → m !! h = Some it →
  ∃ x', hidx_del x true h = Some x' ∧ repr x' (delete h m) ∧ nslots (tab x') = nslots (tab x).
Proof.
  intros Hr Hm. pose proof (hidx_find_spec x m h Hr) as Hf. unfold hidx_del.
  destruct (hidx_find x h) as [i|]; [|destruct Hf as [->|]; [|congruence]].
  2:{ apply (r_map x m Hr) in Hm as [? _]. done. }
  destruct Hf as (Hi & Hz & Hsi & _). assert (tab x ≠ []) as Hne.
  { intros He. unfold in_range in Hi. rewrite He in Hi. unfold nslots in Hi. simpl in Hi. lia. }
  assert (sized (tab x)) as Hs by (destruct (r_sized x m Hr); done).
  assert (occupied (tab x) i = true) as Hoi by (apply occupied_true; congruence).
  destruct (exists_free x m Hr Hne) as (e & He & Hoe).
  assert (e ≠ i) as Hei by congruence.
  destruct (next_spec (tab x) i Hs Hi) as [Hnr Hn].
  destruct (close_gap_spec (length (tab x)) (tab x) i (next (tab x) i) e)
    as (t & i' & j' & Hc & Hnt & Hst & Hg & Ho & Hh); try done.
  { apply (gap_init x m); try done. unfold in_range in *. case_decide; lia. }
  { unfold in_range in *. unfold nslots in *. dist_lia. }
  rewrite Hc; simpl. eexists. split; [done|]. split; [|simpl; by rewrite nslots_set].
  eapply gap_close; try done. intros s. rewrite Hh. unfold holds. split.
  - intros (Hsz & p & Hp & Hpi & Hsl). split; [done|]. split; [|eauto]. intros Heq.
    apply Hpi. apply (r_uniq x m Hr); try done.
    + apply occupied_true. congruence.
    + congruence.
  - intros (Hsz & Hsh & p & Hp & Hsl). split; [done|]. exists p. split_and!; try done. congruence.
Qed.


(** ** The laws the engine relies on *)
Lemma repr_nonzero x m h : repr x m → is_Some (m !! h) → h ≠ 0.
Proof. intros Hr [it Hm]. by apply (r_map x m Hr) in Hm as [? _]. Qed.

Lemma hidx_lookup_eq x m h : repr x m → hidx_lookup x h = m !! h.
Proof.
  intros Hr. pose proof (hidx_find_spec x m h Hr) as Hf. unfold hidx_lookup.
  destruct (hidx_find x h) as [p|]; simpl; [by destruct Hf as (_ & _ & _ & <- & _)|].
  destruct Hf as [-> | ->]; [|done]. symmetry. apply eq_None_not_Some.
  intros Hsome. by apply (repr_nonzero x m 0 Hr) in Hsome.
Qed.

Lemma hidx_reserve_spec alloc x m :
  repr x m →
  ∃ ok x', hidx_reserve alloc x = Some (ok, x') ∧ repr x' m ∧
    (ok = false → x' = x) ∧ (ok = true → (live x' + 1) * 2 ≤ nslots (tab x')).
Proof.
  intros Hr. pose proof (r_live x m Hr) as Hlive. unfold hidx_reserve.
  destruct (Z.leb_spec ((live x + 1) * 2) (nslots (tab x))); [by eexists true, x|].
  rewrite Z.gtb_ltb. destruct (Z.ltb_spec (SIZE_MAX / (8 * sizeof_hslot)) (live x + 1)).
  { by eexists false, x. }
  destruct alloc; [|by eexists false, x].
  destruct (hidx_size_for_spec (live x + 1)) as (k & Hk & Hsz & Hq & _); [lia|].
  destruct (hidx_rebuild_spec x m (hidx_size_for (live x + 1)) Hr) as (x' & Hb & Hr' & Hn & Hl).
  - exists k. split; [lia|done].
  - rewrite Hsz. lia.
  - exists true, x'. split_and!; try done. intros _. rewrite Hl, Hn, Hsz. lia.
Qed.

Lemma hidx_put_spec x m h it :
  repr x m → h ≠ 0 → m !! h = None → (live x + 1) * 2 ≤ nslots (tab x) →
  ∃ x', hidx_put x h it = Some x' ∧ repr x' (<[h := it]> m).
Proof.
  intros Hr Hh Hm Hl. pose proof (r_live x m Hr).
  destruct (put_slot_spec x m h it Hr Hh Hm) as (t & Ht & _ & Hr'); [lia|]. unfold hidx_put. rewrite Ht; simpl. by eexists.
Qed.

Lemma hidx_trim_spec alloc mx x m :
  repr x m → live x ≤ SIZE_MAX / (8 * sizeof_hslot) →
  ∃ x', hidx_trim alloc mx x = Some x' ∧ repr x' m.
Proof.
  intros Hr Hmax. unfold hidx_trim. destruct (negb _); [by eexists|].
  destruct (_ && _); [|by eexists]. destruct alloc; [|by eexists].
  pose proof (r_live x m Hr).
  destruct (hidx_size_for_spec (live x)) as (k & Hk & Hsz & Hq & _); [lia|].
  destruct (hidx_rebuild_spec x m (hidx_size_for (live x)) Hr) as (x' & -> & Hr' & _).
  - exists k. split; [lia|done].
  - rewrite Hsz. lia.
  - by eexists.
Qed.

End HandleIndex.
