(* ===== verification/Fifo.v ===== *)
(** * The doubly linked queues of [src/engine.c]

    [fifo_push], [fifo_pop] and [fifo_remove] at the level of the pointers they
    write, in a store of nodes, and the proof that they implement list append,
    head and deletion - and touch nothing else. *)

From S2P Require Import Prelude.

Abbreviation ptr := positive (only parsing).

Module Fifo.

(** ** The code *)

(** The fields of [gptps_item] a queue operation reads or writes. *)
Record node := Node {
  n_next : option ptr;
  n_prev : option ptr;
  n_where : Z;
  n_score : Z;      (* sched_score *)
  n_seq : Z         (* intake_seq *) }.
#[export] Instance eta_node : Eta node :=
  λ n, Node (n_next n) (n_prev n) (n_where n) (n_score n) (n_seq n).

Abbreviation store := (gmap ptr node).

Record fifo := MkFifo { f_head : option ptr; f_tail : option ptr; f_count : Z; f_id : Z }.
#[export] Instance eta_fifo : Eta fifo := λ q, MkFifo (f_head q) (f_tail q) (f_count q) (f_id q).

Definition Q_NONE : Z := 0.
Definition Q_INTAKE : Z := 1.

(** A write through a pointer: [None] is a pointer to no item. *)
Definition write (s : store) (p : ptr) (f : node → node) : option store :=
  n ← s !! p; Some (<[p := f n]> s).
(** [if (p) p->next = v;] and [if (p) p->prev = v;] *)
Definition set_next (s : store) (p : option ptr) (v : option ptr) : option store :=
  match p with None => Some s | Some p => write s p (λ n, n <| n_next := v |>) end.
Definition set_prev (s : store) (p : option ptr) (v : option ptr) : option store :=
  match p with None => Some s | Some p => write s p (λ n, n <| n_prev := v |>) end.

Definition fifo_push (s : store) (q : fifo) (it : ptr) : option (store * fifo) :=
  s ← write s it (λ n, n <| n_next := None |> <| n_prev := f_tail q |>);
  s ← set_next s (f_tail q) (Some it);
  let q := if f_tail q then q else q <| f_head := Some it |> in
  let q := q <| f_tail := Some it |> <| f_count ::= Z.add 1 |> in
  s ← write s it (λ n, n <| n_where := f_id q |>);
  Some (s, q).

Definition fifo_pop (s : store) (q : fifo) : option (option ptr * store * fifo) :=
  match f_head q with
  | None => Some (None, s, q)
  | Some it =>
      n ← s !! it;
      let q := q <| f_head := n_next n |> in
      s ← set_prev s (f_head q) None;
      let q := if f_head q then q else q <| f_tail := None |> in
      s ← write s it (λ n, n <| n_next := None |> <| n_prev := None |>);
      let q := q <| f_count ::= λ c, c - 1 |> in
      s ← write s it (λ n, n <| n_where := Q_NONE |>);
      Some (Some it, s, q)
  end.

(** Unlink [target], which must be in [q]. *)
Definition fifo_remove (s : store) (q : fifo) (target : ptr) : option (store * fifo) :=
  n ← s !! target;
  s ← set_next s (n_prev n) (n_next n);
  let q := if n_prev n then q else q <| f_head := n_next n |> in
  n ← s !! target;
  s ← set_prev s (n_next n) (n_prev n);
  let q := if n_next n then q else q <| f_tail := n_prev n |> in
  s ← write s target (λ n, n <| n_next := None |> <| n_prev := None |>);
  let q := q <| f_count ::= λ c, c - 1 |> in
  s ← write s target (λ n, n <| n_where := Q_NONE |>);
  Some (s, q).

(** ** What a queue holds *)

Definition first (l : list ptr) (d : option ptr) : option ptr :=
  match l with [] => d | x :: _ => Some x end.
Fixpoint final (l : list ptr) (d : option ptr) : option ptr :=
  match l with [] => d | x :: l => final l (Some x) end.

(** The nodes of [l] are chained both ways, from [prev] to [next]. *)
Fixpoint links (s : store) (prev : option ptr) (l : list ptr) (next : option ptr) : Prop :=
  match l with
  | [] => True
  | x :: l => (∃ n, s !! x = Some n ∧ n_prev n = prev ∧ n_next n = first l next) ∧
              links s (Some x) l next
  end.

(** Two stores that differ only in links, and only on [l]. *)
Definition same_data (n n' : node) : Prop :=
  n_where n' = n_where n ∧ n_score n' = n_score n ∧ n_seq n' = n_seq n.
Record relinked (l : list ptr) (s s' : store) : Prop := {
  rl_frame : ∀ p, p ∉ l → s' !! p = s !! p;
  rl_data : ∀ p n, s !! p = Some n → ∃ n', s' !! p = Some n' ∧ same_data n n' }.

Record rep (s : store) (q : fifo) (l : list ptr) : Prop := {
  rep_head : f_head q = first l None;
  rep_tail : f_tail q = final l None;
  rep_count : f_count q = Z.of_nat (length l);
  rep_nodup : NoDup l;
  rep_links : links s None l None;
  rep_where : ∀ p n, p ∈ l → s !! p = Some n → n_where n = f_id q }.

(** ** Chains *)

Lemma first_app l1 l2 d : first (l1 ++ l2) d = first l1 (first l2 d).
Proof. by destruct l1. Qed.
Lemma final_app l1 l2 d : final (l1 ++ l2) d = final l2 (final l1 d).
Proof. revert d. induction l1 as [|x l1 IH]; intros d; [done|]. apply IH. Qed.
Lemma final_elem l d p : final l d = Some p → d = Some p ∨ p ∈ l.
Proof.
  revert d. induction l as [|x l IH]; intros d; simpl; [by left|].
  intros [[= ->]|?]%IH; right; [left|by right].
Qed.
Lemma final_nonempty l d d' : l ≠ [] → final l d = final l d'.
Proof. by destruct l. Qed.

Lemma final_some l p : ∃ r, final l (Some p) = Some r.
Proof. revert p. induction l as [|x l IH]; intros p; simpl; [by eexists|]. apply IH. Qed.
Lemma final_none l : final l None = None → l = [].
Proof. destruct l as [|x l]; [done|]. simpl. by destruct (final_some l x) as [r ->]. Qed.
Lemma first_none l : first l None = None → l = [].
Proof. by destruct l. Qed.

Lemma links_app s prev l1 l2 next :
  links s prev (l1 ++ l2) next ↔ links s prev l1 (first l2 next) ∧ links s (final l1 prev) l2 next.
Proof.
  revert prev. induction l1 as [|x l1 IH]; intros prev; simpl; [tauto|].
  rewrite IH, first_app. tauto.
Qed.

Lemma links_frame s s' prev l next :
  (∀ p, p ∈ l → s' !! p = s !! p) → links s prev l next → links s' prev l next.
Proof.
  revert prev. induction l as [|x l IH]; intros prev Hf; simpl; [done|].
  intros [(n & Hn & ?) Hl]. split; [|apply IH; [|done]; set_solver].
  exists n. rewrite Hf by set_solver. done.
Qed.

Lemma links_lookup s prev l next p :
  links s prev l next → p ∈ l → is_Some (s !! p).
Proof.
  revert prev. induction l as [|x l IH]; intros prev; simpl; [set_solver|].
  intros [(n & Hn & _) Hl] [->|?]%elem_of_cons; [by eexists|by eapply IH].
Qed.

Lemma relinked_refl l s : relinked l s s.
Proof. split; [done|]. intros p n Hn. by exists n. Qed.
Lemma relinked_trans l s1 s2 s3 : relinked l s1 s2 → relinked l s2 s3 → relinked l s1 s3.
Proof.
  intros [H1 H2] [H3 H4]. split; [intros p Hp; by rewrite H3, H1|].
  intros p n Hn. destruct (H2 p n Hn) as (n2 & Hn2 & ? & ? & ?).
  destruct (H4 p n2 Hn2) as (n3 & Hn3 & ? & ? & ?). exists n3. split; [done|].
  split_and!; congruence.
Qed.
Lemma relinked_mono l l' s s' : l ⊆ l' → relinked l s s' → relinked l' s s'.
Proof. intros Hs [H1 H2]. split; [|done]. intros p Hp. apply H1. set_solver. Qed.

Lemma write_relinked s p f n :
  s !! p = Some n → same_data n (f n) →
  write s p f = Some (<[p := f n]> s) ∧ relinked [p] s (<[p := f n]> s).
Proof.
  intros Hn Hf. unfold write. rewrite Hn. split; [done|]. split.
  - intros q Hq. rewrite lookup_insert_ne; [done|set_solver].
  - intros q m Hm. destruct (decide (p = q)) as [<-|].
    + rewrite lookup_insert_eq. simplify_eq. by eexists.
    + rewrite lookup_insert_ne by done. exists m. done.
Qed.

(** Re-aiming the end of a chain, and its beginning. *)
Lemma set_next_final s prev l next v :
  links s prev l next → NoDup l →
  ∃ s', set_next s (final l None) v = Some s' ∧ relinked l s s' ∧ links s' prev l v.
Proof.
  intros Hl Hnd. destruct (decide (l = [])) as [->|Hne].
  { exists s. split_and!; [done|apply relinked_refl|done]. }
  destruct (exists_last Hne) as (l' & x & ->).
  apply links_app in Hl as [Hl1 [(n & Hn & Hp & Hx) _]].
  apply NoDup_app in Hnd as (Hnd1 & Hnd2 & _).
  rewrite final_app. cbn [final set_next].
  destruct (write_relinked s x (λ n, n <| n_next := v |>) n Hn) as [-> Hr]; [done|].
  eexists. split; [done|]. split; [eapply relinked_mono; [|done]; set_solver|].
  apply links_app. split.
  - eapply links_frame; [|done]. intros p Hpl. rewrite lookup_insert_ne; [done|]. set_solver.
  - simpl. split; [|done]. rewrite lookup_insert_eq. eexists. split; [done|]. done.
Qed.

Lemma set_prev_first s prev l next v :
  links s prev l next → NoDup l →
  ∃ s', set_prev s (first l None) v = Some s' ∧ relinked l s s' ∧ links s' v l next.
Proof.
  intros Hl Hnd. destruct l as [|x l].
  { exists s. split_and!; [done|apply relinked_refl|done]. }
  destruct Hl as [(n & Hn & Hp & Hx) Hl]. apply NoDup_cons in Hnd as [Hni _]. cbn [first set_prev].
  destruct (write_relinked s x (λ n, n <| n_prev := v |>) n Hn) as [-> Hr]; [done|].
  eexists. split; [done|]. split; [eapply relinked_mono; [|done]; set_solver|]. split.
  - rewrite lookup_insert_eq. eexists. split; [done|]. done.
  - eapply links_frame; [|done]. intros p Hpl. rewrite lookup_insert_ne; [done|]. set_solver.
Qed.


(** ** The queue operations on the chain

    [unlink] and [link] are the common core: taking a node out of the middle of a
    chain and splicing one in. *)
Lemma unlink_spec s l1 x l2 :
  links s None (l1 ++ x :: l2) None → NoDup (l1 ++ x :: l2) →
  ∃ n s1 s2, s !! x = Some n ∧ n_prev n = final l1 None ∧ n_next n = first l2 None ∧
    set_next s (n_prev n) (n_next n) = Some s1 ∧
    s1 !! x = Some n ∧ set_prev s1 (n_next n) (n_prev n) = Some s2 ∧ s2 !! x = Some n ∧
    relinked (l1 ++ l2) s s2 ∧ links s2 None (l1 ++ l2) None.
Proof.
  intros Hl Hnd. apply links_app in Hl as [Hl1 [(n & Hn & Hp & Hx) Hl2]]. simpl in Hl1.
  apply NoDup_app in Hnd as (Hnd1 & Hdis & Hnd2%NoDup_cons). destruct Hnd2 as [Hx2 Hnd2].
  assert (x ∉ l1) by (intros ?; apply (Hdis x); set_solver).
  assert (∀ p, p ∈ l1 → p ∉ l2) by (intros p ??; apply (Hdis p); set_solver).
  destruct (set_next_final s None l1 (Some x) (first l2 None)) as (s1 & Hs1 & Hr1 & Hl1'); try done.
  assert (links s1 (Some x) l2 None) as Hl2'.
  { eapply links_frame; [|done]. intros p Hpl. apply (rl_frame _ _ _ Hr1). set_solver. }
  destruct (set_prev_first s1 (Some x) l2 None (final l1 None)) as (s2 & Hs2 & Hr2 & Hl2''); try done.
  exists n, s1, s2. rewrite Hp, Hx.
  assert (s1 !! x = Some n) as Hn1 by (by rewrite (rl_frame _ _ _ Hr1)).
  split_and!; try done.
  - by rewrite (rl_frame _ _ _ Hr2).
  - eapply relinked_trans; eapply relinked_mono; [|done| |done]; set_solver.
  - apply links_app. split; [|done]. eapply links_frame; [|done].
    intros p Hpl. apply (rl_frame _ _ _ Hr2). set_solver.
Qed.

Lemma link_spec s l1 x l2 n :
  links s None (l1 ++ l2) None → NoDup (l1 ++ l2) → x ∉ l1 ++ l2 →
  s !! x = Some n → n_next n = first l2 None → n_prev n = final l1 None →
  ∃ s1 s2, set_prev s (first l2 None) (Some x) = Some s1 ∧
    set_next s1 (final l1 None) (Some x) = Some s2 ∧ s2 !! x = Some n ∧
    relinked (l1 ++ l2) s s2 ∧ links s2 None (l1 ++ x :: l2) None.
Proof.
  intros Hl Hnd Hx Hn Hnn Hnp. apply links_app in Hl as [Hl1 Hl2].
  apply NoDup_app in Hnd as (Hnd1 & Hdis & Hnd2).
  destruct (set_prev_first s (final l1 None) l2 None (Some x)) as (s1 & Hs1 & Hr1 & Hl2'); try done.
  assert (links s1 None l1 (first l2 None)) as Hl1'.
  { eapply links_frame; [|done]. intros p Hpl. apply (rl_frame _ _ _ Hr1). set_solver. }
  destruct (set_next_final s1 None l1 (first l2 None) (Some x)) as (s2 & Hs2 & Hr2 & Hl1''); try done.
  exists s1, s2.
  assert (s2 !! x = Some n) as Hn2.
  { rewrite (rl_frame _ _ _ Hr2), (rl_frame _ _ _ Hr1); [done|set_solver..]. }
  split_and!; try done.
  - eapply relinked_trans; eapply relinked_mono; [|done| |done]; set_solver.
  - apply links_app. split; [done|]. split; [by exists n|].
    eapply links_frame; [|done]. intros p Hpl. apply (rl_frame _ _ _ Hr2). set_solver.
Qed.

(** What an operation leaves alone: every item other than those of [l], and the
    score and stamp of every item. *)
Record untouched (l : list ptr) (s s' : store) : Prop := {
  un_frame : ∀ p, p ∉ l → s' !! p = s !! p;
  un_data : ∀ p n, s !! p = Some n →
    ∃ n', s' !! p = Some n' ∧ n_score n' = n_score n ∧ n_seq n' = n_seq n }.

Lemma relinked_untouched l l' s s' : relinked l s s' → l ⊆ l' → untouched l' s s'.
Proof.
  intros [Hf Hd] Hs. split; [intros p Hp; apply Hf; set_solver|].
  intros p n (n' & ? & ? & ? & ?)%Hd. eauto.
Qed.
Lemma untouched_insert l s s' x n :
  untouched l s s' → x ∈ l →
  (∀ m, s !! x = Some m → n_score n = n_score m ∧ n_seq n = n_seq m) →
  untouched l s (<[x := n]> s').
Proof.
  intros [Hf Hd] Hx Hn. split.
  - intros p Hp. rewrite lookup_insert_ne; [by apply Hf|]. set_solver.
  - intros p m Hm. destruct (decide (x = p)) as [<-|].
    + rewrite lookup_insert_eq. exists n. split; [done|]. by apply Hn.
    + rewrite lookup_insert_ne by done. by apply Hd.
Qed.

(** A chain survives a write to an item outside it, and to fields other than links. *)
Lemma links_insert s prev l next x n :
  links s prev l next → x ∉ l → links (<[x := n]> s) prev l next.
Proof.
  intros Hl Hx. eapply links_frame; [|done]. intros p Hp.
  rewrite lookup_insert_ne; [done|set_solver].
Qed.
Lemma links_insert_same s prev l next x n m :
  links s prev l next → s !! x = Some m → n_next n = n_next m → n_prev n = n_prev m →
  links (<[x := n]> s) prev l next.
Proof.
  intros Hl Hm Hnn Hnp. revert prev Hl. induction l as [|y l IH]; intros prev; simpl; [done|].
  intros [(k & Hk & ? & ?) Hl]. split; [|by apply IH].
  destruct (decide (x = y)) as [<-|].
  - rewrite lookup_insert_eq. simplify_eq. exists n. split_and!; [done|congruence..].
  - rewrite lookup_insert_ne by done. by exists k.
Qed.


Lemma relinked_where l s s' p n' :
  relinked l s s' → is_Some (s !! p) → s' !! p = Some n' →
  ∃ n, s !! p = Some n ∧ n_where n' = n_where n.
Proof.
  intros Hr [n Hn] Hn'. destruct (rl_data _ _ _ Hr p n Hn) as (m & Hm & Hw & _).
  exists n. split; [done|]. congruence.
Qed.

Lemma fifo_push_rep s q l it n0 :
  rep s q l → s !! it = Some n0 → it ∉ l →
  ∃ s' q', fifo_push s q it = Some (s', q') ∧ rep s' q' (l ++ [it]) ∧
    f_id q' = f_id q ∧ untouched (it :: l) s s'.
Proof.
  intros [Hh Ht Hc Hnd Hl Hw] Hit Hni. unfold fifo_push, write. rewrite Hit; cbn [mbind option_bind].
  set (n1 := n0 <| n_next := None |> <| n_prev := f_tail q |>).
  destruct (link_spec (<[it := n1]> s) l it [] n1) as (s1 & s2 & Hs1 & Hs2 & Hit2 & Hr & Hl2).
  - rewrite app_nil_r. by apply links_insert.
  - by rewrite app_nil_r.
  - by rewrite app_nil_r.
  - by rewrite lookup_insert_eq.
  - done.
  - done.
  - cbn [first set_prev] in Hs1. injection Hs1 as <-. rewrite Ht, Hs2.
    cbn [mbind option_bind]. rewrite Hit2. cbn [mbind option_bind].
    rewrite app_nil_r in Hr. eexists _, _. split; [done|].
    assert (∀ p, p ∈ l → s2 !! p ≠ None ∧ ∀ n, s2 !! p = Some n → n_where n = f_id q) as Hw2.
    { intros p Hp. assert (it ≠ p) by set_solver.
      destruct (links_lookup s None l None p Hl Hp) as [m Hm].
      assert (<[it:=n1]> s !! p = Some m) as Hm1 by (by rewrite lookup_insert_ne).
      destruct (rl_data _ _ _ Hr p m Hm1) as (m2 & Hm2 & Hwm & _).
      rewrite Hm2. split; [done|]. intros n [= <-]. rewrite Hwm. by eapply Hw. }
    split; [|split].
    + constructor; cbn.
      * rewrite <-Ht, first_app. destruct l as [|y l]; simpl in *; [by rewrite Ht|].
        rewrite Ht. destruct (final l (Some y)) eqn:Hf; [done|].
        exfalso. clear -Hf. revert y Hf. induction l; naive_solver.
      * by rewrite final_app.
      * rewrite length_app, <-Ht. simpl. destruct (f_tail q); cbn; rewrite Hc; lia.
      * apply NoDup_app. split_and!; [done|set_solver|apply NoDup_singleton].
      * eapply links_insert_same; [done|done|..]; done.
      * intros p n Hp. destruct (decide (it = p)) as [<-|Hne].
        -- rewrite lookup_insert_eq. intros [= <-]. rewrite <-Ht. cbn. by destruct (f_tail q).
        -- rewrite lookup_insert_ne by done. intros Hn. rewrite <-Ht.
           assert (n_where n = f_id q) as -> by (apply (Hw2 p); [set_solver|done]).
           by destruct (f_tail q).
    + rewrite <-Ht. by destruct (f_tail q).
    + apply untouched_insert; [|set_solver|].
      * destruct Hr as [Hf Hd]. split.
        -- intros p Hp. rewrite Hf by set_solver. rewrite lookup_insert_ne; set_solver.
        -- intros p n Hn. destruct (decide (it = p)) as [<-|Hne].
           ++ destruct (Hd it n1) as (m & Hm & ? & ? & ?); [by rewrite lookup_insert_eq|].
              simplify_eq. eexists. done.
           ++ destruct (Hd p n) as (m & Hm & ? & ? & ?); [by rewrite lookup_insert_ne|].
              by exists m.
      * intros m Hm. simplify_eq. done.
Qed.

Lemma fifo_remove_rep s q l1 it l2 :
  rep s q (l1 ++ it :: l2) →
  ∃ s' q', fifo_remove s q it = Some (s', q') ∧ rep s' q' (l1 ++ l2) ∧
    f_id q' = f_id q ∧ untouched (l1 ++ it :: l2) s s'.
Proof.
  intros [Hh Ht Hc Hnd Hl Hw].
  destruct (unlink_spec s l1 it l2 Hl Hnd)
    as (n & s1 & s2 & Hn & Hnp & Hnn & Hs1 & Hn1 & Hs2 & Hn2 & Hr & Hl2).
  unfold fifo_remove, write. rewrite Hn; cbn [mbind option_bind].
  rewrite Hs1; cbn [mbind option_bind]. rewrite Hn1; cbn [mbind option_bind].
  rewrite Hs2; cbn [mbind option_bind]. rewrite Hn2; cbn [mbind option_bind].
  rewrite lookup_insert_eq. cbn [mbind option_bind].
  eexists _, _. split; [done|].
  assert (it ∉ l1 ++ l2) as Hni.
  { rewrite NoDup_app, NoDup_cons in Hnd. set_solver. }
  split; [|split].
  - rewrite first_app in Hh. rewrite final_app in Ht. constructor.
    + rewrite first_app, <-Hnn. destruct (n_prev n) eqn:Hp.
      * destruct l1; [done|]. by destruct (n_next n).
      * symmetry in Hnp. apply final_none in Hnp as ->. by destruct (n_next n).
    + rewrite final_app, <-Hnp. destruct (n_next n) eqn:Hx.
      * destruct l2; [done|]. by destruct (n_prev n).
      * symmetry in Hnn. apply first_none in Hnn as ->. by destruct (n_prev n).
    + rewrite length_app in *. simpl in Hc. destruct (n_prev n), (n_next n); cbn; lia.
    + rewrite NoDup_app, NoDup_cons in Hnd. apply NoDup_app.
      destruct_and? Hnd. split_and!; [done| |done]. intros p Hp ?. set_solver.
    + apply links_insert; [by apply links_insert|done].
    + intros p m Hp. assert (it ≠ p) by set_solver.
      rewrite !lookup_insert_ne by done. intros Hm.
      destruct (links_lookup s None (l1 ++ it :: l2) None p Hl) as [m0 Hm0]; [set_solver|].
      destruct (relinked_where _ _ _ p m Hr) as (k & Hk & ->); [by eexists|done|].
      assert (n_where k = f_id q) as -> by (apply (Hw p); [set_solver|done]).
      by destruct (n_prev n), (n_next n).
  - by destruct (n_prev n), (n_next n).
  - apply untouched_insert; [apply untouched_insert| |]; [|set_solver| |set_solver|].
    + eapply relinked_untouched; [done|set_solver].
    + intros m Hm. simplify_eq. done.
    + intros m Hm. simplify_eq. done.
Qed.

Lemma fifo_pop_empty s q : rep s q [] → fifo_pop s q = Some (None, s, q).
Proof. intros [Hh _ _ _ _ _]. unfold fifo_pop. by rewrite Hh. Qed.

(** Popping is removing the head: the two bodies differ only in the branches the
    head cannot take. *)
Lemma fifo_pop_remove s q it l :
  rep s q (it :: l) →
  fifo_pop s q = ('(s, q) ← fifo_remove s q it; Some (Some it, s, q)).
Proof.
  intros [Hh _ _ Hnd [(n & Hn & Hp & Hx) _] _]. unfold fifo_pop, fifo_remove.
  rewrite Hh. cbn [first]. rewrite Hn. cbn [mbind option_bind]. rewrite Hp.
  cbn [set_next mbind option_bind]. rewrite Hn. cbn -[write]. rewrite ?Hp.
  destruct (n_next n) as [y|]; cbn -[write].
  - destruct (write s y _) as [s1|]; cbn -[write]; [|done].
    destruct (write s1 it _) as [s2|]; cbn -[write]; [|done]. by destruct (write s2 it _).
  - destruct (write s it _) as [s2|]; cbn -[write]; [|done]. by destruct (write s2 it _).
Qed.

Lemma fifo_pop_rep s q it l :
  rep s q (it :: l) →
  ∃ s' q', fifo_pop s q = Some (Some it, s', q') ∧ rep s' q' l ∧
    f_id q' = f_id q ∧ untouched (it :: l) s s'.
Proof.
  intros Hr. destruct (fifo_remove_rep s q [] it l Hr) as (s' & q' & Hrm & ?).
  exists s', q'. by rewrite (fifo_pop_remove s q it l), Hrm.
Qed.

End Fifo.
