(* ===== verification/Intake.v ===== *)
(** * The intake queue of [src/engine.c]: admission order and its run cache

    [intake_insert], [intake_unlink], [intake_sort] and [intake_resort] at the level
    of the pointers they write.  The queue is kept highest score first, equal scores
    oldest first; the cache of run tails only spares the walk, and the sort that
    follows a scheduler hook re-establishes the order. *)

From S2P Require Import Prelude Fifo.
Import Fifo.

Module Intake.

(** ** The code *)

(** [e->intake], [e->intake_runs[0 .. n_intake_runs)] as (score, tail), and
    [e->intake_seq]. *)
Record intake := MkIntake { i_q : fifo; i_runs : list (Z * ptr); i_seq : Z }.
#[export] Instance eta_intake : Eta intake := λ i, MkIntake (i_q i) (i_runs i) (i_seq i).

Definition GPTPS_INTAKE_RUNS : nat := 32.

Definition intake_forget (e : intake) : intake := e <| i_runs := [] |>.

(** The binary search over runs in descending order: the index of the run for
    [score], or where a new one belongs, and which of the two it is. *)
Fixpoint run_slot_loop (fuel : nat) (runs : list (Z * ptr)) (score : Z) (lo hi : nat) : nat * bool :=
  match fuel with
  | O => (lo, false)
  | S f =>
      if (lo <? hi)%nat then
        let mid := (lo + (hi - lo) / 2)%nat in
        let sc := default 0 (fst <$> runs !! mid) in
        if sc =? score then (mid, true)
        else if score <? sc then run_slot_loop f runs score (S mid) hi
        else run_slot_loop f runs score lo mid
      else (lo, false)
  end.
Definition intake_run_slot (runs : list (Z * ptr)) (score : Z) : nat * bool :=
  run_slot_loop (S (length runs)) runs score 0 (length runs).

(** Open a place at [at] by shifting the runs above it up. *)
Definition run_open (runs : list (Z * ptr)) (at_ : nat) (r : Z * ptr) : list (Z * ptr) :=
  take at_ runs ++ r :: drop at_ runs.

Definition intake_run_cache (runs : list (Z * ptr)) (at_ : nat) (score : Z) (tail : ptr) :
    list (Z * ptr) :=
  if (length runs =? GPTPS_INTAKE_RUNS)%nat then
    if (at_ =? length runs)%nat then runs
    else run_open (take (length runs - 1) runs) at_ (score, tail)
  else run_open runs at_ (score, tail).

Definition intake_run_drop (runs : list (Z * ptr)) (at_ : nat) : list (Z * ptr) :=
  take at_ runs ++ drop (S at_) runs.

(** [for (prev = NULL, cur = q->head; cur && cur->sched_score >= score; ...)]: the
    item after which one scoring [score] goes.  The fuel is the number of items. *)
Fixpoint intake_walk (fuel : nat) (s : store) (score : Z) (prev cur : option ptr) :
    option (option ptr) :=
  match cur with
  | None => Some prev
  | Some c =>
      match fuel with
      | O => None
      | S f =>
          n ← s !! c;
          if score <=? n_score n then intake_walk f s score (Some c) (n_next n) else Some prev
      end
  end.

(** The next link of [prev], or the head of the queue. *)
Definition next_of (s : store) (q : fifo) (prev : option ptr) : option (option ptr) :=
  match prev with None => Some (f_head q) | Some p => n ← s !! p; Some (n_next n) end.

Definition intake_insert (s : store) (e : intake) (it : ptr) : option (store * intake) :=
  let e := e <| i_seq ::= λ q, u64 (q + 1) |> in
  s ← write s it (λ n, n <| n_seq := i_seq e |>);
  n ← s !! it;
  let q := i_q e in
  let '(at_, found) := intake_run_slot (i_runs e) (n_score n) in
  prev ← (if found return option _ then r ← i_runs e !! at_; Some (Some r.2)
          else intake_walk (size s) s (n_score n) None (f_head q));
  nx ← next_of s q prev;
  s ← write s it (λ n, n <| n_next := nx |> <| n_prev := prev |>);
  s ← set_prev s nx (Some it);
  let q := match nx with Some _ => q | None => q <| f_tail := Some it |> end in
  s ← set_next s prev (Some it);
  let q := match prev with Some _ => q | None => q <| f_head := Some it |> end in
  let q := q <| f_count ::= Z.add 1 |> in
  s ← write s it (λ n, n <| n_where := Q_INTAKE |>);
  let runs := if found then <[at_ := (n_score n, it)]> (i_runs e)
              else intake_run_cache (i_runs e) at_ (n_score n) it in
  Some (s, e <| i_q := q |> <| i_runs := runs |>).

(** The part of [intake_unlink] that repairs the cached run [it] was the tail of; [n]
    is [it]'s node. *)
Definition intake_run_repair (s : store) (runs : list (Z * ptr)) (it : ptr) (n : node) :
    option (list (Z * ptr)) :=
  let '(at_, found) := intake_run_slot runs (n_score n) in
  if found then
    r ← runs !! at_;
    if decide (r.2 = it) then
      match n_prev n with
      | None => Some (intake_run_drop runs at_)
      | Some p =>
          m ← s !! p;
          if n_score m =? n_score n then Some (<[at_ := (r.1, p)]> runs)
          else Some (intake_run_drop runs at_)
      end
    else Some runs
  else Some runs.

Definition intake_unlink (s : store) (e : intake) (it : ptr) : option (store * intake) :=
  n ← s !! it;
  let q := i_q e in
  s ← set_next s (n_prev n) (n_next n);
  let q := if n_prev n then q else q <| f_head := n_next n |> in
  n ← s !! it;
  s ← set_prev s (n_next n) (n_prev n);
  let q := if n_next n then q else q <| f_tail := n_prev n |> in
  let q := q <| f_count ::= λ c, c - 1 |> in
  runs ← intake_run_repair s (i_runs e) it n;
  s ← write s it (λ n, n <| n_next := None |> <| n_prev := None |>);
  s ← write s it (λ n, n <| n_where := Q_NONE |>);
  Some (s, e <| i_q := q |> <| i_runs := runs |>).

(** *** The merge sort *)

(** [q]'s item goes before [p]'s. *)
Definition pick_q (np nq : node) : bool :=
  (n_score np <? n_score nq) ||
  ((n_score nq =? n_score np) && (n_seq nq <? n_seq np)).

(** [for (i = 0; i < insize; ++i) { ++psize; q = q->next; if (!q) break; }] *)
Fixpoint advance (insize : nat) (s : store) (psize : nat) (q : ptr) : option (nat * option ptr) :=
  match insize with
  | O => Some (psize, Some q)
  | S k =>
      n ← s !! q;
      match n_next n with
      | None => Some (S psize, None)
      | Some q' => advance k s (S psize) q'
      end
  end.

(** One choice: what is picked, and [p], [psize], [q], [qsize] after it. *)
Definition merge_pick (s : store) (p : option ptr) (psize : nat) (q : option ptr) (qsize : nat) :
    option (ptr * (option ptr * nat) * (option ptr * nat)) :=
  let take_p := x ← p; n ← s !! x; Some (x, (n_next n, (psize - 1)%nat), (q, qsize)) in
  let take_q := x ← q; n ← s !! x; Some (x, (p, psize), (n_next n, (qsize - 1)%nat)) in
  if (psize =? 0)%nat then take_q
  else if (qsize =? 0)%nat then take_p
  else match q with
       | None => take_p
       | Some y =>
           x ← p; np ← s !! x; nq ← s !! y;
           if pick_q np nq then take_q else take_p
       end.

Fixpoint merge_loop (fuel : nat) (s : store) (p : option ptr) (psize : nat) (q : option ptr)
    (qsize : nat) (hd tl : option ptr) : option (store * option ptr * option ptr * option ptr) :=
  if (0 <? psize)%nat || ((0 <? qsize)%nat && bool_decide (is_Some q)) then
    match fuel with
    | O => None
    | S f =>
        '(pick, (p, psize), (q, qsize)) ← merge_pick s p psize q qsize;
        s ← set_next s tl (Some pick);
        let hd := if tl then hd else Some pick in
        merge_loop f s p psize q qsize hd (Some pick)
    end
  else Some (s, q, hd, tl).

(** One pass: merge the runs of [insize] pairwise. *)
Fixpoint sort_pass (fuel : nat) (insize : nat) (s : store) (p hd tl : option ptr) (nmerges : nat) :
    option (store * option ptr * option ptr * nat) :=
  match p with
  | None => Some (s, hd, tl, nmerges)
  | Some p0 =>
      match fuel with
      | O => None
      | S f =>
          '(psize, q) ← advance insize s 0 p0;
          '(s, q, hd, tl) ← merge_loop (psize + insize) s p psize q insize hd tl;
          sort_pass f insize s q hd tl (S nmerges)
      end
  end.

Fixpoint sort_loop (fuel : nat) (insize : nat) (s : store) (list : option ptr) :
    option (store * option ptr) :=
  match fuel with
  | O => None
  | S f =>
      '(s, list, tail, nmerges) ← sort_pass (size s) insize s list None None 0;
      t ← tail;
      s ← write s t (λ n, n <| n_next := None |>);
      if (nmerges <=? 1)%nat then Some (s, list) else sort_loop f (insize * 2) s list
  end.

Definition intake_sort (s : store) (list : option ptr) : option (store * option ptr) :=
  match list with
  | None => Some (s, None)
  | Some x => n ← s !! x;
              if n_next n then sort_loop (size s) 1 s list else Some (s, list)
  end.

(** [for (it = head; it; prev = it, it = it->next) it->prev = prev;] *)
Fixpoint relink (fuel : nat) (s : store) (prev it : option ptr) : option (store * option ptr) :=
  match it with
  | None => Some (s, prev)
  | Some x =>
      match fuel with
      | O => None
      | S f =>
          s ← write s x (λ n, n <| n_prev := prev |>);
          n ← s !! x;
          relink f s (Some x) (n_next n)
      end
  end.

Definition intake_resort (s : store) (e : intake) : option (store * intake) :=
  '(s, hd) ← intake_sort s (f_head (i_q e));
  '(s, tl) ← relink (size s) s None hd;
  Some (s, intake_forget (e <| i_q ::= λ q, q <| f_head := hd |> <| f_tail := tl |> |>)).

(** ** The order of admission *)

Definition score_of (s : store) (p : ptr) : Z := default 0 (n_score <$> s !! p).
Definition seq_of (s : store) (p : ptr) : Z := default 0 (n_seq <$> s !! p).

(** [p] is admitted before [q]: a higher score, or the same and stamped earlier. *)
Definition before (s : store) (p q : ptr) : Prop :=
  score_of s q < score_of s p ∨ (score_of s p = score_of s q ∧ seq_of s p < seq_of s q).
#[export] Instance before_dec s p q : Decision (before s p q).
Proof. unfold before. apply _. Defined.

Definition desc (sc : ptr → Z) (l : list ptr) : Prop := StronglySorted (λ p q, sc q ≤ sc p) l.

Lemma desc_app sc l1 l2 :
  desc sc (l1 ++ l2) ↔ desc sc l1 ∧ desc sc l2 ∧ ∀ p q, p ∈ l1 → q ∈ l2 → sc q ≤ sc p.
Proof.
  unfold desc. rewrite StronglySorted_app. naive_solver.
Qed.

Lemma filter_none {A} (P : A → Prop) `{!∀ x, Decision (P x)} (l : list A) :
  (∀ x, x ∈ l → ¬ P x) → filter P l = [].
Proof.
  intros Hl. induction l as [|x l IH]; [done|]. rewrite filter_cons, decide_False by set_solver.
  apply IH. set_solver.
Qed.

Lemma desc_split sc v l :
  desc sc l → l = filter (λ p, v ≤ sc p) l ++ filter (λ p, sc p < v) l.
Proof.
  intros Hd. induction Hd as [|x l Hd IH Hx]; [done|].
  rewrite !filter_cons. destruct (decide (v ≤ sc x)), (decide (sc x < v)); try lia.
  - by rewrite <-app_comm_cons, <-IH.
  - assert (filter (λ p, v ≤ sc p) l = []) as Hn.
    { apply filter_none. rewrite Forall_forall in Hx. intros y Hy%Hx. lia. }
    rewrite Hn in IH |- *. simpl in *. by rewrite <-IH.
Qed.

(** The last item scoring [v] at the end of a descending list is the list's last. *)
Lemma last_filter_desc sc v l x :
  desc sc (l ++ [x]) → Forall (λ p, v ≤ sc p) (l ++ [x]) →
  last (filter (λ p, sc p = v) (l ++ [x])) = if decide (sc x = v) then Some x else None.
Proof.
  intros Hd Hv. rewrite filter_app, filter_cons, filter_nil. case_decide as Hx.
  - by rewrite last_snoc.
  - rewrite app_nil_r. apply desc_app in Hd as (_ & _ & Hd). apply Forall_app in Hv as [Hl Hvx].
    assert (v ≤ sc x) by (by inversion Hvx).
    assert (filter (λ p, sc p = v) l = []) as ->; [|done].
    destruct (filter _ l) as [|y k] eqn:Hf; [done|].
    assert (y ∈ filter (λ p, sc p = v) l) as Hy by (rewrite Hf; set_solver).
    apply list_elem_of_filter in Hy as [Hyv Hy]. specialize (Hd y x Hy). set_solver by lia.
Qed.

(** ** The run cache

    A cached tail is the last item of its score. *)
Record cache_ok (sc : ptr → Z) (l : list ptr) (runs : list (Z * ptr)) : Prop := {
  c_desc : StronglySorted (λ a b, b < a) runs.*1;
  c_len : (length runs ≤ GPTPS_INTAKE_RUNS)%nat;
  c_tail : ∀ v t, (v, t) ∈ runs → last (filter (λ p, sc p = v) l) = Some t }.

Definition slot_ok (runs : list (Z * ptr)) (score : Z) (r : nat * bool) : Prop :=
  if r.2 then ∃ t, runs !! r.1 = Some (score, t)
  else (r.1 ≤ length runs)%nat ∧
       (∀ i x, runs !! i = Some x → (i < r.1)%nat → score < x.1) ∧
       (∀ i x, runs !! i = Some x → (r.1 ≤ i)%nat → x.1 < score).

Lemma desc_lookup (runs : list (Z * ptr)) i j a b :
  StronglySorted (λ a b, b < a) runs.*1 → (i < j)%nat →
  runs !! i = Some a → runs !! j = Some b → b.1 < a.1.
Proof.
  intros Hd Hij Hi Hj. revert i j Hij Hi Hj.
  induction runs as [|r runs IH]; intros i j Hij Hi Hj; [done|].
  apply StronglySorted_cons in Hd as [Hr Hd].
  destruct j as [|j]; [lia|]. destruct i as [|i]; simpl in *.
  - simplify_eq. rewrite Forall_forall in Hr. apply Hr.
    apply list_elem_of_fmap. exists b. split; [done|]. by eapply list_elem_of_lookup_2.
  - eapply IH; [done| |done..]. lia.
Qed.

Lemma run_slot_loop_ok fuel runs score lo hi :
  StronglySorted (λ a b, b < a) runs.*1 →
  (hi - lo < fuel)%nat → (lo ≤ hi ≤ length runs)%nat →
  (∀ i x, runs !! i = Some x → (i < lo)%nat → score < x.1) →
  (∀ i x, runs !! i = Some x → (hi ≤ i)%nat → x.1 < score) →
  slot_ok runs score (run_slot_loop fuel runs score lo hi).
Proof.
  intros Hd. revert lo hi. induction fuel as [|fuel IH]; intros lo hi Hf Hlh Hlo Hhi; [lia|].
  cbn [run_slot_loop].
  destruct (Nat.ltb_spec lo hi) as [Hlt|Hge].
  2:{ assert (lo = hi) as -> by lia. split_and!; [simpl; lia|done|done]. }
  set (mid := (lo + (hi - lo) / 2)%nat).
  assert (lo ≤ mid < hi)%nat as Hm.
  { unfold mid. pose proof (Nat.div_lt (hi - lo) 2). lia. }
  destruct (lookup_lt_is_Some_2 runs mid) as [[sc t] Hsc]; [lia|]. rewrite Hsc. cbn [fmap option_fmap option_map default from_option fst id].
  destruct (Z.eqb_spec sc score) as [->|Hne]; [by exists t|].
  destruct (Z.ltb_spec score sc) as [Hs|Hs].
  - apply IH; [lia|lia| |done]. intros i x Hi Him.
    destruct (decide (i = mid)) as [->|]; [by simplify_eq|].
    assert ((sc, t).1 < x.1); [|simpl in *; lia].
    eapply (desc_lookup runs i mid); [done|lia|done..].
  - apply IH; [lia|lia|done|]. intros i x Hi Him.
    destruct (decide (i = mid)) as [->|]; [simplify_eq; simpl; lia|].
    assert (x.1 < (sc, t).1); [|simpl in *; lia].
    eapply (desc_lookup runs mid i); [done|lia|done..].
Qed.

Lemma intake_run_slot_ok runs score :
  StronglySorted (λ a b, b < a) runs.*1 → slot_ok runs score (intake_run_slot runs score).
Proof.
  intros Hd. apply run_slot_loop_ok; [done|lia|lia|lia|].
  intros i x Hi%lookup_lt_Some ?. lia.
Qed.

(** *** The cache after an insertion *)

Lemma last_app_r {A} (l k : list A) : k ≠ [] → last (l ++ k) = last k.
Proof. intros Hk. destruct (exists_last Hk) as (k' & x & ->). by rewrite app_assoc, !last_snoc. Qed.

(** The cached run of a score ends where an item of that score goes. *)
Lemma cache_hit sc l v t :
  desc sc l → last (filter (λ p, sc p = v) l) = Some t →
  final (filter (λ p, v ≤ sc p) l) None = Some t.
Proof.
  intros Hd Ht. rewrite (desc_split sc v l Hd) in Ht. rewrite filter_app in Ht.
  assert (filter (λ p, sc p = v) (filter (λ p, sc p < v) l) = []) as Hn.
  { apply filter_none. intros p [? _]%list_elem_of_filter. lia. }
  rewrite Hn, app_nil_r in Ht. clear Hn.
  assert (Forall (λ p, v ≤ sc p) (filter (λ p, v ≤ sc p) l)) as Hv.
  { apply Forall_forall. intros x Hx. by apply list_elem_of_filter in Hx as [? _]. }
  assert (desc sc (filter (λ p, v ≤ sc p) l)) as Hd'.
  { rewrite (desc_split sc v l Hd) in Hd. by apply desc_app in Hd as (? & _ & _). }
  set (k := filter (λ p, v ≤ sc p) l) in *. clearbody k.
  destruct (decide (k = [])) as [->|Hne]; [done|].
  destruct (exists_last Hne) as (k' & x & ->).
  rewrite last_filter_desc in Ht by done. case_decide; [|done].
  rewrite final_app. simpl. congruence.
Qed.

(** Placing [it] among the items of [l]: after those scoring as much. *)
Definition placed (sc : ptr → Z) (it : ptr) (l : list ptr) : list ptr :=
  filter (λ p, sc it ≤ sc p) l ++ it :: filter (λ p, sc p < sc it) l.

Lemma placed_filter_eq sc it l :
  desc sc l → last (filter (λ p, sc p = sc it) (placed sc it l)) = Some it.
Proof.
  intros Hd. unfold placed. rewrite filter_app, filter_cons, decide_True by done.
  rewrite (filter_none _ (filter (λ p, sc p < sc it) l)); [by rewrite last_snoc|].
  intros p [? _]%list_elem_of_filter. lia.
Qed.

Lemma placed_filter_ne sc it l v :
  desc sc l → v ≠ sc it → filter (λ p, sc p = v) (placed sc it l) = filter (λ p, sc p = v) l.
Proof.
  intros Hd Hv. rewrite (desc_split sc (sc it) l Hd) at 2. unfold placed.
  rewrite !filter_app, filter_cons, decide_False by done. done.
Qed.

Lemma cache_update sc it l runs i t :
  desc sc l → cache_ok sc l runs → runs !! i = Some (sc it, t) →
  cache_ok sc (placed sc it l) (<[i := (sc it, it)]> runs).
Proof.
  intros Hd [Hc Hlen Ht] Hi. split.
  - rewrite list_fmap_insert. simpl. rewrite list_insert_id; [done|].
    by rewrite list_lookup_fmap, Hi.
  - by rewrite length_insert.
  - intros v u Hvu. apply list_elem_of_lookup in Hvu as [j Hj].
    destruct (decide (i = j)) as [<-|Hij].
    + rewrite list_lookup_insert_eq in Hj by (by eapply lookup_lt_Some).
      simplify_eq. by apply placed_filter_eq.
    + rewrite list_lookup_insert_ne in Hj by done.
      rewrite placed_filter_ne; [|done|].
      * apply Ht. by eapply list_elem_of_lookup_2.
      * intros ->. destruct (Nat.lt_total i j) as [?|[?|?]]; [|done|].
        -- pose proof (desc_lookup _ i j _ _ Hc ltac:(done) Hi Hj). simpl in *. lia.
        -- pose proof (desc_lookup _ j i _ _ Hc ltac:(done) Hj Hi). simpl in *. lia.
Qed.

Lemma desc_open (runs : list (Z * ptr)) i v t :
  StronglySorted (λ a b, b < a) runs.*1 →
  (∀ j x, runs !! j = Some x → (j < i)%nat → v < x.1) →
  (∀ j x, runs !! j = Some x → (i ≤ j)%nat → x.1 < v) →
  StronglySorted (λ a b, b < a) (run_open runs i (v, t)).*1.
Proof.
  intros Hc Hlo Hhi. unfold run_open. rewrite fmap_app, fmap_cons, fmap_take, fmap_drop. simpl.
  rewrite <-(take_drop i runs.*1) in Hc. rewrite StronglySorted_app in Hc.
  destruct Hc as (Hx & H1 & H2).
  assert (∀ a, a ∈ take i runs.*1 → v < a) as Htk.
  { intros a Ha. rewrite <-fmap_take in Ha. apply list_elem_of_fmap in Ha as (x & -> & Hin).
    apply list_elem_of_lookup in Hin as [j Hj]. apply lookup_take_Some in Hj as [Hj ?].
    by eapply Hlo. }
  assert (∀ a, a ∈ drop i runs.*1 → a < v) as Hdr.
  { intros a Ha. rewrite <-fmap_drop in Ha. apply list_elem_of_fmap in Ha as (x & -> & Hin).
    apply list_elem_of_lookup in Hin as [j Hj]. rewrite lookup_drop in Hj.
    eapply Hhi; [done|]. lia. }
  apply StronglySorted_app_2.
  - intros a b Ha [->|Hb]%elem_of_cons; [by apply Htk|by apply Hx].
  - done.
  - apply StronglySorted_cons. split; [|done]. by apply Forall_forall.
Qed.

Lemma cache_tail_mono sc l l' (runs runs' : list (Z * ptr)) it :
  desc sc l → l' = placed sc it l →
  (∀ v t, (v, t) ∈ runs → last (filter (λ p, sc p = v) l) = Some t) →
  (∀ v t, (v, t) ∈ runs' → (v, t) ∈ runs ∧ v ≠ sc it ∨ (v, t) = (sc it, it)) →
  ∀ v t, (v, t) ∈ runs' → last (filter (λ p, sc p = v) l') = Some t.
Proof.
  intros Hd -> Ht Hr v t [[Hin Hv]|[= -> ->]]%Hr; [|by apply placed_filter_eq].
  rewrite placed_filter_ne by done. by apply Ht.
Qed.

Lemma slot_ok_fresh runs v i :
  slot_ok runs v (i, false) → ∀ u t, (u, t) ∈ runs → u ≠ v.
Proof.
  intros (_ & Hlo & Hhi) u t Hin ->. apply list_elem_of_lookup in Hin as [j Hj]. simpl in *.
  destruct (decide (j < i)%nat).
  - pose proof (Hlo j _ Hj). simpl in *. lia.
  - pose proof (Hhi j _ Hj). simpl in *. lia.
Qed.

Lemma cache_miss sc it l runs i :
  desc sc l → cache_ok sc l runs → slot_ok runs (sc it) (i, false) →
  cache_ok sc (placed sc it l) (intake_run_cache runs i (sc it) it).
Proof.
  intros Hd [Hc Hlen Ht] Hs. pose proof (slot_ok_fresh _ _ _ Hs) as Hfresh.
  destruct Hs as (Hi & Hlo & Hhi). simpl in *. unfold intake_run_cache.
  assert (∀ n, (i ≤ n)%nat → (n ≤ length runs)%nat → (S n ≤ GPTPS_INTAKE_RUNS)%nat →
    cache_ok sc (placed sc it l) (run_open (take n runs) i (sc it, it))) as Hopen.
  { intros n Hin Hnl Hn. split.
    - apply desc_open.
      + rewrite fmap_take. rewrite <-(take_drop n runs.*1) in Hc.
        by eapply StronglySorted_app_1_l.
      + intros j x [Hj _]%lookup_take_Some. by eapply Hlo.
      + intros j x [Hj _]%lookup_take_Some. by eapply Hhi.
    - unfold run_open. rewrite length_app. cbn [length].
      rewrite length_take, length_drop, length_take. lia.
    - eapply cache_tail_mono; [done|done|apply Ht|]. intros v t. unfold run_open.
      assert (∀ k, k `sublist_of` take n runs → (v, t) ∈ k → (v, t) ∈ runs ∧ v ≠ sc it) as Hsub.
      { intros k Hk Hvt. assert ((v, t) ∈ runs); [|split; [done|by eapply Hfresh]].
        eapply elem_of_sublist; [done|]. etrans; [done|apply sublist_take]. }
      rewrite elem_of_app, elem_of_cons. intros [Hx|[?|Hx]]; [left| by right |left].
      + eapply Hsub; [|done]. apply sublist_take.
      + eapply Hsub; [|done]. apply sublist_drop. }
  destruct (Nat.eqb_spec (length runs) GPTPS_INTAKE_RUNS) as [Hfull|Hfull].
  - destruct (Nat.eqb_spec i (length runs)) as [->|Hne].
    + split; [done..|]. clear Hopen. eapply cache_tail_mono; [done|done|apply Ht|].
      intros v t Hin. left. split; [done|by eapply Hfresh].
    + apply Hopen; lia.
  - rewrite <-(firstn_all runs) at 1. apply Hopen; lia.
Qed.

(** ** What the intake queue holds *)
Record intake_rep (s : store) (e : intake) (l : list ptr) : Prop := {
  ir_rep : rep s (i_q e) l;
  ir_id : f_id (i_q e) = Q_INTAKE;
  ir_order : StronglySorted (before s) l;
  ir_cache : cache_ok (score_of s) l (i_runs e);
  (** every stamp handed out so far *)
  ir_seq : ∀ p, p ∈ l → seq_of s p ≤ i_seq e;
  ir_seq0 : 0 ≤ i_seq e }.

Lemma before_desc s l : StronglySorted (before s) l → desc (score_of s) l.
Proof.
  intros H. induction H as [|x l H IH Hx]; [constructor|]. constructor; [done|].
  eapply Forall_impl; [done|]. unfold before. lia.
Qed.

Lemma StronglySorted_ext {A} (R R' : A → A → Prop) l :
  (∀ x y, x ∈ l → y ∈ l → R x y → R' x y) → StronglySorted R l → StronglySorted R' l.
Proof.
  intros HR H. induction H as [|x l H IH Hx]; constructor.
  - apply IH. set_solver.
  - rewrite Forall_forall in *. intros y Hy. apply HR; [set_solver..|]. by apply Hx.
Qed.

Lemma filter_scores (sc sc' : ptr → Z) (l : list ptr) v :
  (∀ p, p ∈ l → sc' p = sc p) → filter (λ p, sc' p = v) l = filter (λ p, sc p = v) l.
Proof.
  induction l as [|x l IH]; intros H; [done|].
  rewrite !filter_cons, IH by set_solver. rewrite (H x) by set_solver. done.
Qed.

Lemma cache_ok_ext sc sc' l runs :
  (∀ p, p ∈ l → sc' p = sc p) → cache_ok sc l runs → cache_ok sc' l runs.
Proof.
  intros H [H1 H2 H3]. split; [done..|]. intros v t Hvt. rewrite (filter_scores sc) by done.
  by apply H3.
Qed.

Lemma links_size s prev l next : links s prev l next → NoDup l → (length l ≤ size s)%nat.
Proof.
  intros Hl Hnd. rewrite <-size_dom, <-(size_list_to_set (C:=gset ptr) l) by done.
  apply subseteq_size. intros p Hp%elem_of_list_to_set. apply elem_of_dom.
  by eapply links_lookup.
Qed.

Lemma score_of_lookup s p n : s !! p = Some n → score_of s p = n_score n.
Proof. unfold score_of. by intros ->. Qed.
Lemma seq_of_lookup s p n : s !! p = Some n → seq_of s p = n_seq n.
Proof. unfold seq_of. by intros ->. Qed.

Lemma intake_walk_spec fuel s score l1 l2 prev :
  links s prev (l1 ++ l2) None → (length (l1 ++ l2) ≤ fuel)%nat →
  (∀ p, p ∈ l1 → score ≤ score_of s p) → (∀ p, p ∈ l2 → score_of s p < score) →
  intake_walk fuel s score prev (first (l1 ++ l2) None) = Some (final l1 prev).
Proof.
  revert prev l1. induction fuel as [|fuel IH]; intros prev l1 Hl Hf H1 H2.
  - destruct l1, l2; simpl in Hf; [done|lia..].
  - destruct l1 as [|x l1]; simpl.
    + destruct l2 as [|y l2]; [done|]. simpl. destruct Hl as [(n & Hn & _) _]. rewrite Hn. simpl.
      specialize (H2 y ltac:(set_solver)). rewrite (score_of_lookup _ _ _ Hn) in H2.
      destruct (Z.leb_spec score (n_score n)); [lia|done].
    + destruct Hl as [(n & Hn & _ & Hx) Hl]. rewrite Hn. simpl.
      pose proof (H1 x ltac:(set_solver)) as Hs. rewrite (score_of_lookup _ _ _ Hn) in Hs.
      destruct (Z.leb_spec score (n_score n)); [|lia]. rewrite Hx.
      apply IH; [done|simpl in Hf; lia|set_solver|done].
Qed.

Lemma next_of_spec s q l1 l2 :
  f_head q = first (l1 ++ l2) None → links s None (l1 ++ l2) None →
  next_of s q (final l1 None) = Some (first l2 None).
Proof.
  intros Hh Hl. destruct (decide (l1 = [])) as [->|Hne]; [simpl; by rewrite Hh|].
  destruct (exists_last Hne) as (l1' & x & ->). rewrite final_app. simpl.
  rewrite <-app_assoc in Hl. apply links_app in Hl as [_ [(n & Hn & _ & Hx) _]].
  rewrite Hn. simpl. by rewrite Hx.
Qed.

Lemma untouched_score l s s' p :
  untouched l s s' → is_Some (s !! p) → score_of s' p = score_of s p.
Proof.
  intros [_ Hd] [n Hn]. destruct (Hd p n Hn) as (n' & Hn' & ? & _).
  by rewrite (score_of_lookup _ _ _ Hn), (score_of_lookup _ _ _ Hn').
Qed.
Lemma untouched_seq l s s' p :
  untouched l s s' → is_Some (s !! p) → seq_of s' p = seq_of s p.
Proof.
  intros [_ Hd] [n Hn]. destruct (Hd p n Hn) as (n' & Hn' & _ & ?).
  by rewrite (seq_of_lookup _ _ _ Hn), (seq_of_lookup _ _ _ Hn').
Qed.

(** Splicing [it] between the two halves of a queue. *)
Lemma splice_rep s q l1 l2 it n :
  rep s q (l1 ++ l2) → f_id q = Q_INTAKE → s !! it = Some n → it ∉ l1 ++ l2 →
  ∃ s1 s2 s3 n3 q',
    write s it (λ n, n <| n_next := first l2 None |> <| n_prev := final l1 None |>) = Some s1 ∧
    set_prev s1 (first l2 None) (Some it) = Some s2 ∧
    set_next s2 (final l1 None) (Some it) = Some s3 ∧
    write s3 it (λ n, n <| n_where := Q_INTAKE |>) = Some (<[it := n3]> s3) ∧
    (let q := match first l2 None with Some _ => q | None => q <| f_tail := Some it |> end in
     let q := match final l1 None with Some _ => q | None => q <| f_head := Some it |> end in
     q <| f_count ::= Z.add 1 |>) = q' ∧
    rep (<[it := n3]> s3) q' (l1 ++ it :: l2) ∧ f_id q' = f_id q ∧
    untouched (it :: l1 ++ l2) s (<[it := n3]> s3).
Proof.
  intros [Hh Ht Hc Hnd Hl Hw] Hid Hn Hni.
  set (n1 := n <| n_next := first l2 None |> <| n_prev := final l1 None |>).
  destruct (link_spec (<[it := n1]> s) l1 it l2 n1) as (s2 & s3 & Hs2 & Hs3 & Hn3 & Hr & Hl3);
    [by apply links_insert|done|done|by rewrite lookup_insert_eq|done|done|].
  exists (<[it := n1]> s), s2, s3, (n1 <| n_where := Q_INTAKE |>). eexists.
  unfold write at 1 2. rewrite Hn. cbn [mbind option_bind]. rewrite Hn3.
  cbn [mbind option_bind].
  split_and!; [done|done|done|done|done| | |].
  - constructor; cbn.
    + rewrite first_app. simpl. rewrite first_app in Hh.
      destruct (first l2 None), (final l1 None) as [y|] eqn:Hy; cbn.
      all: try (apply final_none in Hy as ->; done).
      all: destruct l1; [done|]; simpl in *; by rewrite Hh.
    + rewrite final_app. simpl. rewrite final_app in Ht.
      destruct (first l2 None) eqn:Hy.
      * destruct l2 as [|z l2]; [done|]. simpl in *. by destruct (final l1 None).
      * apply first_none in Hy as ->. by destruct (final l1 None).
    + rewrite length_app in *. cbn [length]. destruct (first l2 None), (final l1 None); cbn; lia.
    + apply NoDup_app in Hnd as (H1 & H2 & H3). apply NoDup_app. split_and!; [done| |].
      * intros p Hp [->|?]%elem_of_cons; [set_solver|]. by eapply H2.
      * constructor; [set_solver|done].
    + eapply links_insert_same; [done|done|done|done].
    + intros p m Hp. destruct (decide (it = p)) as [<-|Hne].
      * rewrite lookup_insert_eq. intros [= <-]. cbn.
        rewrite <-Hid. by destruct (first l2 None), (final l1 None).
      * rewrite lookup_insert_ne by done. intros Hm.
        assert (p ∈ l1 ++ l2) as Hp' by set_solver.
        destruct (links_lookup _ _ _ _ _ Hl Hp') as [m0 Hm0].
        destruct (relinked_where _ _ _ p m Hr) as (k & Hk & ->);
          [rewrite lookup_insert_ne by done; by eexists|done|].
        rewrite lookup_insert_ne in Hk by done. rewrite (Hw p k Hp' Hk).
        by destruct (first l2 None), (final l1 None).
  - by destruct (first l2 None), (final l1 None).
  - apply untouched_insert; [|set_solver|intros m Hm; simplify_eq; done].
    destruct Hr as [Hf Hd]. split.
    + intros p Hp. rewrite Hf by set_solver. rewrite lookup_insert_ne; set_solver.
    + intros p m Hm. destruct (decide (it = p)) as [<-|Hne].
      * simplify_eq. eexists. split; [done|]. done.
      * destruct (Hd p m) as (m' & Hm' & ? & ? & ?); [by rewrite lookup_insert_ne|]. by exists m'.
Qed.

Lemma placed_before s s' l it :
  StronglySorted (before s) l → it ∉ l →
  (∀ p, p ∈ l → score_of s' p = score_of s p ∧ seq_of s' p = seq_of s p) →
  score_of s' it = score_of s it → (∀ p, p ∈ l → seq_of s p < seq_of s' it) →
  StronglySorted (before s') (placed (score_of s) it l).
Proof.
  intros Hl Hni Hsame Hit Hseq. unfold placed.
  rewrite (desc_split (score_of s) (score_of s it) l) in Hl by (by apply before_desc).
  apply StronglySorted_app in Hl as (Hx & H1 & H2).
  assert (∀ p q, p ∈ l → q ∈ l → before s p q → before s' p q) as Hb.
  { unfold before. intros p q Hp Hq. destruct (Hsame p Hp) as [-> ->].
    by destruct (Hsame q Hq) as [-> ->]. }
  apply StronglySorted_app_2.
  - intros p q Hp%list_elem_of_filter [->|Hq%list_elem_of_filter]%elem_of_cons.
    + unfold before. destruct Hp as [Hps Hp]. destruct (Hsame p Hp) as [-> ->].
      specialize (Hseq p Hp). rewrite Hit. lia.
    + left. destruct (Hsame p) as [-> _]; [naive_solver|].
      destruct (Hsame q) as [-> _]; [naive_solver|]. lia.
  - eapply StronglySorted_ext; [|done].
    intros p q [_ ?]%list_elem_of_filter [_ ?]%list_elem_of_filter. by apply Hb.
  - constructor.
    + eapply StronglySorted_ext; [|done].
      intros p q [_ ?]%list_elem_of_filter [_ ?]%list_elem_of_filter. by apply Hb.
    + apply Forall_forall. intros p [Hp ?]%list_elem_of_filter. left.
      destruct (Hsame p) as [-> _]; [done|]. by rewrite Hit.
Qed.

Lemma elem_of_placed sc it l p : p ∈ placed sc it l ↔ p = it ∨ p ∈ l.
Proof.
  unfold placed. rewrite elem_of_app, elem_of_cons, !list_elem_of_filter.
  destruct (decide (sc it ≤ sc p)); split; intros; destruct_or?; naive_solver lia.
Qed.

(** The item after which [it] goes, found in the cache or by walking. *)
Lemma insert_point s q l runs it n :
  rep s q l → desc (score_of s) l → cache_ok (score_of s) l runs →
  s !! it = Some n →
  let '(at_, found) := intake_run_slot runs (n_score n) in
  (if found return option _ then r ← runs !! at_; Some (Some r.2)
   else intake_walk (size s) s (n_score n) None (f_head q))
  = Some (final (filter (λ p, n_score n ≤ score_of s p) l) None).
Proof.
  intros [Hh _ _ Hnd Hl _] Hd Hc Hn.
  pose proof (intake_run_slot_ok runs (n_score n) (c_desc _ _ _ Hc)) as Hs.
  destruct (intake_run_slot runs (n_score n)) as [i [|]].
  - destruct Hs as [t Ht]. simpl in Ht. rewrite Ht. simpl. f_equal. symmetry.
    apply cache_hit; [done|]. apply (c_tail _ _ _ Hc). by eapply list_elem_of_lookup_2.
  - rewrite Hh. rewrite (desc_split (score_of s) (n_score n) l Hd) at 1.
    apply intake_walk_spec.
    + by rewrite <-(desc_split (score_of s) (n_score n) l Hd).
    + rewrite <-(desc_split (score_of s) (n_score n) l Hd). by eapply links_size.
    + by intros p [? _]%list_elem_of_filter.
    + by intros p [? _]%list_elem_of_filter.
Qed.

(** The cache after the insertion, hit or miss. *)
Lemma insert_cache s l runs it n :
  desc (score_of s) l → cache_ok (score_of s) l runs → s !! it = Some n →
  let '(at_, found) := intake_run_slot runs (n_score n) in
  cache_ok (score_of s) (placed (score_of s) it l)
    (if found then <[at_ := (n_score n, it)]> runs
     else intake_run_cache runs at_ (n_score n) it).
Proof.
  intros Hd Hc Hn. pose proof (intake_run_slot_ok runs (n_score n) (c_desc _ _ _ Hc)) as Hs.
  rewrite <-(score_of_lookup _ _ _ Hn) in *.
  destruct (intake_run_slot runs (score_of s it)) as [i [|]].
  - destruct Hs as [t Ht]. by eapply cache_update.
  - by apply cache_miss.
Qed.

Lemma write_eq s p f n : s !! p = Some n → write s p f = Some (<[p := f n]> s).
Proof. unfold write. by intros ->. Qed.

(** The queue reads nothing of the items it does not hold. *)
Lemma intake_rep_frame s s' e l :
  (∀ p, p ∈ l → s' !! p = s !! p) → intake_rep s e l → intake_rep s' e l.
Proof.
  intros Hsame [[Hh Ht Hc Hnd Hl Hw] Hid Ho Hca Hs Hs0].
  split; [split| | | | |]; try done.
  - by eapply links_frame.
  - intros p m Hp. rewrite Hsame by done. by apply Hw.
  - eapply StronglySorted_ext; [|done]. unfold before, score_of, seq_of. intros p q Hp Hq.
    by rewrite !Hsame.
  - eapply cache_ok_ext; [|done]. unfold score_of. intros p Hp. by rewrite Hsame.
  - unfold seq_of. intros p Hp. rewrite Hsame by done. by apply Hs.
Qed.
Lemma write_rep s e l it n : intake_rep s e l → it ∉ l → intake_rep (<[it := n]> s) e l.
Proof. intros Hr Hni. apply (intake_rep_frame s); [|done]. intros p Hp. rewrite lookup_insert_ne; [done|set_solver]. Qed.
Lemma stamp_rep s e l it n v :
  intake_rep s e l → s !! it = Some n → it ∉ l →
  intake_rep (<[it := n <| n_seq := v |>]> s) e l.
Proof. intros Hr _. by apply write_rep. Qed.

Lemma stamp_score s it n v p :
  s !! it = Some n → score_of (<[it := n <| n_seq := v |>]> s) p = score_of s p.
Proof.
  intros Hn. unfold score_of. destruct (decide (it = p)) as [<-|].
  - by rewrite lookup_insert_eq, Hn.
  - by rewrite lookup_insert_ne.
Qed.
Lemma lookup_stamp (s : store) it (n : node) p : is_Some (s !! p) → is_Some (<[it := n]> s !! p).
Proof.
  intros Hp. destruct (decide (it = p)) as [<-|].
  - rewrite lookup_insert_eq. by eexists.
  - by rewrite lookup_insert_ne.
Qed.

(** What a splice in the right place leaves is an intake queue again. *)
Lemma inserted_rep s s' e q' runs l it n :
  intake_rep s e l → s !! it = Some n → it ∉ l →
  rep s' q' (placed (score_of s) it l) → f_id q' = Q_INTAKE → untouched (it :: l) s s' →
  cache_ok (score_of s) (placed (score_of s) it l) runs →
  (∀ p, p ∈ l → seq_of s p < n_seq n) → 0 ≤ n_seq n →
  intake_rep s' (MkIntake q' runs (n_seq n)) (placed (score_of s) it l).
Proof.
  intros Hrep Hn Hni Hr Hid Hun Hca Hseq Hs0.
  assert (∀ p, p = it ∨ p ∈ l → is_Some (s !! p)) as Hin.
  { intros p [->|Hp]; [by eexists|]. eapply links_lookup; [apply Hrep|done]. }
  assert (seq_of s it = n_seq n) as Hit by (by apply seq_of_lookup).
  split; [done|done| | | |done].
  - apply placed_before; [apply Hrep|done| | |].
    + intros p Hp. split; [eapply untouched_score|eapply untouched_seq]; eauto.
    + eapply untouched_score; eauto.
    + intros p Hp. rewrite (untouched_seq (it :: l) s s' it), Hit by eauto. by apply Hseq.
  - eapply cache_ok_ext; [|done]. intros p Hp%elem_of_placed. eapply untouched_score; eauto.
  - intros p Hp%elem_of_placed. rewrite (untouched_seq (it :: l) s s' p) by eauto. simpl.
    destruct Hp as [->|Hp]; [lia|]. specialize (Hseq p Hp). lia.
Qed.

Lemma intake_insert_spec s e l it n :
  intake_rep s e l → s !! it = Some n → it ∉ l → i_seq e + 1 < 2 ^ 64 →
  ∃ s' e', intake_insert s e it = Some (s', e') ∧
    intake_rep s' e' (placed (score_of s) it l) ∧
    (∀ p, is_Some (s !! p) → score_of s' p = score_of s p) ∧
    (∀ p, p ≠ it → p ∉ l → s' !! p = s !! p) ∧
    (∀ p, is_Some (s !! p) → is_Some (s' !! p)) ∧ i_seq e' = i_seq e + 1 ∧ seq_of s' it = i_seq e + 1 ∧
    (∀ p, p ≠ it → is_Some (s !! p) → seq_of s' p = seq_of s p).
Proof.
  intros Hrep Hn Hni Hseq. pose proof (ir_seq0 _ _ _ Hrep) as Hs0.
  pose proof (stamp_rep s e l it n (u64 (i_seq e + 1)) Hrep Hn Hni) as Hrep0.
  unfold intake_insert. cbv zeta. set (e1 := e <| i_seq ::= λ q, u64 (q + 1) |>).
  change (i_q e1) with (i_q e). change (i_runs e1) with (i_runs e).
  change (i_seq e1) with (u64 (i_seq e + 1)).
  rewrite (write_eq _ _ _ _ Hn). cbn [mbind option_bind]. rewrite lookup_insert_eq.
  cbn [mbind option_bind].
  set (n0 := n <| n_seq := u64 (i_seq e + 1) |>) in *. set (s0 := <[it := n0]> s) in *.
  assert (s0 !! it = Some n0) as Hn0 by (unfold s0; by rewrite lookup_insert_eq).
  pose proof (before_desc _ _ (ir_order _ _ _ Hrep0)) as Hd.
  pose proof (insert_point s0 (i_q e) l (i_runs e) it n0
    (ir_rep _ _ _ Hrep0) Hd (ir_cache _ _ _ Hrep0) Hn0) as Hpt.
  pose proof (insert_cache s0 l (i_runs e) it n0 Hd (ir_cache _ _ _ Hrep0) Hn0) as Hca.
  destruct (intake_run_slot (i_runs e) (n_score n0)) as [at_ found] eqn:Hsl.
  rewrite Hpt. cbn [mbind option_bind].
  assert (score_of s0 it = n_score n0) as Hsc by (by apply score_of_lookup).
  set (l1 := filter (λ p, n_score n0 ≤ score_of s0 p) l) in *.
  set (l2 := filter (λ p, score_of s0 p < n_score n0) l).
  assert (l = l1 ++ l2) as Hl by (by apply desc_split).
  assert (placed (score_of s0) it l = l1 ++ it :: l2) as Hpl by (unfold placed; by rewrite Hsc).
  pose proof (ir_rep _ _ _ Hrep0) as Hr0. rewrite Hl in Hr0, Hni.
  rewrite (next_of_spec s0 (i_q e) l1 l2) by apply Hr0. cbn [mbind option_bind].
  destruct (splice_rep s0 (i_q e) l1 l2 it n0) as
    (s1 & s2 & s3 & n3 & q' & -> & Hs2 & Hs3 & Hs4 & Hq & Hr & Hidq & Hun);
    [done|apply Hrep0|done|done|].
  cbn [mbind option_bind]. rewrite Hs2. cbn [mbind option_bind]. rewrite Hs3.
  cbn [mbind option_bind]. rewrite Hs4. cbn [mbind option_bind]. cbv zeta in Hq. rewrite Hq.
  eexists _, _. split; [done|].
  assert (∀ p, score_of s0 p = score_of s p) as Hs0s by (intros p; by apply stamp_score).
  split_and!.
  - assert (placed (score_of s) it l = placed (score_of s0) it l) as ->.
    { unfold placed. f_equal; [|f_equal]; apply list_filter_iff; intros p; by rewrite !Hs0s. }
    apply (inserted_rep s0 _ e q' _ l it n0); try done.
    + by rewrite Hl.
    + by rewrite Hpl.
    + by rewrite Hidq, (ir_id _ _ _ Hrep).
    + by rewrite Hl.
    + intros p Hp. change (n_seq n0) with (u64 (i_seq e + 1)). rewrite u64_small by lia.
      pose proof (ir_seq _ _ _ Hrep0 p Hp). lia.
    + apply u64_range.
  - intros p Hp. rewrite <-Hs0s. eapply untouched_score; [done|]. by apply lookup_stamp.
  - intros p Hp Hpl'. rewrite (un_frame _ _ _ Hun) by (rewrite <-Hl; set_solver).
    unfold s0. by rewrite lookup_insert_ne.
  - intros p Hp. destruct (lookup_stamp s it n0 p Hp) as [m Hm].
    destruct (un_data _ _ _ Hun p m Hm) as (m' & Hm' & _). by exists m'.
  - simpl. by apply u64_small; lia.
  - destruct (un_data _ _ _ Hun it n0 Hn0) as (m' & Hm' & _ & Hsq). unfold seq_of. rewrite Hm'. simpl. rewrite Hsq.
    change (n_seq n0) with (u64 (i_seq e + 1)). by apply u64_small; lia.
  - intros p Hp [m Hm]. assert (s0 !! p = Some m) as Hm0 by (unfold s0; by rewrite lookup_insert_ne).
    destruct (un_data _ _ _ Hun p m Hm0) as (m' & Hm' & _ & Hsq). unfold seq_of. rewrite Hm, Hm'. simpl. by rewrite Hsq.
Qed.

(** *** The cache after a removal *)

Lemma last_cons_ne {A} (x y : A) l : last (x :: l) = Some y → x ≠ y → last l = Some y.
Proof. destruct l; [simpl; congruence|done]. Qed.

(** Removing an item that is not the cached tail leaves the last of its score last. *)
Lemma last_filter_remove sc v l1 it l2 t :
  last (filter (λ p : ptr, sc p = v) (l1 ++ it :: l2)) = Some t → t ≠ it ∨ (sc it : Z) ≠ v →
  last (filter (λ p, sc p = v) (l1 ++ l2)) = Some t.
Proof.
  rewrite !filter_app, filter_cons. case_decide as Hit; [|done].
  intros Ht Hne. destruct (filter (λ p, sc p = v) l2) as [|y k] eqn:Hk.
  - rewrite last_snoc in Ht. destruct Hne; congruence.
  - rewrite last_app_r in Ht |- * by done. by rewrite last_cons_cons in Ht.
Qed.

(** Removing the cached tail leaves the item before it, if it scored the same. *)
Lemma last_filter_prev sc l1 it l2 :
  desc sc (l1 ++ it :: l2) → NoDup (l1 ++ it :: l2) →
  last (filter (λ p, sc p = sc it) (l1 ++ it :: l2)) = Some it →
  last (filter (λ p, sc p = sc it) (l1 ++ l2)) =
    match final l1 None with
    | Some p => if decide (sc p = sc it) then Some p else None
    | None => None
    end.
Proof.
  intros Hd Hnd. rewrite !filter_app, filter_cons, decide_True by done. intros Ht.
  assert (filter (λ p, sc p = sc it) l2 = []) as Hk.
  { destruct (filter (λ p, sc p = sc it) l2) as [|y k] eqn:Hk; [done|]. exfalso.
    rewrite last_app_r in Ht by done. rewrite last_cons_cons in Ht.
    apply last_Some_elem_of in Ht. rewrite <-Hk in Ht.
    apply list_elem_of_filter in Ht as [_ Hin].
    apply NoDup_app in Hnd as (_ & _ & [? _]%NoDup_cons). done. }
  rewrite Hk, app_nil_r. clear Ht Hk.
  destruct (decide (l1 = [])) as [->|Hne]; [done|].
  destruct (exists_last Hne) as (l1' & x & ->). rewrite final_app. simpl.
  apply last_filter_desc; [by apply desc_app in Hd as [? _]|].
  apply desc_app in Hd as (_ & _ & Hd). apply Forall_forall. intros p Hp.
  apply Hd; [done|set_solver].
Qed.

(** A run cache some of whose entries went: each that stays still names the last. *)
Lemma cache_sub sc l l' (runs runs' : list (Z * ptr)) :
  cache_ok sc l runs → runs' `sublist_of` runs →
  (∀ v t, (v, t) ∈ runs' → last (filter (λ p, sc p = v) l) = Some t →
          last (filter (λ p, sc p = v) l') = Some t) →
  cache_ok sc l' runs'.
Proof.
  intros [Hc Hlen Ht] Hsub Hl. split.
  - assert (runs'.*1 `sublist_of` runs.*1) as Hs by (clear -Hsub; by induction Hsub; constructor).
    clear -Hc Hs. revert Hs. generalize (runs'.*1). induction Hc as [|x k Hc IH Hx]; intros k' Hs.
    + apply sublist_nil_r in Hs as ->. constructor.
    + apply sublist_cons_r in Hs as [?|(k'' & -> & Hs)]; [by apply IH|].
      constructor; [by apply IH|]. rewrite Forall_forall in *. intros y Hy.
      apply Hx. by eapply elem_of_sublist.
  - apply sublist_length in Hsub. lia.
  - intros v t Hvt. apply Hl; [done|]. apply Ht. by eapply elem_of_sublist.
Qed.

Lemma delete_score (runs : list (Z * ptr)) i a v t :
  StronglySorted (λ a b, b < a) runs.*1 → runs !! i = Some a →
  (v, t) ∈ delete i runs → v ≠ a.1.
Proof.
  intros Hc Hi Hin ->. apply list_elem_of_lookup in Hin as [j Hj].
  destruct (decide (j < i)%nat).
  - rewrite list_lookup_delete_lt in Hj by done.
    pose proof (desc_lookup _ _ _ _ _ Hc ltac:(done) Hj Hi). simpl in *. lia.
  - rewrite list_lookup_delete_ge in Hj by lia.
    pose proof (desc_lookup _ i (S j) _ _ Hc ltac:(lia) Hi Hj). simpl in *. lia.
Qed.

Lemma run_drop_cache sc l1 it l2 runs i t :
  cache_ok sc (l1 ++ it :: l2) runs → runs !! i = Some (sc it, t) →
  cache_ok sc (l1 ++ l2) (intake_run_drop runs i).
Proof.
  intros Hc Hi. unfold intake_run_drop. rewrite <-delete_take_drop.
  eapply cache_sub; [done|apply sublist_delete|]. intros v u Hin Hl.
  eapply last_filter_remove; [done|]. right.
  pose proof (delete_score _ _ _ _ _ (c_desc _ _ _ Hc) Hi Hin). simpl in *. congruence.
Qed.

Lemma run_set_cache sc l1 it l2 runs i t p :
  cache_ok sc (l1 ++ it :: l2) runs → runs !! i = Some (sc it, t) →
  last (filter (λ p, sc p = sc it) (l1 ++ l2)) = Some p →
  cache_ok sc (l1 ++ l2) (<[i := (sc it, p)]> runs).
Proof.
  intros Hc Hi Hp. split.
  - rewrite list_fmap_insert. simpl. rewrite list_insert_id; [apply Hc|].
    by rewrite list_lookup_fmap, Hi.
  - rewrite length_insert. apply Hc.
  - intros v u Hin. apply list_elem_of_lookup in Hin as [j Hj].
    destruct (decide (i = j)) as [<-|Hij].
    { rewrite list_lookup_insert_eq in Hj by (by eapply lookup_lt_Some). by simplify_eq. }
    rewrite list_lookup_insert_ne in Hj by done.
    eapply last_filter_remove; [apply (c_tail _ _ _ Hc); by eapply list_elem_of_lookup_2|].
    right. intros <-. destruct (Nat.lt_total i j) as [?|[?|?]]; [|done|].
    + pose proof (desc_lookup _ i j _ _ (c_desc _ _ _ Hc) ltac:(done) Hi Hj). simpl in *. lia.
    + pose proof (desc_lookup _ j i _ _ (c_desc _ _ _ Hc) ltac:(done) Hj Hi). simpl in *. lia.
Qed.

Lemma intake_run_repair_spec s s2 runs l1 it l2 n :
  cache_ok (score_of s) (l1 ++ it :: l2) runs → desc (score_of s) (l1 ++ it :: l2) →
  NoDup (l1 ++ it :: l2) → s !! it = Some n → n_prev n = final l1 None →
  (∀ p, p ∈ l1 → ∃ m, s2 !! p = Some m ∧ n_score m = score_of s p) →
  ∃ runs', intake_run_repair s2 runs it n = Some runs' ∧ cache_ok (score_of s) (l1 ++ l2) runs'.
Proof.
  intros Hc Hd Hnd Hn Hp Hs2. unfold intake_run_repair.
  pose proof (intake_run_slot_ok runs (n_score n) (c_desc _ _ _ Hc)) as Hs.
  rewrite <-(score_of_lookup _ _ _ Hn) in *.
  destruct (intake_run_slot runs (score_of s it)) as [i [|]]; last first.
  { eexists. split; [done|]. eapply cache_sub; [done|done|]. intros v t Hin Hl.
    eapply last_filter_remove; [done|]. right. intros <-.
    by eapply (slot_ok_fresh runs (score_of s it) i Hs). }
  destruct Hs as [t Ht]. simpl in Ht. rewrite Ht. cbn [mbind option_bind fst snd].
  case_decide as Hit; last first.
  { eexists. split; [done|]. eapply cache_sub; [done|done|]. intros v u Hin Hl.
    eapply last_filter_remove; [done|]. destruct (decide (u = it)) as [->|]; [|by left].
    right. intros <-. apply Hit. apply list_elem_of_lookup_2 in Ht.
    pose proof (c_tail _ _ _ Hc _ _ Ht). congruence. }
  subst t. rewrite Hp.
  pose proof (c_tail _ _ _ Hc _ _ (list_elem_of_lookup_2 _ _ _ Ht)) as Hlast.
  pose proof (last_filter_prev _ _ _ _ Hd Hnd Hlast) as Hprev.
  destruct (final l1 None) as [p|] eqn:Hf; [|eexists; split; [done|by eapply run_drop_cache]].
  destruct (Hs2 p) as (m & Hm & Hmsc); [by destruct (final_elem _ _ _ Hf)|].
  rewrite Hm. cbn [mbind option_bind]. rewrite Hmsc.
  destruct (Z.eqb_spec (score_of s p) (score_of s it)) as [Heq|Hne];
    eexists; (split; [done|]).
  - rewrite decide_True in Hprev by done. by eapply run_set_cache.
  - by eapply run_drop_cache.
Qed.

Lemma unlinked_rep s s' e q' runs l1 it l2 :
  intake_rep s e (l1 ++ it :: l2) → rep s' q' (l1 ++ l2) → f_id q' = f_id (i_q e) →
  untouched (l1 ++ it :: l2) s s' → cache_ok (score_of s) (l1 ++ l2) runs →
  intake_rep s' (e <| i_q := q' |> <| i_runs := runs |>) (l1 ++ l2).
Proof.
  intros Hrep Hr Hid Hun Hc.
  assert (∀ p, p ∈ l1 ++ l2 → is_Some (s !! p)) as Hin.
  { intros p Hp. eapply links_lookup; [apply (ir_rep _ _ _ Hrep)|]. set_solver. }
  split; [done|by rewrite <-(ir_id _ _ _ Hrep)| | | |apply Hrep].
  - pose proof (ir_order _ _ _ Hrep) as Ho.
    apply (StronglySorted_ext (before s)).
    + unfold before. intros p q Hp Hq.
      rewrite !(untouched_score _ _ _ _ Hun), !(untouched_seq _ _ _ _ Hun) by auto. done.
    + apply StronglySorted_app in Ho as (Hx & H1 & [_ H2]%StronglySorted_cons).
      apply StronglySorted_app_2; [|done|done]. intros p q ??. apply Hx; set_solver.
  - eapply cache_ok_ext; [|done]. intros p Hp. eapply untouched_score; eauto.
  - intros p Hp. rewrite (untouched_seq _ _ _ _ Hun) by auto.
    apply (ir_seq _ _ _ Hrep). set_solver.
Qed.

Lemma intake_unlink_spec s e l1 it l2 :
  intake_rep s e (l1 ++ it :: l2) →
  ∃ s' e', intake_unlink s e it = Some (s', e') ∧ intake_rep s' e' (l1 ++ l2) ∧
    untouched (l1 ++ it :: l2) s s' ∧ i_seq e' = i_seq e.
Proof.
  intros Hrep. pose proof (ir_rep _ _ _ Hrep) as Hr.
  destruct (fifo_remove_rep _ _ _ _ _ Hr) as (s' & q' & Hrm & Hr' & Hid & Hun).
  destruct (unlink_spec s l1 it l2) as
    (n & s1 & s2 & Hn & Hnp & Hnn & Hs1 & Hn1 & Hs2 & Hn2 & Hrl & _); [apply Hr..|].
  pose proof (rep_links _ _ _ Hr) as Hl. pose proof (before_desc _ _ (ir_order _ _ _ Hrep)) as Hd.
  destruct (intake_run_repair_spec s s2 (i_runs e) l1 it l2 n) as (runs' & Hruns & Hc');
    [apply Hrep|done|apply Hr|done|done| |].
  { intros p Hp. destruct (links_lookup _ _ _ _ p Hl) as [m Hm]; [set_solver|].
    destruct (rl_data _ _ _ Hrl p m Hm) as (m' & Hm' & _ & Hsc & _). exists m'.
    split; [done|]. by rewrite Hsc, (score_of_lookup _ _ _ Hm). }
  unfold fifo_remove in Hrm. cbv zeta in Hrm. rewrite Hn in Hrm. cbn [mbind option_bind] in Hrm.
  rewrite Hs1 in Hrm. cbn [mbind option_bind] in Hrm. rewrite Hn1 in Hrm.
  cbn [mbind option_bind] in Hrm. rewrite Hs2 in Hrm. cbn [mbind option_bind] in Hrm.
  unfold intake_unlink. cbv zeta. rewrite Hn. cbn [mbind option_bind].
  rewrite Hs1. cbn [mbind option_bind]. rewrite Hn1. cbn [mbind option_bind].
  rewrite Hs2. cbn [mbind option_bind]. rewrite Hruns. cbn [mbind option_bind].
  destruct (write s2 it _) as [s3|]; cbn [mbind option_bind] in Hrm |- *; [|done].
  destruct (write s3 it _) as [s4|]; cbn [mbind option_bind] in Hrm |- *; [|done].
  simplify_eq. eexists _, _. split; [done|]. split; [|done].
  by eapply unlinked_rep.
Qed.

End Intake.
