(* ===== verification/IntakeSort.v ===== *)
(** * The merge sort of the intake queue

    [intake_sort] and [intake_resort] of [src/engine.c] sort the queue in place: the
    proof that the pointer program computes a bottom-up merge sort of the list it
    is given, that the sort ends, and that the queue it leaves is in admission
    order. *)

From S2P Require Import Prelude Fifo Intake.
Import Fifo Intake.

Module IntakeSort.

(** [x] may stay before [y]. *)
Definition adm_le (s : store) (x y : ptr) : Prop :=
  score_of s y < score_of s x ∨ (score_of s x = score_of s y ∧ seq_of s x ≤ seq_of s y).
#[export] Instance adm_le_dec s x y : Decision (adm_le s x y).
Proof. unfold adm_le. apply _. Defined.
#[export] Instance adm_le_total s : Total (adm_le s).
Proof. intros x y. unfold adm_le. lia. Qed.
#[export] Instance adm_le_trans s : Transitive (adm_le s).
Proof. intros x y z. unfold adm_le. lia. Qed.

(** ** The reference: a bottom-up merge sort of lists *)
Section reference.
Context (R : ptr → ptr → Prop) `{!∀ x y, Decision (R x y)}.

Fixpoint pass (fuel : nat) (k : nat) (l : list ptr) : list ptr :=
  match fuel, l with
  | O, _ | _, [] => l
  | S f, _ => list_merge R (take k l) (take k (drop k l)) ++ pass f k (drop (k + k) l)
  end.
Fixpoint merges (fuel : nat) (k : nat) (l : list ptr) : nat :=
  match fuel, l with
  | O, _ | _, [] => 0
  | S f, _ => S (merges f k (drop (k + k) l))
  end.

(** Every run of [k] is sorted. *)
Definition runs_sorted (k : nat) (l : list ptr) : Prop :=
  ∀ i, Sorted R (take k (drop (i * k) l)).

Lemma length_list_merge l1 l2 : length (list_merge R l1 l2) = (length l1 + length l2)%nat.
Proof. by rewrite merge_Permutation, length_app. Qed.

Lemma pass_perm fuel k l : pass fuel k l ≡ₚ l.
Proof.
  revert l. induction fuel as [|f IH]; intros l; [done|]. destruct l as [|x l]; [done|].
  cbn [pass]. rewrite IH, merge_Permutation, <-app_assoc.
  rewrite <-(drop_drop (x :: l) k k), !take_drop. done.
Qed.

Lemma pass_sorted `{!Total R} fuel k l :
  (0 < k)%nat → (length l ≤ fuel)%nat → runs_sorted k l → runs_sorted (k + k) (pass fuel k l).
Proof.
  intros Hk. revert l. induction fuel as [|f IH]; intros l Hf Hs.
  { destruct l; [|simpl in Hf; lia]. intros i. cbn [pass]. rewrite drop_nil, take_nil. constructor. }
  destruct l as [|x l].
  { intros i. cbn [pass]. rewrite drop_nil, take_nil. constructor. }
  cbn [pass]. set (l0 := x :: l) in *.
  set (m := list_merge R (take k l0) (take k (drop k l0))).
  assert (Sorted R m) as Hm.
  { apply Sorted_list_merge; [done|apply (Hs 0%nat)|].
    pose proof (Hs 1%nat) as H1. by rewrite Nat.mul_1_l in H1. }
  assert (runs_sorted (k + k) (pass f k (drop (k + k) l0))) as Hr.
  { apply IH; [rewrite length_drop; simpl in *; lia|]. intros i. rewrite drop_drop.
    replace (k + k + i * k)%nat with ((i + 2) * k)%nat by lia. apply Hs. }
  assert (length m = Nat.min (k + k) (length l0)) as Hlm.
  { unfold m. rewrite length_list_merge, !length_take, length_drop. lia. }
  destruct (decide (k + k ≤ length l0)%nat) as [Hlen|Hlen].
  - intros [|i].
    + rewrite Nat.mul_0_l, drop_0, take_app_length' by lia. done.
    + replace (S i * (k + k))%nat with (k + k + i * (k + k))%nat by lia.
      rewrite <-drop_drop, drop_app_length' by lia. apply Hr.
  - rewrite (drop_ge l0) by lia.
    assert (pass f k [] = []) as -> by (by destruct f). rewrite app_nil_r. intros [|i].
    + rewrite Nat.mul_0_l, drop_0, take_ge by lia. done.
    + rewrite drop_ge by lia. rewrite take_nil. constructor.
Qed.

Lemma merges_one fuel k l :
  (0 < k)%nat → (length l ≤ fuel)%nat → (merges fuel k l ≤ 1)%nat ↔ (length l ≤ k + k)%nat.
Proof.
  intros Hk Hf. destruct fuel as [|f]; [simpl; lia|]. destruct l as [|x l]; [simpl; lia|].
  cbn [merges]. set (l0 := x :: l) in *. destruct (drop (k + k) l0) as [|y r] eqn:Hd.
  - assert (length (drop (k + k) l0) = 0%nat) as Hz by (by rewrite Hd).
    rewrite length_drop in Hz. destruct f; cbn [merges]; lia.
  - assert (length (drop (k + k) l0) = S (length r)) as Hz by (by rewrite Hd).
    rewrite length_drop in Hz. destruct f; cbn [merges]; lia.
Qed.
End reference.

(** ** Chains of [next] links *)

Fixpoint seg (s : store) (p : option ptr) (l : list ptr) (e : option ptr) : Prop :=
  match l with
  | [] => p = e
  | x :: l => p = Some x ∧ ∃ n, s !! x = Some n ∧ seg s (n_next n) l e
  end.

Lemma seg_frame s s' p l e :
  (∀ x, x ∈ l → s' !! x = s !! x) → seg s p l e → seg s' p l e.
Proof.
  revert p. induction l as [|x l IH]; intros p Hf; [done|]. simpl.
  intros [-> (n & Hn & Hs)]. split; [done|]. exists n. rewrite Hf by set_solver.
  split; [done|]. apply IH; [set_solver|done].
Qed.
Lemma seg_app s p l1 l2 e : seg s p (l1 ++ l2) e ↔ ∃ m, seg s p l1 m ∧ seg s m l2 e.
Proof.
  revert p. induction l1 as [|x l1 IH]; intros p; simpl.
  - naive_solver.
  - setoid_rewrite IH. naive_solver.
Qed.
Lemma seg_lookup s p l e x : seg s p l e → x ∈ l → is_Some (s !! x).
Proof.
  revert p. induction l as [|y l IH]; intros p; simpl; [set_solver|].
  intros [_ (n & Hn & Hs)] [->|?]%elem_of_cons; [by eexists|by eapply IH].
Qed.
Lemma seg_first s p l : seg s p l None → p = first l None.
Proof. destruct l; simpl; naive_solver. Qed.
Lemma links_seg s prev l : links s prev l None → seg s (first l None) l None.
Proof.
  revert prev. induction l as [|x l IH]; intros prev; simpl; [done|].
  intros [(n & Hn & _ & Hx) Hl]. split; [done|]. exists n. split; [done|].
  rewrite Hx. by eapply IH.
Qed.
Lemma seg_size s p l e : seg s p l e → NoDup l → (length l ≤ size s)%nat.
Proof.
  intros Hl Hnd. rewrite <-size_dom, <-(size_list_to_set (C:=gset ptr) l) by done.
  apply subseteq_size. intros x Hx%elem_of_list_to_set. apply elem_of_dom.
  by eapply seg_lookup.
Qed.

(** The output list under construction: its last item still has a stale link. *)
Definition opened (s : store) (hd tl : option ptr) (out : list ptr) : Prop :=
  hd = first out None ∧ tl = final out None ∧ ∃ e, seg s hd out e.

(** [if (tail) tail->next = pick; else list = pick;] *)
Lemma opened_push s hd tl out x :
  opened s hd tl out → NoDup (out ++ [x]) → is_Some (s !! x) →
  ∃ s', set_next s tl (Some x) = Some s' ∧
    opened s' (if tl then hd else Some x) (Some x) (out ++ [x]) ∧ relinked out s s'.
Proof.
  intros (-> & -> & e & Hs) Hnd [n Hn]. destruct (decide (out = [])) as [->|Hne].
  { exists s. split_and!; [done| |apply relinked_refl]. split_and!; [done..|].
    exists (n_next n). simpl. split; [done|]. by exists n. }
  destruct (exists_last Hne) as (out' & y & ->). rewrite final_app. cbn [final set_next].
  apply seg_app in Hs as (m & Hs1 & -> & ny & Hny & Hs2). simpl in Hs2.
  destruct (write_relinked s y (λ n, n <| n_next := Some x |>) ny Hny) as [-> Hr]; [done|].
  eexists. split; [done|]. split; [|eapply relinked_mono; [|done]; set_solver].
  apply NoDup_app in Hnd as (Hnd1 & Hx & _). apply NoDup_app in Hnd1 as (_ & Hy & _).
  assert (y ≠ x) by (intros ->; apply (Hx x); set_solver).
  split_and!; [by rewrite first_app; destruct out'|by rewrite final_app|].
  exists (n_next n). rewrite <-app_assoc. apply seg_app. exists (Some y). split.
  - eapply seg_frame; [|done]. intros z Hz. rewrite lookup_insert_ne; [done|].
    intros ->. apply (Hy z); set_solver.
  - simpl. split; [done|]. rewrite lookup_insert_eq. eexists. split; [done|]. simpl.
    split; [done|]. rewrite lookup_insert_ne by done. by exists n.
Qed.

(** ** One merge *)
Section merge.
Context (s0 : store).
Local Abbreviation R := (adm_le s0).

(** A store that has the items' scores and stamps of [s0]. *)
Definition keyed (l : list ptr) (s : store) : Prop :=
  ∀ x, x ∈ l → is_Some (s !! x) ∧ score_of s x = score_of s0 x ∧ seq_of s x = seq_of s0 x.

Lemma keyed_relinked l k s s' : keyed l s → relinked k s s' → keyed l s'.
Proof.
  intros Hk Hr x Hx. destruct (Hk x Hx) as ([n Hn] & Hsc & Hse).
  destruct (rl_data _ _ _ Hr x n Hn) as (n' & Hn' & _ & H1 & H2).
  rewrite (score_of_lookup _ _ _ Hn'), (seq_of_lookup _ _ _ Hn').
  rewrite (score_of_lookup _ _ _ Hn) in Hsc. rewrite (seq_of_lookup _ _ _ Hn) in Hse.
  split_and!; [by eexists|congruence..].
Qed.
Lemma keyed_sub l l' s : l' ⊆ l → keyed l s → keyed l' s.
Proof. intros H Hk x Hx. apply Hk. by apply H. Qed.

Lemma pick_q_spec l s x y np nq :
  keyed l s → x ∈ l → y ∈ l → s !! x = Some np → s !! y = Some nq →
  pick_q np nq = negb (bool_decide (R x y)).
Proof.
  intros Hk Hx Hy Hnp Hnq. destruct (Hk x Hx) as (_ & H1 & H2), (Hk y Hy) as (_ & H3 & H4).
  rewrite (score_of_lookup _ _ _ Hnp) in H1. rewrite (seq_of_lookup _ _ _ Hnp) in H2.
  rewrite (score_of_lookup _ _ _ Hnq) in H3. rewrite (seq_of_lookup _ _ _ Hnq) in H4.
  apply eq_true_iff_eq. unfold pick_q, adm_le. rewrite negb_true_iff, bool_decide_eq_false.
  rewrite orb_true_iff, andb_true_iff, !Z.ltb_lt, Z.eqb_eq. lia.
Qed.

Lemma elem_of_drop' (l : list ptr) k y : y ∈ drop k l → y ∈ l.
Proof. intros H. eapply elem_of_sublist; [done|]. apply sublist_drop. Qed.

(** What is left of the two runs after a pick. *)
Definition picked (lp lq : list ptr) (qsize : nat) (x : ptr) (lp' lq' : list ptr) (qsize' : nat) : Prop :=
  list_merge R lp (take qsize lq) = x :: list_merge R lp' (take qsize' lq') ∧
  drop qsize' lq' = drop qsize lq ∧
  ((lp = x :: lp' ∧ lq' = lq ∧ qsize' = qsize) ∨ (lp' = lp ∧ lq = x :: lq' ∧ qsize = S qsize')).

Lemma merge_pick_spec s p lp e q lq qsize :
  seg s p lp e → seg s q lq None → keyed (lp ++ lq) s →
  (lp ≠ [] ∨ take qsize lq ≠ []) →
  ∃ x lp' lq' qsize' p' q',
    merge_pick s p (length lp) q qsize = Some (x, (p', length lp'), (q', qsize')) ∧
    picked lp lq qsize x lp' lq' qsize' ∧ seg s p' lp' e ∧ seg s q' lq' None.
Proof.
  intros Hp Hq Hk Hne. unfold merge_pick, picked. destruct lp as [|x lp].
  { destruct qsize as [|qsize]; [naive_solver|]. destruct lq as [|y lq]; [naive_solver|].
    simpl in Hq. destruct Hq as [-> (n & Hn & Hq)]. simpl. rewrite Hn. simpl.
    exists y, [], lq, qsize, p, (n_next n). rewrite Nat.sub_0_r.
    split_and!; [done|by rewrite list_merge_nil_l|done|by right|done|done]. }
  pose proof Hp as [-> (np & Hnp & Hp')]. simpl.
  destruct (Nat.eqb_spec qsize 0) as [->|Hqs].
  { rewrite Hnp. simpl. exists x, lp, lq, 0%nat, (n_next np), q. rewrite Nat.sub_0_r.
    split_and!; [done|by rewrite ?take_0, !list_merge_nil_r|done|by left|done|done]. }
  destruct lq as [|y lq].
  { simpl in Hq. subst q. rewrite Hnp. simpl.
    exists x, lp, [], qsize, (n_next np), None. rewrite Nat.sub_0_r.
    split_and!; [done|by rewrite ?take_nil, !list_merge_nil_r|done|by left|done|done]. }
  pose proof Hq as [-> (nq & Hnq & Hq')]. rewrite Hnp, Hnq. simpl.
  rewrite (pick_q_spec (x :: lp ++ y :: lq) s x y np nq) by (done || set_solver).
  destruct qsize as [|qsize]; [done|]. cbn [take]. rewrite list_merge_cons.
  case_bool_decide as HR; simpl; rewrite ?Hnp, ?Hnq; simpl; rewrite Nat.sub_0_r.
  - exists x, lp, (y :: lq), (S qsize), (n_next np), (Some y).
    rewrite decide_True by done. split_and!; [done|done|done|by left|done|done].
  - exists y, (x :: lp), lq, qsize, (Some x), (n_next nq).
    rewrite decide_False by done. split_and!; [done|done|done|by right|done|done].
Qed.

Lemma seg_head s q lq : seg s q lq None → is_Some q ↔ lq ≠ [].
Proof.
  destruct lq as [|y lq]; simpl.
  - intros ->. split; [by intros [? ?]|done].
  - intros [-> _]. split; [done|by eexists].
Qed.

(** The condition of the loop: one of the two runs has an item left. *)
Lemma more_left (q : option ptr) (lq : list ptr) qsize psize :
  (is_Some q ↔ lq ≠ []) →
  (0 <? psize)%nat || ((0 <? qsize)%nat && bool_decide (is_Some q)) =
  bool_decide ((0 < psize)%nat ∨ take qsize lq ≠ []).
Proof.
  intros Hq. apply eq_true_iff_eq.
  rewrite orb_true_iff, andb_true_iff, !bool_decide_eq_true, !Nat.ltb_lt, Hq.
  destruct lq, qsize; simpl; intuition (try lia; try done).
Qed.
Lemma drop_of_take_nil (l : list ptr) k : take k l = [] → drop k l = l.
Proof. intros H. rewrite <-(take_drop k l) at 2. by rewrite H. Qed.

Lemma nodup_push (out l : list ptr) x : NoDup (out ++ l) → x ∈ l → NoDup (out ++ [x]).
Proof.
  intros (H1 & H2 & _)%NoDup_app Hx. apply NoDup_app. split_and!; [done| |apply NoDup_singleton].
  intros y Hy ->%list_elem_of_singleton. by eapply H2.
Qed.

Lemma merge_loop_spec fuel s p lp e q lq qsize hd tl out :
  seg s p lp e → seg s q lq None → opened s hd tl out →
  NoDup (out ++ lp ++ lq) → keyed (lp ++ lq) s →
  (length lp + length (take qsize lq) ≤ fuel)%nat →
  ∃ s' q' hd' tl',
    merge_loop fuel s p (length lp) q qsize hd tl = Some (s', q', hd', tl') ∧
    opened s' hd' tl' (out ++ list_merge R lp (take qsize lq)) ∧
    seg s' q' (drop qsize lq) None ∧ relinked (out ++ lp ++ take qsize lq) s s'.
Proof.
  revert s p lp q lq qsize hd tl out.
  induction fuel as [|f IH]; intros s p lp q lq qsize hd tl out Hp Hq Ho Hnd Hk Hf.
  all: cbn [merge_loop]; rewrite (more_left q lq qsize (length lp)) by (by eapply seg_head).
  - destruct lp as [|x lp]; [|simpl in Hf; lia].
    destruct (take qsize lq) eqn:Ht; [|simpl in Hf; lia]. simpl.
    rewrite (drop_of_take_nil lq qsize Ht).
    exists s, q, hd, tl. rewrite app_nil_r. split_and!; [done..|]. apply relinked_refl.
  - case_bool_decide as Hc.
    2:{ assert (lp = [] ∧ take qsize lq = []) as [-> Ht].
        { destruct lp as [|x lp]; [|exfalso; apply Hc; left; simpl; lia]. split; [done|].
          destruct (take qsize lq); [done|]. exfalso. apply Hc. by right. }
        rewrite Ht, (drop_of_take_nil lq qsize Ht).
        exists s, q, hd, tl. simpl. rewrite app_nil_r. split_and!; [done..|]. apply relinked_refl. }
    destruct (merge_pick_spec s p lp e q lq qsize) as
      (x & lp' & lq' & qsize' & p' & q' & -> & (Hm & Hd & Hx) & Hp' & Hq'); [done..| |].
    { destruct Hc; [left; intros ->; simpl in *; lia|by right]. }
    cbn [mbind option_bind].
    assert (x ∈ lp ++ lq) as Hxin by (destruct Hx as [(->&->&->)|(->&->&->)]; set_solver).
    assert (NoDup (out ++ [x])) as Hndx by (by eapply nodup_push).
    destruct (opened_push s hd tl out x) as (s1 & -> & Ho1 & Hr1);
      [done|done|by apply Hk|]. cbn [mbind option_bind].
    assert (∀ y, y ∈ lp' ++ lq' → s1 !! y = s !! y) as Hfr.
    { intros y Hy. apply (rl_frame _ _ _ Hr1). intros Hout.
      apply NoDup_app in Hnd as (_ & Hdis & _). apply (Hdis y Hout).
      destruct Hx as [(->&->&->)|(->&->&->)]; set_solver. }
    destruct (IH s1 p' lp' q' lq' qsize' (if tl then hd else Some x) (Some x) (out ++ [x]))
      as (s2 & q2 & hd2 & tl2 & -> & Ho2 & Hq2 & Hr2).
    + eapply seg_frame; [|done]. set_solver.
    + eapply seg_frame; [|done]. set_solver.
    + done.
    + destruct Hx as [(->&->&->)|(->&->&->)].
      * by rewrite <-app_assoc.
      * rewrite <-app_assoc. simpl. by rewrite (Permutation_middle lp lq' x).
    + eapply keyed_sub; [|by eapply keyed_relinked]. destruct Hx as [(->&->&->)|(->&->&->)]; set_solver.
    + destruct Hx as [(->&->&->)|(->&->&->)]; simpl in *; lia.
    + exists s2, q2, hd2, tl2. rewrite <-app_assoc in Ho2. simpl in Ho2. rewrite <-Hm in Ho2.
      rewrite Hd in Hq2. split_and!; [done..|].
      eapply relinked_trans; eapply relinked_mono; [|done| |done]; [set_solver|].
      destruct Hx as [(->&->&->)|(->&->&->)]; simpl; set_solver.
Qed.

(** ** A pass, and the passes *)

Lemma advance_spec k s n x l :
  seg s (Some x) (x :: l) None →
  advance k s n x = Some ((n + Nat.min k (S (length l)))%nat, first (drop k (x :: l)) None).
Proof.
  revert n x l. induction k as [|k IH]; intros n x l; [intros _; simpl; by rewrite Nat.add_0_r|].
  intros [_ (m & Hm & Hs)]. cbn [advance]. rewrite Hm. cbn [mbind option_bind].
  destruct l as [|y l].
  - simpl in Hs. rewrite Hs. simpl. rewrite drop_nil. simpl. do 2 f_equal. lia.
  - pose proof Hs as [Hx _]. rewrite Hx in Hs |- *. rewrite (IH (S n) y l Hs).
    simpl. do 2 f_equal. lia.
Qed.

Lemma sort_pass_spec fuel k s p l hd tl out nm :
  (0 < k)%nat → seg s p l None → opened s hd tl out → NoDup (out ++ l) → keyed l s →
  (length l ≤ fuel)%nat →
  ∃ s' hd' tl',
    sort_pass fuel k s p hd tl nm = Some (s', hd', tl', (nm + merges fuel k l)%nat) ∧
    opened s' hd' tl' (out ++ pass R fuel k l) ∧ relinked (out ++ l) s s'.
Proof.
  intros Hk0. revert s p l hd tl out nm.
  induction fuel as [|f IH]; intros s p l hd tl out nm Hp Ho Hnd Hk Hf.
  { destruct l; [|simpl in Hf; lia]. simpl in Hp. subst p. simpl. exists s, hd, tl.
    rewrite Nat.add_0_r, app_nil_r. split_and!; [done..|]. apply relinked_refl. }
  destruct l as [|x l].
  { simpl in Hp. subst p. simpl. exists s, hd, tl.
    rewrite Nat.add_0_r, app_nil_r. split_and!; [done..|]. apply relinked_refl. }
  pose proof Hp as [-> _]. cbn [sort_pass]. rewrite advance_spec with (l := l) by done.
  cbn [mbind option_bind]. set (l0 := x :: l) in *.
  assert (l0 = take k l0 ++ drop k l0) as Hl0 by (by rewrite take_drop).
  pose proof Hp as Hp2. rewrite Hl0 in Hp2. apply seg_app in Hp2 as (e & Hp1 & Hp2).
  pose proof (seg_first _ _ _ Hp2) as He. rewrite <-He.
  replace (0 + Nat.min k (S (length l)))%nat with (length (take k l0)) by (by rewrite length_take).
  destruct (merge_loop_spec (length (take k l0) + k) s (Some x) (take k l0) e e (drop k l0) k hd tl out)
    as (s1 & q1 & hd1 & tl1 & -> & Ho1 & Hq1 & Hr1); [done|done|done| | | |].
  { by rewrite <-Hl0. }
  { by rewrite <-Hl0. }
  { rewrite !length_take. lia. }
  cbn [mbind option_bind]. rewrite drop_drop in Hq1.
  assert (out ++ l0 = out ++ take k l0 ++ take k (drop k l0) ++ drop (k + k) l0) as Hsplit.
  { by rewrite <-(drop_drop l0 k k), !take_drop. }
  destruct (IH s1 q1 (drop (k + k) l0) hd1 tl1
    (out ++ list_merge R (take k l0) (take k (drop k l0))) (S nm)) as (s2 & hd2 & tl2 & -> & Ho2 & Hr2).
  - done.
  - done.
  - rewrite merge_Permutation, <-!app_assoc, <-Hsplit. done.
  - eapply keyed_relinked; [|done]. eapply keyed_sub; [|done]. intros y Hy. by eapply elem_of_drop'.
  - rewrite length_drop. lia.
  - exists s2, hd2, tl2. cbn [merges pass]. split_and!; [unfold l0; by rewrite Nat.add_succ_r| |].
    + by rewrite <-app_assoc in Ho2.
    + eapply relinked_trans; eapply relinked_mono; [|done| |done]; rewrite Hsplit.
      * set_solver.
      * rewrite merge_Permutation. set_solver.
Qed.

(** [tail->next = NULL] closes the output list. *)
Lemma close_spec s hd tl out t :
  opened s hd tl out → NoDup out → tl = Some t →
  ∃ s', write s t (λ n, n <| n_next := None |>) = Some s' ∧ relinked out s s' ∧
        seg s' hd out None.
Proof.
  intros (-> & Htl & e & Hs) Hnd ->. destruct (decide (out = [])) as [->|Hne]; [done|].
  destruct (exists_last Hne) as (out' & y & ->). rewrite final_app in Htl.
  simpl in Htl. injection Htl as ->.
  apply seg_app in Hs as (m & Hs1 & -> & ny & Hny & _).
  destruct (write_relinked s y (λ n, n <| n_next := None |>) ny Hny) as [-> Hr]; [done|].
  eexists. split; [done|]. split; [eapply relinked_mono; [|done]; set_solver|].
  apply NoDup_app in Hnd as (_ & Hy & _). apply seg_app. exists (Some y). split.
  - eapply seg_frame; [|done]. intros z Hz. rewrite lookup_insert_ne; [done|].
    intros ->. apply (Hy z); set_solver.
  - simpl. split; [done|]. rewrite lookup_insert_eq. eexists. split; [done|]. done.
Qed.

Lemma relinked_size l s s' : relinked l s s' → (size s ≤ size s')%nat.
Proof.
  intros [_ Hd]. rewrite <-!size_dom. apply subseteq_size. intros p [n Hn]%elem_of_dom.
  destruct (Hd p n Hn) as (n' & Hn' & _). apply elem_of_dom. by eexists.
Qed.

Lemma sort_loop_spec fuel k s p l :
  (0 < k)%nat → (0 < fuel)%nat → (length l ≤ k * 2 ^ fuel)%nat → l ≠ [] →
  seg s p l None → NoDup l → keyed l s → runs_sorted R k l →
  ∃ s' p' l', sort_loop fuel k s p = Some (s', p') ∧ seg s' p' l' None ∧
    l' ≡ₚ l ∧ Sorted R l' ∧ relinked l s s'.
Proof.
  revert k s p l. induction fuel as [|f IH]; intros k s p l Hk0 Hf0 Hlen Hne Hs Hnd Hk Hr; [lia|].
  pose proof (seg_size _ _ _ _ Hs Hnd) as Hsz. cbn [sort_loop].
  destruct (sort_pass_spec (size s) k s p l None None [] 0) as (s1 & hd1 & tl1 & -> & Ho1 & Hr1);
    [done|done|by split_and!; [| |by eexists]|done|done|done|].
  cbn [mbind option_bind]. simpl in Ho1, Hr1. set (l1 := pass R (size s) k l) in *.
  assert (l1 ≡ₚ l) as Hperm by apply pass_perm.
  assert (NoDup l1) as Hnd1 by (by rewrite Hperm).
  assert (l1 ≠ []) as Hne1.
  { intros Heq. rewrite Heq in Hperm. apply Permutation_nil in Hperm. done. }
  assert (∃ t, tl1 = Some t) as [t ->].
  { destruct Ho1 as (_ & -> & _). destruct l1 as [|x l1']; [done|]. simpl. by apply final_some. }
  cbn [mbind option_bind].
  destruct (close_spec s1 hd1 (Some t) l1 t) as (s2 & -> & Hr2 & Hs2); [done..|].
  cbn [mbind option_bind].
  assert (relinked l s s2) as Hrl.
  { eapply relinked_trans; [done|]. eapply relinked_mono; [|done]. by rewrite Hperm. }
  pose proof (pass_sorted R (size s) k l Hk0 Hsz Hr) as Hr3. fold l1 in Hr3.
  rewrite Nat.add_0_l. destruct (Nat.leb_spec (merges (size s) k l) 1) as [Hm|Hm].
  - apply merges_one in Hm; [|done|done]. exists s2, hd1, l1.
    pose proof (Hr3 0%nat) as Hr4. rewrite Nat.mul_0_l, drop_0, take_ge in Hr4.
    2: by rewrite Hperm.
    split_and!; done.
  - assert (¬ (length l ≤ k + k)%nat) as Hlt by (rewrite <-(merges_one (size s)) by done; lia).
    destruct (IH (k * 2)%nat s2 hd1 l1) as (s3 & p3 & l3 & -> & Hs3 & Hp3 & Hso & Hr5).
    + lia.
    + destruct f; [simpl in Hlen; lia|lia].
    + rewrite Hperm, <-Nat.mul_assoc, <-Nat.pow_succ_r' . done.
    + done.
    + done.
    + done.
    + eapply keyed_relinked; [|done]. eapply keyed_sub; [|done]. by rewrite Hperm.
    + by replace (k * 2)%nat with (k + k)%nat by lia.
    + exists s3, p3, l3. split_and!; [done|done|by rewrite Hp3|done|].
      eapply relinked_trans; [done|]. eapply relinked_mono; [|done]. by rewrite Hperm.
Qed.

Lemma runs_sorted_1 l : runs_sorted R 1 l.
Proof.
  intros i. destruct (drop (i * 1) l) as [|x k]; [constructor|]. simpl. rewrite take_0.
  repeat constructor.
Qed.

Lemma intake_sort_spec s l :
  seg s (first l None) l None → NoDup l → keyed l s →
  ∃ s' l', intake_sort s (first l None) = Some (s', first l' None) ∧
    seg s' (first l' None) l' None ∧ l' ≡ₚ l ∧ Sorted R l' ∧ relinked l s s'.
Proof.
  intros Hs Hnd Hk. destruct l as [|x l].
  { exists s, []. split_and!; [done..|constructor|apply relinked_refl]. }
  pose proof Hs as [_ (n & Hn & Hx)]. unfold intake_sort. cbn [first]. rewrite Hn.
  cbn [mbind option_bind]. destruct l as [|y l].
  { simpl in Hx. rewrite Hx. exists s, [x]. split_and!; [done..|repeat constructor|apply relinked_refl]. }
  pose proof Hx as [-> _]. pose proof (seg_size _ _ _ _ Hs Hnd) as Hsz.
  destruct (sort_loop_spec (size s) 1 s (Some x) (x :: y :: l)) as (s' & p' & l' & -> & Hs' & ?);
    [lia|simpl in Hsz; lia| |done|done|done|done|apply runs_sorted_1|].
  { rewrite Nat.mul_1_l. etrans; [done|]. apply Nat.lt_le_incl, Nat.pow_gt_lin_r. lia. }
  exists s', l'. by rewrite <-(seg_first _ _ _ Hs').
Qed.
End merge.

(** ** The back links, and the whole *)

Lemma relink_spec fuel s prev l :
  seg s (first l None) l None → NoDup l → (length l ≤ fuel)%nat →
  ∃ s', relink fuel s prev (first l None) = Some (s', final l prev) ∧
    links s' prev l None ∧ relinked l s s'.
Proof.
  revert s prev l. induction fuel as [|f IH]; intros s prev l Hs Hnd Hf.
  { destruct l; [|simpl in Hf; lia]. exists s. split_and!; [done..|apply relinked_refl]. }
  destruct l as [|x l]; [exists s; split_and!; [done..|apply relinked_refl]|].
  destruct Hs as [_ (n & Hn & Hs)]. apply NoDup_cons in Hnd as [Hx Hnd]. cbn [first relink].
  pose proof (seg_first _ _ _ Hs) as Hnx. rewrite Hnx in Hs.
  destruct (write_relinked s x (λ n, n <| n_prev := prev |>) n Hn) as [-> Hr]; [done|].
  cbn [mbind option_bind]. rewrite lookup_insert_eq. cbn [mbind option_bind n_next update].
  rewrite Hnx. cbn [update] in Hr.
  set (m := {| n_next := first l None; n_prev := prev; n_where := n_where n;
               n_score := n_score n; n_seq := n_seq n |}) in *.
  rewrite Hnx in Hr. fold m in Hr.
  destruct (IH (<[x := m]> s) (Some x) l) as (s' & -> & Hl & Hr').
  - eapply seg_frame; [|done]. intros z Hz. rewrite lookup_insert_ne; [done|]. by intros ->.
  - done.
  - simpl in Hf. lia.
  - exists s'. split_and!; [done| |].
    + simpl. split; [|done]. rewrite (rl_frame _ _ _ Hr') by done. rewrite lookup_insert_eq.
      by exists m.
    + eapply relinked_trans; (eapply relinked_mono; [|done]); set_solver.
Qed.

(** Distinct stamps make the order strict. *)
Lemma Sorted_before s l :
  Sorted (adm_le s) l → NoDup l →
  (∀ p q, p ∈ l → q ∈ l → seq_of s p = seq_of s q → p = q) → StronglySorted (before s) l.
Proof.
  intros Hs Hnd Hseq. apply Sorted_StronglySorted in Hs; [|apply _].
  induction Hs as [|x l Hs IH Hx]; [constructor|]. apply NoDup_cons in Hnd as [Hni Hnd].
  constructor; [apply IH; [done|set_solver]|]. rewrite Forall_forall in Hx |- *.
  intros y Hy. specialize (Hx y Hy). unfold adm_le, before in *.
  assert (seq_of s x ≠ seq_of s y); [|lia]. intros Heq.
  apply Hni. rewrite (Hseq x y); set_solver.
Qed.

Lemma intake_resort_spec s e l :
  rep s (i_q e) l → f_id (i_q e) = Q_INTAKE → 0 ≤ i_seq e →
  (∀ p, p ∈ l → seq_of s p ≤ i_seq e) →
  (∀ p q, p ∈ l → q ∈ l → seq_of s p = seq_of s q → p = q) →
  ∃ s' e' l', intake_resort s e = Some (s', e') ∧ intake_rep s' e' l' ∧ l' ≡ₚ l ∧
    relinked l s s' ∧ i_seq e' = i_seq e.
Proof.
  intros [Hh Ht Hc Hnd Hl Hw] Hid Hs0 Hseq Hdist.
  pose proof (links_seg _ _ _ Hl) as Hs.
  assert (keyed s l s) as Hk by (intros x Hx; split_and!; [by eapply links_lookup|done..]).
  destruct (intake_sort_spec s s l Hs Hnd Hk) as (s1 & l' & Hso & Hs1 & Hp & Hsd & Hr1).
  assert (NoDup l') as Hnd' by (by rewrite Hp).
  destruct (relink_spec (size s1) s1 None l') as (s2 & Hre & Hl2 & Hr2);
    [done|done|by eapply seg_size|].
  assert (relinked l s s2) as Hr.
  { eapply relinked_trans; [done|]. eapply relinked_mono; [|done]. by rewrite Hp. }
  pose proof (keyed_relinked s l l s s2 Hk Hr) as Hk2.
  unfold intake_resort. rewrite Hh, Hso. cbn [mbind option_bind]. rewrite Hre.
  cbn [mbind option_bind]. eexists _, _, l'. split; [done|]. split_and!; [|done|done|done].
  assert (StronglySorted (before s2) l') as Hord.
  { eapply (StronglySorted_ext (before s)).
    - unfold before. intros p q Hp' Hq'. rewrite Hp in Hp', Hq'.
      destruct (Hk2 p Hp') as (_ & -> & ->), (Hk2 q Hq') as (_ & -> & ->). done.
    - apply Sorted_before; [done|done|]. setoid_rewrite Hp. done. }
  split; cbn; try done.
  - split; cbn; try done.
    + by rewrite Hp.
    + intros p n Hp' Hn. rewrite Hp in Hp'.
      destruct (links_lookup _ _ _ _ _ Hl Hp') as [m Hm].
      destruct (relinked_where _ _ _ p n Hr) as (k & Hk' & ->); [by eexists|done|]. by eapply Hw.
  - split; [constructor|simpl; lia|set_solver].
  - intros p Hp'. rewrite Hp in Hp'. destruct (Hk2 p Hp') as (_ & _ & ->). by apply Hseq.
Qed.

End IntakeSort.
