(* ===== verification/Queues.v ===== *)
(** * Histories of the engine's data structures

    The pointer programs and the hash table against the abstract data they implement:
    any sequence of operations on the structure matches the same sequence on a finite
    map, on a list, or on a sorted list. *)

From S2P Require Import Prelude HandleIndex Fifo Intake IntakeSort.

Module Queues.

(** ** The handle index is a finite map *)

(** What the engine does with the index: it reserves a place and, if it got one, puts
    a fresh handle; deletes an indexed handle; and trims. [a] is the allocator's answer. *)
Inductive index_op := Insert (a : bool) (h : Z) (p : positive) | Delete (h : Z) | Trim (a : bool).

Definition index_run (o : index_op) (x : HandleIndex.hidx) : option HandleIndex.hidx :=
  match o with
  | Insert a h p =>
      '(ok, x) ← HandleIndex.hidx_reserve a x;
      if ok : bool then HandleIndex.hidx_put x h p else Some x
  | Delete h => HandleIndex.hidx_del x true h
  | Trim a => HandleIndex.hidx_trim a 0 x
  end.
(** The map, and the operations the engine performs on it: a handle is new and not 0,
    and only an indexed item is deleted. [ok] is whether the reservation succeeded. *)
Definition index_ok (o : index_op) (m : gmap Z positive) : Prop :=
  match o with
  | Insert _ h _ => h ≠ 0 ∧ m !! h = None
  | Delete h => is_Some (m !! h)
  | Trim _ => Z.of_nat (size m) ≤ SIZE_MAX / (8 * HandleIndex.sizeof_hslot)
  end.
Definition index_map (o : index_op) (ok : bool) (m : gmap Z positive) : gmap Z positive :=
  match o with
  | Insert _ h p => if ok then <[h := p]> m else m
  | Delete h => delete h m
  | Trim _ => m
  end.
Definition index_got (o : index_op) (x : HandleIndex.hidx) : option bool :=
  match o with Insert a _ _ => fst <$> HandleIndex.hidx_reserve a x | _ => Some true end.
(** A history, played on the index and on the map. *)
Fixpoint index_play (os : list index_op) (x : HandleIndex.hidx) (m : gmap Z positive) :
    option (HandleIndex.hidx * gmap Z positive) :=
  match os with
  | [] => Some (x, m)
  | o :: os => x' ← index_run o x; ok ← index_got o x; index_play os x' (index_map o ok m)
  end.
(** The engine's discipline: each operation is one it may perform by then. *)
Fixpoint index_valid (os : list index_op) (x : HandleIndex.hidx) (m : gmap Z positive) : Prop :=
  match os with
  | [] => True
  | o :: os => index_ok o m ∧
      ∀ x' ok, index_run o x = Some x' → index_got o x = Some ok → index_valid os x' (index_map o ok m)
  end.

Lemma index_run_repr o x m :
  HandleIndex.repr x m → index_ok o m →
  ∃ x' ok, index_run o x = Some x' ∧ index_got o x = Some ok ∧ HandleIndex.repr x' (index_map o ok m).
Proof.
  intros Hr Ho. destruct o as [a h p|h|a]; cbn [index_run index_ok index_map index_got] in *.
  - destruct (HandleIndex.hidx_reserve_spec a x m Hr) as (ok & x1 & -> & Hr1 & _ & Hl). cbn.
    destruct ok; [|by eexists _, false]. destruct Ho as [Hh Hm].
    destruct (HandleIndex.hidx_put_spec x1 m h p Hr1 Hh Hm (Hl eq_refl)) as (x2 & -> & H2). by eexists _, true.
  - destruct Ho as [p Hp]. destruct (HandleIndex.hidx_del_spec x m h p Hr Hp) as (x' & -> & H & _). by eexists _, true.
  - destruct (HandleIndex.hidx_trim_spec a 0 x m Hr) as (x' & -> & H); [|by eexists _, true].
    by rewrite (HandleIndex.r_live x m Hr).
Qed.
Lemma index_play_repr os x m :
  HandleIndex.repr x m → index_valid os x m →
  ∃ x' m', index_play os x m = Some (x', m') ∧ HandleIndex.repr x' m'.
Proof.
  revert x m. induction os as [|o os IH]; intros x m Hr Hv; [by exists x, m|]. destruct Hv as [Ho Hv].
  destruct (index_run_repr o x m Hr Ho) as (x' & ok & H1 & H2 & H3). cbn [index_play]. rewrite H1, H2.
  by apply IH, Hv.
Qed.

(** C10: The handle index is a finite map: whatever sequence of insertions, deletions and
    trims the engine performs on it, every probe ends, and looking a handle up then finds
    exactly the item the same sequence leaves in a map - an insertion that found memory
    for its place adds its handle, any other changes nothing. *)
Theorem index_refines_map os :
  index_valid os (HandleIndex.Hidx [] 0) ∅ →
  ∃ x m, index_play os (HandleIndex.Hidx [] 0) ∅ = Some (x, m) ∧
    (∀ h, HandleIndex.hidx_lookup x h = m !! h) ∧ HandleIndex.live x = Z.of_nat (size m).
Proof.
  intros Hv. destruct (index_play_repr os (HandleIndex.Hidx [] 0) ∅) as (x & m & H & Hr); [|done|].
  { apply (HandleIndex.repr_empty 0). by left. }
  exists x, m. split_and!; [done| |apply (HandleIndex.r_live _ _ Hr)]. intros h. by apply HandleIndex.hidx_lookup_eq.
Qed.
(** Two handles, the first deleted. *)
Lemma index_refines_map_witness :
  ∃ x m, index_play [Insert true 1 1%positive; Insert true 2 2%positive; Delete 1] (HandleIndex.Hidx [] 0) ∅ = Some (x, m) ∧
    ∀ h, HandleIndex.hidx_lookup x h = m !! h.
Proof.
  destruct (index_refines_map [Insert true 1 1%positive; Insert true 2 2%positive; Delete 1]) as (x & m & H & H1 & _).
  - cbn [index_valid]. split; [done|]. intros x1 ok1 _ [= <-]. split; [done|]. intros x2 ok2 H1 H2.
    split; [destruct ok2; by eexists|done].
  - by exists x, m.
Defined.

(** ** A linked queue is a list *)

Section fifo.
Import Fifo.

Inductive fifo_op := Push (p : positive) | Pop | Remove (p : positive).
(** The operation on the store and the queue, and what it hands back. *)
Definition fifo_run (o : fifo_op) (s : gmap positive node) (q : fifo) :
    option (list positive * gmap positive node * fifo) :=
  match o with
  | Push p => '(s, q) ← fifo_push s q p; Some ([], s, q)
  | Pop => '(r, s, q) ← fifo_pop s q; Some (option_list r, s, q)
  | Remove p => '(s, q) ← fifo_remove s q p; Some ([], s, q)
  end.
Definition fifo_list (o : fifo_op) (l : list positive) : list positive * list positive :=
  match o with
  | Push p => ([], l ++ [p])
  | Pop => (take 1 l, drop 1 l)
  | Remove p => ([], filter (λ x, x ≠ p) l)
  end.
(** An item is linked once, and only a linked one is removed. *)
Definition fifo_ok (dom : gset positive) (o : fifo_op) (l : list positive) : Prop :=
  match o with Push p => p ∈ dom ∧ p ∉ l | Pop => True | Remove p => p ∈ l end.

Fixpoint fifo_play (os : list fifo_op) (s : gmap positive node) (q : fifo) :
    option (list positive * gmap positive node * fifo) :=
  match os with
  | [] => Some ([], s, q)
  | o :: os => '(r, s, q) ← fifo_run o s q; '(rs, s, q) ← fifo_play os s q; Some (r ++ rs, s, q)
  end.
Fixpoint list_play (os : list fifo_op) (l : list positive) : list positive * list positive :=
  match os with
  | [] => ([], l)
  | o :: os => let '(r, l) := fifo_list o l in let '(rs, l) := list_play os l in (r ++ rs, l)
  end.
Fixpoint fifo_valid (dom : gset positive) (os : list fifo_op) (l : list positive) : Prop :=
  match os with [] => True | o :: os => fifo_ok dom o l ∧ fifo_valid dom os (fifo_list o l).2 end.
Definition named (os : list fifo_op) : list positive :=
  omap (λ o, match o with Push p => Some p | _ => None end) os.

Lemma filter_ne (p : positive) (l : list positive) : p ∉ l → filter (λ x, x ≠ p) l = l.
Proof.
  induction l as [|x l IH]; intros Hp; [done|]. apply not_elem_of_cons in Hp as [Hx Hp].
  rewrite filter_cons_True by congruence. by rewrite IH.
Qed.
Lemma untouched_dom (l : list positive) (s s' : gmap positive node) : untouched l s s' → dom s ⊆ dom s'.
Proof.
  intros [_ Hd] p. rewrite !elem_of_dom. intros [n Hn]. destruct (Hd p n Hn) as (n' & ? & _). by exists n'.
Qed.
Lemma fifo_run_rep (D : gset positive) o s q l :
  rep s q l → D ⊆ dom s → fifo_ok D o l →
  ∃ s' q', fifo_run o s q = Some ((fifo_list o l).1, s', q') ∧ rep s' q' (fifo_list o l).2 ∧
    f_id q' = f_id q ∧ D ⊆ dom s' ∧
    (∀ p, p ∉ named [o] → p ∉ l → s' !! p = s !! p) ∧ (∀ p, p ∈ (fifo_list o l).2 → p ∈ named [o] ∨ p ∈ l).
Proof.
  intros Hr HD Ho. destruct o as [p| |p]; cbn [fifo_run fifo_list fifo_ok named omap list_omap fst snd] in *.
  - destruct Ho as [Hp Hn]. apply HD, elem_of_dom in Hp as [n Hp].
    destruct (fifo_push_rep s q l p n Hr Hp Hn) as (s' & q' & -> & Hr' & Hid & Hu). exists s', q'.
    split_and!; [done|done|done| | |].
    + etrans; [exact HD|by eapply untouched_dom].
    + intros x Hx Hxl. apply (un_frame _ _ _ Hu). apply not_elem_of_cons. split; [|done].
      intros ->. apply Hx. by left.
    + intros x [?| ->%list_elem_of_singleton]%elem_of_app; [by right|left; by left].
  - destruct l as [|p l].
    + rewrite (fifo_pop_empty s q Hr). exists s, q. by split_and!; try done; intros; right.
    + destruct (fifo_pop_rep s q p l Hr) as (s' & q' & -> & Hr' & Hid & Hu). exists s', q'.
      simpl. rewrite drop_0. split_and!; [done|done|done| | |].
      * etrans; [exact HD|by eapply untouched_dom].
      * intros x _ Hx. by apply (un_frame _ _ _ Hu).
      * intros x Hx. right. by right.
  - apply list_elem_of_split in Ho as (l1 & l2 & ->).
    destruct (fifo_remove_rep s q l1 p l2 Hr) as (s' & q' & -> & Hr' & Hid & Hu). exists s', q'.
    assert (filter (λ x, x ≠ p) (l1 ++ p :: l2) = l1 ++ l2) as ->.
    { pose proof (rep_nodup _ _ _ Hr) as Hnd. apply NoDup_app in Hnd as (_ & Hd & Hnd).
      apply NoDup_cons in Hnd as [Hp2 _]. rewrite filter_app, filter_cons_False by (by intros []).
      assert (p ∉ l1) as Hp1 by (intros Hp1; apply (Hd p Hp1); by left).
      by rewrite !filter_ne. }
    split_and!; [done|done|done| | |].
    + etrans; [exact HD|by eapply untouched_dom].
    + intros x _ Hx. by apply (un_frame _ _ _ Hu).
    + intros x [?|?]%elem_of_app; right; apply elem_of_app; [by left|right; by right].
Qed.

Lemma fifo_play_rep (D : gset positive) os s q l :
  rep s q l → D ⊆ dom s → fifo_valid D os l →
  ∃ s' q', fifo_play os s q = Some ((list_play os l).1, s', q') ∧ rep s' q' (list_play os l).2 ∧
    f_id q' = f_id q ∧ (∀ p, p ∉ named os → p ∉ l → s' !! p = s !! p).
Proof.
  revert s q l. induction os as [|o os IH]; intros s q l Hr HD Hv.
  { exists s, q. by split_and!. }
  destruct Hv as [Ho Hv]. destruct (fifo_run_rep D o s q l Hr HD Ho) as (s1 & q1 & H1 & Hr1 & Hid & HD1 & Hf & Hl).
  destruct (fifo_list o l) as [r l1] eqn:Hol. cbn [fst snd] in *.
  destruct (IH s1 q1 l1 Hr1 HD1 Hv) as (s2 & q2 & H2 & Hr2 & Hid2 & Hf2). exists s2, q2.
  cbn [fifo_play list_play]. rewrite H1. cbn [mbind option_bind]. rewrite H2. cbn [mbind option_bind]. rewrite Hol.
  destruct (list_play os l1) as [rs l2]. cbn [fst snd] in *. split_and!; [done|done|congruence|].
  assert (∀ p, p ∈ named [o] → p ∈ named (o :: os)) as Hn1.
  { intros p Hp. change (o :: os) with ([o] ++ os). unfold named. rewrite omap_app. apply elem_of_app. by left. }
  assert (∀ p, p ∈ named os → p ∈ named (o :: os)) as Hn2.
  { intros p Hp. change (o :: os) with ([o] ++ os). unfold named. rewrite omap_app. apply elem_of_app. by right. }
  intros p Hp Hpl. rewrite Hf2, Hf; naive_solver.
Qed.

(** The doubly linked queue is a list: any sequence of fifo_push, fifo_pop and
    fifo_remove on an empty queue reads and writes only valid items, hands back what the
    same sequence of append, take-the-head and delete hands back, leaves the nodes
    chained both ways in the list's order with the right head, tail and count, each
    marked with the queue's id, and touches no item it was not given. *)
Theorem fifo_refines_list s id os :
  fifo_valid (dom s) os [] →
  ∃ s' q', fifo_play os s (MkFifo None None 0 id) = Some ((list_play os []).1, s', q') ∧
    let l := (list_play os []).2 in
    f_head q' = head l ∧ f_tail q' = last l ∧ f_count q' = Z.of_nat (length l) ∧ links s' None l None ∧
    (∀ p n, p ∈ l → s' !! p = Some n → n_where n = id) ∧ (∀ p, p ∉ named os → s' !! p = s !! p).
Proof.
  intros Hv. destruct (fifo_play_rep (dom s) os s (MkFifo None None 0 id) []) as (s' & q' & H & Hr & Hid & Hf); [|done|done|].
  { split; try done; [constructor|by intros p n ?%not_elem_of_nil]. }
  exists s', q'. split; [exact H|]. cbv zeta. destruct Hr as [A B C D E G]. rewrite A, B. split_and!.
  - by destruct (list_play os []).2.
  - assert (∀ l d, final l d = match last l with Some x => Some x | None => d end) as Hfin.
    { intros l. induction l as [|x [|y l] IH]; intros d; [done|done|].
      change (final (x :: y :: l) d) with (final (y :: l) (Some x)). rewrite IH, last_cons_cons. destruct (last (y :: l)) eqn:Hl; [done|by apply last_None in Hl]. }
    rewrite Hfin. by destruct (last _).
  - done.
  - done.
  - intros p n Hp Hn. rewrite (G p n Hp Hn). exact Hid.
  - intros p Hp. apply Hf; [done|by intros ?%not_elem_of_nil].
Qed.
Lemma fifo_refines_list_witness :
  let n := Node None None 0 0 0 in
  ∃ s' q', fifo_play [Push 1; Push 2; Push 3; Remove 2; Pop]%positive {[1 := n; 2 := n; 3 := n; 4 := n]}%positive
    (MkFifo None None 0 5) = Some ([1%positive], s', q') ∧ f_head q' = Some 3%positive ∧ s' !! 4%positive = Some n.
Proof.
  intros n. destruct (fifo_refines_list {[1 := n; 2 := n; 3 := n; 4 := n]}%positive 5 [Push 1; Push 2; Push 3; Remove 2; Pop]%positive)
    as (s' & q' & H & Hh & _ & _ & _ & _ & Hf).
  - cbn [fifo_valid fifo_ok]. split_and!; try done; apply (bool_decide_unpack _); by vm_compute.
  - exists s', q'. split_and!; [exact H|exact Hh|]. rewrite Hf; [by vm_compute|].
    apply (bool_decide_unpack _). by vm_compute.
Defined.
End fifo.

(** ** The intake is a priority queue *)

Section intake.
Import Fifo Intake IntakeSort.

(** An item queued under a score, taken off, and every queued item rescored by a hook. *)
Inductive intake_op := Queue (p : positive) (v : Z) | Unqueue (p : positive) | Rescore (f : positive → Z).

(** [for (cur = e->intake.head; cur; cur = cur->next) cur->sched_score = ...;] *)
Fixpoint rescore_walk (fuel : nat) (s : gmap positive node) (f : positive → Z) (cur : option positive) :
    option (gmap positive node) :=
  match cur with
  | None => Some s
  | Some x =>
      match fuel with
      | O => None
      | S k => s ← write s x (λ n, n <| n_score := f x |>); n ← s !! x; rescore_walk k s f (n_next n)
      end
  end.
Definition intake_run (o : intake_op) (s : gmap positive node) (e : intake) : option (gmap positive node * intake) :=
  match o with
  | Queue p v => s ← write s p (λ n, n <| n_score := v |>); intake_insert s e p
  | Unqueue p => intake_unlink s e p
  | Rescore f => s ← rescore_walk (size s) s f (f_head (i_q e)); intake_resort s e
  end.
Fixpoint intake_play (os : list intake_op) (s : gmap positive node) (e : intake) :
    option (gmap positive node * intake) :=
  match os with [] => Some (s, e) | o :: os => '(s, e) ← intake_run o s e; intake_play os s e end.

(** The reference: the queued items, oldest first, and their scores. *)
Definition waiting_after (o : intake_op) (w : list positive * (positive → Z)) : list positive * (positive → Z) :=
  match o with
  | Queue p v => (w.1 ++ [p], <[p := v]> w.2)
  | Unqueue p => (filter (λ x, x ≠ p) w.1, w.2)
  | Rescore f => (w.1, f)
  end.
Definition intake_ok (D : gset positive) (o : intake_op) (l : list positive) : Prop :=
  match o with Queue p _ => p ∈ D ∧ p ∉ l | Unqueue p => p ∈ l | Rescore _ => True end.
Fixpoint intake_valid (D : gset positive) (os : list intake_op) (w : list positive * (positive → Z)) : Prop :=
  match os with [] => True | o :: os => intake_ok D o w.1 ∧ intake_valid D os (waiting_after o w) end.

Definition stands (s : gmap positive node) (e : intake) (w : list positive * (positive → Z)) (l : list positive) : Prop :=
  intake_rep s e l ∧ l ≡ₚ w.1 ∧ (∀ p, p ∈ l → score_of s p = w.2 p) ∧
  StronglySorted (λ x y, seq_of s x < seq_of s y) w.1.

Lemma rescore_walk_spec f l fuel s prev :
  links s prev l None → NoDup l → (length l ≤ fuel)%nat →
  ∃ s', rescore_walk fuel s f (first l None) = Some s' ∧ dom s' = dom s ∧
    (∀ p n, p ∈ l → s !! p = Some n → s' !! p = Some (n <| n_score := f p |>)) ∧
    (∀ p, p ∉ l → s' !! p = s !! p).
Proof.
  revert fuel s prev. induction l as [|x l IH]; intros fuel s prev Hl Hnd Hf.
  { exists s. split_and!; [by destruct fuel|done|by intros p n ?%not_elem_of_nil|done]. }
  destruct fuel as [|fuel]; [simpl in Hf; lia|]. destruct Hl as [(n & Hn & _ & Hx) Hl].
  apply NoDup_cons in Hnd as [Hni Hnd]. set (s1 := <[x := n <| n_score := f x |>]> s).
  destruct (IH fuel s1 (Some x)) as (s' & Hw & Hd & Hin & Hout); [|done|simpl in Hf; lia|].
  { apply (links_frame s); [|done]. intros p Hp. unfold s1. rewrite lookup_insert_ne; [done|]. by intros ->. }
  exists s'. cbn [rescore_walk first]. rewrite (write_eq _ _ _ _ Hn). cbn [mbind option_bind].
  rewrite lookup_insert_eq. cbn [mbind option_bind n_next]. fold s1.
  change (n_next (n <| n_score := f x |>)) with (n_next n). rewrite Hx. split_and!; [done| | |].
  - rewrite Hd. unfold s1. rewrite dom_insert_L. apply elem_of_dom_2 in Hn. set_solver.
  - intros p m [->|Hp]%elem_of_cons Hm.
    + rewrite Hout by done. unfold s1. rewrite lookup_insert_eq. by simplify_eq.
    + apply Hin; [done|]. unfold s1. rewrite lookup_insert_ne; [done|]. by intros ->.
  - intros p [Hpx Hp]%not_elem_of_cons. rewrite Hout by done. unfold s1. by rewrite lookup_insert_ne.
Qed.

Lemma sorted_filter {A} (R : A → A → Prop) (P : A → Prop) `{!∀ x, Decision (P x)} (l : list A) :
  StronglySorted R l → StronglySorted R (filter P l).
Proof.
  induction 1 as [|x l _ IH Hx]; [constructor|]. rewrite filter_cons. case_decide; [|done]. constructor; [done|].
  rewrite Forall_forall in *. intros y [_ Hy]%list_elem_of_filter. by apply Hx.
Qed.
Lemma links_data (s s' : gmap positive node) prev l next :
  (∀ p n, p ∈ l → s !! p = Some n → ∃ n', s' !! p = Some n' ∧ n_next n' = n_next n ∧ n_prev n' = n_prev n) →
  links s prev l next → links s' prev l next.
Proof.
  revert prev. induction l as [|x l IH]; intros prev Hf; simpl; [done|]. intros [(n & Hn & H1 & H2) Hl]. split.
  - destruct (Hf x n ltac:(by left) Hn) as (n' & Hn' & ? & ?). exists n'. split_and!; [done|congruence..].
  - apply IH; [|done]. intros p m Hp. apply Hf. by right.
Qed.

Lemma intake_run_stands (D : gset positive) o s e w l :
  stands s e w l → D ⊆ dom s → intake_ok D o w.1 → i_seq e + 1 < 2 ^ 64 →
  ∃ s' e' l', intake_run o s e = Some (s', e') ∧ stands s' e' (waiting_after o w) l' ∧ D ⊆ dom s' ∧
    i_seq e ≤ i_seq e' ≤ i_seq e + 1.
Proof.
  intros (Hr & Hp & Hsc & Hso) HD Ho Hseq. destruct o as [p v|p|f]; cbn [intake_run intake_ok] in *.
  - destruct Ho as [HpD Hn]. apply HD, elem_of_dom in HpD as [n Hpn]. rewrite (write_eq _ _ _ _ Hpn).
    cbn [mbind option_bind]. set (n1 := n <| n_score := v |>). set (s1 := <[p := n1]> s).
    rewrite <-Hp in Hn. assert (s1 !! p = Some n1) as Hp1 by (unfold s1; apply lookup_insert_eq).
    destruct (intake_insert_spec s1 e l p n1 (write_rep s e l p n1 Hr Hn) Hp1 Hn Hseq)
      as (s' & e' & Hi & Hr' & Hsc' & _ & Hdom & Hse & Hsp & Hsq).
    assert (∀ x, x ≠ p → s1 !! x = s !! x) as Hs1 by (intros x Hx; unfold s1; by rewrite lookup_insert_ne).
    assert (∀ x, x ∈ l → x ≠ p ∧ is_Some (s1 !! x)) as Hll.
    { intros x Hx. assert (x ≠ p) by (by intros ->). split; [done|]. rewrite Hs1 by done.
      by eapply links_lookup; [apply (rep_links _ _ _ (ir_rep _ _ _ Hr))|]. }
    assert (placed (score_of s1) p l ≡ₚ l ++ [p]) as Hpl.
    { unfold placed. rewrite <-Permutation_middle, <-Permutation_cons_append. constructor.
      assert (filter (λ x, score_of s1 x < score_of s1 p) l = filter (λ x, ¬ score_of s1 p ≤ score_of s1 x) l) as ->.
      { apply list_filter_iff. intros x. lia. }
      apply (filter_app_complement (λ x, score_of s1 p ≤ score_of s1 x)). }
    exists s', e', (placed (score_of s1) p l). split_and!; [exact Hi| |..]; [split_and!; [done| | |]| |lia|lia].
    + by rewrite Hpl, Hp.
    + intros x Hx. rewrite Hpl in Hx. cbn [waiting_after snd]. rewrite Hsc'.
      * apply elem_of_app in Hx as [Hx| ->%list_elem_of_singleton].
        -- destruct (Hll x Hx) as [Hne _]. rewrite fn_lookup_insert_ne by done. rewrite <-Hsc by done.
           unfold score_of. by rewrite Hs1.
        -- rewrite fn_lookup_insert. unfold score_of. by rewrite Hp1.
      * apply elem_of_app in Hx as [Hx| ->%list_elem_of_singleton]; [by apply Hll|by eexists].
    + cbn [waiting_after fst]. apply StronglySorted_app. split_and!.
      * intros x y Hx ->%list_elem_of_singleton. rewrite <-Hp in Hx. destruct (Hll x Hx) as [Hne Hs].
        rewrite Hsp, Hsq by done. pose proof (ir_seq _ _ _ Hr x Hx) as Hle.
        unfold seq_of in *. rewrite Hs1 by done. lia.
      * eapply StronglySorted_ext; [|exact Hso]. intros x y Hx Hy Hlt. rewrite <-Hp in Hx, Hy.
        destruct (Hll x Hx) as [Hx1 Hx2], (Hll y Hy) as [Hy1 Hy2]. rewrite !Hsq by done.
        unfold seq_of in *. by rewrite !Hs1.
      * repeat constructor.
    + intros x Hx. apply elem_of_dom, Hdom. apply elem_of_dom. unfold s1. rewrite dom_insert. apply elem_of_union. right. by apply HD.
  - rewrite <-Hp in Ho. apply list_elem_of_split in Ho as (l1 & l2 & ->).
    destruct (intake_unlink_spec s e l1 p l2 Hr) as (s' & e' & Hu & Hr' & Hun & Hse).
    assert (∀ x, x ∈ l1 ++ p :: l2 → is_Some (s !! x)) as Hll.
    { intros x Hx. by eapply links_lookup; [apply (rep_links _ _ _ (ir_rep _ _ _ Hr))|]. }
    assert (∀ x, x ∈ l1 ++ p :: l2 → score_of s' x = score_of s x ∧ seq_of s' x = seq_of s x) as Hkeep.
    { intros x Hx. destruct (Hll x Hx) as [n Hn]. destruct (un_data _ _ _ Hun x n Hn) as (n' & Hn' & ? & ?).
      unfold score_of, seq_of. rewrite Hn, Hn'. by simpl; split. }
    assert (p ∉ l1 ++ l2) as Hnp.
    { pose proof (rep_nodup _ _ _ (ir_rep _ _ _ Hr)) as Hnd. rewrite <-Permutation_middle in Hnd.
      by apply NoDup_cons in Hnd as [? _]. }
    assert (l1 ++ l2 ≡ₚ filter (λ x, x ≠ p) w.1) as Hfl.
    { rewrite <-Hp. rewrite <-Permutation_middle. rewrite filter_cons_False by (by intros []). by rewrite filter_ne. }
    exists s', e', (l1 ++ l2). split_and!; [exact Hu| |..]; [split_and!; [done|done| |]| |lia|lia].
    + intros x Hx. assert (x ∈ l1 ++ p :: l2) as Hx' by (apply elem_of_app in Hx as [?|?]; apply elem_of_app; [by left|right; by right]).
      rewrite (proj1 (Hkeep x Hx')). by apply Hsc.
    + cbn [waiting_after fst]. eapply (StronglySorted_ext (λ x y, seq_of s x < seq_of s y)).
      * intros x y [_ Hx]%list_elem_of_filter [_ Hy]%list_elem_of_filter. rewrite <-Hp in Hx, Hy.
        by rewrite (proj2 (Hkeep x Hx)), (proj2 (Hkeep y Hy)).
      * by apply sorted_filter.
    + etrans; [exact HD|by eapply untouched_dom].
  - pose proof (ir_rep _ _ _ Hr) as Hrep. destruct Hrep as [Rh Rt Rc Rnd Rl Rw].
    destruct (rescore_walk_spec f l (size s) s None Rl Rnd) as (s1 & Hw & Hd & Hin & Hout).
    { by eapply seg_size; [by apply links_seg in Rl|]. }
    rewrite Rh, Hw. cbn [mbind option_bind].
    assert (∀ x, x ∈ l → is_Some (s !! x)) as Hll by (intros x Hx; by eapply links_lookup).
    assert (∀ x, x ∈ l → seq_of s1 x = seq_of s x ∧ score_of s1 x = f x) as Hk1.
    { intros x Hx. destruct (Hll x Hx) as [n Hn]. unfold seq_of, score_of. rewrite (Hin x n Hx Hn), Hn. done. }
    assert (rep s1 (i_q e) l) as Hrep1.
    { split; try done.
      - eapply links_data; [|exact Rl]. intros x n Hx Hn. eexists. split; [by apply Hin|done].
      - intros x n Hx Hn. destruct (Hll x Hx) as [m Hm]. rewrite (Hin x m Hx Hm) in Hn. injection Hn as <-.
        exact (Rw x m Hx Hm). }
    destruct (intake_resort_spec s1 e l Hrep1 (ir_id _ _ _ Hr) (ir_seq0 _ _ _ Hr)) as (s' & e' & l' & Hre & Hr' & Hp' & Hrl & Hse).
    { intros x Hx. rewrite (proj1 (Hk1 x Hx)). by apply (ir_seq _ _ _ Hr). }
    { intros x y Hx Hy. rewrite (proj1 (Hk1 x Hx)), (proj1 (Hk1 y Hy)). intros Heq.
      rewrite Hp in Hx, Hy. destruct (decide (x = y)) as [|Hne]; [done|exfalso].
      apply list_elem_of_split in Hx as (w1 & w2 & Hw1). rewrite Hw1 in Hso, Hy.
      apply StronglySorted_app in Hso as (H1 & _ & H2). apply StronglySorted_inv in H2 as [_ H2].
      apply elem_of_app in Hy as [Hy|[?|Hy]%elem_of_cons]; [|congruence|].
      - assert (seq_of s y < seq_of s x) by (apply H1; [done|by left]). lia.
      - rewrite Forall_forall in H2. specialize (H2 y Hy). simpl in H2. lia. }
    exists s', e', l'. split_and!; [exact Hre| |..]; [split_and!; [done|by rewrite Hp'| |]| |lia|lia].
    + intros x Hx. rewrite Hp' in Hx. cbn [waiting_after snd]. rewrite <-(proj2 (Hk1 x Hx)). unfold score_of.
      destruct (s1 !! x) as [n|] eqn:Hn; [|by destruct (Hll x Hx) as [m Hm]; rewrite (Hin x m Hx Hm) in Hn].
      destruct (rl_data _ _ _ Hrl x n Hn) as (n' & -> & _ & Hq & _). simpl. by rewrite Hq.
    + cbn [waiting_after fst]. eapply StronglySorted_ext; [|exact Hso]. intros x y Hx Hy Hlt. rewrite <-Hp in Hx, Hy.
      assert (∀ z, z ∈ l → seq_of s' z = seq_of s z) as Hz.
      { intros z Hz. rewrite <-(proj1 (Hk1 z Hz)). unfold seq_of. destruct (Hll z Hz) as [m Hm].
        destruct (rl_data _ _ _ Hrl z _ (Hin z m Hz Hm)) as (n' & Hn' & _ & _ & Hq). rewrite Hn', (Hin z m Hz Hm). simpl. by rewrite Hq. }
      by rewrite !Hz.
    + rewrite <-Hd in HD. etrans; [exact HD|]. intros x. rewrite !elem_of_dom. intros [n Hn].
      destruct (rl_data _ _ _ Hrl x n Hn) as (n' & ? & _). by exists n'.
Qed.

Lemma intake_play_stands (D : gset positive) os s e w l :
  stands s e w l → D ⊆ dom s → intake_valid D os w → i_seq e + Z.of_nat (length os) < 2 ^ 64 →
  ∃ s' e' l', intake_play os s e = Some (s', e') ∧ stands s' e' (foldl (λ w o, waiting_after o w) w os) l'.
Proof.
  revert s e w l. induction os as [|o os IH]; intros s e w l Hs HD Hv Hseq; [by exists s, e, l|].
  destruct Hv as [Ho Hv]. simpl in Hseq. destruct (intake_run_stands D o s e w l Hs HD Ho) as (s1 & e1 & l1 & H1 & Hs1 & HD1 & Hq); [lia|].
  destruct (IH s1 e1 _ l1 Hs1 HD1 Hv) as (s2 & e2 & l2 & H2 & Hs2); [lia|]. exists s2, e2, l2.
  cbn [intake_play foldl]. rewrite H1. cbn [mbind option_bind]. by split.
Qed.

(** [x] was queued before [y]. *)
Definition earlier (w : list positive) (x y : positive) : Prop :=
  ∃ w1 w2 w3, w = w1 ++ x :: w2 ++ y :: w3.
Lemma stamps_earlier s w x y :
  StronglySorted (λ x y, seq_of s x < seq_of s y) w → x ∈ w → y ∈ w → seq_of s x < seq_of s y → earlier w x y.
Proof.
  intros Hs Hx Hy Hlt. apply list_elem_of_split in Hx as (w1 & w2 & ->).
  apply StronglySorted_app in Hs as (H1 & _ & H2). apply elem_of_app in Hy as [Hy|[->|Hy]%elem_of_cons].
  - assert (seq_of s y < seq_of s x) by (apply H1; [done|by left]). lia.
  - lia.
  - apply list_elem_of_split in Hy as (w3 & w4 & ->). by exists w1, w3, w4.
Qed.

(** C9: The intake with its cached run tails is a priority queue: after any sequence of
    intake_insert, intake_unlink and rescorings followed by intake_resort, on fewer than
    2^64 operations, the queue holds exactly the items queued and not taken off, linked
    both ways, highest score first and, among equal scores, in the order they were
    queued - and every step of it ended, reading valid items only. *)
Theorem intake_is_priority_queue s os :
  let w := foldl (λ w o, waiting_after o w) ([], λ _, 0) os in
  intake_valid (dom s) os ([], λ _, 0) → Z.of_nat (length os) < 2 ^ 64 →
  ∃ s' e l, intake_play os s (MkIntake (MkFifo None None 0 Q_INTAKE) [] 0) = Some (s', e) ∧
    l ≡ₚ w.1 ∧ StronglySorted (λ x y, w.2 y < w.2 x ∨ (w.2 x = w.2 y ∧ earlier w.1 x y)) l ∧
    f_head (i_q e) = head l ∧ f_count (i_q e) = Z.of_nat (length l) ∧ links s' None l None.
Proof.
  intros w Hv Hlen. destruct (intake_play_stands (dom s) os s (MkIntake (MkFifo None None 0 Q_INTAKE) [] 0) ([], λ _, 0) [])
    as (s' & e & l & Hp & Hr & Hl & Hsc & Hso); [|done|done|done|].
  { split_and!; [|done|by intros p ?%not_elem_of_nil|constructor]. split; try done.
    - split; try done; [constructor|by intros p n ?%not_elem_of_nil].
    - constructor.
    - split; [constructor|simpl; lia|by intros v t ?%not_elem_of_nil].
    - by intros p ?%not_elem_of_nil. }
  fold w in Hl, Hsc, Hso. exists s', e, l. destruct (ir_rep _ _ _ Hr) as [A B C D E G]. split_and!; try done.
  - eapply StronglySorted_ext; [|apply (ir_order _ _ _ Hr)]. intros x y Hx Hy.
    unfold before. rewrite !Hsc by done. intros [?|[? Hlt]]; [by left|right]. split; [done|].
    rewrite Hl in Hx, Hy. by eapply stamps_earlier.
Qed.
(** Two items of score 1, one of score 5 queued last, then the scores turned round. *)
Lemma intake_is_priority_queue_witness :
  let n := Node None None 0 0 0 in
  ∃ s' e l, intake_play [Queue 1 1; Queue 2 1; Queue 3 5; Rescore Z.neg; Unqueue 2]%positive {[1 := n; 2 := n; 3 := n]}%positive
      (MkIntake (MkFifo None None 0 Q_INTAKE) [] 0) = Some (s', e) ∧ l ≡ₚ [1; 3]%positive.
Proof.
  intros n. destruct (intake_is_priority_queue {[1 := n; 2 := n; 3 := n]}%positive
    [Queue 1 1; Queue 2 1; Queue 3 5; Rescore Z.neg; Unqueue 2]%positive) as (s' & e & l & H & Hl & _).
  - cbn [intake_valid intake_ok waiting_after fst snd app].
    split_and!; try done; apply (bool_decide_unpack _); by vm_compute.
  - by vm_compute.
  - by exists s', e, l.
Defined.
End intake.

End Queues.
