(* ===== verification/Engine.v ===== *)
(** * The engine of [src/engine.c]: its data and the operations on it

    [gptps_item], [gptps_reg] and [struct gptps] as records, the events, the
    queues, the registry lookups, the handle index and the ledger helpers every
    entry point uses.  A pointer to an item is a key of the store [e_items]; a
    queue is the list of the pointers it links.  That the linked queues, the
    ordered intake and the index behave as these lists and this map is what [Fifo],
    [Intake], [IntakeSort] and [HandleIndex] prove. *)

From S2P Require Import Prelude HandleIndex.

Module Engine.

(** ** Enumerations of [include/gptps.h] *)

Inductive status :=
  | GPTPS_OK | GPTPS_E_NOMEM | GPTPS_E_INVAL | GPTPS_E_NOTFOUND | GPTPS_E_DUP
  | GPTPS_E_BUDGET | GPTPS_E_FULL | GPTPS_E_TIMEOUT | GPTPS_E_CANCELLED | GPTPS_E_ABI
  | GPTPS_E_CONFIG | GPTPS_E_IO | GPTPS_E_TASK | GPTPS_E_SHUTDOWN | GPTPS_E_DENIED
  | GPTPS_E_BUSY.
#[export] Instance status_eq_dec : EqDecision status.
Proof. solve_decision. Defined.

Inductive event_kind :=
  | EV_QUEUED | EV_STARTED | EV_FINISHED | EV_FAILED | EV_RETRIED | EV_DEAD_LETTERED
  | EV_DROPPED | EV_SAMPLE.
#[export] Instance event_kind_eq_dec : EqDecision event_kind.
Proof. solve_decision. Defined.

Inductive on_failure := DEAD_LETTER | REQUEUE | DROP.
#[export] Instance on_failure_eq_dec : EqDecision on_failure.
Proof. solve_decision. Defined.

Inductive exec_kind := EXEC_INPROC | EXEC_OOP | EXEC_PROGRAM.
#[export] Instance exec_kind_eq_dec : EqDecision exec_kind.
Proof. solve_decision. Defined.

Inductive decision := ADMIT | DENY | DEFER.
#[export] Instance decision_eq_dec : EqDecision decision.
Proof. solve_decision. Defined.

(** [GPTPS_Q_*]: the queue holding an item. *)
Inductive qid := Q_NONE | Q_INTAKE | Q_DELAYED | Q_READY | Q_RUNNING | Q_DONE | Q_DEAD.
#[export] Instance qid_eq_dec : EqDecision qid.
Proof. solve_decision. Defined.

Definition EV_FLAG_SHUTDOWN : Z := 1.
Definition EV_FLAG_SELF_CANCELLED : Z := 2.
Definition PENDING_CAP : nat := 256.
Definition REQUEUE_MIN_BACKOFF_MS : Z := 100.
Definition TASK_NAME_MAX : nat := 127.

(** ** Records *)

Record failure_policy := Policy {
  timeout_seconds : Z; max_retries : Z; retry_backoff_seconds : Z; p_on_failure : on_failure }.
#[export] Instance eta_policy : Eta failure_policy :=
  λ p, Policy (timeout_seconds p) (max_retries p) (retry_backoff_seconds p) (p_on_failure p).

Abbreviation rid := positive (only parsing).
Abbreviation bytes := (list Z) (only parsing).

Record item := Item {
  it_handle : Z;
  it_reg : option rid;
  it_name_owned : option string;
  it_payload : bytes;
  it_mem : Z;                       (* cost.mem_bytes *)
  it_policy : failure_policy;
  it_priority : Z;
  it_score : Z;                     (* sched_score *)
  it_skips : Z;
  it_attempt : Z;
  it_enqueue_ms : Z;
  it_seq : Z;                       (* intake_seq *)
  it_deadline_ms : Z;
  it_not_before_ms : Z;
  it_cancel : bool;                 (* the cancel word *)
  it_outcome : status;
  it_cancelled : bool;
  it_started : bool;
  it_timeout_ms_override : Z;
  it_res : option (list Z);         (* res_reserved, res_n long *)
  it_where : qid;
  it_indexed : bool }.
#[export] Instance eta_item : Eta item := λ i,
  Item (it_handle i) (it_reg i) (it_name_owned i) (it_payload i) (it_mem i) (it_policy i)
    (it_priority i) (it_score i) (it_skips i) (it_attempt i) (it_enqueue_ms i) (it_seq i)
    (it_deadline_ms i) (it_not_before_ms i) (it_cancel i) (it_outcome i) (it_cancelled i)
    (it_started i) (it_timeout_ms_override i) (it_res i) (it_where i) (it_indexed i).

(** A zeroed item ([gptps_calloc]). *)
Definition zero_policy : failure_policy := Policy 0 0 0 DEAD_LETTER.
Definition zero_item : item :=
  Item 0 None None [] 0 zero_policy 0 0 0 0 0 0 0 0 false GPTPS_OK false false 0 None Q_NONE false.

Record reg := Reg {
  r_name : string;
  r_exec : exec_kind;
  r_default_cost : Z;
  r_cost : option (bytes → Z → status * Z);   (* def.cost: the status, and *out->mem_bytes *)
  r_default_policy : failure_policy;
  r_priority : Z;
  r_enabled : bool;
  r_settling : option Z;                      (* settling, and the thread registering it *)
  r_removed : bool;
  r_cancelling : bool;
  r_service : bool;
  r_retire_on_ok : bool;
  r_res_cost : option (list Z) }.
#[export] Instance eta_reg : Eta reg := λ r,
  Reg (r_name r) (r_exec r) (r_default_cost r) (r_cost r) (r_default_policy r) (r_priority r)
    (r_enabled r) (r_settling r) (r_removed r) (r_cancelling r) (r_service r)
    (r_retire_on_ok r) (r_res_cost r).

Record resource := Resource { rs_name : string; rs_budget : Z; rs_reserved : Z }.
#[export] Instance eta_resource : Eta resource :=
  λ r, Resource (rs_name r) (rs_budget r) (rs_reserved r).

(** What a constraint hook and a scheduler hook are shown. *)
Record constraint_input := CInput {
  ci_task_name : string; ci_cost : Z; ci_handle : Z; ci_payload : bytes }.
Record sched_input := SInput {
  si_task_name : string; si_cost : Z; si_handle : Z; si_priority : Z; si_attempt : Z;
  si_enqueue_ms : Z; si_payload : bytes }.

(** A hook is the host's code, and may keep state: its answer is a function of its
    input and of [e_tick], which counts the calls the engine makes outside itself. *)
Definition constraint_fn : Type := nat → constraint_input → decision * Z.
Definition sched_fn : Type := nat → sched_input → Z.

Record event := Event {
  ev_kind : event_kind; ev_handle : Z; ev_name : string; ev_status : status;
  ev_attempt : Z; ev_mem : Z; ev_flags : Z }.

Record engine := Engine {
  e_max_memory_bytes : Z;
  e_max_concurrent_tasks : Z;
  e_max_intake_depth : Z;
  e_regs : gmap rid reg;            (* the slots *)
  e_registry : list rid;            (* the list of them, newest first *)
  e_items : gmap ptr item;
  e_qs : qid → list ptr;
  e_seq : Z;                        (* intake_seq *)
  e_dead_letter_count : Z;
  e_max_dead_letters : Z;
  e_dead_evicted : Z;
  e_reserved_mem : Z;
  e_running : Z;
  e_resources : list resource;
  e_stopping : bool;
  e_shutdown_grace_ms : Z;
  e_stop_deadline_ms : Z;
  e_manual : bool;
  e_next_handle : Z;
  e_hidx : HandleIndex.hidx;
  e_sched : option sched_fn;
  e_constraints : list constraint_fn;
  e_reserve_after_skips : Z;
  e_tick : nat;
  e_alloc : nat → bool }.           (* whether an allocation succeeds *)
#[export] Instance eta_engine : Eta engine := λ e,
  Engine (e_max_memory_bytes e) (e_max_concurrent_tasks e) (e_max_intake_depth e) (e_regs e)
    (e_registry e) (e_items e) (e_qs e) (e_seq e) (e_dead_letter_count e) (e_max_dead_letters e)
    (e_dead_evicted e) (e_reserved_mem e) (e_running e) (e_resources e) (e_stopping e)
    (e_shutdown_grace_ms e) (e_stop_deadline_ms e) (e_manual e) (e_next_handle e) (e_hidx e)
    (e_sched e) (e_constraints e) (e_reserve_after_skips e) (e_tick e) (e_alloc e).

(** ** Items and queues *)

Definition get (e : engine) (p : ptr) : item := default zero_item (e_items e !! p).
Definition put (p : ptr) (f : item → item) (e : engine) : engine := e <| e_items ::= alter f p |>.
Definition queue (e : engine) (q : qid) : list ptr := e_qs e q.
Definition head_of (e : engine) (q : qid) : option ptr := head (queue e q).
Definition count (e : engine) (q : qid) : Z := Z.of_nat (length (queue e q)).
Definition set_queue (q : qid) (l : list ptr) (e : engine) : engine := e <| e_qs ::= <[q := l]> |>.

Definition fifo_push (q : qid) (p : ptr) (e : engine) : engine :=
  put p (λ i, i <| it_where := q |>) (set_queue q (queue e q ++ [p]) e).
Definition fifo_remove (q : qid) (p : ptr) (e : engine) : engine :=
  put p (λ i, i <| it_where := Q_NONE |>) (set_queue q (filter (λ x, x ≠ p) (queue e q)) e).
Definition fifo_pop (q : qid) (e : engine) : option (ptr * engine) :=
  match queue e q with
  | [] => None
  | p :: l => Some (p, put p (λ i, i <| it_where := Q_NONE |>) (set_queue q l e))
  end.

(** Intake: into admission order, with a fresh stamp; see [Intake.intake_insert_spec]. *)
Definition score (e : engine) (p : ptr) : Z := it_score (get e p).
Definition intake_insert (p : ptr) (e : engine) : engine :=
  let e := e <| e_seq ::= λ q, u64 (q + 1) |> in
  let e := put p (λ i, i <| it_seq := e_seq e |> <| it_where := Q_INTAKE |>) e in
  set_queue Q_INTAKE
    (filter (λ x, score e p ≤ score e x) (queue e Q_INTAKE) ++
     p :: filter (λ x, score e x < score e p) (queue e Q_INTAKE)) e.
Definition intake_unlink (p : ptr) (e : engine) : engine := fifo_remove Q_INTAKE p e.

(** [intake_resort]: see [IntakeSort.intake_resort_spec]. *)
Definition adm_le (e : engine) (x y : ptr) : Prop :=
  score e y < score e x ∨ (score e x = score e y ∧ it_seq (get e x) ≤ it_seq (get e y)).
#[export] Instance adm_le_dec e x y : Decision (adm_le e x y).
Proof. unfold adm_le. apply _. Defined.
Definition intake_resort (e : engine) : engine :=
  set_queue Q_INTAKE (merge_sort (adm_le e) (queue e Q_INTAKE)) e.

(** ** The handle index

    A probe that never ends, and a table too large to size, are the [None] of
    [HandleIndex]; neither happens ([HandleIndex.hidx_put_spec] and the rest). *)
Definition hidx_put (p : ptr) (e : engine) : engine :=
  put p (λ i, i <| it_indexed := true |>)
    (e <| e_hidx ::= λ x, default x (HandleIndex.hidx_put x (it_handle (get e p)) p) |>).
Definition hidx_del (p : ptr) (e : engine) : engine :=
  if it_indexed (get e p) then
    put p (λ i, i <| it_indexed := false |>)
      (e <| e_hidx ::= λ x, default x (HandleIndex.hidx_del x true (it_handle (get e p))) |>)
  else e.
(** An allocation, as the oracle answers it. *)
Definition ask_alloc (e : engine) : bool * engine := (e_alloc e (e_tick e), e <| e_tick ::= S |>).
Definition hidx_reserve (e : engine) : bool * engine :=
  let '(a, e) := ask_alloc e in
  match HandleIndex.hidx_reserve a (e_hidx e) with
  | Some (ok, x) => (ok, e <| e_hidx := x |>)
  | None => (false, e)
  end.
Definition hidx_trim (e : engine) : engine :=
  let '(a, e) := ask_alloc e in
  e <| e_hidx ::= λ x, default x (HandleIndex.hidx_trim a 0 x) |>.

(** [item_free] and [item_drop]: the item leaves the store. *)
Definition item_free (p : ptr) (e : engine) : engine := e <| e_items ::= delete p |>.
Definition item_drop (p : ptr) (e : engine) : engine := item_free p (hidx_del p e).

(** [index_drop_list] *)
Definition index_drop_list (l : list ptr) (e : engine) : engine := foldl (λ e p, hidx_del p e) e l.

(** ** The registry *)

Definition reg_of (e : engine) (p : ptr) : option reg := r ← it_reg (get e p); e_regs e !! r.
Definition reg_flag (f : reg → bool) (e : engine) (p : ptr) : bool :=
  match reg_of e p with Some r => f r | None => false end.

(** The live (non-tombstoned) task that holds a name. *)
Definition registry_holder (e : engine) (name : string) : option (rid * reg) :=
  head (omap (λ r, g ← e_regs e !! r;
                   if negb (r_removed g) && bool_decide (r_name g = name) then Some (r, g) else None)
             (e_registry e)).
Definition reg_hidden (tid : Z) (r : reg) : bool :=
  match r_settling r with Some t => negb (t =? tid) | None => false end.
Definition registry_find (tid : Z) (e : engine) (name : string) : option (rid * reg) :=
  match registry_holder e name with
  | Some (r, g) => if reg_hidden tid g then None else Some (r, g)
  | None => None
  end.

(** Resolved name for an item. *)
Definition item_name (e : engine) (p : ptr) : string :=
  match it_name_owned (get e p) with
  | Some n => n
  | None => match reg_of e p with Some r => r_name r | None => "?"%string end
  end.

(** An event about an item, as every emit site fills it. *)
Definition item_event (e : engine) (p : ptr) (k : event_kind) (s : status) (flags : Z) : event :=
  Event k (it_handle (get e p)) (item_name e p) s (it_attempt (get e p)) (it_mem (get e p)) flags.

(** An always-up service: one that a clean exit restarts. *)
Definition always_up (r : reg) : bool := r_service r && negb (r_retire_on_ok r).

(** Has this handle already had the terminal event that closes it? *)
Definition terminal_reported (e : engine) (p : ptr) : bool :=
  if negb (it_started (get e p)) then false
  else if decide (it_outcome (get e p) = GPTPS_E_CANCELLED) then true
  else if decide (it_outcome (get e p) = GPTPS_OK) then negb (reg_flag always_up e p)
  else false.

(** ** Dead letters *)

(** [while (max && count >= max) { pop the oldest; free it }].  The fuel is the
    length of the list: each round takes one item off it. *)
Fixpoint dead_letter_evict (fuel : nat) (e : engine) : engine :=
  match fuel with
  | O => e
  | S f =>
      if negb (e_max_dead_letters e =? 0) && (e_max_dead_letters e <=? e_dead_letter_count e) then
        match fifo_pop Q_DEAD e with
        | None => e
        | Some (old, e) =>
            let e := e <| e_dead_letter_count ::= λ c, u32 (c - 1) |>
                       <| e_dead_evicted ::= λ c, u64 (c + 1) |> in
            dead_letter_evict f (item_free old e)
        end
      else e
  end.

Definition dead_letter_push (p : ptr) (e : engine) : engine :=
  let e := hidx_del p e in
  let e := dead_letter_evict (length (queue e Q_DEAD)) e in
  fifo_push Q_DEAD p e <| e_dead_letter_count ::= λ c, u32 (c + 1) |>.

(** ** Clocks *)

Definition requeue_at (now backoff_seconds : Z) : Z :=
  let ms := backoff_seconds * 1000 in
  let ms := if ms <? REQUEUE_MIN_BACKOFF_MS then REQUEUE_MIN_BACKOFF_MS else ms in
  u64 (now + ms).
Definition min_nonzero (a b : Z) : Z :=
  if a =? 0 then b else if b =? 0 then a else if a <? b then a else b.

(** ** The ledger *)

(** Add (or take) a snapshot to (from) every resource's reserved amount:
    [for (ri = 0; ri < n && ri < nres; ++ri)]. *)
Fixpoint res_apply (f : Z → Z → Z) (rs : list resource) (snap : list Z) : list resource :=
  match rs, snap with
  | r :: rs, x :: snap => r <| rs_reserved ::= λ v, u64 (f v x) |> :: res_apply f rs snap
  | _, _ => rs
  end.

(** What engine_pass step 1 does with a finished item's reservations. *)
Definition release (p : ptr) (e : engine) : engine :=
  let e := e <| e_reserved_mem ::= λ m, u64 (m - it_mem (get e p)) |>
             <| e_running ::= λ r, u32 (r - 1) |> in
  match it_res (get e p) with
  | None => e
  | Some snap => put p (λ i, i <| it_res := None |>)
                     (e <| e_resources ::= λ rs, res_apply Z.sub rs snap |>)
  end.

Definition nres (e : engine) : Z := Z.of_nat (length (e_resources e)).

(** The per-item cost of each named resource: [reg->res_cost], [NULL] if none. *)
Definition res_cost (e : engine) (p : ptr) : option (list Z) := g ← reg_of e p; r_res_cost g.

Fixpoint res_all (f : resource → Z → bool) (rs : list resource) (cost : list Z) : bool :=
  match rs, cost with
  | r :: rs, c :: cost => f r c && res_all f rs cost
  | _, _ => true
  end.

Definition res_fits (e : engine) (p : ptr) : bool :=
  match res_cost e p with
  | None => true
  | Some cost =>
      if nres e =? 0 then true
      else res_all (λ r c, negb (negb (c =? 0) && (rs_budget r <? u64 (rs_reserved r + c))))
             (e_resources e) cost
  end.

Definition res_never_fits (e : engine) (p : ptr) : bool :=
  if e_max_memory_bytes e <? it_mem (get e p) then true
  else match res_cost e p with
       | None => false
       | Some cost =>
           if nres e =? 0 then false
           else negb (res_all (λ r c, negb (rs_budget r <? c)) (e_resources e) cost)
       end.

(** ** Constraint hooks *)

Definition constraint_in (e : engine) (p : ptr) : constraint_input :=
  CInput (item_name e p) (it_mem (get e p)) (it_handle (get e p)) (it_payload (get e p)).

Fixpoint run_constraints_loop (cs : list constraint_fn) (i : constraint_input) (tick : nat)
    (result : decision) (max_defer : Z) : decision * Z * nat :=
  match cs with
  | [] => (result, if decide (result = DEFER) then (if max_defer =? 0 then 1 else max_defer) else 0, tick)
  | c :: cs =>
      match c tick i with
      | (DENY, _) => (DENY, 0, S tick)
      | (DEFER, ra) => run_constraints_loop cs i (S tick) DEFER (if max_defer <? ra then ra else max_defer)
      | (ADMIT, _) => run_constraints_loop cs i (S tick) result max_defer
      end
  end.

Definition run_constraints (e : engine) (p : ptr) : decision * Z * engine :=
  let '(d, ra, t) := run_constraints_loop (e_constraints e) (constraint_in e p) (e_tick e) ADMIT 0 in
  (d, ra, e <| e_tick := t |>).

(** ** The items of a type *)

Definition is_reg (r : rid) (e : engine) (p : ptr) : bool := bool_decide (it_reg (get e p) = Some r).
Definition fifo_count_reg (q : qid) (r : rid) (e : engine) : nat :=
  length (filter (λ p, is_reg r e p = true) (queue e q)).
Definition reg_live_refs (e : engine) (r : rid) : nat :=
  (fifo_count_reg Q_INTAKE r e + fifo_count_reg Q_DELAYED r e + fifo_count_reg Q_READY r e +
   fifo_count_reg Q_DONE r e + fifo_count_reg Q_RUNNING r e)%nat.

(** [fifo_detach_reg] and [fifo_detach_services]: unlink the items of [q] that
    satisfy [f] and move them, in order, to a local list. *)
Definition fifo_detach (f : engine → ptr → bool) (q : qid) (e : engine) : list ptr * engine :=
  let out := filter (λ p, f e p = true) (queue e q) in
  (out, foldl (λ e p, fifo_remove q p e) e out).
Definition fifo_detach_reg (q : qid) (r : rid) (e : engine) : list ptr * engine :=
  fifo_detach (is_reg r) q e.
Definition fifo_detach_services (q : qid) (e : engine) : list ptr * engine :=
  fifo_detach (reg_flag r_service) q e.
(** [fifo_detach_reg_admitted]: the same, releasing the ledger. *)
Definition fifo_detach_reg_admitted (q : qid) (r : rid) (e : engine) : list ptr * engine :=
  let out := filter (λ p, is_reg r e p = true) (queue e q) in
  (out, foldl (λ e p, release p (fifo_remove q p e)) e out).

(** [drain_cancelled]: the events owed to the items of a local list, freed. *)
Fixpoint drain_cancelled (l : list ptr) (e : engine) : list event * engine :=
  match l with
  | [] => ([], e)
  | p :: l =>
      let ev := if terminal_reported e p then []
                else [item_event e p EV_FAILED GPTPS_E_CANCELLED 0] in
      let '(evs, e) := drain_cancelled l (item_free p e) in (ev ++ evs, e)
  end.

Definition cancel_raise (p : ptr) (e : engine) : engine := put p (λ i, i <| it_cancel := true |>) e.
Definition cancel_clear (p : ptr) (e : engine) : engine := put p (λ i, i <| it_cancel := false |>) e.
(** [it->cancelled = 1; cancel_raise(it);] *)
Definition cancel_item (p : ptr) (e : engine) : engine :=
  cancel_raise p (put p (λ i, i <| it_cancelled := true |>) e).

End Engine.
