(* ===== verification/EnginePass.v ===== *)
(** * One scheduling pass: [engine_pass] of [src/engine.c]

    The pass drains completed work, promotes due retries, enforces deadlines and
    the shutdown grace, and admits within budget.  Each numbered step of the code is
    a definition here; [engine_pass] composes them in the code's order.  Events are
    buffered in [pend], whose capacity bounds every producer. *)

From S2P Require Import Prelude HandleIndex Engine.
Import Engine.

Module EnginePass.

(** The locals the steps share: [pend], [next_wake] and [more]. *)
Record pass := Pass { pend : list event; next_wake : Z; more : bool }.
#[export] Instance eta_pass : Eta pass := λ s, Pass (pend s) (next_wake s) (more s).

Definition npend (s : pass) : nat := length (pend s).
Definition full (s : pass) : bool := (PENDING_CAP <=? npend s)%nat.
(** [if (npend < GPTPS_PENDING_CAP) { pend[npend] = ev; ++npend; }] *)
Definition buffer (ev : event) (s : pass) : pass :=
  if full s then s else s <| pend ::= λ l, l ++ [ev] |>.
Definition wake_at (t : Z) (s : pass) : pass := s <| next_wake ::= λ w, min_nonzero w t |>.
Definition set_more (s : pass) : pass := s <| more := true |>.

(** ** 1) drain completed *)

(** The run returned OK: an always-up service restarts, anything else ends - with
    the terminal event a stopped service still owes. *)
Definition drain_ok (now : Z) (p : ptr) (e : engine) (s : pass) : engine * pass :=
  if reg_flag always_up e p && negb (it_cancelled (get e p)) &&
     negb (reg_flag r_removed e p) && negb (e_stopping e)
  then (fifo_push Q_DELAYED p
          (put p (λ i, i <| it_attempt := 1 |>
                         <| it_not_before_ms := requeue_at now (retry_backoff_seconds (it_policy i)) |>) e), s)
  else
    let s := if terminal_reported e p then s
             else buffer (item_event e p EV_FAILED GPTPS_E_CANCELLED 0) s in
    (item_drop p e, s).

(** A per-handle cancel: terminal, never retried or dead-lettered. *)
Definition drain_cancelled_item (p : ptr) (e : engine) (s : pass) : engine * pass :=
  let s := if terminal_reported e p then s
           else buffer (item_event e p EV_FAILED GPTPS_E_CANCELLED 0) s in
  (item_drop p e, s).

(** The type is being removed. *)
Definition drain_removed (p : ptr) (e : engine) (s : pass) : engine * pass :=
  let i := get e p in
  let cancelling := reg_flag r_cancelling e p in
  if cancelling || bool_decide (p_on_failure (it_policy i) = DROP) then
    let owes := if cancelling then negb (terminal_reported e p) else true in
    let s := if owes
             then buffer (item_event e p (if cancelling then EV_FAILED else EV_DROPPED)
                            (if cancelling then GPTPS_E_CANCELLED else it_outcome i) 0) s
             else s in
    (item_drop p e, s)
  else
    let s := buffer (item_event e p EV_DEAD_LETTERED (it_outcome i) 0) s in
    (dead_letter_push p e, s).

(** Retries are left: announced now, parked after step 2's scan. *)
Definition drain_retry (now : Z) (p : ptr) (e : engine) (s : pass) : engine * pass :=
  let e := put p (λ i, i <| it_attempt ::= λ a, u32 (a + 1) |>
      <| it_not_before_ms := u64 (now + retry_backoff_seconds (it_policy i) * 1000) |>) e in
  (e, buffer (item_event e p EV_RETRIED (it_outcome (get e p)) 0) s).

(** Retries are exhausted: the failure policy. *)
Definition drain_failed (now : Z) (p : ptr) (e : engine) (s : pass) : engine * pass :=
  match p_on_failure (it_policy (get e p)) with
  | REQUEUE =>
      if e_stopping e then
        let e := put p (λ i, i <| it_outcome := GPTPS_E_SHUTDOWN |>) e in
        let s := buffer (item_event e p EV_DEAD_LETTERED GPTPS_E_SHUTDOWN EV_FLAG_SHUTDOWN) s in
        (dead_letter_push p e, s)
      else
        (fifo_push Q_DELAYED p
           (put p (λ i, i <| it_attempt := 1 |>
                          <| it_not_before_ms := requeue_at now (retry_backoff_seconds (it_policy i)) |>) e), s)
  | DROP =>
      let s := buffer (item_event e p EV_DROPPED (it_outcome (get e p)) 0) s in
      (item_drop p e, s)
  | DEAD_LETTER =>
      let s := buffer (item_event e p EV_DEAD_LETTERED (it_outcome (get e p)) 0) s in
      (dead_letter_push p e, s)
  end.

(** The decision about one item popped off [done], its budget already released: the
    [bool] says it joins [announced]. *)
Definition drain_one (now : Z) (p : ptr) (e : engine) (s : pass) : engine * pass * bool :=
  let i := get e p in
  if decide (it_outcome i = GPTPS_OK) then (drain_ok now p e s, false)
  else if it_cancelled i then (drain_cancelled_item p e s, false)
  else if it_started i && bool_decide (it_outcome i = GPTPS_E_CANCELLED) then (item_drop p e, s, false)
  else if reg_flag r_removed e p then (drain_removed p e s, false)
  else if it_attempt i <=? max_retries (it_policy i) then (drain_retry now p e s, true)
  else (drain_failed now p e s, false).

Fixpoint drain_done (fuel : nat) (now : Z) (e : engine) (s : pass) (ann : list ptr) :
    engine * pass * list ptr :=
  match fuel with
  | O => (e, s, ann)
  | S f =>
      if full s then (e, s, ann)
      else match fifo_pop Q_DONE e with
           | None => (e, s, ann)
           | Some (p, e) =>
               let '(e, s, a) := drain_one now p (release p e) s in
               drain_done f now e s (if a then ann ++ [p] else ann)
           end
  end.

Definition step1 (now : Z) (e : engine) (s : pass) : engine * pass * list ptr :=
  let '(e, s, ann) := drain_done (length (queue e Q_DONE)) now e s [] in
  (e, match queue e Q_DONE with [] => s | _ => set_more s end, ann).

(** ** 2) promote backoff-ready items back to intake (single scan) *)

Definition promote_one (now : Z) (p : ptr) (e : engine) (s : pass) : engine * pass :=
  if it_not_before_ms (get e p) <=? now then
    (intake_insert p (fifo_remove Q_DELAYED p (put p (λ i, i <| it_started := false |>) e)), s)
  else (e, wake_at (it_not_before_ms (get e p)) s).

Definition step2 (now : Z) (e : engine) (s : pass) : engine * pass :=
  foldl (λ '(e, s) p, promote_one now p e s) (e, s) (queue e Q_DELAYED).

(** ** 2b) park the retries step 1 decided *)

Record held := Held { held_n : Z; held_mem : Z; held_score : Z }.
Definition no_held : held := Held 0 0 0.

Definition park_one (now : Z) (p : ptr) (e : engine) (s : pass) (h : held) : engine * pass * held :=
  let e := fifo_push Q_DELAYED p e in
  let i := get e p in
  if it_not_before_ms i <=? now then
    (e, set_more s,
     Held (held_n h + 1)
       (if UINT64_MAX - held_mem h <? it_mem i then UINT64_MAX else held_mem h + it_mem i)
       (if (held_n h =? 0) || (held_score h <? it_score i) then it_score i else held_score h))
  else (e, wake_at (it_not_before_ms i) s, h).

Definition step2b (now : Z) (ann : list ptr) (e : engine) (s : pass) : engine * pass * held :=
  foldl (λ '(e, s, h) p, park_one now p e s h) (e, s, no_held) ann.

(** ** 3) enforce deadlines on running tasks *)

Definition deadline_one (now : Z) (p : ptr) (e : engine) (s : pass) : engine * pass :=
  let d := it_deadline_ms (get e p) in
  if d =? 0 then (e, s)
  else if d <=? now then (cancel_raise p e, s)
  else (e, wake_at d s).

Definition step3 (now : Z) (e : engine) (s : pass) : engine * pass :=
  foldl (λ '(e, s) p, deadline_one now p e s) (e, s) (queue e Q_RUNNING).

(** ** 3b) bound the shutdown drain *)

(** Terminate one parked or queued item by policy. *)
Definition grace_one (p : ptr) (e : engine) (s : pass) : engine * pass :=
  let drop := bool_decide (p_on_failure (it_policy (get e p)) = DROP) in
  let e := put p (λ i, i <| it_outcome := GPTPS_E_SHUTDOWN |>) e in
  let s := buffer (item_event e p (if drop then EV_DROPPED else EV_DEAD_LETTERED)
                     GPTPS_E_SHUTDOWN EV_FLAG_SHUTDOWN) s in
  (if drop then item_drop p e else dead_letter_push p e, s).

Fixpoint grace_drain (fuel : nat) (e : engine) (s : pass) : engine * pass :=
  match fuel with
  | O => (e, s)
  | S f =>
      if full s then (e, s)
      else match fifo_pop Q_DELAYED e with
           | Some (p, e) => let '(e, s) := grace_one p e s in grace_drain f e s
           | None =>
               match fifo_pop Q_INTAKE e with
               | Some (p, e) => let '(e, s) := grace_one p e s in grace_drain f e s
               | None => (e, s)
               end
           end
  end.

Definition step3b (now : Z) (e : engine) (s : pass) : engine * pass * bool :=
  if e_stopping e && negb (e_stop_deadline_ms e =? 0) then
    if e_stop_deadline_ms e <=? now then
      let '(e, s) := grace_drain (length (queue e Q_DELAYED) + length (queue e Q_INTAKE)) e s in
      let s := match queue e Q_DELAYED, queue e Q_INTAKE with [], [] => s | _, _ => set_more s end in
      (foldl (λ e p, cancel_item p e) e (queue e Q_RUNNING), s, true)
    else (e, wake_at (e_stop_deadline_ms e) s, false)
  else (e, s, false).

(** ** 4) admit in scheduler order *)

Definition sched_in (e : engine) (p : ptr) : sched_input :=
  let i := get e p in
  SInput (item_name e p) (it_mem i) (it_handle i) (it_priority i) (it_attempt i)
    (it_enqueue_ms i) (it_payload i).
Definition rescore_one (f : sched_fn) (e : engine) (p : ptr) : engine :=
  let v := f (e_tick e) (sched_in e p) in
  put p (λ i, i <| it_score := v |>) (e <| e_tick ::= S |>).

(** Rescore every pending item under a scheduler hook, and rebuild the order. *)
Definition rescore (e : engine) : engine :=
  match e_sched e with
  | Some f =>
      match queue e Q_INTAKE with
      | [] => e
      | l => if e_running e <? e_max_concurrent_tasks e
             then intake_resort (foldl (rescore_one f) e l) else e
      end
  | None => e
  end.

Definition fits (e : engine) (p : ptr) : bool :=
  (u64 (e_reserved_mem e + it_mem (get e p)) <=? e_max_memory_bytes e) && res_fits e p.

(** The scan from the head: an item that can never fit, or else the first that
    fits now. *)
Inductive scanned := Stranded (p : ptr) | Best (p : ptr) | Nothing.
Fixpoint admit_scan (e : engine) (l : list ptr) : scanned :=
  match l with
  | [] => Nothing
  | p :: l => if res_never_fits e p then Stranded p
              else if fits e p then Best p else admit_scan e l
  end.

(** A queued item that ends in place: [stranded], or denied. *)
Definition admit_reject (p : ptr) (st : status) (e : engine) (s : pass) : engine * pass :=
  let e := intake_unlink p e in
  let e := put p (λ i, i <| it_outcome := st |>) e in
  let s := buffer (item_event e p EV_DEAD_LETTERED st 0) s in
  (dead_letter_push p e, s).

(** Keep back for step 2b's due retries what they would have taken. *)
Definition held_back (h : held) (best : ptr) (e : engine) : bool :=
  negb (held_n h =? 0) && (score e best <? held_score h) &&
  (e_manual e || (u32 (e_max_concurrent_tasks e - e_running e) <=? held_n h) ||
   (u64 (e_max_memory_bytes e - e_reserved_mem e - it_mem (get e best)) <? held_mem h)).

Definition defer_one (now retry_after : Z) (best : ptr) (e : engine) (s : pass) : engine * pass :=
  let t := u64 (now + retry_after) in
  (fifo_push Q_DELAYED best (put best (λ i, i <| it_not_before_ms := t |>) (intake_unlink best e)),
   wake_at t s).

(** The release snapshot: taken, not needed, or out of memory. *)
Inductive snapshot := NoSnap | Snap (l : list Z) | SnapFailed.
Definition take_snapshot (best : ptr) (e : engine) : snapshot * engine :=
  match res_cost e best with
  | None => (NoSnap, e)
  | Some cost =>
      if nres e =? 0 then (NoSnap, e)
      else let '(ok, e) := ask_alloc e in ((if ok : bool then Snap (take (length (e_resources e)) cost) else SnapFailed), e)
  end.

(** Commit to the admission of [best]. *)
Definition admit_best (top best : ptr) (sn : snapshot) (e : engine) : engine :=
  let e := if decide (best = top) then e else put top (λ i, i <| it_skips ::= λ k, u32 (k + 1) |>) e in
  let e := intake_unlink best e in
  let e := e <| e_reserved_mem ::= λ m, u64 (m + it_mem (get e best)) |>
             <| e_running ::= λ r, u32 (r + 1) |> in
  let e := match sn with
           | Snap cost => put best (λ i, i <| it_res := Some cost |>)
                            (e <| e_resources ::= λ rs, res_apply Z.add rs cost |>)
           | _ => e
           end in
  fifo_push Q_READY best e.

(** The body of the loop: [None] is [break]. *)
Definition admit_step (now : Z) (h : held) (top : ptr) (e : engine) (s : pass) :
    option (engine * pass) * (engine * pass) :=
  let stop := λ e s, (None, (e, s)) in
  let go := λ r, (Some r, r) in
  match admit_scan e (queue e Q_INTAKE) with
  | Stranded p => if full s then stop e (set_more s) else go (admit_reject p GPTPS_E_BUDGET e s)
  | Nothing => stop e s
  | Best best =>
      if held_back h best e then stop e s
      else if bool_decide (best ≠ top) && (e_reserve_after_skips e <=? it_skips (get e top)) then stop e s
      else
        let '(d, ra, e) := run_constraints e best in
        match d with
        | DEFER => go (defer_one now ra best e s)
        | DENY => if full s then stop e (set_more s) else go (admit_reject best GPTPS_E_DENIED e s)
        | ADMIT =>
            let '(sn, e) := take_snapshot best e in
            match sn with
            | SnapFailed => stop e (wake_at (u64 (now + 50)) s)
            | _ => go (admit_best top best sn e, s)
            end
        end
  end.

Fixpoint admit_loop (fuel : nat) (now : Z) (h : held) (e : engine) (s : pass) : engine * pass :=
  match fuel with
  | O => (e, s)
  | S f =>
      match queue e Q_INTAKE with
      | [] => (e, s)
      | top :: _ =>
          if e_running e <? e_max_concurrent_tasks e then
            match admit_step now h top e s with
            | (Some (e, s), _) => admit_loop f now h e s
            | (None, (e, s)) => (e, s)
            end
          else (e, s)
      end
  end.

Definition step4 (now : Z) (past_grace : bool) (h : held) (e : engine) (s : pass) : engine * pass :=
  if past_grace then (e, s)
  else let e := rescore e in admit_loop (length (queue e Q_INTAKE)) now h e s.

(** ** The pass *)
Definition engine_pass (now : Z) (e : engine) : engine * pass :=
  let s := Pass [] 0 false in
  let '(e, s, ann) := step1 now e s in
  let '(e, s) := step2 now e s in
  let '(e, s, h) := step2b now ann e s in
  let '(e, s) := step3 now e s in
  let '(e, s, past_grace) := step3b now e s in
  let '(e, s) := step4 now past_grace h e s in
  (hidx_trim e, s).

End EnginePass.
