(* ===== verification/EngineApi.v ===== *)
(** * The entry points of [src/engine.c]

    What a host, a worker and the stepper do to the engine between passes:
    [submit_internal], [gptps_cancel], the worker's start and post, the end of an
    attempt, [unregister_task], [gptps_dead_letter_drain], [gptps_step],
    [stop_services] and [gptps_shutdown], and the small registry operations.  Each
    function is one critical section of the code, with the events its caller emits
    once the lock is released. *)

From S2P Require Import Prelude HandleIndex Engine EnginePass.
Import Engine EnginePass.

Module EngineApi.

(** ** Submit *)

(** [gptps_submit_options]: a field is present when its flag is set. *)
Record submit_options := Options {
  o_priority : option Z; o_policy : option failure_policy; o_timeout_ms : option Z }.
Definition no_options : submit_options := Options None None None.

(** The policy an instance of a service runs under, whatever the submit said. *)
Definition service_policy (p : failure_policy) : failure_policy :=
  p <| p_on_failure := REQUEUE |> <| max_retries := 0 |> <| timeout_seconds := 0 |>.

(** The fields [submit_internal] fills once the submit is accepted. *)
Definition submit_item (now : Z) (e : engine) (r : rid) (g : reg) (cost : Z) (payload : bytes)
    (o : submit_options) : item :=
  let prio := default (r_priority g) (o_priority o) in
  let pol := default (r_default_policy g) (o_policy o) in
  zero_item <| it_handle := e_next_handle e |> <| it_reg := Some r |> <| it_payload := payload |>
    <| it_mem := cost |> <| it_policy := if r_service g then service_policy pol else pol |>
    <| it_priority := prio |> <| it_score := prio |> <| it_attempt := 1 |>
    <| it_enqueue_ms := now |>
    <| it_timeout_ms_override := if r_service g then 0 else default 0 (o_timeout_ms o) |>.

(** The checks under the lock, in the code's order: the cost, or why not. *)
Definition submit_check (e : engine) (g : reg) (payload : bytes) : status + Z :=
  let costed := match r_cost g with
                | None => inr (r_default_cost g)
                | Some f => match f payload (r_default_cost g) with
                            | (GPTPS_OK, c) => inr c
                            | (st, _) => inl st
                            end
                end in
  match costed with
  | inl st => inl st
  | inr cost =>
      if e_max_memory_bytes e <? cost then inl GPTPS_E_BUDGET
      else if match r_res_cost g with
              | None => false
              | Some rc => negb (nres e =? 0) &&
                           negb (res_all (λ r c, negb (rs_budget r <? c)) (e_resources e) rc)
              end then inl GPTPS_E_BUDGET
      else if negb (e_max_intake_depth e =? 0) && (e_max_intake_depth e <=? count e Q_INTAKE)
           then inl GPTPS_E_FULL
      else inr cost
  end.

(** Accepted: link the item in and index it. *)
Definition submit_accept (now : Z) (e : engine) (r : rid) (g : reg) (cost : Z) (payload : bytes)
    (o : submit_options) : Z * engine * event :=
  let p := fresh (dom (e_items e)) in
  let it := submit_item now e r g cost payload o in
  let e := e <| e_next_handle ::= λ h, u64 (h + 1) |> <| e_items ::= <[p := it]> |> in
  let e := hidx_put p (intake_insert p e) in
  (it_handle it, e, Event EV_QUEUED (it_handle it) (r_name g) GPTPS_OK 0 cost 0).

(** The payload copy and the item, allocated before the lock is taken. *)
Definition submit_alloc (payload : bytes) (e : engine) : bool * engine :=
  let '(a1, e) := match payload with [] => (true, e) | _ => ask_alloc e end in
  if a1 : bool then ask_alloc e else (false, e).

(** The result: the status with the handle on success, and the QUEUED event. *)
Definition submit_internal (tid now : Z) (name : string) (payload : bytes) (o : submit_options)
    (e : engine) : (status + Z) * engine * list event :=
  let '(a, e) := submit_alloc payload e in
  if negb a then (inl GPTPS_E_NOMEM, e, [])
  else if e_stopping e then (inl GPTPS_E_SHUTDOWN, e, [])
  else
    match registry_find tid e name with
    | None => (inl GPTPS_E_NOTFOUND, e, [])
    | Some (r, g) =>
        if negb (r_enabled g) then (inl GPTPS_E_NOTFOUND, e, [])
        else
          match submit_check e g payload with
          | inl st => (inl st, e, [])
          | inr cost =>
              let '(ok, e) := hidx_reserve e in
              if negb ok then (inl GPTPS_E_NOMEM, e, [])
              else let '(h, e, ev) := submit_accept now e r g cost payload o in (inr h, e, [ev])
          end
    end.

(** ** Cancel *)

Definition gptps_cancel (h : Z) (e : engine) : status * engine * list event :=
  if h =? 0 then (GPTPS_E_INVAL, e, [])
  else if e_stopping e then (GPTPS_E_SHUTDOWN, e, [])
  else
    match HandleIndex.hidx_lookup (e_hidx e) h with
    | None => (GPTPS_E_NOTFOUND, e, [])
    | Some p =>
        let out := λ e', (GPTPS_OK, item_drop p e', [item_event e' p EV_FAILED GPTPS_E_CANCELLED 0]) in
        match it_where (get e p) with
        | Q_RUNNING | Q_READY | Q_DONE => (GPTPS_OK, cancel_item p e, [])
        | Q_INTAKE => out (intake_unlink p e)
        | Q_DELAYED => out (fifo_remove Q_DELAYED p e)
        | Q_NONE | Q_DEAD => (GPTPS_E_NOTFOUND, e, [])
        end
    end.

(** ** Running an attempt *)

Definition attempt_deadline (now : Z) (e : engine) (p : ptr) : Z :=
  let i := get e p in
  match r_exec <$> reg_of e p with
  | Some EXEC_INPROC =>
      if negb (it_timeout_ms_override i =? 0) then u64 (now + it_timeout_ms_override i)
      else if negb (timeout_seconds (it_policy i) =? 0)
           then u64 (now + timeout_seconds (it_policy i) * 1000) else 0
  | _ => 0
  end.

(** An item popped off [ready] that must not start. *)
Definition discarded (e : engine) (p : ptr) : bool :=
  it_cancelled (get e p) || (reg_flag r_removed e p && reg_flag r_cancelling e p).

(** Take the next item off [ready]: discard it, or start it.  The worker and
    [gptps_step] share this. *)
Inductive taken := Idle | Discarded (p : ptr) | Started (p : ptr).
Definition worker_take (now : Z) (e : engine) : taken * engine * list event :=
  match fifo_pop Q_READY e with
  | None => (Idle, e, [])
  | Some (p, e) =>
      if discarded e p then
        (Discarded p, fifo_push Q_DONE p (put p (λ i, i <| it_outcome := GPTPS_E_CANCELLED |>) e), [])
      else
        let d := attempt_deadline now e p in
        let e := put p (λ i, i <| it_deadline_ms := d |> <| it_cancel := false |> <| it_started := true |>) e in
        let e := fifo_push Q_RUNNING p e in
        (Started p, e, [item_event e p EV_STARTED GPTPS_OK 0])
  end.

(** How [execute] reads the end of an attempt: [st] is what the body, or the process
    executor, returned, [raised] the cancel word read once after it. *)
Definition execute_status (now : Z) (e : engine) (p : ptr) (st : status) (raised : bool) : status :=
  match r_exec <$> reg_of e p with
  | Some EXEC_INPROC =>
      if raised then
        let d := it_deadline_ms (get e p) in
        if negb (d =? 0) && (d <=? now) then GPTPS_E_TIMEOUT else GPTPS_E_CANCELLED
      else st
  | _ => st
  end.
Definition execute_end (now : Z) (e : engine) (p : ptr) (st : status) (raised : bool) : status * event :=
  let st := execute_status now e p st raised in
  let k := if decide (st = GPTPS_OK) then EV_FINISHED else EV_FAILED in
  let flags := if bool_decide (st = GPTPS_E_CANCELLED) && negb raised
               then EV_FLAG_SELF_CANCELLED else 0 in
  (st, item_event e p k st flags).

(** The worker posts the item. *)
Definition worker_post (p : ptr) (st : status) (e : engine) : engine :=
  fifo_push Q_DONE p (put p (λ i, i <| it_outcome := st |>) (fifo_remove Q_RUNNING p e)).

(** ** Dead letters *)

(** [item_own_name]: its own copy of the name, cut from the registry. *)
Definition item_own_name (p : ptr) (e : engine) : bool * engine :=
  let cut := λ n e, put p (λ i, i <| it_name_owned := Some n |> <| it_reg := None |>) e in
  match it_name_owned (get e p) with
  | Some n => (true, cut n e)
  | None => let n := item_name e p in
            let '(ok, e) := ask_alloc e in
            if ok : bool then (true, cut n e) else (false, e)
  end.

(** [detach_dead_letter] *)
Definition detach_dead_letter (r : rid) (e : engine) : bool * engine :=
  foldl (λ '(all, e) p,
    if is_reg r e p then let '(ok, e) := item_own_name p e in (all && ok, e) else (all, e))
    (true, e) (queue e Q_DEAD).

(** [gptps_dead_letter_drain], the part under the lock: the letters taken.  A name
    that cannot be copied stops the drain there. *)
Fixpoint dead_letter_take (fuel : nat) (named : bool) (e : engine) : list ptr * engine :=
  match fuel with
  | O => ([], e)
  | S f =>
      match queue e Q_DEAD with
      | [] => ([], e)
      | p :: _ =>
          let '(ok, e) := if named then (true, e) else item_own_name p e in
          if ok : bool then
            match fifo_pop Q_DEAD e with
            | None => ([], e)
            | Some (_, e) =>
                let e := e <| e_dead_letter_count ::= λ c, u32 (c - 1) |> in
                let '(l, e) := dead_letter_take f named e in (p :: l, e)
            end
          else ([], e)
      end
  end.
Record dead_letter := DeadLetter {
  dl_handle : Z; dl_task_name : string; dl_status : status; dl_attempts : Z; dl_payload : bytes }.
Definition dead_letter_of (e : engine) (p : ptr) : dead_letter :=
  let i := get e p in DeadLetter (it_handle i) (item_name e p) (it_outcome i) (it_attempt i) (it_payload i).
(** [cb] says whether the host passed a callback; the result is what it is shown,
    and the count. *)
Definition gptps_dead_letter_drain (cb : bool) (e : engine) : list dead_letter * nat * engine :=
  let '(l, e) := dead_letter_take (length (queue e Q_DEAD)) (negb cb) e in
  (if cb then dead_letter_of e <$> l else [], length l, foldl (λ e p, item_free p e) e l).

(** ** Task management *)

Inductive remove_mode := REJECT_IF_BUSY | DRAIN | CANCEL.
#[export] Instance remove_mode_eq_dec : EqDecision remove_mode.
Proof. solve_decision. Defined.

Definition put_reg (r : rid) (f : reg → reg) (e : engine) : engine := e <| e_regs ::= alter f r |>.

Definition gptps_set_task_enabled (tid : Z) (name : string) (enabled : bool) (e : engine) : status * engine :=
  match registry_find tid e name with
  | None => (GPTPS_E_NOTFOUND, e)
  | Some (r, _) => (GPTPS_OK, put_reg r (λ g, g <| r_enabled := enabled |>) e)
  end.
Definition gptps_task_exists (tid : Z) (name : string) (e : engine) : bool :=
  match registry_find tid e name with None => false | Some (_, g) => r_enabled g end.
Definition gptps_task_count (tid : Z) (e : engine) : nat :=
  length (filter (λ r, match e_regs e !! r with
                       | Some g => negb (reg_hidden tid g) | None => false end = true) (e_registry e)).
Definition registry_unlink (r : rid) (e : engine) : engine := e <| e_registry ::= filter (λ x, x ≠ r) |>.

(** The queued work of a removed type, moved to a local list and out of the index. *)
Definition cancel_backlog (r : rid) (e : engine) : list ptr * engine :=
  let '(l1, e) := fifo_detach_reg Q_INTAKE r e in
  let '(l2, e) := fifo_detach_reg Q_DELAYED r e in (l1 ++ l2, e).

(** MANUAL: refuse, detach everything, or (idle) just tombstone. *)
Definition unregister_manual (r : rid) (mode : remove_mode) (e : engine) :
    option (list ptr * engine) :=
  if decide (mode = CANCEL) then
    if (0 <? fifo_count_reg Q_RUNNING r e)%nat then None
    else
      let e := put_reg r (λ g, g <| r_removed := true |> <| r_cancelling := true |>) e in
      let '(l1, e) := cancel_backlog r e in
      let '(l2, e) := fifo_detach_reg_admitted Q_READY r e in
      let '(l3, e) := fifo_detach_reg_admitted Q_DONE r e in
      let l := l1 ++ l2 ++ l3 in Some (l, index_drop_list l e)
  else if (0 <? reg_live_refs e r)%nat then None
  else Some ([], put_reg r (λ g, g <| r_removed := true |>) e).

(** THREADED: tombstone, and for CANCEL detach the backlog and flag what runs.
    [reentrant] is [engine_is_reentrant]: the caller is an engine thread. *)
Definition unregister_threaded (r : rid) (mode : remove_mode) (reentrant : bool) (e : engine) :
    option (list ptr * engine) :=
  if bool_decide (mode = REJECT_IF_BUSY) && (0 <? reg_live_refs e r)%nat then None
  else if reentrant &&
    (0 <? (fifo_count_reg Q_READY r e + fifo_count_reg Q_DONE r e + fifo_count_reg Q_RUNNING r e +
           if decide (mode = CANCEL) then 0
           else fifo_count_reg Q_INTAKE r e + fifo_count_reg Q_DELAYED r e))%nat then None
  else
    let e := put_reg r (λ g, g <| r_removed := true |>) e in
    if decide (mode = CANCEL) then
      let e := put_reg r (λ g, g <| r_cancelling := true |>) e in
      let '(l, e) := cancel_backlog r e in
      let e := index_drop_list l e in
      Some (l, foldl (λ e p, if is_reg r e p then cancel_raise p e else e) e (queue e Q_RUNNING))
    else Some ([], e).

(** The first critical section of [unregister_task]: the type and its backlog. *)
Definition unregister_begin (tid : Z) (reentrant : bool) (name : string) (mode : remove_mode)
    (e : engine) : status * option (rid * list ptr) * engine :=
  if (TASK_NAME_MAX <? String.length name)%nat then (GPTPS_E_INVAL, None, e)
  else if e_stopping e then (GPTPS_E_SHUTDOWN, None, e)
  else
    match registry_find tid e name with
    | None => (GPTPS_E_NOTFOUND, None, e)
    | Some (r, g) =>
        if r_settling g then (GPTPS_E_BUSY, None, e)
        else
          let mode := if r_service g && bool_decide (mode = DRAIN) then CANCEL else mode in
          match (if e_manual e then unregister_manual r mode e
                 else unregister_threaded r mode reentrant e) with
          | None => (GPTPS_E_BUSY, None, e)
          | Some (l, e) => (GPTPS_OK, Some (r, l), e)
          end
    end.

(** The last: once the type has drained ([reg_live_refs] is 0), its dead letters get
    names of their own, the slot is unlinked, the backlog gets its terminal events,
    and the slot is freed unless a dead letter still names its type through it. *)
Definition unregister_end (r : rid) (dropped : list ptr) (e : engine) : engine * list event :=
  let '(named, e) := detach_dead_letter r e in
  let e := registry_unlink r e in
  let '(evs, e) := drain_cancelled dropped e in
  (if named : bool then e <| e_regs ::= delete r |> else e, evs).

(** ** Shutdown *)

Definition flag_services (q : qid) (e : engine) : engine :=
  foldl (λ e p, if reg_flag r_service e p then cancel_item p e else e) e (queue e q).

Definition stop_services (e : engine) : list ptr * engine :=
  let e := flag_services Q_DONE (flag_services Q_READY (flag_services Q_RUNNING e)) in
  let '(l1, e) := fifo_detach_services Q_INTAKE e in
  let '(l2, e) := fifo_detach_services Q_DELAYED e in
  (l1 ++ l2, index_drop_list (l1 ++ l2) e).

(** Up to the join: refuse work, arm the grace, stop the services. *)
Definition shutdown_begin (now : Z) (e : engine) : engine * list event :=
  let e := e <| e_stopping := true |>
             <| e_stop_deadline_ms := if e_shutdown_grace_ms e =? 0 then 0
                                      else u64 (now + e_shutdown_grace_ms e) |> in
  let '(l, e) := stop_services e in
  let '(evs, e) := drain_cancelled l e in (e, evs).

(** When the dispatcher leaves its loop. *)
Definition drained (e : engine) : bool :=
  e_stopping e &&
  match queue e Q_INTAKE, queue e Q_READY, queue e Q_DONE, queue e Q_DELAYED, queue e Q_RUNNING with
  | [], [], [], [], [] => e_running e =? 0
  | _, _, _, _, _ => false
  end.

(** Empty a queue into the local list. *)
Definition pop_all (q : qid) (e : engine) : list ptr * engine :=
  (queue e q, foldl (λ e p, fifo_remove q p e) e (queue e q)).

(** After the join: whatever the pumps did not get to, then the dead letters. *)
Definition shutdown_end (e : engine) : engine * list event :=
  let '(l1, e) := pop_all Q_INTAKE e in
  let '(l2, e) := pop_all Q_DELAYED e in
  let '(l3, e) := pop_all Q_READY e in
  let '(l4, e) := pop_all Q_DONE e in
  let '(l5, e) := pop_all Q_RUNNING e in
  let l := l1 ++ l2 ++ l3 ++ l4 ++ l5 in
  let '(evs, e) := drain_cancelled l (index_drop_list l e) in
  let '(dead, e) := pop_all Q_DEAD e in
  (foldl (λ e p, item_free p e) e dead, evs).

(** ** MANUAL mode: [gptps_step]

    [clock] gives the time of the n-th reading, [body] what the n-th attempt returns
    and whether its cancel word was up; a body that calls back into the engine is
    not modelled here (the transitions of [Lifecycle] interleave such calls). *)
Section step.
Context (clock : nat → Z) (body : nat → status * bool).

(** [do { engine_pass; flush_pending; } while (more);] *)
Fixpoint pass_loop (fuel : nat) (n : nat) (e : engine) : option (engine * list event * nat) :=
  match fuel with
  | O => None
  | S f =>
      let '(e, s) := engine_pass (clock n) e in
      if more s then '(e, evs, n) ← pass_loop f (S n) e; Some (e, pend s ++ evs, n)
      else Some (e, pend s, S n)
  end.

(** [run_ready]: everything in [ready], inline. *)
Fixpoint run_ready (fuel : nat) (n : nat) (e : engine) : engine * list event * nat * nat :=
  match fuel with
  | O => (e, [], n, 0%nat)
  | S f =>
      match worker_take (clock n) e with
      | (Idle, e, _) => (e, [], n, 0%nat)
      | (Discarded _, e, _) => run_ready f (S n) e
      | (Started p, e, evs) =>
          let '(st, raised) := body n in
          let '(st, ev) := execute_end (clock (S n)) e p st raised in
          let '(e, evs', n', ran) := run_ready f (S (S n)) (worker_post p st e) in
          (e, evs ++ [ev] ++ evs', n', S ran)
      end
  end.

Definition measure (e : engine) : nat :=
  (2 * length (queue e Q_DONE) + length (queue e Q_INTAKE) + length (queue e Q_DELAYED))%nat.

(** The loops of the step: run what is ready, account for it, and again if that pass
    was the one that admitted. *)
Fixpoint step_rounds (fuel : nat) (n : nat) (e : engine) : option (engine * list event * nat) :=
  match fuel with
  | O => None
  | S f =>
      let '(e, evs1, n, ran) := run_ready (length (queue e Q_READY)) n e in
      '(e, evs2, n) ← pass_loop (S (measure e)) n e;
      match ran, queue e Q_READY with
      | O, _ :: _ => '(e, evs3, ran) ← step_rounds f n e; Some (e, evs1 ++ evs2 ++ evs3, ran)
      | _, _ => Some (e, evs1 ++ evs2, ran)
      end
  end.
Definition gptps_step (e : engine) : option (engine * list event * nat) :=
  '(e, evs, n) ← pass_loop (S (measure e)) 0 e;
  '(e, evs', ran) ← step_rounds (S (S (measure e + length (queue e Q_READY)))) n e;
  Some (e, evs ++ evs', ran).
End step.

End EngineApi.
