(* ===== verification/Registry.v ===== *)
(** * Task types and named resources

    The registry half of [src/engine.c]: [gptps_register_task], the task setters and
    readers, [gptps_define_resource] and the resource readers.  What makes a setting
    of a type (the settings store, the configuration file) is not in this file: the
    file's overrides are an argument of [register_link]. *)

From S2P Require Import Prelude HandleIndex Engine EngineApi.
Import Engine EngineApi.

Module Registry.

(** ** [gptps_task_def] *)

Record task_def := TaskDef {
  d_struct_size : Z; d_name : string; d_run : bool; d_exec : Z; d_argv : option (list string);
  d_cost : option (bytes → Z → status * Z); d_default_cost : Z; d_default_policy : failure_policy;
  d_flags : Z }.
#[export] Instance eta_def : Eta task_def := λ d,
  TaskDef (d_struct_size d) (d_name d) (d_run d) (d_exec d) (d_argv d) (d_cost d)
    (d_default_cost d) (d_default_policy d) (d_flags d).

(** The layout on an LP64 target: [flags] is the last word of 112 bytes. *)
Definition TASK_DEF_MIN_SIZE : Z := 104.
Definition task_def_has_flags (d : task_def) : bool := 112 <=? d_struct_size d.
Definition TASK_SERVICE : Z := 1.
Definition TASK_RETIRE_ON_OK : Z := 2.

Definition exec_of (z : Z) : option exec_kind :=
  if z =? 0 then Some EXEC_INPROC else if z =? 1 then Some EXEC_OOP
  else if z =? 2 then Some EXEC_PROGRAM else None.

Definition def_flags (d : task_def) : Z := if task_def_has_flags d then d_flags d else 0.
Definition has_flag (flags f : Z) : bool := negb (Z.land flags f =? 0).

(** What [gptps_register_task] checks before it takes the lock (a classic engine). *)
Definition def_check (manual : bool) (d : task_def) : option exec_kind :=
  if d_struct_size d <? TASK_DEF_MIN_SIZE then None
  else if (TASK_NAME_MAX <? String.length (d_name d))%nat then None
  else match exec_of (d_exec d) with
       | None => None
       | Some k =>
           if (if decide (k = EXEC_PROGRAM)
               then match d_argv d with Some (_ :: _) => false | _ => true end
               else negb (d_run d)) then None
           else if has_flag (def_flags d) TASK_SERVICE &&
                   (bool_decide (k ≠ EXEC_INPROC) || manual ||
                    negb (timeout_seconds (d_default_policy d) =? 0)) then None
           else Some k
       end.

(** ** Registration *)

Definition ns_prefix_ok (ns name : string) : bool := String.prefix (ns ++ ".") name.
(** [ns_ok]: [ns] is the namespace window in force on this thread, if any. *)
Definition ns_ok (ns : option string) (name : string) : bool :=
  match ns with None => true | Some n => ns_prefix_ok n name end.

(** [ns_token_valid]: [[a-z][a-z0-9_]{0,30}]. *)
Definition ns_char (c : Ascii.ascii) : bool :=
  let n := Ascii.nat_of_ascii c in
  ((97 <=? n) && (n <=? 122) || (48 <=? n) && (n <=? 57) || (n =? 95))%nat.
Fixpoint ns_chars (i : nat) (s : string) : bool :=
  match s with
  | EmptyString => true
  | String c s => if (31 <=? i)%nat then false else if ns_char c then ns_chars (S i) s else false
  end.
Definition ns_token_valid (s : string) : bool :=
  match s with
  | EmptyString => false
  | String c _ => let n := Ascii.nat_of_ascii c in ((97 <=? n) && (n <=? 122))%nat && ns_chars 0 s
  end.

(** The slot a registration fills, before the file's overrides. *)
Definition new_reg (tid : Z) (k : exec_kind) (d : task_def) (nres : nat) : reg :=
  Reg (d_name d) k (d_default_cost d) (d_cost d) (d_default_policy d) 0 true (Some tid) false false
    false false (match nres with O => None | n => Some (replicate n 0) end).
(** What a service runs under: re-asserted after the overrides. *)
Definition service_reg (flags : Z) (g : reg) : reg :=
  let g := g <| r_service := has_flag flags TASK_SERVICE |>
             <| r_retire_on_ok := has_flag flags TASK_RETIRE_ON_OK |> in
  if r_service g
  then g <| r_default_policy ::= λ p, p <| p_on_failure := REQUEUE |> <| max_retries := 0 |>
                                        <| timeout_seconds := 0 |> |>
  else g.

(** Allocations until one fails: [argv_dup] makes the array, then each string. *)
Fixpoint ask_n (n : nat) (e : engine) : bool * engine :=
  match n with
  | O => (true, e)
  | S n => let '(ok, e) := ask_alloc e in if ok : bool then ask_n n e else (false, e)
  end.
Definition argv_dup (k : exec_kind) (d : task_def) (e : engine) : bool * engine :=
  if decide (k = EXEC_PROGRAM) then ask_n (S (length (default [] (d_argv d)))) e else (true, e).
(** The slot and the name, both asked for, then the cost vector. *)
Definition reg_alloc (e : engine) : bool * engine :=
  let '(a1, e) := ask_alloc e in
  let '(a2, e) := ask_alloc e in
  if a1 && a2 then (match e_resources e with [] => (true, e) | _ => ask_alloc e end) else (false, e).

(** The critical section that takes the name.  [cfg] is [apply_task_config]: the
    configuration file's overrides of the cost, the policy and the priority. *)
Definition register_link (ns : option string) (cfg : string → reg → reg) (tid : Z) (d : task_def)
    (e : engine) : (status + rid) * engine :=
  match def_check (e_manual e) d with
  | None => (inl GPTPS_E_INVAL, e)
  | Some k =>
      let '(ok, e) := argv_dup k d e in
      if negb ok then (inl GPTPS_E_NOMEM, e)
      else if negb (ns_ok ns (d_name d)) then (inl GPTPS_E_INVAL, e)
      else match registry_holder e (d_name d) with
           | Some _ => (inl GPTPS_E_DUP, e)
           | None =>
               let '(ok, e) := reg_alloc e in
               if negb ok then (inl GPTPS_E_NOMEM, e)
               else
                 let r := fresh (dom (e_regs e)) in
                 let g := cfg (d_name d) (new_reg tid k d (length (e_resources e))) in
                 (inr r, e <| e_regs ::= <[r := service_reg (def_flags d) g]> |>
                           <| e_registry ::= cons r |>)
           end
  end.

(** The settings are made and published with the lock released: the registration is
    taken back, or the type stops settling. *)
Definition register_task_undo (r : rid) (e : engine) : engine :=
  registry_unlink r e <| e_regs ::= delete r |>.
Definition register_settled (r : rid) (e : engine) : engine :=
  put_reg r (λ g, g <| r_settling := None |>) e.

(** ** The setters and readers *)

Definition gptps_set_task_priority (tid : Z) (name : string) (priority : Z) (e : engine) : status * engine :=
  match registry_find tid e name with
  | None => (GPTPS_E_NOTFOUND, e)
  | Some (r, _) => (GPTPS_OK, put_reg r (λ g, g <| r_priority := priority |>) e)
  end.

Definition gptps_task_flags (tid : Z) (name : string) (e : engine) : option (bool * bool) :=
  match registry_find tid e name with
  | None => None
  | Some (_, g) => Some (r_service g, r_retire_on_ok g)
  end.

Record task_info := TaskInfo {
  ti_name : string; ti_exec : exec_kind; ti_priority : Z; ti_enabled : bool; ti_removed : bool;
  ti_queued : nat; ti_running : nat; ti_dead : nat }.
(** [gptps_task_get_info]: the [index]-th type that is not another thread's. *)
Definition gptps_task_get_info (tid : Z) (index : nat) (e : engine) : option task_info :=
  let shown := filter (λ r, match e_regs e !! r with
                            | Some g => negb (reg_hidden tid g) | None => false end = true) (e_registry e) in
  r ← shown !! index; g ← e_regs e !! r;
  Some (TaskInfo (r_name g) (r_exec g) (r_priority g) (r_enabled g) (r_removed g)
    (fifo_count_reg Q_INTAKE r e + fifo_count_reg Q_DELAYED r e)
    (fifo_count_reg Q_READY r e + fifo_count_reg Q_RUNNING r e + fifo_count_reg Q_DONE r e)
    (fifo_count_reg Q_DEAD r e)).

(** ** Named resources *)

Fixpoint res_index (rs : list resource) (name : string) : option nat :=
  match rs with
  | [] => None
  | r :: rs => if decide (rs_name r = name) then Some O else S <$> res_index rs name
  end.

(** [res_rebudget] *)
Definition res_rebudget (name : string) (budget : Z) (e : engine) : option engine :=
  match res_index (e_resources e) name with
  | None => None
  | Some i => Some (e <| e_resources ::= alter (λ r, r <| rs_budget := budget |>) i |>)
  end.

(** One more column: [res_room], then [res_cost[ri] = 0] in every linked type.  A
    vector already longer (an earlier definition that failed) keeps its length. *)
Definition cost_column (ri : nat) (c : option (list Z)) : option (list Z) :=
  let l := default [] c in
  Some (if (ri <? length l)%nat then <[ri := 0]> l else l ++ replicate (S ri - length l) 0).
Definition add_column (e : engine) : engine :=
  let ri := length (e_resources e) in
  e <| e_regs ::= λ m, foldl (λ m r, alter (λ g, g <| r_res_cost ::= cost_column ri |>) r m) m (e_registry e) |>.

(** [gptps_define_resource], as one section: between its check and its publication
    another thread may define the name, which is the first case of a second call. *)
Definition gptps_define_resource (ns : option string) (name : string) (budget : Z) (e : engine) :
    status * engine :=
  if decide (name = ""%string) then (GPTPS_E_INVAL, e)
  else if e_stopping e then (GPTPS_E_SHUTDOWN, e)
  else if negb (ns_ok ns name) then (GPTPS_E_INVAL, e)
  else match res_rebudget name budget e with
       | Some e => (GPTPS_OK, e)
       | None =>
           let '(ok, e) := ask_alloc e in
           if ok : bool
           then (GPTPS_OK, add_column e <| e_resources ::= λ rs, rs ++ [Resource name budget 0] |>)
           else (GPTPS_E_NOMEM, e)
       end.

Definition gptps_set_task_resource_cost (tid : Z) (task rname : string) (amount : Z) (e : engine) :
    status * engine :=
  match registry_find tid e task with
  | None => (GPTPS_E_NOTFOUND, e)
  | Some (r, _) =>
      match res_index (e_resources e) rname with
      | None => (GPTPS_E_NOTFOUND, e)
      | Some i => (GPTPS_OK, put_reg r (λ g, g <| r_res_cost ::= fmap <[i := amount]> |>) e)
      end
  end.

Definition gptps_resource_usage (name : string) (e : engine) : option (Z * Z) :=
  i ← res_index (e_resources e) name; r ← e_resources e !! i; Some (rs_reserved r, rs_budget r).

(** ** Names are unique, vectors are long enough *)

Definition live_name (e : engine) (r : rid) (name : string) : Prop :=
  r ∈ e_registry e ∧ ∃ g, e_regs e !! r = Some g ∧ r_removed g = false ∧ r_name g = name.

Record reg_ok (e : engine) : Prop := {
  ro_nodup : NoDup (e_registry e);
  ro_slot : ∀ r, r ∈ e_registry e → is_Some (e_regs e !! r);
  ro_unique : ∀ r r' name, live_name e r name → live_name e r' name → r = r';
  ro_cost : ∀ r g, r ∈ e_registry e → e_regs e !! r = Some g →
    match r_res_cost g with
    | None => e_resources e = []
    | Some l => (length (e_resources e) ≤ length l)%nat
    end }.

Lemma registry_holder_spec e name r g :
  registry_holder e name = Some (r, g) → e_regs e !! r = Some g ∧ live_name e r name.
Proof.
  unfold registry_holder. intros Hh. apply head_Some_elem_of, list_elem_of_omap in Hh as (y & Hy & Hm).
  destruct (e_regs e !! y) as [g'|] eqn:Hgy; [|done]. simpl in Hm.
  destruct (r_removed g') eqn:Hrm; [done|]. simpl in Hm. case_bool_decide as Hn; [|done].
  injection Hm as -> ->. split; [done|]. split; [done|]. by exists g.
Qed.

Lemma registry_holder_None e name r : registry_holder e name = None → ¬ live_name e r name.
Proof.
  unfold registry_holder. intros Hh (Hr & g & Hg & Hrm & Hn).
  apply head_None in Hh. assert ((r, g) ∈ ([] : list (rid * reg))) as Hin; [|by apply not_elem_of_nil in Hin].
  rewrite <-Hh. apply list_elem_of_omap. exists r. split; [done|]. rewrite Hg. simpl. rewrite Hrm.
  by rewrite bool_decide_eq_true_2.
Qed.

(** The name of a live type finds it, and only it. *)
Lemma registry_holder_live e r g name :
  reg_ok e → e_regs e !! r = Some g → live_name e r name → registry_holder e name = Some (r, g).
Proof.
  intros Hok Hg Hl. destruct (registry_holder e name) as [[r' g']|] eqn:Hh.
  - apply registry_holder_spec in Hh as [Hg' Hl']. assert (r' = r) as -> by (by eapply ro_unique).
    congruence.
  - by apply (registry_holder_None _ _ r) in Hh.
Qed.

(** The allocations move the oracle and nothing else. *)
Lemma ask_n_tick n e : ∃ t, (ask_n n e).2 = e <| e_tick := t |>.
Proof.
  revert e. induction n as [|n IH]; intros e; [exists (e_tick e); by destruct e|].
  cbn [ask_n]. unfold ask_alloc.
  destruct (e_alloc e (e_tick e)); [|by eexists]. destruct (IH (e <| e_tick ::= S |>)) as [t ->]. by exists t.
Qed.
Lemma argv_dup_tick k d e : ∃ t, (argv_dup k d e).2 = e <| e_tick := t |>.
Proof. unfold argv_dup. case_decide; [apply ask_n_tick|exists (e_tick e); by destruct e]. Qed.
Lemma reg_alloc_tick e : ∃ t, (reg_alloc e).2 = e <| e_tick := t |>.
Proof.
  unfold reg_alloc, ask_alloc. destruct (_ && _); [|by eexists].
  change (e_resources (e <| e_tick ::= S |> <| e_tick ::= S |>)) with (e_resources e).
  destruct (e_resources e); by eexists.
Qed.
Lemma reg_ok_tick t e : reg_ok e → reg_ok (e <| e_tick := t |>).
Proof. intros [A B C D]. by split. Qed.

(** A registration that is refused links nothing; one that is accepted adds the one
    live type of its name, settling, visible to its own thread only. *)
Lemma register_link_ok ns cfg tid d e :
  reg_ok e → (∀ n g, r_name (cfg n g) = r_name g ∧ r_removed (cfg n g) = r_removed g ∧
    r_res_cost (cfg n g) = r_res_cost g ∧ r_settling (cfg n g) = r_settling g) →
  match register_link ns cfg tid d e with
  | (inl st, e') => e_regs e' = e_regs e ∧ e_registry e' = e_registry e
  | (inr r, e') => reg_ok e' ∧ e_regs e !! r = None ∧ registry_holder e (d_name d) = None ∧
      ∃ g, registry_find tid e' (d_name d) = Some (r, g) ∧
        (∀ t, t ≠ tid → registry_find t e' (d_name d) = None)
  end.
Proof.
  intros Hok Hcfg. unfold register_link. destruct (def_check (e_manual e) d) as [k|]; [|done].
  destruct (argv_dup_tick k d e) as [t1 Ht1]. destruct (argv_dup k d e) as [ok1 e1]. cbn [snd] in Ht1. subst e1.
  destruct (negb ok1); [done|]. destruct (negb (ns_ok ns (d_name d))); [done|].
  change (registry_holder (e <| e_tick := t1 |>) (d_name d)) with (registry_holder e (d_name d)).
  destruct (registry_holder e (d_name d)) as [?|] eqn:Hh; [done|].
  destruct (reg_alloc_tick (e <| e_tick := t1 |>)) as [t2 Ht2].
  destruct (reg_alloc (e <| e_tick := t1 |>)) as [ok2 e0]. cbn [snd] in Ht2. destruct (negb ok2); [by split; rewrite Ht2|].
  assert (e0 = e <| e_tick := t2 |>) as -> by exact Ht2. clear Ht2 ok1 ok2.
  set (e0 := e <| e_tick := t2 |>). set (r := fresh (dom (e_regs e0))).
  assert (e_regs e !! r = None) as Hr by (apply not_elem_of_dom, (is_fresh (dom (e_regs e0)))).
  set (c := cfg (d_name d) _). set (g := service_reg (def_flags d) c). set (e' := e0 <| e_regs ::= _ |> <| e_registry ::= _ |>).
  destruct (Hcfg (d_name d) (new_reg tid k d (length (e_resources e0)))) as (N1 & N2 & N3 & N4).
  assert (r_name g = d_name d ∧ r_removed g = false ∧ r_res_cost g = r_res_cost c ∧ r_settling g = Some tid)
    as (G1 & G2 & G3 & G4).
  { unfold g, service_reg. cbv zeta. unfold c. by destruct (r_service _); rewrite <-?N1, <-?N2, <-?N4. }
  assert (e_regs e' !! r = Some g) as Hg by apply lookup_insert_eq.
  assert (r ∉ e_registry e) as Hnin. { intros [? ?]%(ro_slot _ Hok). congruence. }
  assert (∀ x, x ∈ e_registry e → e_regs e' !! x = e_regs e !! x) as Hoth.
  { intros x Hx. apply lookup_insert_ne. by intros ->. }
  assert (reg_ok e') as Hok'.
  { split.
    - constructor; [done|apply Hok].
    - intros x [->|Hx]%elem_of_cons; [eauto|]. rewrite Hoth by done. by apply Hok.
    - assert (∀ x name, live_name e' x name → (x = r ∧ name = d_name d) ∨ live_name e x name) as Hlive.
      { intros x name ([->|Hx]%elem_of_cons & g' & Hg' & Hrm & Hn); [left; split; [done|congruence]|].
        right. rewrite Hoth in Hg' by done. split; [done|eauto]. }
      intros x y name [[-> ->]|Hx]%Hlive [[-> Hn]|Hy]%Hlive; [done| | |by eapply ro_unique].
      + by apply (registry_holder_None _ _ y) in Hh.
      + subst. by apply (registry_holder_None _ _ x) in Hh.
    - intros x g' [->|Hx]%elem_of_cons Hg'.
      + assert (g' = g) as -> by congruence. rewrite G3. unfold c. rewrite N3. simpl.
        change (e_resources e') with (e_resources e). change (e_resources e0) with (e_resources e).
        destruct (e_resources e); [done|]. simpl. by rewrite length_replicate.
      + rewrite Hoth in Hg' by done. by apply (ro_cost _ Hok x). }
  split_and!; [done|done|done|]. exists g.
  assert (registry_holder e' (d_name d) = Some (r, g)) as Hh'.
  { apply registry_holder_live; [done|done|]. split; [apply elem_of_cons; by left|by exists g]. }
  unfold registry_find, reg_hidden. rewrite Hh', G4. split; [by rewrite Z.eqb_refl|].
  intros t Ht. by rewrite (proj2 (Z.eqb_neq tid t)) by congruence.
Qed.

End Registry.
