(* ===== verification/EngineFacts.v ===== *)
(** * Well-formed engines

    The structural invariant of [struct gptps] - every queue holds exactly the items
    whose [where] names it, handles are unique, the handle index is exact - and that
    each primitive operation preserves it.  [H] is the set of items in a caller's
    hands: unlinked, in a local list, [where] = [GPTPS_Q_NONE]. *)

From S2P Require Import Prelude HandleIndex Engine.
Import Engine.

Module EngineFacts.

(** The queues [gptps_cancel] can find an item in. *)
Definition live_q (q : qid) : bool :=
  match q with Q_INTAKE | Q_DELAYED | Q_READY | Q_RUNNING | Q_DONE => true | _ => false end.

Definition index_ok (e : engine) : Prop :=
  ∃ m, HandleIndex.repr (e_hidx e) m ∧
    ∀ h p, m !! h = Some p ↔ ∃ i, e_items e !! p = Some i ∧ it_handle i = h ∧ it_indexed i = true.

Record wf (H : gset ptr) (e : engine) : Prop := {
  wf_nodup : ∀ q, NoDup (queue e q);
  wf_where : ∀ q p, q ≠ Q_NONE →
    p ∈ queue e q ↔ ∃ i, e_items e !! p = Some i ∧ it_where i = q;
  wf_hand : ∀ p, p ∈ H ↔ ∃ i, e_items e !! p = Some i ∧ it_where i = Q_NONE;
  wf_handle : ∀ p q i j, e_items e !! p = Some i → e_items e !! q = Some j →
    it_handle i = it_handle j → p = q;
  wf_range : ∀ p i, e_items e !! p = Some i → 1 ≤ it_handle i < e_next_handle e;
  wf_index : index_ok e;
  wf_indexed : ∀ p i, e_items e !! p = Some i → live_q (it_where i) = true → it_indexed i = true;
  wf_dead : ∀ p i, e_items e !! p = Some i → it_where i = Q_DEAD → it_indexed i = false }.

(** ** Reading after writing *)

Lemma get_lookup e p i : e_items e !! p = Some i → get e p = i.
Proof. unfold get. by intros ->. Qed.

Lemma items_put p f e : e_items (put p f e) = alter f p (e_items e).
Proof. done. Qed.
Lemma get_put_eq p f e i : e_items e !! p = Some i → get (put p f e) p = f i.
Proof. intros Hi. unfold get. rewrite items_put, lookup_alter_eq, Hi. done. Qed.
Lemma get_put_ne p q f e : p ≠ q → get (put p f e) q = get e q.
Proof. intros Hn. unfold get. by rewrite items_put, lookup_alter_ne. Qed.

Lemma queue_set_eq q l e : queue (set_queue q l e) q = l.
Proof. unfold queue, set_queue; simpl. by rewrite fn_lookup_insert. Qed.
Lemma queue_set_ne q q' l e : q ≠ q' → queue (set_queue q l e) q' = queue e q'.
Proof. intros. unfold queue, set_queue; simpl. by rewrite fn_lookup_insert_ne. Qed.
Lemma items_set_queue q l e : e_items (set_queue q l e) = e_items e.
Proof. done. Qed.
Lemma queue_put p f e q : queue (put p f e) q = queue e q.
Proof. done. Qed.

Lemma lookup_alter_inv (m : gmap ptr item) f p q j :
  alter f p m !! q = Some j → ∃ i, m !! q = Some i ∧ j = if decide (p = q) then f i else i.
Proof.
  destruct (decide (p = q)) as [<-|Hn].
  - rewrite lookup_alter_eq. intros (i & Hi & ->)%fmap_Some_1. by exists i.
  - rewrite lookup_alter_ne by done. intros Hj. by exists j.
Qed.

(** The invariant reads nothing but these fields. *)
Lemma wf_ext H e e' :
  e_items e' = e_items e → e_qs e' = e_qs e → e_next_handle e' = e_next_handle e →
  e_hidx e' = e_hidx e → wf H e → wf H e'.
Proof.
  intros H1 H2 H3 H4 [A B C D E F G I]. unfold queue, index_ok in *.
  split; unfold queue, index_ok; rewrite ?H1, ?H2, ?H3, ?H4; done.
Qed.

(** Writing fields of an item other than the structural ones. *)
Definition inert (f : item → item) : Prop := ∀ i,
  it_handle (f i) = it_handle i ∧ it_where (f i) = it_where i ∧
  it_indexed (f i) = it_indexed i ∧ it_reg (f i) = it_reg i.

(** The fields the queues and the index read. *)
Definition structural (f : item → item) : Prop := ∀ i,
  it_handle (f i) = it_handle i ∧ it_where (f i) = it_where i ∧ it_indexed (f i) = it_indexed i.

Lemma inert_structural f : inert f → structural f.
Proof. intros Hf i. destruct (Hf i) as (? & ? & ? & ?). done. Qed.

(** Two engines whose items agree structurally. *)
Definition similar (m m' : gmap ptr item) : Prop := ∀ q,
  match m' !! q, m !! q with
  | Some j, Some i => it_handle j = it_handle i ∧ it_where j = it_where i ∧
                      it_indexed j = it_indexed i
  | None, None => True
  | _, _ => False
  end.

Lemma structural_alter f p (m : gmap ptr item) : structural f → similar m (alter f p m).
Proof.
  intros Hf q. destruct (decide (p = q)) as [<-|].
  - rewrite lookup_alter_eq. destruct (m !! p); simpl; [apply Hf|done].
  - rewrite lookup_alter_ne by done. by destruct (m !! q).
Qed.

Lemma similar_lookup m m' p j :
  similar m m' → m' !! p = Some j → ∃ i, m !! p = Some i ∧ it_handle j = it_handle i ∧
    it_where j = it_where i ∧ it_indexed j = it_indexed i.
Proof. intros Hs Hj. specialize (Hs p). rewrite Hj in Hs. destruct (m !! p); [eauto|done]. Qed.
Lemma similar_sym m m' : similar m m' → similar m' m.
Proof. intros Hs q. specialize (Hs q). destruct (m !! q), (m' !! q); intuition congruence. Qed.

Lemma similar_ex m m' p (P : Z → qid → bool → Prop) :
  similar m m' →
  (∃ i, m' !! p = Some i ∧ P (it_handle i) (it_where i) (it_indexed i)) ↔
  (∃ i, m !! p = Some i ∧ P (it_handle i) (it_where i) (it_indexed i)).
Proof.
  intros Hs. split; intros (i & Hi & HP).
  - destruct (similar_lookup _ _ _ _ Hs Hi) as (j & Hj & E1 & E2 & E3).
    rewrite E1, E2, E3 in HP. eauto.
  - destruct (similar_lookup _ _ _ _ (similar_sym _ _ Hs) Hi) as (j & Hj & E1 & E2 & E3).
    rewrite E1, E2, E3 in HP. eauto.
Qed.

Lemma wf_similar H e e' :
  similar (e_items e) (e_items e') → e_qs e' = e_qs e → e_next_handle e' = e_next_handle e →
  e_hidx e' = e_hidx e → wf H e → wf H e'.
Proof.
  intros Hs H2 H3 H4 [A B C D E F G I]. unfold queue, index_ok in *.
  split; unfold queue, index_ok; rewrite ?H2, ?H3, ?H4; try done.
  - intros q p Hq. rewrite B by done. symmetry. by apply (similar_ex _ _ p (λ _ w _, w = q)).
  - intros p. rewrite C. symmetry. by apply (similar_ex _ _ p (λ _ w _, w = Q_NONE)).
  - intros p q i j Hi Hj Hij.
    destruct (similar_lookup _ _ _ _ Hs Hi) as (i' & ? & ? & _).
    destruct (similar_lookup _ _ _ _ Hs Hj) as (j' & ? & ? & _). eapply D; [done..|congruence].
  - intros p i Hi. destruct (similar_lookup _ _ _ _ Hs Hi) as (i' & ? & -> & _). by eapply E.
  - destruct F as (m & Hm & Hmi). exists m. split; [done|]. intros h p. rewrite Hmi. symmetry.
    by apply (similar_ex _ _ p (λ h' _ b, h' = h ∧ b = true)).
  - intros p i Hi. destruct (similar_lookup _ _ _ _ Hs Hi) as (i' & ? & _ & -> & ->). by eapply G.
  - intros p i Hi. destruct (similar_lookup _ _ _ _ Hs Hi) as (i' & ? & _ & -> & ->). by eapply I.
Qed.

Lemma wf_put_structural H p f e : structural f → wf H e → wf H (put p f e).
Proof. intros Hf. apply wf_similar; try done. by apply structural_alter. Qed.
Lemma wf_put H p f e : inert f → wf H e → wf H (put p f e).
Proof. intros Hf. by apply wf_put_structural, inert_structural. Qed.

(** ** Moving an item *)

(** [p] goes from where it is to [q']; the queues follow. *)
Lemma wf_move H H' e e' p i i' q' :
  wf H e → e_items e !! p = Some i → e_items e' = <[p := i']> (e_items e) →
  it_handle i' = it_handle i → it_indexed i' = it_indexed i → it_where i' = q' →
  (∀ q, NoDup (queue e' q)) →
  (∀ q x, q ≠ Q_NONE → x ∈ queue e' q ↔ (x ≠ p ∧ x ∈ queue e q) ∨ (x = p ∧ q = q')) →
  (∀ x, x ∈ H' ↔ (x ≠ p ∧ x ∈ H) ∨ (x = p ∧ q' = Q_NONE)) →
  (live_q q' = true → it_indexed i = true) → (q' = Q_DEAD → it_indexed i = false) →
  e_next_handle e' = e_next_handle e → e_hidx e' = e_hidx e →
  wf H' e'.
Proof.
  intros [A B C D E F G I] Hi Hit Hh Hx Hw Hnd Hq HH Hlive Hdead Hn Hhi.
  assert (∀ x j, e_items e' !! x = Some j →
    (x = p ∧ j = i') ∨ (x ≠ p ∧ e_items e !! x = Some j)) as Hlk.
  { intros x j. rewrite Hit. destruct (decide (p = x)) as [<-|].
    - rewrite lookup_insert_eq. intros [= ->]. by left.
    - rewrite lookup_insert_ne by done. right. by split. }
  assert (e_items e' !! p = Some i') as Hp' by (by rewrite Hit, lookup_insert_eq).
  assert (∀ x j, x ≠ p → e_items e !! x = Some j → e_items e' !! x = Some j) as Hother.
  { intros x j ??. by rewrite Hit, lookup_insert_ne. }
  split.
  - done.
  - intros q x Hqn. rewrite Hq by done. rewrite B by done. split.
    + intros [(Hxp & j & Hj & Hjw)|[-> ->]]; [eauto|by exists i'].
    + intros (j & [[-> ->]|[Hxp Hj]]%Hlk & Hjw); [right; split; congruence|left; eauto].
  - intros x. rewrite HH, C. split.
    + intros [(Hxp & j & Hj & Hjw)|[-> ?]]; [eauto|exists i'; split; congruence].
    + intros (j & [[-> ->]|[Hxp Hj]]%Hlk & Hjw); [right; split; congruence|left; eauto].
  - intros x y j k [[-> ->]|[Hx' Hj]]%Hlk [[-> ->]|[Hy' Hk]]%Hlk Hjk; [done| | |by eapply D].
    + exfalso. apply Hy'. symmetry. eapply D; [done..|congruence].
    + exfalso. apply Hx'. eapply D; [done..|congruence].
  - intros x j [[-> ->]|[_ Hj]]%Hlk; rewrite Hn; [rewrite Hh|]; by eapply E.
  - destruct F as (m & Hm & Hmi). exists m. rewrite Hhi. split; [done|]. intros h x. rewrite Hmi. split.
    + intros (j & Hj & Hjh & Hji). destruct (decide (x = p)) as [->|]; [|eauto 6].
      exists i'. rewrite Hi in Hj. injection Hj as ->. split_and!; [done|congruence..].
    + intros (j & [[-> ->]|[Hxp Hj]]%Hlk & Hjh & Hji); [|eauto].
      exists i. split_and!; [done|congruence..].
  - intros x j [[-> ->]|[_ Hj]]%Hlk; [rewrite Hw, Hx; done|by eapply G].
  - intros x j [[-> ->]|[_ Hj]]%Hlk; [rewrite Hw, Hx; done|by eapply I].
Qed.

Lemma alter_insert (m : gmap ptr item) f p i : m !! p = Some i → alter f p m = <[p := f i]> m.
Proof.
  intros Hi. apply map_eq. intros x. destruct (decide (p = x)) as [<-|].
  - by rewrite lookup_alter_eq, lookup_insert_eq, Hi.
  - by rewrite lookup_alter_ne, lookup_insert_ne.
Qed.

Lemma queue_cases (e : engine) q l q' :
  queue (set_queue q l e) q' = if decide (q = q') then l else queue e q'.
Proof.
  case_decide as Hq; [subst; apply queue_set_eq|by apply queue_set_ne].
Qed.

(** An item in hand is in no queue. *)
Lemma hand_not_queued H e p q : wf H e → p ∈ H → q ≠ Q_NONE → p ∉ queue e q.
Proof.
  intros Hwf Hp Hq Hin. apply (wf_hand _ _ Hwf) in Hp as (i & Hi & Hw).
  apply (wf_where _ _ Hwf) in Hin as (j & Hj & Hjw); [|done]. congruence.
Qed.

Lemma wf_push H e p q :
  wf H e → p ∈ H → q ≠ Q_NONE →
  (live_q q = true → it_indexed (get e p) = true) → (q = Q_DEAD → it_indexed (get e p) = false) →
  wf (H ∖ {[p]}) (fifo_push q p e).
Proof.
  intros Hwf Hp Hq Hl Hd. pose proof (hand_not_queued H e p q Hwf Hp Hq) as Hnq.
  apply (wf_hand _ _ Hwf) in Hp as (i & Hi & Hw). rewrite (get_lookup _ _ _ Hi) in *.
  eapply (wf_move H _ e _ p i (i <| it_where := q |>) q); try done.
  - unfold fifo_push. rewrite items_put. by apply alter_insert.
  - intros q'. unfold fifo_push. rewrite queue_put, queue_cases. case_decide as Hqq.
    + subst. apply NoDup_app. split_and!; [apply Hwf|set_solver|apply NoDup_singleton].
    + apply Hwf.
  - intros q' x Hq'. unfold fifo_push. rewrite queue_put, queue_cases.
    case_decide as Hqq; [subst|].
    + rewrite elem_of_app, list_elem_of_singleton. split; [|naive_solver].
      intros [Hx| ->]; [left; split; [by intros ->|done]|by right].
    + split; [|naive_solver]. intros Hx. left. split; [|done]. intros ->.
      apply (wf_where _ _ Hwf) in Hx as (j & Hj & ?); [|done]. congruence.
  - set_solver.
Qed.

Lemma queued_item H e p q : wf H e → q ≠ Q_NONE → p ∈ queue e q →
  ∃ i, e_items e !! p = Some i ∧ it_where i = q.
Proof. intros Hwf Hq. by rewrite (wf_where _ _ Hwf). Qed.

Lemma wf_unqueue H e p q i (l : list ptr) :
  wf H e → q ≠ Q_NONE →
  e_items e !! p = Some i → it_where i = q →
  NoDup l → (∀ x, x ∈ l ↔ x ≠ p ∧ x ∈ queue e q) →
  wf ({[p]} ∪ H) (put p (λ i, i <| it_where := Q_NONE |>) (set_queue q l e)).
Proof.
  intros Hwf Hq Hi Hw Hnd Hl.
  eapply (wf_move H _ e _ p i (i <| it_where := Q_NONE |>) Q_NONE); try done.
  - rewrite items_put. by apply alter_insert.
  - intros q'. rewrite queue_put, queue_cases. case_decide; [done|apply Hwf].
  - intros q' x Hq'. rewrite queue_put, queue_cases. case_decide as Hqq; [subst|].
    + rewrite Hl. naive_solver.
    + split; [|naive_solver]. intros Hx. left. split; [|done]. intros ->.
      apply (wf_where _ _ Hwf) in Hx as (j & Hj & ?); [|done]. congruence.
  - intros x. rewrite elem_of_union, elem_of_singleton. split; [|naive_solver].
    intros [->|Hx]; [by right|]. left. split; [|done]. intros ->.
    apply (wf_hand _ _ Hwf) in Hx as (j & Hj & ?). congruence.
Qed.

Lemma wf_remove H e p q :
  wf H e → q ≠ Q_NONE → p ∈ queue e q → wf ({[p]} ∪ H) (fifo_remove q p e).
Proof.
  intros Hwf Hq Hp. destruct (queued_item _ _ _ _ Hwf Hq Hp) as (i & Hi & Hw).
  unfold fifo_remove. eapply wf_unqueue; [done|done|done|done| |].
  - apply NoDup_filter. apply Hwf.
  - intros x. by rewrite list_elem_of_filter.
Qed.

Lemma wf_pop H e p q e' :
  wf H e → q ≠ Q_NONE → fifo_pop q e = Some (p, e') →
  wf ({[p]} ∪ H) e' ∧ p ∈ queue e q ∧ queue e q = p :: queue e' q.
Proof.
  unfold fifo_pop. intros Hwf Hq Hpop. pose proof (wf_nodup _ _ Hwf q) as Hnd.
  destruct (queue e q) as [|x l] eqn:Hl; [done|]. injection Hpop as -> <-.
  apply NoDup_cons in Hnd as [Hx Hnd].
  destruct (queued_item H e p q) as (i & Hi & Hw); [done|done|rewrite Hl; set_solver|].
  split_and!; [|set_solver|by rewrite queue_put, queue_set_eq].
  eapply wf_unqueue; [done|done|done|done|done|].
  intros y. rewrite Hl, elem_of_cons. naive_solver.
Qed.

Lemma wf_insert H e p :
  wf H e → p ∈ H → it_indexed (get e p) = true → wf (H ∖ {[p]}) (intake_insert p e).
Proof.
  intros Hwf Hp Hl. pose proof (hand_not_queued H e p Q_INTAKE Hwf Hp ltac:(done)) as Hnq.
  apply (wf_hand _ _ Hwf) in Hp as (i & Hi & Hw). rewrite (get_lookup _ _ _ Hi) in *.
  unfold intake_insert.
  set (e1 := put p _ _).
  assert (queue e1 Q_INTAKE = queue e Q_INTAKE) as Hq1 by done.
  set (l1 := filter (λ x, score e1 p ≤ score e1 x) (queue e1 Q_INTAKE)).
  set (l2 := filter (λ x, score e1 x < score e1 p) (queue e1 Q_INTAKE)).
  assert (∀ x, x ∈ l1 ++ p :: l2 ↔ x = p ∨ x ∈ queue e Q_INTAKE) as Hin.
  { intros x. unfold l1, l2. rewrite Hq1, elem_of_app, elem_of_cons, !list_elem_of_filter.
    destruct (decide (score e1 p ≤ score e1 x)); intuition lia. }
  eapply (wf_move H _ e _ p i (i <| it_seq := u64 (e_seq e + 1) |> <| it_where := Q_INTAKE |>) Q_INTAKE);
    try done.
  - rewrite items_set_queue. unfold e1. rewrite items_put. exact (alter_insert _ _ p i Hi).
  - intros q'. rewrite queue_cases. case_decide; [subst|apply Hwf].
    assert (NoDup (queue e Q_INTAKE)) as Hnd by apply Hwf.
    apply NoDup_app. split_and!.
    + by apply NoDup_filter.
    + unfold l1, l2. intros x [Hx1 Hx]%list_elem_of_filter [->|[? ?]%list_elem_of_filter]%elem_of_cons;
        [done|lia].
    + constructor; [|by apply NoDup_filter]. intros [_ ?]%list_elem_of_filter. done.
  - intros q' x Hq'. rewrite queue_cases. case_decide as Hqq; [subst|].
    + rewrite Hin. split; [|naive_solver].
      intros [->|Hx]; [by right|]. left. split; [by intros ->|done].
    + change (queue e1 q') with (queue e q'). split; [|naive_solver]. intros Hx. left.
      split; [|done]. intros ->.
      apply (wf_where _ _ Hwf) in Hx as (j & Hj & ?); [|done]. congruence.
  - set_solver.
Qed.

(** ** Leaving the index and the store *)

Lemma wf_hidx_del H e p :
  wf H e → p ∈ H → wf H (hidx_del p e) ∧
    e_items (hidx_del p e) = alter (λ i, i <| it_indexed := false |>) p (e_items e).
Proof.
  intros Hwf Hp. pose proof Hp as (i & Hi & Hw)%(wf_hand _ _ Hwf). unfold hidx_del.
  rewrite (get_lookup _ _ _ Hi). destruct (it_indexed i) eqn:Hx.
  2:{ split; [done|]. apply map_eq. intros x. destruct (decide (p = x)) as [<-|].
      - rewrite lookup_alter_eq, Hi. simpl. f_equal. destruct i; simpl in *. by subst.
      - by rewrite lookup_alter_ne. }
  split; [|done]. destruct Hwf as [A B C D E F G I]. destruct F as (m & Hm & Hmi).
  assert (m !! it_handle i = Some p) as Hmp by (apply Hmi; eauto).
  destruct (HandleIndex.hidx_del_spec _ _ _ _ Hm Hmp) as (x' & Hx' & Hr' & _).
  set (f := λ i : item, i <| it_indexed := false |>).
  assert (∀ y j, alter f p (e_items e) !! y = Some j → ∃ k, e_items e !! y = Some k ∧
    it_handle j = it_handle k ∧ it_where j = it_where k ∧ it_reg j = it_reg k ∧
    it_indexed j = (if decide (p = y) then false else it_indexed k)) as Hlk.
  { intros y j (k & Hk & ->)%lookup_alter_inv. exists k. split; [done|]. by case_decide. }
  assert (∀ y k, e_items e !! y = Some k → ∃ j, alter f p (e_items e) !! y = Some j ∧
    it_handle j = it_handle k ∧ it_where j = it_where k ∧
    it_indexed j = (if decide (p = y) then false else it_indexed k)) as Hlk'.
  { intros y k Hk. destruct (decide (p = y)) as [<-|].
    - rewrite lookup_alter_eq, Hk. by eexists.
    - rewrite lookup_alter_ne by done. by exists k. }
  split; unfold queue, index_ok; cbn -[HandleIndex.hidx_del]; try done.
  - intros q y Hq. rewrite (B q y Hq). split.
    + intros (k & Hk & Hkw). destruct (Hlk' y k Hk) as (j & Hj & _ & ? & _). exists j. split; congruence.
    + intros (j & Hj & Hjw). destruct (Hlk y j Hj) as (k & Hk & _ & ? & _). exists k. split; congruence.
  - intros y. rewrite (C y). split.
    + intros (k & Hk & Hkw). destruct (Hlk' y k Hk) as (j & Hj & _ & ? & _). exists j. split; congruence.
    + intros (j & Hj & Hjw). destruct (Hlk y j Hj) as (k & Hk & _ & ? & _). exists k. split; congruence.
  - intros y z j k (j' & ? & ? & _)%Hlk (k' & ? & ? & _)%Hlk ?. eapply D; [done..|congruence].
  - intros y j (j' & ? & -> & _)%Hlk. by eapply E.
  - exists (delete (it_handle i) m). rewrite ?(get_lookup _ _ _ Hi), Hx'. split; [done|].
    intros h y. rewrite lookup_delete_Some, Hmi. split.
    + intros (Hh & k & Hk & Hkh & Hkx). destruct (Hlk' y k Hk) as (j & Hj & ? & ? & Hjx).
      exists j. split_and!; [done|congruence|]. rewrite Hjx, decide_False; [done|]. intros <-. congruence.
    + intros (j & Hj & Hjh & Hjx). destruct (Hlk y j Hj) as (k & Hk & Hjk & _ & _ & Hkx).
      rewrite Hjx in Hkx. destruct (decide (p = y)) as [|Hpy]; [done|]. split; [|exists k; split_and!; congruence].
      intros Heq. apply Hpy. eapply D; [done..|congruence].
  - intros y j Hj Hjl. destruct (Hlk y j Hj) as (k & Hk & _ & Hjw & _ & ->).
    rewrite Hjw in Hjl. case_decide as Hpy; [|by eapply G]. subst y. rewrite Hi in Hk.
    injection Hk as <-. by rewrite Hw in Hjl.
  - intros y j Hj Hjd. destruct (Hlk y j Hj) as (k & Hk & _ & Hjw & _ & ->).
    case_decide; [done|]. eapply I; [done|congruence].
Qed.

Lemma wf_free H e p :
  wf H e → p ∈ H → it_indexed (get e p) = false → wf (H ∖ {[p]}) (item_free p e).
Proof.
  intros Hwf Hp Hx. pose proof Hp as (i & Hi & Hw)%(wf_hand _ _ Hwf).
  rewrite (get_lookup _ _ _ Hi) in Hx. pose proof Hwf as [A B C D E F G I].
  assert (∀ x j, e_items (item_free p e) !! x = Some j ↔ p ≠ x ∧ e_items e !! x = Some j) as Hlk.
  { intros x j. unfold item_free. simpl. apply lookup_delete_Some. }
  split.
  - done.
  - intros q x Hq. change (queue (item_free p e) q) with (queue e q). rewrite B by done. split.
    + intros (j & Hj & Hjw). exists j. split; [|done]. apply Hlk. split; [|done].
      intros <-. congruence.
    + intros (j & [_ Hj]%Hlk & Hjw). eauto.
  - intros x. rewrite elem_of_difference, elem_of_singleton, C. split.
    + intros ((j & Hj & Hjw) & Hxp). exists j. split; [|done]. by apply Hlk.
    + intros (j & [? Hj]%Hlk & Hjw). split; eauto.
  - intros x y j k [_ Hj]%Hlk [_ Hk]%Hlk. by eapply D.
  - intros x j [_ Hj]%Hlk. by eapply E.
  - destruct F as (m & Hm & Hmi). exists m. split; [done|]. intros h x. rewrite Hmi. split.
    + intros (j & Hj & Hjh & Hjx). exists j. split; [|done]. apply Hlk. split; [|done].
      intros <-. congruence.
    + intros (j & [_ Hj]%Hlk & Hjh & Hjx). eauto.
  - intros x j [_ Hj]%Hlk. by eapply G.
  - intros x j [_ Hj]%Hlk. by eapply I.
Qed.

End EngineFacts.
