(* ===== verification/EngineAcct.v ===== *)
(** * Counting terminal events

    A handle is closed by one event: the last [FINISHED], a [FAILED] with
    [GPTPS_E_CANCELLED], [DEAD_LETTERED] or [DROPPED].  [acct] ties the events
    produced so far to the state: an item still in play is owed its closing event
    unless the engine's own test, [terminal_reported], says it had it; a handle no
    longer in play has had exactly one. *)

From S2P Require Import Prelude HandleIndex Engine EngineFacts.
Import Engine EngineFacts.

Module EngineAcct.

Definition reported (regs : gmap rid reg) (i : item) : bool :=
  if negb (it_started i) then false
  else if decide (it_outcome i = GPTPS_E_CANCELLED) then true
  else if decide (it_outcome i = GPTPS_OK) then
    negb (match (r ← it_reg i; regs !! r) with Some g => always_up g | None => false end)
  else false.

Lemma terminal_reported_eq e p : terminal_reported e p = reported (e_regs e) (get e p).
Proof. done. Qed.

(** Does [ev] close its handle?  [svc]: the handle is an always-up service's, whose
    [FINISHED] ends one run. *)
Definition closes (svc : bool) (ev : event) : bool :=
  match ev_kind ev with
  | EV_FINISHED => negb svc
  | EV_FAILED => bool_decide (ev_status ev = GPTPS_E_CANCELLED)
  | EV_DEAD_LETTERED | EV_DROPPED => true
  | _ => false
  end.

Definition closed (subs : gmap Z bool) (log : list event) (h : Z) : nat :=
  length (filter (λ ev, ev_handle ev = h ∧ closes (default false (subs !! h)) ev = true) log).

Lemma closed_app subs l1 l2 h : closed subs (l1 ++ l2) h = (closed subs l1 h + closed subs l2 h)%nat.
Proof. unfold closed. by rewrite filter_app, length_app. Qed.
Lemma closed_nil subs h : closed subs [] h = 0%nat.
Proof. done. Qed.
Lemma closed_one subs ev h :
  closed subs [ev] h = if decide (ev_handle ev = h) then Nat.b2n (closes (default false (subs !! h)) ev) else 0%nat.
Proof.
  unfold closed. rewrite filter_cons, filter_nil.
  repeat case_decide; try tauto; simpl.
  - by replace (closes _ ev) with true by naive_solver.
  - destruct (closes _ ev); naive_solver.
Qed.
Lemma closed_other subs evs h :
  Forall (λ ev, ev_handle ev ≠ h) evs → closed subs evs h = 0%nat.
Proof.
  intros H. unfold closed. induction H as [|ev evs Hev _ IH]; [done|].
  rewrite filter_cons, decide_False by naive_solver. done.
Qed.

(** What the number [n] of closing events so far says about an item, by the queue
    that holds it.  [ended] are the running attempts that have reported their end
    and are not posted yet. *)
Definition phase_n (ended : gmap ptr status) (regs : gmap rid reg) (p : ptr) (i : item) (n : nat) : Prop :=
  match it_where i with
  | Q_INTAKE | Q_READY => it_started i = false ∧ n = 0%nat
  | Q_DELAYED => reported regs i = false ∧ n = 0%nat
  | Q_RUNNING => it_started i = true ∧
      n = match ended !! p with
          | None => 0%nat
          | Some st => Nat.b2n (reported regs (i <| it_outcome := st |>))
          end
  | Q_NONE | Q_DONE => n = Nat.b2n (reported regs i)
  | Q_DEAD => True
  end.
Definition phase_ok (subs : gmap Z bool) (log : list event) (ended : gmap ptr status)
    (regs : gmap rid reg) (p : ptr) (i : item) : Prop :=
  phase_n ended regs p i (closed subs log (it_handle i)).
Definition owner_ok (subs : gmap Z bool) (regs : gmap rid reg) (i : item) : Prop :=
  ∃ r g, it_reg i = Some r ∧ regs !! r = Some g ∧ subs !! it_handle i = Some (always_up g).

Record acct (subs : gmap Z bool) (ended : gmap ptr status) (log : list event) (e : engine) : Prop := {
  ac_phase : ∀ p i, e_items e !! p = Some i → phase_ok subs log ended (e_regs e) p i;
  ac_owner : ∀ p i, e_items e !! p = Some i → it_where i ≠ Q_DEAD → owner_ok subs (e_regs e) i;
  ac_gone : ∀ h, 1 ≤ h < e_next_handle e →
    (∃ p i, e_items e !! p = Some i ∧ it_handle i = h ∧ it_where i ≠ Q_DEAD) ∨
    closed subs log h = 1%nat;
  ac_new : ∀ h, e_next_handle e ≤ h → closed subs log h = 0%nat }.

(** ** An operation on one item

    [only p e e']: [e'] has every item of [e] but [p] as it was, except that it may
    have freed dead letters. *)
Record only (p : ptr) (e e' : engine) : Prop := {
  on_back : ∀ q i, q ≠ p → e_items e' !! q = Some i → e_items e !! q = Some i;
  on_keep : ∀ q i, q ≠ p → e_items e !! q = Some i → it_where i ≠ Q_DEAD → e_items e' !! q = Some i;
  on_next : e_next_handle e' = e_next_handle e;
  on_regs : e_regs e' = e_regs e }.

Lemma only_refl p e : only p e e.
Proof. by split. Qed.
Lemma only_trans p e1 e2 e3 : only p e1 e2 → only p e2 e3 → only p e1 e3.
Proof.
  intros [A B C D] [A' B' C' D']. split; [eauto|eauto|congruence|congruence].
Qed.
Lemma only_alter p f e e' :
  e_items e' = alter f p (e_items e) → e_next_handle e' = e_next_handle e → e_regs e' = e_regs e →
  only p e e'.
Proof.
  intros H1 H2 H3. split; try done; intros q i Hq; rewrite H1, lookup_alter_ne; done.
Qed.
Lemma only_same p e e' :
  e_items e' = e_items e → e_next_handle e' = e_next_handle e → e_regs e' = e_regs e → only p e e'.
Proof. intros H1 H2 H3. split; try done; intros q i Hq; rewrite H1; done. Qed.
Lemma only_free p e : only p e (item_free p e).
Proof. split; try done; intros q i Hq; unfold item_free; simpl; rewrite lookup_delete_ne by done; done. Qed.

(** What becomes of the item: freed, retained, or in play, with the books balanced.
    [n] counts the closing events its handle has had. *)
Definition balanced (ended : gmap ptr status) (regs : gmap rid reg) (p : ptr) (i : item)
    (o : option item) (n : nat) : Prop :=
  match o with
  | None => n = 1%nat
  | Some i' => it_handle i' = it_handle i ∧
      if decide (it_where i' = Q_DEAD) then n = 1%nat
      else phase_n ended regs p i' n ∧ it_reg i' = it_reg i
  end.

(** The one place the books are balanced: an operation on the item of one handle,
    with the events it produced for it. *)
Lemma acct_step subs ended log H e e' p i evs :
  wf H e → acct subs ended log e → e_items e !! p = Some i → it_where i ≠ Q_DEAD →
  only p e e' → Forall (λ ev, ev_handle ev = it_handle i) evs →
  balanced ended (e_regs e) p i (e_items e' !! p) (closed subs (log ++ evs) (it_handle i)) →
  acct subs ended (log ++ evs) e'.
Proof.
  intros Hwf [A B C D] Hi Hw [On1 On2 On3 On4] Hev Hp. unfold balanced in Hp.
  assert (∀ h, h ≠ it_handle i → closed subs (log ++ evs) h = closed subs log h) as Hoth.
  { intros h Hh. rewrite closed_app, (closed_other subs evs); [lia|].
    eapply Forall_impl; [done|]. simpl. intros ev ->. congruence. }
  assert (∀ q j, q ≠ p → e_items e !! q = Some j → it_handle j ≠ it_handle i) as Hne.
  { intros q j Hq Hj Heq. apply Hq. by eapply (wf_handle _ _ Hwf). }
  split.
  - intros q j Hj. rewrite On4. destruct (decide (q = p)) as [->|Hq].
    + rewrite Hj in Hp. destruct Hp as [Hh Hp]. unfold phase_ok. rewrite Hh.
      case_decide as Hd; [|by destruct Hp]. unfold phase_n. by rewrite Hd.
    + specialize (On1 q j Hq Hj). specialize (A q j On1). unfold phase_ok in *.
      by rewrite Hoth by (by eapply Hne).
  - intros q j Hj Hjw. rewrite On4. destruct (decide (q = p)) as [->|Hq].
    + rewrite Hj in Hp. destruct Hp as [Hh Hp]. rewrite decide_False in Hp by done.
      destruct (B p i Hi Hw) as (r & g & ? & ? & ?). exists r, g.
      destruct Hp as [_ ->]. by rewrite Hh.
    + eapply B; [|done]. by eapply On1.
  - intros h Hh. rewrite On3 in Hh. destruct (decide (h = it_handle i)) as [->|Hhi].
    + destruct (e_items e' !! p) as [i'|] eqn:Hi'; [|by right].
      destruct Hp as [Hh' Hp]. case_decide as Hd; [by right|left; eauto].
    + rewrite Hoth by done. destruct (C h Hh) as [(q & j & Hj & Hjh & Hjw)|?]; [left|by right].
      exists q, j. split; [|done]. apply On2; [|done|done]. intros ->. congruence.
  - intros h Hh. rewrite On3 in Hh. pose proof (wf_range _ _ Hwf p i Hi).
    rewrite Hoth by lia. by apply D.
Qed.

(** The same for a change that produces no event and keeps the phase. *)
Lemma acct_similar subs ended log e e' :
  (∀ p, match e_items e' !! p, e_items e !! p with
        | Some j, Some i => it_handle j = it_handle i ∧ it_where j = it_where i ∧
            it_reg j = it_reg i ∧ it_started j = it_started i ∧ it_outcome j = it_outcome i
        | None, None => True
        | _, _ => False
        end) →
  e_next_handle e' = e_next_handle e → e_regs e' = e_regs e →
  acct subs ended log e → acct subs ended log e'.
Proof.
  intros Hs Hn Hr [A B C D].
  assert (∀ p j, e_items e' !! p = Some j → ∃ i, e_items e !! p = Some i ∧ it_handle j = it_handle i ∧
    it_where j = it_where i ∧ it_reg j = it_reg i ∧ it_started j = it_started i ∧
    it_outcome j = it_outcome i) as Hlk.
  { intros p j Hj. specialize (Hs p). rewrite Hj in Hs. destruct (e_items e !! p); [eauto|done]. }
  split.
  - intros p j Hj. destruct (Hlk p j Hj) as (i & Hi & E1 & E2 & E3 & E4 & E5).
    specialize (A p i Hi). rewrite Hr. unfold phase_ok, phase_n, reported in *. simpl in *.
    by rewrite E1, E2, E3, E4, E5.
  - intros p j Hj Hw. destruct (Hlk p j Hj) as (i & Hi & E1 & E2 & E3 & E4 & E5).
    rewrite Hr. unfold owner_ok. rewrite E3, E1. apply (B p i Hi). congruence.
  - intros h Hh. rewrite Hn in Hh. destruct (C h Hh) as [(p & i & Hi & ? & ?)|?]; [left|by right].
    specialize (Hs p). rewrite Hi in Hs. destruct (e_items e' !! p) as [j|] eqn:Hj; [|done].
    exists p, j. intuition congruence.
  - intros h Hh. apply D. by rewrite <-Hn.
Qed.

Lemma acct_ext subs ended log e e' :
  e_items e' = e_items e → e_next_handle e' = e_next_handle e → e_regs e' = e_regs e →
  acct subs ended log e → acct subs ended log e'.
Proof. intros H1 H2 H3. apply acct_similar; try done. intros p. rewrite H1. by destruct (e_items e !! p). Qed.

(** ** The primitive operations, for both invariants *)

Lemma items_push q p e : e_items (fifo_push q p e) = alter (λ i, i <| it_where := q |>) p (e_items e).
Proof. done. Qed.
Lemma items_remove q p e :
  e_items (fifo_remove q p e) = alter (λ i, i <| it_where := Q_NONE |>) p (e_items e).
Proof. done. Qed.
Lemma items_pop q p e e' :
  fifo_pop q e = Some (p, e') →
  e_items e' = alter (λ i, i <| it_where := Q_NONE |>) p (e_items e) ∧
  e_next_handle e' = e_next_handle e ∧ e_regs e' = e_regs e ∧ e_stopping e' = e_stopping e.
Proof. unfold fifo_pop. destruct (queue e q); [done|]. by intros [= -> <-]. Qed.
Lemma items_release p e :
  ∃ f, e_items (release p e) = alter f p (e_items e) ∧ inert f ∧
    (∀ i, it_started (f i) = it_started i ∧ it_outcome (f i) = it_outcome i).
Proof.
  unfold release. destruct (it_res _).
  - eexists (λ i, i <| it_res := None |>). split_and!; [done|by intros i|by intros i].
  - exists id. split_and!; [|by intros i|by intros i]. simpl.
    apply map_eq. intros q. destruct (decide (p = q)) as [<-|];
      [rewrite lookup_alter_eq; by destruct (_ !! _)|by rewrite lookup_alter_ne].
Qed.

(** Dropping: out of the index, out of the store. *)
Lemma item_drop_spec H e p :
  wf H e → p ∈ H →
  wf (H ∖ {[p]}) (item_drop p e) ∧ only p e (item_drop p e) ∧ e_items (item_drop p e) !! p = None.
Proof.
  intros Hwf Hp. destruct (wf_hidx_del H e p Hwf Hp) as [Hwf' Hit].
  pose proof Hp as (i & Hi & Hw)%(wf_hand _ _ Hwf). unfold item_drop. split_and!.
  - apply wf_free; [done|done|]. unfold get. by rewrite Hit, lookup_alter_eq, Hi.
  - eapply only_trans; [|apply only_free]. eapply only_alter; [done|..].
    all: unfold hidx_del; by destruct (it_indexed _).
  - unfold item_free. simpl. by rewrite lookup_delete_eq.
Qed.

Lemma evict_spec fuel H e p :
  wf H e → p ∈ H →
  wf H (dead_letter_evict fuel e) ∧ only p e (dead_letter_evict fuel e) ∧
  e_items (dead_letter_evict fuel e) !! p = e_items e !! p.
Proof.
  revert e. induction fuel as [|f IH]; intros e Hwf Hp; simpl; [split_and!; [done|apply only_refl|done]|].
  destruct (_ && _); [|split_and!; [done|apply only_refl|done]].
  destruct (fifo_pop Q_DEAD e) as [[old e1]|] eqn:Hpop; [|split_and!; [done|apply only_refl|done]].
  destruct (wf_pop H e old Q_DEAD e1 Hwf ltac:(done) Hpop) as (Hwf1 & Hold & _).
  destruct (items_pop _ _ _ _ Hpop) as (Hit1 & Hn1 & Hr1 & _).
  destruct (queued_item H e old Q_DEAD Hwf ltac:(done) Hold) as (i & Hi & Hiw).
  assert (old ≠ p) as Hne.
  { intros ->. apply (wf_hand _ _ Hwf) in Hp as (j & Hj & ?). congruence. }
  assert (old ∉ H) as HnH.
  { intros (j & Hj & ?)%(wf_hand _ _ Hwf). congruence. }
  set (e2 := item_free old _).
  assert (wf H e2) as Hwf2.
  { replace H with (({[old]} ∪ H) ∖ {[old]}) by set_solver. apply wf_free; [|set_solver|].
    - eapply wf_ext; [..|exact Hwf1]; done.
    - unfold get. simpl. rewrite Hit1, lookup_alter_eq, Hi. simpl. by eapply (wf_dead _ _ Hwf). }
  assert (∀ q, e_items e2 !! q = if decide (old = q) then None else e_items e !! q) as Hlk.
  { intros q. unfold e2, item_free. simpl. case_decide as Hq.
    - subst. by rewrite lookup_delete_eq.
    - rewrite lookup_delete_ne by done. by rewrite Hit1, lookup_alter_ne. }
  destruct (IH e2 Hwf2 Hp) as (HA & HB & HC). split_and!; [done| |].
  - eapply only_trans; [|exact HB]. split; [| |done|done].
    + intros q j Hq. rewrite Hlk. by case_decide.
    + intros q j Hq Hj Hjw. rewrite Hlk. case_decide; [congruence|done].
  - rewrite HC, Hlk. by rewrite decide_False.
Qed.

Lemma dead_letter_push_spec H e p i :
  wf H e → p ∈ H → e_items e !! p = Some i →
  wf (H ∖ {[p]}) (dead_letter_push p e) ∧ only p e (dead_letter_push p e) ∧
  e_items (dead_letter_push p e) !! p = Some (i <| it_indexed := false |> <| it_where := Q_DEAD |>).
Proof.
  intros Hwf Hp Hi. destruct (wf_hidx_del H e p Hwf Hp) as [Hwf1 Hit1].
  unfold dead_letter_push. set (e1 := hidx_del p e) in *.
  destruct (evict_spec (length (queue e1 Q_DEAD)) H e1 p Hwf1 Hp) as (Hwf2 & Hon2 & Hlk2).
  set (e2 := dead_letter_evict _ e1) in *.
  assert (e_items e2 !! p = Some (i <| it_indexed := false |>)) as Hp2.
  { by rewrite Hlk2, Hit1, lookup_alter_eq, Hi. }
  split_and!.
  - eapply wf_ext; [..|apply (wf_push H e2 p Q_DEAD Hwf2 Hp)]; try done.
    by rewrite (get_lookup _ _ _ Hp2).
  - eapply only_trans; [|eapply only_alter; [exact (items_push Q_DEAD p e2)|done|done]].
    eapply only_trans; [|exact Hon2]. eapply only_alter; [exact Hit1|..].
    all: unfold e1, hidx_del; by destruct (it_indexed _).
  - change (alter (λ i, i <| it_where := Q_DEAD |>) p (e_items e2) !! p =
      Some (i <| it_indexed := false |> <| it_where := Q_DEAD |>)).
    by rewrite lookup_alter_eq, Hp2.
Qed.

End EngineAcct.
