(* ===== verification/EnginePassFacts.v ===== *)
(** * What a pass preserves

    Each step of [engine_pass] keeps the engine well formed and the books of
    terminal events balanced. *)

From S2P Require Import Prelude HandleIndex Engine EnginePass EngineFacts EngineAcct.
Import Engine EnginePass EngineFacts EngineAcct.

Module EnginePassFacts.

Section facts.
Context (subs : gmap Z bool) (ended : gmap ptr status) (log : list event) (N : Z).
(** Items in other callers' hands, which nothing here may touch. *)
Context (F : gmap ptr item) (HF : map_Forall (λ _ i, it_where i = Q_NONE) F).

(** The invariant of a pass under way: [log] has been emitted, [pend] is owed. *)
Record good (H : gset ptr) (e : engine) (s : pass) : Prop := {
  g_wf : wf H e;
  g_acct : acct subs ended (log ++ pend s) e;
  g_next : e_next_handle e = N;
  g_frame : F ⊆ e_items e }.

(** An item in hand, as a branch finds it. *)
Record in_hand (H : gset ptr) (e : engine) (p : ptr) (i : item) : Prop := {
  ih_wf : wf H e;
  ih_in : p ∈ H;
  ih_item : e_items e !! p = Some i;
  ih_idx : it_indexed i = true;
  ih_owner : owner_ok subs (e_regs e) i }.

(** What a branch does with it. *)
Definition disposed (H H' : gset ptr) (e : engine) (p : ptr) (i : item) (s : pass) (n : nat)
    (e' : engine) (s' : pass) : Prop :=
  wf H' e' ∧ only p e e' ∧ ∃ evs,
    pend s' = pend s ++ evs ∧ Forall (λ ev, ev_handle ev = it_handle i) evs ∧
    balanced ended (e_regs e) p i (e_items e' !! p) (n + closed subs evs (it_handle i)).

Lemma buffer_not_full ev s : full s = false → pend (buffer ev s) = pend s ++ [ev].
Proof. unfold buffer. by intros ->. Qed.

Lemma pend_wake t s : pend (wake_at t s) = pend s.
Proof. done. Qed.
Lemma pend_more s : pend (set_more s) = pend s.
Proof. done. Qed.

Lemma svc_flag e p i g r :
  e_items e !! p = Some i → it_reg i = Some r → e_regs e !! r = Some g →
  ∀ f, reg_flag f e p = f g.
Proof.
  intros Hi Hr Hg f. unfold reg_flag, reg_of. rewrite (get_lookup _ _ _ Hi), Hr. simpl. by rewrite Hg.
Qed.

(** One event of the item's handle. *)
Lemma closed_event i e p g k st fl :
  e_items e !! p = Some i → subs !! it_handle i = Some (always_up g) →
  closed subs [item_event e p k st fl] (it_handle i) = Nat.b2n (closes (always_up g) (item_event e p k st fl)).
Proof.
  intros Hi Hs. rewrite closed_one. simpl. rewrite (get_lookup _ _ _ Hi).
  by rewrite decide_True, Hs.
Qed.

Lemma event_handle e p i k st fl : e_items e !! p = Some i → ev_handle (item_event e p k st fl) = it_handle i.
Proof. intros Hi. simpl. by rewrite (get_lookup _ _ _ Hi). Qed.

(** Drop it, with the events [evs]. *)
Lemma dispose_drop H e p i s n evs s' :
  in_hand H e p i → pend s' = pend s ++ evs → Forall (λ ev, ev_handle ev = it_handle i) evs →
  (n + closed subs evs (it_handle i) = 1)%nat →
  disposed H (H ∖ {[p]}) e p i s n (item_drop p e) s'.
Proof.
  intros [Hwf Hp Hi Hx Ho] Hs Hev Hn. destruct (item_drop_spec H e p Hwf Hp) as (A & B & C).
  split_and!; [done|done|]. exists evs. split_and!; [done|done|]. by rewrite C.
Qed.

(** Retain it. *)
Lemma dispose_dead H e p i s n evs s' :
  in_hand H e p i → pend s' = pend s ++ evs → Forall (λ ev, ev_handle ev = it_handle i) evs →
  (n + closed subs evs (it_handle i) = 1)%nat →
  disposed H (H ∖ {[p]}) e p i s n (dead_letter_push p e) s'.
Proof.
  intros [Hwf Hp Hi Hx Ho] Hs Hev Hn.
  destruct (dead_letter_push_spec H e p i Hwf Hp Hi) as (A & B & C).
  split_and!; [done|done|]. exists evs. split_and!; [done|done|]. rewrite C. by split.
Qed.

(** Write it: the fields a branch changes are not structural. *)
Lemma in_hand_put H e p i f : in_hand H e p i → inert f → in_hand H (put p f e) p (f i).
Proof.
  intros [Hwf Hp Hi Hx Ho] Hf. destruct (Hf i) as (H1 & H2 & H3 & H4). split.
  - by apply wf_put.
  - done.
  - by rewrite items_put, lookup_alter_eq, Hi.
  - by rewrite H3.
  - unfold owner_ok in *. by rewrite H1, H4.
Qed.

Ltac hand_put :=
  lazymatch goal with
  | |- in_hand ?H (put ?p ?f ?e) ?p _ => refine (in_hand_put H e p _ f _ _); [eassumption|by intros ?]
  end.

(** Put it in a live queue. *)
Lemma dispose_push H e p i s n q :
  in_hand H e p i → live_q q = true →
  phase_n ended (e_regs e) p (i <| it_where := q |>) n →
  disposed H (H ∖ {[p]}) e p i s n (fifo_push q p e) s.
Proof.
  intros [Hwf Hp Hi Hx Ho] Hq Hn. split_and!.
  - apply wf_push; [done|done|by destruct q| |by intros ->]. by rewrite (get_lookup _ _ _ Hi).
  - by eapply only_alter.
  - exists []. split_and!; [by rewrite app_nil_r|done|]. rewrite items_push, lookup_alter_eq, Hi.
    simpl. split; [done|]. rewrite decide_False by (by destruct q).
    rewrite closed_nil, Nat.add_0_r. done.
Qed.

(** Writing first and disposing after. *)
Lemma disposed_put H H' e p i f s n e' s' :
  e_items e !! p = Some i → inert f →
  disposed H H' (put p f e) p (f i) s n e' s' → disposed H H' e p i s n e' s'.
Proof.
  intros Hi Hf (A & B & evs & C & D & E). destruct (Hf i) as (H1 & _ & _ & H4).
  split_and!; [done| |].
  - eapply only_trans; [|exact B]. by eapply only_alter.
  - exists evs. rewrite H1 in D, E. split_and!; [done|done|].
    unfold balanced in *. destruct (e_items e' !! p); [|done].
    rewrite H1, H4 in E. done.
Qed.

Ltac put_first :=
  lazymatch goal with
  | |- context [put ?p ?f ?e] => eapply (disposed_put _ _ e p _ f); [eassumption|by intros ?|]
  end.

Ltac one_event Hi Hs := rewrite (closed_event _ _ _ _ _ _ _ Hi Hs).

(** A closing event for an item that has had none, or none for one that has had it. *)
Lemma owed_cancel e p i g s :
  full s = false → e_items e !! p = Some i → subs !! it_handle i = Some (always_up g) →
  let s' := if terminal_reported e p then s else buffer (item_event e p EV_FAILED GPTPS_E_CANCELLED 0) s in
  ∃ evs, pend s' = pend s ++ evs ∧ Forall (λ ev, ev_handle ev = it_handle i) evs ∧
    (Nat.b2n (reported (e_regs e) i) + closed subs evs (it_handle i) = 1)%nat.
Proof.
  intros Hf Hi Hs. rewrite terminal_reported_eq, (get_lookup _ _ _ Hi). simpl.
  destruct (reported (e_regs e) i).
  - exists []. by rewrite app_nil_r.
  - eexists [_]. rewrite buffer_not_full by done. split_and!; [done| |by one_event Hi Hs].
    constructor; [by apply event_handle|done].
Qed.

Lemma drain_ok_disposed now H e p i s :
  in_hand H e p i → full s = false → it_outcome i = GPTPS_OK →
  let '(e', s') := drain_ok now p e s in
  disposed H (H ∖ {[p]}) e p i s (Nat.b2n (reported (e_regs e) i)) e' s'.
Proof.
  intros Hh Hf Hout. pose proof Hh as [Hwf Hp Hi Hx (r & g & Hr & Hg & Hs)]. unfold drain_ok.
  rewrite !(svc_flag e p i g r Hi Hr Hg).
  destruct (always_up g && _ && _ && _) eqn:Hc.
  - apply andb_true_iff in Hc as [Hc _]. apply andb_true_iff in Hc as [Hc _].
    apply andb_true_iff in Hc as [Hup _].
    assert (reported (e_regs e) i = false) as Hrep.
    { unfold reported. rewrite Hout, Hr. simpl. rewrite Hg, Hup.
      by destruct (it_started i). }
    put_first. rewrite Hrep.
    apply dispose_push; [hand_put|done|]. split; [|done].
    unfold reported in *. exact Hrep.
  - destruct (owed_cancel e p i g s Hf Hi Hs) as (evs & A & B & C). by eapply dispose_drop.
Qed.

Lemma drain_cancelled_disposed H e p i s :
  in_hand H e p i → full s = false →
  let '(e', s') := drain_cancelled_item p e s in
  disposed H (H ∖ {[p]}) e p i s (Nat.b2n (reported (e_regs e) i)) e' s'.
Proof.
  intros Hh Hf. pose proof Hh as [Hwf Hp Hi Hx (r & g & Hr & Hg & Hs)]. unfold drain_cancelled_item.
  destruct (owed_cancel e p i g s Hf Hi Hs) as (evs & A & B & C). by eapply dispose_drop.
Qed.

(** A branch that gives an item that has had no closing event one. *)
Lemma dispose_closing H e p i s k st fl (dead : bool) :
  in_hand H e p i → full s = false →
  (∀ svc, closes svc (item_event e p k st fl) = true) →
  disposed H (H ∖ {[p]}) e p i s 0 (if dead then dead_letter_push p e else item_drop p e)
    (buffer (item_event e p k st fl) s).
Proof.
  intros Hh Hf Hc. pose proof Hh as [Hwf Hp Hi Hx (r & g & Hr & Hg & Hs)].
  assert (Forall (λ ev, ev_handle ev = it_handle i) [item_event e p k st fl]) as Hev.
  { constructor; [by apply event_handle|done]. }
  assert (0 + closed subs [item_event e p k st fl] (it_handle i) = 1)%nat as Hn.
  { one_event Hi Hs. by rewrite Hc. }
  destruct dead; [eapply dispose_dead|eapply dispose_drop]; try done; by apply buffer_not_full.
Qed.

Lemma drain_removed_disposed H e p i s :
  in_hand H e p i → full s = false → reported (e_regs e) i = false →
  let '(e', s') := drain_removed p e s in
  disposed H (H ∖ {[p]}) e p i s 0 e' s'.
Proof.
  intros Hh Hf Hrep. pose proof (ih_item _ _ _ _ Hh) as Hi. unfold drain_removed.
  rewrite terminal_reported_eq, (get_lookup _ _ _ Hi), Hrep.
  destruct (reg_flag r_cancelling e p); simpl.
  - apply (dispose_closing H e p i s _ _ _ false); done.
  - case_bool_decide.
    + apply (dispose_closing H e p i s _ _ _ false); done.
    + apply (dispose_closing H e p i s _ _ _ true); done.
Qed.

Lemma drain_retry_disposed now H e p i s :
  in_hand H e p i → it_where i = Q_NONE → full s = false → reported (e_regs e) i = false →
  let '(e', s') := drain_retry now p e s in disposed H H e p i s 0 e' s'.
Proof.
  intros Hh Hw Hf Hrep. pose proof Hh as [Hwf Hp Hi Hx (r & g & Hr & Hg & Hs)]. unfold drain_retry.
  set (f := λ i : item, _). assert (inert f) as Hin by (by intros j).
  eapply disposed_put; [done|exact Hin|].
  pose proof (in_hand_put H e p i f Hh Hin) as Hh'. pose proof (ih_item _ _ _ _ Hh') as Hi'.
  split_and!; [apply Hh'|apply only_refl|]. eexists. rewrite buffer_not_full by done.
  split_and!; [done|constructor; [by apply event_handle|done]|].
  rewrite Hi'. split; [done|]. rewrite decide_False by (simpl; by rewrite Hw).
  split; [|done]. assert (subs !! it_handle (f i) = Some (always_up g)) as Hs' by done.
  one_event Hi' Hs'. unfold phase_n. simpl. rewrite Hw. unfold reported in *. simpl. by rewrite Hrep.
Qed.

Lemma drain_failed_disposed now H e p i s :
  in_hand H e p i → full s = false → reported (e_regs e) i = false →
  let '(e', s') := drain_failed now p e s in
  disposed H (H ∖ {[p]}) e p i s 0 e' s'.
Proof.
  intros Hh Hf Hrep. pose proof (ih_item _ _ _ _ Hh) as Hi. unfold drain_failed.
  rewrite (get_lookup _ _ _ Hi). destruct (p_on_failure (it_policy i)).
  - by apply (dispose_closing H e p i s _ _ _ true).
  - destruct (e_stopping e).
    + put_first.
      apply (dispose_closing H _ p _ s _ _ _ true); [|done|done]. hand_put.
    + put_first.
      apply dispose_push; [hand_put|done|]. split; [|done].
      unfold reported in *. exact Hrep.
  - by apply (dispose_closing H e p i s _ _ _ false).
Qed.

(** The decision about one item. *)
Lemma drain_one_disposed now H e p i s :
  in_hand H e p i → it_where i = Q_NONE → full s = false →
  let '(e', s', a) := drain_one now p e s in
  disposed H (if a then H else H ∖ {[p]}) e p i s (Nat.b2n (reported (e_regs e) i)) e' s'.
Proof.
  intros Hh Hw Hf. pose proof Hh as [Hwf Hp Hi Hx Ho]. unfold drain_one.
  rewrite (get_lookup _ _ _ Hi). destruct (decide (it_outcome i = GPTPS_OK)) as [Hok|Hok].
  { pose proof (drain_ok_disposed now H e p i s Hh Hf Hok). by destruct (drain_ok now p e s). }
  destruct (it_cancelled i).
  { pose proof (drain_cancelled_disposed H e p i s Hh Hf). by destruct (drain_cancelled_item p e s). }
  destruct (it_started i && _) eqn:Hsc.
  { apply andb_true_iff in Hsc as [Hst Hc%bool_decide_eq_true].
    eapply dispose_drop with (evs := []); [done|by rewrite app_nil_r|done|].
    unfold reported. by rewrite Hst, Hc. }
  assert (reported (e_regs e) i = false) as Hrep.
  { unfold reported. destruct (it_started i); [|done]. simpl in *.
    rewrite bool_decide_eq_false in Hsc. by rewrite !decide_False. }
  rewrite Hrep. destruct (reg_flag r_removed e p).
  { pose proof (drain_removed_disposed H e p i s Hh Hf Hrep). by destruct (drain_removed p e s). }
  destruct (it_attempt i <=? _).
  { pose proof (drain_retry_disposed now H e p i s Hh Hw Hf Hrep). by destruct (drain_retry now p e s). }
  pose proof (drain_failed_disposed now H e p i s Hh Hf Hrep). by destruct (drain_failed now p e s).
Qed.

(** ** From one item to the queues *)

Lemma frame_only p e e' : F ⊆ e_items e → F !! p = None → only p e e' → F ⊆ e_items e'.
Proof.
  intros HFe HFp Hon. apply map_subseteq_spec. intros q j Hq.
  apply (on_keep _ _ _ Hon); [intros ->; congruence|by apply (proj1 (map_subseteq_spec _ _) HFe)|].
  by rewrite (HF q j Hq).
Qed.

(** A queued item is in nobody's hands. *)
Lemma item_frame H e s p i : good H e s → e_items e !! p = Some i → it_where i ≠ Q_NONE → F !! p = None.
Proof.
  intros [_ _ _ HFe] Hi Hw. destruct (F !! p) as [j|] eqn:Hj; [|done].
  pose proof (proj1 (map_subseteq_spec _ _) HFe p j Hj). pose proof (HF p j Hj). simpl in *. congruence.
Qed.
Lemma queued_frame H e s p q : good H e s → q ≠ Q_NONE → p ∈ queue e q → F !! p = None.
Proof.
  intros Hg Hq Hp. destruct (queued_item _ _ _ _ (g_wf _ _ _ Hg) Hq Hp) as (i & Hi & Hw).
  eapply item_frame; [done|done|congruence].
Qed.

Lemma good_dispose H H2 H' e e2 p i0 i s n e' s' :
  good H e s → F !! p = None → e_items e !! p = Some i0 → it_where i0 ≠ Q_DEAD → only p e e2 →
  it_handle i = it_handle i0 → it_reg i = it_reg i0 →
  n = closed subs (log ++ pend s) (it_handle i0) →
  disposed H2 H' e2 p i s n e' s' → good H' e' s'.
Proof.
  intros [Hwf Hac HN HFe] HFp Hi0 Hw Hon Hh Hr -> (A & B & evs & C & D & E). rewrite Hh in D.
  split; [done| |by rewrite (on_next _ _ _ B), (on_next _ _ _ Hon)|].
  2:{ eapply frame_only; [exact HFe|exact HFp|exact (only_trans _ _ _ _ Hon B)]. }
  rewrite C, app_assoc.
  eapply acct_step; [exact Hwf|done|exact Hi0|done|by eapply only_trans|done|].
  unfold balanced in *. rewrite Hh in E. rewrite (on_regs _ _ _ Hon) in E.
  rewrite closed_app. destruct (e_items e' !! p) as [i'|]; [|done].
  rewrite Hr in E. done.
Qed.

(** Popping an item of a live queue puts it in hand. *)
Lemma pop_in_hand H e s q p e1 :
  good H e s → live_q q = true → fifo_pop q e = Some (p, e1) →
  ∃ i, e_items e !! p = Some i ∧ it_where i = q ∧ only p e e1 ∧
    in_hand ({[p]} ∪ H) e1 p (i <| it_where := Q_NONE |>) ∧ p ∉ H ∧
    queue e q = p :: (queue e1 q) ∧
    (∀ q', q' ≠ q → queue e1 q' = queue e q').
Proof.
  intros [Hwf Hac HN HFe] Hq Hpop. destruct (wf_pop H e p q e1 Hwf ltac:(by destruct q) Hpop) as (Hwf1 & Hp & Hl).
  destruct (queued_item H e p q Hwf ltac:(by destruct q) Hp) as (i & Hi & Hw).
  destruct (items_pop _ _ _ _ Hpop) as (Hit & Hn & Hr & _).
  exists i. split_and!; [done|done|by eapply only_alter| | |done|].
  - split; [done|set_solver| | |].
    + by rewrite Hit, lookup_alter_eq, Hi.
    + apply (wf_indexed _ _ Hwf p i Hi). by rewrite Hw.
    + rewrite Hr. apply (ac_owner _ _ _ _ Hac p i Hi). destruct q; simpl in *; congruence.
  - intros (j & Hj & ?)%(wf_hand _ _ Hwf). destruct q; simpl in *; congruence.
  - intros q' Hq'. unfold fifo_pop in Hpop. destruct (queue e q); [done|].
    injection Hpop as -> <-. by rewrite queue_put, queue_set_ne.
Qed.

Lemma release_in_hand H e p i :
  in_hand H e p i → it_where i = Q_NONE →
  ∃ i', in_hand H (release p e) p i' ∧ it_where i' = Q_NONE ∧ only p e (release p e) ∧
    it_handle i' = it_handle i ∧ it_reg i' = it_reg i ∧
    (∀ regs, reported regs i' = reported regs i).
Proof.
  intros [Hwf Hp Hi Hx Ho] Hw. destruct (items_release p e) as (f & Hit & Hf & Hf2).
  destruct (Hf i) as (H1 & H2 & H3 & H4). destruct (Hf2 i) as (H5 & H6).
  assert (e_hidx (release p e) = e_hidx e ∧ e_qs (release p e) = e_qs e ∧
    e_next_handle (release p e) = e_next_handle e ∧ e_regs (release p e) = e_regs e) as (E1 & E2 & E3 & E4).
  { unfold release. by destruct (it_res _). }
  exists (f i). split_and!; [|congruence|by eapply only_alter|done|done|].
  - split; [|done|by rewrite Hit, lookup_alter_eq, Hi|congruence|].
    + eapply wf_similar; [| | | |exact Hwf]; try done. rewrite Hit. by apply structural_alter, inert_structural.
    + unfold owner_ok in *. by rewrite H1, H4, E4.
  - intros regs. unfold reported. by rewrite H4, H5, H6.
Qed.

Lemma queue_release p e q : queue (release p e) q = queue e q.
Proof. unfold release. by destruct (it_res _). Qed.

(** An announced retry: in hand, not closed, still in the index. *)
Definition parked_ok (e : engine) (p : ptr) : Prop :=
  ∃ i, e_items e !! p = Some i ∧ it_where i = Q_NONE ∧ reported (e_regs e) i = false ∧
       it_indexed i = true.

Lemma parked_only e e' p x : only p e e' → x ≠ p → parked_ok e x → parked_ok e' x.
Proof.
  intros Hon Hx (i & Hi & Hw & Hr & Hid). exists i. rewrite (on_regs _ _ _ Hon).
  split_and!; [|done..]. apply (on_keep _ _ _ Hon); [done|done|by rewrite Hw].
Qed.

Lemma drain_one_parked now H e p i s :
  in_hand H e p i → it_where i = Q_NONE → (drain_one now p e s).2 = true →
  parked_ok (drain_one now p e s).1.1 p.
Proof.
  intros [Hwf Hp Hi Hx Ho] Hw. unfold drain_one. rewrite (get_lookup _ _ _ Hi).
  destruct (decide _) as [|Hok]; [by destruct (drain_ok now p e s)|].
  destruct (it_cancelled i); [by destruct (drain_cancelled_item p e s)|].
  destruct (it_started i && _) eqn:Hsc; [done|].
  destruct (reg_flag r_removed e p); [by destruct (drain_removed p e s)|].
  destruct (it_attempt i <=? _); [|by destruct (drain_failed now p e s)].
  intros _. unfold drain_retry. cbn [fst snd]. eexists.
  rewrite items_put, lookup_alter_eq, Hi. split; [done|].
  split_and!; [done| |done]. unfold reported. simpl. destruct (it_started i); [|done].
  simpl in *. rewrite bool_decide_eq_false in Hsc. by rewrite !decide_False.
Qed.

(** ** Step 1 *)
Lemma drain_done_good fuel now H0 e s (ann : list ptr) :
  good (H0 ∪ list_to_set ann) e s → NoDup ann → (∀ x, x ∈ ann → (x ∉ H0 ∧ F !! x = None) ∧ parked_ok e x) →
  let '(e', s', ann') := drain_done fuel now e s ann in
  good (H0 ∪ list_to_set ann') e' s' ∧ NoDup ann' ∧ (∀ x, x ∈ ann' → (x ∉ H0 ∧ F !! x = None) ∧ parked_ok e' x).
Proof.
  revert e s ann. induction fuel as [|f IH]; intros e s ann Hg Hnd Hdis; simpl; [done|].
  destruct (full s) eqn:Hf; [done|].
  destruct (fifo_pop Q_DONE e) as [[p e1]|] eqn:Hpop; [|done].
  destruct (pop_in_hand _ e s Q_DONE p e1 Hg eq_refl Hpop) as (i & Hi & Hw & Hon & Hih & Hp & _).
  destruct (release_in_hand _ _ _ _ Hih eq_refl) as (i' & Hih' & Hw' & Hon' & Hh & Hr & Hrep).
  pose proof (drain_one_disposed now _ _ p i' s Hih' Hw' Hf) as Hd.
  pose proof (drain_one_parked now _ _ p i' s Hih' Hw') as Hpk.
  destruct (drain_one now p (release p e1) s) as [[e2 s2] a].
  assert (only p e e2) as Hone by (eapply only_trans; [exact Hon|eapply only_trans; [exact Hon'|apply Hd]]).
  assert (good (if a then {[p]} ∪ (H0 ∪ list_to_set ann)
                else ({[p]} ∪ (H0 ∪ list_to_set ann)) ∖ {[p]}) e2 s2) as Hg2.
  { eapply (good_dispose _ _ _ e (release p e1) p i i'); [exact Hg|eapply item_frame; [exact Hg|exact Hi|by rewrite Hw]|done|by rewrite Hw| |done|done| |exact Hd].
    - exact (only_trans _ _ _ _ Hon Hon').
    - pose proof (ac_phase _ _ _ _ (g_acct _ _ _ Hg) p i Hi) as Hph. unfold phase_ok, phase_n in Hph.
      rewrite Hw in Hph. rewrite Hph, Hrep. by rewrite (on_regs _ _ _ Hon'), (on_regs _ _ _ Hon). }
  apply IH.
  - replace (H0 ∪ list_to_set (if a then ann ++ [p] else ann)) with
      (if a then {[p]} ∪ (H0 ∪ list_to_set ann) else ({[p]} ∪ (H0 ∪ list_to_set ann)) ∖ {[p]} : gset ptr);
      [done|]. destruct a; set_solver.
  - destruct a; [|done]. apply NoDup_app. split_and!; [done|set_solver|apply NoDup_singleton].
  - assert (∀ x, x ∈ ann → (x ∉ H0 ∧ F !! x = None) ∧ parked_ok e2 x) as Hann.
    { intros x Hx. destruct (Hdis x Hx). split; [done|]. eapply parked_only; [done| |done].
      intros ->. set_solver. }
    destruct a; [|done]. intros x [Hx|Hx]%elem_of_app; [by apply Hann|].
    apply list_elem_of_singleton in Hx as ->. split; [split; [set_solver|]|by apply Hpk].
    eapply item_frame; [exact Hg|exact Hi|by rewrite Hw].
Qed.

Lemma good_more H e s : good H e s → good H e (set_more s).
Proof. intros [A B C D]. by split. Qed.
Lemma good_wake H e s t : good H e s → good H e (wake_at t s).
Proof. intros [A B C D]. by split. Qed.
#[local] Hint Resolve good_more good_wake : gptps.

Lemma step1_good now H e s :
  good H e s →
  let '(e', s', ann) := step1 now e s in
  good (H ∪ list_to_set ann) e' s' ∧ NoDup ann ∧ (∀ x, x ∈ ann → (x ∉ H ∧ F !! x = None) ∧ parked_ok e' x).
Proof.
  intros Hg. unfold step1. pose proof (drain_done_good (length (queue e Q_DONE)) now H e s []) as Hd.
  destruct (drain_done _ now e s []) as [[e' s'] ann].
  destruct Hd as (A & B & C); [by rewrite list_to_set_nil, union_empty_r_L|constructor|set_solver|].
  split_and!; [|done|done]. destruct (queue e' Q_DONE); auto with gptps.
Qed.

(** ** Steps 2 and 2b *)
Lemma remove_in_hand H e s q p :
  good H e s → live_q q = true → p ∈ queue e q →
  ∃ i, e_items e !! p = Some i ∧ it_where i = q ∧ only p e (fifo_remove q p e) ∧
    in_hand ({[p]} ∪ H) (fifo_remove q p e) p (i <| it_where := Q_NONE |>) ∧ p ∉ H.
Proof.
  intros [Hwf Hac HN HFe] Hq Hp.
  destruct (queued_item H e p q Hwf ltac:(by destruct q) Hp) as (i & Hi & Hw).
  exists i. split_and!; [done|done|by eapply only_alter| |].
  - split; [apply wf_remove; [done|by destruct q|done]|set_solver| | |].
    + by rewrite items_remove, lookup_alter_eq, Hi.
    + apply (wf_indexed _ _ Hwf p i Hi). by rewrite Hw.
    + apply (ac_owner _ _ _ _ Hac p i Hi). destruct q; simpl in *; congruence.
  - intros (j & Hj & ?)%(wf_hand _ _ Hwf). destruct q; simpl in *; congruence.
Qed.

Lemma dispose_insert H e p i s n :
  in_hand H e p i → it_started i = false → n = 0%nat →
  disposed H (H ∖ {[p]}) e p i s n (intake_insert p e) s.
Proof.
  intros [Hwf Hp Hi Hx Ho] Hst ->.
  assert (e_items (intake_insert p e) =
    alter (λ i, i <| it_seq := u64 (e_seq e + 1) |> <| it_where := Q_INTAKE |>) p (e_items e)) as Hit by done.
  split_and!.
  - apply wf_insert; [done|done|]. by rewrite (get_lookup _ _ _ Hi).
  - by eapply only_alter.
  - exists []. split_and!; [by rewrite app_nil_r|done|]. rewrite Hit, lookup_alter_eq, Hi.
    simpl. done.
Qed.

Lemma promote_one_good now H e s p :
  good H e s → p ∈ queue e Q_DELAYED →
  let '(e', s') := promote_one now p e s in
  good H e' s' ∧ only p e e' ∧ (∀ x, x ≠ p → x ∈ queue e Q_DELAYED → x ∈ queue e' Q_DELAYED).
Proof.
  intros Hg Hp. unfold promote_one.
  destruct (_ <=? _); [|split_and!; [by apply good_wake|apply only_refl|done]].
  set (f := λ i : item, i <| it_started := false |>). assert (inert f) as Hin by (by intros j).
  set (e0 := put p f e).
  destruct (remove_in_hand H e s Q_DELAYED p Hg eq_refl Hp) as (i & Hi & Hw & Hon & Hih & HpH).
  assert (only p e (fifo_remove Q_DELAYED p e0)) as Hon'.
  { apply (only_trans _ _ e0); [by apply (only_alter p f)|by eapply only_alter]. }
  assert (in_hand ({[p]} ∪ H) (fifo_remove Q_DELAYED p e0) p (f i <| it_where := Q_NONE |>)) as Hih'.
  { split; [|set_solver| |apply Hih|apply Hih].
    - apply wf_remove; [apply wf_put; [done|apply Hg]|done|done].
    - rewrite items_remove, lookup_alter_eq. unfold e0. by rewrite items_put, lookup_alter_eq, Hi. }
  split_and!.
  - pose proof (ac_phase _ _ _ _ (g_acct _ _ _ Hg) p i Hi) as Hph. unfold phase_ok, phase_n in Hph.
    rewrite Hw in Hph. destruct Hph as [_ Hn].
    replace H with (({[p]} ∪ H) ∖ {[p]}) by set_solver.
    eapply good_dispose;
      [exact Hg|by apply (queued_frame H e s p Q_DELAYED)|exact Hi|by rewrite Hw|exact Hon'| | |symmetry; exact Hn|].
    3: { by apply dispose_insert. }
    + done.
    + done.
  - eapply only_trans; [exact Hon'|by eapply only_alter].
  - intros x Hx Hxq. unfold intake_insert. rewrite queue_set_ne by done.
    change (x ∈ queue (fifo_remove Q_DELAYED p e0) Q_DELAYED). unfold fifo_remove.
    rewrite queue_put, queue_set_eq. by apply list_elem_of_filter.
Qed.

(** A fold over the items of a queue, each step of which leaves the others there. *)
Lemma fold_good {A} (G : engine → A → Prop) (q : qid) (f : engine * A → ptr → engine * A) l e a :
  (∀ e a p, G e a → p ∈ queue e q →
     let '(e', a') := f (e, a) p in G e' a' ∧ (∀ x, x ≠ p → x ∈ queue e q → x ∈ queue e' q)) →
  G e a → NoDup l → l ⊆ queue e q → let '(e', a') := foldl f (e, a) l in G e' a'.
Proof.
  intros Hf. revert e a. induction l as [|p l IH]; intros e a Hg Hnd Hl; simpl; [done|].
  apply NoDup_cons in Hnd as [Hp Hnd].
  pose proof (Hf e a p Hg ltac:(set_solver)) as H1. destruct (f (e, a) p) as [e' a'].
  destruct H1 as [HG HQ]. apply IH; [done|done|]. intros x Hx. apply HQ; set_solver.
Qed.

(** An item of a queue is in nobody's hands. *)
Lemma queued_not_hand H e p q : wf H e → q ≠ Q_NONE → p ∈ queue e q → p ∉ H.
Proof.
  intros Hwf Hq Hp Hh. by apply (hand_not_queued H e p q Hwf Hh Hq).
Qed.

Lemma step2_good now H e s (ann : list ptr) :
  good H e s → (∀ x, x ∈ ann → x ∈ H ∧ parked_ok e x) →
  let '(e', s') := step2 now e s in good H e' s' ∧ (∀ x, x ∈ ann → x ∈ H ∧ parked_ok e' x).
Proof.
  intros Hg Hann. unfold step2.
  apply (fold_good (λ e s, good H e s ∧ ∀ x, x ∈ ann → x ∈ H ∧ parked_ok e x) Q_DELAYED);
    [|done|apply Hg|done].
  intros e0 s0 p [Hg0 Ha0] Hp. pose proof (promote_one_good now H e0 s0 p Hg0 Hp) as Hpr.
  destruct (promote_one now p e0 s0) as [e1 s1]. destruct Hpr as (A & B & C). split_and!; [done| |done].
  intros x Hx. destruct (Ha0 x Hx) as [HxH Hpk]. split; [done|]. eapply parked_only; [done| |done].
  intros ->. by apply (queued_not_hand H e0 p Q_DELAYED (g_wf _ _ _ Hg0)).
Qed.

Lemma park_one_good now H e s h p i :
  good H e s → p ∈ H → F !! p = None → e_items e !! p = Some i → reported (e_regs e) i = false →
  it_indexed i = true →
  let '(e', s', h') := park_one now p e s h in good (H ∖ {[p]}) e' s' ∧ only p e e'.
Proof.
  intros Hg Hp HFp Hi Hrep Hx.
  pose proof Hp as (i' & Hi' & Hw)%(wf_hand _ _ (g_wf _ _ _ Hg)). rewrite Hi in Hi'. injection Hi' as <-.
  assert (good (H ∖ {[p]}) (fifo_push Q_DELAYED p e) s) as Hg'.
  { pose proof (ac_phase _ _ _ _ (g_acct _ _ _ Hg) p i Hi) as Hph. unfold phase_ok, phase_n in Hph.
    rewrite Hw, Hrep in Hph.
    eapply (good_dispose H H _ e e p i i s 0%nat);
      [exact Hg|exact HFp|exact Hi|by rewrite Hw|apply only_refl|done|done|by rewrite Hph|].
    apply dispose_push; [|done|].
    - split; [apply Hg|done|done|done|]. apply (ac_owner _ _ _ _ (g_acct _ _ _ Hg) p i Hi). by rewrite Hw.
    - split; [|done]. unfold reported in *. exact Hrep. }
  unfold park_one. destruct (_ <=? now); (split; [|by eapply only_alter]); auto with gptps.
Qed.

Lemma step2b_good now H0 (ann : list ptr) e s :
  good (H0 ∪ list_to_set ann) e s → NoDup ann → (∀ x, x ∈ ann → (x ∉ H0 ∧ F !! x = None) ∧ parked_ok e x) →
  let '(e', s', h') := step2b now ann e s in good H0 e' s'.
Proof.
  unfold step2b. generalize no_held. revert e s. induction ann as [|p ann IH]; intros e s h Hg Hnd Hann.
  { simpl. by rewrite list_to_set_nil, union_empty_r_L in Hg. }
  simpl. apply NoDup_cons in Hnd as [Hp Hnd].
  destruct (Hann p ltac:(set_solver)) as ((HpH & HFp) & i & Hi & Hw & Hr & Hx).
  pose proof (park_one_good now _ e s h p i Hg ltac:(set_solver) HFp Hi Hr Hx) as Hpk.
  destruct (park_one now p e s h) as [[e1 s1] h1]. destruct Hpk as [Hg1 Hon]. apply IH.
  - by replace (H0 ∪ list_to_set ann) with ((H0 ∪ list_to_set (p :: ann)) ∖ {[p]} : gset ptr) by set_solver.
  - done.
  - intros x Hxa. destruct (Hann x ltac:(set_solver)) as [? ?]. split; [done|].
    eapply parked_only; [done| |done]. by intros ->.
Qed.

(** ** Steps 3 and 3b *)
Definition quiet (f : item → item) : Prop := ∀ i,
  inert f ∧ it_started (f i) = it_started i ∧ it_outcome (f i) = it_outcome i.

Lemma put_quiet_good H e s p f : quiet f → F !! p = None → good H e s → good H (put p f e) s.
Proof.
  intros Hf HFp [Hwf Hac HN HFe]. split; [| |done|].
  - apply wf_put; [|done]. by destruct (Hf zero_item).
  - apply (acct_similar _ _ _ e); [|done|done|exact Hac]. intros q. rewrite items_put.
    destruct (decide (p = q)) as [<-|].
    + rewrite lookup_alter_eq. destruct (e_items e !! p) as [i|]; [|done]. simpl.
      destruct (Hf i) as (Hi & ? & ?). destruct (Hi i) as (? & ? & ? & ?). done.
    + rewrite lookup_alter_ne by done. by destruct (e_items e !! q).
  - eapply frame_only; [exact HFe|exact HFp|by eapply only_alter].
Qed.
Lemma cancel_raise_good H e s p : F !! p = None → good H e s → good H (cancel_raise p e) s.
Proof. apply put_quiet_good. by intros i. Qed.
Lemma cancel_item_good H e s p : F !! p = None → good H e s → good H (cancel_item p e) s.
Proof. intros Hp Hg. apply cancel_raise_good; [done|]. apply put_quiet_good; [by intros i|done..]. Qed.

Lemma step3_good now H e s : good H e s → let '(e', s') := step3 now e s in good H e' s'.
Proof.
  intros Hg. unfold step3. apply (fold_good (good H) Q_RUNNING); [|done|apply Hg|done].
  intros e0 s0 p Hg0 Hp. unfold deadline_one. destruct (_ =? 0); [done|].
  destruct (_ <=? now); (split; [|done]).
  - apply cancel_raise_good; [by apply (queued_frame H e0 s0 p Q_RUNNING)|done].
  - by apply good_wake.
Qed.

(** A queued item that has had no closing event is given one. *)
Lemma closing_hand H e s q p i e1 st k fl (dead : bool) :
  good H e s → q = Q_INTAKE ∨ q = Q_DELAYED → full s = false →
  e_items e !! p = Some i → it_where i = q → only p e e1 → p ∉ H →
  in_hand ({[p]} ∪ H) e1 p (i <| it_where := Q_NONE |>) →
  (∀ svc ev, ev_kind ev = k → ev_status ev = st → closes svc ev = true) →
  let e2 := put p (λ i, i <| it_outcome := st |>) e1 in
  good H (if dead then dead_letter_push p e2 else item_drop p e2) (buffer (item_event e2 p k st fl) s).
Proof.
  intros Hg Hq Hf Hi Hw Hon Hp Hih Hc e2.
  set (f := λ i : item, i <| it_outcome := st |>) in *.
  assert (in_hand ({[p]} ∪ H) e2 p (f (i <| it_where := Q_NONE |>))) as Hih2.
  { unfold e2. hand_put. }
  replace H with (({[p]} ∪ H) ∖ {[p]}) by set_solver.
  eapply (good_dispose H ({[p]} ∪ H) _ e e2 p i _ s 0%nat);
    [exact Hg| |exact Hi| | | | | |by apply dispose_closing; [exact Hih2|done|intros svc; apply Hc]].
  - eapply item_frame; [exact Hg|exact Hi|]. by destruct Hq as [->| ->]; rewrite Hw.
  - by destruct Hq as [->| ->]; rewrite Hw.
  - eapply only_trans; [exact Hon|by eapply only_alter].
  - done.
  - done.
  - pose proof (ac_phase _ _ _ _ (g_acct _ _ _ Hg) p i Hi) as Hph. unfold phase_ok, phase_n in Hph.
    rewrite Hw in Hph. destruct Hq as [->| ->]; by destruct Hph as [_ ->].
Qed.

Lemma closing_good H e s q p e1 st k fl (dead : bool) :
  good H e s → q = Q_INTAKE ∨ q = Q_DELAYED → full s = false → fifo_pop q e = Some (p, e1) →
  (∀ svc ev, ev_kind ev = k → ev_status ev = st → closes svc ev = true) →
  let e2 := put p (λ i, i <| it_outcome := st |>) e1 in
  good H (if dead then dead_letter_push p e2 else item_drop p e2) (buffer (item_event e2 p k st fl) s).
Proof.
  intros Hg Hq Hf Hpop Hc.
  destruct (pop_in_hand _ e s q p e1 Hg ltac:(by destruct Hq as [->| ->]) Hpop)
    as (i & Hi & Hw & Hon & Hih & Hp & _).
  eapply (closing_hand H e s q p i e1); done.
Qed.

Lemma grace_one_eq p e s :
  grace_one p e s =
  let e2 := put p (λ i, i <| it_outcome := GPTPS_E_SHUTDOWN |>) e in
  let drop := bool_decide (p_on_failure (it_policy (get e p)) = DROP) in
  (if negb drop then dead_letter_push p e2 else item_drop p e2,
   buffer (item_event e2 p (if drop then EV_DROPPED else EV_DEAD_LETTERED) GPTPS_E_SHUTDOWN EV_FLAG_SHUTDOWN) s).
Proof. unfold grace_one. by case_bool_decide. Qed.

Lemma grace_one_good H e s q p e1 :
  good H e s → q = Q_INTAKE ∨ q = Q_DELAYED → full s = false → fifo_pop q e = Some (p, e1) →
  let '(e', s') := grace_one p e1 s in good H e' s'.
Proof.
  intros Hg Hq Hf Hpop. rewrite grace_one_eq. cbv zeta.
  eapply closing_good; [done|done|done|done|].
  intros svc ev Hk _. unfold closes. rewrite Hk. by case_bool_decide.
Qed.

Lemma grace_drain_good fuel H e s :
  good H e s → let '(e', s') := grace_drain fuel e s in good H e' s'.
Proof.
  revert e s. induction fuel as [|f IH]; intros e s Hg; cbn [grace_drain]; [done|].
  destruct (full s) eqn:Hf; [done|].
  destruct (fifo_pop Q_DELAYED e) as [[p e1]|] eqn:Hpop.
  - pose proof (grace_one_good H e s Q_DELAYED p e1 Hg ltac:(by right) Hf Hpop) as H1.
    destruct (grace_one p e1 s) as [e2 s2]. by apply IH.
  - destruct (fifo_pop Q_INTAKE e) as [[p e1]|] eqn:Hpop2; [|done].
    pose proof (grace_one_good H e s Q_INTAKE p e1 Hg ltac:(by left) Hf Hpop2) as H1.
    destruct (grace_one p e1 s) as [e2 s2]. by apply IH.
Qed.

Lemma fold_put_good H e s (f : engine → ptr → engine) l :
  (∀ e p, p ∈ l → good H e s → good H (f e p) s) → good H e s → good H (foldl f e l) s.
Proof.
  revert e. induction l as [|p l IH]; intros e Hf Hg; [done|]. simpl. apply IH.
  - intros e' p' Hp'. apply Hf. set_solver.
  - apply Hf; [set_solver|done].
Qed.

Lemma step3b_good now H e s : good H e s → let '(e', s', _) := step3b now e s in good H e' s'.
Proof.
  intros Hg. unfold step3b. destruct (_ && _); [|done].
  destruct (_ <=? now); [|by apply good_wake]. cbv zeta.
  pose proof (grace_drain_good (length (queue e Q_DELAYED) + length (queue e Q_INTAKE)) H e s Hg) as H1.
  destruct (grace_drain _ e s) as [e1 s1]. apply fold_put_good.
  { intros e0 p Hp Hg0. apply cancel_item_good; [by eapply (queued_frame H e1 s1 p Q_RUNNING)|done]. }
  destruct (queue e1 Q_DELAYED), (queue e1 Q_INTAKE); auto with gptps.
Qed.

(** ** Step 4 *)
Lemma good_ext H e e' s :
  e_items e' = e_items e → e_qs e' = e_qs e → e_next_handle e' = e_next_handle e →
  e_hidx e' = e_hidx e → e_regs e' = e_regs e → good H e s → good H e' s.
Proof.
  intros H1 H2 H3 H4 H5 [A B C D].
  split; [by apply (wf_ext H e)|by apply (acct_ext _ _ _ e)|congruence|by rewrite H1].
Qed.

Lemma wf_permute H e q l : l ≡ₚ queue e q → wf H e → wf H (set_queue q l e).
Proof.
  intros Hl [A B C D E IX G I]. split; try done.
  - intros q'. rewrite queue_cases. case_decide; [subst; by rewrite Hl|done].
  - intros q' p Hq. rewrite queue_cases. case_decide; [subst; rewrite Hl|]; by apply B.
Qed.

Lemma intake_resort_good H e s : good H e s → good H (intake_resort e) s.
Proof.
  intros [A B C D]. split; [apply wf_permute; [|done]|by apply (acct_ext _ _ _ e)|done|done].
  apply merge_sort_Permutation.
Qed.

Lemma rescore_good H e s : good H e s → good H (rescore e) s.
Proof.
  intros Hg. unfold rescore. destruct (e_sched e) as [f|]; [|done].
  destruct (queue e Q_INTAKE) as [|x l] eqn:Hq; [done|]. destruct (_ <? _); [|done].
  apply intake_resort_good, fold_put_good; [|done]. intros e0 p Hp Hg0. unfold rescore_one.
  apply put_quiet_good; [by intros i| |by apply (good_ext H e0)].
  apply (queued_frame H e s p Q_INTAKE Hg); [done|by rewrite Hq].
Qed.

Lemma admit_scan_in e l :
  match admit_scan e l with Stranded p | Best p => p ∈ l | Nothing => True end.
Proof.
  induction l as [|p l IH]; simpl; [done|]. destruct (res_never_fits e p); [set_solver|].
  destruct (fits e p); [set_solver|]. destruct (admit_scan e l); set_solver.
Qed.

Lemma admit_reject_good H e s p st :
  good H e s → p ∈ queue e Q_INTAKE → full s = false →
  let '(e', s') := admit_reject p st e s in good H e' s'.
Proof.
  intros Hg Hp Hf. destruct (remove_in_hand H e s Q_INTAKE p Hg eq_refl Hp)
    as (i & Hi & Hw & Hon & Hih & HpH).
  apply (closing_hand H e s Q_INTAKE p i (intake_unlink p e) st EV_DEAD_LETTERED 0 true); auto.
  intros svc ev Hk _. unfold closes. by rewrite Hk.
Qed.

(** Moving a queued item to another queue it has not started from. *)
Lemma requeue_good H e s p i e1 q' :
  good H e s → e_items e !! p = Some i → it_where i = Q_INTAKE → only p e e1 → p ∉ H →
  q' = Q_READY ∨ q' = Q_DELAYED →
  (∃ i1, in_hand ({[p]} ∪ H) e1 p i1 ∧ it_handle i1 = it_handle i ∧ it_reg i1 = it_reg i ∧
         it_started i1 = it_started i) →
  good H (fifo_push q' p e1) s.
Proof.
  intros Hg Hi Hw Hon Hp Hq (i1 & Hih & Hh & Hr & Hst).
  pose proof (ac_phase _ _ _ _ (g_acct _ _ _ Hg) p i Hi) as Hph. unfold phase_ok, phase_n in Hph.
  rewrite Hw in Hph. destruct Hph as [Hs0 Hn].
  replace H with (({[p]} ∪ H) ∖ {[p]}) by set_solver.
  eapply (good_dispose H ({[p]} ∪ H) _ e e1 p i i1 s 0%nat);
    [exact Hg|eapply item_frame; [exact Hg|exact Hi|by rewrite Hw]|exact Hi|by rewrite Hw|exact Hon|done|done|by rewrite Hn|].
  apply dispose_push; [done|by destruct Hq as [->| ->]|]. unfold phase_n, reported.
  destruct Hq as [->| ->]; simpl; by rewrite Hst, Hs0.
Qed.

Lemma defer_one_good now ra H e s p :
  good H e s → p ∈ queue e Q_INTAKE →
  let '(e', s') := defer_one now ra p e s in good H e' s'.
Proof.
  intros Hg Hp. destruct (remove_in_hand H e s Q_INTAKE p Hg eq_refl Hp)
    as (i & Hi & Hw & Hon & Hih & HpH).
  unfold defer_one. apply good_wake. set (f := λ i : item, i <| it_not_before_ms := _ |>).
  eapply requeue_good; [exact Hg|exact Hi|done| |done|by right|].
  - eapply only_trans; [exact Hon|by apply (only_alter p f)].
  - exists (f (i <| it_where := Q_NONE |>)). split_and!; [hand_put|done..].
Qed.

Lemma hand_ext H e e' p i :
  e_items e' = e_items e → e_qs e' = e_qs e → e_next_handle e' = e_next_handle e →
  e_hidx e' = e_hidx e → e_regs e' = e_regs e → in_hand H e p i → in_hand H e' p i.
Proof.
  intros H1 H2 H3 H4 H5 [A B C D E]. split; [by apply (wf_ext H e)|done|by rewrite H1|done|].
  by rewrite H5.
Qed.

Lemma admit_good H e s top best sn :
  good H e s → top ∈ queue e Q_INTAKE → best ∈ queue e Q_INTAKE → good H (admit_best top best sn e) s.
Proof.
  intros Hg Ht Hb. unfold admit_best.
  set (e0 := if decide (best = top) then e else _).
  assert (good H e0 s) as Hg0.
  { unfold e0. case_decide; [done|]. apply put_quiet_good; [by intros i|by apply (queued_frame H e s top Q_INTAKE)|done]. }
  assert (best ∈ queue e0 Q_INTAKE) as Hb0 by (unfold e0; by case_decide).
  destruct (remove_in_hand H e0 s Q_INTAKE best Hg0 eq_refl Hb0)
    as (i & Hi & Hw & Hon & Hih & HpH).
  change (fifo_remove Q_INTAKE best e0) with (intake_unlink best e0) in *.
  clearbody e0. set (e1 := intake_unlink best e0 <| e_reserved_mem ::= _ |> <| e_running ::= _ |>).
  assert (in_hand ({[best]} ∪ H) e1 best (i <| it_where := Q_NONE |>)) as Hih1.
  { eapply hand_ext; [..|exact Hih]; done. }
  assert (only best e0 e1) as Hon1 by (eapply only_trans; [exact Hon|by apply only_same]).
  destruct sn as [|cost|].
  - eapply requeue_good; [exact Hg0|exact Hi|done|exact Hon1|done|by left|]. by exists (i <| it_where := Q_NONE |>).
  - eapply requeue_good; [exact Hg0|exact Hi|done| |done|by left|].
    + eapply only_trans; [exact Hon1|by eapply only_alter].
    + set (f := λ i : item, i <| it_res := Some cost |>).
      exists (f (i <| it_where := Q_NONE |>)). split_and!; [|done..].
      refine (in_hand_put _ _ _ _ f _ _); [|by intros j]. eapply hand_ext; [..|exact Hih1]; done.
  - eapply requeue_good; [exact Hg0|exact Hi|done|exact Hon1|done|by left|]. by exists (i <| it_where := Q_NONE |>).
Qed.

Lemma admit_step_good now h top H e s :
  good H e s → top ∈ queue e Q_INTAKE →
  match admit_step now h top e s with
  | (Some (e', s'), _) => good H e' s'
  | (None, (e', s')) => good H e' s'
  end.
Proof.
  intros Hg Ht. unfold admit_step. pose proof (admit_scan_in e (queue e Q_INTAKE)) as Hin.
  destruct (admit_scan e (queue e Q_INTAKE)) as [p|best|]; [| |done].
  - destruct (full s) eqn:Hf; [by apply good_more|].
    pose proof (admit_reject_good H e s p GPTPS_E_BUDGET Hg Hin Hf). by destruct (admit_reject _ _ _ _).
  - destruct (held_back h best e); [done|]. destruct (_ && _); [done|].
    unfold run_constraints. destruct (run_constraints_loop _ _ _ _ _) as [[d ra] t].
    set (e1 := e <| e_tick := t |>).
    assert (good H e1 s) as Hg1 by (by apply (good_ext H e)).
    assert (best ∈ queue e1 Q_INTAKE) as Hin1 by done.
    assert (top ∈ queue e1 Q_INTAKE) as Ht1 by done.
    clearbody e1. clear Hin Hg Ht e. destruct d.
    + unfold take_snapshot. destruct (res_cost e1 best) as [cost|]; [|by apply admit_good].
      destruct (nres e1 =? 0); [by apply admit_good|]. unfold ask_alloc.
      assert (good H (e1 <| e_tick ::= S |>) s) as Hg2 by (by apply (good_ext H e1)).
      destruct (e_alloc e1 (e_tick e1)); [by apply admit_good|by apply good_wake].
    + destruct (full s) eqn:Hf; [by apply good_more|].
      pose proof (admit_reject_good H e1 s best GPTPS_E_DENIED Hg1 Hin1 Hf). by destruct (admit_reject _ _ _ _).
    + pose proof (defer_one_good now ra H e1 s best Hg1 Hin1). by destruct (defer_one _ _ _ _ _).
Qed.

Lemma admit_loop_good fuel now h H e s :
  good H e s → let '(e', s') := admit_loop fuel now h e s in good H e' s'.
Proof.
  revert e s. induction fuel as [|f IH]; intros e s Hg; simpl; [done|].
  destruct (queue e Q_INTAKE) as [|top l] eqn:Hq; [done|]. destruct (_ <? _); [|done].
  pose proof (admit_step_good now h top H e s Hg ltac:(rewrite Hq; set_solver)) as Hst.
  destruct (admit_step now h top e s) as [[[e1 s1]|] [e2 s2]]; [by apply IH|done].
Qed.

Lemma step4_good now pg h H e s : good H e s → let '(e', s') := step4 now pg h e s in good H e' s'.
Proof.
  intros Hg. unfold step4. destruct pg; [done|]. apply admit_loop_good. by apply rescore_good.
Qed.

(** ** Step 5 and the pass *)
Lemma hidx_trim_good H e s :
  HandleIndex.live (e_hidx e) ≤ SIZE_MAX / (8 * HandleIndex.sizeof_hslot) →
  good H e s → good H (hidx_trim e) s.
Proof.
  intros Hl [[A B C D E (m & Hm & Hmi) G I] Hac HN HFe]. unfold hidx_trim, ask_alloc.
  destruct (HandleIndex.hidx_trim_spec (e_alloc e (e_tick e)) 0 _ _ Hm Hl) as (x & Hx & Hx').
  split; [|by apply (acct_ext _ _ _ e)|done|done]. split; try done.
  exists m. split; [|done]. cbn [e_hidx update]. rewrite Hx. done.
Qed.

(** The index holds no more items than handles were given out. *)
Lemma index_bound H e : wf H e → 1 ≤ e_next_handle e →
  HandleIndex.live (e_hidx e) ≤ e_next_handle e - 1.
Proof.
  intros Hwf Hn. destruct (wf_index _ _ Hwf) as (m & Hm & Hmi).
  rewrite (HandleIndex.r_live _ _ Hm).
  assert (size m ≤ length (seqZ 1 (e_next_handle e - 1)))%nat as Hs.
  { rewrite <-size_dom. rewrite <-(size_list_to_set (C:=gset Z) (seqZ 1 _)) by apply NoDup_seqZ.
    apply subseteq_size. intros h (p & Hp)%elem_of_dom. apply elem_of_list_to_set, elem_of_seqZ.
    apply Hmi in Hp as (i & Hi & <- & _). pose proof (wf_range _ _ Hwf p i Hi). lia. }
  rewrite length_seqZ in Hs. lia.
Qed.

(** The engines a bounded history reaches: fewer than 2^56 submits. *)
Definition MAX_HANDLES : Z := 2 ^ 56.

Lemma engine_pass_good now H e :
  good H e (Pass [] 0 false) → 1 ≤ N ≤ MAX_HANDLES →
  let '(e', s') := engine_pass now e in good H e' s'.
Proof.
  intros Hg HN. unfold engine_pass. cbv zeta.
  pose proof (step1_good now H e _ Hg) as H1.
  destruct (step1 now e (Pass [] 0 false)) as [[e1 s1] ann]. destruct H1 as (G1 & Hnd & Hann).
  pose proof (step2_good now _ e1 s1 ann G1) as H2.
  destruct (step2 now e1 s1) as [e2 s2]. destruct H2 as [G2 Hann2].
  { intros x Hx. split; [set_solver|]. by apply Hann. }
  pose proof (step2b_good now H ann e2 s2 G2 Hnd) as H3.
  destruct (step2b now ann e2 s2) as [[e3 s3] hd].
  assert (good H e3 s3) as G3.
  { apply H3. intros x Hx. split; [by apply Hann|by apply Hann2]. }
  pose proof (step3_good now H e3 s3 G3) as G4. destruct (step3 now e3 s3) as [e4 s4].
  pose proof (step3b_good now H e4 s4 G4) as G5. destruct (step3b now e4 s4) as [[e5 s5] pg].
  pose proof (step4_good now pg hd H e5 s5 G5) as G6. destruct (step4 now pg hd e5 s5) as [e6 s6].
  apply hidx_trim_good; [|done].
  pose proof (index_bound H e6 (g_wf _ _ _ G6)) as Hb. rewrite (g_next _ _ _ G6) in Hb.
  specialize (Hb ltac:(lia)). etrans; [exact Hb|]. unfold MAX_HANDLES in HN.
  transitivity (2 ^ 56); [lia|]. by vm_compute.
Qed.

End facts.
End EnginePassFacts.
