(* ===== verification/EngineApiFacts.v ===== *)
(** * What the entry points preserve

    Submit, cancel, the worker's transitions, the removal of a type, the dead
    letters and the shutdown keep the engine well formed and the books balanced. *)

From S2P Require Import Prelude HandleIndex Engine EnginePass EngineApi.
From S2P Require Import EngineFacts EngineAcct EnginePassFacts.
Import Engine EnginePass EngineApi EngineFacts EngineAcct EnginePassFacts.

Module EngineApiFacts.

(** ** The books and what they do not depend on *)

Lemma closed_perm subs l l' h : l ≡ₚ l' → closed subs l h = closed subs l' h.
Proof. intros H. unfold closed. by rewrite H. Qed.

Lemma alter_id_map (m : gmap ptr item) p : alter id p m = m.
Proof.
  apply map_eq. intros x. destruct (decide (p = x)) as [<-|].
  - rewrite lookup_alter_eq. by destruct (m !! p).
  - by rewrite lookup_alter_ne.
Qed.

Lemma acct_perm subs ended l l' e : l ≡ₚ l' → acct subs ended l e → acct subs ended l' e.
Proof.
  intros Hp [A B C D]. pose proof (λ h, closed_perm subs l l' h Hp) as Hc. split.
  - intros p i Hi. unfold phase_ok. rewrite <-Hc. by apply A.
  - done.
  - intros h Hh. rewrite <-Hc. by apply C.
  - intros h Hh. rewrite <-Hc. by apply D.
Qed.

Lemma acct_ended subs ended ended' log e :
  (∀ p i, e_items e !! p = Some i → it_where i = Q_RUNNING → ended' !! p = ended !! p) →
  acct subs ended log e → acct subs ended' log e.
Proof.
  intros He [A B C D]. split; try done. intros p i Hi. specialize (A p i Hi).
  unfold phase_ok, phase_n in *. destruct (it_where i) eqn:Hw; try done. by rewrite (He p i Hi Hw).
Qed.

(** Registry slots may change in everything but being an always-up service. *)
Lemma acct_regs subs ended log e e' :
  e_items e' = e_items e → e_next_handle e' = e_next_handle e →
  (∀ p i r g, e_items e !! p = Some i → it_where i ≠ Q_DEAD → it_reg i = Some r →
     e_regs e !! r = Some g → ∃ g', e_regs e' !! r = Some g' ∧ always_up g' = always_up g) →
  acct subs ended log e → acct subs ended log e'.
Proof.
  intros H1 H2 H3 [A B C D]. split; rewrite ?H1, ?H2; try done.
  - intros p i Hi. destruct (decide (it_where i = Q_DEAD)) as [Hd|Hd].
    { unfold phase_ok, phase_n. by rewrite Hd. }
    specialize (A p i Hi). destruct (B p i Hi Hd) as (r & g & Hr & Hg & _).
    destruct (H3 p i r g Hi Hd Hr Hg) as (g' & Hg' & Hup).
    unfold phase_ok, phase_n, reported in *. simpl in *. rewrite Hr in *. simpl in *.
    by rewrite Hg, <-Hup in A; rewrite Hg'.
  - intros p i Hi Hd. destruct (B p i Hi Hd) as (r & g & Hr & Hg & Hs).
    destruct (H3 p i r g Hi Hd Hr Hg) as (g' & Hg' & Hup). exists r, g'. by rewrite Hup.
Qed.

Section facts.
Context (subs : gmap Z bool) (ended : gmap ptr status) (log : list event) (N : Z).
Context (F : gmap ptr item) (HF : map_Forall (λ _ i, it_where i = Q_NONE) F).
Local Abbreviation good := (good subs ended log N F).
Local Abbreviation in_hand := (in_hand subs).

Ltac hand_frame Hg Hi Hw :=
  eapply (item_frame _ _ _ _ _ HF); [exact Hg|exact Hi|
    first [by rewrite Hw|by rewrite Hw; intros ->|rewrite Hw; by destruct_or!; subst|by rewrite Hw; destruct_or?; simplify_eq]].

(** ** Cancel *)

Definition add_events (s : pass) (evs : list event) : pass := s <| pend ::= λ l, l ++ evs |>.

Lemma hidx_lookup_item H e h p :
  wf H e → HandleIndex.hidx_lookup (e_hidx e) h = Some p →
  ∃ i, e_items e !! p = Some i ∧ it_handle i = h ∧ it_indexed i = true.
Proof.
  intros Hwf. destruct (wf_index _ _ Hwf) as (m & Hm & Hmi).
  rewrite (HandleIndex.hidx_lookup_eq _ _ h Hm). apply Hmi.
Qed.

(** A queued item leaves play with its one closing event. *)
Lemma cancel_out_good H e s q p :
  good H e s → q = Q_INTAKE ∨ q = Q_DELAYED → p ∈ queue e q →
  let e1 := fifo_remove q p e in
  good H (item_drop p e1) (add_events s [item_event e1 p EV_FAILED GPTPS_E_CANCELLED 0]).
Proof.
  intros Hg Hq Hp e1. destruct (remove_in_hand _ _ _ _ _ HF H e s q p Hg ltac:(by destruct Hq as [->| ->]) Hp)
    as (i & Hi & Hw & Hon & Hih & HpH).
  pose proof (ih_owner _ _ _ _ _ Hih) as (r & g & Hr & Hgr & Hs).
  replace H with (({[p]} ∪ H) ∖ {[p]}) by set_solver.
  eapply (good_dispose _ _ _ _ _ HF H ({[p]} ∪ H) _ e e1 p i _ s 0%nat);
    [exact Hg|hand_frame Hg Hi Hw|exact Hi|by destruct Hq as [->| ->]; rewrite Hw|exact Hon| | | |
     eapply dispose_drop; [exact Hih|done| |]].
  - done.
  - done.
  - pose proof (ac_phase _ _ _ _ (g_acct _ _ _ _ _ _ _ _ Hg) p i Hi) as Hph. unfold phase_ok, phase_n in Hph.
    rewrite Hw in Hph. destruct Hq as [->| ->]; by destruct Hph as [_ ->].
  - constructor; [|done]. eapply event_handle. apply Hih.
  - rewrite (closed_event subs _ e1 p g); [done|apply Hih|done].
Qed.

Lemma gptps_cancel_good H e s h :
  good H e s →
  let '(_, e', evs) := gptps_cancel h e in good H e' (add_events s evs).
Proof.
  intros Hg. assert (good H e (add_events s [])) as Hg0.
  { destruct Hg as [A B C D]. split; [done| |done|done]. simpl. by rewrite app_nil_r. }
  unfold gptps_cancel. destruct (h =? 0); [done|]. destruct (e_stopping e); [done|].
  destruct (HandleIndex.hidx_lookup (e_hidx e) h) as [p|] eqn:Hl; [|done].
  destruct (hidx_lookup_item H e h p (g_wf _ _ _ _ _ _ _ _ Hg) Hl) as (i & Hi & Hh & Hx).
  rewrite (get_lookup _ _ _ Hi). destruct (it_where i) eqn:Hw; try done.
  - apply cancel_out_good; [done|by left|]. apply (wf_where _ _ (g_wf _ _ _ _ _ _ _ _ Hg)); eauto.
  - apply cancel_out_good; [done|by right|]. apply (wf_where _ _ (g_wf _ _ _ _ _ _ _ _ Hg)); eauto.
  - apply (cancel_item_good _ _ _ _ _ HF); [hand_frame Hg Hi Hw|done].
  - apply (cancel_item_good _ _ _ _ _ HF); [hand_frame Hg Hi Hw|done].
  - apply (cancel_item_good _ _ _ _ _ HF); [hand_frame Hg Hi Hw|done].
Qed.

(** ** The worker *)

Lemma worker_take_good now H e s :
  good H e s → (∀ p, p ∈ queue e Q_READY → ended !! p = None) →
  let '(_, e', evs) := worker_take now e in good H e' (add_events s evs).
Proof.
  intros Hg He. unfold worker_take.
  destruct (fifo_pop Q_READY e) as [[p e1]|] eqn:Hpop.
  2:{ destruct Hg as [A B C D]. split; [done| |done|done]. simpl. by rewrite app_nil_r. }
  destruct (pop_in_hand _ _ _ _ _ HF H e s Q_READY p e1 Hg eq_refl Hpop)
    as (i & Hi & Hw & Hon & Hih & HpH & Hq & _).
  pose proof (ac_phase _ _ _ _ (g_acct _ _ _ _ _ _ _ _ Hg) p i Hi) as Hph. unfold phase_ok, phase_n in Hph.
  rewrite Hw in Hph. destruct Hph as [Hst Hn].
  replace H with (({[p]} ∪ H) ∖ {[p]}) by set_solver.
  destruct (discarded e1 p).
  - set (f := λ i : item, i <| it_outcome := GPTPS_E_CANCELLED |>).
    assert (good (({[p]} ∪ H) ∖ {[p]}) (fifo_push Q_DONE p (put p f e1)) s) as [A B C D].
    { eapply (good_dispose _ _ _ _ _ HF H ({[p]} ∪ H) _ e (put p f e1) p i (f (i <| it_where := Q_NONE |>)) s 0%nat);
        [exact Hg|hand_frame Hg Hi Hw|exact Hi|by rewrite Hw| |done|done|by rewrite Hn|].
      - eapply only_trans; [exact Hon|by apply (only_alter p f)].
      - apply dispose_push; [|done|].
        + by apply in_hand_put.
        + unfold phase_n, reported. simpl. by rewrite Hst. }
    split; [done| |done|done]. simpl. by rewrite app_nil_r.
  - set (f := λ i : item, i <| it_deadline_ms := _ |> <| it_cancel := false |> <| it_started := true |>).
    set (e2 := put p f e1). set (i2 := f (i <| it_where := Q_NONE |>)).
    assert (in_hand ({[p]} ∪ H) e2 p i2) as Hih2 by (by apply in_hand_put).
    pose proof (ih_owner _ _ _ _ _ Hih2) as (r & g & Hr & Hgr & Hs).
    eapply (good_dispose _ _ _ _ _ HF H ({[p]} ∪ H) _ e e2 p i i2 s 0%nat);
      [exact Hg|hand_frame Hg Hi Hw|exact Hi|by rewrite Hw| |done|done|by rewrite Hn|].
    + eapply only_trans; [exact Hon|by apply (only_alter p f)].
    + assert (e_items (fifo_push Q_RUNNING p e2) !! p = Some (i2 <| it_where := Q_RUNNING |>)) as Hi3.
      { by rewrite items_push, lookup_alter_eq, (ih_item _ _ _ _ _ Hih2). }
      split_and!.
      * apply wf_push; [apply Hih2|set_solver|done| |done].
        by rewrite (get_lookup _ _ _ (ih_item _ _ _ _ _ Hih2)), (ih_idx _ _ _ _ _ Hih2).
      * by eapply only_alter.
      * eexists [_]. split_and!; [done|constructor; [|done]|].
        { simpl. by rewrite (get_lookup _ _ _ Hi3). }
        rewrite Hi3. split; [done|]. rewrite decide_False by done. split; [|done].
        unfold phase_n. simpl. split; [done|]. rewrite He by (rewrite Hq; set_solver).
        rewrite closed_one. unfold closes. simpl. by case_decide.
Qed.

(** The end of an attempt reports it; the item does not move. *)
Lemma execute_end_good now H e s p st raised :
  good H e s → p ∈ queue e Q_RUNNING → ended !! p = None →
  let '(st', ev) := execute_end now e p st raised in
  acct subs (<[p := st']> ended) (log ++ pend (add_events s [ev])) e.
Proof.
  intros [Hwf [A B C D] HN HFe] Hp He. unfold execute_end.
  set (st' := execute_status now e p st raised). set (fl := if _ && _ then _ else _).
  set (k := if decide (st' = GPTPS_OK) then EV_FINISHED else EV_FAILED).
  set (ev := item_event e p k st' fl).
  destruct (queued_item H e p Q_RUNNING Hwf ltac:(done) Hp) as (i & Hi & Hw).
  destruct (B p i Hi ltac:(by rewrite Hw)) as (r & g & Hr & Hgr & Hs).
  change (pend (add_events s [ev])) with (pend s ++ [ev]).
  rewrite app_assoc. set (l := log ++ pend s) in *.
  assert (∀ h, h ≠ it_handle i → closed subs (l ++ [ev]) h = closed subs l h) as Hoth.
  { intros h Hh. rewrite closed_app, closed_one. unfold ev, item_event. simpl.
    rewrite (get_lookup _ _ _ Hi), decide_False by done. lia. }
  pose proof (A p i Hi) as Hph. unfold phase_ok, phase_n in Hph. rewrite Hw, He in Hph.
  destruct Hph as [Hst Hn].
  split.
  - intros q j Hj. destruct (decide (q = p)) as [->|Hq].
    + rewrite Hi in Hj. injection Hj as <-. unfold phase_ok, phase_n. rewrite Hw.
      split; [done|]. rewrite lookup_insert_eq, closed_app, Hn.
      unfold ev. rewrite (closed_event subs i e p g _ _ _ Hi Hs). unfold reported, closes. simpl.
      rewrite Hst, Hr. simpl. rewrite Hgr. unfold k.
      destruct (decide (st' = GPTPS_OK)) as [->|Hok]; simpl.
      * by destruct (always_up g).
      * destruct (decide (st' = GPTPS_E_CANCELLED)); [by rewrite bool_decide_eq_true_2|].
        by rewrite bool_decide_eq_false_2.
    + specialize (A q j Hj). unfold phase_ok, phase_n in *.
      rewrite Hoth by (intros Heq; apply Hq; by eapply (wf_handle _ _ Hwf)).
      by rewrite lookup_insert_ne.
  - done.
  - intros h Hh. destruct (C h Hh) as [?|Hc]; [by left|].
    destruct (decide (h = it_handle i)) as [->|]; [|right; by rewrite Hoth].
    left. exists p, i. split_and!; [done|done|by rewrite Hw].
  - intros h Hh. pose proof (wf_range _ _ Hwf p i Hi). rewrite Hoth by lia. by apply D.
Qed.

(** The post makes the reported status the item's. *)
Lemma worker_post_good H e s p st :
  good H e s → p ∈ queue e Q_RUNNING → ended !! p = Some st → good H (worker_post p st e) s.
Proof.
  intros Hg Hp He. destruct (remove_in_hand _ _ _ _ _ HF H e s Q_RUNNING p Hg eq_refl Hp)
    as (i & Hi & Hw & Hon & Hih & HpH).
  pose proof (ac_phase _ _ _ _ (g_acct _ _ _ _ _ _ _ _ Hg) p i Hi) as Hph. unfold phase_ok, phase_n in Hph.
  rewrite Hw, He in Hph. destruct Hph as [Hst Hn]. unfold worker_post.
  set (f := λ i : item, i <| it_outcome := st |>).
  replace H with (({[p]} ∪ H) ∖ {[p]}) by set_solver.
  eapply (good_dispose _ _ _ _ _ HF H ({[p]} ∪ H) _ e (put p f (fifo_remove Q_RUNNING p e)) p i
            (f (i <| it_where := Q_NONE |>)) s (Nat.b2n (reported (e_regs e) (f i))));
    [exact Hg|hand_frame Hg Hi Hw|exact Hi|by rewrite Hw| |done|done|by rewrite Hn|].
  - eapply only_trans; [exact Hon|by apply (only_alter p f)].
  - apply dispose_push; [by apply in_hand_put|done|]. unfold phase_n. done.
Qed.

(** ** Detaching and draining *)

(** Items that are in play but not running, taken off a queue by a fold of removals
    (with [post] done to each: nothing, or the release of its budget). *)
Lemma detach_good post q l H e s :
  (∀ e p, let e' := post p e in
     e_items e' = e_items e ∨ ∃ f, e_items e' = alter f p (e_items e) ∧ quiet f) →
  (∀ e p, e_qs (post p e) = e_qs e ∧ e_next_handle (post p e) = e_next_handle e ∧
     e_hidx (post p e) = e_hidx e ∧ e_regs (post p e) = e_regs e) →
  live_q q = true → q ≠ Q_RUNNING →
  good H e s → NoDup l → l ⊆ queue e q →
  good (list_to_set l ∪ H) (foldl (λ e p, post p (fifo_remove q p e)) e l) s ∧
  (∀ q', q' ≠ q → queue (foldl (λ e p, post p (fifo_remove q p e)) e l) q' = queue e q').
Proof.
  intros Hpost Hpost2 Hq Hqr. revert H e. induction l as [|p l IH]; intros H e Hg Hnd Hl.
  { simpl. by rewrite union_empty_l_L. }
  apply NoDup_cons in Hnd as [Hp Hnd]. cbn [foldl].
  destruct (remove_in_hand _ _ _ _ _ HF H e s q p Hg Hq ltac:(set_solver))
    as (i & Hi & Hw & Hon & Hih & HpH).
  set (e1 := fifo_remove q p e) in *. set (e2 := post p e1).
  destruct (Hpost2 e1 p) as (E1 & E2 & E3 & E4).
  assert (∃ f, e_items e2 = alter f p (e_items e1) ∧ quiet f) as (f & Hit & Hqf).
  { destruct (Hpost e1 p) as [Heq|?]; [|done]. exists id. split; [|by intros j].
    unfold e2. by rewrite Heq, alter_id_map. }
  set (i1 := i <| it_where := Q_NONE |>) in *.
  destruct (Hqf i1) as (Hin & Hs1 & Hs2). destruct (Hin i1) as (H1 & H2 & H3 & H4).
  assert (good ({[p]} ∪ H) e2 s) as Hg2.
  { pose proof (ac_phase _ _ _ _ (g_acct _ _ _ _ _ _ _ _ Hg) p i Hi) as Hph.
    assert (phase_n ended (e_regs e) p (f i1) (closed subs (log ++ pend s) (it_handle i))) as Hph2.
    { unfold phase_ok, phase_n in *. rewrite H2. unfold reported in *. rewrite Hs1, Hs2, H4.
      simpl. rewrite Hw in Hph. destruct q; try done; destruct Hph as [Hst ->]; rewrite Hst; done. }
    assert (wf ({[p]} ∪ H) e2) as Hwf2.
    { eapply wf_similar; [| | | |exact (ih_wf _ _ _ _ _ Hih)]; try done.
      rewrite Hit. by apply structural_alter, inert_structural. }
    eapply (good_dispose _ _ _ _ _ HF H ({[p]} ∪ H) _ e e1 p i i1 s);
      [exact Hg|hand_frame Hg Hi Hw|exact Hi|by rewrite Hw; destruct q|exact Hon|done|done|done|].
    split_and!; [done|by eapply only_alter|]. exists []. split_and!; [by rewrite app_nil_r|done|].
    rewrite Hit, lookup_alter_eq, (ih_item _ _ _ _ _ Hih). simpl. split; [done|].
    rewrite H2. rewrite decide_False by done. rewrite closed_nil, Nat.add_0_r.
    split; [exact Hph2|exact H4]. }
  assert (∀ q', queue e2 q' = if decide (q = q') then filter (λ x, x ≠ p) (queue e q) else queue e q') as Hqu.
  { intros q'. unfold queue at 1, e2. rewrite E1. unfold e1, fifo_remove.
    change (queue (put p (λ i, i <| it_where := Q_NONE |>)
      (set_queue q (filter (λ x, x ≠ p) (queue e q)) e)) q' = if decide (q = q')
      then filter (λ x, x ≠ p) (queue e q) else queue e q').
    by rewrite queue_put, queue_cases. }
  destruct (IH ({[p]} ∪ H) e2 Hg2 Hnd) as [A B].
  { intros x Hx. rewrite Hqu, decide_True by done. apply list_elem_of_filter.
    split; [by intros ->|set_solver]. }
  split.
  - by replace (list_to_set (p :: l) ∪ H : gset ptr) with (list_to_set l ∪ ({[p]} ∪ H) : gset ptr) by set_solver.
  - intros q' Hq'. rewrite B by done. rewrite Hqu. by rewrite decide_False.
Qed.

Lemma fifo_detach_good f q H e s :
  live_q q = true → q ≠ Q_RUNNING → good H e s →
  let '(l, e') := fifo_detach f q e in
  good (list_to_set l ∪ H) e' s ∧ l = filter (λ p, f e p = true) (queue e q) ∧
  (∀ q', q' ≠ q → queue e' q' = queue e q').
Proof.
  intros Hq Hr Hg. unfold fifo_detach.
  set (l := filter _ _). assert (NoDup l) as Hnd by (apply NoDup_filter, (g_wf _ _ _ _ _ _ _ _ Hg)).
  destruct (detach_good (λ _ e, e) q l H e s) as [A B]; try done.
  - intros. by left.
  - intros x Hx. by apply list_elem_of_filter in Hx as [_ ?].
Qed.

Lemma release_quiet e p :
  (e_items (release p e) = e_items e ∨ ∃ f, e_items (release p e) = alter f p (e_items e) ∧ quiet f) ∧
  e_qs (release p e) = e_qs e ∧ e_next_handle (release p e) = e_next_handle e ∧
  e_hidx (release p e) = e_hidx e ∧ e_regs (release p e) = e_regs e.
Proof.
  destruct (items_release p e) as (f & Hit & Hf & Hf2). split.
  - right. exists f. split; [done|]. intros i. destruct (Hf2 i). done.
  - unfold release. by destruct (it_res _).
Qed.

Lemma fifo_detach_admitted_good r q H e s :
  live_q q = true → q ≠ Q_RUNNING → good H e s →
  let '(l, e') := fifo_detach_reg_admitted q r e in
  good (list_to_set l ∪ H) e' s ∧ l = filter (λ p, is_reg r e p = true) (queue e q) ∧
  (∀ q', q' ≠ q → queue e' q' = queue e q').
Proof.
  intros Hq Hr Hg. unfold fifo_detach_reg_admitted.
  set (l := filter _ _). assert (NoDup l) as Hnd by (apply NoDup_filter, (g_wf _ _ _ _ _ _ _ _ Hg)).
  destruct (detach_good release q l H e s) as [A B]; try done.
  - intros. apply release_quiet.
  - intros. apply release_quiet.
  - intros x Hx. by apply list_elem_of_filter in Hx as [_ ?].
Qed.

Lemma hidx_del_good H e s p :
  F !! p = None → good H e s → p ∈ H →
  good H (hidx_del p e) s ∧ (∀ x, it_indexed (get e x) = false ∨ x = p → it_indexed (get (hidx_del p e) x) = false).
Proof.
  intros HFp [Hwf Hac HN HFe] Hp. destruct (wf_hidx_del H e p Hwf Hp) as [Hwf' Hit].
  assert (e_next_handle (hidx_del p e) = e_next_handle e ∧ e_regs (hidx_del p e) = e_regs e) as [E1 E2].
  { unfold hidx_del. by destruct (it_indexed _). }
  split.
  - split; [done| |by rewrite E1|].
    2:{ eapply frame_only; [exact HF|exact HFe|exact HFp|by eapply only_alter]. }
    apply (acct_similar _ _ _ e); try done. intros x. rewrite Hit.
    destruct (decide (p = x)) as [<-|].
    + rewrite lookup_alter_eq. by destruct (e_items e !! p).
    + rewrite lookup_alter_ne by done. by destruct (e_items e !! x).
  - intros x Hx. unfold get. rewrite Hit. destruct (decide (p = x)) as [<-|].
    + rewrite lookup_alter_eq. by destruct (e_items e !! p).
    + rewrite lookup_alter_ne by done. destruct Hx as [Hx| ->]; done.
Qed.

Lemma index_drop_list_good l H e s :
  good H e s → list_to_set l ⊆ H → (∀ p, p ∈ l → F !! p = None) →
  good H (index_drop_list l e) s ∧
  (∀ x, it_indexed (get e x) = false ∨ x ∈ l → it_indexed (get (index_drop_list l e) x) = false).
Proof.
  unfold index_drop_list. revert e. induction l as [|p l IH]; intros e Hg Hl HFl; simpl.
  { split; [done|]. intros x [?|Hx]; [done|set_solver]. }
  destruct (hidx_del_good H e s p (HFl p ltac:(set_solver)) Hg ltac:(set_solver)) as [Hg1 Hx1].
  destruct (IH (hidx_del p e) Hg1 ltac:(set_solver) ltac:(set_solver)) as [A B]. split; [done|].
  intros x Hx. apply B. rewrite elem_of_cons in Hx. destruct Hx as [Hx|[->|Hx]]; [left|left|by right].
  - apply Hx1. by left.
  - apply Hx1. by right.
Qed.

Lemma drain_cancelled_good l H e s :
  good (list_to_set l ∪ H) e s → NoDup l → (∀ p, p ∈ l → p ∉ H ∧ F !! p = None) →
  (∀ p, p ∈ l → it_indexed (get e p) = false) →
  let '(evs, e') := drain_cancelled l e in good H e' (add_events s evs) ∧ e_regs e' = e_regs e.
Proof.
  revert e s. induction l as [|p l IH]; intros e s Hg Hnd Hdis Hx; simpl.
  { destruct Hg as [A B C D]. rewrite list_to_set_nil, union_empty_l_L in A.
    split; [|done]. split; [done| |done|done]. simpl. by rewrite app_nil_r. }
  apply NoDup_cons in Hnd as [Hp Hnd].
  assert (p ∈ (list_to_set (p :: l) ∪ H : gset ptr)) as Hin by set_solver.
  pose proof Hin as (i & Hi & Hw)%(wf_hand _ _ (g_wf _ _ _ _ _ _ _ _ Hg)).
  destruct (ac_owner _ _ _ _ (g_acct _ _ _ _ _ _ _ _ Hg) p i Hi ltac:(by rewrite Hw)) as (r & g & Hr & Hgr & Hs).
  pose proof (ac_phase _ _ _ _ (g_acct _ _ _ _ _ _ _ _ Hg) p i Hi) as Hph. unfold phase_ok, phase_n in Hph.
  rewrite Hw in Hph.
  rewrite terminal_reported_eq, (get_lookup _ _ _ Hi).
  set (ev := if reported (e_regs e) i then [] else [item_event e p EV_FAILED GPTPS_E_CANCELLED 0]).
  assert (good (list_to_set l ∪ H) (item_free p e) (add_events s ev)) as Hg1.
  { split; [| |apply Hg|].
    3:{ eapply frame_only; [exact HF|apply Hg|by apply (Hdis p); set_solver|apply only_free]. }
    - replace (list_to_set l ∪ H : gset ptr) with ((list_to_set (p :: l) ∪ H) ∖ {[p]} : gset ptr) by set_solver.
      apply wf_free; [apply Hg|done|apply Hx; set_solver].
    - simpl. rewrite app_assoc. eapply acct_step; [apply Hg|apply Hg|exact Hi|by rewrite Hw|apply only_free| |].
      + unfold ev. destruct (reported _ _); [done|]. constructor; [by apply event_handle|done].
      + unfold item_free. simpl. rewrite lookup_delete_eq. simpl. rewrite closed_app, Hph.
        unfold ev. destruct (reported _ _); [by rewrite closed_nil|].
        by rewrite (closed_event subs i e p g _ _ _ Hi Hs). }
  specialize (IH (item_free p e) (add_events s ev) Hg1 Hnd).
  destruct (drain_cancelled l (item_free p e)) as [evs e']. destruct IH as [A B].
  - intros x Hxl. apply Hdis. set_solver.
  - intros x Hxl. unfold get, item_free. simpl. rewrite lookup_delete_ne by (by intros ->).
    apply Hx. set_solver.
  - split; [|done]. destruct A as [A1 A2 A3 A4]. split; [done| |done|done].
    simpl in *. by rewrite (assoc_L (++) (pend s)) in *.
Qed.

End facts.
End EngineApiFacts.
