(* ===== verification/EngineMgmtFacts.v ===== *)
(** * Submitting, removing a type, stopping

    The remaining entry points: a submit adds one item and one handle, the removal
    of a type hands its backlog out and leaves nothing that names it, the shutdown
    leaves nothing at all. *)

From S2P Require Import Prelude HandleIndex Engine EnginePass EngineApi.
From S2P Require Import EngineFacts EngineAcct EnginePassFacts EngineApiFacts.
Import Engine EnginePass EngineApi EngineFacts EngineAcct EnginePassFacts EngineApiFacts.

Module EngineMgmtFacts.

(** ** Submit *)

(** A new item, unlinked and indexed. *)
Lemma wf_new H e p it :
  wf H e → e_items e !! p = None → it_handle it = e_next_handle e → it_where it = Q_NONE →
  1 ≤ e_next_handle e →
  (HandleIndex.live (e_hidx e) + 1) * 2 ≤ HandleIndex.nslots (HandleIndex.tab (e_hidx e)) →
  wf ({[p]} ∪ H) (hidx_put p (e <| e_next_handle := e_next_handle e + 1 |> <| e_items ::= <[p := it]> |>)).
Proof.
  intros [A B C D E F G I] Hp Hh Hw Hn Hl. set (e1 := e <| e_next_handle := _ |> <| e_items ::= _ |>).
  assert (e_items e1 !! p = Some it) as Hi1 by (unfold e1; simpl; by rewrite lookup_insert_eq).
  set (it' := it <| it_indexed := true |>).
  assert (e_items (hidx_put p e1) = <[p := it']> (e_items e)) as Hit.
  { unfold hidx_put. rewrite items_put.
    change (alter (λ i, i <| it_indexed := true |>) p (<[p := it]> (e_items e)) = <[p := it']> (e_items e)).
    rewrite (alter_insert _ _ p it) by (by rewrite lookup_insert_eq). by rewrite insert_insert_eq. }
  assert (∀ x j, e_items (hidx_put p e1) !! x = Some j ↔
    (x = p ∧ j = it') ∨ (x ≠ p ∧ e_items e !! x = Some j)) as Hlk.
  { intros x j. rewrite Hit. destruct (decide (p = x)) as [<-|].
    - rewrite lookup_insert_eq. naive_solver.
    - rewrite lookup_insert_ne by done. naive_solver. }
  split.
  - done.
  - intros q x Hq. change (queue (hidx_put p e1) q) with (queue e q). rewrite B by done. split.
    + intros (j & Hj & Hjw). exists j. split; [|done]. apply Hlk. right. split; [congruence|done].
    + intros (j & [[-> ->]|[_ Hj]]%Hlk & Hjw); [|eauto]. exfalso. apply Hq. rewrite <-Hjw. exact Hw.
  - intros x. rewrite elem_of_union, elem_of_singleton, C. split.
    + intros [->|(j & Hj & Hjw)].
      * exists it'. split; [|done]. apply Hlk. by left.
      * exists j. split; [|done]. apply Hlk. right. split; [congruence|done].
    + intros (j & [[-> ->]|[_ Hj]]%Hlk & Hjw); [by left|right; eauto].
  - intros x y j k [[-> ->]|[Hx Hj]]%Hlk [[-> ->]|[Hy Hk]]%Hlk Hjk; [done| | |by eapply D].
    + pose proof (E y k Hk). simpl in Hjk. lia.
    + pose proof (E x j Hj). simpl in Hjk. lia.
  - intros x j [[-> ->]|[Hx Hj]]%Hlk; change (e_next_handle (hidx_put p e1)) with (e_next_handle e + 1).
    + simpl. lia.
    + pose proof (E x j Hj). lia.
  - destruct F as (m & Hm & Hmi).
    assert (m !! e_next_handle e = None) as Hfresh.
    { destruct (m !! e_next_handle e) as [x|] eqn:Hx; [|done].
      apply Hmi in Hx as (j & Hj & Hjh & _). pose proof (E x j Hj). lia. }
    destruct (HandleIndex.hidx_put_spec (e_hidx e) m (e_next_handle e) p Hm ltac:(lia) Hfresh Hl)
      as (x' & Hx' & Hr'). exists (<[e_next_handle e := p]> m). split.
    + change (HandleIndex.repr (default (e_hidx e) (HandleIndex.hidx_put (e_hidx e)
        (it_handle (get e1 p)) p)) (<[e_next_handle e:=p]> m)).
      rewrite (get_lookup _ _ _ Hi1), Hh, Hx'. exact Hr'.
    + intros h x. rewrite lookup_insert_Some, Hmi. split.
      * intros [[<- <-]|[Hne (j & Hj & Hjh & Hjx)]].
        -- exists it'. split_and!; [apply Hlk; by left|done|done].
        -- exists j. split_and!; [|done|done]. apply Hlk. right. split; [congruence|done].
      * intros (j & [[-> ->]|[Hx Hj]]%Hlk & Hjh & Hjx).
        -- left. split; [|done]. rewrite <-Hjh. by symmetry.
        -- right. split; [|eauto]. pose proof (E x j Hj). lia.
  - intros x j [[-> ->]|[Hx Hj]]%Hlk Hjl; [done|by eapply G].
  - intros x j [[-> ->]|[Hx Hj]]%Hlk Hjl; [|by eapply I]. simpl in Hjl. congruence.
Qed.

(** Indexing and linking commute. *)
Lemma put_insert_swap H e p :
  is_Some (e_items e !! p) → wf H (intake_insert p (hidx_put p e)) → wf H (hidx_put p (intake_insert p e)).
Proof.
  intros [i Hi]. assert (∀ x, it_score (get (hidx_put p e) x) = it_score (get e x)) as Hs.
  { intros x. unfold get, hidx_put. rewrite items_put. destruct (decide (p = x)) as [<-|].
    - rewrite lookup_alter_eq. change (e_items (e <| e_hidx ::= _ |>)) with (e_items e). by rewrite Hi.
    - by rewrite lookup_alter_ne. }
  set (e1 := hidx_put p e). apply wf_ext.
  - unfold intake_insert, hidx_put. rewrite !items_set_queue, !items_put, ?items_set_queue, ?items_put.
    apply map_eq. intros x.
    change (alter (λ i, i <| it_indexed := true |>) p (alter (λ i, i <| it_seq := u64 (e_seq e + 1) |>
      <| it_where := Q_INTAKE |>) p (e_items e)) !! x = alter (λ i, i <| it_seq := u64 (e_seq e + 1) |>
      <| it_where := Q_INTAKE |>) p (alter (λ i, i <| it_indexed := true |>) p (e_items e)) !! x).
    destruct (decide (p = x)) as [<-|].
    + by rewrite !lookup_alter_eq, Hi.
    + by rewrite !lookup_alter_ne.
  - set (f := λ i : item, i <| it_seq := u64 (e_seq e + 1) |> <| it_where := Q_INTAKE |>).
    assert (∀ x, it_score (get (put p f (e1 <| e_seq ::= λ q, u64 (q + 1) |>)) x) =
      it_score (get (put p f (e <| e_seq ::= λ q, u64 (q + 1) |>)) x)) as Hs2.
    { intros x. destruct (decide (p = x)) as [<-|].
      - transitivity (it_score (f (i <| it_indexed := true |>))).
        + apply f_equal, get_put_eq.
          change (alter (λ i, i <| it_indexed := true |>) p (e_items e) !! p = Some (i <| it_indexed := true |>)).
          by rewrite lookup_alter_eq, Hi.
        + symmetry. transitivity (it_score (f i)); [|done]. by apply f_equal, get_put_eq.
      - rewrite !get_put_ne by done. apply Hs. }
    change (<[Q_INTAKE := filter (λ x, score (put p f (e <| e_seq ::= λ q, u64 (q + 1) |>)) p ≤
        score (put p f (e <| e_seq ::= λ q, u64 (q + 1) |>)) x) (queue e Q_INTAKE) ++
        p :: filter (λ x, score (put p f (e <| e_seq ::= λ q, u64 (q + 1) |>)) x <
        score (put p f (e <| e_seq ::= λ q, u64 (q + 1) |>)) p) (queue e Q_INTAKE)]> (e_qs e) =
      <[Q_INTAKE := filter (λ x, score (put p f (e1 <| e_seq ::= λ q, u64 (q + 1) |>)) p ≤
        score (put p f (e1 <| e_seq ::= λ q, u64 (q + 1) |>)) x) (queue e Q_INTAKE) ++
        p :: filter (λ x, score (put p f (e1 <| e_seq ::= λ q, u64 (q + 1) |>)) x <
        score (put p f (e1 <| e_seq ::= λ q, u64 (q + 1) |>)) p) (queue e Q_INTAKE)]> (e_qs e)).
    unfold score. f_equal. f_equal; [|f_equal]; apply list_filter_iff; intros x; by rewrite !Hs2.
  - done.
  - change (default (e_hidx e) (HandleIndex.hidx_put (e_hidx e) (it_handle (get (intake_insert p e) p)) p) =
      default (e_hidx e) (HandleIndex.hidx_put (e_hidx e) (it_handle (get e p)) p)).
    assert (it_handle (get (intake_insert p e) p) = it_handle (get e p)) as ->; [|done].
    rewrite (get_lookup _ _ _ Hi). set (f := λ i : item, i <| it_seq := u64 (e_seq e + 1) |> <| it_where := Q_INTAKE |>).
    transitivity (it_handle (f i)); [|done]. apply f_equal.
    by apply (get_put_eq p f (e <| e_seq ::= λ q, u64 (q + 1) |>)).
Qed.

(** A handle nobody has submitted has no events, whatever the books call it. *)
Lemma closed_subs_new subs log h b h' :
  subs !! h = None → closed subs log h = 0%nat ∨ h' ≠ h →
  closed (<[h := b]> subs) log h' = closed subs log h' ∨ (h' = h ∧ closed (<[h := b]> subs) log h = 0%nat).
Proof.
  intros Hh Hc. destruct (decide (h' = h)) as [->|Hne].
  - right. split; [done|]. destruct Hc as [Hc|]; [|done]. unfold closed in *.
    rewrite lookup_insert_eq. rewrite Hh in Hc. simpl in *. apply length_zero_iff_nil in Hc.
    apply length_zero_iff_nil. induction log as [|ev log IH]; [done|].
    rewrite filter_cons in Hc. rewrite filter_cons. case_decide as Hd; [done|].
    rewrite decide_False; [by apply IH|]. intros [H1 H2]. apply Hd. split; [done|].
    unfold closes in *. destruct (ev_kind ev), b; done.
  - left. unfold closed. by rewrite lookup_insert_ne.
Qed.

Section submit.
Context (subs : gmap Z bool) (ended : gmap ptr status) (log : list event) (N : Z).
Context (F : gmap ptr item) (HF : map_Forall (λ _ i, it_where i = Q_NONE) F).

Lemma submit_accept_good H e s now r g cost payload o :
  good subs ended log N F H e s → 1 ≤ N < MAX_HANDLES → (∀ h, N ≤ h → subs !! h = None) →
  e_regs e !! r = Some g →
  (HandleIndex.live (e_hidx e) + 1) * 2 ≤ HandleIndex.nslots (HandleIndex.tab (e_hidx e)) →
  let '(h, e', ev) := submit_accept now e r g cost payload o in
  h = N ∧ good (<[N := always_up g]> subs) ended log (N + 1) F H e' (add_events s [ev]).
Proof.
  intros [Hwf Hac HN HFe] HNr Hsubs Hg Hl. unfold submit_accept.
  set (p := fresh (dom (e_items e))). set (it := submit_item now e r g cost payload o).
  assert (e_items e !! p = None) as Hp by (apply not_elem_of_dom, is_fresh).
  assert (it_handle it = N) as Hith by done.
  assert (u64 (e_next_handle e + 1) = N + 1) as Hu.
  { rewrite HN. apply u64_small. unfold MAX_HANDLES in HNr. lia. }
  set (e1 := e <| e_next_handle ::= _ |> <| e_items ::= _ |>).
  assert (e1 = e <| e_next_handle := e_next_handle e + 1 |> <| e_items ::= <[p := it]> |>) as He1.
  { unfold e1. cbn [update e_next_handle]. simpl. by rewrite Hu, HN. }
  pose proof (wf_new H e p it Hwf Hp eq_refl eq_refl ltac:(lia) Hl) as Hwf1. rewrite <-He1 in Hwf1.
  assert (e_items e1 !! p = Some it) as Hi1 by (unfold e1; simpl; by rewrite lookup_insert_eq).
  assert (it_indexed (get (hidx_put p e1) p) = true) as Hx.
  { unfold get, hidx_put. rewrite items_put, lookup_alter_eq.
    change (e_items (e1 <| e_hidx ::= _ |>)) with (e_items e1). by rewrite Hi1. }
  pose proof (put_insert_swap _ e1 p ltac:(eauto)
    (wf_insert _ (hidx_put p e1) p Hwf1 ltac:(set_solver) Hx)) as Hwf2.
  assert (p ∉ H) as HpH. { intros (i & Hi & _)%(wf_hand _ _ Hwf). congruence. }
  replace (({[p]} ∪ H) ∖ {[p]}) with H in Hwf2 by set_solver.
  set (e2 := hidx_put p (intake_insert p e1)) in *.
  set (it2 := it <| it_seq := u64 (e_seq e + 1) |> <| it_where := Q_INTAKE |> <| it_indexed := true |>).
  assert (e_items e2 = <[p := it2]> (e_items e)) as Hit2.
  { change (alter (λ i, i <| it_indexed := true |>) p (alter (λ i, i <| it_seq := u64 (e_seq e + 1) |>
      <| it_where := Q_INTAKE |>) p (<[p := it]> (e_items e))) = <[p := it2]> (e_items e)).
    apply map_eq. intros x. destruct (decide (p = x)) as [<-|].
    - by rewrite !lookup_alter_eq, !lookup_insert_eq.
    - by rewrite !lookup_alter_ne, !lookup_insert_ne. }
  assert (e_next_handle e2 = N + 1) as Hn2 by (unfold e2; exact Hu).
  assert (e_regs e2 = e_regs e) as Hr2 by done.
  clearbody e2. split; [done|]. split; [done| |done|].
  2:{ rewrite Hit2. transitivity (e_items e); [done|]. by apply insert_subseteq. }
  destruct Hac as [A B C D]. set (ev := Event _ _ _ _ _ _ _).
  change (pend (add_events s [ev])) with (pend s ++ [ev]). rewrite app_assoc.
  set (l := log ++ pend s) in *. assert (ev_handle ev = N) as Hevh by exact Hith.
  assert (∀ h, h ≠ N → closed (<[N := always_up g]> subs) (l ++ [ev]) h = closed subs l h) as Hoth.
  { intros h Hh. rewrite closed_app, closed_one, decide_False by congruence.
    destruct (closed_subs_new subs l N (always_up g) h (Hsubs N ltac:(lia)) (or_intror Hh)) as [->|[? _]];
      [lia|done]. }
  assert (closed (<[N := always_up g]> subs) (l ++ [ev]) N = 0%nat) as HcN.
  { rewrite closed_app, closed_one. unfold closes. simpl.
    destruct (closed_subs_new subs l N (always_up g) N (Hsubs N ltac:(lia)) (or_introl (D N ltac:(lia))))
      as [Hc|[_ Hc]]; rewrite Hc, ?D by lia; by destruct (decide _). }
  split.
  - intros q j Hj. rewrite Hr2. unfold phase_ok. rewrite Hit2 in Hj. destruct (decide (p = q)) as [<-|].
    + rewrite lookup_insert_eq in Hj. injection Hj as <-.
      change (it_handle it2) with (it_handle it). by rewrite Hith, HcN.
    + rewrite lookup_insert_ne in Hj by done. pose proof (wf_range _ _ Hwf q j Hj).
      rewrite Hoth by lia. by apply A.
  - intros q j Hj Hw. rewrite Hr2. unfold owner_ok. rewrite Hit2 in Hj. destruct (decide (p = q)) as [<-|].
    + rewrite lookup_insert_eq in Hj. injection Hj as <-. exists r, g. split_and!; [done|done|].
      change (<[N:=always_up g]> subs !! it_handle it = Some (always_up g)).
      by rewrite Hith, lookup_insert_eq.
    + rewrite lookup_insert_ne in Hj by done. pose proof (wf_range _ _ Hwf q j Hj).
      rewrite lookup_insert_ne by lia. by apply (B q j).
  - intros h Hh. rewrite Hn2 in Hh. destruct (decide (h = N)) as [->|Hne].
    + left. exists p, it2. split_and!; [by rewrite Hit2, lookup_insert_eq|done|done].
    + rewrite Hoth by done. destruct (C h ltac:(lia)) as [(q & j & Hj & ? & ?)|?]; [left|by right].
      exists q, j. split_and!; [|done|done]. rewrite Hit2, lookup_insert_ne; [done|]. intros <-. congruence.
  - intros h Hh. rewrite Hn2 in Hh. rewrite Hoth by lia. apply D. lia.
Qed.

(** The whole of [submit_internal]: a refused submit changes nothing that the books
    read, an accepted one adds a handle in play. *)
Lemma submit_good H e s tid now name payload o :
  good subs ended log N F H e s → 1 ≤ N < MAX_HANDLES → (∀ h, N ≤ h → subs !! h = None) →
  match submit_internal tid now name payload o e with
  | (inr h, e', evs) => h = N ∧ ∃ g, registry_find tid e name = Some g ∧
      good (<[N := always_up g.2]> subs) ended log (N + 1) F H e' (add_events s evs)
  | (inl _, e', evs) => good subs ended log N F H e' (add_events s evs)
  end.
Proof.
  intros Hg HN Hsubs. unfold submit_internal.
  assert (∀ e', good subs ended log N F H e' s → good subs ended log N F H e' (add_events s [])) as H0.
  { intros e' [A B C D]. split; [done| |done|done]. simpl. by rewrite app_nil_r. }
  destruct (submit_alloc payload e) as [a e1] eqn:Ha.
  assert (∃ t, e1 = e <| e_tick := t |>) as [t He1].
  { unfold submit_alloc, ask_alloc in Ha. destruct payload; [|destruct (e_alloc _ _)];
      injection Ha as <- <-; eexists; by destruct e. }
  assert (registry_find tid e1 name = registry_find tid e name) as Hf by (by rewrite He1).
  assert (good subs ended log N F H e1 s) as Hg1 by (rewrite He1; by apply (good_ext _ _ _ _ _ H e)).
  assert (e_regs e1 = e_regs e) as Hr1 by (by rewrite He1).
  clear Ha He1 Hg. destruct (negb a); [by apply H0|]. destruct (e_stopping e1); [by apply H0|].
  destruct (registry_find tid e1 name) as [[r g]|] eqn:Hfind; [|by apply H0].
  destruct (negb (r_enabled g)); [by apply H0|].
  destruct (submit_check e1 g payload) as [st|cost]; [by apply H0|].
  unfold hidx_reserve, ask_alloc.
  destruct Hg1 as [Hwf Hac HN1 HFe]. destruct (wf_index _ _ Hwf) as (m & Hm & Hmi).
  destruct (HandleIndex.hidx_reserve_spec (e_alloc e1 (e_tick e1)) (e_hidx e1) m Hm)
    as (ok & x' & Hx & Hx' & _ & Hroom).
  change (e_hidx (e1 <| e_tick ::= S |>)) with (e_hidx e1). rewrite Hx.
  set (e2 := e1 <| e_tick ::= S |> <| e_hidx := x' |>).
  assert (good subs ended log N F H e2 s) as Hg2.
  { split; [|by apply (acct_ext _ _ _ e1)|done|done].
    destruct Hwf as [A B C D E Fx G I]. split; try done. by exists m. }
  destruct ok; cbn beta iota zeta delta [negb]; [|by apply H0].
  assert (e_regs e2 !! r = Some g) as Hreg.
  { change (e_regs e1 !! r = Some g). unfold registry_find, registry_holder in Hfind.
    destruct (head _) as [[r' g']|] eqn:Hh; [|done]. destruct (reg_hidden tid g'); [done|].
    injection Hfind as -> ->. apply head_Some_elem_of, list_elem_of_omap in Hh as (y & _ & Hy).
    destruct (e_regs e1 !! y) as [g'|] eqn:Hgy; [|done]. simpl in Hy. destruct (_ && _) in Hy; [|done].
    injection Hy as -> ->. exact Hgy. }
  pose proof (submit_accept_good H e2 s now r g cost payload o Hg2 HN Hsubs Hreg (Hroom eq_refl)) as Hs.
  destruct (submit_accept now e2 r g cost payload o) as [[h e3] ev]. destruct Hs as [-> Hs].
  split; [done|]. exists (r, g). split; [by rewrite Hf|exact Hs].
Qed.
End submit.

(** ** Dead letters *)

(** Dead letters are outside the books: forgetting some changes nothing. *)
Lemma acct_trim subs ended log e e' :
  (∀ q i, e_items e' !! q = Some i → it_where i ≠ Q_DEAD → e_items e !! q = Some i) →
  (∀ q i, e_items e !! q = Some i → it_where i ≠ Q_DEAD → e_items e' !! q = Some i) →
  e_next_handle e' = e_next_handle e → e_regs e' = e_regs e →
  acct subs ended log e → acct subs ended log e'.
Proof.
  intros H1 H2 H3 H4 [A B C D]. split; rewrite ?H3, ?H4; try done.
  - intros p i Hi. destruct (decide (it_where i = Q_DEAD)) as [Hd|Hd].
    { unfold phase_ok, phase_n. by rewrite Hd. }
    by apply A, H1.
  - intros p i Hi Hd. by apply (B p), Hd; apply H1.
  - intros h Hh. destruct (C h Hh) as [(p & i & Hi & ? & ?)|?]; [left|by right]. exists p, i. auto.
Qed.

Section mgmt.
Context (subs : gmap Z bool) (ended : gmap ptr status) (log : list event) (N : Z).
Context (F : gmap ptr item) (HF : map_Forall (λ _ i, it_where i = Q_NONE) F).
Local Abbreviation good := (good subs ended log N F).

Lemma frame_hand H e s p : good H e s → p ∉ H → F !! p = None.
Proof.
  intros [Hwf _ _ HFe] Hp. destruct (F !! p) as [i|] eqn:Hi; [|done]. exfalso. apply Hp.
  apply (wf_hand _ _ Hwf). exists i. split; [by apply (proj1 (map_subseteq_spec _ _) HFe)|].
  by apply (HF p).
Qed.

(** Writing a dead letter's name and type. *)
Lemma put_dead_good H e s p i f :
  good H e s → e_items e !! p = Some i → it_where i = Q_DEAD → structural f → good H (put p f e) s.
Proof.
  intros Hg Hi Hw Hf. assert (F !! p = None) as HFp by (eapply (item_frame _ _ _ _ _ HF); [done|done|congruence]).
  destruct Hg as [Hwf Hac HN HFe]. split; [by apply wf_put_structural| |done|].
  - apply (acct_trim _ _ _ e); [| |done|done|done].
    + intros q j Hj Hjw. rewrite items_put in Hj. apply lookup_alter_inv in Hj as (k & Hk & ->).
      case_decide; [|done]. subst q. exfalso. apply Hjw. destruct (Hf k) as (_ & -> & _). congruence.
    + intros q j Hj Hjw. rewrite items_put, lookup_alter_ne; [done|]. intros <-. congruence.
  - eapply frame_only; [exact HF|exact HFe|exact HFp|by eapply only_alter].
Qed.

Lemma item_own_name_good H e s p :
  good H e s → p ∈ queue e Q_DEAD →
  let '(ok, e') := item_own_name p e in
  good H e' s ∧ e_qs e' = e_qs e ∧ e_regs e' = e_regs e ∧ (∀ q, q ≠ p → e_items e' !! q = e_items e !! q).
Proof.
  intros Hg Hp. destruct (queued_item H e p Q_DEAD (g_wf _ _ _ _ _ _ _ _ Hg) ltac:(done) Hp) as (i & Hi & Hw).
  assert (∀ e1 n, e_items e1 = e_items e → good H e1 s →
    good H (put p (λ i, i <| it_name_owned := Some n |> <| it_reg := None |>) e1) s) as Hcut.
  { intros e1 n He1 Hg1. eapply put_dead_good; [done|by rewrite He1|done|by intros j]. }
  assert (∀ e1 n q, e_items e1 = e_items e → q ≠ p →
    e_items (put p (λ i, i <| it_name_owned := Some n |> <| it_reg := None |>) e1) !! q = e_items e !! q) as Hoth.
  { intros e1 n q He1 Hq. by rewrite items_put, lookup_alter_ne, He1. }
  unfold item_own_name. destruct (it_name_owned (get e p)) as [n|].
  { split_and!; [by apply Hcut|done|done|]. intros q Hq. by apply Hoth. }
  unfold ask_alloc. assert (good H (e <| e_tick ::= S |>) s) by (by apply (good_ext _ _ _ _ _ H e)).
  destruct (e_alloc e (e_tick e)); [|by split_and!].
  split_and!; [by apply Hcut|done|done|]. intros q Hq. by apply Hoth.
Qed.

Lemma detach_dead_letter_good H e s r :
  good H e s → let '(ok, e') := detach_dead_letter r e in
  good H e' s ∧ e_qs e' = e_qs e ∧ e_regs e' = e_regs e ∧
  (∀ q, q ∉ queue e Q_DEAD → e_items e' !! q = e_items e !! q).
Proof.
  intros Hg. unfold detach_dead_letter. set (l := queue e Q_DEAD) at 1.
  assert (l ⊆ queue e Q_DEAD) as Hl by done. clearbody l. generalize true at 1 as ok. revert e Hg Hl.
  induction l as [|p l IH]; intros e Hg Hl ok; [done|]. cbn [foldl].
  destruct (is_reg r e p); [|by apply IH; [|set_solver]].
  pose proof (item_own_name_good H e s p Hg ltac:(set_solver)) as H1.
  destruct (item_own_name p e) as [ok1 e1]. destruct H1 as (Hg1 & Hq1 & Hr1 & Hi1).
  assert (queue e1 Q_DEAD = queue e Q_DEAD) as Hqd by (unfold queue; by rewrite Hq1).
  specialize (IH e1 Hg1 ltac:(rewrite Hqd; set_solver) (ok && ok1)).
  destruct (foldl _ _ l) as [ok2 e2]. destruct IH as (A & B & C & D).
  split_and!; [done|congruence|congruence|]. intros q Hq. rewrite D by (by rewrite Hqd).
  apply Hi1. set_solver.
Qed.

End mgmt.

(** The letters a drain takes off the list. *)
Lemma item_own_name_wf H e p :
  wf H e → let '(ok, e') := item_own_name p e in
  wf H e' ∧ e_qs e' = e_qs e ∧ e_regs e' = e_regs e ∧ e_next_handle e' = e_next_handle e ∧
  (∀ q, q ≠ p → e_items e' !! q = e_items e !! q) ∧ (ok = false → e_items e' = e_items e).
Proof.
  intros Hwf. unfold item_own_name. destruct (it_name_owned (get e p)) as [n|].
  { split_and!; try done.
    - apply wf_put_structural; [by intros i|done].
    - intros q Hq. by rewrite items_put, lookup_alter_ne. }
  unfold ask_alloc. assert (wf H (e <| e_tick ::= S |>)) by (by apply (wf_ext H e)).
  destruct (e_alloc e (e_tick e)); [|done]. split_and!; try done.
  - apply wf_put_structural; [by intros i|done].
  - intros q Hq. by rewrite items_put, lookup_alter_ne.
Qed.

Lemma dead_letter_take_spec fuel named H e :
  wf H e → let '(l, e') := dead_letter_take fuel named e in
  NoDup l ∧ (∀ p, p ∈ l → p ∉ H) ∧ wf (list_to_set l ∪ H) e' ∧
  e_next_handle e' = e_next_handle e ∧ e_regs e' = e_regs e ∧
  (∀ p, p ∈ l → ∃ i, e_items e !! p = Some i ∧ it_where i = Q_DEAD) ∧
  (∀ p, p ∉ l → e_items e' !! p = e_items e !! p) ∧
  (∀ p, p ∈ l → ∃ i, e_items e' !! p = Some i ∧ it_indexed i = false).
Proof.
  assert (∀ H (e e' : engine), wf H e → wf H e' → e_next_handle e' = e_next_handle e → e_regs e' = e_regs e →
    e_items e' = e_items e → NoDup ([] : list ptr) ∧ (∀ p, p ∈ [] → p ∉ H) ∧ wf (list_to_set [] ∪ H) e' ∧
    e_next_handle e' = e_next_handle e ∧ e_regs e' = e_regs e ∧
    (∀ p, p ∈ [] → ∃ i, e_items e !! p = Some i ∧ it_where i = Q_DEAD) ∧
    (∀ p, p ∉ [] → e_items e' !! p = e_items e !! p) ∧
    (∀ p, p ∈ [] → ∃ i, e_items e' !! p = Some i ∧ it_indexed i = false)) as Hnil.
  { clear. intros H e e' H1 H2 H3 H4 H5. split_and!; try done; try by intros p Hp%not_elem_of_nil.
    - constructor.
    - by rewrite list_to_set_nil, union_empty_l_L.
    - intros p _. by rewrite H5. }
  revert H e. induction fuel as [|f IH]; intros H e Hwf; [by apply Hnil|]. cbn [dead_letter_take].
  destruct (queue e Q_DEAD) as [|p rest] eqn:Hq; [by apply Hnil|].
  assert (∃ i, e_items e !! p = Some i ∧ it_where i = Q_DEAD) as (i & Hi & Hw).
  { apply (wf_where _ _ Hwf); [done|]. rewrite Hq. apply elem_of_cons. by left. }
  set (b := if named then (true, e) else item_own_name p e).
  assert (let '(ok, e1) := b in wf H e1 ∧ e_qs e1 = e_qs e ∧ e_regs e1 = e_regs e ∧
    e_next_handle e1 = e_next_handle e ∧ (∀ q, q ≠ p → e_items e1 !! q = e_items e !! q) ∧
    (ok = false → e_items e1 = e_items e)) as H1.
  { unfold b. destruct named; [done|by apply item_own_name_wf]. }
  destruct b as [ok e1]. destruct H1 as (Hwf1 & Hqs1 & Hr1 & Hn1 & Hit1 & Hf1).
  destruct ok; [|by apply Hnil; try done; apply Hf1].
  destruct (fifo_pop Q_DEAD e1) as [[p' e2]|] eqn:Hpop.
  2:{ unfold fifo_pop, queue in Hpop, Hq. rewrite Hqs1, Hq in Hpop. done. }
  destruct (wf_pop H e1 p' Q_DEAD e2 Hwf1 ltac:(done) Hpop) as (Hwf2 & Hin & _).
  assert (p' = p) as ->. { unfold fifo_pop, queue in Hpop, Hq. rewrite Hqs1, Hq in Hpop. congruence. }
  destruct (items_pop _ _ _ _ Hpop) as (Hit2 & Hn2 & Hr2 & _).
  destruct (queued_item H e1 p Q_DEAD Hwf1 ltac:(done) Hin) as (i1 & Hi1 & Hw1).
  pose proof (wf_dead _ _ Hwf1 p i1 Hi1 Hw1) as Hx1.
  assert (p ∉ H) as HpH. { intros (k & Hk & ?)%(wf_hand _ _ Hwf1). congruence. }
  set (e3 := e2 <| e_dead_letter_count ::= _ |>).
  assert (wf ({[p]} ∪ H) e3) as Hwf3 by (by apply (wf_ext _ e2)).
  specialize (IH ({[p]} ∪ H) e3). destruct (dead_letter_take f named e3) as [l e4].
  destruct (IH Hwf3) as (A & B & C & D & E & G & I & J).
  assert (p ∉ l) as Hpl by (intros Hin'; apply (B p Hin'), elem_of_union_l, elem_of_singleton; done).
  split_and!.
  - by constructor.
  - intros q [->|Hq']%elem_of_cons; [done|]. specialize (B q Hq'). clear -B. set_solver.
  - rewrite list_to_set_cons, (comm_L (∪) {[p]}), <-(assoc_L (∪)). exact C.
  - rewrite D. unfold e3. simpl. congruence.
  - rewrite E. unfold e3. simpl. congruence.
  - intros q [->|Hq']%elem_of_cons; [eauto|]. destruct (G q Hq') as (k & Hk & Hkw).
    change (e_items e2 !! q = Some k) in Hk. rewrite Hit2, lookup_alter_ne in Hk by (intros <-; done).
    rewrite Hit1 in Hk by (intros <-; done). eauto.
  - intros q [Hqp Hql]%not_elem_of_cons. rewrite I by done. change (e_items e2 !! q = e_items e !! q).
    rewrite Hit2, lookup_alter_ne by done. by apply Hit1.
  - intros q [->|Hq']%elem_of_cons; [|by apply J]. rewrite I by done.
    change (∃ k, e_items e2 !! p = Some k ∧ it_indexed k = false).
    rewrite Hit2, lookup_alter_eq, Hi1. by eexists.
Qed.

Lemma free_list_spec l H e :
  wf (list_to_set l ∪ H) e → NoDup l → (∀ p, p ∈ l → p ∉ H) →
  (∀ p, p ∈ l → it_indexed (get e p) = false) →
  let e' := foldl (λ e p, item_free p e) e l in
  wf H e' ∧ e_next_handle e' = e_next_handle e ∧ e_regs e' = e_regs e ∧
  (∀ q, q ∉ l → e_items e' !! q = e_items e !! q) ∧ (∀ q, q ∈ l → e_items e' !! q = None).
Proof.
  revert e. induction l as [|p l IH]; intros e Hwf Hnd Hdis Hx; cbn [foldl].
  { rewrite list_to_set_nil, union_empty_l_L in Hwf. split_and!; try done.
    by intros q ?%not_elem_of_nil. }
  apply NoDup_cons in Hnd as [Hp Hnd].
  assert (wf (list_to_set l ∪ H) (item_free p e)) as Hwf1.
  { replace (list_to_set l ∪ H : gset ptr) with ((list_to_set (p :: l) ∪ H) ∖ {[p]} : gset ptr).
    - apply wf_free; [done|set_solver|apply Hx; set_solver].
    - assert (p ∉ H) by (apply Hdis; set_solver). clear -Hp H0. set_solver. }
  destruct (IH (item_free p e) Hwf1 Hnd) as (A & B & C & D & E).
  - intros q Hq. apply Hdis. set_solver.
  - intros q Hq. unfold get, item_free. simpl. rewrite lookup_delete_ne by (by intros ->).
    apply Hx. set_solver.
  - split_and!; [done|done|done| |].
    + intros q [Hqp Hql]%not_elem_of_cons. rewrite D by done. unfold item_free. simpl.
      by rewrite lookup_delete_ne.
    + intros q [->|Hq]%elem_of_cons; [|by apply E]. rewrite D by done. unfold item_free. simpl.
      by rewrite lookup_delete_eq.
Qed.

(** [gptps_dead_letter_drain] touches nothing but dead letters. *)
Lemma dead_letter_drain_good subs ended log N F H e s cb :
  map_Forall (λ _ i, it_where i = Q_NONE) F →
  good subs ended log N F H e s →
  let '(_, _, e') := gptps_dead_letter_drain cb e in good subs ended log N F H e' s.
Proof.
  intros HF [Hwf Hac HN HFe]. unfold gptps_dead_letter_drain.
  pose proof (dead_letter_take_spec (length (queue e Q_DEAD)) (negb cb) H e Hwf) as Ht.
  destruct (dead_letter_take _ _ e) as [l e1]. destruct Ht as (A & B & C & D & E & G & I & J).
  destruct (free_list_spec l H e1 C A B) as (A' & B' & C' & D' & E').
  { intros p (i & Hi & Hx)%J. by rewrite (get_lookup _ _ _ Hi). }
  set (e2 := foldl (λ e p, item_free p e) e1 l) in *.
  assert (∀ q, q ∉ l → e_items e2 !! q = e_items e !! q) as Hk.
  { intros q Hq. by rewrite D', I. }
  split; [done| |congruence|].
  - apply (acct_trim _ _ _ e); [| |congruence|congruence|done].
    + intros q i Hi _. destruct (decide (q ∈ l)) as [Hq|Hq]; [by rewrite E' in Hi|by rewrite <-Hk].
    + intros q i Hi Hw. destruct (decide (q ∈ l)) as [Hq|Hq]; [|by rewrite Hk].
      destruct (G q Hq) as (j & Hj & ?). congruence.
  - apply map_subseteq_spec. intros q i Hi.
    assert (e_items e !! q = Some i) as Hqe by (by apply (proj1 (map_subseteq_spec _ _) HFe)).
    rewrite Hk; [done|]. intros (j & Hj & Hw)%G. pose proof (HF q i Hi). simpl in *. congruence.
Qed.

(** ** Taking items out of play *)

(** The items a critical section has moved to its local list. *)
Record took (Q : option rid → Prop) (subs : gmap Z bool) (ended : gmap ptr status) (log : list event)
    (N : Z) (F : gmap ptr item) (H : gset ptr) (s : pass) (e : engine) (l : list ptr) (e' : engine) : Prop := {
  tk_nodup : NoDup l;
  tk_new : ∀ p, p ∈ l → p ∉ H;
  tk_reg : ∀ p, p ∈ l → Q (it_reg (get e' p));
  tk_good : good subs ended log N F (list_to_set l ∪ H) e' s;
  tk_same : ∀ p, it_reg (get e' p) = it_reg (get e p);
  tk_regs : e_regs e' = e_regs e }.

Lemma took_nil Q subs ended log N F H s e e' :
  good subs ended log N F H e' s → (∀ p, it_reg (get e' p) = it_reg (get e p)) → e_regs e' = e_regs e →
  took Q subs ended log N F H s e [] e'.
Proof.
  intros Hg H1 H2. split; try done; try by intros p ?%not_elem_of_nil.
  - constructor.
  - by rewrite list_to_set_nil, union_empty_l_L.
Qed.

Lemma took_trans Q subs ended log N F H s e l1 e1 l2 e2 :
  took Q subs ended log N F H s e l1 e1 → took Q subs ended log N F (list_to_set l1 ∪ H) s e1 l2 e2 →
  took Q subs ended log N F H s e (l1 ++ l2) e2.
Proof.
  intros [A B C D E G] [A' B' C' D' E' G']. split.
  - apply NoDup_app. split_and!; [done| |done]. intros x Hx Hx2. apply (B' x Hx2). set_solver.
  - intros p [Hp|Hp]%elem_of_app; [by apply B|]. intros HpH. apply (B' p Hp). set_solver.
  - intros p [Hp|Hp]%elem_of_app; [rewrite E'; by apply C|by apply C'].
  - rewrite list_to_set_app_L, (comm_L (∪) (list_to_set l1)), <-(assoc_L (∪)). exact D'.
  - intros p. by rewrite E'.
  - congruence.
Qed.

Lemma reg_put_same f p e : (∀ i, it_reg (f i) = it_reg i) → ∀ q, it_reg (get (put p f e) q) = it_reg (get e q).
Proof.
  intros Hf q. unfold get. rewrite items_put. destruct (decide (p = q)) as [<-|].
  - rewrite lookup_alter_eq. destruct (e_items e !! p); simpl; [apply Hf|done].
  - by rewrite lookup_alter_ne.
Qed.
Lemma reg_remove_same q p e x : it_reg (get (fifo_remove q p e) x) = it_reg (get e x).
Proof. unfold fifo_remove. by rewrite reg_put_same. Qed.
Lemma reg_release_same p e x : it_reg (get (release p e) x) = it_reg (get e x).
Proof. unfold release. destruct (it_res _); [|done]. by rewrite reg_put_same. Qed.
Lemma reg_hidx_del_same p e x : it_reg (get (hidx_del p e) x) = it_reg (get e x).
Proof. unfold hidx_del. destruct (it_indexed _); [|done]. by rewrite reg_put_same. Qed.
Lemma fold_same {A} (f : engine → ptr → engine) (g : engine → A) l e :
  (∀ e p, g (f e p) = g e) → g (foldl f e l) = g e.
Proof. intros Hf. revert e. induction l as [|p l IH]; intros e; [done|]. simpl. by rewrite IH. Qed.
Lemma regs_release_same p e : e_regs (release p e) = e_regs e.
Proof. unfold release. by destruct (it_res _). Qed.
Lemma regs_hidx_del_same p e : e_regs (hidx_del p e) = e_regs e.
Proof. unfold hidx_del. by destruct (it_indexed _). Qed.

(** Draining only frees. *)
Lemma drain_cancelled_items l e p i :
  e_items (drain_cancelled l e).2 !! p = Some i → e_items e !! p = Some i.
Proof.
  revert e. induction l as [|x l IH]; intros e; [done|]. simpl.
  specialize (IH (item_free x e)). destruct (drain_cancelled l (item_free x e)) as [evs e'].
  simpl in *. intros Hi%IH. unfold item_free in Hi. simpl in Hi. by apply lookup_delete_Some in Hi as [_ ?].
Qed.

Lemma drain_cancelled_qs l e : e_qs (drain_cancelled l e).2 = e_qs e.
Proof.
  revert e. induction l as [|x l IH]; intros e; [done|]. simpl.
  specialize (IH (item_free x e)). by destruct (drain_cancelled l (item_free x e)).
Qed.
Lemma fold_hidx_del_qs l e : e_qs (index_drop_list l e) = e_qs e.
Proof. apply (fold_same _ e_qs). intros e0 p. unfold hidx_del. by destruct (it_indexed _). Qed.

Section took.
Context (subs : gmap Z bool) (ended : gmap ptr status) (log : list event) (N : Z).
Context (F : gmap ptr item) (HF : map_Forall (λ _ i, it_where i = Q_NONE) F).
Local Abbreviation good := (good subs ended log N F).
Local Abbreviation took Q := (took Q subs ended log N F).

(** Every kind of detaching takes. *)
Lemma took_detach Q post f q H e s :
  (∀ e p, let e' := post p e in
     e_items e' = e_items e ∨ ∃ f, e_items e' = alter f p (e_items e) ∧ quiet f) →
  (∀ e p, e_qs (post p e) = e_qs e ∧ e_next_handle (post p e) = e_next_handle e ∧
     e_hidx (post p e) = e_hidx e ∧ e_regs (post p e) = e_regs e) →
  (∀ p e x, it_reg (get (post p e) x) = it_reg (get e x)) →
  live_q q = true → q ≠ Q_RUNNING → good H e s → (∀ p, f p = true → Q (it_reg (get e p))) →
  let l := filter (λ p, f p = true) (queue e q) in
  took Q H s e l (foldl (λ e p, post p (fifo_remove q p e)) e l).
Proof.
  intros H1 H2 H3 Hq Hr Hg HQ l.
  assert (NoDup l) as Hnd by (apply NoDup_filter, (g_wf _ _ _ _ _ _ _ _ Hg)).
  assert (l ⊆ queue e q) as Hl by (intros x Hx; by apply list_elem_of_filter in Hx as [_ ?]).
  destruct (detach_good _ _ _ _ _ HF post q l H e s H1 H2 Hq Hr Hg Hnd Hl) as [A _].
  assert (∀ x, it_reg (get (foldl (λ e p, post p (fifo_remove q p e)) e l) x) = it_reg (get e x)) as Hs.
  { intros x. apply (fold_same _ (λ e, it_reg (get e x))). intros e0 p. by rewrite H3, reg_remove_same. }
  split; try done.
  - intros p Hp%Hl HpH. eapply (hand_not_queued H e p q); [apply Hg|done|by intros ->|done].
  - intros p Hp. rewrite Hs. apply HQ. by apply list_elem_of_filter in Hp as [? _].
  - apply (fold_same _ e_regs). intros e0 p. by destruct (H2 (fifo_remove q p e0) p) as (_ & _ & _ & ->).
Qed.

Lemma took_plain Q f q H e s :
  live_q q = true → q ≠ Q_RUNNING → good H e s → (∀ p, f e p = true → Q (it_reg (get e p))) →
  let '(l, e') := fifo_detach f q e in took Q H s e l e'.
Proof.
  intros Hq Hr Hg HQ. unfold fifo_detach. apply (took_detach Q (λ _ e, e) (f e)); try done.
  intros. by left.
Qed.
Lemma took_reg r q H e s :
  live_q q = true → q ≠ Q_RUNNING → good H e s →
  let '(l, e') := fifo_detach_reg q r e in took (λ x, x = Some r) H s e l e'.
Proof. intros Hq Hr Hg. apply took_plain; try done. by intros p ?%bool_decide_eq_true. Qed.
Lemma took_admitted r q H e s :
  live_q q = true → q ≠ Q_RUNNING → good H e s →
  let '(l, e') := fifo_detach_reg_admitted q r e in took (λ x, x = Some r) H s e l e'.
Proof.
  intros Hq Hr Hg. unfold fifo_detach_reg_admitted. apply (took_detach _ release (is_reg r e)); try done.
  - intros. apply release_quiet.
  - intros. apply release_quiet.
  - intros. apply reg_release_same.
  - by intros p ?%bool_decide_eq_true.
Qed.

(** And out of the index. *)
Lemma took_index Q H s e0 l e :
  took Q H s e0 l e → good H e0 s →
  took Q H s e0 l (index_drop_list l e) ∧ ∀ p, p ∈ l → it_indexed (get (index_drop_list l e) p) = false.
Proof.
  intros [A B C D E G] Hg0.
  destruct (index_drop_list_good _ _ _ _ _ HF l (list_to_set l ∪ H) e s D) as [D' I].
  - set_solver.
  - intros p Hp. eapply (frame_hand _ _ _ _ _ HF H e0 s); [done|by apply B].
  - assert (∀ x, it_reg (get (index_drop_list l e) x) = it_reg (get e x)) as Hs.
    { intros x. apply (fold_same _ (λ e, it_reg (get e x))). intros e1 p. apply reg_hidx_del_same. }
    split; [|intros p Hp; apply I; by right]. split; try done.
    + intros p Hp. rewrite Hs. by apply C.
    + intros p. by rewrite Hs.
    + rewrite <-G. apply (fold_same _ e_regs). intros e1 p. apply regs_hidx_del_same.
Qed.

(** ** Removing a type *)

Lemma put_reg_good r f H e s :
  (∀ g, always_up (f g) = always_up g) → good H e s → good H (put_reg r f e) s.
Proof.
  intros Hf [A B C D]. split; [by apply (wf_ext H e)| |done|done].
  apply (acct_regs _ _ _ e); try done. intros p i r' g Hi Hw Hr Hg. unfold put_reg. simpl.
  destruct (decide (r = r')) as [<-|].
  - rewrite lookup_alter_eq, Hg. eexists. split; [done|apply Hf].
  - rewrite lookup_alter_ne by done. by eexists.
Qed.

(** What the first critical section of a removal has done: the type is a tombstone and
    [l] is what it took out of play. *)
Record removal (H : gset ptr) (s : pass) (e : engine) (r : rid) (l : list ptr) (e' : engine) : Prop := {
  rm_good : good (list_to_set l ∪ H) e' s;
  rm_nodup : NoDup l;
  rm_new : ∀ p, p ∈ l → p ∉ H;
  rm_item : ∀ p, p ∈ l → it_reg (get e' p) = Some r ∧ it_indexed (get e' p) = false;
  rm_same : ∀ p, it_reg (get e' p) = it_reg (get e p);
  rm_regs : ∃ f, e_regs e' = alter f r (e_regs e) ∧
    (∀ g, r_removed (f g) = true ∧ r_name (f g) = r_name g ∧ always_up (f g) = always_up g) }.

Lemma removal_took r f H e s l e' :
  (∀ g, r_removed (f g) = true ∧ r_name (f g) = r_name g ∧ always_up (f g) = always_up g) →
  took (λ x, x = Some r) H s (put_reg r f e) l e' → (∀ p, p ∈ l → it_indexed (get e' p) = false) →
  removal H s e r l e'.
Proof.
  intros Hf [A B C D E G] Hx. split; try done.
  - intros p Hp. split; [by apply C|by apply Hx].
  - exists f. split; [by rewrite G|done].
Qed.

Lemma removal_mono r f f2 H e s l e' :
  (∀ g, r_removed (f g) = true ∧ r_name (f g) = r_name g ∧ always_up (f g) = always_up g) →
  took (λ x, x = Some r) H s (put_reg r f2 (put_reg r f e)) l e' →
  (∀ g, r_removed (f2 g) = r_removed g ∧ r_name (f2 g) = r_name g ∧ always_up (f2 g) = always_up g) →
  (∀ p, p ∈ l → it_indexed (get e' p) = false) → removal H s e r l e'.
Proof.
  intros Hf Ht Hf2 Hx. apply (removal_took r (λ g, f2 (f g))); [|destruct Ht as [A B C D E G]; split; try done|done].
  - intros g. destruct (Hf g) as (? & ? & ?), (Hf2 (f g)) as (? & ? & ?). split_and!; congruence.
  - rewrite G. unfold put_reg. simpl. by rewrite alter_alter_eq.
Qed.

(** Flagging what runs. *)
Lemma raise_running_good (c : engine → ptr → bool) H e s :
  good H e s →
  let e' := foldl (λ e p, if c e p then cancel_raise p e else e) e (queue e Q_RUNNING) in
  good H e' s ∧ (∀ x, it_reg (get e' x) = it_reg (get e x) ∧ it_indexed (get e' x) = it_indexed (get e x)) ∧
  e_regs e' = e_regs e.
Proof.
  intros Hg. assert (queue e Q_RUNNING ⊆ queue e Q_RUNNING) as Hl by done. revert Hl.
  generalize (queue e Q_RUNNING) at 1 3. intros l Hl. simpl. split_and!.
  - apply fold_put_good; [exact HF| |done]. intros e0 p Hp Hg0. destruct (c e0 p); [|done].
    apply cancel_raise_good; [exact HF| |done].
    apply (queued_frame subs ended log N F HF H e s p Q_RUNNING); [done|done|by apply Hl].
  - intros x. split.
    + apply (fold_same _ (λ e, it_reg (get e x))). intros e0 p. destruct (c e0 p); [|done].
      unfold cancel_raise. by rewrite reg_put_same.
    + apply (fold_same _ (λ e, it_indexed (get e x))). intros e0 p. destruct (c e0 p); [|done].
      unfold cancel_raise, get. rewrite items_put. destruct (decide (p = x)) as [<-|].
      * rewrite lookup_alter_eq. by destruct (e_items e0 !! p).
      * by rewrite lookup_alter_ne.
  - apply (fold_same _ e_regs). intros e0 p. by destruct (c e0 p).
Qed.

Lemma unregister_manual_good r mode H e s l e' :
  good H e s → unregister_manual r mode e = Some (l, e') → removal H s e r l e'.
Proof.
  intros Hg. unfold unregister_manual. destruct (decide (mode = CANCEL)) as [Hm|Hm].
  - destruct (0 <? _)%nat; [done|].
    set (f := λ g : reg, g <| r_removed := true |> <| r_cancelling := true |>).
    assert (good H (put_reg r f e) s) as Hg0 by (by apply put_reg_good; [intros []|]).
    set (e0 := put_reg r f e) in *. unfold cancel_backlog.
    pose proof (took_reg r Q_INTAKE H e0 s eq_refl ltac:(done) Hg0) as T1.
    destruct (fifo_detach_reg Q_INTAKE r e0) as [l1 e1].
    pose proof (took_reg r Q_DELAYED _ e1 s eq_refl ltac:(done) (tk_good _ _ _ _ _ _ _ _ _ _ _ T1)) as T2.
    destruct (fifo_detach_reg Q_DELAYED r e1) as [l2 e2].
    pose proof (took_trans _ _ _ _ _ _ _ _ _ _ _ _ _ T1 T2) as T12.
    pose proof (took_admitted r Q_READY _ e2 s eq_refl ltac:(done) (tk_good _ _ _ _ _ _ _ _ _ _ _ T12)) as T3.
    destruct (fifo_detach_reg_admitted Q_READY r e2) as [l3 e3].
    pose proof (took_trans _ _ _ _ _ _ _ _ _ _ _ _ _ T12 T3) as T123.
    pose proof (took_admitted r Q_DONE _ e3 s eq_refl ltac:(done) (tk_good _ _ _ _ _ _ _ _ _ _ _ T123)) as T4.
    destruct (fifo_detach_reg_admitted Q_DONE r e3) as [l4 e4].
    pose proof (took_trans _ _ _ _ _ _ _ _ _ _ _ _ _ T123 T4) as T.
    destruct (took_index _ _ _ _ _ _ T Hg0) as [T' Hx]. intros [= <- <-]. rewrite <-!(assoc_L (++)) in *.
    by apply (removal_took r f).
  - destruct (0 <? _)%nat; [done|]. intros [= <- <-].
    set (f := λ g : reg, g <| r_removed := true |>).
    apply (removal_took r f); [done| |by intros p ?%not_elem_of_nil].
    apply took_nil; [by apply put_reg_good; [intros []|]|done|done].
Qed.

Lemma unregister_threaded_good r mode re H e s l e' :
  good H e s → unregister_threaded r mode re e = Some (l, e') → removal H s e r l e'.
Proof.
  intros Hg. unfold unregister_threaded. destruct (_ && _); [done|]. destruct (re && _); [done|].
  set (f := λ g : reg, g <| r_removed := true |>).
  assert (good H (put_reg r f e) s) as Hg0 by (by apply put_reg_good; [intros []|]).
  destruct (decide (mode = CANCEL)) as [Hm|Hm].
  - set (f2 := λ g : reg, g <| r_cancelling := true |>).
    assert (good H (put_reg r f2 (put_reg r f e)) s) as Hg1 by (by apply put_reg_good; [intros []|]).
    set (e0 := put_reg r f2 _) in *. unfold cancel_backlog.
    pose proof (took_reg r Q_INTAKE H e0 s eq_refl ltac:(done) Hg1) as T1.
    destruct (fifo_detach_reg Q_INTAKE r e0) as [l1 e1].
    pose proof (took_reg r Q_DELAYED _ e1 s eq_refl ltac:(done) (tk_good _ _ _ _ _ _ _ _ _ _ _ T1)) as T2.
    destruct (fifo_detach_reg Q_DELAYED r e1) as [l2 e2].
    pose proof (took_trans _ _ _ _ _ _ _ _ _ _ _ _ _ T1 T2) as T.
    destruct (took_index _ _ _ _ _ _ T Hg1) as [T' Hx]. intros [= <- <-].
    destruct (raise_running_good (is_reg r) _ _ s (tk_good _ _ _ _ _ _ _ _ _ _ _ T')) as (A & B & C).
    apply (removal_mono r f f2); [done| |done|].
    + destruct T' as [T1' T2' T3' T4' T5' T6']. split; try done.
      * intros p Hp. rewrite (proj1 (B p)). by apply T3'.
      * intros p. rewrite (proj1 (B p)). apply T5'.
      * by rewrite C.
    + intros p Hp. rewrite (proj2 (B p)). by apply Hx.
  - intros [= <- <-]. apply (removal_took r f); [done| |by intros p ?%not_elem_of_nil].
    by apply took_nil.
Qed.

Lemma registry_find_spec tid e name r g :
  registry_find tid e name = Some (r, g) →
  e_regs e !! r = Some g ∧ r_removed g = false ∧ r_name g = name ∧ r ∈ e_registry e.
Proof.
  unfold registry_find, registry_holder. destruct (head _) as [[r' g']|] eqn:Hh; [|done].
  destruct (reg_hidden tid g'); [done|]. intros [= -> ->].
  apply head_Some_elem_of, list_elem_of_omap in Hh as (y & Hy & Hm).
  destruct (e_regs e !! y) as [g'|] eqn:Hgy; [|done]. simpl in Hm.
  destruct (r_removed g') eqn:Hrm; [done|]. simpl in Hm. case_bool_decide; [|done].
  injection Hm as -> ->. done.
Qed.

Lemma unregister_begin_good tid re name mode H e s :
  good H e s →
  match unregister_begin tid re name mode e with
  | (st, None, e') => e' = e ∧ st ≠ GPTPS_OK
  | (st, Some (r, l), e') => st = GPTPS_OK ∧ removal H s e r l e' ∧
      ∃ g, e_regs e !! r = Some g ∧ r_removed g = false
  end.
Proof.
  intros Hg. unfold unregister_begin. destruct (TASK_NAME_MAX <? _)%nat; [done|]. destruct (e_stopping e); [done|].
  destruct (registry_find tid e name) as [[r g]|] eqn:Hf; [|done].
  apply registry_find_spec in Hf as (Hr & Hrm & _). destruct (r_settling g); [done|].
  set (m := if _ && _ then CANCEL else mode).
  destruct (e_manual e).
  - destruct (unregister_manual r m e) as [[l e']|] eqn:Hu; [|done].
    split_and!; [done|by eapply unregister_manual_good|by eexists].
  - destruct (unregister_threaded r m re e) as [[l e']|] eqn:Hu; [|done].
    split_and!; [done|by eapply unregister_threaded_good|by eexists].
Qed.

(** The slot goes when no item in play is of its type. *)
Lemma delete_reg_good H e s r :
  good H e s → (∀ p i, e_items e !! p = Some i → it_where i ≠ Q_DEAD → it_reg i ≠ Some r) →
  good H (e <| e_regs ::= delete r |>) s.
Proof.
  intros [A B C D] Hr. split; [by apply (wf_ext H e)| |done|done].
  apply (acct_regs _ _ _ e); try done. intros p i r' g Hi Hw Hir Hg. exists g. split; [|done].
  simpl. rewrite lookup_delete_ne; [done|]. intros <-. by eapply Hr.
Qed.

Lemma live_refs_zero H e r p i :
  wf H e → reg_live_refs e r = 0%nat → e_items e !! p = Some i → live_q (it_where i) = true →
  it_reg i ≠ Some r.
Proof.
  intros Hwf Hz Hi Hl Hr.
  assert (p ∈ queue e (it_where i)) as Hp.
  { apply (wf_where _ _ Hwf); [by intros Heq; rewrite Heq in Hl|by exists i]. }
  assert (0 < fifo_count_reg (it_where i) r e)%nat as Hc.
  { unfold fifo_count_reg. assert (p ∈ filter (λ p, is_reg r e p = true) (queue e (it_where i))) as Hin.
    - apply list_elem_of_filter. split; [|done]. unfold is_reg. rewrite (get_lookup _ _ _ Hi).
      by apply bool_decide_eq_true.
    - destruct (filter _ _); [by apply not_elem_of_nil in Hin|simpl; lia]. }
  unfold reg_live_refs in Hz. destruct (it_where i); try done; lia.
Qed.

Lemma unregister_end_good r l H e s :
  good (list_to_set l ∪ H) e s → NoDup l → (∀ p, p ∈ l → p ∉ H ∧ F !! p = None) →
  (∀ p, p ∈ l → it_indexed (get e p) = false) →
  (∀ p, p ∈ H → it_reg (get e p) ≠ Some r) → reg_live_refs e r = 0%nat →
  let '(e', evs) := unregister_end r l e in good H e' (add_events s evs).
Proof.
  intros Hg Hnd Hdis Hx HH Hz. unfold unregister_end.
  pose proof (detach_dead_letter_good _ _ _ _ F HF _ e s r Hg) as H1.
  destruct (detach_dead_letter r e) as [named e1]. destruct H1 as (Hg1 & Hq1 & Hr1 & Hit1).
  set (e2 := registry_unlink r e1).
  assert (good (list_to_set l ∪ H) e2 s) as Hg2 by (by apply (good_ext _ _ _ _ _ _ e1)).
  assert (∀ p, p ∉ queue e Q_DEAD → get e2 p = get e p) as Hget.
  { intros p Hp. unfold get. change (e_items e2) with (e_items e1). by rewrite Hit1. }
  assert (∀ p, p ∈ (list_to_set l ∪ H : gset ptr) → p ∉ queue e Q_DEAD) as Hnot.
  { intros p Hp. by eapply hand_not_queued; [apply Hg|..]. }
  pose proof (drain_cancelled_good _ _ _ _ F HF l H e2 s Hg2 Hnd Hdis) as H3.
  pose proof (drain_cancelled_items l e2) as H4.
  destruct (drain_cancelled l e2) as [evs e3]. destruct H3 as [Hg3 Hr3].
  { intros p Hp. rewrite Hget; [by apply Hx|]. apply Hnot. set_solver. }
  destruct named; [|done]. apply delete_reg_good; [done|].
  intros p i Hi Hw Hir. assert (e_items e2 !! p = Some i) as Hi2 by (by apply H4).
  change (e_items e1 !! p = Some i) in Hi2.
  destruct (decide (it_where i = Q_NONE)) as [Hn|Hn].
  - assert (p ∈ H) as HpH by (apply (wf_hand _ _ (g_wf _ _ _ _ _ _ _ _ Hg3)); eauto).
    apply (HH p HpH). rewrite <-Hget by (apply Hnot; set_solver). by rewrite (get_lookup e2 p i Hi2).
  - assert (p ∉ queue e Q_DEAD) as Hpd.
    { unfold queue. rewrite <-Hq1. intros (j & Hj & ?)%(wf_where _ _ (g_wf _ _ _ _ _ _ _ _ Hg1)); [|done]. congruence. }
    rewrite Hit1 in Hi2 by done.
    eapply (live_refs_zero _ e r p i); [apply Hg|done|done|by destruct (it_where i)|done].
Qed.

(** ** Shutdown *)

Lemma flag_services_good q H e s : live_q q = true → good H e s → good H (flag_services q e) s.
Proof.
  intros Hq Hg. unfold flag_services. apply fold_put_good; [exact HF| |done].
  intros e0 p Hp Hg0. destruct (reg_flag r_service e0 p); [|done].
  apply cancel_item_good; [exact HF| |done].
  apply (queued_frame subs ended log N F HF H e s p q); [done|by intros ->|done].
Qed.

Lemma shutdown_begin_good now H e s :
  good H e s → let '(e', evs) := shutdown_begin now e in
  good H e' (add_events s evs) ∧ e_regs e' = e_regs e.
Proof.
  intros Hg. unfold shutdown_begin. set (e0 := e <| e_stopping := true |> <| e_stop_deadline_ms := _ |>).
  assert (good H e0 s) as Hg0 by (by apply (good_ext _ _ _ _ _ _ e)).
  unfold stop_services. set (e1 := flag_services Q_DONE _).
  assert (good H e1 s) as Hg1 by (by repeat apply flag_services_good).
  assert (e_regs e1 = e_regs e) as Hr1.
  { unfold e1, flag_services. rewrite !(fold_same _ e_regs); [done|..]; intros e2 p; by destruct (reg_flag _ _ _). }
  clearbody e1. unfold fifo_detach_services.
  pose proof (took_plain (λ _, True) (reg_flag r_service) Q_INTAKE H e1 s eq_refl ltac:(done) Hg1 ltac:(done)) as T1.
  destruct (fifo_detach _ Q_INTAKE e1) as [l1 e2].
  pose proof (took_plain (λ _, True) (reg_flag r_service) Q_DELAYED _ e2 s eq_refl ltac:(done)
    (tk_good _ _ _ _ _ _ _ _ _ _ _ T1) ltac:(done)) as T2.
  destruct (fifo_detach _ Q_DELAYED e2) as [l2 e3].
  pose proof (took_trans _ _ _ _ _ _ _ _ _ _ _ _ _ T1 T2) as T.
  destruct (took_index _ _ _ _ _ _ T Hg1) as [[A B C D E G] Hx].
  pose proof (drain_cancelled_good _ _ _ _ F HF _ H _ s D A) as Hd.
  destruct (drain_cancelled _ _) as [evs e4]. destruct Hd as [Hd1 Hd2].
  - intros p Hp. split; [by apply B|]. eapply (frame_hand _ _ _ _ _ HF H e1 s); [done|by apply B].
  - done.
  - split; [done|congruence].
Qed.

Lemma filter_true (l : list ptr) : filter (λ _, true = true) l = l.
Proof. induction l as [|p l IH]; [done|]. rewrite filter_cons, decide_True by done. by rewrite IH. Qed.

Lemma took_all q H e s :
  live_q q = true → q ≠ Q_RUNNING → good H e s →
  took (λ _, True) H s e (pop_all q e).1 (pop_all q e).2.
Proof.
  intros Hq Hr Hg. unfold pop_all. simpl.
  pose proof (took_detach (λ _, True) (λ _ e, e) (λ _, true) q H e s) as T. rewrite filter_true in T.
  apply T; try done. intros. by left.
Qed.
Lemma fold_remove_queue q q' l e :
  queue (foldl (λ e p, fifo_remove q p e) e l) q' =
  if decide (q = q') then filter (λ x, x ∉ l) (queue e q) else queue e q'.
Proof.
  revert e. induction l as [|p l IH]; intros e; cbn [foldl].
  - case_decide as Hq; [|done]. subst. induction (queue e q') as [|x m IH]; [done|].
    rewrite filter_cons, decide_True by apply not_elem_of_nil. by rewrite <-IH.
  - rewrite IH. unfold fifo_remove at 1 2. rewrite !queue_put, queue_set_eq.
    case_decide as Hq; [|by rewrite queue_set_ne]. rewrite list_filter_filter.
    apply list_filter_iff. intros x. rewrite not_elem_of_cons. tauto.
Qed.
Lemma pop_all_queue q q' e : queue (pop_all q e).2 q' = if decide (q = q') then [] else queue e q'.
Proof.
  unfold pop_all. simpl. rewrite fold_remove_queue. case_decide; [|done].
  destruct (filter _ _) as [|x l] eqn:Hl; [done|]. exfalso.
  assert (x ∈ x :: l) as Hx by (apply elem_of_cons; by left). rewrite <-Hl in Hx.
  by apply list_elem_of_filter in Hx as [? ?].
Qed.

End took.

(** Dead letters at shutdown. *)
Lemma fold_remove_wf q l H e :
  wf H e → q ≠ Q_NONE → NoDup l → l ⊆ queue e q →
  let e' := foldl (λ e p, fifo_remove q p e) e l in
  wf (list_to_set l ∪ H) e' ∧ e_next_handle e' = e_next_handle e ∧ e_regs e' = e_regs e ∧
  (∀ x, x ∉ l → e_items e' !! x = e_items e !! x) ∧
  (∀ x, it_indexed (get e' x) = it_indexed (get e x)).
Proof.
  intros Hwf Hq. revert H e Hwf. induction l as [|p l IH]; intros H e Hwf Hnd Hl; cbn [foldl].
  { split_and!; try done. by rewrite list_to_set_nil, union_empty_l_L. }
  apply NoDup_cons in Hnd as [Hp Hnd].
  pose proof (wf_remove H e p q Hwf Hq ltac:(apply Hl; set_solver)) as Hwf1.
  destruct (IH ({[p]} ∪ H) (fifo_remove q p e) Hwf1 Hnd) as (A & B & C & D & E).
  { intros x Hx. unfold fifo_remove. rewrite queue_put, queue_set_eq. apply list_elem_of_filter.
    split; [by intros ->|]. apply Hl. by apply elem_of_cons; right. }
  split_and!; [|done|done| |].
  - rewrite list_to_set_cons, (comm_L (∪) {[p]}), <-(assoc_L (∪)). exact A.
  - intros x [Hxp Hx]%not_elem_of_cons. rewrite D by done. by rewrite items_remove, lookup_alter_ne.
  - intros x. rewrite E. unfold get. rewrite items_remove. destruct (decide (p = x)) as [<-|].
    + rewrite lookup_alter_eq. by destruct (e_items e !! p).
    + by rewrite lookup_alter_ne.
Qed.

(** [gptps_shutdown], after the join: whatever is left is closed, and nothing is left. *)
Lemma shutdown_end_good subs ended log N e s :
  good subs ended log N ∅ ∅ e s → queue e Q_RUNNING = [] →
  let '(e', evs) := shutdown_end e in
  good subs ended log N ∅ ∅ e' (add_events s evs) ∧ e_items e' = ∅.
Proof.
  intros Hg Hrun. assert (map_Forall (λ _ i, it_where i = Q_NONE) (∅ : gmap ptr item)) as HF.
  { intros p i Hi. by rewrite lookup_empty in Hi. }
  unfold shutdown_end.
  pose proof (took_all _ _ _ _ ∅ HF Q_INTAKE ∅ e s eq_refl ltac:(done) Hg) as T1.
  pose proof (λ q', pop_all_queue Q_INTAKE q' e) as R1.
  destruct (pop_all Q_INTAKE e) as [l1 e1]; simpl in T1, R1.
  pose proof (took_all _ _ _ _ ∅ HF Q_DELAYED _ e1 s eq_refl ltac:(done) (tk_good _ _ _ _ _ _ _ _ _ _ _ T1)) as T2.
  pose proof (λ q', pop_all_queue Q_DELAYED q' e1) as R2.
  destruct (pop_all Q_DELAYED e1) as [l2 e2]; simpl in T2, R2.
  pose proof (took_trans _ _ _ _ _ _ _ _ _ _ _ _ _ T1 T2) as T12.
  pose proof (took_all _ _ _ _ ∅ HF Q_READY _ e2 s eq_refl ltac:(done) (tk_good _ _ _ _ _ _ _ _ _ _ _ T12)) as T3.
  pose proof (λ q', pop_all_queue Q_READY q' e2) as R3.
  destruct (pop_all Q_READY e2) as [l3 e3]; simpl in T3, R3.
  pose proof (took_trans _ _ _ _ _ _ _ _ _ _ _ _ _ T12 T3) as T123.
  pose proof (took_all _ _ _ _ ∅ HF Q_DONE _ e3 s eq_refl ltac:(done) (tk_good _ _ _ _ _ _ _ _ _ _ _ T123)) as T4.
  pose proof (λ q', pop_all_queue Q_DONE q' e3) as R4.
  destruct (pop_all Q_DONE e3) as [l4 e4]; simpl in T4, R4.
  pose proof (took_trans _ _ _ _ _ _ _ _ _ _ _ _ _ T123 T4) as T1234.
  rename T1234 into T.
  assert (∀ q, live_q q = true → queue e4 q = []) as Hempty.
  { intros q Hq. rewrite R4, R3, R2, R1. by destruct q. }
  unfold pop_all at 1. rewrite Hempty by done. cbn [foldl]. rewrite app_nil_r, <-!(assoc_L (++)) in *.
  set (l := l1 ++ l2 ++ l3 ++ l4) in *.
  destruct (took_index _ _ _ _ ∅ HF _ _ _ _ _ _ T Hg) as [[A B C D E G] Hx].
  pose proof (drain_cancelled_good _ _ _ _ ∅ HF l ∅ _ s D A) as Hd.
  pose proof (drain_cancelled_qs l (index_drop_list l e4)) as Hqs.
  destruct (drain_cancelled l _) as [evs e5]. destruct Hd as [[Hwf Hac HN _] _].
  { intros p Hp. split; [by apply B|done]. }
  { done. }
  unfold pop_all.
  assert (NoDup (queue e5 Q_DEAD)) as Hnd by apply Hwf.
  destruct (fold_remove_wf Q_DEAD (queue e5 Q_DEAD) ∅ e5 Hwf ltac:(done) Hnd ltac:(done))
    as (A6 & B6 & C6 & D6 & E6).
  set (e6 := foldl (λ e p, fifo_remove Q_DEAD p e) e5 (queue e5 Q_DEAD)) in *.
  destruct (free_list_spec (queue e5 Q_DEAD) ∅ e6 A6 Hnd) as (A7 & B7 & C7 & D7 & E7).
  { intros p _. set_solver. }
  { intros p Hp. rewrite E6. destruct (queued_item ∅ e5 p Q_DEAD Hwf ltac:(done) Hp) as (i & Hi & Hw).
    rewrite (get_lookup _ _ _ Hi). by eapply (wf_dead _ _ Hwf). }
  set (e7 := foldl (λ e p, item_free p e) e6 (queue e5 Q_DEAD)) in *.
  assert (∀ p i, e_items e5 !! p = Some i → it_where i = Q_DEAD) as Hdead.
  { intros p i Hi. destruct (live_q (it_where i)) eqn:Hl.
    - assert (p ∈ queue e5 (it_where i)) as Hp.
      { apply (wf_where _ _ Hwf); [by intros Hn; rewrite Hn in Hl|eauto]. }
      unfold queue in Hp. simpl in Hqs. rewrite Hqs, fold_hidx_del_qs in Hp.
      change (p ∈ queue e4 (it_where i)) in Hp. rewrite Hempty in Hp by done.
      by apply not_elem_of_nil in Hp.
    - destruct (it_where i) eqn:Hw; try done.
      assert (p ∈ (∅ : gset ptr)) as Hp by (apply (wf_hand _ _ Hwf); eauto). set_solver. }
  assert (e_items e7 = ∅) as He7.
  { apply map_eq. intros p. rewrite lookup_empty.
    destruct (decide (p ∈ queue e5 Q_DEAD)) as [Hp|Hp]; [by apply E7|].
    rewrite D7, D6 by done. destruct (e_items e5 !! p) as [i|] eqn:Hi; [|done]. exfalso. apply Hp.
    apply (wf_where _ _ Hwf); [done|]. exists i. split; [done|by eapply Hdead]. }
  split; [|done]. split; [done| |congruence|by rewrite He7].
  apply (acct_trim _ _ _ e5); [| |congruence|congruence|done].
  - intros q i Hi. by rewrite He7, lookup_empty in Hi.
  - intros q i Hi Hw. by destruct Hw; eapply Hdead.
Qed.

End EngineMgmtFacts.
