(* ===== verification/EngineStatic.v ===== *)
(** * What the dispatcher leaves alone

    A pass moves items between the queues, but the registry, the configuration, the
    stopping flag and the [running] queue belong to the entry points and the
    workers: no step of [engine_pass] writes them. *)

From S2P Require Import Prelude HandleIndex Engine EnginePass EngineApi.
Import Engine EnginePass EngineApi.

Module EngineStatic.

Definition static (e : engine) :=
  (e_regs e, e_registry e, queue e Q_RUNNING, e_stopping e, e_manual e,
   (e_max_memory_bytes e, e_max_concurrent_tasks e, e_max_intake_depth e, e_max_dead_letters e,
    e_constraints e, e_sched e)).

Create Rewrite HintDb static.

Lemma static_put p f e : static (put p f e) = static e.
Proof. done. Qed.
Lemma static_push q p e : q ≠ Q_RUNNING → static (fifo_push q p e) = static e.
Proof. intros Hq. by destruct q. Qed.
Lemma static_remove q p e : q ≠ Q_RUNNING → static (fifo_remove q p e) = static e.
Proof. intros Hq. by destruct q. Qed.
Lemma static_pop q p e e' : q ≠ Q_RUNNING → fifo_pop q e = Some (p, e') → static e' = static e.
Proof. intros Hq. unfold fifo_pop. destruct (queue e q); [done|]. intros [= -> <-]. by destruct q. Qed.
Lemma static_insert p e : static (intake_insert p e) = static e.
Proof. done. Qed.
Lemma static_resort e : static (intake_resort e) = static e.
Proof. done. Qed.
Lemma static_hidx_del p e : static (hidx_del p e) = static e.
Proof. unfold hidx_del. by destruct (it_indexed _). Qed.
Lemma static_drop p e : static (item_drop p e) = static e.
Proof. unfold item_drop. transitivity (static (hidx_del p e)); [done|apply static_hidx_del]. Qed.
Lemma static_release p e : static (release p e) = static e.
Proof. unfold release. by destruct (it_res _). Qed.
Lemma static_cancel p e : static (cancel_item p e) = static e.
Proof. done. Qed.
Lemma static_evict f e : static (dead_letter_evict f e) = static e.
Proof.
  revert e. induction f as [|f IH]; intros e; [done|]. cbn [dead_letter_evict].
  destruct (_ && _); [|done]. destruct (fifo_pop Q_DEAD e) as [[p e1]|] eqn:Hp; [|done].
  rewrite IH. by rewrite <-(static_pop Q_DEAD p e e1).
Qed.
Lemma static_dead p e : static (dead_letter_push p e) = static e.
Proof.
  unfold dead_letter_push. set (e1 := dead_letter_evict _ _).
  transitivity (static (fifo_push Q_DEAD p e1)); [done|]. rewrite static_push by done.
  unfold e1. by rewrite static_evict, static_hidx_del.
Qed.
Lemma static_fold (f : engine → ptr → engine) l e :
  (∀ e p, static (f e p) = static e) → static (foldl f e l) = static e.
Proof. intros Hf. revert e. induction l as [|p l IH]; intros e; [done|]. simpl. by rewrite IH. Qed.
Lemma static_fold2 {A} (f : engine * A → ptr → engine * A) l e a :
  (∀ e a p, static (f (e, a) p).1 = static e) → static (foldl f (e, a) l).1 = static e.
Proof.
  intros Hf. revert e a. induction l as [|p l IH]; intros e a; [done|]. simpl.
  specialize (Hf e a p). destruct (f (e, a) p) as [e1 a1]. rewrite IH. exact Hf.
Qed.

#[export] Hint Rewrite static_put static_insert static_resort static_hidx_del static_drop static_release
  static_cancel static_evict static_dead : static.
#[export] Hint Rewrite static_push static_remove using done : static.

Ltac static :=
  repeat first [progress autorewrite with static | progress simpl fst | case_match; simplify_eq];
  autorewrite with static; try done.

(** ** The steps *)

Lemma static_drain_one now p e s : static (drain_one now p e s).1.1 = static e.
Proof.
  unfold drain_one, drain_ok, drain_cancelled_item, drain_removed, drain_retry, drain_failed. static.
Qed.
Lemma static_step1 now e s : static (step1 now e s).1.1 = static e.
Proof.
  unfold step1. generalize (length (queue e Q_DONE)). intros n.
  assert (∀ ann, static (drain_done n now e s ann).1.1 = static e) as H; [|].
  2:{ specialize (H []). by destruct (drain_done n now e s []) as [[e1 s1] a]. }
  revert e s. induction n as [|n IH]; intros e s ann; [done|]. cbn [drain_done].
  destruct (full s); [done|]. destruct (fifo_pop Q_DONE e) as [[p e1]|] eqn:Hp; [|done].
  pose proof (static_drain_one now p (release p e1) s) as H1.
  destruct (drain_one now p (release p e1) s) as [[e2 s2] a]. rewrite IH. simpl in H1.
  rewrite H1, static_release. by apply (static_pop Q_DONE p e e1).
Qed.
Lemma static_step2 now e s : static (step2 now e s).1 = static e.
Proof.
  unfold step2. apply static_fold2. intros e0 s0 p. unfold promote_one. static.
Qed.
Lemma static_step2b now ann e s : static (step2b now ann e s).1.1 = static e.
Proof.
  unfold step2b. generalize no_held. revert e s. induction ann as [|p l IH]; intros e s h; [done|]. cbn [foldl].
  unfold park_one at 2. destruct (_ <=? now); rewrite IH; static.
Qed.
Lemma static_step3 now e s : static (step3 now e s).1 = static e.
Proof. unfold step3. apply static_fold2. intros e0 s0 p. unfold deadline_one. static. Qed.
Lemma static_grace n e s : static (grace_drain n e s).1 = static e.
Proof.
  revert e s. induction n as [|n IH]; intros e s; [done|]. cbn [grace_drain]. destruct (full s); [done|].
  destruct (fifo_pop Q_DELAYED e) as [[p e1]|] eqn:Hp; [|destruct (fifo_pop Q_INTAKE e) as [[p e1]|] eqn:Hp2; [|done]].
  all: unfold grace_one; rewrite IH; transitivity (static e1); [static|by eapply static_pop; [|eassumption]].
Qed.
Lemma static_step3b now e s : static (step3b now e s).1.1 = static e.
Proof.
  unfold step3b. destruct (_ && _); [|done]. destruct (_ <=? now); [|done].
  pose proof (static_grace (length (queue e Q_DELAYED) + length (queue e Q_INTAKE)) e s) as H1.
  destruct (grace_drain _ e s) as [e1 s1]. simpl in *. rewrite static_fold; [done|]. by intros.
Qed.
Lemma static_admit top best sn e : static (admit_best top best sn e) = static e.
Proof.
  unfold admit_best. rewrite static_push by done. set (e0 := if decide (best = top) then e else _).
  assert (static e0 = static e) as H0 by (unfold e0; by case_decide).
  transitivity (static (intake_unlink best e0)); [by destruct sn|].
  unfold intake_unlink. by rewrite static_remove.
Qed.
Lemma static_admit_step now h top e s :
  match admit_step now h top e s with
  | (Some (e', _), _) | (None, (e', _)) => static e' = static e
  end.
Proof.
  unfold admit_step. destruct (admit_scan e _) as [p|best|]; [| |done].
  { destruct (full s); [done|]. unfold admit_reject, intake_unlink. simpl. static. }
  destruct (held_back h best e); [done|]. destruct (_ && _); [done|].
  unfold run_constraints. destruct (run_constraints_loop _ _ _ _ _) as [[d ra] t].
  set (e1 := e <| e_tick := t |>). assert (static e1 = static e) as <- by done. clearbody e1.
  destruct d.
  - unfold take_snapshot, ask_alloc. destruct (res_cost e1 best); [|by apply static_admit].
    destruct (nres e1 =? 0); [by apply static_admit|].
    assert (static (e1 <| e_tick ::= S |>) = static e1) as H1 by done.
    destruct (e_alloc e1 (e_tick e1)); [|done]. rewrite <-H1. apply static_admit.
  - destruct (full s); [done|]. unfold admit_reject, intake_unlink. simpl. static.
  - unfold defer_one, intake_unlink. simpl. static.
Qed.
Lemma static_step4 now pg h e s : static (step4 now pg h e s).1 = static e.
Proof.
  unfold step4. destruct pg; [done|]. assert (static (rescore e) = static e) as <-.
  { unfold rescore. destruct (e_sched e) as [f|]; [|done]. destruct (queue e Q_INTAKE); [done|].
    destruct (_ <? _); [|done]. rewrite static_resort. by apply static_fold. }
  cbv zeta. generalize (length (queue (rescore e) Q_INTAKE)). intros n. generalize (rescore e).
  intros e1. revert e1 s.
  induction n as [|n IH]; intros e1 s; [done|]. cbn [admit_loop].
  destruct (queue e1 Q_INTAKE) as [|top l]; [done|]. destruct (_ <? _); [|done].
  pose proof (static_admit_step now h top e1 s) as H1.
  destruct (admit_step now h top e1 s) as [[[e2 s2]|] [e3 s3]]; simpl in *; [by rewrite IH|done].
Qed.
Lemma static_pass now e : static (engine_pass now e).1 = static e.
Proof.
  unfold engine_pass. pose proof (static_step1 now e (Pass [] 0 false)) as H1.
  destruct (step1 now e (Pass [] 0 false)) as [[e1 s1] ann].
  pose proof (static_step2 now e1 s1) as H2. destruct (step2 now e1 s1) as [e2 s2].
  pose proof (static_step2b now ann e2 s2) as H3. destruct (step2b now ann e2 s2) as [[e3 s3] h].
  pose proof (static_step3 now e3 s3) as H4. destruct (step3 now e3 s3) as [e4 s4].
  pose proof (static_step3b now e4 s4) as H5. destruct (step3b now e4 s4) as [[e5 s5] pg].
  pose proof (static_step4 now pg h e5 s5) as H6. destruct (step4 now pg h e5 s5) as [e6 s6].
  simpl in *. transitivity (static e6); [done|congruence].
Qed.

(** ** The entry points *)

Lemma static_detach f q e : q ≠ Q_RUNNING → static (fifo_detach f q e).2 = static e.
Proof. intros Hq. unfold fifo_detach. simpl. apply static_fold. intros e0 p. by apply static_remove. Qed.
Lemma static_detach_admitted r q e : q ≠ Q_RUNNING → static (fifo_detach_reg_admitted q r e).2 = static e.
Proof.
  intros Hq. unfold fifo_detach_reg_admitted. simpl. apply static_fold. intros e0 p.
  rewrite static_release. by apply static_remove.
Qed.
Lemma static_index_drop l e : static (index_drop_list l e) = static e.
Proof. apply static_fold. intros e0 p. apply static_hidx_del. Qed.
Lemma static_drain_cancelled l e : static (drain_cancelled l e).2 = static e.
Proof.
  revert e. induction l as [|x l IH]; intros e; [done|]. simpl.
  specialize (IH (item_free x e)). by destruct (drain_cancelled l (item_free x e)).
Qed.
Lemma static_submit tid now name payload o e : static (submit_internal tid now name payload o e).1.2 = static e.
Proof.
  unfold submit_internal. destruct (submit_alloc payload e) as [a e1] eqn:Ha.
  assert (static e1 = static e) as <-.
  { unfold submit_alloc, ask_alloc in Ha. destruct payload; [|destruct (e_alloc _ _)]; by injection Ha as <- <-. }
  clear Ha. destruct (negb a); [done|]. destruct (e_stopping e1); [done|].
  destruct (registry_find tid e1 name) as [[r g]|]; [|done]. destruct (negb (r_enabled g)); [done|].
  destruct (submit_check e1 g payload); [done|].
  destruct (hidx_reserve e1) as [ok e2] eqn:Hr. assert (static e2 = static e1) as <-.
  { unfold hidx_reserve, ask_alloc in Hr. destruct (HandleIndex.hidx_reserve _ _) as [[ok' x]|]; by injection Hr as <- <-. }
  destruct (negb ok); done.
Qed.
Lemma static_api_cancel h e : static (gptps_cancel h e).1.2 = static e.
Proof.
  unfold gptps_cancel. destruct (h =? 0); [done|]. destruct (e_stopping e); [done|].
  destruct (HandleIndex.hidx_lookup _ _) as [p|]; [|done].
  destruct (it_where (get e p)); try done; simpl; by rewrite static_drop.
Qed.
Lemma static_own_name p e : static (item_own_name p e).2 = static e.
Proof.
  unfold item_own_name. destruct (it_name_owned _); [done|]. unfold ask_alloc. by destruct (e_alloc _ _).
Qed.
Lemma static_detach_dead r e : static (detach_dead_letter r e).2 = static e.
Proof.
  unfold detach_dead_letter. generalize (queue e Q_DEAD). intros l. generalize true.
  revert e. induction l as [|p l IH]; intros e ok; [done|]. cbn [foldl].
  destruct (is_reg r e p); [|apply IH]. pose proof (static_own_name p e) as H1.
  destruct (item_own_name p e) as [ok1 e1]. rewrite IH. exact H1.
Qed.
Lemma static_dead_take n named e : static (dead_letter_take n named e).2 = static e.
Proof.
  revert e. induction n as [|n IH]; intros e; [done|]. cbn [dead_letter_take].
  destruct (queue e Q_DEAD) as [|p l]; [done|]. set (b := if named then (true, e) else item_own_name p e).
  assert (static b.2 = static e) as H1 by (unfold b; destruct named; [done|apply static_own_name]).
  destruct b as [ok e1]. destruct ok; [|exact H1]. destruct (fifo_pop Q_DEAD e1) as [[p' e2]|] eqn:Hp; [|exact H1].
  specialize (IH (e2 <| e_dead_letter_count ::= λ c, u32 (c - 1) |>)).
  destruct (dead_letter_take n named _) as [l' e3]. simpl in *. rewrite IH, <-H1.
  by apply (static_pop Q_DEAD p' e1 e2).
Qed.
Lemma static_dead_drain cb e : static (gptps_dead_letter_drain cb e).2 = static e.
Proof.
  unfold gptps_dead_letter_drain. pose proof (static_dead_take (length (queue e Q_DEAD)) (negb cb) e) as H1.
  destruct (dead_letter_take _ _ e) as [l e1]. simpl in *. rewrite <-H1. by apply static_fold.
Qed.
Lemma static_shutdown now e :
  let e' := (shutdown_begin now e).1 in
  e_regs e' = e_regs e ∧ queue e' Q_RUNNING = queue e Q_RUNNING ∧ e_stopping e' = true.
Proof.
  unfold shutdown_begin, stop_services, flag_services, fifo_detach_services. cbv zeta.
  set (e0 := e <| e_stopping := true |> <| e_stop_deadline_ms := _ |>).
  set (e1 := foldl _ _ _). assert (static e1 = static e0) as H1.
  { unfold e1. rewrite !static_fold; [done|..]; intros e2 p; by destruct (reg_flag _ _ _). }
  pose proof (static_detach (reg_flag r_service) Q_INTAKE e1 ltac:(done)) as H2.
  destruct (fifo_detach _ Q_INTAKE e1) as [l1 e2].
  pose proof (static_detach (reg_flag r_service) Q_DELAYED e2 ltac:(done)) as H3.
  destruct (fifo_detach _ Q_DELAYED e2) as [l2 e3].
  pose proof (static_index_drop (l1 ++ l2) e3) as H4.
  pose proof (static_drain_cancelled (l1 ++ l2) (index_drop_list (l1 ++ l2) e3)) as H5.
  destruct (drain_cancelled _ _) as [evs e4]. simpl in *.
  assert (static e4 = static e0) as H by congruence. by injection H.
Qed.

(** A removal writes the registry, never the [running] queue. *)
Lemma running_static e e' : static e' = static e → queue e' Q_RUNNING = queue e Q_RUNNING.
Proof. intros [=]. done. Qed.
Lemma regs_static e e' : static e' = static e → e_regs e' = e_regs e.
Proof. intros [=]. done. Qed.

Lemma running_unregister tid re name mode e :
  queue (unregister_begin tid re name mode e).2 Q_RUNNING = queue e Q_RUNNING.
Proof.
  unfold unregister_begin. destruct (TASK_NAME_MAX <? _)%nat; [done|]. destruct (e_stopping e); [done|].
  destruct (registry_find tid e name) as [[r g]|]; [|done]. destruct (r_settling g); [done|].
  set (m := if _ && _ then CANCEL else mode). unfold cancel_backlog, unregister_manual, unregister_threaded.
  destruct (e_manual e).
  - destruct (decide (m = CANCEL)) as [Hm|Hm]; [|by destruct (0 <? _)%nat]. destruct (0 <? _)%nat; [done|].
    set (e0 := put_reg _ _ e). unfold cancel_backlog, fifo_detach_reg.
    pose proof (static_detach (is_reg r) Q_INTAKE e0 ltac:(done)) as H1.
    destruct (fifo_detach _ Q_INTAKE e0) as [l1 e1].
    pose proof (static_detach (is_reg r) Q_DELAYED e1 ltac:(done)) as H2.
    destruct (fifo_detach _ Q_DELAYED e1) as [l2 e2].
    pose proof (static_detach_admitted r Q_READY e2 ltac:(done)) as H3.
    destruct (fifo_detach_reg_admitted Q_READY r e2) as [l3 e3].
    pose proof (static_detach_admitted r Q_DONE e3 ltac:(done)) as H4.
    destruct (fifo_detach_reg_admitted Q_DONE r e3) as [l4 e4]. simpl in *.
    transitivity (queue e0 Q_RUNNING); [|done]. apply running_static. rewrite static_index_drop. congruence.
  - destruct (bool_decide (m = REJECT_IF_BUSY) && _); [done|]. destruct (re && _); [done|]. destruct (decide (m = CANCEL)) as [Hm|Hm]; [|done].
    set (e0 := put_reg _ _ (put_reg _ _ e)). unfold cancel_backlog, fifo_detach_reg.
    pose proof (static_detach (is_reg r) Q_INTAKE e0 ltac:(done)) as H1.
    destruct (fifo_detach _ Q_INTAKE e0) as [l1 e1].
    pose proof (static_detach (is_reg r) Q_DELAYED e1 ltac:(done)) as H2.
    destruct (fifo_detach _ Q_DELAYED e1) as [l2 e2]. simpl in *.
    transitivity (queue e0 Q_RUNNING); [|done]. apply running_static. rewrite static_fold, static_index_drop; [congruence|].
    intros e3 p. by destruct (is_reg r e3 p).
Qed.
Lemma running_unregister_end r l e : queue (unregister_end r l e).1 Q_RUNNING = queue e Q_RUNNING.
Proof.
  unfold unregister_end. pose proof (static_detach_dead r e) as H1.
  destruct (detach_dead_letter r e) as [named e1].
  pose proof (static_drain_cancelled l (registry_unlink r e1)) as H2.
  destruct (drain_cancelled l _) as [evs e2]. simpl in *.
  apply running_static in H1, H2. change (queue e2 Q_RUNNING = queue e1 Q_RUNNING) in H2.
  destruct named; simpl; [change (queue e2 Q_RUNNING = queue e Q_RUNNING)|]; congruence.
Qed.

End EngineStatic.
