(* ===== verification/Lifecycle.v ===== *)
(** * The engine over time

    A step of [step] is one critical section of one of the engine's threads - a host
    thread in an entry point, a worker, the dispatcher - or the emission of an event
    that an earlier section owes once the lock is released.  [inv] is the invariant
    of every reachable world, by rule induction; it carries the books of terminal
    events, so a handle's closing event comes once and only once. *)

From S2P Require Import Prelude HandleIndex Engine EnginePass EngineApi Registry.
From S2P Require Import EngineFacts EngineAcct EnginePassFacts EngineApiFacts EngineMgmtFacts EngineStatic.
Import Engine EnginePass EngineApi Registry EngineFacts EngineAcct EnginePassFacts EngineApiFacts.
Import EngineMgmtFacts EngineStatic.

Module Lifecycle.

(** The engine, the events it owes and has emitted, what each running attempt ended
    with (between its report and its post), and the removals under way: a type and
    the items their callers took out of play. [w_subs] is a ghost: the handles given
    out, and whether each is an always-up service's. *)
Record world := World {
  w_e : engine;
  w_owed : list event;
  w_log : list event;
  w_ended : gmap ptr status;
  w_removing : list (rid * list ptr);
  w_subs : gmap Z bool }.

Definition hands (rem : list (rid * list ptr)) : gset ptr := list_to_set (concat (snd <$> rem)).

(** The operator's settings and the host's hooks. *)
Inductive tuning :=
  | SetMemory (n : Z) | SetConcurrency (n : Z) | SetIntakeDepth (n : Z) | SetMaxDeadLetters (n : Z)
  | SetGrace (n : Z) | SetReserve (n : Z) | SetScheduler (f : option sched_fn)
  | AddConstraint (f : constraint_fn).
Definition tune (t : tuning) (e : engine) : engine :=
  match t with
  | SetMemory n => e <| e_max_memory_bytes := n |>
  | SetConcurrency n => e <| e_max_concurrent_tasks := n |>
  | SetIntakeDepth n => e <| e_max_intake_depth := n |>
  | SetMaxDeadLetters n => e <| e_max_dead_letters := n |>
  | SetGrace n => e <| e_shutdown_grace_ms := n |>
  | SetReserve n => e <| e_reserve_after_skips := n |>
  | SetScheduler f => e <| e_sched := f |>
  | AddConstraint f => e <| e_constraints ::= λ l, l ++ [f] |>
  end.

Inductive step : world → world → Prop :=
  | st_submit e owed log ended rem subs tid now name payload o r e' evs :
      e_next_handle e < MAX_HANDLES →
      submit_internal tid now name payload o e = (r, e', evs) →
      step (World e owed log ended rem subs)
        (World e' (owed ++ evs) log ended rem
           (match r, registry_find tid e name with
            | inr h, Some (_, g) => <[h := always_up g]> subs
            | _, _ => subs
            end))
  | st_cancel e owed log ended rem subs h st e' evs :
      gptps_cancel h e = (st, e', evs) →
      step (World e owed log ended rem subs) (World e' (owed ++ evs) log ended rem subs)
  | st_take e owed log ended rem subs now t e' evs :
      worker_take now e = (t, e', evs) →
      step (World e owed log ended rem subs) (World e' (owed ++ evs) log ended rem subs)
  | st_end e owed log ended rem subs now p st raised st' ev :
      p ∈ queue e Q_RUNNING → ended !! p = None →
      execute_end now e p st raised = (st', ev) →
      step (World e owed log ended rem subs) (World e (owed ++ [ev]) log (<[p := st']> ended) rem subs)
  | st_post e owed log ended rem subs p st :
      ended !! p = Some st →
      step (World e owed log ended rem subs)
        (World (worker_post p st e) owed log (delete p ended) rem subs)
  | st_pass e owed log ended rem subs now e' s' :
      engine_pass now e = (e', s') →
      step (World e owed log ended rem subs) (World e' (owed ++ pend s') log ended rem subs)
  | st_emit e l1 ev l2 log ended rem subs :
      step (World e (l1 ++ ev :: l2) log ended rem subs) (World e (l1 ++ l2) (log ++ [ev]) ended rem subs)
  | st_remove_begin e owed log ended rem subs tid re name mode r l e' :
      unregister_begin tid re name mode e = (GPTPS_OK, Some (r, l), e') →
      step (World e owed log ended rem subs) (World e' owed log ended ((r, l) :: rem) subs)
  | st_remove_end e owed log ended rem1 r l rem2 subs e' evs :
      reg_live_refs e r = 0%nat →
      unregister_end r l e = (e', evs) →
      step (World e owed log ended (rem1 ++ (r, l) :: rem2) subs)
        (World e' (owed ++ evs) log ended (rem1 ++ rem2) subs)
  | st_enable e owed log ended rem subs tid name b :
      step (World e owed log ended rem subs)
        (World (gptps_set_task_enabled tid name b e).2 owed log ended rem subs)
  | st_priority e owed log ended rem subs tid name k :
      step (World e owed log ended rem subs)
        (World (gptps_set_task_priority tid name k e).2 owed log ended rem subs)
  | st_register e owed log ended rem subs ns cfg tid d :
      step (World e owed log ended rem subs)
        (World (register_link ns cfg tid d e).2 owed log ended rem subs)
  | st_settled e owed log ended rem subs r :
      step (World e owed log ended rem subs) (World (register_settled r e) owed log ended rem subs)
  | st_resource e owed log ended rem subs ns name b :
      step (World e owed log ended rem subs)
        (World (gptps_define_resource ns name b e).2 owed log ended rem subs)
  | st_cost e owed log ended rem subs tid task name k :
      step (World e owed log ended rem subs)
        (World (gptps_set_task_resource_cost tid task name k e).2 owed log ended rem subs)
  | st_tune e owed log ended rem subs t :
      step (World e owed log ended rem subs) (World (tune t e) owed log ended rem subs)
  | st_letters e owed log ended rem subs cb :
      step (World e owed log ended rem subs)
        (World (gptps_dead_letter_drain cb e).2 owed log ended rem subs)
  | st_shutdown e owed log ended rem subs now e' evs :
      shutdown_begin now e = (e', evs) →
      step (World e owed log ended rem subs) (World e' (owed ++ evs) log ended rem subs)
  | st_joined e owed log ended subs e' evs :
      e_stopping e = true → queue e Q_RUNNING = [] →
      shutdown_end e = (e', evs) →
      step (World e owed log ended [] subs) (World e' (owed ++ evs) log ended [] subs).

(** A new engine: nothing queued, nothing indexed, no handle given out. *)
Definition fresh_engine (e : engine) : Prop :=
  e_items e = ∅ ∧ (∀ q, queue e q = []) ∧ e_next_handle e = 1 ∧
  e_hidx e = HandleIndex.Hidx [] 0 ∧ e_reserved_mem e = 0 ∧ e_running e = 0 ∧ e_resources e = [].
Definition initial (w : world) : Prop :=
  fresh_engine (w_e w) ∧ w_owed w = [] ∧ w_log w = [] ∧ w_ended w = ∅ ∧ w_removing w = [] ∧ w_subs w = ∅.

Definition reachable (w : world) : Prop := ∃ w0, initial w0 ∧ rtc step w0 w.

(** ** The invariant *)

Record inv (w : world) : Prop := {
  i_wf : wf (hands (w_removing w)) (w_e w);
  i_acct : acct (w_subs w) (w_ended w) (w_log w ++ w_owed w) (w_e w);
  i_next : 1 ≤ e_next_handle (w_e w) ≤ MAX_HANDLES;
  i_subs : ∀ h, e_next_handle (w_e w) ≤ h → w_subs w !! h = None;
  i_ended : ∀ p st, w_ended w !! p = Some st → p ∈ queue (w_e w) Q_RUNNING;
  i_nodup : NoDup (concat (snd <$> w_removing w));
  i_rids : NoDup (fst <$> w_removing w);
  i_tomb : ∀ r l, (r, l) ∈ w_removing w → ∃ g, e_regs (w_e w) !! r = Some g ∧ r_removed g = true;
  i_local : ∀ r l p, (r, l) ∈ w_removing w → p ∈ l →
    it_reg (get (w_e w) p) = Some r ∧ it_indexed (get (w_e w) p) = false }.

Lemma initial_inv w : initial w → inv w.
Proof.
  intros ((Hi & Hq & Hn & Hx & _) & Ho & Hl & He & Hr & Hs). destruct w as [e owed log ended rem subs]. simpl in *.
  subst. split; simpl.
  - split; unfold index_ok; rewrite ?Hi, ?Hn.
    + intros q. rewrite Hq. constructor.
    + intros q p _. rewrite Hq. split; [by intros ?%not_elem_of_nil|]. by intros (i & Hi' & _); rewrite lookup_empty in Hi'.
    + intros p. split; [set_solver|by intros (i & Hi' & _); rewrite lookup_empty in Hi'].
    + by intros p q i j Hi'; rewrite lookup_empty in Hi'.
    + by intros p i Hi'; rewrite lookup_empty in Hi'.
    + exists ∅. rewrite Hx. split; [apply (HandleIndex.repr_empty 0); by left|]. intros h p.
      rewrite lookup_empty. split; [done|]. by intros (i & Hi' & _); rewrite lookup_empty in Hi'.
    + by intros p i Hi'; rewrite lookup_empty in Hi'.
    + by intros p i Hi'; rewrite lookup_empty in Hi'.
  - split; rewrite ?Hi, ?Hn.
    + by intros p i Hi'; rewrite lookup_empty in Hi'.
    + by intros p i Hi'; rewrite lookup_empty in Hi'.
    + intros h Hh. lia.
    + intros h _. apply closed_nil.
  - rewrite Hn. unfold MAX_HANDLES. lia.
  - intros h _. apply lookup_empty.
  - by intros p st Hi'; rewrite lookup_empty in Hi'.
  - constructor.
  - constructor.
  - by intros r l ?%not_elem_of_nil.
  - by intros r l p ?%not_elem_of_nil.
Qed.

(** The items the removals hold, which the other sections may not touch. *)
Definition framed (rem : list (rid * list ptr)) (e : engine) : gmap ptr item :=
  filter (λ kv, kv.1 ∈ hands rem) (e_items e).

Lemma framed_where rem e : wf (hands rem) e → map_Forall (λ _ i, it_where i = Q_NONE) (framed rem e).
Proof.
  intros Hwf p i [Hi Hp]%map_lookup_filter_Some. simpl in Hp.
  apply (wf_hand _ _ Hwf) in Hp as (j & Hj & ?). congruence.
Qed.

Lemma inv_good w :
  inv w → good (w_subs w) (w_ended w) (w_log w ++ w_owed w) (e_next_handle (w_e w))
    (framed (w_removing w) (w_e w)) (hands (w_removing w)) (w_e w) (Pass [] 0 false).
Proof.
  intros [A B C D E G I J K]. split; [done|by simpl; rewrite app_nil_r|done|].
  apply map_filter_subseteq.
Qed.

(** Back from [good]: for a section that only owes the books events. *)
Lemma good_inv w e' s' ended' subs' :
  inv w → e_next_handle (w_e w) ≤ e_next_handle e' ≤ MAX_HANDLES →
  (∀ h, e_next_handle e' ≤ h → subs' !! h = None) →
  good subs' ended' (w_log w ++ w_owed w) (e_next_handle e')
    (framed (w_removing w) (w_e w)) (hands (w_removing w)) e' s' →
  (∀ p st, ended' !! p = Some st → p ∈ queue e' Q_RUNNING) →
  (∀ r g, e_regs (w_e w) !! r = Some g → r_removed g = true →
     ∃ g', e_regs e' !! r = Some g' ∧ r_removed g' = true) →
  inv (World e' (w_owed w ++ pend s') (w_log w) ended' (w_removing w) subs').
Proof.
  intros [A B C D E G I J K] Hn Hs [Hwf Hac _ HF] Hend Hreg. split; simpl; try done.
  - by rewrite (assoc_L (++)).
  - lia.
  - intros r l Hr. destruct (J r l Hr) as (g & Hg & Hrm). eauto.
  - intros r l p Hr Hp. assert (p ∈ hands (w_removing w)) as Hh.
    { apply elem_of_list_to_set, list_elem_of_In, in_concat. exists l. split; [|by apply list_elem_of_In].
      apply list_elem_of_In, list_elem_of_fmap. by exists (r, l). }
    destruct (K r l p Hr Hp) as [K1 K2].
    pose proof Hh as (i & Hi & Hw)%(wf_hand _ _ A).
    assert (framed (w_removing w) (w_e w) !! p = Some i) as Hfi by (by apply map_lookup_filter_Some).
    rewrite (get_lookup _ _ _ Hi) in K1, K2.
    pose proof (proj1 (map_subseteq_spec _ _) HF p i Hfi) as Hi'.
    by rewrite (get_lookup _ _ _ Hi').
Qed.

Lemma elem_hands rem p : p ∈ hands rem ↔ ∃ r l, (r, l) ∈ rem ∧ p ∈ l.
Proof.
  unfold hands. rewrite elem_of_list_to_set. rewrite list_elem_of_In, in_concat. split.
  - intros (l & Hl & Hp). apply list_elem_of_In, list_elem_of_fmap in Hl as ([r l'] & -> & Hr).
    exists r, l'. split; [done|by apply list_elem_of_In].
  - intros (r & l & Hr & Hp). exists l. split; [|by apply list_elem_of_In].
    apply list_elem_of_In, list_elem_of_fmap. by exists (r, l).
Qed.

(** ** The sections that write the registry or the configuration only *)

Record admin (e e' : engine) : Prop := {
  ad_items : e_items e' = e_items e;
  ad_qs : e_qs e' = e_qs e;
  ad_next : e_next_handle e' = e_next_handle e;
  ad_hidx : e_hidx e' = e_hidx e;
  ad_regs : ∀ r g, e_regs e !! r = Some g → ∃ g', e_regs e' !! r = Some g' ∧
    always_up g' = always_up g ∧ r_removed g' = r_removed g }.

Lemma admin_refl e : admin e e.
Proof. split; try done. intros r g Hg. by exists g. Qed.
Lemma admin_same e e' :
  e_items e' = e_items e → e_qs e' = e_qs e → e_next_handle e' = e_next_handle e →
  e_hidx e' = e_hidx e → e_regs e' = e_regs e → admin e e'.
Proof. intros H1 H2 H3 H4 H5. split; try done. intros r g Hg. exists g. by rewrite H5. Qed.
Lemma admin_put_reg r f e :
  (∀ g, always_up (f g) = always_up g ∧ r_removed (f g) = r_removed g) → admin e (put_reg r f e).
Proof.
  intros Hf. split; try done. intros r' g Hg. unfold put_reg. simpl. destruct (decide (r = r')) as [<-|].
  - rewrite lookup_alter_eq, Hg. eexists. split; [done|apply Hf].
  - rewrite lookup_alter_ne by done. by exists g.
Qed.

Lemma admin_inv w e' :
  inv w → admin (w_e w) e' →
  inv (World e' (w_owed w) (w_log w) (w_ended w) (w_removing w) (w_subs w)).
Proof.
  intros [A B C D E G I J K] [H1 H2 H3 H4 H5]. split; simpl; rewrite ?H3; try done.
  - by apply (wf_ext _ (w_e w)).
  - apply (acct_regs _ _ _ (w_e w)); try done. intros p i r g _ _ _ Hg.
    destruct (H5 r g Hg) as (g' & ? & ? & _). by exists g'.
  - unfold queue. by rewrite H2.
  - intros r l Hr. destruct (J r l Hr) as (g & Hg & Hrm). destruct (H5 r g Hg) as (g' & ? & _ & ?).
    exists g'. split; congruence.
  - intros r l p. unfold get. rewrite H1. by apply K.
Qed.

Lemma admin_tune t e : admin e (tune t e).
Proof. destruct t; by apply admin_same. Qed.
Lemma admin_enable tid name b e : admin e (gptps_set_task_enabled tid name b e).2.
Proof.
  unfold gptps_set_task_enabled. destruct (registry_find _ _ _) as [[r g]|]; [|apply admin_refl].
  by apply admin_put_reg.
Qed.
Lemma admin_priority tid name k e : admin e (gptps_set_task_priority tid name k e).2.
Proof.
  unfold gptps_set_task_priority. destruct (registry_find _ _ _) as [[r g]|]; [|apply admin_refl].
  by apply admin_put_reg.
Qed.
Lemma admin_cost tid task name k e : admin e (gptps_set_task_resource_cost tid task name k e).2.
Proof.
  unfold gptps_set_task_resource_cost. destruct (registry_find _ _ _) as [[r g]|]; [|apply admin_refl].
  destruct (res_index _ _); [|apply admin_refl]. by apply admin_put_reg.
Qed.
Lemma admin_settled r e : admin e (register_settled r e).
Proof. by apply admin_put_reg. Qed.

Lemma admin_column l ri (m : gmap rid reg) r g :
  m !! r = Some g → ∃ g', foldl (λ m r, alter (λ g, g <| r_res_cost ::= cost_column ri |>) r m) m l !! r = Some g' ∧
    always_up g' = always_up g ∧ r_removed g' = r_removed g.
Proof.
  revert m g. induction l as [|x l IH]; intros m g Hg; [by exists g|]. cbn [foldl].
  destruct (decide (x = r)) as [->|].
  - destruct (IH (alter (λ g, g <| r_res_cost ::= cost_column ri |>) r m) (g <| r_res_cost ::= cost_column ri |>))
      as (g' & Hg' & H1 & H2); [by rewrite lookup_alter_eq, Hg|]. exists g'. by rewrite H1, H2.
  - apply IH. by rewrite lookup_alter_ne.
Qed.
Lemma admin_resource ns name b e : admin e (gptps_define_resource ns name b e).2.
Proof.
  unfold gptps_define_resource. case_decide; [apply admin_refl|]. destruct (e_stopping e); [apply admin_refl|].
  destruct (negb _); [apply admin_refl|]. unfold res_rebudget.
  destruct (res_index _ _); [by apply admin_same|]. unfold ask_alloc.
  destruct (e_alloc _ _); [|by apply admin_same]. split; try done.
  intros r g Hg. simpl. by apply admin_column.
Qed.
Lemma admin_register ns cfg tid d e : admin e (register_link ns cfg tid d e).2.
Proof.
  unfold register_link. destruct (def_check _ d) as [k|]; [|apply admin_refl].
  destruct (argv_dup_tick k d e) as [t1 Ht1]. destruct (argv_dup k d e) as [ok1 e1]. cbn [snd] in Ht1. subst e1.
  destruct (negb ok1); [by apply admin_same|]. destruct (negb _); [by apply admin_same|].
  destruct (registry_holder _ _); [by apply admin_same|].
  destruct (reg_alloc_tick (e <| e_tick := t1 |>)) as [t2 Ht2].
  destruct (reg_alloc (e <| e_tick := t1 |>)) as [ok2 e0]. cbn [snd] in Ht2. subst e0.
  destruct (negb ok2); [by apply admin_same|]. split; try done.
  intros r g Hg. exists g. split; [|done].
  change (<[fresh (dom (e_regs e)) := service_reg (def_flags d)
    (cfg (d_name d) (new_reg tid k d (length (e_resources e))))]> (e_regs e) !! r = Some g).
  rewrite lookup_insert_ne; [done|]. intros Heq. apply (is_fresh (dom (e_regs e))).
  apply elem_of_dom. rewrite Heq. by exists g.
Qed.

(** ** The other sections *)

Definition no_pass : pass := Pass [] 0 false.

Lemma good_events subs ended log N F H e evs :
  good subs ended log N F H e (add_events no_pass evs) →
  good subs ended log N F H e (Pass evs 0 false).
Proof. intros [A B C D]. by split. Qed.

Lemma submit_inv w tid now name payload o r e' evs :
  inv w → e_next_handle (w_e w) < MAX_HANDLES →
  submit_internal tid now name payload o (w_e w) = (r, e', evs) →
  inv (World e' (w_owed w ++ evs) (w_log w) (w_ended w) (w_removing w)
    (match r, registry_find tid (w_e w) name with
     | inr h, Some (_, g) => <[h := always_up g]> (w_subs w)
     | _, _ => w_subs w
     end)).
Proof.
  intros Hw Hlt Hs. pose proof (i_next _ Hw) as Hn.
  pose proof (submit_good _ _ _ _ _ (framed_where _ _ (i_wf _ Hw)) _ _ _ tid now name payload o (inv_good w Hw) ltac:(lia) (i_subs _ Hw)) as Hg.
  pose proof (static_submit tid now name payload o (w_e w)) as Hst. rewrite Hs in Hg, Hst. cbn [fst snd] in Hst.
  assert (∀ p st, w_ended w !! p = Some st → p ∈ queue e' Q_RUNNING) as Hend.
  { rewrite (running_static _ _ Hst). apply Hw. }
  assert (∀ r g, e_regs (w_e w) !! r = Some g → r_removed g = true →
    ∃ g', e_regs e' !! r = Some g' ∧ r_removed g' = true) as Hreg.
  { rewrite (regs_static _ _ Hst). eauto. }
  destruct r as [st|h].
  - pose proof (g_next _ _ _ _ _ _ _ _ Hg) as Hnx.
    eapply (good_inv w e' (Pass evs 0 false)); [done|lia|rewrite Hnx; apply Hw| |done|done].
    apply good_events. by rewrite Hnx.
  - destruct Hg as (-> & [r g] & Hf & Hg). rewrite Hf. simpl in Hg.
    pose proof (g_next _ _ _ _ _ _ _ _ Hg) as Hnx.
    eapply (good_inv w e' (Pass evs 0 false)); [done|lia| | |done|done].
    + intros h Hh. rewrite lookup_insert_ne by lia. apply Hw. lia.
    + apply good_events. by rewrite Hnx.
Qed.

(** A section that gives no handle and takes nothing off [running]. *)
Lemma section_inv w e' evs :
  inv w →
  good (w_subs w) (w_ended w) (w_log w ++ w_owed w) (e_next_handle (w_e w))
    (framed (w_removing w) (w_e w)) (hands (w_removing w)) e' (Pass evs 0 false) →
  queue (w_e w) Q_RUNNING ⊆ queue e' Q_RUNNING → e_regs e' = e_regs (w_e w) →
  inv (World e' (w_owed w ++ evs) (w_log w) (w_ended w) (w_removing w) (w_subs w)).
Proof.
  intros Hw Hg Hr Hreg. pose proof (g_next _ _ _ _ _ _ _ _ Hg) as Hnx. pose proof (i_next _ Hw).
  eapply (good_inv w e' (Pass evs 0 false)); [done|lia|rewrite Hnx; apply Hw|by rewrite Hnx| |].
  - intros p st Hp. apply Hr. by eapply (i_ended _ Hw).
  - rewrite Hreg. eauto.
Qed.

Lemma cancel_inv w h st e' evs :
  inv w → gptps_cancel h (w_e w) = (st, e', evs) →
  inv (World e' (w_owed w ++ evs) (w_log w) (w_ended w) (w_removing w) (w_subs w)).
Proof.
  intros Hw Hc. pose proof (gptps_cancel_good _ _ _ _ _ (framed_where _ _ (i_wf _ Hw)) _ _ no_pass h (inv_good w Hw)) as Hg.
  pose proof (static_api_cancel h (w_e w)) as Hs. rewrite Hc in Hg, Hs. cbn [fst snd] in Hs.
  apply section_inv; [done|by apply good_events|by rewrite (running_static _ _ Hs)|by rewrite (regs_static _ _ Hs)].
Qed.

Lemma take_frame now e :
  let e' := (worker_take now e).1.2 in queue e Q_RUNNING ⊆ queue e' Q_RUNNING ∧ e_regs e' = e_regs e.
Proof.
  unfold worker_take. destruct (fifo_pop Q_READY e) as [[p e1]|] eqn:Hp; [|done].
  assert (static e1 = static e) as Hs by (by eapply (static_pop Q_READY p)).
  pose proof (running_static _ _ Hs) as H1. pose proof (regs_static _ _ Hs) as H2.
  destruct (discarded e1 p).
  - cbn [fst snd]. split; [|done]. unfold fifo_push. rewrite queue_put, queue_set_ne by done.
    change (queue e Q_RUNNING ⊆ queue e1 Q_RUNNING). by rewrite H1.
  - cbn [fst snd]. split; [|done]. unfold fifo_push. rewrite queue_put, queue_set_eq.
    change (queue e Q_RUNNING ⊆ queue e1 Q_RUNNING ++ [p]). rewrite H1. set_solver.
Qed.

Lemma take_inv w now t e' evs :
  inv w → worker_take now (w_e w) = (t, e', evs) →
  inv (World e' (w_owed w ++ evs) (w_log w) (w_ended w) (w_removing w) (w_subs w)).
Proof.
  intros Hw Hc.
  pose proof (worker_take_good _ _ _ _ _ (framed_where _ _ (i_wf _ Hw)) now _ _ no_pass (inv_good w Hw)) as Hg.
  pose proof (take_frame now (w_e w)) as Hs. rewrite Hc in Hg, Hs. cbn [fst snd] in Hs. destruct Hs as [H1 H2].
  apply section_inv; [done| |done|done]. apply good_events, Hg.
  intros p Hp. destruct (w_ended w !! p) as [st|] eqn:He; [|done]. exfalso.
  apply (i_ended _ Hw) in He.
  destruct (queued_item _ _ p Q_READY (i_wf _ Hw) ltac:(done) Hp) as (i & Hi & Hiw).
  destruct (queued_item _ _ p Q_RUNNING (i_wf _ Hw) ltac:(done) He) as (j & Hj & Hjw). congruence.
Qed.

Lemma end_inv w now p st raised st' ev :
  inv w → p ∈ queue (w_e w) Q_RUNNING → w_ended w !! p = None →
  execute_end now (w_e w) p st raised = (st', ev) →
  inv (World (w_e w) (w_owed w ++ [ev]) (w_log w) (<[p := st']> (w_ended w)) (w_removing w) (w_subs w)).
Proof.
  intros Hw Hp He Hx.
  pose proof (execute_end_good _ _ _ _ _ now _ _ no_pass p st raised (inv_good w Hw) Hp He) as Hac.
  rewrite Hx in Hac. destruct Hw as [A B C D E G I J K]. split; simpl; try done.
  - rewrite (assoc_L (++)). exact Hac.
  - intros q s [[<- _]|[_ Hq]]%lookup_insert_Some; [done|by eapply E].
Qed.

Lemma post_inv w p st :
  inv w → w_ended w !! p = Some st →
  inv (World (worker_post p st (w_e w)) (w_owed w) (w_log w) (delete p (w_ended w)) (w_removing w) (w_subs w)).
Proof.
  intros Hw He. pose proof (i_ended _ Hw p st He) as Hp.
  pose proof (worker_post_good _ _ _ _ _ (framed_where _ _ (i_wf _ Hw)) _ _ no_pass p st (inv_good w Hw) Hp He) as Hg.
  pose proof (i_next _ Hw).
  assert (∀ q, q ∈ queue (worker_post p st (w_e w)) Q_RUNNING ↔ q ≠ p ∧ q ∈ queue (w_e w) Q_RUNNING) as Hrun.
  { intros q. unfold worker_post, fifo_push. rewrite queue_put, queue_set_ne by done.
    change (q ∈ queue (fifo_remove Q_RUNNING p (w_e w)) Q_RUNNING ↔ q ≠ p ∧ q ∈ queue (w_e w) Q_RUNNING).
    unfold fifo_remove. rewrite queue_put, queue_set_eq. apply (list_elem_of_filter (λ x, x ≠ p)). }
  assert (good (w_subs w) (delete p (w_ended w)) (w_log w ++ w_owed w) (e_next_handle (w_e w))
    (framed (w_removing w) (w_e w)) (hands (w_removing w)) (worker_post p st (w_e w)) no_pass) as Hg'.
  { destruct Hg as [A B C D]. split; try done. eapply acct_ended; [|exact B].
    intros q i Hi Hiw. apply lookup_delete_ne. intros <-.
    assert (p ∈ queue (worker_post p st (w_e w)) Q_RUNNING) as Hq.
    { apply (wf_where _ _ A); [done|eauto]. }
    by apply Hrun in Hq as [? _]. }
  rewrite <-(app_nil_r (w_owed w)).
  assert (e_next_handle (worker_post p st (w_e w)) = e_next_handle (w_e w)) as Hnx by done.
  apply (good_inv w (worker_post p st (w_e w)) no_pass); [done|rewrite Hnx; lia|apply Hw|done| |].
  - intros q s [Hq Hs]%lookup_delete_Some. apply Hrun. split; [done|]. by eapply (i_ended _ Hw).
  - eauto.
Qed.

Lemma pass_inv w now e' s' :
  inv w → engine_pass now (w_e w) = (e', s') →
  inv (World e' (w_owed w ++ pend s') (w_log w) (w_ended w) (w_removing w) (w_subs w)).
Proof.
  intros Hw Hp.
  pose proof (engine_pass_good _ _ _ _ _ (framed_where _ _ (i_wf _ Hw)) now _ _ (inv_good w Hw) (i_next _ Hw)) as Hg.
  pose proof (static_pass now (w_e w)) as Hs. rewrite Hp in Hg, Hs. cbn [fst] in Hs.
  apply section_inv; [done| |by rewrite (running_static _ _ Hs)|by rewrite (regs_static _ _ Hs)].
  destruct Hg as [A B C D]. by split.
Qed.

Lemma emit_inv e l1 ev l2 log ended rem subs :
  inv (World e (l1 ++ ev :: l2) log ended rem subs) → inv (World e (l1 ++ l2) (log ++ [ev]) ended rem subs).
Proof.
  intros [A B C D E G I J K]. split; try done. simpl in *. eapply acct_perm; [|exact B].
  rewrite <-(assoc_L (++)). apply Permutation_app_head. simpl. symmetry. apply Permutation_middle.
Qed.

Lemma letters_inv w cb :
  inv w →
  inv (World (gptps_dead_letter_drain cb (w_e w)).2 (w_owed w) (w_log w) (w_ended w) (w_removing w) (w_subs w)).
Proof.
  intros Hw. pose proof (dead_letter_drain_good _ _ _ _ _ _ _ _ cb (framed_where _ _ (i_wf _ Hw)) (inv_good w Hw)) as Hg.
  pose proof (static_dead_drain cb (w_e w)) as Hs.
  destruct (gptps_dead_letter_drain cb (w_e w)) as [[l n] e']. cbn [snd] in *.
  rewrite <-(app_nil_r (w_owed w)).
  apply section_inv; [done|done|by rewrite (running_static _ _ Hs)|by rewrite (regs_static _ _ Hs)].
Qed.

Lemma shutdown_inv w now e' evs :
  inv w → shutdown_begin now (w_e w) = (e', evs) →
  inv (World e' (w_owed w ++ evs) (w_log w) (w_ended w) (w_removing w) (w_subs w)).
Proof.
  intros Hw Hc.
  pose proof (shutdown_begin_good _ _ _ _ _ (framed_where _ _ (i_wf _ Hw)) now _ _ no_pass (inv_good w Hw)) as Hg.
  pose proof (static_shutdown now (w_e w)) as Hs. rewrite Hc in Hg, Hs. cbn [fst] in Hs.
  destruct Hs as (H1 & H2 & _). destruct Hg as [Hg _].
  apply section_inv; [done|by apply good_events|by rewrite H2|done].
Qed.

(** *** Removals *)

Lemma hands_cons r l rem : hands ((r, l) :: rem) = list_to_set l ∪ hands rem.
Proof. unfold hands. simpl. by rewrite list_to_set_app_L. Qed.

Lemma concat_perm {A} (l l' : list (list A)) : l ≡ₚ l' → concat l ≡ₚ concat l'.
Proof.
  induction 1 as [|x l l' _ IH|x y l|l l' l'' _ IH1 _ IH2]; simpl; [done|by rewrite IH| |by rewrite IH1].
  rewrite !(assoc_L (++)). by rewrite (Permutation_app_comm x y).
Qed.

Lemma inv_perm e owed log ended rem rem' subs :
  rem ≡ₚ rem' → inv (World e owed log ended rem subs) → inv (World e owed log ended rem' subs).
Proof.
  intros Hp [A B C D E G I J K]. simpl in *.
  assert (hands rem' = hands rem) as Hh.
  { apply set_eq. intros p. rewrite !elem_hands. by setoid_rewrite Hp. }
  assert (snd <$> rem ≡ₚ snd <$> rem') as Hs by (by rewrite Hp).
  split; simpl; try done.
  - by rewrite Hh.
  - by rewrite <-(concat_perm _ _ Hs).
  - by rewrite <-Hp.
  - intros r l. rewrite <-Hp. apply J.
  - intros r l p. rewrite <-Hp. apply K.
Qed.

(** What a removal's caller holds stays as it is. *)
Lemma framed_keep w r l p e' :
  inv w → (r, l) ∈ w_removing w → p ∈ l → framed (w_removing w) (w_e w) ⊆ e_items e' →
  get e' p = get (w_e w) p.
Proof.
  intros Hw Hr Hp HF. assert (p ∈ hands (w_removing w)) as Hh by (apply elem_hands; eauto).
  pose proof Hh as (i & Hi & _)%(wf_hand _ _ (i_wf _ Hw)).
  assert (framed (w_removing w) (w_e w) !! p = Some i) as Hfi by (by apply map_lookup_filter_Some).
  pose proof (proj1 (map_subseteq_spec _ _) HF p i Hfi) as Hi'.
  by rewrite (get_lookup _ _ _ Hi), (get_lookup _ _ _ Hi').
Qed.

Lemma remove_begin_inv w tid re name mode r l e' :
  inv w → unregister_begin tid re name mode (w_e w) = (GPTPS_OK, Some (r, l), e') →
  inv (World e' (w_owed w) (w_log w) (w_ended w) ((r, l) :: w_removing w) (w_subs w)).
Proof.
  intros Hw Hu.
  pose proof (unregister_begin_good _ _ _ _ _ (framed_where _ _ (i_wf _ Hw)) tid re name mode _ _ no_pass
    (inv_good w Hw)) as Hg.
  pose proof (running_unregister tid re name mode (w_e w)) as Hrun. rewrite Hu in Hg, Hrun. cbn [snd] in Hrun.
  destruct Hg as (_ & [[Hwf Hac Hnx HF] Hnd Hnew Hitem Hsame (f & Hreg & Hf)] & g & Hgr & Hgrm).
  pose proof Hw as [A B C D E G I J K]. split; simpl.
  - by rewrite hands_cons.
  - simpl in Hac. by rewrite app_nil_r in Hac.
  - by rewrite Hnx.
  - by rewrite Hnx.
  - by rewrite Hrun.
  - apply NoDup_app. split_and!; [done| |done]. intros p Hp Hp2. apply (Hnew p Hp).
    by apply elem_of_list_to_set.
  - constructor; [|done]. intros ([r' l'] & Heq & Hr)%list_elem_of_fmap. simpl in Heq. subst r'.
    destruct (J r l' Hr) as (g' & ? & ?). congruence.
  - intros r' l' [[= -> ->]|Hr]%elem_of_cons.
    + exists (f g). rewrite Hreg, lookup_alter_eq, Hgr. split; [done|apply Hf].
    + destruct (J r' l' Hr) as (g' & Hg' & Hrm). exists g'. split; [|done].
      rewrite Hreg, lookup_alter_ne; [done|]. intros <-. congruence.
  - intros r' l' p [[= -> ->]|Hr]%elem_of_cons Hp; [by apply Hitem|].
    rewrite (framed_keep w r' l' p e' Hw Hr Hp HF). by apply (K r' l').
Qed.

Lemma regs_unregister_end r l e r' :
  r' ≠ r → e_regs (unregister_end r l e).1 !! r' = e_regs e !! r'.
Proof.
  intros Hr. unfold unregister_end. pose proof (regs_static _ _ (static_detach_dead r e)) as H1.
  destruct (detach_dead_letter r e) as [named e1].
  pose proof (regs_static _ _ (static_drain_cancelled l (registry_unlink r e1))) as H2.
  destruct (drain_cancelled l _) as [evs e2]. cbn [fst snd] in *.
  change (e_regs e2 = e_regs e1) in H2. destruct named; cbn [fst]; [|congruence].
  change (delete r (e_regs e2) !! r' = e_regs e !! r'). by rewrite lookup_delete_ne, H2, H1.
Qed.

Lemma remove_end_inv e owed log ended rem r l subs e' evs :
  inv (World e owed log ended ((r, l) :: rem) subs) → reg_live_refs e r = 0%nat →
  unregister_end r l e = (e', evs) →
  inv (World e' (owed ++ evs) log ended rem subs).
Proof.
  intros Hw Hz Hu. pose proof Hw as [A B C D E G I J K]. simpl in *.
  rewrite hands_cons in A. apply NoDup_app in G as (G1 & G2 & G3). apply NoDup_cons in I as [I1 I2].
  assert (∀ p, p ∈ l → p ∉ hands rem) as Hdis.
  { intros p Hp Hh. apply (G2 p Hp). by apply elem_of_list_to_set in Hh. }
  assert (map_Forall (λ _ i, it_where i = Q_NONE) (framed rem e)) as HF.
  { intros p i [Hi Hp]%map_lookup_filter_Some. simpl in Hp.
    assert (p ∈ list_to_set l ∪ hands rem) as (j & Hj & ?)%(wf_hand _ _ A) by (by apply elem_of_union_r).
    congruence. }
  assert (∀ r' l', (r', l') ∈ rem → r' ≠ r) as Hne.
  { intros r' l' Hr' ->. apply I1, list_elem_of_fmap. by exists (r, l'). }
  pose proof (unregister_end_good subs ended (log ++ owed) (e_next_handle e) (framed rem e) HF r l (hands rem) e no_pass) as Hg.
  pose proof (λ r', regs_unregister_end r l e r') as Hreg.
  pose proof (running_unregister_end r l e) as Hrun. rewrite Hu in Hg, Hreg, Hrun. cbn [fst] in Hreg, Hrun.
  destruct Hg as [Hwf Hac Hnx HFe].
  - split; [done|by simpl; rewrite app_nil_r|done|apply map_filter_subseteq].
  - done.
  - intros p Hp. split; [by apply Hdis|]. apply map_lookup_filter_None. right. intros i _. by apply Hdis.
  - intros p Hp. apply (K r l); [apply elem_of_cons; by left|done].
  - intros p (r' & l' & Hr' & Hp)%elem_hands.
    destruct (K r' l' p ltac:(by apply elem_of_cons; right) Hp) as [-> _]. intros [= ->]. by eapply Hne.
  - done.
  - split; simpl.
    + done.
    + rewrite (assoc_L (++)). exact Hac.
    + by rewrite Hnx.
    + by rewrite Hnx.
    + by rewrite Hrun.
    + done.
    + done.
    + intros r' l' Hr'. rewrite Hreg by (by eapply Hne). apply (J r' l'). by apply elem_of_cons; right.
    + intros r' l' p Hr' Hp. assert (p ∈ hands rem) as Hh by (apply elem_hands; eauto).
      assert (p ∈ list_to_set l ∪ hands rem) as (i & Hi & _)%(wf_hand _ _ A) by (by apply elem_of_union_r).
      assert (framed rem e !! p = Some i) as Hfi by (by apply map_lookup_filter_Some).
      pose proof (proj1 (map_subseteq_spec _ _) HFe p i Hfi) as Hi'.
      rewrite (get_lookup _ _ _ Hi'), <-(get_lookup _ _ _ Hi). apply (K r' l'); [|done].
      by apply elem_of_cons; right.
Qed.

Lemma joined_inv e owed log ended subs e' evs :
  inv (World e owed log ended [] subs) → queue e Q_RUNNING = [] → shutdown_end e = (e', evs) →
  inv (World e' (owed ++ evs) log ended [] subs) ∧ e_items e' = ∅.
Proof.
  intros Hw Hq Hs. pose proof Hw as [A B C D E G I J K]. simpl in *.
  pose proof (shutdown_end_good subs ended (log ++ owed) (e_next_handle e) e no_pass) as Hg.
  rewrite Hs in Hg. destruct Hg as [[Hwf Hac Hnx _] He].
  { split; [done|by simpl; rewrite app_nil_r|done|apply map_empty_subseteq]. }
  { done. }
  split; [|done]. split; simpl; try done.
  - rewrite (assoc_L (++)). exact Hac.
  - by rewrite Hnx.
  - by rewrite Hnx.
  - intros p st Hp. apply E in Hp. rewrite Hq in Hp. by apply not_elem_of_nil in Hp.
  - by intros r l ?%not_elem_of_nil.
  - by intros r l p ?%not_elem_of_nil.
Qed.

Lemma step_inv w w' : step w w' → inv w → inv w'.
Proof.
  destruct 1 as [e owed log ended rem subs tid now name payload o r e' evs Hlt Hs
    |e owed log ended rem subs h st e' evs Hs|e owed log ended rem subs now t e' evs Hs
    |e owed log ended rem subs now p st raised st' ev Hp He Hs|e owed log ended rem subs p st He
    |e owed log ended rem subs now e' s' Hs|e l1 ev l2 log ended rem subs
    |e owed log ended rem subs tid re name mode r l e' Hs
    |e owed log ended rem1 r l rem2 subs e' evs Hz Hs| | | | | | | |
    |e owed log ended rem subs now e' evs Hs|e owed log ended subs e' evs Hst Hq Hs]; intros Hw.
  - by apply (submit_inv _ tid now name payload o r e' evs Hw).
  - by apply (cancel_inv _ h st e' evs Hw).
  - by apply (take_inv _ now t e' evs Hw).
  - by apply (end_inv _ now p st raised st' ev Hw).
  - by apply (post_inv _ p st Hw).
  - by apply (pass_inv _ now e' s' Hw).
  - by apply emit_inv.
  - by apply (remove_begin_inv _ tid re name mode r l e' Hw).
  - eapply remove_end_inv; [|exact Hz|exact Hs]. eapply inv_perm; [|exact Hw].
    symmetry. apply Permutation_middle.
  - apply (admin_inv _ _ Hw), admin_enable.
  - apply (admin_inv _ _ Hw), admin_priority.
  - apply (admin_inv _ _ Hw), admin_register.
  - apply (admin_inv _ _ Hw), admin_settled.
  - apply (admin_inv _ _ Hw), admin_resource.
  - apply (admin_inv _ _ Hw), admin_cost.
  - apply (admin_inv _ _ Hw), admin_tune.
  - by apply (letters_inv _ cb Hw).
  - by apply (shutdown_inv _ now e' evs Hw).
  - by apply (joined_inv _ _ _ _ _ _ _ Hw Hq Hs).
Qed.

Lemma reachable_inv w : reachable w → inv w.
Proof.
  intros (w0 & Hi & Hr). apply initial_inv in Hi. induction Hr as [w|w1 w2 w3 Hs _ IH]; [done|].
  by apply IH, (step_inv w1).
Qed.

End Lifecycle.
