(* ===== verification/Outcomes.v ===== *)
(** * What every history of the engine guarantees

    The theorems about reachable worlds: a handle is closed by one event, the
    shutdown closes all of them, the handle index finds exactly what is in play, a
    removed type leaves nothing behind, and the entry points answer as documented. *)

From S2P Require Import Prelude HandleIndex Engine EnginePass EngineApi Registry.
From S2P Require Import EngineFacts EngineAcct EnginePassFacts EngineApiFacts EngineMgmtFacts EngineStatic.
From S2P Require Import Lifecycle.
Import Engine EnginePass EngineApi Registry EngineFacts EngineAcct EnginePassFacts EngineApiFacts.
Import EngineMgmtFacts EngineStatic Lifecycle.

Module Outcomes.

(** A handle is in play while an item of it is in a queue or in a section's hands. *)
Definition in_play (e : engine) (h : Z) : Prop :=
  ∃ p i, e_items e !! p = Some i ∧ it_handle i = h ∧ it_where i ≠ Q_DEAD.
(** The closing events a handle has had, emitted or owed. *)
Definition closings (w : world) (h : Z) : nat := closed (w_subs w) (w_log w ++ w_owed w) h.

(** ** A small history, for the witnesses *)

Definition demo_policy : failure_policy := Policy 0 1 0 DEAD_LETTER.
Definition demo_reg : reg :=
  Reg "job" EXEC_INPROC 10 None demo_policy 0 true None false false false false None.
Definition demo_engine : engine :=
  Engine 100 2 0 {[1%positive := demo_reg]} [1%positive] ∅ (λ _, []) 0 0 8 0 0 0 [] false 1000 0 false 1
    (HandleIndex.Hidx [] 0) None [] 8 0 (λ _, true).
Definition demo_world : world := World demo_engine [] [] ∅ [] ∅.
Lemma demo_initial : initial demo_world.
Proof. by repeat split. Qed.

Definition demo_submitted : engine :=
  (submit_internal 7 5 "job" [1; 2] no_options demo_engine).1.2.
Lemma demo_submit_eq : submit_internal 7 5 "job" [1; 2] no_options demo_engine =
  (inr 1, demo_submitted, [Event EV_QUEUED 1 "job" GPTPS_OK 0 10 0]).
Proof.
  assert ((submit_internal 7 5 "job" [1; 2] no_options demo_engine).1.1 = inr 1) as H1 by (by vm_compute).
  assert ((submit_internal 7 5 "job" [1; 2] no_options demo_engine).2 =
    [Event EV_QUEUED 1 "job" GPTPS_OK 0 10 0]) as H2 by (by vm_compute).
  unfold demo_submitted. destruct (submit_internal _ _ _ _ _ _) as [[r e'] evs]. by simpl in *; subst.
Qed.
Definition demo_world1 : world :=
  World demo_submitted [Event EV_QUEUED 1 "job" GPTPS_OK 0 10 0] [] ∅ [] {[1 := false]}.
Lemma demo_reachable : reachable demo_world1.
Proof.
  exists demo_world. split; [apply demo_initial|]. eapply rtc_l; [|apply rtc_refl].
  eapply (st_submit demo_engine [] [] ∅ [] ∅ 7 5 "job" [1; 2] no_options (inr 1) demo_submitted); [done|].
  exact demo_submit_eq.
Qed.
Definition demo_cancelled : engine := (gptps_cancel 1 demo_submitted).1.2.
Lemma demo_cancel_eq : gptps_cancel 1 demo_submitted =
  (GPTPS_OK, demo_cancelled, [Event EV_FAILED 1 "job" GPTPS_E_CANCELLED 1 10 0]).
Proof.
  assert ((gptps_cancel 1 demo_submitted).1.1 = GPTPS_OK) as H1 by (by vm_compute).
  assert ((gptps_cancel 1 demo_submitted).2 = [Event EV_FAILED 1 "job" GPTPS_E_CANCELLED 1 10 0]) as H2 by (by vm_compute).
  unfold demo_cancelled. destruct (gptps_cancel _ _) as [[r e'] evs]. by simpl in *; subst.
Qed.
Definition demo_world2 : world :=
  World demo_cancelled [Event EV_QUEUED 1 "job" GPTPS_OK 0 10 0; Event EV_FAILED 1 "job" GPTPS_E_CANCELLED 1 10 0]
    [] ∅ [] {[1 := false]}.
Lemma demo_reachable2 : reachable demo_world2.
Proof.
  destruct demo_reachable as (w0 & Hi & Hr). exists w0. split; [done|]. eapply rtc_r; [exact Hr|].
  exact (st_cancel demo_submitted [Event EV_QUEUED 1 "job" GPTPS_OK 0 10 0] [] ∅ [] {[1 := false]} 1
    GPTPS_OK demo_cancelled _ demo_cancel_eq).
Qed.

(** ** Closing events *)

Lemma phase_le ended regs p i n : phase_n ended regs p i n → it_where i ≠ Q_DEAD → (n ≤ 1)%nat.
Proof.
  assert (∀ b, (Nat.b2n b ≤ 1)%nat) as Hb by (intros []; simpl; lia).
  unfold phase_n. destruct (it_where i); intros Hn Hd; try done.
  all: first [by rewrite Hn; apply Hb|destruct Hn as [_ ->]; first [lia|destruct (ended !! p); [apply Hb|lia]]].
Qed.

(** C1: In every reachable world a handle the engine gave out has had at most one
    closing event - FINISHED (of a handle that is not an always-up service's), FAILED
    with GPTPS_E_CANCELLED, DEAD_LETTERED or DROPPED - counting those emitted and those
    owed, and a handle that is no longer in play has had exactly one. *)
Theorem closed_exactly_once w h :
  reachable w → 1 ≤ h < e_next_handle (w_e w) →
  (closings w h ≤ 1)%nat ∧ (¬ in_play (w_e w) h → closings w h = 1%nat).
Proof.
  intros Hr Hh. pose proof (reachable_inv w Hr) as Hw. destruct (i_acct _ Hw) as [A B C D].
  unfold closings, in_play. split.
  - destruct (C h Hh) as [(p & i & Hi & <- & Hd)|Hc]; [|lia].
    by eapply phase_le; [exact (A p i Hi)|].
  - intros Hn. destruct (C h Hh) as [?|?]; [|done]. by destruct Hn.
Qed.
Lemma closed_exactly_once_witness :
  1 ≤ 1 < e_next_handle (w_e demo_world2) ∧ (closings demo_world2 1 ≤ 1)%nat.
Proof.
  split; [by vm_compute|]. apply (closed_exactly_once demo_world2 1); [apply demo_reachable2|by vm_compute].
Defined.

(** A handle not given out yet has no event that could close it, and no handle is
    ever given out twice: the items of a reachable world have distinct handles below
    the next one. *)
Theorem handles_distinct w :
  reachable w →
  (∀ h, e_next_handle (w_e w) ≤ h → closings w h = 0%nat) ∧
  (∀ p q i j, e_items (w_e w) !! p = Some i → e_items (w_e w) !! q = Some j →
     it_handle i = it_handle j → p = q) ∧
  (∀ p i, e_items (w_e w) !! p = Some i → 1 ≤ it_handle i < e_next_handle (w_e w)).
Proof.
  intros Hr. pose proof (reachable_inv w Hr) as Hw. split_and!.
  - apply (ac_new _ _ _ _ (i_acct _ Hw)).
  - apply (wf_handle _ _ (i_wf _ Hw)).
  - apply (wf_range _ _ (i_wf _ Hw)).
Qed.
Lemma handles_distinct_witness : closings demo_world2 2 = 0%nat.
Proof. apply (handles_distinct demo_world2 demo_reachable2). by vm_compute. Defined.

(** C12: Every item is in exactly the queue its [where] names, once, and in no other:
    the queues partition the items, whatever the interleaving of the sections. *)
Theorem queues_partition w q p :
  reachable w → q ≠ Q_NONE →
  NoDup (queue (w_e w) q) ∧
  (p ∈ queue (w_e w) q ↔ ∃ i, e_items (w_e w) !! p = Some i ∧ it_where i = q) ∧
  (∀ q', q' ≠ Q_NONE → q' ≠ q → p ∈ queue (w_e w) q → p ∉ queue (w_e w) q').
Proof.
  intros Hr Hq. pose proof (i_wf _ (reachable_inv w Hr)) as Hwf. split_and!.
  - apply Hwf.
  - by apply (wf_where _ _ Hwf).
  - intros q' Hq' Hne (i & Hi & Hw)%(wf_where _ _ Hwf); [|done].
    intros (j & Hj & ?)%(wf_where _ _ Hwf); [|done]. congruence.
Qed.
Lemma queues_partition_witness : NoDup (queue (w_e demo_world1) Q_INTAKE).
Proof. apply (queues_partition demo_world1 Q_INTAKE 1%positive demo_reachable). done. Defined.

(** ** The shutdown *)

(** C2: When the pumps have stopped (nothing running, no removal under way) the last
    section of gptps_shutdown leaves no item at all, and every handle ever given out
    has then had exactly one closing event. *)
Theorem shutdown_closes_all e owed log ended subs e' evs h :
  reachable (World e owed log ended [] subs) → queue e Q_RUNNING = [] →
  shutdown_end e = (e', evs) → 1 ≤ h < e_next_handle e →
  e_items e' = ∅ ∧ closed subs (log ++ owed ++ evs) h = 1%nat.
Proof.
  intros Hr Hq Hs Hh. pose proof (reachable_inv _ Hr) as Hw.
  destruct (joined_inv _ _ _ _ _ _ _ Hw Hq Hs) as [Hw' He]. split; [done|].
  assert (e_next_handle e' = e_next_handle e) as Hn.
  { pose proof (shutdown_end_good subs ended (log ++ owed) (e_next_handle e) e no_pass) as Hg.
    rewrite Hs in Hg. destruct Hg as [Hg _]; [|done|exact (g_next _ _ _ _ _ _ _ _ Hg)].
    pose proof (inv_good _ Hw) as [A B C D]. split; [done|done|done|apply map_empty_subseteq]. }
  destruct (ac_gone _ _ _ _ (i_acct _ Hw') h) as [(p & i & Hi & _)|Hc]; [simpl; lia| |exact Hc].
  simpl in Hi. by rewrite He, lookup_empty in Hi.
Qed.
Lemma shutdown_closes_all_witness :
  e_items (shutdown_end demo_submitted).1 = ∅ ∧
  closed {[1 := false]} ([] ++ [Event EV_QUEUED 1 "job" GPTPS_OK 0 10 0] ++ (shutdown_end demo_submitted).2) 1 = 1%nat.
Proof.
  destruct (shutdown_end demo_submitted) as [e' evs] eqn:He.
  apply (shutdown_closes_all demo_submitted _ [] ∅ _ e' evs 1 demo_reachable); [by vm_compute|exact He|by vm_compute].
Defined.

(** ** Cancel *)

Lemma lookup_index w p i :
  reachable w → e_items (w_e w) !! p = Some i → live_q (it_where i) = true →
  HandleIndex.hidx_lookup (e_hidx (w_e w)) (it_handle i) = Some p.
Proof.
  intros Hr Hi Hl. pose proof (i_wf _ (reachable_inv w Hr)) as Hwf.
  destruct (wf_index _ _ Hwf) as (m & Hm & Hmi). rewrite (HandleIndex.hidx_lookup_eq _ _ _ Hm).
  apply Hmi. exists i. split_and!; [done|done|by eapply (wf_indexed _ _ Hwf)].
Qed.

(** C11: gptps_cancel of a handle, by where its item is: queued or parked, the item is
    gone and its one FAILED / GPTPS_E_CANCELLED is owed; admitted, running or awaiting
    its verdict, it is flagged, its cancel word raised, and nothing else moves; retained
    as a dead letter, in a section's hands, or unknown, GPTPS_E_NOTFOUND and no change. *)
Theorem cancel_outcome w h st e' evs :
  reachable w → h ≠ 0 → e_stopping (w_e w) = false →
  gptps_cancel h (w_e w) = (st, e', evs) →
  (∀ p i, e_items (w_e w) !! p = Some i → it_handle i = h →
     match it_where i with
     | Q_INTAKE | Q_DELAYED =>
         st = GPTPS_OK ∧ e_items e' = delete p (e_items (w_e w)) ∧
         evs = [Event EV_FAILED h (item_name (w_e w) p) GPTPS_E_CANCELLED (it_attempt i) (it_mem i) 0]
     | Q_READY | Q_RUNNING | Q_DONE =>
         st = GPTPS_OK ∧ evs = [] ∧ e_qs e' = e_qs (w_e w) ∧
         e_items e' = <[p := i <| it_cancelled := true |> <| it_cancel := true |>]> (e_items (w_e w))
     | Q_NONE | Q_DEAD => st = GPTPS_E_NOTFOUND ∧ e' = w_e w ∧ evs = []
     end) ∧
  ((∀ p i, e_items (w_e w) !! p = Some i → it_handle i ≠ h) →
     st = GPTPS_E_NOTFOUND ∧ e' = w_e w ∧ evs = []).
Proof.
  intros Hr Hh Hst Hc. pose proof (reachable_inv w Hr) as Hw. pose proof (i_wf _ Hw) as Hwf.
  unfold gptps_cancel in Hc. rewrite (proj2 (Z.eqb_neq h 0) Hh), Hst in Hc.
  destruct (HandleIndex.hidx_lookup (e_hidx (w_e w)) h) as [q|] eqn:Hl.
  - destruct (hidx_lookup_item _ _ _ _ Hwf Hl) as (j & Hj & Hjh & _).
    rewrite (get_lookup _ _ _ Hj) in Hc.
    assert (∀ p i, e_items (w_e w) !! p = Some i → it_handle i = h → p = q ∧ i = j) as Hone.
    { intros p i Hi Hih. assert (p = q) as -> by (eapply (wf_handle _ _ Hwf); [exact Hi|exact Hj|congruence]).
      split; congruence. }
    assert (∀ q0, e_items (item_drop q (fifo_remove q0 q (w_e w))) = delete q (e_items (w_e w))) as Hdrop.
    { intros q0. unfold item_drop, item_free. set (e1 := hidx_del q _).
      assert (∃ f, e_items e1 = alter f q (e_items (w_e w))) as [f Hf].
      { unfold e1, hidx_del. destruct (it_indexed _); [|by eexists].
        exists (λ i, i <| it_where := Q_NONE |> <| it_indexed := false |>).
        change (alter (λ i, i <| it_indexed := false |>) q (alter (λ i, i <| it_where := Q_NONE |>) q (e_items (w_e w))) =
          alter (λ i, i <| it_where := Q_NONE |> <| it_indexed := false |>) q (e_items (w_e w))).
        rewrite alter_alter_eq. reflexivity. }
      simpl. rewrite Hf. apply map_eq. intros x. destruct (decide (q = x)) as [<-|].
      - by rewrite !lookup_delete_eq.
      - by rewrite !lookup_delete_ne, lookup_alter_ne. }
    assert (∀ q0, item_event (fifo_remove q0 q (w_e w)) q EV_FAILED GPTPS_E_CANCELLED 0 =
      Event EV_FAILED h (item_name (w_e w) q) GPTPS_E_CANCELLED (it_attempt j) (it_mem j) 0) as Hev.
    { intros q0. assert (get (fifo_remove q0 q (w_e w)) q = j <| it_where := Q_NONE |>) as Hg by (by apply get_put_eq).
      unfold item_event, item_name, reg_of. rewrite Hg, (get_lookup _ _ _ Hj), <-Hjh. reflexivity. }
    assert (e_items (cancel_item q (w_e w)) =
      <[q := j <| it_cancelled := true |> <| it_cancel := true |>]> (e_items (w_e w))) as Hci.
    { unfold cancel_item, cancel_raise. rewrite !items_put, alter_alter_eq.
      exact (alter_insert _ (λ i, i <| it_cancelled := true |> <| it_cancel := true |>) q j Hj). }
    split; [|by intros Hno; destruct (Hno q j Hj)].
    intros p i Hi Hih. destruct (Hone p i Hi Hih) as [-> ->]. clear Hone.
    destruct (it_where j); injection Hc as <- <- <-; try done.
    + split_and!; [done|apply (Hdrop Q_INTAKE)|f_equal; apply (Hev Q_INTAKE)].
    + split_and!; [done|apply (Hdrop Q_DELAYED)|f_equal; apply (Hev Q_DELAYED)].
  - injection Hc as <- <- <-. split; [|done]. intros p i Hi Hih.
    assert (live_q (it_where i) = false) as Hlq.
    { destruct (live_q (it_where i)) eqn:Hlq; [|done]. exfalso.
      pose proof (lookup_index w p i Hr Hi Hlq) as Hx. congruence. }
    by destruct (it_where i).
Qed.
Lemma cancel_outcome_witness :
  e_stopping (w_e demo_world1) = false ∧ e_items demo_cancelled = delete 1%positive (e_items demo_submitted).
Proof.
  split; [by vm_compute|].
  pose proof (cancel_outcome demo_world1 1 _ _ _ demo_reachable ltac:(done) eq_refl demo_cancel_eq) as [H _].
  destruct (e_items demo_submitted !! 1%positive) as [i|] eqn:Hi; [|by vm_compute in Hi].
  specialize (H 1%positive i Hi). assert (it_handle i = 1 ∧ it_where i = Q_INTAKE) as [H1 H2].
  { vm_compute in Hi. injection Hi as <-. done. }
  specialize (H H1). rewrite H2 in H. apply H.
Defined.

(** ** Submit *)



(** Submit_check's verdicts, in the code's order: the cost hook's own status; then
    GPTPS_E_BUDGET for a memory cost above the whole budget or a resource cost above its
    whole budget; then GPTPS_E_FULL at the intake bound; and otherwise the item's cost. *)
Theorem submit_check_spec e g payload :
  let costed := match r_cost g with
                | None => (GPTPS_OK, r_default_cost g)
                | Some f => f payload (r_default_cost g)
                end in
  let never := (e_max_memory_bytes e < costed.2) ∨
    ∃ rc i r c, r_res_cost g = Some rc ∧ e_resources e !! i = Some r ∧ rc !! i = Some c ∧ rs_budget r < c in
  let deep := e_max_intake_depth e ≠ 0 ∧ e_max_intake_depth e ≤ count e Q_INTAKE in
  match submit_check e g payload with
  | inl st => (costed.1 ≠ GPTPS_OK ∧ st = costed.1) ∨
              (costed.1 = GPTPS_OK ∧ never ∧ st = GPTPS_E_BUDGET) ∨
              (costed.1 = GPTPS_OK ∧ ¬ never ∧ deep ∧ st = GPTPS_E_FULL)
  | inr cost => costed.1 = GPTPS_OK ∧ cost = costed.2 ∧ ¬ never ∧ ¬ deep
  end.
Proof.
  intros costed never deep. assert (∀ rs rc, res_all (λ r c, negb (rs_budget r <? c)) rs rc = false ↔
    ∃ i r c, rs !! i = Some r ∧ rc !! i = Some c ∧ rs_budget r < c) as Hres.
  { clear. induction rs as [|r rs IH]; intros rc; simpl.
    { split; [done|]. intros (i & r & c & Hr & _). by rewrite lookup_nil in Hr. }
    destruct rc as [|c rc].
    { split; [done|]. intros (i & r' & c & _ & Hc & _). by rewrite lookup_nil in Hc. }
    rewrite andb_false_iff, IH. split.
    - intros [Hn%negb_false_iff%Z.ltb_lt|(i & r' & c' & ? & ? & ?)]; [by exists 0%nat, r, c|by exists (S i), r', c'].
    - intros ([|i] & r' & c' & Hr & Hc & Hlt); simpl in *; simplify_eq;
        [left; by apply negb_false_iff, Z.ltb_lt|right; eauto 8]. }
  assert (submit_check e g payload = match costed with
    | (GPTPS_OK, c) => if e_max_memory_bytes e <? c then inl GPTPS_E_BUDGET
        else if match r_res_cost g with None => false
                | Some rc => negb (nres e =? 0) && negb (res_all (λ r c, negb (rs_budget r <? c)) (e_resources e) rc) end
        then inl GPTPS_E_BUDGET
        else if negb (e_max_intake_depth e =? 0) && (e_max_intake_depth e <=? count e Q_INTAKE)
             then inl GPTPS_E_FULL else inr c
    | (st, _) => inl st end) as ->.
  { unfold submit_check, costed. destruct (r_cost g) as [f|]; [|done]. by destruct (f payload _) as [[] c]. }
  destruct costed as [cs c] eqn:Hcs. destruct (decide (cs = GPTPS_OK)) as [->|Hne].
  2:{ destruct cs; try done; by left. }
  simpl. destruct (Z.ltb_spec (e_max_memory_bytes e) c) as [Hlt|Hge].
  { right. left. split_and!; [done|by left|done]. }
  destruct (match r_res_cost g with None => false | Some _ => _ end) eqn:Hrc.
  { right. left. split_and!; [done| |done]. right. destruct (r_res_cost g) as [rc|]; [|done].
    apply andb_true_iff in Hrc as [_ Hrc%negb_true_iff%Hres]. destruct Hrc as (i & r & c' & ? & ? & ?).
    by exists rc, i, r, c'. }
  assert (¬ never) as Hnever.
  { intros [?|(rc & i & r & c' & Hg & Hr & Hc & Hb)]; [simpl in *; lia|]. rewrite Hg in Hrc.
    apply andb_false_iff in Hrc as [Hz|Hall].
    - apply negb_false_iff, Z.eqb_eq in Hz. unfold nres in Hz. destruct (e_resources e); [done|simpl in Hz; lia].
    - apply negb_false_iff in Hall. assert (res_all (λ r c, negb (rs_budget r <? c)) (e_resources e) rc = false).
      { apply Hres. by exists i, r, c'. }
      congruence. }
  destruct (negb (e_max_intake_depth e =? 0) && _) eqn:Hd.
  - right. right. apply andb_true_iff in Hd as [H1%negb_true_iff%Z.eqb_neq H2%Z.leb_le]. by split_and!.
  - split_and!; [done|done|done|]. intros [H1 H2]. apply andb_false_iff in Hd as [Hd|Hd].
    + by apply negb_false_iff, Z.eqb_eq in Hd.
    + apply Z.leb_gt in Hd. lia.
Qed.

End Outcomes.
