(* ===== verification/Ledger.v ===== *)
(** * The ledger

    [e->reserved_mem], [e->running] and each resource's [reserved] are counters the
    dispatcher adds to and takes from.  Here: what they count.  [charges] is what the
    admitted items - in [ready], running, or in [done] - hold; [ledger] says the
    counters are its sums, at their width; [tidy] adds that every queue holds items
    whose [where] names it.  Each primitive keeps both, so every section does. *)

From S2P Require Import Prelude HandleIndex Engine EnginePass EngineApi EngineFacts.
Import Engine EnginePass EngineApi EngineFacts.

Module Ledger.

Definition committed (q : qid) : bool :=
  match q with Q_READY | Q_RUNNING | Q_DONE => true | _ => false end.
(** What an item holds of the budgets: its memory and its resource snapshot. *)
Definition charge (i : item) : option (Z * list Z) :=
  if committed (it_where i) then Some (it_mem i, default [] (it_res i)) else None.
Definition charges (e : engine) : gmap ptr (Z * list Z) := omap charge (e_items e).
Definition amount (k : nat) (c : Z * list Z) : Z := default 0 (c.2 !! k).

Record ledger (e : engine) : Prop := {
  l_mem : e_reserved_mem e = u64 (total fst (charges e));
  l_run : e_running e = u32 (Z.of_nat (size (charges e)));
  l_res : ∀ k r, e_resources e !! k = Some r → rs_reserved r = u64 (total (amount k) (charges e));
  l_len : ∀ p c, charges e !! p = Some c → (length c.2 ≤ length (e_resources e))%nat }.

(** An item in a section's hands, and an engine whose queues and counters agree. *)
Definition hand (e : engine) (p : ptr) : Prop := ∃ i, e_items e !! p = Some i ∧ it_where i = Q_NONE ∧ it_res i = None.
Record tidy (e : engine) : Prop := {
  t_nodup : ∀ q, NoDup (queue e q);
  t_where : ∀ q p, q ≠ Q_NONE → p ∈ queue e q → ∃ i, e_items e !! p = Some i ∧ it_where i = q;
  t_free : ∀ p i, e_items e !! p = Some i → committed (it_where i) = false → it_res i = None;
  t_ledger : ledger e }.

Lemma res_apply_lookup f rs snap k :
  res_apply f rs snap !! k =
  match rs !! k, snap !! k with
  | Some r, Some x => Some (r <| rs_reserved ::= λ v, u64 (f v x) |>)
  | Some r, None => Some r
  | None, _ => None
  end.
Proof.
  revert snap k. induction rs as [|r rs IH]; intros snap k; simpl.
  { by destruct snap; rewrite lookup_nil. }
  destruct snap as [|x snap]; [by rewrite lookup_nil; destruct ((r :: rs) !! k)|].
  destruct k as [|k]; [done|]. simpl. apply IH.
Qed.
Lemma length_res_apply f rs snap : length (res_apply f rs snap) = length rs.
Proof. revert snap. induction rs as [|r rs IH]; intros [|x snap]; simpl; [done..|]. by rewrite IH. Qed.

(** ** What an operation on one item does to the charges *)

Lemma charges_lookup e p : charges e !! p = e_items e !! p ≫= charge.
Proof. unfold charges. by rewrite lookup_omap. Qed.

Lemma charges_alter (m : gmap ptr item) f p :
  (∀ i, m !! p = Some i → charge (f i) = charge i) → omap charge (alter f p m) = omap charge m.
Proof.
  intros Hf. apply map_eq. intros x. rewrite !lookup_omap. destruct (decide (p = x)) as [<-|].
  - rewrite lookup_alter_eq. destruct (m !! p) as [i|]; [simpl; by apply Hf|done].
  - by rewrite lookup_alter_ne.
Qed.
Lemma charges_delete (m : gmap ptr item) p : omap charge (delete p m) = delete p (omap charge m).
Proof.
  apply map_eq. intros x. rewrite lookup_omap. destruct (decide (p = x)) as [<-|].
  - by rewrite !lookup_delete_eq.
  - by rewrite !lookup_delete_ne, lookup_omap by done.
Qed.

(** The ledger reads nothing but these. *)
Lemma ledger_ext e e' :
  charges e' = charges e → e_reserved_mem e' = e_reserved_mem e → e_running e' = e_running e →
  e_resources e' = e_resources e → ledger e → ledger e'.
Proof. intros H1 H2 H3 H4 [A B C D]. split; rewrite ?H1, ?H2, ?H3, ?H4; done. Qed.

(** Fields a write may touch. *)
Definition light (f : item → item) : Prop := ∀ i,
  it_where (f i) = it_where i ∧ it_mem (f i) = it_mem i ∧ it_res (f i) = it_res i.
Lemma light_charge f i : light f → charge (f i) = charge i.
Proof. intros Hf. destruct (Hf i) as (H1 & H2 & H3). unfold charge. by rewrite H1, H2, H3. Qed.

Lemma tidy_ext e e' :
  e_items e' = e_items e → e_qs e' = e_qs e → e_reserved_mem e' = e_reserved_mem e →
  e_running e' = e_running e → e_resources e' = e_resources e → tidy e → tidy e'.
Proof.
  intros H1 H2 H3 H4 H5 [A B C D]. unfold queue in *. split; unfold queue; rewrite ?H1, ?H2; try done.
  apply (ledger_ext e); [|done..|exact D]. unfold charges. by rewrite H1.
Qed.

Lemma tidy_put f p e : light f → tidy e → tidy (put p f e).
Proof.
  intros Hf [A B C D]. split.
  - done.
  - intros q x Hq Hx. destruct (B q x Hq Hx) as (i & Hi & Hw). rewrite items_put.
    destruct (decide (p = x)) as [<-|].
    + rewrite lookup_alter_eq, Hi. eexists. split; [done|]. by rewrite (proj1 (Hf i)).
    + rewrite lookup_alter_ne by done. by exists i.
  - intros x j (i & Hi & ->)%lookup_alter_inv. case_decide; [|by apply (C x)].
    destruct (Hf i) as (-> & _ & ->). by apply (C x).
  - apply (ledger_ext e); [|done..|exact D]. apply charges_alter. intros i _. by apply light_charge.
Qed.
Lemma hand_put f p x e : light f → hand e x → hand (put p f e) x.
Proof.
  intros Hf (i & Hi & Hw & Hr). unfold hand. rewrite items_put. destruct (decide (p = x)) as [<-|].
  - rewrite lookup_alter_eq, Hi. destruct (Hf i) as (H1 & _ & H3). eexists. split_and!; [done|congruence..].
  - rewrite lookup_alter_ne by done. by exists i.
Qed.

(** ** Taking an item off a queue *)

Definition to_hand : item → item := λ i, i <| it_where := Q_NONE |>.

Lemma tidy_unlink e p q i l :
  tidy e → q ≠ Q_NONE → e_items e !! p = Some i → it_where i = q → committed q = false →
  NoDup l → (∀ x, x ∈ l ↔ x ≠ p ∧ x ∈ queue e q) →
  tidy (put p to_hand (set_queue q l e)) ∧ hand (put p to_hand (set_queue q l e)) p.
Proof.
  intros [A B C D] Hq Hi Hw Hc Hnd Hl. split.
  - split.
    + intros q'. rewrite queue_put, queue_cases. case_decide; [done|apply A].
    + intros q' x Hq' Hx. rewrite queue_put, queue_cases in Hx. rewrite items_put, items_set_queue.
      destruct (decide (p = x)) as [<-|Hpx].
      * exfalso. case_decide as Hqq; [by apply Hl in Hx as [? _]|].
        destruct (B q' p Hq' Hx) as (j & Hj & ?). congruence.
      * rewrite lookup_alter_ne by done. apply B; [done|]. case_decide; [subst; by apply Hl in Hx as [_ ?]|done].
    + intros x j Hj. rewrite items_put in Hj. apply lookup_alter_inv in Hj as (k & Hk & ->).
      case_decide; [|by apply (C x)]. subst x. intros _. simpl. apply (C p k Hk).
      rewrite items_set_queue, Hi in Hk. injection Hk as <-. by rewrite Hw.
    + apply (ledger_ext e); [|done..|exact D]. apply charges_alter. intros j Hj.
      rewrite items_set_queue, Hi in Hj. injection Hj as <-. unfold charge, to_hand. simpl. by rewrite Hw, Hc.
  - exists (to_hand i). rewrite items_put, items_set_queue, lookup_alter_eq, Hi. split_and!; [done|done|].
    apply (C p i Hi). by rewrite Hw.
Qed.

Lemma tidy_remove e p q :
  tidy e → q ≠ Q_NONE → committed q = false → p ∈ queue e q →
  tidy (fifo_remove q p e) ∧ hand (fifo_remove q p e) p.
Proof.
  intros Ht Hq Hc Hp. destruct (t_where _ Ht q p Hq Hp) as (i & Hi & Hw).
  eapply tidy_unlink; [done|done|done|done|done| |].
  - apply NoDup_filter, Ht.
  - intros x. apply (list_elem_of_filter (λ x, x ≠ p)).
Qed.

Lemma pop_inv q e p e' :
  tidy e → q ≠ Q_NONE → fifo_pop q e = Some (p, e') →
  ∃ i l, e_items e !! p = Some i ∧ it_where i = q ∧ queue e q = p :: l ∧
    e' = put p to_hand (set_queue q l e) ∧ NoDup l ∧ (∀ x, x ∈ l ↔ x ≠ p ∧ x ∈ queue e q).
Proof.
  intros Ht Hq Hpop. unfold fifo_pop in Hpop. pose proof (t_nodup _ Ht q) as Hnd.
  destruct (queue e q) as [|x l] eqn:Hl; [done|]. injection Hpop as -> <-.
  destruct (t_where _ Ht q p Hq) as (i & Hi & Hw); [rewrite Hl; apply elem_of_cons; by left|].
  apply NoDup_cons in Hnd as [Hx Hnd]. exists i, l. split_and!; try done.
  intros y. rewrite elem_of_cons. split; [|naive_solver]. intros Hy. split; [by intros ->|by right].
Qed.
Lemma tidy_pop e p q e' :
  tidy e → q ≠ Q_NONE → committed q = false → fifo_pop q e = Some (p, e') → tidy e' ∧ hand e' p.
Proof.
  intros Ht Hq Hc Hpop. destruct (pop_inv q e p e' Ht Hq Hpop) as (i & l & Hi & Hw & _ & -> & Hnd & Hl).
  by eapply tidy_unlink.
Qed.

(** Off a committed queue, with the budget given back. *)
Lemma release_items p e i : e_items e !! p = Some i →
  e_items (release p e) = alter (λ j, j <| it_res := None |>) p (e_items e).
Proof.
  intros Hi. unfold release. set (e1 := e <| e_reserved_mem ::= _ |> <| e_running ::= _ |>).
  change (get e1 p) with (get e p). rewrite (get_lookup _ _ _ Hi).
  destruct (it_res i) as [snap|] eqn:Hr; [reflexivity|].
  change (e_items e = alter (λ j, j <| it_res := None |>) p (e_items e)).
  rewrite (alter_insert _ _ p i Hi). symmetry. apply insert_id. rewrite Hi. f_equal.
  destruct i; simpl in *. by subst.
Qed.
Lemma release_counters p e i : e_items e !! p = Some i →
  e_reserved_mem (release p e) = u64 (e_reserved_mem e - it_mem i) ∧
  e_running (release p e) = u32 (e_running e - 1) ∧
  e_resources (release p e) = res_apply Z.sub (e_resources e) (default [] (it_res i)).
Proof.
  intros Hi. unfold release. set (e1 := e <| e_reserved_mem ::= _ |> <| e_running ::= _ |>).
  assert (e_reserved_mem e1 = u64 (e_reserved_mem e - it_mem i)) as H1.
  { unfold e1. simpl. by rewrite (get_lookup _ _ _ Hi). }
  change (get e1 p) with (get e p). rewrite (get_lookup _ _ _ Hi).
  destruct (it_res i) as [snap|]; (split_and!; [exact H1|done|]); [done|].
  change (e_resources e1) with (e_resources e). simpl. by destruct (e_resources e).
Qed.
Lemma tidy_release e p q i l :
  tidy e → q ≠ Q_NONE → e_items e !! p = Some i → it_where i = q → committed q = true →
  NoDup l → (∀ x, x ∈ l ↔ x ≠ p ∧ x ∈ queue e q) →
  let e1 := put p to_hand (set_queue q l e) in
  tidy (release p e1) ∧ hand (release p e1) p ∧ charges (release p e1) = delete p (charges e).
Proof.
  intros [A B C [D1 D2 D3 D4]] Hq Hi Hw Hc Hnd Hl e1.
  set (f := λ j : item, j <| it_where := Q_NONE |> <| it_res := None |>).
  assert (e_items e1 !! p = Some (to_hand i)) as Hi1.
  { unfold e1. by rewrite items_put, items_set_queue, lookup_alter_eq, Hi. }
  assert (e_items (release p e1) = alter f p (e_items e)) as Hit.
  { rewrite (release_items p e1 _ Hi1). change (e_items e1) with (alter to_hand p (e_items e)).
    rewrite alter_alter_eq. reflexivity. }
  assert (charges e !! p = Some (it_mem i, default [] (it_res i))) as Hcp.
  { rewrite charges_lookup, Hi. simpl. unfold charge. by rewrite Hw, Hc. }
  assert (charges (release p e1) = delete p (charges e)) as Hch.
  { unfold charges. rewrite Hit. apply map_eq. intros x. rewrite lookup_omap. destruct (decide (p = x)) as [<-|].
    - by rewrite lookup_alter_eq, Hi, lookup_delete_eq.
    - by rewrite lookup_alter_ne, lookup_delete_ne, lookup_omap. }
  assert (e_qs (release p e1) = e_qs e1) as Hqs by (unfold release; by destruct (it_res (get _ p))).
  assert (e_reserved_mem (release p e1) = u64 (e_reserved_mem e - it_mem i) ∧
    e_running (release p e1) = u32 (e_running e - 1) ∧
    e_resources (release p e1) = res_apply Z.sub (e_resources e) (default [] (it_res i))) as (R1 & R2 & R3).
  { exact (release_counters p e1 _ Hi1). }
  split_and!; [split| |done].
  - intros q'. unfold queue. rewrite Hqs. change (NoDup (queue e1 q')). unfold e1.
    rewrite queue_put, queue_cases. case_decide; [done|apply A].
  - intros q' x Hq' Hx. unfold queue in Hx. rewrite Hqs in Hx. change (x ∈ queue e1 q') in Hx. unfold e1 in Hx.
    rewrite queue_put, queue_cases in Hx. rewrite Hit. destruct (decide (p = x)) as [<-|Hpx].
    + exfalso. case_decide as Hqq; [by apply Hl in Hx as [? _]|].
      destruct (B q' p Hq' Hx) as (j & Hj & ?). congruence.
    + rewrite lookup_alter_ne by done. apply B; [done|]. case_decide; [subst; by apply Hl in Hx as [_ ?]|done].
  - intros x j Hj. rewrite Hit in Hj. apply lookup_alter_inv in Hj as (k & Hk & ->).
    case_decide; [done|by apply (C x)].
  - split; rewrite Hch.
    + rewrite R1, D1, u64_sub, (total_delete _ _ _ _ Hcp). done.
    + rewrite R2, D2, u32_sub, map_size_delete, Hcp. f_equal.
      assert (size (charges e) ≠ 0%nat); [|lia]. intros Hz%map_size_empty_inv. by rewrite Hz, lookup_empty in Hcp.
    + intros k r. rewrite R3, res_apply_lookup. destruct (e_resources e !! k) as [r0|] eqn:Hr0; [|done].
      rewrite (total_delete _ _ _ _ Hcp). unfold amount at 2. simpl.
      destruct (default [] (it_res i) !! k) as [x|]; intros [= <-]; simpl; rewrite (D3 k r0 Hr0), ?u64_sub; f_equal; lia.
    + intros x c. rewrite R3, length_res_apply. intros [_ Hx]%lookup_delete_Some. by eapply D4.
  - exists (f i). rewrite Hit, lookup_alter_eq, Hi. done.
Qed.

Lemma tidy_pop_release e p q e' :
  tidy e → committed q = true → fifo_pop q e = Some (p, e') →
  tidy (release p e') ∧ hand (release p e') p ∧ charges (release p e') = delete p (charges e).
Proof.
  intros Ht Hc Hpop. assert (q ≠ Q_NONE) as Hq by (by intros ->).
  destruct (pop_inv q e p e' Ht Hq Hpop) as (i & l & Hi & Hw & _ & -> & Hnd & Hl). by eapply tidy_release.
Qed.
Lemma tidy_remove_release e p q :
  tidy e → committed q = true → p ∈ queue e q →
  tidy (release p (fifo_remove q p e)) ∧ hand (release p (fifo_remove q p e)) p ∧
  charges (release p (fifo_remove q p e)) = delete p (charges e).
Proof.
  intros Ht Hc Hp. assert (q ≠ Q_NONE) as Hq by (by intros ->).
  destruct (t_where _ Ht q p Hq Hp) as (i & Hi & Hw). eapply tidy_release; [done|done|done|done|done| |].
  - apply NoDup_filter, Ht.
  - intros x. apply (list_elem_of_filter (λ x, x ≠ p)).
Qed.

(** ** Putting it on one *)

Lemma hand_not_in e p q : tidy e → hand e p → q ≠ Q_NONE → p ∉ queue e q.
Proof.
  intros Ht (i & Hi & Hw & _) Hq Hp. destruct (t_where _ Ht q p Hq Hp) as (j & Hj & ?). congruence.
Qed.

(** [p] joins [q], whose list becomes [l]; the other fields written are light ones. *)
Lemma tidy_link e e' p q i j l :
  tidy e → hand e p → q ≠ Q_NONE → committed q = false → e_items e !! p = Some i →
  e_items e' = <[p := j]> (e_items e) → it_where j = q → it_res j = it_res i →
  (∀ q', queue e' q' = if decide (q = q') then l else queue e q') →
  NoDup l → (∀ x, x ∈ l ↔ x = p ∨ x ∈ queue e q) →
  e_reserved_mem e' = e_reserved_mem e → e_running e' = e_running e → e_resources e' = e_resources e →
  tidy e'.
Proof.
  intros Ht Hh Hq Hc Hi Hit Hw Hr Hqs Hnd Hl H1 H2 H3. pose proof Hh as (i' & Hi' & Hw' & Hr').
  rewrite Hi in Hi'. injection Hi' as <-. pose proof Ht as [A B C D]. split.
  - intros q'. rewrite Hqs. case_decide; [done|apply A].
  - intros q' x Hq' Hx. rewrite Hqs in Hx. rewrite Hit. destruct (decide (p = x)) as [<-|Hpx].
    + rewrite lookup_insert_eq. exists j. split; [done|]. case_decide as Hqq; [congruence|].
      by apply (hand_not_in e p q') in Hx.
    + rewrite lookup_insert_ne by done. apply B; [done|]. case_decide; [|done]. subst.
      apply Hl in Hx as [->|?]; done.
  - intros x k. rewrite Hit. destruct (decide (p = x)) as [<-|].
    + rewrite lookup_insert_eq. intros [= <-] _. congruence.
    + rewrite lookup_insert_ne by done. apply C.
  - apply (ledger_ext e); [|done..|exact D]. unfold charges. rewrite Hit. apply map_eq. intros x.
    rewrite !lookup_omap. destruct (decide (p = x)) as [<-|].
    + rewrite lookup_insert_eq, Hi. simpl. unfold charge. by rewrite Hw, Hw', Hc.
    + by rewrite lookup_insert_ne.
Qed.

Lemma tidy_push e p q :
  tidy e → hand e p → q ≠ Q_NONE → committed q = false → tidy (fifo_push q p e).
Proof.
  intros Ht Hh Hq Hc. pose proof Hh as (i & Hi & Hw & Hr).
  eapply (tidy_link e _ p q i (i <| it_where := q |>) (queue e q ++ [p])); try done.
  - unfold fifo_push. rewrite items_put. by apply alter_insert.
  - apply NoDup_app. split_and!; [apply Ht| |apply NoDup_singleton].
    intros x Hx ->%list_elem_of_singleton. by apply (hand_not_in e p q).
  - intros x. rewrite elem_of_app, list_elem_of_singleton. tauto.
Qed.

Lemma tidy_insert e p : tidy e → hand e p → tidy (intake_insert p e).
Proof.
  intros Ht Hh. pose proof Hh as (i & Hi & Hw & Hr). unfold intake_insert. set (e1 := put p _ _).
  pose proof (hand_not_in e p Q_INTAKE Ht Hh ltac:(done)) as Hn.
  assert (queue e1 Q_INTAKE = queue e Q_INTAKE) as Hq1 by done.
  eapply (tidy_link e _ p Q_INTAKE i (i <| it_seq := u64 (e_seq e + 1) |> <| it_where := Q_INTAKE |>)); try done.
  - rewrite items_set_queue. unfold e1. rewrite items_put. exact (alter_insert _ _ p i Hi).
  - rewrite Hq1. apply NoDup_app. split_and!.
    + apply NoDup_filter, Ht.
    + intros x [Hx1 Hx]%list_elem_of_filter [->|[? ?]%list_elem_of_filter]%elem_of_cons; [done|lia].
    + constructor; [|apply NoDup_filter, Ht]. intros [_ ?]%list_elem_of_filter. done.
  - intros x. rewrite Hq1, elem_of_app, elem_of_cons, !list_elem_of_filter.
    destruct (decide (score e1 p ≤ score e1 x)); intuition lia.
Qed.

(** The item leaves the store. *)
Lemma tidy_free e p : tidy e → hand e p → tidy (item_free p e).
Proof.
  intros Ht Hh. pose proof Hh as (i & Hi & Hw & Hr). pose proof Ht as [A B C D].
  split.
  - done.
  - intros q x Hq Hx. destruct (B q x Hq Hx) as (j & Hj & Hjw). exists j. split; [|done].
    unfold item_free. simpl. rewrite lookup_delete_ne; [done|]. intros <-. by apply (hand_not_in e p q) in Hx.
  - intros x j. unfold item_free. simpl. intros [_ Hj]%lookup_delete_Some. by apply (C x).
  - apply (ledger_ext e); [|done..|exact D]. unfold charges, item_free. simpl. rewrite charges_delete.
    apply delete_id. rewrite lookup_omap, Hi. simpl. unfold charge. by rewrite Hw.
Qed.

Lemma hidx_del_light p e : e_items (hidx_del p e) = e_items e ∨
  e_items (hidx_del p e) = alter (λ i, i <| it_indexed := false |>) p (e_items e).
Proof. unfold hidx_del. destruct (it_indexed _); [by right|by left]. Qed.
Lemma tidy_hidx_del e p : tidy e → tidy (hidx_del p e).
Proof.
  intros Ht. unfold hidx_del. destruct (it_indexed _); [|done]. apply tidy_put; [by intros i|].
  by eapply (tidy_ext e).
Qed.
Lemma hand_hidx_del e p x : hand e x → hand (hidx_del p e) x.
Proof. intros Hh. unfold hidx_del. destruct (it_indexed _); [|done]. apply hand_put; [by intros i|exact Hh]. Qed.
Lemma tidy_drop e p : tidy e → hand e p → tidy (item_drop p e).
Proof. intros Ht Hh. apply tidy_free; [by apply tidy_hidx_del|by apply hand_hidx_del]. Qed.

Lemma tidy_evict n e p : tidy e → hand e p → tidy (dead_letter_evict n e) ∧ hand (dead_letter_evict n e) p.
Proof.
  revert e. induction n as [|n IH]; intros e Ht Hh; [done|]. cbn [dead_letter_evict].
  destruct (_ && _); [|done]. destruct (fifo_pop Q_DEAD e) as [[x e1]|] eqn:Hp; [|done].
  destruct (tidy_pop e x Q_DEAD e1 Ht ltac:(done) eq_refl Hp) as [Ht1 Hx1].
  destruct (pop_inv Q_DEAD e x e1 Ht ltac:(done) Hp) as (i & l & Hi & Hw & _ & He1 & _ & _).
  assert (p ≠ x) as Hpx. { intros ->. destruct Hh as (j & Hj & Hjw & _). congruence. }
  set (e2 := e1 <| e_dead_letter_count ::= _ |> <| e_dead_evicted ::= _ |>).
  apply IH.
  - apply tidy_free; [by apply (tidy_ext e1)|exact Hx1].
  - destruct Hh as (j & Hj & Hjw & Hjr). exists j. split; [|done]. unfold item_free. simpl.
    rewrite lookup_delete_ne by done. rewrite He1. change (alter to_hand x (e_items e) !! p = Some j).
    by rewrite lookup_alter_ne.
Qed.
Lemma tidy_dead e p : tidy e → hand e p → tidy (dead_letter_push p e).
Proof.
  intros Ht Hh. unfold dead_letter_push.
  destruct (tidy_evict (length (queue (hidx_del p e) Q_DEAD)) (hidx_del p e) p) as [H1 H2].
  - by apply tidy_hidx_del.
  - by apply hand_hidx_del.
  - eapply (tidy_ext (fifo_push Q_DEAD p (dead_letter_evict (length (queue (hidx_del p e) Q_DEAD)) (hidx_del p e))));
      [done..|]. by apply tidy_push.
Qed.

End Ledger.
