(* ===== verification/LedgerFacts.v ===== *)
(** * Every section keeps the ledger

    [tidy] - the counters are the sums of what the admitted items hold - through each
    step of a pass and through each entry point. [spares p] is the frame: what a
    section does to the item in its hands leaves the other items in hands alone. *)

From S2P Require Import Prelude HandleIndex Engine EnginePass EngineApi EngineFacts Ledger.
Import Engine EnginePass EngineApi EngineFacts Ledger.

Module LedgerFacts.

(** ** The frame *)

Definition spares (p : ptr) (e e' : engine) : Prop := ∀ x i,
  x ≠ p → e_items e !! x = Some i → it_where i = Q_NONE → e_items e' !! x = Some i.

Lemma spares_refl p e : spares p e e.
Proof. by intros x i _. Qed.
Lemma spares_items p e e' : e_items e' = e_items e → spares p e e'.
Proof. intros H x i _. by rewrite H. Qed.
Lemma spares_trans p e1 e2 e3 : spares p e1 e2 → spares p e2 e3 → spares p e1 e3.
Proof. intros H1 H2 x i Hx Hi Hw. eapply H2; [done| |done]. by eapply H1. Qed.
Lemma spares_put p f e : spares p e (put p f e).
Proof. intros x i Hx Hi _. by rewrite items_put, lookup_alter_ne. Qed.
Lemma spares_push p q e : spares p e (fifo_push q p e).
Proof. exact (spares_put p _ (set_queue _ _ e)). Qed.
Lemma spares_remove p q e : spares p e (fifo_remove q p e).
Proof. exact (spares_put p _ (set_queue _ _ e)). Qed.
Lemma spares_pop p q e e' : fifo_pop q e = Some (p, e') → spares p e e'.
Proof.
  unfold fifo_pop. destruct (queue e q) as [|x l]; [done|]. intros [= -> <-].
  exact (spares_put p _ (set_queue _ _ e)).
Qed.
Lemma spares_insert p e : spares p e (intake_insert p e).
Proof. intros x i Hx Hi _. unfold intake_insert. rewrite items_set_queue, items_put. by rewrite lookup_alter_ne. Qed.
Lemma spares_free p e : spares p e (item_free p e).
Proof. intros x i Hx Hi _. unfold item_free. simpl. by rewrite lookup_delete_ne. Qed.
Lemma spares_hidx_del p e : spares p e (hidx_del p e).
Proof. intros x i Hx Hi _. unfold hidx_del. destruct (it_indexed _); [|done]. by rewrite items_put, lookup_alter_ne. Qed.
Lemma spares_drop p e : spares p e (item_drop p e).
Proof. eapply spares_trans; [apply spares_hidx_del|apply spares_free]. Qed.
Lemma spares_release p e : spares p e (release p e).
Proof.
  intros x i Hx Hi _. unfold release. destruct (it_res (get _ p)); [|done]. by rewrite items_put, lookup_alter_ne.
Qed.
Lemma spares_evict p n e : tidy e → spares p e (dead_letter_evict n e).
Proof.
  revert e. induction n as [|n IH]; intros e Ht; [apply spares_refl|]. cbn [dead_letter_evict].
  destruct (_ && _); [|apply spares_refl]. destruct (fifo_pop Q_DEAD e) as [[y e1]|] eqn:Hp; [|apply spares_refl].
  destruct (tidy_pop e y Q_DEAD e1 Ht ltac:(done) eq_refl Hp) as [Ht1 Hy1].
  destruct (pop_inv Q_DEAD e y e1 Ht ltac:(done) Hp) as (j & l & Hj & Hjw & _ & He1 & _ & _).
  set (e2 := e1 <| e_dead_letter_count ::= _ |> <| e_dead_evicted ::= _ |>).
  eapply spares_trans; [|apply IH, tidy_free; [by apply (tidy_ext e1)|exact Hy1]].
  intros x i Hx Hi Hw. assert (y ≠ x) by (intros ->; congruence). unfold item_free. simpl.
  rewrite lookup_delete_ne by done. rewrite He1. change (alter to_hand y (e_items e) !! x = Some i).
  by rewrite lookup_alter_ne.
Qed.
Lemma spares_dead p e : tidy e → spares p e (dead_letter_push p e).
Proof.
  intros Ht. unfold dead_letter_push. eapply spares_trans; [apply spares_hidx_del|].
  eapply spares_trans; [apply (spares_evict p (length (queue (hidx_del p e) Q_DEAD))); by apply tidy_hidx_del|].
  exact (spares_push p Q_DEAD _).
Qed.
Lemma hand_spares p e e' x : spares p e e' → x ≠ p → hand e x → hand e' x.
Proof. intros Hs Hx (i & Hi & Hw & Hr). exists i. split; [by apply Hs|done]. Qed.

(** ** Step 1: completion *)

#[local] Hint Extern 1 (light _) => (intros ?; done) : core.
#[local] Hint Resolve tidy_put hand_put tidy_push tidy_drop tidy_dead : core.
#[local] Hint Resolve spares_refl spares_put spares_push spares_drop spares_dead : core.

Lemma drain_one_tidy now p e s :
  tidy e → hand e p →
  let '(e', _, a) := drain_one now p e s in
  tidy e' ∧ spares p e e' ∧ (a = true → hand e' p).
Proof.
  intros Ht Hh.
  assert (∀ f, light f → tidy (fifo_push Q_DELAYED p (put p f e)) ∧ spares p e (fifo_push Q_DELAYED p (put p f e))) as Hpark.
  { intros f Hf. split; [by auto|]. eapply spares_trans; [apply spares_put|apply spares_push]. }
  assert (∀ f, light f → tidy (dead_letter_push p (put p f e)) ∧ spares p e (dead_letter_push p (put p f e))) as Hdead.
  { intros f Hf. split; [by auto|]. eapply spares_trans; [apply spares_put|auto]. }
  unfold drain_one. case_decide.
  { unfold drain_ok. destruct (_ && _); [|by split_and!; auto].
    match goal with |- context [fifo_push _ _ (put _ ?f _)] => destruct (Hpark f) end; [auto|done]. }
  destruct (it_cancelled _); [by unfold drain_cancelled_item; split_and!; auto|].
  destruct (_ && _); [by split_and!; auto|].
  destruct (reg_flag _ _ _); [by unfold drain_removed; destruct (_ || _); split_and!; auto|].
  destruct (_ <=? _); [by unfold drain_retry; split_and!; auto|].
  unfold drain_failed. destruct (p_on_failure _); [by split_and!; auto| |by split_and!; auto].
  destruct (e_stopping e);
    [match goal with |- context [dead_letter_push _ (put _ ?f _)] => destruct (Hdead f) end
    |match goal with |- context [fifo_push _ _ (put _ ?f _)] => destruct (Hpark f) end]; [auto|done|auto|done].
Qed.

(** The items of [L] are in hands, and once. *)
Record tidy_with (L : list ptr) (e : engine) : Prop := {
  tw_tidy : tidy e; tw_nodup : NoDup L; tw_hand : ∀ x, x ∈ L → hand e x }.
Lemma tidy_with_step L p e e' :
  tidy_with L e → tidy e' → spares p e e' → p ∉ L → tidy_with L e'.
Proof. intros [A B C] Ht Hs Hp. split; [done|done|]. intros x Hx. eapply hand_spares; [done| |by apply C]. by intros ->. Qed.
Lemma tidy_with_ext L e e' :
  e_items e' = e_items e → e_qs e' = e_qs e → e_reserved_mem e' = e_reserved_mem e →
  e_running e' = e_running e → e_resources e' = e_resources e → tidy_with L e → tidy_with L e'.
Proof.
  intros H1 H2 H3 H4 H5 [A B C]. split; [by apply (tidy_ext e)|done|].
  intros x Hx. unfold hand. rewrite H1. by apply C.
Qed.
(** Whatever is in a queue is not in hands. *)
Lemma queued_unheld L e p q : tidy_with L e → q ≠ Q_NONE → p ∈ queue e q → p ∉ L.
Proof. intros [A B C] Hq Hp Hl. by apply (hand_not_in e p q A (C p Hl) Hq). Qed.

Lemma pop_head q e p e' : fifo_pop q e = Some (p, e') → p ∈ queue e q.
Proof. unfold fifo_pop. destruct (queue e q) as [|x l]; [done|]. intros [= -> _]. by left. Qed.

Lemma drain_done_tidy n now e s ann :
  tidy_with ann e → let '(e', _, ann') := drain_done n now e s ann in tidy_with ann' e'.
Proof.
  revert e s ann. induction n as [|n IH]; intros e s ann Ht; [done|]. cbn [drain_done].
  destruct (full s); [done|]. destruct (fifo_pop Q_DONE e) as [[p e1]|] eqn:Hp; [|done].
  pose proof (queued_unheld ann e p Q_DONE Ht ltac:(done) (pop_head _ _ _ _ Hp)) as Hpa.
  destruct (tidy_pop_release e p Q_DONE e1 (tw_tidy _ _ Ht) eq_refl Hp) as (Ht1 & Hh1 & _).
  assert (spares p e (release p e1)) as Hs1.
  { eapply spares_trans; [by eapply spares_pop|apply spares_release]. }
  pose proof (drain_one_tidy now p (release p e1) s Ht1 Hh1) as Hd.
  destruct (drain_one now p (release p e1) s) as [[e2 s2] a]. destruct Hd as (Ht2 & Hs2 & Ha).
  pose proof (spares_trans _ _ _ _ Hs1 Hs2) as Hs.
  pose proof (tidy_with_step ann p e e2 Ht Ht2 Hs Hpa) as [_ B C]. apply IH.
  destruct a; [|by split]. split; [done| |].
  - apply NoDup_app. split_and!; [done| |apply NoDup_singleton]. intros x Hx ->%list_elem_of_singleton. done.
  - intros x [Hx| ->%list_elem_of_singleton]%elem_of_app; [by apply C|by apply Ha].
Qed.

Lemma step1_tidy now e s : tidy e → let '(e', _, ann) := step1 now e s in tidy_with ann e'.
Proof.
  intros Ht. unfold step1. pose proof (drain_done_tidy (length (queue e Q_DONE)) now e s []) as H.
  destruct (drain_done _ _ _ _ _) as [[e1 s1] ann]. apply H. split; [done|constructor|by intros x ?%not_elem_of_nil].
Qed.

(** ** Steps 2, 2b, 3 and 3b *)

(** Folding over the items of a queue, each taken off it at most by its own turn. *)
Lemma fold_tidy {A} (f : engine * A → ptr → engine * A) q L l e a :
  (∀ e a p, tidy_with L e → p ∈ queue e q → tidy_with L (f (e, a) p).1 ∧
     ∀ x, x ≠ p → x ∈ queue e q → x ∈ queue (f (e, a) p).1 q) →
  NoDup l → (∀ x, x ∈ l → x ∈ queue e q) → tidy_with L e → tidy_with L (foldl f (e, a) l).1.
Proof.
  intros Hf. revert e a. induction l as [|p l IH]; intros e a Hnd Hl Ht; [done|]. cbn [foldl].
  apply NoDup_cons in Hnd as [Hp Hnd]. destruct (Hf e a p Ht (Hl p ltac:(by left))) as [Ht1 Hk].
  destruct (f (e, a) p) as [e1 a1]. apply IH; [done| |done]. intros x Hx. apply Hk; [by intros ->|].
  apply Hl. by right.
Qed.

Lemma remove_tidy_with L p q e :
  tidy_with L e → q ≠ Q_NONE → committed q = false → p ∈ queue e q →
  tidy_with L (fifo_remove q p e) ∧ hand (fifo_remove q p e) p ∧ p ∉ L.
Proof.
  intros Ht Hq Hc Hp. pose proof (queued_unheld L e p q Ht Hq Hp) as HL.
  destruct (tidy_remove e p q (tw_tidy _ _ Ht) Hq Hc Hp) as [H1 H2]. split_and!; [|done|done].
  by apply (tidy_with_step L p e); [|done|apply spares_remove|].
Qed.
Lemma put_tidy_with L p f e : light f → tidy_with L e → tidy_with L (put p f e).
Proof.
  intros Hf [A B C]. split; [by apply tidy_put|done|]. intros x Hx. apply hand_put; [done|by apply C].
Qed.

Lemma step2_tidy L now e s : tidy_with L e → tidy_with L (step2 now e s).1.
Proof.
  intros Ht. unfold step2. apply (fold_tidy _ Q_DELAYED); [|apply (t_nodup _ (tw_tidy _ _ Ht))|done|done].
  clear e Ht. intros e a p Ht Hp. unfold promote_one. destruct (_ <=? now); [|by split].
  cbn [fst]. set (e1 := put p _ e). assert (tidy_with L e1) as H1 by (by apply put_tidy_with).
  destruct (remove_tidy_with L p Q_DELAYED e1 H1) as (H2 & Hh & HL); [done|done|done|]. split.
  - apply (tidy_with_step L p (fifo_remove Q_DELAYED p e1)); [done| |apply spares_insert|done].
    by apply tidy_insert; [apply H2|].
  - intros x Hx Hin. change (x ∈ filter (λ y, y ≠ p) (queue e Q_DELAYED)). by apply list_elem_of_filter.
Qed.

Lemma step2b_tidy now ann e s : tidy_with ann e → tidy (step2b now ann e s).1.1.
Proof.
  unfold step2b. generalize no_held. revert e s. induction ann as [|p l IH]; intros e s h [A B C]; [done|]. cbn [foldl].
  apply NoDup_cons in B as [Hp B]. assert (tidy_with l (fifo_push Q_DELAYED p e)) as H1.
  { apply (tidy_with_step l p e); [|apply tidy_push; [done|by apply C; left|done|done]|apply spares_push|done].
    split; [done|done|]. intros x Hx. apply C. by right. }
  unfold park_one at 2. destruct (_ <=? now); by apply IH.
Qed.

Lemma fold_put_tidy (g : engine → ptr → engine) l e :
  (∀ e p, tidy e → tidy (g e p)) → tidy e → tidy (foldl g e l).
Proof. intros Hg. revert e. induction l as [|p l IH]; intros e Ht; [done|]. simpl. by apply IH, Hg. Qed.

Lemma step3_tidy now e s : tidy e → tidy (step3 now e s).1.
Proof.
  unfold step3. generalize (queue e Q_RUNNING). intros l. revert e s. induction l as [|p l IH]; intros e s Ht; [done|].
  cbn [foldl]. unfold deadline_one at 2. destruct (_ =? 0); [by apply IH|]. destruct (_ <=? now); apply IH; [|done].
  by apply tidy_put.
Qed.

Lemma grace_one_tidy p e s : tidy e → hand e p → tidy (grace_one p e s).1.
Proof. intros Ht Hh. unfold grace_one. cbn [fst]. case_bool_decide; auto. Qed.
Lemma grace_drain_tidy n e s : tidy e → tidy (grace_drain n e s).1.
Proof.
  revert e s. induction n as [|n IH]; intros e s Ht; [done|]. cbn [grace_drain]. destruct (full s); [done|].
  assert (∀ q p e1, q ≠ Q_NONE → committed q = false → fifo_pop q e = Some (p, e1) →
    tidy (let '(e, s) := grace_one p e1 s in grace_drain n e s).1) as Hgo.
  { intros q p e1 Hq Hc Hp. destruct (tidy_pop e p q e1 Ht Hq Hc Hp) as [H1 H2].
    pose proof (grace_one_tidy p e1 s H1 H2) as H3. destruct (grace_one p e1 s) as [e2 s2]. by apply IH. }
  destruct (fifo_pop Q_DELAYED e) as [[p e1]|] eqn:Hp1; [by apply (Hgo Q_DELAYED)|].
  destruct (fifo_pop Q_INTAKE e) as [[p e1]|] eqn:Hp2; [by apply (Hgo Q_INTAKE)|done].
Qed.
Lemma cancel_item_tidy p e : tidy e → tidy (cancel_item p e).
Proof. intros Ht. unfold cancel_item, cancel_raise. auto. Qed.
Lemma step3b_tidy now e s : tidy e → tidy (step3b now e s).1.1.
Proof.
  intros Ht. unfold step3b. destruct (_ && _); [|done]. destruct (_ <=? now); [|done].
  pose proof (grace_drain_tidy (length (queue e Q_DELAYED) + length (queue e Q_INTAKE)) e s Ht) as H1.
  destruct (grace_drain _ e s) as [e1 s1]. cbn [fst snd] in *.
  apply fold_put_tidy; [|done]. intros. by apply cancel_item_tidy.
Qed.

End LedgerFacts.
