(* ===== verification/LedgerAdmit.v ===== *)
(** * Admission and the budgets

    [tidy] through step 4 of the pass, and what admission does to what is committed:
    [sheds] says a section only gives budget back; [commit] is the one that takes. *)

From S2P Require Import Prelude HandleIndex Engine EnginePass EngineApi EngineFacts EnginePassFacts.
From S2P Require Import Ledger LedgerFacts.
Import Engine EnginePass EngineApi EngineFacts EnginePassFacts Ledger LedgerFacts.

Module LedgerAdmit.

(** ** Committing to an admission *)

Definition snap_cost (sn : snapshot) : list Z := match sn with Snap l => l | _ => [] end.
(** The part of [admit_best] after the item has left intake. *)
Definition commit (p : ptr) (sn : snapshot) (e : engine) : engine :=
  let e := e <| e_reserved_mem ::= λ m, u64 (m + it_mem (get e p)) |>
             <| e_running ::= λ r, u32 (r + 1) |> in
  let e := match sn with
           | Snap cost => put p (λ i, i <| it_res := Some cost |>)
                            (e <| e_resources ::= λ rs, res_apply Z.add rs cost |>)
           | _ => e
           end in
  fifo_push Q_READY p e.
Lemma admit_best_eq top best sn e :
  admit_best top best sn e = commit best sn (intake_unlink best
    (if decide (best = top) then e else put top (λ i, i <| it_skips ::= λ k, u32 (k + 1) |>) e)).
Proof. done. Qed.

Section commit.
Context (p : ptr) (sn : snapshot) (e : engine) (i : item).
Hypothesis (Ht : tidy e) (Hi : e_items e !! p = Some i) (Hw : it_where i = Q_NONE) (Hr : it_res i = None).

Let j : item := match sn with
  | Snap l => i <| it_res := Some l |> <| it_where := Q_READY |> | _ => i <| it_where := Q_READY |> end.

Lemma commit_items : e_items (commit p sn e) = <[p := j]> (e_items e).
Proof.
  unfold commit, fifo_push, j. destruct sn as [|l|]; rewrite items_put, items_set_queue.
  1, 3: exact (alter_insert _ (λ i, i <| it_where := Q_READY |>) p i Hi).
  rewrite items_put. cbn [e_items]. rewrite alter_alter_eq.
  exact (alter_insert _ (λ i, i <| it_res := Some l |> <| it_where := Q_READY |>) p i Hi).
Qed.
Lemma commit_queue q : queue (commit p sn e) q = if decide (Q_READY = q) then queue e q ++ [p] else queue e q.
Proof.
  unfold commit, fifo_push. rewrite queue_put, queue_cases. case_decide; [subst|]; by destruct sn.
Qed.
Lemma commit_counters :
  e_reserved_mem (commit p sn e) = u64 (e_reserved_mem e + it_mem i) ∧
  e_running (commit p sn e) = u32 (e_running e + 1) ∧
  e_resources (commit p sn e) = res_apply Z.add (e_resources e) (snap_cost sn).
Proof.
  unfold commit. split_and!.
  - change (e_reserved_mem e + it_mem i) with (e_reserved_mem e + it_mem i).
    rewrite <-(get_lookup e p i Hi). by destruct sn.
  - by destruct sn.
  - destruct sn; simpl; [by destruct (e_resources e)|done|by destruct (e_resources e)].
Qed.
Lemma commit_charges : charges (commit p sn e) = <[p := (it_mem i, snap_cost sn)]> (charges e).
Proof.
  unfold charges. rewrite commit_items. apply map_eq. intros x. rewrite lookup_omap.
  destruct (decide (p = x)) as [<-|].
  - rewrite !lookup_insert_eq. unfold j, charge. destruct sn; simpl; rewrite ?Hr; done.
  - by rewrite !lookup_insert_ne, lookup_omap.
Qed.

Lemma commit_tidy : (length (snap_cost sn) ≤ length (e_resources e))%nat → tidy (commit p sn e).
Proof.
  intros Hlen. pose proof Ht as [A B C [D1 D2 D3 D4]]. destruct commit_counters as (R1 & R2 & R3).
  assert (charges e !! p = None) as Hn.
  { rewrite charges_lookup, Hi. simpl. unfold charge. by rewrite Hw. }
  assert (hand e p) as Hh by (by exists i).
  assert (it_where j = Q_READY) as Hjw by (unfold j; by destruct sn).
  split; [..|split]; rewrite ?commit_charges.
  - intros q. rewrite commit_queue. case_decide; [subst|apply A]. apply NoDup_app.
    split_and!; [apply A| |apply NoDup_singleton]. intros x Hx ->%list_elem_of_singleton.
    by apply (hand_not_in e p Q_READY).
  - intros q x Hq Hx. rewrite commit_queue in Hx. rewrite commit_items. destruct (decide (p = x)) as [<-|Hpx].
    + rewrite lookup_insert_eq. exists j. split; [done|]. rewrite Hjw. case_decide; [done|].
      by apply (hand_not_in e p q) in Hx.
    + rewrite lookup_insert_ne by done. apply B; [done|]. case_decide; [|done].
      apply elem_of_app in Hx as [Hx| ->%list_elem_of_singleton]; done.
  - intros x k. rewrite commit_items. destruct (decide (p = x)) as [<-|].
    + rewrite lookup_insert_eq. intros [= <-]. by rewrite Hjw.
    + rewrite lookup_insert_ne by done. apply C.
  - rewrite R1, D1, u64_add, total_insert by done. simpl. f_equal. lia.
  - rewrite R2, D2, u32_add, map_size_insert_None by done. f_equal. lia.
  - intros k r. rewrite R3, res_apply_lookup, total_insert by done. unfold amount at 1. simpl.
    destruct (e_resources e !! k) as [r0|] eqn:Hr0; [|done]. pose proof (D3 k r0 Hr0) as Hd.
    destruct (snap_cost sn !! k) as [x|]; intros [= <-]; simpl; rewrite Hd, ?u64_add; f_equal; lia.
  - intros x c. rewrite R3, length_res_apply. intros [[_ <-]|[_ Hx]]%lookup_insert_Some; [done|by eapply D4].
Qed.
End commit.

(** ** Tidy through step 4 *)

Lemma tidy_set_perm e q l : tidy e → l ≡ₚ queue e q → tidy (set_queue q l e).
Proof.
  intros [A B C D] Hl. split; [..|by apply (ledger_ext e)].
  - intros q'. rewrite queue_cases. case_decide; [by rewrite Hl|apply A].
  - intros q' x Hq'. rewrite queue_cases. case_decide as Hqq; [|by apply B]. subst. rewrite Hl. by apply B.
  - done.
Qed.
Lemma tidy_tick e t : tidy e → tidy (e <| e_tick := t |>).
Proof. by apply tidy_ext. Qed.

Lemma rescore_tidy e : tidy e → tidy (rescore e).
Proof.
  intros Ht. unfold rescore. destruct (e_sched e) as [f|]; [|done]. destruct (queue e Q_INTAKE) eqn:Hq; [done|].
  destruct (_ <? _); [|done]. rewrite <-Hq. unfold intake_resort. apply tidy_set_perm.
  - apply fold_put_tidy; [|done]. intros e0 x H0. unfold rescore_one. apply tidy_put; [by intros i|]. by apply tidy_tick.
  - apply merge_sort_Permutation.
Qed.

Lemma admit_reject_tidy p st e s : tidy e → p ∈ queue e Q_INTAKE → tidy (admit_reject p st e s).1.
Proof.
  intros Ht Hp. unfold admit_reject. cbn [fst].
  destruct (tidy_remove e p Q_INTAKE Ht ltac:(done) eq_refl Hp) as [H1 H2].
  apply tidy_dead; [apply tidy_put|apply hand_put]; done.
Qed.
Lemma defer_one_tidy now ra p e s : tidy e → p ∈ queue e Q_INTAKE → tidy (defer_one now ra p e s).1.
Proof.
  intros Ht Hp. unfold defer_one. cbn [fst].
  destruct (tidy_remove e p Q_INTAKE Ht ltac:(done) eq_refl Hp) as [H1 H2].
  apply tidy_push; [apply tidy_put|apply hand_put| |]; done.
Qed.

Lemma take_snapshot_spec best e :
  let '(sn, e') := take_snapshot best e in
  (∃ t, e' = e <| e_tick := t |>) ∧
  snap_cost sn = match sn with Snap _ => take (length (e_resources e)) (default [] (res_cost e best)) | _ => [] end.
Proof.
  unfold take_snapshot. assert (e = e <| e_tick := e_tick e |>) as He by (by destruct e).
  destruct (res_cost e best) as [c|]; [|split; [by eexists|done]].
  destruct (_ =? 0); [split; [by eexists|done]|]. unfold ask_alloc. destruct (e_alloc e _); split; try done; by eexists.
Qed.
Lemma run_constraints_tick e p : let '(_, _, e') := run_constraints e p in ∃ t, e' = e <| e_tick := t |>.
Proof. unfold run_constraints. destruct (run_constraints_loop _ _ _ _ _) as [[d ra] t]. by exists t. Qed.

(** The chosen item off intake, the one it overtook charged a skip. *)
Definition charge_skip (top best : ptr) (e : engine) : engine :=
  if decide (best = top) then e else put top (λ i, i <| it_skips ::= λ k, u32 (k + 1) |>) e.
Definition chosen (top best : ptr) (e : engine) : engine := intake_unlink best (charge_skip top best e).
Lemma chosen_spec top best e :
  tidy e → best ∈ queue e Q_INTAKE → ∃ i, e_items e !! best = Some i ∧
    tidy (chosen top best e) ∧ charges (chosen top best e) = charges e ∧
    e_items (chosen top best e) !! best = Some (i <| it_where := Q_NONE |>) ∧ it_res i = None.
Proof.
  intros Ht Hb. destruct (t_where _ Ht Q_INTAKE best ltac:(done) Hb) as (i & Hi & Hw). exists i.
  set (e0 := charge_skip top best e).
  assert (tidy e0 ∧ queue e0 Q_INTAKE = queue e Q_INTAKE ∧ charges e0 = charges e ∧ e_items e0 !! best = Some i) as (H0 & Hq & Hc & Hi0).
  { unfold e0, charge_skip. case_decide; [done|]. split_and!; [by apply tidy_put|done| |].
    - apply charges_alter. intros k _. done.
    - by rewrite items_put, lookup_alter_ne. }
  split_and!; [done| | | |].
  - unfold chosen, intake_unlink. fold e0. apply tidy_remove; [done|done|done|by rewrite Hq].
  - rewrite <-Hc. unfold chosen, intake_unlink. fold e0. apply charges_alter. intros k Hk.
    rewrite items_set_queue, Hi0 in Hk. injection Hk as <-. unfold charge. simpl. by rewrite Hw.
  - unfold chosen, intake_unlink, fifo_remove. fold e0. by rewrite items_put, items_set_queue, lookup_alter_eq, Hi0.
  - apply (t_free _ Ht best i Hi). by rewrite Hw.
Qed.

Lemma admit_step_tidy now h top e s :
  tidy e →
  match admit_step now h top e s with (Some (e', _), _) | (None, (e', _)) => tidy e' end.
Proof.
  intros Ht. unfold admit_step. pose proof (admit_scan_in ∅ (map_Forall_empty _) e (queue e Q_INTAKE)) as Hin.
  destruct (admit_scan e (queue e Q_INTAKE)) as [p|best|]; [| |done].
  { destruct (full s); [done|]. pose proof (admit_reject_tidy p GPTPS_E_BUDGET e s Ht Hin) as H. by destruct (admit_reject _ _ _ _). }
  destruct (held_back _ _ _); [done|]. destruct (_ && _); [done|].
  pose proof (run_constraints_tick e best) as Hc. destruct (run_constraints e best) as [[d ra] e1].
  destruct Hc as [t ->]. set (e1 := e <| e_tick := t |>). assert (tidy e1) as Ht1 by by apply tidy_tick.
  destruct d.
  - pose proof (take_snapshot_spec best e1) as Hs. destruct (take_snapshot best e1) as [sn e2].
    destruct Hs as ([t2 ->] & Hsn). set (e2 := e1 <| e_tick := t2 |>). assert (tidy e2) as Ht2 by by apply tidy_tick.
    assert (tidy (admit_best top best sn e2)) as Ha; [|by destruct sn].
    rewrite admit_best_eq. change (tidy (commit best sn (chosen top best e2))).
    destruct (chosen_spec top best e2 Ht2 Hin) as (i & _ & Ht3 & _ & Hi3 & Hr).
    apply (commit_tidy best sn _ _ Ht3 Hi3); [done|done|].
    assert (e_resources (chosen top best e2) = e_resources e) as -> by (unfold chosen, charge_skip; by case_decide).
    rewrite Hsn. destruct sn; simpl; [lia| |lia]. rewrite length_take. simpl. lia.
  - destruct (full s); [done|]. pose proof (admit_reject_tidy best GPTPS_E_DENIED e1 s Ht1 Hin) as H.
    by destruct (admit_reject _ _ _ _).
  - pose proof (defer_one_tidy now ra best e1 s Ht1 Hin) as H. by destruct (defer_one _ _ _ _ _).
Qed.

Lemma admit_loop_tidy n now h e s : tidy e → tidy (admit_loop n now h e s).1.
Proof.
  revert e s. induction n as [|n IH]; intros e s Ht; [done|]. cbn [admit_loop].
  destruct (queue e Q_INTAKE) as [|top l]; [done|]. destruct (_ <? _); [|done].
  pose proof (admit_step_tidy now h top e s Ht) as H. destruct (admit_step now h top e s) as [[[e1 s1]|] [e2 s2]]; [by apply IH|done].
Qed.

Lemma pass_tidy now e : tidy e → tidy (engine_pass now e).1.
Proof.
  intros Ht. unfold engine_pass.
  pose proof (step1_tidy now e (Pass [] 0 false) Ht) as H1. destruct (step1 _ _ _) as [[e1 s1] ann].
  pose proof (step2_tidy ann now e1 s1 H1) as H2. destruct (step2 _ _ _) as [e2 s2].
  pose proof (step2b_tidy now ann e2 s2 H2) as H3. destruct (step2b _ _ _ _) as [[e3 s3] h].
  pose proof (step3_tidy now e3 s3 H3) as H4. destruct (step3 _ _ _) as [e4 s4].
  pose proof (step3b_tidy now e4 s4 H4) as H5. destruct (step3b _ _ _) as [[e5 s5] pg].
  assert (tidy (step4 now pg h e5 s5).1) as H6.
  { unfold step4. destruct pg; [done|]. by apply admit_loop_tidy, rescore_tidy. }
  destruct (step4 _ _ _ _ _) as [e6 s6]. cbn [fst] in *. by apply (tidy_ext e6).
Qed.

(** ** Sections that only give back *)

Definition mems (e : engine) : gmap ptr Z := it_mem <$> e_items e.
Definition budgets (e : engine) : list Z := rs_budget <$> e_resources e.
(** No item gains memory, no budget moves. *)
Definition calm (e e' : engine) : Prop := mems e' ⊆ mems e ∧ budgets e' = budgets e.
Lemma calm_trans e1 e2 e3 : calm e1 e2 → calm e2 e3 → calm e1 e3.
Proof. intros [A1 B1] [A2 B2]. split; [transitivity (mems e2); done|congruence]. Qed.
Lemma calm_alter e e' p f :
  (∀ i, it_mem (f i) = it_mem i) → e_items e' = alter f p (e_items e) → budgets e' = budgets e → calm e e'.
Proof.
  intros Hf He Hb. split; [|done]. unfold mems. rewrite He. apply map_subseteq_spec. intros x m.
  rewrite !lookup_fmap. destruct (decide (p = x)) as [<-|]; [|by rewrite lookup_alter_ne].
  rewrite lookup_alter_eq. destruct (e_items e !! p) as [i|]; [|done]. simpl. by rewrite Hf.
Qed.

Record sheds (e e' : engine) : Prop := {
  sh_calm : calm e e'; sh_charges : charges e' ⊆ charges e }.
Lemma sheds_items e e' : e_items e' = e_items e → budgets e' = budgets e → sheds e e'.
Proof. intros H Hb. split; [split; [|done]|]; unfold charges, mems; by rewrite H. Qed.
Lemma sheds_refl e : sheds e e.
Proof. by apply sheds_items. Qed.
#[local] Hint Resolve sheds_refl : core.
Lemma sheds_trans e1 e2 e3 : sheds e1 e2 → sheds e2 e3 → sheds e1 e3.
Proof. intros [A1 B1] [A2 B2]. split; [by eapply calm_trans|transitivity (charges e2); done]. Qed.
(** The engine as it is before the write the goal ends with. *)
Ltac shed_before := match goal with |- sheds ?e (put _ _ ?e1) => apply (sheds_trans e e1); [by apply sheds_items|] end.

Lemma sheds_put e p f :
  (∀ i, it_mem (f i) = it_mem i) → (∀ i, charge (f i) = charge i ∨ charge (f i) = None) → sheds e (put p f e).
Proof.
  intros Hm Hf. split; [by eapply calm_alter|]. apply map_subseteq_spec. intros x c. rewrite !charges_lookup, items_put.
  destruct (decide (p = x)) as [<-|]; [|by rewrite lookup_alter_ne].
  rewrite lookup_alter_eq. destruct (e_items e !! p) as [i|]; [|done]. simpl. destruct (Hf i) as [-> | ->]; done.
Qed.
Lemma sheds_light e p f : light f → sheds e (put p f e).
Proof. intros Hf. apply sheds_put; intros i; [apply Hf|left]. by apply light_charge. Qed.
Lemma sheds_free e p : sheds e (item_free p e).
Proof.
  split; [split; [|done]|]; unfold charges, mems, item_free; simpl.
  - rewrite fmap_delete. apply delete_subseteq.
  - rewrite charges_delete. apply delete_subseteq.
Qed.
Lemma sheds_hidx_del e p : sheds e (hidx_del p e).
Proof. unfold hidx_del. destruct (it_indexed _); [|done]. shed_before. by apply sheds_light. Qed.
Lemma sheds_drop e p : sheds e (item_drop p e).
Proof. eapply sheds_trans; [apply sheds_hidx_del|apply sheds_free]. Qed.
Lemma sheds_push e q p : committed q = false → sheds e (fifo_push q p e).
Proof.
  intros Hq. unfold fifo_push. shed_before. apply sheds_put; [done|]. intros i. right. unfold charge. simpl. by rewrite Hq.
Qed.
Lemma sheds_hand e q l p : sheds e (put p (λ i, i <| it_where := Q_NONE |>) (set_queue q l e)).
Proof. shed_before. apply sheds_put; [done|]. intros i. by right. Qed.
Lemma sheds_remove e q p : sheds e (fifo_remove q p e).
Proof. apply sheds_hand. Qed.
Lemma sheds_pop e q p e' : fifo_pop q e = Some (p, e') → sheds e e'.
Proof. unfold fifo_pop. destruct (queue e q) as [|x l]; [done|]. intros [= -> <-]. apply sheds_hand. Qed.
Lemma sheds_insert e p : sheds e (intake_insert p e).
Proof.
  set (e1 := e <| e_seq ::= λ q, u64 (q + 1) |>).
  set (e2 := put p (λ i, i <| it_seq := e_seq e1 |> <| it_where := Q_INTAKE |>) e1).
  apply (sheds_trans _ e2); [|by apply sheds_items]. unfold e2. shed_before.
  apply sheds_put; [done|]. intros i. by right.
Qed.
Lemma sheds_evict e n : sheds e (dead_letter_evict n e).
Proof.
  revert e. induction n as [|n IH]; intros e; [done|]. cbn [dead_letter_evict].
  destruct (_ && _); [|done]. destruct (fifo_pop Q_DEAD e) as [[x e1]|] eqn:Hp; [|done].
  eapply sheds_trans; [by eapply sheds_pop|]. eapply sheds_trans; [|apply IH].
  match goal with |- sheds _ (item_free _ ?e2) => apply (sheds_trans _ e2); [by apply sheds_items|apply sheds_free] end.
Qed.
Lemma sheds_dead e p : sheds e (dead_letter_push p e).
Proof.
  unfold dead_letter_push. eapply sheds_trans; [apply (sheds_hidx_del e p)|].
  eapply sheds_trans; [apply (sheds_evict (hidx_del p e) (length (queue (hidx_del p e) Q_DEAD)))|].
  eapply sheds_trans; [by apply (sheds_push _ Q_DEAD p)|]. by apply sheds_items.
Qed.
Lemma budgets_res_apply f rs snap : rs_budget <$> res_apply f rs snap = rs_budget <$> rs.
Proof. revert snap. induction rs as [|r rs IH]; intros [|x snap]; [done..|]. csimpl. by rewrite IH. Qed.

(** Giving back what an item in hands held: it is not among the committed. *)
Lemma sheds_release e p : charges e !! p = None → sheds e (release p e).
Proof.
  intros Hp. split.
  - unfold release. set (e1 := e <| e_reserved_mem ::= _ |> <| e_running ::= _ |>).
    destruct (it_res (get e1 p)) as [l|]; [|by split].
    eapply calm_alter; [|done|]; [done|]. unfold budgets. simpl. apply budgets_res_apply.
  - apply map_subseteq_spec. intros x c Hx. destruct (e_items e !! p) as [i|] eqn:Hi.
    + rewrite charges_lookup, (release_items p e i Hi) in Hx. destruct (decide (p = x)) as [<-|Hn].
      * rewrite lookup_alter_eq, Hi in Hx. rewrite charges_lookup, Hi in Hp. simpl in *. unfold charge in *. simpl in Hx.
        by destruct (committed (it_where i)).
      * by rewrite lookup_alter_ne, <-charges_lookup in Hx.
    + assert (e_items (release p e) = e_items e) as He; [|by rewrite charges_lookup, He, <-charges_lookup in Hx].
      unfold release. destruct (it_res (get _ p)); [|done]. rewrite items_put. simpl. apply map_eq. intros y.
      destruct (decide (p = y)) as [<-|Hn]; [by rewrite lookup_alter_eq, Hi|by rewrite lookup_alter_ne].
Qed.
Lemma hand_uncharged q l p e :
  charges (put p (λ i, i <| it_where := Q_NONE |>) (set_queue q l e)) !! p = None.
Proof. rewrite charges_lookup, items_put, items_set_queue, lookup_alter_eq. by destruct (e_items e !! p). Qed.
Lemma sheds_pop_release e q p e' : fifo_pop q e = Some (p, e') → sheds e (release p e').
Proof.
  unfold fifo_pop. destruct (queue e q) as [|x l]; [done|]. intros [= -> <-].
  eapply sheds_trans; [apply (sheds_hand e q l p)|]. apply sheds_release, hand_uncharged.
Qed.
Lemma sheds_remove_release e q p : sheds e (release p (fifo_remove q p e)).
Proof. eapply sheds_trans; [apply sheds_remove|]. apply sheds_release, hand_uncharged. Qed.

End LedgerAdmit.
