(* ===== verification/LedgerBudget.v ===== *)
(** * The budgets hold

    A pass commits nothing a budget cannot hold: the memory, the slots and each named
    resource in use never rise past the larger of what was in use and the limit. *)

From S2P Require Import Prelude HandleIndex Engine EnginePass EngineApi EngineFacts EnginePassFacts EngineStatic.
From S2P Require Import Ledger LedgerFacts LedgerAdmit.
Import Engine EnginePass EngineApi EngineFacts EnginePassFacts EngineStatic Ledger LedgerFacts LedgerAdmit.

Module LedgerBudget.

(** Peel the operations off the engine a section leaves, outermost first. *)
Ltac shed :=
  lazymatch goal with
  | |- sheds ?e ?e => apply sheds_refl
  | |- sheds _ (item_drop _ ?e) => apply (sheds_trans _ e); [shed|apply sheds_drop]
  | |- sheds _ (item_free _ ?e) => apply (sheds_trans _ e); [shed|apply sheds_free]
  | |- sheds _ (hidx_del _ ?e) => apply (sheds_trans _ e); [shed|apply sheds_hidx_del]
  | |- sheds _ (dead_letter_push _ ?e) => apply (sheds_trans _ e); [shed|apply sheds_dead]
  | |- sheds _ (fifo_push _ _ ?e) => apply (sheds_trans _ e); [shed|by apply sheds_push]
  | |- sheds _ (fifo_remove _ _ ?e) => apply (sheds_trans _ e); [shed|apply sheds_remove]
  | |- sheds _ (intake_unlink _ ?e) => apply (sheds_trans _ e); [shed|apply sheds_remove]
  | |- sheds _ (intake_insert _ ?e) => apply (sheds_trans _ e); [shed|apply sheds_insert]
  | |- sheds _ (cancel_item _ ?e) => unfold cancel_item, cancel_raise; shed
  | |- sheds _ (cancel_raise _ ?e) => unfold cancel_raise; shed
  | |- sheds _ (put _ _ ?e) => apply (sheds_trans _ e); [shed|by apply sheds_light; intros ?]
  | |- _ => try assumption; try by apply sheds_items
  end.

Lemma sheds_fold {A} (f : engine * A → ptr → engine * A) l e a :
  (∀ e a p, sheds e (f (e, a) p).1) → sheds e (foldl f (e, a) l).1.
Proof.
  intros Hf. revert e a. induction l as [|p l IH]; intros e a; [apply sheds_refl|]. cbn [foldl].
  specialize (Hf e a p). destruct (f (e, a) p) as [e1 a1]. eapply sheds_trans; [exact Hf|apply IH].
Qed.
Lemma sheds_fold1 (f : engine → ptr → engine) l e :
  (∀ e p, sheds e (f e p)) → sheds e (foldl f e l).
Proof.
  intros Hf. revert e. induction l as [|p l IH]; intros e; [apply sheds_refl|]. cbn [foldl].
  eapply sheds_trans; [apply Hf|apply IH].
Qed.

(** ** Up to admission, a pass only gives back *)

Lemma sheds_drain_one now p e s : sheds e (drain_one now p e s).1.1.
Proof.
  unfold drain_one, drain_ok, drain_cancelled_item, drain_removed, drain_retry, drain_failed.
  repeat match goal with
  | |- context [decide ?P] => destruct (decide P)
  | |- context [if ?b then _ else _] => destruct b
  | |- context [match p_on_failure ?x with _ => _ end] => destruct (p_on_failure x)
  end; cbn [fst snd]; shed.
Qed.
Lemma sheds_step1 now e s : sheds e (step1 now e s).1.1.
Proof.
  unfold step1. assert (∀ n ann, sheds e (drain_done n now e s ann).1.1) as H.
  { intros n. revert e s. induction n as [|n IH]; intros e s ann; [apply sheds_refl|]. cbn [drain_done].
    destruct (full s); [apply sheds_refl|].
    destruct (fifo_pop Q_DONE e) as [[p e1]|] eqn:Hp; [|apply sheds_refl].
    pose proof (sheds_drain_one now p (release p e1) s) as H1. destruct (drain_one _ _ _ _) as [[e2 s2] a].
    eapply sheds_trans; [by eapply sheds_pop_release|]. eapply sheds_trans; [exact H1|apply IH]. }
  specialize (H (length (queue e Q_DONE)) []). by destruct (drain_done _ _ _ _ _) as [[e1 s1] ann].
Qed.
Lemma sheds_step2 now e s : sheds e (step2 now e s).1.
Proof.
  apply sheds_fold. intros e0 s0 p. unfold promote_one. destruct (_ <=? _); cbn [fst]; shed.
Qed.
Lemma sheds_step2b now ann e s : sheds e (step2b now ann e s).1.1.
Proof.
  unfold step2b. generalize no_held. revert e s. induction ann as [|p l IH]; intros e s h; [apply sheds_refl|].
  cbn [foldl]. unfold park_one at 2.
  destruct (_ <=? now); (eapply sheds_trans; [by apply (sheds_push e Q_DELAYED p)|apply IH]).
Qed.
Lemma sheds_step3 now e s : sheds e (step3 now e s).1.
Proof.
  apply sheds_fold. intros e0 s0 p. unfold deadline_one. destruct (_ =? 0); [apply sheds_refl|].
  destruct (_ <=? now); cbn [fst]; shed.
Qed.
Lemma sheds_grace n e s : sheds e (grace_drain n e s).1.
Proof.
  revert e s. induction n as [|n IH]; intros e s; [apply sheds_refl|]. cbn [grace_drain].
  destruct (full s); [apply sheds_refl|].
  assert (∀ q p e1, fifo_pop q e = Some (p, e1) →
    sheds e (let '(e, s) := grace_one p e1 s in grace_drain n e s).1) as Hgo.
  { intros q p e1 Hp. eapply sheds_trans; [by eapply sheds_pop|]. unfold grace_one. cbn [fst].
    eapply sheds_trans; [|apply IH]. destruct (bool_decide _); shed. }
  destruct (fifo_pop Q_DELAYED e) as [[p e1]|] eqn:Hp1; [by eapply Hgo|].
  destruct (fifo_pop Q_INTAKE e) as [[p e1]|] eqn:Hp2; [by eapply Hgo|apply sheds_refl].
Qed.
Lemma sheds_step3b now e s : sheds e (step3b now e s).1.1.
Proof.
  unfold step3b. destruct (_ && _); [|apply sheds_refl]. destruct (_ <=? now); [|apply sheds_refl].
  pose proof (sheds_grace (length (queue e Q_DELAYED) + length (queue e Q_INTAKE)) e s) as H1.
  destruct (grace_drain _ e s) as [e1 s1]. cbn [fst] in *. eapply sheds_trans; [exact H1|].
  apply sheds_fold1. intros e0 p. shed.
Qed.
Lemma sheds_rescore e : sheds e (rescore e).
Proof.
  unfold rescore. destruct (e_sched e) as [f|]; [|apply sheds_refl]. destruct (queue e Q_INTAKE) as [|x l]; [apply sheds_refl|].
  destruct (_ <? _); [|apply sheds_refl].
  apply (sheds_trans _ (foldl (rescore_one f) e (x :: l))); [|by apply sheds_items].
  apply sheds_fold1. intros e0 p. unfold rescore_one.
  shed_before. by apply sheds_light.
Qed.

(** ** Admission within the limits *)

Lemma res_all_lookup f rs cost k r c :
  res_all f rs cost = true → rs !! k = Some r → cost !! k = Some c → f r c = true.
Proof.
  revert cost k. induction rs as [|r' rs IH]; intros [|c' cost] [|k] Hall Hr Hc; try done; simpl in *.
  - apply andb_true_iff in Hall as [H _]. by simplify_eq.
  - apply andb_true_iff in Hall as [_ H]. by eapply IH.
Qed.

Lemma admit_scan_best e l p : admit_scan e l = Best p → fits e p = true ∧ res_never_fits e p = false.
Proof.
  induction l as [|x l IH]; simpl; [done|]. destruct (res_never_fits e x) eqn:Hn; [done|].
  destruct (fits e x) eqn:Hf; [|done]. by intros [= ->].
Qed.

Lemma static_fields e e' : static e' = static e →
  e_regs e' = e_regs e ∧ e_max_memory_bytes e' = e_max_memory_bytes e ∧
  e_max_concurrent_tasks e' = e_max_concurrent_tasks e.
Proof. intros H. by injection H. Qed.

Lemma sheds_chosen top best e : sheds e (chosen top best e).
Proof. unfold chosen, charge_skip. case_decide; shed. Qed.

Section within.
(** What was in use, or the limit, whichever is larger. *)
Context (M C : Z) (bs : list Z) (BM BC : Z) (BR : nat → Z).
Hypothesis (HM : M ≤ BM) (HC : C ≤ BC) (HR : ∀ k b, bs !! k = Some b → b ≤ BR k).
Hypothesis (HMw : BM + M < 2 ^ 64) (HCw : BC < 2 ^ 32) (HRw : ∀ k b, bs !! k = Some b → BR k + b < 2 ^ 64).

Record within (e : engine) : Prop := {
  wi_tidy : tidy e;
  wi_limits : e_max_memory_bytes e = M ∧ e_max_concurrent_tasks e = C ∧ budgets e = bs;
  wi_mems : ∀ p m, mems e !! p = Some m → 0 ≤ m;
  wi_costs : ∀ r g rc k c, e_regs e !! r = Some g → r_res_cost g = Some rc → rc !! k = Some c → 0 ≤ c;
  wi_charges : ∀ p c k, charges e !! p = Some c → 0 ≤ c.1 ∧ 0 ≤ amount k c;
  wi_mem : total fst (charges e) ≤ BM;
  wi_run : Z.of_nat (size (charges e)) ≤ BC;
  wi_res : ∀ k b, bs !! k = Some b → total (amount k) (charges e) ≤ BR k }.

Lemma within_sheds e e' : within e → sheds e e' → tidy e' → static e' = static e → within e'.
Proof.
  intros [A (B1 & B2 & B3) D E F G I J] [[Hm Hb] Hc] Ht Hs.
  destruct (static_fields _ _ Hs) as (S1 & S2 & S3).
  split.
  - done.
  - split_and!; congruence.
  - intros p m Hp. apply (D p m). by eapply lookup_weaken.
  - rewrite S1. exact E.
  - intros p c k Hp. apply (F p c k). by eapply lookup_weaken.
  - etrans; [|exact G]. apply total_mono; [done|]. intros p c Hp. by apply (F p c 0%nat).
  - rewrite <-total_one. etrans; [apply (total_mono _ _ _ Hc); by intros|]. by rewrite total_one.
  - intros k b Hk. etrans; [|by apply (J k b)]. apply total_mono; [done|]. intros p c Hp. by apply (F p c k).
Qed.

Lemma within_tick e t : within e → within (e <| e_tick := t |>).
Proof. intros H. apply (within_sheds e); [done|by apply sheds_items|by apply tidy_tick, H|done]. Qed.

(** The one step that takes: the item is within what each limit leaves. *)
Lemma within_commit top best sn e i :
  within e → best ∈ queue e Q_INTAKE → e_items e !! best = Some i →
  fits e best = true → res_never_fits e best = false → e_running e < e_max_concurrent_tasks e →
  snap_cost sn = match sn with Snap _ => take (length (e_resources e)) (default [] (res_cost e best)) | _ => [] end →
  within (admit_best top best sn e).
Proof.
  intros [A (B1 & B2 & B3) D E F G I J] Hq Hi Hf Hnf Hrun Hsn. rewrite admit_best_eq.
  change (within (commit best sn (chosen top best e))).
  destruct (chosen_spec top best e A Hq) as (i' & Hi' & Ht1 & Hc1 & Hi1 & Hr). simplify_eq.
  set (e1 := chosen top best e) in *. set (j := i <| it_where := Q_NONE |>) in *.
  assert (static e1 = static e ∧ e_resources e1 = e_resources e) as [S1 S2] by (unfold e1, chosen, charge_skip; by case_decide).
  destruct (commit_counters best sn e1 j Hi1) as (_ & _ & R3).
  pose proof (commit_charges best sn e1 j Hi1 Hr) as Hch. change (it_mem j) with (it_mem i) in *. rewrite Hc1 in Hch.
  assert (charges e !! best = None) as Hn.
  { destruct (t_where _ A Q_INTAKE best ltac:(done) Hq) as (i0 & Hi0 & Hw). simplify_eq.
    rewrite charges_lookup, Hi. simpl. unfold charge. by rewrite Hw. }
  assert (static (commit best sn e1) = static e) as Hst by (rewrite <-S1; unfold commit; by destruct sn).
  destruct (static_fields _ _ Hst) as (T1 & T2 & T3).
  unfold fits, res_never_fits in Hf, Hnf. rewrite (get_lookup _ _ _ Hi) in Hf, Hnf.
  apply andb_true_iff in Hf as [Hfm%Z.leb_le Hfr]. destruct (Z.ltb_spec (e_max_memory_bytes e) (it_mem i)) as [|Hle]; [done|].
  pose proof (t_ledger _ A) as [L1 L2 L3 L4].
  assert (0 ≤ it_mem i) as Hi0 by (apply (D best); unfold mems; by rewrite lookup_fmap, Hi).
  assert (∀ k b, bs !! k = Some b → 0 ≤ amount k (it_mem i, snap_cost sn) ∧
    amount k (it_mem i, snap_cost sn) + total (amount k) (charges e) ≤ BR k) as Hk.
  { intros k b Hb. pose proof (J k b Hb) as Hj. unfold amount at 1 2. simpl.
    destruct (snap_cost sn !! k) as [c|] eqn:Hc; simpl; [|lia]. rewrite Hsn in Hc.
    destruct sn as [|l|]; [done| |done]. apply lookup_take_Some in Hc as [Hc _].
    destruct (res_cost e best) as [rc|] eqn:Hrc; [|done]. simpl in Hc.
    pose proof Hb as Hbk. rewrite <-B3 in Hbk. unfold budgets in Hbk. rewrite list_lookup_fmap in Hbk.
    destruct (e_resources e !! k) as [r|] eqn:Hrk; [|done]. injection Hbk as <-.
    assert (0 ≤ c) as Hc0.
    { unfold res_cost in Hrc. destruct (reg_of e best) as [g|] eqn:Hg; [|done]. unfold reg_of in Hg.
      destruct (it_reg (get e best)) as [x|]; [|done]. by eapply E. }
    assert (nres e =? 0 = false) as Hz.
    { apply Z.eqb_neq. unfold nres. apply lookup_lt_Some in Hrk. lia. }
    unfold res_fits in Hfr. rewrite Hrc, Hz in Hfr. rewrite Hz in Hnf.
    pose proof (res_all_lookup _ _ _ k r c Hfr Hrk Hc) as Hx1. apply negb_false_iff in Hnf.
    pose proof (res_all_lookup _ _ _ k r c Hnf Hrk Hc) as Hx2. apply negb_true_iff, Z.ltb_ge in Hx2.
    apply negb_true_iff, andb_false_iff in Hx1.
    pose proof (HRw k _ Hb). pose proof (HR k _ Hb).
    pose proof (total_nonneg (amount k) (charges e) ltac:(intros p d Hp; by apply (F p d k))).
    destruct Hx1 as [->%negb_false_iff%Z.eqb_eq|Hx1%Z.ltb_ge]; [lia|].
    rewrite (L3 k r Hrk), u64_add in Hx1. unfold u64 in Hx1. rewrite Z.mod_small in Hx1 by lia. lia. }
  split.
  - apply (commit_tidy best sn e1 j Ht1 Hi1); [done|done|]. rewrite S2, Hsn.
    destruct sn; simpl; [lia| |lia]. rewrite length_take. lia.
  - split_and!; [congruence|congruence|]. rewrite <-B3. unfold budgets. rewrite R3, S2. apply budgets_res_apply.
  - intros p m Hp. unfold mems in Hp. rewrite (commit_items best sn e1 j Hi1) in Hp.
    rewrite lookup_fmap in Hp. destruct (decide (best = p)) as [<-|Hbp].
    + rewrite lookup_insert_eq in Hp. injection Hp as <-. destruct sn; exact Hi0.
    + rewrite lookup_insert_ne in Hp by done. apply (D p). unfold mems. rewrite lookup_fmap.
      destruct (sheds_chosen top best e) as [[Hm _] _].
      rewrite <-lookup_fmap in Hp |- *. by eapply lookup_weaken.
  - rewrite T1. exact E.
  - intros p c k. rewrite Hch. intros [[_ <-]|[_ Hp]]%lookup_insert_Some; [|by apply (F p)].
    split; [done|]. unfold amount. simpl. destruct (snap_cost sn !! k) as [c|] eqn:Hc; [|done]. simpl.
    assert (k < length bs)%nat as Hlt.
    { apply lookup_lt_Some in Hc. rewrite <-B3. unfold budgets. rewrite length_fmap.
      rewrite Hsn in Hc. destruct sn; simpl in Hc; [lia| |lia]. rewrite length_take in Hc. lia. }
    apply lookup_lt_is_Some in Hlt as [b Hb]. destruct (Hk k b Hb) as [H _]. unfold amount in H. simpl in H. by rewrite Hc in H.
  - rewrite Hch, total_insert by done. simpl.
    pose proof (total_nonneg fst (charges e) ltac:(intros p d Hp; by apply (F p d 0%nat))).
    rewrite L1, u64_add in Hfm. unfold u64 in Hfm. rewrite Z.mod_small in Hfm by lia. lia.
  - rewrite Hch, map_size_insert_None by done. rewrite L2 in Hrun. unfold u32 in Hrun.
    rewrite Z.mod_small in Hrun by lia. lia.
  - intros k b Hb. rewrite Hch, total_insert by done. by apply (Hk k b).
Qed.

Lemma within_admit_step now h top e s :
  within e → e_running e < e_max_concurrent_tasks e →
  match admit_step now h top e s with (Some (e', _), _) | (None, (e', _)) => within e' end.
Proof.
  intros Hw Hrun. pose proof (admit_step_tidy now h top e s (wi_tidy _ Hw)) as Ht.
  pose proof (static_admit_step now h top e s) as Hs. revert Ht Hs. unfold admit_step.
  pose proof (admit_scan_in ∅ (map_Forall_empty _) e (queue e Q_INTAKE)) as Hin.
  destruct (admit_scan e (queue e Q_INTAKE)) as [p|best|] eqn:Hsc; [| |done].
  { destruct (full s); [done|]. unfold admit_reject. intros Ht Hs. apply (within_sheds e); [done|shed|done|done]. }
  destruct (admit_scan_best _ _ _ Hsc) as [Hf Hnf].
  destruct (held_back _ _ _); [done|]. destruct (_ && _); [done|].
  pose proof (run_constraints_tick e best) as Hc. destruct (run_constraints e best) as [[d ra] e1].
  destruct Hc as [t ->]. set (e1 := e <| e_tick := t |>). assert (within e1) as Hw1 by by apply within_tick.
  destruct d.
  - pose proof (take_snapshot_spec best e1) as Hsn. destruct (take_snapshot best e1) as [sn e2].
    destruct Hsn as ([t2 ->] & Hsn). set (e2 := e1 <| e_tick := t2 |>).
    assert (within e2) as Hw2 by by apply within_tick.
    destruct (t_where _ (wi_tidy _ Hw2) Q_INTAKE best ltac:(done) Hin) as (i & Hi & _).
    assert (within (admit_best top best sn e2)) as Ha by by apply (within_commit top best sn e2 i).
    by destruct sn.
  - destruct (full s); [done|]. unfold admit_reject. intros Ht Hs.
    apply (within_sheds e1); [done|shed|done|done].
  - unfold defer_one. intros Ht Hs. apply (within_sheds e1); [done|shed|done|done].
Qed.

Lemma within_admit_loop n now h e s : within e → within (admit_loop n now h e s).1.
Proof.
  revert e s. induction n as [|n IH]; intros e s Hw; [done|]. cbn [admit_loop].
  destruct (queue e Q_INTAKE) as [|top l]; [done|]. destruct (Z.ltb_spec (e_running e) (e_max_concurrent_tasks e)); [|done].
  pose proof (within_admit_step now h top e s Hw) as H1.
  destruct (admit_step now h top e s) as [[[e1 s1]|] [e2 s2]]; [by apply IH, H1|by apply H1].
Qed.

Lemma within_step4 now pg h e s : within e → within (step4 now pg h e s).1.
Proof.
  intros Hw. unfold step4. destruct pg; [done|]. apply within_admit_loop.
  apply (within_sheds e); [done|apply sheds_rescore|apply rescore_tidy, Hw|]. unfold rescore.
  destruct (e_sched e) as [f|]; [|done]. destruct (queue e Q_INTAKE); [done|].
  destruct (_ <? _); [|done]. rewrite static_resort. by apply static_fold.
Qed.

Lemma within_pass now e : within e → within (engine_pass now e).1.
Proof.
  intros Hw. pose proof (pass_tidy now e (wi_tidy _ Hw)) as Ht. pose proof (static_pass now e) as Hst.
  revert Ht Hst. unfold engine_pass.
  pose proof (sheds_step1 now e (Pass [] 0 false)) as H1. pose proof (static_step1 now e (Pass [] 0 false)) as T1.
  pose proof (step1_tidy now e (Pass [] 0 false) (wi_tidy _ Hw)) as D1. destruct (step1 _ _ _) as [[e1 s1] ann].
  pose proof (sheds_step2 now e1 s1) as H2. pose proof (static_step2 now e1 s1) as T2.
  pose proof (step2_tidy ann now e1 s1 D1) as D2. destruct (step2 _ _ _) as [e2 s2].
  pose proof (sheds_step2b now ann e2 s2) as H3. pose proof (static_step2b now ann e2 s2) as T3.
  pose proof (step2b_tidy now ann e2 s2 D2) as D3. destruct (step2b _ _ _ _) as [[e3 s3] h].
  pose proof (sheds_step3 now e3 s3) as H4. pose proof (static_step3 now e3 s3) as T4.
  pose proof (step3_tidy now e3 s3 D3) as D4. destruct (step3 _ _ _) as [e4 s4].
  pose proof (sheds_step3b now e4 s4) as H5. pose proof (static_step3b now e4 s4) as T5.
  pose proof (step3b_tidy now e4 s4 D4) as D5. destruct (step3b _ _ _) as [[e5 s5] pg]. cbn [fst] in *.
  assert (within e5) as Hw5.
  { apply (within_sheds e); [done| |done|congruence].
    do 4 (eapply sheds_trans; [eassumption|]). exact H5. }
  pose proof (within_step4 now pg h e5 s5 Hw5) as Hw6. destruct (step4 _ _ _ _ _) as [e6 s6]. cbn [fst] in *.
  intros Ht Hst. apply (within_sheds e6); [done|by apply sheds_items|done|done].
Qed.
End within.

End LedgerBudget.
