(* ===== verification/LedgerWorld.v ===== *)
(** * The ledger over time

    Every section of every thread keeps the counters equal to the sums of what the
    admitted items hold, until the last section of the shutdown empties the engine;
    and no section commits past the budgets.  Module Budgets states what this means. *)

From S2P Require Import Prelude HandleIndex Engine EnginePass EngineApi Registry EngineFacts EngineAcct EnginePassFacts.
From S2P Require Import EngineApiFacts EngineMgmtFacts EngineStatic Lifecycle Outcomes Ledger LedgerFacts LedgerAdmit.
From S2P Require Import LedgerBudget.

Import Engine EnginePass EngineApi Registry EngineFacts EngineAcct EngineApiFacts EngineMgmtFacts EngineStatic.
Import Lifecycle Ledger LedgerFacts LedgerAdmit LedgerBudget.

Module LedgerWorld.

#[local] Hint Extern 1 (light _) => (intros ?; done) : core.

(** A section that keeps the ledger and takes nothing. *)
Definition keeps (e e' : engine) : Prop := tidy e → tidy e' ∧ charges e' ⊆ charges e.
Lemma keeps_ext e e' :
  e_items e' = e_items e → e_qs e' = e_qs e → e_reserved_mem e' = e_reserved_mem e →
  e_running e' = e_running e → e_resources e' = e_resources e → keeps e e'.
Proof. intros H1 H2 H3 H4 H5 Ht. split; [by apply (tidy_ext e)|]. unfold charges. by rewrite H1. Qed.
Lemma keeps_refl e : keeps e e.
Proof. by apply keeps_ext. Qed.
Lemma keeps_trans e1 e2 e3 : keeps e1 e2 → keeps e2 e3 → keeps e1 e3.
Proof. intros H1 H2 Ht. destruct (H1 Ht) as [A1 B1]. destruct (H2 A1) as [A2 B2]. split; [done|by transitivity (charges e2)]. Qed.
Lemma keeps_put e p f : light f → keeps e (put p f e).
Proof. intros Hf Ht. split; [by apply tidy_put|by apply sheds_light]. Qed.
Lemma keeps_fold (f : engine → ptr → engine) l e : (∀ e p, keeps e (f e p)) → keeps e (foldl f e l).
Proof.
  intros Hf. revert e. induction l as [|p l IH]; intros e; [apply keeps_refl|]. cbn [foldl].
  eapply keeps_trans; [apply Hf|apply IH].
Qed.
Lemma keeps_hidx_del e p : keeps e (hidx_del p e).
Proof. intros Ht. split; [by apply tidy_hidx_del|apply sheds_hidx_del]. Qed.

(** ** Submit *)

Lemma keeps_hidx_put e p : keeps e (hidx_put p e).
Proof.
  unfold hidx_put. match goal with |- keeps _ (put _ _ ?e') => apply (keeps_trans _ e'); [by apply keeps_ext|by apply keeps_put] end.
Qed.
Lemma keeps_accept now e r g cost payload o : keeps e (submit_accept now e r g cost payload o).1.2.
Proof.
  intros Ht. unfold submit_accept. cbn [fst snd]. set (p := fresh (dom (e_items e))). set (it := submit_item _ _ _ _ _ _ _).
  set (e2 := e <| e_next_handle ::= λ h, u64 (h + 1) |> <| e_items ::= <[p := it]> |>).
  assert (e_items e !! p = None) as Hp by (apply not_elem_of_dom, is_fresh).
  assert (charges e2 = charges e) as Hc.
  { unfold charges. change (e_items e2) with (<[p := it]> (e_items e)). apply map_eq. intros y. rewrite !lookup_omap.
    destruct (decide (p = y)) as [<-|]; [|by rewrite lookup_insert_ne]. rewrite lookup_insert_eq, Hp. done. }
  assert (tidy e2) as Ht2.
  { pose proof Ht as [A B C D]. split.
    - exact A.
    - intros q y Hq Hy. destruct (B q y Hq Hy) as (i & Hi & Hiw). exists i. split; [|done].
      change (<[p := it]> (e_items e) !! y = Some i). rewrite lookup_insert_ne; [done|]. intros <-. congruence.
    - intros y i. change (e_items e2) with (<[p := it]> (e_items e)).
      intros [[_ <-]|[_ Hy]]%lookup_insert_Some; [done|by apply (C y)].
    - by apply (ledger_ext e). }
  assert (hand e2 p) as Hh by (exists it; split; [apply lookup_insert_eq|done]).
  destruct (keeps_hidx_put (intake_insert p e2) p (tidy_insert e2 p Ht2 Hh)) as [H1 H2]. split; [exact H1|].
  etrans; [exact H2|]. rewrite <-Hc. apply (sheds_insert e2 p).
Qed.

Lemma keeps_submit tid now name payload o e : keeps e (submit_internal tid now name payload o e).1.2.
Proof.
  unfold submit_internal. destruct (submit_alloc payload e) as [a e0] eqn:Ha.
  assert (keeps e e0) as Hk.
  { unfold submit_alloc, ask_alloc in Ha. destruct payload; [|destruct (e_alloc _ _)];
      injection Ha as _ <-; by apply keeps_ext. }
  apply (keeps_trans _ e0); [done|]. clear Hk Ha e. rename e0 into e.
  destruct (negb a); [apply keeps_refl|]. destruct (e_stopping e); [apply keeps_refl|].
  destruct (registry_find tid e name) as [[r g]|]; [|apply keeps_refl].
  destruct (negb (r_enabled g)); [apply keeps_refl|].
  destruct (submit_check e g payload) as [st|cost]; [apply keeps_refl|].
  destruct (hidx_reserve e) as [ok e1] eqn:Hr. apply (keeps_trans _ e1).
  { unfold hidx_reserve, ask_alloc in Hr. destruct (HandleIndex.hidx_reserve _ _) as [[k x]|];
      injection Hr as _ <-; by apply keeps_ext. }
  destruct (negb ok); [apply keeps_refl|]. pose proof (keeps_accept now e1 r g cost payload o) as H.
  by destruct (submit_accept _ _ _ _ _ _ _) as [[h e2] ev].
Qed.

(** ** Cancel and the workers *)

Lemma keeps_cancel_item e p : keeps e (cancel_item p e).
Proof. unfold cancel_item, cancel_raise. eapply keeps_trans; by apply keeps_put. Qed.
Lemma keeps_drop_queued e p q : q ≠ Q_NONE → committed q = false → p ∈ queue e q → keeps e (item_drop p (fifo_remove q p e)).
Proof.
  intros Hq Hc Hp Ht. destruct (tidy_remove e p q Ht Hq Hc Hp) as [H1 H2]. split; [by apply tidy_drop|].
  etrans; [apply sheds_drop|apply sheds_remove].
Qed.
Lemma keeps_cancel H h e : wf H e → keeps e (gptps_cancel h e).1.2.
Proof.
  intros Hwf. unfold gptps_cancel. destruct (h =? 0); [apply keeps_refl|]. destruct (e_stopping e); [apply keeps_refl|].
  destruct (HandleIndex.hidx_lookup _ _) as [p|] eqn:Hl; [|apply keeps_refl].
  destruct (hidx_lookup_item _ _ _ _ Hwf Hl) as (i & Hi & _). rewrite (get_lookup _ _ _ Hi).
  destruct (it_where i) eqn:Hw; cbn [fst snd]; try apply keeps_refl; try apply keeps_cancel_item.
  - apply (keeps_drop_queued e p Q_INTAKE); [done|done|]. apply (wf_where _ _ Hwf); [done|]. by exists i.
  - apply (keeps_drop_queued e p Q_DELAYED); [done|done|]. apply (wf_where _ _ Hwf); [done|]. by exists i.
Qed.

(** From one committed queue to another: the books do not move. *)
Lemma keeps_move e p q q' f l i :
  light f → q ≠ Q_NONE → q' ≠ Q_NONE → committed q = true → committed q' = true → q ≠ q' →
  e_items e !! p = Some i → it_where i = q → NoDup l → (∀ x, x ∈ l ↔ x ≠ p ∧ x ∈ queue e q) →
  keeps e (fifo_push q' p (put p f (put p to_hand (set_queue q l e)))).
Proof.
  intros Hf Hq Hq' Hc Hc' Hne Hi Hw Hnd Hl [A B C D]. set (e' := fifo_push _ _ _).
  set (j := f (to_hand i) <| it_where := q' |>).
  assert (e_items e' = <[p := j]> (e_items e)) as Hit.
  { unfold e', fifo_push. rewrite items_put, items_set_queue, !items_put, items_set_queue.
    rewrite (alter_insert _ to_hand p i Hi), (alter_insert _ f p (to_hand i)) by apply lookup_insert_eq.
    rewrite (alter_insert _ _ p (f (to_hand i))) by apply lookup_insert_eq. by rewrite !insert_insert_eq. }
  assert (∀ q0, queue e' q0 = if decide (q' = q0) then queue e q0 ++ [p] else if decide (q = q0) then l else queue e q0) as Hqs.
  { intros q0. unfold e', fifo_push. rewrite queue_put, queue_cases, !queue_put, !queue_cases.
    case_decide; [|done]. subst. by rewrite decide_False by done. }
  assert (charges e' = charges e) as Hch.
  { unfold charges. rewrite Hit. apply map_eq. intros x. rewrite !lookup_omap. destruct (decide (p = x)) as [<-|].
    - rewrite lookup_insert_eq, Hi. simpl. unfold charge. destruct (Hf (to_hand i)) as (_ & H2 & H3).
      unfold j. simpl. rewrite H2, H3, Hw, Hc, Hc'. done.
    - by rewrite lookup_insert_ne. }
  assert (p ∉ queue e q') as Hpq' by (intros (i' & Hi' & ?)%B; [congruence|done]).
  split; [split|by rewrite Hch].
  - intros q0. rewrite Hqs. case_decide; [|by case_decide]. subst. apply NoDup_app.
    split_and!; [apply A| |apply NoDup_singleton]. by intros x Hx ->%list_elem_of_singleton.
  - intros q0 x Hq0. rewrite Hqs, Hit. destruct (decide (p = x)) as [<-|Hpx].
    + rewrite lookup_insert_eq. intros Hx. exists j. split; [done|]. case_decide; [done|]. case_decide.
      * by apply Hl in Hx as [? _].
      * destruct (B q0 p Hq0 Hx) as (i' & Hi' & ?). congruence.
    + rewrite lookup_insert_ne by done. intros Hx. apply B; [done|]. case_decide.
      * by apply elem_of_app in Hx as [Hx| ->%list_elem_of_singleton].
      * case_decide; [subst; by apply Hl in Hx as [_ ?]|done].
  - intros x k. rewrite Hit. destruct (decide (p = x)) as [<-|].
    + rewrite lookup_insert_eq. intros [= <-]. unfold j. simpl. congruence.
    + rewrite lookup_insert_ne by done. apply C.
  - by apply (ledger_ext e).
Qed.

Lemma keeps_take now e : keeps e (worker_take now e).1.2.
Proof.
  intros Ht. unfold worker_take. destruct (fifo_pop Q_READY e) as [[p e1]|] eqn:Hp; [|by apply keeps_refl].
  destruct (pop_inv Q_READY e p e1 Ht ltac:(done) Hp) as (i & l & Hi & Hw & _ & -> & Hnd & Hl).
  destruct (discarded _ p); cbn [fst snd].
  - by apply (keeps_move e p Q_READY Q_DONE _ l i).
  - by apply (keeps_move e p Q_READY Q_RUNNING _ l i).
Qed.
Lemma keeps_post p st e : p ∈ queue e Q_RUNNING → keeps e (worker_post p st e).
Proof.
  intros Hp Ht. destruct (t_where _ Ht Q_RUNNING p ltac:(done) Hp) as (i & Hi & Hw). unfold worker_post, fifo_remove.
  apply (keeps_move e p Q_RUNNING Q_DONE _ _ i); try done.
  - apply NoDup_filter, Ht.
  - intros x. apply (list_elem_of_filter (λ x, x ≠ p)).
Qed.

(** ** Local lists: detached, then freed *)

(** With the items of [L] in hands: [tidy_with], and nothing taken. *)
Definition keeps_with (L L' : list ptr) (e e' : engine) : Prop :=
  tidy_with L e → tidy_with L' e' ∧ charges e' ⊆ charges e.
Lemma keeps_with_trans L1 L2 L3 e1 e2 e3 : keeps_with L1 L2 e1 e2 → keeps_with L2 L3 e2 e3 → keeps_with L1 L3 e1 e3.
Proof. intros H1 H2 Ht. destruct (H1 Ht) as [A1 B1]. destruct (H2 A1) as [A2 B2]. split; [done|by transitivity (charges e2)]. Qed.
Lemma keeps_with_none L e e' : keeps_with [] L e e' → keeps e e'.
Proof.
  intros H Ht. destruct H as [[A _ _] B]; [|done]. split; [done|constructor|by intros x ?%not_elem_of_nil].
Qed.
Lemma keeps_with_light L e p f : light f → keeps_with L L e (put p f e).
Proof. intros Hf Ht. split; [by apply put_tidy_with|by apply sheds_light]. Qed.
Lemma keeps_with_ext L e e' :
  e_items e' = e_items e → e_qs e' = e_qs e → e_reserved_mem e' = e_reserved_mem e →
  e_running e' = e_running e → e_resources e' = e_resources e → keeps_with L L e e'.
Proof. intros H1 H2 H3 H4 H5 Ht. split; [by apply (tidy_with_ext L e)|]. unfold charges. by rewrite H1. Qed.
Lemma keeps_with_refl L e : keeps_with L L e e.
Proof. by apply keeps_with_ext. Qed.
Lemma keeps_with_fold (f : engine → ptr → engine) L l e :
  (∀ e p, keeps_with L L e (f e p)) → keeps_with L L e (foldl f e l).
Proof.
  intros Hf. revert e. induction l as [|p l IH]; intros e; [apply keeps_with_refl|]. cbn [foldl].
  eapply keeps_with_trans; [apply Hf|apply IH].
Qed.
Lemma keeps_with_index_drop L l e : keeps_with L L e (index_drop_list l e).
Proof.
  apply keeps_with_fold. intros e0 p. unfold hidx_del. destruct (it_indexed _); [|apply keeps_with_refl].
  match goal with |- keeps_with _ _ _ (put _ _ ?e') => apply (keeps_with_trans L L L e0 e'); [by apply keeps_with_ext|by apply keeps_with_light] end.
Qed.

(** Taking items off a queue into the local list. *)
Lemma keeps_take_off (g : engine → ptr → engine) q L l e :
  (∀ e p, tidy e → p ∈ queue e q →
     tidy (g e p) ∧ hand (g e p) p ∧ spares p e (g e p) ∧ charges (g e p) ⊆ charges e ∧
     queue (g e p) q = filter (λ x, x ≠ p) (queue e q)) →
  q ≠ Q_NONE → NoDup l → (∀ x, x ∈ l → x ∈ queue e q) →
  keeps_with L (L ++ l) e (foldl g e l).
Proof.
  intros Hg Hq. revert L e. induction l as [|p l IH]; intros L e Hnd Hl Ht.
  { rewrite app_nil_r. by apply keeps_with_refl. }
  apply NoDup_cons in Hnd as [Hp Hnd]. cbn [foldl].
  assert (p ∈ queue e q) as Hpq by (apply Hl; by left).
  destruct (Hg e p (tw_tidy _ _ Ht) Hpq) as (H1 & H2 & H3 & H4 & H5).
  pose proof (queued_unheld L e p q Ht Hq Hpq) as HpL.
  pose proof (tidy_with_step L p e _ Ht H1 H3 HpL) as [_ B C].
  replace (L ++ p :: l) with ((L ++ [p]) ++ l) by (by rewrite <-(assoc_L (++))).
  destruct (IH (L ++ [p]) (g e p)) as [A' B']; [done| | |split; [done|by transitivity (charges (g e p))]].
  - intros x Hx. rewrite H5. apply list_elem_of_filter. split; [by intros ->|]. apply Hl. by right.
  - split; [done| |].
    + apply NoDup_app. split_and!; [done| |apply NoDup_singleton]. by intros x Hx ->%list_elem_of_singleton.
    + intros x [Hx| ->%list_elem_of_singleton]%elem_of_app; [by apply C|done].
Qed.
Lemma queue_remove_eq q p e : queue (fifo_remove q p e) q = filter (λ x, x ≠ p) (queue e q).
Proof. unfold fifo_remove. by rewrite queue_put, queue_set_eq. Qed.
Lemma keeps_remove_fold q L l e :
  q ≠ Q_NONE → committed q = false → NoDup l → (∀ x, x ∈ l → x ∈ queue e q) →
  keeps_with L (L ++ l) e (foldl (λ e p, fifo_remove q p e) e l).
Proof.
  intros Hq Hc. apply keeps_take_off; [|done]. intros e0 p Ht Hp.
  destruct (tidy_remove e0 p q Ht Hq Hc Hp). split_and!;
    [done|done|apply spares_remove|apply sheds_remove|apply queue_remove_eq].
Qed.
Lemma filtered_ok (P : ptr → Prop) `{!∀ x, Decision (P x)} q e :
  tidy e → NoDup (filter P (queue e q)) ∧ ∀ x, x ∈ filter P (queue e q) → x ∈ queue e q.
Proof. intros Ht. split; [apply NoDup_filter, Ht|]. intros x [_ Hx]%list_elem_of_filter. done. Qed.
Lemma keeps_detach f q L e :
  q ≠ Q_NONE → committed q = false → keeps_with L (L ++ (fifo_detach f q e).1) e (fifo_detach f q e).2.
Proof.
  intros Hq Hc Ht. unfold fifo_detach. cbn [fst snd].
  destruct (filtered_ok (λ p, f e p = true) q e (tw_tidy _ _ Ht)). by apply keeps_remove_fold.
Qed.
Lemma keeps_detach_admitted q r L e :
  committed q = true → keeps_with L (L ++ (fifo_detach_reg_admitted q r e).1) e (fifo_detach_reg_admitted q r e).2.
Proof.
  intros Hc Ht. unfold fifo_detach_reg_admitted. cbn [fst snd].
  destruct (filtered_ok (λ p, is_reg r e p = true) q e (tw_tidy _ _ Ht)).
  apply (keeps_take_off _ q); [|by intros ->|done|done|done]. intros e0 p Ht0 Hp.
  destruct (tidy_remove_release e0 p q Ht0 Hc Hp) as (H1 & H2 & H3). split_and!; [done|done| | |].
  - eapply spares_trans; [apply spares_remove|apply spares_release].
  - apply sheds_remove_release.
  - by rewrite EnginePassFacts.queue_release, queue_remove_eq.
Qed.

(** The local list goes: one event each, and the item. *)
Lemma keeps_drain_cancelled l L e : keeps_with (l ++ L) L e (drain_cancelled l e).2.
Proof.
  revert e. induction l as [|p l IH]; intros e; [apply keeps_with_refl|]. simpl.
  specialize (IH (item_free p e)). destruct (drain_cancelled l (item_free p e)) as [evs e']. cbn [snd] in *.
  eapply keeps_with_trans; [|exact IH]. intros [A B C]. apply NoDup_cons in B as [Hp B]. split; [|apply sheds_free].
  apply (tidy_with_step (l ++ L) p e); [|by apply tidy_free, C; [|left]|apply spares_free|done].
  split; [done|done|]. intros x Hx. apply C. by right.
Qed.
Lemma keeps_free_fold l L e : keeps_with (l ++ L) L e (foldl (λ e p, item_free p e) e l).
Proof.
  assert (∀ e, foldl (λ e p, item_free p e) e l = (drain_cancelled l e).2) as ->; [|apply keeps_drain_cancelled].
  induction l as [|p l IH]; intros e0; [done|]. simpl. rewrite IH. by destruct (drain_cancelled l _).
Qed.

(** ** Dead letters *)

Lemma keeps_with_own_name L p e : keeps_with L L e (item_own_name p e).2.
Proof.
  unfold item_own_name. destruct (it_name_owned _); cbn [snd]; [by apply keeps_with_light|].
  destruct (ask_alloc e) as [ok e1] eqn:Ha. assert (keeps_with L L e e1) as H1.
  { injection Ha as _ <-. by apply keeps_with_ext. }
  destruct ok; cbn [snd]; [|done]. eapply keeps_with_trans; [exact H1|by apply keeps_with_light].
Qed.
Lemma keeps_with_detach_dead L r e : keeps_with L L e (detach_dead_letter r e).2.
Proof.
  unfold detach_dead_letter. generalize (queue e Q_DEAD). intros l. generalize true.
  revert e. induction l as [|p l IH]; intros e ok; [apply keeps_with_refl|]. cbn [foldl].
  destruct (is_reg r e p); [|apply IH]. pose proof (keeps_with_own_name L p e) as H1.
  destruct (item_own_name p e) as [b e1]. eapply keeps_with_trans; [exact H1|apply IH].
Qed.
Lemma keeps_dead_take n named L e :
  keeps_with L (L ++ (dead_letter_take n named e).1) e (dead_letter_take n named e).2.
Proof.
  revert L e. induction n as [|n IH]; intros L e; [rewrite app_nil_r; apply keeps_with_refl|]. cbn [dead_letter_take].
  destruct (queue e Q_DEAD) as [|p l] eqn:Hq; [rewrite app_nil_r; apply keeps_with_refl|].
  set (b := if named then (true, e) else item_own_name p e).
  assert (keeps_with L L e b.2 ∧ queue b.2 Q_DEAD = p :: l) as [H1 H2].
  { unfold b. destruct named; [by split; [apply keeps_with_refl|]|]. split; [apply keeps_with_own_name|].
    rewrite <-Hq. unfold item_own_name, ask_alloc. destruct (it_name_owned _); [done|]. by destruct (e_alloc e _). }
  destruct b as [ok e1]. cbn [snd] in *. destruct ok; [|rewrite app_nil_r; exact H1].
  unfold fifo_pop. rewrite H2. set (e2 := _ <| e_dead_letter_count ::= _ |>).
  specialize (IH (L ++ [p]) e2). destruct (dead_letter_take n named e2) as [l' e3]. cbn [fst snd] in *.
  replace (L ++ p :: l') with ((L ++ [p]) ++ l') by (by rewrite <-(assoc_L (++))).
  eapply keeps_with_trans; [exact H1|]. eapply keeps_with_trans; [|exact IH].
  apply (keeps_with_trans L (L ++ [p]) (L ++ [p]) e1 (put p to_hand (set_queue Q_DEAD l e1)) e2);
    [|by apply keeps_with_ext]. intros Ht.
  pose proof (queued_unheld L e1 p Q_DEAD Ht ltac:(done) ltac:(rewrite H2; by left)) as HpL.
  destruct (tidy_pop e1 p Q_DEAD (put p to_hand (set_queue Q_DEAD l e1)) (tw_tidy _ _ Ht)) as [A1 A2];
    [done|done|unfold fifo_pop; by rewrite H2|].
  assert (spares p e1 (put p to_hand (set_queue Q_DEAD l e1))) as Hs.
  { eapply (spares_pop p Q_DEAD). unfold fifo_pop. by rewrite H2. }
  pose proof (tidy_with_step L p e1 _ Ht A1 Hs HpL) as [_ B C]. split; [split; [exact A1| |]|apply sheds_hand].
  - apply NoDup_app. split_and!; [done| |apply NoDup_singleton]. by intros x Hx ->%list_elem_of_singleton.
  - intros x [Hx| ->%list_elem_of_singleton]%elem_of_app; [by apply C|exact A2].
Qed.
Lemma keeps_letters cb e : keeps e (gptps_dead_letter_drain cb e).2.
Proof.
  unfold gptps_dead_letter_drain. pose proof (keeps_dead_take (length (queue e Q_DEAD)) (negb cb) [] e) as H1.
  destruct (dead_letter_take _ _ e) as [l e1]. cbn [fst snd] in *. apply (keeps_with_none []).
  eapply keeps_with_trans; [exact H1|]. simpl. pose proof (keeps_free_fold l [] e1) as H. by rewrite app_nil_r in H.
Qed.

(** ** Removal *)

Lemma keeps_with_put_reg L r f e : keeps_with L L e (put_reg r f e).
Proof. by apply keeps_with_ext. Qed.
Lemma keeps_cancel_backlog L r e : keeps_with L (L ++ (cancel_backlog r e).1) e (cancel_backlog r e).2.
Proof.
  unfold cancel_backlog, fifo_detach_reg.
  pose proof (keeps_detach (is_reg r) Q_INTAKE L e ltac:(done) eq_refl) as H1.
  destruct (fifo_detach (is_reg r) Q_INTAKE e) as [l1 e1].
  pose proof (keeps_detach (is_reg r) Q_DELAYED (L ++ l1) e1 ltac:(done) eq_refl) as H2.
  destruct (fifo_detach (is_reg r) Q_DELAYED e1) as [l2 e2]. cbn [fst snd] in *. rewrite (assoc_L (++)).
  by eapply keeps_with_trans.
Qed.
Lemma keeps_manual r mode e l e' : unregister_manual r mode e = Some (l, e') → keeps_with [] l e e'.
Proof.
  unfold unregister_manual. case_decide.
  - destruct (0 <? _)%nat; [done|]. set (e0 := put_reg r _ e).
    pose proof (keeps_cancel_backlog [] r e0) as H1. destruct (cancel_backlog r e0) as [l1 e1].
    pose proof (keeps_detach_admitted Q_READY r l1 e1 eq_refl) as H2.
    destruct (fifo_detach_reg_admitted Q_READY r e1) as [l2 e2].
    pose proof (keeps_detach_admitted Q_DONE r (l1 ++ l2) e2 eq_refl) as H3.
    destruct (fifo_detach_reg_admitted Q_DONE r e2) as [l3 e3]. cbn [fst snd app] in *. intros [= <- <-].
    rewrite <-(assoc_L (++)) in H3. eapply keeps_with_trans; [apply keeps_with_put_reg|].
    eapply keeps_with_trans; [exact H1|]. eapply keeps_with_trans; [exact H2|].
    eapply keeps_with_trans; [exact H3|]. apply keeps_with_index_drop.
  - destruct (0 <? _)%nat; [done|]. intros [= <- <-]. apply keeps_with_put_reg.
Qed.
Lemma keeps_threaded r mode re e l e' : unregister_threaded r mode re e = Some (l, e') → keeps_with [] l e e'.
Proof.
  unfold unregister_threaded. destruct (_ && _); [done|]. destruct (_ && _); [done|]. case_decide.
  - set (e0 := put_reg r _ (put_reg r _ e)).
    pose proof (keeps_cancel_backlog [] r e0) as H1. destruct (cancel_backlog r e0) as [l1 e1].
    cbn [fst snd app] in *. intros [= <- <-].
    eapply keeps_with_trans; [|eapply keeps_with_trans; [exact H1|]].
    { eapply keeps_with_trans; apply keeps_with_put_reg. }
    eapply keeps_with_trans; [apply keeps_with_index_drop|]. apply keeps_with_fold. intros e2 p.
    destruct (is_reg r e2 p); [by apply keeps_with_light|apply keeps_with_refl].
  - intros [= <- <-]. apply keeps_with_put_reg.
Qed.
Lemma keeps_remove_begin tid re name mode e st r l e' :
  unregister_begin tid re name mode e = (st, Some (r, l), e') → keeps e e'.
Proof.
  unfold unregister_begin. destruct (_ <? _)%nat; [done|]. destruct (e_stopping e); [done|].
  destruct (registry_find tid e name) as [[r0 g]|]; [|done]. destruct (r_settling g); [done|]. cbv zeta.
  set (mode' := if r_service g && _ then CANCEL else mode). destruct (e_manual e).
  - destruct (unregister_manual r0 mode' e) as [[l1 e1]|] eqn:Hu; [|done]. intros [= _ _ <- <-].
    apply keeps_manual in Hu. intros Ht. destruct Hu as [[A _ _] B]; [|done].
    split; [done|constructor|by intros x ?%not_elem_of_nil].
  - destruct (unregister_threaded r0 mode' re e) as [[l1 e1]|] eqn:Hu; [|done]. intros [= _ _ <- <-].
    apply keeps_threaded in Hu. intros Ht. destruct Hu as [[A _ _] B]; [|done].
    split; [done|constructor|by intros x ?%not_elem_of_nil].
Qed.
(** The items a removal holds are in hands. *)
Lemma local_hands H e l : wf H e → tidy e → NoDup l → (∀ p, p ∈ l → p ∈ H) → tidy_with l e.
Proof.
  intros Hwf Ht Hnd Hl. split; [done|done|]. intros p (i & Hi & Hw)%Hl%(wf_hand _ _ Hwf).
  exists i. split_and!; [done|done|]. apply (t_free _ Ht p i Hi). by rewrite Hw.
Qed.
Lemma keeps_remove_end H r l e : wf H e → NoDup l → (∀ p, p ∈ l → p ∈ H) → keeps e (unregister_end r l e).1.
Proof.
  intros Hwf Hnd Hl Ht. pose proof (local_hands H e l Hwf Ht Hnd Hl) as Hw. unfold unregister_end.
  pose proof (keeps_with_detach_dead l r e) as H1. destruct (detach_dead_letter r e) as [named e1]. cbn [snd] in *.
  set (e2 := registry_unlink r e1). assert (keeps_with l l e e2) as H2.
  { eapply keeps_with_trans; [exact H1|by apply keeps_with_ext]. }
  pose proof (keeps_drain_cancelled l [] e2) as H3. destruct (drain_cancelled l e2) as [evs e3]. rewrite app_nil_r in H3.
  cbn [fst snd] in *. destruct (keeps_with_trans _ _ _ _ _ _ H2 H3 Hw) as [[A _ _] B].
  destruct named; [|done]. split; [by apply (tidy_ext e3)|exact B].
Qed.

(** ** Shutdown *)

Lemma keeps_with_flag L q e : keeps_with L L e (flag_services q e).
Proof.
  apply keeps_with_fold. intros e0 p. destruct (reg_flag r_service e0 p); [|apply keeps_with_refl].
  unfold cancel_item, cancel_raise. eapply keeps_with_trans; by apply keeps_with_light.
Qed.
Lemma keeps_stop_services e : keeps_with [] (stop_services e).1 e (stop_services e).2.
Proof.
  unfold stop_services, fifo_detach_services. set (e0 := flag_services Q_DONE _).
  assert (keeps_with [] [] e e0) as H0.
  { unfold e0. do 2 (eapply keeps_with_trans; [|apply keeps_with_flag]). apply keeps_with_flag. }
  pose proof (keeps_detach (reg_flag r_service) Q_INTAKE [] e0 ltac:(done) eq_refl) as H1.
  destruct (fifo_detach (reg_flag r_service) Q_INTAKE e0) as [l1 e1].
  pose proof (keeps_detach (reg_flag r_service) Q_DELAYED l1 e1 ltac:(done) eq_refl) as H2.
  destruct (fifo_detach (reg_flag r_service) Q_DELAYED e1) as [l2 e2]. cbn [fst snd app] in *.
  eapply keeps_with_trans; [exact H0|]. eapply keeps_with_trans; [exact H1|].
  eapply keeps_with_trans; [exact H2|]. apply keeps_with_index_drop.
Qed.
Lemma keeps_shutdown_begin now e : keeps e (shutdown_begin now e).1.
Proof.
  unfold shutdown_begin. set (e0 := e <| e_stopping := true |> <| e_stop_deadline_ms := _ |>).
  apply (keeps_trans _ e0); [by apply keeps_ext|]. apply (keeps_with_none []).
  pose proof (keeps_stop_services e0) as H1. destruct (stop_services e0) as [l e1].
  pose proof (keeps_drain_cancelled l [] e1) as H2. rewrite app_nil_r in H2.
  destruct (drain_cancelled l e1) as [evs e2]. cbn [fst snd] in *. by eapply keeps_with_trans.
Qed.

(** ** Resources and the registry *)

Lemma keeps_resources e e' :
  e_items e' = e_items e → e_qs e' = e_qs e → e_reserved_mem e' = e_reserved_mem e → e_running e' = e_running e →
  (length (e_resources e) ≤ length (e_resources e'))%nat →
  (∀ k r', e_resources e' !! k = Some r' →
     (∃ r, e_resources e !! k = Some r ∧ rs_reserved r' = rs_reserved r) ∨
     ((length (e_resources e) ≤ k)%nat ∧ rs_reserved r' = 0)) →
  keeps e e'.
Proof.
  intros H1 H2 H3 H4 Hlen Hres [A B C [D1 D2 D3 D4]]. unfold queue in *.
  assert (charges e' = charges e) as Hc by (unfold charges; by rewrite H1).
  split; [|by rewrite Hc]. split; unfold queue; rewrite ?H1, ?H2; try done. split; rewrite ?Hc, ?H3, ?H4; try done.
  - intros k r' Hr. destruct (Hres k r' Hr) as [(r & Hk & ->)|[Hk ->]]; [by apply D3|].
    rewrite total_zero; [done|]. intros p c Hp. unfold amount.
    rewrite lookup_ge_None_2; [done|]. pose proof (D4 p c Hp). lia.
  - intros p c Hp. pose proof (D4 p c Hp). lia.
Qed.
Lemma keeps_define ns name b e : keeps e (gptps_define_resource ns name b e).2.
Proof.
  unfold gptps_define_resource. case_decide; [apply keeps_refl|]. destruct (e_stopping e); [apply keeps_refl|].
  destruct (negb _); [apply keeps_refl|]. unfold res_rebudget.
  destruct (res_index _ _) as [i|]; cbn [snd].
  - apply keeps_resources; try done; [simpl; by rewrite length_alter|]. intros k r'. simpl. intros Hk. left.
    destruct (decide (i = k)) as [<-|].
    + rewrite list_lookup_alter_eq in Hk. apply fmap_Some in Hk as (r & Hr & ->). by exists r.
    + rewrite list_lookup_alter_ne in Hk by done. by exists r'.
  - unfold ask_alloc. destruct (e_alloc _ _); cbn [snd]; [|by apply keeps_ext].
    apply keeps_resources; try done; [simpl; rewrite length_app; lia|]. intros k r'. simpl.
    rewrite lookup_app_Some. intros [Hk|[Hk Hr]]; [left; by exists r'|right]. split; [done|].
    by apply list_lookup_singleton_Some in Hr as [_ <-].
Qed.

(** Sections that touch neither items, queues nor counters. *)
Lemma keeps_enable tid name b e : keeps e (gptps_set_task_enabled tid name b e).2.
Proof. unfold gptps_set_task_enabled. destruct (registry_find _ _ _) as [[r g]|]; by apply keeps_ext. Qed.
Lemma keeps_priority tid name k e : keeps e (gptps_set_task_priority tid name k e).2.
Proof. unfold gptps_set_task_priority. destruct (registry_find _ _ _) as [[r g]|]; by apply keeps_ext. Qed.
Lemma keeps_cost tid task name k e : keeps e (gptps_set_task_resource_cost tid task name k e).2.
Proof.
  unfold gptps_set_task_resource_cost. destruct (registry_find _ _ _) as [[r g]|]; [|apply keeps_refl].
  destruct (res_index _ _); by apply keeps_ext.
Qed.
Lemma keeps_tune t e : keeps e (tune t e).
Proof. destruct t; by apply keeps_ext. Qed.
Lemma keeps_register ns cfg tid d e : keeps e (register_link ns cfg tid d e).2.
Proof.
  unfold register_link. destruct (def_check _ d) as [k|]; [|apply keeps_refl].
  destruct (argv_dup_tick k d e) as [t1 Ht1]. destruct (argv_dup k d e) as [ok1 e1]. cbn [snd] in Ht1. subst e1.
  destruct (negb ok1); [by apply keeps_ext|]. destruct (negb _); [by apply keeps_ext|].
  destruct (registry_holder _ _); [by apply keeps_ext|].
  destruct (reg_alloc_tick (e <| e_tick := t1 |>)) as [t2 Ht2].
  destruct (reg_alloc (e <| e_tick := t1 |>)) as [ok2 e0]. cbn [snd] in Ht2. subst e0.
  destruct (negb ok2); by apply keeps_ext.
Qed.

(** ** Every reachable world *)

(** After the last section of the shutdown nothing is left to account for. *)
Definition torn_down (e : engine) : Prop := e_items e = ∅ ∧ e_stopping e = true.
Definition books (w : world) : Prop := tidy (w_e w) ∨ torn_down (w_e w).

Lemma initial_books w : initial w → books w.
Proof.
  intros ((Hi & Hq & _ & _ & Hm & Hr & Hs) & _). left.
  assert (charges (w_e w) = ∅) as Hc by (unfold charges; by rewrite Hi).
  split.
  - intros q. rewrite Hq. constructor.
  - intros q p _. rewrite Hq. by intros ?%not_elem_of_nil.
  - intros p i. by rewrite Hi, lookup_empty.
  - split; rewrite ?Hc, ?Hm, ?Hr; try done.
    + by rewrite Hs.
Qed.

(** An engine that is torn down has nothing in its queues... *)
Lemma torn_queues w q : inv w → torn_down (w_e w) → q ≠ Q_NONE → queue (w_e w) q = [].
Proof.
  intros Hw [Hi _] Hq. destruct (queue (w_e w) q) as [|p l] eqn:Hl; [done|].
  assert (p ∈ queue (w_e w) q) as Hp by (rewrite Hl; by left).
  apply (wf_where _ _ (i_wf _ Hw)) in Hp as (i & Hp & _); [|done]. by rewrite Hi, lookup_empty in Hp.
Qed.
(** ... and a pass finds nothing to do. *)
Lemma pass_idle now e : (∀ q, q ≠ Q_NONE → queue e q = []) → e_items (engine_pass now e).1 = e_items e.
Proof.
  intros Hq. unfold engine_pass. set (s := Pass [] 0 false).
  assert (step1 now e s = (e, s, [])) as ->.
  { unfold step1. rewrite (Hq Q_DONE) by done. cbn [length drain_done]. by rewrite (Hq Q_DONE). }
  assert (step2 now e s = (e, s)) as -> by (unfold step2; by rewrite (Hq Q_DELAYED)).
  change (step2b now [] e s) with (e, s, no_held). cbn beta iota.
  assert (step3 now e s = (e, s)) as -> by (unfold step3; by rewrite (Hq Q_RUNNING)).
  assert (∃ s' pg, step3b now e s = (e, s', pg)) as (s' & pg & ->).
  { unfold step3b. rewrite (Hq Q_DELAYED), (Hq Q_INTAKE) by done. cbn [length Nat.add grace_drain].
    destruct (_ && _); [|by do 2 eexists]. destruct (_ <=? now); [|by do 2 eexists].
    rewrite (Hq Q_RUNNING) by done. by do 2 eexists. }
  assert (step4 now pg no_held e s' = (e, s')) as ->; [|done].
  unfold step4, rescore. destruct pg; [done|]. rewrite (Hq Q_INTAKE) by done.
  by destruct (e_sched e); rewrite (Hq Q_INTAKE).
Qed.

Lemma stopping_static e e' : static e' = static e → e_stopping e' = e_stopping e.
Proof. intros H. by injection H. Qed.
Lemma torn_ext e e' : e_items e' = e_items e → e_stopping e' = e_stopping e → torn_down e → torn_down e'.
Proof. intros H1 H2 [A B]. split; congruence. Qed.

Lemma torn_submit tid now name payload o e :
  torn_down e → torn_down (submit_internal tid now name payload o e).1.2.
Proof.
  intros [Hi Hs]. unfold submit_internal. destruct (submit_alloc payload e) as [a e0] eqn:Ha.
  assert (e_items e0 = e_items e ∧ e_stopping e0 = true) as [A B].
  { unfold submit_alloc, ask_alloc in Ha. destruct payload; [|destruct (e_alloc _ _)]; by injection Ha as _ <-. }
  destruct (negb a); [split; simpl; congruence|]. rewrite B. split; simpl; congruence.
Qed.
Lemma torn_register ns cfg tid d e : torn_down e → torn_down (register_link ns cfg tid d e).2.
Proof.
  unfold register_link. destruct (def_check _ d) as [k|]; [|done].
  destruct (argv_dup_tick k d e) as [t1 Ht1]. destruct (argv_dup k d e) as [ok1 e1]. cbn [snd] in Ht1. subst e1.
  destruct (negb ok1); [done|]. destruct (negb _); [done|]. destruct (registry_holder _ _); [done|].
  destruct (reg_alloc_tick (e <| e_tick := t1 |>)) as [t2 Ht2].
  destruct (reg_alloc (e <| e_tick := t1 |>)) as [ok2 e0]. cbn [snd] in Ht2. subst e0. by destruct (negb ok2).
Qed.
Lemma torn_define ns name b e : torn_down e → torn_down (gptps_define_resource ns name b e).2.
Proof. intros [Hi Hs]. unfold gptps_define_resource. case_decide; [done|]. rewrite Hs. done. Qed.
Lemma drain_cancelled_empty l e : e_items e = ∅ → e_items (drain_cancelled l e).2 = ∅.
Proof.
  revert e. induction l as [|p l IH]; intros e Hi; [done|]. simpl. specialize (IH (item_free p e)).
  destruct (drain_cancelled l (item_free p e)). apply IH. unfold item_free. simpl. by rewrite Hi, delete_empty.
Qed.
Lemma torn_remove_end r l e : torn_down e → queue e Q_DEAD = [] → torn_down (unregister_end r l e).1.
Proof.
  intros [Hi Hs] Hq. unfold unregister_end, detach_dead_letter. rewrite Hq. cbn [foldl].
  pose proof (drain_cancelled_empty l (registry_unlink r e) Hi) as H1.
  pose proof (stopping_static _ _ (static_drain_cancelled l (registry_unlink r e))) as H2.
  destruct (drain_cancelled l _) as [evs e2]. change (e_stopping e2 = e_stopping e) in H2.
  split; [exact H1|]. change (e_stopping e2 = true). congruence.
Qed.
Lemma flag_none q e : queue e q = [] → flag_services q e = e.
Proof. intros H. unfold flag_services. by rewrite H. Qed.
Lemma detach_none f q e : queue e q = [] → fifo_detach f q e = ([], e).
Proof. intros H. unfold fifo_detach. by rewrite H. Qed.
Lemma torn_shutdown_begin now e :
  (∀ q, q ≠ Q_NONE → queue e q = []) → torn_down e → torn_down (shutdown_begin now e).1.
Proof.
  intros Hq [Hi Hs]. unfold shutdown_begin, stop_services, fifo_detach_services. cbv zeta.
  set (e0 := e <| e_stopping := true |> <| e_stop_deadline_ms := _ |>).
  assert (∀ q, q ≠ Q_NONE → queue e0 q = []) as Hq0 by exact Hq.
  rewrite (flag_none Q_RUNNING e0), (flag_none Q_READY e0), (flag_none Q_DONE e0) by auto.
  rewrite (detach_none _ Q_INTAKE e0) by auto. rewrite (detach_none _ Q_DELAYED e0) by auto. by split.
Qed.
Lemma shutdown_end_stopping e : e_stopping (shutdown_end e).1 = e_stopping e.
Proof.
  assert (∀ (f : engine → ptr → engine) l e, (∀ e p, e_stopping (f e p) = e_stopping e) → e_stopping (foldl f e l) = e_stopping e) as Hf.
  { intros f l. induction l as [|p l IH]; intros e0 H; [done|]. cbn [foldl]. by rewrite IH, H. }
  unfold shutdown_end, pop_all. cbv zeta.
  match goal with |- context [drain_cancelled ?l ?x] =>
    pose proof (stopping_static _ _ (static_drain_cancelled l x)) as H2; destruct (drain_cancelled l x) as [evs e2] end.
  cbn [fst snd] in *. rewrite !Hf by done. rewrite H2.
  rewrite (stopping_static _ _ (static_index_drop _ _)). by rewrite !Hf.
Qed.

(** Each step keeps the books, and only a pass takes. *)
Lemma step_books w w' :
  inv w → step w w' →
  (tidy (w_e w) → (tidy (w_e w') ∨ torn_down (w_e w')) ∧
     (charges (w_e w') ⊆ charges (w_e w) ∨ ∃ now, w_e w' = (engine_pass now (w_e w)).1)) ∧
  (torn_down (w_e w) → torn_down (w_e w')).
Proof.
  intros Hw Hs.
  assert (∀ e', w_e w' = e' → keeps (w_e w) e' → (torn_down (w_e w) → torn_down e') →
    (tidy (w_e w) → (tidy (w_e w') ∨ torn_down (w_e w')) ∧
     (charges (w_e w') ⊆ charges (w_e w) ∨ ∃ now, w_e w' = (engine_pass now (w_e w)).1)) ∧
    (torn_down (w_e w) → torn_down (w_e w'))) as Hgo.
  { intros e' -> Hk Ht. split; [|exact Ht]. intros Hd. destruct (Hk Hd). by split; left. }
  pose proof (torn_queues w) as Hq. pose proof (i_wf _ Hw) as Hwf.
  destruct Hs; cbn [w_e] in *; try (by apply (Hgo e); [done|apply keeps_refl|]).
  - apply (Hgo e'); [done| |]; [pose proof (keeps_submit tid now name payload o e) as H1|pose proof (torn_submit tid now name payload o e) as H1];
      by rewrite H0 in H1.
  - apply (Hgo e'); [done| |].
    + pose proof (keeps_cancel _ h e Hwf) as H1. by rewrite H in H1.
    + intros [Hi Hst]. revert H. unfold gptps_cancel. rewrite Hst. by destruct (h =? 0); intros [= _ <- _].
  - apply (Hgo e'); [done| |].
    + pose proof (keeps_take now e) as H1. by rewrite H in H1.
    + intros Ht. revert H. unfold worker_take, fifo_pop. rewrite (Hq Q_READY) by done. by intros [= _ <- _].
  - pose proof (i_ended _ Hw p st H) as Hp. apply (Hgo (worker_post p st e)); [done|by apply keeps_post|].
    intros Ht. cbn [w_e] in Hp. by rewrite (Hq Q_RUNNING), elem_of_nil in Hp.
  - split.
    + intros Ht. pose proof (pass_tidy now e Ht) as H1. rewrite H in H1. split; [by left|right]. exists now. by rewrite H.
    + intros Ht. pose proof (pass_idle now e) as H1. pose proof (stopping_static _ _ (static_pass now e)) as H2.
      rewrite H in H1, H2. apply (torn_ext e); [apply H1; by intros; apply Hq|done|done].
  - apply (Hgo e'); [done|by eapply keeps_remove_begin|]. intros [_ Hst]. revert H. unfold unregister_begin.
    rewrite Hst. by destruct (_ <? _)%nat.
  - apply (Hgo e'); [done| |].
    + pose proof (keeps_remove_end _ r l e Hwf) as H1. rewrite H0 in H1. cbn [fst] in H1. cbn [w_removing] in Hwf. apply H1.
      * pose proof (i_nodup _ Hw) as Hnd. cbn [w_removing] in Hnd. rewrite fmap_app, concat_app in Hnd. cbn [fmap list_fmap concat snd] in Hnd.
        apply NoDup_app in Hnd as (_ & _ & Hnd). by apply NoDup_app in Hnd as [? _].
      * intros p Hp. cbn [w_removing]. apply elem_hands. exists r, l. split; [|done]. apply elem_of_app. right. by left.
    + intros Ht. pose proof (torn_remove_end r l e Ht (Hq Q_DEAD Hw Ht ltac:(done))) as H1. by rewrite H0 in H1.
  - apply (Hgo _ eq_refl); [apply keeps_enable|]. unfold gptps_set_task_enabled. by destruct (registry_find _ _ _) as [[? ?]|].
  - apply (Hgo _ eq_refl); [apply keeps_priority|]. unfold gptps_set_task_priority. by destruct (registry_find _ _ _) as [[? ?]|].
  - apply (Hgo _ eq_refl); [apply keeps_register|apply torn_register].
  - apply (Hgo _ eq_refl); [by apply keeps_ext|done].
  - apply (Hgo _ eq_refl); [apply keeps_define|apply torn_define].
  - apply (Hgo _ eq_refl); [apply keeps_cost|]. unfold gptps_set_task_resource_cost.
    destruct (registry_find _ _ _) as [[? ?]|]; [|done]. by destruct (res_index _ _).
  - apply (Hgo _ eq_refl); [apply keeps_tune|]. by destruct t.
  - apply (Hgo _ eq_refl); [apply keeps_letters|]. intros Ht. unfold gptps_dead_letter_drain.
    by rewrite (Hq Q_DEAD).
  - apply (Hgo e'); [done| |].
    + pose proof (keeps_shutdown_begin now e) as H1. by rewrite H in H1.
    + intros Ht. pose proof (torn_shutdown_begin now e) as H1. rewrite H in H1. apply H1; [|done]. intros q ?. by apply Hq.
  - destruct (joined_inv _ _ _ _ _ _ _ Hw H0 H1) as [_ Hi].
    pose proof (shutdown_end_stopping e) as H2. rewrite H1 in H2. cbn [fst] in H2.
    assert (torn_down e') as Ht by (split; congruence). split; [|done]. intros _. split; [by right|left].
    assert (charges e' = ∅) as -> by (unfold charges; by rewrite Hi). apply map_empty_subseteq.
Qed.

Lemma reachable_books w : reachable w → books w.
Proof.
  intros (w0 & Hi & Hr). assert (reachable w0) as H0 by (by exists w0).
  pose proof (initial_books w0 Hi) as Hb. clear Hi. induction Hr as [|w0 w1 w2 Hs Hr IH]; [done|].
  pose proof (reachable_inv w0 H0) as Hv. destruct (step_books w0 w1 Hv Hs) as [H1 H2]. apply IH.
  - destruct H0 as (wi & Hi & Hri). exists wi. split; [done|]. by eapply rtc_r.
  - destruct Hb as [Hb|Hb]; [by destruct (H1 Hb)|right; by apply H2].
Qed.

End LedgerWorld.

(** * What the counters mean, and that no budget is overspent *)

Import Engine EnginePass EngineApi Registry EngineFacts EngineAcct EnginePassFacts EngineApiFacts EngineMgmtFacts EngineStatic
Lifecycle Outcomes Ledger LedgerFacts LedgerAdmit.
Import LedgerBudget LedgerWorld.

Module Budgets.

(** C4: Until the shutdown has emptied the engine, its counters are exact in every
    reachable world: [reserved_mem] is the memory the items in [ready], running or in
    [done] hold, [running] is how many they are, and each resource's [reserved] is what
    their snapshots hold of it - at the width of the counter. *)
Theorem ledger_exact w :
  reachable w →
  torn_down (w_e w) ∨
  (e_reserved_mem (w_e w) = u64 (total fst (charges (w_e w))) ∧
   e_running (w_e w) = u32 (Z.of_nat (size (charges (w_e w)))) ∧
   ∀ k r, e_resources (w_e w) !! k = Some r → rs_reserved r = u64 (total (amount k) (charges (w_e w)))).
Proof.
  intros Hr. destruct (reachable_books w Hr) as [[_ _ _ [A B C _]]|Ht]; [|by left]. by right.
Qed.
Lemma ledger_exact_witness :
  torn_down (w_e demo_world1) ∨ (e_reserved_mem (w_e demo_world1) = 0 ∧ e_running (w_e demo_world1) = 0).
Proof.
  destruct (ledger_exact demo_world1 demo_reachable) as [H|(H1 & H2 & _)]; [by left|right].
  split; by vm_compute.
Defined.

(** What the C types say: memory, resource costs and snapshots are unsigned. *)
Definition unsigned (e : engine) : Prop :=
  (∀ p m, mems e !! p = Some m → 0 ≤ m) ∧
  (∀ r g rc k c, e_regs e !! r = Some g → r_res_cost g = Some rc → rc !! k = Some c → 0 ≤ c) ∧
  (∀ p c k, charges e !! p = Some c → 0 ≤ amount k c).

(** What is in use, or the limit if that is more. *)
Definition peak (used limit : Z) : Z := Z.max used limit.

(** C3: No section of any thread takes what is in use past a budget: after any step,
    the memory of the admitted items is at most what it was or [max_memory_bytes],
    their number at most what it was or [max_concurrent_tasks], and each named resource
    at most what it was or its budget - so long as the sums fit their counters. A limit
    lowered under what is in use only stops new admissions. *)
Theorem budgets_hold w w' :
  reachable w → step w w' → unsigned (w_e w) →
  let e := w_e w in let e' := w_e w' in
  (peak (total fst (charges e)) (e_max_memory_bytes e) + e_max_memory_bytes e < 2 ^ 64) →
  (peak (Z.of_nat (size (charges e))) (e_max_concurrent_tasks e) < 2 ^ 32) →
  (∀ k b, budgets e !! k = Some b → peak (total (amount k) (charges e)) b + b < 2 ^ 64) →
  total fst (charges e') ≤ peak (total fst (charges e)) (e_max_memory_bytes e) ∧
  Z.of_nat (size (charges e')) ≤ peak (Z.of_nat (size (charges e))) (e_max_concurrent_tasks e) ∧
  (∀ k b, budgets e !! k = Some b → total (amount k) (charges e') ≤ peak (total (amount k) (charges e)) b).
Proof.
  intros Hr Hs (U1 & U2 & U3) e e' H1 H2 H3. destruct (step_books w w' (reachable_inv w Hr) Hs) as [Hb Htt].
  assert (∀ p c k, charges e !! p = Some c → 0 ≤ c.1 ∧ 0 ≤ amount k c) as U.
  { intros p c k Hp. split; [|by eapply U3]. rewrite charges_lookup in Hp.
    destruct (e_items e !! p) as [i|] eqn:Hi; [|done]. simpl in Hp. unfold charge in Hp.
    destruct (committed (it_where i)); [|done]. injection Hp as <-. apply (U1 p). unfold mems, e in *. by rewrite lookup_fmap, Hi. }
  assert (charges e' ⊆ charges e ∨ ∃ now, tidy e ∧ e' = (engine_pass now e).1) as Hc.
  { destruct (reachable_books w Hr) as [Ht|Ht].
    - destruct (Hb Ht) as [_ [?|[now ?]]]; [by left|]. right. by exists now.
    - left. assert (charges e' = ∅) as ->; [|apply map_empty_subseteq].
      destruct (Htt Ht) as [Hi _]. unfold charges, e'. by rewrite Hi. }
  destruct Hc as [Hc|(now & Ht & ->)].
  - unfold peak. split_and!.
    + etrans; [apply (total_mono fst _ _ Hc); intros p c Hp; by apply (U p c 0%nat)|lia].
    + rewrite <-!total_one. etrans; [apply (total_mono _ _ _ Hc); by intros|lia].
    + intros k b _. etrans; [apply (total_mono (amount k) _ _ Hc); intros p c Hp; by apply (U p c k)|lia].
  - set (BR := λ k, default 0 (b ← budgets e !! k; Some (peak (total (amount k) (charges e)) b))).
    assert (∀ k b, budgets e !! k = Some b → BR k = peak (total (amount k) (charges e)) b) as HBR.
    { intros k b Hb'. unfold BR. by rewrite Hb'. }
    destruct (within_pass (e_max_memory_bytes e) (e_max_concurrent_tasks e) (budgets e)
      (peak (total fst (charges e)) (e_max_memory_bytes e)) (peak (Z.of_nat (size (charges e))) (e_max_concurrent_tasks e))
      BR) with (now := now) (e := e) as [_ _ _ _ _ W1 W2 W3]; try (unfold peak; lia); try done.
    + intros k b Hk. rewrite (HBR k b Hk). unfold peak. lia.
    + intros k b Hk. rewrite (HBR k b Hk). by apply H3.
    + split; try done; try (unfold peak; lia). intros k b Hk. rewrite (HBR k b Hk). unfold peak. lia.
    + split_and!; [done|done|]. intros k b Hk. rewrite <-(HBR k b Hk). by eapply W3.
Qed.

Lemma unsigned_dec e :
  bool_decide (map_Forall (λ _ m, 0 ≤ m) (mems e)) = true → (∀ r g, e_regs e !! r = Some g → r_res_cost g = None) →
  charges e = ∅ → unsigned e.
Proof.
  intros H1%bool_decide_eq_true H2 H3. split_and!; [exact H1| |].
  - intros r g rc k c Hg. by rewrite (H2 r g Hg).
  - intros p c k. rewrite H3. by rewrite lookup_empty.
Qed.
Definition demo_passed : engine := (engine_pass 9 demo_submitted).1.
Lemma pass_step e owed log ended rem subs now :
  step (World e owed log ended rem subs)
    (World (engine_pass now e).1 (owed ++ pend (engine_pass now e).2) log ended rem subs).
Proof. eapply st_pass. apply surjective_pairing. Qed.
Lemma budgets_hold_witness :
  total fst (charges demo_passed) = 10 ∧ 
  total fst (charges demo_passed) ≤ peak (total fst (charges demo_submitted)) (e_max_memory_bytes demo_submitted).
Proof.
  split; [by vm_compute|].
  refine (proj1 (budgets_hold demo_world1 _ demo_reachable (pass_step demo_submitted _ _ _ _ _ 9) _ _ _ _)).
  - apply unsigned_dec; [by vm_compute| |by vm_compute].
    intros r g Hg. change (({[1%positive := demo_reg]} : gmap rid reg) !! r = Some g) in Hg.
    apply lookup_singleton_Some in Hg as [_ <-]. done.
  - by vm_compute.
  - by vm_compute.
  - intros k b. change (budgets (w_e demo_world1)) with (@nil Z). by rewrite lookup_nil.
Defined.

(** ** Where a sum does not fit *)

(** A type whose items ask for half of the 64-bit range, and an engine with all of it. *)
Definition half_reg : reg := demo_reg <| r_default_cost := 2 ^ 63 |>.
Definition wide_engine : engine :=
  demo_engine <| e_max_memory_bytes := UINT64_MAX |> <| e_regs := {[1%positive := half_reg]} |>.
Definition wide_submitted : engine := (submit_internal 7 5 "job" [] no_options wide_engine).1.2.
Definition wide_full : engine := (submit_internal 7 5 "job" [] no_options wide_submitted).1.2.

Lemma submit_step e owed log ended rem subs tid now name payload o h g r :
  e_next_handle e < MAX_HANDLES →
  (submit_internal tid now name payload o e).1.1 = inr h → registry_find tid e name = Some (r, g) →
  step (World e owed log ended rem subs)
    (World (submit_internal tid now name payload o e).1.2 (owed ++ (submit_internal tid now name payload o e).2)
       log ended rem (<[h := always_up g]> subs)).
Proof.
  intros Hm Hh Hf. destruct (submit_internal tid now name payload o e) as [[r' e'] evs] eqn:He. cbn [fst snd] in *. subst r'.
  pose proof (st_submit e owed log ended rem subs tid now name payload o (inr h) e' evs Hm He) as Hs. by rewrite Hf in Hs.
Qed.

(** The admission test adds in 64 bits and wraps: there is a reachable world whose
    next pass admits two items of 2^63 bytes each under a budget of 2^64 - 1 bytes, the
    largest the configuration takes - more than the budget, with [reserved_mem] at 0. *)
Theorem admission_sum_wraps :
  ∃ w w', reachable w ∧ step w w' ∧
    total fst (charges (w_e w)) ≤ e_max_memory_bytes (w_e w) ∧
    e_max_memory_bytes (w_e w') < total fst (charges (w_e w')) ∧ e_reserved_mem (w_e w') = 0.
Proof.
  assert (reachable (World wide_engine [] [] ∅ [] ∅)) as H0.
  { exists (World wide_engine [] [] ∅ [] ∅). split; [by repeat split|apply rtc_refl]. }
  assert (∀ w w', reachable w → step w w' → reachable w') as Hgo.
  { intros w w' (wi & Hi & Hr) Hs. exists wi. split; [done|]. by eapply rtc_r. }
  pose proof (Hgo _ _ H0 (submit_step wide_engine [] [] ∅ [] ∅ 7 5 "job" [] no_options 1 half_reg 1%positive
    ltac:(by vm_compute) ltac:(by vm_compute) ltac:(by vm_compute))) as H1.
  pose proof (Hgo _ _ H1 (submit_step wide_submitted _ [] ∅ [] _ 7 5 "job" [] no_options 2 half_reg 1%positive
    ltac:(by vm_compute) ltac:(by vm_compute) ltac:(by vm_compute))) as H2.
  eexists _, _. split; [exact H2|]. split; [exact (pass_step wide_full _ _ _ _ _ 9)|].
  split_and!; by vm_compute.
Qed.

End Budgets.
