(* ===== verification/Toml.v ===== *)
(** * The configuration parser of [src/config_toml.c]

    The TOML subset, function by function: quoted strings and their escapes, comments,
    dotted paths, values, lines and whole files.  A C string is the list of its
    characters; the end of the list is the terminating NUL, so [p] as a list is the
    text the code's pointer [p] has in front of it.  Every function is what the code
    does when its allocations succeed: running out of memory abandons the parse. *)

From S2P Require Import Prelude.
From Stdlib Require Import Ascii SpecFloat.

Module Toml.

Abbreviation text := (list ascii) (only parsing).

(** ** Characters *)

Definition code (c : ascii) : Z := Z.of_N (N_of_ascii c).
Definition chr (z : Z) : ascii := ascii_of_N (Z.to_N z).
Definition dq : ascii := ascii_of_nat 34.
Definition bs : ascii := ascii_of_nat 92.
Definition nl : ascii := ascii_of_nat 10.
Definition tab : ascii := ascii_of_nat 9.
Definition cr : ascii := ascii_of_nat 13.
Notation "c =c d" := (Ascii.eqb c d) (at level 70) : gptps_scope.
(** [lo <= c && c <= hi] *)
Definition within (lo hi c : ascii) : bool := (code lo <=? code c) && (code c <=? code hi).

Definition is_digit (c : ascii) : bool := within "0" "9" c.
Definition is_ws (c : ascii) : bool := (c =c " ") || (c =c tab) || (c =c cr).
Definition is_bare (c : ascii) : bool :=
  within "a" "z" c || within "A" "Z" c || is_digit c || (c =c "_") || (c =c "-") || (c =c ".").
Definition hexval (c : ascii) : option Z :=
  if is_digit c then Some (code c - code "0")
  else if within "a" "f" c then Some (code c - code "a" + 10)
  else if within "A" "F" c then Some (code c - code "A" + 10)
  else None.

Definition str (s : string) : text := String.list_ascii_of_string s.

Fixpoint skip_ws (p : text) : text :=
  match p with c :: p' => if is_ws c then skip_ws p' else p | [] => [] end.
(** Trailing white space off. *)
Fixpoint rtrim (p : text) : text :=
  match p with
  | [] => []
  | c :: p' => match rtrim p' with [] => if is_ws c then [] else [c] | q => c :: q end
  end.
Definition trim (s : text) : text := rtrim (skip_ws s).

(** ** Errors

    One constructor per message of the parser. *)
Inductive error :=
  | Missing_value | Set_twice (first : Z) | Unclosed_string | Text_after_string
  | Unclosed_array | Array_not_strings | Unclosed_array_string | Array_expected_comma | Text_after_array
  | Too_large | Not_a_number | Not_a_value
  | Bad_hex | Not_a_character | Unknown_escape | Control_character
  | Unclosed_key | Unclosed_table_part | Empty_part | Empty_table | Missing_key | Expected_key
  | Arrays_of_tables | Text_in_table | Unclosed_table | Text_after_table | Table_too_long
  | Expected_equals | Stray_cr.
Inductive result (A : Type) := Ok (a : A) | Err (e : error).
Arguments Ok {A} a.
Arguments Err {A} e.
#[export] Instance result_bind : MBind result := λ A B f m, match m with Ok a => f a | Err e => Err e end.

(** ** Quoted strings *)

(** The loop over an escape's digits: the value of [n] hex digits, and the rest. *)
Fixpoint hex_run (n : nat) (cp : Z) (p : text) : option (Z * text) :=
  match n with
  | O => Some (cp, p)
  | S n => match p with
           | [] => None
           | c :: p => h ← hexval c; hex_run n (cp * 16 + h) p
           end
  end.
(** The character as UTF-8. *)
Definition utf8 (cp : Z) : text :=
  if cp <? 0x80 then [chr cp]
  else if cp <? 0x800 then [chr (Z.lor 0xC0 (Z.shiftr cp 6)); chr (Z.lor 0x80 (Z.land cp 0x3F))]
  else if cp <? 0x10000 then
    [chr (Z.lor 0xE0 (Z.shiftr cp 12)); chr (Z.lor 0x80 (Z.land (Z.shiftr cp 6) 0x3F)); chr (Z.lor 0x80 (Z.land cp 0x3F))]
  else [chr (Z.lor 0xF0 (Z.shiftr cp 18)); chr (Z.lor 0x80 (Z.land (Z.shiftr cp 12) 0x3F));
        chr (Z.lor 0x80 (Z.land (Z.shiftr cp 6) 0x3F)); chr (Z.lor 0x80 (Z.land cp 0x3F))].
Definition not_a_char (cp : Z) : bool :=
  (cp =? 0) || ((0xD800 <=? cp) && (cp <=? 0xDFFF)) || (0x10FFFF <? cp).
Definition is_control (c : ascii) : bool := ((code c <? 0x20) && negb (c =c tab)) || (code c =? 0x7f).

(** The one-character escapes. *)
Definition simple_escape (c : ascii) : option ascii :=
  if c =c "n" then Some nl else if c =c "t" then Some tab else if c =c "r" then Some cr
  else if c =c "b" then Some (ascii_of_nat 8) else if c =c "f" then Some (ascii_of_nat 12)
  else if c =c dq then Some dq else if c =c bs then Some bs else None.

(** The body between the quotes; each turn of the loop passes at least one character,
    so [length p] turns reach the end. *)
Fixpoint unescape_loop (fuel : nat) (p : text) : result text :=
  match fuel, p with
  | _, [] => Ok []
  | O, _ :: _ => Err Unknown_escape
  | S f, c :: p' =>
      match (c =c bs), p' with
      | true, d :: p'' =>
          match simple_escape d with
          | Some x => w ← unescape_loop f p''; Ok (x :: w)
          | None =>
              if (d =c "u") || (d =c "U") then
                match hex_run (if d =c "u" then 4 else 8) 0 p'' with
                | None => Err Bad_hex
                | Some (cp, rest) =>
                    if not_a_char cp then Err Not_a_character
                    else w ← unescape_loop f rest; Ok (utf8 cp ++ w)
                end
              else Err Unknown_escape
          end
      | _, _ => if is_control c then Err Control_character else w ← unescape_loop f p'; Ok (c :: w)
      end
  end.
Definition unescape (p : text) : result text := unescape_loop (length p) p.

(** From past the opening quote: the body, and what follows the closing quote. *)
Fixpoint close_quote (p : text) : option (text * text) :=
  match p with
  | [] => None
  | c :: p' =>
      if c =c dq then Some ([], p')
      else match (c =c bs), p' with
           | true, d :: p'' => '(b, r) ← close_quote p''; Some (c :: d :: b, r)
           | _, _ => '(b, r) ← close_quote p'; Some (c :: b, r)
           end
  end.

(** The line up to a comment sign outside its strings. *)
Fixpoint strip_comment (in_str : bool) (v : text) : text :=
  match v with
  | [] => []
  | c :: v' =>
      match in_str && (c =c bs), v' with
      | true, d :: v'' => c :: d :: strip_comment in_str v''
      | _, _ =>
          if c =c dq then c :: strip_comment (negb in_str) v'
          else if (c =c "#") && negb in_str then []
          else c :: strip_comment in_str v'
      end
  end.

(** ** Numbers *)

(** The loop over digits: the digits it passes, and the rest. *)
Fixpoint digits (p : text) : text * text :=
  match p with
  | c :: p' => if is_digit c then let '(d, r) := digits p' in (c :: d, r) else ([], p)
  | [] => ([], [])
  end.
Definition skip_sign (p : text) : text :=
  match p with c :: p' => if (c =c "+") || (c =c "-") then p' else p | [] => [] end.

(** [gptps_settings_plain_number] (src/settings.c) *)
Definition plain_number (v : text) (whole : bool) : bool :=
  let '(d1, p) := digits (skip_sign v) in
  let '(d2, p) := match p with
                  | c :: p' => if negb whole && (c =c ".") then digits p' else ([], p)
                  | [] => ([], [])
                  end in
  match d1 ++ d2 with
  | [] => false
  | _ =>
      match p with
      | [] => true
      | c :: p' =>
          if negb whole && ((c =c "e") || (c =c "E")) then
            match digits (skip_sign p') with
            | ([], _) => false
            | (_, r) => bool_decide (r = [])
            end
          else false
      end
  end.

Definition decimal (d : text) : Z := foldl (λ z c, z * 10 + (code c - code "0")) 0 d.
Definition negative (v : text) : bool := match v with c :: _ => c =c "-" | [] => false end.
(** The value of a whole number. *)
Definition whole_value (v : text) : Z :=
  let n := decimal (digits (skip_sign v)).1 in if negative v then - n else n.
(** The value of a plain number, as mantissa and power of ten. *)
Definition decimal_value (v : text) : Z * Z :=
  let '(d1, p) := digits (skip_sign v) in
  let '(d2, p) := match p with c :: p' => if c =c "." then digits p' else ([], p) | [] => ([], []) end in
  let m := decimal (d1 ++ d2) in
  let e := match p with [] => 0 | _ :: p' => whole_value p' end in
  ((if negative v then - m else m), e - Z.of_nat (length d2)).
(** ** Doubles

    IEEE 754 binary64, as the Standard Library specifies it.  [strtod] on a plain number
    rounds its value to the nearest double, past the largest one to infinity. *)
Definition double : Set := spec_float.
Definition double_of_Z (z : Z) : double := binary_normalize 53 1024 z 0 false.
(** The double nearest [m * 10 ^ e]; [neg] is the sign of a zero. *)
Definition nearest (neg : bool) (m e : Z) : double :=
  if m =? 0 then S754_zero neg
  else if 0 <=? e then double_of_Z (m * 10 ^ e)
  else let d := 10 ^ (- e) in
       if (m / d) * d =? m then double_of_Z (m / d)
       else SFdiv 53 1024 (S754_finite (m <? 0) (Z.to_pos (Z.abs m)) 0) (S754_finite false (Z.to_pos d) 0).
Definition strtod (v : text) : double := let '(m, e) := decimal_value v in nearest (negative v) m e.
(** [!(x == x) || x > DBL_MAX || x < -DBL_MAX] *)
Definition not_finite (x : double) : bool :=
  match x with S754_infinity _ | S754_nan => true | S754_zero _ | S754_finite _ _ _ => false end.

Definition LLONG_MAX : Z := 2 ^ 63 - 1.
Definition LLONG_MIN : Z := - 2 ^ 63.
Definition ULLONG_MAX : Z := 2 ^ 64 - 1.

End Toml.
