(* ===== verification/TomlParse.v ===== *)
(** * Keys, values, lines and whole files of [src/config_toml.c]

    The parser proper, on the lexical functions of Toml.v: dotted paths, the value of an
    entry, one line, a whole text, and the accessors the loader reads the result with.
    A parse is a function of the text; the entries and tables it has made so far are its
    state.  A refused line gives the constructor of its message. *)

From S2P Require Import Prelude Toml.
From Stdlib Require Import Ascii.

Module TomlParse.
Import Toml.

(** ** Entries *)

(** [toml_type] with the field that goes with it.  [TT_INT i big]. *)
Inductive toml_value :=
  | TT_INT (i : Z) (big : bool)
  | TT_DBL (d : double)
  | TT_BOOL (b : bool)
  | TT_STR
  | TT_ARR (arr : list text).

Record toml_entry := Entry {
  section : text; key : text;
  etext : option text;          (* [text]: None for an array *)
  value : toml_value;
  line : Z; claimed : bool; refused : bool }.
#[export] Instance eta_entry : Eta toml_entry := λ r,
  Entry (section r) (key r) (etext r) (value r) (line r) (claimed r) (refused r).

Record gptps_toml := Toml { e : list toml_entry; tb : list (Z * text) }.
#[export] Instance eta_toml : Eta gptps_toml := λ r, Toml (e r) (tb r).

Definition find (t : gptps_toml) (sec k : text) : option toml_entry :=
  list_find (λ x, section x = sec ∧ key x = k) (e t) ≫= λ p, Some p.2.

(** The comparison of [find_dotted]: lengths, then the bytes of each part. *)
Definition is_dotted (dotted : text) (x : toml_entry) : bool :=
  let sl := length (section x) in
  let kl := length (key x) in
  let dl := length dotted in
  if decide (sl = 0%nat) then bool_decide (kl = dl) && bool_decide (key x = take dl dotted)
  else bool_decide (sl + 1 + kl = dl)%nat && bool_decide (section x = take sl dotted)
       && bool_decide (dotted !! sl = Some "."%char) && bool_decide (key x = take kl (drop (sl + 1) dotted)).
Definition find_dotted (t : gptps_toml) (dotted : text) : option toml_entry :=
  list_find (λ x, Is_true (is_dotted dotted x)) (e t) ≫= λ p, Some p.2.
(** [gptps_toml_find_dotted]: the index, or -1. *)
Definition find_dotted_at (t : gptps_toml) (dotted : text) : Z :=
  match list_find (λ x, Is_true (is_dotted dotted x)) (e t) with Some (k, _) => Z.of_nat k | None => -1 end.

(** The key as [parse_value] spells it. *)
Definition dotted_of (sec k : text) : text := sec ++ (match sec with [] => [] | _ => ["."%char] end) ++ k.

(** ** Paths *)

(** The scan of a bare part: a key's stops at a dot and at anything not bare, a table
    name's at a dot, a bracket or a quote. *)
Fixpoint bare_run (table : bool) (p : text) : text * text :=
  match p with
  | [] => ([], [])
  | c :: p' =>
      if (c =c ".") || (if table then (c =c "]") || (c =c dq) else negb (is_bare c)) then ([], p)
      else let '(b, r) := bare_run table p' in (c :: b, r)
  end.

(** One part of a path, from past its leading spaces. *)
Definition path_part (table : bool) (parts : nat) (p : text) : result (text * text) :=
  let bare :=
    let '(seg, r) := bare_run table p in
    match rtrim seg with
    | [] =>
        let dot := match r with c :: _ => c =c "." | [] => false end in
        let eqs := match r with c :: _ => c =c "=" | [] => false end in
        Err (if bool_decide (parts ≠ 0%nat) || dot then Empty_part
             else if table then Empty_table else if eqs then Missing_key else Expected_key)
    | seg => Ok (seg, r)
    end in
  match p with
  | c :: p' =>
      if c =c dq then
        match close_quote p' with
        | None => Err (if table then Unclosed_table_part else Unclosed_key)
        | Some (body, r) => seg ← unescape body; Ok (seg, r)
        end
      else bare
  | [] => bare
  end.

(** The loop of [parse_path]: [out] is the path so far, of [parts] parts.  Each turn but
    the last passes a dot, so [length p] turns reach the end. *)
Fixpoint path_loop (table : bool) (fuel : nat) (p out : text) (parts : nat) : result (text * text) :=
  '(seg, r) ← path_part table parts (skip_ws p);
  let out := out ++ (if decide (parts = 0%nat) then [] else ["."%char]) ++ seg in
  match skip_ws r, fuel with
  | c :: r', S f => if c =c "." then path_loop table f r' out (S parts) else Ok (out, c :: r')
  | r', _ => Ok (out, r')
  end.
Definition parse_path (p : text) (table : bool) : result (text * text) :=
  path_loop table (length p) p [] 0.

(** ** Values *)

(** The array loop, from past the opening bracket or a comma; [arr] holds the strings
    so far.  The result is the array and what follows the closing bracket. *)
Fixpoint array_loop (fuel : nat) (p : text) (arr : list text) : result (list text * text) :=
  match skip_ws p, fuel with
  | [], _ => Err Unclosed_array
  | _, O => Err Unclosed_array
  | c :: p', S f =>
      if c =c "]" then Ok (arr, p')
      else if c =c dq then
        match close_quote p' with
        | None => Err Unclosed_array_string
        | Some (body, r) =>
            s ← unescape body;
            match skip_ws r with
            | c :: r' => if c =c "," then array_loop f r' (arr ++ [s])
                         else if c =c "]" then array_loop f (c :: r') (arr ++ [s])
                         else Err Array_expected_comma
            | [] => Err Array_expected_comma
            end
        end
      else Err Array_not_strings
  end.

(** [strtoll] and [strtoull] on a whole number: the value, and whether it sets ERANGE. *)
Definition strtoll (v : text) : Z * bool :=
  let z := whole_value v in
  if z <? LLONG_MIN then (LLONG_MIN, true) else if LLONG_MAX <? z then (LLONG_MAX, true) else (z, false).
Definition strtoull (v : text) : Z * bool :=
  let z := whole_value v in
  if ULLONG_MAX <? Z.abs z then (ULLONG_MAX, true) else (u64 z, false).

Definition number (val : text) : result toml_value :=
  if plain_number val true then
    let '(i, range) := strtoll val in
    if range then if negative val || (strtoull val).2 then Err Too_large else Ok (TT_INT i true)
    else Ok (TT_INT i false)
  else if plain_number val false then
    let d := strtod val in
    if not_finite d then Err Too_large else Ok (TT_DBL d)
  else Err Not_a_number.

(** The branches of [parse_dotted_value] on the first character: the value and its text. *)
Definition scan_value (val : text) : result (toml_value * option text) :=
  match val with
  | [] => Err Missing_value
  | c :: p =>
      if c =c dq then
        match close_quote p with
        | None => Err Unclosed_string
        | Some (body, r) =>
            match trim r with
            | _ :: _ => Err Text_after_string
            | [] => s ← unescape body; Ok (TT_STR, Some s)
            end
        end
      else if c =c "[" then
        '(arr, r) ← array_loop (length val) p [];
        match trim r with _ :: _ => Err Text_after_array | [] => Ok (TT_ARR arr, None) end
      else if decide (val = str "true") then Ok (TT_BOOL true, Some val)
      else if decide (val = str "false") then Ok (TT_BOOL false, Some val)
      else if is_digit c || (c =c "-") || (c =c "+") || (c =c ".") then
        v ← number val; Ok (v, Some val)
      else Err Not_a_value
  end.

Definition parse_dotted_value (t : gptps_toml) (sec k full val : text) (ln : Z) : result gptps_toml :=
  let val := trim val in
  match val, find_dotted t full with
  | [], _ => Err Missing_value
  | _, Some dup => Err (Set_twice (line dup))
  | _, None => '(v, tx) ← scan_value val; Ok (t <| e ::= λ es, es ++ [Entry sec k tx v ln false false] |>)
  end.
Definition parse_value (t : gptps_toml) (sec k val : text) (ln : Z) : result gptps_toml :=
  parse_dotted_value t sec k (dotted_of sec k) val ln.

(** ** Lines *)

(** [char section[256]] *)
Definition seccap : nat := 256.

Definition parse_line (t : gptps_toml) (raw : text) (ln : Z) (sec : text) : result (gptps_toml * text) :=
  let pair :=
    '(k, p) ← parse_path raw false;
    match trim p with
    | c :: rest => if c =c "=" then t' ← parse_value t sec k rest ln; Ok (t', sec) else Err Expected_equals
    | [] => Err Expected_equals
    end in
  match raw with
  | c :: p =>
      if c =c "[" then
        if match p with c :: _ => c =c "[" | [] => false end then Err Arrays_of_tables
        else
          '(name, p) ← parse_path p true;
          match p with
          | c :: p =>
              if c =c "]" then
                match trim p, name with
                | _ :: _, _ => Err Text_after_table
                | [], [] => Err Empty_table
                | [], _ => if (seccap <=? length name)%nat then Err Table_too_long
                           else Ok (t <| tb ::= λ l, l ++ [(ln, name)] |>, name)
                end
              else Err Text_in_table
          | [] => Err Unclosed_table
          end
      else pair
  | [] => pair
  end.

(** ** A whole text *)

(** The lines of a text: up to each newline, and after the last. *)
Fixpoint lines_of (p : text) : list text :=
  match p with
  | [] => [[]]
  | c :: p => if c =c nl then [] :: lines_of p
              else match lines_of p with l :: ls => (c :: l) :: ls | [] => [[c]] end
  end.

(** A carriage return inside a line: the line it is on. *)
Fixpoint stray_cr (ln : Z) (p : text) : option Z :=
  match p with
  | [] => None
  | c :: p =>
      if c =c nl then stray_cr (ln + 1) p
      else if (c =c cr) && match p with d :: _ => negb (d =c nl) | [] => false end then Some ln
      else stray_cr ln p
  end.

(** What [parse_buf] carries from line to line. *)
Record scan := Scan { sc_t : gptps_toml; sc_section : text; sc_lost : bool; sc_bad : list (Z * error) }.

Definition clean (l : text) : text := trim (strip_comment false (trim l)).
Definition is_header (raw : text) : bool := match raw with c :: _ => c =c "[" | [] => false end.
Definition scan_line (s : scan) (ln : Z) (l : text) : scan :=
  let raw := clean l in
  let header := is_header raw in
  match raw with
  | [] => s
  | _ =>
      if negb (sc_lost s) || header then
        match parse_line (sc_t s) raw ln (sc_section s) with
        | Err er => Scan (sc_t s) (sc_section s) header (sc_bad s ++ [(ln, er)])
        | Ok (t, sec) => Scan t sec (if header then false else sc_lost s) (sc_bad s)
        end
      else s
  end.
Fixpoint scan_lines (s : scan) (ln : Z) (ls : list text) : scan :=
  match ls with [] => s | l :: ls => scan_lines (scan_line s ln l) (ln + 1) ls end.

(** The parsed file, or the lines that did not parse. *)
Definition parse_buf (buf : text) : gptps_toml + list (Z * error) :=
  match stray_cr 1 buf with
  | Some ln => inr [(ln, Stray_cr)]
  | None =>
      let s := scan_lines (Scan (Toml [] []) [] false []) 1 (lines_of buf) in
      match sc_bad s with [] => inl (sc_t s) | bad => inr bad end
  end.

(** ** Accessors *)

Definition toml_int (t : gptps_toml) (sec k : text) : option Z :=
  match find t sec k with
  | Some x => match value x with TT_INT i false => Some i | _ => None end
  | None => None
  end.
(** A big integer is read from its text. *)
Definition toml_double (t : gptps_toml) (sec k : text) : option double :=
  match find t sec k with
  | Some x => match value x with
              | TT_DBL d => Some d
              | TT_INT i false => Some (double_of_Z i)
              | TT_INT _ true => strtod <$> etext x
              | _ => None
              end
  | None => None
  end.
Definition toml_bool (t : gptps_toml) (sec k : text) : option bool :=
  match find t sec k with
  | Some x => match value x with TT_BOOL b => Some b | _ => None end
  | None => None
  end.
Definition toml_str (t : gptps_toml) (sec k : text) : option text :=
  match find t sec k with
  | Some x => match value x with TT_STR => etext x | _ => None end
  | None => None
  end.
Definition toml_str_array (t : gptps_toml) (sec k : text) : list text :=
  match find t sec k with
  | Some x => match value x with TT_ARR l => l | _ => [] end
  | None => []
  end.
Definition claim_at (t : gptps_toml) (i : nat) : gptps_toml := t <| e ::= alter (λ x, x <| claimed := true |>) i |>.
Definition refuse_at (t : gptps_toml) (i : nat) : gptps_toml := t <| e ::= alter (λ x, x <| refused := true |>) i |>.
(** [snprintf] into [cap] bytes cuts the text to [cap - 1]. *)
Definition dotted_at (x : toml_entry) (cap : nat) : text :=
  take (cap - 1) (dotted_of (section x) (key x)).

(** ** Messages *)

(** [gptps_toml_key_shown] with the macro [KEY_AT] as the list it indexes; [None] when
    the buffer holds nothing at all. *)
Definition key_shown (sec k : text) (cap : nat) : option text :=
  let whole := dotted_of sec k in
  let n := length whole in
  if decide (cap = 0%nat) then None
  else if (n <? cap)%nat || (cap <? 8)%nat then Some (take (cap - 1) whole)
  else let head := ((cap - 4) / 2)%nat in
       let tail := (cap - 4 - head)%nat in
       Some (take head whole ++ str "..." ++ drop (n - tail) whole).

(** [add_error]: the text in the buffer after one more message, or [None] when it no
    longer fits. *)
Definition add_error (errlen : nat) (buf msg : text) : option text :=
  if (errlen <? length buf + length msg + 2)%nat then None
  else Some (buf ++ (match buf with [] => [] | _ => [nl] end) ++ msg).
(** The report of [parse_buf]: each message while it fits before the room kept for the
    line that counts the rest, how many are shown, and that line ([more n]). *)
Fixpoint show_errors (errlen : nat) (buf : text) (shown : nat) (msgs : list text) : text * nat :=
  match msgs with
  | [] => (buf, shown)
  | m :: msgs =>
      if (320 <? errlen)%nat then
        match add_error (errlen - 320) buf m with
        | Some buf => show_errors errlen buf (S shown) msgs
        | None => show_errors errlen buf shown msgs
        end
      else show_errors errlen buf shown msgs
  end.
Definition report (more : nat → text) (errlen : nat) (msgs : list text) : text :=
  let '(buf, shown) := show_errors errlen [] 0 msgs in
  if (shown <? length msgs)%nat then
    match add_error errlen buf (more (length msgs - shown)%nat) with Some b => b | None => buf end
  else buf.

End TomlParse.
