(* ===== verification/Settings.v ===== *)
(** * The settings registry of [src/settings.c]

    Entries with their schema and accessors, watchers, and the one path a value takes:
    [set_value].  The state the accessors reach - the engine's, an add-on's, the host's -
    is a parameter [W] of the model, and an entry's [read] and [write] are functions on
    it.  Every function runs under the registry's lock, so it is one step. *)

From S2P Require Import Prelude Toml TomlParse Engine.
From Stdlib Require Import Ascii SpecFloat.

Module Settings.
Import Toml.
Import Engine(status, GPTPS_OK, GPTPS_E_NOMEM, GPTPS_E_INVAL, GPTPS_E_NOTFOUND, GPTPS_E_DUP, GPTPS_E_CONFIG, status_eq_dec).

#[export] Existing Instance status_eq_dec.

Inductive setting_type := SET_INT | SET_UINT | SET_DOUBLE | SET_BOOL | SET_ENUM | SET_STRING.
#[export] Instance setting_type_dec : EqDecision setting_type.
Proof. solve_decision. Defined.
#[export] Instance ascii_eq_dec : EqDecision ascii := ascii_dec.

Definition VALUE_MAX : nat := 256.

Section registry.
Context {W : Type}.

(** [gptps_setting_entry].  The accessors have their target in them. *)
Record setting := Setting {
  s_key : text; s_defval : text; s_type : setting_type;
  s_hot : bool; s_has_range : bool; s_min : double; s_max : double;
  s_choices : option (list text);
  s_owner : option N; s_read : W → nat → text; s_write : W → text → W * status;
  s_tag : option N; s_dirty : bool; s_nosave : bool }.
#[export] Instance eta_setting : Eta setting := λ r,
  Setting (s_key r) (s_defval r) (s_type r) (s_hot r) (s_has_range r) (s_min r) (s_max r) (s_choices r)
    (s_owner r) (s_read r) (s_write r) (s_tag r) (s_dirty r) (s_nosave r).

(** [gptps_setting_watcher]: the callback and its data are the number that names it. *)
Record watcher := Watcher { w_cb : N; w_files : bool; w_tag : option N; w_off : bool }.
#[export] Instance eta_watcher : Eta watcher := λ r, Watcher (w_cb r) (w_files r) (w_tag r) (w_off r).

(** [struct gptps_settings]: the list from [head] to [tail], [n], and the watchers, the
    last added first. *)
Record settings := Registry { s_list : list setting; s_n : nat; s_watchers : list watcher }.
#[export] Instance eta_settings : Eta settings := λ r, Registry (s_list r) (s_n r) (s_watchers r).

Definition settings_create : settings := Registry [] 0 [].

(** ** The list *)

Fixpoint find_in (key : text) (l : list setting) : option setting :=
  match l with [] => None | e :: l => if decide (s_key e = key) then Some e else find_in key l end.
Definition setting_find (r : settings) (key : text) : option setting := find_in key (s_list r).
(** Assignment through the pointer [setting_find] returns. *)
Fixpoint put_in (key : text) (f : setting → setting) (l : list setting) : list setting :=
  match l with [] => [] | e :: l => if decide (s_key e = key) then f e :: l else e :: put_in key f l end.
Definition set_entry (key : text) (f : setting → setting) (r : settings) : settings :=
  r <| s_list := put_in key f (s_list r) |>.

Definition settings_append (e : setting) (r : settings) : settings :=
  r <| s_list := s_list r ++ [e] |> <| s_n := S (s_n r) |>.

(** ** Registration *)

(** [gptps_setting_def], with the accessors given. *)
Record setting_def := Def {
  d_key : text; d_type : setting_type; d_hot : bool; d_has_range : bool; d_min : double; d_max : double;
  d_choices : option (list text); d_read : W → nat → text; d_write : W → text → W * status }.

Definition entry_of (def : setting_def) (owner : option N) (defval : text) : setting :=
  Setting (d_key def) defval (d_type def) (d_hot def) (d_has_range def) (d_min def) (d_max def) (d_choices def)
    owner (d_read def) (d_write def) None false false.

Definition settings_add_owned (r : settings) (w : W) (def : setting_def) (owner : option N) : settings * status :=
  match setting_find r (d_key def) with
  | Some _ => (r, GPTPS_E_DUP)
  | None => (settings_append (entry_of def owner (d_read def w VALUE_MAX)) r, GPTPS_OK)
  end.

(** [gptps_settings_prepare], then [gptps_settings_publish_locked]. *)
Definition settings_prepare (w : W) (def : setting_def) (owner : option N) (defval : option text) : setting :=
  entry_of def owner (match defval with Some v => take (VALUE_MAX - 1) v | None => d_read def w VALUE_MAX end).
Definition settings_publish (r : settings) (p : setting) : settings * bool :=
  match setting_find r (s_key p) with
  | Some _ => (r, false)
  | None => (settings_append p r, true)
  end.

Definition watch_add (r : settings) (cb : N) (files : bool) (tag : option N) : settings :=
  r <| s_watchers := Watcher cb files tag false :: s_watchers r |>.
Definition set_tag (r : settings) (key : text) (tag : option N) : settings :=
  set_entry key (λ e, e <| s_tag := tag |>) r.
Definition settings_nosave (r : settings) (key : text) : settings :=
  set_entry key (λ e, e <| s_nosave := true |>) r.

(** ** Removal *)

(** The walk that unlinks: the entries kept, and how many went. *)
Fixpoint unlink (drop : setting → bool) (l : list setting) : list setting * nat :=
  match l with
  | [] => ([], 0%nat)
  | e :: l => let '(kept, k) := unlink drop l in if drop e then (kept, S k) else (e :: kept, k)
  end.
Definition settings_unlink (drop : setting → bool) (r : settings) : settings * nat :=
  let '(kept, k) := unlink drop (s_list r) in (r <| s_list := kept |> <| s_n := (s_n r - k)%nat |>, k).

Definition forget_tag (r : settings) (tag : N) : settings :=
  let r := r <| s_watchers ::= map (λ w, if decide (w_tag w = Some tag) then w <| w_off := true |> else w) |> in
  (settings_unlink (λ e, bool_decide (s_tag e = Some tag)) r).1.

Definition has_prefix (s p : text) : bool := bool_decide (take (length p) s = p).
Definition drops_task (owner : N) (prefix : option text) (keep : list text) (e : setting) : bool :=
  if decide (s_owner e = Some owner) then true
  else match s_owner e, prefix with
       | None, Some p => has_prefix (s_key e) p && forallb (λ k, negb (has_prefix (s_key e) k)) keep
       | _, _ => false
       end.
Definition remove_task (r : settings) (owner : N) (prefix : option text) (keep : list text) : settings * nat :=
  settings_unlink (drops_task owner prefix keep) r.

(** ** Values *)

(** [x < min || x > max] *)
Definition out_of_range (e : setting) (x : double) : bool :=
  s_has_range e && (SFltb x (s_min e) || SFltb (s_max e) x).

(** The tests of where the conversions stop are left out: a plain number is converted to
    its end. *)
Definition valid_value (e : setting) (v : text) : bool :=
  match s_type e with
  | SET_INT =>
      plain_number v true &&
      let '(x, range) := TomlParse.strtoll v in negb range && negb (out_of_range e (double_of_Z x))
  | SET_UINT =>
      plain_number v true && negb (negative v) &&
      let '(x, range) := TomlParse.strtoull v in negb range && negb (out_of_range e (double_of_Z x))
  | SET_DOUBLE =>
      plain_number v false &&
      let x := strtod v in negb (not_finite x) && negb (out_of_range e x)
  | SET_BOOL => bool_decide (v = str "true") || bool_decide (v = str "false")
  | SET_ENUM => match s_choices e with None => false | Some l => bool_decide (v ∈ l) end
  | SET_STRING => (length v <? VALUE_MAX)%nat
  end.

Definition apply_entry (e : setting) (w : W) (v : text) : W * status :=
  if negb (valid_value e v) then (w, GPTPS_E_CONFIG) else s_write e w v.

Definition is_space (c : ascii) : bool :=
  (c =c " ") || (c =c tab) || (c =c cr) || (c =c nl) || (c =c ascii_of_nat 11) || (c =c ascii_of_nat 12).
Fixpoint skip_space (p : text) : text :=
  match p with c :: p' => if is_space c then skip_space p' else p | [] => [] end.
(** The white space taken off both ends of what is typed. *)
Definition typed (e : setting) (live : bool) (v : text) : text :=
  if live && bool_decide (s_type e ≠ SET_STRING) && (length v <? VALUE_MAX)%nat
  then reverse (skip_space (reverse (skip_space v))) else v.

(** A call of a watcher: which, the key and the value it is told. *)
Definition heard (live : bool) (w : watcher) : bool := (live || w_files w) && negb (w_off w).

Definition set_value (r : settings) (w : W) (key v : text) (live : bool)
    : settings * W * status * list (N * text * text) :=
  match setting_find r key with
  | None => (r, w, GPTPS_E_NOTFOUND, [])
  | Some e =>
      let '(w', st) := apply_entry e w (typed e live v) in
      if decide (st = GPTPS_OK) then
        let applied := s_read e w' VALUE_MAX in
        (set_entry key (λ e, e <| s_dirty := live |>) r, w', GPTPS_OK,
         map (λ x, (w_cb x, key, applied)) (List.filter (heard live) (s_watchers r)))
      else (r, w', st, [])
  end.

(** ** Lookups *)

Definition settings_size (r : settings) : nat := s_n r.
Definition type_of (r : settings) (key : text) : option setting_type := s_type <$> setting_find r key.
Definition settings_has (r : settings) (key : text) : bool := bool_decide (is_Some (setting_find r key)).
Definition get_by (r : settings) (w : W) (key : text) (cap : nat) : option text * status :=
  if decide (cap = 0%nat) then (None, GPTPS_E_INVAL)
  else match setting_find r key with
       | Some e => (Some (s_read e w cap), GPTPS_OK)
       | None => (None, GPTPS_E_NOTFOUND)
       end.
(** The key, the current value and the default, as [gptps_setting_info] has them. *)
Definition info_at (r : settings) (w : W) (index : nat) : option (text * text * text) :=
  e ← s_list r !! index; Some (s_key e, s_read e w VALUE_MAX, take (VALUE_MAX - 1) (s_defval e)).

End registry.
Arguments setting : clear implicits.
Arguments settings : clear implicits.
Arguments setting_def : clear implicits.

(** ** Near misses *)

(** The inner loop of [gptps_edit_distance] over the rest of [b] and of the row above:
    the rest of the new row, and its least entry. *)
Fixpoint row_loop (ca : ascii) (diag left best : nat) (b : text) (row : list nat) : list nat * nat :=
  match b, row with
  | cb :: b, up :: row =>
      let v := (diag + (if ca =c cb then 0 else 1))%nat in
      let v := if (left + 1 <? v)%nat then (left + 1)%nat else v in
      let v := if (up + 1 <? v)%nat then (up + 1)%nat else v in
      let '(r, best) := row_loop ca up v (if (v <? best)%nat then v else best) b row in
      (v :: r, best)
  | _, _ => ([], best)
  end.
(** The outer loop, at row [i]. *)
Fixpoint rows (cap i : nat) (a b : text) (row : list nat) : nat :=
  match a with
  | [] => default 0%nat (row !! length b)
  | ca :: a =>
      match row with
      | diag :: up =>
          let '(r, best) := row_loop ca diag i i b up in
          if (cap <? best)%nat then (cap + 1)%nat else rows cap (S i) a b (i :: r)
      | [] => 0%nat
      end
  end.
Definition edit_distance (a b : text) (cap : nat) : nat :=
  let la := length a in
  let lb := length b in
  if (256 <? la)%nat || (256 <? lb)%nat then (cap + 1)%nat
  else if (cap <? (if (lb <? la)%nat then la - lb else lb - la))%nat then (cap + 1)%nat
  else rows cap 1 a b (seq 0 (S lb)).

(** The loop of [gptps_settings_closest] over the registered keys. *)
Definition near_limit (key : text) : nat := if (length key / 4 <? 2)%nat then 2%nat else (length key / 4)%nat.
Fixpoint closest_loop (key : text) (limit : nat) (best : option (nat * text)) (keys : list text) : option (nat * text) :=
  match keys with
  | [] => best
  | k :: keys =>
      let d := edit_distance key k limit in
      closest_loop key limit
        (if (d <=? limit)%nat && match best with None => true | Some (b, _) => (d <? b)%nat end
         then Some (d, k) else best) keys
  end.
Definition closest {W} (r : settings W) (key : text) : option text :=
  snd <$> closest_loop key (near_limit key) None (map s_key (s_list r)).

End Settings.
