(* ===== verification/Save.v ===== *)
(** * Writing settings back: the save half of [src/settings.c]

    What [gptps_settings_save] writes for one setting, as text: strings, keys, table
    lines, values, and the span of a value in the line it is rewritten on.  The output
    stream is the text written so far. *)

From S2P Require Import Prelude Toml TomlParse Settings.
From Stdlib Require Import Ascii SpecFloat.

Module Save.
Import Toml TomlParse Settings.

(** ** Strings, keys, tables *)

Definition hex_digit (z : Z) : ascii := chr (if z <? 10 then z + 48 else z + 55).
(** One character of [put_quoted]; [%04X] of a control character. *)
Definition quoted_char (c : ascii) : text :=
  if (c =c dq) || (c =c bs) then [bs; c]
  else if c =c nl then [bs; "n"%char]
  else if c =c tab then [bs; "t"%char]
  else if c =c cr then [bs; "r"%char]
  else if (code c <? 0x20) || (code c =? 0x7f) then
    [bs; "u"%char; "0"%char; "0"%char; hex_digit (code c / 16); hex_digit (code c mod 16)]
  else [c].
Definition put_quoted (s : text) : text := dq :: concat (map quoted_char s) ++ [dq].

Fixpoint bare_loop (s : text) : bool :=
  match s with
  | [] => true
  | c :: s' => is_bare c && negb ((c =c ".") && match s' with d :: _ => d =c "." | [] => false end) && bare_loop s'
  end.
Definition bare_path (s : text) : bool :=
  match s, last s with
  | c :: _, Some d => negb (c =c ".") && negb (d =c ".") && bare_loop s
  | _, _ => false
  end.
Definition put_key (k : text) : text := if bare_path k then k else put_quoted k.

(** The parts of a name between its dots. *)
Fixpoint parts_of (s : text) : list text :=
  match s with
  | [] => [[]]
  | c :: s => if c =c "." then [] :: parts_of s
              else match parts_of s with p :: ps => (c :: p) :: ps | [] => [[c]] end
  end.
Definition put_part (p : text) : text := if bare_path p then p else put_quoted p.
(** The parts, written with a dot between them. *)
Fixpoint put_parts (ps : list text) : text :=
  match ps with
  | [] => []
  | [p] => put_part p
  | p :: ps => put_part p ++ "."%char :: put_parts ps
  end.
Definition put_table (name : text) : text := "["%char :: put_parts (parts_of name) ++ ["]"%char; nl].

(** The bytes before the last dot, if there is one: [leaf_of]'s [seclen]. *)
Definition seclen (key : text) : nat :=
  match list_find (λ c, c = "."%char) (reverse key) with
  | Some (k, _) => (length key - 1 - k)%nat
  | None => 0%nat
  end.

(** ** Values *)

Definition put_text (ty : setting_type) (val : text) : text :=
  match ty with
  | SET_STRING | SET_ENUM => put_quoted val
  | SET_DOUBLE =>
      val ++ (if plain_number val true && (if negative val then (strtoll val).2 else (strtoull val).2)
              then str ".0" else [])
  | _ => val
  end.

(** ** The span of a value *)

(** Up to the first [stop] outside quotes, an escaped character passed over. *)
Fixpoint cut (stop : ascii) (in_str : bool) (l : text) : text * text :=
  match l with
  | [] => ([], [])
  | c :: l' =>
      match in_str && (c =c bs), l' with
      | true, d :: l'' => let '(a, b) := cut stop in_str l'' in (c :: d :: a, b)
      | _, _ =>
          if negb in_str && (c =c stop) then ([], l)
          else let '(a, b) := cut stop (if c =c dq then negb in_str else in_str) l' in (c :: a, b)
      end
  end.
(** The line as what stands before the value, the value, and what stands after. *)
Definition value_span (l : text) : text * text * text :=
  let '(k, r) := cut "=" false l in
  match r with
  | [] => (l, [], [])
  | c :: r =>
      let v := skip_ws r in
      let '(body, post) := cut "#" false v in
      let v1 := rtrim body in
      (k ++ c :: take (length r - length v) r, v1, drop (length v1) body ++ post)
  end.

End Save.
