(* ===== verification/TomlFacts.v ===== *)
(** * Lemmas about the lexical functions of the configuration parser

    White space, quoted strings, comments and paths: what each function leaves of its
    input, and that what it reads depends only on what it passes.  The strings the save
    writes are read back by these functions. *)

From S2P Require Import Prelude Toml TomlParse Settings Save.
From Stdlib Require Import Ascii SpecFloat.

Module TomlFacts.
Import Toml TomlParse Settings Save.

(** ** Characters *)

Lemma ascii_eqb_refl c : (c =c c) = true.
Proof. apply Ascii.eqb_refl. Qed.
Lemma ascii_eqb_neq c d : c ≠ d → (c =c d) = false.
Proof. apply Ascii.eqb_neq. Qed.

(** A property of one character, checked on all of them. *)
Lemma all_chars (P : ascii → bool) :
  forallb (λ n, P (ascii_of_nat n)) (seq 0 256) = true → ∀ c, P c = true.
Proof.
  intros H c. rewrite <-(ascii_nat_embedding c). apply (proj1 (forallb_forall _ _) H), in_seq.
  pose proof (nat_ascii_bounded c). lia.
Qed.
Ltac by_char c := revert c; apply all_chars; vm_compute; reflexivity.

(** A test that tells a character from [d]. *)
Lemma not_this (P : ascii → bool) d c : P d = false → P c = true → (c =c d) = false.
Proof. intros Hd Hc. apply ascii_eqb_neq. intros ->. congruence. Qed.

Definition plain (c : ascii) : bool := negb (c =c dq) && negb (c =c bs) && negb (c =c "#") && negb (c =c "=").
Lemma is_bare_plain c : implb (is_bare c) (plain c && negb (is_ws c)) = true.
Proof. by_char c. Qed.
Lemma is_ws_plain c : implb (is_ws c) (plain c) = true.
Proof. by_char c. Qed.
Lemma is_digit_plain c : implb (is_digit c) (plain c && negb (is_ws c) && negb (c =c "[") && is_bare c && negb (c =c ".")) = true.
Proof. by_char c. Qed.

(** ** White space *)

Definition starts_ws (p : text) : bool := match p with c :: _ => is_ws c | [] => false end.

Lemma skip_ws_app p : ∃ w, p = w ++ skip_ws p ∧ forallb is_ws w = true.
Proof.
  induction p as [|c p (w & Hp & Hw)]; [by (exists nil)|]. cbn [skip_ws].
  destruct (is_ws c) eqn:Hc; [|by (exists nil)].
  exists (c :: w). split; [by rewrite Hp at 1|]. cbn [forallb]. by rewrite Hc.
Qed.
Lemma skip_ws_starts p : starts_ws (skip_ws p) = false.
Proof. induction p as [|c p IH]; [done|]. cbn [skip_ws]. destruct (is_ws c) eqn:Hc; [done|]. by cbn. Qed.
Lemma skip_ws_id p : starts_ws p = false → skip_ws p = p.
Proof. destruct p as [|c p]; [done|]. cbn. by intros ->. Qed.
Lemma skip_ws_over w p : forallb is_ws w = true → skip_ws (w ++ p) = skip_ws p.
Proof. induction w as [|c w IH]; [done|]. cbn. intros [Hc Hw]%andb_prop. rewrite Hc. by apply IH. Qed.
Lemma skip_ws_length p : (length (skip_ws p) ≤ length p)%nat.
Proof. destruct (skip_ws_app p) as (w & Hp & _). rewrite Hp at 2. rewrite length_app. lia. Qed.

Definition ends_ws (p : text) : bool := match last p with Some c => is_ws c | None => false end.

Lemma rtrim_nil p : rtrim p = [] ↔ forallb is_ws p = true.
Proof.
  induction p as [|c p IH]; [done|]. cbn [rtrim forallb]. destruct (rtrim p) as [|d q] eqn:Hp.
  - destruct (is_ws c); [|done]. cbn. by rewrite <-IH.
  - split; [done|]. intros [_ H]%andb_prop. by apply IH in H.
Qed.
Lemma rtrim_app p : ∃ w, p = rtrim p ++ w ∧ forallb is_ws w = true.
Proof.
  induction p as [|c p (w & Hp & Hw)]; [by (exists nil)|]. cbn [rtrim].
  destruct (rtrim p) as [|d q] eqn:Hq; cbn [app] in Hp.
  - destruct (is_ws c) eqn:Hc; [|(exists w; by subst)].
    exists (c :: w). split; [by subst|]. cbn. by rewrite Hc.
  - exists w. split; [|done]. by rewrite Hp at 1.
Qed.
Lemma rtrim_over p w : forallb is_ws w = true → rtrim (p ++ w) = rtrim p.
Proof.
  intros Hw. induction p as [|c p IH]; [by apply rtrim_nil|]. cbn [app rtrim]. by rewrite IH.
Qed.
Lemma rtrim_id p : ends_ws p = false → rtrim p = p.
Proof.
  induction p as [|c p IH]; [done|]. unfold ends_ws. intros H.
  destruct p as [|d p].
  - cbn in H |- *. by rewrite H.
  - change (rtrim (c :: d :: p)) with (match rtrim (d :: p) with [] => if is_ws c then [] else [c] | q => c :: q end).
    rewrite IH; [done|exact H].
Qed.
Lemma rtrim_ends p : ends_ws (rtrim p) = false.
Proof.
  induction p as [|c p IH]; [done|]. cbn [rtrim]. destruct (rtrim p) as [|d q] eqn:Hq.
  - destruct (is_ws c) eqn:Hc; [done|]. by unfold ends_ws; cbn.
  - exact IH.
Qed.
Lemma rtrim_starts p : starts_ws p = false → starts_ws (rtrim p) = false.
Proof.
  destruct p as [|c p]; [done|]. cbn. intros Hc. destruct (rtrim p); [by rewrite Hc|done].
Qed.

(** ** Quoted strings *)

Lemma unescape_loop_fuel f g p : (length p ≤ f)%nat → (f ≤ g)%nat → unescape_loop g p = unescape_loop f p.
Proof.
  revert g p. induction f as [|f IH]; intros g p Hf Hg.
  { destruct p; [by destruct g|cbn in Hf; lia]. }
  destruct g as [|g]; [lia|]. destruct p as [|c p]; [done|]. cbn [unescape_loop].
  cbn [length] in Hf.
  assert (Hrest : ∀ q, (length q ≤ length p)%nat → unescape_loop g q = unescape_loop f q)
    by (intros; apply IH; lia).
  destruct (c =c bs); [|by rewrite Hrest]. destruct p as [|d p]; [by rewrite Hrest|].
  destruct (simple_escape d); [by rewrite Hrest; [|cbn; lia]|].
  destruct ((d =c "u") || (d =c "U")); [|done].
  assert (Hx : ∀ n z q z' r, hex_run n z q = Some (z', r) → (length r ≤ length q)%nat).
  { clear. induction n as [|n IH]; intros z q z' r; [cbn; intros; simplify_eq; lia|].
    destruct q as [|c q]; [done|]. cbn. destruct (hexval c); [|done]. cbn. intros H%IH. lia. }
  destruct (hex_run _ 0 p) as [[cp r]|] eqn:Hr; [|done]. apply Hx in Hr.
  destruct (not_a_char cp); [done|]. rewrite Hrest; [done|cbn; lia].
Qed.

Definition no_nul (s : text) : Prop := Forall (λ c, c ≠ ascii_of_nat 0) s.

Lemma unescape_quoted_char c f p : c ≠ ascii_of_nat 0 →
  unescape_loop (S f) (quoted_char c ++ p) = (w ← unescape_loop f p; Ok (c :: w)).
Proof. intros H. by destruct c as [[][][][][][][][]]. Qed.

Lemma unescape_quoted s : no_nul s → unescape (concat (map quoted_char s)) = Ok s.
Proof.
  intros Hs. unfold unescape. assert (H : ∀ f, (length s ≤ f)%nat → unescape_loop f (concat (map quoted_char s)) = Ok s).
  { induction Hs as [|c s Hc Hs IH]; intros f Hf; [by destruct f|].
    cbn [length] in Hf. destruct f as [|f]; [lia|]. cbn [map concat].
    rewrite unescape_quoted_char; [|done]. rewrite IH; [done|lia]. }
  apply H. clear. induction s as [|c s IH]; [done|]. cbn. rewrite length_app.
  assert ((1 ≤ length (quoted_char c))%nat); [|lia].
  unfold quoted_char. repeat case_match; cbn; lia.
Qed.

Definition unquoted (c : ascii) : bool := negb (c =c dq) && negb (c =c bs).
Lemma quoted_char_shape c :
  match quoted_char c with
  | [d] => unquoted d
  | b :: _ :: l => (b =c bs) && forallb unquoted l
  | [] => false
  end = true.
Proof. by_char c. Qed.
Lemma close_quote_over l p : forallb unquoted l = true →
  close_quote (l ++ p) = ('(b, r) ← close_quote p; Some (l ++ b, r)).
Proof.
  induction l as [|c l IH]; cbn; [by destruct (close_quote p) as [[]|]|].
  intros [[Hd%negb_true_iff Hb%negb_true_iff]%andb_prop Hl]%andb_prop. rewrite Hd, Hb, IH; [|done].
  by destruct (close_quote p) as [[]|].
Qed.
Lemma close_quote_char c p :
  close_quote (quoted_char c ++ p) = ('(b, r) ← close_quote p; Some (quoted_char c ++ b, r)).
Proof.
  pose proof (quoted_char_shape c) as H. destruct (quoted_char c) as [|b [|d l]]; [done| |].
  - apply close_quote_over. cbn. by rewrite H.
  - apply andb_prop in H as [->%Ascii.eqb_eq H]. cbn. rewrite close_quote_over; [|done].
    by destruct (close_quote p) as [[]|].
Qed.
Lemma close_quote_quoted s r :
  close_quote (concat (map quoted_char s) ++ dq :: r) = Some (concat (map quoted_char s), r).
Proof.
  induction s as [|c s IH]; [done|]. cbn [map concat]. by rewrite <-app_assoc, close_quote_char, IH.
Qed.

(** What [close_quote] passes decides its answer. *)
Lemma close_quote_spec p b r : close_quote p = Some (b, r) →
  p = b ++ dq :: r ∧ ∀ r', close_quote (b ++ dq :: r') = Some (b, r').
Proof.
  revert b r. induction p as [p IH] using (induction_ltof1 _ (@length _)). intros b r.
  destruct p as [|c p]; [done|]. cbn [close_quote].
  destruct (c =c dq) eqn:Hc; [intros [= <- <-]; apply Ascii.eqb_eq in Hc as ->; done|].
  destruct (c =c bs) eqn:Hb; [destruct p as [|d p]; [done|]|].
  - destruct (close_quote p) as [[b' r']|] eqn:Hq; [|done]. intros [= <- <-].
    apply IH in Hq as [-> Hq]; [|unfold ltof; cbn; lia].
    split; [done|]. intros r''. cbn. by rewrite Hc, Hb, Hq.
  - destruct (close_quote p) as [[b' r']|] eqn:Hq; [|done]. intros [= <- <-].
    apply IH in Hq as [-> Hq]; [|unfold ltof; cbn; lia].
    split; [done|]. intros r''. cbn [app close_quote]. rewrite Hc, Hb. by rewrite Hq.
Qed.
Lemma close_quote_shorter p b r : close_quote p = Some (b, r) → (S (length r) ≤ length p)%nat.
Proof. intros [-> _]%close_quote_spec. rewrite length_app. cbn. lia. Qed.

(** ** Scanning past quotes *)

(** Text the scanners pass in one piece, in and out of a string alike. *)
Definition passes (stop : ascii) (p : text) : Prop :=
  ∀ r, cut stop false (p ++ r) = (p ++ (cut stop false r).1, (cut stop false r).2).

Lemma passes_nil stop : passes stop [].
Proof. intros r. cbn [app]. by destruct (cut stop false r). Qed.
Lemma passes_app stop p q : passes stop p → passes stop q → passes stop (p ++ q).
Proof. intros Hp Hq r. by rewrite <-!app_assoc, Hp, Hq. Qed.
Lemma passes_char stop c : (c =c dq) = false → (c =c stop) = false → passes stop [c].
Proof. intros Hq Hs r. cbn. rewrite Hs, Hq. by destruct (cut stop false r). Qed.
Lemma passes_forall stop p :
  forallb (λ c, negb (c =c dq) && negb (c =c stop)) p = true → passes stop p.
Proof.
  induction p as [|c p IH]; [intros _; apply passes_nil|]. cbn. intros [[Hq Hs]%andb_prop Hp]%andb_prop.
  apply (passes_app _ [c]); [|by apply IH]. apply passes_char; by apply negb_true_iff.
Qed.

Lemma cut_in_quotes stop p b r : close_quote p = Some (b, r) →
  cut stop true p = (b ++ dq :: (cut stop false r).1, (cut stop false r).2).
Proof.
  revert b r. induction p as [p IH] using (induction_ltof1 _ (@length _)). intros b r.
  destruct p as [|c p]; [done|]. cbn [close_quote cut].
  destruct (c =c dq) eqn:Hc.
  { intros [= <- <-]. apply Ascii.eqb_eq in Hc as ->. cbn. by destruct p, (cut stop false _). }
  destruct (c =c bs) eqn:Hb; [destruct p as [|d p]; [done|]|]; cbn [andb negb].
  - destruct (close_quote p) as [[b' r']|] eqn:Hq; [|done]. intros [= <- <-].
    rewrite (IH p ltac:(unfold ltof; cbn; lia) _ _ Hq). done.
  - destruct (close_quote p) as [[b' r']|] eqn:Hq; [|done]. intros [= <- <-].
    rewrite (IH p ltac:(unfold ltof; cbn; lia) _ _ Hq). done.
Qed.
Lemma passes_string stop b r0 p : (dq =c stop) = false → close_quote p = Some (b, r0) → passes stop (dq :: b ++ [dq]).
Proof.
  intros Hs [_ Hq]%close_quote_spec r. cbn [app cut]. rewrite <-app_assoc, Hs. cbn.
  rewrite (cut_in_quotes _ _ _ _ (Hq r)). cbn. by rewrite <-app_assoc.
Qed.
Lemma passes_put_quoted stop s : (dq =c stop) = false → passes stop (put_quoted s).
Proof. intros Hs. exact (passes_string _ _ [] _ Hs (close_quote_quoted s [])). Qed.

Lemma strip_comment_cut b v : strip_comment b v = (cut "#" b v).1.
Proof.
  revert b. induction v as [v IH] using (induction_ltof1 _ (@length _)). intros b.
  destruct v as [|c v]; [done|]. cbn [strip_comment cut].
  destruct b, (c =c bs) eqn:Hb; cbn [andb negb].
  - destruct v as [|d v]; [by apply Ascii.eqb_eq in Hb as ->|]. rewrite IH by (unfold ltof; cbn; lia).
    by destruct (cut "#" true v).
  - destruct (c =c dq); [|destruct (c =c "#"); cbn]; rewrite IH by (unfold ltof; cbn; lia); by destruct (cut _ _ v).
  - apply Ascii.eqb_eq in Hb as ->. change (bs =c dq) with false. change (bs =c "#") with false. cbn.
    rewrite IH by (unfold ltof; cbn; lia). by destruct (cut "#" false v).
  - destruct (c =c dq) eqn:Hd.
    { apply Ascii.eqb_eq in Hd as ->. cbn. rewrite IH by (unfold ltof; cbn; lia). by destruct (cut _ _ v). }
    destruct (c =c "#"); cbn; [done|]. rewrite IH by (unfold ltof; cbn; lia). by destruct (cut _ _ v).
Qed.
Lemma strip_comment_passes p r : passes "#" p → strip_comment false (p ++ r) = p ++ strip_comment false r.
Proof. intros Hp. by rewrite !strip_comment_cut, Hp. Qed.

End TomlFacts.
