(* ===== verification/PathFacts.v ===== *)
(** * Dotted paths: locality of the parser, and paths as the save writes them

    [parse_path] reads a prefix of its input, and its answer depends on that prefix and
    the character after it; a path written by [put_key] or [put_table] is read back to
    the name it was written from. *)

From S2P Require Import Prelude Toml TomlParse Settings Save TomlFacts.
From Stdlib Require Import Ascii.

Module PathFacts.
Import Toml TomlParse Settings Save TomlFacts.

(** ** Locality *)

Lemma bare_run_local table p b r : bare_run table p = (b, r) →
  p = b ++ r ∧ ∀ c r0 r', r = c :: r0 → bare_run table (b ++ c :: r') = (b, c :: r').
Proof.
  revert b r. induction p as [|d p IH]; intros b r; cbn [bare_run]; [by intros [= <- <-]|].
  destruct (_ || _) eqn:Hd.
  - intros [= <- <-]. split; [done|]. intros c r0 r' [= <- ->]. cbn. by rewrite Hd.
  - destruct (bare_run table p) as [b' r'] eqn:Hp. intros [= <- <-]. destruct (IH _ _ eq_refl) as [-> Hl].
    split; [done|]. intros c r0 r'' ->. cbn. by rewrite Hd, (Hl _ _ _ eq_refl).
Qed.

Lemma bare_run_passes p b r : bare_run false p = (b, r) →
  forallb (λ c, is_bare c && negb (c =c ".")) b = true.
Proof.
  revert b r. induction p as [|d p IH]; intros b r; cbn [bare_run]; [by intros [= <- <-]|].
  destruct (_ || _) eqn:Hd; [by intros [= <- <-]|].
  destruct (bare_run false p) as [b' r'] eqn:Hp. intros [= <- <-].
  apply orb_false_elim in Hd as [Hd1 Hd2%negb_false_iff]. cbn. rewrite Hd1, Hd2. by eapply IH.
Qed.
Lemma bare_passes stop b : (stop = "#" ∨ stop = "=")%char →
  forallb is_bare b = true → passes stop b.
Proof.
  intros Hs Hb. apply passes_forall. rewrite forallb_forall in Hb |- *. intros c Hc.
  specialize (Hb c Hc). pose proof (is_bare_plain c) as Hp. rewrite Hb in Hp. cbn in Hp.
  unfold plain in Hp. rewrite !andb_true_iff in Hp. destruct Hp as [[[[-> _] ?] ?] _], Hs as [-> | ->]; done.
Qed.

(** What reading one part fixes: the text it passes. *)
Lemma path_part_local n p seg r : path_part false n p = Ok (seg, r) →
  ∃ pre, p = pre ++ r ∧ pre ≠ [] ∧ passes "#" pre ∧ passes "=" pre ∧
    ∀ c r0 r', r = c :: r0 → path_part false n (pre ++ c :: r') = Ok (seg, c :: r').
Proof.
  intros H. assert (Hq : (∃ p', p = dq :: p') ∨ match p with c :: _ => (c =c dq) = false | [] => True end).
  { destruct p as [|c p]; [by right|]. destruct (c =c dq) eqn:Hc; [|by right].
    apply Ascii.eqb_eq in Hc as ->. left. by exists p. }
  destruct Hq as [[p' ->]|Hq].
  - cbn in H. destruct (close_quote p') as [[body r1]|] eqn:Hc; [|done].
    destruct (unescape body) as [s|] eqn:Hu; [|done]. injection H as <- <-.
    exists (dq :: body ++ [dq]). pose proof (close_quote_spec _ _ _ Hc) as [-> Hl].
    split; [by rewrite <-app_comm_cons, <-app_assoc|]. split; [done|].
    split; [by eapply passes_string|]. split; [by eapply passes_string|].
    intros c r0 r' ->. rewrite <-app_comm_cons, <-app_assoc. cbn. by rewrite Hl, Hu.
  - unfold path_part in H.
    assert (Hb : let '(s, r1) := bare_run false p in rtrim s = seg ∧ seg ≠ [] ∧ r1 = r).
    { destruct p as [|c p]; [done|]. rewrite Hq in H. destruct (bare_run false (c :: p)) as [s r1].
      destruct (rtrim s) eqn:Hs; [done|]. by injection H as <- <-. }
    clear H. destruct (bare_run false p) as [s r1] eqn:Hr. destruct Hb as (Hs & Hn & ->).
    pose proof (bare_run_passes _ _ _ Hr) as Hp. apply bare_run_local in Hr as [-> Hl].
    assert (Hb : forallb is_bare s = true).
    { rewrite forallb_forall in Hp |- *. intros c Hc. by apply Hp, andb_prop in Hc as [? _]. }
    exists s. split; [done|]. split; [by intros ->|]. do 2 (split; [apply bare_passes; auto|]).
    intros c r0 r' ->. specialize (Hl _ _ r' eq_refl). unfold path_part. rewrite Hl, Hs.
    destruct s as [|d s]; [by subst|]. cbn in Hq |- *. rewrite Hq. by destruct seg.
Qed.

Lemma passes_ws stop w : (stop = "#" ∨ stop = "=")%char → forallb is_ws w = true → passes stop w.
Proof.
  intros Hs Hb. apply passes_forall. rewrite forallb_forall in Hb |- *. intros c Hc.
  specialize (Hb c Hc). pose proof (is_ws_plain c) as Hp. rewrite Hb in Hp. cbn in Hp.
  unfold plain in Hp. rewrite !andb_true_iff in Hp. destruct Hp as [[[-> _] ?] ?], Hs as [-> | ->]; done.
Qed.

(** The equation of the loop. *)
Lemma path_loop_eq table f p out n :
  path_loop table f p out n =
    ('(seg, r) ← path_part table n (skip_ws p);
     let out := out ++ (if decide (n = 0%nat) then [] else ["."%char]) ++ seg in
     match skip_ws r, f with
     | c :: r', S f => if c =c "." then path_loop table f r' out (S n) else Ok (out, c :: r')
     | r', _ => Ok (out, r')
     end).
Proof. by destruct f. Qed.

Lemma path_loop_local f p out n nm r : path_loop false f p out n = Ok (nm, r) → (length p ≤ f)%nat →
  ∃ pre, p = pre ++ r ∧ passes "#" pre ∧ passes "=" pre ∧
    ∀ c r0 r' f', r = c :: r0 → (length (pre ++ c :: r') ≤ f')%nat →
      path_loop false f' (pre ++ c :: r') out n = Ok (nm, c :: r').
Proof.
  revert p out n. induction f as [|f IH]; intros p out n; rewrite path_loop_eq; intros H Hf.
  { destruct p; [done|cbn in Hf; lia]. }
  destruct (skip_ws_app p) as (w & Hp & Hw). pose proof (skip_ws_starts p) as Hns.
  set (p1 := skip_ws p) in *. clearbody p1. subst p.
  destruct (path_part false n p1) as [[seg r1]|] eqn:Hpart; [|done]. cbn in H.
  apply path_part_local in Hpart as (pre1 & -> & Hne & Ph & Pe & Hl).
  destruct (skip_ws_app r1) as (w2 & Hr1 & Hw2). pose proof (skip_ws_starts r1) as Hns2.
  set (r2 := skip_ws r1) in *. clearbody r2. subst r1.
  assert (Hskip : ∀ X, skip_ws (w ++ pre1 ++ X) = pre1 ++ X).
  { intros X. rewrite skip_ws_over by done. apply skip_ws_id. by destruct pre1. }
  assert (Hpart : ∀ c r0 r', r2 = c :: r0 → path_part false n (pre1 ++ w2 ++ c :: r') = Ok (seg, w2 ++ c :: r')).
  { intros c r0 r' ->. destruct w2 as [|d w2]; by eapply Hl. }
  assert (Hskip2 : ∀ c r', is_ws c = false → skip_ws (w2 ++ c :: r') = c :: r').
  { intros c r' Hc. rewrite skip_ws_over by done. by apply skip_ws_id. }
  assert (passes "#" (w ++ pre1 ++ w2)) by (repeat apply passes_app; auto using passes_ws).
  assert (passes "=" (w ++ pre1 ++ w2)) by (repeat apply passes_app; auto using passes_ws).
  assert (Hend : r = r2 → match r2 with c :: _ => (c =c ".") = false | [] => True end →
    nm = out ++ (if decide (n = 0%nat) then [] else ["."%char]) ++ seg →
    ∃ pre, w ++ pre1 ++ w2 ++ r2 = pre ++ r ∧ passes "#" pre ∧ passes "=" pre ∧
      ∀ c r0 r' f', r = c :: r0 → (length (pre ++ c :: r') ≤ f')%nat →
        path_loop false f' (pre ++ c :: r') out n = Ok (nm, c :: r')).
  { intros -> Hdot ->. exists (w ++ pre1 ++ w2). split; [by rewrite <-!app_assoc|]. do 2 (split; [done|]).
    intros c r0 r' f' -> Hf'. rewrite path_loop_eq, <-!app_assoc, Hskip. erewrite Hpart by done. cbn.
    rewrite Hskip2 by done. rewrite Hdot. by destruct f'. }
  destruct r2 as [|c r2]; [injection H as <- <-; by apply Hend|].
  destruct (c =c ".") eqn:Hc; [|injection H as <- <-; by apply Hend].
  apply IH in H as (pre3 & Heq & Ph3 & Pe3 & Hl3); [|rewrite !length_app in Hf; cbn in Hf; lia]. subst r2.
  clear Hend. exists (w ++ pre1 ++ w2 ++ c :: pre3). apply Ascii.eqb_eq in Hc as ->.
  assert (Hdot : ∀ stop, (stop = "#" ∨ stop = "=")%char → passes stop ["."%char])
    by (intros stop [-> | ->]; by apply passes_char).
  assert (Happ : ∀ X, (w ++ pre1 ++ w2 ++ "."%char :: pre3) ++ X = w ++ pre1 ++ w2 ++ "."%char :: pre3 ++ X)
    by (intros; by rewrite <-!app_assoc).
  split; [by rewrite Happ|].
  replace (w ++ pre1 ++ w2 ++ "."%char :: pre3) with ((w ++ pre1 ++ w2) ++ ["."%char] ++ pre3)
    by by rewrite <-!app_assoc.
  do 2 (split; [by apply passes_app; [|apply passes_app; [apply Hdot; auto|]]|]).
  intros c r0 r' f' -> Hf'. replace (((w ++ pre1 ++ w2) ++ ["."%char] ++ pre3) ++ c :: r') with
    (w ++ pre1 ++ w2 ++ "."%char :: pre3 ++ c :: r') in Hf' |- * by by rewrite <-!app_assoc.
  rewrite path_loop_eq, Hskip. erewrite Hpart by done. cbn [mbind result_bind]. rewrite Hskip2 by done.
  rewrite !length_app in Hf'. cbn in Hf'. rewrite length_app in Hf'. cbn in Hf'.
  destruct f' as [|f']; [lia|]. rewrite ascii_eqb_refl. eapply Hl3; [done|].
  rewrite length_app. cbn. lia.
Qed.

(** ** Names, and the parts they are written as *)

Fixpoint join_dots (ps : list text) : text :=
  match ps with [] => [] | [p] => p | p :: ps => p ++ "."%char :: join_dots ps end.
Definition no_dot (p : text) : bool := forallb (λ c, negb (c =c ".")) p.

Lemma parts_of_ne s : parts_of s ≠ [].
Proof. destruct s as [|c s]; [done|]. cbn. destruct (c =c "."); [done|]. by destruct (parts_of s). Qed.
Lemma join_parts_of s : join_dots (parts_of s) = s.
Proof.
  induction s as [|c s IH]; [done|]. cbn. pose proof (parts_of_ne s) as Hn.
  destruct (c =c ".") eqn:Hc.
  - apply Ascii.eqb_eq in Hc as ->. destruct (parts_of s); [done|]. by rewrite <-IH.
  - destruct (parts_of s) as [|p ps]; [done|]. rewrite <-IH. by destruct ps.
Qed.
Lemma parts_of_no_dot s : forallb no_dot (parts_of s) = true.
Proof.
  induction s as [|c s IH]; [done|]. cbn. destruct (c =c ".") eqn:Hc; [done|].
  destruct (parts_of s) as [|p ps]; cbn in IH |- *; rewrite Hc; [done|]. exact IH.
Qed.
Lemma parts_of_no_nul s : no_nul s → Forall no_nul (parts_of s).
Proof.
  unfold no_nul. induction 1 as [|c s Hc Hs IH]; cbn; [by repeat constructor|].
  destruct (c =c "."); [by constructor|].
  destruct (parts_of s) as [|p ps]; inversion IH; subst; repeat constructor; done.
Qed.

(** ** Reading a written part *)

Definition stops (table : bool) (r : text) : bool :=
  match r with c :: _ => (c =c ".") || (if table then c =c "]" else negb (is_bare c)) | [] => true end.

Lemma bare_path_part p : bare_path p = true → no_dot p = true →
  p ≠ [] ∧ forallb (λ c, is_bare c && negb (c =c ".")) p = true.
Proof.
  intros H Hd. split; [by intros ->|]. unfold bare_path in H.
  assert (Hb : bare_loop p = true).
  { destruct p; [done|]. destruct (last (a :: p)); [|done]. by apply andb_prop in H as [_ ?]. }
  clear H. induction p as [|c p IH]; [done|]. cbn in Hb, Hd |- *.
  apply andb_prop in Hb as [[Hb _]%andb_prop Hl], Hd as [Hd Hd']. rewrite Hb, Hd. by apply IH.
Qed.

Lemma is_bare_quote c : implb (is_bare c) (negb (c =c "]") && negb (c =c dq)) = true.
Proof. by_char c. Qed.
Lemma bare_run_put table p r : forallb (λ c, is_bare c && negb (c =c ".")) p = true → stops table r = true →
  bare_run table (p ++ r) = (p, r).
Proof.
  intros Hp Hr. induction p as [|c p IH]; cbn.
  - destruct r as [|c r]; [done|]. cbn in Hr |- *. destruct (c =c "."); [done|]. cbn in Hr |- *.
    destruct table; by rewrite Hr.
  - cbn in Hp. apply andb_prop in Hp as [[Hb Hd%negb_true_iff]%andb_prop Hp]. rewrite Hd, (IH Hp). cbn.
    pose proof (is_bare_quote c) as Hc. rewrite Hb in Hc. cbn in Hc. apply andb_prop in Hc as [Hc1%negb_true_iff Hc2%negb_true_iff].
    destruct table; [by rewrite Hc1, Hc2|]. by rewrite Hb.
Qed.

Lemma put_part_starts p r : no_dot p = true → starts_ws (put_part p ++ r) = false.
Proof.
  intros Hd. unfold put_part. destruct (bare_path p) eqn:Hb; [|done].
  apply bare_path_part in Hb as [Hn Hb]; [|done]. destruct p as [|c p]; [done|].
  cbn in Hb |- *. apply andb_prop in Hb as [[Hb _]%andb_prop _]. pose proof (is_bare_plain c) as Hp.
  rewrite Hb in Hp. cbn in Hp. by apply andb_prop in Hp as [_ ?%negb_true_iff].
Qed.

Lemma path_part_put table n p r : no_dot p = true → no_nul p → stops table r = true →
  path_part table n (put_part p ++ r) = Ok (p, r).
Proof.
  intros Hd Hn Hr. unfold put_part. destruct (bare_path p) eqn:Hb.
  - apply bare_path_part in Hb as [Hne Hb]; [|done].
    pose proof (bare_run_put table p r Hb Hr) as Hrun.
    assert (Hends : rtrim p = p).
    { apply rtrim_id. unfold ends_ws. destruct (last p) as [c|] eqn:Hl; [|done].
      apply last_Some_elem_of, list_elem_of_In in Hl. rewrite forallb_forall in Hb. apply Hb in Hl.
      apply andb_prop in Hl as [Hl _]. pose proof (is_bare_plain c) as Hp. rewrite Hl in Hp. cbn in Hp.
      by apply andb_prop in Hp as [_ ?%negb_true_iff]. }
    unfold path_part. rewrite Hrun, Hends. destruct p as [|c p]; [done|]. cbn [app].
    cbn in Hb. apply andb_prop in Hb as [[Hb _]%andb_prop _].
    pose proof (is_bare_quote c) as Hc. rewrite Hb in Hc. cbn in Hc.
    apply andb_prop in Hc as [_ Hc%negb_true_iff]. by rewrite Hc.
  - unfold put_quoted. rewrite <-app_comm_cons, <-app_assoc. cbn [path_part app].
    unfold path_part. rewrite ascii_eqb_refl, close_quote_quoted. by rewrite unescape_quoted.
Qed.

(** A path as it is written, before the rest of its line. *)
Lemma path_loop_put table ps f r out n : ps ≠ [] → forallb no_dot ps = true → Forall no_nul ps →
  stops table r = true → match skip_ws r with c :: _ => (c =c ".") = false | [] => True end →
  (length (put_parts ps ++ r) ≤ f)%nat →
  path_loop table f (put_parts ps ++ r) out n =
    Ok (out ++ (if decide (n = 0%nat) then [] else ["."%char]) ++ join_dots ps, skip_ws r).
Proof.
  intros Hne Hd Hn Hr Hdot. revert f out n.
  induction ps as [|p ps IH]; intros f out n Hf; [done|].
  cbn [forallb] in Hd. apply andb_prop in Hd as [Hp Hd]. inversion Hn as [|? ? Np Nps]; subst.
  destruct ps as [|q ps].
  - cbn [put_parts join_dots] in *. rewrite path_loop_eq, skip_ws_id by by apply put_part_starts.
    rewrite path_part_put by done. cbn [mbind result_bind].
    destruct (skip_ws r) as [|c r']; [done|]. rewrite Hdot. by destruct f.
  - assert (Hput : put_parts (p :: q :: ps) ++ r = put_part p ++ "."%char :: put_parts (q :: ps) ++ r)
      by (cbn [put_parts]; by rewrite <-app_assoc).
    rewrite Hput in Hf |- *. rewrite path_loop_eq, skip_ws_id by by apply put_part_starts.
    rewrite path_part_put by done. cbn [mbind result_bind]. rewrite skip_ws_id by done.
    rewrite length_app in Hf. cbn [length] in Hf. destruct f as [|f]; [lia|]. rewrite ascii_eqb_refl.
    rewrite IH by (done || lia). do 2 f_equal. rewrite <-!app_assoc. by cbn.
Qed.

Definition bare_part (p : text) : bool := forallb (λ c, is_bare c && negb (c =c ".")) p.
Lemma bare_part_path p : p ≠ [] → bare_part p = true → bare_path p = true.
Proof.
  intros Hne Hp. assert (Hl : bare_loop p = true).
  { clear Hne. induction p as [|c p IH]; [done|]. cbn in Hp |- *.
    apply andb_prop in Hp as [[Hb Hd%negb_true_iff]%andb_prop Hp]. rewrite Hb, Hd. by apply IH. }
  unfold bare_path. destruct p as [|c p]; [done|]. destruct (last (c :: p)) as [d|] eqn:Hd.
  - apply last_Some_elem_of, list_elem_of_In in Hd. unfold bare_part in Hp.
    assert (Hin := proj1 (forallb_forall _ _) Hp). rewrite Hl, andb_true_r.
    assert (Hc := Hin c (or_introl eq_refl)). apply Hin in Hd. cbn beta in Hc, Hd.
    apply andb_prop in Hc as [_ ->], Hd as [_ ->]. done.
  - by apply last_None in Hd.
Qed.
Lemma bare_parts k : k ≠ [] → bare_loop k = true →
  match last k with Some d => (d =c ".") = false | None => False end →
  match parts_of k with
  | p :: ps => bare_part p = true ∧ (p = [] → match k with c :: _ => (c =c ".") = true | [] => False end) ∧
               Forall (λ p, p ≠ [] ∧ bare_part p = true) ps
  | [] => False
  end.
Proof.
  induction k as [|c k IH]; [done|]. intros _ Hb Hlast. cbn in Hb.
  apply andb_prop in Hb as [[Hc Hdd]%andb_prop Hb].
  destruct k as [|d k].
  { cbn in Hlast |- *. rewrite Hlast. cbn. by rewrite Hc, Hlast. }
  specialize (IH ltac:(done) Hb Hlast). remember (d :: k) as k' eqn:Hk'. cbn [parts_of].
  destruct (parts_of k') as [|p ps]; [done|]. destruct IH as (Hp & He & Hps). destruct (c =c ".") eqn:Hdot.
  - split; [done|]. split; [done|]. constructor; [|done]. split; [|done]. intros ->.
    specialize (He eq_refl). subst k'. by rewrite He in Hdd.
  - split; [|done]. cbn. by rewrite Hc, Hdot.
Qed.
Lemma bare_path_parts k : bare_path k = true → put_parts (parts_of k) = k.
Proof.
  intros Hb. rewrite <-(join_parts_of k) at 2.
  assert (Hk : k ≠ [] ∧ bare_loop k = true ∧ match last k with Some d => (d =c ".") = false | None => False end
      ∧ match k with c :: _ => (c =c ".") = false | [] => False end).
  { unfold bare_path in Hb. destruct k as [|c k]; [done|]. destruct (last (c :: k)) as [d|]; [|done].
    rewrite !andb_true_iff, !negb_true_iff in Hb. naive_solver. }
  destruct Hk as (Hne & Hl & Hlast & Hf). pose proof (bare_parts k Hne Hl Hlast) as H.
  assert (Hps : Forall (λ p, put_part p = p) (parts_of k)).
  { destruct (parts_of k) as [|p ps]; [done|]. destruct H as (Hp & He & Hps).
    assert (Hgood : ∀ p, p ≠ [] → bare_part p = true → put_part p = p)
      by (intros q Hq Hq'; unfold put_part; by rewrite bare_part_path).
    constructor; [|eapply Forall_impl; [exact Hps|]; intros q [Hq Hq']; by apply Hgood]. apply Hgood; [|done].
    intros ->. specialize (He eq_refl). destruct k; [done|]. congruence. }
  clear -Hps. induction Hps as [|p ps Hp _ IH]; [done|]. cbn. destruct ps; [done|]. by rewrite Hp, IH.
Qed.

End PathFacts.
