(* ===== verification/SaveFacts.v ===== *)
(** * What a save writes reads back

    Values, lines and table headers as the save writes them, read by the parser: a value
    a setting takes is read back as a value it takes, the line of an added setting gives
    its key and its text, and rewriting the value of a line leaves the line's key. *)

From S2P Require Import Prelude Toml TomlParse Settings Save TomlFacts PathFacts.
From Stdlib Require Import Ascii SpecFloat.

Module SaveFacts.
Import Toml TomlParse Settings Save TomlFacts PathFacts.

(** ** Lines *)

(** Text that stands on a line as it is: no white space at its ends, no comment. *)
Record good (x : text) : Prop := Good {
  good_ne : x ≠ []; good_starts : starts_ws x = false; good_ends : ends_ws x = false;
  good_passes : passes "#" x }.

Lemma ends_ws_app x y : y ≠ [] → ends_ws (x ++ y) = ends_ws y.
Proof. intros Hy. unfold ends_ws. rewrite last_app. destruct (last y) eqn:Hl; [done|]. by apply last_None in Hl. Qed.
Lemma starts_ws_app x y : x ≠ [] → starts_ws (x ++ y) = starts_ws x.
Proof. by destruct x. Qed.
Lemma rtrim_app_good x y : x ≠ [] → ends_ws x = false → rtrim (x ++ y) = x ++ rtrim y.
Proof.
  intros Hne He. destruct (rtrim_app y) as (w & Hy & Hw). rewrite Hy at 1. rewrite app_assoc, rtrim_over by done.
  apply rtrim_id. destruct (rtrim y) as [|c q] eqn:Hq; [by rewrite app_nil_r|].
  rewrite ends_ws_app by done. rewrite <-Hq. apply rtrim_ends.
Qed.

Definition comment_or_end (post : text) : Prop := post = [] ∨ ∃ q, post = "#"%char :: q.

Lemma strip_comment_ws w : forallb is_ws w = true → strip_comment false w = w.
Proof.
  intros Hw. rewrite strip_comment_cut, <-(app_nil_r w), (passes_ws "#" w (or_introl eq_refl) Hw). done.
Qed.

Lemma clean_good w1 x w post : forallb is_ws w1 = true → good x → forallb is_ws w = true → comment_or_end post →
  clean (w1 ++ x ++ w ++ post) = x.
Proof.
  intros Hw1 [Hne Hs He Hp] Hw Hpost. unfold clean, trim. rewrite skip_ws_over by done.
  rewrite (skip_ws_id (x ++ _)) by by rewrite starts_ws_app. rewrite rtrim_app_good by done.
  rewrite strip_comment_passes by done. rewrite skip_ws_id by by rewrite starts_ws_app.
  rewrite rtrim_app_good by done.
  assert (Hws : forallb is_ws (strip_comment false (rtrim (w ++ post))) = true).
  { destruct Hpost as [-> | [q ->]].
    - rewrite app_nil_r. by rewrite (proj2 (rtrim_nil w)).
    - assert (Hr : ∃ q', rtrim (w ++ "#"%char :: q) = w ++ "#"%char :: q').
      { induction w as [|c w IH]; cbn [app rtrim].
        - destruct (rtrim q); by eexists.
        - cbn in Hw. apply andb_prop in Hw as [_ Hw]. destruct (IH Hw) as [q' ->].
          exists q'. by destruct w. }
      destruct Hr as [q' ->]. rewrite strip_comment_passes by (apply passes_ws; auto). cbn.
      by rewrite app_nil_r. }
  apply rtrim_nil in Hws. by rewrite Hws, app_nil_r.
Qed.

Lemma cut_spec stop b x : x = (cut stop b x).1 ++ (cut stop b x).2 ∧
  ((cut stop b x).2 = [] ∨ ∃ q, (cut stop b x).2 = stop :: q).
Proof.
  revert b. induction x as [x IH] using (induction_ltof1 _ (@length _)). intros b.
  destruct x as [|c x]; [by split; [|left]|]. cbn [cut].
  assert (H1 : ∀ b', c :: x = (let '(a, r) := cut stop b' x in (c :: a, r)).1 ++ (let '(a, r) := cut stop b' x in (c :: a, r)).2
     ∧ ((let '(a, r) := cut stop b' x in (c :: a, r)).2 = [] ∨
        ∃ q, (let '(a, r) := cut stop b' x in (c :: a, r)).2 = stop :: q)).
  { intros b'. destruct (IH x ltac:(unfold ltof; cbn; lia) b') as [Hx Hr]. destruct (cut stop b' x) as [a r].
    cbn in *. by rewrite Hx at 1. }
  destruct (b && (c =c bs)) eqn:Hb; [destruct x as [|d x]|].
  - destruct (_ && (c =c stop)) eqn:Hs; [|apply H1].
    apply andb_prop in Hs as [_ Hs%Ascii.eqb_eq]. subst. cbn. split; [done|]. right. by eexists.
  - destruct (IH x ltac:(unfold ltof; cbn; lia) b) as [Hx Hr]. apply andb_prop in Hb as [-> _].
    destruct (cut stop true x) as [a r]. cbn in *. by rewrite Hx at 1.
  - destruct (negb b && (c =c stop)) eqn:Hs.
    + apply andb_prop in Hs as [_ Hs%Ascii.eqb_eq]. subst. cbn. split; [done|]. right. by eexists.
    + destruct x; apply H1.
Qed.

Lemma cut_cons stop b c l : b && (c =c bs) = false ∨ l = [] →
  cut stop b (c :: l) = if negb b && (c =c stop) then ([], c :: l)
    else (c :: (cut stop (if c =c dq then negb b else b) l).1, (cut stop (if c =c dq then negb b else b) l).2).
Proof.
  intros H. cbn [cut]. destruct (negb b && (c =c stop)) eqn:Hs.
  - destruct (b && (c =c bs)); [|by destruct l]. by destruct H as [H | ->].
  - destruct (b && (c =c bs)); [by destruct H as [H | ->]|]. by destruct l, (cut _ _ _).
Qed.
Lemma cut_esc stop d l : cut stop true (bs :: d :: l) = (bs :: d :: (cut stop true l).1, (cut stop true l).2).
Proof. cbn. by destruct (cut stop true l). Qed.

Lemma cut_all_ws b w : forallb is_ws w = true → cut "#" b w = (w, []).
Proof.
  revert b. induction w as [|c w IH]; [done|]. intros b Hw. cbn in Hw. apply andb_prop in Hw as [Hc Hw].
  pose proof (is_ws_plain c) as Hp. rewrite Hc in Hp. cbn in Hp. unfold plain in Hp.
  rewrite !andb_true_iff, !negb_true_iff in Hp. destruct Hp as [[[Hp1 Hp2] Hp3] _].
  rewrite cut_cons by (rewrite Hp2, andb_false_r; auto). rewrite Hp3, andb_false_r, Hp1, IH; done.
Qed.

(** White space at the end does not move the cut. *)
Definition then_ws (w : text) (p : text * text) : text * text :=
  match p.2 with [] => (p.1 ++ w, []) | r => (p.1, r ++ w) end.
Lemma then_ws_cons w c p : then_ws w (c :: p.1, p.2) = (c :: (then_ws w p).1, (then_ws w p).2).
Proof. destruct p as [a [|d r]]; done. Qed.
Lemma cut_ws b x w : forallb is_ws w = true → cut "#" b (x ++ w) = then_ws w (cut "#" b x).
Proof.
  intros Hw. revert b. induction x as [x IH] using (induction_ltof1 _ (@length _)). intros b.
  destruct x as [|c x]; [by apply cut_all_ws|].
  destruct (decide (b && (c =c bs) = false)) as [Hb|Hb].
  - rewrite <-app_comm_cons, !cut_cons by auto. destruct (negb b && (c =c "#")); [done|].
    by rewrite IH, then_ws_cons by (unfold ltof; cbn; lia).
  - apply not_false_is_true, andb_prop in Hb as [-> Hc%Ascii.eqb_eq]. subst c. destruct x as [|d x].
    + change ([bs] ++ w) with (bs :: w). destruct w as [|d w]; [done|].
      rewrite cut_esc, cut_all_ws; [done|]. by apply andb_prop in Hw as [_ ?].
    + rewrite <-!app_comm_cons, !cut_esc, IH by (unfold ltof; cbn; lia).
      by destruct (cut "#" true x) as [a [|e r]].
Qed.

Lemma forallb_ws_app w1 w2 : forallb is_ws w1 = true → forallb is_ws w2 = true → forallb is_ws (w1 ++ w2) = true.
Proof. intros. by rewrite forallb_app; apply andb_true_intro. Qed.

(** What [clean] leaves, and where it stands on the line. *)
Lemma clean_spec l : clean l ≠ [] →
  ∃ w1 w post, l = w1 ++ clean l ++ w ++ post ∧ forallb is_ws w1 = true ∧ forallb is_ws w = true ∧
    comment_or_end post ∧ starts_ws (clean l) = false ∧ ends_ws (clean l) = false ∧
    cut "#" false (clean l ++ w ++ post) = (clean l ++ w, post).
Proof.
  unfold clean, trim. destruct (skip_ws_app l) as (w1 & Hl & Hw1). pose proof (skip_ws_starts l) as Hs1.
  set (l1 := skip_ws l) in *. clearbody l1. subst l.
  destruct (rtrim_app l1) as (w2 & Hl & Hw2). pose proof (rtrim_starts _ Hs1) as Hs2.
  set (m := rtrim l1) in *. clearbody m. subst l1.
  rewrite strip_comment_cut. destruct (cut_spec "#" false m) as [Hm Hpost].
  pose proof (cut_ws false m w2 Hw2) as Hcut. destruct (cut "#" false m) as [s post] eqn:Hc. cbn [fst snd] in *.
  intros Hne. assert (Hs : starts_ws s = false) by (subst m; by destruct s).
  rewrite (skip_ws_id s Hs) in *. destruct (rtrim_app s) as (w3 & Hsw & Hw3). pose proof (rtrim_starts _ Hs) as Hs3.
  pose proof (rtrim_ends s) as He. set (x := rtrim s) in *. clearbody x. subst s m. unfold then_ws in Hcut. cbn in Hcut.
  destruct Hpost as [-> | [q ->]].
  - exists w1, (w3 ++ w2), []. rewrite !app_nil_r in *.
    split_and!; try done; [by rewrite <-!app_assoc|by apply forallb_ws_app|by left|].
    by rewrite <-!app_assoc in Hcut.
  - exists w1, w3, (("#"%char :: q) ++ w2). split_and!; try done; [by rewrite <-!app_assoc|right; by eexists|].
    by rewrite <-!app_assoc in Hcut.
Qed.

(** ** Added lines *)

Lemma trim_good x : good x → trim x = x.
Proof. intros [_ Hs He _]. unfold trim. by rewrite skip_ws_id, rtrim_id. Qed.

Lemma put_key_bare k : bare_path k = true → ∃ c k', k = c :: k' ∧ is_bare c = true ∧ forallb is_bare k = true.
Proof.
  intros H. unfold bare_path in H. destruct k as [|c k]; [done|].
  destruct (last (c :: k)); [|done]. apply andb_prop in H as [_ H].
  assert (Hall : forallb is_bare (c :: k) = true).
  { revert H. generalize (c :: k). intros l. induction l as [|d l IH]; [done|]. cbn.
    intros [[-> _]%andb_prop Hl]%andb_prop. by apply IH. }
  exists c, k. split; [done|]. split; [|done]. by apply andb_prop in Hall as [? _].
Qed.
Lemma is_bare_start c : implb (is_bare c) (negb (is_ws c) && negb (c =c "[") && negb (c =c dq)) = true.
Proof. by_char c. Qed.
Lemma put_key_starts k : ∃ c k', put_key k = c :: k' ∧ is_ws c = false ∧ (c =c "[") = false.
Proof.
  unfold put_key. destruct (bare_path k) eqn:Hb; [|by do 2 eexists].
  apply put_key_bare in Hb as (c & k' & -> & Hc & _). exists c, k'. split; [done|].
  pose proof (is_bare_start c) as H. rewrite Hc in H. cbn in H. rewrite !andb_true_iff, !negb_true_iff in H.
  naive_solver.
Qed.
Lemma put_key_passes k : passes "#" (put_key k).
Proof.
  unfold put_key. destruct (bare_path k) eqn:Hb; [|by apply passes_put_quoted].
  apply put_key_bare in Hb as (_ & _ & _ & _ & Hk). apply bare_passes; auto.
Qed.
Lemma parse_path_key k v : no_nul k → parse_path (put_key k ++ str " = " ++ v) false = Ok (k, "="%char :: " "%char :: v).
Proof.
  intros Hn. unfold parse_path, put_key. destruct (bare_path k) eqn:Hb.
  - rewrite <-(bare_path_parts k Hb) at 1 2. rewrite path_loop_put; try done.
    + by rewrite join_parts_of.
    + apply parts_of_ne.
    + apply parts_of_no_dot.
    + by apply parts_of_no_nul.
  - rewrite path_loop_eq. unfold put_quoted. cbn [app skip_ws].
    change (is_ws dq) with false. cbn [path_part]. rewrite ascii_eqb_refl, <-app_assoc. cbn [app].
    rewrite close_quote_quoted, unescape_quoted by done. cbn. by destruct (length _).
Qed.

(** The line of an added setting, in the table it is put in. *)
(** A line of the save is read as it stands. *)
Lemma clean_id x : good x → clean x = x.
Proof. intros H. pose proof (clean_good [] x [] [] eq_refl H eq_refl (or_introl eq_refl)) as Hcl. by rewrite !app_nil_r in Hcl. Qed.
Lemma added_good k v : good v → good (put_key k ++ str " = " ++ v).
Proof.
  intros [Hne Hs He Hp]. destruct (put_key_starts k) as (c & k' & Hput & Hc & _).
  split; [by rewrite Hput|by rewrite Hput|by rewrite !ends_ws_app|].
  apply passes_app; [apply put_key_passes|]. apply passes_app; [by apply passes_forall|done].
Qed.
Lemma parse_added t sec k v val tx ln : no_nul k → good v → scan_value v = Ok (val, tx) →
  find_dotted t (dotted_of sec k) = None →
  parse_line t (clean (put_key k ++ str " = " ++ v)) ln sec =
    Ok (t <| TomlParse.e ::= λ es, es ++ [Entry sec k tx val ln false false] |>, sec).
Proof.
  intros Hk Hv Hval Hf. destruct (put_key_starts k) as (c & k' & Hput & Hc & Hc').
  rewrite (clean_id _ (added_good k v Hv)). unfold parse_line.
  rewrite parse_path_key by done. rewrite Hput. cbn [app]. rewrite Hc'. cbn [mbind result_bind].
  assert (Ht : trim ("="%char :: " "%char :: v) = "="%char :: " "%char :: v).
  { destruct Hv as [Hne Hs He Hp]. apply trim_good. split; [done|done| |].
    - change ("="%char :: " "%char :: v) with (str "= " ++ v). by rewrite ends_ws_app.
    - change ("="%char :: " "%char :: v) with (str "= " ++ v). by apply passes_app; [apply passes_forall|]. }
  rewrite Ht, ascii_eqb_refl. unfold parse_value, parse_dotted_value.
  assert (Ht' : trim (" "%char :: v) = v) by (change (trim v = v); by apply trim_good). rewrite Ht', Hf. destruct v; [by destruct Hv|].
  by rewrite Hval.
Qed.

(** A table line gives its name. *)
Lemma put_parts_passes ps : passes "#" (put_parts ps).
Proof.
  induction ps as [|p ps IH]; [apply passes_nil|]. cbn [put_parts].
  assert (Hp : passes "#" (put_part p)) by apply put_key_passes.
  destruct ps; [done|]. apply passes_app; [done|]. apply (passes_app _ ["."%char]); [by apply passes_char|done].
Qed.
Lemma removelast_table name : removelast (put_table name) = "["%char :: put_parts (parts_of name) ++ ["]"%char].
Proof.
  unfold put_table. replace (put_parts (parts_of name) ++ ["]"%char; nl]) with
    ((put_parts (parts_of name) ++ ["]"%char]) ++ [nl]) by by rewrite <-app_assoc.
  rewrite app_comm_cons. apply removelast_last.
Qed.
Lemma table_good name : good ("["%char :: put_parts (parts_of name) ++ ["]"%char]).
Proof.
  split; [done|done|by apply (ends_ws_app ("["%char :: put_parts (parts_of name)))|].
  apply (passes_app _ ["["%char]); [by apply passes_char|]. apply passes_app; [apply put_parts_passes|by apply passes_char].
Qed.
Lemma parse_table t sec name ln : no_nul name → name ≠ [] → (length name < seccap)%nat →
  parse_line t (clean (removelast (put_table name))) ln sec = Ok (t <| tb ::= λ l, l ++ [(ln, name)] |>, name).
Proof.
  intros Hn Hne Hl. rewrite removelast_table, (clean_id _ (table_good name)). set (L := "["%char :: put_parts (parts_of name) ++ ["]"%char]). unfold parse_line, L. cbn [mbind result_bind].
  assert (Hhd : match put_parts (parts_of name) ++ ["]"%char] with c :: _ => c =c "[" | [] => false end = false).
  { pose proof (parts_of_no_dot name) as Hd. pose proof (parts_of_ne name) as Hp.
    destruct (parts_of name) as [|p ps]; [done|]. cbn in Hd. apply andb_prop in Hd as [Hd _].
    destruct (put_key_starts p) as (c & k' & Hput & _ & Hc). cbn [put_parts]. unfold put_part. fold (put_key p).
    destruct ps; by rewrite Hput. }
  assert (Hpath : parse_path (put_parts (parts_of name) ++ ["]"%char]) true = Ok (name, ["]"%char])).
  { unfold parse_path. rewrite path_loop_put; try done.
    - by rewrite join_parts_of.
    - apply parts_of_ne.
    - apply parts_of_no_dot.
    - by apply parts_of_no_nul. }
  rewrite Hpath, Hhd. cbn [mbind result_bind]. change (trim []) with (@nil ascii).
  destruct (Nat.leb_spec seccap (length name)) as [Hb|Hb]; [lia|]. by destruct name.
Qed.

End SaveFacts.
