(* ===== verification/ValueFacts.v ===== *)
(** * Values as the save writes them, and lines rewritten in place

    A value its setting takes is written as text the parser reads back to a value the
    setting takes; and the span [value_span] finds is the one the parser reads, so a line
    rewritten there keeps its key, its spacing and its comment. *)

From S2P Require Import Prelude Toml TomlParse Settings Save TomlFacts PathFacts SaveFacts.
From Stdlib Require Import Ascii SpecFloat.

Module ValueFacts.
Import Toml TomlParse Settings Save TomlFacts PathFacts SaveFacts.

(** ** Numbers *)

Definition num_char (c : ascii) : bool :=
  is_digit c || (c =c "+") || (c =c "-") || (c =c ".") || (c =c "e") || (c =c "E").
Definition num_start (v : text) : bool :=
  match v with c :: _ => is_digit c || (c =c "-") || (c =c "+") || (c =c ".") | [] => false end.

Lemma digits_spec p d r : digits p = (d, r) → p = d ++ r ∧ forallb is_digit d = true.
Proof.
  revert d r. induction p as [|c p IH]; intros d r; cbn; [by intros [= <- <-]|].
  destruct (is_digit c) eqn:Hc; [|by intros [= <- <-]]. destruct (digits p) as [d' r'] eqn:Hp.
  intros [= <- <-]. destruct (IH _ _ eq_refl) as [-> Hd]. cbn. by rewrite Hc.
Qed.
Lemma digits_app d r : forallb is_digit d = true → match r with c :: _ => is_digit c = false | [] => True end →
  digits (d ++ r) = (d, r).
Proof.
  intros Hd Hr. induction d as [|c d IH]; cbn.
  - destruct r as [|c r]; [done|]. cbn. by rewrite Hr.
  - cbn in Hd. apply andb_prop in Hd as [-> Hd]. by rewrite IH.
Qed.
Lemma skip_sign_app v : ∃ s, v = s ++ skip_sign v ∧ forallb num_char s = true ∧
  (s = [] ∨ ∃ c, s = [c] ∧ (c =c "+") || (c =c "-") = true).
Proof.
  destruct v as [|c v]; [by exists nil; auto|]. cbn. destruct (_ || _) eqn:Hc; [|by exists nil; auto].
  exists [c]. split; [done|]. split; [|right; by exists c].
  cbn. unfold num_char. destruct (c =c "+"), (c =c "-"); try done; by rewrite ?orb_true_r.
Qed.
Lemma digits_num d : forallb is_digit d = true → forallb num_char d = true.
Proof.
  intros H. rewrite forallb_forall in H |- *. intros c Hc. unfold num_char. by rewrite (H c Hc).
Qed.

Lemma plain_number_chars v w : plain_number v w = true → forallb num_char v = true ∧ num_start v = true.
Proof.
  unfold plain_number. destruct (skip_sign_app v) as (s & Hv & Hs & Hs').
  set (p := skip_sign v) in *. clearbody p. subst v. destruct (digits p) as [d1 p1] eqn:H1.
  apply digits_spec in H1 as [-> Hd1].
  set (fr := match p1 with c :: p' => if negb w && (c =c ".") then digits p' else ([], p1) | [] => ([], []) end).
  assert (Hfr : ∃ dot, p1 = dot ++ fr.1 ++ fr.2 ∧ forallb num_char dot = true ∧ forallb is_digit fr.1 = true ∧
    (fr.1 ≠ [] → num_start (dot ++ fr.1 ++ fr.2) = true)).
  { unfold fr. destruct p1 as [|c p']; [by exists nil|]. destruct (negb w && (c =c ".")) eqn:Hc; [|by exists nil].
    apply andb_prop in Hc as [_ Hc%Ascii.eqb_eq]. subst. destruct (digits p') as [d2 p2] eqn:H2.
    apply digits_spec in H2 as [-> Hd2]. by exists ["."%char]. }
  fold fr.
  clearbody fr. destruct fr as [d2 p2]. destruct Hfr as (dot & -> & Hdot & Hd2 & Hst). cbn [fst snd] in *.
  intros Hn. assert (Hd : d1 ++ d2 ≠ []) by by intros E; rewrite E in Hn.
  assert (Hp2 : forallb num_char p2 = true).
  { destruct (d1 ++ d2); [done|]. destruct p2 as [|c p']; [done|].
    destruct (negb w && _) eqn:Hc; [|done]. apply andb_prop in Hc as [_ Hc].
    destruct (skip_sign_app p') as (s2 & Hp' & Hs2 & _). set (q := skip_sign p') in *. clearbody q. subst p'.
    destruct (digits q) as [[|x d3] r] eqn:H3; [done|]. apply bool_decide_eq_true in Hn as ->.
    apply digits_spec in H3 as [-> Hd3]. cbn [forallb]. rewrite !forallb_app, Hs2, (digits_num _ Hd3).
    unfold num_char at 1. apply orb_prop in Hc as [-> | ->]; by rewrite ?orb_true_r. }
  split; [by rewrite !forallb_app, Hs, Hdot, Hp2, (digits_num _ Hd1), (digits_num _ Hd2)|].
  destruct Hs' as [-> | (c & -> & Hc)].
  - destruct d1 as [|c d1]; cbn in Hd1 |- *; [by apply Hst|]. by apply andb_prop in Hd1 as [-> _].
  - cbn. apply orb_prop in Hc as [-> | ->]; by rewrite ?orb_true_r.
Qed.

Lemma num_char_plain c : implb (num_char c) (negb (c =c dq) && negb (c =c "#") && negb (is_ws c)) = true.
Proof. by_char c. Qed.
Lemma good_chars v : v ≠ [] → forallb (λ c, negb (c =c dq) && negb (c =c "#") && negb (is_ws c)) v = true → good v.
Proof.
  intros Hne H. rewrite forallb_forall in H. split; [done| | |].
  - destruct v as [|c v]; [done|]. cbn. specialize (H c (or_introl eq_refl)).
    by apply andb_prop in H as [_ H%negb_true_iff].
  - unfold ends_ws. destruct (last v) as [c|] eqn:Hl; [|done]. apply last_Some_elem_of, list_elem_of_In in Hl.
    apply H, andb_prop in Hl as [_ Hl]. by apply negb_true_iff.
  - apply passes_forall, forallb_forall. intros c Hc. by apply H, andb_prop in Hc as [-> _].
Qed.
Lemma plain_number_good v w : plain_number v w = true → good v.
Proof.
  intros [Hc Hs]%plain_number_chars. apply good_chars; [by intros ->|].
  rewrite forallb_forall in Hc |- *. intros c Hin. pose proof (num_char_plain c) as H. by rewrite Hc in H.
Qed.
Lemma num_start_char c : implb (is_digit c || (c =c "-") || (c =c "+") || (c =c "."))
  (negb (c =c dq) && negb (c =c "[") && negb (c =c "t") && negb (c =c "f")) = true.
Proof. by_char c. Qed.
Lemma scan_number v w : plain_number v w = true → scan_value v = (x ← number v; Ok (x, Some v)).
Proof.
  intros [_ Hs]%plain_number_chars. destruct v as [|c v]; [done|]. cbn [num_start] in Hs.
  pose proof (num_start_char c) as H. rewrite Hs in H. cbn in H. rewrite !andb_true_iff, !negb_true_iff in H.
  destruct H as [[[Hq Hb] Ht] Hf]. unfold scan_value. rewrite Hq, Hb.
  destruct (decide (c :: v = str "true")) as [[= -> _]|_]; [done|].
  destruct (decide (c :: v = str "false")) as [[= -> _]|_]; [done|]. by rewrite Hs.
Qed.

(** A whole number: a sign and digits. *)
Lemma whole_number v : plain_number v true = true →
  ∃ s d, v = s ++ d ∧ d ≠ [] ∧ forallb is_digit d = true ∧ (s = [] ∨ ∃ c, s = [c] ∧ (c =c "+") || (c =c "-") = true).
Proof.
  unfold plain_number. destruct (skip_sign_app v) as (s & Hv & _ & Hs). set (p := skip_sign v) in *. clearbody p.
  subst v. destruct (digits p) as [d r] eqn:Hd. apply digits_spec in Hd as [-> Hd]. cbn [negb andb].
  intros H. exists s, d. destruct r as [|c r]; cbn in H; rewrite app_nil_r in *; destruct d; done.
Qed.
Lemma skip_sign_digits s d r : d ≠ [] → forallb is_digit d = true →
  (s = [] ∨ ∃ c, s = [c] ∧ (c =c "+") || (c =c "-") = true) → skip_sign (s ++ d ++ r) = d ++ r.
Proof.
  intros Hne Hd [-> | (c & -> & Hc)]; [|cbn; by rewrite Hc].
  destruct d as [|c d]; [done|]. cbn in Hd |- *. apply andb_prop in Hd as [Hc _].
  assert (H : implb (is_digit c) (negb ((c =c "+") || (c =c "-"))) = true) by (clear; by_char c).
  rewrite Hc in H. apply negb_true_iff in H. by rewrite H.
Qed.

Lemma nearest_point_zero (n : bool) m :
  nearest n (if n then - (m * 10) else m * 10) (-1) = nearest n (if n then - m else m) 0.
Proof.
  unfold nearest. change (10 ^ - -1) with 10. change (10 ^ 0) with 1. rewrite Z.mul_1_r.
  replace (if n then - (m * 10) else m * 10) with ((if n then - m else m) * 10) by (destruct n; lia).
  set (k := if n then - m else m). clearbody k. rewrite Z.div_mul, Z.eqb_refl by lia.
  by destruct (Z.eqb_spec (k * 10) 0), (Z.eqb_spec k 0); try lia.
Qed.

(** Writing a whole number as a float changes its text, not its value. *)
Lemma point_zero v : plain_number v true = true →
  plain_number (v ++ str ".0") true = false ∧ plain_number (v ++ str ".0") false = true ∧
  strtod (v ++ str ".0") = strtod v.
Proof.
  intros H. destruct (whole_number v H) as (s & d & -> & Hne & Hd & Hs). rewrite <-app_assoc.
  pose proof (skip_sign_digits s d (str ".0") Hne Hd Hs) as Hskip.
  pose proof (skip_sign_digits s d [] Hne Hd Hs) as Hskip0. rewrite !app_nil_r in Hskip0.
  assert (Hdig : digits (d ++ str ".0") = (d, str ".0")) by by apply digits_app.
  assert (Hdig0 : digits d = (d, [])) by (rewrite <-(app_nil_r d) at 1; by apply digits_app).
  split_and!.
  - unfold plain_number. rewrite Hskip, Hdig. cbn. rewrite app_nil_r. by destruct d.
  - unfold plain_number. rewrite Hskip, Hdig. cbn. by destruct d.
  - assert (Hneg : negative (s ++ d ++ str ".0") = negative (s ++ d)) by (destruct s; [by destruct d|done]).
    assert (Hdec : decimal (d ++ str "0") = decimal d * 10)
      by (unfold decimal; rewrite foldl_app; cbn -[Z.mul]; by rewrite Z.add_0_r).
    assert (Hv0 : decimal_value (s ++ d) = (if negative (s ++ d) then - decimal d else decimal d, 0)).
    { unfold decimal_value. rewrite Hskip0, Hdig0. by rewrite app_nil_r. }
    assert (Hv : decimal_value (s ++ d ++ str ".0") =
      (if negative (s ++ d) then - (decimal d * 10) else decimal d * 10, -1)).
    { unfold decimal_value. rewrite Hskip, Hdig, Hneg, <-Hdec. done. }
    unfold strtod. rewrite Hv, Hv0, Hneg. apply (nearest_point_zero (negative (s ++ d)) (decimal d)).
Qed.

(** ** Values *)

Lemma put_quoted_good s : good (put_quoted s).
Proof.
  split; [done|done|by apply (ends_ws_app (dq :: concat (map quoted_char s)))|by apply passes_put_quoted].
Qed.
Lemma scan_quoted s : no_nul s → scan_value (put_quoted s) = Ok (TT_STR, Some s).
Proof.
  intros Hs. unfold put_quoted, scan_value. by rewrite ascii_eqb_refl, close_quote_quoted, unescape_quoted.
Qed.

(** The value a setting takes, as the save writes it. *)
Definition reads_back {W} (e : setting W) (v v' : text) : Prop :=
  good (put_text (s_type e) v) ∧ valid_value e v' = true ∧
  ∃ val, scan_value (put_text (s_type e) v) = Ok (val, Some v').

Lemma reads_back_string {W} (e : setting W) v : put_text (s_type e) v = put_quoted v → no_nul v →
  valid_value e v = true → reads_back e v v.
Proof.
  intros He Hn Hv. split_and!; [rewrite He; apply put_quoted_good|done|]. rewrite He, scan_quoted by done. by eexists.
Qed.
Lemma reads_back_number {W} (e : setting W) v w x : put_text (s_type e) v = v → plain_number v w = true →
  number v = Ok x → valid_value e v = true → reads_back e v v.
Proof.
  intros He Hp Hx Hv. split_and!; [rewrite He; by eapply plain_number_good|done|].
  rewrite He, (scan_number _ _ Hp), Hx. by eexists.
Qed.
Lemma number_whole v : plain_number v true = true →
  (if negative v then (strtoll v).2 else (strtoull v).2) = false → ∃ x, number v = Ok x.
Proof.
  intros Hp Ho. unfold number. rewrite Hp. destruct (strtoll v) as [i r] eqn:Hi. cbn in Ho.
  destruct r; [|by eexists]. destruct (negative v); [done|]. rewrite Ho. by eexists.
Qed.

Lemma put_text_reads_back {W} (e : setting W) v : no_nul v → valid_value e v = true →
  ∃ v', reads_back e v v' ∧ (v' = v ∨ s_type e = SET_DOUBLE ∧ strtod v' = strtod v).
Proof.
  intros Hn Hv. pose proof Hv as Hval. unfold valid_value in Hv. destruct (s_type e) eqn:Ht.
  - apply andb_prop in Hv as [Hp Hv]. exists v. split; [|by left].
    destruct (number_whole v Hp) as [x Hx]; [|by eapply reads_back_number; [rewrite Ht| | |]].
    destruct (strtoll v) as [i r] eqn:Hi. destruct r; [done|]. destruct (negative v) eqn:Hneg; [done|].
    unfold strtoll in Hi. unfold strtoull. repeat case_match; try done. all: simplify_eq.
    unfold LLONG_MAX, LLONG_MIN, ULLONG_MAX in *. lia.
  - rewrite !andb_true_iff in Hv. destruct Hv as [[Hp Hneg%negb_true_iff] Hv]. exists v. split; [|by left].
    destruct (number_whole v Hp) as [x Hx]; [|by eapply reads_back_number; [rewrite Ht| | |]].
    rewrite Hneg. by destruct (strtoull v) as [i []].
  - destruct (plain_number v true && (if negative v then (strtoll v).2 else (strtoull v).2)) eqn:Hover.
    + exists (v ++ str ".0"). apply andb_prop in Hover as [Hp Ho].
      destruct (point_zero v Hp) as (Hp1 & Hp2 & Hd). split; [|by right].
      assert (Hput : put_text (s_type e) v = v ++ str ".0") by (rewrite Ht; cbn; by rewrite Hp, Ho).
      assert (Hfin : not_finite (strtod v) = false ∧ out_of_range e (strtod v) = false).
      { apply andb_prop in Hv as [_ Hv]. cbn in Hv. rewrite andb_true_iff, !negb_true_iff in Hv. done. }
      split_and!.
      * rewrite Hput. by eapply plain_number_good.
      * unfold valid_value. rewrite Ht, Hp2, Hd. by destruct Hfin as [-> ->].
      * rewrite Hput, (scan_number _ _ Hp2). unfold number. rewrite Hp1, Hp2, Hd.
        destruct Hfin as [-> _]. by eexists.
    + exists v. split; [|by left]. apply andb_prop in Hv as [Hp Hv].
      assert (Hput : put_text (s_type e) v = v) by (rewrite Ht; cbn; by rewrite Hover, app_nil_r).
      destruct (plain_number v true) eqn:Hw.
      * destruct (number_whole v Hw Hover) as [x Hx]. by eapply reads_back_number.
      * eapply reads_back_number; [done|done| |done]. unfold number. rewrite Hw, Hp. cbn in Hv.
        apply andb_prop in Hv as [Hv%negb_true_iff _]. by rewrite Hv.
  - exists v. split; [|by left]. unfold reads_back. rewrite Ht. cbn [put_text].
    apply orb_prop in Hv as [->%bool_decide_eq_true | ->%bool_decide_eq_true];
      (split_and!; [by apply good_chars|done|by eexists]).
  - exists v. split; [|by left]. apply reads_back_string; [by rewrite Ht|done|done].
  - exists v. split; [|by left]. apply reads_back_string; [by rewrite Ht|done|done].
Qed.

(** ** Rewriting a line *)

Lemma trim_starts x : starts_ws x = false → trim x = rtrim x.
Proof. intros H. unfold trim. by rewrite skip_ws_id. Qed.

Lemma path_loop_starts table f p out n nm r : path_loop table f p out n = Ok (nm, r) → starts_ws r = false.
Proof.
  revert p out n. induction f as [|f IH]; intros p out n; rewrite path_loop_eq;
    (destruct (path_part table n (skip_ws p)) as [[seg r1]|]; [|done]); cbn [mbind result_bind];
    pose proof (skip_ws_starts r1) as Hs; destruct (skip_ws r1) as [|c r2]; try by intros [= _ <-].
  destruct (c =c "."); [apply IH|by intros [= _ <-]].
Qed.

(** A key = value line, taken apart: up to the sign, the space after it, the value. *)
Lemma entry_line t raw ln sec t' sec' : is_header raw = false → starts_ws raw = false → ends_ws raw = false →
  parse_line t raw ln sec = Ok (t', sec') →
  ∃ k pre w v val tx, raw = pre ++ "="%char :: w ++ v ∧ forallb is_ws w = true ∧ v ≠ [] ∧
    starts_ws v = false ∧ ends_ws v = false ∧ passes "#" pre ∧ passes "=" pre ∧
    scan_value v = Ok (val, tx) ∧ find_dotted t (dotted_of sec k) = None ∧ sec' = sec ∧
    t' = t <| TomlParse.e ::= λ es, es ++ [Entry sec k tx val ln false false] |> ∧
    ∀ u, parse_path (pre ++ "="%char :: u) false = Ok (k, "="%char :: u).
Proof.
  intros Hh Hs He H. unfold parse_line in H.
  assert (Hpair : ('(k, p) ← parse_path raw false;
    match trim p with
    | c :: rest => if c =c "=" then t' ← parse_value t sec k rest ln; Ok (t', sec) else Err Expected_equals
    | [] => Err Expected_equals
    end) = Ok (t', sec')).
  { destruct raw as [|c raw]; [done|]. cbn [is_header] in Hh. by rewrite Hh in H. }
  clear H. destruct (parse_path raw false) as [[k p]|] eqn:Hp; [|done]. cbn [mbind result_bind] in Hpair.
  unfold parse_path in Hp. destruct (path_loop_local _ _ _ _ _ _ Hp ltac:(done)) as (pre & Hraw & Hph & Hpe & Hl).
  assert (Hps : starts_ws p = false).
  { by eapply path_loop_starts. }
  rewrite trim_starts in Hpair by done.
  assert (Hpr : rtrim p = p).
  { apply rtrim_id. destruct p as [|c p]; [done|]. by rewrite Hraw, ends_ws_app in He. }
  rewrite Hpr in Hpair. destruct p as [|c rest]; [done|]. destruct (c =c "=") eqn:Hc; [|done].
  apply Ascii.eqb_eq in Hc as ->. unfold parse_value, parse_dotted_value in Hpair.
  destruct (skip_ws_app rest) as (w & Hrest & Hw). pose proof (skip_ws_starts rest) as Hvs.
  assert (Hv : trim rest = skip_ws rest).
  { unfold trim. apply rtrim_id. destruct (skip_ws rest) as [|c v] eqn:Hsk; [done|]. rewrite Hraw, Hrest in He.
    rewrite ends_ws_app in He by done. rewrite app_comm_cons, ends_ws_app in He by done. done. }
  rewrite Hv in Hpair. set (v := skip_ws rest) in *. clearbody v. clear Hv. subst rest.
  destruct v as [|c v]; [done|]. destruct (find_dotted t (dotted_of sec k)) eqn:Hf; [done|].
  destruct (scan_value (c :: v)) as [[val tx]|] eqn:Hval; [|done]. cbn in Hpair. injection Hpair as <- <-.
  exists k, pre, w, (c :: v), val, tx. split_and!; try done.
  - rewrite Hraw, ends_ws_app in He by done. rewrite app_comm_cons, ends_ws_app in He by done. done.
  - intros u. unfold parse_path. by eapply Hl.
Qed.

(** The span of the value of an entry line, and the line with another value there. *)
Lemma rewritten_line t l ln sec t' sec' : is_header (clean l) = false →
  parse_line t (clean l) ln sec = Ok (t', sec') →
  let '(pre, old, post) := value_span l in
  l = pre ++ old ++ post ∧
  ∃ k val tx, scan_value old = Ok (val, tx) ∧
    t' = t <| TomlParse.e ::= λ es, es ++ [Entry sec k tx val ln false false] |> ∧
    ∀ v val' tx', good v → scan_value v = Ok (val', tx') →
      is_header (clean (pre ++ v ++ post)) = false ∧
      parse_line t (clean (pre ++ v ++ post)) ln sec =
        Ok (t <| TomlParse.e ::= λ es, es ++ [Entry sec k tx' val' ln false false] |>, sec).
Proof.
  intros Hh H. assert (Hne : clean l ≠ []) by by intros E; rewrite E in H.
  destruct (clean_spec l Hne) as (w1 & w & post & Hl & Hw1 & Hw & Hpost & Hs & He & Hcut).
  destruct (entry_line _ _ _ _ _ _ Hh Hs He H)
    as (k & pre & w2 & v & val & tx & Hraw & Hw2 & Hvne & Hvs & Hve & Hph & Hpe & Hval & Hf & -> & -> & Hpath).
  set (raw := clean l) in *. clearbody raw. subst raw l.
  assert (Hcv : cut "#" false (v ++ w ++ post) = (v ++ w, post)).
  { assert (Hpp : passes "#" (pre ++ ["="%char] ++ w2)).
    { apply passes_app; [done|]. apply passes_app; [by apply passes_char|]. apply passes_ws; auto. }
    specialize (Hpp (v ++ w ++ post)). rewrite <-!app_assoc in Hpp. cbn [app] in Hpp.
    rewrite <-!app_assoc in Hcut. cbn [app] in Hcut. rewrite <-!app_assoc in Hcut. rewrite Hcut in Hpp.
    destruct (cut "#" false (v ++ w ++ post)) as [a b]. cbn [fst snd] in Hpp. injection Hpp as Ha ->.
    apply app_inv_head in Ha. injection Ha as Ha. by apply app_inv_head in Ha as ->. }
  assert (Hspan : value_span (w1 ++ (pre ++ "="%char :: w2 ++ v) ++ w ++ post) =
    (w1 ++ pre ++ "="%char :: w2, v, w ++ post)).
  { unfold value_span. replace (w1 ++ (pre ++ "="%char :: w2 ++ v) ++ w ++ post) with
      ((w1 ++ pre) ++ "="%char :: w2 ++ v ++ w ++ post) by (rewrite <-!app_assoc; cbn; by rewrite <-!app_assoc).
    rewrite (passes_app "=" w1 pre (passes_ws "=" w1 (or_intror eq_refl) Hw1) Hpe).
    change (cut "=" false ("="%char :: w2 ++ v ++ w ++ post)) with (@nil ascii, "="%char :: w2 ++ v ++ w ++ post).
    cbn [fst snd]. rewrite app_nil_r, skip_ws_over by done. rewrite skip_ws_id by by rewrite starts_ws_app.
    rewrite Hcv. rewrite rtrim_over, (rtrim_id v) by done. rewrite drop_app_length.
    rewrite length_app, Nat.add_sub, take_app_length. by rewrite <-!app_assoc. }
  rewrite Hspan. split; [rewrite <-!app_assoc; cbn; by rewrite <-!app_assoc|].
  exists k, val, tx. split; [done|]. split; [done|]. intros u val' tx' Hu Hval'.
  pose proof Hu as [Hune Hus Hue Hup].
  assert (Hgood : good (pre ++ "="%char :: w2 ++ u)).
  { split; [by destruct pre|by destruct pre| |].
    - rewrite ends_ws_app by done. rewrite app_comm_cons, ends_ws_app by done. done.
    - apply passes_app; [done|]. apply (passes_app _ ["="%char]); [by apply passes_char|].
      apply passes_app; [apply passes_ws; auto|done]. }
  replace ((w1 ++ pre ++ "="%char :: w2) ++ u ++ w ++ post) with (w1 ++ (pre ++ "="%char :: w2 ++ u) ++ w ++ post)
    by (rewrite <-!app_assoc; cbn; by rewrite <-!app_assoc).
  rewrite clean_good by done. split; [by destruct pre|].
  unfold parse_line. rewrite Hpath. cbn [mbind result_bind].
  assert (Htrim : trim ("="%char :: w2 ++ u) = "="%char :: w2 ++ u).
  { rewrite trim_starts by done. apply rtrim_id. by rewrite app_comm_cons, ends_ws_app. }
  assert (Hhd : match pre ++ "="%char :: w2 ++ u with c :: _ => c =c "[" | [] => false end = false)
    by by destruct pre.
  rewrite Htrim, ascii_eqb_refl. unfold parse_value, parse_dotted_value.
  assert (Htu : trim (w2 ++ u) = u) by (unfold trim; rewrite skip_ws_over by done; by apply trim_good).
  rewrite Htu, Hf. destruct u as [|c u]; [done|]. rewrite Hval'. cbn [mbind result_bind].
  destruct (pre ++ "="%char :: w2 ++ c :: u) as [|d X]; [done|]. by rewrite Hhd.
Qed.

End ValueFacts.
