(* ===== verification/ParseFacts.v ===== *)
(** * Whole texts: what a parse gives

    The effect of one line on the parsed file, the keys a file sets, and the lines its
    entries and tables come from. *)

From S2P Require Import Prelude Toml TomlParse Settings Save TomlFacts PathFacts SaveFacts ValueFacts.
From Stdlib Require Import Ascii SpecFloat.

Module ParseFacts.
Import Toml TomlParse Settings Save TomlFacts PathFacts SaveFacts ValueFacts.

(** The whole key of an entry. *)
Definition full (x : toml_entry) : text := dotted_of (section x) (key x).

(** The comparison the code makes is equality with the whole key. *)
Lemma is_dotted_full d x : is_dotted d x = true ↔ full x = d.
Proof.
  unfold is_dotted, full, dotted_of. destruct x as [sec k tx v ln c r]. cbn [section key].
  destruct sec as [|a sec].
  - destruct (decide (length (@nil ascii) = 0%nat)) as [_|H]; [|done].
    rewrite andb_true_iff, !bool_decide_eq_true. split.
    + intros [Hl Hk]. rewrite Hk. apply take_ge. lia.
    + intros <-. cbn [app]. by rewrite firstn_all.
  - destruct (decide _) as [H|_]; [done|]. set (s := a :: sec) in *.
    rewrite !andb_true_iff, !bool_decide_eq_true. change (match s with [] => [] | _ => ["."%char] end) with ["."%char].
    split.
    + intros [[[Hl Hs] Hd] Hk]. rewrite Hs at 1. rewrite Hk. cbn [app].
      rewrite (take_ge (drop _ _)) by (rewrite length_drop; lia).
      transitivity (take (length s) d ++ drop (length s) d); [|apply take_drop]. f_equal.
      by rewrite (drop_S _ _ _ Hd), Nat.add_1_r.
    + intros <-. rewrite !length_app. cbn [length]. split_and!; [lia|by rewrite take_app_length| |].
      * by rewrite lookup_app_r, Nat.sub_diag by done.
      * rewrite <-drop_drop, drop_app_length. cbn. rewrite drop_0. by rewrite firstn_all.
Qed.

Lemma find_dotted_None t d : find_dotted t d = None ↔ d ∉ map full (TomlParse.e t).
Proof.
  unfold find_dotted. destruct (list_find _ (TomlParse.e t)) as [[i x]|] eqn:Hf.
  - apply list_find_Some in Hf as (Hi & Hx & _). split; [done|]. intros []. apply list_elem_of_fmap.
    exists x. split; [by apply Is_true_true, is_dotted_full in Hx|]. by eapply list_elem_of_lookup_2.
  - split; [|done]. intros _ (x & Hx & Hin)%list_elem_of_fmap.
    apply list_find_None in Hf. rewrite Forall_forall in Hf. apply (Hf x Hin), Is_true_true, is_dotted_full. done.
Qed.
Lemma find_dotted_Some t d x : find_dotted t d = Some x → x ∈ TomlParse.e t ∧ full x = d.
Proof.
  unfold find_dotted. destruct (list_find _ (TomlParse.e t)) as [[i y]|] eqn:Hf; [|done]. cbn. intros [= ->].
  apply list_find_Some in Hf as (Hi & Hx & _).
  split; [by eapply list_elem_of_lookup_2|by apply Is_true_true, is_dotted_full in Hx].
Qed.

(** ** One line *)

Definition with_entry (x : toml_entry) (t : gptps_toml) : gptps_toml := t <| TomlParse.e ::= λ es, es ++ [x] |>.
Definition with_table (x : Z * text) (t : gptps_toml) : gptps_toml := t <| tb ::= λ l, l ++ [x] |>.

(** A header line, read without regard to what the file has so far. *)
Lemma header_line t raw ln sec t' sec' : is_header raw = true → parse_line t raw ln sec = Ok (t', sec') →
  sec' ≠ [] ∧ (length sec' < seccap)%nat ∧ t' = with_table (ln, sec') t ∧
  ∀ t2 ln2 sec2, parse_line t2 raw ln2 sec2 = Ok (with_table (ln2, sec') t2, sec').
Proof.
  destruct raw as [|c raw]; [done|]. cbn [is_header]. intros Hc. unfold parse_line. rewrite Hc.
  destruct (match raw with c :: _ => c =c "[" | [] => false end); [done|].
  destruct (parse_path raw true) as [[name p]|]; [|done]. cbn [mbind result_bind].
  destruct p as [|d p]; [done|]. destruct (d =c "]"); [|done]. destruct (trim p); [|done].
  destruct name as [|a name]; [done|]. destruct (Nat.leb_spec seccap (length (a :: name))) as [Hl|Hl]; [done|].
  intros [= <- <-]. done.
Qed.
Lemma key_line t raw ln sec t' sec' : is_header raw = false → starts_ws raw = false → ends_ws raw = false →
  parse_line t raw ln sec = Ok (t', sec') →
  ∃ k val tx, sec' = sec ∧ t' = with_entry (Entry sec k tx val ln false false) t ∧
    dotted_of sec k ∉ map full (TomlParse.e t) ∧
    ∀ t2 ln2 sec2, dotted_of sec2 k ∉ map full (TomlParse.e t2) →
      parse_line t2 raw ln2 sec2 = Ok (with_entry (Entry sec2 k tx val ln2 false false) t2, sec2).
Proof.
  intros Hh Hs He H.
  destruct (entry_line _ _ _ _ _ _ Hh Hs He H)
    as (k & pre & w & v & val & tx & -> & Hw & Hvne & Hvs & Hve & _ & _ & Hval & Hf & -> & -> & Hpath).
  exists k, val, tx. split_and!; [done|done|by apply find_dotted_None|]. intros t2 ln2 sec2 Hn.
  apply find_dotted_None in Hn. unfold parse_line. rewrite Hpath. cbn [mbind result_bind].
  assert (Ht : trim ("="%char :: w ++ v) = "="%char :: w ++ v).
  { rewrite trim_starts by done. apply rtrim_id. by rewrite app_comm_cons, ends_ws_app. }
  assert (Htv : trim (w ++ v) = v) by (unfold trim; rewrite skip_ws_over, skip_ws_id, rtrim_id by done; done).
  rewrite Ht, ascii_eqb_refl. unfold parse_value, parse_dotted_value. rewrite Htv, Hn.
  destruct v as [|c v]; [done|]. rewrite Hval. cbn [mbind result_bind].
  destruct (pre ++ "="%char :: w ++ c :: v) as [|d X]; [done|]. cbn [is_header] in Hh. by rewrite Hh.
Qed.

Lemma clean_ends l : starts_ws (clean l) = false ∧ ends_ws (clean l) = false.
Proof.
  unfold clean, trim at 1 3. split; [apply rtrim_starts, skip_ws_starts|apply rtrim_ends].
Qed.

(** ** A parse without errors *)

(** What a line adds to the file, in the table [sec]; [None] for one that does not parse.
    [dup] says which whole keys are taken. *)
Definition wf (t : gptps_toml) : Prop :=
  NoDup (map full (TomlParse.e t)) ∧ Forall (λ p, p.2 ≠ [] ∧ (length p.2 < seccap)%nat) (tb t).

(** The numbers of the lines [P] holds of. *)
Fixpoint numbered (P : text → bool) (ln : Z) (ls : list text) : list Z :=
  match ls with [] => [] | l :: ls => (if P l then [ln] else []) ++ numbered P (ln + 1) ls end.
Definition blank (raw : text) : bool := match raw with [] => true | _ => false end.
Definition table_line (l : text) : bool := is_header (clean l).
Definition entry_on (l : text) : bool := negb (blank (clean l)) && negb (is_header (clean l)).

Definition fine (s : scan) : Prop := sc_bad s = [] ∧ sc_lost s = false.

Lemma scan_line_bad s ln l : sc_bad (scan_line s ln l) = [] → sc_bad s = [].
Proof.
  unfold scan_line. destruct (clean l); [done|]. destruct (negb (sc_lost s) || _); [|done].
  destruct (parse_line _ _ _ _) as [[t sec]|er]; [done|]. cbn. by destruct (sc_bad s).
Qed.
Lemma scan_lines_bad s ln ls : sc_bad (scan_lines s ln ls) = [] → sc_bad s = [].
Proof. revert s ln. induction ls as [|l ls IH]; [done|]. intros s ln H%IH. by eapply scan_line_bad. Qed.

(** One line of a parse that has had no error, and has none after. *)
Lemma scan_line_ok s ln l : fine s → wf (sc_t s) → sc_bad (scan_line s ln l) = [] →
  let s' := scan_line s ln l in
  fine s' ∧ wf (sc_t s') ∧
  map line (TomlParse.e (sc_t s')) = map line (TomlParse.e (sc_t s)) ++ (if entry_on l then [ln] else []) ∧
  map fst (tb (sc_t s')) = map fst (tb (sc_t s)) ++ (if table_line l then [ln] else []).
Proof.
  intros [Hb Hl] [Hd Ht]. cbn zeta. unfold scan_line, entry_on, table_line. pose proof (clean_ends l) as [Hs He].
  destruct (clean l) as [|c raw] eqn:Hc; [by intros _; cbn; rewrite !app_nil_r|]. rewrite Hl. cbn [negb orb].
  set (r := c :: raw) in *. change (blank r) with false. destruct (parse_line _ _ _ _) as [[t' sec']|er] eqn:Hp;
    [|cbn; by destruct (sc_bad s)].
  intros _. cbn [sc_t sc_bad sc_lost sc_section]. destruct (is_header r) eqn:Hh; cbn [negb andb].
  - destruct (header_line _ _ _ _ _ _ Hh Hp) as (Hne & Hlen & -> & _). cbn. rewrite map_app, app_nil_r.
    split_and!; try done. split; [done|]. apply Forall_app_2; [done|by apply Forall_singleton].
  - destruct (key_line _ _ _ _ _ _ Hh Hs He Hp) as (k & val & tx & -> & -> & Hn & _). cbn. rewrite map_app, app_nil_r.
    split_and!; try done. split; [|done]. cbn. rewrite map_app. apply NoDup_app. split; [done|].
    split; [|by apply NoDup_singleton]. intros y Hy. by intros ->%list_elem_of_singleton.
Qed.

Lemma scan_lines_ok s ln ls : fine s → wf (sc_t s) → sc_bad (scan_lines s ln ls) = [] →
  let s' := scan_lines s ln ls in
  fine s' ∧ wf (sc_t s') ∧
  map line (TomlParse.e (sc_t s')) = map line (TomlParse.e (sc_t s)) ++ numbered entry_on ln ls ∧
  map fst (tb (sc_t s')) = map fst (tb (sc_t s)) ++ numbered table_line ln ls.
Proof.
  revert s ln. induction ls as [|l ls IH]; intros s ln Hf Hw Hb; cbn zeta.
  { cbn. by rewrite !app_nil_r. }
  cbn [scan_lines numbered] in *. pose proof (scan_lines_bad _ _ _ Hb) as Hb1.
  destruct (scan_line_ok s ln l Hf Hw Hb1) as (Hf1 & Hw1 & He1 & Ht1).
  destruct (IH _ _ Hf1 Hw1 Hb) as (Hf2 & Hw2 & He2 & Ht2). rewrite He2, Ht2, He1, Ht1, <-!app_assoc. done.
Qed.

Lemma parse_buf_ok buf t : parse_buf buf = inl t →
  wf t ∧ map line (TomlParse.e t) = numbered entry_on 1 (lines_of buf) ∧
  map fst (tb t) = numbered table_line 1 (lines_of buf).
Proof.
  unfold parse_buf. destruct (stray_cr 1 buf); [done|].
  destruct (sc_bad _) eqn:Hb; [|done]. intros [= <-].
  destruct (scan_lines_ok (Scan (Toml [] []) [] false []) 1 (lines_of buf)) as (_ & Hw & He & Ht); try done.
  split; [by constructor|]. by constructor.
Qed.

End ParseFacts.
