(* ===== verification/EditDistance.v ===== *)
(** * The edit distance of [src/settings.c]

    [gptps_edit_distance] against its meaning: the least number of insertions, deletions
    and substitutions that turn one key into the other, given up past a cap. *)

From S2P Require Import Prelude Toml TomlParse Settings.
From Stdlib Require Import Ascii.

Module EditDistance.
Import Toml Settings.

(** [edits n a b]: [n] edits turn [a] into [b]. *)
Inductive edits : nat → text → text → Prop :=
  | ed_nil : edits 0 [] []
  | ed_keep c n a b : edits n a b → edits n (c :: a) (c :: b)
  | ed_subst c d n a b : edits n a b → edits (S n) (c :: a) (d :: b)
  | ed_del c n a b : edits n a b → edits (S n) (c :: a) b
  | ed_ins d n a b : edits n a b → edits (S n) a (d :: b).
#[local] Hint Constructors edits : core.

Lemma edits_app n m a b a' b' : edits n a b → edits m a' b' → edits (n + m) (a ++ a') (b ++ b').
Proof. induction 1; intros Hm; cbn; auto. Qed.
Lemma edits_rev n a b : edits n a b → edits n (rev a) (rev b).
Proof.
  induction 1; cbn; auto; try (rewrite <-(Nat.add_0_r n); by apply edits_app; auto).
  - replace (S n) with (n + 1)%nat by lia. apply edits_app; auto.
  - replace (S n) with (n + 1)%nat by lia. rewrite <-(app_nil_r (rev b)). apply edits_app; auto.
  - replace (S n) with (n + 1)%nat by lia. rewrite <-(app_nil_r (rev a)). apply edits_app; auto.
Qed.

(** The last edit of a script. *)
Lemma edits_snoc n a b c d : edits n (a ++ [c]) (b ++ [d]) →
  (c = d ∧ edits n a b) ∨ (∃ m, n = S m ∧ edits m a b) ∨
  (∃ m, n = S m ∧ edits m a (b ++ [d])) ∨ (∃ m, n = S m ∧ edits m (a ++ [c]) b).
Proof.
  intros H. apply edits_rev in H. rewrite !rev_app_distr in H. cbn in H.
  inversion H as [|? ? ? ? H1|? ? ? ? ? H1|? ? ? ? H1|? ? ? ? H1]; subst; apply edits_rev in H1; cbn in H1;
    rewrite ?rev_involutive in H1; eauto 8.
Qed.
Lemma edits_length n a b : edits n a b → (length a ≤ length b + n)%nat ∧ (length b ≤ length a + n)%nat.
Proof. induction 1; cbn; lia. Qed.
(** A script of a text is a script of its start, then one of its rest. *)
Lemma edits_split n a a' b : edits n (a ++ a') b →
  ∃ b0 b1 n0 n1, b = b0 ++ b1 ∧ n = (n0 + n1)%nat ∧ edits n0 a b0 ∧ edits n1 a' b1.
Proof.
  remember (a ++ a') as x eqn:Hx. intros H. revert a Hx.
  induction H as [|c n x b H IH|c d n x b H IH|c n x b H IH|d n x b H IH]; intros a Hx.
  { symmetry in Hx. apply app_nil in Hx as [-> ->]. by exists [], [], 0%nat, 0%nat. }
  4: { destruct (IH a Hx) as (b0 & b1 & n0 & n1 & -> & -> & H0 & H1).
       exists (d :: b0), b1, (S n0), n1. split_and!; auto. }
  all: destruct a as [|e a]; cbn in Hx; [subst; by eexists [], _, 0%nat, _; split_and!; auto|].
  all: injection Hx as <- ->; destruct (IH a eq_refl) as (b0 & b1 & n0 & n1 & -> & -> & H0 & H1).
  - exists (c :: b0), b1, n0, n1. split_and!; auto.
  - exists (d :: b0), b1, (S n0), n1. split_and!; auto.
  - exists b0, b1, (S n0), n1. split_and!; auto.
Qed.

(** The distance of two texts. *)
Definition least (n : nat) (a b : text) : Prop := edits n a b ∧ ∀ m, edits m a b → (n ≤ m)%nat.

Lemma edits_to_nil a : edits (length a) a [].
Proof. induction a; cbn; auto. Qed.
Lemma edits_from_nil b : edits (length b) [] b.
Proof. induction b; cbn; auto. Qed.
Lemma least_to_nil a : least (length a) a [].
Proof. split; [apply edits_to_nil|]. intros m Hm%edits_length. cbn in Hm. lia. Qed.
Lemma least_from_nil b : least (length b) [] b.
Proof. split; [apply edits_from_nil|]. intros m Hm%edits_length. cbn in Hm. lia. Qed.

(** One cell of the table from the three before it. *)
Definition cell (c d : ascii) (diag left up : nat) : nat :=
  let v := (diag + (if c =c d then 0 else 1))%nat in
  let v := if (left + 1 <? v)%nat then (left + 1)%nat else v in
  if (up + 1 <? v)%nat then (up + 1)%nat else v.
Lemma cell_least a b c d diag left up :
  least diag a b → least left (a ++ [c]) b → least up a (b ++ [d]) →
  least (cell c d diag left up) (a ++ [c]) (b ++ [d]).
Proof.
  intros [Hd Hd'] [Hl Hl'] [Hu Hu'].
  assert (Hdiag : edits (diag + (if c =c d then 0 else 1)) (a ++ [c]) (b ++ [d])).
  { destruct (Ascii.eqb_spec c d) as [<-|]; apply edits_app; auto. }
  assert (Hleft : edits (left + 1) (a ++ [c]) (b ++ [d])).
  { rewrite <-(app_nil_r (a ++ [c])). apply edits_app; auto. }
  assert (Hup : edits (up + 1) (a ++ [c]) (b ++ [d])).
  { rewrite <-(app_nil_r (b ++ [d])). apply edits_app; auto. }
  assert (Hmin : (cell c d diag left up ≤ diag + (if c =c d then 0 else 1) ∧ cell c d diag left up ≤ left + 1 ∧
    cell c d diag left up ≤ up + 1)%nat ∧ edits (cell c d diag left up) (a ++ [c]) (b ++ [d])).
  { unfold cell. set (x := (diag + _)%nat) in *. destruct (Nat.ltb_spec (left + 1) x);
      case_match eqn:Hu1; apply Nat.ltb_lt in Hu1 || apply Nat.ltb_ge in Hu1; (split; [lia|done]). }
  destruct Hmin as [Hmin He]. split; [done|]. intros m Hm.
  destruct (edits_snoc _ _ _ _ _ Hm) as [[<- H]|[(m' & -> & H)|[(m' & -> & H)|(m' & -> & H)]]].
  - apply Hd' in H. rewrite Ascii.eqb_refl in Hmin. cbn iota in Hmin. lia.
  - apply Hd' in H. destruct (c =c d); lia.
  - apply Hu' in H. lia.
  - apply Hl' in H. lia.
Qed.

(** The cells of a row after the first: the distances of [a] to longer and longer
    starts of [b0 ++ b]. *)
Inductive row_ok (a b0 : text) : text → list nat → Prop :=
  | row_nil : row_ok a b0 [] []
  | row_cons d b v row : least v a (b0 ++ [d]) → row_ok a (b0 ++ [d]) b row → row_ok a b0 (d :: b) (v :: row).

Lemma row_loop_ok a c b0 b diag left best row r best' :
  least diag a b0 → least left (a ++ [c]) b0 → row_ok a b0 b row →
  row_loop c diag left best b row = (r, best') →
  row_ok (a ++ [c]) b0 b r ∧ (best' ≤ best)%nat ∧ Forall (λ v, (best' ≤ v)%nat) r ∧ (best' = best ∨ best' ∈ r).
Proof.
  revert b0 diag left best row r best'. induction b as [|d b IH]; intros b0 diag left best row r best' Hd Hl Hrow;
    inversion Hrow as [|? ? up row' Hup Hrow']; subst; cbn [row_loop].
  { intros [= <- <-]. split_and!; [constructor|lia|constructor|by left]. }
  fold (cell c d diag left up). set (v := cell c d diag left up).
  destruct (row_loop c up v _ b row') as [r' bst] eqn:Hr. intros [= <- <-].
  assert (Hv : least v (a ++ [c]) (b0 ++ [d])) by by apply cell_least.
  destruct (IH _ _ _ _ _ _ _ Hup Hv Hrow' Hr) as (Hok & Hle & Hall & Hin).
  split_and!; [by constructor| | |].
  - destruct (Nat.ltb_spec v best); lia.
  - constructor; [|done]. destruct (Nat.ltb_spec v best); lia.
  - destruct Hin as [->|Hin]; [|by right; constructor]. destruct (v <? best)%nat; [right; constructor|by left].
Qed.

(** The last cell of a row, and every cell of it, as a distance. *)
Lemma row_last a b0 b x row : row_ok a b0 b row → least x a b0 →
  least (default 0%nat ((x :: row) !! length b)) a (b0 ++ b).
Proof.
  intros H. revert x. induction H as [|b0 d b v row Hv _ IH]; intros x Hx; [by rewrite app_nil_r|].
  cbn [length]. specialize (IH v Hv). by rewrite <-app_assoc in IH.
Qed.
Lemma row_below a b0 b row best : row_ok a b0 b row → Forall (λ v, (best ≤ v)%nat) row →
  ∀ k n, (0 < k ≤ length b)%nat → edits n a (b0 ++ take k b) → (best ≤ n)%nat.
Proof.
  induction 1 as [|b0 d b v row [_ Hv] _ IH]; intros Hf k n Hk He; [cbn in Hk; lia|].
  inversion Hf; subst. destruct k as [|[|k]]; [lia|cbn in He; rewrite firstn_0 in He; apply Hv in He; lia|].
  apply (IH ltac:(done) (S k) n); [cbn in Hk; lia|]. rewrite <-app_assoc. exact He.
Qed.

Lemma rows_correct cap i a0 a b row : length a0 = (i - 1)%nat → (1 ≤ i)%nat →
  row_ok a0 [] b row → 
  let d := rows cap i a b ((i - 1)%nat :: row) in
  ((d ≤ cap)%nat → least d (a0 ++ a) b) ∧ ((cap < d)%nat → ∀ n, edits n (a0 ++ a) b → (cap < n)%nat).
Proof.
  revert i a0 row. induction a as [|c a IH]; intros i a0 row Hi Hi1 Hrow; cbn zeta.
  { cbn [rows]. rewrite app_nil_r. assert (Hd : least (default 0%nat (((i - 1)%nat :: row) !! length b)) a0 b).
    { apply (row_last a0 [] b); [done|]. rewrite <-Hi. apply least_to_nil. }
    split; [done|]. intros Hlt n Hn. apply Hd in Hn. lia. }
  cbn [rows]. destruct (row_loop c (i - 1) i i b row) as [r best] eqn:Hr.
  assert (Hdiag : least (i - 1) a0 []) by (rewrite <-Hi; apply least_to_nil).
  assert (Hleft : least i (a0 ++ [c]) []).
  { replace i with (length (a0 ++ [c])) by (rewrite length_app; cbn; lia). apply least_to_nil. }
  destruct (row_loop_ok a0 c [] b (i - 1) i i row r best Hdiag Hleft Hrow Hr) as (Hok & Hle & Hall & _).
  destruct (Nat.ltb_spec cap best) as [Hcap|Hcap].
  - split; [lia|]. intros _ n Hn. replace (a0 ++ c :: a) with ((a0 ++ [c]) ++ a) in Hn by by rewrite <-app_assoc.
    destruct (edits_split _ _ _ _ Hn) as (p & q & n0 & n1 & -> & -> & H0 & H1).
    enough (best ≤ n0)%nat by lia. destruct p as [|d p].
    + apply Hleft in H0. lia.
    + apply (row_below _ _ _ _ _ Hok Hall (length (d :: p)) n0); [rewrite length_app; cbn; lia|].
      by rewrite take_app_length.
  - specialize (IH (S i) (a0 ++ [c]) r). cbn zeta in IH. rewrite Nat.sub_succ, Nat.sub_0_r, <-app_assoc in IH.
    apply IH; [rewrite length_app; cbn; lia|lia|done].
Qed.

Lemma first_row b0 b : row_ok [] b0 b (seq (S (length b0)) (length b)).
Proof.
  revert b0. induction b as [|d b IH]; intros b0; [constructor|]. cbn [length seq].
  constructor.
  - replace (S (length b0)) with (length (b0 ++ [d])) by (rewrite length_app; cbn; lia). apply least_from_nil.
  - replace (S (S (length b0))) with (S (length (b0 ++ [d]))) by (rewrite length_app; cbn; lia). apply IH.
Qed.

Lemma edit_distance_correct a b cap : (length a ≤ 256)%nat → (length b ≤ 256)%nat →
  ((edit_distance a b cap ≤ cap)%nat → least (edit_distance a b cap) a b) ∧
  ((cap < edit_distance a b cap)%nat → ∀ n, edits n a b → (cap < n)%nat).
Proof.
  intros Ha Hb. unfold edit_distance.
  rewrite (proj2 (Nat.ltb_ge 256 (length a)) Ha), (proj2 (Nat.ltb_ge 256 (length b)) Hb). cbn [orb].
  destruct (Nat.ltb_spec cap (if (length b <? length a)%nat then length a - length b else length b - length a)) as [H|H].
  - split; [lia|]. intros _ n Hn%edits_length. destruct (Nat.ltb_spec (length b) (length a)); lia.
  - apply (rows_correct cap 1 [] a b); [done|lia|apply (first_row [] b)].
Qed.

(** ** The nearest key *)

(** [gptps_settings_closest] over the registered keys: one within the limit and none
    nearer, or none within the limit. *)
Definition nearest_key (key : text) (limit : nat) (keys : list text) (p : option (nat * text)) : Prop :=
  match p with
  | None => ∀ k n, k ∈ keys → edits n key k → (limit < n)%nat
  | Some (d, k) => k ∈ keys ∧ least d key k ∧ (d ≤ limit)%nat ∧ ∀ k' n, k' ∈ keys → edits n key k' → (d ≤ n)%nat
  end.
Lemma closest_loop_ok key limit keys : (length key ≤ 256)%nat → Forall (λ k, (length k ≤ 256)%nat) keys →
  ∀ seen best, nearest_key key limit seen best →
  nearest_key key limit (seen ++ keys) (closest_loop key limit best keys).
Proof.
  intros Hk Hks. induction Hks as [|k keys Hlen _ IH]; intros seen best Hbest; cbn [closest_loop]; [by rewrite app_nil_r|].
  replace (seen ++ k :: keys) with ((seen ++ [k]) ++ keys) by by rewrite <-app_assoc. apply IH. clear IH.
  destruct (edit_distance_correct key k limit Hk Hlen) as [Hle Hgt]. set (d := edit_distance key k limit) in *. clearbody d.
  assert (Hsnoc : ∀ k', k' ∈ seen ++ [k] → k' ∈ seen ∨ k' = k)
    by (intros k' [?|?%list_elem_of_singleton]%elem_of_app; auto).
  destruct (Nat.leb_spec d limit) as [Hd|Hd]; cbn [andb].
  - specialize (Hle Hd). destruct best as [[b kb]|]; [destruct (Nat.ltb_spec d b) as [Hlt|Hlt]|].
    + destruct Hbest as (_ & _ & _ & Hmin). split_and!; [apply elem_of_app; right; by constructor|done|done|].
      intros k' n [Hin| ->]%Hsnoc Hn; [specialize (Hmin k' n Hin Hn); lia|by apply Hle].
    + destruct Hbest as (Hin & Hl & Hb & Hmin). split_and!; [apply elem_of_app; by left|done|done|].
      intros k' n [Hin'| ->]%Hsnoc Hn; [by eapply Hmin|apply Hle in Hn; lia].
    + split_and!; [apply elem_of_app; right; by constructor|done|done|].
      intros k' n [Hin| ->]%Hsnoc Hn; [specialize (Hbest k' n Hin Hn); lia|by apply Hle].
  - specialize (Hgt Hd). destruct best as [[b kb]|].
    + destruct Hbest as (Hin & Hl & Hb & Hmin). split_and!; [apply elem_of_app; by left|done|done|].
      intros k' n [Hin'| ->]%Hsnoc Hn; [by eapply Hmin|apply Hgt in Hn; lia].
    + intros k' n [Hin| ->]%Hsnoc Hn; [by eapply Hbest|by apply Hgt].
Qed.

End EditDistance.
