(* ===== verification/SettingsFacts.v ===== *)
(** * Lemmas about the settings registry

    The registry is a map from keys to entries: what each operation does to the lookup of
    every key, and the invariant that keys are distinct and counted. *)

From S2P Require Import Prelude Toml TomlParse Settings Engine.
From Stdlib Require Import Ascii SpecFloat.

Module SettingsFacts.
Import Toml TomlParse Settings.
Import Engine(status, GPTPS_OK, GPTPS_E_NOTFOUND, GPTPS_E_DUP, GPTPS_E_CONFIG, status_eq_dec).

Section registry.
Context {W : Type}.
Implicit Types (r : settings W) (e : setting W) (w : W).

Definition keys r : list text := map s_key (s_list r).
Definition reg_wf r : Prop := NoDup (keys r) ∧ s_n r = length (s_list r).

Lemma find_in_key k l e : find_in k l = Some e → s_key e = k ∧ e ∈ l.
Proof.
  induction l as [|x l IH]; [done|]. cbn. destruct (decide (s_key x = k)).
  - intros [= <-]. split; [done|constructor].
  - intros [? ?]%IH. split; [done|by constructor].
Qed.
Lemma find_in_None k (l : list (setting W)) : find_in k l = None ↔ k ∉ map s_key l.
Proof.
  induction l as [|x l IH]; cbn; [by split; [intros _; apply not_elem_of_nil|]|].
  destruct (decide (s_key x = k)) as [->|Hn].
  - split; [done|]. intros []. constructor.
  - rewrite IH, not_elem_of_cons. naive_solver.
Qed.
(** With distinct keys, an entry of the list is what its key finds. *)
Lemma find_in_elem (l : list (setting W)) e : NoDup (map s_key l) → e ∈ l → find_in (s_key e) l = Some e.
Proof.
  induction l as [|x l IH]; [by intros _ ?%elem_of_nil|]. cbn. intros [Hx Hnd]%NoDup_cons [->|He]%elem_of_cons.
  - by rewrite decide_True.
  - rewrite decide_False; [by apply IH|]. intros Heq. apply Hx. rewrite Heq. by apply list_elem_of_fmap_2.
Qed.

Lemma put_in_keys k f (l : list (setting W)) : (∀ e, s_key (f e) = s_key e) → map s_key (put_in k f l) = map s_key l.
Proof.
  intros Hf. induction l as [|x l IH]; [done|]. cbn. destruct (decide _); cbn; [by rewrite Hf|by rewrite IH].
Qed.
Lemma find_put_in k k' f (l : list (setting W)) : (∀ e, s_key (f e) = s_key e) →
  find_in k' (put_in k f l) = (if decide (k' = k) then f <$> find_in k l else find_in k' l).
Proof.
  intros Hf. induction l as [|x l IH]; [by destruct (decide _)|]. cbn [put_in find_in].
  destruct (decide (s_key x = k)) as [Hk|Hk]; cbn [find_in]; rewrite ?Hf.
  - destruct (decide (k' = k)) as [->|Hn]; [by rewrite decide_True|]. by rewrite !(decide_False (P := s_key x = k')) by congruence.
  - destruct (decide (s_key x = k')) as [<-|Hn]; [by rewrite decide_False by congruence|]. done.
Qed.
Lemma unlink_filters drop (l : list (setting W)) :
  unlink drop l = (List.filter (λ e, negb (drop e)) l, length (List.filter drop l)).
Proof.
  induction l as [|x l IH]; [done|]. cbn. rewrite IH. by destruct (drop x).
Qed.
Lemma filter_split {A} (f : A → bool) (l : list A) :
  (length (List.filter (λ x, negb (f x)) l) + length (List.filter f l))%nat = length l.
Proof. induction l as [|x l IH]; [done|]. cbn. destruct (f x); cbn; lia. Qed.
Lemma NoDup_filter_keys (f : setting W → bool) l : NoDup (map s_key l) → NoDup (map s_key (List.filter f l)).
Proof.
  induction l as [|x l IH]; [done|]. cbn. intros [Hx Hl]%NoDup_cons. destruct (f x); [|by apply IH].
  cbn. constructor; [|by apply IH]. intros (e & He & Hin)%list_elem_of_fmap. apply Hx. rewrite He.
  apply list_elem_of_fmap_2. apply list_elem_of_In in Hin. apply filter_In in Hin as [Hin _]. by apply list_elem_of_In.
Qed.
Lemma find_filter (f : setting W → bool) l k : NoDup (map s_key l) →
  find_in k (List.filter f l) = (e ← find_in k l; if f e then Some e else None).
Proof.
  induction l as [|x l IH]; [done|]. cbn [map List.filter find_in]. intros [Hx Hl]%NoDup_cons.
  destruct (decide (s_key x = k)) as [<-|Hn]; cbn [mbind option_bind].
  - destruct (f x) eqn:Hf; cbn [find_in]; [by rewrite decide_True|]. rewrite IH by done.
    by rewrite (proj2 (find_in_None _ _) Hx).
  - destruct (f x); cbn [find_in]; [rewrite decide_False by done|]; by apply IH.
Qed.

(** ** The invariant *)

Lemma append_wf r e : reg_wf r → setting_find r (s_key e) = None → reg_wf (settings_append e r).
Proof.
  intros [Hd Hn] Hf. apply find_in_None in Hf. split.
  - unfold keys. cbn. rewrite map_app. apply NoDup_app. split; [done|]. split; [|apply NoDup_singleton].
    by intros k Hk ->%list_elem_of_singleton.
  - cbn. rewrite length_app, Hn. cbn. lia.
Qed.
Lemma set_entry_wf r k f : (∀ e, s_key (f e) = s_key e) → reg_wf r → reg_wf (set_entry k f r).
Proof.
  intros Hf [Hd Hn]. split; [unfold keys; cbn; by rewrite put_in_keys|]. cbn. rewrite Hn.
  rewrite <-(length_map s_key), <-(length_map s_key (put_in k f (s_list r))). by rewrite put_in_keys.
Qed.
Lemma unlink_wf r drop : reg_wf r → reg_wf (settings_unlink drop r).1.
Proof.
  intros [Hd Hn]. unfold settings_unlink. rewrite unlink_filters. cbn. split; [by apply NoDup_filter_keys|].
  cbn. rewrite Hn. pose proof (filter_split drop (s_list r)). lia.
Qed.

(** ** Steps of the registry

    Every operation that changes it, with the outside state the accessors change. *)
Inductive reg_step : settings W * W → settings W * W → Prop :=
  | step_add r w def owner : reg_step (r, w) ((settings_add_owned r w def owner).1, w)
  | step_publish r w p : reg_step (r, w) ((settings_publish r p).1, w)
  | step_watch r w cb files tag : reg_step (r, w) (watch_add r cb files tag, w)
  | step_tag r w k tag : reg_step (r, w) (set_tag r k tag, w)
  | step_nosave r w k : reg_step (r, w) (settings_nosave r k, w)
  | step_forget r w tag : reg_step (r, w) (forget_tag r tag, w)
  | step_remove r w owner prefix keep : reg_step (r, w) ((remove_task r owner prefix keep).1, w)
  | step_set r w k v live : reg_step (r, w) ((set_value r w k v live).1.1.1, (set_value r w k v live).1.1.2)
  | step_world r w w' : reg_step (r, w) (r, w').

Lemma reg_step_wf s s' : reg_step s s' → reg_wf s.1 → reg_wf s'.1.
Proof.
  destruct 1; cbn [fst snd]; intros Hw; try done.
  - unfold settings_add_owned. destruct (setting_find r (d_key def)) eqn:Hf; [done|]. by apply append_wf.
  - unfold settings_publish. destruct (setting_find r (s_key p)) eqn:Hf; [done|]. by apply append_wf.
  - by apply set_entry_wf.
  - by apply set_entry_wf.
  - apply (unlink_wf (r <| s_watchers ::= _ |>)). exact Hw.
  - by apply unlink_wf.
  - unfold set_value. destruct (setting_find r k) as [e|]; [|done]. destruct (apply_entry e w _) as [w' st].
    destruct (decide (st = GPTPS_OK)); [|done]. by apply set_entry_wf.
Qed.

(** ** Values *)

(** What a setting takes as a whole number is the number written, not what a conversion
    saturates it to. *)
Lemma valid_int e v : s_type e = SET_INT → valid_value e v = true →
  strtoll v = (whole_value v, false) ∧ LLONG_MIN ≤ whole_value v ≤ LLONG_MAX.
Proof.
  unfold valid_value. intros ->. rewrite andb_true_iff. intros [_ H]. unfold strtoll in H |- *.
  destruct (Z.ltb_spec (whole_value v) LLONG_MIN); [done|]. destruct (Z.ltb_spec LLONG_MAX (whole_value v)); [done|].
  by split.
Qed.
Lemma decimal_nonneg d : forallb is_digit d = true → 0 ≤ decimal d.
Proof.
  intros Hd. unfold decimal. assert (H : ∀ z, 0 ≤ z → 0 ≤ foldl (λ z c, z * 10 + (code c - code "0")) z d); [|by apply H].
  induction d as [|c d IH]; intros z Hz; [done|]. cbn in Hd |- *. apply andb_prop in Hd as [Hc Hd].
  apply IH; [done|]. unfold is_digit, within in Hc. apply andb_prop in Hc as [Hc _]. apply Z.leb_le in Hc. lia.
Qed.
Lemma digits_are p : forallb is_digit (digits p).1 = true.
Proof.
  induction p as [|c p IH]; [done|]. cbn. destruct (is_digit c) eqn:Hc; [|done]. destruct (digits p). cbn in *.
  by rewrite Hc.
Qed.
Lemma valid_uint e v : s_type e = SET_UINT → valid_value e v = true →
  strtoull v = (whole_value v, false) ∧ 0 ≤ whole_value v ≤ ULLONG_MAX.
Proof.
  unfold valid_value. intros ->. rewrite !andb_true_iff. intros [[_ Hneg%negb_true_iff] H]. unfold strtoull in H |- *.
  assert (Hw : 0 ≤ whole_value v) by (unfold whole_value; rewrite Hneg; apply decimal_nonneg, digits_are).
  rewrite Z.abs_eq in * by done. destruct (Z.ltb_spec ULLONG_MAX (whole_value v)); [done|].
  rewrite u64_small by (unfold ULLONG_MAX in *; lia). done.
Qed.

End registry.
End SettingsFacts.
