(* ===== verification/Configs.v ===== *)
(** * Properties of the configuration: parser, settings and save

    What a parsed file holds, what a save writes reads back, the settings registry as a
    map that checks its values, and the messages that fit their buffers. *)

From S2P Require Import Prelude Toml TomlParse Settings Save TomlFacts PathFacts SaveFacts ValueFacts ParseFacts.
From S2P Require Import EditDistance SettingsFacts Engine.
From Stdlib Require Import Ascii SpecFloat.

Module Configs.
Import Toml TomlParse Settings Save TomlFacts SaveFacts ValueFacts ParseFacts EditDistance SettingsFacts.
Import Engine(status, GPTPS_OK, GPTPS_E_NOTFOUND, GPTPS_E_CONFIG, status_eq_dec).

(** ** The parser *)

(** A line that is not blank adds an error or nothing; a parse that fails names lines
    of the file that are not blank, in order. *)
Lemma scan_lines_errors s ln ls :
  ∃ l, map fst (sc_bad (scan_lines s ln ls)) = map fst (sc_bad s) ++ l ∧
       l `sublist_of` numbered (λ l, negb (blank (clean l))) ln ls.
Proof.
  revert s ln. induction ls as [|l ls IH]; intros s ln; cbn [scan_lines numbered].
  { exists []. by rewrite app_nil_r. }
  destruct (IH (scan_line s ln l) (ln + 1)) as (l2 & -> & Hs2).
  assert (∃ l1, map fst (sc_bad (scan_line s ln l)) = map fst (sc_bad s) ++ l1 ∧
    l1 `sublist_of` (if negb (blank (clean l)) then [ln] else [])) as (l1 & -> & Hs1).
  { unfold scan_line. destruct (clean l) as [|c raw]; [exists []; by rewrite app_nil_r|].
    destruct (negb (sc_lost s) || _); [|exists []; rewrite app_nil_r; split; [done|apply sublist_nil_l]].
    destruct (parse_line _ _ _ _) as [[t sec]|er]; [exists []; rewrite app_nil_r; split; [done|apply sublist_nil_l]|].
    exists [ln]. cbn. by rewrite map_app. }
  exists (l1 ++ l2). rewrite <-app_assoc. split; [done|]. by apply sublist_app.
Qed.

Lemma stray_cr_range ln p k : stray_cr ln p = Some k → ln ≤ k.
Proof.
  revert ln. induction p as [|c p IH]; [done|]. intros ln. cbn. destruct (c =c nl); [intros H%IH; lia|].
  destruct (_ && _); [intros [= <-]; lia|apply IH].
Qed.

(** C5: [parse_buf] is strict.  When it gives a file, every line that is not blank or a
    comment is in it: the entries come from exactly the key lines, in order and one each,
    the tables from exactly the table lines, no whole key is set twice and every table
    name is non-empty and fits its buffer.  When it gives errors, there is one at least,
    and without a stray carriage return they are of lines that are not blank, in order. *)
Theorem parse_is_strict buf :
  match parse_buf buf with
  | inl t => NoDup (map full (TomlParse.e t)) ∧
             Forall (λ p, p.2 ≠ [] ∧ (length p.2 < seccap)%nat) (tb t) ∧
             map line (TomlParse.e t) = numbered entry_on 1 (lines_of buf) ∧
             map fst (tb t) = numbered table_line 1 (lines_of buf)
  | inr bad => bad ≠ [] ∧
      (stray_cr 1 buf = None → map fst bad `sublist_of` numbered (λ l, negb (blank (clean l))) 1 (lines_of buf))
  end.
Proof.
  destruct (parse_buf buf) as [t|bad] eqn:Hp.
  - destruct (parse_buf_ok _ _ Hp) as ([Hd Ht] & He & Htb). done.
  - unfold parse_buf in Hp. destruct (stray_cr 1 buf); [by injection Hp as <-|].
    destruct (scan_lines_errors (Scan (Toml [] []) [] false []) 1 (lines_of buf)) as (l & Hl & Hs). cbn [map app sc_bad] in Hl.
    destruct (sc_bad _) as [|b bs]; [done|]. injection Hp as <-. split; [done|]. intros _. by rewrite Hl.
Qed.

(** ** Round trips of the save *)

(** A value its setting takes, written by the save on a line of its own, is read
    back under its key as a value the setting takes: the text it was given, or for a whole
    number past 64 bits the same number written as a float. *)
Theorem added_line_reads_back {W} (s : setting W) v t sec k ln : no_nul k → no_nul v → valid_value s v = true →
  dotted_of sec k ∉ map full (TomlParse.e t) →
  ∃ v' val, parse_line t (clean (put_key k ++ str " = " ++ put_text (s_type s) v)) ln sec =
              Ok (with_entry (Entry sec k (Some v') val ln false false) t, sec) ∧
            valid_value s v' = true ∧ (v' = v ∨ s_type s = SET_DOUBLE ∧ strtod v' = strtod v).
Proof.
  intros Hk Hn Hv Hf. destruct (put_text_reads_back s v Hn Hv) as (v' & (Hg & Hv' & val & Hval) & Hsame).
  exists v', val. split; [|done]. apply find_dotted_None in Hf. by apply parse_added.
Qed.

(** Rewriting the value of a key line.  [value_span] takes apart exactly the text
    the parser reads as the value; the line with what the save writes there parses, in
    the same place, to the same key with a value the setting takes. *)
Theorem rewritten_line_reads_back {W} (s : setting W) v t l ln sec t' sec' :
  no_nul v → valid_value s v = true →
  is_header (clean l) = false → parse_line t (clean l) ln sec = Ok (t', sec') →
  let '(pre, old, post) := value_span l in
  l = pre ++ old ++ post ∧
  ∃ k val tx, scan_value old = Ok (val, tx) ∧ t' = with_entry (Entry sec k tx val ln false false) t ∧
    ∃ v' val', parse_line t (clean (pre ++ put_text (s_type s) v ++ post)) ln sec =
                 Ok (with_entry (Entry sec k (Some v') val' ln false false) t, sec) ∧
               valid_value s v' = true ∧ (v' = v ∨ s_type s = SET_DOUBLE ∧ strtod v' = strtod v).
Proof.
  intros Hn Hv Hh Hp. pose proof (rewritten_line _ _ _ _ _ _ Hh Hp) as H. destruct (value_span l) as [[pre old] post].
  destruct H as (Hl & k & val & tx & Hval & -> & Hnew). split; [done|]. exists k, val, tx. split; [done|]. split; [done|].
  destruct (put_text_reads_back s v Hn Hv) as (v' & (Hg & Hv' & val' & Hval') & Hsame). exists v', val'.
  split; [|done]. by apply (Hnew _ _ _ Hg Hval').
Qed.

(** A table line the save writes is read back as the table of that name, whatever
    the characters of the name. *)
Theorem table_line_reads_back t sec name ln : no_nul name → name ≠ [] → (length name < seccap)%nat →
  parse_line t (clean (removelast (put_table name))) ln sec = Ok (with_table (ln, name) t, name).
Proof. apply parse_table. Qed.

(** ** The registry *)

(** C15: through any sequence of its operations the registry keeps its keys distinct and
    counted, and finds every entry it lists under its key. *)
Theorem registry_is_a_map {W} (s : settings W * W) w0 : rtc reg_step (settings_create, w0) s →
  NoDup (keys s.1) ∧ settings_size s.1 = length (s_list s.1) ∧
  (∀ x, x ∈ s_list s.1 ↔ setting_find s.1 (s_key x) = Some x) ∧
  (∀ k, setting_find s.1 k = None ↔ k ∉ keys s.1).
Proof.
  intros Hr. assert (Hwf : reg_wf s.1).
  { remember (settings_create, w0) as s0 eqn:H0. assert (reg_wf s0.1) as H by (subst; split; [constructor|done]).
    clear H0. induction Hr as [|s1 s2 s3 Hs _ IH]; [done|]. by eapply IH, reg_step_wf. }
  destruct Hwf as [Hd Hn]. split_and!; [done|done| |intros k; apply find_in_None].
  intros x. split; [by apply find_in_elem|]. by intros [_ Hx]%find_in_key.
Qed.

(** C14: setting a value.  An unknown key, a value the setting does not take and a write
    that refuses change nothing in the registry and tell no one, and only the accepted
    value reaches the accessor; when the write succeeds, that setting alone is marked, and
    the watchers told are those that hear such a change and are not switched off, each
    once, with the value the accessor then reads. *)
Theorem set_value_contract {W} (r : settings W) (w : W) k v live :
  let '(r', w', st, calls) := set_value r w k v live in
  (st ≠ GPTPS_OK → r' = r ∧ calls = []) ∧
  match setting_find r k with
  | None => st = GPTPS_E_NOTFOUND ∧ w' = w
  | Some s =>
      let v := typed s live v in
      if valid_value s v then
        (w', st) = s_write s w v ∧
        (st = GPTPS_OK →
          keys r' = keys r ∧ s_watchers r' = s_watchers r ∧
          (∀ k', setting_find r' k' = if decide (k' = k) then Some (s <| s_dirty := live |>) else setting_find r k') ∧
          calls = map (λ x, (w_cb x, k, s_read s w' VALUE_MAX)) (List.filter (heard live) (s_watchers r)))
      else st = GPTPS_E_CONFIG ∧ w' = w
  end.
Proof.
  unfold set_value. destruct (setting_find r k) as [s|] eqn:Hf; [|done]. cbn zeta.
  unfold apply_entry. destruct (valid_value s (typed s live v)); cbn [negb]; [|by rewrite decide_False by done].
  destruct (s_write s w (typed s live v)) as [w' st]. destruct (decide (st = GPTPS_OK)) as [->|Hst].
  - split; [done|]. split; [done|]. intros _. split_and!; [|done| |done].
    + unfold keys. cbn. by rewrite put_in_keys.
    + intros k'. unfold setting_find. cbn. rewrite find_put_in by done.
      destruct (decide (k' = k)); [|done]. unfold setting_find in Hf. by rewrite Hf.
  - by split_and!.
Qed.

(** Removing a task's settings.  The task's own entries go, and a host's under its
    prefix that is not a live sibling's; every other entry is found as before, in the
    same order, and the count goes down by what was removed. *)
Theorem remove_task_exact {W} (r : settings W) owner prefix keep : reg_wf r →
  let '(r', n) := remove_task r owner prefix keep in
  reg_wf r' ∧ (settings_size r' + n)%nat = settings_size r ∧ s_list r' `sublist_of` s_list r ∧
  (∀ x, x ∈ s_list r' ↔ x ∈ s_list r ∧ s_owner x ≠ Some owner ∧
     (∀ p, s_owner x = None → prefix = Some p → has_prefix (s_key x) p = true →
        ∃ k, k ∈ keep ∧ has_prefix (s_key x) k = true)).
Proof.
  intros Hwf. pose proof (unlink_wf r (drops_task owner prefix keep) Hwf) as Hwf'. destruct Hwf as [Hd Hn].
  unfold remove_task in *. unfold settings_unlink in *. rewrite unlink_filters in *. cbn [fst] in Hwf'.
  pose proof (filter_split (drops_task owner prefix keep) (s_list r)) as Hc.
  split; [exact Hwf'|]. split; [unfold settings_size; cbn; lia|]. split.
  { cbn. clear. induction (s_list r) as [|x l IH]; [constructor|]. cbn. destruct (negb _); by constructor. }
  intros x. cbn. rewrite list_elem_of_In, filter_In, <-list_elem_of_In, negb_true_iff. apply and_iff_compat_l.
  unfold drops_task. destruct (decide (s_owner x = Some owner)) as [->|Hown]; [naive_solver|].
  destruct (s_owner x) as [o|] eqn:Ho; [naive_solver|]. destruct prefix as [p|]; [|naive_solver].
  rewrite andb_false_iff. split.
  - intros H. split; [done|]. intros p' _ [= <-] Hp. destruct H as [H|H]; [congruence|].
    assert (Hx : existsb (has_prefix (s_key x)) keep = true).
    { clear -H. induction keep as [|k ks IH]; [done|]. cbn in H |- *. destruct (has_prefix (s_key x) k); [done|]. by apply IH. }
    apply existsb_exists in Hx as (k & Hk & Hpk). exists k. by rewrite list_elem_of_In.
  - intros [_ H]. destruct (has_prefix (s_key x) p) eqn:Hp; [right|by left].
    destruct (H p eq_refl eq_refl Hp) as (k & Hk & Hpk). apply not_true_is_false. intros Hall.
    rewrite forallb_forall in Hall. apply list_elem_of_In in Hk. specialize (Hall k Hk). by rewrite Hpk in Hall.
Qed.

(** No value is saturated.  A signed or unsigned setting takes a number only when
    the 64-bit conversion of its text is the number the text says. *)
Theorem taken_values_fit {W} (s : setting W) v : valid_value s v = true →
  (s_type s = SET_INT → strtoll v = (whole_value v, false) ∧ - 2 ^ 63 ≤ whole_value v < 2 ^ 63) ∧
  (s_type s = SET_UINT → strtoull v = (whole_value v, false) ∧ 0 ≤ whole_value v < 2 ^ 64) ∧
  (s_type s = SET_DOUBLE → not_finite (strtod v) = false).
Proof.
  intros Hv. split_and!; intros Ht.
  - destruct (valid_int s v Ht Hv) as [? H]. unfold LLONG_MIN, LLONG_MAX in H. split; [done|lia].
  - destruct (valid_uint s v Ht Hv) as [? H]. unfold ULLONG_MAX in H. split; [done|lia].
  - unfold valid_value in Hv. rewrite Ht in Hv. rewrite !andb_true_iff, !negb_true_iff in Hv. tauto.
Qed.

(** ** Near misses *)

(** C16: the suggestion for a key no setting has.  Over keys of at most 256 characters,
    the key suggested is registered, its edit distance is within the limit and no
    registered key is nearer; and nothing is suggested only when every registered key is
    past the limit. *)
Theorem suggestion_is_nearest {W} (r : settings W) key : (length key ≤ 256)%nat →
  Forall (λ k, (length k ≤ 256)%nat) (keys r) →
  match closest r key with
  | Some k => k ∈ keys r ∧ ∃ d, least d key k ∧ (d ≤ near_limit key)%nat ∧ ∀ k' n, k' ∈ keys r → edits n key k' → (d ≤ n)%nat
  | None => ∀ k n, k ∈ keys r → edits n key k → (near_limit key < n)%nat
  end.
Proof.
  intros Hk Hks. pose proof (closest_loop_ok key (near_limit key) (keys r) Hk Hks [] None) as H.
  unfold closest. fold (keys r). destruct (closest_loop key (near_limit key) None (keys r)) as [[d k]|]; cbn.
  - destruct H as (Hin & Hl & Hd & Hmin); [|by split; [|exists d]]. intros k' n []%elem_of_nil.
  - apply H. by intros k' n []%elem_of_nil.
Qed.

(** ** Messages *)

Lemma show_errors_fits errlen buf shown msgs : (length buf < errlen)%nat →
  (length (show_errors errlen buf shown msgs).1 < errlen)%nat ∧
  (shown ≤ (show_errors errlen buf shown msgs).2 ≤ shown + length msgs)%nat.
Proof.
  revert buf shown. induction msgs as [|m msgs IH]; intros buf shown Hb; cbn [show_errors length]; [cbn; lia|].
  destruct (Nat.ltb_spec 320 errlen); [|destruct (IH buf shown Hb); lia].
  destruct (add_error (errlen - 320) buf m) as [buf'|] eqn:Ha; [|destruct (IH buf shown Hb); lia].
  unfold add_error in Ha. destruct (Nat.ltb_spec (errlen - 320) (length buf + length m + 2)); [done|].
  injection Ha as <-.
  set (buf' := buf ++ _). assert (Hb' : (length buf' < errlen)%nat)
    by (unfold buf'; rewrite !length_app; destruct buf; cbn in *; lia).
  destruct (IH buf' (S shown) Hb') as [H1 H2]. split; [exact H1|lia].
Qed.

(** Messages fit.  A key shown in a message never fills its buffer, is whole when
    it can be, and past that is its start and its end; and the report of a parse stays
    inside the caller's buffer. *)
Theorem messages_fit sec k cap more errlen msgs :
  (match key_shown sec k cap with
   | None => cap = 0%nat
   | Some s => (length s < cap)%nat ∧
       ((length (dotted_of sec k) < cap)%nat → s = dotted_of sec k) ∧
       ((8 ≤ cap ≤ length (dotted_of sec k))%nat → ∃ head tail mid,
          s = head ++ str "..." ++ tail ∧ dotted_of sec k = head ++ mid ++ tail ∧ length s = (cap - 1)%nat)
   end) ∧
  ((0 < errlen)%nat → (length (report more errlen msgs) < errlen)%nat).
Proof.
  split.
  - unfold key_shown. set (w := dotted_of sec k). destruct (decide (cap = 0%nat)) as [|Hc]; [done|].
    destruct (Nat.ltb_spec (length w) cap) as [Hw|Hw]; cbn [orb].
    { rewrite take_ge by lia. split_and!; [lia|done|lia]. }
    destruct (Nat.ltb_spec cap 8) as [H8|H8]; [rewrite length_take; split_and!; lia|].
    set (h := ((cap - 4) / 2)%nat). assert (Hh : (h ≤ cap - 4)%nat) by (apply Nat.Div0.div_le_upper_bound; lia).
    assert (Hlen : length (take h w ++ str "..." ++ drop (length w - (cap - 4 - h)) w) = (cap - 1)%nat).
    { rewrite !length_app, length_take, length_drop. change (length (str "...")) with 3%nat. lia. }
    split_and!; [lia|lia|]. intros _. exists (take h w), (drop (length w - (cap - 4 - h)) w).
    exists (take (length w - (cap - 4 - h) - h) (drop h w)). split; [done|]. split; [|done].
    transitivity (take h w ++ drop h w); [by rewrite take_drop|]. f_equal.
    rewrite <-(take_drop (length w - (cap - 4 - h) - h) (drop h w)) at 1. f_equal. rewrite drop_drop. f_equal. lia.
  - intros He. unfold report. pose proof (show_errors_fits errlen [] 0 msgs He) as [H _].
    destruct (show_errors errlen [] 0 msgs) as [buf shown]. cbn [fst] in H.
    destruct (shown <? length msgs)%nat; [|done]. unfold add_error.
    destruct (Nat.ltb_spec errlen (length buf + length (more (length msgs - shown)%nat) + 2)); [done|].
    rewrite !length_app. destruct buf; cbn in *; lia.
Qed.

(** ** Witnesses

    A store of one text, with settings of each type on it. *)

Definition text_read (w : text) (cap : nat) : text := take (cap - 1) w.
Definition text_write (w v : text) : text * status := (v, GPTPS_OK).
Definition knob (key : text) (ty : setting_type) (owner : option N) : setting text :=
  Setting key [] ty true (bool_decide (ty = SET_INT)) (double_of_Z 0) (double_of_Z 100) None owner
    text_read text_write None false false.
Definition knobs : settings text :=
  Registry [knob (str "limits.depth") SET_INT None; knob (str "tasks.a.cost") SET_UINT (Some 7%N);
            knob (str "tasks.a.note") SET_STRING None; knob (str "scale") SET_DOUBLE None] 4 [Watcher 1 false None false].

Lemma parse_is_strict_witness :
  match parse_buf (str "a = 1 # one" ++ nl :: str "[t]" ++ nl :: str "b = = 2") with
  | inl t => NoDup (map full (TomlParse.e t)) ∧
             Forall (λ p, p.2 ≠ [] ∧ (length p.2 < seccap)%nat) (tb t) ∧
             map line (TomlParse.e t) = numbered entry_on 1 (lines_of (str "a = 1 # one" ++ nl :: str "[t]" ++ nl :: str "b = = 2")) ∧
             map fst (tb t) = numbered table_line 1 (lines_of (str "a = 1 # one" ++ nl :: str "[t]" ++ nl :: str "b = = 2"))
  | inr bad => bad ≠ [] ∧
      (stray_cr 1 (str "a = 1 # one" ++ nl :: str "[t]" ++ nl :: str "b = = 2") = None →
       map fst bad `sublist_of` numbered (λ l, negb (blank (clean l))) 1
         (lines_of (str "a = 1 # one" ++ nl :: str "[t]" ++ nl :: str "b = = 2")))
  end.
Proof. exact (parse_is_strict (str "a = 1 # one" ++ nl :: str "[t]" ++ nl :: str "b = = 2")). Defined.

Ltac no_nul_tac := repeat constructor; intros H; discriminate H.

Lemma added_line_reads_back_witness : ∃ v' val,
  parse_line (Toml [] []) (clean (put_key (str "b c") ++ str " = " ++ put_text SET_DOUBLE (str "36893488147419103232"))) 3 (str "a") =
    Ok (with_entry (Entry (str "a") (str "b c") (Some v') val 3 false false) (Toml [] []), str "a") ∧
  valid_value (knob (str "a.b c") SET_DOUBLE None) v' = true ∧
  (v' = str "36893488147419103232" ∨ SET_DOUBLE = SET_DOUBLE ∧ strtod v' = strtod (str "36893488147419103232")).
Proof.
  apply (added_line_reads_back (knob (str "a.b c") SET_DOUBLE None) (str "36893488147419103232") (Toml [] [])
           (str "a") (str "b c") 3); [no_nul_tac|no_nul_tac|vm_compute; reflexivity|apply not_elem_of_nil].
Defined.

Lemma rewritten_line_reads_back_witness :
  let '(pre, old, post) := value_span (str " depth = 4  # keep = me") in
  str " depth = 4  # keep = me" = pre ++ old ++ post ∧
  ∃ k val tx, scan_value old = Ok (val, tx) ∧
    Toml [Entry (str "limits") (str "depth") (Some (str "4")) (TT_INT 4 false) 2 false false] [] =
      with_entry (Entry (str "limits") k tx val 2 false false) (Toml [] []) ∧
    ∃ v' val', parse_line (Toml [] []) (clean (pre ++ put_text SET_INT (str "+12") ++ post)) 2 (str "limits") =
        Ok (with_entry (Entry (str "limits") k (Some v') val' 2 false false) (Toml [] []), str "limits") ∧
      valid_value (knob (str "limits.depth") SET_INT None) v' = true ∧
      (v' = str "+12" ∨ SET_INT = SET_DOUBLE ∧ strtod v' = strtod (str "+12")).
Proof.
  apply (rewritten_line_reads_back (knob (str "limits.depth") SET_INT None) (str "+12") (Toml [] [])
           (str " depth = 4  # keep = me") 2 (str "limits") _ (str "limits"));
    [no_nul_tac|vm_compute; reflexivity|reflexivity|vm_compute; reflexivity].
Defined.

Lemma table_line_reads_back_witness :
  parse_line (Toml [] []) (clean (removelast (put_table (str "tasks.resize v2")))) 5 [] =
    Ok (with_table (5, str "tasks.resize v2") (Toml [] []), str "tasks.resize v2").
Proof. apply (table_line_reads_back (Toml [] []) []); [no_nul_tac|done|apply Nat.ltb_lt; reflexivity]. Defined.

Lemma registry_is_a_map_witness :
  let r := (settings_add_owned settings_create (str "5") (Def (str "a.b") SET_INT true false (double_of_Z 0) (double_of_Z 0)
             None text_read text_write) None).1 in
  NoDup (keys r) ∧ settings_size r = length (s_list r) ∧
  (∀ x, x ∈ s_list r ↔ setting_find r (s_key x) = Some x) ∧ (∀ k, setting_find r k = None ↔ k ∉ keys r).
Proof.
  exact (registry_is_a_map ((settings_add_owned settings_create (str "5") (Def (str "a.b") SET_INT true false
    (double_of_Z 0) (double_of_Z 0) None text_read text_write) None).1, str "5") (str "5") (rtc_once _ _ (step_add _ _ _ _))).
Defined.

Lemma knobs_wf : reg_wf knobs.
Proof. split; [|reflexivity]. refine (proj1 (bool_decide_eq_true _) _). vm_compute. reflexivity. Qed.
Lemma remove_task_exact_witness :
  let '(r', n) := remove_task knobs 7 (Some (str "tasks.a.")) [str "tasks.a.n"] in
  reg_wf r' ∧ (settings_size r' + n)%nat = settings_size knobs ∧ s_list r' `sublist_of` s_list knobs ∧
  (∀ x, x ∈ s_list r' ↔ x ∈ s_list knobs ∧ s_owner x ≠ Some 7%N ∧
     (∀ p, s_owner x = None → Some (str "tasks.a.") = Some p → has_prefix (s_key x) p = true →
        ∃ k, k ∈ [str "tasks.a.n"] ∧ has_prefix (s_key x) k = true)).
Proof. exact (remove_task_exact knobs 7 (Some (str "tasks.a.")) [str "tasks.a.n"] knobs_wf). Defined.

Lemma taken_values_fit_witness :
  (SET_INT = SET_INT → strtoll (str "42") = (whole_value (str "42"), false) ∧ - 2 ^ 63 ≤ whole_value (str "42") < 2 ^ 63) ∧
  (SET_INT = SET_UINT → strtoull (str "42") = (whole_value (str "42"), false) ∧ 0 ≤ whole_value (str "42") < 2 ^ 64) ∧
  (SET_INT = SET_DOUBLE → not_finite (strtod (str "42")) = false).
Proof. apply (taken_values_fit (knob (str "limits.depth") SET_INT None) (str "42")). vm_compute. reflexivity. Defined.

Lemma suggestion_is_nearest_witness :
  match closest knobs (str "limits.deth") with
  | Some k => k ∈ keys knobs ∧ ∃ d, least d (str "limits.deth") k ∧ (d ≤ near_limit (str "limits.deth"))%nat ∧
      ∀ k' n, k' ∈ keys knobs → edits n (str "limits.deth") k' → (d ≤ n)%nat
  | None => ∀ k n, k ∈ keys knobs → edits n (str "limits.deth") k → (near_limit (str "limits.deth") < n)%nat
  end.
Proof.
  apply (suggestion_is_nearest knobs (str "limits.deth")); [apply Nat.leb_le; reflexivity|].
  repeat (constructor; [apply Nat.leb_le; reflexivity|]). constructor.
Defined.

End Configs.
