(* ===== verification/SaveFile.v ===== *)
(** * A whole file saved: [write_settings] and [gptps_settings_save_to] of [src/settings.c]

    The text of the file, with the changed values rewritten in their lines and the
    settings it lacks added next to their siblings.  Save.v has the pieces; here are the
    lines and blocks of the text, where each addition goes, and the text written out. *)

From S2P Require Import Prelude Toml TomlParse Settings Save Engine.
From Stdlib Require Import Ascii.

Module SaveFile.
Import Toml TomlParse Settings Save.
Import Engine(status, GPTPS_OK, GPTPS_E_NOMEM, GPTPS_E_CONFIG, GPTPS_E_IO, status_eq_dec).

Definition SAVE_GB_KEY : text := str "limits.max_memory_gb".
Definition SAVE_BYTES_KEY : text := str "limits.max_memory_bytes".
Definition SAVE_GB_EXACT : Z := 9007199254740992.

(** [save_line]: the line's text, what the parser found on it, and its block. *)
Record save_line := SaveLine {
  l_text : text; l_header : option nat; l_comment : bool; l_entry : option nat; l_block : nat }.
#[export] Instance eta_save_line : Eta save_line := λ r,
  SaveLine (l_text r) (l_header r) (l_comment r) (l_entry r) (l_block r).
Record save_block := SaveBlock { b_first : nat; b_last : Z; b_section : text }.
#[export] Instance eta_save_block : Eta save_block := λ r, SaveBlock (b_first r) (b_last r) (b_section r).

(** ** Lines and blocks *)

(** [while ( *p)]: no line after the last newline. *)
Fixpoint split (p : text) : list text :=
  match p with
  | [] => []
  | c :: p => if c =c nl then [] :: split p else match split p with l :: ls => (c :: l) :: ls | [] => [[c]] end
  end.
Definition is_comment (l : text) : bool := match skip_ws l with c :: _ => c =c "#" | [] => false end.
Definition plain_line (l : text) : save_line := SaveLine l None (is_comment l) None 0.
(** The line the parser counted as [ln], from 1; none when it is not one of them. *)
Definition at_line (ln : Z) (f : save_line → save_line) (ls : list save_line) : list save_line :=
  if (1 <=? ln) && (ln <=? Z.of_nat (length ls)) then alter f (Z.to_nat (ln - 1)) ls else ls.
Fixpoint mark_entries (i : nat) (es : list toml_entry) (ls : list save_line) : list save_line :=
  match es with
  | [] => ls
  | x :: es => mark_entries (S i) es (at_line (line x) (λ l, l <| l_entry := Some i |>) ls)
  end.
Fixpoint mark_tables (i : nat) (ts : list (Z * text)) (ls : list save_line) (nblocks : nat) : list save_line * nat :=
  match ts with
  | [] => (ls, nblocks)
  | (ln, _) :: ts =>
      mark_tables (S i) ts (at_line ln (λ l, l <| l_header := Some i |>) ls)
        (if (1 <=? ln) && (ln <=? Z.of_nat (length ls)) then S nblocks else nblocks)
  end.
(** The blocks the headers divide the lines into; [i], [j]: the line and the block. *)
Fixpoint block_loop (ts : list (Z * text)) (i j : nat) (ls : list save_line) (bs : list save_block) : list save_line * list save_block :=
  match ls with
  | [] => ([], bs)
  | l :: ls =>
      let '(j, bs) :=
        match l_header l with
        | Some h =>
            let name := default [] (snd <$> ts !! h) in
            (S j, alter (λ B, (if (length name <? 256)%nat then B <| b_section := name |> else B) <| b_first := i |>) (S j) bs)
        | None => (j, match l_entry l with Some _ => alter (λ B, B <| b_last := Z.of_nat i |>) j bs | None => bs end)
        end in
      let '(ls, bs) := block_loop ts (S i) j ls bs in (l <| l_block := j |> :: ls, bs)
  end.
Definition entries_of_file (t : option gptps_toml) : list toml_entry := from_option e [] t.
Definition tables_of_file (t : option gptps_toml) : list (Z * text) := from_option tb [] t.
Definition layout (txt : text) (t : option gptps_toml) : list save_line * list save_block :=
  let '(ls, n) := mark_tables 0 (tables_of_file t) (mark_entries 0 (entries_of_file t) (map plain_line (split txt))) 1 in
  block_loop (tables_of_file t) 0 0 ls (replicate n (SaveBlock 0 (-1) [])).

Section save.
Context {W : Type}.
(** What [gptps_fmt_double_c] prints for a number of bytes over 2^30. *)
Variable fmt_gib : Z → text.

Definition put_value (w : W) (x : setting W) : text := put_text (s_type x) (s_read x w VALUE_MAX).
Definition setting_ull (w : W) (x : setting W) : Z := (strtoull (s_read x w VALUE_MAX)).1.

(** ** What is added, and where *)

(** [save_add]: [A_after] unless [A_at_end]. *)
Record save_add := SaveAdd { A_e : setting W; A_after : Z; A_at_end : bool; A_skip : nat; A_file : option text }.

(** [in_file]: 0, 1 or 2 with the value, as [gptps_settings_in_file_fn]. *)
Definition save_wants (x : setting W) (t : option gptps_toml) (in_file : option (text → Z * text)) : option (option text) :=
  if s_nosave x then None
  else if s_dirty x then Some None
  else match t, in_file with
       | None, Some f =>
           let '(k, val) := f (s_key x) in
           if k =? 0 then None else Some (if (k =? 1) && valid_value x val then Some val else None)
       | _, _ => None
       end.

Definition has_section (sec : text) (B : save_block) : bool := bool_decide (b_section B = sec).
(** The block of the setting's own section: the first after block 0. *)
Definition own_block (sec : text) (bs : list save_block) : option nat :=
  match list_find (λ B, Is_true (has_section sec B)) (drop 1 bs) with Some (j, _) => Some (S j) | None => None end.
(** A line that holds a sibling of [key], in a table [key] lies under: its block and the
    bytes of the key that the block's table says. *)
Definition sibling (es : list toml_entry) (bs : list save_block) (key : text) (sl : nat) (l : save_line) : option (nat * nat) :=
  match l_entry l ≫= λ i, es !! i with
  | None => None
  | Some x =>
      let d := dotted_at x 512 in
      if bool_decide (take sl d = take sl key) && bool_decide (d !! sl = Some "."%char) then
        let sec := from_option b_section [] (bs !! l_block l) in
        let secl := length sec in
        if negb (secl =? 0)%nat &&
           ((sl <? secl)%nat || negb (bool_decide (take secl key = sec)) || negb (bool_decide (key !! secl = Some "."%char)))
        then None
        else Some (l_block l, if (secl =? 0)%nat then 0%nat else S secl)
      else None
  end.
Fixpoint first_sibling (es : list toml_entry) (bs : list save_block) (key : text) (sl : nat) (ls : list save_line) : option (nat * nat) :=
  match ls with
  | [] => None
  | l :: ls => match sibling es bs key sl l with Some r => Some r | None => first_sibling es bs key sl ls end
  end.
(** [target] and [skip]; [None] for a section at the end. *)
Definition target_of (es : list toml_entry) (ls : list save_line) (bs : list save_block) (key : text) : option (nat * nat) :=
  let sl := seclen key in
  if (sl =? 0)%nat || (255 <=? sl)%nat then Some (0%nat, 0%nat)
  else match own_block (take sl key) bs with
       | Some j => Some (j, S sl)
       | None => first_sibling es bs key sl ls
       end.
(** [while (h > 0 && lines[h - 1].comment) --h] *)
Fixpoint above_comment (h : nat) (ls : list save_line) : nat :=
  match h with
  | O => O
  | S h' => if from_option l_comment false (ls !! h') then above_comment h' ls else h
  end.
Definition top_place (ls : list save_line) (bs : list save_block) : Z :=
  match bs !! 1%nat with
  | Some B => Z.of_nat (above_comment (b_first B) ls) - 1
  | None => Z.of_nat (length ls) - 1
  end.
(** The loop over the settings; [top]: [top_at], once a key without a table needed it. *)
Fixpoint add_loop (t : option gptps_toml) (in_file : option (text → Z * text)) (gb_alias : bool)
    (ls : list save_line) (bs : list save_block) (xs : list (setting W)) (top : option Z) : list save_add * option Z :=
  match xs with
  | [] => ([], top)
  | x :: xs =>
      let key := s_key x in
      if match t with
         | Some t => bool_decide (is_Some (find_dotted t key)) || (gb_alias && bool_decide (key = SAVE_BYTES_KEY))
         | None => false
         end
      then add_loop t in_file gb_alias ls bs xs top
      else match save_wants x t in_file with
      | None => add_loop t in_file gb_alias ls bs xs top
      | Some file =>
          let '(A, top) :=
            match target_of (entries_of_file t) ls bs key with
            | None => (SaveAdd x 0 true (S (seclen key)) file, top)
            | Some (j, skip) =>
                let B := default (SaveBlock 0 (-1) []) (bs !! j) in
                if 0 <=? b_last B then (SaveAdd x (b_last B) false skip file, top)
                else if (0 <? j)%nat then (SaveAdd x (Z.of_nat (b_first B)) false skip file, top)
                else (SaveAdd x (default (top_place ls bs) top) false skip file, Some (default (top_place ls bs) top))
            end in
          let '(As, top) := add_loop t in_file gb_alias ls bs xs top in (A :: As, top)
      end
  end.

(** ** The text written *)

Definition put_add (w : W) (A : save_add) : text :=
  put_key (drop (A_skip A) (s_key (A_e A))) ++ str " = " ++
  match A_file A with
  | None => put_value w (A_e A)
  | Some val => match s_type (A_e A) with SET_STRING | SET_ENUM => put_quoted val | _ => val end
  end ++ [nl].
Definition placed_at (at_ : Z) (A : save_add) : bool := negb (A_at_end A) && (A_after A =? at_).
Definition adds_at (As : list save_add) (at_ : Z) : list save_add := List.filter (placed_at at_) As.
(** The additions after line [at_], and the blank line under those of block 0. *)
Definition put_adds (w : W) (As : list save_add) (top : option Z) (gap : bool) (at_ : Z) : text :=
  concat (map (put_add w) (adds_at As at_)) ++
  (if negb (bool_decide (adds_at As at_ = [])) && bool_decide (top = Some at_) && gap then [nl] else []).

(** [max_memory_gb] rewritten in bytes: the indentation, the key with its last part
    changed, and the value. *)
Definition gb_in_bytes (w : W) (k l : text) (x : setting W) : text :=
  take (length l - length (skip_ws l)) l ++
  put_key (take 511 (take (length k - 13) k ++ str "max_memory_bytes")) ++ str " = " ++ put_value w x.
(** A line of the file. *)
Definition put_line (w : W) (r : settings W) (es : list toml_entry) (gb_alias : bool)
    (refused : option (text → option text → bool)) (l : save_line) : text :=
  let copy := l_text l ++ [nl] in
  match l_entry l ≫= λ i, es !! i with
  | None => copy
  | Some en =>
      let d := dotted_of (section en) (key en) in
      let gb := gb_alias && bool_decide (d = SAVE_GB_KEY) in
      let x := match setting_find r (if gb then SAVE_BYTES_KEY else d) with
               | Some x => if s_nosave x then None else Some x
               | None => None
               end in
      let bad := match refused with Some f => f d (etext en) | None => false end in
      match x with
      | None => if bad then [] else copy
      | Some x =>
          if s_dirty x || bad then
            let '(pre, _, post) := value_span (l_text l) in
            (if gb && (SAVE_GB_EXACT <? setting_ull w x) then gb_in_bytes w (key en) (l_text l) x
             else pre ++ (if gb then fmt_gib (setting_ull w x) else put_value w x)) ++ post ++ [nl]
          else copy
      end
  end.
Fixpoint put_lines (w : W) (r : settings W) (es : list toml_entry) (gb_alias : bool) (refused : option (text → option text → bool))
    (As : list save_add) (top : option Z) (gap : bool) (i : nat) (ls : list save_line) : text :=
  put_adds w As top gap (Z.of_nat i - 1) ++
  match ls with
  | [] => []
  | l :: ls => put_line w r es gb_alias refused l ++ put_lines w r es gb_alias refused As top gap (S i) ls
  end.

(** The new sections; [sep]: something is written already. *)
Definition same_section (A A' : save_add) : bool :=
  let sl := seclen (s_key (A_e A)) in
  (seclen (s_key (A_e A')) =? sl)%nat && bool_decide (take sl (s_key (A_e A')) = take sl (s_key (A_e A))).
Fixpoint put_sections (fuel : nat) (w : W) (sep : bool) (As : list save_add) : text :=
  match fuel, As with
  | S fuel, A :: As =>
      (if sep then [nl] else []) ++
      put_table (take (seclen (s_key (A_e A))) (s_key (A_e A))) ++
      concat (map (put_add w) (A :: List.filter (same_section A) As)) ++
      put_sections fuel w true (List.filter (λ A', negb (same_section A A')) As)
  | _, _ => []
  end.

Definition gb_alias_of (t : option gptps_toml) : bool :=
  match t with
  | Some t => bool_decide (is_Some (find_dotted t SAVE_GB_KEY)) && bool_decide (find_dotted t SAVE_BYTES_KEY = None)
  | None => false
  end.
Definition write_settings (r : settings W) (w : W) (txt : text) (t : option gptps_toml) (in_file : option (text → Z * text))
    (refused : option (text → option text → bool)) : text :=
  let '(ls, bs) := layout txt t in
  let '(As, top) := add_loop t in_file (gb_alias_of t) ls bs (s_list r) None in
  let ends := List.filter A_at_end As in
  put_lines w r (entries_of_file t) (gb_alias_of t) refused As top (1 <? length bs)%nat 0 ls ++
  put_sections (length ends) w
    (negb (bool_decide (ls = [])) || negb (bool_decide (List.filter (λ A, negb (A_at_end A)) As = []))) ends.

(** ** A save to a path *)

(** What is at a path: nothing, something that cannot be opened or read, or a text. *)
Inductive source := Absent | Unopenable | Unread (nomem : bool) | Content (txt : text).
(** What the system answers: memory for the temporary name, its opening, memory for the
    writing, [fflush], [fclose], and the replacement. *)
Record save_io := SaveIo { io_name : bool; io_open : bool; io_room : bool; io_flush : bool; io_close : bool; io_replace : status }.
Definition save_note : text :=
  str "# GPTPS settings, written by gptps_settings_save: the values changed live and" ++ [nl] ++
  str "# the ones the config file set. Edit freely - a later save updates the values" ++ [nl] ++
  str "# you change and keeps the rest, comments included. Every key: docs/CONFIG.md." ++ [nl; nl].
(** From the temporary file on: the status, and what is at the path if that changed. *)
Definition replace_file (io : save_io) (out : text) : status * option text :=
  if negb (io_name io) then (GPTPS_E_NOMEM, None)
  else
    let st := if negb (io_open io) then GPTPS_E_IO
              else if negb (io_room io) then GPTPS_E_NOMEM
              else if negb (io_flush io) || negb (io_close io) then GPTPS_E_IO
              else io_replace io in
    (st, if decide (st = GPTPS_OK) then Some out else None).
(** [base]: what is at the loaded file's path, when that is another path. *)
Definition save_to (r : settings W) (w : W) (path : source) (base : option source) (in_file : option (text → Z * text))
    (refused : option (text → option text → bool)) (io : save_io) : status * option text :=
  let fresh := save_note ++ write_settings r w [] None in_file None in
  match path with
  | Absent =>
      match base with
      | Some (Content txt) =>
          match parse_buf txt with
          | inl t => replace_file io (write_settings r w txt (Some t) in_file refused)
          | inr _ => replace_file io fresh
          end
      | Some (Unread true) => (GPTPS_E_NOMEM, None)
      | _ => replace_file io fresh
      end
  | Content txt =>
      match parse_buf txt with
      | inl t => replace_file io (write_settings r w txt (Some t) in_file None)
      | inr _ => (GPTPS_E_CONFIG, None)
      end
  | Unread nomem => (if nomem then GPTPS_E_NOMEM else GPTPS_E_IO, None)
  | Unopenable => (GPTPS_E_IO, None)
  end.

End save.
End SaveFile.
