(* ===== verification/SaveFileFacts.v ===== *)
(** * A saved file reads back

    What each line of a file does to a parse, whatever came before it; the places of the
    additions; and the text a save writes, line by line. *)

From S2P Require Import Prelude Toml TomlParse Settings Save TomlFacts PathFacts SaveFacts ValueFacts ParseFacts SaveFile.
From Stdlib Require Import Ascii.

Module SaveFileFacts.
Import Toml TomlParse Settings Save TomlFacts PathFacts SaveFacts ValueFacts ParseFacts SaveFile.

(** ** What a line does *)

Inductive effect := ENone | EHead (name : text) | EPair (k : text) (v : toml_value) (tx : option text).
Definition acts (l : text) (E : effect) : Prop :=
  match E with
  | ENone => clean l = []
  | EHead name => clean l ≠ [] ∧ is_header (clean l) = true ∧ (length name < seccap)%nat ∧
      ∀ t ln sec, parse_line t (clean l) ln sec = Ok (with_table (ln, name) t, name)
  | EPair k v tx => clean l ≠ [] ∧ is_header (clean l) = false ∧
      ∀ t ln sec, dotted_of sec k ∉ map full (TomlParse.e t) →
        parse_line t (clean l) ln sec = Ok (with_entry (Entry sec k tx v ln false false) t, sec)
  end.

(** The section after some lines, and what they put in the file. *)
Definition sec_after (E : effect) (sec : text) : text := match E with EHead name => name | _ => sec end.
Fixpoint section_at (sec : text) (Es : list effect) : text :=
  match Es with [] => sec | E :: Es => section_at (sec_after E sec) Es end.
Fixpoint entries_of (ln : Z) (sec : text) (Es : list effect) : list toml_entry :=
  match Es with
  | [] => []
  | E :: Es => match E with EPair k v tx => [Entry sec k tx v ln false false] | _ => [] end ++
               entries_of (ln + 1) (sec_after E sec) Es
  end.
Fixpoint tables_of (ln : Z) (Es : list effect) : list (Z * text) :=
  match Es with
  | [] => []
  | E :: Es => match E with EHead name => [(ln, name)] | _ => [] end ++ tables_of (ln + 1) Es
  end.
(** The keys with their values. *)
Fixpoint keys_of (sec : text) (Es : list effect) : list (text * (toml_value * option text)) :=
  match Es with
  | [] => []
  | E :: Es => match E with EPair k v tx => [(dotted_of sec k, (v, tx))] | _ => [] end ++ keys_of (sec_after E sec) Es
  end.
Definition content (es : list toml_entry) : list (text * (toml_value * option text)) :=
  map (λ x, (full x, (value x, etext x))) es.

Lemma content_entries ln sec Es : content (entries_of ln sec Es) = keys_of sec Es.
Proof.
  revert ln sec. induction Es as [|E Es IH]; intros ln sec; [done|]. cbn [entries_of keys_of]. unfold content in *.
  rewrite map_app, IH. by destruct E.
Qed.
Lemma fulls_content es : map full es = (content es).*1.
Proof. unfold content. induction es as [|x es IH]; [done|]. cbn. by rewrite IH. Qed.
Lemma keys_of_app sec Es Es' : keys_of sec (Es ++ Es') = keys_of sec Es ++ keys_of (section_at sec Es) Es'.
Proof.
  revert sec. induction Es as [|E Es IH]; intros sec; [done|]. cbn [keys_of app section_at]. by rewrite IH, app_assoc.
Qed.
Lemma section_at_app sec Es Es' : section_at sec (Es ++ Es') = section_at (section_at sec Es) Es'.
Proof. revert sec. induction Es as [|E Es IH]; intros sec; [done|]. apply IH. Qed.

(** ** Scanning lines by their effects *)

Lemma scan_acts s ln ls Es : Forall2 acts ls Es → fine s →
  NoDup (map full (TomlParse.e (sc_t s)) ++ (keys_of (sc_section s) Es).*1) →
  let s' := scan_lines s ln ls in
  fine s' ∧ sc_section s' = section_at (sc_section s) Es ∧
  sc_t s' = Toml (TomlParse.e (sc_t s) ++ entries_of ln (sc_section s) Es) (tb (sc_t s) ++ tables_of ln Es).
Proof.
  intros HA. revert s ln. induction HA as [|l E ls Es Hl _ IH]; intros s ln [Hb Hlost] Hnd; cbn zeta.
  { cbn. rewrite !app_nil_r. by destruct s as [[]]. }
  cbn [scan_lines].
  assert (Hs : fine (scan_line s ln l) ∧ sc_section (scan_line s ln l) = sec_after E (sc_section s) ∧
    sc_t (scan_line s ln l) = Toml
      (TomlParse.e (sc_t s) ++ match E with EPair k v tx => [Entry (sc_section s) k tx v ln false false] | _ => [] end)
      (tb (sc_t s) ++ match E with EHead name => [(ln, name)] | _ => [] end)).
  { unfold scan_line. destruct E as [|name|k v tx]; cbn in Hl.
    - rewrite Hl. cbn. rewrite !app_nil_r. by destruct s as [[]].
    - destruct Hl as (Hne & Hh & _ & Hp). destruct (clean l) as [|c raw] eqn:Hc; [done|]. rewrite Hlost, Hh, Hp. cbn.
      by rewrite app_nil_r.
    - destruct Hl as (Hne & Hh & Hp). destruct (clean l) as [|c raw] eqn:Hc; [done|]. rewrite Hlost, Hh. cbn [negb orb].
      rewrite Hp; [cbn; by rewrite app_nil_r|]. intros Hin. apply NoDup_app in Hnd as (_ & Hd & _).
      apply (Hd _ Hin). cbn. by left. }
  destruct Hs as (Hf & Hsec & Ht). destruct (IH (scan_line s ln l) (ln + 1)) as (Hf' & Hsec' & Ht'); [done| |].
  { rewrite Hsec, Ht. cbn [TomlParse.e]. cbn [keys_of] in Hnd. rewrite fmap_app in Hnd. rewrite map_app, <-app_assoc.
    by destruct E. }
  rewrite Hsec', Ht', Hsec, Ht. cbn [TomlParse.e tb section_at entries_of tables_of]. by rewrite !app_assoc.
Qed.

(** The effects of the lines of a parse without errors. *)
Lemma scan_effects s ln ls : fine s → sc_bad (scan_lines s ln ls) = [] →
  ∃ Es, Forall2 acts ls Es ∧
    sc_t (scan_lines s ln ls) = Toml (TomlParse.e (sc_t s) ++ entries_of ln (sc_section s) Es) (tb (sc_t s) ++ tables_of ln Es).
Proof.
  revert s ln. induction ls as [|l ls IH]; intros s ln Hf Hb.
  { exists []. cbn. rewrite !app_nil_r. split; [done|]. by destruct s as [[]]. }
  cbn [scan_lines] in *. pose proof (scan_lines_bad _ _ _ Hb) as Hb1. destruct Hf as [Hbs Hlost].
  assert (HE : ∃ E, acts l E ∧ fine (scan_line s ln l) ∧ sc_section (scan_line s ln l) = sec_after E (sc_section s) ∧
    sc_t (scan_line s ln l) = Toml
      (TomlParse.e (sc_t s) ++ match E with EPair k v tx => [Entry (sc_section s) k tx v ln false false] | _ => [] end)
      (tb (sc_t s) ++ match E with EHead name => [(ln, name)] | _ => [] end)).
  { unfold scan_line in *. pose proof (clean_ends l) as [Hs He]. unfold acts. destruct (clean l) as [|c raw] eqn:Hc.
    { exists ENone. cbn. rewrite !app_nil_r. split_and!; try done. by destruct s as [[]]. }
    rewrite Hlost in *. cbn [negb orb] in *. set (x := c :: raw) in *. destruct (parse_line _ _ _ _) as [[t' sec']|er] eqn:Hp;
      [|cbn in Hb1; by destruct (sc_bad s)].
    destruct (is_header x) eqn:Hh.
    - destruct (header_line _ _ _ _ _ _ Hh Hp) as (_ & Hlen & -> & Hall). exists (EHead sec'). cbn. rewrite app_nil_r. done.
    - destruct (key_line _ _ _ _ _ _ Hh Hs He Hp) as (k & val & tx & -> & -> & _ & Hall). exists (EPair k val tx). cbn.
      rewrite app_nil_r. done. }
  destruct HE as (E & HE & Hf & Hsec & Ht). destruct (IH _ (ln + 1) Hf Hb) as (Es & HEs & Hts).
  exists (E :: Es). split; [by constructor|]. rewrite Hts, Hsec, Ht. cbn. by rewrite !app_assoc.
Qed.

(** ** Text that is whole lines *)

(** A carriage return that something on the line follows. *)
Fixpoint inner_cr (l : text) : bool :=
  match l with [] => false | c :: l => ((c =c cr) && negb (bool_decide (l = []))) || inner_cr l end.
Definition no_char (c : ascii) (l : text) : Prop := forallb (λ d, negb (d =c c)) l = true.
Definition whole (l : text) : Prop := no_char nl l ∧ inner_cr l = false.
Definition unlines (ls : list text) : text := concat (map (λ l, l ++ [nl]) ls).
(** [txt] is whole lines that do [Es], the lines [kept] among them. *)
Definition writes (kept : list text) (txt : text) (Es : list effect) : Prop :=
  ∃ ls, txt = unlines ls ∧ Forall whole ls ∧ Forall2 acts ls Es ∧ kept `sublist_of` ls.

Lemma no_char_app c x y : no_char c (x ++ y) ↔ no_char c x ∧ no_char c y.
Proof. unfold no_char. by rewrite forallb_app, andb_true_iff. Qed.
Lemma no_char_cons c d x : no_char c (d :: x) ↔ (d =c c) = false ∧ no_char c x.
Proof. unfold no_char. cbn. by rewrite andb_true_iff, negb_true_iff. Qed.
Lemma no_cr_inner x : no_char cr x → inner_cr x = false.
Proof.
  induction x as [|c x IH]; [done|]. intros [Hc Hx]%no_char_cons. cbn. by rewrite Hc, IH.
Qed.
Lemma inner_cr_app x y : y ≠ [] → inner_cr (x ++ y) = false ↔ no_char cr x ∧ inner_cr y = false.
Proof.
  intros Hy. induction x as [|c x IH]; [unfold no_char; cbn; tauto|]. cbn [app inner_cr]. rewrite bool_decide_false by (by destruct x, y).
  rewrite no_char_cons. cbn [negb]. rewrite andb_true_r, orb_false_iff, IH. tauto.
Qed.
Lemma whole_plain l : no_char nl l → no_char cr l → whole l.
Proof. intros H1 H2. split; [done|by apply no_cr_inner]. Qed.

Lemma lines_of_cons l p : no_char nl l → lines_of (l ++ nl :: p) = l :: lines_of p.
Proof. induction l as [|c l IH]; [done|]. intros [Hc Hl]%no_char_cons. cbn. by rewrite Hc, IH. Qed.
Lemma stray_cr_cons ln l p : no_char nl l → stray_cr ln (l ++ nl :: p) = if inner_cr l then Some ln else stray_cr (ln + 1) p.
Proof.
  intros Hl. induction l as [|c l IH]; [done|]. apply no_char_cons in Hl as [Hc Hl]. cbn [app stray_cr inner_cr]. rewrite Hc, IH by done.
  destruct l as [|d l]; [by destruct (c =c cr)|]. apply no_char_cons in Hl as [Hd _]. cbn [app]. rewrite Hd. cbn.
  by destruct (c =c cr).
Qed.
Lemma lines_of_unlines ls : Forall whole ls → lines_of (unlines ls) = ls ++ [[]].
Proof.
  induction 1 as [|l ls [Hn _] _ IH]; [done|]. unfold unlines in *. cbn. rewrite <-app_assoc. cbn. by rewrite lines_of_cons, IH.
Qed.
Lemma stray_cr_unlines ln ls : Forall whole ls → stray_cr ln (unlines ls) = None.
Proof.
  intros H. revert ln. induction H as [|l ls [Hn Hc] _ IH]; intros ln; [done|]. unfold unlines in *. cbn. rewrite <-app_assoc. cbn.
  by rewrite stray_cr_cons, Hc.
Qed.

Lemma writes_nil : writes [] [] [].
Proof. by exists []. Qed.
Lemma writes_app kx ky x y Es Es' : writes kx x Es → writes ky y Es' → writes (kx ++ ky) (x ++ y) (Es ++ Es').
Proof.
  intros (ls & -> & H1 & H2 & H3) (ls' & -> & H1' & H2' & H3'). exists (ls ++ ls'). unfold unlines. rewrite map_app, concat_app.
  split_and!; [done|by apply Forall_app_2|by apply Forall2_app|by apply sublist_app].
Qed.
Lemma writes_keep l E : whole l → acts l E → writes [l] (l ++ [nl]) [E].
Proof.
  intros H1 H2. exists [l]. unfold unlines. cbn. rewrite app_nil_r. split_and!; [done|by constructor|by constructor|done].
Qed.
Lemma writes_one l E : whole l → acts l E → writes [] (l ++ [nl]) [E].
Proof.
  intros H1 H2. destruct (writes_keep l E H1 H2) as (ls & ?&?&?&?). exists ls. split_and!; try done. apply sublist_nil_l.
Qed.
Lemma writes_blank : writes [] [nl] [ENone].
Proof. by apply (writes_one []). Qed.

(** Such a text parses, when it gives no key twice. *)
Lemma split_cons l p : no_char nl l → split (l ++ nl :: p) = l :: split p.
Proof. induction l as [|c l IH]; [done|]. intros [Hc Hl]%no_char_cons. cbn. by rewrite Hc, IH. Qed.
Lemma split_unlines ls : Forall whole ls → split (unlines ls) = ls.
Proof.
  induction 1 as [|l ls [Hn _] _ IH]; [done|]. unfold unlines in *. cbn. rewrite <-app_assoc. cbn. by rewrite split_cons, IH.
Qed.
Lemma writes_parse kept txt Es : writes kept txt Es → NoDup (keys_of [] Es).*1 →
  kept `sublist_of` split txt ∧ ∃ t, parse_buf txt = inl t ∧ content (TomlParse.e t) = keys_of [] Es.
Proof.
  intros (ls & -> & Hw & HA & Hk) Hnd. split; [by rewrite split_unlines|].
  unfold parse_buf. rewrite stray_cr_unlines, lines_of_unlines by done.
  destruct (scan_acts (Scan (Toml [] []) [] false []) 1 (ls ++ [[]]) (Es ++ [ENone])) as ([Hb _] & _ & Ht).
  - apply Forall2_app; [done|]. by repeat constructor.
  - done.
  - cbn. rewrite keys_of_app. cbn. by rewrite app_nil_r.
  - rewrite Hb, Ht. eexists. split; [done|]. cbn [TomlParse.e sc_t app sc_section]. rewrite content_entries, keys_of_app. cbn.
    by rewrite app_nil_r.
Qed.

(** The lines the save splits a text into, and what they do in its parse. *)
Lemma text_lines txt ln : stray_cr ln txt = None → Forall whole (split txt) ∧ (lines_of txt = split txt ∨ lines_of txt = split txt ++ [[]]).
Proof.
  revert ln. induction txt as [txt IH] using (induction_ltof1 _ (@length _)). intros ln Hs.
  assert (Hcut : (∃ l p, txt = l ++ nl :: p ∧ no_char nl l) ∨ no_char nl txt).
  { clear. induction txt as [|c txt [(l & p & -> & Hl)|H]]; [by right| |].
    - left. destruct (c =c nl) eqn:Hc; [apply Ascii.eqb_eq in Hc as ->; by exists [], (l ++ nl :: p)|].
      exists (c :: l), p. split; [done|]. by apply no_char_cons.
    - destruct (c =c nl) eqn:Hc; [left; apply Ascii.eqb_eq in Hc as ->; by exists [], txt|right; by apply no_char_cons]. }
  destruct Hcut as [(l & p & -> & Hl)|Hn].
  - rewrite stray_cr_cons in Hs by done. destruct (inner_cr l) eqn:Hc; [done|]. rewrite split_cons, lines_of_cons by done.
    destruct (IH p) with (ln := ln + 1) as [Hw Hor]; [unfold ltof; rewrite length_app; cbn; lia|done|].
    split; [by constructor|]. destruct Hor as [-> | ->]; [by left|by right].
  - destruct txt as [|c txt]; [split; [done|by right]|].
    assert (Hsp : ∀ x, no_char nl x → x ≠ [] → split x = [x] ∧ lines_of x = [x]).
    { clear. induction x as [|c x IH]; [done|]. intros [Hc Hx]%no_char_cons _. cbn. rewrite Hc.
      destruct x as [|d x]; [done|]. destruct IH as [-> ->]; done. }
    destruct (Hsp (c :: txt)) as [-> ->]; [done|done|]. split; [|by left]. constructor; [|done]. split; [done|].
    destruct (inner_cr (c :: txt)) eqn:Hi; [|done]. exfalso. clear -Hs Hi Hn.
    induction (c :: txt) as [|d x IH]; [done|]. apply no_char_cons in Hn as [Hd Hn]. cbn in Hs, Hi. rewrite Hd in Hs.
    destruct x as [|d' x]; [by destruct (d =c cr)|]. pose proof Hn as [Hd' _]%no_char_cons. rewrite Hd' in Hs. cbn in Hi.
    destruct (d =c cr); [done|]. by apply IH.
Qed.
Lemma file_effects txt t : parse_buf txt = inl t →
  ∃ Es, Forall2 acts (split txt) Es ∧ Forall whole (split txt) ∧ t = Toml (entries_of 1 [] Es) (tables_of 1 Es).
Proof.
  unfold parse_buf. destruct (stray_cr 1 txt) as [|] eqn:Hs; [done|]. destruct (text_lines _ _ Hs) as [Hw Hor].
  destruct (sc_bad _) eqn:Hb; [|done]. intros [= <-].
  destruct (scan_effects (Scan (Toml [] []) [] false []) 1 (lines_of txt)) as (Es & HA & Ht); [done|done|]. cbn in Ht.
  destruct Hor as [E|E]; rewrite E in HA; [by exists Es; rewrite Ht|].
  apply Forall2_app_inv_l in HA as (Es0 & Es1 & H0 & H1 & ->). exists Es0. split; [done|]. split; [done|]. rewrite Ht.
  apply Forall2_cons_inv_l in H1 as (E1 & Es2 & HE & H2 & ->). apply Forall2_nil_inv_l in H2 as ->.
  destruct E1; cbn in HE; [|naive_solver|naive_solver].
  assert (He : ∀ ln sec, entries_of ln sec (Es0 ++ [ENone]) = entries_of ln sec Es0).
  { clear. induction Es0 as [|E Es IH]; intros ln sec; [done|]. cbn. by rewrite IH. }
  assert (Htb : ∀ ln, tables_of ln (Es0 ++ [ENone]) = tables_of ln Es0).
  { clear. induction Es0 as [|E Es IH]; intros ln; [done|]. cbn. by rewrite IH. }
  by rewrite He, Htb.
Qed.

(** ** The lines and blocks *)

Fixpoint heads (Es : list effect) : nat :=
  match Es with [] => 0 | E :: Es => (match E with EHead _ => 1 | _ => 0 end + heads Es)%nat end.
(** The lines laid out: [i] entries, [j] blocks so far. *)
Fixpoint placed (i j : nat) (Es : list effect) (ls : list text) : list save_line :=
  match Es, ls with
  | E :: Es, l :: ls =>
      match E with
      | EHead _ => SaveLine l (Some j) (is_comment l) None (S j) :: placed i (S j) Es ls
      | EPair _ _ _ => SaveLine l None (is_comment l) (Some i) j :: placed (S i) j Es ls
      | ENone => SaveLine l None (is_comment l) None j :: placed i j Es ls
      end
  | _, _ => []
  end.
Fixpoint blocks_of (p : nat) (cur : save_block) (Es : list effect) : list save_block :=
  match Es with
  | [] => [cur]
  | EHead name :: Es => cur :: blocks_of (S p) (SaveBlock p (-1) name) Es
  | EPair _ _ _ :: Es => blocks_of (S p) (cur <| b_last := Z.of_nat p |>) Es
  | ENone :: Es => blocks_of (S p) cur Es
  end.
(** Those lines before their blocks are known. *)
Fixpoint marked (i j : nat) (Es : list effect) (ls : list text) : list save_line :=
  match Es, ls with
  | E :: Es, l :: ls =>
      match E with
      | EHead _ => plain_line l <| l_header := Some j |> :: marked i (S j) Es ls
      | EPair _ _ _ => plain_line l <| l_entry := Some i |> :: marked (S i) j Es ls
      | ENone => plain_line l :: marked i j Es ls
      end
  | _, _ => []
  end.
Fixpoint entry_marked (i : nat) (Es : list effect) (ls : list text) : list save_line :=
  match Es, ls with
  | E :: Es, l :: ls =>
      match E with
      | EPair _ _ _ => plain_line l <| l_entry := Some i |> :: entry_marked (S i) Es ls
      | _ => plain_line l :: entry_marked i Es ls
      end
  | _, _ => []
  end.

Lemma length_entry_marked i Es ls : length Es = length ls → length (entry_marked i Es ls) = length Es.
Proof. revert i ls. induction Es as [|[] Es IH]; intros i [|l ls] H; simplify_eq/=; [done|..]; by rewrite IH. Qed.
Lemma alter_app_at {A} (f : A → A) pre x post : alter f (length pre) (pre ++ x :: post) = pre ++ f x :: post.
Proof. induction pre as [|y pre IH]; [done|]. cbn. f_equal. apply IH. Qed.
Lemma at_line_app q f pre l ls : length pre = q → at_line (Z.of_nat q + 1) f (pre ++ l :: ls) = pre ++ f l :: ls.
Proof.
  intros <-. unfold at_line. rewrite length_app. cbn [length].
  destruct (Z.leb_spec 1 (Z.of_nat (length pre) + 1)); [|lia].
  destruct (Z.leb_spec (Z.of_nat (length pre) + 1) (Z.of_nat (length pre + S (length ls)))); [|lia]. cbn [andb].
  replace (Z.to_nat (Z.of_nat (length pre) + 1 - 1)) with (length pre) by lia. apply alter_app_at.
Qed.
Lemma mark_entries_spec i q sec Es pre ls : length pre = q → length Es = length ls →
  mark_entries i (entries_of (Z.of_nat q + 1) sec Es) (pre ++ map plain_line ls) = pre ++ entry_marked i Es ls.
Proof.
  revert i q sec pre ls. induction Es as [|E Es IH]; intros i q sec pre [|l ls] Hq Hl; simplify_eq/=; [done|].
  replace (Z.of_nat (length pre) + 1 + 1) with (Z.of_nat (S (length pre)) + 1) by lia.
  assert (Hsn : ∀ x : save_line, length (pre ++ [x]) = S (length pre)) by (intros; rewrite length_app; cbn; lia).
  destruct E as [|name|k v tx]; cbn [app mark_entries line].
  - specialize (IH i _ (sec_after ENone sec) (pre ++ [plain_line l]) ls (Hsn _)). rewrite <-!app_assoc in IH. by apply IH.
  - specialize (IH i _ (sec_after (EHead name) sec) (pre ++ [plain_line l]) ls (Hsn _)). rewrite <-!app_assoc in IH. by apply IH.
  - rewrite at_line_app by done.
    specialize (IH (S i) _ (sec_after (EPair k v tx) sec) (pre ++ [plain_line l <| l_entry := Some i |>]) ls (Hsn _)).
    rewrite <-!app_assoc in IH. by apply IH.
Qed.
Lemma mark_tables_spec i j q Es pre ls nb : length pre = q → length Es = length ls →
  mark_tables j (tables_of (Z.of_nat q + 1) Es) (pre ++ entry_marked i Es ls) nb = (pre ++ marked i j Es ls, (nb + heads Es)%nat).
Proof.
  revert i j q pre ls nb. induction Es as [|E Es IH]; intros i j q pre [|l ls] nb Hq Hl; simplify_eq/=; [by rewrite Nat.add_0_r|].
  replace (Z.of_nat (length pre) + 1 + 1) with (Z.of_nat (S (length pre)) + 1) by lia.
  assert (Hsn : ∀ x : save_line, length (pre ++ [x]) = S (length pre)) by (intros; rewrite length_app; cbn; lia).
  destruct E as [|name|k v tx]; cbn [app mark_tables].
  - specialize (IH i j _ (pre ++ [plain_line l]) ls nb (Hsn _)). rewrite <-!app_assoc in IH. by apply IH.
  - rewrite at_line_app by done.
    destruct (Z.leb_spec 1 (Z.of_nat (length pre) + 1)); [|lia].
    destruct (Z.leb_spec (Z.of_nat (length pre) + 1) (Z.of_nat (length (pre ++ plain_line l :: entry_marked i Es ls))));
      [|rewrite length_app in *; cbn [length] in *; lia]. cbn [andb].
    specialize (IH i (S j) _ (pre ++ [plain_line l <| l_header := Some j |>]) ls (S nb) (Hsn _)). rewrite <-!app_assoc in IH.
    etransitivity; [by apply IH|]. f_equal. lia.
  - specialize (IH (S i) j _ (pre ++ [plain_line l <| l_entry := Some i |>]) ls nb (Hsn _)). rewrite <-!app_assoc in IH. by apply IH.
Qed.

Lemma block_loop_spec pt i p Es ls done_ cur ln : length Es = length ls →
  Forall (λ E, match E with EHead name => (length name < seccap)%nat | _ => True end) Es → length pt = length done_ →
  block_loop (pt ++ tables_of ln Es) p (length done_) (marked i (length done_) Es ls)
    (done_ ++ cur :: replicate (heads Es) (SaveBlock 0 (-1) [])) = (placed i (length done_) Es ls, done_ ++ blocks_of p cur Es).
Proof.
  revert pt i p ls done_ cur ln. induction Es as [|E Es IH]; intros pt i p [|l ls] done_ cur ln Hl HF Hpt; simplify_eq/=; [done|].
  apply Forall_cons in HF as [HE HF]. destruct E as [|name|k v tx]; cbn [app marked placed block_loop l_header l_entry update].
  - cbn. by rewrite IH.
  - change (l_header (plain_line l <| l_header := Some (length done_) |>)) with (Some (length done_)). cbv iota beta.
    rewrite lookup_app_r, Hpt, Nat.sub_diag by lia. cbn [lookup list_lookup fmap option_fmap option_map default from_option snd id].
    assert ((length name <? 256)%nat = true) as -> by (apply Nat.ltb_lt; exact HE).
    change (done_ ++ cur :: replicate (1 + heads Es) (SaveBlock 0 (-1) [])) with
      (done_ ++ [cur] ++ SaveBlock 0 (-1) [] :: replicate (heads Es) (SaveBlock 0 (-1) [])).
    rewrite app_assoc. replace (S (length done_)) with (length (done_ ++ [cur])) by (rewrite length_app; cbn; lia).
    rewrite alter_app_at. change (pt ++ (ln, name) :: tables_of (ln + 1) Es) with (pt ++ [(ln, name)] ++ tables_of (ln + 1) Es).
    rewrite (app_assoc pt), IH; [|done|done|by rewrite !length_app, Hpt]. by rewrite <-app_assoc.
  - change (l_header (plain_line l <| l_entry := Some i |>)) with (@None nat).
    change (l_entry (plain_line l <| l_entry := Some i |>)) with (Some i). cbv iota beta.
    rewrite alter_app_at, IH by done. done.
Qed.

Lemma layout_spec txt Es : Forall2 acts (split txt) Es →
  layout txt (Some (Toml (entries_of 1 [] Es) (tables_of 1 Es))) =
    (placed 0 0 Es (split txt), blocks_of 0 (SaveBlock 0 (-1) []) Es).
Proof.
  intros HA. pose proof (Forall2_length _ _ _ HA) as Hl. unfold layout. cbn [entries_of_file tables_of_file from_option TomlParse.e tb].
  pose proof (mark_entries_spec 0 0 [] Es [] (split txt) eq_refl (eq_sym Hl)) as H1. cbn [app] in H1. change (Z.of_nat 0 + 1) with 1 in H1. rewrite H1.
  pose proof (mark_tables_spec 0 0 0 Es [] (split txt) 1 eq_refl (eq_sym Hl)) as H2. cbn [app] in H2. change (Z.of_nat 0 + 1) with 1 in H2. rewrite H2.
  apply (block_loop_spec [] 0 0 Es (split txt) [] (SaveBlock 0 (-1) []) 1); [done| |done].
  clear -HA. induction HA as [|l E ls Es H _ IH]; constructor; [|done]. destruct E; [done| |done]. cbn in H. tauto.
Qed.

Lemma blocks_of_head p cur Es : ∃ B bs, blocks_of p cur Es = B :: bs ∧ b_section B = b_section cur ∧ b_first B = b_first cur.
Proof.
  revert p cur. induction Es as [|[|name|k v tx] Es IH]; intros p cur; cbn [blocks_of]; [by eexists _, _|apply IH|by eexists _, _|].
  destruct (IH (S p) (cur <| b_last := Z.of_nat p |>)) as (B & bs & ->&?&?). by exists B, bs.
Qed.
(** The line [q] of a file: what it does, and its block, whose section is the one the
    parser is in after it. *)
Lemma placed_line i j p cur Es ls q l : placed i j Es ls !! q = Some l → length Es = length ls →
  ∃ E B, Es !! q = Some E ∧ ls !! q = Some (l_text l) ∧ (j ≤ l_block l)%nat ∧
    blocks_of p cur Es !! (l_block l - j)%nat = Some B ∧ b_section B = section_at (b_section cur) (take (S q) Es).
Proof.
  revert i j p cur ls q. induction Es as [|E Es IH]; intros i j p cur [|x ls] q Hq Hl; [by destruct q|by destruct q|done|].
  injection Hl as Hl. cbn [placed blocks_of] in *.
  destruct E as [|name|k v tx]; destruct q as [|q]; cbn [lookup list_lookup] in Hq |- *; try (injection Hq as <-).
  - exists ENone. destruct (blocks_of_head (S p) cur Es) as (B & bs & -> & Hs & _). cbn [l_block l_text]. rewrite Nat.sub_diag. by exists B.
  - destruct (IH _ _ (S p) cur _ _ Hq Hl) as (E & B & ?&?&?&?&?). by exists E, B.
  - exists (EHead name). destruct (blocks_of_head (S p) (SaveBlock p (-1) name) Es) as (B & bs & HB & Hs & _).
    exists B. rewrite HB. cbn [l_block l_text]. replace (S j - j)%nat with 1%nat by lia. split_and!; try done. lia.
  - destruct (IH _ _ (S p) (SaveBlock p (-1) name) _ _ Hq Hl) as (E & B & HE & Hx & Hj & HB & Hs). exists E, B.
    replace (l_block l - j)%nat with (S (l_block l - S j)) by lia. split_and!; try done. lia.
  - exists (EPair k v tx). destruct (blocks_of_head (S p) (cur <| b_last := Z.of_nat p |>) Es) as (B & bs & HB & Hs & _).
    exists B. rewrite HB. cbn [l_block l_text]. rewrite Nat.sub_diag. done.
  - destruct (IH _ _ (S p) (cur <| b_last := Z.of_nat p |>) _ _ Hq Hl) as (E & B & ?&?&?&?&?). by exists E, B.
Qed.
Lemma placed_entry i j pre ln sec Es ls q l : placed i j Es ls !! q = Some l → length Es = length ls → length pre = i →
  match Es !! q with
  | Some (EPair k v tx) => ∃ n ln', l_entry l = Some n ∧
      (pre ++ entries_of ln sec Es) !! n = Some (Entry (section_at sec (take q Es)) k tx v ln' false false)
  | _ => l_entry l = None
  end.
Proof.
  revert i j pre ln sec ls q. induction Es as [|E Es IH]; intros i j pre ln sec [|x ls] q Hq Hl Hi; [by destruct q|by destruct q|done|].
  injection Hl as Hl. cbn [placed entries_of] in *.
  destruct E as [|name|k v tx]; destruct q as [|q]; cbn [lookup list_lookup] in Hq |- *; try (injection Hq as <-); try done.
  - by apply (IH _ _ pre (ln + 1) sec _ _ Hq Hl).
  - by apply (IH _ _ pre (ln + 1) name _ _ Hq Hl).
  - exists i, ln. split; [done|]. by rewrite lookup_app_r, Hi, Nat.sub_diag by lia.
  - specialize (IH _ _ (pre ++ [Entry sec k tx v ln false false]) (ln + 1) sec _ _ Hq Hl).
    rewrite <-app_assoc in IH. apply IH. rewrite length_app. cbn. lia.
Qed.
Lemma length_placed i j Es ls : length Es = length ls → length (placed i j Es ls) = length Es.
Proof. revert i j ls. induction Es as [|[] Es IH]; intros i j [|l ls] H; simplify_eq/=; [done|..]; by rewrite IH. Qed.

Lemma blocks_place p cur Es j B : blocks_of p cur Es !! j = Some B →
  (0 ≤ b_last B → (j = 0%nat ∧ b_last B = b_last cur) ∨
     ∃ q, b_last B = Z.of_nat (p + q) ∧ (q < length Es)%nat ∧ section_at (b_section cur) (take (S q) Es) = b_section B) ∧
  ((0 < j)%nat → ∃ q, b_first B = (p + q)%nat ∧ (q < length Es)%nat ∧ section_at (b_section cur) (take (S q) Es) = b_section B) ∧
  (j = 0%nat → b_section B = b_section cur).
Proof.
  revert p cur j. induction Es as [|E Es IH]; intros p cur j HB.
  { destruct j as [|j]; cbn in HB; simplify_eq. split_and!; [by left|lia|done]. }
  assert (Hmap : ∀ cur' j', b_section cur' = sec_after E (b_section cur) → blocks_of (S p) cur' Es !! j' = Some B →
    (0 ≤ b_last B → (j' = 0%nat ∧ b_last B = b_last cur') ∨
       ∃ q, b_last B = Z.of_nat (p + q) ∧ (q < length (E :: Es))%nat ∧ section_at (b_section cur) (take (S q) (E :: Es)) = b_section B) ∧
    ((0 < j')%nat → ∃ q, b_first B = (p + q)%nat ∧ (q < length (E :: Es))%nat ∧ section_at (b_section cur) (take (S q) (E :: Es)) = b_section B) ∧
    (j' = 0%nat → b_section B = b_section cur')).
  { intros cur' j' Hc HB'. destruct (IH (S p) cur' j' HB') as (H1 & H2 & H3). split_and!; [| |done].
    - intros Hp. destruct (H1 Hp) as [?|(q & Hb & Hq & Hs)]; [by left|right]. exists (S q). cbn [length take section_at].
      rewrite <-Hc. split_and!; [lia|lia|done].
    - intros Hp. destruct (H2 Hp) as (q & Hb & Hq & Hs). exists (S q). cbn [length take section_at].
      rewrite <-Hc. split_and!; [lia|lia|done]. }
  destruct E as [|name|k v tx]; cbn [blocks_of] in HB.
  - by apply (Hmap cur j).
  - destruct j as [|j]; cbn in HB; [simplify_eq; split_and!; [by left|lia|done]|].
    destruct (Hmap (SaveBlock p (-1) name) j eq_refl HB) as (H1 & H2 & H3). split_and!; [| |done].
    + intros Hp. destruct (H1 Hp) as [[-> Hb]|?]; [cbn in Hb; lia|by right].
    + intros _. destruct j as [|j]; [|apply H2; lia]. exists 0%nat. cbn [length take section_at sec_after].
      destruct (blocks_of_head (S p) (SaveBlock p (-1) name) Es) as (B' & bs & Hbs & Hs & Hf). rewrite Hbs in HB. cbn in HB.
      simplify_eq. rewrite Hf, Hs. cbn. split_and!; [lia|lia|by destruct Es].
  - destruct (Hmap (cur <| b_last := Z.of_nat p |>) j ltac:(by destruct cur) HB) as (H1 & H2 & H3). split_and!; [|done|done].
    intros Hp. destruct (H1 Hp) as [[-> Hb]|?]; [right|by right]. exists 0%nat. cbn [length take section_at sec_after].
    rewrite Hb. cbn [b_last update]. split_and!; [cbn; lia|lia|]. rewrite H3 by done. by destruct Es.
Qed.
(** Down to the first header the parser is in no section. *)
Lemma blocks_top p cur Es :
  match blocks_of p cur Es !! 1%nat with
  | Some B => ∃ q, b_first B = (p + q)%nat ∧ (q < length Es)%nat ∧
      ∀ n, (n ≤ q)%nat → section_at (b_section cur) (take n Es) = b_section cur
  | None => ∀ n, section_at (b_section cur) (take n Es) = b_section cur
  end.
Proof.
  revert p cur. induction Es as [|E Es IH]; intros p cur; [by intros []|].
  destruct E as [|name|k v tx]; cbn [blocks_of].
  - specialize (IH (S p) cur). destruct (_ !! 1%nat) as [B|].
    + destruct IH as (q & Hb & Hq & Hs). exists (S q). cbn [length]. split_and!; [lia|lia|]. intros [|n] Hn; [done|]. apply Hs. lia.
    + intros [|n]; [done|]. apply IH.
  - destruct (blocks_of_head (S p) (SaveBlock p (-1) name) Es) as (B & bs & -> & _ & Hf). cbn. exists 0%nat. rewrite Hf. cbn.
    split_and!; [lia|lia|]. intros n Hn. by replace n with 0%nat by lia.
  - specialize (IH (S p) (cur <| b_last := Z.of_nat p |>)). destruct (_ !! 1%nat) as [B|].
    + destruct IH as (q & Hb & Hq & Hs). exists (S q). cbn [length]. split_and!; [lia|lia|]. intros [|n] Hn; [done|]. apply Hs. lia.
    + intros [|n]; [done|]. apply IH.
Qed.

End SaveFileFacts.
