(* ===== verification/SaveAdds.v ===== *)
(** * Where a save's additions go

    Every setting a save adds is put where the parser is in a section the setting's key
    lies under, so that the key it is written with there is the setting's own. *)

From S2P Require Import Prelude Toml TomlParse Settings Save TomlFacts SaveFacts ParseFacts SaveFile SaveFileFacts.
From Stdlib Require Import Ascii.

Module SaveAdds.
Import Toml TomlParse Settings Save TomlFacts SaveFacts ParseFacts SaveFile SaveFileFacts.

Section adds.
Context {W : Type}.
Implicit Types (x : setting W).
#[local] Notation addition := (@save_add W).

Lemma seclen_dot key : (0 < seclen key)%nat → key !! seclen key = Some "."%char.
Proof.
  unfold seclen. destruct (list_find _ _) as [[k c]|] eqn:Hf; [|lia]. intros _.
  apply list_find_Some in Hf as (Hk & -> & _). apply reverse_lookup_Some in Hk as [Hk ?].
  by replace (length key - 1 - k)%nat with (length key - S k)%nat by lia.
Qed.
(** A key taken apart at a dot and put together. *)
Lemma dotted_split n key : (0 < n)%nat → key !! n = Some "."%char → dotted_of (take n key) (drop (S n) key) = key.
Proof.
  intros Hn Hk. pose proof (lookup_lt_Some _ _ _ Hk) as Hl. unfold dotted_of.
  assert (Hne : ∃ c y, take n key = c :: y) by (destruct key, n; cbn in *; [lia..|by eexists _, _]).
  destruct Hne as (c & y & Ht). rewrite Ht. rewrite <-Ht. cbn [app].
  rewrite <-(drop_S _ _ _ Hk). apply take_drop.
Qed.

(** The wanted place: the section there and the written key give the setting's key. *)
Definition fits (Es : list effect) (A : addition) : Prop :=
  let key := s_key (A_e A) in
  if A_at_end A then (0 < seclen key < 255)%nat ∧ A_skip A = S (seclen key)
  else -1 ≤ A_after A < Z.of_nat (length Es) ∧
    dotted_of (section_at [] (take (Z.to_nat (A_after A + 1)) Es)) (drop (A_skip A) key) = key.

Section file.
Context (txt : text) (Es : list effect).
Hypothesis Hacts : Forall2 acts (split txt) Es.
Let es := entries_of 1 [] Es.
Let ls := placed 0 0 Es (split txt).
Let bs := blocks_of 0 (SaveBlock 0 (-1) []) Es.

Lemma block_zero : ∃ B, bs !! 0%nat = Some B ∧ b_section B = [].
Proof. destruct (blocks_of_head 0 (SaveBlock 0 (-1) []) Es) as (B & l & HB & Hs & _). exists B. unfold bs. by rewrite HB. Qed.
Lemma target_ok key j skip : target_of es ls bs key = Some (j, skip) →
  ∃ B, bs !! j = Some B ∧ dotted_of (b_section B) (drop skip key) = key.
Proof.
  unfold target_of. destruct block_zero as (B0 & HB0 & Hs0).
  destruct ((seclen key =? 0)%nat || (255 <=? seclen key)%nat) eqn:Hsl; [intros [= <- <-]; exists B0; by rewrite Hs0|].
  apply orb_false_iff in Hsl as [Hsl%Nat.eqb_neq _].
  assert (Hdot : key !! seclen key = Some "."%char) by (apply seclen_dot; lia).
  destruct (own_block (take (seclen key) key) bs) as [j'|] eqn:Ho.
  - intros [= <- <-]. unfold own_block in Ho. destruct (list_find _ _) as [[i B]|] eqn:Hf; [|done]. simplify_eq.
    apply list_find_Some in Hf as (HB & HS & _). exists B. rewrite lookup_drop in HB. split; [done|].
    unfold has_section in HS. apply Is_true_true, bool_decide_eq_true in HS as ->. apply dotted_split; [lia|done].
  - assert (Hall : ∀ q l, ls !! q = Some l → is_Some (bs !! l_block l)).
    { intros q l Hq. destruct (placed_line 0 0 0 (SaveBlock 0 (-1) []) _ _ _ _ Hq) as (E & B & _ & _ & _ & HB & _);
        [symmetry; by eapply Forall2_length|]. rewrite Nat.sub_0_r in HB. by exists B. }
    revert Hall. generalize ls. intros l0. induction l0 as [|l l0 IH]; [done|]. intros Hall. cbn [first_sibling].
    destruct (sibling es bs key (seclen key) l) as [r|] eqn:Hsib; [|apply IH; intros q; apply (Hall (S q))].
    intros [= ->]. unfold sibling in Hsib. destruct (l_entry l ≫= _) as [en|]; [|done].
    destruct (_ && _); [|done]. destruct (Hall 0%nat l eq_refl) as [B HB]. rewrite HB in Hsib. cbn [from_option] in Hsib.
    destruct (length (b_section B) =? 0)%nat eqn:Hz; cbn [negb andb] in Hsib.
    + simplify_eq. exists B. split; [done|]. apply Nat.eqb_eq, length_zero_iff_nil in Hz. by rewrite Hz.
    + destruct (_ || _) eqn:Hor; [done|]. simplify_eq. exists B. split; [done|].
      rewrite !orb_false_iff, !negb_false_iff, !bool_decide_eq_true in Hor. destruct Hor as [[_ Htk] Hd].
      rewrite <-Htk at 1. apply Nat.eqb_neq in Hz. apply dotted_split; [lia|done].
Qed.

Lemma above_comment_le h l : (above_comment h l ≤ h)%nat.
Proof. induction h as [|h IH]; cbn; [done|]. destruct (from_option _ _ _); lia. Qed.
Lemma top_ok : let n := top_place ls bs in
  -1 ≤ n < Z.of_nat (length Es) ∧ section_at [] (take (Z.to_nat (n + 1)) Es) = [].
Proof.
  unfold top_place. pose proof (blocks_top 0 (SaveBlock 0 (-1) []) Es) as Ht. fold bs in Ht. cbn zeta.
  destruct (bs !! 1%nat) as [B|].
  - destruct Ht as (q & Hb & Hq & Hs). cbn in Hb. pose proof (above_comment_le (b_first B) ls) as Hle. split; [lia|].
    replace (Z.of_nat (above_comment (b_first B) ls) - 1 + 1) with (Z.of_nat (above_comment (b_first B) ls)) by lia.
    rewrite Nat2Z.id. apply (Hs _). lia.
  - unfold ls. rewrite length_placed by (symmetry; by eapply Forall2_length). split; [lia|]. apply Ht.
Qed.

(** What a save in place adds: the settings set live that the file does not have. *)
Definition wanted (t : gptps_toml) x : bool :=
  bool_decide (find_dotted t (s_key x) = None) && negb (s_nosave x) && s_dirty x.
Lemma add_loop_spec in_file xs top As top' : top = None ∨ top = Some (top_place ls bs) →
  add_loop (Some (Toml es (tables_of 1 Es))) in_file false ls bs xs top = (As, top') →
  map A_e As = List.filter (wanted (Toml es (tables_of 1 Es))) xs ∧ Forall (λ A, A_file A = None ∧ fits Es A) As.
Proof.
  set (t := Toml es (tables_of 1 Es)). revert top As top'. induction xs as [|x xs IH]; intros top As top' Htop; cbn [add_loop List.filter].
  { intros [= <- <-]. by split. }
  unfold wanted at 1. cbn [andb]. rewrite orb_false_r. destruct (find_dotted t (s_key x)) as [en|] eqn:Hf.
  { rewrite bool_decide_true, bool_decide_false by done. by apply IH. }
  rewrite bool_decide_false by (by intros []). rewrite bool_decide_true by done. cbn [andb]. unfold save_wants.
  destruct (s_nosave x); cbn [negb andb]; [by apply IH|]. destruct (s_dirty x); [|by apply IH].
  change (entries_of_file (Some t)) with es. destruct (target_of es ls bs (s_key x)) as [[j skip]|] eqn:Ht.
  - destruct (target_ok _ _ _ Ht) as (B & HB & Hd). rewrite HB. cbn [default from_option id].
    destruct (blocks_place _ _ _ _ _ HB) as (Hlast & Hfirst & _). cbn [b_last b_section] in Hlast, Hfirst.
    assert (HA : ∃ after top1, fits Es (SaveAdd x after false skip None) ∧ (top1 = None ∨ top1 = Some (top_place ls bs)) ∧
      (if 0 <=? b_last B then (SaveAdd x (b_last B) false skip None, top)
       else if (0 <? j)%nat then (SaveAdd x (Z.of_nat (b_first B)) false skip None, top)
       else (SaveAdd x (default (top_place ls bs) top) false skip None, Some (default (top_place ls bs) top))) =
      (SaveAdd x after false skip None, top1)).
    { destruct (Z.leb_spec 0 (b_last B)) as [Hl|_].
      - eexists _, _. split; [|split; [exact Htop|done]]. destruct (Hlast Hl) as [[_ E]|(q & -> & Hq & Hs)]; [lia|].
        unfold fits. cbn [A_at_end A_after A_skip A_e]. split; [lia|].
        replace (Z.to_nat (Z.of_nat (0 + q) + 1)) with (S q) by lia. by rewrite Hs.
      - destruct (Nat.ltb_spec 0 j) as [Hj|Hj].
        + eexists _, _. split; [|split; [exact Htop|done]]. destruct (Hfirst Hj) as (q & -> & Hq & Hs).
          unfold fits. cbn [A_at_end A_after A_skip A_e]. split; [lia|].
          replace (Z.to_nat (Z.of_nat (0 + q) + 1)) with (S q) by lia. by rewrite Hs.
        + assert (default (top_place ls bs) top = top_place ls bs) as E by (by destruct Htop as [-> | ->]). rewrite E.
          eexists _, _. split; [|split; [right; reflexivity|done]]. destruct top_ok as [Hr Hs].
          unfold fits. cbn [A_at_end A_after A_skip A_e]. split; [done|]. rewrite Hs.
          replace j with 0%nat in HB by lia. destruct block_zero as (B0 & HB0 & Hs0). simplify_eq. by rewrite Hs0 in Hd. }
    destruct HA as (after & top1 & Hfit & Htop1 & ->). destruct (add_loop _ _ _ _ _ xs top1) as [As1 top2] eqn:Hadd.
    intros [= <- <-]. destruct (IH _ _ _ Htop1 Hadd) as [Hm HF]. cbn [map A_e]. rewrite Hm. split; [done|]. by constructor.
  - destruct (add_loop _ _ _ _ _ xs top) as [As1 top2] eqn:Hadd. intros [= <- <-]. destruct (IH _ _ _ Htop Hadd) as [Hm HF].
    cbn [map A_e]. rewrite Hm. split; [done|]. constructor; [|done]. split; [done|]. unfold fits. cbn [A_at_end A_skip A_e].
    unfold target_of in Ht. destruct ((seclen (s_key x) =? 0)%nat || (255 <=? seclen (s_key x))%nat) eqn:Hsl; [done|].
    apply orb_false_iff in Hsl as [Hsl%Nat.eqb_neq Hsl'%Nat.leb_gt]. split; [lia|done].
Qed.
End file.

End adds.
End SaveAdds.
