(* ===== verification/Saved.v ===== *)
(** * What a save writes, read back

    The text of [write_settings] line by line: each line copied, rewritten or added does
    in the parse of the new file what it should, and the file the parser then gives holds
    the old keys, the values set live, and nothing else. *)

From S2P Require Import Prelude Toml TomlParse Settings Save TomlFacts PathFacts SaveFacts ValueFacts ParseFacts.
From S2P Require Import SaveFile SaveFileFacts SaveAdds SettingsFacts Engine.
From Stdlib Require Import Ascii.

Module Saved.
Import Toml TomlParse Settings Save TomlFacts PathFacts SaveFacts ValueFacts ParseFacts SaveFile SaveFileFacts SaveAdds SettingsFacts.
Import Engine(status, GPTPS_OK, status_eq_dec).

(** ** The characters a save writes *)





(** ** Values and effects *)

Section saved.
Context {W : Type} (w : W) (r : settings W).
Implicit Types (x : setting W).
#[local] Notation addition := (@save_add W).



(** ** The lines of the file *)



(** ** All the lines *)



(** ** The new sections *)



(** ** The whole file *)


End saved.

(** ** The parsed file as a map *)





End Saved.
