(* ===== verification/HMap.v ===== *)
(** * The router's hash tables: [hmap] of [src/addons/gptps_balance.c]

    The same open addressing as the engine's index - the hash, the probes, Algorithm R -
    but a table three quarters full before it doubles, and a put that overwrites.  It is
    proved to be a finite map, which is what Balance.v takes it for. *)

From S2P Require Import Prelude HandleIndex.

Module HMap.
Import HandleIndex.

(** ** The code *)

(** [hmap]: the table and [n]; [cap] is the table's length.  A slot is a key - zero when
    it is empty - and the item. *)
Abbreviation hmap := hidx (only parsing).
Definition hm_new : hmap := Hidx [] 0.

Definition hh (x cap : Z) : Z :=
  let x := Z.lxor x (Z.shiftr x 33) in
  let x := u64 (x * 0xff51afd7ed558ccd) in
  let x := Z.lxor x (Z.shiftr x 33) in
  Z.land x (cap - 1).

(** The probe of [hm_get], from [i]: [None] would be one that never ends. *)
Fixpoint get_loop (fuel : nat) (t : list hslot) (k i : Z) : option (option ptr) :=
  match fuel with
  | O => None
  | S f =>
      if s_h (slot t i) =? k then Some (s_it (slot t i))
      else if s_h (slot t i) =? 0 then Some None
      else get_loop f t k (next t i)
  end.
Definition hm_get (m : hmap) (k : Z) : option (option ptr) :=
  if nslots (tab m) =? 0 then Some None
  else get_loop (length (tab m)) (tab m) k (hh k (nslots (tab m))).

(** [room]: whether [calloc] finds the memory - it refuses a size that does not fit. *)
Definition hm_grow (room : bool) (m : hmap) : option (bool * hmap) :=
  let nc := if nslots (tab m) =? 0 then 64 else u64 (nslots (tab m) * 2) in
  if room && (nc * sizeof_hslot <=? SIZE_MAX) then
    nt ← rebuild_loop (tab m) (replicate (Z.to_nat nc) empty_slot);
    Some (true, m <| tab := nt |>)
  else Some (false, m).

(** The probe of [hm_put]: the slot of the key, or a free one. *)
Fixpoint put_loop (fuel : nat) (t : list hslot) (k i : Z) : option (bool * Z) :=
  match fuel with
  | O => None
  | S f =>
      if occupied t i
      then if s_h (slot t i) =? k then Some (true, i) else put_loop f t k (next t i)
      else Some (false, i)
  end.
(** [Some (false, m)] is the code's [-1]. *)
Definition hm_put (room : bool) (m : hmap) (k : Z) (v : ptr) : option (bool * hmap) :=
  '(ok, m) ← (if u64 (u64 (live m + 1) * 4) >? u64 (nslots (tab m) * 3) then hm_grow room m else Some (true, m));
  if negb ok then Some (false, m)
  else
    '(there, i) ← put_loop (length (tab m)) (tab m) k (hh k (nslots (tab m)));
    if (there : bool) then Some (true, m <| tab := set_slot (tab m) i (HSlot (s_h (slot (tab m) i)) (Some v)) |>)
    else Some (true, Hidx (set_slot (tab m) i (HSlot k (Some v))) (live m + 1)).

(** The two loops of [hm_del]. *)
Fixpoint del_find (fuel : nat) (t : list hslot) (k i : Z) : option (option Z) :=
  match fuel with
  | O => None
  | S f =>
      if s_h (slot t i) =? k then Some (Some i)
      else if s_h (slot t i) =? 0 then Some None
      else del_find f t k (next t i)
  end.
Fixpoint del_gap (fuel : nat) (t : list hslot) (i j : Z) : option (list hslot * Z) :=
  match fuel with
  | O => None
  | S f =>
      let j := next t j in
      if occupied t j then
        let h := hh (s_h (slot t j)) (nslots t) in
        if (if i <=? j then (h <=? i) || (j <? h) else (h <=? i) && (j <? h))
        then del_gap f (set_slot t i (slot t j)) j j
        else del_gap f t i j
      else Some (t, i)
  end.
Definition hm_del (m : hmap) (k : Z) : option hmap :=
  if nslots (tab m) =? 0 then Some m
  else
    r ← del_find (length (tab m)) (tab m) k (hh k (nslots (tab m)));
    match r with
    | None => Some m
    | Some i =>
        '(t, i) ← del_gap (length (tab m)) (tab m) i i;
        Some (Hidx (set_slot t i empty_slot) (live m - 1))
    end.

(** ** Probing *)

(** The searches of the three operations stop where the index's do, as there is a free
    slot to stop at. *)
Lemma get_loop_find fuel t k i e : k ≠ 0 → probe_free fuel t i = Some e →
  get_loop fuel t k i = Some (p ← find_loop fuel t k i; s_it (slot t p)).
Proof.
  intros Hk. revert i. induction fuel as [|f IH]; intros i; [done|]. cbn [probe_free get_loop find_loop].
  unfold occupied. destruct (Z.eqb_spec (s_h (slot t i)) 0) as [H0|H0]; cbn [negb].
  - intros _. rewrite H0. by destruct (Z.eqb_spec 0 k).
  - intros Hp. destruct (s_h (slot t i) =? k); [done|]. by apply IH.
Qed.
Lemma put_loop_find fuel t k i e : k ≠ 0 → probe_free fuel t i = Some e →
  put_loop fuel t k i = Some (match find_loop fuel t k i with Some p => (true, p) | None => (false, e) end).
Proof.
  intros Hk. revert i. induction fuel as [|f IH]; intros i; [done|]. cbn [probe_free put_loop find_loop].
  destruct (occupied t i) eqn:Ho; [|by intros [= ->]]. intros Hp.
  destruct (s_h (slot t i) =? k); [done|]. by apply IH.
Qed.
Lemma del_find_find fuel t k i e : k ≠ 0 → probe_free fuel t i = Some e →
  del_find fuel t k i = Some (find_loop fuel t k i).
Proof.
  intros Hk. revert i. induction fuel as [|f IH]; intros i; [done|]. cbn [probe_free del_find find_loop].
  unfold occupied. destruct (Z.eqb_spec (s_h (slot t i)) 0) as [H0|H0]; cbn [negb].
  - intros _. rewrite H0. by destruct (Z.eqb_spec 0 k).
  - intros Hp. destruct (s_h (slot t i) =? k); [done|]. by apply IH.
Qed.

Definition home (m : hmap) (k : Z) : Z := hh k (nslots (tab m)).

(** From any home the probe meets a free slot. *)
Lemma probe_ends m g k : repr m g → tab m ≠ [] →
  ∃ e, probe_free (length (tab m)) (tab m) (home m k) = Some e ∧ in_range (tab m) e ∧ occupied (tab m) e = false.
Proof.
  intros Hr Hne. destruct (exists_free m g Hr Hne) as (e & He & Ho).
  assert (Hs : sized (tab m)) by (destruct (r_sized m g Hr); done).
  pose proof (hidx_slot_range (tab m) k Hs) as Hh.
  destruct (probe_free_spec (length (tab m)) (tab m) (home m k) e) as (f & Hf & ? & ? & _); eauto.
  change (home m k) with (hidx_slot k (nslots (tab m))). unfold in_range in *.
  pose proof (dist_spec (nslots (tab m)) (hidx_slot k (nslots (tab m))) e Hh He). unfold nslots in *. lia.
Qed.
Lemma nslots_0 t : nslots t = 0 ↔ t = [].
Proof. unfold nslots. by destruct t. Qed.
Lemma find_eq m k : tab m ≠ [] → k ≠ 0 →
  hidx_find m k = find_loop (length (tab m)) (tab m) k (home m k).
Proof.
  intros Hne Hk. unfold hidx_find. rewrite (proj2 (Z.eqb_neq _ _)) by (by rewrite nslots_0).
  by rewrite (proj2 (Z.eqb_neq _ _) Hk).
Qed.

Lemma hm_get_spec m g k : repr m g → k ≠ 0 → hm_get m k = Some (g !! k).
Proof.
  intros Hr Hk. rewrite <-(hidx_lookup_eq m g k Hr). unfold hm_get, hidx_lookup.
  destruct (Z.eqb_spec (nslots (tab m)) 0) as [H0|H0].
  - unfold hidx_find. by rewrite H0.
  - assert (Hne : tab m ≠ []) by by rewrite <-nslots_0.
    destruct (probe_ends m g k Hr Hne) as (e & He & _). rewrite find_eq by done. by eapply get_loop_find.
Qed.

(** ** Put *)

(** Overwriting the item of a key that is there. *)
Lemma set_value_repr m g p it v : repr m g → in_range (tab m) p →
  slot (tab m) p = HSlot (s_h (slot (tab m) p)) (Some it) → s_h (slot (tab m) p) ≠ 0 →
  repr (m <| tab := set_slot (tab m) p (HSlot (s_h (slot (tab m) p)) (Some v)) |>) (<[s_h (slot (tab m) p) := v]> g).
Proof.
  intros Hr Hp Hsl Hk. set (k := s_h (slot (tab m) p)) in *. set (t := set_slot _ _ _).
  assert (Hh : ∀ q, in_range (tab m) q → s_h (slot t q) = s_h (slot (tab m) q)).
  { intros q Hq. unfold t. rewrite slot_set by (done || by unfold in_range in *; lia). by case_decide; subst. }
  assert (Ho : ∀ q, in_range (tab m) q → occupied t q = occupied (tab m) q).
  { intros q Hq. unfold occupied. by rewrite Hh. }
  assert (Hn : nslots t = nslots (tab m)) by apply nslots_set.
  assert (Hin : ∀ q, in_range t q ↔ in_range (tab m) q) by (intros q; apply in_range_set).
  change (m <| tab := t |>) with (Hidx t (live m)). constructor; cbn [tab live].
  - destruct (r_sized m g Hr) as [H0|Hs]; [|right; by apply sized_set].
    rewrite H0 in Hp. unfold in_range, nslots in Hp. cbn in Hp. lia.
  - intros q Hq Hoq r Hrr Hd. rewrite Hin in Hq, Hrr. rewrite Hn, Hh in Hd by done. rewrite Ho in Hoq |- * by done.
    by apply (r_probe m g Hr q).
  - intros q r Hq Hrr Hoq Heq. rewrite Hin in Hq, Hrr. rewrite Ho in Hoq by done. rewrite !Hh in Heq by done.
    by apply (r_uniq m g Hr).
  - intros q Hq Hoq. rewrite Hin in Hq. rewrite Ho in Hoq by done. unfold t.
    rewrite slot_set by (done || by unfold in_range in *; lia). case_decide; [by eexists|]. by apply (r_full m g Hr).
  - assert (Hgk : g !! k = Some it) by (apply (r_map m g Hr); split; [done|by exists p]).
    intros k' it'. rewrite lookup_insert_Some. split.
    + intros [[<- <-]|[Hkk Hg]].
      * split; [done|]. exists p. rewrite Hin. split; [done|]. by apply slot_set_eq.
      * apply (r_map m g Hr) in Hg as (Hk' & q & Hq & Hs). split; [done|]. exists q. rewrite Hin. split; [done|].
        unfold t. rewrite slot_set_ne; [done|done|unfold in_range in *; lia|]. intros ->. apply Hkk. unfold k. by rewrite Hs.
    + intros (Hk' & q & Hq & Hs). rewrite Hin in Hq. unfold t in Hs.
      rewrite slot_set in Hs by (done || by unfold in_range in *; lia). case_decide as Hpq; [left; by injection Hs|].
      right. assert (Hg : g !! k' = Some it') by (apply (r_map m g Hr); eauto). split; [|done].
      intros <-. apply Hpq. apply (r_uniq m g Hr); [done|done| |by rewrite Hs]. by apply occupied_true.
  - assert (Hgk : g !! k = Some it) by (apply (r_map m g Hr); split; [done|by exists p]).
    rewrite map_size_insert_Some by by eexists. apply (r_live m g Hr).
  - rewrite Hn. apply (r_load m g Hr).
Qed.

(** What [calloc] can have given. *)
Definition bounded (m : hmap) : Prop := nslots (tab m) ≤ 2 ^ 60.

Lemma hm_grow_spec room m g : repr m g → bounded m →
  ∃ ok m', hm_grow room m = Some (ok, m') ∧ repr m' g ∧ bounded m' ∧ (ok = false → m' = m) ∧
    (ok = true → live m' = live m ∧ live m + 1 < nslots (tab m')) ∧
    (room = true → nslots (tab m) < 2 ^ 59 → ok = true).
Proof.
  intros Hr Hb. unfold hm_grow, bounded in *. set (nc := if nslots (tab m) =? 0 then 64 else _).
  assert (Hl0 : 0 ≤ live m) by (rewrite (r_live m g Hr); lia).
  assert (Hnc : (∃ k, 0 ≤ k ∧ nc = 2 ^ k) ∧ live m + 1 < nc ∧ (nslots (tab m) < 2 ^ 59 → nc < 2 ^ 60)).
  { unfold nc. destruct (Z.eqb_spec (nslots (tab m)) 0) as [H0|H0].
    - split; [by exists 6|]. destruct (r_load m g Hr); lia.
    - destruct (r_sized m g Hr) as [He|(k & Hk & Hn)]; [by rewrite He in H0|].
      rewrite u64_small by (unfold nslots in *; lia). rewrite Hn. split.
      + exists (k + 1). split; [lia|]. rewrite Z.pow_add_r by lia. lia.
      + destruct (r_load m g Hr); lia. }
  clearbody nc. destruct Hnc as (Hk & Hload & Hsmall). destruct room; cbn [andb].
  2: { exists false, m. split_and!; done. }
  destruct (Z.leb_spec (nc * sizeof_hslot) SIZE_MAX) as [Hf|Hf]; unfold sizeof_hslot, SIZE_MAX in Hf.
  - destruct (hidx_rebuild_spec m g nc Hr Hk) as (m' & Hm & Hr' & Hn & Hl); [lia|].
    exists true, m'. split; [exact Hm|]. split; [done|]. split; [lia|]. split; [done|]. split; [lia|done].
  - exists false, m. split_and!; try done. intros _ ?. lia.
Qed.

Lemma hm_put_spec room m g k v : repr m g → bounded m → k ≠ 0 →
  ∃ ok m', hm_put room m k v = Some (ok, m') ∧ repr m' (if ok then <[k := v]> g else g) ∧ bounded m' ∧
    (room = true → nslots (tab m) < 2 ^ 59 → ok = true).
Proof.
  intros Hr Hb Hk. unfold hm_put.
  assert (Hgrown : ∃ ok m', (if u64 (u64 (live m + 1) * 4) >? u64 (nslots (tab m) * 3) then hm_grow room m else Some (true, m))
    = Some (ok, m') ∧ repr m' g ∧ bounded m' ∧ (ok = true → live m' + 1 < nslots (tab m')) ∧
    (room = true → nslots (tab m) < 2 ^ 59 → ok = true)).
  { assert (Hl0 : 0 ≤ live m) by (rewrite (r_live m g Hr); lia).
    unfold bounded in Hb. pose proof (r_load m g Hr) as Hload. assert (0 ≤ nslots (tab m)) by (unfold nslots; lia).
    rewrite (u64_small (live m + 1)), !u64_small by lia. rewrite Z.gtb_ltb.
    destruct (Z.ltb_spec (nslots (tab m) * 3) ((live m + 1) * 4)) as [Hlt|Hge].
    - destruct (hm_grow_spec room m g Hr Hb) as (ok & m' & -> & Hr' & Hb' & _ & Ht & Hsm).
      exists ok, m'. split_and!; try done. intros Hok. destruct (Ht Hok) as [-> ?]. done.
    - exists true, m. split_and!; try done. lia. }
  destruct Hgrown as (ok & m' & Hg & Hr' & Hb' & Hload & Hsm). rewrite Hg. cbn [mbind option_bind].
  clear Hg Hr Hb. destruct ok; cbn [negb]; [|by exists false, m']. specialize (Hload eq_refl).
  assert (Hne : tab m' ≠ []) by (intros He; rewrite He in Hload; pose proof (r_live m' g Hr'); unfold nslots in Hload; cbn in Hload; lia).
  destruct (probe_ends m' g k Hr' Hne) as (e & He & Her & Heo).
  change (hh k (nslots (tab m'))) with (home m' k). rewrite (put_loop_find _ _ _ _ _ Hk He). rewrite <-(find_eq m' k Hne Hk).
  pose proof (hidx_find_spec m' g k Hr') as Hf. destruct (hidx_find m' k) as [p|]; cbn [mbind option_bind].
  - destruct Hf as (Hp & _ & Hpk & Hgp & [it Hit]). rewrite Hit in Hgp. eexists true, _. split; [done|]. split; [|split; [|done]].
    + pose proof (set_value_repr m' g p it v Hr' Hp) as H. rewrite Hpk in H |- *. apply H; [|done].
      destruct (slot (tab m') p); cbn in *. congruence.
    + unfold bounded. cbn. by rewrite nslots_set.
  - destruct Hf as [?|Hgk]; [done|]. eexists true, _. split; [done|]. split; [|split; [|done]].
    + destruct (put_slot_spec m' g k v Hr' Hk Hgk Hload) as (t & Ht & _ & Hrt). revert Ht. unfold put_slot. cbn [s_h].
      change (hidx_slot k (nslots (tab m'))) with (home m' k). rewrite He. cbn [mbind option_bind]. by intros [= <-].
    + unfold bounded. cbn [tab]. by rewrite nslots_set.
Qed.

(** ** Delete *)

(** The loop of [hm_del] is the index's, whose hole and scan are never the same slot. *)
Lemma del_gap_close fuel t i j e : sized t → in_range t j → gap t i (next t j) →
  in_range t e → e ≠ i → occupied t e = false → dist (nslots t) (next t j) e < Z.of_nat fuel →
  del_gap fuel t i j = close_gap fuel t i (next t j).
Proof.
  revert t i j. induction fuel as [|f IH]; intros t i j Hs Hjr Hg He Hei Hoe Hf; [done|]. cbn [del_gap close_gap].
  pose proof (g_i _ _ _ Hg) as Hi. pose proof (g_j _ _ _ Hg) as Hj. pose proof (g_ne _ _ _ Hg) as Hne.
  set (j1 := next t j) in *. destruct (occupied t j1) eqn:Ho; [|done].
  destruct (next_spec t j1 Hs Hj) as [Hnr Hn]. assert (j1 ≠ e) as Hje by congruence.
  assert (Hf' : dist (nslots t) (next t j1) e < Z.of_nat f) by (unfold in_range in *; case_decide; dist_lia).
  change (hh (s_h (slot t j1)) (nslots t)) with (hidx_slot (s_h (slot t j1)) (nslots t)).
  replace (i <=? j1) with (i <? j1) by (destruct (Z.ltb_spec i j1), (Z.leb_spec i j1); lia).
  fold (stays (nslots t) i j1 (hidx_slot (s_h (slot t j1)) (nslots t))).
  destruct (stays _ _ _ _) eqn:Hst.
  - assert (Hnx : ∀ x, next (set_slot t i (slot t j1)) x = next t x) by (intros x; unfold next; by rewrite nslots_set).
    rewrite <-(Hnx j1). apply IH.
    + by apply sized_set.
    + by apply in_range_set.
    + rewrite Hnx. apply gap_move; try done. unfold in_range in *. case_decide; lia.
    + by apply in_range_set.
    + congruence.
    + rewrite occupied_set_ne; [done|done|unfold in_range in *; lia|congruence].
    + by rewrite nslots_set, Hnx.
  - apply IH; try done. apply gap_skip; try done. intros Heq.
    assert (occupied t e = true); [|congruence].
    apply (g_between _ _ _ Hg e He). unfold in_range in *. case_decide; dist_lia.
Qed.

Lemma hm_del_spec m g k : repr m g → bounded m → k ≠ 0 →
  ∃ m', hm_del m k = Some m' ∧ repr m' (delete k g) ∧ bounded m'.
Proof.
  intros Hr Hb Hk. unfold hm_del. destruct (Z.eqb_spec (nslots (tab m)) 0) as [H0|H0].
  { exists m. split; [done|]. split; [|done]. rewrite delete_id; [done|].
    destruct (g !! k) as [it|] eqn:Hg; [|done]. apply (r_map m g Hr) in Hg as (_ & p & Hp & _).
    unfold in_range in Hp. lia. }
  assert (Hne : tab m ≠ []) by by rewrite <-nslots_0.
  destruct (probe_ends m g k Hr Hne) as (e & He & Her & Heo).
  change (hh k (nslots (tab m))) with (home m k). rewrite (del_find_find _ _ _ _ _ Hk He). rewrite <-(find_eq m k Hne Hk).
  cbn [mbind option_bind]. pose proof (hidx_find_spec m g k Hr) as Hf. destruct (hidx_find m k) as [i|] eqn:Hfind.
  2: { destruct Hf as [?|Hg]; [done|]. exists m. by rewrite delete_id. }
  destruct Hf as (Hi & _ & Hsi & Hgk & [it Hit]). destruct (hidx_del_spec m g k it Hr) as (m' & Hd & Hr' & Hn); [congruence|].
  assert (Hs : sized (tab m)) by (destruct (r_sized m g Hr); done).
  assert (Hoi : occupied (tab m) i = true) by (apply occupied_true; congruence). assert (Hei : e ≠ i) by congruence.
  destruct (next_spec (tab m) i Hs Hi) as [Hnr Hnx].
  exists m'. split; [|split; [done|unfold bounded; by rewrite Hn]]. rewrite <-Hd. unfold hidx_del. rewrite Hfind.
  rewrite (del_gap_close _ _ _ _ e); try done.
  - apply (gap_init m g); try done. unfold in_range in *. case_decide; lia.
  - unfold in_range in *. unfold nslots in *. dist_lia.
Qed.

(** ** The tables are maps *)

Inductive hm_op := Put (room : bool) (k : Z) (v : ptr) | Del (k : Z).
Definition key_of (o : hm_op) : Z := match o with Put _ k _ => k | Del k => k end.
(** The operation on the table and, when it succeeds, on a map. *)
Definition hm_run (o : hm_op) (m : hmap) (g : gmap Z ptr) : option (hmap * gmap Z ptr) :=
  match o with
  | Put room k v => '(ok, m) ← hm_put room m k v; Some (m, if (ok : bool) then <[k := v]> g else g)
  | Del k => m ← hm_del m k; Some (m, delete k g)
  end.
Fixpoint hm_play (os : list hm_op) (m : hmap) (g : gmap Z ptr) : option (hmap * gmap Z ptr) :=
  match os with
  | [] => Some (m, g)
  | o :: os => '(m, g) ← hm_run o m g; hm_play os m g
  end.

Lemma hm_play_ok os m g : repr m g → bounded m → Forall (λ o, key_of o ≠ 0) os →
  ∃ m' g', hm_play os m g = Some (m', g') ∧ repr m' g' ∧ bounded m'.
Proof.
  intros Hr Hb Hos. revert m g Hr Hb. induction Hos as [|o os Ho _ IH]; intros m g Hr Hb; [by exists m, g|].
  cbn [hm_play]. destruct o as [room k v|k]; cbn [hm_run key_of] in *.
  - destruct (hm_put_spec room m g k v Hr Hb Ho) as (ok & m' & -> & Hr' & Hb' & _). cbn [mbind option_bind]. by apply IH.
  - destruct (hm_del_spec m g k Hr Hb Ho) as (m' & -> & Hr' & Hb'). cbn [mbind option_bind]. by apply IH.
Qed.

(** C19: The router's hash tables are finite maps.  Whatever puts and deletes of handles
    are made on a new table, every probe ends and a search then finds exactly what the
    same operations leave in a map; [n] counts it; and while the table has not outgrown
    half the address space, a put fails only when there is no memory. *)
Theorem hmap_refines_map os : Forall (λ o, key_of o ≠ 0) os →
  ∃ m g, hm_play os hm_new ∅ = Some (m, g) ∧
    (∀ k, k ≠ 0 → hm_get m k = Some (g !! k)) ∧ live m = Z.of_nat (size g) ∧
    (∀ k v, k ≠ 0 → nslots (tab m) < 2 ^ 59 → ∃ m', hm_put true m k v = Some (true, m')).
Proof.
  intros Hos. destruct (hm_play_ok os hm_new ∅) as (m & g & H & Hr & Hb); [by apply (repr_empty 0); left|done|done|].
  exists m, g. split; [done|]. split; [intros k Hk; by apply hm_get_spec|]. split; [apply (r_live _ _ Hr)|].
  intros k v Hk Hn. destruct (hm_put_spec true m g k v Hr Hb Hk) as (ok & m' & Hput & _ & _ & Hok).
  exists m'. by rewrite Hput, Hok.
Qed.
Lemma hmap_refines_map_witness :
  ∃ m g, hm_play [Put true 7 1%positive; Put true 7 2%positive; Put true 9 3%positive; Del 9] hm_new ∅ = Some (m, g) ∧
    hm_get m 7 = Some (g !! 7) ∧ hm_get m 9 = Some (g !! 9).
Proof.
  destruct (hmap_refines_map [Put true 7 1%positive; Put true 7 2%positive; Put true 9 3%positive; Del 9]) as (m & g & H & Hg & _).
  - repeat constructor; done.
  - exists m, g. split; [exact H|]. split; by apply Hg.
Defined.

End HMap.
