(* ===== verification/BalanceHeap.v ===== *)
(** * The router's queue: the binary heap of [src/addons/gptps_balance.c]

    [heap_push] and [heap_pop] on the array, over the order [before], and the proof that
    they are a priority queue: a pop gives an element none of the others comes before,
    and takes that element alone. *)

From S2P Require Import Prelude.

Module BalanceHeap.

Section heap.
Context {A : Type} (before : A → A → bool).

(** [hole i]: the loops move elements into the cell [i] and fill it at the end. *)
Fixpoint sift_up (fuel : nat) (a : list A) (i : nat) (it : A) : list A :=
  match fuel, i with
  | S f, S k =>
      let p := (k / 2)%nat in                       (* (i - 1) / 2 *)
      match a !! p with
      | Some x => if before it x then sift_up f (<[i := x]> a) p it else <[i := it]> a
      | None => a
      end
  | _, _ => <[i := it]> a
  end.
(** [room]: whether the array could grow when it was full.  The new cell is the last. *)
Definition heap_push (room : bool) (a : list A) (it : A) : option (list A) :=
  if room then Some (sift_up (length a) (a ++ [it]) (length a) it) else None.

Fixpoint sift_down (fuel : nat) (a : list A) (i : nat) (last : A) : list A :=
  match fuel with
  | O => <[i := last]> a
  | S f =>
      let l := (2 * i + 1)%nat in
      let r := (l + 1)%nat in
      match a !! l with
      | None => <[i := last]> a                     (* l >= n *)
      | Some xl =>
          let '(c, xc) := match a !! r with
                          | Some xr => if before xr xl then (r, xr) else (l, xl)
                          | None => (l, xl)
                          end in
          if before xc last then sift_down f (<[i := xc]> a) c last else <[i := last]> a
      end
  end.
Definition heap_pop (a : list A) : option (A * list A) :=
  match a with
  | [] => None
  | top :: _ =>
      match last a with
      | None => None
      | Some lst =>
          let a := removelast a in
          Some (top, match a with [] => [] | _ => sift_down (length a) a 0 lst end)
      end
  end.

(** ** The order of the array *)

Definition le (x y : A) : Prop := before y x = false.
Context (le_refl : ∀ x, le x x) (le_trans : ∀ x y z, le x y → le y z → le x z)
  (before_le : ∀ x y, before x y = true → le x y).

Definition parent (i : nat) : nat := ((i - 1) / 2)%nat.
Lemma parent_lt i : (0 < i)%nat → (parent i < i)%nat.
Proof. intros H. unfold parent. apply Nat.Div0.div_lt_upper_bound; lia. Qed.
Lemma parent_child i c : parent c = i → (0 < c)%nat → (c = 2 * i + 1 ∨ c = 2 * i + 2)%nat.
Proof.
  unfold parent. intros H Hc. pose proof (Nat.div_mod_eq (c - 1) 2) as Hd.
  pose proof (Nat.mod_upper_bound (c - 1) 2 ltac:(lia)). lia.
Qed.
Lemma child_parent i : parent (2 * i + 1) = i ∧ parent (2 * i + 1 + 1) = i.
Proof.
  unfold parent. split; symmetry.
  - apply (Nat.div_unique _ _ _ 0); lia.
  - apply (Nat.div_unique _ _ _ 1); lia.
Qed.

(** Every cell is in order with its parent - but for the pairs [i] is in. *)
Definition ordered_but (ok : nat → Prop) (a : list A) : Prop :=
  ∀ j x y, (0 < j)%nat → ok j → ok (parent j) → a !! j = Some x → a !! parent j = Some y → le y x.
Definition heap (a : list A) : Prop := ordered_but (λ _, True) a.

(** Around the hole [i]: what is above it is in order with what is below it. *)
Definition bridged (a : list A) (i : nat) : Prop :=
  ∀ c x y, parent c = i → (0 < c)%nat → (0 < i)%nat → a !! c = Some x → a !! parent i = Some y → le y x.

Lemma fill a i it : (i < length a)%nat → ordered_but (λ j, j ≠ i) a →
  ((0 < i)%nat → ∀ y, a !! parent i = Some y → le y it) →
  (∀ c x, parent c = i → (0 < c)%nat → a !! c = Some x → le it x) →
  heap (<[i := it]> a).
Proof.
  intros Hi Ho Hup Hdn j x y Hj _ _ Hx Hy. pose proof (parent_lt j Hj) as Hlt.
  destruct (decide (j = i)) as [->|Hji].
  - rewrite list_lookup_insert in Hx. destruct (decide _) as [_|]; [|naive_solver]. injection Hx as <-.
    rewrite list_lookup_insert_ne in Hy by lia. by apply Hup.
  - rewrite list_lookup_insert_ne in Hx by done. destruct (decide (parent j = i)) as [Hp|Hp].
    + rewrite Hp, list_lookup_insert in Hy. destruct (decide _) as [_|]; [|naive_solver]. injection Hy as <-. by eapply Hdn.
    + rewrite list_lookup_insert_ne in Hy by done. by eapply (Ho j).
Qed.

(** Moving [x] from [p] into the hole at [i] and the hole to [p] only swaps. *)
Lemma insert_perm (a : list A) i it : (i < length a)%nat → <[i := it]> a ≡ₚ it :: delete i a.
Proof.
  intros Hi. rewrite insert_take_drop by done. rewrite delete_take_drop. by rewrite Permutation_middle.
Qed.
Lemma move_hole (a : list A) i p x it : i ≠ p → (i < length a)%nat → a !! p = Some x →
  <[p := it]> (<[i := x]> a) ≡ₚ <[i := it]> a.
Proof.
  intros Hip Hi Hp. assert (Hpl : (p < length a)%nat) by by eapply lookup_lt_Some.
  set (b := <[i := x]> a). assert (Hb : b !! p = Some x) by (unfold b; by rewrite list_lookup_insert_ne).
  rewrite insert_perm by (unfold b; by rewrite length_insert). rewrite (insert_perm a i it Hi).
  constructor. apply (Permutation_cons_inv (a := x)). rewrite <-(delete_Permutation b p x Hb). by apply insert_perm.
Qed.

Lemma sift_up_ok fuel a i it : (i ≤ fuel)%nat → (i < length a)%nat → ordered_but (λ j, j ≠ i) a → bridged a i →
  (∀ c x, parent c = i → (0 < c)%nat → a !! c = Some x → le it x) →
  heap (sift_up fuel a i it) ∧ sift_up fuel a i it ≡ₚ <[i := it]> a.
Proof.
  revert a i. induction fuel as [|f IH]; intros a i Hf Hi Ho Hb Hc.
  { assert (i = 0%nat) as -> by lia. split; [|done]. apply fill; [done|done|lia|done]. }
  destruct i as [|k]; [split; [|done]; apply fill; [done|done|lia|done]|]. cbn [sift_up].
  assert (Hp : (k / 2)%nat = parent (S k)) by (unfold parent; by rewrite Nat.sub_succ, Nat.sub_0_r).
  rewrite Hp. set (i := S k) in *. pose proof (parent_lt i ltac:(lia)) as Hlt.
  destruct (lookup_lt_is_Some_2 a (parent i) ltac:(lia)) as [x Hx]. rewrite Hx.
  destruct (before it x) eqn:Hbef.
  - assert (Hle : le it x) by by apply before_le.
    assert (Hself : ∀ c, c ≠ i → (0 < c)%nat → parent c = parent i → ∀ z, a !! c = Some z → le x z).
    { intros c Hci Hc0 Hcp z Hz. apply (Ho c z x); rewrite ?Hcp; auto; lia. }
    destruct (IH (<[i := x]> a) (parent i)) as [Hh Hperm].
    + lia.
    + rewrite length_insert. lia.
    + intros j u v Hj Hj1 Hj2 Hu Hv. pose proof (parent_lt j Hj).
      destruct (decide (j = i)) as [->|Hji]; [done|]. rewrite list_lookup_insert_ne in Hu by done.
      destruct (decide (parent j = i)) as [Hpj|Hpj].
      * rewrite Hpj, list_lookup_insert_eq in Hv by done. injection Hv as <-. eapply (Hb j); [done|done|lia|done|done].
      * rewrite list_lookup_insert_ne in Hv by done. by eapply (Ho j).
    + intros c u v Hcp Hc0 Hp0 Hu Hv. pose proof (parent_lt (parent i) Hp0).
      rewrite list_lookup_insert_ne in Hv by lia.
      assert (Hvx : le v x) by (eapply (Ho (parent i)); [done|lia|lia|done|done]).
      destruct (decide (c = i)) as [->|Hci].
      * rewrite list_lookup_insert_eq in Hu by done. by injection Hu as <-.
      * rewrite list_lookup_insert_ne in Hu by done. eapply le_trans; [exact Hvx|]. by eapply Hself.
    + intros c u Hcp Hc0 Hu. destruct (decide (c = i)) as [->|Hci].
      * rewrite list_lookup_insert_eq in Hu by done. by injection Hu as <-.
      * rewrite list_lookup_insert_ne in Hu by done. eapply le_trans; [exact Hle|]. by eapply Hself.
    + split; [done|]. rewrite Hperm. apply move_hole; [lia|done|done].
  - split; [|done]. apply fill; [done|done| |done]. intros _ y Hy. rewrite Hx in Hy. by injection Hy as <-.
Qed.

Lemma sift_down_ok fuel a i lst : (length a ≤ fuel + i)%nat → (i < length a)%nat → ordered_but (λ j, j ≠ i) a → bridged a i →
  ((0 < i)%nat → ∀ y, a !! parent i = Some y → le y lst) →
  heap (sift_down fuel a i lst) ∧ sift_down fuel a i lst ≡ₚ <[i := lst]> a.
Proof.
  revert a i. induction fuel as [|f IH]; intros a i Hf Hi Ho Hb Hup; [lia|]. cbn [sift_down].
  destruct (a !! (2 * i + 1)%nat) as [xl|] eqn:Hl.
  2: { split; [|done]. apply fill; [done|done|done|]. intros c x Hp Hc Hx. apply lookup_ge_None in Hl.
       apply lookup_lt_Some in Hx. apply parent_child in Hp; [lia|done]. }
  set (cx := match a !! (2 * i + 1 + 1)%nat with Some xr => if before xr xl then ((2 * i + 1 + 1)%nat, xr) else ((2 * i + 1)%nat, xl) | None => ((2 * i + 1)%nat, xl) end).
  destruct (child_parent i) as [Hcl Hcr].
  assert (Hcx : a !! cx.1 = Some cx.2 ∧ parent cx.1 = i ∧ (i < cx.1)%nat ∧
    ∀ j z, parent j = i → (0 < j)%nat → a !! j = Some z → le cx.2 z).
  { unfold cx. destruct (a !! (2 * i + 1 + 1)%nat) as [xr|] eqn:Hr; [destruct (before xr xl) eqn:Hbr|]; cbn [fst snd];
      (split; [done|]; split; [done|]; split; [lia|]); intros j z Hp Hj Hz; apply parent_child in Hp as [-> | ->]; try done.
    - rewrite Hl in Hz. injection Hz as <-. by apply before_le.
    - replace (2 * i + 2)%nat with (2 * i + 1 + 1)%nat in Hz by lia. rewrite Hr in Hz. by injection Hz as <-.
    - rewrite Hl in Hz. by injection Hz as <-.
    - replace (2 * i + 2)%nat with (2 * i + 1 + 1)%nat in Hz by lia. rewrite Hr in Hz. by injection Hz as <-.
    - rewrite Hl in Hz. by injection Hz as <-.
    - replace (2 * i + 2)%nat with (2 * i + 1 + 1)%nat in Hz by lia. by rewrite Hr in Hz. }
  clearbody cx. destruct cx as [c xc]. cbn [fst snd] in Hcx. destruct Hcx as (Hc & Hcp & Hic & Hmin).
  pose proof (lookup_lt_Some _ _ _ Hc) as Hclen. destruct (before xc lst) eqn:Hbef.
  - destruct (IH (<[i := xc]> a) c) as [Hh Hperm].
    + rewrite length_insert. lia.
    + by rewrite length_insert.
    + intros j u v Hj Hj1 Hj2 Hu Hv. pose proof (parent_lt j Hj). destruct (decide (j = i)) as [->|Hji].
      * rewrite list_lookup_insert_eq in Hu by done. injection Hu as <-. rewrite list_lookup_insert_ne in Hv by lia.
        eapply (Hb c); [done|lia|done|done|done].
      * rewrite list_lookup_insert_ne in Hu by done. destruct (decide (parent j = i)) as [Hpj|Hpj].
        -- rewrite Hpj, list_lookup_insert_eq in Hv by done. injection Hv as <-. by eapply Hmin.
        -- rewrite list_lookup_insert_ne in Hv by done. by eapply (Ho j).
    + intros g u v Hg Hg0 _ Hu Hv. rewrite Hcp, list_lookup_insert_eq in Hv by done. injection Hv as <-.
      pose proof (parent_lt g Hg0). rewrite list_lookup_insert_ne in Hu by lia.
      apply (Ho g u xc); rewrite ?Hg; auto; lia.
    + intros _ y Hy. rewrite Hcp, list_lookup_insert_eq in Hy by done. injection Hy as <-. by apply before_le.
    + split; [done|]. rewrite Hperm. apply move_hole; [lia|done|done].
  - split; [|done]. apply fill; [done|done|done|]. intros j z Hp Hj Hz. eapply le_trans; [exact Hbef|]. by eapply Hmin.
Qed.

(** ** The heap as a priority queue *)

Lemma heap_nil : heap [].
Proof. by intros j x y _ _ _ Hx. Qed.
Lemma heap_push_ok a it a' : heap a → heap_push true a it = Some a' → heap a' ∧ a' ≡ₚ it :: a.
Proof.
  intros Hh [= <-]. assert (Hlen : (length a < length (a ++ [it]))%nat) by (rewrite length_app; cbn; lia).
  assert (Hold : ∀ j x, j ≠ length a → (a ++ [it]) !! j = Some x → a !! j = Some x).
  { intros j x Hj Hx. pose proof (lookup_lt_Some _ _ _ Hx) as Hl. rewrite length_app in Hl. cbn in Hl.
    by rewrite lookup_app_l in Hx by lia. }
  destruct (sift_up_ok (length a) (a ++ [it]) (length a) it) as [H1 H2]; try done.
  - intros j x y Hj Hj1 Hj2 Hx Hy. eapply (Hh j); eauto.
  - intros c x y Hp Hc Hi Hx _. apply lookup_lt_Some in Hx. rewrite length_app in Hx. cbn in Hx.
    pose proof (parent_lt c Hc). lia.
  - intros c x Hp Hc Hx. apply lookup_lt_Some in Hx. rewrite length_app in Hx. cbn in Hx.
    pose proof (parent_lt c Hc). lia.
  - split; [done|]. rewrite H2. rewrite list_insert_id; [symmetry; apply Permutation_cons_append|].
    by rewrite lookup_app_r, Nat.sub_diag by lia.
Qed.
Lemma heap_top a top x : heap a → a !! 0%nat = Some top → x ∈ a → le top x.
Proof.
  intros Hh Ht [i Hi]%list_elem_of_lookup_1. revert x Hi.
  induction i as [i IH] using lt_wf_ind. intros x Hi. destruct (decide (i = 0%nat)) as [->|Hn].
  - rewrite Ht in Hi. injection Hi as <-. apply le_refl.
  - pose proof (parent_lt i ltac:(lia)) as Hlt. pose proof (lookup_lt_Some _ _ _ Hi).
    destruct (lookup_lt_is_Some_2 a (parent i) ltac:(lia)) as [y Hy].
    eapply le_trans; [by apply (IH (parent i) Hlt y Hy)|]. eapply (Hh i); auto. lia.
Qed.
Lemma heap_pop_ok a : heap a →
  match heap_pop a with
  | None => a = []
  | Some (top, a') => heap a' ∧ a ≡ₚ top :: a' ∧ ∀ x, x ∈ a → le top x
  end.
Proof.
  intros Hh. unfold heap_pop. destruct a as [|top rest]; [done|]. remember (top :: rest) as a eqn:Ha.
  assert (Ha0 : a !! 0%nat = Some top) by by rewrite Ha.
  destruct (last a) as [lst|] eqn:Hl; [|apply last_None in Hl; by rewrite Hl in Ha].
  assert (Happ : a = removelast a ++ [lst]).
  { apply last_Some in Hl as [l Hl]. by rewrite Hl at 2; rewrite removelast_last. }
  set (b := removelast a) in *. clearbody b.
  assert (Htop : ∀ x, x ∈ a → le top x) by (intros x; by apply heap_top).
  assert (Hb : ∀ j x, b !! j = Some x → a !! j = Some x) by (intros j x Hx; rewrite Happ; by apply lookup_app_l_Some).
  clear Ha. destruct b as [|t m].
  { split; [apply heap_nil|]. split; [|done]. rewrite Happ in Ha0 |- *. by injection Ha0 as ->. }
  assert (t = top) as -> by (specialize (Hb 0%nat t eq_refl); congruence).
  destruct (sift_down_ok (length (top :: m)) (top :: m) 0 lst) as [H1 H2]; cbn [length]; try lia.
  - intros j x y Hj _ _ Hx Hy. eapply (Hh j); eauto.
  - intros c x y _ _ Hi. lia.
  - split; [done|]. split; [|done]. rewrite H2, Happ. cbn. constructor. by rewrite <-Permutation_cons_append.
Qed.
End heap.
End BalanceHeap.
