(* ===== verification/Balance.v ===== *)
(** * The late-binding router of [src/addons/gptps_balance.c]

    One lock, the router queue (a binary heap, BalanceHeap.v), a table from balance
    handles to items, and per shard the items handed to it.  Each lock section is a
    function; what a shard's engine answers is an argument.  The two tables are finite
    maps here.  An event is recorded in the section that decides it: the code delivers it
    right after it unlocks. *)

From S2P Require Import Prelude Fifo Engine BalanceHeap.

Module Balance.
Import Engine BalanceHeap.

Inductive bstate := IT_QUEUED | IT_DISPATCHED | IT_CANCELLED.
#[export] Instance bstate_eq_dec : EqDecision bstate.
Proof. solve_decision. Defined.

Record bitem := BItem {
  bi_bh : Z; bi_state : bstate; bi_shard : nat; bi_eh : Z; bi_prio : Z; bi_seq : Z; bi_task : string;
  bi_fail : status }.
#[export] Instance eta_bitem : Eta bitem := λ r,
  BItem (bi_bh r) (bi_state r) (bi_shard r) (bi_eh r) (bi_prio r) (bi_seq r) (bi_task r) (bi_fail r).

(** [cap] is the depth of the shard: running and waiting in it. *)
Record bshard := BShard { sh_cap : Z; sh_load : Z; sh_by_eh : gmap Z positive }.
#[export] Instance eta_bshard : Eta bshard := λ r, BShard (sh_cap r) (sh_load r) (sh_by_eh r).

(** [struct gptps_balance], with the items it has allocated. *)
Record balance := Bal {
  b_items : gmap positive bitem; b_sh : list bshard; b_q : list positive; b_queued : Z;
  b_by_bh : gmap Z positive; b_next_bh : Z; b_next_seq : Z }.
#[export] Instance eta_balance : Eta balance := λ r,
  Bal (b_items r) (b_sh r) (b_q r) (b_queued r) (b_by_bh r) (b_next_bh r) (b_next_seq r).

Definition no_item : bitem := BItem 0 IT_CANCELLED 0 0 0 0 EmptyString GPTPS_OK.
Definition item_at (b : balance) (p : positive) : bitem := default no_item (b_items b !! p).
Definition set_item (p : positive) (f : bitem → bitem) (b : balance) : balance := b <| b_items ::= alter f p |>.
Definition item_free (p : positive) (b : balance) : balance := b <| b_items ::= delete p |>.
Definition set_shard (i : nat) (f : bshard → bshard) (b : balance) : balance := b <| b_sh ::= alter f i |>.

(** [before]: higher priority first, then the earlier. *)
Definition before (m : gmap positive bitem) (p q : positive) : bool :=
  let x := default no_item (m !! p) in
  let y := default no_item (m !! q) in
  if bi_prio x =? bi_prio y then bi_seq x <? bi_seq y else bi_prio y <? bi_prio x.

(** What the host is told: the balance handle, the kind and the status. *)
Record bevent := BEvent { ev_bh : Z; ev_kind : event_kind; ev_status : status }.

(** ** Dispatch *)

(** The least loaded shard with room, the first of them: the loop over the shards. *)
Fixpoint best_shard (i : nat) (l : list bshard) (best : option (nat * Z)) : option (nat * Z) :=
  match l with
  | [] => best
  | s :: l =>
      best_shard (S i) l
        (if (sh_load s <? sh_cap s) && match best with None => true | Some (_, ld) => sh_load s <? ld end
         then Some (i, sh_load s) else best)
  end.

(** What a shard answers to [gptps_submit_ex]: the status, the handle it wrote, and
    whether there was memory to track it. *)
Definition answer : Type := status * Z * bool.

(** One item handed to the shard [best], which answers [a]: whether it is tracked there;
    otherwise it is terminal here. *)
Definition hand_over (best : nat) (a : answer) (p : positive) (b : balance) : balance * bool :=
  let b := b <| b_queued ::= λ x, x - 1 |> in
  let b := set_item p (λ i, i <| bi_state := IT_DISPATCHED |> <| bi_shard := best |>) b in
  let b := set_shard best (λ s, s <| sh_load ::= λ x, x + 1 |>) b in
  let '(st, eh, room) := a in
  let b := set_item p (λ i, i <| bi_eh := eh |>) b in
  if bool_decide (st = GPTPS_OK) && room
  then (set_shard best (λ s, s <| sh_by_eh ::= <[eh := p]> |>) b, true)
  else
    let b := if decide (st = GPTPS_OK) then b else set_item p (λ i, i <| bi_eh := 0 |>) b in
    let b := set_shard best (λ s, s <| sh_load ::= λ x, x - 1 |>) b in
    let b := b <| b_by_bh ::= delete (bi_bh (item_at b p)) |> in
    (set_item p (λ i, i <| bi_fail := if decide (st = GPTPS_OK) then GPTPS_E_NOMEM else st |>) b, false).

(** [dispatch_locked]; [ans i n] is what the shard [i] answers to the n-th submit of this
    call.  Each turn takes an item off the heap, so [length q + 1] turns are enough.  The
    list is [fails]. *)
Fixpoint dispatch_loop (fuel n : nat) (ans : nat → nat → answer) (b : balance) (fails : list positive)
    : balance * list positive :=
  match fuel with
  | O => (b, fails)
  | S f =>
      if b_queued b =? 0 then (b, fails)
      else match best_shard 0 (b_sh b) None with
      | None => (b, fails)
      | Some (best, _) =>
          match heap_pop (before (b_items b)) (b_q b) with
          | None => (b, fails)
          | Some (p, q) =>
              let b := b <| b_q := q |> in
              if decide (bi_state (item_at b p) = IT_CANCELLED)
              then dispatch_loop f n ans (item_free p b) fails
              else let '(b, tracked) := hand_over best (ans best n) p b in
                   dispatch_loop f (S n) ans b (if tracked then fails else p :: fails)
          end
      end
  end.

(** [emit_fails]: the events, and the engine handles cancelled, in the list's order. *)
Fixpoint emit_fails (fails : list positive) (b : balance) : balance * list bevent * list (nat * Z) :=
  match fails with
  | [] => (b, [], [])
  | p :: fails =>
      let i := item_at b p in
      let '(b, evs, cs) := emit_fails fails (item_free p b) in
      (b, BEvent (bi_bh i) EV_DEAD_LETTERED (bi_fail i) :: evs,
       (if bi_eh i =? 0 then cs else (bi_shard i, bi_eh i) :: cs))
  end.
Definition dispatch (ans : nat → nat → answer) (b : balance) : balance * list bevent * list (nat * Z) :=
  let '(b, fails) := dispatch_loop (S (length (b_q b))) 0 ans b [] in emit_fails fails b.

(** ** The observer *)

Definition is_terminal (k : event_kind) (st : status) : bool :=
  match k with
  | EV_FINISHED | EV_DROPPED | EV_DEAD_LETTERED => true
  | EV_FAILED => bool_decide (st = GPTPS_E_CANCELLED)
  | _ => false
  end.

Definition observe (shard : nat) (k : event_kind) (eh : Z) (st : status) (ans : nat → nat → answer) (b : balance)
    : balance * list bevent * list (nat * Z) :=
  if decide (k = EV_QUEUED) then (b, [], [])
  else match (s ← b_sh b !! shard; sh_by_eh s !! eh) with
  | None => (b, [], [])
  | Some p =>
      let fwd := BEvent (bi_bh (item_at b p)) k st in
      if is_terminal k st then
        let b := set_shard shard (λ s, s <| sh_by_eh ::= delete eh |>) b in
        let b := b <| b_by_bh ::= delete (bi_bh (item_at b p)) |> in
        let b := set_shard shard (λ s, s <| sh_load ::= λ x, x - 1 |>) b in
        let '(b, fails) := dispatch_loop (S (length (b_q b))) 0 ans b [] in
        let '(b, evs, cs) := emit_fails fails (item_free p b) in
        (b, fwd :: evs, cs)
      else (b, [fwd], [])
  end.

(** ** Submit, cancel, close *)

(** The first section of [gptps_balance_submit_ex], the arguments checked and the item
    [p] allocated; [room]: memory for the table, and for the heap. *)
Definition submit (p : positive) (task : string) (priority : Z) (room : bool * bool) (b : balance)
    : status * balance * list bevent :=
  let bh := u64 (b_next_bh b + 1) in
  let seq := u64 (b_next_seq b + 1) in
  let b := b <| b_next_bh := bh |> <| b_next_seq := seq |> in
  let b := b <| b_items ::= <[p := BItem bh IT_QUEUED 0 0 priority seq task GPTPS_OK]> |> in
  let b1 := if room.1 then b <| b_by_bh ::= <[bh := p]> |> else b in
  match (if room.1 then heap_push (before (b_items b1)) room.2 (b_q b1) p else None) with
  | None => (GPTPS_E_NOMEM, item_free p (b1 <| b_by_bh ::= delete bh |>), [])
  | Some q => (GPTPS_OK, b1 <| b_q := q |> <| b_queued ::= λ x, x + 1 |>, [BEvent bh EV_QUEUED GPTPS_OK])
  end.

(** [inr]: the engine handle to cancel on its shard, whose answer is the call's. *)
Definition cancel (h : Z) (b : balance) : (status + nat * Z) * balance * list bevent :=
  match b_by_bh b !! h with
  | None => (inl GPTPS_E_NOTFOUND, b, [])
  | Some p =>
      let i := item_at b p in
      if decide (bi_state i = IT_QUEUED) then
        (inl GPTPS_OK,
         set_item p (λ i, i <| bi_state := IT_CANCELLED |> <| bi_task := EmptyString |>) b <| b_queued ::= λ x, x - 1 |> <| b_by_bh ::= delete h |>,
         [BEvent h EV_FAILED GPTPS_E_CANCELLED])
      else (inr (bi_shard i, bi_eh i), b, [])
  end.

(** The drain of [gptps_balance_close]. *)
Fixpoint close_loop (fuel : nat) (b : balance) : balance * list bevent :=
  match fuel with
  | O => (b, [])
  | S f =>
      match heap_pop (before (b_items b)) (b_q b) with
      | None => (b <| b_queued := 0 |>, [])
      | Some (p, q) =>
          let i := item_at b p in
          let b := b <| b_q := q |> in
          let '(b, evs) := close_loop f (item_free p b) in
          (b, if decide (bi_state i = IT_CANCELLED) then evs else BEvent (bi_bh i) EV_DROPPED GPTPS_E_SHUTDOWN :: evs)
      end
  end.
Definition close (b : balance) : balance * list bevent := close_loop (S (length (b_q b))) b.

Definition balance_queued (b : balance) : Z := b_queued b.
Definition shard_load (b : balance) (i : nat) : Z := match b_sh b !! i with Some s => sh_load s | None => 0 end.

(** ** A router among its shards *)

(** [gptps_balance_open] on shards of the given depths. *)
Definition opened (caps : list Z) : balance := Bal ∅ (map (λ c, BShard c 0 ∅) caps) [] 0 ∅ 0 0.

(** The engine behind a shard: the handles it gives in one call are distinct, none is zero,
    and none is one the router still tracks there. *)
Definition honest (ans : nat → nat → answer) (b : balance) : Prop :=
  ∀ i n eh room, ans i n = (GPTPS_OK, eh, room) →
    eh ≠ 0 ∧ (∀ s, b_sh b !! i = Some s → sh_by_eh s !! eh = None) ∧
    (∀ m room', ans i m = (GPTPS_OK, eh, room') → m = n).

(** The lock sections, with the events they decide on appended to the trace. *)
Inductive step : balance * list bevent → balance * list bevent → Prop :=
  | st_submit b tr p task prio room : b_items b !! p = None → b_next_bh b + 1 < 2 ^ 64 → b_next_seq b + 1 < 2 ^ 64 →
      let r := submit p task prio room b in step (b, tr) (r.1.2, tr ++ r.2)
  | st_dispatch b tr ans : honest ans b →
      let r := dispatch ans b in step (b, tr) (r.1.1, tr ++ r.1.2)
  | st_observe b tr i k eh st ans : honest ans b →
      let r := observe i k eh st ans b in step (b, tr) (r.1.1, tr ++ r.1.2)
  | st_cancel b tr h : let r := cancel h b in step (b, tr) (r.1.2, tr ++ r.2).
Definition reachable (caps : list Z) (s : balance * list bevent) : Prop := rtc step (opened caps, []) s.

End Balance.
