(* ===== verification/BalanceFacts.v ===== *)
(** * The invariant of the router

    What the tables, the heap and the counters of a router say about each other, with the
    items a section has taken out of the tables but not yet told the host about; each
    operation keeps it. *)

From S2P Require Import Prelude Fifo Engine BalanceHeap Balance.

Module BalanceFacts.
Import Engine BalanceHeap Balance.

(** ** Events of a handle *)

Definition is_end (e : bevent) : bool := is_terminal (ev_kind e) (ev_status e).
Definition is_queued (e : bevent) : bool := bool_decide (ev_kind e = EV_QUEUED).
Definition times (P : bevent → bool) (h : Z) (tr : list bevent) : nat :=
  length (filter (λ e, ev_bh e = h ∧ Is_true (P e)) tr).
Definition ends (h : Z) (tr : list bevent) : nat := times is_end h tr.
Definition queueds (h : Z) (tr : list bevent) : nat := times is_queued h tr.

Lemma times_app P h t1 t2 : times P h (t1 ++ t2) = (times P h t1 + times P h t2)%nat.
Proof. unfold times. by rewrite filter_app, length_app. Qed.
Lemma times_one P h e : times P h [e] = if decide (ev_bh e = h) then if P e then 1%nat else 0%nat else 0%nat.
Proof.
  unfold times. rewrite filter_cons, filter_nil.
  destruct (decide (ev_bh e = h)), (P e) eqn:HP; case_decide; naive_solver.
Qed.

(** ** The invariant *)

Definition here (h : Z) (b : balance) : nat := if decide (is_Some (b_by_bh b !! h)) then 1 else 0.
Definition held (h : Z) (F : list positive) (b : balance) : nat :=
  length (filter (λ p, bi_bh (item_at b p) = h) F).
Definition waiting (b : balance) (p : positive) : Prop := bi_state (item_at b p) = IT_QUEUED.
#[export] Instance waiting_dec b p : Decision (waiting b p).
Proof. unfold waiting. apply _. Defined.

Record inv (F : list positive) (b : balance) : Prop := Inv {
  i_bh : ∀ h p, b_by_bh b !! h = Some p → p ∉ F ∧
           ∃ i, b_items b !! p = Some i ∧ bi_bh i = h ∧ bi_state i ≠ IT_CANCELLED;
  i_item : ∀ p i, b_items b !! p = Some i → p ∉ F → bi_state i ≠ IT_CANCELLED → b_by_bh b !! bi_bh i = Some p;
  i_q : NoDup (b_q b);
  i_elem : ∀ p, p ∈ b_q b ↔ p ∉ F ∧ ∃ i, b_items b !! p = Some i ∧ bi_state i ≠ IT_DISPATCHED;
  i_eh : ∀ k s eh p, b_sh b !! k = Some s → sh_by_eh s !! eh = Some p → p ∉ F ∧
           ∃ i, b_items b !! p = Some i ∧ bi_state i = IT_DISPATCHED ∧ bi_shard i = k ∧ bi_eh i = eh;
  i_sent : ∀ p i, b_items b !! p = Some i → p ∉ F → bi_state i = IT_DISPATCHED →
           ∃ s, b_sh b !! bi_shard i = Some s ∧ sh_by_eh s !! bi_eh i = Some p;
  i_load : ∀ k s, b_sh b !! k = Some s → sh_load s = Z.of_nat (size (sh_by_eh s)) ∧ sh_load s ≤ sh_cap s;
  i_queued : b_queued b = Z.of_nat (length (filter (waiting b) (b_q b)));
  i_heap : heap (before (b_items b)) (b_q b);
  i_next : 0 ≤ b_next_bh b ∧ 0 ≤ b_next_seq b ∧
           ∀ p i, b_items b !! p = Some i → 0 < bi_bh i ≤ b_next_bh b ∧ bi_seq i ≤ b_next_seq b;
  i_F : NoDup F ∧ ∀ p, p ∈ F → ∃ i, b_items b !! p = Some i ∧ bi_state i = IT_DISPATCHED }.

(** Every handle given out is in play, held back, or ended - once. *)
Definition told (F : list positive) (b : balance) (tr : list bevent) : Prop :=
  ∀ h, (ends h tr + here h b + held h F b)%nat = queueds h tr ∧ (queueds h tr ≤ 1)%nat ∧
       (¬ (0 < h ≤ b_next_bh b) → queueds h tr = 0%nat).

(** ** The order of the heap *)

Lemma before_refl m : ∀ x, le (before m) x x.
Proof. intros x. unfold le, before. by rewrite Z.eqb_refl, Z.ltb_irrefl. Qed.
Lemma before_trans m x y z : le (before m) x y → le (before m) y z → le (before m) x z.
Proof.
  unfold le, before. set (a := default _ (m !! x)). set (b := default _ (m !! y)). set (c := default _ (m !! z)).
  clearbody a b c. repeat case_match; rewrite ?Z.eqb_eq, ?Z.eqb_neq, ?Z.ltb_ge in *; lia.
Qed.
Lemma before_le m x y : before m x y = true → le (before m) x y.
Proof.
  unfold le, before. set (a := default _ (m !! x)). set (b := default _ (m !! y)). clearbody a b.
  rewrite (Z.eqb_sym (bi_prio b)).
  repeat case_match; rewrite ?Z.eqb_eq, ?Z.eqb_neq, ?Z.ltb_ge, ?Z.ltb_lt in *; lia.
Qed.
#[export] Hint Resolve before_refl before_trans before_le : core.

(** The order reads priorities and sequence numbers only. *)
Definition same_order (m m' : gmap positive bitem) (l : list positive) : Prop :=
  ∀ p, p ∈ l → bi_prio (default no_item (m' !! p)) = bi_prio (default no_item (m !! p)) ∧
               bi_seq (default no_item (m' !! p)) = bi_seq (default no_item (m !! p)).
Lemma heap_same m m' l : same_order m m' l → heap (before m) l → heap (before m') l.
Proof.
  intros Hs Hh j x y Hj H1 H2 Hx Hy. specialize (Hh j x y Hj H1 H2 Hx Hy). unfold le, before in *.
  destruct (Hs x) as [-> ->]; [by eapply list_elem_of_lookup_2|].
  destruct (Hs y) as [-> ->]; [by eapply list_elem_of_lookup_2|]. done.
Qed.

Lemma pop_heap m l : heap (before m) l →
  match heap_pop (before m) l with
  | None => l = []
  | Some (p, l') => heap (before m) l' ∧ l ≡ₚ p :: l' ∧ ∀ x, x ∈ l → le (before m) p x
  end.
Proof. apply heap_pop_ok; eauto. Qed.
Lemma push_heap m l p l' : heap (before m) l → heap_push (before m) true l p = Some l' →
  heap (before m) l' ∧ l' ≡ₚ p :: l.
Proof. apply heap_push_ok; eauto. Qed.

(** ** Lookups *)

Lemma item_at_Some b p i : b_items b !! p = Some i → item_at b p = i.
Proof. unfold item_at. by intros ->. Qed.

(** The shard the dispatch picks has room, and when it picks none, none has. *)
Lemma best_shard_ok i l best r : best_shard i l best = r →
  match r with
  | Some (k, ld) => best = Some (k, ld) ∨ ∃ s, (i ≤ k)%nat ∧ l !! (k - i)%nat = Some s ∧ sh_load s < sh_cap s
  | None => best = None ∧ ∀ k s, l !! k = Some s → sh_cap s ≤ sh_load s
  end.
Proof.
  revert i best r. induction l as [|s l IH]; intros i best r; cbn [best_shard].
  { intros <-. destruct best as [[k ld]|]; [by left|]. split; [done|]. by intros k s. }
  intros H. apply IH in H. destruct r as [[k ld]|].
  - destruct H as [H|(s' & Hk & Hs & Hl)].
    + destruct ((sh_load s <? sh_cap s) && _) eqn:Hc; [|by left]. injection H as -> <-. right. exists s.
      rewrite Nat.sub_diag. apply andb_prop in Hc as [Hc%Z.ltb_lt _]. done.
    + right. exists s'. split; [lia|]. split; [|done]. by replace (k - i)%nat with (S (k - S i)) by lia.
  - destruct H as [H Hl]. destruct ((sh_load s <? sh_cap s) && _) eqn:Hc; [done|]. subst best. split; [done|].
    rewrite andb_true_r in Hc. apply Z.ltb_ge in Hc. intros [|k] s' Hs'; [by injection Hs' as <-|by eapply Hl].
Qed.

(** ** Taking the head of the queue *)

(** After a pop the head is out of the heap but still in the tables. *)
Lemma popped F b p q : inv F b → heap_pop (before (b_items b)) (b_q b) = Some (p, q) →
  heap (before (b_items b)) q ∧ b_q b ≡ₚ p :: q ∧ p ∉ q ∧ p ∉ F ∧
  (∃ i, b_items b !! p = Some i ∧ bi_state i ≠ IT_DISPATCHED) ∧
  (∀ x, x ∈ b_q b → le (before (b_items b)) p x).
Proof.
  intros Hi Hp. pose proof (pop_heap _ _ (i_heap _ _ Hi)) as H. rewrite Hp in H. destruct H as (Hh & Hperm & Hmin).
  pose proof (i_q _ _ Hi) as Hnd. rewrite Hperm in Hnd. apply NoDup_cons in Hnd as [Hpq _].
  assert (Hin : p ∈ b_q b) by (rewrite Hperm; by constructor).
  apply (i_elem _ _ Hi) in Hin as [HpF Hit]. done.
Qed.

Lemma filter_perm {A} (P : A → Prop) `{∀ x, Decision (P x)} (l l' : list A) :
  l ≡ₚ l' → length (filter P l) = length (filter P l').
Proof. intros H1. apply Permutation_length. by apply filter_Permutation. Qed.
Lemma filter_ext_elem {A} (P Q : A → Prop) `{∀ x, Decision (P x), ∀ x, Decision (Q x)} (l : list A) :
  (∀ x, x ∈ l → P x ↔ Q x) → filter P l = filter Q l.
Proof.
  intros Hl. induction l as [|x l IH]; [done|]. rewrite !filter_cons.
  assert (Hx : P x ↔ Q x) by (apply Hl; constructor). rewrite IH by (intros; apply Hl; by constructor).
  repeat case_decide; naive_solver.
Qed.

(** Freeing an item that is in no table. *)
Lemma free_cancelled F b p q : inv F b → heap_pop (before (b_items b)) (b_q b) = Some (p, q) →
  bi_state (item_at b p) = IT_CANCELLED → inv F (item_free p (b <| b_q := q |>)).
Proof.
  intros Hi Hp Hst. destruct (popped _ _ _ _ Hi Hp) as (Hh & Hperm & Hpq & HpF & (i & Hit & _) & _).
  rewrite (item_at_Some _ _ _ Hit) in Hst.
  assert (Hlook : ∀ x j, b_items (item_free p (b <| b_q := q |>)) !! x = Some j ↔ x ≠ p ∧ b_items b !! x = Some j)
    by (intros x j; cbn; rewrite lookup_delete_Some; naive_solver).
  destruct Hi as [A1 A2 A3 A4 A5 A6 A7 A8 A9 [A10 [A11 A12]] [A13 A14]]. split.
  - intros h x Hx. destruct (A1 h x Hx) as (HxF & j & Hj & Hb & Hs). split; [done|]. exists j.
    rewrite Hlook. split; [split; [|done]; intros ->; congruence|done].
  - intros x j [_ Hj]%Hlook. by apply A2.
  - cbn. rewrite Hperm in A3. by apply NoDup_cons in A3 as [_ ?].
  - intros x. cbn [b_q]. split.
    + intros Hx. assert (x ∈ b_q b) as Hxb by (rewrite Hperm; by constructor). apply A4 in Hxb as (HxF & j & Hj & Hs).
      split; [done|]. exists j. rewrite Hlook. split; [split; [by intros ->|done]|done].
    + intros (HxF & j & [Hne Hj]%Hlook & Hs). assert (x ∈ b_q b) as Hxb by (apply A4; eauto).
      rewrite Hperm in Hxb. apply elem_of_cons in Hxb as [->|]; done.
  - intros k s eh x Hk Hx. destruct (A5 k s eh x Hk Hx) as (HxF & j & Hj & Hs & Hr). split; [done|]. exists j.
    rewrite Hlook. split; [split; [|done]; intros ->; congruence|done].
  - intros x j [_ Hj]%Hlook. by apply A6.
  - exact A7.
  - cbn. rewrite A8, (filter_perm _ _ _ Hperm), filter_cons_False;
      [|unfold waiting; rewrite (item_at_Some _ _ _ Hit); congruence].
    do 2 f_equal. apply filter_ext_elem. intros x Hx. unfold waiting, item_at. cbn.
    rewrite lookup_delete_ne; [done|]. by intros ->.
  - eapply heap_same, Hh. intros x Hx. cbn. rewrite lookup_delete_ne; [done|]. by intros ->.
  - split; [done|]. split; [done|]. intros x j [_ Hj]%Hlook. by eapply A12.
  - split; [done|]. intros x Hx. destruct (A14 x Hx) as (j & Hj & Hs). exists j. rewrite Hlook. split; [|done].
    split; [|done]. by intros ->.
Qed.

(** ** Handing an item over *)

(** What a router looks like after it handed [p] over to [k]: everything as [b] has it
    but the item, its shard, and the tables as given. *)
Record moved (p : positive) (i' : bitem) (k : nat) (s' : bshard) (bh' : gmap Z positive) (b b' : balance) : Prop := Moved {
  m_items : ∀ x, b_items b' !! x = if decide (x = p) then Some i' else b_items b !! x;
  m_sh : ∀ j, b_sh b' !! j = if decide (j = k) then Some s' else b_sh b !! j;
  m_bh : b_by_bh b' = bh';
  m_q : b_q b' = b_q b; m_queued : b_queued b' = b_queued b - 1;
  m_next : b_next_bh b' = b_next_bh b ∧ b_next_seq b' = b_next_seq b }.

Lemma set_item_lookup p f b x : b_items (set_item p f b) !! x = if decide (x = p) then f <$> b_items b !! p else b_items b !! x.
Proof.
  cbn. destruct (decide (x = p)) as [->|Hn]; [by rewrite lookup_alter_eq|by rewrite lookup_alter_ne].
Qed.
Lemma set_shard_lookup k f b j : b_sh (set_shard k f b) !! j = if decide (j = k) then f <$> b_sh b !! k else b_sh b !! j.
Proof.
  cbn. destruct (decide (j = k)) as [->|Hn]; [by rewrite list_lookup_alter_eq|by rewrite list_lookup_alter_ne].
Qed.

Lemma set_last p f k g h b :
  let b' := set_item p f (set_shard k g b <| b_by_bh ::= delete h |>) in
  (∀ x, b_items b' !! x = if decide (x = p) then f <$> b_items b !! p else b_items b !! x) ∧
  (∀ j, b_sh b' !! j = if decide (j = k) then g <$> b_sh b !! k else b_sh b !! j) ∧
  b_by_bh b' = delete h (b_by_bh b).
Proof.
  split_and!; [intros x; by rewrite set_item_lookup| |done].
  intros j. exact (set_shard_lookup k g b j).
Qed.

Lemma hand_over_tracked b p k i s eh : b_items b !! p = Some i → b_sh b !! k = Some s →
  (hand_over k (GPTPS_OK, eh, true) p b).2 = true ∧
  moved p (i <| bi_state := IT_DISPATCHED |> <| bi_shard := k |> <| bi_eh := eh |>) k
    (BShard (sh_cap s) (sh_load s + 1) (<[eh := p]> (sh_by_eh s))) (b_by_bh b) b (hand_over k (GPTPS_OK, eh, true) p b).1.
Proof.
  intros Hi Hs. unfold hand_over. rewrite bool_decide_eq_true_2 by done. cbn [andb]. split; [done|]. split; try done.
  - intros x. cbn [fst]. change (b_items (set_shard k ?f ?b)) with (b_items b). rewrite set_item_lookup.
    change (b_items (set_shard k ?f ?b)) with (b_items b). rewrite !set_item_lookup.
    destruct (decide (x = p)) as [->|]; [|done]. rewrite decide_True by done. cbn. by rewrite Hi.
  - intros j. cbn [fst]. rewrite set_shard_lookup. change (b_sh (set_item p ?f ?b)) with (b_sh b).
    rewrite !set_shard_lookup. destruct (decide (j = k)) as [->|]; [|done]. rewrite decide_True by done. cbn. by rewrite Hs.
Qed.
Lemma hand_over_failed b p k i s st eh room : b_items b !! p = Some i → b_sh b !! k = Some s →
  bool_decide (st = GPTPS_OK) && room = false →
  (hand_over k (st, eh, room) p b).2 = false ∧ ∃ i',
  bi_bh i' = bi_bh i ∧ bi_state i' = IT_DISPATCHED ∧ bi_prio i' = bi_prio i ∧ bi_seq i' = bi_seq i ∧
  bi_fail i' = (if decide (st = GPTPS_OK) then GPTPS_E_NOMEM else st) ∧
  moved p i' k s (delete (bi_bh i) (b_by_bh b)) b (hand_over k (st, eh, room) p b).1.
Proof.
  intros Hi Hs Hr. unfold hand_over. rewrite Hr. cbn [fst snd]. split; [done|].
  set (fl := if decide (st = GPTPS_OK) then GPTPS_E_NOMEM else st).
  exists (i <| bi_state := IT_DISPATCHED |> <| bi_shard := k |> <| bi_eh := if decide (st = GPTPS_OK) then eh else 0 |> <| bi_fail := fl |>).
  do 5 (split; [done|]).
  set (b1 := b <| b_queued ::= λ x, x - 1 |>). set (b2 := set_item p _ b1).
  set (b3 := set_shard k _ b2). set (b4 := set_item p _ b3).
  assert (H4 : ∀ x, b_items b4 !! x = if decide (x = p) then
    Some (i <| bi_state := IT_DISPATCHED |> <| bi_shard := k |> <| bi_eh := eh |>) else b_items b !! x).
  { intros x. unfold b4. rewrite set_item_lookup. change (b_items b3) with (b_items b2). unfold b2.
    rewrite !set_item_lookup. destruct (decide (x = p)); [|done]. rewrite decide_True by done. cbn. by rewrite Hi. }
  set (b5 := if decide (st = GPTPS_OK) then b4 else _).
  assert (H5 : (∀ x, b_items b5 !! x = if decide (x = p) then
    Some (i <| bi_state := IT_DISPATCHED |> <| bi_shard := k |> <| bi_eh := if decide (st = GPTPS_OK) then eh else 0 |>)
    else b_items b !! x) ∧ b_sh b5 = b_sh b3 ∧ b_by_bh b5 = b_by_bh b ∧ b_q b5 = b_q b ∧ b_queued b5 = b_queued b - 1 ∧
    b_next_bh b5 = b_next_bh b ∧ b_next_seq b5 = b_next_seq b).
  { unfold b5. destruct (decide (st = GPTPS_OK)); [done|]. split; [|done]. intros x. rewrite set_item_lookup, !H4.
    destruct (decide (x = p)); [by rewrite decide_True by done|done]. }
  clearbody b5. destruct H5 as (H5 & Hsh & Hbh & Hq & Hqd & Hn1 & Hn2).
  assert (Hat : bi_bh (item_at b5 p) = bi_bh i) by (unfold item_at; by rewrite H5, decide_True).
  destruct (set_last p (λ i, i <| bi_fail := fl |>) k (λ s, s <| sh_load ::= λ x, x - 1 |>) (bi_bh (item_at b5 p)) b5)
    as (HI & HS & HB). split; try done.
  - intros x. etrans; [apply HI|]. rewrite !H5. destruct (decide (x = p)); [by rewrite decide_True by done|done].
  - intros j. etrans; [apply HS|]. rewrite Hsh. unfold b3. rewrite !set_shard_lookup.
    destruct (decide (j = k)); [|done]. rewrite decide_True by done. cbn. rewrite Hs. cbn. destruct s. cbn.
    do 2 f_equal. lia.
  - etrans; [exact HB|]. by rewrite Hbh, Hat.
Qed.

Section moved.
Context (F : list positive) (b : balance) (p : positive) (q : list positive) (i : bitem) (k : nat) (s : bshard).
Context (Hi : inv F b) (Hp : heap_pop (before (b_items b)) (b_q b) = Some (p, q))
  (Hit : b_items b !! p = Some i) (Hst : bi_state i ≠ IT_CANCELLED) (Hs : b_sh b !! k = Some s).

Lemma popped_queued : bi_state i = IT_QUEUED.
Proof.
  destruct (popped _ _ _ _ Hi Hp) as (_ & _ & _ & _ & (j & Hj & Hd) & _). rewrite Hit in Hj. injection Hj as <-.
  by destruct (bi_state i).
Qed.

(** The parts of the invariant that do not depend on where the item went. *)
Lemma moved_heap i' s' bh' b' : moved p i' k s' bh' (b <| b_q := q |>) b' →
  NoDup (b_q b') ∧
  (∀ x, x ∈ b_q b' ↔ x ≠ p ∧ x ∈ b_q b) ∧
  b_queued b' = Z.of_nat (length (filter (waiting b') (b_q b'))) ∧
  heap (before (b_items b')) (b_q b').
Proof.
  intros [M1 _ _ Mq Mqd _]. destruct (popped _ _ _ _ Hi Hp) as (Hh & Hperm & Hpq & HpF & _ & _).
  assert (Hne : ∀ x, x ∈ q → b_items b' !! x = b_items b !! x).
  { intros x Hx. rewrite M1. destruct (decide (x = p)) as [->|]; [done|done]. }
  rewrite Mq, Mqd. cbn [b_q b_queued]. split_and!.
  - pose proof (i_q _ _ Hi) as Hnd. rewrite Hperm in Hnd. by apply NoDup_cons in Hnd as [_ ?].
  - intros x. change (b_q (b <| b_q := q |>)) with q. rewrite Hperm, elem_of_cons. split; [intros Hx|naive_solver].
    split; [by intros ->|by right].
  - change (b_queued (b <| b_q := q |>)) with (b_queued b). change (b_q (b <| b_q := q |>)) with q.
    rewrite (i_queued _ _ Hi), (filter_perm _ _ _ Hperm), filter_cons_True
      by (unfold waiting; rewrite (item_at_Some _ _ _ Hit); apply popped_queued).
    cbn [length]. rewrite (filter_ext_elem (waiting b) (waiting b')); [lia|].
    intros x Hx. unfold waiting, item_at. by rewrite Hne.
  - eapply heap_same, Hh. intros x Hx. change (b_q (b <| b_q := q |>)) with q in Hx. by rewrite Hne.
Qed.

Lemma inv_tracked eh b' : sh_load s < sh_cap s → sh_by_eh s !! eh = None →
  moved p (i <| bi_state := IT_DISPATCHED |> <| bi_shard := k |> <| bi_eh := eh |>) k
    (BShard (sh_cap s) (sh_load s + 1) (<[eh := p]> (sh_by_eh s))) (b_by_bh b) (b <| b_q := q |>) b' →
  inv F b'.
Proof.
  intros Hroom Heh HM. destruct (moved_heap _ _ _ _ HM) as (Hnd & Hel & Hqd & Hh).
  pose proof popped_queued as Hq. destruct (popped _ _ _ _ Hi Hp) as (_ & _ & _ & HpF & _ & _).
  destruct HM as [M1 M2 M3 _ _ [M6 M7]]. change (b_items (b <| b_q := q |>)) with (b_items b) in M1.
  change (b_sh (b <| b_q := q |>)) with (b_sh b) in M2.
  destruct Hi as [A1 A2 A3 A4 A5 A6 A7 A8 A9 [A10 [A11 A12]] [A13 A14]]. split; try done.
  - intros h x Hx. rewrite M3 in Hx. destruct (A1 h x Hx) as (HxF & j & Hj & Hb & Hd). split; [done|]. rewrite M1.
    destruct (decide (x = p)) as [->|]; [|by exists j]. rewrite Hit in Hj. injection Hj as <-. by eexists.
  - intros x j. rewrite M1, M3. destruct (decide (x = p)) as [->|]; [|by apply A2]. intros [= <-] _ _. cbn. by apply A2.
  - intros x. rewrite Hel, A4, M1. destruct (decide (x = p)) as [->|]; [|naive_solver].
    split; [naive_solver|]. intros (_ & j & [= <-] & Hd). done.
  - intros j t eh' x. rewrite M2, M1. destruct (decide (j = k)) as [->|].
    + intros [= <-]. cbn [sh_by_eh]. rewrite lookup_insert_Some. intros [[<- <-]|[Hne Hx]].
      { split; [done|]. rewrite decide_True by done. by eexists. }
      destruct (A5 k s eh' x Hs Hx) as (HxF & y & Hy & Hd & Hr). split; [done|].
      rewrite decide_False by (intros ->; congruence). by exists y.
    + intros Ht Hx. destruct (A5 j t eh' x Ht Hx) as (HxF & y & Hy & Hd & Hr). split; [done|].
      rewrite decide_False by (intros ->; congruence). by exists y.
  - intros x j. rewrite M1. destruct (decide (x = p)) as [->|].
    + intros [= <-] _ _. cbn. rewrite M2, decide_True by done. eexists. split; [done|]. cbn. by rewrite lookup_insert_eq.
    + intros Hj HxF Hd. destruct (A6 x j Hj HxF Hd) as (t & Ht & Hx). rewrite M2.
      destruct (decide (bi_shard j = k)) as [Hk|]; [|by exists t]. rewrite Hk, Hs in Ht. injection Ht as <-.
      eexists. split; [done|]. cbn. rewrite lookup_insert_ne; [done|]. intros ->. congruence.
  - intros j t. rewrite M2. destruct (decide (j = k)) as [->|]; [|by apply A7]. intros [= <-]. cbn.
    rewrite map_size_insert_None by done. destruct (A7 k s Hs) as [Hl _]. split; lia.
  - rewrite M6, M7. split; [done|]. split; [done|]. intros x j. rewrite M1.
    destruct (decide (x = p)) as [->|]; [|by apply A12]. intros [= <-]. cbn. by apply (A12 p).
  - split; [done|]. intros x Hx. destruct (A14 x Hx) as (j & Hj & Hd). rewrite M1.
    destruct (decide (x = p)) as [->|]; [done|by exists j].
Qed.

Lemma inv_failed i' b' : bi_bh i' = bi_bh i → bi_state i' = IT_DISPATCHED → bi_prio i' = bi_prio i → bi_seq i' = bi_seq i →
  moved p i' k s (delete (bi_bh i) (b_by_bh b)) (b <| b_q := q |>) b' → inv (p :: F) b'.
Proof.
  intros Hbh Hd' _ Hseq HM. destruct (moved_heap _ _ _ _ HM) as (Hnd & Hel & Hqd & Hh).
  pose proof popped_queued as Hq. destruct (popped _ _ _ _ Hi Hp) as (_ & _ & _ & HpF & _ & _).
  destruct HM as [M1 M2 M3 _ _ [M6 M7]]. change (b_items (b <| b_q := q |>)) with (b_items b) in M1.
  change (b_sh (b <| b_q := q |>)) with (b_sh b) in M2.
  destruct Hi as [A1 A2 A3 A4 A5 A6 A7 A8 A9 [A10 [A11 A12]] [A13 A14]].
  assert (Hsh : ∀ j, b_sh b' !! j = b_sh b !! j) by (intros j; rewrite M2; by destruct (decide (j = k)) as [->|]).
  assert (HpB : b_by_bh b !! bi_bh i = Some p) by by apply A2.
  split; try done.
  - intros h x. rewrite M3, lookup_delete_Some. intros [Hne Hx]. destruct (A1 h x Hx) as (HxF & j & Hj & Hb & Hd).
    assert (x ≠ p) by (intros ->; congruence). rewrite not_elem_of_cons, M1, decide_False by done. split; [done|]. by exists j.
  - intros x j. rewrite M1, not_elem_of_cons, M3. destruct (decide (x = p)) as [->|Hne]; [naive_solver|].
    intros Hj [_ HxF] Hd. rewrite lookup_delete_ne; [by apply A2|]. intros Heq. specialize (A2 x j Hj HxF Hd). congruence.
  - intros x. rewrite Hel, A4, M1, not_elem_of_cons. destruct (decide (x = p)) as [->|]; naive_solver.
  - intros j t eh' x. rewrite Hsh, M1. intros Ht Hx. destruct (A5 j t eh' x Ht Hx) as (HxF & y & Hy & Hd & Hr).
    assert (x ≠ p) by (intros ->; congruence). rewrite not_elem_of_cons, decide_False by done. split; [done|]. by exists y.
  - intros x j. rewrite M1, not_elem_of_cons. destruct (decide (x = p)) as [->|]; [naive_solver|].
    intros Hj [_ HxF] Hd. rewrite Hsh. by apply A6.
  - intros j t. rewrite Hsh. apply A7.
  - rewrite M6, M7. split; [done|]. split; [done|]. intros x j. rewrite M1.
    destruct (decide (x = p)) as [->|]; [|by apply A12]. intros [= <-]. rewrite Hbh, Hseq. by apply (A12 p).
  - split; [by constructor|]. intros x. rewrite elem_of_cons, M1. destruct (decide (x = p)) as [->|]; [by intros _; eexists|].
    intros [?|Hx]; [done|]. by apply A14.
Qed.
End moved.

(** ** Dispatch *)

(** What a dispatch changes besides the heap: the handles of the items it could not hand
    over leave the table, and those items are held. *)
Record dispatched (b b' : balance) (new : list positive) : Prop := Dispatched {
  d_told : ∀ h, (here h b' + held h new b')%nat = here h b;
  d_names : ∀ x i', b_items b' !! x = Some i' → ∃ i, b_items b !! x = Some i ∧ bi_bh i' = bi_bh i;
  d_kept : ∀ x i, b_items b !! x = Some i → bi_state i = IT_DISPATCHED → b_items b' !! x = Some i;
  d_next : b_next_bh b' = b_next_bh b;
  d_shards : ∀ k s eh x, b_sh b !! k = Some s → sh_by_eh s !! eh = Some x →
    ∃ s', b_sh b' !! k = Some s' ∧ sh_by_eh s' !! eh = Some x;
  d_caps : map sh_cap (b_sh b') = map sh_cap (b_sh b) }.


Definition full (b : balance) : Prop := ∀ k s, b_sh b !! k = Some s → sh_cap s ≤ sh_load s.
(** [honest] for the answers from the n-th on. *)
Definition fresh (n : nat) (ans : nat → nat → answer) (b : balance) : Prop :=
  ∀ k m eh room, (n ≤ m)%nat → ans k m = (GPTPS_OK, eh, room) →
    (∀ s, b_sh b !! k = Some s → sh_by_eh s !! eh = None) ∧
    ∀ m' room', (n ≤ m')%nat → ans k m' = (GPTPS_OK, eh, room') → m' = m.

Lemma held_same h F b b' : (∀ x, x ∈ F → bi_bh (item_at b' x) = bi_bh (item_at b x)) → held h F b' = held h F b.
Proof. intros H. unfold held. f_equal. apply filter_ext_elem. intros x Hx. by rewrite H. Qed.
Lemma held_app h F G b : held h (F ++ G) b = (held h F b + held h G b)%nat.
Proof. unfold held. by rewrite filter_app, length_app. Qed.
Lemma kept_at b b' x i : (∀ x i, b_items b !! x = Some i → bi_state i = IT_DISPATCHED → b_items b' !! x = Some i) →
  b_items b !! x = Some i → bi_state i = IT_DISPATCHED → item_at b' x = item_at b x.
Proof. intros H Hx Hd. rewrite (item_at_Some _ _ _ Hx). by apply item_at_Some, H. Qed.

Lemma dispatched_refl b : dispatched b b [].
Proof. split; [intros h; apply Nat.add_0_r|by eauto|by eauto|done|by eauto|done]. Qed.
Lemma dispatched_trans F b b1 b2 n1 n2 : inv (n1 ++ F) b1 → dispatched b b1 n1 → dispatched b1 b2 n2 →
  dispatched b b2 (n2 ++ n1).
Proof.
  intros Hi [T1 N1 K1 X1 S1 C1] [T2 N2 K2 X2 S2 C2]. split.
  - intros h. rewrite <-T1, <-T2, held_app. rewrite (held_same h n1 b1 b2); [lia|].
    intros x Hx. destruct (i_F _ _ Hi) as [_ HF]. destruct (HF x) as (i & Hx1 & Hd); [apply elem_of_app; by left|].
    by rewrite (kept_at b1 b2 x i K2 Hx1 Hd).
  - intros x i' Hx. destruct (N2 x i' Hx) as (i & Hx1 & ->). by apply N1.
  - auto.
  - congruence.
  - intros k s eh x Hk Hx. destruct (S1 k s eh x Hk Hx) as (s1 & H1 & H1'). by eapply S2.
  - congruence.
Qed.

Lemma names_at b b' x i' : (∀ x i', b_items b' !! x = Some i' → ∃ i, b_items b !! x = Some i ∧ bi_bh i' = bi_bh i) →
  b_items b' !! x = Some i' → bi_bh (item_at b' x) = bi_bh (item_at b x).
Proof. intros H Hx. destruct (H x i' Hx) as (i & Hi & Hb). by rewrite (item_at_Some _ _ _ Hx), (item_at_Some _ _ _ Hi). Qed.

Lemma dispatched_free b p q : bi_state (item_at b p) = IT_CANCELLED → dispatched b (item_free p (b <| b_q := q |>)) [].
Proof.
  intros Hd. split; [| | |done| |done].
  - intros h. apply Nat.add_0_r.
  - intros x i. cbn. rewrite lookup_delete_Some. intros [_ Hx]. by exists i.
  - intros x i Hx Hs. cbn. rewrite lookup_delete_ne; [done|]. intros ->. rewrite (item_at_Some _ _ _ Hx) in Hd. congruence.
  - intros k s eh x Hk Hx. by exists s.
Qed.
Lemma caps_same (l l' : list bshard) k s s' : l !! k = Some s → sh_cap s' = sh_cap s →
  (∀ j, l' !! j = if decide (j = k) then Some s' else l !! j) → map sh_cap l' = map sh_cap l.
Proof.
  intros Hs Hc H. apply list_eq. intros j. change (map sh_cap l') with (sh_cap <$> l'). change (map sh_cap l) with (sh_cap <$> l).
  rewrite !list_lookup_fmap, H. destruct (decide (j = k)) as [->|]; [|done]. rewrite Hs. cbn. by rewrite Hc.
Qed.

Lemma dispatched_moved F b p q i k s i' s' bh' b' (out : bool) : inv F b →
  heap_pop (before (b_items b)) (b_q b) = Some (p, q) → b_items b !! p = Some i → bi_state i ≠ IT_CANCELLED →
  b_sh b !! k = Some s → moved p i' k s' bh' (b <| b_q := q |>) b' →
  bi_bh i' = bi_bh i → sh_cap s' = sh_cap s →
  (∀ eh x, sh_by_eh s !! eh = Some x → sh_by_eh s' !! eh = Some x) →
  bh' = (if out then delete (bi_bh i) (b_by_bh b) else b_by_bh b) →
  dispatched b b' (if out then [p] else []).
Proof.
  intros Hi Hp Hit Hst Hs HM Hb Hc Hkeep ->.
  pose proof (popped_queued F b p q i Hi Hp Hit Hst) as Hq.
  destruct (popped _ _ _ _ Hi Hp) as (_ & _ & _ & HpF & _).
  destruct HM as [M1 M2 M3 _ _ [M6 M7]]. change (b_items (b <| b_q := q |>)) with (b_items b) in M1.
  change (b_sh (b <| b_q := q |>)) with (b_sh b) in M2. split.
  - intros h. unfold here. rewrite M3. destruct out.
    + assert (Hat : item_at b' p = i') by (unfold item_at; rewrite M1; by destruct (decide (p = p))).
      unfold held. rewrite filter_cons, filter_nil, Hat, Hb.
      assert (HpB : b_by_bh b !! bi_bh i = Some p) by (by apply (i_item _ _ Hi)).
      destruct (decide (bi_bh i = h)) as [<-|Hne].
      * rewrite lookup_delete_eq, HpB. rewrite decide_False by (by intros []). rewrite decide_True by done. done.
      * rewrite lookup_delete_ne by done. cbn. lia.
    + apply Nat.add_0_r.
  - intros x j. rewrite M1. destruct (decide (x = p)) as [->|]; [|by exists j]. intros [= <-]. by exists i.
  - intros x j Hx Hd. rewrite M1. destruct (decide (x = p)) as [->|]; [congruence|done].
  - done.
  - intros j t eh x Hj Hx. rewrite M2. destruct (decide (j = k)) as [->|]; [|by exists t].
    rewrite Hs in Hj. injection Hj as <-. eexists. split; [done|]. by apply Hkeep.
  - by eapply caps_same.
Qed.

Lemma dispatch_loop_ok fuel : ∀ n ans b fails F, inv F b → fresh n ans b → (length (b_q b) < fuel)%nat →
  let r := dispatch_loop fuel n ans b fails in
  ∃ new, r.2 = new ++ fails ∧ inv (new ++ F) r.1 ∧ dispatched b r.1 new ∧ (b_queued r.1 = 0 ∨ full r.1).
Proof.
  induction fuel as [|f IH]; intros n ans b fails F Hi Hfr Hfuel; [lia|]. cbn zeta. cbn [dispatch_loop].
  assert (Hstop : b_queued b = 0 ∨ full b → ∃ new, fails = new ++ fails ∧ inv (new ++ F) b ∧
    dispatched b b new ∧ (b_queued b = 0 ∨ full b)).
  { intros H. exists []. split; [done|]. split; [done|]. split; [apply dispatched_refl|done]. }
  destruct (Z.eqb_spec (b_queued b) 0) as [Hz|_]; [by apply Hstop; left|].
  pose proof (best_shard_ok 0 (b_sh b) None _ eq_refl) as Hbest.
  destruct (best_shard 0 (b_sh b) None) as [[k ld]|]; [|apply Hstop; right; exact (proj2 Hbest)].
  destruct Hbest as [?|(s & _ & Hs & Hroom)]; [done|]. rewrite Nat.sub_0_r in Hs.
  destruct (heap_pop (before (b_items b)) (b_q b)) as [[p q]|] eqn:Hp.
  2: { apply Hstop. left. pose proof (pop_heap _ _ (i_heap _ _ Hi)) as Hn. rewrite Hp in Hn.
       by rewrite (i_queued _ _ Hi), Hn. }
  destruct (popped _ _ _ _ Hi Hp) as (_ & Hperm & _ & HpF & (i & Hit & Hnd) & _).
  assert (Hlen : (length q < f)%nat) by (apply Permutation_length in Hperm; cbn in Hperm; lia).
  assert (Hat : item_at (b <| b_q := q |>) p = i) by by apply item_at_Some.
  destruct (decide (bi_state (item_at (b <| b_q := q |>) p) = IT_CANCELLED)) as [Hc|Hc].
  { assert (Hc' : bi_state (item_at b p) = IT_CANCELLED) by exact Hc.
    destruct (IH n ans _ fails F (free_cancelled _ _ _ _ Hi Hp Hc') Hfr Hlen) as (new & H1 & H2 & H3 & H4).
    exists new. split; [done|]. split; [done|]. split; [|done]. rewrite <-(app_nil_r new).
    eapply (dispatched_trans F); [|by apply dispatched_free|exact H3]. by eapply free_cancelled. }
  rewrite Hat in Hc. set (bq := b <| b_q := q |>) in *.
  assert (Hitq : b_items bq !! p = Some i) by exact Hit. assert (Hsq : b_sh bq !! k = Some s) by exact Hs.
  destruct (ans k n) as [[st eh] room] eqn:Hans.
  destruct (bool_decide (st = GPTPS_OK) && room) eqn:Hok.
  - apply andb_prop in Hok as [->%bool_decide_eq_true ->].
    destruct (hand_over_tracked bq p k i s eh Hitq Hsq) as [Ht HM].
    destruct (hand_over k (GPTPS_OK, eh, true) p bq) as [b1 tr]. cbn [fst snd] in Ht, HM. subst tr.
    change (b_by_bh bq) with (b_by_bh b) in HM.
    destruct (Hfr k n eh true (le_n _) Hans) as [Hnew Hdist].
    pose proof (inv_tracked F b p q i k s Hi Hp Hit Hc Hs eh b1 Hroom (Hnew s Hs) HM) as Hi1.
    assert (Hd1 : dispatched b b1 []).
    { refine (dispatched_moved F b p q i k s _ _ _ b1 false Hi Hp Hit Hc Hs HM eq_refl eq_refl _ eq_refl).
      intros eh' x Hx. cbn. rewrite lookup_insert_ne; [done|]. intros ->. specialize (Hnew s Hs). congruence. }
    destruct (IH (S n) ans b1 fails F Hi1) as (new & H1 & H2 & H3 & H4).
    + intros k' m eh' room' Hm Ha. destruct (Hfr k' m eh' room' ltac:(lia) Ha) as [Hn' Hd']. split.
      * intros t Ht. rewrite (m_sh _ _ _ _ _ _ _ HM) in Ht. change (b_sh bq) with (b_sh b) in Ht.
        destruct (decide (k' = k)) as [->|]; [|by apply Hn'].
        injection Ht as <-. cbn. rewrite lookup_insert_ne; [by apply Hn'|]. intros ->.
        specialize (Hd' n true ltac:(lia) Hans). lia.
      * intros m' r' Hm' Ha'. apply (Hd' m' r'); [lia|done].
    + by rewrite (m_q _ _ _ _ _ _ _ HM).
    + exists new. split; [done|]. split; [done|]. split; [|done]. rewrite <-(app_nil_r new).
      by eapply (dispatched_trans F).
  - destruct (hand_over_failed bq p k i s st eh room Hitq Hsq Hok) as (Ht & i' & Hb & Hd & Hpr & Hsq' & _ & HM).
    destruct (hand_over k (st, eh, room) p bq) as [b1 tr]. cbn [fst snd] in Ht, HM. subst tr.
    change (b_by_bh bq) with (b_by_bh b) in HM.
    pose proof (inv_failed F b p q i k s Hi Hp Hit Hc Hs i' b1 Hb Hd Hpr Hsq' HM) as Hi1.
    assert (Hd1 : dispatched b b1 [p]).
    { exact (dispatched_moved F b p q i k s i' s (delete (bi_bh i) (b_by_bh b)) b1 true Hi Hp Hit Hc Hs HM Hb eq_refl (λ _ _ H, H) eq_refl). }
    destruct (IH (S n) ans b1 (p :: fails) (p :: F) Hi1) as (new & H1 & H2 & H3 & H4).
    + intros k' m eh' room' Hm Ha. destruct (Hfr k' m eh' room' ltac:(lia) Ha) as [Hn' Hd']. split.
      * intros t Ht. rewrite (m_sh _ _ _ _ _ _ _ HM) in Ht. change (b_sh bq) with (b_sh b) in Ht.
        destruct (decide (k' = k)) as [->|]; [|by apply Hn']. injection Ht as <-. by apply Hn'.
      * intros m' r' Hm' Ha'. apply (Hd' m' r'); [lia|done].
    + by rewrite (m_q _ _ _ _ _ _ _ HM).
    + exists (new ++ [p]). rewrite <-!app_assoc. split; [done|]. split; [done|]. split; [|done].
      by eapply (dispatched_trans F).
Qed.

(** ** Telling the host *)

Lemma router_inv_perm F F' b : F ≡ₚ F' → inv F b → inv F' b.
Proof.
  intros HF [A1 A2 A3 A4 A5 A6 A7 A8 A9 A10 [A11 A12]].
  assert (Hin : ∀ x, x ∈ F ↔ x ∈ F') by (intros x; by rewrite HF).
  split; try done.
  - intros h p Hp. rewrite <-Hin. by apply A1.
  - intros p i. rewrite <-Hin. apply A2.
  - intros p. rewrite <-Hin. apply A4.
  - intros k s eh p. rewrite <-Hin. apply A5.
  - intros p i. rewrite <-Hin. apply A6.
  - rewrite <-HF. split; [done|]. intros p. rewrite <-Hin. apply A12.
Qed.
Lemma held_perm h F F' b : F ≡ₚ F' → held h F b = held h F' b.
Proof. intros HF. by apply filter_perm. Qed.
Lemma told_perm F F' b tr : F ≡ₚ F' → told F b tr → told F' b tr.
Proof. intros HF H h. rewrite <-(held_perm h F F' b HF). apply H. Qed.

(** A held item freed after its closing event. *)
Lemma inv_freed p F b : inv (p :: F) b → inv F (item_free p b).
Proof.
  intros [A1 A2 A3 A4 A5 A6 A7 A8 A9 [A10 [A11 A12]] [A13 A14]].
  assert (Hlook : ∀ x j, b_items (item_free p b) !! x = Some j ↔ x ≠ p ∧ b_items b !! x = Some j)
    by (intros x j; cbn; rewrite lookup_delete_Some; naive_solver).
  apply NoDup_cons in A13 as [HpF HF].
  assert (Hq : ∀ x, x ∈ b_q b → x ≠ p) by (intros x Hx ->; apply A4 in Hx as [Hx _]; apply Hx; by constructor).
  split; try done.
  - intros h x Hx. destruct (A1 h x Hx) as (HxF & i & Hi & Hr). apply not_elem_of_cons in HxF as [Hne HxF].
    split; [done|]. exists i. by rewrite Hlook.
  - intros x i [Hne Hi]%Hlook HxF. apply A2; [done|]. by apply not_elem_of_cons.
  - intros x. cbn [b_q item_free]. change (b_q (b <| b_items ::= delete p |>)) with (b_q b). split.
    + intros Hx. pose proof (Hq x Hx). apply A4 in Hx as (HxF & i & Hi & Hd). apply not_elem_of_cons in HxF as [_ HxF].
      split; [done|]. exists i. by rewrite Hlook.
    + intros (HxF & i & [Hne Hi]%Hlook & Hd). apply A4. rewrite not_elem_of_cons. eauto.
  - intros k s eh x Hk Hx. destruct (A5 k s eh x Hk Hx) as (HxF & i & Hi & Hr). apply not_elem_of_cons in HxF as [Hne HxF].
    split; [done|]. exists i. by rewrite Hlook.
  - intros x i [Hne Hi]%Hlook HxF. apply A6; [done|]. by apply not_elem_of_cons.
  - cbn. rewrite A8. do 2 f_equal. apply filter_ext_elem. intros x Hx. unfold waiting, item_at. cbn.
    rewrite lookup_delete_ne; [done|]. intros <-. by apply (Hq _ Hx).
  - eapply heap_same, A9. intros x Hx. cbn. rewrite lookup_delete_ne; [done|]. intros <-. by apply (Hq _ Hx).
  - split; [done|]. split; [done|]. intros x i [_ Hi]%Hlook. by eapply A12.
  - split; [done|]. intros x Hx. destruct (A14 x ltac:(by constructor)) as (i & Hi & Hd). exists i. rewrite Hlook.
    split; [|done]. split; [by intros ->|done].
Qed.
Lemma terminal_not_queued k st : is_terminal k st = true → k ≠ EV_QUEUED.
Proof. by destruct k. Qed.
Lemma told_ended p F b tr k st : inv (p :: F) b → told (p :: F) b tr → is_terminal k st = true →
  told F (item_free p b) (tr ++ [BEvent (bi_bh (item_at b p)) k st]).
Proof.
  intros Hi Ht Hk h. destruct (Ht h) as (H1 & H2 & H3). unfold ends, queueds in *. rewrite !times_app, !times_one.
  cbn [ev_bh]. unfold is_end at 2, is_queued at 2 4 6. cbn [ev_kind ev_status]. rewrite Hk.
  rewrite bool_decide_eq_false_2 by (by eapply terminal_not_queued).
  assert (Hheld : held h F (item_free p b) = held h F b).
  { apply held_same. intros x Hx. unfold item_at. cbn. rewrite lookup_delete_ne; [done|]. intros <-.
    destruct (i_F _ _ Hi) as [Hnd _]. by apply NoDup_cons in Hnd as [? _]. }
  change (here h (item_free p b)) with (here h b). change (b_next_bh (item_free p b)) with (b_next_bh b).
  rewrite Hheld. change (p :: F) with ([p] ++ F) in H1. rewrite held_app in H1.
  unfold held at 1 in H1. rewrite filter_cons, filter_nil in H1.
  destruct (decide (bi_bh (item_at b p) = h)); cbn [length] in H1; rewrite ?Nat.add_0_r in *; (split; [lia|done]).
Qed.

Lemma emit_fails_ok fails : ∀ b F tr, inv (fails ++ F) b → told (fails ++ F) b tr →
  let r := emit_fails fails b in
  inv F r.1.1 ∧ told F r.1.1 (tr ++ r.1.2) ∧ b_queued r.1.1 = b_queued b ∧ b_sh r.1.1 = b_sh b.
Proof.
  induction fails as [|p fails IH]; intros b F tr Hi Ht; cbn zeta; cbn [emit_fails]; [by rewrite app_nil_r|].
  specialize (IH (item_free p b) F (tr ++ [BEvent (bi_bh (item_at b p)) EV_DEAD_LETTERED (bi_fail (item_at b p))])
    (inv_freed _ _ _ Hi) (told_ended p (fails ++ F) b tr EV_DEAD_LETTERED _ Hi Ht eq_refl)). cbn zeta in IH.
  destruct (emit_fails fails (item_free p b)) as [[b' evs] cs]. cbn [fst snd] in IH |- *.
  rewrite <-app_assoc in IH. exact IH.
Qed.

Lemma told_dispatched F b b' tr new : inv F b → dispatched b b' new → told F b tr → told (new ++ F) b' tr.
Proof.
  intros Hi Hd Ht h. destruct (Ht h) as (H1 & H2 & H3). rewrite held_app.
  rewrite (held_same h F b b').
  - pose proof (d_told _ _ _ Hd h). rewrite (d_next _ _ _ Hd). split; [lia|done].
  - intros x Hx. destruct (i_F _ _ Hi) as [_ HF]. destruct (HF x Hx) as (i & Hxi & Hs).
    by rewrite (kept_at b b' x i (d_kept _ _ _ Hd) Hxi Hs).
Qed.

Lemma honest_fresh ans b b' : honest ans b →
  (∀ k s', b_sh b' !! k = Some s' → ∃ s, b_sh b !! k = Some s ∧ ∀ eh, sh_by_eh s !! eh = None → sh_by_eh s' !! eh = None) →
  fresh 0 ans b'.
Proof.
  intros H Hs k m eh room _ Ha. destruct (H k m eh room Ha) as (_ & H1 & H2). split; [|intros m' r' _; apply H2].
  intros s' Hk. destruct (Hs k s' Hk) as (s & Hk' & Hx). by apply Hx, H1.
Qed.

(** ** The sections *)

Definition good (s : balance * list bevent) : Prop := inv [] s.1 ∧ told [] s.1 s.2.

Lemma dispatch_good b tr ans : good (b, tr) → honest ans b →
  let r := dispatch ans b in good (r.1.1, tr ++ r.1.2) ∧ (b_queued r.1.1 = 0 ∨ full r.1.1).
Proof.
  intros [Hi Ht] Ha. cbn [fst snd] in Hi, Ht. cbn zeta. unfold dispatch.
  assert (Hf : fresh 0 ans b) by (eapply honest_fresh; [done|]; intros k s Hk; by exists s).
  destruct (dispatch_loop_ok (S (length (b_q b))) 0 ans b [] [] Hi Hf (le_n _)) as (new & Hn & Hi' & Hd & Hfull).
  destruct (dispatch_loop _ 0 ans b []) as [b1 fails]. cbn [fst snd] in *. rewrite app_nil_r in Hn. subst fails.
  pose proof (told_dispatched _ _ _ _ _ Hi Hd Ht) as Ht'.
  destruct (emit_fails_ok new b1 [] tr Hi' Ht') as (H1 & H2 & H3 & H4). split; [done|].
  unfold full. by rewrite H3, H4.
Qed.

(** A tracked item taken out of both tables. *)
Lemma removed b tr i s eh p it ans : inv [] b → told [] b tr → honest ans b → b_sh b !! i = Some s →
  sh_by_eh s !! eh = Some p → b_items b !! p = Some it →
  let bh := bi_bh (item_at b p) in
  let b1 := set_shard i (λ s, s <| sh_load ::= λ x, x - 1 |>) (set_shard i (λ s, s <| sh_by_eh ::= delete eh |>) b <| b_by_bh ::= delete bh |>) in
  inv [p] b1 ∧ told [p] b1 tr ∧ fresh 0 ans b1 ∧ b_items b1 = b_items b.
Proof.
  intros Hi Ht Ha Hs Hp Hit. cbn zeta. rewrite (item_at_Some _ _ _ Hit). set (bh := bi_bh it). set (b1 := set_shard _ _ _).
  assert (Hsh : ∀ j, b_sh b1 !! j = if decide (j = i) then Some (BShard (sh_cap s) (sh_load s - 1) (delete eh (sh_by_eh s)))
    else b_sh b !! j).
  { intros j. unfold b1. rewrite set_shard_lookup. change (b_sh (?x <| b_by_bh ::= delete bh |>)) with (b_sh x).
    rewrite !set_shard_lookup. destruct (decide (j = i)); [|done]. rewrite decide_True by done. by rewrite Hs. }
  assert (Hbh : b_by_bh b1 = delete bh (b_by_bh b)) by done.
  assert (Hitems : b_items b1 = b_items b) by done.
  assert (Hq : b_q b1 = b_q b) by done. assert (Hqd : b_queued b1 = b_queued b) by done.
  assert (Hnx : b_next_bh b1 = b_next_bh b ∧ b_next_seq b1 = b_next_seq b) by done.
  assert (Hat : ∀ x, item_at b1 x = item_at b x) by done. clearbody b1. destruct Hnx as [Hx1 Hx2].
  destruct (i_eh _ _ Hi i s eh p Hs Hp) as (_ & it' & Hit' & Hd & Hk & He). rewrite Hit in Hit'. injection Hit' as <-.
  assert (HpB : b_by_bh b !! bh = Some p) by (apply (i_item _ _ Hi); [done|apply not_elem_of_nil|by rewrite Hd]).
  split_and!; [| | |done].
  - pose proof Hi as [A1 A2 A3 A4 A5 A6 A7 A8 A9 [A10 [A11 A12]] [A13 A14]].
    split; rewrite ?Hitems, ?Hq, ?Hqd, ?Hbh, ?Hx1, ?Hx2; try done.
    + intros h x [Hne Hx]%lookup_delete_Some. destruct (A1 h x Hx) as (_ & j & Hj & Hb & Hc).
      split; [|by exists j]. rewrite list_elem_of_singleton. intros ->. rewrite Hit in Hj. injection Hj as <-. done.
    + intros x j Hj Hne Hc. rewrite list_elem_of_singleton in Hne.
      pose proof (A2 x j Hj (not_elem_of_nil _) Hc) as HB. rewrite lookup_delete_ne; [done|]. intros Heq. congruence.
    + intros x. rewrite A4, list_elem_of_singleton. split; [|naive_solver]. intros (_ & j & Hj & Hc).
      split; [|by exists j]. intros ->. congruence.
    + intros j t eh' x. rewrite Hsh. destruct (decide (j = i)) as [->|].
      * intros [= <-]. cbn. intros [Hne Hx]%lookup_delete_Some. destruct (A5 i s eh' x Hs Hx) as (_ & y & Hy & Hr).
        split; [|by exists y]. rewrite list_elem_of_singleton. intros ->. rewrite Hit in Hy. injection Hy as <-. naive_solver.
      * intros Hj Hx. destruct (A5 j t eh' x Hj Hx) as (_ & y & Hy & Hr). split; [|by exists y].
        rewrite list_elem_of_singleton. intros ->. rewrite Hit in Hy. injection Hy as <-. naive_solver.
    + intros x j Hj Hne Hc. rewrite list_elem_of_singleton in Hne.
      destruct (A6 x j Hj (not_elem_of_nil _) Hc) as (t & Ht' & Hx). rewrite Hsh.
      destruct (decide (bi_shard j = i)) as [Hji|]; [|by exists t]. rewrite Hji, Hs in Ht'. injection Ht' as <-.
      eexists. split; [done|]. cbn. rewrite lookup_delete_ne; [done|]. intros Heq. congruence.
    + intros j t. rewrite Hsh. destruct (decide (j = i)) as [->|]; [|apply A7]. intros [= <-]. cbn.
      destruct (A7 i s Hs) as [Hl Hc]. rewrite map_size_delete_Some by by eexists.
      assert (size (sh_by_eh s) ≠ 0%nat) by (intros Hz; apply map_size_empty_inv in Hz; rewrite Hz in Hp; by rewrite lookup_empty in Hp). lia.
    + rewrite A8. do 2 f_equal. apply filter_ext_elem. intros x _. unfold waiting. by rewrite Hat.
    + split; [apply NoDup_singleton|]. intros x ->%list_elem_of_singleton. by exists it.
  - intros h. destruct (Ht h) as (H1 & H2 & H3). rewrite Hx1. split; [|done]. rewrite <-H1. unfold here, held.
    rewrite Hbh, filter_cons, !filter_nil, Hat, (item_at_Some _ _ _ Hit). fold bh. destruct (decide (bh = h)) as [<-|Hne].
    + rewrite lookup_delete_eq, HpB. rewrite decide_False by (by intros []). rewrite decide_True by done. cbn. lia.
    + by rewrite lookup_delete_ne by done.
  - eapply honest_fresh; [done|]. intros k s'. rewrite Hsh. destruct (decide (k = i)) as [->|]; [|intros Hk'; by exists s'].
    intros [= <-]. exists s. split; [done|]. intros eh' Hn. cbn. by rewrite lookup_delete_None; right.
Qed.

Lemma observe_good b tr i k eh st ans : good (b, tr) → honest ans b →
  let r := observe i k eh st ans b in good (r.1.1, tr ++ r.1.2).
Proof.
  intros [Hi Ht] Ha. cbn [fst snd] in Hi, Ht. cbn zeta. unfold observe.
  assert (Hsame : good (b, tr ++ [])) by by rewrite app_nil_r.
  destruct (decide (k = EV_QUEUED)) as [|Hk]; [exact Hsame|].
  destruct (b_sh b !! i) as [s|] eqn:Hs; cbn [mbind option_bind]; [|exact Hsame].
  destruct (sh_by_eh s !! eh) as [p|] eqn:Hp; [|exact Hsame].
  destruct (i_eh _ _ Hi i s eh p Hs Hp) as (_ & it & Hit & Hd & Hsh & Heh).
  destruct (is_terminal k st) eqn:Hterm.
  2: { split; [exact Hi|]. intros h. destruct (Ht h) as (H1 & H2 & H3). cbn [fst snd].
       unfold ends, queueds in *. rewrite !times_app, !times_one. cbn [ev_bh]. unfold is_end at 2, is_queued at 2 4 6.
       cbn [ev_kind ev_status]. rewrite Hterm, bool_decide_eq_false_2 by done.
       destruct (decide (bi_bh (item_at b p) = h)); (split; [lia|split; [lia|intros Hh; specialize (H3 Hh); lia]]). }
  change (item_at (set_shard i (λ s, s <| sh_by_eh ::= delete eh |>) b) p) with (item_at b p).
  set (bh := bi_bh (item_at b p)). assert (Hbh : bh = bi_bh it) by (unfold bh; by rewrite (item_at_Some _ _ _ Hit)).
  set (b1 := set_shard i (λ s, s <| sh_load ::= λ x, x - 1 |>) (set_shard i (λ s, s <| sh_by_eh ::= delete eh |>) b <| b_by_bh ::= delete bh |>)).
  assert (Hgone : inv [p] b1 ∧ told [p] b1 tr ∧ fresh 0 ans b1 ∧ b_items b1 = b_items b)
    by (eapply removed; eauto). clearbody b1. destruct Hgone as (Hi1 & Ht1 & Hf1 & Hit1).
  destruct (dispatch_loop_ok (S (length (b_q b1))) 0 ans b1 [] [p] Hi1 Hf1 (le_n _)) as (new & Hn & Hi2 & Hd2 & _).
  destruct (dispatch_loop _ 0 ans b1 []) as [b2 fails]. cbn [fst snd] in *. rewrite app_nil_r in Hn. subst fails.
  pose proof (told_dispatched _ _ _ _ _ Hi1 Hd2 Ht1) as Ht2.
  assert (Hp2 : new ++ [p] ≡ₚ p :: new) by by rewrite <-Permutation_cons_append.
  apply (router_inv_perm _ _ _ Hp2) in Hi2. apply (told_perm _ _ _ _ Hp2) in Ht2.
  assert (Hat2 : bi_bh (item_at b2 p) = bh).
  { rewrite (kept_at b1 b2 p it (d_kept _ _ _ Hd2)); [|by rewrite Hit1|done]. unfold bh, item_at. by rewrite Hit1. }
  pose proof (told_ended p new b2 tr k st Hi2 Ht2 Hterm) as Ht3. rewrite Hat2 in Ht3. apply inv_freed in Hi2.
  rewrite <-(app_nil_r new) in Hi2, Ht3.
  destruct (emit_fails_ok new (item_free p b2) [] _ Hi2 Ht3) as (H1 & H2 & _).
  destruct (emit_fails new (item_free p b2)) as [[b3 evs] cs]. cbn [fst snd] in *. split; [done|].
  by rewrite <-app_assoc in H2.
Qed.

(** What a refused submit leaves: the counters have moved on. *)
Lemma next_good b b' tr : good (b, tr) → b_items b' = b_items b → b_sh b' = b_sh b → b_q b' = b_q b →
  b_queued b' = b_queued b → b_by_bh b' = b_by_bh b → b_next_bh b ≤ b_next_bh b' → b_next_seq b ≤ b_next_seq b' →
  good (b', tr).
Proof.
  intros [Hi Ht] E1 E2 E3 E4 E5 L1 L2. cbn [fst snd] in Hi, Ht.
  assert (Hat : ∀ x, item_at b' x = item_at b x) by (intros x; unfold item_at; by rewrite E1).
  destruct Hi as [A1 A2 A3 A4 A5 A6 A7 A8 A9 [A10 [A11 A12]] [A13 A14]]. split; cbn [fst snd].
  - split; rewrite ?E1, ?E2, ?E3, ?E4, ?E5; try done.
    + rewrite A8. do 2 f_equal. apply filter_ext_elem. intros x _. unfold waiting. by rewrite Hat.
    + split; [lia|]. split; [lia|]. intros x i Hx. destruct (A12 x i Hx). lia.
  - intros h. destruct (Ht h) as (H1 & H2 & H3). unfold here, held in *. rewrite E5. split; [done|]. split; [done|].
    intros Hn. apply H3. lia.
Qed.

(** The state after an accepted submit. *)
Lemma accepted_inv b b' p q it : inv [] b → b_items b !! p = None →
  b_items b' = <[p := it]> (b_items b) → b_by_bh b' = <[bi_bh it := p]> (b_by_bh b) → b_sh b' = b_sh b →
  heap_push (before (b_items b')) true (b_q b) p = Some q → b_q b' = q → b_queued b' = b_queued b + 1 →
  b_next_bh b' = b_next_bh b + 1 → b_next_seq b' = b_next_seq b + 1 →
  bi_bh it = b_next_bh b' → bi_seq it = b_next_seq b' → bi_state it = IT_QUEUED → inv [] b'.
Proof.
  intros Hi Hp E1 E2 E3 Hpush E4 E5 E6 E7 Ebh Eseq Est.
  pose proof Hi as [A1 A2 A3 A4 A5 A6 A7 A8 A9 [A10 [A11 A12]] _].
  assert (Hpq : p ∉ b_q b) by (intros Hx; apply A4 in Hx as (_ & i & Hx & _); congruence).
  assert (Hold : ∀ x, x ≠ p → b_items b' !! x = b_items b !! x) by (intros x Hx; rewrite E1; by rewrite lookup_insert_ne).
  assert (Hnew : b_items b' !! p = Some it) by (rewrite E1; by rewrite lookup_insert_eq).
  assert (Hfresh : ∀ x i, b_items b !! x = Some i → bi_bh i ≠ bi_bh it) by (intros x i Hx; destruct (A12 x i Hx); lia).
  assert (Hsame : ∀ x, x ∈ b_q b → b_items b' !! x = b_items b !! x) by (intros x Hx; apply Hold; by intros ->).
  apply push_heap in Hpush as [Hh Hperm]; [|eapply heap_same, A9; intros x Hx; by rewrite Hsame].
  rewrite <-E4 in Hh, Hperm. split; rewrite ?E3; try done.
  - intros h x. rewrite E2, lookup_insert_Some. intros [[<- <-]|[Hne Hx]].
    + split; [apply not_elem_of_nil|]. exists it. split; [done|]. split; [done|]. by rewrite Est.
    + destruct (A1 h x Hx) as (HF & i & Hxi & Hb & Hc). split; [done|]. exists i. rewrite Hold; [done|]. intros ->. congruence.
  - intros x i Hx _ Hc. rewrite E2. destruct (decide (x = p)) as [->|Hne].
    + rewrite Hnew in Hx. injection Hx as <-. by rewrite lookup_insert_eq.
    + rewrite Hold in Hx by done. rewrite lookup_insert_ne; [by apply A2, Hc; [|apply not_elem_of_nil]|].
      by intros Heq; eapply Hfresh.
  - rewrite Hperm. by constructor.
  - intros x. rewrite Hperm, elem_of_cons. destruct (decide (x = p)) as [->|Hne].
    + split; [|by left]. intros _. split; [apply not_elem_of_nil|]. exists it. split; [done|]. by rewrite Est.
    + rewrite A4, Hold by done. naive_solver.
  - intros k s eh x Hk Hx. destruct (A5 k s eh x Hk Hx) as (HF & i & Hxi & Hr). split; [done|]. exists i.
    rewrite Hold; [done|]. intros ->. congruence.
  - intros x i Hx HF Hd. destruct (decide (x = p)) as [->|Hne]; [congruence|]. rewrite Hold in Hx by done. by apply (A6 x).
  - rewrite E5, A8, (filter_perm _ _ _ Hperm), filter_cons_True by (unfold waiting; by rewrite (item_at_Some _ _ _ Hnew)).
    cbn [length]. rewrite (filter_ext_elem (waiting b) (waiting b')); [lia|].
    intros x Hx. unfold waiting, item_at. by rewrite Hsame.
  - split; [lia|]. split; [lia|]. intros x i Hx. destruct (decide (x = p)) as [->|Hne].
    + rewrite Hnew in Hx. injection Hx as <-. lia.
    + rewrite Hold in Hx by done. destruct (A12 x i Hx). lia.
  - split; [constructor|]. by intros x ?%elem_of_nil.
Qed.

Lemma router_submit_good b tr p task prio room : good (b, tr) → b_items b !! p = None →
  b_next_bh b + 1 < 2 ^ 64 → b_next_seq b + 1 < 2 ^ 64 →
  let r := submit p task prio room b in good (r.1.2, tr ++ r.2).
Proof.
  intros Hg Hp Hb Hq. pose proof Hg as [Hi Ht]. cbn [fst snd] in Hi, Ht. cbn zeta. unfold submit.
  destruct (i_next _ _ Hi) as (Hn1 & Hn2 & Hn3). rewrite !u64_small by lia.
  assert (Hbh : b_by_bh b !! (b_next_bh b + 1) = None).
  { destruct (b_by_bh b !! (b_next_bh b + 1)) as [x|] eqn:Hx; [|done].
    destruct (i_bh _ _ Hi _ _ Hx) as (_ & i & Hxi & Hbi & _). destruct (Hn3 x i Hxi). lia. }
  set (it := BItem (b_next_bh b + 1) IT_QUEUED 0 0 prio (b_next_seq b + 1) task GPTPS_OK).
  set (b0 := b <| b_next_bh := b_next_bh b + 1 |> <| b_next_seq := b_next_seq b + 1 |> <| b_items ::= <[p := it]> |>).
  destruct room as [r1 r2]. cbn [fst snd].
  set (b1 := if r1 then b0 <| b_by_bh ::= <[b_next_bh b + 1 := p]> |> else b0).
  destruct (if r1 then heap_push (before (b_items b1)) r2 (b_q b1) p else None) as [q|] eqn:Hpush; cbn [fst snd].
  - destruct r1; [|done]. destruct r2; [|done].
    set (bf := b1 <| b_q := q |> <| b_queued ::= λ x, x + 1 |>).
    assert (Hi' : inv [] bf) by by eapply (accepted_inv b _ p q it).
    split; [exact Hi'|]. cbn [fst snd]. intros h. destruct (Ht h) as (H1 & H2 & H3).
    unfold ends, queueds in *. rewrite !times_app, !times_one. cbn [ev_bh]. change (is_end _) with false.
    change (is_queued _) with true. change (held h [] _) with 0%nat in H1 |- *.
    change (b_next_bh bf) with (b_next_bh b + 1). unfold here in *.
    change (b_by_bh bf) with (<[b_next_bh b + 1 := p]> (b_by_bh b)).
    destruct (decide (b_next_bh b + 1 = h)) as [<-|Hne].
    + rewrite lookup_insert_eq. rewrite Hbh in H1. rewrite decide_False in H1 by (by intros []).
      rewrite decide_True by done. rewrite H3 in * by lia. split; [lia|]. split; [lia|]. intros Hn. lia.
    + rewrite lookup_insert_ne by done. split; [lia|]. split; [lia|]. intros Hn. rewrite H3 by lia. lia.
  - rewrite app_nil_r. eapply (next_good b); [done| | | | | | |]; unfold b1, b0; destruct r1; cbn; try done; try lia.
    + by rewrite delete_insert_id.
    + by rewrite delete_insert_id.
    + by rewrite delete_insert_id.
    + by rewrite delete_id.
Qed.

Lemma cancel_good b tr h : good (b, tr) → let r := cancel h b in good (r.1.2, tr ++ r.2).
Proof.
  intros Hg. pose proof Hg as [Hi Ht]. cbn [fst snd] in Hi, Ht. cbn zeta. unfold cancel.
  destruct (b_by_bh b !! h) as [p|] eqn:Hp; [|cbn; by rewrite app_nil_r].
  destruct (decide (bi_state (item_at b p) = IT_QUEUED)) as [Hq|Hq]; cbn [fst snd]; [|by rewrite app_nil_r].
  destruct (i_bh _ _ Hi _ _ Hp) as (_ & it & Hit & Hbh & Hc). rewrite (item_at_Some _ _ _ Hit) in Hq.
  set (f := λ i, i <| bi_state := IT_CANCELLED |> <| bi_task := EmptyString |>).
  set (b' := set_item p f b <| b_queued ::= λ x, x - 1 |> <| b_by_bh ::= delete h |>).
  assert (Hitems : ∀ x, b_items b' !! x = if decide (x = p) then Some (f it) else b_items b !! x).
  { intros x. etrans; [apply (set_item_lookup p f b x)|]. by rewrite Hit. }
  assert (Hpq : p ∈ b_q b).
  { apply (i_elem _ _ Hi). split; [apply not_elem_of_nil|]. exists it. by rewrite Hq. }
  pose proof Hi as [A1 A2 A3 A4 A5 A6 A7 A8 A9 [A10 [A11 A12]] _]. split; cbn [fst snd].
  - change (b_by_bh b') with (delete h (b_by_bh b)). split; try done.
    + intros h' x. change (b_by_bh b') with (delete h (b_by_bh b)). rewrite lookup_delete_Some. intros [Hne Hx].
      destruct (A1 h' x Hx) as (HF & i & Hxi & Hr). split; [done|]. exists i. rewrite Hitems.
      rewrite decide_False; [done|]. intros ->. rewrite Hit in Hxi. injection Hxi as <-. naive_solver.
    + intros x i. rewrite Hitems. change (b_by_bh b') with (delete h (b_by_bh b)).
      destruct (decide (x = p)) as [->|Hne]; [by intros [= <-]|]. intros Hx HF Hd.
      rewrite lookup_delete_ne; [by apply A2|]. intros ->. pose proof (A2 x i Hx HF Hd). congruence.
    + intros x. change (b_q b') with (b_q b). rewrite A4, Hitems. destruct (decide (x = p)) as [->|Hne]; [|done].
      split; intros (HF & i & Hx & Hd); (split; [done|]); [by exists (f it)|]. exists it. by rewrite Hq.
    + intros k s eh x Hk Hx. destruct (A5 k s eh x Hk Hx) as (HF & i & Hxi & Hd & Hr). split; [done|]. exists i.
      rewrite Hitems, decide_False; [done|]. intros ->. congruence.
    + intros x i. rewrite Hitems. destruct (decide (x = p)) as [->|Hne]; [by intros [= <-]|]. apply A6.
    + change (b_queued b') with (b_queued b - 1). change (b_q b') with (b_q b). rewrite A8.
      destruct (proj1 (elem_of_Permutation _ _) Hpq) as [l Hl]. rewrite !(filter_perm _ _ _ Hl).
      rewrite filter_cons_True by (unfold waiting; by rewrite (item_at_Some _ _ _ Hit)).
      rewrite filter_cons_False; [|unfold waiting, item_at; rewrite Hitems; by destruct (decide (p = p))].
      cbn [length]. rewrite (filter_ext_elem (waiting b) (waiting b')); [lia|]. intros x Hx. unfold waiting, item_at.
      rewrite Hitems, decide_False; [done|]. intros ->. rewrite Hl in A3. by apply NoDup_cons in A3 as [? _].
    + eapply heap_same, A9. intros x _. rewrite Hitems. destruct (decide (x = p)) as [->|]; [|done]. by rewrite Hit.
    + change (b_next_bh b') with (b_next_bh b). change (b_next_seq b') with (b_next_seq b). split; [done|]. split; [done|].
      intros x i. rewrite Hitems. destruct (decide (x = p)) as [->|]; [|apply A12]. intros [= <-]. by apply (A12 p it).
    + split; [constructor|]. by intros x ?%elem_of_nil.
  - intros h'. destruct (Ht h') as (H1 & H2 & H3). unfold ends, queueds in *. rewrite !times_app, !times_one. cbn [ev_bh].
    change (is_end _) with true. change (is_queued _) with false. change (held h' [] _) with 0%nat in H1 |- *.
    change (b_next_bh b') with (b_next_bh b). unfold here in *. change (b_by_bh b') with (delete h (b_by_bh b)).
    destruct (decide (h = h')) as [<-|Hne].
    + rewrite lookup_delete_eq. rewrite Hp in H1. rewrite decide_False by (by intros []).
      rewrite decide_True in H1 by done. split; [lia|]. split; [lia|]. intros Hn. specialize (H3 Hn). lia.
    + rewrite lookup_delete_ne by done. split; [lia|]. split; [lia|]. intros Hn. specialize (H3 Hn). lia.
Qed.

(** ** Reachable routers *)

Lemma opened_good caps : Forall (λ c, 0 ≤ c) caps → good (opened caps, []).
Proof.
  intros Hc. split; cbn [fst snd].
  - assert (Hsh : ∀ k s, b_sh (opened caps) !! k = Some s → ∃ c, s = BShard c 0 ∅ ∧ 0 ≤ c).
    { intros k s. cbn. change (map (λ c, BShard c 0 ∅) caps) with ((λ c, BShard c 0 ∅) <$> caps).
      rewrite list_lookup_fmap. destruct (caps !! k) as [c|] eqn:Hk; [|done]. intros [= <-]. exists c. split; [done|].
      rewrite Forall_forall in Hc. by eapply Hc, list_elem_of_lookup_2. }
    split; try done.
    + constructor.
    + intros p. split; [by intros ?%elem_of_nil|]. by intros (_ & i & Hi & _).
    + intros k s eh p Hk. destruct (Hsh k s Hk) as (c & -> & _). done.
    + intros k s Hk. by destruct (Hsh k s Hk) as (c & -> & ?).
    + split; [constructor|]. by intros p ?%elem_of_nil.
  - intros h. split_and!; [done|exact (Nat.le_0_l 1)|done].
Qed.

Lemma step_good s s' : step s s' → good s → good s'.
Proof.
  destruct 1; intros Hg.
  - by apply router_submit_good.
  - by apply dispatch_good.
  - by apply observe_good.
  - by apply cancel_good.
Qed.
Lemma reachable_good caps s : Forall (λ c, 0 ≤ c) caps → reachable caps s → good s.
Proof.
  intros Hc Hr. unfold reachable in Hr. remember (opened caps, []) as s0 eqn:H0.
  assert (good s0) as Hg by (subst; by apply opened_good). clear H0.
  induction Hr as [|s1 s2 s3 H _ IH]; [done|]. by eapply IH, step_good.
Qed.

End BalanceFacts.
