(* ===== verification/Router.v ===== *)
(** * Properties of the late-binding router

    Its queue is a priority queue, its counters are exact and no shard is given more than
    its depth, it leaves nothing waiting while a shard has room, and every handle it has
    given out is closed exactly once - by an event of its shard, by a cancel, by a refused
    hand-over, or by close. *)

From S2P Require Import Prelude Fifo Engine BalanceHeap Balance BalanceFacts.

Module Router.
Import Engine BalanceHeap Balance BalanceFacts.

(** ** The queue *)

(** Heaps made by pushes and pops from an empty one. *)
Inductive built (m : gmap positive bitem) : list positive → Prop :=
  | built_nil : built m []
  | built_push a p a' : built m a → heap_push (before m) true a p = Some a' → built m a'
  | built_pop a p a' : built m a → heap_pop (before m) a = Some (p, a') → built m a'.

(** The router's binary heap is a priority queue, first come first served among equal
    priorities: on any heap made by pushes and pops, a push adds its item and nothing
    else, a pop of a non-empty heap gives an item - higher in priority than every other,
    or equal and earlier - and takes that item alone, and a pop of an empty one fails. *)
Theorem heap_is_priority_queue m a : built m a →
  (∀ p, ∃ a', heap_push (before m) true a p = Some a' ∧ a' ≡ₚ p :: a) ∧
  match heap_pop (before m) a with
  | None => a = []
  | Some (p, a') => a ≡ₚ p :: a' ∧ ∀ x, x ∈ a →
      let ip := default no_item (m !! p) in let ix := default no_item (m !! x) in
      bi_prio ix < bi_prio ip ∨ (bi_prio ix = bi_prio ip ∧ bi_seq ip ≤ bi_seq ix)
  end.
Proof.
  intros Hb. assert (Hh : heap (before m) a).
  { induction Hb as [|a p a' _ IH Hp|a p a' _ IH Hp]; [apply heap_nil|by apply push_heap in Hp as [? _]|].
    pose proof (pop_heap _ _ IH) as H. rewrite Hp in H. tauto. }
  split.
  - intros p. destruct (heap_push (before m) true a p) as [a'|] eqn:Hp; [|done]. exists a'. split; [done|].
    by apply push_heap in Hp as [_ ?].
  - pose proof (pop_heap _ _ Hh) as H. destruct (heap_pop (before m) a) as [[p a']|]; [|done].
    destruct H as (_ & Hperm & Hmin). split; [done|]. intros x Hx. specialize (Hmin x Hx). unfold le, before in Hmin.
    cbn zeta. destruct (Z.eqb_spec (bi_prio (default no_item (m !! x))) (bi_prio (default no_item (m !! p)))) as [He|Hne].
    + right. apply Z.ltb_ge in Hmin. lia.
    + left. apply Z.ltb_ge in Hmin. lia.
Qed.

(** ** Handles *)

(** C17: A router closes every handle it gave out exactly once.  In every reachable state a
    handle has at most one QUEUED event and at most one closing event; it has been closed
    exactly when it was given out and is no longer in the handle table; and no event
    closes a handle that was not given out. *)
Theorem router_closes_once caps s h : Forall (λ c, 0 ≤ c) caps → reachable caps s →
  (ends h s.2 + here h s.1)%nat = queueds h s.2 ∧ (queueds h s.2 ≤ 1)%nat ∧
  (¬ (0 < h ≤ b_next_bh s.1) → ends h s.2 = 0%nat).
Proof.
  intros Hc Hr. destruct (reachable_good caps s Hc Hr) as [_ Ht]. destruct (Ht h) as (H1 & H2 & H3).
  change (held h [] s.1) with 0%nat in H1. split; [lia|]. split; [done|]. intros Hn. specialize (H3 Hn). lia.
Qed.

(** C18: The router's counters are exact and its depths hold.  In every reachable state
    [queued] is the number of items in the heap not cancelled, a shard's load is the
    number of items handed to it and not ended, never more than its depth, and every item
    in play is either waiting in the heap or tracked in the shard it was handed to. *)
Theorem router_ledger caps s : Forall (λ c, 0 ≤ c) caps → reachable caps s →
  let b := s.1 in
  balance_queued b = Z.of_nat (length (filter (waiting b) (b_q b))) ∧
  (∀ k t, b_sh b !! k = Some t → shard_load b k = Z.of_nat (size (sh_by_eh t)) ∧ shard_load b k ≤ sh_cap t) ∧
  (∀ h p, b_by_bh b !! h = Some p → bi_bh (item_at b p) = h ∧
     (p ∈ b_q b ∧ waiting b p ∨
      ∃ t, b_sh b !! bi_shard (item_at b p) = Some t ∧ sh_by_eh t !! bi_eh (item_at b p) = Some p)).
Proof.
  intros Hc Hr. destruct (reachable_good caps s Hc Hr) as [Hi _]. cbn zeta. set (b := s.1) in *. clearbody b.
  split; [apply Hi|]. split.
  - intros k t Hk. unfold shard_load. rewrite Hk. by apply (i_load _ _ Hi k).
  - intros h p Hp. destruct (i_bh _ _ Hi h p Hp) as (HF & i & Hit & Hb & Hd). rewrite (item_at_Some _ _ _ Hit).
    split; [done|]. destruct (decide (bi_state i = IT_DISPATCHED)) as [Hs|Hs].
    + right. by apply (i_sent _ _ Hi p).
    + left. split; [apply (i_elem _ _ Hi); eauto|]. unfold waiting. rewrite (item_at_Some _ _ _ Hit). by destruct (bi_state i).
Qed.

(** Late binding keeps the shards busy.  Whenever a dispatch returns - and it always
    does - nothing is waiting in the router, or every shard is at its depth. *)
Theorem dispatch_leaves_no_room caps b tr ans : Forall (λ c, 0 ≤ c) caps → reachable caps (b, tr) → honest ans b →
  let b' := (dispatch ans b).1.1 in
  balance_queued b' = 0 ∨ ∀ k t, b_sh b' !! k = Some t → shard_load b' k = sh_cap t.
Proof.
  intros Hc Hr Ha. destruct (dispatch_good b tr ans (reachable_good _ _ Hc Hr) Ha) as [[Hi _] Hf]. cbn zeta in *.
  cbn [fst snd] in Hi. destruct Hf as [Hf|Hf]; [by left|]. right. intros k t Hk. unfold shard_load. rewrite Hk.
  destruct (i_load _ _ Hi k t Hk) as [_ Hl]. specialize (Hf k t Hk). lia.
Qed.

(** ** Close *)

Definition live_of (h : Z) (b : balance) (p : positive) : Prop :=
  bi_bh (item_at b p) = h ∧ bi_state (item_at b p) ≠ IT_CANCELLED.
#[export] Instance live_of_dec h b p : Decision (live_of h b p).
Proof. unfold live_of. apply _. Defined.

Lemma close_loop_ends fuel : ∀ b, heap (before (b_items b)) (b_q b) → NoDup (b_q b) → (length (b_q b) < fuel)%nat →
  (∀ h, ends h (close_loop fuel b).2 = length (filter (live_of h b) (b_q b)) ∧ queueds h (close_loop fuel b).2 = 0%nat) ∧
  b_q (close_loop fuel b).1 = [] ∧ b_queued (close_loop fuel b).1 = 0.
Proof.
  induction fuel as [|f IH]; intros b Hh Hnd Hf; [lia|]. cbn [close_loop].
  pose proof (pop_heap _ _ Hh) as Hp. destruct (heap_pop (before (b_items b)) (b_q b)) as [[p q]|].
  2: { cbn [fst snd]. by rewrite Hp. }
  destruct Hp as (Hq & Hperm & _). assert (Hpq : p ∉ q ∧ NoDup q) by (rewrite Hperm in Hnd; by apply NoDup_cons).
  destruct Hpq as [Hpq Hndq]. set (b1 := item_free p (b <| b_q := q |>)).
  assert (Hat : ∀ x, x ∈ q → item_at b1 x = item_at b x).
  { intros x Hx. unfold item_at, b1. cbn. rewrite lookup_delete_ne; [done|]. by intros ->. }
  destruct (IH b1) as (H1 & H2 & H3).
  - eapply heap_same, Hq. intros x Hx. specialize (Hat x Hx). unfold item_at in Hat. by rewrite Hat.
  - done.
  - change (b_q b1) with q. apply Permutation_length in Hperm. cbn in Hperm. lia.
  - change (b_q b1) with q in *. cbv zeta. destruct (close_loop f b1) as [b' evs]. cbn [fst snd] in *.
    split; [|done]. intros h. destruct (H1 h) as [H1a H1b]. rewrite (filter_perm _ _ _ Hperm).
    assert (Hrest : length (filter (live_of h b1) q) = length (filter (live_of h b) q)).
    { f_equal. apply filter_ext_elem. intros x Hx. unfold live_of. by rewrite Hat. }
    rewrite filter_cons. destruct (decide (bi_state (item_at b p) = IT_CANCELLED)) as [Hc|Hc].
    + rewrite decide_False by (by intros [_ ?]). by rewrite H1a, Hrest.
    + unfold ends, queueds in *. change (?e :: evs) with ([e] ++ evs). rewrite !times_app, !times_one. cbn [ev_bh].
      change (is_end _) with true. change (is_queued _) with false. rewrite H1a, H1b, Hrest.
      destruct (decide (bi_bh (item_at b p) = h)) as [Hb|Hb].
      * rewrite decide_True by done. done.
      * rewrite decide_False by (by intros [? _]). done.
Qed.

(** At most one item that is not cancelled has the handle [h]: the one of the table. *)
Lemma live_here h b : inv [] b → (∀ k t, b_sh b !! k = Some t → sh_by_eh t = ∅) →
  length (filter (live_of h b) (b_q b)) = here h b.
Proof.
  intros Hi Hsh. assert (Hin : ∀ p, p ∈ filter (live_of h b) (b_q b) ↔ b_by_bh b !! h = Some p).
  { intros p. rewrite list_elem_of_filter. unfold live_of. split.
    - intros [[Hb Hs] (_ & i & Hit & _)%(i_elem _ _ Hi)]. rewrite (item_at_Some _ _ _ Hit) in *. rewrite <-Hb.
      exact (i_item _ _ Hi p i Hit (not_elem_of_nil p) Hs).
    - intros Hp. destruct (i_bh _ _ Hi h p Hp) as (HF & i & Hit & Hb & Hs). rewrite (item_at_Some _ _ _ Hit).
      split; [done|]. apply (i_elem _ _ Hi). split; [done|]. exists i. split; [done|]. intros Hd.
      destruct (i_sent _ _ Hi p i Hit HF Hd) as (t & Ht & Hl). by rewrite (Hsh _ _ Ht) in Hl. }
  pose proof (NoDup_filter (live_of h b) _ (i_q _ _ Hi)) as Hnd. unfold here.
  destruct (b_by_bh b !! h) as [p|] eqn:Hp.
  - rewrite decide_True by eauto. rewrite (NoDup_Permutation _ [p] Hnd (NoDup_singleton p)); [done|].
    intros x. rewrite Hin, list_elem_of_singleton. naive_solver.
  - rewrite decide_False by (by intros [? ?]). destruct (filter _ _) as [|x l] eqn:Hl; [done|].
    assert (x ∈ x :: l) as Hx%Hin by constructor. done.
Qed.

(** Closing the router tells the host about everything still waiting.  Once no shard
    tracks an item - the shards' engines have been shut down - close leaves the queue
    empty, and after it every handle the router ever gave out has exactly one closing
    event. *)
Theorem close_tells_all caps b tr : Forall (λ c, 0 ≤ c) caps → reachable caps (b, tr) →
  (∀ k t, b_sh b !! k = Some t → sh_by_eh t = ∅) →
  let tr' := tr ++ (close b).2 in
  b_q (close b).1 = [] ∧ balance_queued (close b).1 = 0 ∧
  ∀ h, ends h tr' = queueds h tr' ∧ queueds h tr' = queueds h tr.
Proof.
  intros Hc Hr Hsh. destruct (reachable_good _ _ Hc Hr) as [Hi Ht]. cbn [fst snd] in Hi, Ht.
  destruct (close_loop_ends (S (length (b_q b))) b (i_heap _ _ Hi) (i_q _ _ Hi) (Nat.lt_succ_diag_r _)) as (H1 & H2 & H3).
  cbv zeta. split; [done|]. split; [done|]. intros h. destruct (H1 h) as [H1a H1b]. destruct (Ht h) as (Hl & _).
  change (held h [] b) with 0%nat in Hl. unfold ends, queueds in *. rewrite !times_app.
  change (close b) with (close_loop (S (length (b_q b))) b). rewrite H1a, H1b, (live_here h b Hi Hsh). lia.
Qed.

(** ** A router of two shards *)

Definition small_caps : list Z := [1; 2].
Definition both : bool * bool := (true, true).
Definition three : balance :=
  (submit 3 "render" 1 both (submit 2 "encode" 7 both (submit 1 "render" 1 both (opened small_caps)).1.2).1.2).1.2.
Definition three_told : list bevent := [BEvent 1 EV_QUEUED GPTPS_OK; BEvent 2 EV_QUEUED GPTPS_OK; BEvent 3 EV_QUEUED GPTPS_OK].
(** A shard that numbers what it accepts. *)
Definition numbering : nat → nat → answer := λ _ n, (GPTPS_OK, Z.of_nat n + 1, true).
(** Shards that are shutting down. *)
Definition refusing : nat → nat → answer := λ _ _, (GPTPS_E_SHUTDOWN, 0, true).

Lemma small_caps_ok : Forall (λ c, 0 ≤ c) small_caps.
Proof. repeat constructor; lia. Qed.
Lemma three_reachable : reachable small_caps (three, three_told).
Proof.
  unfold reachable. eapply rtc_l; [apply (st_submit (opened small_caps) [] 1 "render" 1 both); by vm_compute|].
  eapply rtc_l; [eapply (st_submit _ _ 2 "encode" 7 both); by vm_compute|].
  eapply rtc_l; [eapply (st_submit _ _ 3 "render" 1 both); by vm_compute|]. apply rtc_refl.
Qed.
Lemma numbering_honest : honest numbering three.
Proof.
  intros i n eh room [= <- <-]. split; [lia|]. split.
  - intros s Hs. destruct i as [|[|i]]; cbn in Hs; by inversion Hs.
  - intros m room' [= Hm _]. lia.
Qed.
Lemma refusing_honest b : honest refusing b.
Proof. by intros i n eh room [=]. Qed.
Lemma handed_reachable : reachable small_caps ((dispatch numbering three).1.1, three_told ++ (dispatch numbering three).1.2).
Proof. eapply rtc_r; [apply three_reachable|]. apply (st_dispatch three three_told numbering numbering_honest). Qed.
Lemma cancelled_reachable : reachable small_caps ((cancel 3 three).1.2, three_told ++ (cancel 3 three).2).
Proof. eapply rtc_r; [apply three_reachable|]. apply (st_cancel three three_told 3). Qed.

Lemma heap_is_priority_queue_witness : b_q three = [2; 1; 3]%positive ∧
  match heap_pop (before (b_items three)) (b_q three) with
  | Some (p, a') => p = 2%positive ∧ b_q three ≡ₚ 2%positive :: a'
  | None => False
  end.
Proof.
  split; [by vm_compute|]. assert (Hb : built (b_items three) (b_q three)).
  { eapply (built_push _ [2; 1]%positive 3); [|by vm_compute]. eapply (built_push _ [1]%positive 2); [|by vm_compute].
    eapply (built_push _ [] 1); [constructor|by vm_compute]. }
  destruct (heap_is_priority_queue _ _ Hb) as [_ H]. revert H.
  replace (heap_pop (before (b_items three)) (b_q three)) with (Some (2, [1; 3]))%positive by by vm_compute.
  intros [H _]. done.
Defined.
Lemma router_closes_once_witness : let s := ((cancel 3 three).1.2, three_told ++ (cancel 3 three).2) in
  reachable small_caps s ∧ here 3 s.1 = 0%nat ∧ (ends 3 s.2 + 0)%nat = queueds 3 s.2 ∧ ends 3 s.2 = 1%nat.
Proof.
  cbv zeta. split; [apply cancelled_reachable|].
  destruct (router_closes_once small_caps _ 3 small_caps_ok cancelled_reachable) as (H & _).
  split; [by vm_compute|]. split; [|by vm_compute]. rewrite <-H. f_equal.
Defined.
Lemma handed_counts : let b := (dispatch numbering three).1.1 in
  length (filter (waiting b) (b_q b)) = 0%nat ∧ b_q b = [] ∧ shard_load b 0 = 1 ∧ shard_load b 1 = 2.
Proof. by vm_compute. Qed.
Lemma router_ledger_witness : let b := (dispatch numbering three).1.1 in
  balance_queued b = 0 ∧ b_q b = [] ∧ shard_load b 0 = 1 ∧ shard_load b 1 = 2.
Proof.
  assert (H1 : ∀ b tr, reachable small_caps (b, tr) → balance_queued b = Z.of_nat (length (filter (waiting b) (b_q b)))).
  { intros b tr Hr. exact (proj1 (router_ledger small_caps (b, tr) small_caps_ok Hr)). }
  cbv zeta. destruct handed_counts as [H0 H]. split; [|exact H]. rewrite (H1 _ _ handed_reachable). by rewrite H0.
Defined.
Lemma dispatch_leaves_no_room_witness : honest numbering three ∧ balance_queued three = 3 ∧
  (balance_queued (dispatch numbering three).1.1 = 0 ∨
   ∀ k t, b_sh (dispatch numbering three).1.1 !! k = Some t → shard_load (dispatch numbering three).1.1 k = sh_cap t).
Proof.
  split; [apply numbering_honest|]. split; [by vm_compute|].
  exact (dispatch_leaves_no_room small_caps three three_told numbering small_caps_ok three_reachable numbering_honest).
Defined.
Lemma close_tells_all_witness : let b := (cancel 3 three).1.2 in
  let tr := (three_told ++ (cancel 3 three).2) ++ (close b).2 in
  ends 1 tr = 1%nat ∧ ends 2 tr = 1%nat ∧ ends 3 tr = 1%nat ∧ queueds 3 tr = 1%nat.
Proof.
  cbv zeta. assert (Hsh : ∀ k t, b_sh (cancel 3 three).1.2 !! k = Some t → sh_by_eh t = ∅).
  { intros k t Hk. destruct k as [|[|k]]; cbn in Hk; by inversion Hk. }
  destruct (close_tells_all small_caps _ _ small_caps_ok cancelled_reachable Hsh) as (_ & _ & H).
  split_and!; [by rewrite (proj1 (H 1))|by rewrite (proj1 (H 2))|by rewrite (proj1 (H 3))|by rewrite (proj2 (H 3))].
Defined.

End Router.
