(* ===== verification/Journal.v ===== *)
(** * The journal of [src/addons/gptps_durable_queue.c]

    The bytes of a record, and the reading of a journal back: [write_record], [read_rec],
    the search [resync] makes past a record that does not verify, [apply_rec], [replay],
    and what a compaction writes.  A file is the list of its bytes; a read that fails and
    memory that runs out, which abandon the open, are not here. *)

From S2P Require Import Prelude.

Module Journal.

Definition byte_of (c : string) : Z := match c with String a _ => Z.of_N (Ascii.N_of_ascii a) | EmptyString => 0 end.
Definition DQ_FILE_MAGIC : Z := 0x47445131.
Definition DQ_REC_MAGIC : Z := 0x44515231.
Definition DQ_VERSION : Z := 1.
Definition DQ_FHDR_LEN : Z := 8.
Definition DQ_RHDR_LEN : Z := 20.
Definition DQ_FNV_SEED : Z := 2166136261.
Definition DQ_MAX_NAME : Z := 4096.
Definition DQ_MAX_PAYLOAD : Z := 256 * 1024 * 1024.
Definition DQ_MAX_SEQ : Z := 2 ^ 63 - 1.
Definition DQ_SUSPECT_AT : Z := 2.
Definition DQ_QUARANTINE_AT : Z := 3.
Definition UINT32_MAX : Z := 2 ^ 32 - 1.

Definition len {A} (l : list A) : Z := Z.of_nat (length l).
(** [p + n] of a buffer, and the first [n] bytes of one. *)
Definition from (n : Z) (l : list Z) : list Z := drop (Z.to_nat n) l.
Definition upto (n : Z) (l : list Z) : list Z := take (Z.to_nat n) l.

(** ** Integers and the checksum *)

Fixpoint put_le (n : nat) (v : Z) : list Z :=
  match n with O => [] | S n => Z.land v 255 :: put_le n (Z.shiftr v 8) end.
Definition put16 (v : Z) : list Z := put_le 2 v.
Definition put32 (v : Z) : list Z := put_le 4 v.
Definition put64 (v : Z) : list Z := put_le 8 v.
(** [v |= p[i] << (8 * i)]. *)
Fixpoint get_loop (i : Z) (p : list Z) (v : Z) : Z :=
  match p with [] => v | b :: p => get_loop (i + 1) p (Z.lor v (Z.shiftl b (8 * i))) end.
Definition get16 (p : list Z) : Z := get_loop 0 (upto 2 p) 0.
Definition get32 (p : list Z) : Z := get_loop 0 (upto 4 p) 0.
Definition get64 (p : list Z) : Z := get_loop 0 (upto 8 p) 0.

Fixpoint fnv (d : list Z) (h : Z) : Z :=
  match d with [] => h | b :: d => fnv d (u32 (Z.lxor h b * 16777619)) end.

(** ** Writing *)

Definition file_header : list Z := put32 DQ_FILE_MAGIC ++ put32 DQ_VERSION.

Definition record_header (type seq nlen plen : Z) : list Z :=
  put32 DQ_REC_MAGIC ++ [type; 0] ++ put16 nlen ++ put32 plen ++ put64 seq.
(** [None] is the refusal of a record past the reader's bounds. *)
Definition write_record (type seq : Z) (name payload : list Z) : option (list Z) :=
  if (DQ_MAX_NAME <? len name) || (DQ_MAX_PAYLOAD <? len payload) then None
  else
    let buf := record_header type seq (len name) (len payload) ++ name ++ payload in
    Some (buf ++ put32 (fnv buf DQ_FNV_SEED)).

(** ** Reading one record *)

Record dq_raw := Raw { w_type : Z; w_nlen : Z; w_plen : Z; w_seq : Z; w_body : list Z }.
Inductive dq_read := READ_OK (r : dq_raw) | READ_END | READ_BAD | READ_TORN.

(** [f]: the file from the stream's position; [left]: the bytes to its end, -1 when they
    are not known. *)
Definition read_rec (f : list Z) (left : Z) : dq_read :=
  if left =? 0 then READ_END
  else
    let hdr := upto DQ_RHDR_LEN f in
    if (len hdr =? 0) && (left <? 0) then READ_END
    else if negb (len hdr =? DQ_RHDR_LEN) || negb (get32 hdr =? DQ_REC_MAGIC) then READ_BAD
    else
      let type := default 0 (hdr !! 4%nat) in
      let nlen := get16 (from 6 hdr) in
      let plen := get32 (from 8 hdr) in
      let seq := get64 (from 12 hdr) in
      if (DQ_MAX_NAME <? nlen) || (DQ_MAX_PAYLOAD <? plen) then READ_BAD
      else
        let blen := nlen + plen + 4 in
        if (0 <? left) && (left <? DQ_RHDR_LEN + blen) then READ_TORN
        else
          let body := upto blen (from DQ_RHDR_LEN f) in
          if negb (len body =? blen) ||
             negb (fnv (upto (nlen + plen) body) (fnv hdr DQ_FNV_SEED) =? get32 (from (nlen + plen) body))
          then READ_BAD
          else READ_OK (Raw type nlen plen seq body).

(** ** Past a record that does not verify *)

(** Whether the search stops at [at]: a magic, a record that verifies, and not a stale
    ['P']. *)
Definition stands (f : list Z) (at_ end_ last_p : Z) : bool :=
  (get32 (from at_ f) =? DQ_REC_MAGIC) &&
  match read_rec (from at_ f) (end_ - at_) with
  | READ_OK r => negb ((w_type r =? byte_of "P") && (w_seq r <=? last_p))
  | _ => false
  end.
(** The loop over a chunk of [got] bytes at [base]. *)
Fixpoint scan (fuel : nat) (f : list Z) (base got end_ last_p i : Z) : option Z :=
  match fuel with
  | O => None
  | S n =>
      if i + 4 <=? got then
        if stands f (base + i) end_ last_p then Some (base + i)
        else scan n f base got end_ last_p (i + 1)
      else None
  end.
Definition CHUNK : Z := 4096.
Fixpoint resync_loop (fuel : nat) (f : list Z) (base end_ last_p : Z) : option Z :=
  match fuel with
  | O => None
  | S n =>
      if DQ_RHDR_LEN + 4 <=? end_ - base then
        let want := if end_ - base <? CHUNK then end_ - base else CHUNK in
        let got := len (upto want (from base f)) in
        if got <? 4 then None
        else match scan (length f) f base got end_ last_p 0 with
        | Some at_ => Some at_
        | None => resync_loop n f (base + got - 3) end_ last_p
        end
      else None
  end.
Definition resync (f : list Z) (bad end_ last_p : Z) : option Z := resync_loop (length f) f (bad + 1) end_ last_p.

(** ** The table *)

(** [dq_rec].  A NULL name or payload is an empty one: nothing tells them apart. *)
Record dq_rec := Rec {
  r_seq : Z; r_handle : Z; r_name : list Z; r_payload : list Z;
  r_done : bool; r_quarantined : bool; r_inflight : bool; r_suspect : bool; r_crashes : Z;
  r_committing : bool; r_retracting : Z; r_deferred : Z }.
#[export] Instance eta_dq_rec : Eta dq_rec := λ r,
  Rec (r_seq r) (r_handle r) (r_name r) (r_payload r) (r_done r) (r_quarantined r) (r_inflight r) (r_suspect r)
      (r_crashes r) (r_committing r) (r_retracting r) (r_deferred r).
Definition new_rec (seq : Z) (name payload : list Z) : dq_rec :=
  Rec seq 0 name payload false false false false 0 false 0 0.

(** [dq->recs], and [dq->next_seq]. *)
Record table := Tab { t_recs : list dq_rec; t_next : Z }.
#[export] Instance eta_table : Eta table := λ t, Tab (t_recs t) (t_next t).

Fixpoint search (fuel : nat) (l : list dq_rec) (seq : Z) (lo hi : nat) : option nat :=
  match fuel with
  | O => None
  | S n =>
      if (lo <? hi)%nat then
        let mid := (lo + (hi - lo) / 2)%nat in
        match l !! mid with
        | None => None
        | Some r =>
            if r_seq r =? seq then Some mid
            else if r_seq r <? seq then search n l seq (mid + 1) hi
            else search n l seq lo mid
        end
      else None
  end.
Definition find_by_seq (l : list dq_rec) (seq : Z) : option nat := search (S (length l)) l seq 0 (length l).

(** A buffer read as a C string: what is before its first NUL. *)
Fixpoint c_str (l : list Z) : list Z :=
  match l with [] => [] | b :: l => if b =? 0 then [] else b :: c_str l end.

Definition mark (type : Z) (r : dq_raw) (rc : dq_rec) : dq_rec :=
  if type =? byte_of "D" then rc <| r_done := true |> <| r_name := [] |> <| r_payload := [] |>
  else if type =? byte_of "Q" then rc <| r_quarantined := true |>
  else if type =? byte_of "S" then rc <| r_inflight := true |>
  else if type =? byte_of "F" then rc <| r_inflight := false |> <| r_crashes := 0 |>
  else if (type =? byte_of "K") && (w_plen r =? 4) && (w_nlen r =? 0) then rc <| r_crashes := get32 (w_body r) |>
  else rc.
Definition apply_rec (r : dq_raw) (t : table) : table :=
  let t := if t_next t <=? w_seq r then t <| t_next := u64 (w_seq r + 1) |> else t in
  if w_type r =? byte_of "P" then
    t <| t_recs ::= λ l, l ++ [new_rec (w_seq r) (c_str (upto (w_nlen r) (w_body r)))
                                        (upto (w_plen r) (from (w_nlen r) (w_body r)))] |>
  else match find_by_seq (t_recs t) (w_seq r) with
  | None => t
  | Some i => t <| t_recs ::= alter (mark (w_type r) r) i |>
  end.

(** ** Replay *)

Record dq_damage := Damage { g_regions : Z; g_first : Z; g_bytes : Z; g_cut : bool }.
#[export] Instance eta_dq_damage : Eta dq_damage := λ d, Damage (g_regions d) (g_first d) (g_bytes d) (g_cut d).
Definition no_damage : dq_damage := Damage 0 0 0 false.
(** [if (!dmg->regions++) dmg->first = pos; dmg->bytes += n]. *)
Definition damaged (pos n : Z) (d : dq_damage) : dq_damage :=
  Damage (g_regions d + 1) (if g_regions d =? 0 then pos else g_first d) (g_bytes d + n) (g_cut d).

Definition rec_len (r : dq_raw) : Z := DQ_RHDR_LEN + w_nlen r + w_plen r + 4.
Definition no_writer_makes (r : dq_raw) (last_p : Z) : bool :=
  (DQ_MAX_SEQ <? w_seq r) || (w_type r =? byte_of "P") && (w_seq r <=? last_p).

(** [end_] is the size of the file, -1 when it is not known.  [None]: out of fuel. *)
Fixpoint replay_loop (fuel : nat) (f : list Z) (end_ pos last_p : Z) (t : table) (d : dq_damage) : option (table * dq_damage) :=
  match fuel with
  | O => None
  | S n =>
      match read_rec (from pos f) (if end_ <? 0 then -1 else end_ - pos) with
      | READ_END => Some (t, d)
      | READ_OK r =>
          if no_writer_makes r last_p
          then replay_loop n f end_ (pos + rec_len r) last_p t (damaged pos (rec_len r) d)
          else replay_loop n f end_ (pos + rec_len r)
                 (if (w_type r =? byte_of "P") && (last_p <? w_seq r) then w_seq r else last_p) (apply_rec r t) d
      | bad =>
          match (if end_ <? 0 then None else resync f pos end_ last_p) with
          | None => Some (t, d)                        (* a torn tail *)
          | Some next =>
              match bad with
              | READ_TORN => Some (t, damaged pos (end_ - pos) d <| g_cut := true |>)
              | _ => replay_loop n f end_ next last_p t (damaged pos (next - pos) d)
              end
          end
      end
  end.
(** [sized]: whether the size of the file is known.  [None] is the code's -1: a header
    that is not a journal's.  A file that is missing is an empty one. *)
Definition replay (f : list Z) (sized : bool) : option (table * dq_damage) :=
  let t := Tab [] 1 in
  let fh := upto DQ_FHDR_LEN f in
  if len fh =? 0 then Some (t, no_damage)
  else if (len fh <? DQ_FHDR_LEN) || negb (get32 fh =? DQ_FILE_MAGIC) || negb (get32 (from 4 fh) =? DQ_VERSION) then None
  else replay_loop (S (length f)) f (if sized then len f else -1) DQ_FHDR_LEN 0 t no_damage.

(** ** Compaction *)

(** One write of [do_rewrite]. *)
Record entry := Entry { e_type : Z; e_seq : Z; e_name : list Z; e_payload : list Z }.
Definition write (e : entry) : option (list Z) := write_record (e_type e) (e_seq e) (e_name e) (e_payload e).
Fixpoint written (es : list entry) : option (list Z) :=
  match es with [] => Some [] | e :: es => b ← write e; bs ← written es; Some (b ++ bs) end.

(** [p_durable] and [d_durable]: [waiter_state] of the record's ['P'] and ['D']. *)
Definition kept (p_durable d_durable : Z → bool) (rc : dq_rec) : bool :=
  negb (r_done rc) && negb (r_committing rc && negb (p_durable (r_seq rc))) &&
  negb (negb (r_retracting rc =? 0) && d_durable (r_seq rc)).
Definition rewrite_rec (rc : dq_rec) : list entry :=
  Entry (byte_of "P") (r_seq rc) (r_name rc) (r_payload rc) ::
  (if r_crashes rc =? 0 then [] else [Entry (byte_of "K") (r_seq rc) [] (put32 (r_crashes rc))]) ++
  (if r_inflight rc then [Entry (byte_of "S") (r_seq rc) [] []] else []) ++
  (if r_quarantined rc then [Entry (byte_of "Q") (r_seq rc) [] []] else []).
Definition rewrite_entries (p_durable d_durable : Z → bool) (l : list dq_rec) : list entry :=
  concat (map rewrite_rec (List.filter (kept p_durable d_durable) l)).
(** The new journal; [None]: a record past the bounds. *)
Definition rewrite_file (p_durable d_durable : Z → bool) (l : list dq_rec) : option (list Z) :=
  bs ← written (rewrite_entries p_durable d_durable l); Some (file_header ++ bs).
(** The table after it. *)
Definition compact_memory (l : list dq_rec) : list dq_rec := List.filter (λ rc, negb (r_done rc)) l.

(** ** Crash loops: the loop of [gptps_dq_open] *)

Definition open_rec (rc : dq_rec) : dq_rec :=
  if r_done rc || r_quarantined rc then rc
  else
    let rc := if r_inflight rc
              then rc <| r_inflight := false |>
                      <| r_crashes ::= λ c, if c <? UINT32_MAX then c + 1 else c |>
              else rc in
    if DQ_QUARANTINE_AT <=? r_crashes rc then rc <| r_quarantined := true |>
    else rc <| r_suspect := DQ_SUSPECT_AT <=? r_crashes rc |>.
(** The table opened, and [pending]. *)
Definition open_table (l : list dq_rec) : list dq_rec * Z :=
  let l := map open_rec l in
  (l, len (List.filter (λ rc, negb (r_done rc || r_quarantined rc)) l)).

End Journal.
