(* ===== verification/JournalFacts.v ===== *)
(** * Lemmas about the journal

    Integers and records read back; what a reader does at any position depends only on
    the bytes from there; the search past damage is exact; the table stays in order. *)

From S2P Require Import Prelude Journal.

Module JournalFacts.
Import Journal.

(** ** Integers *)

Fixpoint le (p : list Z) : Z := match p with [] => 0 | b :: p => Z.lor b (Z.shiftl (le p) 8) end.
Lemma get_loop_le i p v : 0 ≤ i → get_loop i p v = Z.lor v (Z.shiftl (le p) (8 * i)).
Proof.
  revert i v. induction p as [|b p IH]; intros i v Hi; cbn [get_loop le].
  - by rewrite Z.shiftl_0_l, Z.lor_0_r.
  - rewrite IH by lia. rewrite Z.shiftl_lor, Z.shiftl_shiftl by lia.
    replace (8 + 8 * i) with (8 * (i + 1)) by lia. by rewrite Z.lor_assoc.
Qed.
Lemma le_put n v : le (put_le n v) = v mod 2 ^ (8 * Z.of_nat n).
Proof.
  revert v. induction n as [|n IH]; intros v; cbn [put_le le]; [by rewrite Z.mod_1_r|]. rewrite IH.
  rewrite <-!Z.land_ones by lia. change 255 with (Z.ones 8). apply Z.bits_inj'. intros k Hk.
  rewrite Z.lor_spec, !Z.land_spec, Z.shiftl_spec, !Z.testbit_ones_nonneg by lia.
  destruct (Z.ltb_spec k 8) as [H8|H8].
  - rewrite (Z.testbit_neg_r _ (k - 8)) by lia. destruct (Z.ltb_spec k (8 * Z.of_nat (S n))); [|lia].
    by rewrite orb_false_r.
  - rewrite andb_false_r, orb_false_l, Z.land_spec, Z.shiftr_spec, Z.testbit_ones_nonneg by lia.
    replace (k - 8 + 8) with k by lia. f_equal. destruct (Z.ltb_spec (k - 8) (8 * Z.of_nat n)), (Z.ltb_spec k (8 * Z.of_nat (S n))); lia.
Qed.
Lemma length_put n v : length (put_le n v) = n.
Proof. revert v. induction n as [|n IH]; intros v; cbn; [done|]. by rewrite IH. Qed.
Lemma upto_app (n : Z) a b : len a = n → upto n (a ++ b) = a.
Proof. unfold upto, len. intros <-. rewrite Nat2Z.id. by rewrite take_app_length. Qed.
Lemma from_app (n : Z) a b : len a = n → from n (a ++ b) = b.
Proof. unfold from, len. intros <-. rewrite Nat2Z.id. by rewrite drop_app_length. Qed.
Lemma get_put n k v rest : k = Z.of_nat n → 0 ≤ v < 2 ^ (8 * k) → get_loop 0 (upto k (put_le n v ++ rest)) 0 = v.
Proof.
  intros -> Hv. rewrite upto_app by (unfold len; by rewrite length_put). rewrite get_loop_le by lia.
  rewrite le_put, Z.lor_0_l, Z.mul_0_r, Z.shiftl_0_r. by apply Z.mod_small.
Qed.
Lemma get16_put v rest : 0 ≤ v < 2 ^ 16 → get16 (put16 v ++ rest) = v.
Proof. by apply (get_put 2 2). Qed.
Lemma get32_put v rest : 0 ≤ v < 2 ^ 32 → get32 (put32 v ++ rest) = v.
Proof. by apply (get_put 4 4). Qed.
Lemma get64_put v rest : 0 ≤ v < 2 ^ 64 → get64 (put64 v ++ rest) = v.
Proof. by apply (get_put 8 8). Qed.
Lemma get32_put_nil v : 0 ≤ v < 2 ^ 32 → get32 (put32 v) = v.
Proof. intros Hv. pose proof (get32_put v [] Hv) as H. by rewrite app_nil_r in H. Qed.

Lemma fnv_range d h : 0 ≤ h < 2 ^ 32 → 0 ≤ fnv d h < 2 ^ 32.
Proof. revert h. induction d as [|b d IH]; intros h Hh; cbn [fnv]; [done|]. apply IH. apply u32_range. Qed.
Lemma fnv_app a b h : fnv (a ++ b) h = fnv b (fnv a h).
Proof. revert h. induction a as [|x a IH]; intros h; cbn [app fnv]; [done|]. apply IH. Qed.

(** ** Lengths *)

Lemma len_app {A} (a b : list A) : len (a ++ b) = len a + len b.
Proof. unfold len. rewrite length_app. lia. Qed.
Lemma len_nonneg {A} (a : list A) : 0 ≤ len a.
Proof. unfold len. lia. Qed.
Lemma len_upto n l : len (upto n l) = Z.min (Z.max 0 n) (len l).
Proof. unfold len, upto. rewrite length_take. lia. Qed.
Lemma len_from n l : len (from n l) = Z.max 0 (len l - Z.max 0 n).
Proof. unfold len, from. rewrite length_drop. lia. Qed.
Lemma from_from a b l : 0 ≤ a → 0 ≤ b → from a (from b l) = from (b + a) l.
Proof. intros Ha Hb. unfold from. rewrite drop_drop. f_equal. lia. Qed.
Lemma from_0 l : from 0 l = l.
Proof. done. Qed.
Lemma from_all n l : len l ≤ n → from n l = [].
Proof. unfold from, len. intros H. apply drop_ge. lia. Qed.
Lemma len_header type seq nlen plen : len (record_header type seq nlen plen) = 20.
Proof. done. Qed.
Lemma len_put32 v : len (put32 v) = 4.
Proof. done. Qed.

#[local] Opaque fnv put_le.

(** ** A record as it was written *)

(** What a writer puts in a record, and what a reader finds. *)
Definition raw_of (type seq : Z) (name payload : list Z) : dq_raw :=
  let buf := record_header type seq (len name) (len payload) ++ name ++ payload in
  Raw type (len name) (len payload) seq (name ++ payload ++ put32 (fnv buf DQ_FNV_SEED)).
Lemma len_written type seq name payload b : write_record type seq name payload = Some b →
  len b = 20 + len name + len payload + 4 ∧ len name ≤ 4096 ∧ len payload ≤ 256 * 1024 * 1024.
Proof.
  unfold write_record. destruct (Z.ltb_spec DQ_MAX_NAME (len name)), (Z.ltb_spec DQ_MAX_PAYLOAD (len payload)); cbn [orb]; try done.
  intros [= <-]. rewrite !len_app, len_header. unfold DQ_MAX_NAME, DQ_MAX_PAYLOAD in *. split; [|done].
  rewrite len_put32. lia.
Qed.

Lemma read_header type seq nlen plen rest : 0 ≤ seq < 2 ^ 64 → 0 ≤ nlen < 2 ^ 16 → 0 ≤ plen < 2 ^ 32 →
  let h := record_header type seq nlen plen in
  upto 20 (h ++ rest) = h ∧ get32 h = DQ_REC_MAGIC ∧ h !! 4%nat = Some type ∧
  get16 (from 6 h) = nlen ∧ get32 (from 8 h) = plen ∧ get64 (from 12 h) = seq.
Proof.
  intros Hs Hn Hp h. split; [by apply upto_app|]. split; [by apply get32_put|]. split; [done|].
  split; [|split].
  - change (from 6 h) with (put16 nlen ++ put32 plen ++ put64 seq). by apply get16_put.
  - change (from 8 h) with (put32 plen ++ put64 seq). by apply get32_put.
  - change (from 12 h) with (put64 seq). rewrite <-(app_nil_r (put64 seq)). by apply get64_put.
Qed.

Lemma read_written type seq name payload b rest left : 0 ≤ seq < 2 ^ 64 →
  write_record type seq name payload = Some b → left < 0 ∨ len b ≤ left →
  read_rec (b ++ rest) left = READ_OK (raw_of type seq name payload).
Proof.
  intros Hs Hw Hleft. destruct (len_written _ _ _ _ _ Hw) as (Hlen & Hn & Hp).
  pose proof (len_nonneg name). pose proof (len_nonneg payload).
  unfold write_record in Hw. destruct (_ || _); [done|]. injection Hw as Hb. symmetry in Hb. rewrite <-app_assoc in Hb.
  destruct (read_header type seq (len name) (len payload) ((name ++ payload ++
    put32 (fnv (record_header type seq (len name) (len payload) ++ name ++ payload) DQ_FNV_SEED)) ++ rest)) as (H1 & H2 & H3 & H4 & H5 & H6); [done|lia|lia|].
  unfold read_rec. rewrite (proj2 (Z.eqb_neq left 0)) by lia. rewrite Hb, <-app_assoc, <-!app_assoc in *.
  unfold DQ_RHDR_LEN. rewrite H1, len_header. cbn [Z.eqb andb negb orb Pos.eqb]. rewrite H2, H3, H4, H5, H6.
  cbn [negb orb default]. rewrite Z.eqb_refl. cbn [negb]. unfold DQ_MAX_NAME, DQ_MAX_PAYLOAD.
  rewrite (proj2 (Z.ltb_ge 4096 (len name))), (proj2 (Z.ltb_ge _ (len payload))) by lia. cbn [orb].
  replace ((0 <? left) && (left <? 20 + (len name + len payload + 4))) with false.
  2: { destruct (Z.ltb_spec 0 left); [|done]. symmetry. apply Z.ltb_ge. lia. }
  rewrite (from_app 20) by apply len_header. set (crc := fnv _ _).
  assert (Hcrc : 0 ≤ crc < 2 ^ 32) by by apply fnv_range.
  replace (name ++ payload ++ put32 crc ++ rest) with ((name ++ payload ++ put32 crc) ++ rest) by by rewrite <-!app_assoc.
  rewrite upto_app by (rewrite !len_app, len_put32; lia). rewrite !len_app, len_put32.
  rewrite (proj2 (Z.eqb_eq _ _)) by lia. cbn [negb orb].
  rewrite app_assoc, upto_app, from_app by by rewrite len_app. rewrite get32_put_nil by done.
  rewrite <-fnv_app. unfold raw_of. fold crc. rewrite Z.eqb_refl. by rewrite <-app_assoc.
Qed.

(** What is left of a record whose write was cut short does not verify. *)
Lemma read_torn type seq name payload b (n : nat) left : 0 ≤ seq < 2 ^ 64 →
  write_record type seq name payload = Some b → (n < length b)%nat → left < 0 ∨ left = Z.of_nat n →
  (n = 0%nat ∧ read_rec (take n b) left = READ_END) ∨ (n < 20)%nat ∧ read_rec (take n b) left = READ_BAD ∨
  (n ≠ 0%nat ∧ read_rec (take n b) left = READ_TORN) ∨ left < 0 ∧ read_rec (take n b) left = READ_BAD.
Proof.
  intros Hs Hw Hn Hleft. destruct (len_written _ _ _ _ _ Hw) as (Hlen & Hnm & Hpl).
  pose proof (len_nonneg name). pose proof (len_nonneg payload).
  destruct (decide (n = 0%nat)) as [->|Hn0].
  { left. split; [done|]. unfold read_rec. destruct (Z.eqb_spec left 0); [done|]. destruct (Z.ltb_spec left 0); [done|lia]. }
  assert (Htn : len (take n b) = Z.of_nat n) by (unfold len; rewrite length_take; lia).
  unfold read_rec. rewrite (proj2 (Z.eqb_neq left 0)) by lia. rewrite len_upto, Htn.
  unfold DQ_RHDR_LEN. rewrite (proj2 (Z.eqb_neq (Z.min _ _) 0)) by lia. cbn [andb].
  destruct (decide (n < 20)%nat) as [Hlt|Hge].
  { right; left. split; [done|]. by rewrite (proj2 (Z.eqb_neq (Z.min _ _) 20)) by lia. }
  right; right. rewrite (proj2 (Z.eqb_eq (Z.min _ _) 20)) by lia. cbn [negb orb].
  unfold write_record in Hw. destruct (_ || _); [done|]. injection Hw as Hb. symmetry in Hb. rewrite <-app_assoc in Hb.
  assert (Htake : ∃ m, take n b = record_header type seq (len name) (len payload) ++ m).
  { rewrite Hb, take_app_ge by (change (length (record_header _ _ _ _)) with 20%nat; lia). by eexists. }
  destruct Htake as [m Hm]. rewrite Hm.
  destruct (read_header type seq (len name) (len payload) m) as (H1 & H2 & H3 & H4 & H5 & H6); [done|lia|lia|].
  rewrite H1, H2, H3, H4, H5, H6. cbn [negb orb default]. rewrite Z.eqb_refl. cbn [negb]. unfold DQ_MAX_NAME, DQ_MAX_PAYLOAD.
  rewrite (proj2 (Z.ltb_ge 4096 (len name))), (proj2 (Z.ltb_ge _ (len payload))) by lia. cbn [orb].
  unfold len in Hlen. destruct Hleft as [Hl|Hl].
  - right. split; [done|]. rewrite (proj2 (Z.ltb_ge 0 left)) by lia. cbn [andb].
    rewrite (from_app 20) by apply len_header. rewrite len_upto.
    assert (len m = Z.of_nat n - 20).
    { rewrite Hm, len_app, len_header in Htn. lia. }
    by rewrite (proj2 (Z.eqb_neq (Z.min _ _) _)) by (unfold len in *; lia).
  - left. split; [done|]. rewrite (proj2 (Z.ltb_lt 0 left)) by lia. cbn [andb]. rewrite (proj2 (Z.ltb_lt left _)) by (unfold len in *; lia). done.
Qed.

(** A record that verifies is there, whole. *)
Definition byte (b : Z) : Prop := 0 ≤ b < 256.
Lemma le_range p : Forall byte p → 0 ≤ le p < 2 ^ (8 * len p).
Proof.
  induction 1 as [|b p Hb _ IH]; cbn [le]; [done|]. unfold byte in Hb.
  assert (Hz : Z.land b (Z.shiftl (le p) 8) = 0).
  { apply Z.bits_inj'. intros k Hk. rewrite Z.land_spec, Z.shiftl_spec, Z.bits_0 by done.
    destruct (Z.ltb_spec k 8); [by rewrite (Z.testbit_neg_r _ (k - 8)), andb_false_r by lia|].
    destruct (decide (b = 0)) as [->|]; [by rewrite Z.bits_0|].
    rewrite (Z.bits_above_log2 b k); [done|lia|]. assert (Z.log2 b < 8) by (apply Z.log2_lt_pow2; lia). lia. }
  pose proof (Z.add_lor_land b (Z.shiftl (le p) 8)) as Ha. rewrite Hz, Z.shiftl_mul_pow2 in Ha by lia.
  rewrite Z.shiftl_mul_pow2 by lia. change (len (b :: p)) with (Z.of_nat (S (length p))). unfold len in IH.
  rewrite Nat2Z.inj_succ, Z.mul_succ_r, Z.pow_add_r by lia. lia.
Qed.
Lemma get_range p n : Forall byte p → 0 ≤ get_loop 0 (upto n p) 0 < 2 ^ (8 * Z.max 0 n).
Proof.
  intros Hp. rewrite get_loop_le, Z.lor_0_l, Z.mul_0_r, Z.shiftl_0_r by done.
  pose proof (le_range (upto n p) (Forall_take _ _ _ Hp)) as H. rewrite len_upto in H. split; [lia|].
  eapply Z.lt_le_trans; [apply H|]. apply Z.pow_le_mono_r; lia.
Qed.
(** A record as a reader gives it: its parts are within the bounds, and bytes. *)
Record read_record (r : dq_raw) : Prop := {
  v_nlen : 0 ≤ w_nlen r ≤ DQ_MAX_NAME;
  v_plen : 0 ≤ w_plen r ≤ DQ_MAX_PAYLOAD;
  v_seq : 0 ≤ w_seq r;
  v_body : Forall byte (w_body r);
  v_len : len (w_body r) = w_nlen r + w_plen r + 4 }.
Lemma read_ok_spec f left r : Forall byte f → read_rec f left = READ_OK r →
  left ≠ 0 ∧ rec_len r ≤ len f ∧ (0 < left → rec_len r ≤ left) ∧ 24 ≤ rec_len r ∧ read_record r.
Proof.
  intros Hf. unfold read_rec. destruct (Z.eqb_spec left 0) as [|Hl]; [done|]. destruct (_ && _); [done|].
  destruct (negb (_ =? DQ_RHDR_LEN) || _) eqn:Hh; [done|]. apply orb_false_iff in Hh as [Hh _].
  apply negb_false_iff, Z.eqb_eq in Hh. rewrite len_upto in Hh. unfold DQ_RHDR_LEN in *.
  assert (Hb : ∀ n, Forall byte (from n (upto 20 f))) by (intros n; by apply Forall_drop, Forall_take).
  pose proof (get_range _ 2 (Hb 6)) as Hn. pose proof (get_range _ 4 (Hb 8)) as Hp. pose proof (get_range _ 8 (Hb 12)) as Hs.
  fold (get16 (from 6 (upto 20 f))) in Hn. fold (get32 (from 8 (upto 20 f))) in Hp. fold (get64 (from 12 (upto 20 f))) in Hs.
  set (nlen := get16 _) in *. set (plen := get32 (from 8 _)) in *. set (sq := get64 _) in *.
  destruct (_ || _) eqn:Hbd; [done|]. apply orb_false_iff in Hbd as [Hbn Hbp]. apply Z.ltb_ge in Hbn, Hbp.
  destruct (_ && _) eqn:Hlt; [done|].
  destruct (negb (_ =? nlen + plen + 4) || _) eqn:Hc; [done|]. apply orb_false_iff in Hc as [Hc _].
  apply negb_false_iff, Z.eqb_eq in Hc. pose proof Hc as Hc'. rewrite len_upto, len_from in Hc'. intros [= <-].
  unfold rec_len, DQ_RHDR_LEN. cbn [w_nlen w_plen w_seq].
  split; [done|]. split; [lia|]. split; [|split; [lia|]].
  - intros H0. rewrite (proj2 (Z.ltb_lt 0 left) H0) in Hlt. cbn [andb] in Hlt. apply Z.ltb_ge in Hlt. lia.
  - split; cbn [w_nlen w_plen w_seq w_body]; try lia. by apply Forall_take, Forall_drop.
Qed.

(** ** The search of the table *)

Definition ascending (l : list dq_rec) : Prop :=
  ∀ i j x y, (i < j)%nat → l !! i = Some x → l !! j = Some y → r_seq x < r_seq y.

Lemma search_spec l seq : ascending l → ∀ fuel lo hi, (hi ≤ length l)%nat → (hi < lo + fuel)%nat →
  match search fuel l seq lo hi with
  | Some m => ∃ r, l !! m = Some r ∧ r_seq r = seq
  | None => ∀ m r, (lo ≤ m < hi)%nat → l !! m = Some r → r_seq r ≠ seq
  end.
Proof.
  intros Ha. induction fuel as [|f IH]; intros lo hi Hhi Hf; cbn [search]; [intros; lia|].
  destruct (Nat.ltb_spec lo hi) as [Hlt|Hge]; [|intros; lia].
  set (mid := (lo + (hi - lo) / 2)%nat). assert (Hmid : (lo ≤ mid < hi)%nat).
  { unfold mid. pose proof (Nat.div_lt (hi - lo) 2 ltac:(lia) ltac:(lia)). lia. }
  clearbody mid. destruct (lookup_lt_is_Some_2 l mid ltac:(lia)) as [r Hr]. rewrite Hr.
  destruct (Z.eqb_spec (r_seq r) seq) as [He|Hne]; [by exists r|].
  destruct (Z.ltb_spec (r_seq r) seq) as [Hl|Hg].
  - specialize (IH (mid + 1)%nat hi Hhi ltac:(lia)). destruct (search _ _ _ _ _); [done|].
    intros m x Hm Hx. destruct (decide (m ≤ mid)%nat) as [Hle|]; [|apply (IH m); [lia|done]].
    destruct (decide (m = mid)) as [->|]; [congruence|]. specialize (Ha m mid x r ltac:(lia) Hx Hr). lia.
  - specialize (IH lo mid ltac:(lia) ltac:(lia)). destruct (search _ _ _ _ _); [done|].
    intros m x Hm Hx. destruct (decide (mid ≤ m)%nat) as [Hle|]; [|apply (IH m); [lia|done]].
    destruct (decide (m = mid)) as [->|]; [congruence|]. specialize (Ha mid m r x ltac:(lia) Hr Hx). lia.
Qed.

(** The record of a seq: what a walk of the whole table finds. *)
Definition rec_of (l : list dq_rec) (seq : Z) : option dq_rec := snd <$> list_find (λ r, r_seq r = seq) l.
Lemma find_by_seq_spec l seq : ascending l →
  match find_by_seq l seq with
  | Some i => ∃ r, l !! i = Some r ∧ r_seq r = seq
  | None => ∀ i r, l !! i = Some r → r_seq r ≠ seq
  end.
Proof.
  intros Ha. pose proof (search_spec l seq Ha (S (length l)) 0 (length l) (le_n _) ltac:(lia)) as H. unfold find_by_seq.
  destruct (search _ _ _ _ _); [done|]. intros i r Hi. apply (H i); [|done]. apply lookup_lt_Some in Hi. lia.
Qed.

(** ** The search past damage *)

(** Where [stands] holds there is a whole record. *)
Lemma stands_room f at_ end_ last_p : Forall byte f → at_ < end_ → stands f at_ end_ last_p = true → at_ + 24 ≤ end_.
Proof.
  intros Hf Hlt. unfold stands. destruct (get32 _ =? _); [cbn [andb]|done]. destruct (read_rec _ _) as [r| | |] eqn:Hr; [|done..].
  intros _. apply read_ok_spec in Hr as (_ & _ & H & H24 & _); [|by apply Forall_drop]. lia.
Qed.

Lemma scan_spec f base got end_ last_p fuel : ∀ i, 0 ≤ i → got - i < Z.of_nat fuel →
  match scan fuel f base got end_ last_p i with
  | Some at_ => base + i ≤ at_ ∧ at_ + 4 ≤ base + got ∧ stands f at_ end_ last_p = true ∧
                ∀ x, base + i ≤ x < at_ → stands f x end_ last_p = false
  | None => ∀ x, base + i ≤ x → x + 4 ≤ base + got → stands f x end_ last_p = false
  end.
Proof.
  induction fuel as [|n IH]; intros i Hi Hf; cbn [scan]; [intros; lia|].
  destruct (Z.leb_spec (i + 4) got) as [Hle|Hgt]; [|intros; lia].
  destruct (stands f (base + i) end_ last_p) eqn:Hs; [split_and!; try done; intros; lia|].
  specialize (IH (i + 1) ltac:(lia) ltac:(lia)). destruct (scan _ _ _ _ _ _ _) as [at_|].
  - destruct IH as (H1 & H2 & H3 & H4). split_and!; try done; [lia|]. intros x Hx.
    destruct (decide (x = base + i)) as [->|]; [done|]. apply H4. lia.
  - intros x Hx Hx4. destruct (decide (x = base + i)) as [->|]; [done|]. apply IH; lia.
Qed.

Lemma resync_loop_spec f last_p fuel : Forall byte f → ∀ base, 1 ≤ base → len f - base < Z.of_nat fuel →
  match resync_loop fuel f base (len f) last_p with
  | Some at_ => base ≤ at_ ∧ at_ + 24 ≤ len f ∧ stands f at_ (len f) last_p = true ∧
                ∀ x, base ≤ x < at_ → stands f x (len f) last_p = false
  | None => ∀ x, base ≤ x < len f → stands f x (len f) last_p = false
  end.
Proof.
  intros Hb. induction fuel as [|n IH]; intros base H0 Hf; cbn [resync_loop]; [intros; lia|]. unfold DQ_RHDR_LEN.
  destruct (Z.leb_spec (20 + 4) (len f - base)) as [Hle|Hgt].
  2: { intros x Hx. destruct (stands f x (len f) last_p) eqn:Hs; [|done]. apply stands_room in Hs; [lia|done|lia]. }
  set (want := if len f - base <? CHUNK then len f - base else CHUNK).
  assert (Hw : 24 ≤ want ≤ len f - base ∧ (want = len f - base ∨ want = CHUNK)).
  { unfold want, CHUNK. destruct (Z.ltb_spec (len f - base) 4096); lia. }
  clearbody want. set (got := len (upto want (from base f))).
  assert (Hg : got = want) by (unfold got; rewrite len_upto, len_from; lia). clearbody got. subst got.
  rewrite (proj2 (Z.ltb_ge want 4)) by lia.
  pose proof (scan_spec f base want (len f) last_p (length f) 0 ltac:(lia)) as Hs. rewrite Z.add_0_r in Hs.
  specialize (Hs ltac:(unfold len in *; lia)). destruct (scan _ _ _ _ _ _ _) as [at_|].
  - destruct Hs as (H1 & H2 & H3 & H4). split_and!; try done. apply stands_room in H3; [lia|done|lia].
  - specialize (IH (base + want - 3) ltac:(lia) ltac:(lia)). destruct (resync_loop _ _ _ _ _) as [at_|].
    + destruct IH as (H1 & H2 & H3 & H4). split_and!; try done; [lia|]. intros x Hx.
      destruct (decide (x + 4 ≤ base + want)); [apply Hs; lia|apply H4; lia].
    + intros x Hx. destruct (decide (x + 4 ≤ base + want)); [apply Hs; lia|apply IH; lia].
Qed.
Lemma resync_spec f bad last_p : Forall byte f → 0 ≤ bad →
  match resync f bad (len f) last_p with
  | Some at_ => bad < at_ ∧ at_ + 24 ≤ len f ∧ stands f at_ (len f) last_p = true ∧
                ∀ x, bad < x < at_ → stands f x (len f) last_p = false
  | None => ∀ x, bad < x < len f → stands f x (len f) last_p = false
  end.
Proof.
  intros Hf Hb. pose proof (resync_loop_spec f last_p (length f) Hf (bad + 1) ltac:(lia) ltac:(unfold len; lia)) as H.
  unfold resync. destruct (resync_loop _ _ _ _ _) as [at_|].
  - destruct H as (H1 & H2 & H3 & H4). split_and!; try done; [lia|]. intros x Hx. apply H4. lia.
  - intros x Hx. apply H. lia.
Qed.

End JournalFacts.
