(* ===== verification/ReplayFacts.v ===== *)
(** * Lemmas about replay

    Any file replays to a table in order, in as many turns as it has bytes; the file of a
    history replays to the history, and so does one whose last write was cut short. *)

From S2P Require Import Prelude Journal JournalFacts.

Module ReplayFacts.
Import Journal JournalFacts.

(** ** The table *)

(** [last_p]: the seq of the last ['P'] applied. *)
Record ordered (last_p : Z) (t : table) : Prop := Ordered {
  o_asc : ascending (t_recs t);
  o_seq : ∀ i r, t_recs t !! i = Some r → 0 < r_seq r ≤ last_p;
  o_last : 0 ≤ last_p ≤ DQ_MAX_SEQ;
  o_next : last_p < t_next t ≤ DQ_MAX_SEQ + 1 }.

Lemma ascending_push l r : ascending l → (∀ i x, l !! i = Some x → r_seq x < r_seq r) → ascending (l ++ [r]).
Proof.
  intros Ha Hl i j x y Hij Hx Hy. apply lookup_app_Some in Hy as [Hy|[Hj Hy]].
  - rewrite lookup_app_l in Hx by (apply lookup_lt_Some in Hy; lia). by apply (Ha i j).
  - apply list_lookup_singleton_Some in Hy as [Hj0 <-]. rewrite lookup_app_l in Hx by lia. by eapply Hl.
Qed.
Lemma mark_seq ty w r : r_seq (mark ty w r) = r_seq r.
Proof. unfold mark. by repeat case_match. Qed.
Lemma alter_seqs (g : dq_rec → dq_rec) i (l : list dq_rec) : (∀ r, r_seq (g r) = r_seq r) →
  ∀ j r, alter g i l !! j = Some r → ∃ r', l !! j = Some r' ∧ r_seq r' = r_seq r.
Proof.
  intros Hg j r Hj. destruct (decide (i = j)) as [->|Hne].
  - rewrite list_lookup_alter_eq in Hj. apply fmap_Some in Hj as (r' & Hr' & ->). exists r'. by rewrite Hg.
  - rewrite list_lookup_alter_ne in Hj by done. by exists r.
Qed.
Lemma ascending_alter (g : dq_rec → dq_rec) i (l : list dq_rec) : (∀ r, r_seq (g r) = r_seq r) → ascending l → ascending (alter g i l).
Proof.
  intros Hg Ha j k x y Hjk Hx Hy. apply alter_seqs in Hx as (x' & Hx & <-), Hy as (y' & Hy & <-); [|done..]. by apply (Ha j k).
Qed.

(** What a journal can give back: nothing of this run, and parts within the bounds. *)
Record stored (rc : dq_rec) : Prop := Stored {
  s_run : r_handle rc = 0 ∧ r_suspect rc = false ∧ r_committing rc = false ∧ r_retracting rc = 0 ∧ r_deferred rc = 0;
  s_name : c_str (r_name rc) = r_name rc ∧ len (r_name rc) ≤ DQ_MAX_NAME;
  s_payload : len (r_payload rc) ≤ DQ_MAX_PAYLOAD;
  s_crashes : 0 ≤ r_crashes rc < 2 ^ 32 }.
Lemma c_str_idem l : c_str (c_str l) = c_str l.
Proof. induction l as [|b l IH]; cbn; [done|]. destruct (Z.eqb_spec b 0) as [|H]; [done|]. cbn. by rewrite (proj2 (Z.eqb_neq _ _) H), IH. Qed.
Lemma len_c_str l : len (c_str l) ≤ len l.
Proof. unfold len. induction l as [|b l IH]; cbn; [done|]. case_match; cbn; lia. Qed.
Lemma mark_stored ty w rc : Forall byte (w_body w) → stored rc → stored (mark ty w rc).
Proof.
  intros Hw [H1 H2 H3 H4]. unfold mark. repeat case_match; split; cbn; try done.
  apply (get_range _ 4 Hw).
Qed.

Definition next_p (r : dq_raw) (last_p : Z) : Z :=
  if (w_type r =? byte_of "P") && (last_p <? w_seq r) then w_seq r else last_p.
Definition well (last_p : Z) (t : table) : Prop := ordered last_p t ∧ Forall stored (t_recs t).

Lemma apply_ordered r last_p t : 0 ≤ w_seq r → ordered last_p t → no_writer_makes r last_p = false →
  ordered (next_p r last_p) (apply_rec r t).
Proof.
  intros H0 [Ha Hs Hl Hn] Hw. apply orb_false_iff in Hw as [Hmax Hp]. apply Z.ltb_ge in Hmax. unfold DQ_MAX_SEQ in *.
  unfold apply_rec, next_p. set (t1 := if t_next t <=? w_seq r then _ else _).
  assert (H1 : t_recs t1 = t_recs t ∧ last_p < t_next t1 ≤ 2 ^ 63 - 1 + 1 ∧ w_seq r < t_next t1).
  { unfold t1. destruct (Z.leb_spec (t_next t) (w_seq r)); cbn; [|split; [done|lia]]. rewrite u64_small by lia. split; [done|lia]. }
  clearbody t1. destruct H1 as (Hr1 & Hn1 & Hw1). destruct (w_type r =? byte_of "P"); cbn [andb] in *.
  - apply Z.leb_gt in Hp. rewrite (proj2 (Z.ltb_lt _ _) Hp). split; cbn [t_recs t_next update]; unfold DQ_MAX_SEQ.
    + rewrite Hr1. apply ascending_push; [done|]. intros i x Hx. apply Hs in Hx. cbn. lia.
    + intros i x Hx. rewrite Hr1 in Hx. apply lookup_app_Some in Hx as [Hx|[_ Hx]]; [apply Hs in Hx; lia|].
      apply list_lookup_singleton_Some in Hx as [_ <-]. cbn. lia.
    + lia.
    + cbn. lia.
  - destruct (find_by_seq (t_recs t1) (w_seq r)) as [i|]; split; cbn [t_recs t_next update]; rewrite ?Hr1; try done.
    + apply ascending_alter; [apply mark_seq|done].
    + intros j x Hx. apply alter_seqs in Hx as (x' & Hx & <-); [|apply mark_seq]. by apply (Hs j).
Qed.
Lemma apply_stored r t : read_record r → Forall stored (t_recs t) → Forall stored (t_recs (apply_rec r t)).
Proof.
  intros [Hn Hp _ Hb Hl] Ht. unfold apply_rec. set (t1 := if t_next t <=? w_seq r then _ else _).
  assert (Hr1 : t_recs t1 = t_recs t) by (unfold t1; by destruct (t_next t <=? _)). clearbody t1. rewrite <-Hr1 in Ht.
  destruct (w_type r =? byte_of "P").
  - cbn [t_recs update]. apply Forall_app. split; [done|]. apply Forall_singleton. split; cbn; try done.
    + rewrite c_str_idem. split; [done|]. pose proof (len_c_str (upto (w_nlen r) (w_body r))). rewrite len_upto in *. lia.
    + rewrite len_upto, len_from. lia.
  - destruct (find_by_seq _ _) as [i|]; [|done]. cbn [t_recs update]. apply Forall_alter; [done|].
    intros x Hx Hst. by apply mark_stored.
Qed.

(** ** Any file *)

Lemma replay_loop_total f end_ : Forall byte f → end_ = len f ∨ end_ = -1 →
  ∀ fuel pos last_p t d, 0 ≤ pos ≤ len f → len f - pos < Z.of_nat fuel → well last_p t →
  ∃ t' d' last', replay_loop fuel f end_ pos last_p t d = Some (t', d') ∧ well last' t'.
Proof.
  intros Hf Hend. induction fuel as [|n IH]; intros pos last_p t d Hp Hfuel Ho; [lia|]. cbn [replay_loop].
  set (left := if end_ <? 0 then -1 else end_ - pos).
  assert (Hbad : ∃ t' d' last', match (if end_ <? 0 then None else resync f pos end_ last_p) with
    | Some next => replay_loop n f end_ next last_p t (damaged pos (next - pos) d)
    | None => Some (t, d) end = Some (t', d') ∧ well last' t').
  { destruct (end_ <? 0) eqn:He; [by eexists _, _, last_p|]. apply Z.ltb_ge in He.
    assert (end_ = len f) as -> by lia. pose proof (resync_spec f pos last_p Hf ltac:(lia)) as Hs.
    destruct (resync _ _ _ _) as [next|]; [|by eexists _, _, last_p]. apply IH; [lia|lia|done]. }
  destruct (read_rec (from pos f) left) as [r| | |] eqn:Hr; [|by eexists _, _, last_p|done|].
  - apply read_ok_spec in Hr as (_ & Hlen & _ & H24 & Hrr); [|by apply Forall_drop]. rewrite len_from in Hlen.
    destruct (no_writer_makes r last_p) eqn:Hw; [apply IH; [lia|lia|done]|].
    destruct Ho as [Ho Hst]. apply IH; [lia|lia|]. split; [apply apply_ordered; try done; apply Hrr|by apply apply_stored].
  - destruct (if end_ <? 0 then None else _); by eexists _, _, last_p.
Qed.

Lemma empty_well : well 0 (Tab [] 1).
Proof. split; [|constructor]. split; cbn; unfold DQ_MAX_SEQ; try lia; intros ?; by rewrite ?lookup_nil. Qed.
Lemma replay_total f sized : Forall byte f → f = [] ∨ upto DQ_FHDR_LEN f = file_header →
  ∃ t d last, replay f sized = Some (t, d) ∧ well last t.
Proof.
  intros Hf Hh. unfold replay. destruct Hh as [->|Hh].
  { eexists _, _, 0. split; [done|]. apply empty_well. }
  rewrite Hh. change (_ || _) with false. change (len file_header =? 0) with false. cbv iota.
  apply replay_loop_total; [done|destruct sized; auto| |unfold len, DQ_FHDR_LEN; lia|apply empty_well].
  assert (len (upto DQ_FHDR_LEN f) = 8) as Hl by by rewrite Hh. unfold DQ_FHDR_LEN in *. rewrite len_upto in Hl. lia.
Qed.

(** ** Histories *)

(** What a reader finds of a record written. *)
Definition raw (e : entry) : dq_raw := raw_of (e_type e) (e_seq e) (e_name e) (e_payload e).
(** What writers make: each ['P'] above the last, no seq past the bound. *)
Definition next_last (e : entry) (last_p : Z) : Z := if e_type e =? byte_of "P" then e_seq e else last_p.
Fixpoint legal (last_p : Z) (es : list entry) : Prop :=
  match es with
  | [] => True
  | e :: es => 0 ≤ e_seq e ≤ DQ_MAX_SEQ ∧ (e_type e = byte_of "P" → last_p < e_seq e) ∧ legal (next_last e last_p) es
  end.
Definition table_of (es : list entry) (t : table) : table := foldl (λ t e, apply_rec (raw e) t) t es.

Lemma write_len e b : write e = Some b → 24 ≤ len b ∧ len b = rec_len (raw e).
Proof.
  intros Hw. apply len_written in Hw as (Hl & _). pose proof (len_nonneg (e_name e)). pose proof (len_nonneg (e_payload e)).
  unfold rec_len, DQ_RHDR_LEN. cbn. lia.
Qed.
Lemma legal_writer e last_p : 0 ≤ e_seq e ≤ DQ_MAX_SEQ → (e_type e = byte_of "P" → last_p < e_seq e) →
  no_writer_makes (raw e) last_p = false ∧ next_p (raw e) last_p = next_last e last_p.
Proof.
  intros Hs Hp. unfold no_writer_makes, next_p, next_last. cbn [raw raw_of w_type w_seq].
  rewrite (proj2 (Z.ltb_ge _ _)) by lia. destruct (Z.eqb_spec (e_type e) (byte_of "P")) as [He|]; [|done]. cbn [andb orb].
  specialize (Hp He). rewrite (proj2 (Z.ltb_lt last_p _)) by lia. split; [|done]. apply Z.leb_gt. lia.
Qed.

Definition ends_at (f : list Z) (end_ : Z) : Prop := end_ = len f ∨ end_ = -1.
Lemma left_ok f end_ pos : ends_at f end_ → pos ≤ len f →
  let left := if end_ <? 0 then -1 else end_ - pos in left < 0 ∨ left = len f - pos.
Proof. intros [-> | ->] Hp; cbv zeta; pose proof (len_nonneg f); destruct (Z.ltb_spec (len f) 0); cbn; lia. Qed.

Lemma replay_written f end_ es : ∀ pre bs tail last_p t d m, f = pre ++ bs ++ tail → ends_at f end_ →
  written es = Some bs → legal last_p es →
  ∃ last', replay_loop (length es + m) f end_ (len pre) last_p t d =
           replay_loop m f end_ (len (pre ++ bs)) last' (table_of es t) d.
Proof.
  induction es as [|e es IH]; intros pre bs tail last_p t d m Hf He Hw Hl.
  { injection Hw as <-. exists last_p. by rewrite app_nil_r. }
  cbn [written] in Hw. destruct (write e) as [b|] eqn:Hb; [|done]. destruct (written es) as [bs'|] eqn:Hbs; [|done].
  injection Hw as <-. destruct Hl as (Hs & Hp & Hl). cbn [length plus replay_loop].
  destruct (write_len e b Hb) as [H24 Hlen].
  assert (Hfrom : from (len pre) f = b ++ bs' ++ tail) by (rewrite Hf, from_app by done; by rewrite app_assoc).
  pose proof (left_ok f end_ (len pre) He) as Hleft. cbv zeta in Hleft. set (left := if end_ <? 0 then _ else _) in *.
  assert (Hpre : len f = len pre + len b + len bs' + len tail) by (rewrite Hf, !len_app; lia).
  pose proof (len_nonneg bs'). pose proof (len_nonneg tail). pose proof (len_nonneg pre).
  assert (Hl64 : 0 ≤ e_seq e < 2 ^ 64) by (unfold DQ_MAX_SEQ in *; lia).
  rewrite Hfrom, (read_written _ _ _ _ b _ _ Hl64 Hb) by (specialize (Hleft ltac:(lia)); lia). fold (raw e).
  destruct (legal_writer e last_p Hs Hp) as [-> Hnp]. unfold next_p in Hnp. rewrite Hnp.
  destruct (IH (pre ++ b) bs' tail (next_last e last_p) (apply_rec (raw e) t) d m) as [last' Hr]; try done.
  { by rewrite Hf, <-!app_assoc. }
  exists last'. rewrite <-Hlen, <-len_app, Hr. by rewrite app_assoc.
Qed.

(** A write cut short is not applied. *)
Lemma replay_tail f end_ pre e b (n m : nat) last_p t d : f = pre ++ take n b → ends_at f end_ →
  write e = Some b → 0 ≤ e_seq e ≤ DQ_MAX_SEQ → (n < length b)%nat →
  ∃ d', replay_loop (S m) f end_ (len pre) last_p t d = Some (t, d') ∧
    (d' = d ∨ n ≠ 0%nat ∧ 0 ≤ end_ ∧ g_cut d' = true).
Proof.
  intros Hf He Hw Hs Hn. cbn [replay_loop]. assert (Hfrom : from (len pre) f = take n b) by by rewrite Hf, from_app.
  assert (Hlf : len f = len pre + Z.of_nat n) by (rewrite Hf, len_app; unfold len at 2; rewrite length_take; lia).
  pose proof (left_ok f end_ (len pre) He ltac:(lia)) as Hleft. cbv zeta in Hleft. set (left := if end_ <? 0 then _ else _) in *.
  assert (Hl64 : 0 ≤ e_seq e < 2 ^ 64) by (unfold DQ_MAX_SEQ in *; lia).
  assert (Hleft' : left < 0 ∨ left = Z.of_nat n) by lia.
  rewrite Hfrom. destruct (read_torn _ _ _ _ b n left Hl64 Hw Hn Hleft') as [[-> H]|[[H20 H]|[[Hn0 H]|[Hl H]]]]; rewrite H.
  - exists d. auto.
  - exists d. split; [|by left]. destruct (Z.ltb_spec end_ 0) as [|H0]; [done|]. destruct He as [->|]; [|lia].
    unfold resync. destruct (length f); cbn [resync_loop]; [done|]. unfold DQ_RHDR_LEN.
    by rewrite (proj2 (Z.leb_gt (20 + 4) _)) by lia.
  - destruct (Z.ltb_spec end_ 0) as [|H0]; [exists d; auto|]. destruct (resync _ _ _ _) as [next|]; [|exists d; auto].
    eexists. split; [done|]. right. done.
  - exists d. destruct (Z.ltb_spec end_ 0) as [|H0]; [auto|]. unfold left in Hl. unfold ends_at in He. destruct (Z.ltb_spec end_ 0); lia.
Qed.

(** A journal: the header, the records of a history, and what a crash left of the next. *)
Lemma replay_journal es bs e b (n : nat) sized : written es = Some bs → legal 0 es →
  write e = Some b → 0 ≤ e_seq e ≤ DQ_MAX_SEQ → (n < length b)%nat →
  ∃ d, replay (file_header ++ bs ++ take n b) sized = Some (table_of es (Tab [] 1), d) ∧
    (d = no_damage ∨ n ≠ 0%nat ∧ sized = true ∧ g_cut d = true).
Proof.
  intros Hes Hl Hw Hs Hn. set (f := file_header ++ bs ++ take n b). unfold replay.
  change (upto DQ_FHDR_LEN f) with file_header. change (_ || _) with false. change (len file_header =? 0) with false. cbv iota.
  set (end_ := if sized then len f else -1). assert (He : ends_at f end_) by (unfold end_, ends_at; destruct sized; auto).
  assert (Hlen : (length es ≤ length bs)%nat).
  { clear -Hes. revert bs Hes. induction es as [|e es IH]; intros bs; cbn [written]; [intros [= <-]; done|].
    destruct (write e) as [b|] eqn:Hb; [|done]. destruct (written es) as [bs'|]; [|done]. intros [= <-].
    specialize (IH bs' eq_refl). apply write_len in Hb as [Hb _]. rewrite length_app. unfold len in Hb. cbn [length]. lia. }
  assert (Hfuel : S (length f) = (length es + S (length f - length es))%nat).
  { unfold f. rewrite !length_app. lia. }
  rewrite Hfuel. change DQ_FHDR_LEN with (len file_header).
  destruct (replay_written f end_ es file_header bs (take n b) 0 (Tab [] 1) no_damage (S (length f - length es))) as [last' ->]; try done.
  destruct (replay_tail f end_ (file_header ++ bs) e b n (length f - length es) last' (table_of es (Tab [] 1)) no_damage)
    as (d & Hd & Hor); try done.
  exists d. split; [done|]. destruct Hor as [?|(Hn0 & H0 & ?)]; [by left|right]. split; [done|]. split; [|done]. unfold end_ in H0. destruct sized; [done|lia].
Qed.

(** ** One record at a time *)

Definition lookup_rec (seq : Z) (t : table) : option dq_rec := i ← find_by_seq (t_recs t) seq; t_recs t !! i.
(** The record [seq] of a history: its ['P'], and the markers after it. *)
Definition hist (seq : Z) (o : option dq_rec) (e : entry) : option dq_rec :=
  if e_seq e =? seq then
    if e_type e =? byte_of "P" then Some (new_rec seq (c_str (e_name e)) (e_payload e))
    else mark (e_type e) (raw e) <$> o
  else o.

Lemma lookup_rec_spec t seq o : ascending (t_recs t) →
  lookup_rec seq t = o ↔ match o with
    | Some r => r ∈ t_recs t ∧ r_seq r = seq
    | None => ∀ i r, t_recs t !! i = Some r → r_seq r ≠ seq end.
Proof.
  intros Ha. unfold lookup_rec. pose proof (find_by_seq_spec _ seq Ha) as Hf. destruct (find_by_seq _ _) as [i|]; cbn [mbind option_bind].
  - destruct Hf as (r & Hr & Hs). rewrite Hr. destruct o as [r'|].
    + split; [intros [= <-]; split; [by eapply list_elem_of_lookup_2|done]|].
      intros [[j Hj]%list_elem_of_lookup_1 Hs']. f_equal. destruct (decide (i = j)) as [->|]; [congruence|].
      destruct (decide (i < j)%nat); [specialize (Ha i j r r' ltac:(lia) Hr Hj)|specialize (Ha j i r' r ltac:(lia) Hj Hr)]; lia.
    + split; [done|]. intros H. exfalso. by apply (H i r).
  - destruct o as [r|]; [|done]. split; [done|]. intros [[j Hj]%list_elem_of_lookup_1 Hs']. exfalso. by apply (Hf j r).
Qed.

Lemma hist_apply seq last_p t e : ordered last_p t → 0 ≤ e_seq e ≤ DQ_MAX_SEQ →
  (e_type e = byte_of "P" → last_p < e_seq e) →
  lookup_rec seq (apply_rec (raw e) t) = hist seq (lookup_rec seq t) e.
Proof.
  intros Ho Hs Hp. destruct (legal_writer e last_p Hs Hp) as [Hw Hnp].
  pose proof (o_asc _ _ (apply_ordered (raw e) last_p t ltac:(cbn; lia) Ho Hw)) as Ha'.
  unfold apply_rec in *. set (t1 := if t_next t <=? _ then _ else _) in *.
  assert (Hr1 : t_recs t1 = t_recs t) by (unfold t1; by destruct (t_next t <=? _)). unfold hist. cbn [raw raw_of w_type w_seq w_nlen w_plen w_body] in *.
  pose proof (proj1 (lookup_rec_spec t seq (lookup_rec seq t) (o_asc _ _ Ho)) eq_refl) as Hold.
  apply lookup_rec_spec; [done|]. clearbody t1. destruct (Z.eqb_spec (e_type e) (byte_of "P")) as [He|He].
  - cbn [t_recs update]. rewrite Hr1. rewrite upto_app, from_app, upto_app by done.
    destruct (Z.eqb_spec (e_seq e) seq) as [<-|Hne]; [split; [apply elem_of_app; right; by apply list_elem_of_singleton|done]|].
    destruct (lookup_rec seq t) as [r|]; [destruct Hold; split; [apply elem_of_app; by left|done]|].
    intros i r [Hi|[_ Hi]]%lookup_app_Some; [by eapply Hold|]. by apply list_lookup_singleton_Some in Hi as [_ <-].
  - rewrite Hr1 in *. pose proof (find_by_seq_spec _ (e_seq e) (o_asc _ _ Ho)) as Hf.
    destruct (find_by_seq (t_recs t) (e_seq e)) as [i|] eqn:Hfind.
    + destruct Hf as (r & Hr & Hrs). cbn [t_recs update]. rewrite Hr1.
      destruct (Z.eqb_spec (e_seq e) seq) as [Heq|Hne].
      * unfold lookup_rec in *. rewrite <-Heq, Hfind in *. cbn [mbind option_bind] in *. rewrite Hr. cbn.
        split; [|by rewrite mark_seq]. eapply list_elem_of_lookup_2. by rewrite list_lookup_alter_eq, Hr.
      * destruct (lookup_rec seq t) as [r'|].
        -- destruct Hold as [[j Hj]%list_elem_of_lookup_1 Hs']. split; [|done]. eapply list_elem_of_lookup_2.
           rewrite list_lookup_alter_ne; [done|]. intros ->. congruence.
        -- intros j x Hx. apply alter_seqs in Hx as (x' & Hx & <-); [|apply mark_seq]. by apply (Hold j).
    + rewrite Hr1. destruct (Z.eqb_spec (e_seq e) seq) as [Heq|]; [|done].
      unfold lookup_rec. rewrite <-Heq, Hfind. cbn. subst seq. done.
Qed.

Lemma table_of_hist es seq : ∀ last_p t, ordered last_p t → legal last_p es →
  lookup_rec seq (table_of es t) = foldl (hist seq) (lookup_rec seq t) es ∧ ∃ last', ordered last' (table_of es t).
Proof.
  induction es as [|e es IH]; intros last_p t Ho Hl; [split; [done|by exists last_p]|]. destruct Hl as (Hs & Hp & Hl).
  cbn [table_of foldl]. destruct (legal_writer e last_p Hs Hp) as [Hw Hnp].
  pose proof (apply_ordered (raw e) last_p t ltac:(cbn; lia) Ho Hw) as Ho'. rewrite Hnp in Ho'.
  rewrite <-(hist_apply seq last_p t e Ho Hs Hp). by apply (IH (next_last e last_p)).
Qed.

(** ** Compaction *)

(** What replay makes of a record a compaction wrote. *)
Definition saved (rc : dq_rec) : dq_rec :=
  new_rec (r_seq rc) (c_str (r_name rc)) (r_payload rc)
    <| r_crashes := r_crashes rc |> <| r_inflight := r_inflight rc |> <| r_quarantined := r_quarantined rc |>.

Lemma find_last l x : ascending (l ++ [x]) → find_by_seq (l ++ [x]) (r_seq x) = Some (length l).
Proof.
  intros Ha. pose proof (find_by_seq_spec _ (r_seq x) Ha) as Hf.
  assert (Hx : (l ++ [x]) !! length l = Some x) by (rewrite lookup_app_r, Nat.sub_diag by lia; done).
  destruct (find_by_seq _ _) as [i|].
  - destruct Hf as (r & Hr & Hs). f_equal. destruct (decide (i < length l)%nat).
    + specialize (Ha i (length l) r x ltac:(lia) Hr Hx). lia.
    + apply lookup_lt_Some in Hr. rewrite length_app in Hr. cbn in Hr. lia.
  - by specialize (Hf _ _ Hx).
Qed.
Lemma alter_last {A} (g : A → A) l x : alter g (length l) (l ++ [x]) = l ++ [g x].
Proof. induction l as [|y l IH]; cbn; [done|]. f_equal. apply IH. Qed.
Lemma apply_last e l x nx : ascending (l ++ [x]) → r_seq x = e_seq e → e_type e ≠ byte_of "P" → e_seq e < nx →
  apply_rec (raw e) (Tab (l ++ [x]) nx) = Tab (l ++ [mark (e_type e) (raw e) x]) nx.
Proof.
  intros Ha Hs Ht Hn. unfold apply_rec. cbn [raw raw_of w_seq w_type t_next t_recs].
  rewrite (proj2 (Z.leb_gt nx (e_seq e))) by done. rewrite (proj2 (Z.eqb_neq _ _)) by done.
  cbv iota. cbn [t_recs]. rewrite <-Hs, (find_last l x Ha). cbn. by rewrite alter_last.
Qed.

Definition sound_rec (rc : dq_rec) : Prop := 0 < r_seq rc ≤ DQ_MAX_SEQ ∧ 0 ≤ r_crashes rc < 2 ^ 32.
Lemma rewrite_one rc l nx : sound_rec rc → nx ≤ r_seq rc →
  ascending l → (∀ i x, l !! i = Some x → r_seq x < r_seq rc) →
  table_of (rewrite_rec rc) (Tab l nx) = Tab (l ++ [saved rc]) (r_seq rc + 1).
Proof.
  intros [Hs Hc] Hn Ha Hlt. unfold DQ_MAX_SEQ in Hs.
  assert (Hasc : ∀ x, r_seq x = r_seq rc → ascending (l ++ [x])).
  { intros x Hx. apply ascending_push; [done|]. rewrite Hx. exact Hlt. }
  unfold rewrite_rec, table_of. cbn [foldl].
  set (x0 := new_rec (r_seq rc) (c_str (r_name rc)) (r_payload rc)).
  replace (apply_rec (raw _) (Tab l nx)) with (Tab (l ++ [x0]) (r_seq rc + 1)).
  2: { unfold apply_rec. cbn [raw raw_of w_seq w_type w_nlen w_plen w_body t_next t_recs e_type e_seq e_name e_payload].
       rewrite (proj2 (Z.leb_le _ _)) by done. change (byte_of "P" =? byte_of "P") with true. cbn [t_recs update].
       rewrite upto_app, from_app, upto_app by done. rewrite u64_small by lia. done. }
  set (x1 := x0 <| r_crashes := r_crashes rc |>). set (x2 := x1 <| r_inflight := r_inflight rc |>).
  rewrite !foldl_app.
  replace (foldl _ (Tab (l ++ [x0]) _) _) with (Tab (l ++ [x1]) (r_seq rc + 1)).
  2: { destruct (Z.eqb_spec (r_crashes rc) 0) as [H0|H0]; cbn [foldl]; [unfold x1; by rewrite H0|].
       rewrite apply_last; [|by apply Hasc|done|done|cbn; lia]. unfold mark. cbn [e_type raw raw_of w_plen w_nlen w_body e_name e_payload].
       change (_ =? byte_of "D") with false. change (_ =? byte_of "Q") with false. change (_ =? byte_of "S") with false.
       change (_ =? byte_of "F") with false. change (_ && _) with true. cbv iota. change ([] ++ ?a) with a. by rewrite get32_put. }
  replace (foldl _ (Tab (l ++ [x1]) _) _) with (Tab (l ++ [x2]) (r_seq rc + 1)).
  2: { unfold x2. destruct (r_inflight rc) eqn:Hi; cbn [foldl]; [|done].
       rewrite apply_last; [done|by apply Hasc|done|done|cbn; lia]. }
  unfold saved. fold x0. fold x1. fold x2. destruct (r_quarantined rc) eqn:Hq; cbn [foldl]; [|done].
  rewrite apply_last; [done|by apply Hasc|done|done|cbn; lia].
Qed.

Lemma rewrite_all rs : ∀ l nx, Forall sound_rec rs → ascending (l ++ rs) → (∀ i r, rs !! i = Some r → nx ≤ r_seq r) →
  (∀ i r, l !! i = Some r → r_seq r < nx) →
  ∃ nx', table_of (concat (map rewrite_rec rs)) (Tab l nx) = Tab (l ++ map saved rs) nx' ∧
    nx' = match last rs with Some r => r_seq r + 1 | None => nx end.
Proof.
  induction rs as [|rc rs IH]; intros l nx Hsd Ha Hnx Hl; [exists nx; by rewrite app_nil_r|].
  apply Forall_cons in Hsd as [Hrc Hsd]. cbn [map concat]. unfold table_of. rewrite foldl_app. fold (table_of (rewrite_rec rc) (Tab l nx)).
  assert (Hal : ascending l).
  { intros i j x y Hij Hx Hy. apply (Ha i j); [done|by apply lookup_app_l_Some..]. }
  assert (Hn0 : nx ≤ r_seq rc) by by apply (Hnx 0%nat).
  assert (Hlt : ∀ i x, l !! i = Some x → r_seq x < r_seq rc) by (intros i x Hx; specialize (Hl i x Hx); lia).
  rewrite rewrite_one by done.
  assert (Hnext : ∀ i r, rs !! i = Some r → r_seq rc < r_seq r).
  { intros i r Hr. apply (Ha (length l) (length l + S i)%nat); [lia| |].
    - by rewrite lookup_app_r, Nat.sub_diag by lia.
    - rewrite lookup_app_r by lia. by replace (length l + S i - length l)%nat with (S i) by lia. }
  destruct (IH (l ++ [saved rc]) (r_seq rc + 1) Hsd) as (nx' & Hx & Hnx').
  - intros i j x y Hij Hx Hy. rewrite <-app_assoc in Hx, Hy. cbn [app] in Hx, Hy.
    assert (Hsub : ∀ k z, (l ++ saved rc :: rs) !! k = Some z → ∃ z', (l ++ rc :: rs) !! k = Some z' ∧ r_seq z' = r_seq z).
    { intros k z Hz. apply lookup_app_Some in Hz as [Hz|[Hk Hz]]; [exists z; split; [by apply lookup_app_l_Some|done]|].
      rewrite lookup_app_r by lia. destruct (k - length l)%nat as [|k'] eqn:Hkl; cbn in Hz |- *; [injection Hz as <-; by exists rc|by exists z]. }
    apply Hsub in Hx as (x' & Hx & <-), Hy as (y' & Hy & <-). by apply (Ha i j).
  - intros i r Hr. apply Hnext in Hr. lia.
  - intros i r [Hi|[_ Hi]]%lookup_app_Some; [apply Hlt in Hi; lia|].
    apply list_lookup_singleton_Some in Hi as [_ <-]. cbn. lia.
  - exists nx'. unfold table_of in Hx. rewrite Hx. split; [by rewrite <-app_assoc|]. rewrite Hnx'. rewrite last_cons. by destruct (last rs).
Qed.

Lemma legal_app last_p es1 es2 : legal last_p es1 → legal (foldl (λ p e, next_last e p) last_p es1) es2 → legal last_p (es1 ++ es2).
Proof. revert last_p. induction es1 as [|e es1 IH]; intros last_p; cbn; [done|]. intros (H1 & H2 & H3) H. naive_solver. Qed.
Lemma legal_marks last_p es : Forall (λ e, 0 ≤ e_seq e ≤ DQ_MAX_SEQ ∧ e_type e ≠ byte_of "P") es →
  legal last_p es ∧ foldl (λ p e, next_last e p) last_p es = last_p.
Proof.
  induction 1 as [|e es [Hs Ht] _ IH]; cbn; [done|].
  assert (Hn : next_last e last_p = last_p) by (unfold next_last; by rewrite (proj2 (Z.eqb_neq _ _) Ht)).
  rewrite Hn. naive_solver.
Qed.
Lemma rewrite_rec_marks rc : sound_rec rc → Forall (λ e, 0 ≤ e_seq e ≤ DQ_MAX_SEQ ∧ e_type e ≠ byte_of "P") (tail (rewrite_rec rc)).
Proof.
  intros [Hs _]. cbn [rewrite_rec tail]. rewrite !Forall_app.
  split_and!; case_match; repeat constructor; cbn; try done; lia.
Qed.
Lemma rewrite_legal rs : ∀ last_p, Forall sound_rec rs → ascending rs → (∀ i r, rs !! i = Some r → last_p < r_seq r) →
  legal last_p (concat (map rewrite_rec rs)).
Proof.
  induction rs as [|rc rs IH]; intros last_p Hsd Ha Hl; [done|]. apply Forall_cons in Hsd as [Hrc Hsd]. cbn [map concat].
  assert (Hm := rewrite_rec_marks rc Hrc). apply legal_app.
  - change (rewrite_rec rc) with (Entry (byte_of "P") (r_seq rc) (r_name rc) (r_payload rc) :: tail (rewrite_rec rc)).
    cbn [legal e_seq e_type]. split; [destruct Hrc; lia|]. split; [intros _; by apply (Hl 0%nat)|]. by apply legal_marks.
  - change (rewrite_rec rc) with (Entry (byte_of "P") (r_seq rc) (r_name rc) (r_payload rc) :: tail (rewrite_rec rc)).
    cbn [foldl]. change (next_last _ last_p) with (r_seq rc). rewrite (proj2 (legal_marks (r_seq rc) _ Hm)).
    apply IH; [done| |].
    + intros i j x y Hij Hx Hy. by apply (Ha (S i) (S j)); [lia|..].
    + intros i r Hr. by apply (Ha 0%nat (S i)); [lia|..].
Qed.

End ReplayFacts.
