(* ===== verification/Durable.v ===== *)
(** * Properties of the journal of the durable queue

    What a reader finds in a journal: all of a history's records whatever the crash left
    of its last write, a table in order whatever the file, every record that verifies past
    damage, what a compaction kept, and the record that kills its process. *)

From S2P Require Import Prelude Journal JournalFacts ReplayFacts.

Module Durable.
Import Journal JournalFacts ReplayFacts.

(** ** Opening a journal *)

Definition nobody : Z → bool := λ _, false.
(** The file [gptps_dq_open] leaves, from the table it replayed: no write is in flight. *)
Definition reopened (t : table) : option (list Z) := rewrite_file nobody nobody (open_table (t_recs t)).1.

Lemma open_rec_kept rc : stored rc → let o := open_rec rc in
  r_seq o = r_seq rc ∧ r_name o = r_name rc ∧ r_payload o = r_payload rc ∧ r_done o = r_done rc ∧
  r_committing o = false ∧ r_retracting o = 0 ∧ 0 ≤ r_crashes o < 2 ^ 32.
Proof.
  intros [(_ & _ & Hc & Hr & _) _ _ Hcr]. unfold open_rec. cbv zeta.
  destruct (_ || _); [done|]. set (rc1 := if r_inflight rc then _ else rc).
  assert (H1 : r_seq rc1 = r_seq rc ∧ r_name rc1 = r_name rc ∧ r_payload rc1 = r_payload rc ∧ r_done rc1 = r_done rc ∧
    r_committing rc1 = false ∧ r_retracting rc1 = 0 ∧ 0 ≤ r_crashes rc1 < 2 ^ 32).
  { unfold rc1. destruct (r_inflight rc); [|done]. cbn. split_and!; try done; unfold UINT32_MAX; destruct (Z.ltb_spec (r_crashes rc) (2 ^ 32 - 1)); lia. }
  clearbody rc1. by destruct (_ <=? _).
Qed.

Lemma written_some es : Forall (λ e, len (e_name e) ≤ DQ_MAX_NAME ∧ len (e_payload e) ≤ DQ_MAX_PAYLOAD) es →
  ∃ bs, written es = Some bs.
Proof.
  induction 1 as [|e es [Hn Hp] _ [bs IH]]; [by eexists|]. cbn [written]. unfold write, write_record.
  rewrite (proj2 (Z.ltb_ge DQ_MAX_NAME _)), (proj2 (Z.ltb_ge DQ_MAX_PAYLOAD _)) by done. cbn [orb mbind option_bind].
  rewrite IH. by eexists.
Qed.

Definition live (t : table) : list dq_rec := compact_memory (open_table (t_recs t)).1.

Lemma list_filter_lookup {A} (P : A → bool) l i x : List.filter P l !! i = Some x → ∃ j, l !! j = Some x ∧ (i ≤ j)%nat.
Proof.
  revert i. induction l as [|y l IH]; intros i; cbn; [done|]. destruct (P y); [destruct i as [|i]; cbn|].
  - intros [= ->]. by exists 0%nat.
  - intros Hi. apply IH in Hi as (j & Hj & Hle). exists (S j). split; [done|lia].
  - intros Hi. apply IH in Hi as (j & Hj & Hle). exists (S j). split; [done|lia].
Qed.
Lemma ascending_filter P l : ascending l → ascending (List.filter P l).
Proof.
  induction l as [|x l IH]; intros Ha; [by intros i j a b _ Hi|]. assert (Ha' : ascending l).
  { intros i j a b Hij Hi Hj. by apply (Ha (S i) (S j)); [lia|..]. }
  cbn. destruct (P x); [|by apply IH]. intros [|i] [|j] a b Hij Hi Hj; try lia; cbn in Hi, Hj.
  - injection Hi as ->. apply list_filter_lookup in Hj as (k & Hk & _). by apply (Ha 0%nat (S k)); [lia|..].
  - by apply (IH Ha' i j); [lia|..].
Qed.
Lemma ascending_map (g : dq_rec → dq_rec) l : (∀ r, r ∈ l → r_seq (g r) = r_seq r) → ascending l → ascending (map g l).
Proof.
  intros Hg Ha i j x y Hij Hx Hy. change (map g l) with (g <$> l) in *. rewrite list_lookup_fmap in Hx, Hy.
  apply fmap_Some in Hx as (x' & Hx & ->), Hy as (y' & Hy & ->).
  rewrite !Hg by by eapply list_elem_of_lookup_2. by apply (Ha i j).
Qed.

(** What the opened table holds, as the compaction meets it. *)
Lemma live_spec last_p t : well last_p t →
  List.filter (kept nobody nobody) (open_table (t_recs t)).1 = live t ∧ ascending (live t) ∧ Forall sound_rec (live t) ∧
  (∀ i r, live t !! i = Some r → 0 < r_seq r ≤ last_p) ∧
  Forall (λ r, c_str (r_name r) = r_name r ∧ len (r_name r) ≤ DQ_MAX_NAME ∧ len (r_payload r) ≤ DQ_MAX_PAYLOAD) (live t).
Proof.
  intros [Ho Hst]. unfold live, compact_memory, open_table. cbn [fst]. set (l := map open_rec (t_recs t)).
  assert (Hl : ∀ r, r ∈ l → ∃ rc, r = open_rec rc ∧ rc ∈ t_recs t ∧ stored rc).
  { intros r Hr. unfold l in Hr. change (map open_rec (t_recs t)) with (open_rec <$> t_recs t) in Hr.
    apply list_elem_of_fmap in Hr as (rc & -> & Hrc). exists rc. rewrite Forall_forall in Hst. auto. }
  assert (Hal : ascending l).
  { apply ascending_map; [|apply Ho]. intros r Hr. rewrite Forall_forall in Hst. by apply (open_rec_kept r (Hst r Hr)). }
  assert (Hf : ∀ i r, List.filter (λ rc, negb (r_done rc)) l !! i = Some r → ∃ rc, r = open_rec rc ∧ rc ∈ t_recs t ∧ stored rc).
  { intros i r Hi. apply list_filter_lookup in Hi as (j & Hj & _). apply list_elem_of_lookup_2 in Hj. by apply Hl. }
  assert (Hseq : ∀ i r, List.filter (λ rc, negb (r_done rc)) l !! i = Some r → 0 < r_seq r ≤ last_p).
  { intros i r Hi. destruct (Hf i r Hi) as (rc & -> & [j Hj]%list_elem_of_lookup_1 & Hs).
    destruct (open_rec_kept rc Hs) as (-> & _). by apply (o_seq _ _ Ho j). }
  split; [|split; [by apply ascending_filter|split; [|split; [done|]]]].
  - clear -Hl. induction l as [|r l IH]; [done|]. cbn. destruct (Hl r) as (rc & Hr & _ & Hs); [by left|].
    destruct (open_rec_kept rc Hs) as (_ & _ & _ & _ & Hc & Hrt & _). rewrite <-Hr in Hc, Hrt.
    assert (Hk : kept nobody nobody r = negb (r_done r)) by (unfold kept; rewrite Hc, Hrt; cbn; by rewrite !andb_true_r).
    rewrite Hk, IH; [done|]. intros r' Hr'. apply Hl. by right.
  - apply Forall_lookup. intros i r Hi. split; [pose proof (Hseq i r Hi); pose proof (o_last _ _ Ho); lia|].
    destruct (Hf i r Hi) as (rc & -> & _ & Hs). apply (open_rec_kept rc Hs).
  - apply Forall_lookup. intros i r Hi. destruct (Hf i r Hi) as (rc & -> & _ & Hs).
    destruct (open_rec_kept rc Hs) as (_ & -> & -> & _). destruct (s_name rc Hs). by pose proof (s_payload rc Hs).
Qed.

Lemma reopen_entries last_p t : well last_p t → ∃ es bs nx,
  reopened t = Some (file_header ++ bs) ∧ written es = Some bs ∧ legal 0 es ∧
  table_of es (Tab [] 1) = Tab (map saved (live t)) nx ∧ nx ≤ t_next t.
Proof.
  intros Hw. destruct (live_spec last_p t Hw) as (Hk & Ha & Hsd & Hseq & Hfit).
  exists (concat (map rewrite_rec (live t))). destruct (written_some (concat (map rewrite_rec (live t)))) as [bs Hbs].
  { apply Forall_concat, Forall_map. eapply Forall_impl; [exact Hfit|]. intros rc (_ & Hn & Hp).
    apply Forall_cons. split; [done|]. rewrite !Forall_app.
    split_and!; case_match; rewrite ?Forall_nil, ?Forall_singleton; done. }
  destruct (rewrite_all (live t) [] 1 Hsd) as (nx & Hx & Hnx); [done|intros i r Hr; apply Hseq in Hr; lia|done|].
  exists bs, nx. split; [|split; [done|split; [|split; [done|]]]].
  - unfold reopened, rewrite_file, rewrite_entries. by rewrite Hk, Hbs.
  - apply rewrite_legal; [done|done|]. intros i r Hr. apply Hseq in Hr. lia.
  - destruct Hw as [Ho _]. pose proof (o_next _ _ Ho). pose proof (o_last _ _ Ho). rewrite Hnx.
    destruct (last (live t)) as [r|] eqn:Hl; [|lia]. rewrite last_lookup in Hl. apply Hseq in Hl. lia.
Qed.

(** ** A run: the journal opened, and the markers the run then wrote *)

Definition marker (type : string) (seq : Z) : entry := Entry (byte_of type) seq [] [].
Definition one_run (t : table) (ms : list entry) : option table :=
  f ← reopened t; bs ← written ms; fst <$> replay (f ++ bs) true.
(** A record of the opened table as the next open finds it. *)
Definition settled (rc : dq_rec) : dq_rec := open_rec rc <| r_suspect := false |>.
Definition carried (o : option dq_rec) : option dq_rec := rc ← o; if r_done rc then None else Some (settled rc).

Lemma saved_settled rc : stored rc → saved (open_rec rc) = settled rc ∨ r_done rc = true.
Proof.
  intros Hs. destruct (open_rec_kept rc Hs) as (H1 & H2 & H3 & H4 & H5 & H6 & _).
  destruct Hs as [(Hh & _ & _ & _ & Hd) [Hn _] _ _]. destruct (r_done rc) eqn:Hdone; [by right|left].
  unfold saved, settled. rewrite H1, H2, H3, Hn.
  assert (Hrest : r_handle (open_rec rc) = 0 ∧ r_deferred (open_rec rc) = 0).
  { unfold open_rec. repeat case_match; done. }
  destruct Hrest as [Ho1 Ho2]. destruct (open_rec rc) eqn:Ho. cbn in *. by subst.
Qed.

Lemma lookup_saved last_p t nx seq : well last_p t →
  lookup_rec seq (Tab (map saved (live t)) nx) = carried (lookup_rec seq t).
Proof.
  intros Hw. destruct (live_spec last_p t Hw) as (_ & Ha & _). pose proof Hw as [Ho Hst].
  apply lookup_rec_spec; [cbn; by apply ascending_map|]. cbn [t_recs].
  pose proof (proj1 (lookup_rec_spec t seq (lookup_rec seq t) (o_asc _ _ Ho)) eq_refl) as Hold.
  assert (Hin : ∀ r, r ∈ map saved (live t) → ∃ rc, rc ∈ t_recs t ∧ r_done rc = false ∧ r = settled rc ∧ r_seq r = r_seq rc).
  { intros r Hr. change (map saved (live t)) with (saved <$> live t) in Hr. apply list_elem_of_fmap in Hr as (o & -> & Hin).
    unfold live, compact_memory, open_table in Hin. cbn [fst] in Hin. apply list_elem_of_In, filter_In in Hin as [Hin Hd].
    apply in_map_iff in Hin as (rc & <- & Hrc). apply list_elem_of_In in Hrc. rewrite Forall_forall in Hst.
    pose proof (open_rec_kept rc (Hst rc Hrc)) as (Hsq & _ & _ & Hdn & _). rewrite Hdn in Hd. apply negb_true_iff in Hd.
    destruct (saved_settled rc (Hst rc Hrc)) as [He|]; [|congruence]. by exists rc. }
  destruct (lookup_rec seq t) as [rc|]; cbn [carried mbind option_bind].
  - destruct Hold as [Hrc Hsq]. destruct (r_done rc) eqn:Hd.
    + intros i r Hi Hr. apply list_elem_of_lookup_2 in Hi. destruct (Hin r Hi) as (rc' & Hrc' & Hd' & _ & Hs').
      assert (lookup_rec seq t = Some rc) as H1 by by apply lookup_rec_spec; [apply Ho|].
      assert (lookup_rec seq t = Some rc') as H2 by (apply lookup_rec_spec; [apply Ho|split; [done|congruence]]). congruence.
    + rewrite Forall_forall in Hst. destruct (saved_settled rc (Hst rc Hrc)) as [He|]; [|congruence].
      destruct (open_rec_kept rc (Hst rc Hrc)) as (Hos & _ & _ & Hdn & _). split; [|rewrite <-Hsq, <-Hos; done].
      rewrite <-He. apply list_elem_of_In, in_map, filter_In. split; [by apply in_map, list_elem_of_In|]. by rewrite Hdn, Hd.
  - intros i r Hi Hr. apply list_elem_of_lookup_2 in Hi. destruct (Hin r Hi) as (rc & Hrc & _ & _ & Hs').
    apply list_elem_of_lookup_1 in Hrc as [j Hj]. apply (Hold j rc Hj). congruence.
Qed.

Lemma put_bytes n v : Forall byte (put_le n v).
Proof.
  revert v. induction n as [|n IH]; intros v; cbn [put_le]; constructor; [|apply IH].
  unfold byte. change 255 with (Z.ones 8). rewrite Z.land_ones by lia. by apply Z.mod_pos_bound.
Qed.
Definition is_marker (e : entry) : Prop :=
  e_type e ≠ byte_of "P" ∧ 0 ≤ e_seq e ≤ DQ_MAX_SEQ ∧ e_name e = [] ∧ e_payload e = [].
Lemma marker_read e : is_marker e → read_record (raw e).
Proof.
  intros (_ & Hs & Hn & Hp). destruct e as [ty sq nm pl]. cbn in *. subst. split; [done|done|cbn; lia|apply put_bytes|done].
Qed.
Lemma table_of_markers ms : ∀ t, Forall is_marker ms → Forall stored (t_recs t) → Forall stored (t_recs (table_of ms t)).
Proof.
  induction ms as [|e ms IH]; intros t Hm Ht; [done|]. apply Forall_cons in Hm as [He Hm]. cbn [table_of foldl].
  apply IH; [done|]. apply apply_stored; [by apply marker_read|done].
Qed.
Lemma legal_markers last_p ms : Forall is_marker ms → legal last_p ms.
Proof. intros Hm. apply legal_marks. eapply Forall_impl; [exact Hm|]. by intros e (H1 & H2 & _). Qed.

Lemma saved_stored rc : stored rc → stored (saved (open_rec rc)).
Proof.
  intros Hs. destruct (open_rec_kept rc Hs) as (H1 & H2 & H3 & H4 & H5 & H6 & H7). destruct Hs as [Hr [Hn Hl] Hp Hc].
  split; cbn; rewrite ?H2, ?H3; try done. rewrite c_str_idem. split; [done|]. pose proof (len_c_str (r_name rc)). lia.
Qed.

Lemma one_run_spec last_p t ms : well last_p t → Forall is_marker ms →
  ∃ t' last', one_run t ms = Some t' ∧ well last' t' ∧
    ∀ seq, lookup_rec seq t' = foldl (hist seq) (carried (lookup_rec seq t)) ms.
Proof.
  intros Hw Hm. destruct (reopen_entries last_p t Hw) as (es & bs & nx & Hf & Hes & Hl & Ht & _).
  destruct (written_some ms) as [mbs Hmbs].
  { eapply Forall_impl; [exact Hm|]. intros e (_ & _ & -> & ->). done. }
  assert (Hall : written (es ++ ms) = Some (bs ++ mbs)).
  { clear -Hes Hmbs. revert bs Hes. induction es as [|e es IH]; intros bs; cbn [written app]; [by intros [= <-]|].
    destruct (write e); [|done]. cbn [mbind option_bind]. destruct (written es) as [bs'|]; [|done]. intros [= <-].
    rewrite (IH bs' eq_refl). cbn. by rewrite app_assoc. }
  assert (Hlegal : legal 0 (es ++ ms)) by (apply legal_app; [done|by apply legal_markers]).
  destruct (written_some [marker "D" 1]) as [b Hb]; [by repeat constructor|]. cbn [written] in Hb.
  destruct (write (marker "D" 1)) as [b0|] eqn:Hb0; [|done].
  destruct (replay_journal (es ++ ms) (bs ++ mbs) (marker "D" 1) b0 0 true Hall Hlegal Hb0) as (d & Hr & _); [done|apply write_len in Hb0 as [Hb0 _]; unfold len in Hb0; lia|].
  assert (Htab : table_of (es ++ ms) (Tab [] 1) = table_of ms (Tab (map saved (live t)) nx)) by (unfold table_of in *; by rewrite foldl_app, Ht).
  assert (Hone : one_run t ms = Some (table_of (es ++ ms) (Tab [] 1))).
  { unfold one_run. rewrite Hf, Hmbs. cbn [mbind option_bind]. rewrite take_0, app_nil_r, app_assoc in Hr. by rewrite Hr. }
  exists (table_of (es ++ ms) (Tab [] 1)).
  destruct (table_of_hist es 0 0 (Tab [] 1) (proj1 empty_well) Hl) as (_ & last1 & Ho1). rewrite Ht in Ho1.
  destruct (table_of_hist ms 0 last1 _ Ho1 (legal_markers _ _ Hm)) as (_ & last2 & Ho2).
  exists last2. rewrite Htab. split; [by rewrite Hone, Htab|]. split.
  - split; [done|]. apply table_of_markers; [done|]. cbn [t_recs]. apply Forall_forall. intros r Hr'.
    change (map saved (live t)) with (saved <$> live t) in Hr'. apply list_elem_of_fmap in Hr' as (o & -> & Hin).
    unfold live, compact_memory, open_table in Hin. cbn [fst] in Hin. apply list_elem_of_In, filter_In in Hin as [Hin _].
    apply in_map_iff in Hin as (rc & <- & Hrc). apply list_elem_of_In in Hrc. apply saved_stored.
    destruct Hw as [_ Hst]. rewrite Forall_forall in Hst. by apply Hst.
  - intros seq. destruct (table_of_hist ms seq last1 _ Ho1 (legal_markers _ _ Hm)) as (-> & _).
    by rewrite (lookup_saved last_p t nx seq Hw).
Qed.

Lemma hist_S seq o : hist seq o (marker "S" seq) = (λ r, r <| r_inflight := true |>) <$> o.
Proof. unfold hist. cbn [marker e_seq]. rewrite Z.eqb_refl. by destruct o. Qed.
Lemma hist_F seq o : hist seq o (marker "F" seq) = (λ r, r <| r_inflight := false |> <| r_crashes := 0 |>) <$> o.
Proof. unfold hist. cbn [marker e_seq]. rewrite Z.eqb_refl. by destruct o. Qed.

Ltac evaluate_in H := lazymatch type of H with ?l = ?r => let v := eval vm_compute in r in
    let E := fresh in assert (E : l = v) by (transitivity r; [exact H|vm_compute; reflexivity]); clear H; rename E into H end.

(** ** The properties *)

(** C20: A journal gives back what was written to it, whatever a crash left of the last
    write.  Take any history of records a writer makes - each ['P'] numbered above the
    last - and the file they were written to, followed by the first [n] bytes of one
    more: opened, it gives for every number exactly what the history's records say of
    it, its work and the markers after it, and nothing else; no damage is reported,
    unless what is left of the torn record itself holds valid records, which are
    then reported and not applied. *)
Theorem journal_survives_crash es bs e b (n : nat) sized : written es = Some bs → legal 0 es →
  write e = Some b → 0 ≤ e_seq e ≤ DQ_MAX_SEQ → (n < length b)%nat →
  ∃ t d, replay (file_header ++ bs ++ take n b) sized = Some (t, d) ∧
    (∀ seq, lookup_rec seq t = foldl (hist seq) None es) ∧ (d = no_damage ∨ n ≠ 0%nat ∧ sized = true ∧ g_cut d = true).
Proof.
  intros Hes Hl Hw Hs Hn. destruct (replay_journal es bs e b n sized Hes Hl Hw Hs Hn) as (d & Hr & Hd).
  exists (table_of es (Tab [] 1)), d. split; [done|]. split; [|done]. intros seq.
  by destruct (table_of_hist es seq 0 (Tab [] 1) (proj1 empty_well) Hl) as (-> & _).
Qed.

(** C22: Any file that starts with the header opens, in as many turns as it has bytes at
    most, to a table its searches can trust: the numbers rise strictly, none is past the
    bound, [next_seq] is above them all, and the binary search finds a record exactly
    when it is there - whatever the damage. *)
Theorem any_file_opens_in_order f sized : Forall byte f → f = [] ∨ upto DQ_FHDR_LEN f = file_header →
  ∃ t d, replay f sized = Some (t, d) ∧ ascending (t_recs t) ∧
    (∀ i r, t_recs t !! i = Some r → 0 < r_seq r < t_next t) ∧ t_next t ≤ DQ_MAX_SEQ + 1 ∧
    (∀ seq i, find_by_seq (t_recs t) seq = Some i ↔ ∃ r, t_recs t !! i = Some r ∧ r_seq r = seq).
Proof.
  intros Hf Hh. destruct (replay_total f sized Hf Hh) as (t & d & last & Hr & [Ho _]). exists t, d.
  split; [done|]. split; [apply Ho|]. pose proof (o_next _ _ Ho). split; [|split; [lia|]].
  - intros i r Hi. pose proof (o_seq _ _ Ho i r Hi). lia.
  - intros seq i. pose proof (find_by_seq_spec _ seq (o_asc _ _ Ho)) as Hs. split; [intros H1; by rewrite H1 in Hs|].
    intros (r & Hi & Hsq). destruct (find_by_seq _ _) as [j|]; [|by destruct (Hs i r Hi)].
    destruct Hs as (r' & Hj & Hsq'). f_equal. destruct (decide (i = j)) as [|Hne]; [done|]. pose proof (o_asc _ _ Ho) as Ha.
    destruct (decide (i < j)%nat); [specialize (Ha i j r r' ltac:(lia) Hi Hj)|specialize (Ha j i r' r ltac:(lia) Hj Hi)]; lia.
Qed.

(** Past a record that does not verify, replay loses no record it can know.  The
    search in chunks of 4096 bytes finds exactly the first place after it where a record
    stands - a magic and a checksum that verifies, and no stale ['P'] - wherever the
    chunks fall; and it says there is none only when none stands before the end. *)
Theorem resync_finds_first f bad last_p : Forall byte f → 0 ≤ bad →
  match resync f bad (len f) last_p with
  | Some at_ => bad < at_ < len f ∧ stands f at_ (len f) last_p = true ∧
                ∀ x, bad < x < at_ → stands f x (len f) last_p = false
  | None => ∀ x, bad < x < len f → stands f x (len f) last_p = false
  end.
Proof.
  intros Hf Hb. pose proof (resync_spec f bad last_p Hf Hb) as H. destruct (resync _ _ _ _); [|done].
  destruct H as (H1 & H2 & H3 & H4). split; [lia|done].
Qed.

(** C21: Opening a journal, however damaged, leaves one that reads back clean.  The
    compaction that [gptps_dq_open] runs on the table it replayed always finds its
    records within the bounds, and the file it writes opens with no damage to the same
    records: those not closed, with their work, their crash count and their verdict as
    the open left them. *)
Theorem reopened_reads_back f sized sized' t d : Forall byte f → f = [] ∨ upto DQ_FHDR_LEN f = file_header →
  replay f sized = Some (t, d) →
  ∃ f' t', reopened t = Some f' ∧ replay f' sized' = Some (t', no_damage) ∧ t_next t' ≤ t_next t ∧
    ∀ seq, lookup_rec seq t' = carried (lookup_rec seq t).
Proof.
  intros Hf Hh Hr. destruct (replay_total f sized Hf Hh) as (t0 & d0 & last & Hr0 & Hw). rewrite Hr in Hr0. injection Hr0 as <- <-.
  destruct (reopen_entries last t Hw) as (es & bs & nx & Hre & Hes & Hl & Ht & Hnx).
  destruct (write (marker "D" 1)) as [b0|] eqn:Hb0; [|by vm_compute in Hb0].
  destruct (replay_journal es bs (marker "D" 1) b0 0 sized' Hes Hl Hb0) as (d' & Hr' & Hd'); [done|apply write_len in Hb0 as [Hb0 _]; unfold len in Hb0; lia|].
  rewrite take_0, app_nil_r, Ht in Hr'. exists (file_header ++ bs), (Tab (map saved (live t)) nx).
  destruct Hd' as [->|[? _]]; [|done]. split_and!; try done. intros seq. by apply (lookup_saved last).
Qed.

(** C23: A record that kills its process is quarantined at the third death, and one that
    only ran beside it is not.  A record that was running at a crash is recovered after
    the first, resubmitted alone as a suspect after the second, and quarantined when the
    journal is opened after the third; but if one of its attempts ended - an ['F'] after
    its ['S'] - its count starts again. *)
Theorem killer_is_quarantined last_p t seq r : well last_p t → lookup_rec seq t = Some r →
  r_done r = false → r_quarantined r = false → r_inflight r = true → r_crashes r = 0 →
  r_suspect (open_rec r) = false ∧ r_quarantined (open_rec r) = false ∧
  ∃ t1 r1 t2 r2, one_run t [marker "S" seq] = Some t1 ∧ lookup_rec seq t1 = Some r1 ∧
    r_suspect (open_rec r1) = true ∧ r_quarantined (open_rec r1) = false ∧
    one_run t1 [marker "S" seq] = Some t2 ∧ lookup_rec seq t2 = Some r2 ∧ r_quarantined (open_rec r2) = true ∧
    ∃ t' r', one_run t1 [marker "S" seq; marker "F" seq] = Some t' ∧ lookup_rec seq t' = Some r' ∧
      r_crashes r' = 0 ∧ r_suspect (open_rec r') = false ∧ r_quarantined (open_rec r') = false.
Proof.
  intros Hw Hr Hd Hq Hi Hc. pose proof (proj1 Hw) as Ho.
  assert (Hseq : 0 ≤ seq ≤ DQ_MAX_SEQ).
  { apply lookup_rec_spec in Hr as [[i Hl]%list_elem_of_lookup_1 <-]; [|apply Ho]. pose proof (o_seq _ _ Ho i r Hl). pose proof (o_last _ _ Ho). lia. }
  assert (Hms : ∀ ty, ty ≠ "P" → ty = "S" ∨ ty = "F" → is_marker (marker ty seq)) by (intros ty _ [-> | ->]; done).
  destruct (one_run_spec last_p t [marker "S" seq] Hw) as (t1 & l1 & H1 & Hw1 & Hl1); [by repeat constructor; apply Hms; auto|].
  destruct (one_run_spec l1 t1 [marker "S" seq] Hw1) as (t2 & l2 & H2 & Hw2 & Hl2); [by repeat constructor; apply Hms; auto|].
  destruct (one_run_spec l1 t1 [marker "S" seq; marker "F" seq] Hw1) as (t' & l' & H' & Hw' & Hl'); [by repeat constructor; apply Hms; auto|].
  specialize (Hl1 seq). specialize (Hl2 seq). specialize (Hl' seq). rewrite Hr in Hl1.
  cbn [foldl] in Hl1, Hl2, Hl'. rewrite hist_S in Hl1. rewrite Hl1, hist_S in Hl2. rewrite Hl1, hist_F, hist_S in Hl'.
  destruct r as [sq hd nm pl dn qr fl sp cr cm rt df]. cbn in Hd, Hq, Hi, Hc. subst.
  evaluate_in Hl2. evaluate_in Hl'. evaluate_in Hl1.
  split; [done|]. split; [done|]. exists t1. eexists. exists t2. eexists. split; [exact H1|]. split; [exact Hl1|].
  split; [done|]. split; [done|]. split; [exact H2|]. split; [exact Hl2|]. split; [done|].
  exists t'. eexists. split; [exact H'|]. split; [exact Hl'|]. done.
Qed.

(** ** On a small journal *)

Definition work (seq : Z) : entry := Entry (byte_of "P") seq [114; 117; 110] [1; 2; 3].
Definition small : list entry := [work 1; work 2; marker "S" 1; marker "D" 1; marker "S" 2].
Definition small_bytes : list Z := default [] (written small).
(** The same with a bit of the first record turned over. *)
Definition damaged_file : list Z := alter (Z.lxor 4) 30%nat (file_header ++ small_bytes).
Definition bytes_of (l : list Z) : bool := forallb (λ b, (0 <=? b) && (b <? 256)) l.
Lemma bytes_of_ok l : bytes_of l = true → Forall byte l.
Proof.
  intros H. apply Forall_forall. intros b Hb. apply list_elem_of_In in Hb. unfold bytes_of in H.
  rewrite forallb_forall in H. specialize (H b Hb). apply andb_true_iff in H as [H1 H2]. unfold byte.
  apply Z.leb_le in H1. by apply Z.ltb_lt in H2.
Qed.
Lemma small_legal : legal 0 small.
Proof. cbn. split_and!; try done; unfold DQ_MAX_SEQ; lia. Qed.

Lemma journal_survives_crash_witness :
  written small = Some small_bytes ∧ legal 0 small ∧
  ∃ b t d, write (work 3) = Some b ∧ replay (file_header ++ small_bytes ++ take 25 b) true = Some (t, d) ∧
    lookup_rec 2 t = Some (new_rec 2 [114; 117; 110] [1; 2; 3] <| r_inflight := true |>) ∧ lookup_rec 3 t = None.
Proof.
  split; [by vm_compute|]. split; [exact small_legal|]. destruct (write (work 3)) as [b|] eqn:Hb; [|by vm_compute in Hb].
  destruct (journal_survives_crash small small_bytes (work 3) b 25 true) as (t & d & Hr & Hl & _).
  - by vm_compute.
  - exact small_legal.
  - exact Hb.
  - by cbn.
  - vm_compute in Hb. injection Hb as <-. cbn. lia.
  - exists b, t, d. split; [reflexivity|]. split; [exact Hr|]. split; rewrite Hl; by vm_compute.
Defined.
Lemma any_file_opens_in_order_witness :
  Forall byte damaged_file ∧ upto DQ_FHDR_LEN damaged_file = file_header ∧
  ∃ t d, replay damaged_file true = Some (t, d) ∧ ascending (t_recs t).
Proof.
  assert (Hb : Forall byte damaged_file) by (apply bytes_of_ok; by vm_compute).
  assert (Hh : upto DQ_FHDR_LEN damaged_file = file_header) by by vm_compute.
  split; [exact Hb|]. split; [exact Hh|].
  destruct (any_file_opens_in_order damaged_file true Hb (or_intror Hh)) as (t & d & Hr & Ha & _).
  exists t, d. split; [exact Hr|exact Ha].
Defined.
Lemma resync_finds_first_witness : resync damaged_file 8 (len damaged_file) 0 = Some 38 ∧
  stands damaged_file 38 (len damaged_file) 0 = true.
Proof.
  assert (Hb : Forall byte damaged_file) by (apply bytes_of_ok; by vm_compute).
  pose proof (resync_finds_first damaged_file 8 0 Hb ltac:(lia)) as H.
  assert (Hr : resync damaged_file 8 (len damaged_file) 0 = Some 38) by by vm_compute.
  split; [exact Hr|]. rewrite Hr in H. apply H.
Defined.
Lemma reopened_reads_back_witness : ∃ t d f' t', replay damaged_file true = Some (t, d) ∧ reopened t = Some f' ∧
  replay f' true = Some (t', no_damage) ∧ lookup_rec 2 t' = carried (lookup_rec 2 t) ∧ is_Some (lookup_rec 2 t').
Proof.
  assert (Hb : Forall byte damaged_file) by (apply bytes_of_ok; by vm_compute).
  assert (Hh : upto DQ_FHDR_LEN damaged_file = file_header) by by vm_compute.
  destruct (replay damaged_file true) as [[t d]|] eqn:Hr; [|by vm_compute in Hr].
  destruct (reopened_reads_back damaged_file true true t d Hb (or_intror Hh) Hr) as (f' & t' & Hf & Hr' & _ & Hl).
  exists t, d, f', t'. split; [reflexivity|]. split; [exact Hf|]. split; [exact Hr'|]. split; [apply Hl|]. rewrite Hl.
  vm_compute in Hr. injection Hr as <- <-. vm_compute. by eexists.
Defined.
Lemma killer_is_quarantined_witness : ∃ t r t1 t2 r2, lookup_rec 2 t = Some r ∧ r_inflight r = true ∧
  one_run t [marker "S" 2] = Some t1 ∧ one_run t1 [marker "S" 2] = Some t2 ∧ lookup_rec 2 t2 = Some r2 ∧
  r_quarantined (open_rec r2) = true.
Proof.
  set (t := table_of small (Tab [] 1)). assert (Hw : ∃ last, well last t).
  { destruct (replay_total (file_header ++ small_bytes) true) as (t' & d & last & Hr & Hw).
    - apply bytes_of_ok. by vm_compute.
    - right. by vm_compute.
    - exists last. replace t with t'; [exact Hw|]. vm_compute in Hr. injection Hr as <- _. by vm_compute. }
  destruct Hw as [last Hw]. destruct (lookup_rec 2 t) as [r|] eqn:Hl; [|by vm_compute in Hl].
  assert (Hr : r = new_rec 2 [114; 117; 110] [1; 2; 3] <| r_inflight := true |>) by (vm_compute in Hl; by injection Hl as <-).
  destruct (killer_is_quarantined last t 2 r Hw Hl) as (_ & _ & t1 & r1 & t2 & r2 & H1 & _ & _ & _ & H2 & H3 & H4 & _); try (by rewrite Hr).
  exists t, r, t1, t2, r2. split; [exact Hl|]. split; [by rewrite Hr|].
  split; [exact H1|]. split; [exact H2|]. split; [exact H3|exact H4].
Defined.

End Durable.
