(* ===== verification/DurableQueue.v ===== *)
(** * The durable queue of [src/addons/gptps_durable_queue.c]

    The record table in memory and the sections that change it: submit and retraction,
    each in two sections around the wait for its write, resubmission, the observer of the
    engine's events, recovery, the drain of the quarantine, compaction.  A section runs
    under [mu], and gives the records it appends to the journal; what becomes of them is
    Module DurableLog's, below.  What the engine answers is an argument, and so is whether there was
    memory ([room]).  The index from handles to seqs is a finite map here. *)

From S2P Require Import Prelude Engine Journal.

Module DurableQueue.
Import Engine Journal.

(** [struct gptps_dq]: the half [mu] guards. *)
Record dq := Dq { q_t : table; q_pending : Z; q_trial : Z; q_slots : gmap Z Z }.
#[export] Instance eta_dq : Eta dq := λ q, Dq (q_t q) (q_pending q) (q_trial q) (q_slots q).

Definition recs (q : dq) : list dq_rec := t_recs (q_t q).
Definition set_rec (i : nat) (f : dq_rec → dq_rec) (q : dq) : dq := q <| q_t ::= λ t, t <| t_recs ::= alter f i |> |>.
Definition closed (rc : dq_rec) : bool := r_done rc || r_quarantined rc.
Definition marker (type : string) (seq : Z) : entry := Entry (byte_of type) seq [] [].

Definition find_open (h : Z) (q : dq) : option (nat * dq_rec) :=
  if h =? 0 then None
  else
    seq ← q_slots q !! h;
    i ← find_by_seq (recs q) seq;
    rc ← recs q !! i;
    if closed rc then None else Some (i, rc).

(** [if (dq->pending) dq->pending -= 1]. *)
Definition less_pending (q : dq) : dq := q <| q_pending ::= λ n, if n =? 0 then n else n - 1 |>.

(** ** Verdicts *)

(** [quarantine]: the verdict is ['Q'], not ['D']. *)
Definition close_rec (i : nat) (rc : dq_rec) (quarantine : bool) (q : dq) : dq * list entry :=
  let q := set_rec i (λ r, if quarantine then r <| r_quarantined := true |> <| r_inflight := false |>
                           else r <| r_done := true |> <| r_inflight := false |>) q in
  let q := q <| q_slots ::= delete (r_handle rc) |> in
  (less_pending q, [marker (if quarantine then "Q" else "D") (r_seq rc)]).
Definition close_or_defer (i : nat) (rc : dq_rec) (quarantine : bool) (q : dq) : dq * list entry :=
  if r_retracting rc =? 0 then close_rec i rc quarantine q
  else (set_rec i (λ r, r <| r_deferred := byte_of (if quarantine then "Q" else "D") |>) q, []).

(** ** Resubmission *)

(** What the engine answers to [gptps_submit]: the status and the handle. *)
Definition answer : Type := status * Z.
Definition resubmit (room : bool) (a : answer) (i : nat) (rc : dq_rec) (q : dq) : status * dq :=
  if room then
    match a with
    | (GPTPS_OK, h) => (GPTPS_OK, set_rec i (λ r, r <| r_handle := h |>) q <| q_slots ::= <[h := r_seq rc]> |>)
    | (st, _) => (st, q)
    end
  else (GPTPS_E_NOMEM, q).

(** The loop of [trial_next] from the record [i]; [ans i] is the answer to its submit. *)
Fixpoint trial_loop (n i : nat) (ans : nat → bool * answer) (q : dq) : dq * Z :=
  match n with
  | O => (q, 0)
  | S n =>
      match recs q !! i with
      | None => (q, 0)
      | Some rc =>
          if closed rc || negb (r_suspect rc) || negb (r_handle rc =? 0) then trial_loop n (S i) ans q
          else
            let '(st, q') := resubmit (ans i).1 (ans i).2 i rc q in
            if decide (st = GPTPS_OK) then (q' <| q_trial := r_seq rc |>, 1) else trial_loop n (S i) ans q'
      end
  end.
Definition trial_next (ans : nat → bool * answer) (q : dq) : dq * Z := trial_loop (length (recs q)) 0 ans q.

Fixpoint recover_loop (n i : nat) (ans : nat → bool * answer) (q : dq) (count : Z) : dq * Z :=
  match n with
  | O => (q, count)
  | S n =>
      match recs q !! i with
      | None => (q, count)
      | Some rc =>
          if closed rc || negb (r_handle rc =? 0) || r_suspect rc || r_committing rc
          then recover_loop n (S i) ans q count
          else
            let '(st, q) := resubmit (ans i).1 (ans i).2 i rc q in
            recover_loop n (S i) ans q (if decide (st = GPTPS_OK) then count + 1 else count)
      end
  end.
(** [gptps_dq_recover]; [ans2]: the answers to the submits of [trial_next]. *)
Definition recover (ans ans2 : nat → bool * answer) (q : dq) : dq * Z :=
  let '(q, count) := recover_loop (length (recs q)) 0 ans q 0 in
  if q_trial q =? 0 then let '(q, n) := trial_next ans2 q in (q, count + n) else (q, count).

(** ** The observer *)

Definition has_flag (flags f : Z) : bool := negb (Z.land flags f =? 0).

Definition on_event (k : event_kind) (h : Z) (st : status) (flags : Z) (ans : nat → bool * answer) (q : dq)
    : dq * list entry :=
  if decide (k = EV_QUEUED) then (q, [])
  else if decide (k = EV_RETRIED) then (q, [])
  else match find_open h q with
  | None => (q, [])
  | Some (i, rc) =>
      let on_trial := r_seq rc =? q_trial q in
      let '(q, ms, over) :=
        match k with
        | EV_STARTED => (set_rec i (λ r, r <| r_inflight := true |>) q, [marker "S" (r_seq rc)], false)
        | EV_FAILED =>
            let '(q, ms) :=
              if r_inflight rc
              then (set_rec i (λ r, r <| r_inflight := false |> <| r_crashes := 0 |> <| r_suspect := false |>) q,
                    [marker "F" (r_seq rc)])
              else (q, []) in
            let '(q, ms2) :=
              if decide (st = GPTPS_E_CANCELLED) then
                if has_flag flags EV_FLAG_SELF_CANCELLED then close_or_defer i rc false q else (q, [])
              else (q, []) in
            (q, ms ++ ms2, on_trial)
        | EV_FINISHED => let '(q, ms) := close_or_defer i rc false q in (q, ms, on_trial)
        | EV_DEAD_LETTERED | EV_DROPPED =>
            let '(q, ms) :=
              if has_flag flags EV_FLAG_SHUTDOWN then (q, [])
              else close_or_defer i rc (bool_decide (k = EV_DEAD_LETTERED)) q in
            (q, ms, on_trial)
        | _ => (q, [], false)
        end in
      if (over : bool) then ((trial_next ans (q <| q_trial := 0 |>)).1, ms) else (q, ms)
  end.

(** ** Submit *)

(** The checks of a task's name and payload, which are replay's bounds. *)
Definition fits_journal (name payload : list Z) : bool :=
  (len payload <=? DQ_MAX_PAYLOAD) && (len name <=? DQ_MAX_NAME).
Definition push_committing (name payload : list Z) (q : dq) : dq :=
  let seq := t_next (q_t q) in
  q <| q_t ::= λ t, t <| t_recs ::= λ l, l ++ [new_rec seq name payload <| r_committing := true |>] |>
                      <| t_next := u64 (seq + 1) |> |>.

(** [gptps_dq_submit] to its write: the seq it took and the ['P'] to make durable.  There
    is memory for the copies of the work ([copied]), and for a record ([room]), or not. *)
Definition submit_begin (name payload : list Z) (copied room : bool) (q : dq) : (status + Z) * dq * list entry :=
  if negb (fits_journal name payload) then (inl GPTPS_E_INVAL, q, [])
  else if negb copied then (inl GPTPS_E_NOMEM, q, [])
  else if DQ_MAX_SEQ <? t_next (q_t q) then (inl GPTPS_E_FULL, q, [])
  else if negb room then (inl GPTPS_E_NOMEM, q, [])
  else
    let seq := t_next (q_t q) in
    (inr seq, push_committing name payload q, [Entry (byte_of "P") seq name payload]).
(** What follows the wait, for one record: not durable, accepted, or refused. *)
Definition commit_rec (seq : Z) (durable : bool) (a : answer) (q : dq) : status * dq * list entry :=
  match find_by_seq (recs q) seq with
  | None => (GPTPS_E_IO, q, [])
  | Some i =>
      let q := set_rec i (λ r, r <| r_committing := false |>) q in
      if negb durable then (GPTPS_E_IO, set_rec i (λ r, r <| r_done := true |>) q, [])
      else
        let q := q <| q_pending ::= λ n, n + 1 |> in
        match a with
        | (GPTPS_OK, h) =>
            (GPTPS_OK, set_rec i (λ r, r <| r_handle := h |>) q <| q_slots ::= <[h := seq]> |>, [])
        | (st, _) => (st, less_pending (set_rec i (λ r, r <| r_done := true |>) q), [marker "D" seq])
        end
  end.

(** [gptps_dq_submit_batch]. *)
Fixpoint push_batch (items : list (list Z * list Z)) (q : dq) : dq * list entry :=
  match items with
  | [] => (q, [])
  | (name, payload) :: items =>
      let seq := t_next (q_t q) in
      let '(q, es) := push_batch items (push_committing name payload q) in
      (q, Entry (byte_of "P") seq name payload :: es)
  end.
Definition batch_begin (items : list (list Z * list Z)) (copied room : bool) (q : dq) : (status + Z) * dq * list entry :=
  if len items =? 0 then (inl GPTPS_OK, q, [])
  else if negb (forallb (λ it, fits_journal it.1 it.2) items) then (inl GPTPS_E_INVAL, q, [])
  else if negb copied then (inl GPTPS_E_NOMEM, q, [])
  else if (DQ_MAX_SEQ <? t_next (q_t q)) || (DQ_MAX_SEQ - t_next (q_t q) <? u64 (len items - 1))
  then (inl GPTPS_E_FULL, q, [])
  else if negb room then (inl GPTPS_E_NOMEM, q, [])
  else let first := t_next (q_t q) in let '(q, es) := push_batch items q in (inr first, q, es).
(** The loop over the items, from the seq [first]; [ans] is what the engine answers. *)
Fixpoint batch_end (n : nat) (first : Z) (durable : bool) (ans : Z → answer) (q : dq) : list status * dq * list entry :=
  match n with
  | O => ([], q, [])
  | S n =>
      let '(st, q, ms) := commit_rec first durable (ans first) q in
      let '(sts, q, ms') := batch_end n (first + 1) durable ans q in
      (st :: sts, q, ms ++ ms')
  end.

(** ** Retraction *)

(** [gptps_dq_cancel] to its write: the seq, and the ['D'] to make durable. *)
Definition cancel_begin (h : Z) (q : dq) : (status + Z) * dq * list entry :=
  if h =? 0 then (inl GPTPS_E_INVAL, q, [])
  else match find_open h q with
  | None => (inl GPTPS_E_NOTFOUND, q, [])
  | Some (i, rc) =>
      (inr (r_seq rc), set_rec i (λ r, r <| r_retracting ::= λ n, n + 1 |>) q, [marker "D" (r_seq rc)])
  end.
(** What follows the wait; the boolean is [durable] at the end: the engine is then told. *)
Definition cancel_end (seq : Z) (durable : bool) (ans : nat → bool * answer) (q : dq) : bool * dq * list entry :=
  match (i ← find_by_seq (recs q) seq; rc ← recs q !! i; Some (i, rc)) with
  | None => (true, q, [])
  | Some (i, rc) =>
      let rc := rc <| r_retracting ::= λ n, n - 1 |> in
      let q := set_rec i (λ r, r <| r_retracting ::= λ n, n - 1 |>) q in
      if durable then
        let q := set_rec i (λ r, r <| r_deferred := 0 |>) q in
        if closed rc then (true, q, [])
        else
          let q := set_rec i (λ r, r <| r_done := true |> <| r_inflight := false |>) q in
          let q := less_pending (q <| q_slots ::= delete (r_handle rc) |>) in
          if r_seq rc =? q_trial q then (true, (trial_next ans (q <| q_trial := 0 |>)).1, []) else (true, q, [])
      else if r_done rc then (true, q, [])
      else if (r_retracting rc =? 0) && negb (r_deferred rc =? 0) then
        let q := set_rec i (λ r, r <| r_deferred := 0 |>) q in
        let '(q, ms) := close_rec i rc (r_deferred rc =? byte_of "Q") q in (false, q, ms)
      else (false, q, [])
  end.

(** ** Counts, the quarantine, compaction *)

Definition pending (q : dq) : Z := q_pending q.
Definition quarantined (q : dq) : Z := len (List.filter r_quarantined (recs q)).
(** [gptps_dq_drain_quarantine_ex] before its compaction: what the callback is shown. *)
Definition drain (q : dq) : list (list Z * list Z) * dq :=
  (map (λ rc, (r_name rc, r_payload rc)) (List.filter r_quarantined (recs q)),
   q <| q_t ::= λ t, t <| t_recs ::= map (λ rc, if r_quarantined rc then rc <| r_quarantined := false |> <| r_done := true |> else rc) |> |>).
(** What a compaction that succeeded leaves in memory. *)
Definition compacted (q : dq) : dq := q <| q_t ::= λ t, t <| t_recs ::= compact_memory |> |>.
(** What [gptps_dq_open] makes of the table it replayed. *)
Definition opened (t : table) : dq :=
  let '(l, n) := open_table (t_recs t) in Dq (t <| t_recs := compact_memory l |>) n 0 ∅.

End DurableQueue.

(** * The durable queue and its journal over time

    A [world] is the queue's memory, the records its journal file holds, how many of them
    are known to be on disk, and the durable writes whose callers are still waiting.  A
    step is a section of a call, with what became of its writes, or the end of an fsync:
    what the group commit lets the rest of the queue rely on. *)

Module DurableLog.
Import Engine Journal DurableQueue.

(** ** Durable writes in flight *)

(** [WAITING end_]: its last record is the [end_]-th of the file. *)
Inductive wstate := WAITING (end_ : nat) | DURABLE | FAILED.
(** A [dq_waiter]: a submit (['P'] for the seqs from [o_first] on) or a retraction. *)
Record op := Op { o_cancel : bool; o_first : Z; o_count : nat; o_state : wstate }.
Definition covers (cancel : bool) (s : Z) (o : op) : Prop :=
  o_cancel o = cancel ∧ o_first o ≤ s < o_first o + Z.of_nat (o_count o).
#[export] Instance covers_dec c s o : Decision (covers c s o).
Proof. unfold covers. apply _. Defined.
(** Whether [waiter_state] finds the write of [s] durable. *)
Definition durable_op (cancel : bool) (ops : list op) (s : Z) : bool :=
  existsb (λ o, bool_decide (covers cancel s o) && match o_state o with DURABLE => true | _ => false end) ops.

Record world := W { w_q : dq; w_es : list entry; w_synced : nat; w_ops : list op; w_broken : bool;
  w_gone : list Z;      (* retractions whose caller was told so *)
  w_lost : list Z }.    (* submits whose caller was told GPTPS_E_IO *)

(** ** The sections that begin a durable write *)

Inductive begun (q : dq) : dq → list entry → bool → Z → Prop :=
  | begun_submit name payload copied room first q' es :
      submit_begin name payload copied room q = (inr first, q', es) → begun q q' es false first
  | begun_batch items copied room first q' es : len items < 2 ^ 64 →
      batch_begin items copied room q = (inr first, q', es) → begun q q' es false first
  | begun_cancel h seq q' es : cancel_begin h q = (inr seq, q', es) → begun q q' es true seq.

(** ** Steps *)

(** Markers appended: one whose write fails is lost, and a broken queue writes none. *)
Definition appended (broken : bool) (ms kept : list entry) : Prop :=
  kept `sublist_of` ms ∧ (broken = true → kept = []).

Definition settle_ok (k : nat) (o : op) : op :=
  match o_state o with
  | WAITING e => if decide (e ≤ k)%nat then Op (o_cancel o) (o_first o) (o_count o) DURABLE else o
  | _ => o
  end.
Definition settle_failed (o : op) : op :=
  match o_state o with WAITING _ => Op (o_cancel o) (o_first o) (o_count o) FAILED | _ => o end.
Definition unsplit (k : nat) (o : op) : Prop :=
  match o_state o with WAITING e => (e ≤ k ∨ k + o_count o ≤ e)%nat | _ => True end.
Definition waiting (o : op) : bool := match o_state o with WAITING _ => true | _ => false end.
Definition settled_as (o : op) (durable : bool) : Prop := o_state o = if durable then DURABLE else FAILED.

(** What the engine answers to submits: handles never issued before, none of them zero. *)
Definition fresh (q : dq) (h : Z) : Prop := h ≠ 0 ∧ ∀ i r, recs q !! i = Some r → r_handle r ≠ h.
Definition honest (q : dq) (ans : nat → bool * answer) : Prop :=
  ∀ i h, (ans i).2 = (GPTPS_OK, h) → fresh q h ∧ ∀ j, (ans j).2 = (GPTPS_OK, h) → j = i.
Definition honest_batch (q : dq) (ans : Z → answer) : Prop :=
  ∀ s h, ans s = (GPTPS_OK, h) → fresh q h ∧ ∀ s', ans s' = (GPTPS_OK, h) → s' = s.

Inductive step : world → world → Prop :=
  | st_written q es sy ops gone lost q' new c first : begun q q' new c first →
      step (W q es sy ops false gone lost)
           (W q' (es ++ new) sy (Op c first (length new) (WAITING (length (es ++ new))) :: ops) false gone lost)
  (** the write failed: [left] is what could not be taken back out, which breaks the queue *)
  | st_unwritten q es sy ops broken gone lost q' new left c first : begun q q' new c first → left `prefix_of` new →
      step (W q es sy ops broken gone lost)
           (W q' (es ++ left) sy (Op c first (length new) FAILED :: ops)
              (broken || negb (bool_decide (left = []))) gone lost)
  (** an fsync got [k] records to disk: whole writes, since it ends where a write did *)
  | st_synced q es sy ops broken gone lost k : (sy ≤ k ≤ length es)%nat → Forall (unsplit k) ops →
      step (W q es sy ops broken gone lost) (W q es k (map (settle_ok k) ops) broken gone lost)
  | st_cut q es sy ops broken gone lost :
      step (W q es sy ops broken gone lost) (W q (take sy es) sy (map settle_failed ops) broken gone lost)
  | st_uncut q es sy ops broken gone lost :
      step (W q es sy ops broken gone lost) (W q es sy (map settle_failed ops) true gone lost)
  | st_committed q es sy ops1 o ops2 broken gone lost durable ans kept : o_cancel o = false → settled_as o durable →
      honest_batch q ans →
      let r := batch_end (o_count o) (o_first o) durable ans q in appended broken r.2 kept →
      step (W q es sy (ops1 ++ o :: ops2) broken gone lost)
           (W r.1.2 (es ++ kept) sy (ops1 ++ ops2) broken gone
              ((if durable then [] else seqZ (o_first o) (Z.of_nat (o_count o))) ++ lost))
  | st_retracted q es sy ops1 o ops2 broken gone lost durable ans kept : o_cancel o = true → settled_as o durable →
      honest q ans →
      let r := cancel_end (o_first o) durable ans q in appended broken r.2 kept →
      step (W q es sy (ops1 ++ o :: ops2) broken gone lost)
           (W r.1.2 (es ++ kept) sy (ops1 ++ ops2) broken (if r.1.1 then o_first o :: gone else gone) lost)
  | st_event q es sy ops broken gone lost k h st flags ans kept : honest q ans →
      let r := on_event k h st flags ans q in appended broken r.2 kept →
      step (W q es sy ops broken gone lost) (W r.1 (es ++ kept) sy ops broken gone lost)
  | st_recover q es sy ops broken gone lost ans ans2 : honest q ans →
      let q1 := (recover_loop (length (recs q)) 0 ans q 0).1 in honest q1 ans2 →
      step (W q es sy ops broken gone lost) (W (recover ans ans2 q).1 es sy ops broken gone lost)
  | st_drain q es sy ops broken gone lost :
      step (W q es sy ops broken gone lost) (W (drain q).2 es sy ops broken gone lost)
  (** every write settled; [reopened]: the new journal could be opened for appending *)
  | st_compact q es sy ops broken gone lost (reopened : bool) : forallb (λ o, negb (waiting o)) ops = true →
      let es' := rewrite_entries (durable_op false ops) (durable_op true ops) (recs q) in
      is_Some (written es') →
      step (W q es sy ops broken gone lost) (W (compacted q) es' (length es') ops (negb reopened) gone lost).

(** The queue as [gptps_dq_open] leaves it, on a journal that replayed to [t]. *)
Definition started (t : table) : world :=
  let es := rewrite_entries (λ _, false) (λ _, false) (open_table (t_recs t)).1 in
  W (opened t) es (length es) [] false [] [].
Definition reachable (t : table) (w : world) : Prop := rtc step (started t) w.

(** What a crash leaves of the journal file: every record known to be on disk, as many of
    the others as got there, and the first bytes of one more. *)
Definition crashed (w : world) (f : list Z) : Prop := ∃ k bs e b n,
  (w_synced w ≤ k ≤ length (w_es w))%nat ∧ written (take k (w_es w)) = Some bs ∧
  write e = Some b ∧ 0 ≤ e_seq e ≤ DQ_MAX_SEQ ∧ (n < length b)%nat ∧ f = file_header ++ bs ++ take n b.

End DurableLog.
