(* ===== verification/DurableFacts.v ===== *)
(** * The invariant of the durable queue's memory

    The table through its lookup by seq, the index and the count of pending records as
    the table says, the writes in flight as the records' flags say; each section keeps
    it. *)

From S2P Require Import Prelude Engine Journal JournalFacts ReplayFacts DurableQueue.

Module DurableFacts.
Import Engine Journal JournalFacts ReplayFacts DurableQueue DurableLog.

(** ** Counting in lists *)

Lemma count_alter {A} (P : A → bool) (f : A → A) i l x : l !! i = Some x →
  (length (List.filter P (alter f i l)) + (if P x then 1 else 0) = length (List.filter P l) + (if P (f x) then 1 else 0))%nat.
Proof.
  revert i. induction l as [|y l IH]; intros [|i] H; try done.
  - injection H as ->. cbn. destruct (P x), (P (f x)); cbn; lia.
  - specialize (IH i H). cbn. fold (alter (M := list A) f i l). destruct (P y); cbn; lia.
Qed.

(** ** The table by seq *)

Definition at_seq (q : dq) (s : Z) : option dq_rec := lookup_rec s (q_t q).
Definition keeps_seq (f : dq_rec → dq_rec) : Prop := ∀ r, r_seq (f r) = r_seq r.

Lemma at_seq_lookup q s i r : ascending (recs q) → recs q !! i = Some r → r_seq r = s →
  at_seq q s = Some r ∧ find_by_seq (recs q) s = Some i.
Proof.
  intros Ha Hi <-. split.
  - apply lookup_rec_spec; [done|]. split; [by eapply list_elem_of_lookup_2|done].
  - pose proof (find_by_seq_spec _ (r_seq r) Ha) as Hf. destruct (find_by_seq _ _) as [j|]; [|by destruct (Hf i r Hi)].
    destruct Hf as (r' & Hj & Hs). f_equal. destruct (decide (i = j)) as [|Hne]; [done|].
    destruct (decide (i < j)%nat); [specialize (Ha i j r r' ltac:(lia) Hi Hj)|specialize (Ha j i r' r ltac:(lia) Hj Hi)]; lia.
Qed.
Lemma at_seq_Some q s r : ascending (recs q) → at_seq q s = Some r →
  ∃ i, recs q !! i = Some r ∧ r_seq r = s ∧ find_by_seq (recs q) s = Some i.
Proof.
  intros Ha H. pose proof H as H'. apply lookup_rec_spec in H as [[i Hi]%list_elem_of_lookup_1 Hs]; [|done].
  exists i. split; [done|]. split; [done|]. by apply (at_seq_lookup q s i r).
Qed.
Lemma recs_set_rec i f q : recs (set_rec i f q) = alter f i (recs q).
Proof. done. Qed.
Lemma at_seq_set q i f rc s : ascending (recs q) → keeps_seq f → recs q !! i = Some rc →
  at_seq (set_rec i f q) s = if decide (s = r_seq rc) then Some (f rc) else at_seq q s.
Proof.
  intros Ha Hf Hi. assert (Ha' : ascending (recs (set_rec i f q))) by by apply ascending_alter.
  assert (Hi' : recs (set_rec i f q) !! i = Some (f rc)) by (rewrite recs_set_rec, list_lookup_alter_eq; by rewrite Hi).
  case_decide as Hs; [apply (at_seq_lookup _ s i); [done|done|by rewrite Hf]|]. destruct (at_seq q s) as [r|] eqn:Hr.
  - apply at_seq_Some in Hr as (j & Hj & Hrs & _); [|done]. apply (at_seq_lookup _ s j r Ha'); [|done].
    rewrite recs_set_rec, list_lookup_alter_ne; [done|]. intros ->. congruence.
  - destruct (at_seq (set_rec i f q) s) as [r|] eqn:Hr'; [|done].
    apply at_seq_Some in Hr' as (j & Hj & Hrs & _); [|done]. apply alter_seqs in Hj as (r' & Hj & Hs'); [|done].
    destruct (at_seq_lookup q s j r' Ha Hj) as [H _]; [congruence|]. congruence.
Qed.

(** ** Writes in flight *)

Definition flights (c : bool) (s : Z) (ops : list op) : nat := length (filter (covers c s) ops).

Lemma flights_cons c s o ops : flights c s (o :: ops) = ((if decide (covers c s o) then 1 else 0) + flights c s ops)%nat.
Proof. unfold flights. rewrite filter_cons. by destruct (decide (covers c s o)). Qed.
Lemma flights_app c s ops1 ops2 : flights c s (ops1 ++ ops2) = (flights c s ops1 + flights c s ops2)%nat.
Proof. unfold flights. by rewrite filter_app, length_app. Qed.
Lemma flights_settle c s ops g : (∀ o, o_cancel (g o) = o_cancel o ∧ o_first (g o) = o_first o ∧ o_count (g o) = o_count o) →
  flights c s (map g ops) = flights c s ops.
Proof.
  intros Hg. induction ops as [|o ops IH]; [done|]. cbn [map]. rewrite !flights_cons, IH. f_equal.
  destruct (Hg o) as (H1 & H2 & H3). destruct (decide (covers c s (g o))), (decide (covers c s o)); unfold covers in *; rewrite H1, H2, H3 in *; tauto.
Qed.

(** ** The invariant *)

(** Counted in [pending]. *)
Definition counted (rc : dq_rec) : bool := negb (closed rc) && negb (r_committing rc).

Definition within (next : Z) (o : op) : Prop := 0 < o_first o ∧ o_first o + Z.of_nat (o_count o) ≤ next.

Record memory (q : dq) (ops : list op) : Prop := Memory {
  m_ops : Forall (within (t_next (q_t q))) ops;
  m_asc : ascending (recs q);
  m_seq : ∀ s r, at_seq q s = Some r → 0 < s < t_next (q_t q);
  m_next : 1 ≤ t_next (q_t q) ≤ DQ_MAX_SEQ + 1;
  m_pending : q_pending q = len (List.filter counted (recs q));
  m_slots : ∀ h s, q_slots q !! h = Some s ↔ h ≠ 0 ∧ ∃ r, at_seq q s = Some r ∧ r_handle r = h ∧ closed r = false;
  m_commit : ∀ s r, at_seq q s = Some r → r_committing r = true → closed r = false ∧ r_handle r = 0 ∧ r_suspect r = false ∧ r_retracting r = 0;
  m_retract : ∀ s r, at_seq q s = Some r → r_retracting r = Z.of_nat (flights true s ops) ∧
                (r_retracting r ≠ 0 → r_quarantined r = false);
  m_submit : ∀ s, flights false s ops = match at_seq q s with Some r => if r_committing r then 1 else 0 | None => 0 end%nat }.

(** One record changed, and the index, the count and the writes in flight with it. *)
Lemma memory_update q ops i rc f q' ops' : memory q ops → recs q !! i = Some rc → keeps_seq f →
  q_t q' = q_t (set_rec i f q) →
  q_pending q' = q_pending q + (if counted (f rc) then 1 else 0) - (if counted rc then 1 else 0) →
  (∀ h s, q_slots q' !! h = Some s ↔
     if decide (s = r_seq rc) then h ≠ 0 ∧ r_handle (f rc) = h ∧ closed (f rc) = false else q_slots q !! h = Some s) →
  (r_committing (f rc) = true → closed (f rc) = false ∧ r_handle (f rc) = 0 ∧ r_suspect (f rc) = false ∧ r_retracting (f rc) = 0) →
  r_retracting (f rc) = Z.of_nat (flights true (r_seq rc) ops') →
  (r_retracting (f rc) ≠ 0 → r_quarantined (f rc) = false) →
  flights false (r_seq rc) ops' = (if r_committing (f rc) then 1 else 0)%nat →
  (∀ c s, s ≠ r_seq rc → flights c s ops' = flights c s ops) →
  Forall (within (t_next (q_t q))) ops' →
  memory q' ops'.
Proof.
  intros [Ho Ha Hs Hn Hp Hsl Hc Hr Hsub] Hi Hf Ht Hp' Hsl' Hc' Hr1 Hr2 Hsub' Hother Hw.
  assert (Hrecs : recs q' = alter f i (recs q)) by (unfold recs; by rewrite Ht).
  assert (Hat : ∀ s, at_seq q' s = if decide (s = r_seq rc) then Some (f rc) else at_seq q s).
  { intros s. rewrite <-(at_seq_set q i f rc s Ha Hf Hi). unfold at_seq. by rewrite Ht. }
  assert (Hrc : at_seq q (r_seq rc) = Some rc) by by apply (at_seq_lookup q _ i).
  assert (Hnext : t_next (q_t q') = t_next (q_t q)) by by rewrite Ht.
  split.
  - by rewrite Hnext.
  - rewrite Hrecs. by apply ascending_alter.
  - intros s r. rewrite Hat, Hnext. case_decide as Hd; [|by apply Hs]. intros [= <-]. subst s. by eapply Hs.
  - by rewrite Hnext.
  - rewrite Hp', Hrecs, Hp. pose proof (count_alter counted f i _ _ Hi) as Hcount. unfold len.
    destruct (counted rc), (counted (f rc)); lia.
  - intros h s. rewrite Hsl', Hat. case_decide as Hd; [|apply Hsl]. naive_solver.
  - intros s r. rewrite Hat. case_decide as Hd; [|by apply Hc]. by intros [= <-].
  - intros s r. rewrite Hat. case_decide as Hd; [by intros [= <-]; subst s|]. rewrite (Hother true s Hd). apply Hr.
  - intros s. rewrite Hat. case_decide as Hd; [by subst s|]. rewrite (Hother false s Hd). apply Hsub.
Qed.

(** A record the index or the search finds. *)
Lemma find_open_spec q ops h i rc : memory q ops → find_open h q = Some (i, rc) →
  recs q !! i = Some rc ∧ closed rc = false ∧ r_handle rc = h ∧ h ≠ 0 ∧ r_committing rc = false ∧ counted rc = true ∧ 0 < q_pending q.
Proof.
  intros [_ Ha Hs Hn Hp Hsl Hc Hr Hsub]. unfold find_open. destruct (Z.eqb_spec h 0) as [|Hh]; [done|].
  destruct (q_slots q !! h) as [s|] eqn:Hslot; [|done]. cbn [mbind option_bind].
  apply Hsl in Hslot as (_ & r & Hat & Hrh & Hcl). apply at_seq_Some in Hat as (j & Hj & Hrs & Hfind); [|done].
  rewrite Hfind. cbn [mbind option_bind]. rewrite Hj. cbn [mbind option_bind]. rewrite Hcl. intros [= <- <-].
  assert (Hcm : r_committing r = false).
  { destruct (r_committing r) eqn:Hcm; [|done]. destruct (at_seq_lookup q s j r Ha Hj Hrs) as [Hat _].
    destruct (Hc s r Hat Hcm) as (_ & H0 & _). congruence. }
  assert (Hct : counted r = true) by (unfold counted; by rewrite Hcl, Hcm).
  split_and!; try done. rewrite Hp. assert (r ∈ List.filter counted (recs q)) as Hin.
  { apply list_elem_of_In, filter_In. split; [|done]. apply list_elem_of_In. by eapply list_elem_of_lookup_2. }
  unfold len. destruct (List.filter counted (recs q)); [by apply elem_of_nil in Hin|cbn; lia].
Qed.

Lemma memory_rec q ops i rc : memory q ops → recs q !! i = Some rc →
  at_seq q (r_seq rc) = Some rc ∧ r_retracting rc = Z.of_nat (flights true (r_seq rc) ops) ∧
  (r_retracting rc ≠ 0 → r_quarantined rc = false) ∧
  flights false (r_seq rc) ops = (if r_committing rc then 1 else 0)%nat ∧
  (r_committing rc = true → closed rc = false ∧ r_handle rc = 0 ∧ r_suspect rc = false ∧ r_retracting rc = 0).
Proof.
  intros Hm Hi. destruct (at_seq_lookup q _ i rc (m_asc _ _ Hm) Hi eq_refl) as [Hat _].
  destruct (m_retract _ _ Hm _ _ Hat) as [H1 H2]. pose proof (m_submit _ _ Hm (r_seq rc)) as H3. rewrite Hat in H3.
  split_and!; try done. by apply (m_commit _ _ Hm _ _ Hat).
Qed.
Lemma slots_closed q ops i rc : memory q ops → recs q !! i = Some rc → closed rc = false → ∀ h s,
  delete (r_handle rc) (q_slots q) !! h = Some s ↔ if decide (s = r_seq rc) then False else q_slots q !! h = Some s.
Proof.
  intros Hm Hi Hc h s. destruct (memory_rec q ops i rc Hm Hi) as (Hat & _). rewrite lookup_delete_Some. case_decide as Hs.
  - subst s. split; [|done]. intros [Hne (H0 & r & Hr & Hrh & _)%(m_slots _ _ Hm)]. congruence.
  - split; [tauto|]. intros H. split; [|done]. intros <-. pose proof H as H'. apply (m_slots _ _ Hm) in H' as (H0 & _).
    assert (q_slots q !! r_handle rc = Some (r_seq rc)) by (apply (m_slots _ _ Hm); eauto). congruence.
Qed.
Lemma slots_same q ops i rc f : memory q ops → recs q !! i = Some rc → r_handle (f rc) = r_handle rc → closed (f rc) = closed rc →
  ∀ h s, q_slots q !! h = Some s ↔ if decide (s = r_seq rc) then h ≠ 0 ∧ r_handle (f rc) = h ∧ closed (f rc) = false else q_slots q !! h = Some s.
Proof.
  intros Hm Hi Hh Hc h s. destruct (memory_rec q ops i rc Hm Hi) as (Hat & _). case_decide as Hs; [|done]. subst s.
  rewrite Hh, Hc, (m_slots _ _ Hm). rewrite Hat. naive_solver.
Qed.
Lemma less_pending_pos q : 0 < q_pending q → q_pending (less_pending q) = q_pending q - 1.
Proof. intros H. cbn. by rewrite (proj2 (Z.eqb_neq _ 0)) by lia. Qed.

(** A change that leaves the handle, the flags the counts read and the retractions. *)
Lemma memory_flags q ops i rc f : memory q ops → recs q !! i = Some rc → keeps_seq f →
  r_handle (f rc) = r_handle rc → closed (f rc) = closed rc → r_quarantined (f rc) = r_quarantined rc →
  r_committing (f rc) = r_committing rc → r_retracting (f rc) = r_retracting rc →
  (r_suspect (f rc) = true → r_suspect rc = true) → memory (set_rec i f q) ops.
Proof.
  intros Hm Hi Hf Hh Hc Hq Hcm Hr Hsu. destruct (memory_rec q ops i rc Hm Hi) as (Hat & H1 & H2 & H3 & H4).
  eapply (memory_update q ops i rc f); try done; try exact (m_ops _ _ Hm).
  - cbn. unfold counted. rewrite Hc, Hcm. lia.
  - by apply (slots_same q ops i rc f).
  - rewrite Hc, Hh, Hcm, Hr. intros H. destruct (H4 H) as (? & ? & ? & ?). split_and!; try done.
    destruct (r_suspect (f rc)); [|done]. rewrite <-(Hsu eq_refl). done.
  - by rewrite Hr.
  - by rewrite Hr, Hq.
  - by rewrite Hcm.
Qed.
Lemma memory_trial q ops n : memory q ops → memory (q <| q_trial := n |>) ops.
Proof. intros [H1 H2 H3 H4 H5 H6 H7 H8 H9]. by split. Qed.

(** ** Verdicts *)

Lemma close_rec_memory q ops i rc b : memory q ops → recs q !! i = Some rc → closed rc = false → r_committing rc = false →
  0 < q_pending q → (b = true → r_retracting rc = 0) → memory (close_rec i rc b q).1 ops.
Proof.
  intros Hm Hi Hcl Hcm Hp Hb. destruct (memory_rec q ops i rc Hm Hi) as (Hat & H1 & H2 & H3 & H4).
  unfold close_rec. set (f := λ r : dq_rec, if b then _ else _).
  assert (Hf : closed (f rc) = true ∧ r_committing (f rc) = false ∧ r_retracting (f rc) = r_retracting rc ∧
    r_quarantined (f rc) = (b || r_quarantined rc)).
  { unfold f, closed in *. apply orb_false_iff in Hcl as [Hd Hq]. destruct b; cbn; by rewrite ?Hq, ?orb_true_r. }
  destruct Hf as (Hf1 & Hf2 & Hf3 & Hf4). assert (Hk : keeps_seq f) by (intros r; unfold f; by destruct b). clearbody f.
  apply orb_false_iff in Hcl as Hdq. destruct Hdq as [_ Hq0].
  eapply (memory_update q ops i rc f); try done; try exact (m_ops _ _ Hm).
  - cbn [fst]. rewrite less_pending_pos by done. cbn. unfold counted. rewrite Hf1, Hcl, Hcm. cbn. lia.
  - intros h s. cbn [fst less_pending q_slots update set_rec]. rewrite (slots_closed q ops i rc Hm Hi Hcl h s).
    case_decide; [|done]. rewrite Hf1. naive_solver.
  - by rewrite Hf2.
  - by rewrite Hf3.
  - rewrite Hf3, Hf4, Hq0. destruct b; [|done]. by rewrite (Hb eq_refl).
  - by rewrite Hf2, H3, Hcm.
Qed.

Lemma close_or_defer_memory q ops i rc b : memory q ops → recs q !! i = Some rc → closed rc = false → r_committing rc = false →
  0 < q_pending q → memory (close_or_defer i rc b q).1 ops.
Proof.
  intros Hm Hi Hcl Hcm Hp. unfold close_or_defer. destruct (Z.eqb_spec (r_retracting rc) 0) as [H0|H0]; [by apply close_rec_memory|].
  by apply (memory_flags q ops i rc).
Qed.

(** ** Resubmission *)

(** Records given handles, and nothing else changed. *)
Definition rehandled_rec (r r' : dq_rec) : Prop := r' = r <| r_handle := r_handle r' |> ∧ (r_handle r ≠ 0 → r' = r).
#[export] Instance rehandled_rec_preorder : PreOrder rehandled_rec.
Proof.
  split; [by intros []|]. intros x y z [Hx Hx'] [Hy Hy']. split; [by rewrite Hy, Hx|].
  intros H. specialize (Hx' H). subst y. by apply Hy'.
Qed.
Definition rehandled (q q' : dq) : Prop :=
  t_next (q_t q') = t_next (q_t q) ∧ Forall2 rehandled_rec (recs q) (recs q').
#[export] Instance rehandled_preorder : PreOrder rehandled.
Proof.
  split; [by split|]. intros x y z [H1 H2] [H3 H4]. split; [congruence|by etrans].
Qed.
Lemma rehandled_refl q : rehandled q q.
Proof. done. Qed.
Lemma rehandled_trans q1 q2 q3 : rehandled q1 q2 → rehandled q2 q3 → rehandled q1 q3.
Proof. apply transitivity. Qed.

Lemma resubmit_memory q ops room a i rc : memory q ops → recs q !! i = Some rc → closed rc = false → r_handle rc = 0 →
  r_committing rc = false → (∀ h, a = (GPTPS_OK, h) → fresh q h) → memory (resubmit room a i rc q).2 ops.
Proof.
  intros Hm Hi Hcl Hh Hcm Hfr. unfold resubmit. destruct room; [|done]. destruct a as [st h]. destruct st; try done. cbn [snd].
  destruct (Hfr h eq_refl) as [Hh0 Hnew]. destruct (memory_rec q ops i rc Hm Hi) as (Hat & H1 & H2 & H3 & H4).
  eapply (memory_update q ops i rc (λ r, r <| r_handle := h |>)); try done; try exact (m_ops _ _ Hm).
  - change (counted (rc <| r_handle := h |>)) with (counted rc). change (q_pending _) with (q_pending q) at 1. lia.
  - intros h' s. cbn [q_slots update set_rec]. change (closed (rc <| r_handle := h |>)) with (closed rc). cbn [r_handle].
    rewrite lookup_insert_Some. case_decide as Hs.
    + subst s. split; [|naive_solver]. intros [[<- _]|[_ (H0 & r & Hr & Hrh & _)%(m_slots _ _ Hm)]]; [done|congruence].
    + split; [naive_solver|]. intros H. right. split; [|done]. intros <-.
      apply (m_slots _ _ Hm) in H as (_ & r & Hr & Hrh & _). apply at_seq_Some in Hr as (j & Hj & _); [|apply Hm]. by apply (Hnew j r).
  - by cbn; rewrite Hcm.
Qed.
Lemma resubmit_rehandled q room a i rc : recs q !! i = Some rc → r_handle rc = 0 → rehandled q (resubmit room a i rc q).2.
Proof.
  intros Hi Hh. unfold resubmit. destruct room; [|apply rehandled_refl]. destruct a as [st h]. destruct st; try apply rehandled_refl.
  split; [done|]. cbn [snd].
  match goal with |- Forall2 _ _ ?l => change l with (alter (λ r : dq_rec, r <| r_handle := h |>) i (recs q)) end.
  apply Forall2_same_length_lookup. split; [by rewrite length_alter|]. intros j x y Hx Hy. destruct (decide (i = j)) as [<-|Hne].
  - rewrite list_lookup_alter_eq, Hx in Hy. cbn in Hy. injection Hy as <-. split; [done|]. rewrite Hi in Hx. injection Hx as <-. done.
  - rewrite list_lookup_alter_ne in Hy by done. rewrite Hx in Hy. injection Hy as <-. by destruct x.
Qed.
Lemma resubmit_fresh q room a i rc h' : recs q !! i = Some rc → fresh q h' → a ≠ (GPTPS_OK, h') →
  fresh (resubmit room a i rc q).2 h'.
Proof.
  intros Hi [H0 Hf] Hne. unfold resubmit. destruct room; [|done]. destruct a as [st h]. destruct st; try done. split; [done|].
  intros j r Hj. cbn [snd] in Hj. change (recs _) with (alter (λ r : dq_rec, r <| r_handle := h |>) i (recs q)) in Hj.
  destruct (decide (i = j)) as [<-|Hij].
  - rewrite list_lookup_alter_eq, Hi in Hj. cbn in Hj. injection Hj as <-. cbn. congruence.
  - rewrite list_lookup_alter_ne in Hj by done. by apply (Hf j).
Qed.

(** The answers from the record [i] on. *)
Definition honest_from (i : nat) (q : dq) (ans : nat → bool * answer) : Prop :=
  ∀ j h, (i ≤ j)%nat → (ans j).2 = (GPTPS_OK, h) → fresh q h ∧ ∀ k, (i ≤ k)%nat → (ans k).2 = (GPTPS_OK, h) → k = j.
Lemma honest_from_0 q ans : honest q ans → honest_from 0 q ans.
Proof. intros H j h _ Hj. destruct (H j h Hj). auto. Qed.
Lemma honest_from_S i q ans : honest_from i q ans → honest_from (S i) q ans.
Proof. intros H j h Hij Hj. destruct (H j h ltac:(lia) Hj) as [H1 H2]. split; [done|]. intros k Hk. apply H2. lia. Qed.
Lemma honest_resubmit i q ans room rc : recs q !! i = Some rc → honest_from i q ans →
  honest_from (S i) (resubmit room (ans i).2 i rc q).2 ans.
Proof.
  intros Hi H j h Hij Hj. destruct (H j h ltac:(lia) Hj) as [H1 H2]. split; [|intros k Hk; apply H2; lia].
  apply resubmit_fresh; [done|done|]. intros He. assert (i = j); [|lia]. apply H2; [lia|done].
Qed.

Lemma trial_loop_memory n ops ans : ∀ i q, memory q ops → honest_from i q ans →
  memory (trial_loop n i ans q).1 ops ∧ rehandled q (trial_loop n i ans q).1.
Proof.
  induction n as [|n IH]; intros i q Hm Hh; cbn [trial_loop]; [split; [done|apply rehandled_refl]|].
  destruct (recs q !! i) as [rc|] eqn:Hi; [|split; [done|apply rehandled_refl]].
  destruct (closed rc || _ || _) eqn:Hc; [by apply IH, honest_from_S|]. apply orb_false_iff in Hc as [Hc Hrh].
  apply orb_false_iff in Hc as [Hcl Hsu]. apply negb_false_iff in Hsu, Hrh. apply Z.eqb_eq in Hrh.
  destruct (memory_rec q ops i rc Hm Hi) as (_ & _ & _ & _ & H4).
  assert (Hcm : r_committing rc = false).
  { destruct (r_committing rc); [|done]. destruct (H4 eq_refl) as (_ & _ & ? & _). congruence. }
  pose proof (resubmit_memory q ops (ans i).1 (ans i).2 i rc Hm Hi Hcl Hrh Hcm) as Hm'.
  specialize (Hm' (λ h Ha, proj1 (Hh i h (Nat.le_refl i) Ha))). pose proof (resubmit_rehandled q (ans i).1 (ans i).2 i rc Hi Hrh) as Hr'.
  pose proof (honest_resubmit i q ans (ans i).1 rc Hi Hh) as Hh'. destruct (resubmit _ _ _ _ _) as [st q']. cbn [snd] in *.
  destruct (decide (st = GPTPS_OK)); cbn [fst].
  - split; [by apply memory_trial|]. by destruct Hr'.
  - destruct (IH (S i) q' Hm' Hh') as [H1 H2]. split; [done|]. by eapply rehandled_trans.
Qed.
Lemma trial_next_memory q ops ans : memory q ops → honest q ans →
  memory (trial_next ans q).1 ops ∧ rehandled q (trial_next ans q).1.
Proof. intros Hm Hh. by apply trial_loop_memory, honest_from_0. Qed.

Lemma recover_loop_memory n ops ans : ∀ i q c, memory q ops → honest_from i q ans →
  memory (recover_loop n i ans q c).1 ops ∧ rehandled q (recover_loop n i ans q c).1.
Proof.
  induction n as [|n IH]; intros i q c Hm Hh; cbn [recover_loop]; [split; [done|apply rehandled_refl]|].
  destruct (recs q !! i) as [rc|] eqn:Hi; [|split; [done|apply rehandled_refl]].
  destruct (closed rc || _ || _ || _) eqn:Hc; [by apply IH, honest_from_S|]. apply orb_false_iff in Hc as [Hc Hcm].
  apply orb_false_iff in Hc as [Hc Hsu]. apply orb_false_iff in Hc as [Hcl Hrh]. apply negb_false_iff, Z.eqb_eq in Hrh.
  pose proof (resubmit_memory q ops (ans i).1 (ans i).2 i rc Hm Hi Hcl Hrh Hcm) as Hm'.
  specialize (Hm' (λ h Ha, proj1 (Hh i h (Nat.le_refl i) Ha))). pose proof (resubmit_rehandled q (ans i).1 (ans i).2 i rc Hi Hrh) as Hr'.
  pose proof (honest_resubmit i q ans (ans i).1 rc Hi Hh) as Hh'. destruct (resubmit _ _ _ _ _) as [st q']. cbn [snd] in *.
  destruct (IH (S i) q' (if decide (st = GPTPS_OK) then c + 1 else c) Hm' Hh') as [H1 H2]. split; [done|]. by eapply rehandled_trans.
Qed.
Lemma recover_memory q ops ans ans2 : memory q ops → honest q ans → honest (recover_loop (length (recs q)) 0 ans q 0).1 ans2 →
  memory (recover ans ans2 q).1 ops ∧ rehandled q (recover ans ans2 q).1.
Proof.
  intros Hm Hh Hh2. unfold recover. destruct (recover_loop_memory (length (recs q)) ops ans 0 q 0 Hm (honest_from_0 _ _ Hh)) as [H1 H2].
  destruct (recover_loop _ _ _ _ _) as [q1 c]. cbn [fst] in *. destruct (q_trial q1 =? 0); [|done].
  destruct (trial_next_memory q1 ops ans2 H1 Hh2) as [H3 H4]. destruct (trial_next _ _) as [q2 n]. cbn [fst] in *.
  split; [done|]. by eapply rehandled_trans.
Qed.

(** ** What a section does to the records *)

Definition same_work (r r' : dq_rec) : Prop :=
  r_name r' = r_name r ∧ r_payload r' = r_payload r ∧ (closed r = true → closed r' = true) ∧ (r_done r = true → r_done r' = true).
(** An open record is closed by a section only while no call is retracting it. *)
Definition steady (r r' : dq_rec) : Prop :=
  r_retracting r' = r_retracting r ∧ (r_done r' = true → r_done r = true ∨ r_retracting r = 0).
Definition worked (firm : bool) (r r' : dq_rec) : Prop := same_work r r' ∧ (firm = true → steady r r').
#[export] Instance worked_preorder firm : PreOrder (worked firm).
Proof.
  split; [intros r; split; [done|]; split; auto|]. intros x y z [(X1 & X2 & X3 & X4) X5] [(Y1 & Y2 & Y3 & Y4) Y5].
  split; [split_and!; try congruence; auto|]. intros Hf. destruct (X5 Hf) as [E1 F1], (Y5 Hf) as [E2 F2].
  split; [congruence|]. intros Hd. destruct (F2 Hd) as [H|H]; [auto|right; congruence].
Qed.
Definition verdict (e : entry) : Prop := e_type e = byte_of "D" ∨ e_type e = byte_of "Q".
#[export] Instance verdict_dec e : Decision (verdict e).
Proof. unfold verdict. apply _. Defined.
(** Work is left alone, nothing closed opens again, and a verdict is written for a
    closed record only. *)
Record evolves (firm : bool) (q q' : dq) (ms : list entry) : Prop := Evolves {
  ev_next : t_next (q_t q') = t_next (q_t q);
  ev_back : ∀ s r', at_seq q' s = Some r' → ∃ r, at_seq q s = Some r ∧ worked firm r r';
  ev_forth : ∀ s r, at_seq q s = Some r → is_Some (at_seq q' s);
  ev_marks : Forall (λ e, e_type e ≠ byte_of "P" ∧ 0 < e_seq e < t_next (q_t q) ∧ e_name e = [] ∧ e_payload e = [] ∧
                     (verdict e → ∃ r', at_seq q' (e_seq e) = Some r' ∧ closed r' = true)) ms }.

Lemma evolves_refl firm q : evolves firm q q [].
Proof. split; [done| |by eexists|constructor]. intros s r H. by exists r. Qed.
Lemma evolves_trans firm q1 q2 q3 ms ms' : evolves firm q1 q2 ms → evolves firm q2 q3 ms' → evolves firm q1 q3 (ms ++ ms').
Proof.
  intros [N1 B1 F1 M1] [N2 B2 F2 M2]. split; [congruence| | |].
  - intros s r3 H3. destruct (B2 s r3 H3) as (r2 & H2 & W2). destruct (B1 s r2 H2) as (r1 & H1 & W1).
    exists r1. split; [done|]. by etrans.
  - intros s r1 H1. destruct (F1 s r1 H1) as [r2 H2]. by apply (F2 s r2).
  - apply Forall_app. split; [|by rewrite N1 in M2]. eapply Forall_impl; [exact M1|]. intros e (H1 & H2 & H3 & H4 & H5).
    split; [done|]. split; [done|]. split; [done|]. split; [done|]. intros Hv. destruct (H5 Hv) as (r2 & Hr2 & Hc). destruct (F2 _ _ Hr2) as [r3 Hr3].
    exists r3. split; [done|]. destruct (B2 _ _ Hr3) as (r2' & Hr2' & (_ & _ & Hcl & _) & _). apply Hcl. congruence.
Qed.
Lemma evolves_weak firm q q' ms : evolves firm q q' ms → evolves false q q' ms.
Proof.
  intros [N B F M]. split; [done| |done|done]. intros s r' H. destruct (B s r' H) as (r & Hr & W & _).
  exists r. split; [done|]. by split.
Qed.
Lemma evolves_rec firm q i rc f q' ms : ascending (recs q) → (∀ s r, at_seq q s = Some r → 0 < s < t_next (q_t q)) →
  recs q !! i = Some rc → keeps_seq f → worked firm rc (f rc) → q_t q' = q_t (set_rec i f q) →
  Forall (λ e, e_type e ≠ byte_of "P" ∧ e_seq e = r_seq rc ∧ e_name e = [] ∧ e_payload e = [] ∧ (verdict e → closed (f rc) = true)) ms →
  evolves firm q q' ms.
Proof.
  intros Ha Hseq Hi Hf Hw Ht Hms. assert (Hat : ∀ s, at_seq q' s = if decide (s = r_seq rc) then Some (f rc) else at_seq q s).
  { intros s. rewrite <-(at_seq_set q i f rc s Ha Hf Hi). unfold at_seq. by rewrite Ht. }
  destruct (at_seq_lookup q _ i rc Ha Hi eq_refl) as [Hrc _]. split.
  - by rewrite Ht.
  - intros s r'. rewrite Hat. case_decide as Hs; [|by intros H; exists r']. intros [= <-]. subst s. by exists rc.
  - intros s r H. rewrite Hat. case_decide; [by eexists|by rewrite H].
  - eapply Forall_impl; [exact Hms|]. intros e (H1 & H2 & H3 & H4 & H5).
    split; [done|]. split; [rewrite H2; by eapply Hseq|]. split; [done|]. split; [done|]. intros Hv. exists (f rc). split; [|by apply H5]. rewrite Hat, H2. by rewrite decide_True.
Qed.
Lemma rehandled_evolves q q' : ascending (recs q) → ascending (recs q') → rehandled q q' → evolves true q q' [].
Proof.
  intros Ha Ha' [Hn Hf]. split; [done| | |constructor].
  - intros s r' H. apply at_seq_Some in H as (i & Hi & Hs & _); [|done]. destruct (Forall2_lookup_r _ _ _ _ _ Hf Hi) as (r & Hr & [Hw _]).
    assert (Hsw : r_seq r = r_seq r' ∧ worked true r r').
    { rewrite Hw. destruct r. split; [done|]. split; [done|]. intros _. split; [done|auto]. }
    exists r. split; [|apply Hsw]. apply (at_seq_lookup q s i r Ha Hr). destruct Hsw as [H _]. congruence.
  - intros s r H. apply at_seq_Some in H as (i & Hi & Hs & _); [|done]. destruct (Forall2_lookup_l _ _ _ _ _ Hf Hi) as (r' & Hr & [Hw _]).
    exists r'. apply (at_seq_lookup q' s i r' Ha' Hr). rewrite Hw. done.
Qed.

(** A section on the records: it keeps the invariant, and the records evolve. *)
Definition sound (ops : list op) (q : dq) (r : dq * list entry) : Prop := memory r.1 ops ∧ evolves true q r.1 r.2.
Lemma sound_same ops q : memory q ops → sound ops q (q, []).
Proof. intros Hm. split; [done|apply evolves_refl]. Qed.
Lemma sound_bind ops q q1 ms1 r : sound ops q (q1, ms1) → sound ops q1 r → sound ops q (r.1, ms1 ++ r.2).
Proof. intros [_ E1] [M2 E2]. split; [done|]. by eapply evolves_trans. Qed.

Lemma worked_same rc rc' : r_name rc' = r_name rc → r_payload rc' = r_payload rc → r_done rc' = r_done rc →
  r_quarantined rc' = r_quarantined rc → r_retracting rc' = r_retracting rc → worked true rc rc'.
Proof.
  intros H1 H2 H3 H4 H5. split; [|intros _; split; [done|rewrite H3; auto]].
  split_and!; try done; [unfold closed; by rewrite H3, H4|by rewrite H3].
Qed.
Lemma closing_worked b rc : r_retracting rc = 0 → worked true rc (if b : bool then rc <| r_quarantined := true |> <| r_inflight := false |>
                                              else rc <| r_done := true |> <| r_inflight := false |>).
Proof.
  intros H. split; [destruct b; split_and!; try done; unfold closed; cbn; intros; by rewrite ?orb_true_r|].
  intros _. split; [by destruct b|auto].
Qed.
Lemma close_rec_sound q ops i rc b : memory q ops → recs q !! i = Some rc → closed rc = false → r_committing rc = false →
  0 < q_pending q → r_retracting rc = 0 → sound ops q (close_rec i rc b q).
Proof.
  intros Hm Hi Hcl Hcm Hp Hb. split; [by apply close_rec_memory; auto|]. unfold close_rec.
  set (f := λ r : dq_rec, if b then _ else _).
  eapply (evolves_rec _ q i rc f); [apply Hm|apply Hm|done| |exact (closing_worked b rc Hb)|done|].
  - intros r. by destruct b.
  - apply Forall_singleton. destruct b; split_and!; try done; intros _; unfold closed; cbn; by rewrite ?orb_true_r.
Qed.
Lemma close_or_defer_sound q ops i rc b : memory q ops → recs q !! i = Some rc → closed rc = false → r_committing rc = false →
  0 < q_pending q → sound ops q (close_or_defer i rc b q).
Proof.
  intros Hm Hi Hcl Hcm Hp. pose proof (close_or_defer_memory q ops i rc b Hm Hi Hcl Hcm Hp) as Hm'. split; [done|].
  unfold close_or_defer in *. destruct (Z.eqb_spec (r_retracting rc) 0) as [H0|H0]; [by apply (close_rec_sound q ops)|].
  apply (evolves_rec true q i rc (λ r, r <| r_deferred := byte_of (if b then "Q" else "D") |>)); [apply Hm|apply Hm|done|done| |done|by apply Forall_nil].
  by apply worked_same.
Qed.
Lemma close_or_defer_same i rc rc' b q : r_handle rc = r_handle rc' → r_seq rc = r_seq rc' → r_retracting rc = r_retracting rc' →
  close_or_defer i rc b q = close_or_defer i rc' b q.
Proof. intros H1 H2 H3. unfold close_or_defer, close_rec. by rewrite H1, H2, H3. Qed.

(** A flag of an open record, and a marker that is no verdict. *)
Lemma flag_sound q ops i rc f ms : memory q ops → recs q !! i = Some rc → keeps_seq f →
  r_handle (f rc) = r_handle rc → r_done (f rc) = r_done rc → r_quarantined (f rc) = r_quarantined rc →
  r_committing (f rc) = r_committing rc → r_retracting (f rc) = r_retracting rc → (r_suspect (f rc) = true → r_suspect rc = true) →
  r_name (f rc) = r_name rc → r_payload (f rc) = r_payload rc →
  Forall (λ e, e = marker "S" (r_seq rc) ∨ e = marker "F" (r_seq rc)) ms → sound ops q (set_rec i f q, ms).
Proof.
  intros Hm Hi Hf H1 H2 H3 H4 H5 H6 H7 H8 Hms. assert (Hcl : closed (f rc) = closed rc) by (unfold closed; by rewrite H2, H3).
  split; [by apply (memory_flags q ops i rc)|]. eapply (evolves_rec _ q i rc f); [apply Hm|apply Hm|done|done| |done|].
  - by apply worked_same.
  - eapply Forall_impl; [exact Hms|]. intros e [-> | ->]; (split_and!; [done..|]); by intros [|].
Qed.
Lemma trial_sound q ops n : memory q ops → sound ops q (q <| q_trial := n |>, []).
Proof.
  intros Hm. split; [by apply memory_trial|]. split; [done| |by eexists|constructor]. intros s r H. by exists r.
Qed.
Lemma trial_next_sound q ops ans : memory q ops → honest q ans → sound ops q ((trial_next ans q).1, []).
Proof.
  intros Hm Hh. destruct (trial_next_memory q ops ans Hm Hh) as [H1 H2]. split; [done|].
  apply rehandled_evolves; [apply Hm|apply H1|done].
Qed.

(** Fresh handles stay so while no record takes a handle. *)
Lemma fresh_set q i f h : (∀ r, r_handle (f r) = r_handle r) → fresh q h → fresh (set_rec i f q) h.
Proof.
  intros Hf [H0 Hn]. split; [done|]. intros j r Hj. rewrite recs_set_rec in Hj. destruct (decide (i = j)) as [<-|Hij].
  - rewrite list_lookup_alter_eq in Hj. apply fmap_Some in Hj as (r' & Hr' & ->). rewrite Hf. by apply (Hn i).
  - rewrite list_lookup_alter_ne in Hj by done. by apply (Hn j).
Qed.
Definition handles (q : dq) : list Z := map r_handle (recs q).
Lemma honest_handles q q' ans : handles q' = handles q → honest q ans → honest q' ans.
Proof.
  intros He Hh i h Hi. destruct (Hh i h Hi) as [[H0 Hn] H2]. split; [|done]. split; [done|]. intros j r Hj Hrh.
  assert (Hl : handles q' !! j = Some h) by (unfold handles; change (map r_handle (recs q')) with (r_handle <$> recs q'); rewrite list_lookup_fmap, Hj; by cbn; rewrite Hrh).
  rewrite He in Hl. unfold handles in Hl. change (map r_handle (recs q)) with (r_handle <$> recs q) in Hl.
  rewrite list_lookup_fmap in Hl. apply fmap_Some in Hl as (r' & Hr' & Hhr). by apply (Hn j r').
Qed.
Lemma handles_set i f q : (∀ r, r_handle (f r) = r_handle r) → handles (set_rec i f q) = handles q.
Proof.
  intros Hf. unfold handles. rewrite recs_set_rec. apply list_eq. intros j.
  change (map r_handle ?l) with (r_handle <$> l). rewrite !list_lookup_fmap. destruct (decide (i = j)) as [<-|Hij].
  - rewrite list_lookup_alter_eq. destruct (recs q !! i); cbn; [by rewrite Hf|done].
  - by rewrite list_lookup_alter_ne.
Qed.

Lemma close_rec_handles i rc b q : handles (close_rec i rc b q).1 = handles q.
Proof.
  unfold close_rec. cbn [fst]. set (f := λ r : dq_rec, if b then _ else _).
  change (handles (less_pending (set_rec i f q <| q_slots ::= delete (r_handle rc) |>))) with (handles (set_rec i f q)).
  apply handles_set. intros r. unfold f. by destruct b.
Qed.
Lemma close_or_defer_handles i rc b q : handles (close_or_defer i rc b q).1 = handles q.
Proof. unfold close_or_defer. destruct (_ =? 0); [apply close_rec_handles|]. by apply handles_set. Qed.

(** The end of a turn on trial. *)
Lemma turn_over q ops ans ms q1 : sound ops q (q1, ms) → handles q1 = handles q → honest q ans →
  sound ops q ((trial_next ans (q1 <| q_trial := 0 |>)).1, ms).
Proof.
  intros Hs Hh Ha. rewrite <-(app_nil_r ms). apply (sound_bind ops q q1 ms ((trial_next ans (q1 <| q_trial := 0 |>)).1, [])); [done|].
  change [] with (@nil entry ++ []). apply (sound_bind ops q1 (q1 <| q_trial := 0 |>) [] ((trial_next ans (q1 <| q_trial := 0 |>)).1, [])).
  - apply trial_sound, Hs.
  - apply trial_next_sound; [apply memory_trial, Hs|]. eapply honest_handles; [|exact Ha]. exact Hh.
Qed.

Definition calm (ops : list op) (q : dq) (r : dq * list entry) : Prop := sound ops q r ∧ handles r.1 = handles q.
Lemma calm_same ops q : memory q ops → calm ops q (q, []).
Proof. intros Hm. split; [by apply sound_same|done]. Qed.
Lemma calm_bind ops q q1 ms1 q2 ms2 : calm ops q (q1, ms1) → calm ops q1 (q2, ms2) → calm ops q (q2, ms1 ++ ms2).
Proof.
  intros [S1 H1] [S2 H2]. split; [by apply (sound_bind ops q q1 ms1 (q2, ms2))|]. cbn [fst] in *. congruence.
Qed.
Lemma close_calm q ops i rc b : memory q ops → recs q !! i = Some rc → closed rc = false → r_committing rc = false →
  0 < q_pending q → calm ops q (close_or_defer i rc b q).
Proof. intros Hm Hi Hcl Hcm Hp. split; [by apply close_or_defer_sound|apply close_or_defer_handles]. Qed.

Lemma failed_calm q ops i rc (self : bool) (st : status) : memory q ops → recs q !! i = Some rc → closed rc = false → r_committing rc = false →
  0 < q_pending q →
  calm ops q
    (let '(q, ms) :=
       if r_inflight rc
       then (set_rec i (λ r, r <| r_inflight := false |> <| r_crashes := 0 |> <| r_suspect := false |>) q, [marker "F" (r_seq rc)])
       else (q, []) in
     let '(q, ms2) := if decide (st = GPTPS_E_CANCELLED) then if self then close_or_defer i rc false q else (q, []) else (q, []) in
     (q, ms ++ ms2)).
Proof.
  intros Hm Hi Hcl Hcm Hp. set (f := λ r : dq_rec, r <| r_inflight := false |> <| r_crashes := 0 |> <| r_suspect := false |>).
  assert (Hclose : ∀ q1 rc1, memory q1 ops → recs q1 !! i = Some rc1 → closed rc1 = false → r_committing rc1 = false →
    r_handle rc = r_handle rc1 → r_seq rc = r_seq rc1 → r_retracting rc = r_retracting rc1 → 0 < q_pending q1 →
    calm ops q1 (if decide (st = GPTPS_E_CANCELLED) then if self then close_or_defer i rc false q1 else (q1, []) else (q1, []))).
  { intros q1 rc1 Hm1 Hi1 Hc1 Hcm1 E1 E2 E3 Hp1. case_decide; [|by apply calm_same]. destruct self; [|by apply calm_same].
    rewrite (close_or_defer_same i rc rc1) by done. by apply close_calm. }
  destruct (r_inflight rc).
  - assert (Hf : calm ops q (set_rec i f q, [marker "F" (r_seq rc)])).
    { split; [|by apply handles_set]. apply (flag_sound q ops i rc f); try done. apply Forall_singleton. by right. }
    pose proof (Hclose (set_rec i f q) (f rc)) as H. destruct (if decide _ then _ else _) as [q2 ms2].
    eapply calm_bind; [exact Hf|]. apply H; try done; [apply Hf|]. rewrite recs_set_rec, list_lookup_alter_eq. by rewrite Hi.
  - pose proof (Hclose q rc Hm Hi Hcl Hcm eq_refl eq_refl eq_refl Hp) as H. by destruct (if decide _ then _ else _) as [q2 ms2].
Qed.

Lemma on_event_sound q ops k h st flags ans : memory q ops → honest q ans → sound ops q (on_event k h st flags ans q).
Proof.
  intros Hm Ha. unfold on_event. case_decide; [by apply sound_same|]. case_decide; [by apply sound_same|].
  destruct (find_open h q) as [[i rc]|] eqn:Hf; [|by apply sound_same].
  destruct (find_open_spec q ops h i rc Hm Hf) as (Hi & Hcl & Hh & Hh0 & Hcm & Hct & Hp).
  assert (Hend : ∀ q1 ms (over : bool), calm ops q (q1, ms) →
    sound ops q (if over then ((trial_next ans (q1 <| q_trial := 0 |>)).1, ms) else (q1, ms))).
  { intros q1 ms over [Hs Hhs]. destruct over; [by apply turn_over|done]. }
  pose proof (failed_calm q ops i rc (has_flag flags EV_FLAG_SELF_CANCELLED) st Hm Hi Hcl Hcm Hp) as Hfailed.
  destruct k; try done.
  - apply (Hend _ _ false). split; [|by apply handles_set]. apply (flag_sound q ops i rc); try done. apply Forall_singleton. by left.
  - pose proof (close_calm q ops i rc false Hm Hi Hcl Hcm Hp) as Hcalm. destruct (close_or_defer _ _ _ _) as [q1 ms]. by apply (Hend q1 ms (r_seq rc =? q_trial q)).
  - destruct (if r_inflight rc then _ else _) as [q1 ms1]. destruct (if decide _ then _ else _) as [q2 ms2].
    by apply (Hend q2 (ms1 ++ ms2) (r_seq rc =? q_trial q)).
  - assert (Hcalm : calm ops q (if has_flag flags EV_FLAG_SHUTDOWN then (q, []) else close_or_defer i rc (bool_decide (EV_DEAD_LETTERED = EV_DEAD_LETTERED)) q))
      by (destruct (has_flag flags EV_FLAG_SHUTDOWN); [by apply calm_same|by apply close_calm]).
    destruct (if has_flag flags EV_FLAG_SHUTDOWN then _ else _) as [q1 ms]. by apply (Hend q1 ms (r_seq rc =? q_trial q)).
  - assert (Hcalm : calm ops q (if has_flag flags EV_FLAG_SHUTDOWN then (q, []) else close_or_defer i rc (bool_decide (EV_DROPPED = EV_DEAD_LETTERED)) q))
      by (destruct (has_flag flags EV_FLAG_SHUTDOWN); [by apply calm_same|by apply close_calm]).
    destruct (if has_flag flags EV_FLAG_SHUTDOWN then _ else _) as [q1 ms]. by apply (Hend q1 ms (r_seq rc =? q_trial q)).
  - by apply (Hend q [] false), calm_same.
Qed.

(** ** Submit *)

Lemma flights_beyond c s next ops : Forall (within next) ops → next ≤ s → flights c s ops = 0%nat.
Proof.
  intros Hw Hs. induction Hw as [|o ops [H1 H2] _ IH]; [done|]. rewrite flights_cons, IH.
  case_decide as Hc; [|done]. destruct Hc as [_ Hc]. lia.
Qed.
Lemma at_seq_push q r s : ascending (recs q) → (∀ s r', at_seq q s = Some r' → s < r_seq r) → ∀ nx,
  at_seq (q <| q_t ::= λ t, t <| t_recs ::= λ l, l ++ [r] |> <| t_next := nx |> |>) s =
  if decide (s = r_seq r) then Some r else at_seq q s.
Proof.
  intros Ha Hb nx. set (q' := q <| q_t ::= _ |>). assert (Hr : recs q' = recs q ++ [r]) by done.
  assert (Hlt : ∀ i x, recs q !! i = Some x → r_seq x < r_seq r).
  { intros i x Hx. destruct (at_seq_lookup q _ i x Ha Hx eq_refl) as [Hat _]. by eapply Hb. }
  assert (Ha' : ascending (recs q')) by (rewrite Hr; by apply ascending_push).
  case_decide as Hs.
  - subst s. apply (at_seq_lookup q' _ (length (recs q)) r Ha'); [|done]. rewrite Hr, lookup_app_r, Nat.sub_diag by lia. done.
  - destruct (at_seq q s) as [x|] eqn:Hx.
    + apply at_seq_Some in Hx as (i & Hi & Hxs & _); [|done]. apply (at_seq_lookup q' s i x Ha'); [|done].
      rewrite Hr. by apply lookup_app_l_Some.
    + destruct (at_seq q' s) as [x|] eqn:Hx'; [|done]. apply at_seq_Some in Hx' as (i & Hi & Hxs & _); [|done].
      rewrite Hr in Hi. apply lookup_app_Some in Hi as [Hi|[_ Hi]].
      * destruct (at_seq_lookup q s i x Ha Hi Hxs) as [H _]. congruence.
      * apply list_lookup_singleton_Some in Hi as [_ <-]. congruence.
Qed.

Lemma push_memory q ops name payload ops' : memory q ops → t_next (q_t q) ≤ DQ_MAX_SEQ →
  Forall (within (t_next (q_t q) + 1)) ops' →
  flights false (t_next (q_t q)) ops' = 1%nat → flights true (t_next (q_t q)) ops' = 0%nat →
  (∀ c s, s ≠ t_next (q_t q) → flights c s ops' = flights c s ops) →
  memory (push_committing name payload q) ops' ∧ t_next (q_t (push_committing name payload q)) = t_next (q_t q) + 1 ∧
  ∀ s, at_seq (push_committing name payload q) s =
       if decide (s = t_next (q_t q)) then Some (new_rec (t_next (q_t q)) name payload <| r_committing := true |>) else at_seq q s.
Proof.
  intros Hm Hmax Hw H1 H2 H3. pose proof (m_next _ _ Hm) as Hn. unfold DQ_MAX_SEQ in *.
  set (nx := t_next (q_t q)) in *. set (r := new_rec nx name payload <| r_committing := true |>).
  assert (Hat : ∀ s, at_seq (push_committing name payload q) s = if decide (s = nx) then Some r else at_seq q s).
  { intros s. apply (at_seq_push q r s (m_asc _ _ Hm)). intros s' r' Hr'. apply (m_seq _ _ Hm) in Hr'. change (r_seq r) with nx. fold nx in Hr'. lia. }
  assert (Hnx : t_next (q_t (push_committing name payload q)) = nx + 1) by (cbn; fold nx; apply u64_small; lia).
  assert (Hrecs : recs (push_committing name payload q) = recs q ++ [r]) by done.
  split; [|done]. split.
  - by rewrite Hnx.
  - rewrite Hrecs. apply ascending_push; [apply Hm|]. intros i x Hx.
    destruct (at_seq_lookup q _ i x (m_asc _ _ Hm) Hx eq_refl) as [Hax _]. apply (m_seq _ _ Hm) in Hax. change (r_seq r) with nx. fold nx in Hax. lia.
  - intros s x. rewrite Hat, Hnx. case_decide; [intros [= <-]; lia|]. intros Hx. apply (m_seq _ _ Hm) in Hx. fold nx in Hx. lia.
  - rewrite Hnx. unfold DQ_MAX_SEQ. lia.
  - rewrite Hrecs, List.filter_app, len_app. change (q_pending (push_committing name payload q)) with (q_pending q).
    rewrite (m_pending _ _ Hm). change (List.filter counted [r]) with (@nil dq_rec). change (len (@nil dq_rec)) with 0. lia.
  - intros h s. change (q_slots (push_committing name payload q)) with (q_slots q). rewrite Hat, (m_slots _ _ Hm). case_decide as Hs; [|done].
    subst s. split.
    + intros (_ & x & Hx & _). apply (m_seq _ _ Hm) in Hx. fold nx in Hx. lia.
    + intros (H0 & x & [= <-] & Hxh & _). done.
  - intros s x. rewrite Hat. case_decide; [by intros [= <-]|]. apply (m_commit _ _ Hm).
  - intros s x. rewrite Hat. case_decide as Hs; [|rewrite (H3 true s Hs); apply (m_retract _ _ Hm)].
    intros [= <-]. subst s. rewrite H2. done.
  - intros s. rewrite Hat. case_decide as Hs; [subst s; by rewrite H1|]. rewrite (H3 false s Hs). apply (m_submit _ _ Hm).
Qed.

Lemma flights_grow c s first k st ops : s ≠ first + Z.of_nat k →
  flights c s (Op false first (S k) st :: ops) = flights c s (Op false first k st :: ops).
Proof.
  intros Hs. rewrite !flights_cons. f_equal.
  destruct (decide (covers c s (Op false first (S k) st))) as [H|H], (decide (covers c s (Op false first k st))) as [H'|H'];
    unfold covers in *; cbn [o_cancel o_first o_count] in *; try done; exfalso; [apply H'|apply H]; intuition lia.
Qed.
Lemma memory_no_op q ops first st : memory q ops → 0 < first ≤ t_next (q_t q) → memory q (Op false first 0 st :: ops).
Proof.
  intros [H0 H1 H2 H3 H4 H5 H6 H7 H8] Hf.
  assert (Hfl : ∀ c s, flights c s (Op false first 0 st :: ops) = flights c s ops).
  { intros c s. rewrite flights_cons. case_decide as Hc; [|done]. destruct Hc as [_ Hc]. cbn in Hc. lia. }
  split; [|exact H1|exact H2|exact H3|exact H4|exact H5|exact H6| |].
  - constructor; [|done]. split; cbn; lia.
  - intros s r. rewrite Hfl. apply H7.
  - intros s. rewrite Hfl. apply H8.
Qed.

(** The records a batch adds, and the ['P'] of each. *)
Definition added (q q' : dq) (es : list entry) : Prop :=
  t_next (q_t q') = t_next (q_t q) + len es ∧
  (∀ s, s < t_next (q_t q) → at_seq q' s = at_seq q s) ∧
  ∀ j e, es !! j = Some e → let s := t_next (q_t q) + Z.of_nat j in
    e = Entry (byte_of "P") s (e_name e) (e_payload e) ∧
    at_seq q' s = Some (new_rec s (e_name e) (e_payload e) <| r_committing := true |>).

Lemma push_batch_memory items : ∀ q ops first k st, memory q (Op false first k st :: ops) → 0 < first →
  first + Z.of_nat k = t_next (q_t q) → t_next (q_t q) + len items - 1 ≤ DQ_MAX_SEQ →
  let r := push_batch items q in
  memory r.1 (Op false first (k + length items) st :: ops) ∧ length r.2 = length items ∧ added q r.1 r.2.
Proof.
  induction items as [|[name payload] items IH]; intros q ops first k st Hm Hf Hk Hmax; cbn [push_batch].
  { cbn [fst snd length]. rewrite Nat.add_0_r. split; [done|]. split; [done|]. split; [change (len (@nil entry)) with 0; lia|]. by split. }
  assert (Hlen : len ((name, payload) :: items) = len items + 1) by (unfold len; cbn [length]; lia). rewrite Hlen in Hmax.
  pose proof (len_nonneg items) as Hl0. set (nx := t_next (q_t q)) in *.
  destruct (push_memory q _ name payload (Op false first (S k) st :: ops) Hm) as (Hm1 & Hn1 & Hat1).
  - fold nx. lia.
  - fold nx. pose proof (m_ops _ _ Hm) as Hw. apply Forall_cons in Hw as [_ Hw]. constructor; [split; cbn; lia|].
    eapply Forall_impl; [exact Hw|]. intros o [H1 H2]. fold nx in H2. split; lia.
  - fold nx. rewrite flights_cons. rewrite decide_True by (split; [done|cbn; lia]).
    pose proof (m_ops _ _ Hm) as Hw. apply Forall_cons in Hw as [_ Hw]. by rewrite (flights_beyond false nx nx ops Hw ltac:(lia)).
  - fold nx. rewrite flights_cons. rewrite decide_False by (by intros [? _]).
    pose proof (m_ops _ _ Hm) as Hw. apply Forall_cons in Hw as [_ Hw]. by rewrite (flights_beyond true nx nx ops Hw ltac:(lia)).
  - intros c s Hs. fold nx in Hs. apply flights_grow. lia.
  - fold nx in Hn1, Hat1. specialize (IH (push_committing name payload q) ops first (S k) st Hm1 Hf ltac:(lia) ltac:(lia)).
    destruct (push_batch items _) as [q' es]. cbn [fst snd length] in *. destruct IH as (Hm' & Hlen' & Hn' & Hold & Hnew).
    rewrite Nat.add_succ_comm in Hm'. split; [done|]. split; [by rewrite Hlen'|]. rewrite Hn1 in *. fold nx. split; [|split].
    + unfold len in *. cbn [length]. lia.
    + intros s Hs. rewrite Hold by lia. rewrite Hat1. by rewrite decide_False by lia.
    + intros [|j] e He; cbn in He.
      * injection He as <-. rewrite Z.add_0_r. split; [done|]. rewrite Hold by lia. rewrite Hat1. by rewrite decide_True.
      * specialize (Hnew j e He). cbv zeta in *. fold nx in Hnew |- *. by replace (nx + Z.of_nat (S j)) with (nx + 1 + Z.of_nat j) by lia.
Qed.

End DurableFacts.
