(* ===== verification/DurableSteps.v ===== *)
(** * The sections of the durable queue, and its memory

    Each section that begins or ends a durable write, the drain and the compaction, keep
    the invariant of DurableFacts.v; what each does to the records. *)

From S2P Require Import Prelude Engine Journal JournalFacts ReplayFacts DurableQueue DurableFacts Durable.

Module DurableSteps.
Import Engine Journal JournalFacts ReplayFacts DurableQueue DurableLog DurableFacts.
Import Durable(live, live_spec, open_rec_kept, ascending_map, ascending_filter, list_filter_lookup).

Lemma flights_perm c s ops ops' : ops ≡ₚ ops' → flights c s ops = flights c s ops'.
Proof. intros H. unfold flights. by rewrite H. Qed.
Lemma memory_perm q ops ops' : ops ≡ₚ ops' → memory q ops → memory q ops'.
Proof.
  intros Hp [H1 H2 H3 H4 H5 H6 H7 H8 H9]. split; try done.
  - eapply Permutation_Forall; [exact Hp|exact H1].
  - intros s r Hr. rewrite <-(flights_perm true s _ _ Hp). by apply H8.
  - intros s. rewrite <-(flights_perm false s _ _ Hp). by apply H9.
Qed.
Lemma memory_state q ops o st : memory q (o :: ops) → memory q (Op (o_cancel o) (o_first o) (o_count o) st :: ops).
Proof.
  intros [H1 H2 H3 H4 H5 H6 H7 H8 H9].
  assert (Hf : ∀ c s, flights c s (Op (o_cancel o) (o_first o) (o_count o) st :: ops) = flights c s (o :: ops)).
  { intros c s. rewrite !flights_cons. by destruct o. }
  split; try done.
  - apply Forall_cons in H1 as [H1 H1']. constructor; done.
  - intros s r Hr. rewrite Hf. by apply H8.
  - intros s. rewrite Hf. apply H9.
Qed.
Lemma at_seq_upd q q' i rc f s : ascending (recs q) → keeps_seq f → recs q !! i = Some rc → q_t q' = q_t (set_rec i f q) →
  at_seq q' s = if decide (s = r_seq rc) then Some (f rc) else at_seq q s.
Proof. intros Ha Hf Hi Ht. rewrite <-(at_seq_set q i f rc s Ha Hf Hi). unfold at_seq. by rewrite Ht. Qed.

(** ** Sections that begin a write *)

Definition fits (e : entry) : Prop := len (e_name e) ≤ DQ_MAX_NAME ∧ len (e_payload e) ≤ DQ_MAX_PAYLOAD.
(** What a section that begins a write did. *)
Definition begins (q q' : dq) (new : list entry) (c : bool) (first : Z) : Prop :=
  if c then new = [marker "D" first] ∧ t_next (q_t q') = t_next (q_t q) ∧
    ∃ rc, at_seq q first = Some rc ∧ closed rc = false ∧ r_committing rc = false ∧
      ∀ s, at_seq q' s = if decide (s = first) then Some (rc <| r_retracting ::= λ n, n + 1 |>) else at_seq q s
  else first = t_next (q_t q) ∧ new ≠ [] ∧ Forall fits new ∧ added q q' new.

Lemma fits_journal_spec name payload : fits_journal name payload = true → ∀ ty s, fits (Entry ty s name payload).
Proof. unfold fits_journal. rewrite andb_true_iff. intros [H1 H2] ty s. apply Z.leb_le in H1, H2. by split. Qed.
Lemma push_batch_fits items : ∀ q, forallb (λ it, fits_journal it.1 it.2) items = true → Forall fits (push_batch items q).2.
Proof.
  induction items as [|[n p] items IH]; intros q; cbn [push_batch forallb]; [by constructor|].
  rewrite andb_true_iff. intros [H1 H2]. specialize (IH (push_committing n p q) H2).
  destruct (push_batch items _) as [q' es]. constructor; [|done]. by apply fits_journal_spec.
Qed.

Lemma begin_batch q ops items st : memory q ops → items ≠ [] → forallb (λ it, fits_journal it.1 it.2) items = true →
  t_next (q_t q) + len items - 1 ≤ DQ_MAX_SEQ → let r := push_batch items q in
  memory r.1 (Op false (t_next (q_t q)) (length r.2) st :: ops) ∧ begins q r.1 r.2 false (t_next (q_t q)).
Proof.
  intros Hm Hne Hfit Hmax r. pose proof (m_next _ _ Hm) as Hn.
  destruct (push_batch_memory items q ops (t_next (q_t q)) 0 st) as (H1 & H2 & H3); [by apply memory_no_op; [done|lia]|lia|cbn; lia|lia|].
  fold r in H1, H2, H3. rewrite H2. split; [done|]. split; [done|]. split; [|split; [by apply push_batch_fits|done]].
  intros H0. rewrite H0 in H2. by destruct items.
Qed.

Lemma begin_cancel q ops i rc st : memory q ops → recs q !! i = Some rc → closed rc = false → r_committing rc = false →
  let q' := set_rec i (λ r, r <| r_retracting ::= λ n, n + 1 |>) q in
  memory q' (Op true (r_seq rc) 1 st :: ops) ∧ begins q q' [marker "D" (r_seq rc)] true (r_seq rc).
Proof.
  intros Hm Hi Hcl Hcm q'. destruct (memory_rec q ops i rc Hm Hi) as (Hat & H1 & H2 & H3 & H4).
  set (f := λ r : dq_rec, r <| r_retracting ::= λ n, n + 1 |>) in *. pose proof (m_seq _ _ Hm _ _ Hat) as Hs.
  assert (Hcov : ∀ s, covers true s (Op true (r_seq rc) 1 st) ↔ s = r_seq rc).
  { intros s. unfold covers. cbn. lia. }
  split.
  - eapply (memory_update q ops i rc f); try done.
    + change (counted (f rc)) with (counted rc). change (q_pending q') with (q_pending q). lia.
    + by apply (slots_same q ops i rc f).
    + intros H. change (r_committing (f rc)) with (r_committing rc) in H. congruence.
    + change (r_retracting (f rc)) with (r_retracting rc + 1). rewrite flights_cons, decide_True by by apply Hcov. lia.
    + intros _. change (r_quarantined (f rc)) with (r_quarantined rc). by apply orb_false_iff in Hcl as [_ ?].
    + intros c s Hne. rewrite flights_cons. rewrite decide_False; [done|]. intros Hc. destruct c; [by apply Hcov in Hc|by destruct Hc].
    + constructor; [split; cbn; lia|exact (m_ops _ _ Hm)].
  - split; [done|]. split; [done|]. exists rc. split; [done|]. split; [done|]. split; [done|]. intros s.
    by apply (at_seq_upd q q' i rc f s (m_asc _ _ Hm)).
Qed.

Lemma begun_ok q ops q' new c first st : memory q ops → begun q q' new c first →
  memory q' (Op c first (length new) st :: ops) ∧ begins q q' new c first.
Proof.
  intros Hm Hb. pose proof (m_next _ _ Hm) as Hn. destruct Hb as [name payload copied room first q' es H|items copied room first q' es Hlen H|h seq q' es H].
  - unfold submit_begin in H. destruct (fits_journal name payload) eqn:Hf; [|done]. destruct copied; [|done]. cbn [negb] in H.
    destruct (Z.ltb_spec DQ_MAX_SEQ (t_next (q_t q))) as [|Hmax]; [done|]. destruct room; [|done]. cbn [negb] in H.
    injection H as <- <- <-. apply (begin_batch q ops [(name, payload)] st Hm); [done| |change (len [(name, payload)]) with 1; lia].
    cbn [forallb fst snd]. by rewrite Hf.
  - unfold batch_begin in H. destruct (Z.eqb_spec (len items) 0) as [|Hne]; [done|].
    destruct (forallb _ items) eqn:Hf; [|done]. destruct copied; [|done]. cbn [negb] in H.
    destruct (Z.ltb_spec DQ_MAX_SEQ (t_next (q_t q))) as [|Hmax]; [done|]. cbn [orb] in H.
    assert (0 < len items) as Hpos by (pose proof (len_nonneg items); lia).
    assert (items ≠ []) as Hn0 by (by intros ->).
    rewrite u64_small in H by lia. destruct (Z.ltb_spec (DQ_MAX_SEQ - t_next (q_t q)) (len items - 1)) as [|Hroom]; [done|].
    destruct room; [|done]. cbn [negb] in H. pose proof (begin_batch q ops items st Hm Hn0 Hf ltac:(lia)) as Hr.
    destruct (push_batch items q) as [q1 es1]. injection H as <- <- <-. exact Hr.
  - unfold cancel_begin in H. destruct (Z.eqb_spec h 0) as [|Hh]; [done|]. destruct (find_open h q) as [[i rc]|] eqn:Hf; [|done].
    injection H as <- <- <-. destruct (find_open_spec q ops h i rc Hm Hf) as (Hi & Hcl & _ & _ & Hcm & _).
    by apply begin_cancel.
Qed.

(** ** Sections that end a submit *)

Lemma alter_twice {A} (f g : A → A) i (l : list A) : alter (f ∘ g) i l = alter f i (alter g i l).
Proof. revert i. induction l as [|x l IH]; intros [|i]; [done..|]. cbn. f_equal. apply IH. Qed.
Lemma set_rec_twice i f g q : q_t (set_rec i f (set_rec i g q)) = q_t (set_rec i (f ∘ g) q).
Proof. destruct q as [[l n] p t sl]. cbn. f_equal. symmetry. apply alter_twice. Qed.

Lemma flights_rest c s first n st ops : s ≠ first →
  flights c s (Op false (first + 1) n st :: ops) = flights c s (Op false first (S n) st :: ops).
Proof.
  intros Hs. rewrite !flights_cons. f_equal.
  destruct (decide (covers c s (Op false (first + 1) n st))) as [H|H], (decide (covers c s (Op false first (S n) st))) as [H'|H'];
    unfold covers in *; cbn [o_cancel o_first o_count] in *; try done; exfalso; [apply H'|apply H]; intuition lia.
Qed.

Lemma commit_found q ops first n st : memory q (Op false first (S n) st :: ops) →
  ∃ i rc, find_by_seq (recs q) first = Some i ∧ recs q !! i = Some rc ∧ r_seq rc = first ∧ r_committing rc = true ∧
    closed rc = false ∧ r_retracting rc = 0 ∧ flights false first ops = 0%nat ∧ flights true first ops = 0%nat.
Proof.
  intros Hm. pose proof (m_submit _ _ Hm first) as Hs.
  rewrite flights_cons, decide_True in Hs by (split; [done|cbn; lia]).
  destruct (at_seq q first) as [rc|] eqn:Hat; [|done]. destruct (r_committing rc) eqn:Hc; [|done].
  pose proof (m_commit _ _ Hm _ _ Hat Hc) as (Hcl & _ & _ & Hr). destruct (m_retract _ _ Hm _ _ Hat) as [Hr' _].
  rewrite flights_cons in Hr'. apply at_seq_Some in Hat as (i & Hi & Hq & Hf); [|apply Hm].
  exists i, rc. split_and!; try done; lia.
Qed.

Lemma committed_memory q ops first n st i rc f q' : memory q (Op false first (S n) st :: ops) →
  recs q !! i = Some rc → r_seq rc = first → r_committing rc = true → keeps_seq f →
  r_committing (f rc) = false → r_retracting (f rc) = r_retracting rc → r_quarantined (f rc) = r_quarantined rc →
  q_t q' = q_t (set_rec i f q) → q_pending q' = q_pending q + (if closed (f rc) then 0 else 1) →
  (∀ h s, q_slots q' !! h = Some s ↔
     if decide (s = r_seq rc) then h ≠ 0 ∧ r_handle (f rc) = h ∧ closed (f rc) = false else q_slots q !! h = Some s) →
  memory q' (Op false (first + 1) n st :: ops).
Proof.
  intros Hm Hi <- Hc Hf Hc' Hr Hq Ht Hp Hsl. set (first := r_seq rc) in *.
  destruct (memory_rec q _ i rc Hm Hi) as (Hat & H1 & H2 & H3 & H4). destruct (H4 Hc) as (Hcl & Hh & Hsu & H0).
  destruct (commit_found q ops first n st Hm) as (_ & _ & _ & _ & _ & _ & _ & _ & Hfl & Hfl').
  pose proof (m_ops _ _ Hm) as Hops. apply Forall_cons in Hops as [[Ho1 Ho2] Hops]. cbn in Ho1, Ho2.
  assert (Hno : ∀ c, ¬ covers c first (Op false (first + 1) n st)) by (intros c [_ Hcov]; cbn in Hcov; lia).
  eapply (memory_update q _ i rc f); try done.
  - rewrite Hp. unfold counted. rewrite Hcl, Hc, Hc'. destruct (closed (f rc)); cbn; lia.
  - by rewrite Hc'.
  - rewrite Hr, H0, flights_cons, decide_False by done. fold first. lia.
  - by rewrite Hr, H0.
  - rewrite Hc', flights_cons, decide_False by done. done.
  - intros c s Hs. by apply flights_rest.
  - constructor; [split; cbn; lia|done].
Qed.

Lemma slots_no_handle q ops i rc f : memory q ops → recs q !! i = Some rc → r_committing rc = true → r_handle (f rc) = 0 →
  ∀ h s, q_slots q !! h = Some s ↔ if decide (s = r_seq rc) then h ≠ 0 ∧ r_handle (f rc) = h ∧ closed (f rc) = false else q_slots q !! h = Some s.
Proof.
  intros Hm Hi Hc Hh h s. destruct (memory_rec q ops i rc Hm Hi) as (Hat & _ & _ & _ & H4). destruct (H4 Hc) as (_ & Hh0 & _).
  case_decide as Hs; [|done]. subst s. rewrite Hh, (m_slots _ _ Hm), Hat. naive_solver.
Qed.

Lemma commit_rec_ok q ops first n st durable a : memory q (Op false first (S n) st :: ops) →
  (∀ h, a = (GPTPS_OK, h) → fresh q h) → let r := commit_rec first durable a q in
  memory r.1.2 (Op false (first + 1) n st :: ops) ∧ evolves true q r.1.2 r.2 ∧
  (durable = false → ∃ r', at_seq r.1.2 first = Some r' ∧ r_done r' = true).
Proof.
  intros Hm Hfr. destruct (commit_found q ops first n st Hm) as (i & rc & Hfind & Hi & Hseq & Hc & Hcl & Hret & _ & _).
  destruct (memory_rec q _ i rc Hm Hi) as (Hat & _ & _ & _ & H4). destruct (H4 Hc) as (_ & Hh & Hsu & _).
  set (g := λ r : dq_rec, r <| r_committing := false |>). set (d := λ r : dq_rec, r <| r_done := true |>).
  assert (Hnew : ∀ q' f ms, keeps_seq f → worked true rc (f rc) → q_t q' = q_t (set_rec i f q) →
    (ms = [] ∨ ms = [marker "D" first] ∧ closed (f rc) = true) → evolves true q q' ms).
  { intros q' f ms Hk Hw Ht Hms. apply (evolves_rec true q i rc f q' ms); [apply Hm|apply Hm|done..|].
    destruct Hms as [-> | [-> Hcf]]; [by constructor|]. apply Forall_singleton. split_and!; done. }
  assert (Hwd : worked true rc ((d ∘ g) rc)) by (split; [split_and!; try done; unfold closed; cbn; by intros|intros _; split; [done|auto]]).
  unfold commit_rec. rewrite Hfind. fold g d. destruct durable; cbn [negb].
  - destruct a as [status h]. destruct (decide (status = GPTPS_OK)) as [->|Hne].
    + set (f := λ r : dq_rec, r <| r_handle := h |>). destruct (Hfr h eq_refl) as [Hh0 Hfree]. split; [|split; [|done]].
      * eapply (committed_memory q ops first n st i rc (f ∘ g)); try done.
        -- cbn [fst snd]. transitivity (q_t (set_rec i f (set_rec i g q))); [done|apply set_rec_twice].
        -- change (closed ((f ∘ g) rc)) with (closed rc). rewrite Hcl. done.
        -- intros h' s. change (closed ((f ∘ g) rc)) with (closed rc). change (r_handle ((f ∘ g) rc)) with h. rewrite Hcl.
           change (q_slots (_, _, _).1.2) with (<[h := first]> (q_slots q)). rewrite lookup_insert_Some. rewrite Hseq. case_decide as Hs.
           ++ subst s. split; [|naive_solver]. intros [[<- _]|[_ (Hn0 & r & Hr & Hrh & _)%(m_slots _ _ Hm)]]; [done|]. congruence.
           ++ split; [naive_solver|]. intros Hl. right. split; [|done]. intros <-.
              apply (m_slots _ _ Hm) in Hl as (_ & r & Hr & Hrh & _). apply at_seq_Some in Hr as (j & Hj & _); [|apply Hm]. by apply (Hfree j r).
      * apply (Hnew _ (f ∘ g)); [done|by apply worked_same| |by left].
        cbn [fst snd]. transitivity (q_t (set_rec i f (set_rec i g q))); [done|apply set_rec_twice].
    + set (q1 := set_rec i g q <| q_pending ::= λ n, n + 1 |>).
      assert (Hr : (match status with GPTPS_OK => (GPTPS_OK, set_rec i (λ r, r <| r_handle := h |>) q1 <| q_slots ::= <[h:=first]> |>, [])
        | st0 => (st0, less_pending (set_rec i d q1), [marker "D" first]) end) = (status, less_pending (set_rec i d q1), [marker "D" first])) by by destruct status.
      rewrite Hr. cbn [fst snd].
      assert (Ht : q_t (less_pending (set_rec i d q1)) = q_t (set_rec i (d ∘ g) q)).
      { transitivity (q_t (set_rec i d (set_rec i g q))); [done|apply set_rec_twice]. }
      split; [|split; [|done]].
      * eapply (committed_memory q ops first n st i rc (d ∘ g)); try done.
        -- assert (0 ≤ q_pending q) by (rewrite (m_pending _ _ Hm); apply len_nonneg).
           rewrite less_pending_pos by (cbn; lia). cbn. lia.
        -- by apply (slots_no_handle q _ i rc (d ∘ g) Hm).
      * apply (Hnew _ (d ∘ g)); [done|done|done|by right].
  - cbn [fst snd]. assert (Ht : q_t (set_rec i d (set_rec i g q)) = q_t (set_rec i (d ∘ g) q)) by apply set_rec_twice.
    split; [|split].
    + eapply (committed_memory q ops first n st i rc (d ∘ g)); try done.
      * cbn. lia.
      * by apply (slots_no_handle q _ i rc (d ∘ g) Hm).
    + apply (Hnew _ (d ∘ g)); [done|done|done|by left].
    + intros _. exists ((d ∘ g) rc). split; [|done].
      rewrite (at_seq_upd q _ i rc (d ∘ g) first (m_asc _ _ Hm)) by done. by rewrite decide_True by done.
Qed.

Lemma fresh_handle q i h h' : fresh q h' → h ≠ h' → fresh (set_rec i (λ r, r <| r_handle := h |>) q) h'.
Proof.
  intros [H0 Hn] Hne. split; [done|]. intros j r Hj. rewrite recs_set_rec in Hj. destruct (decide (i = j)) as [<-|Hij].
  - rewrite list_lookup_alter_eq in Hj. apply fmap_Some in Hj as (r' & _ & ->). done.
  - rewrite list_lookup_alter_ne in Hj by done. by apply (Hn j).
Qed.
Lemma commit_fresh first durable a q h' : fresh q h' → a ≠ (GPTPS_OK, h') → fresh (commit_rec first durable a q).1.2 h'.
Proof.
  intros Hf Ha. unfold commit_rec. destruct (find_by_seq _ _) as [i|]; [|done]. set (q1 := set_rec i _ q).
  assert (H1 : fresh q1 h') by (by apply fresh_set). destruct durable; cbn [negb]; [|by apply fresh_set].
  assert (H2 : ∀ n, fresh (q1 <| q_pending := n |>) h') by done.
  destruct a as [st h]. destruct (decide (st = GPTPS_OK)) as [->|Hne].
  - apply (fresh_handle (q1 <| q_pending ::= λ n, n + 1 |>) i h h'); [done|congruence].
  - assert (H3 : fresh (set_rec i (λ r, r <| r_done := true |>) (q1 <| q_pending ::= λ n, n + 1 |>)) h') by by apply fresh_set.
    destruct st; try exact H3; done.
Qed.

Definition honest_at (first : Z) (q : dq) (ans : Z → answer) : Prop :=
  ∀ s h, first ≤ s → ans s = (GPTPS_OK, h) → fresh q h ∧ ∀ s', first ≤ s' → ans s' = (GPTPS_OK, h) → s' = s.
Lemma batch_end_ok n : ∀ first q ops st durable ans, memory q (Op false first n st :: ops) → honest_at first q ans →
  let r := batch_end n first durable ans q in
  memory r.1.2 ops ∧ evolves true q r.1.2 r.2 ∧
  (durable = false → ∀ s, first ≤ s < first + Z.of_nat n → ∃ r', at_seq r.1.2 s = Some r' ∧ r_done r' = true).
Proof.
  induction n as [|n IH]; intros first q ops st durable ans Hm Hh; cbn [batch_end].
  { cbn [fst snd]. split; [|split; [apply evolves_refl|lia]]. destruct Hm as [H1 H2 H3 H4 H5 H6 H7 H8 H9].
    assert (Hf : ∀ c s, flights c s (Op false first 0 st :: ops) = flights c s ops).
    { intros c s. rewrite flights_cons. case_decide as Hc; [|done]. destruct Hc as [_ Hc]. cbn in Hc. lia. }
    apply Forall_cons in H1 as [_ H1]. split; try done; intros s; rewrite <-Hf; apply H9. }
  pose proof (commit_rec_ok q ops first n st durable (ans first) Hm) as H1.
  specialize (H1 (λ h Ha, proj1 (Hh first h (Z.le_refl _) Ha))). cbv zeta in H1.
  assert (Hh' : honest_at (first + 1) (commit_rec first durable (ans first) q).1.2 ans).
  { intros s h Hs Ha. destruct (Hh s h ltac:(lia) Ha) as [Hf Hu]. split; [|intros s' Hs'; apply Hu; lia].
    apply commit_fresh; [done|]. intros Hc. specialize (Hu first ltac:(lia) Hc). lia. }
  destruct (commit_rec first durable (ans first) q) as [[s1 q1] ms1]. cbn [fst snd] in *. destruct H1 as (Hm1 & He1 & Hd1).
  specialize (IH (first + 1) q1 ops st durable ans Hm1 Hh'). cbv zeta in IH.
  destruct (batch_end n (first + 1) durable ans q1) as [[s2 q2] ms2]. cbn [fst snd] in *. destruct IH as (Hm2 & He2 & Hd2).
  split; [done|]. split; [by eapply evolves_trans|]. intros Hd s Hs. destruct (decide (s = first)) as [->|Hne]; [|apply Hd2; [done|lia]].
  destruct (Hd1 Hd) as (r1 & Hr1 & Hdone). destruct (ev_forth _ _ _ _ He2 _ _ Hr1) as [r2 Hr2]. exists r2. split; [done|].
  destruct (ev_back _ _ _ _ He2 _ _ Hr2) as (r1' & Hr1' & (_ & _ & _ & Hw) & _). apply Hw. congruence.
Qed.

(** ** The section that ends a retraction *)

(** Closed, or not there: nothing will run it. *)
Definition over (q : dq) (s : Z) : Prop := ∀ r, at_seq q s = Some r → r_done r = true.
Lemma evolves_over firm q q' ms s : evolves firm q q' ms → over q s → over q' s.
Proof. intros He Ho r' Hr'. destruct (ev_back _ _ _ _ He _ _ Hr') as (r & Hr & (_ & _ & _ & Hd) & _). apply Hd, Ho, Hr. Qed.

Lemma end_retracting q ops i rc st : memory q (Op true (r_seq rc) 1 st :: ops) → recs q !! i = Some rc →
  let f := λ r : dq_rec, r <| r_retracting ::= λ n, n - 1 |> in
  memory (set_rec i f q) ops ∧ evolves false q (set_rec i f q) [] ∧ r_retracting rc = Z.of_nat (S (flights true (r_seq rc) ops)).
Proof.
  intros Hm Hi f. destruct (memory_rec q _ i rc Hm Hi) as (Hat & H1 & H2 & H3 & H4). pose proof (m_seq _ _ Hm _ _ Hat) as Hs.
  assert (Hcov : ∀ s, covers true s (Op true (r_seq rc) 1 st) ↔ s = r_seq rc) by (intros s; unfold covers; cbn; lia).
  rewrite flights_cons, decide_True in H1 by by apply Hcov.
  split; [|split; [|exact H1]].
  - eapply (memory_update q _ i rc f); try done.
    + change (counted (f rc)) with (counted rc). change (q_pending (set_rec i f q)) with (q_pending q). lia.
    + by apply (slots_same q _ i rc f Hm).
    + intros H. change (r_committing (f rc)) with (r_committing rc) in H. destruct (H4 H) as (_ & _ & _ & H0). lia.
    + change (r_retracting (f rc)) with (r_retracting rc - 1). lia.
    + intros _. apply H2. lia.
    + intros c s Hne. rewrite flights_cons. rewrite decide_False; [done|]. intros Hc. destruct c; [by apply Hcov in Hc|by destruct Hc].
    + pose proof (m_ops _ _ Hm) as Ho. by apply Forall_cons in Ho as [_ Ho].
  - apply (evolves_rec false q i rc f); [apply Hm|apply Hm|done|done| |done|by constructor]. by split.
Qed.

(** Records closed while a call was retracting them, [X] apart. *)
Definition closes (X : Z → Prop) (ops : list op) (q q' : dq) : Prop := ∀ s r r',
  at_seq q s = Some r → at_seq q' s = Some r' → r_done r = false → r_done r' = true → X s ∨ flights true s ops = 0%nat.
Lemma closes_trans X ops firm q1 q2 q3 ms : evolves firm q1 q2 ms → closes X ops q1 q2 → closes X ops q2 q3 → closes X ops q1 q3.
Proof.
  intros He H1 H2 s r1 r3 Hr1 Hr3 Hd1 Hd3. destruct (ev_forth _ _ _ _ He _ _ Hr1) as [r2 Hr2].
  destruct (r_done r2) eqn:Hd2; [by eapply H1|by eapply H2].
Qed.
Lemma evolves_closes X ops q q' ms : memory q ops → evolves true q q' ms → closes X ops q q'.
Proof.
  intros Hm He s r r' Hr Hr' Hd Hd'. destruct (ev_back _ _ _ _ He _ _ Hr') as (r0 & Hr0 & _ & Hs).
  destruct (Hs eq_refl) as [_ Hs']. destruct (m_retract _ _ Hm _ _ Hr) as [Hret _].
  destruct (Hs' Hd') as [H|H]; [congruence|right]. assert (r0 = r) by congruence. subst. lia.
Qed.

Lemma open_pending q ops i rc : memory q ops → recs q !! i = Some rc → closed rc = false → r_committing rc = false → 0 < q_pending q.
Proof.
  intros Hm Hi Hcl Hcm. rewrite (m_pending _ _ Hm). assert (rc ∈ List.filter counted (recs q)) as Hin.
  { apply list_elem_of_In, filter_In. unfold counted. rewrite Hcl, Hcm. split; [|done]. apply list_elem_of_In. by eapply list_elem_of_lookup_2. }
  unfold len. destruct (List.filter counted (recs q)); [by apply elem_of_nil in Hin|cbn; lia].
Qed.

(** Closing the record a retraction was about. *)
Lemma withdraw q ops i rc ans : memory q ops → recs q !! i = Some rc → closed rc = false → r_committing rc = false → honest q ans →
  let q1 := (close_rec i rc false q).1 in
  let q2 := if r_seq rc =? q_trial q1 then (trial_next ans (q1 <| q_trial := 0 |>)).1 else q1 in
  memory q2 ops ∧ evolves false q q2 [] ∧ over q2 (r_seq rc) ∧ closes (λ s, s = r_seq rc) ops q q2.
Proof.
  intros Hm Hi Hcl Hcm Hh q1 q2. destruct (memory_rec q _ i rc Hm Hi) as (Hat & _).
  pose proof (open_pending q ops i rc Hm Hi Hcl Hcm) as Hp.
  set (f := λ r : dq_rec, r <| r_done := true |> <| r_inflight := false |>).
  assert (Hm1 : memory q1 ops) by by apply close_rec_memory.
  assert (He1 : evolves false q q1 []).
  { apply (evolves_rec false q i rc f); [apply Hm|apply Hm|done|done| |done|by constructor]. by split. }
  assert (Hat1 : ∀ s, at_seq q1 s = if decide (s = r_seq rc) then Some (f rc) else at_seq q s).
  { intros s. by apply (at_seq_upd q q1 i rc f s (m_asc _ _ Hm)). }
  assert (Hc1 : closes (λ s, s = r_seq rc) ops q q1).
  { intros s r r' Hr Hr' Hd Hd'. rewrite Hat1 in Hr'. case_decide; [by left|]. congruence. }
  assert (Ho1 : over q1 (r_seq rc)) by (intros r; rewrite Hat1, decide_True by done; by intros [= <-]).
  unfold q2. destruct (r_seq rc =? q_trial q1); [|done].
  pose proof (turn_over q1 ops ans [] q1 (sound_same ops q1 Hm1) eq_refl) as Ht.
  assert (Hh1 : honest q1 ans) by (apply (honest_handles q); [apply (close_rec_handles i rc false q)|done]).
  specialize (Ht Hh1). destruct Ht as [Hm2 He2]. cbn [fst snd] in *. split; [done|].
  split; [apply (evolves_trans false q q1 _ [] []); [done|by eapply evolves_weak]|].
  split; [by eapply evolves_over|]. eapply closes_trans; [exact He1|done|by eapply evolves_closes].
Qed.

Lemma cancel_end_ok q ops s st durable ans : memory q (Op true s 1 st :: ops) → honest q ans →
  let r := cancel_end s durable ans q in
  memory r.1.2 ops ∧ evolves false q r.1.2 r.2 ∧ closes (λ s', s' = s ∧ durable = true) ops q r.1.2 ∧
  (r.1.1 = true ∨ durable = true → over r.1.2 s) ∧ (r.1.1 = true → durable = true ∨ over q s).
Proof.
  intros Hm Hh. unfold cancel_end. destruct (find_by_seq (recs q) s) as [i|] eqn:Hf.
  2: { assert (Hov : over q s).
       { intros r Hr. apply at_seq_Some in Hr as (j & _ & _ & Hj); [|apply Hm]. congruence. }
       cbn [mbind option_bind fst snd].
       assert (Hm' : memory q ops).
       { assert (Hs : ∀ s' r, at_seq q s' = Some r → flights true s' (Op true s 1 st :: ops) = flights true s' ops).
         { intros s' r Hr. rewrite flights_cons, decide_False; [done|]. intros [_ Hc]. cbn in Hc. assert (s' = s) by lia. subst s'.
           apply at_seq_Some in Hr as (j & _ & _ & Hj); [|apply Hm]. congruence. }
         destruct Hm as [H1 H2 H3 H4 H5 H6 H7 H8 H9]. apply Forall_cons in H1 as [_ H1]. split; try done.
         intros s' r Hr. rewrite <-(Hs s' r Hr). by apply H8. }
       split; [done|]. split; [apply evolves_refl|]. split; [|by auto]. intros s' r r' Hr Hr' Hd Hd'. congruence. }
  pose proof (find_by_seq_spec _ s (m_asc _ _ Hm)) as Hspec. rewrite Hf in Hspec. destruct Hspec as (rc & Hi & Hseq).
  cbn [mbind option_bind]. rewrite Hi. cbn [mbind option_bind]. subst s. set (s := r_seq rc) in *.
  destruct (end_retracting q ops i rc st Hm Hi) as (Hm1 & He1 & Hret). set (f := λ r : dq_rec, r <| r_retracting ::= λ n, n - 1 |>) in *.
  set (q1 := set_rec i f q) in *. change (rc <| r_retracting ::= λ n, n - 1 |>) with (f rc).
  assert (Hi1 : recs q1 !! i = Some (f rc)) by (unfold q1; rewrite recs_set_rec, list_lookup_alter_eq; by rewrite Hi).
  destruct (memory_rec q _ i rc Hm Hi) as (Hat & _ & Hnq & _ & Hcm). fold s in Hat. specialize (Hnq ltac:(lia)).
  assert (Hcm1 : r_committing rc = false) by (destruct (r_committing rc); [|done]; destruct (Hcm eq_refl) as (_ & _ & _ & H0); lia).
  assert (Hat1 : ∀ s', at_seq q1 s' = if decide (s' = s) then Some (f rc) else at_seq q s').
  { intros s'. by apply (at_seq_upd q q1 i rc f s' (m_asc _ _ Hm)). }
  assert (Hc1 : ∀ X, closes X ops q q1).
  { intros X s' r r' Hr Hr' Hd Hd'. rewrite Hat1 in Hr'. case_decide as Hs; [|congruence]. subst s'.
    assert (r = rc) by congruence. subst r. injection Hr' as <-. change (r_done (f rc)) with (r_done rc) in Hd'. congruence. }
  assert (Hrest : ∀ X q' ms, sound ops q1 (q', ms) → memory q' ops ∧ evolves false q q' ms ∧ closes X ops q q').
  { intros X q' ms [Hm' He']. cbn [fst snd] in *. split; [done|]. split; [apply (evolves_trans false q q1 q' [] ms He1); by eapply evolves_weak|].
    eapply closes_trans; [exact He1|done|by eapply evolves_closes]. }
  destruct durable.
  - set (g := λ r : dq_rec, r <| r_deferred := 0 |>). set (q2 := set_rec i g q1).
    assert (Hs2 : sound ops q1 (q2, [])) by (by apply (flag_sound q1 ops i (f rc) g)).
    assert (Hi2 : recs q2 !! i = Some (g (f rc))) by (unfold q2; rewrite recs_set_rec, list_lookup_alter_eq; by rewrite Hi1).
    change (closed (f rc)) with (closed rc). destruct (closed rc) eqn:Hcl.
    + cbn [fst snd]. destruct (Hrest (λ s', s' = s ∧ true = true) q2 [] Hs2) as (H1 & H2 & H3). split; [done|]. split; [done|]. split; [done|].
      split; [|by auto]. intros _. eapply evolves_over; [exact H2|]. intros r Hr. unfold closed in Hcl.
      assert (r = rc) by congruence. subst r. by rewrite Hnq, orb_false_r in Hcl.
    + destruct Hs2 as [Hm2 He2]. cbn [fst snd] in *.
      pose proof (withdraw q2 ops i (g (f rc)) ans Hm2 Hi2 Hcl Hcm1) as Hw.
      assert (Hh2 : honest q2 ans).
      { apply (honest_handles q q2); [|done]. transitivity (handles q1); apply handles_set; done. }
      specialize (Hw Hh2). cbv zeta in Hw. change (r_seq (g (f rc))) with s in Hw. change (r_seq (f rc)) with s.
      set (q3 := (close_rec i (g (f rc)) false q2).1) in *.
      set (q4 := if s =? q_trial q3 then (trial_next ans (q3 <| q_trial := 0 |>)).1 else q3) in *.
      match goal with |- context[if s =? ?t then (true, ?a, []) else (true, ?b, [])] =>
        assert (Hr : (if s =? t then (true, a, []) else (true, b, [])) = (true, q4, @nil entry)) end.
      { unfold q4. change (q_trial q3) with (q_trial q). destruct (s =? _); done. }
      rewrite Hr. cbn [fst snd]. destruct Hw as (H1 & H2 & H3 & H4). split; [done|].
      destruct (Hrest (λ s', s' = s ∧ true = true) q2 [] (conj Hm2 He2)) as (_ & H5 & H6).
      split; [by apply (evolves_trans false q q2 q4 [] [])|]. split; [|by auto].
      eapply closes_trans; [exact H5|done|]. intros s' r r' Hr1 Hr2 Hd Hd'. destruct (H4 s' r r' Hr1 Hr2 Hd Hd'); auto.
  - destruct (r_done (f rc)) eqn:Hd.
    { cbn [fst snd]. destruct (Hrest (λ s', s' = s ∧ false = true) q1 [] (sound_same ops q1 Hm1)) as (H1 & H2 & H3).
      split; [done|]. split; [done|]. split; [done|].
      assert (Ho : over q s) by (intros r Hr; assert (r = rc) by congruence; by subst r). split; [|auto].
      intros _. by eapply evolves_over. }
    destruct (Z.eqb_spec (r_retracting (f rc)) 0) as [H0|H0].
    2: { cbn [andb fst snd]. destruct (Hrest (λ s', s' = s ∧ false = true) q1 [] (sound_same ops q1 Hm1)) as (H1 & H2 & H3).
         split; [done|]. split; [done|]. split; [done|]. split; [by intros [|]|done]. }
    cbn [andb]. destruct (negb (r_deferred (f rc) =? 0)).
    2: { cbn [fst snd]. destruct (Hrest (λ s', s' = s ∧ false = true) q1 [] (sound_same ops q1 Hm1)) as (H1 & H2 & H3).
         split; [done|]. split; [done|]. split; [done|]. split; [by intros [|]|done]. }
    set (g := λ r : dq_rec, r <| r_deferred := 0 |>). set (q2 := set_rec i g q1).
    assert (Hs2 : sound ops q1 (q2, [])) by (by apply (flag_sound q1 ops i (f rc) g)).
    assert (Hi2 : recs q2 !! i = Some (g (f rc))) by (unfold q2; rewrite recs_set_rec, list_lookup_alter_eq; by rewrite Hi1).
    assert (Hcl : closed rc = false) by (unfold closed; by rewrite Hnq, orb_false_r).
    set (b := r_deferred (f rc) =? byte_of "Q").
    assert (Hsame : close_rec i (f rc) b q2 = close_rec i (g (f rc)) b q2) by done. rewrite Hsame.
    pose proof (close_rec_sound q2 ops i (g (f rc)) b (proj1 Hs2) Hi2 Hcl Hcm1) as Hs3.
    assert (Hp : 0 < q_pending q2) by (eapply (open_pending q2 ops i (g (f rc))); [apply Hs2|done|done|done]).
    specialize (Hs3 Hp H0). destruct (close_rec i (g (f rc)) b q2) as [q3 ms3].
    pose proof (sound_bind ops q1 q2 [] (q3, ms3) Hs2 Hs3) as Hs. cbn [fst snd app] in *.
    destruct (Hrest (λ s', s' = s ∧ false = true) q3 ms3 Hs) as (H1 & H2 & H3).
    split; [done|]. split; [done|]. split; [done|]. split; [by intros [|]|done].
Qed.

(** ** The drain, the compaction, the open *)

Definition drained (rc : dq_rec) : dq_rec :=
  if r_quarantined rc then rc <| r_quarantined := false |> <| r_done := true |> else rc.
Lemma at_seq_of q s o : ascending (recs q) → at_seq q s = o ↔ match o with
  | Some r => r ∈ recs q ∧ r_seq r = s | None => ∀ i r, recs q !! i = Some r → r_seq r ≠ s end.
Proof. intros Ha. by apply lookup_rec_spec. Qed.
Lemma drain_sound q ops : memory q ops → sound ops q ((drain q).2, []) ∧ handles (drain q).2 = handles q.
Proof.
  intros Hm. assert (Hrecs : recs (drain q).2 = map drained (recs q)) by done. set (q' := (drain q).2) in *.
  assert (Hk : ∀ r, r_seq (drained r) = r_seq r) by (intros r; unfold drained; by destruct (r_quarantined r)).
  assert (Ha' : ascending (recs q')) by (rewrite Hrecs; apply ascending_map; [done|apply Hm]).
  assert (Hat : ∀ s, at_seq q' s = drained <$> at_seq q s).
  { intros s. apply at_seq_of; [done|]. rewrite Hrecs. pose proof (proj1 (at_seq_of q s (at_seq q s) (m_asc _ _ Hm)) eq_refl) as H.
    destruct (at_seq q s) as [r|]; cbn.
    - destruct H as [Hin Hs]. split; [|by rewrite Hk]. apply list_elem_of_In, in_map, list_elem_of_In, Hin.
    - intros i r Hr. change (map drained (recs q)) with (drained <$> recs q) in Hr. rewrite list_lookup_fmap in Hr.
      apply fmap_Some in Hr as (r0 & Hr0 & ->). rewrite Hk. by apply (H i). }
  assert (Hg : ∀ r, closed (drained r) = closed r ∧ r_committing (drained r) = r_committing r ∧ r_handle (drained r) = r_handle r ∧
    r_retracting (drained r) = r_retracting r ∧ r_suspect (drained r) = r_suspect r).
  { intros r. unfold drained, closed. destruct (r_quarantined r) eqn:Hq; [|by rewrite ?Hq]. cbn. rewrite ?Hq, orb_true_r. done. }
  split.
  - split; cbn [fst snd].
    + split.
      * exact (m_ops _ _ Hm).
      * done.
      * intros s r. rewrite Hat. intros (r0 & Hr0 & _)%fmap_Some. by apply (m_seq _ _ Hm s r0).
      * exact (m_next _ _ Hm).
      * change (q_pending q') with (q_pending q). rewrite (m_pending _ _ Hm), Hrecs. clear -Hg.
        cut (length (List.filter counted (recs q)) = length (List.filter counted (map drained (recs q)))); [unfold len; lia|].
        induction (recs q) as [|r l IH]; [done|]. cbn. assert (Hc : counted (drained r) = counted r) by (unfold counted; by destruct (Hg r) as (-> & -> & _)).
        rewrite Hc. destruct (counted r); cbn; by rewrite IH.
      * intros h s. change (q_slots q') with (q_slots q). rewrite (m_slots _ _ Hm), Hat. split.
        -- intros (H0 & r & Hr & Hh & Hc). split; [done|]. exists (drained r). rewrite Hr. destruct (Hg r) as (-> & _ & -> & _). done.
        -- intros (H0 & r & (r0 & Hr0 & ->)%fmap_Some & Hh & Hc). split; [done|]. exists r0. destruct (Hg r0) as (E1 & _ & E2 & _).
           by rewrite E1 in Hc; rewrite E2 in Hh.
      * intros s r. rewrite Hat. intros (r0 & Hr0 & ->)%fmap_Some. destruct (Hg r0) as (-> & -> & -> & -> & ->). by apply (m_commit _ _ Hm s).
      * intros s r. rewrite Hat. intros (r0 & Hr0 & ->)%fmap_Some. destruct (m_retract _ _ Hm s r0 Hr0) as [H1 H2].
        destruct (Hg r0) as (_ & _ & _ & -> & _). split; [done|]. intros H. unfold drained. by rewrite (H2 H), (H2 H).
      * intros s. rewrite (m_submit _ _ Hm), Hat. destruct (at_seq q s) as [r|]; [|done]. cbn. by destruct (Hg r) as (_ & -> & _).
    + split; [done| | |by constructor].
      * intros s r. rewrite Hat. intros (r0 & Hr0 & ->)%fmap_Some. exists r0. split; [done|]. destruct (Hg r0) as (E1 & _ & _ & E2 & _).
        destruct (m_retract _ _ Hm s r0 Hr0) as [_ H2]. split.
        -- split_and!; [unfold drained; by destruct (r_quarantined r0)|unfold drained; by destruct (r_quarantined r0)|by rewrite E1|].
           unfold drained. by destruct (r_quarantined r0).
        -- intros _. split; [done|]. intros Hd. destruct (decide (r_retracting r0 = 0)) as [|H]; [by right|left].
           unfold drained in Hd. by rewrite (H2 H) in Hd.
      * intros s r Hr. rewrite Hat, Hr. by eexists.
  - unfold handles. rewrite Hrecs, map_map. apply map_ext. intros r. apply Hg.
Qed.

Lemma compacted_at q s : ascending (recs q) →
  at_seq (compacted q) s = r ← at_seq q s; if r_done r then None else Some r.
Proof.
  intros Ha. assert (Hrecs : recs (compacted q) = List.filter (λ rc, negb (r_done rc)) (recs q)) by done.
  apply at_seq_of; [rewrite Hrecs; by apply ascending_filter|]. rewrite Hrecs.
  pose proof (proj1 (at_seq_of q s (at_seq q s) Ha) eq_refl) as H.
  assert (Hin : ∀ i r, List.filter (λ rc, negb (r_done rc)) (recs q) !! i = Some r → r ∈ recs q ∧ r_done r = false).
  { intros i r Hi. apply list_elem_of_lookup_2, list_elem_of_In, filter_In in Hi as [Hi Hd]. split; [by apply list_elem_of_In|]. by apply negb_true_iff. }
  destruct (at_seq q s) as [r|] eqn:Hat; cbn.
  - destruct H as [Hr Hs]. destruct (r_done r) eqn:Hd.
    + intros i r' Hi Hs'. apply Hin in Hi as [Hi Hd']. assert (at_seq q s = Some r') by by apply at_seq_of. congruence.
    + split; [|done]. apply list_elem_of_In, filter_In. split; [by apply list_elem_of_In|]. by rewrite Hd.
  - intros i r' Hi Hs'. apply Hin in Hi as [[j Hj]%list_elem_of_lookup_1 _]. by apply (H j r').
Qed.
Lemma compacted_memory q ops : memory q ops → memory (compacted q) ops.
Proof.
  intros Hm. assert (Hat : ∀ s, at_seq (compacted q) s = r ← at_seq q s; if r_done r then None else Some r)
    by (intros s; by apply compacted_at, Hm).
  assert (Hsome : ∀ s r, at_seq (compacted q) s = Some r → at_seq q s = Some r ∧ r_done r = false).
  { intros s r. rewrite Hat. destruct (at_seq q s) as [r0|]; [|done]. cbn. destruct (r_done r0) eqn:Hd; [done|]. by intros [= <-]. }
  split.
  - exact (m_ops _ _ Hm).
  - apply ascending_filter, Hm.
  - intros s r [Hr _]%Hsome. by apply (m_seq _ _ Hm s r).
  - exact (m_next _ _ Hm).
  - change (q_pending (compacted q)) with (q_pending q). rewrite (m_pending _ _ Hm).
    change (recs (compacted q)) with (List.filter (λ rc, negb (r_done rc)) (recs q)).
    induction (recs q) as [|r l IH]; [done|]. cbn. destruct (counted r) eqn:Hc.
    + assert (Hd : r_done r = false) by (unfold counted, closed in Hc; by destruct (r_done r)).
      rewrite Hd. cbn. rewrite Hc. unfold len in *. cbn [length]. lia.
    + destruct (r_done r); cbn; [done|]. by rewrite Hc.
  - intros h s. change (q_slots (compacted q)) with (q_slots q). rewrite (m_slots _ _ Hm), Hat. split.
    + intros (H0 & r & Hr & Hh & Hc). split; [done|]. exists r. rewrite Hr. cbn. destruct (r_done r) eqn:Hd; [|done]. unfold closed in Hc. by rewrite Hd in Hc.
    + intros (H0 & r & Hr & Hh & Hc). split; [done|]. exists r. rewrite <-Hat in Hr. by apply Hsome in Hr as [Hr _].
  - intros s r [Hr _]%Hsome. by apply (m_commit _ _ Hm s r).
  - intros s r [Hr _]%Hsome. by apply (m_retract _ _ Hm s r).
  - intros s. rewrite (m_submit _ _ Hm), Hat. destruct (at_seq q s) as [r|] eqn:Hr; [|done]. cbn.
    destruct (r_done r) eqn:Hd; [|done]. destruct (r_committing r) eqn:Hc; [|done].
    destruct (m_commit _ _ Hm s r Hr Hc) as [Hcl _]. unfold closed in Hcl. by rewrite Hd in Hcl.
Qed.

Lemma opened_memory last_p t : well last_p t → memory (opened t) [].
Proof.
  intros Hw. destruct (live_spec last_p t Hw) as (_ & Ha & _ & Hseq & _).
  assert (Hrecs : recs (opened t) = live t) by done. destruct Hw as [Ho Hst].
  assert (Hrec : ∀ i r, live t !! i = Some r → r_handle r = 0 ∧ r_committing r = false ∧ r_retracting r = 0).
  { intros i r Hi. unfold live, compact_memory, open_table in Hi. cbn [fst] in Hi. apply list_filter_lookup in Hi as (j & Hj & _).
    change (map open_rec (t_recs t)) with (open_rec <$> t_recs t) in Hj. rewrite list_lookup_fmap in Hj.
    apply fmap_Some in Hj as (rc & Hrc & ->). rewrite Forall_lookup in Hst. pose proof (Hst _ _ Hrc) as Hs.
    destruct (open_rec_kept rc Hs) as (_ & _ & _ & _ & Hc & Hr & _). split; [|done]. destruct Hs as [(Hh & _) _ _ _].
    unfold open_rec. repeat case_match; done. }
  assert (Hat : ∀ s r, at_seq (opened t) s = Some r → ∃ i, live t !! i = Some r ∧ r_seq r = s).
  { intros s r H. apply at_seq_Some in H as (i & Hi & Hs & _); [|by rewrite Hrecs]. rewrite Hrecs in Hi. eauto. }
  split.
  - constructor.
  - by rewrite Hrecs.
  - intros s r (i & Hi & <-)%Hat. pose proof (Hseq _ _ Hi). pose proof (o_next _ _ Ho). change (t_next (q_t (opened t))) with (t_next t). lia.
  - change (t_next (q_t (opened t))) with (t_next t). pose proof (o_next _ _ Ho). pose proof (o_last _ _ Ho). lia.
  - rewrite Hrecs. unfold live, compact_memory, open_table, opened, open_table. cbn [fst q_pending].
    assert (Hc : ∀ r, r ∈ map open_rec (t_recs t) → r_committing r = false).
    { intros r Hr. apply list_elem_of_In, in_map_iff in Hr as (rc & <- & Hrc). apply list_elem_of_In in Hrc.
      rewrite Forall_forall in Hst. by destruct (open_rec_kept rc (Hst rc Hrc)) as (_ & _ & _ & _ & ? & _). }
    induction (map open_rec (t_recs t)) as [|r l IH]; [done|]. specialize (IH ltac:(intros r' Hr'; apply Hc; by right)).
    specialize (Hc r ltac:(by left)). assert (Hct : counted r = negb (r_done r || r_quarantined r)) by (unfold counted; by rewrite Hc, andb_true_r).
    cbn. destruct (r_done r) eqn:Hd; cbn; [done|]. cbn in Hct. rewrite Hct. destruct (r_quarantined r); cbn; [done|]. unfold len in *. cbn [length]. lia.
  - intros h s. change (q_slots (opened t)) with (∅ : gmap Z Z). rewrite lookup_empty. split; [done|].
    intros (H0 & r & (i & Hi & _)%Hat & Hh & _). destruct (Hrec _ _ Hi). congruence.
  - intros s r (i & Hi & _)%Hat Hc. destruct (Hrec _ _ Hi) as (_ & ? & _). congruence.
  - intros s r (i & Hi & _)%Hat. by destruct (Hrec _ _ Hi) as (_ & _ & ->).
  - intros s. destruct (at_seq (opened t) s) as [r|] eqn:Hr; [|done]. apply Hat in Hr as (i & Hi & _). by destruct (Hrec _ _ Hi) as (_ & -> & _).
Qed.

End DurableSteps.
