(* ===== verification/DurableWorld.v ===== *)
(** * What the journal holds, whatever the steps

    The invariant that ties the table in memory to the records of the journal file, those
    known to be on disk and those that may yet be cut back, and that every step of
    DurableLog keeps. *)

From S2P Require Import Prelude Engine Journal JournalFacts ReplayFacts DurableQueue DurableFacts DurableSteps Durable.

Module DurableWorld.
Import Engine Journal JournalFacts ReplayFacts DurableQueue DurableLog DurableFacts DurableSteps.

(** ** What a journal says of one record *)

Definition work_of (e : entry) : Prop := e_type e = byte_of "P".
Definition no_work (s : Z) (es : list entry) : Prop := Forall (λ e, work_of e → e_seq e ≠ s) es.
(** What no crash can bring back: the ['D'] is on disk, or the ['P'] is nowhere. *)
Definition erased (s : Z) (es : list entry) (sy : nat) : Prop :=
  no_work s es ∨ ∃ i e, (i < sy)%nat ∧ es !! i = Some e ∧ e_type e = byte_of "D" ∧ e_seq e = s.
Definition rising (es : list entry) : Prop := ∀ i j e e', (i < j)%nat → es !! i = Some e → es !! j = Some e' →
  work_of e' → e_seq e < e_seq e'.

Lemma rising_app es ms : rising es → Forall (λ e, ¬ work_of e) ms → rising (es ++ ms).
Proof.
  intros Hr Hm i j e e' Hij Hi Hj Hp. apply lookup_app_Some in Hj as [Hj|[_ Hj]].
  - apply (Hr i j); [done| |done..]. apply lookup_lt_Some in Hj. rewrite lookup_app_l in Hi by lia. done.
  - rewrite Forall_lookup in Hm. by destruct (Hm _ _ Hj).
Qed.
Lemma rising_prefix es1 es2 : rising (es1 ++ es2) → rising es1.
Proof. intros Hr i j e e' Hij Hi Hj. by apply (Hr i j); [done|apply lookup_app_l_Some..]. Qed.
Lemma rising_legal es : ∀ last_p, rising es → Forall (λ e, 0 < e_seq e ≤ DQ_MAX_SEQ) es →
  Forall (λ e, work_of e → last_p < e_seq e) es → legal last_p es.
Proof.
  induction es as [|e es IH]; intros last_p Hr Hs Hp; [done|]. apply Forall_cons in Hs as [He Hs], Hp as [Hpe Hp].
  split; [lia|]. split; [done|]. apply IH; [|done|].
  - intros i j x y Hij Hi Hj. by apply (Hr (S i) (S j)); [lia|..].
  - apply Forall_lookup. intros i x Hi Hx. unfold next_last. case_match; [|rewrite Forall_lookup in Hp; by apply (Hp i)].
    by apply (Hr 0%nat (S i) e x); [lia|..].
Qed.

Lemma hist_none s es : no_work s es → foldl (hist s) None es = None.
Proof.
  induction es as [|e es IH]; intros Hn; [done|]. apply Forall_cons in Hn as [He Hn]. cbn. unfold hist at 2.
  destruct (Z.eqb_spec (e_seq e) s) as [Hs|]; [|by apply IH]. destruct (Z.eqb_spec (e_type e) (byte_of "P")) as [Ht|]; [|by apply IH].
  by destruct (He Ht).
Qed.
Lemma mark_keeps ty w r : r_name r = r_name (mark ty w r) ∧ r_payload r = r_payload (mark ty w r) ∧
    closed (mark ty w r) = closed r ∨ ty = byte_of "D" ∧ r_done (mark ty w r) = true ∨ ty = byte_of "Q".
Proof.
  unfold mark. destruct (Z.eqb_spec ty (byte_of "D")); [auto|]. destruct (Z.eqb_spec ty (byte_of "Q")); [auto|].
  left. repeat case_match; done.
Qed.
Lemma mark_done ty w r : r_done r = true → r_done (mark ty w r) = true.
Proof. unfold mark. intros H. repeat case_match; done. Qed.

Lemma hist_open s es n p i : rising es → es !! i = Some (Entry (byte_of "P") s n p) →
  (∀ j e, (i < j)%nat → es !! j = Some e → e_seq e = s → ¬ verdict e) →
  ∃ r, foldl (hist s) None es = Some r ∧ r_name r = c_str n ∧ r_payload r = p ∧ closed r = false.
Proof.
  induction es as [|e es IH] using rev_ind; intros Hr Hi Hv; [done|]. rewrite foldl_snoc.
  apply lookup_app_Some in Hi as [Hi|[Hle Hi]].
  - destruct (IH (rising_prefix _ _ Hr) Hi) as (r & -> & Hn & Hp & Hc).
    { intros j x Hij Hj. apply (Hv j x Hij). by apply lookup_app_l_Some. }
    unfold hist. destruct (Z.eqb_spec (e_seq e) s) as [Hs|]; [|by exists r].
    assert (Hlast : (es ++ [e]) !! length es = Some e) by (rewrite lookup_app_r, Nat.sub_diag by lia; done).
    pose proof (lookup_lt_Some _ _ _ Hi) as Hlt. destruct (Z.eqb_spec (e_type e) (byte_of "P")) as [Ht|].
    { pose proof (Hr i (length es) _ e Hlt (lookup_app_l_Some _ _ _ _ Hi) Hlast Ht) as H. cbn in H. lia. }
    exists (mark (e_type e) (raw e) r). split; [done|]. specialize (Hv (length es) e Hlt Hlast Hs).
    destruct (mark_keeps (e_type e) (raw e) r) as [(<- & <- & ->)|[[H _]|H]]; [done| |]; destruct Hv; [by left|by right].
  - apply list_lookup_singleton_Some in Hi as [_ ->]. unfold hist. cbn. rewrite Z.eqb_refl. by eexists.
Qed.
Lemma hist_erased s es : rising es → erased s es (length es) → ∀ r, foldl (hist s) None es = Some r → r_done r = true.
Proof.
  intros Hr [Hn|(i & e0 & Hi & He0 & Ht & Hs)] r; [by rewrite hist_none|]. clear Hi. revert r Hr He0.
  induction es as [|e es IH] using rev_ind; intros r Hr He0; [done|]. rewrite foldl_snoc.
  apply lookup_app_Some in He0 as [Hi|[Hle Hi]].
  - intros H. unfold hist in H. specialize (IH). destruct (Z.eqb_spec (e_seq e) s) as [Hes|]; [|by apply IH; [by eapply rising_prefix|..]].
    assert (Hlast : (es ++ [e]) !! length es = Some e) by (rewrite lookup_app_r, Nat.sub_diag by lia; done).
    pose proof (lookup_lt_Some _ _ _ Hi) as Hlt. destruct (Z.eqb_spec (e_type e) (byte_of "P")) as [Hp|].
    { pose proof (Hr i (length es) _ e Hlt (lookup_app_l_Some _ _ _ _ Hi) Hlast Hp) as Hc. lia. }
    apply fmap_Some in H as (r0 & H0 & ->). apply mark_done, IH; [by eapply rising_prefix|done..].
  - apply list_lookup_singleton_Some in Hi as [_ ->]. unfold hist. rewrite Hs, Z.eqb_refl, Ht. cbn.
    intros (r0 & _ & ->)%fmap_Some. done.
Qed.

(** ** The invariant *)

Record journal_ok (w : world) : Prop := JournalOk {
  j_mem : memory (w_q w) (w_ops w);
  j_rising : rising (w_es w);
  j_seq : Forall (λ e, 0 < e_seq e < t_next (q_t (w_q w)) ∧ fits e) (w_es w);
  j_sync : (w_synced w ≤ length (w_es w))%nat;
  j_wait : ∀ o end_, o ∈ w_ops w → o_state o = WAITING end_ →
    (w_synced w + o_count o ≤ end_ ≤ length (w_es w))%nat ∧
    if o_cancel o then w_es w !! (end_ - 1)%nat = Some (marker "D" (o_first o))
    else ∀ j, (j < o_count o)%nat → ∃ r, at_seq (w_q w) (o_first o + Z.of_nat j) = Some r ∧
           w_es w !! (end_ - o_count o + j)%nat = Some (Entry (byte_of "P") (o_first o + Z.of_nat j) (r_name r) (r_payload r));
  j_one : ∀ o, o ∈ w_ops w → o_cancel o = true → o_count o = 1%nat;
  j_work : ∀ s r, at_seq (w_q w) s = Some r → r_done r = false →
    (r_committing r = true → durable_op false (w_ops w) s = true) → durable_op true (w_ops w) s = false →
    ∃ i, (i < w_synced w)%nat ∧ w_es w !! i = Some (Entry (byte_of "P") s (r_name r) (r_payload r));
  j_verdict : w_broken w = false → ∀ i e r, w_es w !! i = Some e → verdict e → at_seq (w_q w) (e_seq e) = Some r → closed r = false →
    ∃ o, o ∈ w_ops w ∧ covers true (e_seq e) o ∧ (o_state o = DURABLE ∨ o_state o = WAITING (S i));
  j_failed : w_broken w = false → ∀ o s, o ∈ w_ops w → covers false s o → o_state o = FAILED → no_work s (w_es w);
  j_erased : ∀ s, s ∈ w_gone w ∨ durable_op true (w_ops w) s = true ∨ (flights true s (w_ops w) ≠ 0%nat ∧ over (w_q w) s) →
    erased s (w_es w) (w_synced w);
  j_gone : ∀ s, s ∈ w_gone w → s < t_next (q_t (w_q w)) ∧ over (w_q w) s;
  j_lost : ∀ s, s ∈ w_lost w → s < t_next (q_t (w_q w)) ∧ over (w_q w) s ∧ (w_broken w = false → no_work s (w_es w)) }.

Lemma no_work_app s es ms : no_work s es → Forall (λ e, ¬ work_of e) ms → no_work s (es ++ ms).
Proof. intros H1 H2. apply Forall_app. split; [done|]. eapply Forall_impl; [exact H2|]. by intros e He ?. Qed.
Lemma erased_app s es ms sy : erased s es sy → Forall (λ e, ¬ work_of e) ms → erased s (es ++ ms) sy.
Proof.
  intros [H|(i & e & Hi & He & H)] Hm; [left; by apply no_work_app|right]. exists i, e. split; [done|]. split; [|done].
  by apply lookup_app_l_Some.
Qed.
Lemma work_beyond s es nx : Forall (λ e, 0 < e_seq e < nx ∧ fits e) es → nx ≤ s → no_work s es.
Proof. intros H Hs. eapply Forall_impl; [exact H|]. intros e [He _] _. lia. Qed.
Lemma durable_op_spec c ops s : durable_op c ops s = true ↔ ∃ o, o ∈ ops ∧ covers c s o ∧ o_state o = DURABLE.
Proof.
  unfold durable_op. rewrite existsb_exists. split.
  - intros (o & Hin & H). apply andb_true_iff in H as [H1 H2]. apply bool_decide_eq_true in H1. exists o.
    split; [by apply list_elem_of_In|]. split; [done|]. by destruct (o_state o).
  - intros (o & Hin & Hc & Hd). exists o. split; [by apply list_elem_of_In|]. rewrite Hd, bool_decide_true by done. done.
Qed.
Lemma flights_pos c s ops : flights c s ops ≠ 0%nat ↔ ∃ o, o ∈ ops ∧ covers c s o.
Proof.
  unfold flights. split.
  - intros H. destruct (filter (covers c s) ops) as [|o l] eqn:He; [done|]. exists o.
    assert (Ho : o ∈ filter (covers c s) ops) by (rewrite He; by left). apply list_elem_of_filter in Ho. tauto.
  - intros (o & Hin & Hc) H. apply length_zero_iff_nil in H. assert (Ho : o ∈ filter (covers c s) ops) by by apply list_elem_of_filter.
    rewrite H in Ho. by apply elem_of_nil in Ho.
Qed.

(** ** Sections that write markers *)

Section section_steps.
Context (q q' : dq) (es ms kept : list entry) (sy : nat) (ops ops' : list op) (b : bool) (gone lost gone' lost' : list Z).
Hypothesis (Hok : journal_ok (W q es sy ops b gone lost)) (Hmem : memory q' ops') (Hev : evolves false q q' ms).
Hypothesis (Hkept : kept `sublist_of` ms) (Hsub : ∀ o, o ∈ ops' → o ∈ ops).

Lemma kept_marks : Forall (λ e, e_type e ≠ byte_of "P" ∧ 0 < e_seq e < t_next (q_t q) ∧ e_name e = [] ∧ e_payload e = [] ∧
  (verdict e → ∃ r', at_seq q' (e_seq e) = Some r' ∧ closed r' = true)) kept.
Proof.
  pose proof (ev_marks _ _ _ _ Hev) as H. apply Forall_forall. intros e He. rewrite Forall_forall in H. apply H.
  by eapply elem_of_submseteq; [|apply sublist_submseteq].
Qed.
Lemma kept_no_work : Forall (λ e, ¬ work_of e) kept.
Proof. eapply Forall_impl; [exact kept_marks|]. intros e [H _]. done. Qed.
Lemma over_kept s : over q s → over q' s.
Proof. by eapply evolves_over. Qed.

Lemma section_ok :
  (∀ s r r', at_seq q s = Some r → at_seq q' s = Some r' → r_done r' = false →
     (r_committing r' = true → durable_op false ops' s = true) → durable_op true ops' s = false →
     (r_committing r = true → durable_op false ops s = true) ∧ durable_op true ops s = false) →
  (∀ o s, o ∈ ops → covers true s o → o ∈ ops' ∨ o_state o = FAILED ∨ over q' s) →
  (∀ s, flights true s ops' ≠ 0%nat → over q' s → over q s ∨ erased s es sy) →
  (∀ s, s ∈ gone' → s ∈ gone ∨ s < t_next (q_t q) ∧ over q' s ∧ erased s es sy) →
  (∀ s, s ∈ lost' → s ∈ lost ∨ s < t_next (q_t q) ∧ over q' s ∧ (b = false → no_work s es)) →
  journal_ok (W q' (es ++ kept) sy ops' b gone' lost').
Proof.
  intros Hcommit Hwit Hclose Hgone Hlost. destruct Hok as [J1 J2 J3 J4 J5 J5' J6 J7 J8 J9 J10 J11]. cbn [w_q w_es w_synced w_ops w_broken w_gone w_lost] in *.
  pose proof (ev_next _ _ _ _ Hev) as Hnx. pose proof kept_no_work as Hnp.
  assert (Hback : ∀ s r', at_seq q' s = Some r' → ∃ r, at_seq q s = Some r ∧ same_work r r').
  { intros s r' H. destruct (ev_back _ _ _ _ Hev _ _ H) as (r & Hr & Hw & _). eauto. }
  split; cbn [w_q w_es w_synced w_ops w_broken w_gone w_lost].
  - done.
  - by apply rising_app.
  - rewrite Hnx. apply Forall_app. split; [done|]. eapply Forall_impl; [exact kept_marks|].
    intros e (_ & Hs & Hn & Hp & _). split; [done|]. unfold fits. rewrite Hn, Hp. done.
  - rewrite length_app. lia.
  - intros o e Ho He. destruct (J5 o e (Hsub o Ho) He) as [Hle Hw]. split; [rewrite length_app; lia|]. destruct (o_cancel o).
    + by apply lookup_app_l_Some.
    + intros j Hj. destruct (Hw j Hj) as (r & Hr & Hl). destruct (ev_forth _ _ _ _ Hev _ _ Hr) as [r' Hr'].
      destruct (Hback _ _ Hr') as (r0 & Hr0 & Hn & Hp & _). assert (r0 = r) by congruence. subst r0.
      exists r'. split; [done|]. rewrite Hn, Hp. by apply lookup_app_l_Some.
  - intros o Ho. by apply J5', Hsub.
  - intros s r' Hr' Hd Hc Hdo. destruct (Hback _ _ Hr') as (r & Hr & Hn & Hp & _ & Hd').
    destruct (Hcommit s r r' Hr Hr' Hd Hc Hdo) as [H1 H2].
    destruct (J6 s r Hr) as (i & Hi & Hl); [|done|done|].
    + destruct (r_done r); [|done]. by rewrite (Hd' eq_refl) in Hd.
    + exists i. split; [done|]. rewrite Hn, Hp. by apply lookup_app_l_Some.
  - intros Hb i e r' Hi Hv Hr' Hcl. apply lookup_app_Some in Hi as [Hi|[_ Hi]].
    + destruct (Hback _ _ Hr') as (r & Hr & _ & _ & Hcl' & _).
      destruct (J7 Hb i e r Hi Hv Hr) as (o & Ho & Hc & Hs); [destruct (closed r); [|done]; by rewrite (Hcl' eq_refl) in Hcl|].
      destruct (Hwit o (e_seq e) Ho Hc) as [H|[H|H]]; [by exists o|destruct Hs as [Hs|Hs]; congruence|].
      specialize (H r' Hr'). unfold closed in Hcl. by rewrite H in Hcl.
    + pose proof kept_marks as Hm. rewrite Forall_lookup in Hm. destruct (Hm _ _ Hi) as (_ & _ & _ & _ & H).
      destruct (H Hv) as (r0 & Hr0 & Hc0). congruence.
  - intros Hb o s Ho Hc Hf. apply no_work_app; [|done]. by apply (J8 Hb o s); [apply Hsub|..].
  - intros s H. assert (erased s es sy); [|by apply erased_app]. destruct H as [H|[H|[H Ho]]].
    + destruct (Hgone s H) as [H'|(_ & _ & H')]; [apply J9; by left|done].
    + apply J9. right. left. apply durable_op_spec. apply durable_op_spec in H as (o & Ho & H). exists o. split; [by apply Hsub|done].
    + destruct (Hclose s H Ho) as [H'|H']; [|done]. apply J9. right. right. split; [|done].
      apply flights_pos. apply flights_pos in H as (o & Hin & H). exists o. split; [by apply Hsub|done].
  - rewrite Hnx. intros s H. destruct (Hgone s H) as [H'|(H1 & H2 & _)]; [|done]. destruct (J10 s H') as [H1 H2].
    split; [done|by apply over_kept].
  - rewrite Hnx. intros s H. destruct (Hlost s H) as [H'|(H1 & H2 & H3)].
    + destruct (J11 s H') as (H1 & H2 & H3). split; [done|]. split; [by apply over_kept|]. intros Hb. apply no_work_app; [by apply H3|done].
    + split; [done|]. split; [done|]. intros Hb. apply no_work_app; [by apply H3|done].
Qed.
End section_steps.

(** A sound section: no write in flight ends. *)
Lemma sound_ok q q' es ms kept sy ops b gone lost : journal_ok (W q es sy ops b gone lost) → sound ops q (q', ms) →
  kept `sublist_of` ms → journal_ok (W q' (es ++ kept) sy ops b gone lost).
Proof.
  intros Hok [Hm He] Hk. cbn [fst snd] in *. pose proof (j_mem _ Hok) as Hm0. cbn in Hm0.
  apply (section_ok q q' es ms kept sy ops ops b gone lost gone lost Hok Hm (evolves_weak _ _ _ _ He) Hk (λ o H, H)).
  - intros s r r' Hr Hr' Hd Hc Hdo. split; [|done]. intros Hcm. apply Hc. pose proof (m_submit _ _ Hm0 s) as H1.
    pose proof (m_submit _ _ Hm s) as H2. rewrite Hr, Hcm in H1. rewrite Hr' in H2. destruct (r_committing r'); [done|]. lia.
  - intros o s Ho _. by left.
  - intros s Hf Ho. left. intros r Hr. destruct (r_done r) eqn:Hd; [done|]. destruct (ev_forth _ _ _ _ He _ _ Hr) as [r' Hr'].
    destruct (evolves_closes (λ _, False) ops q q' ms Hm0 He s r r' Hr Hr' Hd (Ho _ Hr')); done.
  - intros s Hs. by left.
  - intros s Hs. by left.
Qed.

Lemma event_ok q es sy ops b gone lost k h st flags ans kept : journal_ok (W q es sy ops b gone lost) → honest q ans →
  kept `sublist_of` (on_event k h st flags ans q).2 →
  journal_ok (W (on_event k h st flags ans q).1 (es ++ kept) sy ops b gone lost).
Proof.
  intros Hok Hh Hk. apply (sound_ok q _ es (on_event k h st flags ans q).2); [done| |done].
  pose proof (on_event_sound q ops k h st flags ans (j_mem _ Hok) Hh) as H. by destruct (on_event k h st flags ans q).
Qed.
Lemma recover_ok q es sy ops b gone lost ans ans2 : journal_ok (W q es sy ops b gone lost) → honest q ans →
  honest (recover_loop (length (recs q)) 0 ans q 0).1 ans2 → journal_ok (W (recover ans ans2 q).1 es sy ops b gone lost).
Proof.
  intros Hok H1 H2. rewrite <-(app_nil_r es). apply (sound_ok q _ es []); [done| |constructor].
  destruct (recover_memory q ops ans ans2 (j_mem _ Hok) H1 H2) as [Hm Hr]. split; [done|].
  apply rehandled_evolves; [apply (j_mem _ Hok)|apply Hm|done].
Qed.
Lemma drain_ok q es sy ops b gone lost : journal_ok (W q es sy ops b gone lost) → journal_ok (W (drain q).2 es sy ops b gone lost).
Proof.
  intros Hok. rewrite <-(app_nil_r es). apply (sound_ok q _ es []); [done| |constructor].
  by destruct (drain_sound q ops (j_mem _ Hok)).
Qed.

(** ** Sections that end a write *)

Lemma ops_split (o o' : op) ops1 ops2 : o' ∈ ops1 ++ o :: ops2 → o' = o ∨ o' ∈ ops1 ++ ops2.
Proof. rewrite !elem_of_app, elem_of_cons. tauto. Qed.
Lemma ops_rest (o o' : op) ops1 ops2 : o' ∈ ops1 ++ ops2 → o' ∈ ops1 ++ o :: ops2.
Proof. rewrite !elem_of_app, elem_of_cons. tauto. Qed.
Lemma flights_split c s o ops1 ops2 :
  flights c s (ops1 ++ o :: ops2) = ((if decide (covers c s o) then 1 else 0) + flights c s (ops1 ++ ops2))%nat.
Proof. rewrite (flights_perm c s (ops1 ++ o :: ops2) (o :: ops1 ++ ops2)); [apply flights_cons|]. symmetry. apply Permutation_middle. Qed.
Lemma durable_rest c s o ops1 ops2 : durable_op c (ops1 ++ ops2) s = true → durable_op c (ops1 ++ o :: ops2) s = true.
Proof. rewrite !durable_op_spec. intros (o' & Ho & H). exists o'. split; [by apply ops_rest|done]. Qed.
Lemma honest_batch_at q ans first : honest_batch q ans → honest_at first q ans.
Proof. intros H s h _ Ha. destruct (H s h Ha) as [H1 H2]. split; [done|]. intros s' _. apply H2. Qed.

Lemma committing_flights q ops s r : memory q ops → at_seq q s = Some r → (r_committing r = true ↔ flights false s ops = 1%nat).
Proof. intros Hm Hr. rewrite (m_submit _ _ Hm), Hr. by destruct (r_committing r). Qed.

Lemma committed_ok q es sy ops1 o ops2 b gone lost durable ans kept :
  journal_ok (W q es sy (ops1 ++ o :: ops2) b gone lost) → o_cancel o = false → settled_as o durable → honest_batch q ans →
  let r := batch_end (o_count o) (o_first o) durable ans q in kept `sublist_of` r.2 →
  journal_ok (W r.1.2 (es ++ kept) sy (ops1 ++ ops2) b gone
    ((if durable then [] else seqZ (o_first o) (Z.of_nat (o_count o))) ++ lost)).
Proof.
  intros Hok Hc Hst Hh r Hk. pose proof (j_mem _ Hok) as Hm. cbn in Hm.
  pose proof (memory_perm q _ (o :: ops1 ++ ops2) (symmetry (Permutation_middle ops1 ops2 o)) Hm) as Hm0.
  assert (Hop : o = Op false (o_first o) (o_count o) (o_state o)) by (rewrite <-Hc; by destruct o). rewrite Hop in Hm0.
  destruct (batch_end_ok (o_count o) (o_first o) q (ops1 ++ ops2) _ durable ans Hm0 (honest_batch_at _ _ _ Hh)) as (Hm' & He & Hd).
  fold r in Hm', He, Hd. set (q' := r.1.2) in *.
  assert (Hnot : ∀ s, ¬ covers true s o) by (intros s [H _]; congruence).
  apply (section_ok q q' es r.2 kept sy _ _ b gone lost _ _ Hok Hm' (evolves_weak _ _ _ _ He) Hk (λ o', ops_rest o o' ops1 ops2)).
  - intros s r0 r' Hr Hr' Hnd Hcm Hdo. split.
    + intros Hc0. apply (committing_flights q _ s r0 Hm Hr) in Hc0. rewrite flights_split in Hc0. case_decide as Hcov.
      * destruct durable.
        -- apply durable_op_spec. exists o. split; [apply elem_of_app; right; by left|]. done.
        -- destruct (Hd eq_refl s) as (r1 & Hr1 & Hdone); [apply Hcov|]. congruence.
      * apply durable_rest, Hcm. by apply (committing_flights q' _ s r' Hm' Hr').
    + apply not_true_iff_false. intros H. apply durable_op_spec in H as (o' & Ho & Hcov & Hdu).
      apply ops_split in Ho as [-> | Ho]; [by destruct (Hnot s)|]. apply not_true_iff_false in Hdo. apply Hdo, durable_op_spec. by exists o'.
  - intros o' s Ho Hcov. apply ops_split in Ho as [-> | Ho]; [by destruct (Hnot s)|by left].
  - intros s Hf Ho. left. intros r0 Hr. destruct (r_done r0) eqn:Hd0; [done|]. destruct (ev_forth _ _ _ _ He _ _ Hr) as [r' Hr'].
    destruct (evolves_closes (λ _, False) _ q q' _ Hm He s r0 r' Hr Hr' Hd0 (Ho _ Hr')) as [|H]; [done|].
    rewrite flights_split in H. lia.
  - intros s Hs. by left.
  - intros s Hs. apply elem_of_app in Hs as [Hs|Hs]; [right|by left]. destruct durable; [by apply elem_of_nil in Hs|].
    apply elem_of_seqZ in Hs. split; [|split].
    + pose proof (m_ops _ _ Hm0) as Hw. apply Forall_cons in Hw as [[_ Hw] _]. cbn in Hw. lia.
    + intros r' Hr'. destruct (Hd eq_refl s Hs) as (r1 & Hr1 & Hdone). congruence.
    + intros Hb. apply (j_failed _ Hok Hb o s); [apply elem_of_app; right; by left|by split|done].
Qed.

Lemma retracted_ok q es sy ops1 o ops2 b gone lost durable ans kept :
  journal_ok (W q es sy (ops1 ++ o :: ops2) b gone lost) → o_cancel o = true → settled_as o durable → honest q ans →
  let r := cancel_end (o_first o) durable ans q in kept `sublist_of` r.2 →
  journal_ok (W r.1.2 (es ++ kept) sy (ops1 ++ ops2) b (if r.1.1 then o_first o :: gone else gone) lost).
Proof.
  intros Hok Hc Hst Hh r Hk. pose proof (j_mem _ Hok) as Hm. cbn in Hm.
  assert (Hin : o ∈ ops1 ++ o :: ops2) by (apply elem_of_app; right; by left).
  pose proof (j_one _ Hok o Hin Hc) as Hone.
  pose proof (memory_perm q _ (o :: ops1 ++ ops2) (symmetry (Permutation_middle ops1 ops2 o)) Hm) as Hm0.
  assert (Hop : o = Op true (o_first o) 1 (o_state o)) by (rewrite <-Hc, <-Hone; by destruct o). rewrite Hop in Hm0.
  destruct (cancel_end_ok q (ops1 ++ ops2) (o_first o) _ durable ans Hm0 Hh) as (Hm' & He & Hcl & Hov & Hgone).
  fold r in Hm', He, Hcl, Hov, Hgone. set (q' := r.1.2) in *. set (f := o_first o) in *.
  assert (Hcov : ∀ c s, covers c s o ↔ c = true ∧ s = f).
  { intros c s. unfold covers. rewrite Hc, Hone. fold f. split; [intros [<- ?]|intros [-> ?]]; split; try done; lia. }
  assert (Her : durable = true ∨ over q f → erased f es sy).
  { intros [Hd|Hd]; apply (j_erased _ Hok f); right; [left|right].
    - apply durable_op_spec. exists o. split; [done|]. rewrite Hcov. unfold settled_as in Hst. by rewrite Hd in Hst.
    - split; [|done]. apply flights_pos. exists o. by rewrite Hcov. }
  apply (section_ok q q' es r.2 kept sy _ _ b gone lost _ _ Hok Hm' He Hk (λ o', ops_rest o o' ops1 ops2)).
  - intros s r0 r' Hr Hr' Hnd Hcm Hdo. split.
    + intros Hc0. apply (committing_flights q _ s r0 Hm Hr) in Hc0. rewrite flights_split, decide_False in Hc0 by (rewrite Hcov; by intros []).
      apply durable_rest, Hcm. by apply (committing_flights q' _ s r' Hm' Hr').
    + apply not_true_iff_false. intros H. apply durable_op_spec in H as (o' & Ho & Hc' & Hdu).
      apply ops_split in Ho as [-> | Ho]; [|apply not_true_iff_false in Hdo; apply Hdo, durable_op_spec; by exists o'].
      apply Hcov in Hc' as [_ ->]. unfold settled_as in Hst. destruct durable; [|congruence].
      rewrite (Hov (or_intror eq_refl) r' Hr') in Hnd. done.
  - intros o' s Ho Hc'. apply ops_split in Ho as [-> | Ho]; [|by left]. right. apply Hcov in Hc' as [_ ->].
    unfold settled_as in Hst. destruct durable; [right; apply Hov; by right|by left].
  - intros s Hf Ho. destruct (at_seq q s) as [r0|] eqn:Hr; [|left; intros r0; congruence].
    destruct (r_done r0) eqn:Hd0; [left; intros r1; congruence|right]. destruct (ev_forth _ _ _ _ He _ _ Hr) as [r' Hr'].
    destruct (Hcl s r0 r' Hr Hr' Hd0 (Ho _ Hr')) as [[-> Hd]|H]; [apply Her; by left|done].
  - intros s Hs. destruct r.1.1 eqn:Hr1; [|by left]. apply elem_of_cons in Hs as [-> | Hs]; [right|by left].
    split; [|split; [apply Hov; by left|by apply Her, Hgone]].
    pose proof (m_ops _ _ Hm0) as Hw. apply Forall_cons in Hw as [[_ Hw] _]. cbn in Hw. lia.
  - intros s Hs. by left.
Qed.

(** ** Sections that begin a write *)

Definition alike (r r' : dq_rec) : Prop := r_name r' = r_name r ∧ r_payload r' = r_payload r ∧ r_done r' = r_done r ∧
  closed r' = closed r ∧ r_committing r' = r_committing r.

Section begin_steps.
Context (q q' : dq) (new : list entry) (c : bool) (first : Z) (ops : list op) (st : wstate).
Hypothesis (Hm : memory q ops) (Hm' : memory q' (Op c first (length new) st :: ops)) (Hb : begins q q' new c first).

Lemma begins_next : t_next (q_t q) ≤ t_next (q_t q').
Proof. destruct c; destruct Hb as (H1 & H2 & H3); [lia|]. destruct H3 as (_ & -> & _). pose proof (len_nonneg new). lia. Qed.
Lemma begins_back s r' : at_seq q' s = Some r' →
  (∃ r, at_seq q s = Some r ∧ alike r r') ∨
  (t_next (q_t q) ≤ s ∧ c = false ∧ r_committing r' = true ∧ ∃ j e, s = first + Z.of_nat j ∧ new !! j = Some e ∧
     e = Entry (byte_of "P") s (r_name r') (r_payload r')).
Proof.
  intros Hr'. pose proof (m_seq _ _ Hm' _ _ Hr') as Hs. destruct c; destruct Hb as (H1 & H2 & H3).
  - left. destruct H3 as (rc & Hrc & Hcl & Hcm & Hat). rewrite Hat in Hr'. case_decide as Hd; [|by exists r'].
    injection Hr' as <-. subst s. exists rc. by split.
  - destruct H3 as (Hf & Hn & Hold & Hnew). destruct (Z.ltb_spec s (t_next (q_t q))) as [Hlt|Hge].
    + left. rewrite Hold in Hr' by done. by exists r'.
    + right. split; [done|]. split; [done|]. set (j := Z.to_nat (s - t_next (q_t q))). unfold len in Hn.
      destruct (lookup_lt_is_Some_2 new j) as [e He]; [unfold j; lia|]. destruct (Hnew j e He) as [He' Hat].
      replace (t_next (q_t q) + Z.of_nat j) with s in * by (unfold j; lia). rewrite Hat in Hr'. injection Hr' as <-.
      split; [done|]. exists j, e. split; [rewrite H1; unfold j; lia|]. by rewrite He.
Qed.
Lemma begins_forth s r : at_seq q s = Some r → ∃ r', at_seq q' s = Some r' ∧ alike r r'.
Proof.
  intros Hr. pose proof (m_seq _ _ Hm _ _ Hr) as Hs. assert (is_Some (at_seq q' s)) as [r' Hr'].
  { destruct c; destruct Hb as (H1 & H2 & H3).
    - destruct H3 as (rc & _ & _ & _ & ->). case_decide; [by eexists|by rewrite Hr].
    - destruct H3 as (_ & _ & -> & _); [by rewrite Hr|lia]. }
  exists r'. split; [done|]. destruct (begins_back s r' Hr') as [(r0 & Hr0 & Ha)|[H _]]; [congruence|lia].
Qed.
Lemma begins_over s : s < t_next (q_t q) → over q s ↔ over q' s.
Proof.
  intros Hs. split; intros Ho.
  - intros r' Hr'. destruct (begins_back s r' Hr') as [(r & Hr & _ & _ & Hd & _)|[H _]]; [rewrite Hd; by apply Ho|lia].
  - intros r Hr. destruct (begins_forth s r Hr) as (r' & Hr' & _ & _ & Hd & _). rewrite <-Hd. by apply Ho.
Qed.
Lemma begins_new j e : new !! j = Some e → fits e ∧ 0 < e_seq e < t_next (q_t q') ∧
  if c then e = marker "D" first else e_type e = byte_of "P" ∧ e_seq e = t_next (q_t q) + Z.of_nat j.
Proof.
  intros Hj. pose proof (m_next _ _ Hm). destruct c; destruct Hb as (H1 & H2 & H3).
  - rewrite H1 in Hj. apply list_lookup_singleton_Some in Hj as [_ <-]. destruct H3 as (rc & Hrc & _).
    pose proof (m_seq _ _ Hm _ _ Hrc). split; [by split|]. split; [cbn; lia|done].
  - destruct H3 as (Hf & Hn & _ & Hnew). destruct (Hnew j e Hj) as [He Hat]. rewrite Forall_lookup in Hf.
    split; [by eapply Hf|]. pose proof (m_seq _ _ Hm' _ _ Hat) as Hs. rewrite He. split; [cbn; lia|done].
Qed.
Lemma begins_work left s : left `prefix_of` new → s < t_next (q_t q) → no_work s left.
Proof.
  intros [rest Hl] Hs. apply Forall_lookup. intros j e Hj Hp. assert (Hn : new !! j = Some e) by (rewrite Hl; by apply lookup_app_l_Some).
  destruct (begins_new j e Hn) as (_ & _ & H). destruct c; [by rewrite H in Hp|]. destruct H as [_ H]. lia.
Qed.
Lemma begins_rising es left : left `prefix_of` new → rising es → Forall (λ e, 0 < e_seq e < t_next (q_t q) ∧ fits e) es → rising (es ++ left).
Proof.
  pose proof begins_new as Hbn. intros [rest Hl] Hr Hs i j e e' Hij Hi Hj Hp. apply lookup_app_Some in Hj as [Hj|[Hle Hj]].
  - apply (Hr i j); [done| |done..]. apply lookup_lt_Some in Hj. rewrite lookup_app_l in Hi by lia. done.
  - assert (Hn : new !! (j - length es)%nat = Some e') by (rewrite Hl; by apply lookup_app_l_Some).
    destruct (Hbn _ _ Hn) as (_ & _ & H). destruct c; [by rewrite H in Hp|]. destruct H as [_ H].
    apply lookup_app_Some in Hi as [Hi|[Hle' Hi]].
    + rewrite Forall_lookup in Hs. destruct (Hs _ _ Hi) as [Hse _]. lia.
    + assert (Hn' : new !! (i - length es)%nat = Some e) by (rewrite Hl; by apply lookup_app_l_Some).
      destruct (Hbn _ _ Hn') as (_ & _ & [_ H']). lia.
Qed.
End begin_steps.

Lemma durable_other c o ops s : o_state o ≠ DURABLE → durable_op c (o :: ops) s = durable_op c ops s.
Proof. intros H. unfold durable_op. cbn [existsb]. destruct (o_state o); [|done|]; by rewrite andb_false_r. Qed.
Lemma durable_within c ops s nx : Forall (within nx) ops → durable_op c ops s = true → s < nx.
Proof.
  intros Hw H. apply durable_op_spec in H as (o & Ho & [_ Hc] & _). rewrite Forall_forall in Hw. destruct (Hw o Ho). lia.
Qed.

Lemma begin_ok q q' es sy new left c first st ops b b' gone lost :
  journal_ok (W q es sy ops b gone lost) → memory q' (Op c first (length new) st :: ops) → begins q q' new c first →
  left `prefix_of` new → st ≠ DURABLE → (∀ e, st = WAITING e → e = length (es ++ new) ∧ left = new) →
  (b' = false → b = false ∧ (st ≠ FAILED ∧ left = new ∨ left = [])) →
  journal_ok (W q' (es ++ left) sy (Op c first (length new) st :: ops) b' gone lost).
Proof.
  intros Hok Hm' Hb Hl Hst Hwait Hbr. destruct Hok as [J1 J2 J3 J4 J5 J5' J6 J7 J8 J9 J10 J11]. cbn [w_q w_es w_synced w_ops w_broken w_gone w_lost] in *.
  set (o := Op c first (length new) st) in *. pose proof (begins_next q q' new c first ops st Hm' Hb) as Hnx. pose proof (begins_back q q' new c first ops st Hm' Hb) as Hback.
  pose proof (begins_forth q q' new c first ops st J1 Hm' Hb) as Hforth. pose proof (begins_over q q' new c first ops st J1 Hm' Hb) as Hover.
  pose proof (begins_new q q' new c first ops st J1 Hm' Hb) as Hnew. pose proof (begins_work q q' new c first ops st J1 Hm' Hb left) as Hwork.
  assert (Hsame : ∀ c s, durable_op c (o :: ops) s = durable_op c ops s) by (intros ??; by apply durable_other).
  assert (Hlt : ∀ j e, left !! j = Some e → new !! j = Some e) by (destruct Hl as [rest ->]; intros j e Hj; by apply lookup_app_l_Some).
  assert (Hfar : ∀ i e, es !! i = Some e → e_seq e < t_next (q_t q)).
  { intros i e He. rewrite Forall_lookup in J3. destruct (J3 _ _ He) as [? _]. lia. }
  split; cbn [w_q w_es w_synced w_ops w_broken w_gone w_lost].
  - done.
  - by apply (begins_rising q q' new c first ops st J1 Hm' Hb es left Hl).
  - apply Forall_app. split.
    + eapply Forall_impl; [exact J3|]. intros e [Hs Hf]. split; [lia|done].
    + apply Forall_lookup. intros j e Hj. destruct (Hnew j e (Hlt j e Hj)) as (Hf & Hs & _). done.
  - rewrite length_app. lia.
  - intros o' e Ho He. apply elem_of_cons in Ho as [-> | Ho].
    + destruct (Hwait e He) as [-> ->]. split; [rewrite length_app; unfold o; cbn [o_count]; lia|]. unfold o; cbn [o_cancel o_first o_count].
      destruct c eqn:Hc.
      * destruct Hb as (-> & _). rewrite length_app. cbn [length]. replace (length es + 1 - 1)%nat with (length es) by lia.
        by rewrite lookup_app_r, Nat.sub_diag by lia.
      * intros j Hj. destruct (lookup_lt_is_Some_2 new j Hj) as [x Hx]. destruct Hb as (Hf & _ & _ & _ & _ & Hn).
        destruct (Hn j x Hx) as [He' Hat]. rewrite <-Hf in *. eexists. split; [exact Hat|].
        rewrite length_app. replace (length es + length new - length new + j)%nat with (length es + j)%nat by lia.
        rewrite lookup_app_r by lia. replace (length es + j - length es)%nat with j by lia. by rewrite Hx, He'.
    + destruct (J5 o' e Ho He) as [Hle Hw]. split; [rewrite length_app; lia|]. destruct (o_cancel o'); [by apply lookup_app_l_Some|].
      intros j Hj. destruct (Hw j Hj) as (r & Hr & Hlook). destruct (Hforth _ _ Hr) as (r' & Hr' & Hn & Hp & _).
      exists r'. split; [done|]. rewrite Hn, Hp. by apply lookup_app_l_Some.
  - intros o' Ho Hc. apply elem_of_cons in Ho as [-> | Ho]; [|by apply J5']. cbn in Hc. subst c. by destruct Hb as (-> & _).
  - intros s r' Hr' Hd Hc Hdo. rewrite !Hsame in *. destruct (Hback s r' Hr') as [(r & Hr & Hn & Hp & Hd' & _ & Hc')|(Hge & _ & Hcm & _)].
    + destruct (J6 s r Hr) as (i & Hi & Hlook); [congruence|rewrite <-Hc'; done|done|]. exists i. split; [done|]. rewrite Hn, Hp. by apply lookup_app_l_Some.
    + specialize (Hc Hcm). apply (durable_within _ _ _ _ (m_ops _ _ J1)) in Hc. lia.
  - intros Hb0 i e r' Hi Hv Hr' Hcl. destruct (Hbr Hb0) as [Hb1 Hleft]. apply lookup_app_Some in Hi as [Hi|[Hge Hi]].
    + destruct (Hback _ r' Hr') as [(r & Hr & _ & _ & _ & Hcl' & _)|(Hge & _)]; [|specialize (Hfar _ _ Hi); lia].
      destruct (J7 Hb1 i e r Hi Hv Hr) as (o' & Ho & H); [congruence|]. exists o'. split; [by right|done].
    + destruct Hleft as [[Hs ->] | ->]; [|done]. destruct (Hnew _ _ Hi) as (_ & _ & H). destruct c.
      * subst e. exists o. split; [by left|]. destruct Hb as (-> & _). split; [split; [done|cbn; lia]|right].
        apply list_lookup_singleton_Some in Hi as [Hi _]. unfold o. cbn [o_state]. destruct st as [e| |]; [|done|done].
        destruct (Hwait e eq_refl) as [-> _]. rewrite length_app. cbn. f_equal. lia.
      * destruct H as [Ht _]. destruct Hv as [Hv|Hv]; rewrite Ht in Hv; done.
  - intros Hb0 o' s Ho Hc Hf. destruct (Hbr Hb0) as [Hb1 Hleft]. apply Forall_app. apply elem_of_cons in Ho as [-> | Ho].
    + destruct Hleft as [[Hs _] | ->]; [done|]. split; [|by constructor]. destruct Hc as [Hc Hr]. cbn in Hc, Hr. subst c.
      destruct Hb as (-> & _). by apply (work_beyond s es (t_next (q_t q))); [|lia].
    + split; [by apply (J8 Hb1 o' s)|]. apply Hwork; [done|]. pose proof (m_ops _ _ J1) as Hw. rewrite Forall_forall in Hw.
      destruct (Hw o' Ho). destruct Hc as [_ Hc]. lia.
  - intros s H. rewrite Hsame in H.
    assert (s < t_next (q_t q) ∧ erased s es sy) as [Hs [He|(i & e & Hi & He & H')]].
    { destruct H as [H|[H|[H Ho]]].
      - split; [by apply J10|]. apply J9. by left.
      - split; [by apply (durable_within _ _ _ _ (m_ops _ _ J1)) in H|]. apply J9. auto.
      - rewrite flights_cons in H. case_decide as Hc.
        + exfalso. destruct Hc as [Hc Hr]. cbn in Hc, Hr. subst c. destruct Hb as (Hn & _ & rc & Hrc & Hcl & _ & Hat). rewrite Hn in Hr. cbn in Hr.
          assert (s = first) by lia. subst s. specialize (Hat first). rewrite decide_True in Hat by done. specialize (Ho _ Hat).
          cbn in Ho. unfold closed in Hcl. by rewrite Ho in Hcl.
        + assert (s < t_next (q_t q)).
          { apply flights_pos in H as (o' & Ho' & [_ Hc']). pose proof (m_ops _ _ J1) as Hw. rewrite Forall_forall in Hw. destruct (Hw o' Ho'). lia. }
          split; [done|]. apply J9. right. right. split; [done|]. by apply Hover. }
    + left. apply Forall_app. split; [done|by apply Hwork].
    + right. exists i, e. split; [done|]. split; [by apply lookup_app_l_Some|done].
  - intros s Hs. destruct (J10 s Hs) as [H1 H2]. split; [lia|by apply Hover].
  - intros s Hs. destruct (J11 s Hs) as (H1 & H2 & H3). split; [lia|]. split; [by apply Hover|]. intros Hb0. destruct (Hbr Hb0) as [Hb1 _].
    apply Forall_app. split; [by apply H3|by apply Hwork].
Qed.

(** ** The end of an fsync *)

Definition same_write (g : op → op) : Prop := ∀ o, o_cancel (g o) = o_cancel o ∧ o_first (g o) = o_first o ∧ o_count (g o) = o_count o.
Lemma same_covers g c s o : same_write g → covers c s (g o) ↔ covers c s o.
Proof. intros Hg. destruct (Hg o) as (H1 & H2 & H3). unfold covers. by rewrite H1, H2, H3. Qed.
Lemma memory_map q ops g : same_write g → memory q ops → memory q (map g ops).
Proof.
  intros Hg [H1 H2 H3 H4 H5 H6 H7 H8 H9]. split; [|exact H2|exact H3|exact H4|exact H5|exact H6|exact H7| |].
  - apply Forall_map. eapply Forall_impl; [exact H1|]. intros o Ho. unfold within, compose in *. by destruct (Hg o) as (_ & -> & ->).
  - intros s r. rewrite flights_settle by done. apply H8.
  - intros s. rewrite flights_settle by done. apply H9.
Qed.
Lemma settle_ok_same k : same_write (settle_ok k).
Proof. intros [c f n [e| |]]; cbn; [case_decide|..]; done. Qed.
Lemma settle_failed_same : same_write settle_failed.
Proof. by intros [c f n []]. Qed.
Lemma elem_of_map (g : op → op) o ops : o ∈ map g ops → ∃ o', o = g o' ∧ o' ∈ ops.
Proof. intros H. apply list_elem_of_In, in_map_iff in H as (o' & <- & H). exists o'. split; [done|]. by apply list_elem_of_In. Qed.
Lemma in_map_op (g : op → op) o ops : o ∈ ops → g o ∈ map g ops.
Proof. intros H. by apply list_elem_of_In, in_map, list_elem_of_In. Qed.

Lemma erased_mono s es sy k : erased s es sy → (sy ≤ k)%nat → erased s es k.
Proof. intros [H|(i & e & Hi & H)] Hk; [by left|right]. exists i, e. split; [lia|done]. Qed.

Lemma synced_ok q es sy ops b gone lost k : journal_ok (W q es sy ops b gone lost) → (sy ≤ k ≤ length es)%nat → Forall (unsplit k) ops →
  journal_ok (W q es k (map (settle_ok k) ops) b gone lost).
Proof.
  intros [J1 J2 J3 J4 J5 J5' J6 J7 J8 J9 J10 J11] Hk Huns. cbn [w_q w_es w_synced w_ops w_broken w_gone w_lost] in *.
  pose proof (settle_ok_same k) as Hg.
  assert (Hwas : ∀ o, o_state (settle_ok k o) = o_state o ∨ ∃ e, o_state o = WAITING e ∧ (e ≤ k)%nat ∧ o_state (settle_ok k o) = DURABLE).
  { intros [c f n [e| |]]; [|by left..]. unfold settle_ok. cbn. case_decide; [right; by exists e|by left]. }
  assert (Hdu : ∀ c s, durable_op c (map (settle_ok k) ops) s = true → durable_op c ops s = true ∨
    ∃ o e, o ∈ ops ∧ covers c s o ∧ o_state o = WAITING e ∧ (e ≤ k)%nat).
  { intros c s H. apply durable_op_spec in H as (o & (o' & -> & Ho)%elem_of_map & Hc & Hs). rewrite (same_covers _ _ _ _ Hg) in Hc.
    destruct (Hwas o') as [Hw|(e & He & Hle & _)]; [left|right; exists o', e; split; [exact Ho|split; [exact Hc|split; [exact He|exact Hle]]]].
    apply durable_op_spec. exists o'. rewrite Hw in Hs. done. }
  assert (Hdu' : ∀ c s, durable_op c (map (settle_ok k) ops) s = false → durable_op c ops s = false).
  { intros c s H. apply not_true_iff_false. intros H'. apply not_true_iff_false in H. apply H. apply durable_op_spec in H' as (o & Ho & Hc & Hs).
    apply durable_op_spec. exists (settle_ok k o). split; [by apply in_map_op|]. split; [by apply same_covers|].
    destruct (Hwas o) as [-> |(e & He & _)]; [done|congruence]. }
  split; cbn [w_q w_es w_synced w_ops w_broken w_gone w_lost]; try done.
  - by apply memory_map.
  - lia.
  - intros o e (o' & -> & Ho)%elem_of_map He. destruct (Hg o') as (-> & -> & ->).
    destruct (Hwas o') as [Hw|(e' & _ & _ & Hw)]; [rewrite Hw in He|congruence]. destruct (J5 o' e Ho He) as [Hle Hx]. split; [|done].
    rewrite Forall_forall in Huns. specialize (Huns o' Ho). unfold unsplit in Huns. rewrite He in Huns. destruct Huns as [Hu|Hu]; [|lia].
    exfalso. destruct o' as [c f n st]. cbn in He. subst st. unfold settle_ok in Hw. cbn in Hw. by rewrite decide_True in Hw.
  - intros o (o' & -> & Ho)%elem_of_map Hc. destruct (Hg o') as (Hc' & _ & ->). apply J5'; congruence.
  - intros s r Hr Hd Hc Hdo.
    assert (Hor : (r_committing r = true → durable_op false ops s = true) ∨
      ∃ o e, o ∈ ops ∧ covers false s o ∧ o_state o = WAITING e ∧ (e ≤ k)%nat).
    { destruct (r_committing r); [|by left]. destruct (Hdu _ _ (Hc eq_refl)) as [H|H]; [by left|by right]. }
    destruct Hor as [Hor|(o & e & Ho & Hcov & He & Hle)].
    + destruct (J6 s r Hr Hd Hor (Hdu' _ _ Hdo)) as (i & Hi & Hl). exists i. split; [lia|done].
    + destruct (J5 o e Ho He) as [Hle' Hx]. destruct Hcov as [Hcc Hcr]. rewrite Hcc in Hx.
      destruct (Hx (Z.to_nat (s - o_first o))) as (r' & Hr' & Hl); [lia|].
      replace (o_first o + Z.of_nat (Z.to_nat (s - o_first o))) with s in * by lia. assert (r' = r) by congruence. subst r'.
      eexists. split; [|exact Hl]. lia.
  - intros Hb i e r Hi Hv Hr Hcl. destruct (J7 Hb i e r Hi Hv Hr Hcl) as (o & Ho & Hc & Hs). exists (settle_ok k o).
    split; [by apply in_map_op|]. split; [by apply same_covers|]. destruct (Hwas o) as [-> |(e' & _ & _ & ->)]; [done|by left].
  - intros Hb o s (o' & -> & Ho)%elem_of_map Hc Hf. rewrite (same_covers _ _ _ _ Hg) in Hc.
    destruct (Hwas o') as [Hw|(e' & _ & _ & Hw)]; [|congruence]. apply (J8 Hb o' s); [done|done|congruence].
  - intros s H. rewrite flights_settle in H by done.
    assert (erased s es sy ∨ ∃ o e, o ∈ ops ∧ covers true s o ∧ o_state o = WAITING e ∧ (e ≤ k)%nat) as [He|(o & e & Ho & Hcov & He & Hle)].
    { destruct H as [H|[H|H]]; [left; apply J9; auto| |left; apply J9; auto]. destruct (Hdu _ _ H) as [H'|H']; [left; apply J9; auto|by right]. }
    + eapply erased_mono; [exact He|lia].
    + right. destruct (J5 o e Ho He) as [Hle' Hx]. destruct Hcov as [Hcc Hcr]. rewrite Hcc in Hx. rewrite (J5' o Ho Hcc) in *.
      exists (e - 1)%nat. eexists. split; [|split; [exact Hx|]]; [lia|]. split; [done|]. cbn. lia.
Qed.

Lemma failed_ok q es sy ops b gone lost (cut : bool) : journal_ok (W q es sy ops b gone lost) →
  journal_ok (W q (if cut then take sy es else es) sy (map settle_failed ops) (if cut then b else true) gone lost).
Proof.
  intros [J1 J2 J3 J4 J5 J5' J6 J7 J8 J9 J10 J11]. cbn [w_q w_es w_synced w_ops w_broken w_gone w_lost] in *.
  pose proof settle_failed_same as Hg. set (es' := if cut then take sy es else es).
  assert (Hpre : es' `prefix_of` es) by (unfold es'; destruct cut; [apply prefix_take|done]).
  assert (Hkeep : ∀ i, (i < sy)%nat → es' !! i = es !! i) by (intros i Hi; unfold es'; destruct cut; [by apply lookup_take_lt|done]).
  assert (Hall : ∀ P : entry → Prop, Forall P es → Forall P es') by (intros P HP; destruct Hpre as [x Hx]; rewrite Hx in HP; by apply Forall_app in HP as [? _]).
  assert (Hget : ∀ i e, es' !! i = Some e → es !! i = Some e) by (destruct Hpre as [x Hx]; intros i e Hi; rewrite Hx; by apply lookup_app_l_Some).
  assert (Hdu : ∀ c s, durable_op c (map settle_failed ops) s = durable_op c ops s).
  { intros c s. apply eq_bool_prop_intro. rewrite !Is_true_true, !durable_op_spec. split.
    - intros (o & (o' & -> & Ho)%elem_of_map & Hc & Hs). exists o'. split; [done|]. split; [by rewrite (same_covers _ _ _ _ Hg) in Hc|].
      destruct o' as [c' f n []]; done.
    - intros (o & Ho & Hc & Hs). exists (settle_failed o). split; [by apply in_map_op|]. split; [by apply same_covers|]. unfold settle_failed. by rewrite Hs. }
  split; cbn [w_q w_es w_synced w_ops w_broken w_gone w_lost]; try done.
  - by apply memory_map.
  - destruct Hpre as [x Hx]. rewrite Hx in J2. by eapply rising_prefix.
  - by apply Hall.
  - unfold es'. destruct cut; [rewrite length_take|]; lia.
  - intros o e (o' & -> & Ho)%elem_of_map He. by destruct o' as [c' f n []].
  - intros o (o' & -> & Ho)%elem_of_map Hc. destruct (Hg o') as (Hc' & _ & ->). apply J5'; congruence.
  - intros s r Hr Hd Hc Hdo. rewrite Hdu in *. destruct (J6 s r Hr Hd Hc Hdo) as (i & Hi & Hl). exists i. split; [done|]. by rewrite Hkeep.
  - intros Hb i e r Hi Hv Hr Hcl. destruct cut; [|done]. assert (Hlt : (i < sy)%nat) by (apply lookup_lt_Some in Hi; unfold es' in Hi; rewrite length_take in Hi; lia).
    destruct (J7 Hb i e r (Hget _ _ Hi) Hv Hr Hcl) as (o & Ho & Hc & [Hs|Hs]).
    + exists (settle_failed o). split; [by apply in_map_op|]. split; [by apply same_covers|]. left. unfold settle_failed. by rewrite Hs.
    + exfalso. destruct (J5 o (S i) Ho Hs) as [Hle _]. destruct Hc as [Hc _]. rewrite (J5' o Ho Hc) in Hle. lia.
  - intros Hb o s (o' & -> & Ho)%elem_of_map Hc Hf. destruct cut; [|done]. rewrite (same_covers _ _ _ _ Hg) in Hc.
    destruct (o_state o') as [e| |] eqn:Hs; [|unfold settle_failed in Hf; rewrite Hs in Hf; congruence|by apply Hall, (J8 Hb o' s)].
    destruct (J5 o' e Ho Hs) as [Hle Hx]. destruct Hc as [Hcc Hcr]. rewrite Hcc in Hx.
    destruct (Hx (Z.to_nat (s - o_first o'))) as (r & Hr & Hl); [lia|].
    replace (o_first o' + Z.of_nat (Z.to_nat (s - o_first o'))) with s in * by lia.
    apply Forall_lookup. intros i x Hi Hp Hxs. assert (Hlt : (i < sy)%nat) by (apply lookup_lt_Some in Hi; unfold es' in Hi; rewrite length_take in Hi; lia).
    assert (Hix : (i < e - o_count o' + Z.to_nat (s - o_first o'))%nat) by lia.
    pose proof (J2 _ _ _ _ Hix (Hget _ _ Hi) Hl eq_refl) as H. cbn in H. lia.
  - intros s H. rewrite Hdu, flights_settle in H by done. destruct (J9 s H) as [Hn|(i & e & Hi & He & Hx)]; [left; by apply Hall|right].
    exists i, e. split; [done|]. by rewrite Hkeep.
  - intros s Hs. destruct (J11 s Hs) as (H1 & H2 & H3). split; [done|]. split; [done|]. intros Hb. destruct cut; [|done]. by apply Hall, H3.
Qed.

(** ** Compaction *)

Lemma rewrite_rec_entries r e : e ∈ rewrite_rec r → e_seq e = r_seq r ∧
  (work_of e → e = Entry (byte_of "P") (r_seq r) (r_name r) (r_payload r)) ∧ (verdict e → r_quarantined r = true).
Proof.
  unfold rewrite_rec, work_of, verdict. rewrite elem_of_cons, !elem_of_app. intros [-> | H].
  - split; [done|]. split; [done|]. by intros [|].
  - destruct H as [H|[H|H]].
    + destruct (r_crashes r =? 0); [by apply elem_of_nil in H|]. apply list_elem_of_singleton in H as ->. split; [done|]. split; [done|]. by intros [|].
    + destruct (r_inflight r); [|by apply elem_of_nil in H]. apply list_elem_of_singleton in H as ->. split; [done|]. split; [done|]. by intros [|].
    + destruct (r_quarantined r); [|by apply elem_of_nil in H]. apply list_elem_of_singleton in H as ->. split; [done|]. by split.
Qed.
Lemma rewrite_entry l e : e ∈ concat (map rewrite_rec l) ↔ ∃ r, r ∈ l ∧ e ∈ rewrite_rec r.
Proof.
  rewrite list_elem_of_In, in_concat. split.
  - intros (x & (r & <- & Hr)%in_map_iff & He). exists r. by rewrite !list_elem_of_In.
  - intros (r & Hr & He). exists (rewrite_rec r). rewrite !list_elem_of_In in *. split; [by apply in_map|done].
Qed.
Lemma rising_cons e es : Forall (λ e', work_of e' → e_seq e < e_seq e') es → rising es → rising (e :: es).
Proof.
  intros H Hr [|i] [|j] x y Hij Hi Hj Hp; try lia; cbn in Hi, Hj.
  - injection Hi as ->. rewrite Forall_lookup in H. by eapply H.
  - by apply (Hr i j); [lia|..].
Qed.
Lemma rewrite_rising l : ascending l → rising (concat (map rewrite_rec l)).
Proof.
  induction l as [|r l IH]; intros Ha; [by intros ????? Hi|]. cbn [map concat].
  assert (Hrest : ∀ e', e' ∈ concat (map rewrite_rec l) → r_seq r < e_seq e').
  { intros e' (r' & [i Hi]%list_elem_of_lookup_1 & He)%rewrite_entry. destruct (rewrite_rec_entries r' e' He) as [-> _].
    by apply (Ha 0%nat (S i)); [lia|..]. }
  specialize (IH ltac:(intros i j a b' Hij Hi Hj; by apply (Ha (S i) (S j)); [lia|..])).
  assert (Htail : ∀ ms, (∀ e, e ∈ ms → e ∈ rewrite_rec r) → (∀ e, e ∈ ms → ¬ work_of e) → rising (ms ++ concat (map rewrite_rec l))).
  { induction ms as [|m ms IHm]; intros H1 H2; [done|]. cbn. apply rising_cons.
    - apply Forall_forall. intros e' [He|He]%elem_of_app Hp; [destruct (H2 e'); [by right|done]|].
      destruct (rewrite_rec_entries r m) as [-> _]; [apply H1; by left|]. by apply Hrest.
    - apply IHm; intros e He; [apply H1|apply H2]; by right. }
  unfold rewrite_rec at 1. rewrite <-app_comm_cons. apply rising_cons; [|apply Htail].
  - apply Forall_forall. intros e' [He|He]%elem_of_app Hp; [|by apply Hrest]. exfalso. revert Hp. rewrite !elem_of_app in He. destruct He as [He|[He|He]];
      case_match; try (by apply elem_of_nil in He); by apply list_elem_of_singleton in He as ->.
  - intros e He. unfold rewrite_rec. by right.
  - intros e He. rewrite !elem_of_app in He. destruct He as [He|[He|He]];
      case_match; try (by apply elem_of_nil in He); by apply list_elem_of_singleton in He as ->.
Qed.
Lemma written_fits es bs : written es = Some bs → Forall fits es.
Proof.
  revert bs. induction es as [|e es IH]; intros bs; [by constructor|]. cbn [written]. unfold write, write_record.
  destruct ((DQ_MAX_NAME <? len (e_name e)) || (DQ_MAX_PAYLOAD <? len (e_payload e))) eqn:Hc; [done|]. apply orb_false_iff in Hc as [H1 H2].
  apply Z.ltb_ge in H1, H2. destruct (written es) as [bs'|]; [|done]. intros _. constructor; [by split|by eapply IH].
Qed.

Lemma rewritten_ok q ops es l broken gone lost : memory q ops → es = concat (map rewrite_rec l) → Forall fits es → ascending l →
  (∀ o, o ∈ ops → waiting o = false) → (∀ o, o ∈ ops → o_cancel o = true → o_count o = 1%nat) →
  (∀ r, r ∈ l → at_seq q (r_seq r) = Some r ∧ r_done r = false ∧ (r_committing r = true → durable_op false ops (r_seq r) = true) ∧
     durable_op true ops (r_seq r) = false) →
  (∀ s r, at_seq q s = Some r → r_done r = false → (r_committing r = true → durable_op false ops s = true) → durable_op true ops s = false → r ∈ l) →
  (∀ s, s ∈ gone → s < t_next (q_t q) ∧ over q s) → (∀ s, s ∈ lost → s < t_next (q_t q) ∧ over q s) →
  journal_ok (W q es (length es) ops broken gone lost).
Proof.
  intros Hm Hes Hfit Ha Hidle Hone Hin Hout Hgone Hlost.
  assert (Hsrc : ∀ e, e ∈ es → ∃ r, r ∈ l ∧ e_seq e = r_seq r ∧ at_seq q (e_seq e) = Some r ∧ r_done r = false ∧
     (work_of e → e = Entry (byte_of "P") (r_seq r) (r_name r) (r_payload r)) ∧ (verdict e → r_quarantined r = true)).
  { intros e He. rewrite Hes in He. apply rewrite_entry in He as (r & Hr & He). destruct (rewrite_rec_entries r e He) as (Hs & Hw & Hv).
    destruct (Hin r Hr) as (Hat & Hd & _). exists r. rewrite Hs. by split_and!. }
  assert (Hover : ∀ s, over q s → no_work s es).
  { intros s Ho. apply Forall_forall. intros e He _ Hs. destruct (Hsrc e He) as (r & _ & _ & Hat & Hd & _). rewrite Hs in Hat. specialize (Ho r Hat). congruence. }
  split; cbn [w_q w_es w_synced w_ops w_broken w_gone w_lost]; try done.
  - rewrite Hes. by apply rewrite_rising.
  - apply Forall_forall. intros e He. split; [|by rewrite Forall_forall in Hfit; apply Hfit]. destruct (Hsrc e He) as (r & _ & _ & Hat & _). by apply (m_seq _ _ Hm) in Hat.
  - intros o e Ho He. specialize (Hidle o Ho). unfold waiting in Hidle. by rewrite He in Hidle.
  - intros s r Hr Hd Hc Hdo. pose proof (Hout s r Hr Hd Hc Hdo) as Hl.
    assert (Hs : r_seq r = s) by (apply at_seq_Some in Hr as (_ & _ & ? & _); [done|apply Hm]).
    assert (He : Entry (byte_of "P") s (r_name r) (r_payload r) ∈ es).
    { rewrite Hes. apply rewrite_entry. exists r. split; [done|]. unfold rewrite_rec. rewrite Hs. by left. }
    apply list_elem_of_lookup_1 in He as [i Hi]. exists i. split; [by apply lookup_lt_Some in Hi|done].
  - intros _ i e r Hi Hv Hr Hcl. apply list_elem_of_lookup_2 in Hi. destruct (Hsrc e Hi) as (r' & _ & _ & Hat & _ & _ & Hq).
    assert (r' = r) by congruence. subst r'. unfold closed in Hcl. by rewrite (Hq Hv), orb_true_r in Hcl.
  - intros _ o s Ho Hc Hf. apply Forall_forall. intros e He _ Hs. destruct (Hsrc e He) as (r & Hl & Hsr & Hat & _). destruct (Hin r Hl) as (_ & _ & Hdu & _).
    rewrite Hs in *. assert (Hfl : flights false s ops ≠ 0%nat) by (apply flights_pos; eauto).
    pose proof (m_submit _ _ Hm s) as Hsub. rewrite Hat in Hsub. destruct (r_committing r); [|done].
    specialize (Hdu eq_refl). rewrite <-Hsr in Hdu. apply durable_op_spec in Hdu as (o' & Ho' & Hc' & Hd').
    unfold flights in Hsub. destruct (filter (covers false s) ops) as [|x [|y rest]] eqn:Hfil; try done.
    assert (o ∈ [x] ∧ o' ∈ [x]) as [H1 H2] by (rewrite <-Hfil; split; by apply list_elem_of_filter).
    apply list_elem_of_singleton in H1, H2. congruence.
  - intros s H. left. destruct H as [H|[H|[_ H]]]; [by apply Hover, Hgone| |by apply Hover].
    apply Forall_forall. intros e He _ Hs. destruct (Hsrc e He) as (r & Hl & Hsr & _). destruct (Hin r Hl) as (_ & _ & _ & Hnd). congruence.
  - intros s Hs. destruct (Hlost s Hs) as [H1 H2]. split; [done|]. split; [done|]. intros _. by apply Hover.
Qed.

Lemma compact_ok q es sy ops b gone lost reopened : journal_ok (W q es sy ops b gone lost) → forallb (λ o, negb (waiting o)) ops = true →
  let es' := rewrite_entries (durable_op false ops) (durable_op true ops) (recs q) in is_Some (written es') →
  journal_ok (W (compacted q) es' (length es') ops (negb reopened) gone lost).
Proof.
  intros Hok Hidle es' [bs Hbs]. pose proof (j_mem _ Hok) as Hm. cbn in Hm.
  assert (Hat : ∀ s, at_seq (compacted q) s = r ← at_seq q s; if r_done r then None else Some r) by (intros s; by apply compacted_at, Hm).
  assert (Hover : ∀ s, over q s → over (compacted q) s).
  { intros s Ho r. rewrite Hat. destruct (at_seq q s) as [r0|] eqn:Hr; [|done]. cbn. by rewrite (Ho r0 Hr). }
  set (l := List.filter (kept (durable_op false ops) (durable_op true ops)) (recs q)).
  apply (rewritten_ok (compacted q) ops es' l).
  - by apply compacted_memory.
  - done.
  - by eapply written_fits.
  - apply Durable.ascending_filter, Hm.
  - intros o Ho. rewrite forallb_forall in Hidle. apply negb_true_iff, Hidle. by apply list_elem_of_In.
  - exact (j_one _ Hok).
  - intros r Hr. apply list_elem_of_In, filter_In in Hr as [Hr Hk]. apply list_elem_of_In, list_elem_of_lookup_1 in Hr as [i Hi].
    destruct (memory_rec q ops i r Hm Hi) as (Hr & Hret & _). unfold kept in Hk. apply andb_true_iff in Hk as [Hk H3].
    apply andb_true_iff in Hk as [H1 H2]. apply negb_true_iff in H1, H2, H3. rewrite Hat, Hr. cbn. rewrite H1.
    split; [done|]. split; [done|]. split; [intros Hc; rewrite Hc in H2; by apply negb_false_iff in H2|].
    apply not_true_iff_false. intros Hd. rewrite Hd, andb_true_r in H3. apply negb_false_iff, Z.eqb_eq in H3. rewrite H3 in Hret.
    assert (flights true (r_seq r) ops ≠ 0%nat); [|lia]. apply flights_pos. apply durable_op_spec in Hd as (o & Ho & Hc & _). eauto.
  - intros s r Hr Hd Hc Hdo. rewrite Hat in Hr. destruct (at_seq q s) as [r0|] eqn:Hr0; [|done]. cbn in Hr. destruct (r_done r0); [done|]. injection Hr as ->.
    apply at_seq_Some in Hr0 as (i & Hi & Hs & _); [|apply Hm]. apply list_elem_of_In, filter_In.
    split; [apply list_elem_of_In; by eapply list_elem_of_lookup_2|]. unfold kept. rewrite Hd, Hs, Hdo, andb_false_r, andb_true_r. cbn.
    destruct (r_committing r); [|done]. by rewrite (Hc eq_refl).
  - intros s Hs. destruct (j_gone _ Hok s Hs) as [H1 H2]. split; [done|by apply Hover].
  - intros s Hs. destruct (j_lost _ Hok s Hs) as (H1 & H2 & _). split; [done|by apply Hover].
Qed.

Lemma started_ok last_p t : well last_p t → journal_ok (started t).
Proof.
  intros Hw. destruct (Durable.live_spec last_p t Hw) as (Hk & Ha & Hsd & Hseq & Hfit). pose proof (opened_memory last_p t Hw) as Hm.
  destruct (Durable.reopen_entries last_p t Hw) as (es0 & bs & nx & Hro & Hbs & _).
  assert (Hrecs : recs (opened t) = Durable.live t) by done. unfold started. cbv zeta.
  set (es := rewrite_entries _ _ _). assert (Hes : es = concat (map rewrite_rec (Durable.live t))).
  { unfold es, rewrite_entries. f_equal. f_equal. exact Hk. }
  apply (rewritten_ok (opened t) [] es (Durable.live t)); try done.
  - assert (is_Some (written es)) as [bs' Hbs'].
    { change (Durable.reopened t) with (bs ← written es; Some (file_header ++ bs)) in Hro. destruct (written es); [by eexists|done]. }
    by eapply written_fits.
  - by intros o Ho%elem_of_nil.
  - by intros o Ho%elem_of_nil.
  - intros r Hr. apply list_elem_of_lookup_1 in Hr as Hi. destruct Hi as [i Hi]. destruct (memory_rec (opened t) [] i r Hm Hi) as (Hat & _ & _ & Hf & _).
    split; [done|]. unfold Durable.live, compact_memory in Hr. apply list_elem_of_In, filter_In in Hr as [_ Hd]. apply negb_true_iff in Hd.
    split; [done|]. split; [|done]. intros Hc. by rewrite Hc in Hf.
  - intros s r Hr _ _ _. apply at_seq_Some in Hr as (i & Hi & _); [|apply Hm]. by eapply list_elem_of_lookup_2.
  - by intros s Hs%elem_of_nil.
  - by intros s Hs%elem_of_nil.
Qed.

(** ** Every step *)

Lemma step_ok w w' : step w w' → journal_ok w → journal_ok w'.
Proof.
  destruct 1 as [q es sy ops gone lost q' new c first Hb|q es sy ops broken gone lost q' new left c first Hb Hl|q es sy ops broken gone lost k Hk Hu
    |q es sy ops broken gone lost|q es sy ops broken gone lost
    |q es sy ops1 o ops2 broken gone lost durable ans kept Hc Hs Hh r [Hk _]|q es sy ops1 o ops2 broken gone lost durable ans kept Hc Hs Hh r [Hk _]
    |q es sy ops broken gone lost k h st flags ans kept Hh r [Hk _]|q es sy ops broken gone lost ans ans2 Hh q1 Hh2
    |q es sy ops broken gone lost|q es sy ops broken gone lost reopened Hi es' Hw]; intros Hok.
  - pose proof (j_mem _ Hok) as Hm. destruct (begun_ok q ops q' new c first (WAITING (length (es ++ new))) Hm Hb) as [Hm' Hbs].
    eapply begin_ok; [exact Hok|exact Hm'|exact Hbs|done|done| |]; [by intros e [= <-]|]. intros _. split; [done|]. left. by split.
  - pose proof (j_mem _ Hok) as Hm. destruct (begun_ok q ops q' new c first FAILED Hm Hb) as [Hm' Hbs].
    eapply begin_ok; [exact Hok|exact Hm'|exact Hbs|done|done|done|]. intros Hbr. apply orb_false_iff in Hbr as [H1 H2].
    split; [done|]. right. apply negb_false_iff in H2. by apply bool_decide_eq_true in H2.
  - by apply (synced_ok q es sy).
  - by apply (failed_ok q es sy ops broken gone lost true).
  - by apply (failed_ok q es sy ops broken gone lost false).
  - by apply (committed_ok q es sy ops1 o ops2).
  - by apply (retracted_ok q es sy ops1 o ops2).
  - by apply (event_ok q es sy ops).
  - by apply (recover_ok q es sy ops).
  - by apply (drain_ok q es sy ops).
  - by apply (compact_ok q es sy ops broken).
Qed.
Lemma reachable_ok last_p t w : well last_p t → reachable t w → journal_ok w.
Proof.
  intros Hw Hr. assert (H0 : journal_ok (started t)) by by eapply started_ok. revert H0. induction Hr as [|x y z Hs _ IH]; [done|].
  intros H. by apply IH, (step_ok x).
Qed.

End DurableWorld.
