(* ===== verification/Survival.v ===== *)
(** * What the durable queue promises its callers

    Acknowledged work is in whatever journal a crash leaves, a retraction that was
    acknowledged is final, a submit reported lost is not there; the queue's counts and
    index say what the table says; a submit finds the record it reserved. *)

From S2P Require Import Prelude Engine Journal JournalFacts ReplayFacts DurableQueue DurableFacts DurableSteps DurableWorld.

Module Survival.
Import Engine Journal JournalFacts ReplayFacts DurableQueue DurableLog DurableFacts DurableSteps DurableWorld.

(** A queue opened on a journal file, some steps ago. *)
Definition running (f : list Z) (w : world) : Prop := ∃ sized t d,
  Forall byte f ∧ (f = [] ∨ upto DQ_FHDR_LEN f = file_header) ∧ replay f sized = Some (t, d) ∧ reachable t w.
Lemma running_ok f w : running f w → journal_ok w.
Proof.
  intros (sized & t & d & Hb & Hh & Hr & Hw). destruct (replay_total f sized Hb Hh) as (t' & d' & last & Hr' & Hwell).
  assert (t' = t) by congruence. subst t'. by eapply reachable_ok.
Qed.

(** The next open, record by record. *)
Lemma crashed_reads w f sized : journal_ok w → crashed w f → ∃ k t d, (w_synced w ≤ k ≤ length (w_es w))%nat ∧
  replay f sized = Some (t, d) ∧ rising (take k (w_es w)) ∧ ∀ s, lookup_rec s t = foldl (hist s) None (take k (w_es w)).
Proof.
  intros Hok (k & bs & e & b & n & Hk & Hbs & Hb & Hs & Hn & ->).
  assert (Hr : rising (take k (w_es w))).
  { pose proof (j_rising _ Hok) as H. rewrite <-(take_drop k (w_es w)) in H. by eapply rising_prefix. }
  assert (Hl : legal 0 (take k (w_es w))).
  { pose proof (j_seq _ Hok) as H. pose proof (m_next _ _ (j_mem _ Hok)) as Hnx. apply rising_legal; [done| |].
    - apply Forall_take. eapply Forall_impl; [exact H|]. intros x [Hx _]. lia.
    - apply Forall_take. eapply Forall_impl; [exact H|]. intros x [Hx _] _. lia. }
  destruct (replay_journal _ bs e b n sized Hbs Hl Hb Hs Hn) as (d & Hrep & _).
  exists k, (table_of (take k (w_es w)) (Tab [] 1)), d. split; [done|]. split; [done|]. split; [done|]. intros s.
  by destruct (table_of_hist _ s 0 (Tab [] 1) (proj1 empty_well) Hl) as (-> & _).
Qed.

(** C24: A submit that was acknowledged survives a crash.  Take a queue opened on any
    journal, after any number of submits, batches, retractions, events, recoveries,
    drains and compactions, interleaved with fsyncs that succeed or fail: a record that
    is open, past its submit and that no call is retracting is, with its name and its
    payload, in whatever file a crash leaves, and open there - unless the queue is
    broken, which it reports. *)
Theorem acknowledged_work_survives f w i rc : running f w → w_broken w = false → recs (w_q w) !! i = Some rc →
  closed rc = false → r_committing rc = false → r_retracting rc = 0 →
  ∀ f' sized, crashed w f' → ∃ t d r, replay f' sized = Some (t, d) ∧ lookup_rec (r_seq rc) t = Some r ∧
    r_name r = c_str (r_name rc) ∧ r_payload r = r_payload rc ∧ closed r = false.
Proof.
  intros Hrun Hb Hi Hcl Hc Hr f' sized Hf. pose proof (running_ok f w Hrun) as Hok.
  destruct (crashed_reads w f' sized Hok Hf) as (k & t & d & Hk & Hrep & Hris & Hlook).
  destruct (memory_rec _ _ i rc (j_mem _ Hok) Hi) as (Hat & Hret & _).
  assert (Hfl : flights true (r_seq rc) (w_ops w) = 0%nat) by lia.
  destruct (j_work _ Hok (r_seq rc) rc Hat) as (i0 & Hi0 & He0).
  - unfold closed in Hcl. by destruct (r_done rc).
  - by rewrite Hc.
  - apply not_true_iff_false. intros (o & Ho & Hcov & _)%durable_op_spec. assert (flights true (r_seq rc) (w_ops w) ≠ 0%nat); [|lia].
    apply flights_pos. by exists o.
  - destruct (hist_open (r_seq rc) (take k (w_es w)) (r_name rc) (r_payload rc) i0 Hris) as (r & Hr' & Hn & Hp & Hcl').
    + rewrite lookup_take_lt by lia. exact He0.
    + intros j e _ He Hs Hv. apply lookup_take_Some in He as [He _]. rewrite <-Hs in Hat.
      destruct (j_verdict _ Hok Hb j e rc He Hv Hat Hcl) as (o & Ho & Hcov & _).
      assert (flights true (r_seq rc) (w_ops w) ≠ 0%nat); [|lia]. apply flights_pos. exists o. by rewrite <-Hs.
    + exists t, d, r. rewrite Hlook. by split_and!.
Qed.


(** The queue's tables agree at all times.  The records are in the order of their
    numbers, so the binary search finds them; [pending] counts exactly those that are
    open and past their submit; and the index holds exactly the handles of the open
    records, each under its own record's number. *)
Theorem durable_tables_agree f w : running f w → let q := w_q w in
  ascending (recs q) ∧ pending q = len (List.filter counted (recs q)) ∧
  (∀ h i rc, find_open h q = Some (i, rc) ↔ recs q !! i = Some rc ∧ r_handle rc = h ∧ h ≠ 0 ∧ closed rc = false) ∧
  1 ≤ t_next (q_t q) ≤ DQ_MAX_SEQ + 1 ∧ (∀ i rc, recs q !! i = Some rc → 0 < r_seq rc < t_next (q_t q)).
Proof.
  intros Hrun q. pose proof (j_mem _ (running_ok f w Hrun)) as Hm. fold q in Hm. split; [apply Hm|]. split; [apply Hm|].
  split; [|split; [apply Hm|]].
  - intros h i rc. split.
    + intros H. destruct (find_open_spec q _ h i rc Hm H) as (H1 & H2 & H3 & H4 & _). done.
    + intros (Hi & Hh & H0 & Hc). destruct (at_seq_lookup q _ i rc (m_asc _ _ Hm) Hi eq_refl) as [Hat Hf].
      unfold find_open. rewrite (proj2 (Z.eqb_neq h 0) H0).
      assert (Hs : q_slots q !! h = Some (r_seq rc)) by (apply (m_slots _ _ Hm); eauto). rewrite Hs. cbn [mbind option_bind].
      rewrite Hf. cbn [mbind option_bind]. rewrite Hi. cbn [mbind option_bind]. by rewrite Hc.
  - intros i rc Hi. destruct (at_seq_lookup q _ i rc (m_asc _ _ Hm) Hi eq_refl) as [Hat _]. by apply (m_seq _ _ Hm) in Hat.
Qed.

(** A submit finds the record it reserved.  When its write settles, the call looks
    its number up and writes to what it finds without asking whether it found anything:
    in every state a queue can reach, for every submit and every item of a batch still
    in flight, the record is there, still committing, and no other submit is about it -
    whatever compactions moved or dropped meanwhile. *)
Theorem submit_finds_its_record f w o s : running f w → o ∈ w_ops w → covers false s o →
  ∃ i rc, find_by_seq (recs (w_q w)) s = Some i ∧ recs (w_q w) !! i = Some rc ∧ r_seq rc = s ∧
    r_committing rc = true ∧ closed rc = false ∧ ∀ o', o' ∈ w_ops w → covers false s o' → o' = o.
Proof.
  intros Hrun Ho Hc. pose proof (j_mem _ (running_ok f w Hrun)) as Hm.
  assert (Hfl : flights false s (w_ops w) ≠ 0%nat) by (apply flights_pos; eauto).
  pose proof (m_submit _ _ Hm s) as Hsub. destruct (at_seq (w_q w) s) as [rc|] eqn:Hat; [|done].
  destruct (r_committing rc) eqn:Hcm; [|done]. destruct (m_commit _ _ Hm s rc Hat Hcm) as [Hcl _].
  apply at_seq_Some in Hat as (i & Hi & Hs & Hf); [|apply Hm]. exists i, rc. split_and!; try done.
  intros o' Ho' Hc'. unfold flights in Hsub. destruct (filter (covers false s) (w_ops w)) as [|x [|y rest]] eqn:Hfil; try done.
  assert (o ∈ [x] ∧ o' ∈ [x]) as [H1 H2] by (rewrite <-Hfil; split; by apply list_elem_of_filter).
  apply list_elem_of_singleton in H1, H2. congruence.
Qed.

(** ** A run *)

Definition word : list Z := [114; 117; 110].
Definition first_work : entry := Entry (byte_of "P") 1 word [1; 2; 3].
Definition q0 : dq := opened (Tab [] 1).
Definition q1 : dq := (submit_begin word [1; 2; 3] true true q0).1.2.
Definition one_handle (s : Z) : answer := if s =? 1 then (GPTPS_OK, 77) else (GPTPS_E_NOMEM, 0).
Definition q2 : dq := (batch_end 1 1 true one_handle q1).1.2.
Definition journal1 : list entry := [first_work].
Definition submitting : world := W q1 journal1 0 [Op false 1 1 (WAITING 1)] false [] [].
Definition submitted : world := W q2 journal1 1 [] false [] [].

Lemma one_handle_honest : honest_batch q1 one_handle.
Proof.
  intros s h. unfold one_handle. destruct (Z.eqb_spec s 1) as [->|]; [|done]. intros [= <-]. split.
  - split; [done|]. intros [|[|i]] r Hi; vm_compute in Hi; try done. by injection Hi as <-.
  - intros s' H. by destruct (Z.eqb_spec s' 1).
Qed.

Lemma submitting_reached : reachable (Tab [] 1) submitting.
Proof.
  eapply rtc_l; [|apply rtc_refl]. change (started (Tab [] 1)) with (W q0 [] 0 [] false [] []).
  apply (st_written q0 [] 0 [] [] [] q1 [first_work] false 1). apply (begun_submit q0 word [1; 2; 3] true true). by vm_compute.
Qed.
Lemma submitted_reached : reachable (Tab [] 1) submitted.
Proof.
  eapply (transitivity (R := rtc step)); [exact submitting_reached|]. eapply rtc_l.
  { apply (st_synced q1 journal1 0 [Op false 1 1 (WAITING 1)] false [] [] 1); [cbn; lia|]. repeat constructor. }
  eapply rtc_l; [|apply rtc_refl].
  apply (st_committed q1 journal1 1 [] (Op false 1 1 DURABLE) [] false [] [] true one_handle []); [done|done|exact one_handle_honest|].
  by split; [vm_compute; constructor|].
Qed.
Lemma running_from w : reachable (Tab [] 1) w → running [] w.
Proof. intros H. exists true, (Tab [] 1), no_damage. split; [constructor|]. split; [by left|]. split; [reflexivity|exact H]. Qed.

(** The journal of [w], cut in the middle of a record. *)
Definition torn (w : world) : list Z := file_header ++ default [] (written (w_es w)) ++ take 9 (default [] (write first_work)).
Lemma torn_crashed w bs : written (w_es w) = Some bs → w_synced w = length (w_es w) → crashed w (torn w).
Proof.
  intros Hbs Hs. unfold torn. rewrite Hbs. exists (length (w_es w)), bs, first_work, (default [] (write first_work)), 9%nat.
  split; [lia|]. split; [by rewrite take_ge by lia|]. split; [by vm_compute|]. split; [unfold DQ_MAX_SEQ; cbn; lia|].
  split; [vm_compute; lia|done].
Qed.

Lemma acknowledged_work_survives_witness :
  ∃ t d r, replay (torn submitted) true = Some (t, d) ∧ lookup_rec 1 t = Some r ∧ r_name r = word ∧ r_payload r = [1; 2; 3] ∧ closed r = false.
Proof.
  set (rc := new_rec 1 word [1; 2; 3] <| r_handle := 77 |>).
  assert (Hi : recs (w_q submitted) !! 0%nat = Some rc) by by vm_compute.
  assert (Hc : crashed submitted (torn submitted)) by (eapply torn_crashed; [vm_compute; reflexivity|reflexivity]).
  destruct (acknowledged_work_survives [] submitted 0 rc (running_from _ submitted_reached)) with (f' := torn submitted) (sized := true)
    as (t & d & r & H1 & H2 & H3 & H4 & H5); [reflexivity|exact Hi|reflexivity..|exact Hc|].
  exists t, d, r. split; [exact H1|]. split; [exact H2|]. split; [exact H3|]. split; [exact H4|exact H5].
Defined.
Lemma durable_tables_agree_witness : pending (w_q submitted) = 1 ∧ ∃ i rc, find_open 77 (w_q submitted) = Some (i, rc) ∧ r_seq rc = 1.
Proof.
  destruct (durable_tables_agree [] submitted (running_from _ submitted_reached)) as (_ & Hp & Hf & _).
  split; [by rewrite Hp|]. exists 0%nat, (new_rec 1 word [1; 2; 3] <| r_handle := 77 |>). split; [|done].
  apply Hf. split; [by vm_compute|done].
Defined.
Lemma submit_finds_its_record_witness : ∃ i rc, find_by_seq (recs (w_q submitting)) 1 = Some i ∧ recs (w_q submitting) !! i = Some rc ∧ r_committing rc = true.
Proof.
  destruct (submit_finds_its_record [] submitting (Op false 1 1 (WAITING 1)) 1 (running_from _ submitting_reached)) as (i & rc & H1 & H2 & _ & H3 & _).
  - by left.
  - split; [done|]. cbn. lia.
  - by exists i, rc.
Defined.

End Survival.
