(* ===== verification/DoneSet.v ===== *)
(** * The set of ended handles of [src/addons/gptps_orch.c]

    What the orchestrator asks of its set, as a class, and the table that provides it:
    the open addressing of the engine's index, with nothing ever deleted and never more
    than half full.  A slot's item is not used. *)

From S2P Require Import Prelude HandleIndex HMap.

Module DoneSet.
Import HandleIndex.

(** ** The interface *)

(** [None] would be a probe that never ends.  [ds_add]: whether the handle was stored,
    where there is memory ([room]) or not. *)
Class done_ops (T : Type) := DoneOps {
  ds_new : T; ds_mem : T → Z → option bool; ds_add : bool → T → Z → option (bool * T);
  ds_clear : T → T; ds_count : T → Z }.
Class done_laws (T : Type) `{done_ops T} := DoneLaws {
  ds_is : T → gset Z → Prop;
  ds_nonzero t D : ds_is t D → 0 ∉ D;
  ds_new_is : ds_is ds_new ∅;
  ds_mem_is t D h : ds_is t D → ds_mem t h = Some (bool_decide (h ∈ D));
  ds_add_is t D h room : ds_is t D → h ≠ 0 → h ∉ D →
    ∃ ok t', ds_add room t h = Some (ok, t') ∧ ds_is t' (if ok then {[h]} ∪ D else D) ∧
             (room = true → Z.of_nat (size D) < 2 ^ 58 → ok = true);
  ds_clear_is t D : ds_is t D → ds_is (ds_clear t) ∅;
  ds_count_is t D : ds_is t D → ds_count t = Z.of_nat (size D) }.

(** ** The table *)

(** [done], [dcap] - the table's length - and [ndone]. *)
Definition done_hash (h : Z) : Z :=
  let x := Z.lxor h (Z.shiftr h 33) in
  let x := u64 (x * 0xff51afd7ed558ccd) in
  Z.lxor x (Z.shiftr x 33).
Fixpoint done_slot_loop (fuel : nat) (t : list hslot) (h i : Z) : option Z :=
  match fuel with
  | O => None
  | S f => if occupied t i && negb (s_h (slot t i) =? h) then done_slot_loop f t h (next t i) else Some i
  end.
Definition done_slot (t : list hslot) (h : Z) : option Z :=
  done_slot_loop (length t) t h (Z.land (done_hash h) (nslots t - 1)).
Definition stored (h : Z) : hslot := HSlot h (Some 1%positive).

Definition is_done (x : hidx) (h : Z) : option bool :=
  if (nslots (tab x) =? 0) || (h =? 0) then Some false
  else i ← done_slot (tab x) h; Some (s_h (slot (tab x) i) =? h).

Fixpoint regrow (old nt : list hslot) : option (list hslot) :=
  match old with
  | [] => Some nt
  | s :: old => if s_h s =? 0 then regrow old nt
                else i ← done_slot nt (s_h s); regrow old (set_slot nt i s)
  end.
Definition done_grow (room : bool) (x : hidx) : option (bool * hidx) :=
  let nc := if nslots (tab x) =? 0 then 32 else u64 (nslots (tab x) * 2) in
  if room && (nc * 8 <=? SIZE_MAX) then
    nt ← regrow (tab x) (replicate (Z.to_nat nc) empty_slot); Some (true, x <| tab := nt |>)
  else Some (false, x).
(** The end of [mark_done]. *)
Definition done_add (room : bool) (x : hidx) (h : Z) : option (bool * hidx) :=
  '(ok, x) ← (if u64 (u64 (live x + 1) * 2) >? nslots (tab x) then done_grow room x else Some (true, x));
  if (ok : bool) then i ← done_slot (tab x) h; Some (true, Hidx (set_slot (tab x) i (stored h)) (live x + 1))
  else Some (false, x).
Definition done_clear (x : hidx) : hidx := Hidx (replicate (length (tab x)) empty_slot) 0.

#[export] Instance table_ops : done_ops hidx := DoneOps hidx (Hidx [] 0) is_done done_add done_clear live.

(** ** The table is a set *)

Record table_is (x : hidx) (D : gset Z) : Prop := TableIs {
  ti_repr : repr x (gset_to_gmap 1%positive D);
  ti_size : nslots (tab x) ≤ 2 ^ 60;
  ti_load : live x * 2 ≤ nslots (tab x) }.

Lemma done_slot_find fuel t h i e : h ≠ 0 → probe_free fuel t i = Some e →
  done_slot_loop fuel t h i = Some (default e (find_loop fuel t h i)).
Proof.
  intros Hh. revert i. induction fuel as [|f IH]; intros i; [done|]. cbn [probe_free done_slot_loop find_loop].
  unfold occupied. destruct (Z.eqb_spec (s_h (slot t i)) 0) as [H0|H0]; cbn [negb andb].
  - by intros [= <-].
  - intros Hp. destruct (s_h (slot t i) =? h); cbn [negb]; [done|]. by apply IH.
Qed.
Lemma done_slot_spec x m h : repr x m → tab x ≠ [] → h ≠ 0 → ∃ e, put_slot (tab x) (stored h) = Some (set_slot (tab x) e (stored h)) ∧
  occupied (tab x) e = false ∧ done_slot (tab x) h = Some (default e (hidx_find x h)).
Proof.
  intros Hr Hne Hh. destruct (HMap.probe_ends x m h Hr Hne) as (e & He & _ & Ho). exists e. split; [|split; [done|]].
  - unfold put_slot. change (hidx_slot (s_h (stored h)) (nslots (tab x))) with (HMap.home x h). by rewrite He.
  - unfold done_slot. change (Z.land (done_hash h) (nslots (tab x) - 1)) with (HMap.home x h).
    rewrite (done_slot_find _ _ _ _ _ Hh He). by rewrite <-(HMap.find_eq x h Hne Hh).
Qed.

(** Into a table that does not hold them, the entries go where a rebuild puts them. *)
Lemma regrow_rebuild old nt m : repr (Hidx nt (Z.of_nat (size m))) m → NoDup (s_h <$> entries old) →
  (∀ s, s ∈ entries old → s_it s = Some 1%positive ∧ m !! s_h s = None) →
  Z.of_nat (size m) + Z.of_nat (length (entries old)) < nslots nt → regrow old nt = rebuild_loop old nt.
Proof.
  revert nt m. induction old as [|s old IH]; intros nt m Hr Hnd Hin Hload; [done|]. cbn [regrow rebuild_loop].
  destruct (Z.eqb_spec (s_h s) 0) as [Hz|Hz].
  { unfold entries in Hnd, Hin, Hload. rewrite filter_cons_False in Hnd, Hin, Hload by naive_solver. by apply (IH nt m). }
  unfold entries in Hnd, Hin, Hload. rewrite filter_cons_True in Hnd, Hin, Hload by done.
  fold (entries old) in Hnd, Hin, Hload. rewrite fmap_cons, NoDup_cons in Hnd. destruct Hnd as [Hni Hnd]. cbn [length] in Hload.
  destruct (Hin s) as [Hit Hms]; [by left|]. assert (Hs : s = stored (s_h s)) by (destruct s as [k it]; cbn in Hit |- *; by subst it).
  assert (Hne : nt ≠ []) by (intros ->; unfold nslots in Hload; cbn in Hload; lia).
  destruct (done_slot_spec (Hidx nt (Z.of_nat (size m))) m (s_h s) Hr Hne Hz) as (e & Hput & _ & Hsl). cbn [tab] in *.
  pose proof (hidx_find_spec _ m (s_h s) Hr) as Hf. destruct (hidx_find _ _) as [p|].
  { destruct Hf as (_ & _ & _ & _ & H). rewrite Hms in H. by destruct H. }
  rewrite Hsl. cbn [from_option id mbind option_bind]. rewrite <-Hs in Hput. rewrite Hput. cbn [mbind option_bind].
  destruct (put_slot_spec (Hidx nt (Z.of_nat (size m))) m (s_h s) 1%positive Hr Hz Hms) as (t & Ht & Hn & Hr'); [cbn; lia|].
  cbn [tab live] in *. change (HSlot (s_h s) (Some 1%positive)) with (stored (s_h s)) in Ht. rewrite <-Hs in Ht. assert (t = set_slot nt e s) by congruence. subst t.
  assert (Hsz : Z.of_nat (size (<[s_h s:=1%positive]> m)) = Z.of_nat (size m) + 1) by (rewrite map_size_insert_None by done; lia).
  apply (IH _ (<[s_h s:=1%positive]> m)).
  - by rewrite Hsz.
  - done.
  - intros s' Hs'. destruct (Hin s') as [? Hm]; [by right|]. split; [done|]. rewrite lookup_insert_ne; [done|].
    intros Heq. apply Hni. rewrite Heq. apply list_elem_of_fmap. eauto.
  - rewrite Hsz, Hn. lia.
Qed.

Lemma set_size (D : gset Z) : size (gset_to_gmap 1%positive D : gmap Z positive) = size D.
Proof. by rewrite <-size_dom, dom_gset_to_gmap. Qed.
Lemma set_member (D : gset Z) h : (gset_to_gmap 1%positive D : gmap Z positive) !! h = if decide (h ∈ D) then Some 1%positive else None.
Proof.
  case_decide as Hd; [by apply lookup_gset_to_gmap_Some|]. by apply lookup_gset_to_gmap_None.
Qed.
Lemma is_done_spec x D h : table_is x D → is_done x h = Some (bool_decide (h ∈ D)).
Proof.
  intros [Hr _ _]. unfold is_done. destruct (Z.eqb_spec h 0) as [->|Hh].
  { rewrite orb_true_r. f_equal. symmetry. apply bool_decide_eq_false. intros H.
    assert (Hm : (gset_to_gmap 1%positive D : gmap Z positive) !! 0 = Some 1%positive) by by rewrite set_member, decide_True.
    apply (r_map _ _ Hr) in Hm as [? _]. done. }
  rewrite orb_false_r. destruct (Z.eqb_spec (nslots (tab x)) 0) as [H0|H0].
  { f_equal. symmetry. apply bool_decide_eq_false. intros H.
    assert (Hm : (gset_to_gmap 1%positive D : gmap Z positive) !! h = Some 1%positive) by by rewrite set_member, decide_True.
    apply (r_map _ _ Hr) in Hm as (_ & p & Hp & _). unfold in_range in Hp. lia. }
  assert (Hne : tab x ≠ []) by (intros He; apply H0; by rewrite He).
  destruct (done_slot_spec x _ h Hr Hne Hh) as (e & _ & Ho & ->). cbn [mbind option_bind]. f_equal.
  pose proof (hidx_find_spec x _ h Hr) as Hf. destruct (hidx_find x h) as [p|]; cbn [from_option id].
  - destruct Hf as (_ & _ & -> & _ & Hm). rewrite Z.eqb_refl. symmetry. apply bool_decide_eq_true.
    rewrite set_member in Hm. case_decide; [done|by destruct Hm].
  - destruct Hf as [?|Hm]; [done|]. apply occupied_false in Ho. rewrite Ho. rewrite set_member in Hm. case_decide as Hd; [done|].
    rewrite bool_decide_false by done. apply Z.eqb_neq. congruence.
Qed.

Lemma done_grow_spec room x D : table_is x D → nslots (tab x) < (live x + 1) * 2 →
  ∃ ok x', done_grow room x = Some (ok, x') ∧ table_is x' D ∧ (ok = true → (live x' + 1) * 2 ≤ nslots (tab x')) ∧
    (room = true → Z.of_nat (size D) < 2 ^ 58 → ok = true).
Proof.
  intros [Hr Hb Hl] Hfull. unfold done_grow. set (nc := if nslots (tab x) =? 0 then 32 else _).
  pose proof (r_live _ _ Hr) as Hlive. rewrite set_size in Hlive.
  assert (Hnc : (∃ k, 0 ≤ k ∧ nc = 2 ^ k) ∧ (live x + 1) * 2 ≤ nc ∧ (Z.of_nat (size D) < 2 ^ 58 → nc ≤ 2 ^ 60)).
  { unfold nc. destruct (Z.eqb_spec (nslots (tab x)) 0) as [H0|H0].
    - split; [by exists 5|]. rewrite H0 in *. lia.
    - destruct (r_sized _ _ Hr) as [He|(k & Hk & Hn)]; [by rewrite He in H0|].
      rewrite u64_small by (unfold nslots in *; lia). rewrite Hn in *. split; [exists (k + 1); split; [lia|]; rewrite Z.pow_add_r by lia; lia|].
      split; [lia|]. intros Hs. assert (Hp : 2 ^ k < 2 ^ 60) by lia. apply Z.pow_lt_mono_r_iff in Hp; [|lia|lia].
      assert (2 ^ k ≤ 2 ^ 59) by (apply Z.pow_le_mono_r; lia). lia. }
  clearbody nc. destruct Hnc as (Hk & Hload & Hsmall). destruct room; cbn [andb].
  2: { exists false, x. split; [done|]. split; [by split|done]. }
  destruct (Z.leb_spec (nc * 8) SIZE_MAX) as [Hf|Hf]; unfold SIZE_MAX in Hf.
  - assert (Hnc : nc ≤ 2 ^ 60).
    { destruct Hk as (k & Hk0 & ->). assert (Hp : 2 ^ k < 2 ^ 61) by lia. apply Z.pow_lt_mono_r_iff in Hp; [|lia|lia]. apply Z.pow_le_mono_r; lia. }
    destruct (hidx_rebuild_spec x _ nc Hr Hk) as (x' & Hx & Hr' & Hn & Hl'); [lia|].
    unfold hidx_rebuild in Hx. destruct (entries_spec x _ Hr) as (Hnd & Hsome & Hlen).
    rewrite (regrow_rebuild _ _ ∅).
    + exists true, x'. split; [done|]. split; [split; [done|lia|lia]|]. split; [lia|done].
    + rewrite map_size_empty. apply repr_empty. by right.
    + done.
    + intros s Hs. split; [|done]. unfold entries in Hs. apply list_elem_of_filter in Hs as [Hz Hs]. apply list_elem_of_lookup in Hs as [i Hi].
      apply lookup_slot in Hi as [Hp Hsl]. destruct (repr_holds x _ (Z.of_nat i) Hr Hp) as (it & Heq & Hm); [apply occupied_true; by rewrite Hsl|].
      rewrite Hsl in Heq, Hm. rewrite set_member in Hm. rewrite Heq in *. case_decide; [|done]. by injection Hm as <-.
    + rewrite map_size_empty. unfold nslots at 1. rewrite length_replicate. rewrite set_size in Hlen. destruct Hk as (k & ? & Hk). lia.
  - exists false, x. split; [done|]. split; [by split|]. split; [done|]. intros _ Hs. lia.
Qed.

Lemma done_add_spec room x D h : table_is x D → h ≠ 0 → h ∉ D →
  ∃ ok x', done_add room x h = Some (ok, x') ∧ table_is x' (if ok then {[h]} ∪ D else D) ∧
    (room = true → Z.of_nat (size D) < 2 ^ 58 → ok = true).
Proof.
  intros Ht Hh Hd. unfold done_add. pose proof Ht as [Hr Hb Hl]. pose proof (r_live _ _ Hr) as Hlive.
  assert (Hgrown : ∃ ok x', (if u64 (u64 (live x + 1) * 2) >? nslots (tab x) then done_grow room x else Some (true, x)) = Some (ok, x') ∧
    table_is x' D ∧ (ok = true → (live x' + 1) * 2 ≤ nslots (tab x')) ∧ (room = true → Z.of_nat (size D) < 2 ^ 58 → ok = true)).
  { rewrite (u64_small (live x + 1)), u64_small by lia. rewrite Z.gtb_ltb. destruct (Z.ltb_spec (nslots (tab x)) ((live x + 1) * 2)); [by apply done_grow_spec|].
    exists true, x. split; [done|]. split; [done|]. split; [lia|done]. }
  destruct Hgrown as (ok & x' & -> & Ht' & Hload & Hok). cbn [mbind option_bind]. destruct ok; [|by exists false, x'].
  specialize (Hload eq_refl). destruct Ht' as [Hr' Hb' Hl']. pose proof (r_live _ _ Hr') as Hlive'.
  assert (Hne : tab x' ≠ []) by (intros He; rewrite He in Hload; unfold nslots in Hload; cbn in Hload; lia).
  destruct (done_slot_spec x' _ h Hr' Hne Hh) as (e & Hput & _ & Hsl).
  assert (Hm : (gset_to_gmap 1%positive D : gmap Z positive) !! h = None) by by rewrite set_member, decide_False.
  pose proof (hidx_find_spec x' _ h Hr') as Hf. destruct (hidx_find x' h) as [p|].
  { destruct Hf as (_ & _ & _ & _ & H). rewrite Hm in H. by destruct H. }
  rewrite Hsl. cbn [from_option id mbind option_bind]. eexists true, _. split; [done|]. split; [|done].
  destruct (put_slot_spec x' _ h 1%positive Hr' Hh Hm) as (t & Ht' & Hn & Hr''); [lia|].
  unfold stored in Hput. assert (t = set_slot (tab x') e (HSlot h (Some 1%positive))) by congruence. subst t.
  split; cbn [tab live].
  - rewrite gset_to_gmap_union_singleton. exact Hr''.
  - by rewrite nslots_set.
  - by rewrite nslots_set.
Qed.

Lemma done_clear_spec x D : table_is x D → table_is (done_clear x) ∅.
Proof.
  intros [Hr Hb Hl]. unfold done_clear. assert (Hn : nslots (replicate (length (tab x)) empty_slot) = nslots (tab x)) by (unfold nslots; by rewrite length_replicate).
  split; cbn [tab live]; [|by rewrite Hn|unfold nslots; lia]. rewrite gset_to_gmap_empty. pose proof (repr_empty (nslots (tab x))) as H.
  unfold nslots in H. rewrite Nat2Z.id in H. apply H. destruct (r_sized _ _ Hr) as [He|(k & Hk & Hs)]; [left; by rewrite He|right]. by exists k.
Qed.

#[export] Instance table_laws : done_laws hidx.
Proof.
  apply (DoneLaws hidx table_ops table_is).
  - intros x D [Hr _ _] H. assert (Hm : (gset_to_gmap 1%positive D : gmap Z positive) !! 0 = Some 1%positive) by by rewrite set_member, decide_True.
    apply (r_map _ _ Hr) in Hm as [? _]. done.
  - split; [|by vm_compute|by vm_compute]. rewrite gset_to_gmap_empty. apply (repr_empty 0). by left.
  - intros x D h. apply is_done_spec.
  - intros x D h room. apply done_add_spec.
  - intros x D. apply done_clear_spec.
  - intros x D [Hr _ _]. rewrite <-(set_size D). apply (r_live _ _ Hr).
Defined.

End DoneSet.
