(* ===== verification/Orch.v ===== *)
(** * The orchestrator of [src/addons/gptps_orch.c]

    Gates: work held back until the handles it depends on have ended.  Each section runs
    under the orchestrator's mutex and is a function here; what [gptps_submit] answers is
    an argument, and so is whether there was memory ([room]).  The set of ended handles
    is whatever provides the interface of DoneSet.v. *)

From S2P Require Import Prelude Engine DoneSet.

Module Orch.
Import Engine DoneSet.

(** ** State *)

Record gate := Gate {
  g_task : string; g_payload : list Z; g_deps : list Z; g_remaining : Z;
  g_released : bool; g_attempts : Z; g_abandoned : bool; g_last : status }.
#[export] Instance eta_gate : Eta gate := λ g,
  Gate (g_task g) (g_payload g) (g_deps g) (g_remaining g) (g_released g) (g_attempts g) (g_abandoned g) (g_last g).
Definition GPTPS_ORCH_RELEASE_ATTEMPTS : Z := 16.

(** The gates, the handles remembered, and [done_cap]. *)
Record orch (T : Type) := MkOrch { o_gates : list gate; o_done : T; o_cap : Z }.
Arguments MkOrch {T}. Arguments o_gates {T}. Arguments o_done {T}. Arguments o_cap {T}.

(** A call of [gptps_submit]: the work, what it was to wait for, and the answer. *)
Record sub := Sub { s_task : string; s_payload : list Z; s_deps : list Z; s_status : status }.

(** ** Events *)

Definition is_terminal (k : event_kind) (st : status) : bool :=
  match k with
  | EV_FINISHED | EV_DROPPED | EV_DEAD_LETTERED => true
  | EV_FAILED => bool_decide (st = GPTPS_E_CANCELLED)
  | _ => false
  end.

Definition release_gate (st : status) (g : gate) : gate :=
  let g := g <| g_last := st |> in
  if bool_decide (st = GPTPS_OK) then g <| g_released := true |> <| g_abandoned := false |>
  else if negb (bool_decide (st = GPTPS_E_NOTFOUND)) && negb (bool_decide (st = GPTPS_E_FULL)) &&
          negb (bool_decide (st = GPTPS_E_NOMEM))
  then g <| g_released := true |> <| g_abandoned := true |>
  else
    let g := g <| g_attempts ::= λ n, u32 (n + 1) |> in
    if GPTPS_ORCH_RELEASE_ATTEMPTS <=? g_attempts g then g <| g_released := true |> <| g_abandoned := true |> else g.

(** The body of the observer's loop: one gate, at the end of [h]. *)
Definition obs_gate (h : Z) (st : status) (g : gate) : gate * list sub :=
  if g_released g then (g, [])
  else
    let g := if existsb (Z.eqb h) (g_deps g) && (0 <? g_remaining g) then g <| g_remaining ::= λ n, n - 1 |> else g in
    if g_remaining g =? 0 then (release_gate st g, [Sub (g_task g) (g_payload g) (g_deps g) st]) else (g, []).
Fixpoint obs_gates (h : Z) (ans : nat → status) (i : nat) (l : list gate) : list gate * list sub :=
  match l with
  | [] => ([], [])
  | g :: l =>
      let '(g, s) := obs_gate h (ans i) g in
      let '(l, ss) := obs_gates h ans (S i) l in
      (g :: l, s ++ ss)
  end.

Section operations.
Context {T : Type} `{Hops : done_ops T}.

Definition orch_prune_locked (o : orch T) : Z * orch T :=
  (ds_count (o_done o), MkOrch (o_gates o) (ds_clear (o_done o)) (o_cap o)).

Definition mark_done (room : bool) (h : Z) (o : orch T) : option (bool * orch T) :=
  if h =? 0 then Some (false, o)
  else
    let o := if negb (o_cap o =? 0) && (o_cap o <=? ds_count (o_done o)) then (orch_prune_locked o).2 else o in
    there ← ds_mem (o_done o) h;
    if (there : bool) then Some (false, o)
    else '(_, t) ← ds_add room (o_done o) h; Some (true, MkOrch (o_gates o) t (o_cap o)).

Definition orch_obs (k : event_kind) (st : status) (h : Z) (room : bool) (ans : nat → status) (o : orch T)
    : option (orch T * list sub) :=
  if negb (is_terminal k st) then Some (o, [])
  else
    '(fresh, o) ← mark_done room h o;
    if negb fresh then Some (o, [])
    else let '(l, ss) := obs_gates h ans 0 (o_gates o) in Some (MkOrch l (o_done o) (o_cap o), ss).

(** ** Calls *)

Fixpoint count_open (t : T) (deps : list Z) : option Z :=
  match deps with
  | [] => Some 0
  | d :: deps => b ← ds_mem t d; n ← count_open t deps; Some (if (b : bool) then n else n + 1)
  end.

(** [gptps_orch_after]; [ans]: the status and the handle, should it submit at once. *)
Definition orch_after (task : string) (payload deps : list Z) (room : bool) (ans : status * Z) (o : orch T)
    : option (status * Z * orch T * list sub) :=
  if existsb (Z.eqb 0) deps then Some (GPTPS_E_INVAL, 0, o, [])
  else
    remaining ← count_open (o_done o) deps;
    if remaining =? 0
    then Some (ans.1, if bool_decide (ans.1 = GPTPS_OK) then ans.2 else 0, o, [Sub task payload deps ans.1])
    else if room
    then Some (GPTPS_OK, 0, MkOrch (o_gates o ++ [Gate task payload deps remaining false 0 false GPTPS_OK]) (o_done o) (o_cap o), [])
    else Some (GPTPS_E_NOMEM, 0, o, []).

Definition orch_prune (o : orch T) : Z * orch T := orch_prune_locked o.
Definition orch_pending (o : orch T) : Z := Z.of_nat (length (List.filter (λ g, negb (g_released g)) (o_gates o))).
Definition orch_stalled (o : orch T) : Z := Z.of_nat (length (List.filter g_abandoned (o_gates o))).
(** The name, cut to [cap], and the last status. *)
Definition orch_stalled_at (index cap : nat) (o : orch T) : status + (string * status) :=
  if (cap =? 0)%nat then inl GPTPS_E_INVAL
  else match List.filter g_abandoned (o_gates o) !! index with
  | None => inl GPTPS_E_NOTFOUND
  | Some g => inr (String.substring 0 (cap - 1) (g_task g), g_last g)
  end.

Definition retry_gate (st : status) (g : gate) : gate * Z * list sub :=
  if negb (g_abandoned g) then (g, 0, [])
  else
    let g := release_gate st (g <| g_released := false |> <| g_abandoned := false |> <| g_attempts := 0 |>) in
    (g, if negb (g_abandoned g) then 1 else 0, [Sub (g_task g) (g_payload g) (g_deps g) st]).
Fixpoint retry_gates (ans : nat → status) (i : nat) (l : list gate) : list gate * Z * list sub :=
  match l with
  | [] => ([], 0, [])
  | g :: l =>
      let '(g, n, s) := retry_gate (ans i) g in
      let '(l, m, ss) := retry_gates ans (S i) l in
      (g :: l, n + m, s ++ ss)
  end.
Definition orch_retry (ans : nat → status) (o : orch T) : Z * orch T * list sub :=
  let '(l, n, ss) := retry_gates ans 0 (o_gates o) in (n, MkOrch l (o_done o) (o_cap o), ss).

Definition orch_install (cap : Z) : orch T := MkOrch [] ds_new cap.

(** ** Steps

    A handle ends once ([seen]: those that have); [ended] is a terminal event of one. *)
Inductive step : orch T * gset Z → list sub → orch T * gset Z → Prop :=
  | st_ended o seen k st h room ans o' ss : is_terminal k st = true → h ≠ 0 → h ∉ seen →
      orch_obs k st h room ans o = Some (o', ss) → step (o, seen) ss (o', {[h]} ∪ seen)
  | st_other o seen k st h room ans o' ss : is_terminal k st = false →
      orch_obs k st h room ans o = Some (o', ss) → step (o, seen) ss (o', seen)
  | st_after o seen task payload deps room ans st h o' ss :
      orch_after task payload deps room ans o = Some (st, h, o', ss) → step (o, seen) ss (o', seen)
  | st_prune o seen : step (o, seen) [] ((orch_prune o).2, seen)
  | st_retry o seen ans : step (o, seen) (orch_retry ans o).2 ((orch_retry ans o).1.2, seen).
(** The same where nothing is forgotten, and the handles of a gate are distinct. *)
Inductive steady : orch T * gset Z → orch T * gset Z → Prop :=
  | sd_ended o seen k st h ans o' ss : is_terminal k st = true → h ≠ 0 → h ∉ seen → Z.of_nat (size seen) < 2 ^ 58 →
      orch_obs k st h true ans o = Some (o', ss) → steady (o, seen) (o', {[h]} ∪ seen)
  | sd_other o seen k st h room ans o' ss : is_terminal k st = false →
      orch_obs k st h room ans o = Some (o', ss) → steady (o, seen) (o', seen)
  | sd_after o seen task payload deps room ans st h o' ss : NoDup deps →
      orch_after task payload deps room ans o = Some (st, h, o', ss) → steady (o, seen) (o', seen)
  | sd_retry o seen ans : steady (o, seen) ((orch_retry ans o).1.2, seen).
Inductive reached (cap : Z) : orch T * gset Z → Prop :=
  | re_start : reached cap (orch_install cap, ∅)
  | re_step x ss y : reached cap x → step x ss y → reached cap y.
Definition steadily (x : orch T * gset Z) : Prop := rtc steady (orch_install 0, ∅) x.

End operations.
End Orch.
