(* ===== verification/Gates.v ===== *)
(** * What the orchestrator promises

    Gated work is submitted only once every handle it depends on has ended, and then it
    is: within sixteen endings its gate is closed.  Two ways the code does what its
    comments say it does not. *)

From S2P Require Import Prelude HandleIndex Engine DoneSet Orch.

Module Gates.
Import Engine DoneSet Orch.

(** ** Gates *)

Definition ended (seen : gset Z) (deps : list Z) : Prop := Forall (λ d, d ∈ seen) deps.
Definition unseen (seen : gset Z) (deps : list Z) : nat := length (filter (λ d, d ∉ seen) deps).

Lemma unseen_ended seen deps : unseen seen deps = 0%nat ↔ ended seen deps.
Proof.
  unfold unseen, ended. induction deps as [|d deps IH]; [split; [constructor|done]|]. rewrite filter_cons, Forall_cons.
  destruct (decide (d ∉ seen)) as [Hd|Hd]; cbn [length]; [split; [lia|intros [? _]; done]|].
  rewrite IH. split; [intros H; split; [|done]; by destruct (decide (d ∈ seen))|intros [_ H]; done].
Qed.
Lemma unseen_weak seen seen' deps : seen ⊆ seen' → (unseen seen' deps ≤ unseen seen deps)%nat.
Proof.
  intros Hs. unfold unseen. induction deps as [|d deps IH]; [done|]. rewrite !filter_cons.
  destruct (decide (d ∉ seen')), (decide (d ∉ seen)); cbn [length]; try lia. exfalso. set_solver.
Qed.
Lemma unseen_end seen h deps : h ∉ seen → h ∈ deps → (unseen ({[h]} ∪ seen) deps < unseen seen deps)%nat.
Proof.
  intros Hh. unfold unseen. induction deps as [|d deps IH]; [by intros ?%elem_of_nil|]. rewrite !filter_cons, elem_of_cons.
  pose proof (unseen_weak seen ({[h]} ∪ seen) deps ltac:(set_solver)) as Hle. unfold unseen in Hle. intros [<-|Hd].
  - rewrite decide_False by set_solver. rewrite decide_True by done. cbn [length]. lia.
  - specialize (IH Hd). destruct (decide (d ∉ {[h]} ∪ seen)), (decide (d ∉ seen)); cbn [length]; try lia. exfalso. set_solver.
Qed.
Lemma unseen_exact seen h deps : h ∉ seen → NoDup deps →
  Z.of_nat (unseen ({[h]} ∪ seen) deps) = Z.of_nat (unseen seen deps) - (if decide (h ∈ deps) then 1 else 0).
Proof.
  intros Hh Hnd. unfold unseen. induction Hnd as [|d deps Hd Hnd IH]; [done|]. rewrite !filter_cons.
  destruct (decide (h = d)) as [<-|Hne].
  - rewrite decide_False by set_solver. rewrite decide_True by done. rewrite decide_False in IH by done.
    rewrite (decide_True (P := h ∈ h :: deps)) by (by left). cbn [length]. lia.
  - assert (Hin : (h ∈ d :: deps) ↔ h ∈ deps) by (rewrite elem_of_cons; tauto).
    destruct (decide (h ∈ d :: deps)), (decide (h ∈ deps)); try tauto;
      destruct (decide (d ∉ {[h]} ∪ seen)), (decide (d ∉ seen)); cbn [length]; try lia; exfalso; set_solver.
Qed.

Record gate_ok (seen : gset Z) (g : gate) : Prop := GateOk {
  ga_left : 0 ≤ g_remaining g;
  ga_wait : g_released g = false → Z.of_nat (unseen seen (g_deps g)) ≤ g_remaining g ∧ 0 ≤ g_attempts g < 16 ∧ g_abandoned g = false;
  ga_done : g_released g = true → ended seen (g_deps g) }.

Lemma release_gate_spec st g : let g' := release_gate st g in
  g_deps g' = g_deps g ∧ g_remaining g' = g_remaining g ∧ g_task g' = g_task g ∧ g_payload g' = g_payload g ∧ g_last g' = st ∧
  (g_abandoned g = false → 0 ≤ g_attempts g < 16 →
    g_released g' = true ∨
    g_released g' = g_released g ∧ g_attempts g' = g_attempts g + 1 ∧ g_attempts g' < 16 ∧ g_abandoned g' = false).
Proof.
  unfold release_gate. cbv zeta. destruct (bool_decide (st = GPTPS_OK)); [by repeat split; auto|].
  destruct (_ && _); [by repeat split; auto|]. unfold GPTPS_ORCH_RELEASE_ATTEMPTS. cbn.
  destruct (Z.leb_spec 16 (u32 (g_attempts g + 1))) as [Hle|Hlt]; cbn; (split_and!; try done); intros Ha Hb; [by left|right].
  rewrite u32_small in * by lia. by split_and!.
Qed.
Lemma release_gate_ok seen st g : gate_ok seen g → g_released g = false → ended seen (g_deps g) → gate_ok seen (release_gate st g).
Proof.
  intros [H1 H2 H3] Hr He. destruct (H2 Hr) as (Hu & Ha & Hab). destruct (release_gate_spec st g) as (Hd & Hrem & _ & _ & _ & Hor).
  split; rewrite ?Hd, ?Hrem; [done| |done]. intros Hr'. destruct (Hor Hab Ha) as [H|(_ & H & Hlt & Hab')]; [congruence|].
  split; [done|]. split; [lia|done].
Qed.

Lemma obs_gate_ok seen h st g : gate_ok seen g → h ∉ seen → let r := obs_gate h st g in
  gate_ok ({[h]} ∪ seen) r.1 ∧ Forall (λ s, ended ({[h]} ∪ seen) (s_deps s)) r.2.
Proof.
  intros Hg Hh. pose proof Hg as [H1 H2 H3]. unfold obs_gate. destruct (g_released g) eqn:Hr.
  { cbn [fst snd]. split; [|constructor]. split; [done|congruence|]. intros _. eapply Forall_impl; [by apply H3|]. set_solver. }
  destruct (H2 eq_refl) as (Hu & Ha & Hab). set (g' := if _ && _ then _ else g).
  assert (Hg' : g_deps g' = g_deps g ∧ g_released g' = false ∧ 0 ≤ g_remaining g' ∧ Z.of_nat (unseen ({[h]} ∪ seen) (g_deps g)) ≤ g_remaining g' ∧
    0 ≤ g_attempts g' < 16 ∧ g_abandoned g' = false).
  { unfold g'. destruct (existsb (Z.eqb h) (g_deps g)) eqn:Hin.
    - apply existsb_exists in Hin as (d & Hd & <-%Z.eqb_eq). apply list_elem_of_In in Hd. pose proof (unseen_end seen h _ Hh Hd).
      rewrite (proj2 (Z.ltb_lt 0 (g_remaining g))) by lia. cbn. split_and!; try done; lia.
    - cbn [andb]. pose proof (unseen_weak seen ({[h]} ∪ seen) (g_deps g) ltac:(set_solver)). split_and!; try done; lia. }
  clearbody g'. destruct Hg' as (Hd & Hr' & Hrem & Hu' & Ha' & Hab').
  assert (Hok : gate_ok ({[h]} ∪ seen) g') by (split; [done|rewrite Hd; done|congruence]).
  destruct (Z.eqb_spec (g_remaining g') 0) as [H0|H0]; cbn [fst snd]; [|split; [done|constructor]].
  assert (He : ended ({[h]} ∪ seen) (g_deps g')) by (rewrite Hd; apply unseen_ended; lia).
  split; [by apply release_gate_ok|]. by apply Forall_singleton.
Qed.
Lemma obs_gates_ok seen h ans l : h ∉ seen → Forall (gate_ok seen) l → ∀ i, let r := obs_gates h ans i l in
  Forall (gate_ok ({[h]} ∪ seen)) r.1 ∧ Forall (λ s, ended ({[h]} ∪ seen) (s_deps s)) r.2.
Proof.
  intros Hh. induction 1 as [|g l Hg _ IH]; intros i; cbn [obs_gates]; [by split; constructor|].
  destruct (obs_gate_ok seen h (ans i) g Hg Hh) as [H1 H2]. destruct (obs_gate h (ans i) g) as [g' s]. specialize (IH (S i)).
  destruct (obs_gates h ans (S i) l) as [l' ss]. cbn [fst snd] in *. destruct IH as [H3 H4].
  split; [by constructor|by apply Forall_app].
Qed.
Lemma retry_gates_ok seen ans l : Forall (gate_ok seen) l → ∀ i, let r := retry_gates ans i l in
  Forall (gate_ok seen) r.1.1 ∧ Forall (λ s, ended seen (s_deps s)) r.2.
Proof.
  induction 1 as [|g l Hg _ IH]; intros i; cbn [retry_gates]; [by split; constructor|].
  assert (H : gate_ok seen (retry_gate (ans i) g).1.1 ∧ Forall (λ s, ended seen (s_deps s)) (retry_gate (ans i) g).2).
  { unfold retry_gate. destruct (g_abandoned g) eqn:Ha; cbn [negb fst snd]; [|split; [done|constructor]].
    destruct Hg as [H1 H2 H3]. assert (Hrel : g_released g = true) by (destruct (g_released g); [done|]; destruct (H2 eq_refl) as (_ & _ & ?); congruence).
    specialize (H3 Hrel). set (g0 := g <| g_released := false |> <| g_abandoned := false |> <| g_attempts := 0 |>).
    assert (Hd : g_deps (release_gate (ans i) g0) = g_deps g) by by destruct (release_gate_spec (ans i) g0) as (-> & _).
    split; [|apply Forall_singleton; cbn [s_deps]; by rewrite Hd].
    apply release_gate_ok; [|done|done]. split; [done| |done]. intros _.
    apply unseen_ended in H3. change (g_deps g0) with (g_deps g). rewrite H3. split; [done|]. split; [cbn; lia|done]. }
  destruct (retry_gate (ans i) g) as [[g' n] s]. specialize (IH (S i)).
  destruct (retry_gates ans (S i) l) as [[l' m] ss]. cbn [fst snd] in *. destruct H as [H1 H2], IH as [H3 H4].
  split; [by constructor|by apply Forall_app].
Qed.

(** ** Reachable states *)

Section reachable.
Context {T : Type} {Hops : done_ops T} {Hlaws : done_laws T}.

Record orch_ok (o : orch T) (seen : gset Z) : Prop := OrchOk {
  ok_done : ∃ D, ds_is (o_done o) D ∧ D ⊆ seen;
  ok_gates : Forall (gate_ok seen) (o_gates o) }.

Lemma mark_done_spec room h o D : ds_is (o_done o) D → h ≠ 0 → h ∉ D →
  ∃ o' D', mark_done room h o = Some (true, o') ∧ o_gates o' = o_gates o ∧ ds_is (o_done o') D' ∧ D' ⊆ {[h]} ∪ D ∧
    (room = true → Z.of_nat (size D) < 2 ^ 58 → o_cap o = 0 → D' = {[h]} ∪ D) ∧ o_cap o' = o_cap o.
Proof.
  intros Hd Hh Hn. unfold mark_done. rewrite (proj2 (Z.eqb_neq h 0) Hh). set (o1 := if _ && _ then _ else o).
  assert (Ho1 : o_gates o1 = o_gates o ∧ o_cap o1 = o_cap o ∧ ∃ D1, ds_is (o_done o1) D1 ∧ D1 ⊆ D ∧ (o_cap o = 0 → D1 = D)).
  { unfold o1. destruct (negb (o_cap o =? 0) && _) eqn:Hc; cbn [orch_prune_locked snd o_gates o_cap o_done].
    - split; [done|]. split; [done|]. exists ∅. split; [by eapply ds_clear_is|]. split; [set_solver|].
      intros H0. rewrite H0 in Hc. done.
    - split; [done|]. split; [done|]. by exists D. }
  clearbody o1. destruct Ho1 as (Hg1 & Hc1 & D1 & Hd1 & Hsub & Heq). rewrite (ds_mem_is _ _ _ Hd1). cbn [mbind option_bind].
  rewrite bool_decide_false by set_solver. destruct (ds_add_is _ _ h room Hd1 Hh ltac:(set_solver)) as (ok & t & -> & Ht & Hok).
  cbn [mbind option_bind]. eexists _, (if ok then {[h]} ∪ D1 else D1). split; [done|]. cbn [o_gates o_done o_cap].
  split; [done|]. split; [done|]. split; [destruct ok; set_solver|]. split; [|done].
  intros Hr Hs H0. rewrite (Heq H0) in *. by rewrite (Hok Hr Hs).
Qed.
Lemma obs_spec k st h room ans o seen : orch_ok o seen → is_terminal k st = true → h ≠ 0 → h ∉ seen →
  ∃ o' ss, orch_obs k st h room ans o = Some (o', ss) ∧ orch_ok o' ({[h]} ∪ seen) ∧ Forall (λ s, ended ({[h]} ∪ seen) (s_deps s)) ss ∧
    o_gates o' = (obs_gates h ans 0 (o_gates o)).1.
Proof.
  intros [(D & Hd & Hsub) Hg] Hk Hh Hn. unfold orch_obs. rewrite Hk. cbn [negb].
  destruct (mark_done_spec room h o D Hd Hh ltac:(set_solver)) as (o' & D' & -> & Hg' & Hd' & Hsub' & _). cbn [mbind option_bind negb].
  rewrite Hg'. destruct (obs_gates_ok seen h ans (o_gates o) Hn Hg 0) as [H1 H2]. destruct (obs_gates h ans 0 (o_gates o)) as [l ss].
  eexists _, ss. split; [done|]. split; [|done]. split; [|done]. exists D'. split; [done|]. set_solver.
Qed.
Lemma count_open_spec t D deps : ds_is t D → count_open t deps = Some (Z.of_nat (unseen D deps)).
Proof.
  intros Hd. induction deps as [|d deps IH]; [done|]. cbn [count_open]. rewrite (ds_mem_is _ _ _ Hd), IH. cbn [mbind option_bind].
  f_equal. unfold unseen. rewrite filter_cons. destruct (decide (d ∉ D)) as [Hn|Hn].
  - rewrite bool_decide_false by done. cbn [length]. lia.
  - rewrite bool_decide_true; [done|]. by destruct (decide (d ∈ D)).
Qed.
Lemma after_spec task payload deps room ans o seen : orch_ok o seen →
  ∃ st h o' ss, orch_after task payload deps room ans o = Some (st, h, o', ss) ∧ orch_ok o' seen ∧ Forall (λ s, ended seen (s_deps s)) ss.
Proof.
  intros [(D & Hd & Hsub) Hg]. unfold orch_after. destruct (existsb _ _).
  { eexists _, _, _, _. split; [done|]. split; [by split; [exists D|]|constructor]. }
  rewrite (count_open_spec _ D) by done. cbn [mbind option_bind]. destruct (Z.eqb_spec (Z.of_nat (unseen D deps)) 0) as [H0|H0].
  - eexists _, _, _, _. split; [done|]. split; [by split; [exists D|]|]. apply Forall_singleton. cbn.
    eapply Forall_impl; [apply (unseen_ended D); lia|]. set_solver.
  - destruct room; eexists _, _, _, _; (split; [done|]); (split; [|constructor]); (split; [by exists D|]); [|done].
    apply Forall_app. split; [done|]. apply Forall_singleton. pose proof (unseen_weak D seen deps Hsub).
    split; cbn [g_remaining g_released g_deps g_attempts g_abandoned]; [lia| |done].
    intros _. split; [lia|]. split; [lia|done].
Qed.
Lemma step_orch_ok x ss y : step x ss y → orch_ok x.1 x.2 → orch_ok y.1 y.2 ∧ Forall (λ s, ended y.2 (s_deps s)) ss.
Proof.
  destruct 1 as [o seen k st h room ans o' ss Hk Hh Hn Ho|o seen k st h room ans o' ss Hk Ho|o seen task payload deps room ans st h o' ss Ho|o seen|o seen ans];
    cbn [fst snd]; intros Hok.
  - destruct (obs_spec k st h room ans o seen Hok Hk Hh Hn) as (o1 & ss1 & Ho1 & H1 & H2 & _). rewrite Ho in Ho1. by injection Ho1 as <- <-.
  - unfold orch_obs in Ho. rewrite Hk in Ho. injection Ho as <- <-. split; [done|constructor].
  - destruct (after_spec task payload deps room ans o seen Hok) as (st1 & h1 & o1 & ss1 & Ho1 & H1 & H2). rewrite Ho in Ho1. by injection Ho1 as <- <- <- <-.
  - destruct Hok as [(D & Hd & Hsub) Hg]. split; [|constructor]. split; [|done]. exists ∅. split; [by eapply ds_clear_is|set_solver].
  - destruct Hok as [Hd Hg]. pose proof (retry_gates_ok seen ans (o_gates o) Hg 0) as [H1 H2]. unfold orch_retry.
    destruct (retry_gates ans 0 (o_gates o)) as [[l n] s]. cbn [fst snd] in *. by split.
Qed.
Lemma reached_ok cap x : reached cap x → orch_ok x.1 x.2.
Proof.
  induction 1 as [|x ss y _ IH Hs]; [|by apply (step_orch_ok x ss y)]. split; [|constructor]. exists ∅. split; [apply ds_new_is|done].
Qed.

(** C26: Gated work waits for all it depends on.  Whatever gates are made, pruned,
    retried and released, and in whatever order handles end - each ends once - every
    submission the orchestrator makes is of work whose dependencies have all ended: at
    once when a gate asks for it, or from the observer, or from a retry.  No call fails
    to return. *)
Theorem gated_work_waits cap x ss y : reached cap x → step x ss y →
  (∀ s d, s ∈ ss → d ∈ s_deps s → d ∈ y.2) ∧
  (∀ k st h room ans, h ∉ y.2 → is_Some (orch_obs k st h room ans y.1)) ∧
  (∀ task payload deps room ans, is_Some (orch_after task payload deps room ans y.1)).
Proof.
  intros Hr Hs. pose proof (reached_ok _ _ Hr) as H0. destruct (step_orch_ok _ _ _ Hs H0) as [Hok Hss]. split; [|split].
  - intros s d Hin Hd. rewrite Forall_forall in Hss. specialize (Hss s Hin). unfold ended in Hss. rewrite Forall_forall in Hss. by apply Hss.
  - intros k st h room ans Hh. destruct (is_terminal k st) eqn:Hk; [|unfold orch_obs; by rewrite Hk]. destruct (decide (h = 0)) as [->|Hh0].
    + unfold orch_obs, mark_done. rewrite Hk. cbn. by eexists.
    + destruct (obs_spec k st h room ans _ _ Hok Hk Hh0 Hh) as (o' & ss' & -> & _). by eexists.
  - intros task payload deps room ans. destruct (after_spec task payload deps room ans _ _ Hok) as (? & ? & ? & ? & -> & _). by eexists.
Qed.

(** ** Nothing forgotten *)

Definition exact (seen : gset Z) (g : gate) : Prop := NoDup (g_deps g) ∧ g_remaining g = Z.of_nat (unseen seen (g_deps g)).
Record orch_exact (o : orch T) (seen : gset Z) : Prop := OrchExact {
  ex_ok : orch_ok o seen; ex_cap : o_cap o = 0; ex_done : ds_is (o_done o) seen; ex_gates : Forall (exact seen) (o_gates o) }.

Lemma obs_gates_lookup h ans l : ∀ k i, (obs_gates h ans k l).1 !! i = (λ g, (obs_gate h (ans (k + i)%nat) g).1) <$> l !! i.
Proof.
  induction l as [|g l IH]; intros k i; cbn [obs_gates]; [done|]. specialize (IH (S k)).
  destruct (obs_gate h (ans k) g) as [g' s] eqn:Hg. destruct (obs_gates h ans (S k) l) as [l' ss]. destruct i as [|i]; cbn.
  - by rewrite Nat.add_0_r, Hg.
  - rewrite Nat.add_succ_r. apply (IH i).
Qed.
Lemma obs_gate_exact seen h st g : gate_ok seen g → exact seen g → h ∉ seen → exact ({[h]} ∪ seen) (obs_gate h st g).1.
Proof.
  intros Hg [Hnd He] Hh. pose proof (unseen_exact seen h (g_deps g) Hh Hnd) as Hu. unfold obs_gate, exact. destruct (g_released g) eqn:Hr; cbn [fst].
  - split; [done|]. pose proof (ga_done _ _ Hg Hr) as Hd. apply unseen_ended in Hd. rewrite He, Hu, Hd in *. case_decide; lia.
  - set (g' := if _ && _ then _ else g).
    assert (Hg' : g_deps g' = g_deps g ∧ g_remaining g' = Z.of_nat (unseen ({[h]} ∪ seen) (g_deps g))).
    { unfold g'. destruct (existsb (Z.eqb h) (g_deps g)) eqn:Hin.
      - apply existsb_exists in Hin as (d & Hd & <-%Z.eqb_eq). apply list_elem_of_In in Hd. pose proof (unseen_end seen h _ Hh Hd).
        rewrite decide_True in Hu by done. rewrite (proj2 (Z.ltb_lt 0 (g_remaining g))) by lia. cbn [andb g_deps]. split; [done|].
        change (g_remaining g - 1 = Z.of_nat (unseen ({[h]} ∪ seen) (g_deps g))). lia.
      - cbn [andb]. split; [done|]. rewrite decide_False in Hu; [lia|]. intros Hd. apply not_true_iff_false in Hin. apply Hin, existsb_exists.
        exists h. split; [by apply list_elem_of_In|apply Z.eqb_refl]. }
    clearbody g'. destruct Hg' as [Hd Hrem]. destruct (g_remaining g' =? 0); cbn [fst].
    + destruct (release_gate_spec st g') as (-> & -> & _). by rewrite Hd.
    + by rewrite Hd.
Qed.
Lemma retry_gates_exact seen ans l : Forall (exact seen) l → ∀ i, Forall (exact seen) (retry_gates ans i l).1.1.
Proof.
  induction 1 as [|g l Hg _ IH]; intros i; cbn [retry_gates]; [constructor|].
  assert (H : exact seen (retry_gate (ans i) g).1.1).
  { unfold retry_gate. destruct (g_abandoned g); cbn [negb fst]; [|done].
    unfold exact. destruct (release_gate_spec (ans i) (g <| g_released := false |> <| g_abandoned := false |> <| g_attempts := 0 |>)) as (-> & -> & _). exact Hg. }
  destruct (retry_gate (ans i) g) as [[g' n] s]. specialize (IH (S i)). destruct (retry_gates ans (S i) l) as [[l' m] ss]. by constructor.
Qed.
Lemma steady_exact x y : steady x y → orch_exact x.1 x.2 → orch_exact y.1 y.2.
Proof.
  intros Hst Hex. pose proof (ex_ok _ _ Hex) as Hok.
  assert (Hstep : ∃ ss, step x ss y) by (destruct Hst; eexists; [by eapply st_ended|by eapply st_other|by eapply st_after|apply st_retry]).
  destruct Hstep as [ss0 Hstep]. destruct (step_orch_ok _ _ _ Hstep Hok) as [Hok' _]. clear Hstep.
  destruct Hst as [o seen k st h ans o' ss Hk Hh Hn Hsz Ho|o seen k st h room ans o' ss Hk Ho|o seen task payload deps room ans st h o' ss Hnd Ho|o seen ans];
    cbn [fst snd] in *; destruct Hex as [_ Hcap Hdone Hg].
  - unfold orch_obs in Ho. rewrite Hk in Ho. cbn [negb] in Ho.
    destruct (mark_done_spec true h o seen Hdone Hh Hn) as (o1 & D' & Hm & Hg' & Hd' & _ & HD & Hcap'). rewrite Hm in Ho. cbn [mbind option_bind negb] in Ho.
    rewrite (HD eq_refl Hsz Hcap) in Hd'. pose proof (obs_gates_lookup h ans (o_gates o1) 0) as Hl. destruct (obs_gates h ans 0 (o_gates o1)) as [l s].
    injection Ho as <- <-. split; cbn [o_cap o_done o_gates]; [done|congruence|done|]. apply Forall_lookup. intros i g Hi. cbn [fst] in Hl. rewrite Hl, Hg' in Hi.
    apply fmap_Some in Hi as (g0 & Hi & ->). rewrite Forall_lookup in Hg. pose proof (ok_gates _ _ Hok) as Hgs. rewrite Forall_lookup in Hgs.
    apply obs_gate_exact; [by eapply Hgs|by eapply Hg|done].
  - unfold orch_obs in Ho. rewrite Hk in Ho. injection Ho as <- <-. by split.
  - unfold orch_after in Ho. destruct (existsb _ _); [injection Ho as _ _ <- _; by split|].
    rewrite (count_open_spec _ seen) in Ho by done. cbn [mbind option_bind] in Ho.
    destruct (_ =? 0); [injection Ho as _ _ <- _; by split|]. destruct room; injection Ho as _ _ <- _; [|by split].
    split; [done|done|done|]. cbn [o_gates]. apply Forall_app. split; [done|]. apply Forall_singleton. by split.
  - pose proof (retry_gates_exact seen ans (o_gates o) Hg 0) as H. unfold orch_retry in *. destruct (retry_gates ans 0 (o_gates o)) as [[l n] s]. by split.
Qed.
Lemma steadily_exact x : steadily x → orch_exact x.1 x.2.
Proof.
  assert (H0 : orch_exact (orch_install 0) ∅).
  { split; [|done|apply ds_new_is|constructor]. split; [|constructor]. exists ∅. split; [apply ds_new_is|done]. }
  unfold steadily. set (x0 := (orch_install 0, ∅) : orch T * gset Z). change (orch_exact x0.1 x0.2) in H0. clearbody x0. intros H. revert H0.
  induction H as [|x y z Hs _ IH]; [done|]. intros Hx. by apply IH, (steady_exact x).
Qed.

(** ** Endings *)

Inductive ending : orch T * gset Z → orch T * gset Z → Prop :=
  | an_ending o seen k st h room ans o' ss : is_terminal k st = true → h ≠ 0 → h ∉ seen →
      orch_obs k st h room ans o = Some (o', ss) → ending (o, seen) (o', {[h]} ∪ seen).

Lemma obs_gate_ready seen h st g n : gate_ok seen g → g_remaining g = 0 → g_released g = true ∨ n ≤ g_attempts g →
  let g' := (obs_gate h st g).1 in g_remaining g' = 0 ∧ (g_released g' = true ∨ n + 1 ≤ g_attempts g').
Proof.
  intros Hg H0 Hn. unfold obs_gate. destruct (g_released g) eqn:Hr; [by auto|]. destruct Hn as [|Hn]; [done|].
  rewrite H0, andb_false_r. cbv iota. rewrite H0. cbn [Z.eqb fst]. destruct (ga_wait _ _ Hg Hr) as (_ & Ha & Hab).
  destruct (release_gate_spec st g) as (_ & -> & _ & _ & _ & Hor). split; [done|]. destruct (Hor Hab Ha) as [H|(_ & H & _)]; [by left|right; lia].
Qed.
Lemma endings_close n x y i g : nsteps ending n x y → orch_ok x.1 x.2 → o_gates x.1 !! i = Some g → g_remaining g = 0 →
  ∃ g', o_gates y.1 !! i = Some g' ∧ orch_ok y.1 y.2 ∧ (g_released g' = true ∨ Z.of_nat n ≤ g_attempts g').
Proof.
  intros Hsteps Hok Hi H0. assert (Hgen : ∀ m, g_released g = true ∨ m ≤ g_attempts g →
    ∃ g', o_gates y.1 !! i = Some g' ∧ orch_ok y.1 y.2 ∧ (g_released g' = true ∨ m + Z.of_nat n ≤ g_attempts g')).
  { revert g Hok Hi H0. induction Hsteps as [x|n x z y He _ IH]; intros g Hok Hi H0 m Hm; [exists g; by rewrite Z.add_0_r|].
    destruct He as [o seen k st h room ans o' ss Hk Hh Hn Ho]. cbn [fst snd] in *.
    destruct (obs_spec k st h room ans o seen Hok Hk Hh Hn) as (o1 & ss1 & Ho1 & Hok1 & _ & Hg1). rewrite Ho in Ho1. injection Ho1 as <- <-.
    pose proof (ok_gates _ _ Hok) as Hgs. rewrite Forall_lookup in Hgs.
    destruct (obs_gate_ready seen h (ans i) g m (Hgs _ _ Hi) H0 Hm) as [H0' Hm'].
    destruct (IH (obs_gate h (ans i) g).1 Hok1) with (m := m + 1) as (g' & Hg' & Hok' & Hor); [by rewrite Hg1, obs_gates_lookup, Hi|done|done|].
    exists g'. split; [done|]. split; [done|]. destruct Hor; [by left|right; lia]. }
  destruct (Hok) as [_ Hgs]. rewrite Forall_lookup in Hgs. pose proof (Hgs _ _ Hi) as Hg.
  destruct (g_released g) eqn:Hr; [apply (Hgen 0); by left|]. destruct (ga_wait _ _ Hg Hr) as (_ & Ha & _). apply (Hgen 0). right. lia.
Qed.

Lemma endings_back n x y i : nsteps ending n x y → orch_ok x.1 x.2 → is_Some (o_gates y.1 !! i) → is_Some (o_gates x.1 !! i).
Proof.
  induction 1 as [x|n x y z He _ IH]; [done|]. intros Hok Hi. destruct He as [o seen k st h room ans o' ss Hk Hh Hn Ho]. cbn [fst snd] in *.
  destruct (obs_spec k st h room ans o seen Hok Hk Hh Hn) as (o1 & ss1 & Ho1 & Hok1 & _ & Hg1). rewrite Ho in Ho1. injection Ho1 as <- <-.
  specialize (IH Hok1 Hi). rewrite Hg1, obs_gates_lookup in IH. by apply fmap_is_Some in IH.
Qed.
Lemma gates_filter_none {A} (P : A → bool) l : Forall (λ x, P x = false) l → List.filter P l = [].
Proof. induction 1 as [|x l Hx _ IH]; cbn; [done|]. by rewrite Hx. Qed.

(** C27: Gates close.  Where nothing is forgotten - no prune, no ceiling, memory for the
    set - and no gate names a handle twice: a gate whose dependencies have all ended
    has been submitted, and within sixteen more endings of any handles it is closed,
    accepted or given up on.  So once the dependencies of all gates have ended and
    sixteen more handles have, none is pending. *)
Theorem gates_converge (x y : orch T * gset Z) : steadily x → nsteps ending 16 x y →
  (∀ i g, o_gates x.1 !! i = Some g → ended x.2 (g_deps g) → ∃ g', o_gates y.1 !! i = Some g' ∧ g_released g' = true) ∧
  ((∀ g, g ∈ o_gates x.1 → ended x.2 (g_deps g)) → orch_pending y.1 = 0).
Proof.
  intros Hx Hn. pose proof (steadily_exact x Hx) as Hex.
  assert (H : ∀ i g, o_gates x.1 !! i = Some g → ended x.2 (g_deps g) → ∃ g', o_gates y.1 !! i = Some g' ∧ g_released g' = true).
  { intros i g Hi He. pose proof (ex_gates _ _ Hex) as Hg. rewrite Forall_lookup in Hg. destruct (Hg _ _ Hi) as [_ Hr].
    apply unseen_ended in He. rewrite He in Hr. destruct (endings_close 16 x y i g Hn (ex_ok _ _ Hex) Hi Hr) as (g' & Hg' & Hok & Hor).
    exists g'. split; [done|]. destruct Hor as [|Hatt]; [done|]. destruct (g_released g') eqn:Hrel; [done|].
    pose proof (ok_gates _ _ Hok) as Hgs. rewrite Forall_lookup in Hgs. destruct (ga_wait _ _ (Hgs _ _ Hg') Hrel) as (_ & Ha & _). lia. }
  split; [done|]. intros Hall. unfold orch_pending.
  rewrite (gates_filter_none (λ g, negb (g_released g))); [done|]. apply Forall_lookup. intros i g' Hi.
  destruct (endings_back 16 x y i Hn (ex_ok _ _ Hex)) as [g Hg]; [by eexists|].
  destruct (H i g Hg (Hall g ltac:(by eapply list_elem_of_lookup_2))) as (g'' & Hg'' & Hr). assert (g'' = g') by congruence. subst. by rewrite Hr.
Qed.

End reachable.

(** ** On the table of handles *)

Definition table_orch : Type := orch HandleIndex.hidx.
Definition all (st : status) (i : nat) : status := st.
Definition after (deps : list Z) (o : table_orch) : table_orch * list sub :=
  match orch_after "C" [] deps true (GPTPS_OK, 50) o with Some (_, _, o, ss) => (o, ss) | None => (o, []) end.
Definition finished (h : Z) (st : status) (o : table_orch) : table_orch * list sub :=
  default (o, []) (orch_obs EV_FINISHED GPTPS_OK h true (all st) o).
Definition new : table_orch := orch_install 0.


(** A retry counts a gate that was refused again. *)
Theorem retry_counts_refused :
  let o1 := (finished 7 GPTPS_E_BUDGET (after [7] new).1).1 in
  let '(n, o2, ss) := orch_retry (all GPTPS_E_FULL) o1 in
  orch_stalled o1 = 1 ∧ n = 1 ∧ ss = [Sub "C" [] [7] GPTPS_E_FULL] ∧ orch_stalled o2 = 0 ∧ orch_pending o2 = 1.
Proof. by vm_compute. Qed.

Fixpoint play (hs : list Z) (x : table_orch * gset Z) : option (table_orch * gset Z) :=
  match hs with
  | [] => Some x
  | h :: hs =>
      if decide (h = 0) then None
      else if decide (h ∈ x.2) then None
      else '(o, _) ← orch_obs EV_FINISHED GPTPS_OK h true (all GPTPS_E_FULL) x.1; play hs (o, {[h]} ∪ x.2)
  end.
Lemma play_endings hs : ∀ x y, play hs x = Some y → nsteps ending (length hs) x y.
Proof.
  induction hs as [|h hs IH]; intros [o seen] y; cbn [play length fst snd]; [intros [= <-]; constructor|].
  case_decide as H0; [done|]. case_decide as Hs; [done|]. destruct (orch_obs _ _ _ _ _ _) as [[o' ss]|] eqn:Ho; [|done].
  cbn [mbind option_bind]. intros H. eapply nsteps_l; [|by apply IH, H]. by apply (an_ending o seen EV_FINISHED GPTPS_OK h true (all GPTPS_E_FULL) o' ss).
Qed.

Lemma gated_work_waits_witness : ∃ x y, reached 0 x ∧ step x [Sub "C" [] [7; 9] GPTPS_OK] y ∧ 7 ∈ y.2 ∧ 9 ∈ y.2.
Proof.
  set (o1 := (after [7; 9] new).1). set (o2 := (finished 7 GPTPS_OK o1).1). set (o3 := (finished 9 GPTPS_OK o2).1).
  assert (H1 : reached 0 (o1, ∅)).
  { eapply re_step; [apply re_start|]. apply (st_after new ∅ "C" [] [7; 9] true (GPTPS_OK, 50) GPTPS_OK 0 o1 []). by vm_compute. }
  assert (H2 : reached 0 (o2, {[7]} ∪ ∅)).
  { eapply re_step; [exact H1|]. apply (st_ended o1 ∅ EV_FINISHED GPTPS_OK 7 true (all GPTPS_OK) o2 []); [done|done|set_solver|by vm_compute]. }
  assert (H3 : step (o2, {[7]} ∪ ∅) [Sub "C" [] [7; 9] GPTPS_OK] (o3, {[9]} ∪ ({[7]} ∪ ∅))).
  { apply (st_ended o2 ({[7]} ∪ ∅) EV_FINISHED GPTPS_OK 9 true (all GPTPS_OK) o3); [done|done|set_solver|by vm_compute]. }
  destruct (gated_work_waits 0 _ _ _ H2 H3) as [Hd _]. eexists _, _. split; [exact H2|]. split; [exact H3|].
  split; (eapply Hd; [by left|cbn [s_deps]; set_solver]).
Defined.
Lemma gates_converge_witness : ∃ x y, steadily (T := HandleIndex.hidx) x ∧ nsteps ending 16 x y ∧ orch_pending x.1 = 1 ∧ orch_pending y.1 = 0.
Proof.
  set (o1 := (after [7] new).1). set (o2 := (finished 7 GPTPS_E_FULL o1).1). set (x := (o2, {[7]} ∪ ∅) : table_orch * gset Z).
  assert (Hx : steadily x).
  { eapply rtc_l; [apply (sd_after new ∅ "C" [] [7] true (GPTPS_OK, 50) GPTPS_OK 0 o1 []); [apply NoDup_singleton|by vm_compute]|].
    eapply rtc_l; [|apply rtc_refl].
    apply (sd_ended o1 ∅ EV_FINISHED GPTPS_OK 7 (all GPTPS_E_FULL) o2 [Sub "C" [] [7] GPTPS_E_FULL]); [done|done|set_solver|by vm_compute|by vm_compute]. }
  destruct (play (seqZ 100 16) x) as [y|] eqn:Hp; [|by vm_compute in Hp]. pose proof (play_endings _ _ _ Hp) as Hn.
  exists x, y. split; [exact Hx|]. split; [exact Hn|]. split; [by vm_compute|].
  destruct (gates_converge x y Hx Hn) as [_ H]. apply H. intros g Hg.
  assert (Hgs : o_gates o2 = [Gate "C" [] [7] 0 false 1 false GPTPS_E_FULL]) by by vm_compute.
  assert (Hg2 : g ∈ o_gates o2) by exact Hg. rewrite Hgs in Hg2. apply list_elem_of_singleton in Hg2 as ->. apply Forall_singleton. set_solver.
Defined.

End Gates.
