(* ===== verification/Stats.v ===== *)
(** * The statistics of [src/addons/gptps_stats.c]

    Counters, gauges and measurements of an engine, kept from the events it sends.  Every
    section runs under the mutex and is a function here.  The table of handles is a
    finite map: its code is that of HMap.v, at the same load.  Whether there was memory
    for a slot, a row, a table of measurements, is an argument ([room]). *)

From S2P Require Import Prelude Engine.

Module Stats.
Import Engine.

(** ** State *)

(** [gptps_stats_counters]. *)
Record counters := Counters {
  c_queued : Z; c_started : Z; c_finished : Z; c_failed : Z; c_retried : Z; c_dead_lettered : Z; c_dropped : Z;
  c_cancelled : Z; c_terminal : Z; c_pending : Z; c_in_flight : Z; c_wait_samples : Z; c_wait_ms_sum : Z;
  c_wait_ms_max : Z; c_run_samples : Z; c_run_ms_sum : Z; c_run_ms_max : Z; c_measures_dropped : Z }.
#[export] Instance eta_counters : Eta counters := λ c,
  Counters (c_queued c) (c_started c) (c_finished c) (c_failed c) (c_retried c) (c_dead_lettered c) (c_dropped c)
    (c_cancelled c) (c_terminal c) (c_pending c) (c_in_flight c) (c_wait_samples c) (c_wait_ms_sum c)
    (c_wait_ms_max c) (c_run_samples c) (c_run_ms_sum c) (c_run_ms_max c) (c_measures_dropped c).
Definition no_counts : counters := Counters 0 0 0 0 0 0 0 0 0 0 0 0 0 0 0 0 0 0.

Inductive slot_state := ST_NONE | ST_PENDING | ST_RUNNING | ST_LIMBO | ST_DONE.
#[export] Instance slot_state_eq_dec : EqDecision slot_state.
Proof. solve_decision. Defined.
(** [stats_slot]; [sl_task] is [None] for [UINT32_MAX]. *)
Record stats_slot := Slot {
  sl_task : option nat; sl_state : slot_state; sl_seen_queued : bool; sl_have_queued_ms : bool; sl_have_started_ms : bool;
  sl_queued_ms : Z; sl_started_ms : Z; sl_att : Z; sl_ann : Z; sl_owe_r : Z; sl_owe_q : bool; sl_q_started_ms : Z }.
#[export] Instance eta_stats_slot : Eta stats_slot := λ s,
  Slot (sl_task s) (sl_state s) (sl_seen_queued s) (sl_have_queued_ms s) (sl_have_started_ms s)
    (sl_queued_ms s) (sl_started_ms s) (sl_att s) (sl_ann s) (sl_owe_r s) (sl_owe_q s) (sl_q_started_ms s).
Definition OWES_RETRIED (sl : stats_slot) : bool := (1 <? sl_att sl) && (sl_ann sl <? sl_att sl).

(** [gptps_measure]; [gptps_stats_measure] and its row. *)
Record measure := Measure { m_name : string; m_method : string; m_unit : Z; m_kind : Z; m_value : Z }.
Record stats_measure := StatsMeasure {
  sm_unit : Z; sm_kind : Z; sm_count : Z; sm_sum : Z; sm_min : Z; sm_max : Z; sm_last : Z; sm_last_ms : Z }.
#[export] Instance eta_stats_measure : Eta stats_measure := λ m,
  StatsMeasure (sm_unit m) (sm_kind m) (sm_count m) (sm_sum m) (sm_min m) (sm_max m) (sm_last m) (sm_last_ms m).
Record stats_mrow := MRow { mr_name : string; mr_method : string; mr_m : stats_measure }.
#[export] Instance eta_stats_mrow : Eta stats_mrow := λ r, MRow (mr_name r) (mr_method r) (mr_m r).
Definition stats_mtab : Type := list stats_mrow.
Definition GPTPS_STATS_MEASURE_ROWS : nat := 32.
Definition GPTPS_STATS_NAME_MAX : nat := 64.

Record stats_task := STask { tk_name : string; tk_c : counters; tk_mt : stats_mtab }.
#[export] Instance eta_stats_task : Eta stats_task := λ t, STask (tk_name t) (tk_c t) (tk_mt t).
Record stats := MkStats { s_total : counters; s_mtotal : stats_mtab; s_tasks : list stats_task; s_tab : gmap Z stats_slot }.
#[export] Instance eta_stats : Eta stats := λ s, MkStats (s_total s) (s_mtotal s) (s_tasks s) (s_tab s).
Definition no_stats : stats := MkStats no_counts [] [] ∅.

(** ** Rows *)

(** [task_index]: the row of a name, made if there is memory. *)
Definition task_index (room : bool) (name : string) (s : stats) : option nat * stats :=
  match list_find (λ t, tk_name t = name) (s_tasks s) with
  | Some (i, _) => (Some i, s)
  | None =>
      if room then (Some (length (s_tasks s)), s <| s_tasks ::= λ l, l ++ [STask name no_counts []] |>)
      else (None, s)
  end.
(** The engine's row and, if there is one, the task type's. *)
Definition bump (ti : option nat) (f : counters → counters) (s : stats) : stats :=
  let s := s <| s_total ::= f |> in
  match ti with
  | Some i => s <| s_tasks ::= λ l, alter (M := list stats_task) (λ t, t <| tk_c ::= f |>) i l |>
  | None => s
  end.
Definition gauge_pending (d : Z) (c : counters) : counters := c <| c_pending ::= λ n, u64 (n + d) |>.
Definition gauge_in_flight (d : Z) (c : counters) : counters := c <| c_in_flight ::= λ n, u64 (n + d) |>.
Definition sample_wait (ms : Z) (c : counters) : counters :=
  c <| c_wait_samples ::= λ n, u64 (n + 1) |> <| c_wait_ms_sum ::= λ n, u64 (n + ms) |> <| c_wait_ms_max ::= λ m, if m <? ms then ms else m |>.
Definition sample_run (ms : Z) (c : counters) : counters :=
  c <| c_run_samples ::= λ n, u64 (n + 1) |> <| c_run_ms_sum ::= λ n, u64 (n + ms) |> <| c_run_ms_max ::= λ m, if m <? ms then ms else m |>.

(** ** Measurements *)

Definition mrow_fold (v ts : Z) (m : stats_measure) : stats_measure :=
  let m := m <| sm_min ::= λ x, if (sm_count m =? 0) || (v <? x) then v else x |>
             <| sm_max ::= λ x, if (sm_count m =? 0) || (x <? v) then v else x |>
             <| sm_sum ::= λ x, if UINT64_MAX - v <? x then UINT64_MAX else x + v |>
             <| sm_count ::= λ n, u64 (n + 1) |> in
  if (sm_count m =? 1) || (sm_last_ms m <=? ts) then m <| sm_last := v |> <| sm_last_ms := ts |> else m.
Definition mtab_fold (room : bool) (x : measure) (ts : Z) (mt : stats_mtab) : bool * stats_mtab :=
  match list_find (λ r, mr_name r = m_name x ∧ mr_method r = m_method x) mt with
  | Some (i, r) =>
      if negb (sm_unit (mr_m r) =? m_unit x) || negb (sm_kind (mr_m r) =? m_kind x) then (false, mt)
      else (true, <[i := r <| mr_m ::= mrow_fold (m_value x) ts |>]> mt)
  | None =>
      if (length mt =? 0)%nat && negb room then (false, mt)
      else if (GPTPS_STATS_MEASURE_ROWS <=? length mt)%nat then (false, mt)
      else (true, mt ++ [MRow (m_name x) (m_method x) (mrow_fold (m_value x) ts (StatsMeasure (m_unit x) (m_kind x) 0 0 0 0 0 0))])
  end.
Definition drop_measure (c : counters) : counters := c <| c_measures_dropped ::= λ n, u64 (n + 1) |>.
(** One measurement, into the engine's rows and a task type's; [fits]: both names do. *)
Definition fold_one (room : bool) (ti : option nat) (x : measure) (ts : Z) (s : stats) : stats :=
  let fits := (String.length (m_name x) <? GPTPS_STATS_NAME_MAX)%nat && (String.length (m_method x) <? GPTPS_STATS_NAME_MAX)%nat in
  let '(ok, mt) := if fits then mtab_fold room x ts (s_mtotal s) else (false, s_mtotal s) in
  let s := s <| s_mtotal := mt |> in
  let s := if (ok : bool) then s else s <| s_total ::= drop_measure |> in
  match ti with
  | None => s
  | Some i =>
      s <| s_tasks ::= λ l, alter (M := list stats_task) (λ t,
        let '(ok, mt) := if fits then mtab_fold room x ts (tk_mt t) else (false, tk_mt t) in
        let t := t <| tk_mt := mt |> in
        if (ok : bool) then t else t <| tk_c ::= drop_measure |>) i l |>
  end.
Definition fold_array (room : bool) (ti : option nat) (xs : list measure) (ts : Z) (s : stats) : stats :=
  foldl (λ s x, fold_one room ti x ts s) s xs.

(** ** The observer *)

(** What the observer reads of a [gptps_event]. *)
Record sevent := SEvent {
  e_kind : event_kind; e_handle : Z; e_name : string; e_status : status; e_attempt : Z; e_ts : Z; e_measures : list measure }.

Definition new_slot (ti : option nat) : stats_slot := Slot ti ST_NONE false false false 0 0 0 0 0 false 0.
Definition set_slot (h : Z) (sl : stats_slot) (s : stats) : stats := s <| s_tab ::= <[h := sl]> |>.
Definition tab_del (h : Z) (s : stats) : stats := s <| s_tab ::= delete h |>.
Definition finish_slot (h : Z) (sl : stats_slot) (s : stats) : stats :=
  if sl_seen_queued sl && negb (OWES_RETRIED sl) then tab_del h s else set_slot h (sl <| sl_state := ST_DONE |>) s.
Definition note_attempt (a : Z) (sl : stats_slot) : stats_slot := if sl_att sl <? a then sl <| sl_att := a |> else sl.
(** [a > b ? a - b : 0]. *)
Definition after (a b : Z) : Z := if b <? a then a - b else 0.

Definition on_queued (ti : option nat) (ev : sevent) (h : Z) (sl : stats_slot) (s : stats) : stats :=
  let sl := sl <| sl_seen_queued := true |> in
  let s := if sl_owe_q sl then bump ti (sample_wait (after (sl_q_started_ms sl) (e_ts ev))) s else s in
  let sl := if sl_owe_q sl then sl <| sl_owe_q := false |> else sl in
  if decide (sl_state sl = ST_DONE) then if negb (OWES_RETRIED sl) then tab_del h s else set_slot h sl s
  else
    let '(sl, s) := if decide (sl_state sl = ST_NONE) then (sl <| sl_state := ST_PENDING |>, bump ti (gauge_pending 1) s) else (sl, s) in
    set_slot h (if sl_have_queued_ms sl then sl else sl <| sl_queued_ms := e_ts ev |> <| sl_have_queued_ms := true |>) s.
Definition on_started (ti : option nat) (ev : sevent) (h : Z) (sl : stats_slot) (s : stats) : stats :=
  let s := if decide (sl_state sl = ST_PENDING) then bump ti (gauge_pending (-1)) s else s in
  let sl := if e_attempt ev <=? 1 then sl <| sl_ann := 0 |> <| sl_owe_r := 0 |> else sl in
  let sl := sl <| sl_att := e_attempt ev |> <| sl_state := ST_RUNNING |> <| sl_started_ms := e_ts ev |> <| sl_have_started_ms := true |> in
  let s := bump ti (gauge_in_flight 1) s in
  if (1 <? e_attempt ev) && (sl_ann sl <? e_attempt ev) then set_slot h (sl <| sl_owe_r := e_attempt ev |>) s
  else if negb (sl_have_queued_ms sl) then set_slot h (sl <| sl_owe_q := true |> <| sl_q_started_ms := e_ts ev |>) s
  else set_slot h sl (bump ti (sample_wait (after (e_ts ev) (sl_queued_ms sl))) s).
(** An attempt that was running has ended. *)
Definition ran (ti : option nat) (ev : sevent) (sl : stats_slot) (s : stats) : stats :=
  let s := bump ti (gauge_in_flight (-1)) s in
  if sl_have_started_ms sl && (sl_started_ms sl <=? e_ts ev) then bump ti (sample_run (e_ts ev - sl_started_ms sl)) s else s.
Definition on_finished (ti : option nat) (ev : sevent) (h : Z) (sl : stats_slot) (s : stats) : stats :=
  let sl := note_attempt (e_attempt ev) sl in
  finish_slot h sl (if decide (sl_state sl = ST_RUNNING) then ran ti ev sl s else s).
Definition on_failed (ti : option nat) (ev : sevent) (h : Z) (sl : stats_slot) (s : stats) : stats :=
  let sl := note_attempt (e_attempt ev) sl in
  let s := if decide (sl_state sl = ST_RUNNING) then ran ti ev sl s
           else if decide (sl_state sl = ST_PENDING) then bump ti (gauge_pending (-1)) s else s in
  let sl := sl <| sl_state := ST_LIMBO |> in
  if decide (e_status ev = GPTPS_E_CANCELLED) then finish_slot h sl s else set_slot h sl s.
Definition on_retried (ti : option nat) (ev : sevent) (h : Z) (sl : stats_slot) (s : stats) : stats :=
  let sl := if sl_ann sl <? e_attempt ev then sl <| sl_ann := e_attempt ev |> else sl in
  let owed := negb (sl_owe_r sl =? 0) && (sl_owe_r sl =? e_attempt ev) in
  let s := if owed then bump ti (sample_wait (after (sl_started_ms sl) (e_ts ev))) s else s in
  let sl := if owed then sl <| sl_owe_r := 0 |> else sl in
  if (e_attempt ev <=? sl_att sl) || bool_decide (sl_state sl = ST_DONE)
  then if bool_decide (sl_state sl = ST_DONE) && sl_seen_queued sl then tab_del h s else set_slot h sl s
  else
    let s := if decide (sl_state sl = ST_PENDING) then s else bump ti (gauge_pending 1) s in
    set_slot h (sl <| sl_state := ST_PENDING |> <| sl_queued_ms := e_ts ev |> <| sl_have_queued_ms := true |>) s.
Definition on_dropped (ti : option nat) (ev : sevent) (h : Z) (sl : stats_slot) (s : stats) : stats :=
  let sl := note_attempt (e_attempt ev) sl in
  finish_slot h sl (if decide (sl_state sl = ST_PENDING) then bump ti (gauge_pending (-1)) s
                    else if decide (sl_state sl = ST_RUNNING) then bump ti (gauge_in_flight (-1)) s else s).

Definition inc (n : Z) : Z := u64 (n + 1).
Definition bumped (ev : sevent) (c : counters) : counters :=
  match e_kind ev with
  | EV_QUEUED => c <| c_queued ::= inc |>
  | EV_STARTED => c <| c_started ::= inc |>
  | EV_FINISHED => c <| c_finished ::= inc |> <| c_terminal ::= inc |>
  | EV_FAILED => let c := c <| c_failed ::= inc |> in
                 if decide (e_status ev = GPTPS_E_CANCELLED) then c <| c_cancelled ::= inc |> <| c_terminal ::= inc |> else c
  | EV_RETRIED => c <| c_retried ::= inc |>
  | EV_DEAD_LETTERED => c <| c_dead_lettered ::= inc |> <| c_terminal ::= inc |>
  | EV_DROPPED => c <| c_dropped ::= inc |> <| c_terminal ::= inc |>
  | EV_SAMPLE => c
  end.
Definition on_kind (k : event_kind) : option nat → sevent → Z → stats_slot → stats → stats :=
  match k with
  | EV_QUEUED => on_queued | EV_STARTED => on_started | EV_FINISHED => on_finished | EV_FAILED => on_failed
  | EV_RETRIED => on_retried | EV_DEAD_LETTERED | EV_DROPPED => on_dropped | EV_SAMPLE => λ _ _ _ _ s, s
  end.
(** [stats_observe]; [room1]: for a row of the task type, [room2]: for a table of
    measurements, [room3]: for the slot. *)
Definition stats_observe (room1 room2 room3 : bool) (ev : sevent) (s : stats) : stats :=
  let h := e_handle ev in
  if decide (e_kind ev = EV_SAMPLE) then
    let '(ti, s) := task_index room1 (e_name ev) s in fold_array room2 ti (e_measures ev) (e_ts ev) s
  else
    let slot := s_tab s !! h in
    let '(ti, s) := match slot with Some sl => (sl_task sl, s) | None => task_index room1 (e_name ev) s end in
    let s := if decide (e_kind ev = EV_FINISHED ∨ e_kind ev = EV_FAILED) then fold_array room2 ti (e_measures ev) (e_ts ev) s else s in
    let slot := match slot with Some sl => Some sl | None => if room3 then Some (new_slot ti) else None end in
    let s := bump ti (bumped ev) s in
    match slot with Some sl => on_kind (e_kind ev) ti ev h sl (set_slot h sl s) | None => s end.

(** ** Calls *)

Definition stats_total (s : stats) : counters := s_total s.
Definition stats_task_count (s : stats) : nat := length (s_tasks s).
(** A text cut to a buffer of [cap] bytes. *)
Definition copy_out (cap : nat) (src : string) : string := String.substring 0 (cap - 1) src.
Definition stats_task_at (index name_cap : nat) (s : stats) : status + (string * counters) :=
  match s_tasks s !! index with
  | Some t => inr (copy_out name_cap (tk_name t), tk_c t)
  | None => inl GPTPS_E_NOTFOUND
  end.
Definition stats_task_find (name : string) (s : stats) : status + counters :=
  match list_find (λ t, tk_name t = name) (s_tasks s) with Some (_, t) => inr (tk_c t) | None => inl GPTPS_E_NOTFOUND end.
Definition reset_row (c : counters) : counters := no_counts <| c_pending := c_pending c |> <| c_in_flight := c_in_flight c |>.
Definition stats_reset (s : stats) : stats :=
  s <| s_total ::= reset_row |> <| s_mtotal := [] |>
    <| s_tasks ::= map (λ t, t <| tk_c ::= reset_row |> <| tk_mt := [] |>) |>.
Definition stats_merge (d a : counters) : counters :=
  let add (f : counters → Z) := u64 (f d + f a) in
  let larger (f : counters → Z) := if f d <? f a then f a else f d in
  Counters (add c_queued) (add c_started) (add c_finished) (add c_failed) (add c_retried) (add c_dead_lettered) (add c_dropped)
    (add c_cancelled) (add c_terminal) (add c_pending) (add c_in_flight) (add c_wait_samples) (add c_wait_ms_sum)
    (larger c_wait_ms_max) (add c_run_samples) (add c_run_ms_sum) (larger c_run_ms_max) (add c_measures_dropped).
Definition measure_merge (d a : stats_measure) : stats_measure :=
  if sm_count a =? 0 then d
  else if sm_count d =? 0 then a
  else
    let d' := d <| sm_min ::= λ x, if sm_min a <? x then sm_min a else x |>
                <| sm_max ::= λ x, if x <? sm_max a then sm_max a else x |>
                <| sm_sum ::= λ x, if UINT64_MAX - sm_sum a <? x then UINT64_MAX else x + sm_sum a |>
                <| sm_count ::= λ n, u64 (n + sm_count a) |> in
    if sm_last_ms d <=? sm_last_ms a then d' <| sm_last := sm_last a |> <| sm_last_ms := sm_last_ms a |> else d'.
Definition mtab_for (task : option string) (s : stats) : option stats_mtab :=
  match task with
  | None => Some (s_mtotal s)
  | Some name => snd <$> ((λ p, (p.1, tk_mt p.2)) <$> list_find (λ t, tk_name t = name) (s_tasks s))
  end.
Definition measure_get (task : option string) (name method : string) (s : stats) : status + stats_measure :=
  match mt ← mtab_for task s; list_find (λ r, mr_name r = name ∧ mr_method r = method) mt with
  | Some (_, r) => inr (mr_m r)
  | None => inl GPTPS_E_NOTFOUND
  end.
Definition measure_count (task : option string) (s : stats) : nat := from_option length 0%nat (mtab_for task s).
Definition measure_at (task : option string) (index name_cap method_cap : nat) (s : stats) :
    status + (string * string * stats_measure) :=
  match mt ← mtab_for task s; mt !! index with
  | Some r => inr (copy_out name_cap (mr_name r), copy_out method_cap (mr_method r), mr_m r)
  | None => inl GPTPS_E_NOTFOUND
  end.
Definition measure_fold (room1 room2 : bool) (task : string) (xs : list measure) (ts : Z) (s : stats) : stats :=
  let '(ti, s) := task_index room1 task s in fold_array room2 ti xs ts s.

End Stats.
