(* ===== verification/Gauges.v ===== *)
(** * What the statistics count

    Each handle's life as the engine drives it, the events of it delivered as late as
    the event contract of gptps.h allows ([told]), and what the observer's slot knows of
    that life ([knows]): an invariant of every delivery, hence of every world. *)

From S2P Require Import Prelude Engine Stats.

Module Gauges.
Import Engine Stats.

(** ** Lives *)

(** A one-shot handle.  [Submitted], [Requeued] and [Retrying] wait to be admitted. *)
Inductive phase := Submitted | Requeued | Retrying (a : Z) | Running (a : Z) | Between (a : Z) | Over.
#[export] Instance phase_eq_dec : EqDecision phase.
Proof. solve_decision. Defined.
(** [l_late_q]: its QUEUED is yet to be delivered; [l_late_r]: the attempt a RETRIED yet
    to be delivered announces, or 0. *)
Record life := Life { l_phase : phase; l_late_q : bool; l_late_r : Z }.
#[export] Instance eta_life : Eta life := λ l, Life (l_phase l) (l_late_q l) (l_late_r l).

Definition attempt_of (p : phase) : Z :=
  match p with Submitted | Requeued => 1 | Retrying a | Running a | Between a => a | Over => 0 end.
Definition waiting (p : phase) : Prop :=
  match p with Submitted | Requeued | Retrying _ => True | _ => False end.
Definition retrying (p : phase) : Prop := match p with Retrying _ => True | _ => False end.

(** The engine moves a handle on without an event: a retry, whose RETRIED is then due,
    or another cycle of GPTPS_ON_FAILURE_REQUEUE.  The dispatcher does so, after it has
    delivered the RETRIED of the attempt before. *)
Inductive moved_on : life → life → Prop :=
  | on_retry a q : moved_on (Life (Between a) q 0) (Life (Retrying (a + 1)) q (a + 1))
  | on_requeue a : moved_on (Life (Between a) false 0) (Life Requeued false 0).

(** An event is delivered.  A worker sends STARTED and what ends the attempt, the
    dispatcher RETRIED, DEAD_LETTERED and DROPPED, the submitter QUEUED, and any thread
    the FAILED of a cancelled handle. *)
Inductive told (ev : sevent) : life → life → Prop :=
  | told_queued p r :
      e_kind ev = EV_QUEUED → told ev (Life p true r) (Life p false r)
  | told_started p q r :
      e_kind ev = EV_STARTED → waiting p → e_attempt ev = attempt_of p → told ev (Life p q r) (Life (Running (attempt_of p)) q r)
  | told_finished a q r :
      e_kind ev = EV_FINISHED → e_attempt ev = a → told ev (Life (Running a) q r) (Life Over q r)
  | told_failed a q r :
      e_kind ev = EV_FAILED → e_status ev ≠ GPTPS_E_CANCELLED → e_attempt ev = a → told ev (Life (Running a) q r) (Life (Between a) q r)
  | told_cancelled p q r :
      e_kind ev = EV_FAILED → e_status ev = GPTPS_E_CANCELLED → p ≠ Over → e_attempt ev = attempt_of p →
      told ev (Life p q r) (Life Over q r)
  | told_retried p q r :
      e_kind ev = EV_RETRIED → 0 < r → e_attempt ev = r → told ev (Life p q r) (Life p q 0)
  | told_dropped p q :
      e_kind ev = EV_DEAD_LETTERED ∨ e_kind ev = EV_DROPPED → waiting p ∨ p = Between (attempt_of p) →
      e_attempt ev = attempt_of p → told ev (Life p q 0) (Life Over q 0).

(** ** What a slot knows of a life *)

Definition standing (p : phase) (r : Z) (sl : stats_slot) : Prop :=
  match p with
  | Submitted => sl_state sl = ST_PENDING ∧ sl_seen_queued sl = true ∧ sl_att sl = 0 ∧ r = 0
  | Requeued => sl_state sl = ST_LIMBO ∧ sl_seen_queued sl = true ∧ r = 0
  | Retrying a => 1 < a ∧ 0 < sl_att sl < a ∧ 
                    (r = 0 ∧ sl_state sl = ST_PENDING ∧ sl_have_queued_ms sl = true ∧ sl_ann sl = a ∨ r = a ∧ sl_state sl = ST_LIMBO)
  | Running a => 1 ≤ a ∧ sl_state sl = ST_RUNNING ∧ sl_att sl = a ∧ sl_ann sl ≤ a
  | Between a => 1 ≤ a ∧ sl_state sl = ST_LIMBO ∧ sl_att sl = a ∧ sl_ann sl ≤ a
  | Over => sl_state sl = ST_DONE
  end.
Record tracks (l : life) (sl : stats_slot) : Prop := {
  k_seen : sl_seen_queued sl = negb (l_late_q l);
  k_owe_q : sl_owe_q sl = true → l_late_q l = true;
  k_stamp : sl_have_queued_ms sl = false → l_late_q l = true ∨ l_phase l = Over;
  k_owe_r : sl_owe_r sl ≠ 0 → sl_owe_r sl = l_late_r l ∧ sl_att sl = l_late_r l;
  k_late : 0 < l_late_r l → 1 < l_late_r l ∧ sl_ann sl < l_late_r l ∧ (retrying (l_phase l) ∨ sl_att sl = l_late_r l);
  k_told : l_late_r l = 0 → 1 < sl_att sl → sl_att sl ≤ sl_ann sl;
  k_phase : standing (l_phase l) (l_late_r l) sl;
  k_range : 0 ≤ l_late_r l ∧ 0 ≤ sl_att sl ∧ 0 ≤ sl_ann sl }.
(** A slot is missing before the first event of a handle and after the last. *)
Definition settled (l : life) : Prop := l_phase l = Over ∧ l_late_q l = false ∧ l_late_r l = 0.
Definition knows (l : life) (o : option stats_slot) : Prop :=
  match o with
  | None => l = Life Submitted true 0 ∨ settled l
  | Some sl => tracks l sl ∧ ¬ settled l
  end.

(** ** Counting *)

Definition is_state (st : slot_state) (sl : stats_slot) : Z := Z.b2z (bool_decide (sl_state sl = st)).
Definition owed (sl : stats_slot) : Z := Z.b2z (sl_owe_q sl) + Z.b2z (negb (sl_owe_r sl =? 0)).
Definition heard (l : life) : Z := Z.b2z (negb (l_late_q l)).
Definition ended (l : life) : Z := Z.b2z (bool_decide (l_phase l = Over)).

(** ** Rows *)

(** The engine's row ([None]) or a task type's; which of them an event of row [ti] moves. *)
Definition row (who : option nat) (s : stats) : option counters :=
  match who with None => Some (s_total s) | Some i => tk_c <$> s_tasks s !! i end.
Definition covers (who ti : option nat) : bool := match who with None => true | Some _ => bool_decide (who = ti) end.

(** [s'] is [s] with slot [h] become [x] and the rows of [ti] changed by [F]. *)
Record moved (h : Z) (ti : option nat) (x : option stats_slot) (F : counters → counters) (s s' : stats) : Prop := {
  m_tab : s_tab s' = partial_alter (λ _, x) h (s_tab s);
  m_tasks : length (s_tasks s') = length (s_tasks s);
  m_rows : ∀ who, row who s' = (if covers who ti then F else id) <$> row who s }.

Lemma row_bump ti f who s : row who (bump ti f s) = (if covers who ti then f else id) <$> row who s.
Proof.
  destruct who as [i|]; [|by destruct ti].
  destruct ti as [j|]; [|by rewrite option_fmap_id]. cbn [covers].
  transitivity (tk_c <$> alter (M := list stats_task) (λ t, t <| tk_c ::= f |>) j (s_tasks s) !! i); [done|]. cbn [row]. destruct (decide (i = j)) as [->|Hn].
  - rewrite list_lookup_alter_eq, bool_decide_eq_true_2 by done. by destruct (s_tasks s !! j).
  - rewrite list_lookup_alter_ne, bool_decide_eq_false_2, option_fmap_id by congruence. done.
Qed.
Lemma moved_refl h ti s : moved h ti (s_tab s !! h) id s s.
Proof.
  split; [by rewrite partial_alter_self| done|]. intros who. case_match; by rewrite option_fmap_id.
Qed.
Lemma moved_bump h ti x f F s s' : moved h ti x F s s' → moved h ti x (f ∘ F) s (bump ti f s').
Proof.
  intros [Ht Hl Hr]. split.
  - rewrite <-Ht. by destruct ti.
  - rewrite <-Hl. destruct ti; simpl; [by rewrite length_alter|done].
  - intros who. rewrite row_bump, Hr. case_match; [by rewrite <-option_fmap_compose|by rewrite !option_fmap_id].
Qed.
Lemma moved_set h ti x y F s s' : moved h ti x F s s' → moved h ti (Some y) F s (set_slot h y s').
Proof.
  intros [Ht Hl Hr]. split; [|done..]. simpl. rewrite Ht. apply (partial_alter_partial_alter_eq (λ _, Some y) (λ _, x)).
Qed.
Lemma moved_del h ti x F s s' : moved h ti x F s s' → moved h ti None F s (tab_del h s').
Proof.
  intros [Ht Hl Hr]. split; [|done..]. simpl. rewrite Ht. apply (partial_alter_partial_alter_eq (λ _, None) (λ _, x)).
Qed.

(** ** One delivery *)

(** What a change of a row adds: to the gauges [dp] and [df], to STARTED less the wait
    samples [dw], to QUEUED [dq], to the terminal events [dt]. *)
Record adds (F : counters → counters) (dp df dw dq dt : Z) : Prop := {
  a_pending : ∀ c n, c_pending c = u64 n → c_pending (F c) = u64 (n + dp);
  a_flight : ∀ c n, c_in_flight c = u64 n → c_in_flight (F c) = u64 (n + df);
  a_waits : ∀ c n, c_started c = u64 (c_wait_samples c + n) → c_started (F c) = u64 (c_wait_samples (F c) + (n + dw));
  a_queued : ∀ c n, c_queued c = u64 n → c_queued (F c) = u64 (n + dq);
  a_terminal : ∀ c n, c_terminal c = u64 n → c_terminal (F c) = u64 (n + dt) }.

Definition count (w : stats_slot → Z) (o : option stats_slot) : Z := from_option w 0 o.
(** An event that takes [l] to [l'] leaves the slot knowing [l'], and the rows count it. *)
Definition accounted (ev : sevent) (l l' : life) : Prop :=
  ∀ ti h o s, knows l o → s_tab s !! h = o → sl_task (default (new_slot ti) o) = ti →
  ∃ x F, moved h ti x F s (on_kind (e_kind ev) ti ev h (default (new_slot ti) o) (set_slot h (default (new_slot ti) o) (bump ti (bumped ev) s))) ∧
    knows l' x ∧ (∀ sl, x = Some sl → sl_task sl = ti) ∧
    adds F (count (is_state ST_PENDING) x - count (is_state ST_PENDING) o) (count (is_state ST_RUNNING) x - count (is_state ST_RUNNING) o)
      (count owed x - count owed o) (heard l' - heard l) (ended l' - ended l).

#[local] Opaque bump set_slot tab_del.
Ltac moves :=
  first [ apply moved_refl | eapply moved_set; moves | eapply moved_bump; moves | eapply moved_del; moves ].
Ltac tests :=
  repeat (match goal with
  | H : context [?a =? ?b] |- _ => destruct (Z.eqb_spec a b); destruct_and?; subst; simpl in *
  | |- context [?a <? ?b] => destruct (Z.ltb_spec a b); simpl in *
  | |- context [?a <=? ?b] => destruct (Z.leb_spec a b); simpl in *
  | |- context [?a =? ?b] => destruct (Z.eqb_spec a b); simpl in *
  end; try lia).
Ltac kind := repeat match goal with E : e_kind _ = _ |- _ => rewrite E end; rewrite ?decide_True, ?decide_False by done.
Ltac counts :=
  let n := fresh "n" in let Hc := fresh "Hc" in split; intros [] n; unfold bumped, count, is_state, owed, heard, ended, inc; simpl; kind; simpl; intros Hc; tests;
  rewrite ?Hc, ?u64_add; f_equal; lia.
(** A RETRIED is late or not, its wait sample owed or not. *)
Ltac late :=
  match goal with kl : 0 < ?r → _, kt : ?r = 0 → _, ko : ?o ≠ 0 → _ |- _ =>
    (destruct (Z.eq_dec r 0); [subst; specialize (kt eq_refl); clear kl|clear kt; specialize (kl ltac:(lia))]);
    (destruct (Z.eq_dec o 0); [subst; clear ko|specialize (ko ltac:(done))]); destruct_and?; simpl in *; try lia
  end.
Ltac attempt := repeat match goal with Ha : e_attempt _ = _ |- _ => simpl in Ha; rewrite ?Ha; revert Ha end; intros; rewrite ?decide_True, ?decide_False by done.
(** Opens the slot up and runs the handler on it. *)
Ltac look :=
  match goal with sl : stats_slot |- _ => destruct sl as [t st seen hq hs qm sm att ann owr owq qs] end;
  unfold on_queued, on_started, on_finished, on_failed, on_retried, on_dropped, finish_slot, OWES_RETRIED, ran, note_attempt, settled; attempt; simpl in *;
  destruct_and?; destruct_or?; destruct_and?; subst; simpl in *; try late.
Ltac flags :=
  repeat match goal with b : bool |- _ => destruct b end; simpl in *;
  repeat match goal with H : ?x = ?x → _ |- _ => specialize (H eq_refl) end; try done; destruct_or?; try done.
Ltac knows_more := first [done | lia | split_and?; first [done | lia | tauto | intuition lia | intuition congruence] ].
Ltac known :=
  unfold settled in *; simpl in *;
  first [right; knows_more
        |split; [split; simpl in *; knows_more | let Hx := fresh in let Hy := fresh in let Hz := fresh in intros (Hx & Hy & Hz); simpl in *; first [discriminate Hx|discriminate Hy|lia|tauto]]].
Ltac conclude := eexists _, _; split; [moves|split; [known|split; [by intros ? [= <-]|counts]]].

Ltac handle :=
  match goal with E : e_kind _ = _ |- _ => rewrite E end; cbn [on_kind];
  match goal with Hk : knows _ ?o |- _ =>
    destruct o as [sl|]; cbn [default from_option id] in *;
    [destruct Hk as [[] Hs]; look; try done; flags; tests; try conclude
    |destruct Hk as [Hk|(?&?&?)]; [|simpl in *; first [done|lia]]; try discriminate Hk; simplify_eq; try lia; unfold new_slot;
     unfold on_queued, on_started, on_finished, on_failed, on_retried, on_dropped, finish_slot, OWES_RETRIED, ran, note_attempt; attempt;
     simpl in *; flags; tests; try conclude]
  end.

Lemma told_queued_ok ev p r : e_kind ev = EV_QUEUED → accounted ev (Life p true r) (Life p false r).
Proof. intros E ti h o s Hk Ho Hti. destruct p; handle. Qed.
Lemma told_started_ok ev p q r :
  e_kind ev = EV_STARTED → waiting p → e_attempt ev = attempt_of p → accounted ev (Life p q r) (Life (Running (attempt_of p)) q r).
Proof. intros E Hw Ha ti h o s Hk Ho Hti. destruct p; try done; handle. Qed.
Lemma told_finished_ok ev a q r :
  e_kind ev = EV_FINISHED → e_attempt ev = a → accounted ev (Life (Running a) q r) (Life Over q r).
Proof. intros E Ha ti h o s Hk Ho Hti. handle. Qed.
Lemma told_failed_ok ev a q r :
  e_kind ev = EV_FAILED → e_status ev ≠ GPTPS_E_CANCELLED → e_attempt ev = a → accounted ev (Life (Running a) q r) (Life (Between a) q r).
Proof. intros E Hst Ha ti h o s Hk Ho Hti. handle. Qed.
Lemma told_cancelled_ok ev p q r :
  e_kind ev = EV_FAILED → e_status ev = GPTPS_E_CANCELLED → p ≠ Over → e_attempt ev = attempt_of p →
  accounted ev (Life p q r) (Life Over q r).
Proof. intros E Hst Hp Ha ti h o s Hk Ho Hti. destruct p; try done; handle. Qed.
Lemma told_retried_ok ev p q r :
  e_kind ev = EV_RETRIED → 0 < r → e_attempt ev = r → accounted ev (Life p q r) (Life p q 0).
Proof. intros E Hr Ha ti h o s Hk Ho Hti. destruct p; handle. Qed.
Lemma told_dropped_ok ev p q :
  e_kind ev = EV_DEAD_LETTERED ∨ e_kind ev = EV_DROPPED → waiting p ∨ p = Between (attempt_of p) →
  e_attempt ev = attempt_of p → accounted ev (Life p q 0) (Life Over q 0).
Proof. intros [E|E] Hp Ha ti h o s Hk Ho Hti; destruct p; try (destruct Hp as [[]|Hp]; discriminate Hp); clear Hp; handle. Qed.

End Gauges.
