(* ===== verification/Statistics.v ===== *)
(** * The statistics over a run

    The observer's counters in every world an engine can bring about: handles submitted,
    moved on and reported in any order the event contract allows, samples taken and the
    counters reset at any time. *)

From S2P Require Import Prelude Engine Stats Gauges.

Module Statistics.
Import Engine Stats Gauges.

(** ** The world *)

(** [w_reset]: the counters have been reset. *)
Record world := World { w_s : stats; w_lives : gmap Z life; w_reset : bool }.

Inductive step : world → world → Prop :=
  | step_submit h s L b :
      L !! h = None → step (World s L b) (World s (<[h := Life Submitted true 0]> L) b)
  | step_moved h l l' s L b :
      L !! h = Some l → moved_on l l' → step (World s L b) (World s (<[h := l']> L) b)
  | step_told room1 room2 ev l l' s L b :
      L !! e_handle ev = Some l → told ev l l' →
      step (World s L b) (World (stats_observe room1 room2 true ev s) (<[e_handle ev := l']> L) b)
  | step_sample room1 room2 room3 ev s L b :
      e_kind ev = EV_SAMPLE → step (World s L b) (World (stats_observe room1 room2 room3 ev s) L b)
  | step_measured room1 room2 task xs ts s L b :
      step (World s L b) (World (measure_fold room1 room2 task xs ts s) L b)
  | step_reset s L b : step (World s L b) (World (stats_reset s) L true).
Definition reachable : world → Prop := rtc step (World no_stats ∅ false).

(** ** The invariant *)

Definition share (who : option nat) (w : stats_slot → Z) (sl : stats_slot) : Z := if covers who (sl_task sl) then w sl else 0.
Record tallied (reset : bool) (who : option nat) (tab : gmap Z stats_slot) (c : counters) : Prop := {
  t_pending : c_pending c = u64 (total (share who (is_state ST_PENDING)) tab);
  t_flight : c_in_flight c = u64 (total (share who (is_state ST_RUNNING)) tab);
  t_waits : reset = false → c_started c = u64 (c_wait_samples c + total (share who owed) tab) }.
Record inv (w : world) : Prop := {
  i_knows : ∀ h, match w_lives w !! h with Some l => knows l (s_tab (w_s w) !! h) | None => s_tab (w_s w) !! h = None end;
  i_rows : ∀ who c, row who (w_s w) = Some c → tallied (w_reset w) who (s_tab (w_s w)) c;
  i_tasks : ∀ h sl i, s_tab (w_s w) !! h = Some sl → sl_task sl = Some i → (i < length (s_tasks (w_s w)))%nat;
  i_sums : w_reset w = false →
    c_queued (s_total (w_s w)) = u64 (total heard (w_lives w)) ∧ c_terminal (s_total (w_s w)) = u64 (total ended (w_lives w)) }.

(** ** What moves no slot *)

Definition gist (c : counters) : Z * Z * Z * Z * Z * Z :=
  (c_queued c, c_started c, c_terminal c, c_pending c, c_in_flight c, c_wait_samples c).
(** [s'] is [s] but for its measurements and rows that count nothing yet. *)
Record quiet (s s' : stats) : Prop := {
  q_tab : s_tab s' = s_tab s;
  q_tasks : (length (s_tasks s) ≤ length (s_tasks s'))%nat;
  q_total : gist (s_total s') = gist (s_total s);
  q_rows : ∀ i t', s_tasks s' !! i = Some t' →
    match s_tasks s !! i with Some t => gist (tk_c t') = gist (tk_c t) | None => gist (tk_c t') = gist no_counts end }.

#[local] Instance quiet_refl : Reflexive quiet.
Proof. intros s. split; [done..|]. intros i t' ->. done. Qed.
#[local] Instance quiet_trans : Transitive quiet.
Proof.
  intros s s1 s2 [A1 A2 A3 A4] [B1 B2 B3 B4]. split; [congruence|lia|congruence|]. intros i t' Ht'.
  specialize (B4 i t' Ht'). specialize (A4 i). destruct (s_tasks s1 !! i) as [t1|] eqn:E1; [specialize (A4 t1 eq_refl)|].
  - destruct (s_tasks s !! i); congruence.
  - destruct (s_tasks s !! i) eqn:E; [|done]. apply lookup_lt_Some in E. apply lookup_ge_None in E1. lia.
Qed.

Lemma task_index_quiet room name s : quiet s (task_index room name s).2.
Proof.
  unfold task_index. destruct (list_find _ _) as [[i t]|]; [done|]. destruct room; [|done].
  split; [done|simpl; rewrite length_app; lia|done|]. intros i t' Ht'. cbn [snd s_tasks update] in Ht'.
  apply lookup_app_Some in Ht' as [Ht'|[Hl Ht']]; [by rewrite Ht'|].
  rewrite lookup_ge_None_2 by done. by apply list_lookup_singleton_Some in Ht' as [_ <-].
Qed.
Lemma task_index_lt room name s i : (task_index room name s).1 = Some i → (i < length (s_tasks (task_index room name s).2))%nat.
Proof.
  unfold task_index. destruct (list_find _ _) as [[j t]|] eqn:E; simpl.
  - intros [= <-]. apply list_find_Some in E as (E & _). by eapply lookup_lt_Some.
  - destruct room; [|done]. simpl. intros [= <-]. rewrite length_app. simpl. lia.
Qed.

Lemma fold_one_quiet room ti x ts s : quiet s (fold_one room ti x ts s).
Proof.
  unfold fold_one. set (fits := _ && _). destruct (if fits then _ else _) as [ok mt].
  set (s1 := if ok then _ else _). assert (quiet s s1) as Hs1.
  { unfold s1. destruct ok; (split; [done..|]; intros i t' Ht'; simpl in Ht'; by rewrite Ht'). }
  destruct ti as [i|]; [|done]. etrans; [exact Hs1|]. split; [done|simpl; by rewrite length_alter|done|].
  intros j t' Ht'. cbn [s_tasks update] in Ht'. rewrite list_lookup_alter in Ht'. destruct (decide (i = j)) as [->|Hn].
  - destruct (s_tasks s1 !! j) as [t|]; [|done]. simpl in Ht'. injection Ht' as <-. by destruct (if fits then _ else _) as [[] ?].
  - by rewrite Ht'.
Qed.
Lemma fold_array_quiet room ti xs ts s : quiet s (fold_array room ti xs ts s).
Proof.
  revert s. induction xs as [|x xs IH]; intros s; [done|]. etrans; [apply fold_one_quiet|apply IH].
Qed.
Lemma measure_fold_quiet room1 room2 task xs ts s : quiet s (measure_fold room1 room2 task xs ts s).
Proof.
  unfold measure_fold. pose proof (task_index_quiet room1 task s) as H. destruct (task_index room1 task s) as [ti s1].
  etrans; [exact H|apply fold_array_quiet].
Qed.

(** ** One event, taken apart *)

Lemma observe_told room1 room2 ev s :
  e_kind ev ≠ EV_SAMPLE → ∃ ti s0, quiet s s0 ∧ (∀ i, ti = Some i → s_tab s !! e_handle ev = None → (i < length (s_tasks s0))%nat) ∧
  (ti = sl_task (default (new_slot ti) (s_tab s0 !! e_handle ev))) ∧
  stats_observe room1 room2 true ev s =
  on_kind (e_kind ev) ti ev (e_handle ev) (default (new_slot ti) (s_tab s0 !! e_handle ev))
    (set_slot (e_handle ev) (default (new_slot ti) (s_tab s0 !! e_handle ev)) (bump ti (bumped ev) s0)).
Proof.
  intros Hk. unfold stats_observe. rewrite decide_False by done.
  assert (∃ ti s1, quiet s s1 ∧ (s_tab s !! e_handle ev = None → ∀ i, ti = Some i → (i < length (s_tasks s1))%nat) ∧
    ti = sl_task (default (new_slot ti) (s_tab s !! e_handle ev)) ∧
    match s_tab s !! e_handle ev with Some sl => (sl_task sl, s) | None => task_index room1 (e_name ev) s end = (ti, s1)) as (ti & s1 & Hq & Hlt & Hti & ->).
  { destruct (s_tab s !! e_handle ev) as [sl|].
    - by exists (sl_task sl), s.
    - exists (task_index room1 (e_name ev) s).1, (task_index room1 (e_name ev) s).2.
      split_and!; [apply task_index_quiet|intros _ i; apply task_index_lt|done|by destruct (task_index _ _ _)]. }
  set (s0 := if decide _ then _ else _). assert (quiet s1 s0) as Hq0 by (unfold s0; case_decide; [apply fold_array_quiet|done]).
  pose proof (transitivity Hq Hq0) as Hq1. exists ti, s0. rewrite (q_tab _ _ Hq1). split_and!; [done| |done|].
  - intros i Hi Hn. pose proof (q_tasks _ _ Hq0). specialize (Hlt Hn i Hi). lia.
  - by destruct (s_tab s !! e_handle ev).
Qed.

(** ** Steps keep it *)

Lemma quiet_inv s s' L b : quiet s s' → inv (World s L b) → inv (World s' L b).
Proof.
  intros [Q1 Q2 Q3 Q4] [K R T U]. simpl in *. split; simpl.
  - by rewrite Q1.
  - rewrite Q1. intros who c Hc.
    assert (∃ c0, gist c = gist c0 ∧ tallied b who (s_tab s) c0) as (c0 & Hg & [H1 H2 H3]).
    { destruct who as [i|]; [|by injection Hc as <-; exists (s_total s); split; [|apply (R None)]].
      simpl in Hc. destruct (s_tasks s' !! i) as [t'|] eqn:E; [|done]. injection Hc as <-. specialize (Q4 i t' E).
      destruct (s_tasks s !! i) as [t|] eqn:E0; [exists (tk_c t); split; [done|apply (R (Some i)); simpl; by rewrite E0]|].
      exists no_counts. split; [done|].
      assert (∀ w, total (share (Some i) w) (s_tab s) = 0) as Hz.
      { intros w. apply total_zero. intros h sl Hsl. unfold share, covers. case_bool_decide as Hi; [|done].
        specialize (T h sl i Hsl (eq_sym Hi)). apply lookup_ge_None in E0. lia. }
      split; intros; by rewrite Hz. }
    unfold gist in Hg. injection Hg as ? ? ? ? ? ?. split; [congruence..|]. intros Hb. specialize (H3 Hb). congruence.
  - rewrite Q1. intros h sl i Hsl Hi. specialize (T h sl i Hsl Hi). lia.
  - intros Hb. unfold gist in Q3. injection Q3 as ? ? ? ? ? ?. destruct (U Hb). split; congruence.
Qed.

Lemma told_accounted ev l l' : told ev l l' → accounted ev l l'.
Proof.
  destruct 1; eauto using told_queued_ok, told_started_ok, told_finished_ok, told_failed_ok, told_cancelled_ok, told_retried_ok, told_dropped_ok.
Qed.
Lemma told_kind ev l l' : told ev l l' → e_kind ev ≠ EV_SAMPLE.
Proof. destruct 1; try congruence. naive_solver congruence. Qed.

Lemma share_count who ti w (x : option stats_slot) :
  (∀ sl, x = Some sl → sl_task sl = ti) → from_option (share who w) 0 x = if covers who ti then count w x else 0.
Proof. intros Hx. destruct x as [sl|]; simpl; [|by case_match]. unfold share. by rewrite (Hx sl eq_refl). Qed.
Lemma tallied_moved b who ti h x F s s' c dq dt :
  moved h ti x F s s' → (∀ sl, s_tab s !! h = Some sl → sl_task sl = ti) → (∀ sl, x = Some sl → sl_task sl = ti) →
  (let o := s_tab s !! h in adds F (count (is_state ST_PENDING) x - count (is_state ST_PENDING) o)
    (count (is_state ST_RUNNING) x - count (is_state ST_RUNNING) o) (count owed x - count owed o) dq dt) →
  tallied b who (s_tab s) c → tallied b who (s_tab s') ((if covers who ti then F else id) c).
Proof.
  intros [Ht _ _] Ho Hx HF [T1 T2 T3].
  assert (∀ w, total (share who w) (s_tab s') =
    total (share who w) (s_tab s) + (if covers who ti then count w x - count w (s_tab s !! h) else 0)) as Hw.
  { intros w. rewrite Ht, total_partial_alter, (share_count who ti w x Hx), (share_count who ti w _ Ho). case_match; lia. }
  split; [..|intros Hb; specialize (T3 Hb)]; rewrite Hw; destruct (covers who ti); simpl; rewrite ?Z.add_0_r; try done.
  - by apply (a_pending _ _ _ _ _ _ HF).
  - by apply (a_flight _ _ _ _ _ _ HF).
  - by apply (a_waits _ _ _ _ _ _ HF).
Qed.

Lemma told_inv room1 room2 ev l l' s L b :
  inv (World s L b) → L !! e_handle ev = Some l → told ev l l' →
  inv (World (stats_observe room1 room2 true ev s) (<[e_handle ev := l']> L) b).
Proof.
  intros Hi Hl Ht. destruct (observe_told room1 room2 ev s (told_kind _ _ _ Ht)) as (ti & s0 & Hq & Hlt & Hti & ->).
  pose proof (quiet_inv _ _ _ _ Hq Hi) as [K R T U]. simpl in *. set (h := e_handle ev) in *.
  pose proof (K h) as Kh. rewrite Hl in Kh.
  destruct (told_accounted ev l l' Ht ti h (s_tab s0 !! h) s0 Kh eq_refl (eq_sym Hti)) as (x & F & Hm & Kx & Hx & HF).
  set (s' := on_kind _ _ _ _ _ _) in *. assert (∀ sl, s_tab s0 !! h = Some sl → sl_task sl = ti) as Ho.
  { intros sl Hsl. by rewrite Hsl in Hti. }
  split; simpl; rewrite ?(m_tab _ _ _ _ _ _ Hm).
  - intros g. destruct (decide (g = h)) as [->|Hg].
    + by rewrite lookup_insert_eq, lookup_partial_alter_eq.
    + rewrite lookup_insert_ne, lookup_partial_alter_ne by done. apply K.
  - intros who c' Hc'. rewrite (m_rows _ _ _ _ _ _ Hm) in Hc'.
    destruct (row who s0) as [c|] eqn:E; [|done]. injection Hc' as <-. rewrite <-(m_tab _ _ _ _ _ _ Hm).
    by apply (tallied_moved b who ti h x F s0 s' c _ _ Hm Ho Hx HF), R.
  - rewrite (m_tasks _ _ _ _ _ _ Hm). intros g sl i. destruct (decide (g = h)) as [->|Hg].
    + rewrite lookup_partial_alter_eq. intros Hsl Hsi. rewrite (Hx sl Hsl) in Hsi. destruct (s_tab s0 !! h) as [sl0|] eqn:E.
      * apply (T h sl0 i E). by rewrite (Ho sl0 eq_refl).
      * apply (Hlt i Hsi). by rewrite <-(q_tab _ _ Hq).
    + rewrite lookup_partial_alter_ne by done. apply T.
  - intros Hb. destruct (U Hb) as [U1 U2].
    assert (∀ w : life → Z, total w (<[h := l']> L) = total w L + (w l' - w l)) as Hw.
    { intros w. change (<[h := l']> L) with (partial_alter (λ _, Some l') h L). rewrite total_partial_alter, Hl. simpl. lia. }
    rewrite !Hw. pose proof (m_rows _ _ _ _ _ _ Hm None) as Hr. simpl in Hr. injection Hr as ->.
    split; [by apply (a_queued _ _ _ _ _ _ HF)|by apply (a_terminal _ _ _ _ _ _ HF)].
Qed.

Lemma lives_inv s L b h l' :
  inv (World s L b) → match L !! h with Some l => heard l = heard l' ∧ ended l = ended l' ∧ (∀ o, knows l o → knows l' o)
                      | None => l' = Life Submitted true 0 end →
  inv (World s (<[h := l']> L) b).
Proof.
  intros [K R T U] Hl. simpl in *. split; simpl; [|done|done|].
  - intros g. destruct (decide (g = h)) as [->|Hg]; [rewrite lookup_insert_eq|rewrite lookup_insert_ne by done; apply K].
    specialize (K h). destruct (L !! h) as [l|]; [by apply Hl|]. rewrite K, Hl. by left.
  - intros Hb. destruct (U Hb) as [U1 U2].
    change (<[h := l']> L) with (partial_alter (λ _, Some l') h L). rewrite !total_partial_alter, U1, U2.
    destruct (L !! h) as [l|]; [destruct Hl as (H1 & H2 & _)|subst l']; simpl; [rewrite H1, H2|unfold heard, ended; simpl];
      split; f_equal; lia.
Qed.
Lemma moved_on_knows l l' o : moved_on l l' → knows l o → knows l' o.
Proof.
  intros Hm Hk. destruct Hm; (destruct o as [sl|]; [|destruct Hk as [[=]|([=] & _)]]); destruct Hk as [[] _]; simpl in *;
    destruct_and?; (split; [split; simpl|intros ([=] & _)]); try (intuition (lia || congruence)).
Qed.

Lemma reset_inv s L b : inv (World s L b) → inv (World (stats_reset s) L true).
Proof.
  intros [K R T U]. simpl in *. split; simpl; [done| |by intros h sl i Hs Hi; rewrite length_map; apply (T h sl)|done].
  intros who c Hc. assert (∃ c0, row who s = Some c0 ∧ c = reset_row c0) as (c0 & Hc0 & ->).
  { destruct who as [i|]; simpl in *; [|injection Hc as <-; by exists (s_total s)].
    rewrite list_lookup_fmap in Hc. destruct (s_tasks s !! i) as [t|]; [|done]. injection Hc as <-. by exists (tk_c t). }
  destruct (R who c0 Hc0) as [T1 T2 _]. by split.
Qed.
Lemma world_step_inv w w' : step w w' → inv w → inv w'.
Proof.
  intros Hs Hi. destruct Hs as [h s L b Hh|h l l' s L b Hh Hm|r1 r2 ev l l' s L b Hh Ht|r1 r2 r3 ev s L b He|r1 r2 task xs ts s L b|s L b].
  - apply lives_inv; [done|]. by rewrite Hh.
  - apply lives_inv; [done|]. rewrite Hh. split_and!; [by destruct Hm|by destruct Hm|intros o; by apply moved_on_knows].
  - by eapply told_inv.
  - eapply quiet_inv; [|done]. unfold stats_observe. rewrite decide_True by done.
    pose proof (task_index_quiet r1 (e_name ev) s) as Hq. destruct (task_index r1 (e_name ev) s) as [ti s1].
    etrans; [exact Hq|apply fold_array_quiet].
  - eapply quiet_inv; [apply measure_fold_quiet|done].
  - by apply (reset_inv s L b).
Qed.
Lemma world_inv w : reachable w → inv w.
Proof.
  intros Hr. cut (inv (World no_stats ∅ false)); [by induction Hr; eauto using world_step_inv|].
  split; simpl; [done| |done|done]. intros [i|] c; [done|]. by intros [= <-].
Qed.

(** ** What the counters say *)

Definition running (l : life) : bool := match l_phase l with Running _ => true | _ => false end.
(** Submitted, or to be retried, and announced: an item going round GPTPS_ON_FAILURE_REQUEUE
    is not counted between its cycles, which no event announces. *)
Definition queued (l : life) : bool :=
  match l_phase l with Submitted => negb (l_late_q l) | Retrying _ => l_late_r l =? 0 | _ => false end.

Lemma total_agree {A B} (w : A → Z) (w' : B → Z) (m : gmap Z A) (m' : gmap Z B) :
  (∀ k, from_option w 0 (m !! k) = from_option w' 0 (m' !! k)) → total w m = total w' m'.
Proof.
  revert m'. induction m as [|k x m Hk IH] using map_ind; intros m' H.
  - symmetry. apply total_zero. intros k y Hy. specialize (H k). by rewrite Hy in H.
  - rewrite total_insert by done. rewrite (IH (delete k m')).
    + pose proof (total_partial_alter w' m' k None) as Hd. change (partial_alter (λ _, None) k m') with (delete k m') in Hd.
      rewrite Hd. specialize (H k). rewrite lookup_insert_eq in H. simpl in *. lia.
    + intros j. destruct (decide (j = k)) as [->|Hj]; [by rewrite lookup_delete_eq, Hk|].
      rewrite lookup_delete_ne by done. by rewrite <-H, lookup_insert_ne.
Qed.
Lemma knows_state l o : knows l o →
  count (is_state ST_RUNNING) o = Z.b2z (running l) ∧ count (is_state ST_PENDING) o = Z.b2z (queued l).
Proof.
  unfold running, queued. destruct o as [sl|]; simpl; [|by intros [->|(-> & ? & ?)]].
  intros [[] _]. unfold is_state. destruct l as [[] q r]; simpl in *; destruct_and?; destruct_or?; destruct_and?; subst.
  all: match goal with H : sl_state _ = _ |- _ => rewrite H end; simpl; try done.
  - match goal with H : sl_seen_queued _ = true |- _ => rewrite H in * end. by rewrite <-k_seen0.
  - by destruct (Z.eqb_spec a 0); [lia|].
Qed.

(** C29: the gauges are exact at every moment, in whatever order the threads' events
    arrive - a STARTED before its QUEUED, a RETRIED after the cancellation of the attempt
    it announces - and across resets: in_flight counts the handles running, pending those
    that wait and have been announced, and a task type's gauges the slots of that type. *)
Theorem gauges_exact (w : world) :
  reachable w →
  c_in_flight (s_total (w_s w)) = u64 (total (Z.b2z ∘ running) (w_lives w)) ∧
  c_pending (s_total (w_s w)) = u64 (total (Z.b2z ∘ queued) (w_lives w)) ∧
  ∀ i t, s_tasks (w_s w) !! i = Some t →
    c_in_flight (tk_c t) = u64 (total (share (Some i) (is_state ST_RUNNING)) (s_tab (w_s w))) ∧
    c_pending (tk_c t) = u64 (total (share (Some i) (is_state ST_PENDING)) (s_tab (w_s w))).
Proof.
  intros Hr. pose proof (world_inv w Hr) as [K R _ _]. destruct (R None _ eq_refl) as [T1 T2 _].
  assert (∀ h, let o := s_tab (w_s w) !! h in
    from_option (share None (is_state ST_RUNNING)) 0 o = from_option (Z.b2z ∘ running) 0 (w_lives w !! h) ∧
    from_option (share None (is_state ST_PENDING)) 0 o = from_option (Z.b2z ∘ queued) 0 (w_lives w !! h)) as Hk.
  { intros h. specialize (K h). destruct (w_lives w !! h) as [l|]; [exact (knows_state l _ K)|by rewrite K]. }
  split_and!.
  - rewrite T2. f_equal. apply total_agree. intros h. apply Hk.
  - rewrite T1. f_equal. apply total_agree. intros h. apply Hk.
  - intros i t Ht. destruct (R (Some i) (tk_c t)) as [T3 T4 _]; [simpl; by rewrite Ht|done].
Qed.


(** ** A concrete run *)

(** The item starts, fails, and is cancelled while it waits to be retried; its QUEUED and
    the RETRIED arrive last, the RETRIED first. *)
Definition ev (k : event_kind) (st : status) (a ts : Z) : sevent := SEvent k 7 "build" st a ts [].
Definition seen (evs : list sevent) : stats := foldl (λ s e, stats_observe true true true e s) no_stats evs.
Definition raced : list sevent :=
  [ev EV_STARTED GPTPS_OK 1 10; ev EV_FAILED GPTPS_E_TIMEOUT 1 30; ev EV_FAILED GPTPS_E_CANCELLED 2 35;
   ev EV_RETRIED GPTPS_OK 2 31; ev EV_QUEUED GPTPS_OK 1 12].
Lemma ev_step l l' s k st a ts :
  told (ev k st a ts) l l' →
  step (World s {[7 := l]} false) (World (stats_observe true true true (ev k st a ts) s) {[7 := l']} false).
Proof.
  intros Ht. pose proof (step_told true true (ev k st a ts) l l' s {[7 := l]} false) as Hs.
  cbn [e_handle ev] in Hs. rewrite insert_singleton_eq in Hs. apply Hs; [by rewrite lookup_singleton_eq|done].
Qed.
Lemma started_reachable : reachable (World (seen (take 1 raced)) {[7 := Life (Running 1) true 0]} false).
Proof.
  eapply rtc_l; [apply (step_submit 7); done|]. rewrite insert_empty. apply rtc_once, ev_step. by apply (told_started _ Submitted).
Qed.
Lemma raced_reachable : reachable (World (seen raced) {[7 := Life Over false 0]} false).
Proof.
  unfold reachable. transitivity (World (seen (take 1 raced)) {[7 := Life (Running 1) true 0]} false); [exact started_reachable|].
  eapply rtc_l; [apply (ev_step _ (Life (Between 1) true 0) _ EV_FAILED GPTPS_E_TIMEOUT 1 30); by apply told_failed|].
  eapply rtc_l; [apply (step_moved 7 (Life (Between 1) true 0) (Life (Retrying 2) true 2)); [done|apply (on_retry 1)]|].
  rewrite insert_singleton_eq.
  eapply rtc_l; [apply (ev_step _ (Life Over true 2) _ EV_FAILED GPTPS_E_CANCELLED 2 35); by apply told_cancelled|].
  eapply rtc_l; [apply (ev_step _ (Life Over true 0) _ EV_RETRIED GPTPS_OK 2 31); by apply told_retried|].
  apply rtc_once, (ev_step _ _ _ EV_QUEUED GPTPS_OK 1 12). by apply told_queued.
Qed.
Lemma gauges_exact_witness :
  c_in_flight (s_total (seen (take 1 raced))) = 1 ∧ c_pending (s_total (seen (take 1 raced))) = 0 ∧
  c_in_flight (s_total (seen raced)) = 0 ∧ c_pending (s_total (seen raced)) = 0.
Proof.
  destruct (gauges_exact _ started_reachable) as (H1 & H2 & _). destruct (gauges_exact _ raced_reachable) as (H3 & H4 & _).
  cbn [w_s w_lives] in *. rewrite H1, H2, H3, H4. split_and!; by vm_compute.
Defined.

End Statistics.
