(* ===== verification/Await.v ===== *)
(** * Waiting on a handle: [src/addons/gptps_await.c]

    One observer, one lock, and two collections under it: the threads blocked in
    [gptps_await_wait], and a ring of the completions nobody was waiting for.  Every
    section under the lock is a function here; blocking is the gap between [wait_begin]
    and [wait_end].  A result is its bytes, [[]] for none; [room] says whether there was
    memory for a copy. *)

From S2P Require Import Prelude Engine.

Module Await.
Import Engine.

(** ** State *)

Record completion := Completion { co_h : Z; co_status : status; co_result : list Z }.
(** [wt_id]: the blocked thread, on whose stack the waiter lives. *)
Record waiter := Waiter { wt_id : nat; wt_h : Z; wt_done : bool; wt_status : status; wt_result : list Z }.
#[export] Instance eta_waiter : Eta waiter := λ w, Waiter (wt_id w) (wt_h w) (wt_done w) (wt_status w) (wt_result w).
Record await := MkAwait {
  aw_waiters : list waiter; aw_ring : list completion; aw_cap : nat; aw_head : nat; aw_n : nat; aw_seen : Z; aw_nblocked : Z }.
#[export] Instance eta_await : Eta await := λ a,
  MkAwait (aw_waiters a) (aw_ring a) (aw_cap a) (aw_head a) (aw_n a) (aw_seen a) (aw_nblocked a).
Definition AWAIT_DEFAULT_CAP : nat := 256.
(** [gptps_await_install_ex]; [calloc] zeroes the ring. *)
Definition no_completion : completion := Completion 0 GPTPS_OK [].
Definition await_install_ex (cap : nat) : await :=
  let cap := if (cap =? 0)%nat then AWAIT_DEFAULT_CAP else cap in MkAwait [] (replicate cap no_completion) cap 0 0 0 0.

(** What the observer reads of a [gptps_event]. *)
Record aevent := AEvent { ae_kind : event_kind; ae_handle : Z; ae_status : status; ae_result : list Z }.
Definition is_terminal (ev : aevent) : bool :=
  match ae_kind ev with
  | EV_FINISHED | EV_DROPPED | EV_DEAD_LETTERED => true
  | EV_FAILED => bool_decide (ae_status ev = GPTPS_E_CANCELLED)
  | _ => false
  end.
Definition dup_mem (room : bool) (s : list Z) : list Z := if room then s else [].

(** ** The ring *)

Definition index (a : await) (i : nat) : nat := ((aw_head a + i) mod aw_cap a)%nat.
Definition slot_at (a : await) (i : nat) : completion := default no_completion (aw_ring a !! index a i).
Definition ring_push (room : bool) (h : Z) (st : status) (res : list Z) (a : await) : await :=
  if (aw_cap a =? 0)%nat then a
  else
    let a := if (aw_n a =? aw_cap a)%nat then a <| aw_head := index a 1 |> <| aw_n ::= pred |> else a in
    a <| aw_ring ::= <[index a (aw_n a) := Completion h st (dup_mem room res)]> |> <| aw_n ::= S |>.
(** The tail, [k] slots of it, shifted down over slot [i]. *)
Fixpoint shift_down (k i : nat) (a : await) : await :=
  match k with
  | O => a
  | S k => shift_down k (S i) (a <| aw_ring ::= <[index a i := slot_at a (S i)]> |>)
  end.
Fixpoint take_loop (k i : nat) (h : Z) (a : await) : option (completion * await) :=
  match k with
  | O => None
  | S k =>
      let c := slot_at a i in
      if co_h c =? h then Some (c, shift_down k i a <| aw_n ::= pred |>) else take_loop k (S i) h a
  end.
Definition ring_take (h : Z) (a : await) : option (completion * await) := take_loop (aw_n a) 0 h a.

(** ** The observer and the calls *)

(** The first waiter on the handle still to be told, told. *)
Fixpoint deliver (c : completion) (ws : list waiter) : option (list waiter) :=
  match ws with
  | [] => None
  | w :: ws =>
      if negb (wt_h w =? co_h c) || wt_done w then cons w <$> deliver c ws
      else Some (w <| wt_result := co_result c |> <| wt_status := co_status c |> <| wt_done := true |> :: ws)
  end.
Definition await_obs (room : bool) (ev : aevent) (a : await) : await :=
  if is_terminal ev then
    let a := a <| aw_seen ::= λ n, u64 (n + 1) |> in
    match deliver (Completion (ae_handle ev) (ae_status ev) (dup_mem room (ae_result ev))) (aw_waiters a) with
    | Some ws => a <| aw_waiters := ws |>
    | None => ring_push room (ae_handle ev) (ae_status ev) (ae_result ev) a
    end
  else a.

(** What [gptps_await_wait] returns: its status and, with GPTPS_OK, the task's and its result. *)
Definition answer : Type := status * option (status * list Z).
(** [gptps_await_wait] up to where it blocks, thread [id]'s. *)
Definition wait_begin (id : nat) (h timeout_ms : Z) (a : await) : option answer * await :=
  if h =? 0 then (Some (GPTPS_E_INVAL, None), a)
  else match ring_take h a with
  | Some (c, a) => (Some (GPTPS_OK, Some (co_status c, co_result c)), a)
  | None =>
      if timeout_ms =? 0 then (Some (GPTPS_E_TIMEOUT, None), a)
      else (None, a <| aw_waiters ::= cons (Waiter id h false GPTPS_OK []) |> <| aw_nblocked ::= λ n, u32 (n + 1) |>)
  end.
(** ... and from there, once the waiter is told or the deadline has passed. *)
Definition wait_end (w : waiter) (a : await) : answer * await :=
  (if wt_done w then (GPTPS_OK, Some (wt_status w, wt_result w)) else (GPTPS_E_TIMEOUT, None),
   a <| aw_nblocked ::= λ n, u32 (n - 1) |> <| aw_waiters ::= filter (λ x, wt_id x ≠ wt_id w) |>).
Definition await_count (a : await) : Z := aw_seen a.
(** The loop of [gptps_await_quiesce] stops, with its answer. *)
Definition quiesce_end (n : Z) (expired : bool) (a : await) : option status :=
  if n <=? aw_seen a then Some GPTPS_OK else if expired then Some GPTPS_E_TIMEOUT else None.

(** ** The ring is a bounded queue *)

(** The completions kept, oldest first. *)
Definition kept (a : await) : list completion := map (slot_at a) (seq 0 (aw_n a)).
Record wf (a : await) : Prop := {
  wf_cap : (0 < aw_cap a)%nat;
  wf_ring : length (aw_ring a) = aw_cap a;
  wf_n : (aw_n a ≤ aw_cap a)%nat }.
Definition push (cap : nat) (c : completion) (l : list completion) : list completion :=
  (if (length l =? cap)%nat then tail l else l) ++ [c].
Fixpoint claim (h : Z) (l : list completion) : option (completion * list completion) :=
  match l with
  | [] => None
  | c :: l => if co_h c =? h then Some (c, l) else (λ p, (p.1, c :: p.2)) <$> claim h l
  end.

Lemma index_lt a i : wf a → (index a i < length (aw_ring a))%nat.
Proof. intros [H1 -> _]. apply Nat.mod_upper_bound. lia. Qed.
Lemma index_inj a i j : wf a → (i < aw_cap a)%nat → (j < aw_cap a)%nat → index a i = index a j → i = j.
Proof.
  intros [H1 _ _] Hi Hj. unfold index. intros E.
  pose proof (Nat.div_mod_eq (aw_head a + i) (aw_cap a)) as Ei. pose proof (Nat.div_mod_eq (aw_head a + j) (aw_cap a)) as Ej.
  rewrite E in Ei. revert Ei Ej. generalize ((aw_head a + i) / aw_cap a)%nat, ((aw_head a + j) / aw_cap a)%nat. intros p q Ei Ej.
  assert (p = q) as ->; [|lia]. destruct (Nat.lt_trichotomy p q) as [?|[?|?]]; [|done|]; nia.
Qed.
Lemma length_kept a : length (kept a) = aw_n a.
Proof. unfold kept. by rewrite length_map, length_seq. Qed.
Lemma kept_lookup a i : kept a !! i = if decide (i < aw_n a)%nat then Some (slot_at a i) else None.
Proof.
  unfold kept. rewrite list_lookup_fmap. case_decide.
  - rewrite lookup_seq_lt by done. done.
  - by rewrite lookup_seq_ge by lia.
Qed.
Lemma slot_insert a i j c :
  wf a → (i < aw_cap a)%nat → (j < aw_cap a)%nat →
  slot_at (a <| aw_ring ::= <[index a i := c]> |>) j = if decide (j = i) then c else slot_at a j.
Proof.
  intros Hw Hi Hj. unfold slot_at. change (index (a <| aw_ring ::= <[index a i := c]> |>) j) with (index a j). cbn [aw_ring update].
  case_decide as E.
  - subst j. by rewrite list_lookup_insert_eq by by apply index_lt.
  - rewrite list_lookup_insert_ne; [done|]. intros E'. apply E. symmetry. by apply (index_inj a).
Qed.

(** One slot on: the ring read from its next head. *)
Lemma slot_next a i : wf a → slot_at (a <| aw_head := index a 1 |> <| aw_n ::= pred |>) i = slot_at a (S i).
Proof.
  intros [H1 _ _]. unfold slot_at, index. cbn [aw_ring aw_head aw_cap update]. f_equal. f_equal.
  rewrite Nat.Div0.add_mod_idemp_l. f_equal. lia.
Qed.
Lemma wf_next a : wf a → (0 < aw_n a)%nat → wf (a <| aw_head := index a 1 |> <| aw_n ::= pred |>).
Proof. intros [H1 H2 H3] Hn. split; simpl; [done|done|lia]. Qed.

Lemma kept_add a c : wf a → (aw_n a < aw_cap a)%nat →
  let a' := a <| aw_ring ::= <[index a (aw_n a) := c]> |> <| aw_n ::= S |> in kept a' = kept a ++ [c] ∧ wf a'.
Proof.
  intros Hw Hn. destruct (Hw) as [H1 H2 H3]. split; [|split; simpl; [done|by rewrite length_insert|lia]].
  apply list_eq. intros i. rewrite kept_lookup. cbn [aw_n update].
  change (slot_at _ i) with (slot_at (a <| aw_ring ::= <[index a (aw_n a) := c]> |>) i).
  destruct (Nat.lt_trichotomy i (aw_n a)) as [Hi|[->|Hi]].
  - rewrite decide_True by lia. rewrite lookup_app_l by by rewrite length_kept. rewrite kept_lookup, decide_True by done.
    rewrite slot_insert, decide_False by (done || lia). done.
  - rewrite decide_True by lia. rewrite lookup_app_r by by rewrite length_kept. rewrite length_kept, Nat.sub_diag.
    rewrite slot_insert by (done || lia). by rewrite decide_True.
  - rewrite decide_False by lia. rewrite lookup_ge_None_2; [done|]. rewrite length_app, length_kept. simpl. lia.
Qed.
Lemma ring_push_kept room h st res a : wf a →
  kept (ring_push room h st res a) = push (aw_cap a) (Completion h st (dup_mem room res)) (kept a) ∧
  wf (ring_push room h st res a) ∧ aw_cap (ring_push room h st res a) = aw_cap a.
Proof.
  intros Hw. destruct (Hw) as [H1 H2 H3]. unfold ring_push, push. rewrite length_kept.
  destruct (Nat.eqb_spec (aw_cap a) 0) as [|_]; [lia|]. destruct (Nat.eqb_spec (aw_n a) (aw_cap a)) as [Hn|Hn].
  - assert (kept (a <| aw_head := index a 1 |> <| aw_n ::= pred |>) = tail (kept a)) as Ht.
    { unfold kept. cbn [aw_n update]. destruct (aw_n a) as [|n] eqn:E; [done|]. simpl.
      rewrite <-seq_shift, map_map. apply map_ext. intros i. by apply slot_next. }
    rewrite <-Ht. split_and!; try done.
    all: apply (kept_add _ _ (wf_next a Hw ltac:(lia))); simpl; lia.
  - split_and!; try done. all: apply (kept_add a _ Hw); lia.
Qed.

Lemma shift_down_slots k i a : wf a → (i + k < aw_cap a)%nat →
  let a' := shift_down k i a in
  (∀ j, (j < aw_cap a)%nat → slot_at a' j = if decide (i ≤ j < i + k)%nat then slot_at a (S j) else slot_at a j) ∧
  wf a' ∧ aw_n a' = aw_n a ∧ aw_cap a' = aw_cap a.
Proof.
  revert i a. induction k as [|k IH]; intros i a Hw Hk; cbn [shift_down].
  - split_and!; try done. intros j Hj. by rewrite decide_False by lia.
  - set (b := a <| aw_ring ::= <[index a i := slot_at a (S i)]> |>). destruct (Hw) as [H1 H2 H3].
    assert (wf b) as Hb by (split; simpl; [done|by rewrite length_insert|done]).
    destruct (IH (S i) b Hb) as (S1 & S2 & S3 & S4); [simpl; lia|]. split_and!; [|done..].
    intros j Hj. rewrite (S1 j Hj). unfold b. rewrite (slot_insert a i j) by (done || lia).
    repeat case_decide; try lia; try done; [|by subst].
    rewrite slot_insert by (done || lia). by rewrite decide_False by lia.
Qed.

Lemma shift_down_waiters k i a : aw_waiters (shift_down k i a) = aw_waiters a.
Proof. revert i a. induction k as [|k IH]; intros i a; [done|]. simpl. by rewrite IH. Qed.

(** What taking a completion of [h] does, on the queue and on the ring. *)
Definition takes_as (h : Z) (a : await) (i : nat) (r : option (completion * await)) : Prop :=
  match claim h (drop i (kept a)) with
  | Some (c, l) => ∃ a', r = Some (c, a') ∧ kept a' = take i (kept a) ++ l ∧ wf a' ∧ aw_cap a' = aw_cap a ∧ aw_waiters a' = aw_waiters a
  | None => r = None
  end.
Lemma take_loop_kept k i h a : wf a → (i + k = aw_n a)%nat → takes_as h a i (take_loop k i h a).
Proof.
  intros Hw. revert i. induction k as [|k IH]; intros i Hk; unfold takes_as.
  - by rewrite drop_ge by (rewrite length_kept; lia).
  - rewrite (drop_S (kept a) (slot_at a i) i) by by rewrite kept_lookup, decide_True by lia. cbn [claim take_loop].
    destruct (Z.eqb_spec (co_h (slot_at a i)) h) as [E|E].
    + destruct (Hw) as [H1 H2 H3]. destruct (shift_down_slots k i a Hw) as (S1 & S2 & S3 & S4); [lia|].
      eexists. split; [done|]. split_and!; [|destruct S2; split; simpl; [done..|lia]|done|by apply shift_down_waiters].
      rewrite <-delete_take_drop. apply list_eq. intros j. rewrite kept_lookup.
      change (slot_at (shift_down k i a <| aw_n ::= pred |>) j) with (slot_at (shift_down k i a) j). cbn [aw_n update]. rewrite S3.
      destruct (decide (j < i)%nat) as [Hj|Hj].
      * rewrite list_lookup_delete_lt by done. rewrite kept_lookup, !decide_True by lia. rewrite S1 by lia. by rewrite decide_False by lia.
      * rewrite list_lookup_delete_ge by lia. rewrite kept_lookup. repeat case_decide; try lia; [|done].
        rewrite S1 by lia. by rewrite decide_True by lia.
    + specialize (IH (S i)). unfold takes_as in IH. destruct (claim h (drop (S i) (kept a))) as [[c l]|]; simpl; [|apply IH; lia].
      destruct IH as (a' & Ha & Hl & Hr); [lia|]. exists a'. split; [done|]. split; [|done]. rewrite Hl.
      rewrite (take_S_r (kept a) i (slot_at a i)) by by rewrite kept_lookup, decide_True by lia. by rewrite <-app_assoc.
Qed.
Lemma ring_take_kept h a : wf a → takes_as h a 0 (ring_take h a).
Proof. intros Hw. by apply take_loop_kept. Qed.

(** ** Runs *)

(** What threads do: an event, and a wait entered or left. *)
Inductive act := Obs (room : bool) (ev : aevent) | Begin (id : nat) (h timeout_ms : Z) | End (id : nat).
Definition do_act (a : await) (x : act) : await :=
  match x with
  | Obs room ev => await_obs room ev a
  | Begin id h t => (wait_begin id h t a).2
  | End id => match list_find (λ w, wt_id w = id) (aw_waiters a) with Some (_, w) => (wait_end w a).2 | None => a end
  end.
Definition run : list act → await → await := flip (foldl do_act).
(** The completions a run can add. *)
Definition finishes (x : act) : nat := match x with Obs _ ev => Nat.b2n (is_terminal ev) | _ => 0 end.

Lemma deliver_none c ws : deliver c ws = None ↔ ∀ w, w ∈ ws → wt_h w = co_h c → wt_done w = true.
Proof.
  induction ws as [|w ws IH]; simpl; [by split; [intros _ w ?%elem_of_nil|]|].
  destruct (Z.eqb_spec (wt_h w) (co_h c)) as [E|E]; destruct (wt_done w) eqn:Ed; simpl.
  2: split; [done|]; intros H; specialize (H w (list_elem_of_here _ _) E); congruence.
  all: rewrite fmap_None, IH; split; [intros H w' [->|Hw']%elem_of_cons; [done|by apply H]|intros H w' Hw'; apply H; by right].
Qed.

(** The first of [h]'s completions is [c], and at most [k] have been added after it. *)
Definition waits_in (h : Z) (c : completion) (k : nat) (l : list completion) : Prop :=
  ∃ l1 l2, l = l1 ++ c :: l2 ∧ (length l2 ≤ k)%nat ∧ co_h c = h ∧ ∀ d, d ∈ l1 → co_h d ≠ h.
Lemma waits_claim h c k l : waits_in h c k l → ∃ l', claim h l = Some (c, l').
Proof.
  intros (l1 & l2 & -> & _ & Hc & Hl). induction l1 as [|d l1 IH]; simpl.
  - exists l2. by rewrite (proj2 (Z.eqb_eq _ _) Hc).
  - destruct (Z.eqb_spec (co_h d) h) as [E|_]; [by destruct (Hl d (list_elem_of_here _ _))|].
    destruct IH as [l' ->]; [intros e He; apply Hl; by right|]. by eexists.
Qed.
Lemma waits_le h c k k' l : (k ≤ k')%nat → waits_in h c k l → waits_in h c k' l.
Proof. intros Hk (l1 & l2 & -> & Hl & H). exists l1, l2. split_and!; [done|lia|apply H..]. Qed.
Lemma waits_push h c k cap d l : waits_in h c k l → (S k < cap)%nat → waits_in h c (S k) (push cap d l).
Proof.
  intros (l1 & l2 & -> & Hk & Hc & Hl) Hcap. unfold push. case_match eqn:E.
  - apply Nat.eqb_eq in E. rewrite length_app in E. simpl in E. destruct l1 as [|e l1]; [simpl in E; lia|].
    exists l1, (l2 ++ [d]). simpl. rewrite <-app_assoc. split_and!; [done|rewrite length_app; simpl; lia|done|].
    intros x Hx. apply Hl. by right.
  - exists l1, (l2 ++ [d]). rewrite <-app_assoc. split_and!; [done|rewrite length_app; simpl; lia|done|done].
Qed.
Lemma waits_other h h' c d k l l' : h' ≠ h → waits_in h c k l → claim h' l = Some (d, l') → waits_in h c k l'.
Proof.
  intros Hne (l1 & l2 & -> & Hk & Hc & Hl). revert l' Hl. induction l1 as [|e l1 IH]; intros l' Hl; simpl.
  - destruct (Z.eqb_spec (co_h c) h') as [E|_]; [congruence|].
    destruct (claim h' l2) as [[d' l2']|] eqn:Ec; simpl; [|done]. intros [= -> <-]. exists [], l2'. split_and!; try done.
    assert (length l2' ≤ length l2)%nat; [|lia]. clear -Ec. revert d l2' Ec.
    induction l2 as [|x l2 IH]; simpl; intros d l2' Ec; [done|]. destruct (co_h x =? h'); [injection Ec as -> ->; lia|].
    destruct (claim h' l2) as [[d' l3]|]; [|done]. injection Ec as <- <-. simpl. specialize (IH d' l3 eq_refl). lia.
  - destruct (Z.eqb_spec (co_h e) h').
    + intros [= -> <-]. exists l1, l2. split_and!; try done. intros x Hx. apply Hl. by right.
    + destruct (claim h' (l1 ++ c :: l2)) as [[d' l3]|]; simpl; [|done]. intros [= -> <-].
      destruct (IH l3) as (m1 & m2 & -> & H2 & H3 & H4); [intros x Hx; apply Hl; by right|done|].
      exists (e :: m1), m2. split_and!; try done. intros x [->|Hx]%elem_of_cons; [apply Hl; by left|by apply H4].
Qed.

(** Sections keep the ring well formed. *)
Lemma obs_kept room ev a : wf a →
  let a' := await_obs room ev a in
  wf a' ∧ aw_cap a' = aw_cap a ∧
  (kept a' = kept a ∨ is_terminal ev = true ∧
   kept a' = push (aw_cap a) (Completion (ae_handle ev) (ae_status ev) (dup_mem room (ae_result ev))) (kept a)).
Proof.
  intros Hw. simpl. unfold await_obs. destruct (is_terminal ev); [|by auto]. destruct (deliver _ _) as [ws|].
  - split_and!; [by destruct Hw|done|by left].
  - set (b := a <| aw_seen ::= _ |>). destruct (ring_push_kept room (ae_handle ev) (ae_status ev) (ae_result ev) b) as (H1 & H2 & H3); [by destruct Hw|].
    split_and!; [done|done|right; by split].
Qed.
Lemma begin_kept id h t a : wf a →
  let a' := (wait_begin id h t a).2 in
  wf a' ∧ aw_cap a' = aw_cap a ∧ (kept a' = kept a ∨ ∃ c l, claim h (kept a) = Some (c, l) ∧ h ≠ 0 ∧ kept a' = l).
Proof.
  intros Hw. simpl. unfold wait_begin. destruct (Z.eqb_spec h 0) as [|Hh]; [by auto|].
  pose proof (ring_take_kept h a Hw) as Ht. unfold takes_as in Ht. rewrite drop_0 in Ht. destruct (claim h (kept a)) as [[c l]|].
  - destruct Ht as (a' & -> & Hk & Hw' & Hc & _). split_and!; [done|done|]. right. by exists c, l.
  - rewrite Ht. destruct (t =? 0); simpl; (split_and!; [by destruct Hw|done|by left]).
Qed.
Lemma act_waits h c k a x : wf a → waits_in h c k (kept a) →
  match x with Begin _ h' _ => h' ≠ h | _ => True end → (k + finishes x < aw_cap a)%nat →
  wf (do_act a x) ∧ aw_cap (do_act a x) = aw_cap a ∧ waits_in h c (k + finishes x) (kept (do_act a x)).
Proof.
  intros Hw Hc Hx Hk. destruct x as [room ev|id h' t|id]; cbn [do_act finishes] in *.
  - destruct (obs_kept room ev a Hw) as (H1 & H2 & H3). split_and!; [done..|].
    destruct H3 as [->|[He ->]]; [by eapply waits_le; [|done]; lia|]. rewrite He in *. simpl in *. rewrite Nat.add_1_r in *.
    by apply waits_push.
  - rewrite Nat.add_0_r. destruct (begin_kept id h' t a Hw) as (H1 & H2 & [->|(d & l & Hd & _ & ->)]); [done|].
    split_and!; [done..|]. by eapply waits_other.
  - rewrite Nat.add_0_r. destruct (list_find _ _) as [[? ?]|]; [|done]. by destruct Hw.
Qed.
Lemma run_waits h c acts k a : wf a → waits_in h c k (kept a) →
  Forall (λ x, match x with Begin _ h' _ => h' ≠ h | _ => True end) acts → (k + sum_list_with finishes acts < aw_cap a)%nat →
  wf (run acts a) ∧ aw_cap (run acts a) = aw_cap a ∧ waits_in h c (k + sum_list_with finishes acts) (kept (run acts a)).
Proof.
  revert k a. induction acts as [|x acts IH]; intros k a Hw Hc Hall Hk; simpl in *; [by rewrite Nat.add_0_r|].
  inversion Hall as [|? ? Hx Hall']; subst. destruct (act_waits h c k a x Hw Hc Hx) as (H1 & H2 & H3); [lia|].
  destruct (IH _ _ H1 H3 Hall') as (H4 & H5 & H6); [lia|]. rewrite Nat.add_assoc. split_and!; [done|congruence|done].
Qed.

(** C31: a task may end before the caller that submitted it starts to wait - before it
    even has the handle.  The completion is then kept, through whatever other events and
    waits come between, as long as fewer than the ring's capacity of them end handles,
    and the wait returns at once, with the task's outcome and result. *)
Theorem late_wait_is_answered (a : await) (room : bool) (ev : aevent) (acts : list act) (id : nat) (t : Z) :
  wf a → is_terminal ev = true → ae_handle ev ≠ 0 →
  (∀ w, w ∈ aw_waiters a → wt_h w ≠ ae_handle ev) → (∀ c, c ∈ kept a → co_h c ≠ ae_handle ev) →
  Forall (λ x, match x with Begin _ h _ => h ≠ ae_handle ev | _ => True end) acts →
  (sum_list_with finishes acts < aw_cap a)%nat →
  (wait_begin id (ae_handle ev) t (run acts (await_obs room ev a))).1 =
  Some (GPTPS_OK, Some (ae_status ev, dup_mem room (ae_result ev))).
Proof.
  intros Hw Ht H0 Hnw Hnk Hall Hs. set (c := Completion (ae_handle ev) (ae_status ev) (dup_mem room (ae_result ev))).
  assert (wf (await_obs room ev a) ∧ aw_cap (await_obs room ev a) = aw_cap a ∧ waits_in (ae_handle ev) c 0 (kept (await_obs room ev a))) as (H1 & H2 & H3).
  { destruct (obs_kept room ev a Hw) as (H1 & H2 & _). split_and!; [done..|]. unfold await_obs. rewrite Ht.
    rewrite (proj2 (deliver_none _ _)) by (intros w Hin E; by destruct (Hnw w Hin)).
    set (b := a <| aw_seen ::= _ |>). destruct (ring_push_kept room (ae_handle ev) (ae_status ev) (ae_result ev) b) as (-> & _ & _); [by destruct Hw|].
    unfold push. eexists _, []. split; [done|]. split_and!; [done..|]. intros d Hd. apply Hnk.
    case_match; [|done]. change (kept b) with (kept a) in Hd. destruct (kept a); [done|by right]. }
  destruct (run_waits (ae_handle ev) c acts 0 _ H1 H3 Hall) as (H4 & _ & H6); [rewrite H2; lia|].
  apply waits_claim in H6 as [l' Hl']. unfold wait_begin. rewrite (proj2 (Z.eqb_neq _ _) H0).
  pose proof (ring_take_kept (ae_handle ev) _ H4) as Hk. unfold takes_as in Hk. rewrite drop_0, Hl' in Hk.
  by destruct Hk as (a' & -> & _).
Qed.

(** *** A wait entered first *)

Definition told_of (c : completion) (w : waiter) : waiter :=
  w <| wt_result := co_result c |> <| wt_status := co_status c |> <| wt_done := true |>.
Lemma deliver_some c ws ws' : deliver c ws = Some ws' →
  ∃ l1 w l2, ws = l1 ++ w :: l2 ∧ ws' = l1 ++ told_of c w :: l2 ∧ wt_h w = co_h c ∧ wt_done w = false.
Proof.
  revert ws'. induction ws as [|w ws IH]; intros ws'; simpl; [done|].
  destruct (Z.eqb_spec (wt_h w) (co_h c)) as [E|E]; destruct (wt_done w) eqn:Ed; simpl.
  2: intros [= <-]; by exists [], w, ws.
  all: destruct (deliver c ws) as [l|]; simpl; [|done]; intros [= <-];
    destruct (IH l eq_refl) as (l1 & x & l2 & -> & -> & H1 & H2); by exists (w :: l1), x, l2.
Qed.

Definition mine (id : nat) (ws : list waiter) : list waiter := filter (λ w, wt_id w = id) ws.
(** Thread [id] waits for [h], alone; it has been told. *)
Definition listening (id : nat) (h : Z) (ws : list waiter) : Prop :=
  mine id ws = [Waiter id h false GPTPS_OK []] ∧ ∀ w, w ∈ ws → wt_h w = h → wt_done w = false → wt_id w = id.
Definition answered (id : nat) (h : Z) (st : status) (res : list Z) (ws : list waiter) : Prop :=
  mine id ws = [Waiter id h true st res].
Definition stays (id : nat) (x : act) : Prop :=
  match x with Obs _ _ => True | Begin id' _ _ => id' ≠ id | End id' => id' ≠ id end.

Lemma of_in id ws x w : mine id ws = [x] → w ∈ ws → wt_id w = id → w = x.
Proof.
  intros Hf Hw Hi. assert (w ∈ mine id ws) as Hin by by apply list_elem_of_filter. unfold mine in *. rewrite Hf in Hin. by apply list_elem_of_singleton in Hin.
Qed.
Lemma mine_none id ws : (∀ w, w ∈ ws → wt_id w ≠ id) → mine id ws = [].
Proof.
  intros Hn. destruct (mine id ws) as [|w l] eqn:E; [done|]. assert (w ∈ mine id ws) as Hw by (rewrite E; by left).
  apply list_elem_of_filter in Hw as [Hi Hw]. by destruct (Hn w Hw).
Qed.
(** Telling another thread's waiter. *)
Lemma of_told id l1 w l2 c x :
  mine id (l1 ++ w :: l2) = [x] → wt_id w ≠ id → mine id (l1 ++ told_of c w :: l2) = [x].
Proof. unfold mine. intros <- Hn. by rewrite !filter_app, !filter_cons, !decide_False by done. Qed.
Lemma ring_push_waiters room h st res a : aw_waiters (ring_push room h st res a) = aw_waiters a.
Proof. unfold ring_push. repeat case_match; done. Qed.
Lemma begin_waiters id h t a : wf a →
  aw_waiters (wait_begin id h t a).2 = aw_waiters a ∨
  aw_waiters (wait_begin id h t a).2 = Waiter id h false GPTPS_OK [] :: aw_waiters a.
Proof.
  intros Hw. unfold wait_begin. destruct (h =? 0); [by left|].
  pose proof (ring_take_kept h a Hw) as Ht. unfold takes_as in Ht. destruct (claim _ _) as [[c l]|].
  - left. destruct Ht as (a' & -> & _ & _ & _ & E). done.
  - rewrite Ht. destruct (t =? 0); [by left|by right].
Qed.
Lemma end_waiters id id' a x : id' ≠ id → mine id (aw_waiters a) = [x] →
  mine id (aw_waiters (do_act a (End id'))) = [x] ∧ (∀ w, w ∈ aw_waiters (do_act a (End id')) → w ∈ aw_waiters a).
Proof.
  intros Hn Hx. cbn [do_act]. destruct (list_find _ _) as [[i w]|] eqn:E; [|done].
  apply list_find_Some in E as (_ & E & _). simpl. split; [|by intros w' [_ ?]%list_elem_of_filter].
  unfold mine in *. rewrite list_filter_filter. rewrite <-Hx. apply list_filter_iff. intros w'. rewrite E. naive_solver.
Qed.

Lemma act_wf a x : wf a → wf (do_act a x).
Proof.
  intros Hw. destruct x as [room ev|id h t|id]; cbn [do_act]; [by apply obs_kept|by apply begin_kept|].
  destruct (list_find _ _) as [[? ?]|]; by destruct Hw.
Qed.
Lemma obs_waiters room ev a :
  aw_waiters (await_obs room ev a) = aw_waiters a ∨
  is_terminal ev = true ∧ ∃ l1 w l2, aw_waiters a = l1 ++ w :: l2 ∧
    aw_waiters (await_obs room ev a) = l1 ++ told_of (Completion (ae_handle ev) (ae_status ev) (dup_mem room (ae_result ev))) w :: l2 ∧
    wt_h w = ae_handle ev ∧ wt_done w = false.
Proof.
  unfold await_obs. destruct (is_terminal ev); [|by left].
  destruct (deliver _ _) as [ws|] eqn:E; [right; split; [done|]|left; by rewrite ring_push_waiters].
  apply deliver_some in E as (l1 & w & l2 & H1 & -> & H3 & H4). by exists l1, w, l2.
Qed.
(** Whatever the others do, a blocked thread's waiter changes by its own handle's events only. *)
Lemma mine_act id a x w : wf a → mine id (aw_waiters a) = [w] → stays id x →
  match x with Obs _ ev => is_terminal ev = true → wt_h w = ae_handle ev → wt_done w = true | _ => True end →
  mine id (aw_waiters (do_act a x)) = [w].
Proof.
  intros Hw Hm Hs Hx. destruct x as [room ev|id' h t|id']; cbn [do_act stays] in *; [| |by apply (end_waiters id id' a)].
  - destruct (obs_waiters room ev a) as [->|(Ht & l1 & w' & l2 & E & -> & Hh & Hd)]; [done|].
    rewrite E in Hm. apply of_told; [done|]. intros Hi.
    assert (w' = w) as -> by (apply (of_in id _ w w' Hm); [apply elem_of_app; right; by left|done]). by rewrite Hx in Hd.
  - destruct (begin_waiters id' h t a Hw) as [->| ->]; [done|]. unfold mine in *. by rewrite filter_cons, decide_False by done.
Qed.
Definition apart (h : Z) (x : act) : Prop :=
  match x with Obs _ ev => is_terminal ev = true → ae_handle ev ≠ h | Begin _ h' _ => h' ≠ h | End _ => True end.
Lemma listening_run id h acts a : wf a → listening id h (aw_waiters a) → Forall (λ x, stays id x ∧ apart h x) acts →
  wf (run acts a) ∧ listening id h (aw_waiters (run acts a)).
Proof.
  revert a. induction acts as [|x acts IH]; intros a Hw [Hl1 Hl2] Hall; [done|]. inversion Hall as [|? ? [Hs Hx] Hall']; subst.
  apply (IH (do_act a x)); [by apply act_wf| |done]. split.
  - apply mine_act; try done. destruct x; try done. simpl in *. intros Ht ->. by destruct (Hx Ht).
  - destruct x as [room ev|id' h' t|id']; cbn [do_act stays apart] in *; [| |intros w Hin; by apply Hl2, (end_waiters id id' a _ Hs Hl1)].
    + destruct (obs_waiters room ev a) as [->|(Ht & l1 & w' & l2 & E & -> & Hh & Hd)]; [done|]. rewrite E in Hl2.
      intros w [Hin|[->|Hin]%elem_of_cons]%elem_of_app; [apply Hl2, elem_of_app; by left|done|apply Hl2, elem_of_app; right; by right].
    + destruct (begin_waiters id' h' t a Hw) as [->| ->]; [done|]. intros w [->|Hin]%elem_of_cons; [intros E; by destruct (Hx E)|by apply Hl2].
Qed.
Lemma answered_run id h st res acts a : wf a → answered id h st res (aw_waiters a) → Forall (stays id) acts →
  answered id h st res (aw_waiters (run acts a)).
Proof.
  revert a. induction acts as [|x acts IH]; intros a Hw Ha Hall; [done|]. inversion Hall as [|? ? Hs Hall']; subst.
  apply (IH (do_act a x)); [by apply act_wf|apply mine_act; [done..|by destruct x]|done].
Qed.
Lemma listening_told id h room ev a : wf a → listening id h (aw_waiters a) → is_terminal ev = true → ae_handle ev = h →
  answered id h (ae_status ev) (dup_mem room (ae_result ev)) (aw_waiters (await_obs room ev a)).
Proof.
  intros Hw [Hl1 Hl2] Ht Hh. set (w0 := Waiter id h false GPTPS_OK []) in *.
  assert (w0 ∈ aw_waiters a ∧ wt_id w0 = id) as [Hin _].
  { assert (w0 ∈ mine id (aw_waiters a)) as H by (rewrite Hl1; by left). by apply list_elem_of_filter in H as [? ?]. }
  unfold await_obs. rewrite Ht. destruct (deliver _ _) as [ws|] eqn:E.
  - apply deliver_some in E as (l1 & w & l2 & E & -> & Hwh & Hwd). change (aw_waiters (a <| aw_seen ::= _ |>)) with (aw_waiters a) in E.
    assert (w = w0) as ->.
    { rewrite E in *. apply (of_in id (l1 ++ w :: l2)); [done|apply elem_of_app; right; by left|].
      apply Hl2; [apply elem_of_app; right; by left|by rewrite Hwh|done]. }
    unfold answered, mine in *. rewrite E, filter_app, filter_cons, decide_True in Hl1 by done.
    cbn [aw_waiters update]. rewrite filter_app, filter_cons, decide_True by done.
    apply app_eq_unit in Hl1 as [[-> [= ->]]|[_ ?]]; [done|done].
  - exfalso. rewrite deliver_none in E. by specialize (E w0 Hin (eq_sym Hh)).
Qed.

(** A wait entered before its task ends is told the task's outcome and result when it
    does, and returns them whenever its thread runs next - whatever other threads wait
    for, and however many completions go through the ring in between. *)
Theorem early_wait_is_answered (a : await) (id : nat) (h t : Z) (acts acts' : list act) (room : bool) (ev : aevent) :
  wf a → h ≠ 0 → t ≠ 0 → (∀ w, w ∈ aw_waiters a → wt_id w ≠ id ∧ wt_h w ≠ h) → (∀ c, c ∈ kept a → co_h c ≠ h) →
  Forall (λ x, stays id x ∧ apart h x) acts → is_terminal ev = true → ae_handle ev = h → Forall (stays id) acts' →
  (wait_begin id h t a).1 = None ∧
  let a' := run acts' (await_obs room ev (run acts (wait_begin id h t a).2)) in
  ∃ w, mine id (aw_waiters a') = [w] ∧ (wait_end w a').1 = (GPTPS_OK, Some (ae_status ev, dup_mem room (ae_result ev))).
Proof.
  intros Hw H0 Ht Hws Hks Hall Hev Hh Hall'.
  assert (claim h (kept a) = None) as Hc.
  { revert Hks. generalize (kept a). intros l Hl. induction l as [|c l IH]; [done|]. simpl.
    rewrite (proj2 (Z.eqb_neq _ _)) by (apply Hl; by left). rewrite IH; [done|]. intros d Hd. apply Hl. by right. }
  pose proof (ring_take_kept h a Hw) as Hr. unfold takes_as in Hr. rewrite drop_0, Hc in Hr.
  unfold wait_begin. rewrite (proj2 (Z.eqb_neq _ _) H0), Hr, (proj2 (Z.eqb_neq _ _) Ht). split; [done|]. cbn [snd].
  set (a1 := a <| aw_waiters ::= _ |> <| aw_nblocked ::= _ |>).
  assert (wf a1) as Hw1 by by destruct Hw. assert (listening id h (aw_waiters a1)) as Hl1.
  { split.
    - cbn [a1 aw_waiters update]. unfold mine. rewrite filter_cons, decide_True by done. f_equal.
      apply mine_none. intros w Hin. apply (Hws w Hin).
    - simpl. intros w [->|Hin]%elem_of_cons; [done|]. by destruct (Hws w Hin). }
  destruct (listening_run id h acts a1 Hw1 Hl1 Hall) as [Hw2 Hl2].
  pose proof (listening_told id h room ev _ Hw2 Hl2 Hev Hh) as Ha. exists (Waiter id h true (ae_status ev) (dup_mem room (ae_result ev))).
  split; [|done]. apply answered_run; [by apply obs_kept|done|done].
Qed.

(** ** Concrete runs *)

Lemma install_wf cap : wf (await_install_ex cap).
Proof.
  unfold await_install_ex. destruct (Nat.eqb_spec cap 0); (split; cbn [aw_cap aw_ring aw_n]; [|by rewrite length_replicate|lia]).
  - unfold AWAIT_DEFAULT_CAP. lia.
  - lia.
Qed.
Definition done_ev (h : Z) (res : list Z) : aevent := AEvent EV_FINISHED h GPTPS_OK res.
(** A ring of two: handle 5 ends before its wait, handle 6 in between. *)
Definition between : list act := [Obs true (done_ev 6 [9]); Begin 1 8 0; Obs true (AEvent EV_FAILED 7 GPTPS_E_TIMEOUT [])].
Lemma late_wait_is_answered_witness :
  (wait_begin 2 5 100 (run between (await_obs true (done_ev 5 [1; 2]) (await_install_ex 2)))).1 =
  Some (GPTPS_OK, Some (GPTPS_OK, [1; 2])).
Proof.
  apply (late_wait_is_answered (await_install_ex 2) true (done_ev 5 [1; 2]) between 2 100).
  - apply install_wf.
  - done.
  - done.
  - intros w Hw. by apply elem_of_nil in Hw.
  - intros c Hc. by apply elem_of_nil in Hc.
  - repeat constructor; done.
  - vm_compute. lia.
Defined.
(** A ring of one: the wait on 5 comes first, and 6, 7 and 8 end around it. *)
Definition before : list act := [Obs true (done_ev 6 [9]); Obs true (done_ev 7 [9])].
Definition afterwards : list act := [Obs true (done_ev 8 [9]); Begin 3 8 0].
Lemma early_wait_is_answered_witness :
  (wait_begin 2 5 100 (await_install_ex 1)).1 = None ∧
  let a' := run afterwards (await_obs true (done_ev 5 [1; 2]) (run before (wait_begin 2 5 100 (await_install_ex 1)).2)) in
  ∃ w, mine 2 (aw_waiters a') = [w] ∧ (wait_end w a').1 = (GPTPS_OK, Some (GPTPS_OK, [1; 2])).
Proof.
  apply (early_wait_is_answered (await_install_ex 1) 2 5 100 before afterwards true (done_ev 5 [1; 2])).
  - apply install_wf.
  - done.
  - done.
  - intros w Hw. by apply elem_of_nil in Hw.
  - intros c Hc. by apply elem_of_nil in Hc.
  - repeat constructor; done.
  - done.
  - done.
  - repeat constructor; done.
Defined.

End Await.
