(* ===== verification/Pool.v ===== *)
(** * The pool: [src/addons/gptps_pool.c]

    Several engines behind one handle space.  What the pool asks of an engine is a class;
    the engine of EngineApi.v is an instance.  The cursor is under a mutex held for one
    increment, the shards never change after [pool_open]. *)

From S2P Require Import Prelude HandleIndex Engine EngineApi Registry.

Module Pool.
Import Engine EngineApi Registry.

(** ** Shards *)

(** The calls of an engine the pool makes. *)
Class shard_ops (E D : Type) := {
  sh_submit : string → bytes → E → (status + Z) * E;
  sh_cancel : Z → E → status * E;
  sh_register : D → E → status * E;
  sh_unregister : D → E → E;
  sh_dead_letter_count : E → Z }.

Definition GPTPS_POOL_HANDLE_BITS : Z := 48.
Definition GPTPS_POOL_HANDLE_MASK : Z := 2 ^ 48 - 1.
Definition GPTPS_POOL_MAX_SHARDS : Z := 65535.
Record pool (E : Type) := MkPool { p_shards : list E; p_cursor : Z }.
Arguments MkPool {E}. Arguments p_shards {E}. Arguments p_cursor {E}.
#[export] Instance eta_pool E : Eta (pool E) := λ p, MkPool (p_shards p) (p_cursor p).
Definition p_n {E} (p : pool E) : Z := Z.of_nat (length (p_shards p)).

(** A handle of an engine, tagged with its shard. *)
Definition pool_pack (shard h : Z) : Z :=
  if h =? 0 then 0 else Z.lor (Z.shiftl shard GPTPS_POOL_HANDLE_BITS) (Z.land h GPTPS_POOL_HANDLE_MASK).

Section pool.
Context {E D : Type} `{ops : !shard_ops E D}.

(** [gptps_pool_open]: [open i] is what opening the i-th engine gives; with [inl], those
    to shut down again. *)
Fixpoint open_loop (open : nat → option E) (k i : nat) (l : list E) : list E + list E :=
  match k with
  | O => inr l
  | S k => match open i with Some e => open_loop open k (S i) (l ++ [e]) | None => inl l end
  end.
Definition pool_open (open : nat → option E) (nshards : nat) : option (list E + pool E) :=
  if (Z.of_nat nshards <? 1) || (GPTPS_POOL_MAX_SHARDS <? Z.of_nat nshards) then None
  else Some (match open_loop open nshards 0 [] with inl l => inl l | inr l => inr (MkPool l 0) end).
Definition pool_shard (i : nat) (p : pool E) : option E := p_shards p !! i.

(** [gptps_pool_register_task]: all of the shards, or none. *)
Definition at_shard {A} (i : nat) (f : E → A * E) (l : list E) : option (A * list E) :=
  e ← l !! i; let '(a, e') := f e in Some (a, <[i := e']> l).
Fixpoint unregister_below (d : D) (j : nat) (l : list E) : list E :=
  match j with
  | O => l
  | S j => alter (M := list E) (sh_unregister d) j (unregister_below d j l)
  end.
Fixpoint register_loop (d : D) (k i : nat) (l : list E) : status * list E :=
  match k with
  | O => (GPTPS_OK, l)
  | S k =>
      match at_shard i (sh_register d) l with
      | None => (GPTPS_OK, l)
      | Some (st, l) =>
          if decide (st = GPTPS_OK) then register_loop d k (S i) l else (st, unregister_below d i l)
      end
  end.
Definition pool_register_task (d : D) (p : pool E) : status * pool E :=
  let '(st, l) := register_loop d (length (p_shards p)) 0 (p_shards p) in (st, p <| p_shards := l |>).

Definition next_rr (p : pool E) : nat * pool E :=
  (Z.to_nat (p_cursor p mod p_n p), p <| p_cursor ::= λ c, u64 (c + 1) |>).
Definition submit_to (idx : nat) (task : string) (payload : bytes) (p : pool E) : (status + Z) * pool E :=
  match at_shard idx (sh_submit task payload) (p_shards p) with
  | None => (inl GPTPS_E_INVAL, p)
  | Some (r, l) => (match r with inl st => inl st | inr h => inr (pool_pack (Z.of_nat idx) h) end, p <| p_shards := l |>)
  end.
Definition pool_submit (task : string) (payload : bytes) (p : pool E) : (status + Z) * pool E :=
  let '(idx, p) := next_rr p in submit_to idx task payload p.
Definition pool_submit_keyed (key : Z) (task : string) (payload : bytes) (p : pool E) : (status + Z) * pool E :=
  submit_to (Z.to_nat (key mod p_n p)) task payload p.
Definition pool_cancel (h : Z) (p : pool E) : status * pool E :=
  if h =? 0 then (GPTPS_E_INVAL, p)
  else
    let shard := Z.shiftr h GPTPS_POOL_HANDLE_BITS in
    let eh := Z.land h GPTPS_POOL_HANDLE_MASK in
    match at_shard (Z.to_nat shard) (sh_cancel eh) (p_shards p) with
    | None => (GPTPS_E_INVAL, p)
    | Some (st, l) => (st, p <| p_shards := l |>)
    end.
Definition pool_dead_letter_count (p : pool E) : Z := u64 (foldr (λ e s, sh_dead_letter_count e + s) 0 (p_shards p)).

(** ** Handles *)

Lemma pool_pack_spec shard h : 0 ≤ shard → 0 < h < 2 ^ 48 →
  pool_pack shard h = shard * 2 ^ 48 + h ∧ Z.shiftr (pool_pack shard h) GPTPS_POOL_HANDLE_BITS = shard ∧
  Z.land (pool_pack shard h) GPTPS_POOL_HANDLE_MASK = h.
Proof.
  intros Hs Hh. unfold pool_pack, GPTPS_POOL_HANDLE_BITS, GPTPS_POOL_HANDLE_MASK.
  destruct (Z.eqb_spec h 0) as [|_]; [lia|]. rewrite !land_mask by lia. rewrite (Z.mod_small h) by lia.
  assert (Z.land (Z.shiftl shard 48) h = 0) as Hd.
  { apply Z.bits_inj'. intros n Hn. rewrite Z.land_spec, Z.bits_0. destruct (Z.lt_ge_cases n 48).
    - by rewrite Z.shiftl_spec_low.
    - rewrite <-(Z.mod_small h (2 ^ 48)), Z.mod_pow2_bits_high by lia. apply andb_false_r. }
  rewrite <-Z.lxor_lor, <-Z.add_nocarry_lxor, Z.shiftl_mul_pow2 by (done || lia). split; [done|].
  rewrite Z.shiftr_div_pow2 by lia. split.
  - rewrite Z.div_add_l by lia. rewrite Z.div_small by lia. lia.
  - rewrite Z.add_comm, Z.mod_add by lia. apply Z.mod_small. lia.
Qed.

(** ** What the pool promises *)

Lemma at_shard_some {A} i (f : E → A * E) (l : list E) e : l !! i = Some e → at_shard i f l = Some ((f e).1, <[i := (f e).2]> l).
Proof. intros Hi. unfold at_shard. rewrite Hi. simpl. by destruct (f e). Qed.
Lemma submit_to_ok idx task payload p ph p' :
  submit_to idx task payload p = (inr ph, p') →
  ∃ e h e', p_shards p !! idx = Some e ∧ sh_submit task payload e = (inr h, e') ∧
    ph = pool_pack (Z.of_nat idx) h ∧ p' = p <| p_shards ::= <[idx := e']> |>.
Proof.
  unfold submit_to, at_shard. destruct (p_shards p !! idx) as [e|] eqn:Ei; simpl; [|done].
  destruct (sh_submit task payload e) as [[st|h] e'] eqn:Es; intros [= <- <-]. by exists e, h, e'.
Qed.

(** C32: a handle the pool gives out comes from exactly one shard's submit, in turn or by
    the key, and cancelling it - at any later time - is that shard's cancel of that
    shard's handle, which leaves every other shard as it is. *)
Theorem pool_cancel_finds_its_shard (task : string) (payload : bytes) (key : option Z) (p p1 p2 : pool E) (ph : Z) :
  0 < p_n p ≤ GPTPS_POOL_MAX_SHARDS → p_n p2 = p_n p →
  (match key with Some k => pool_submit_keyed k task payload p | None => pool_submit task payload p end) = (inr ph, p1) →
  ∃ idx e h e' e2,
    Z.of_nat idx = (match key with Some k => k | None => p_cursor p end) mod p_n p ∧
    p_shards p !! idx = Some e ∧ sh_submit task payload e = (inr h, e') ∧ p_shards p1 = <[idx := e']> (p_shards p) ∧
    p_shards p2 !! idx = Some e2 ∧
    (0 < h < 2 ^ 48 → pool_cancel ph p2 = ((sh_cancel h e2).1, p2 <| p_shards ::= <[idx := (sh_cancel h e2).2]> |>)).
Proof.
  intros Hn Hn2 Hs. set (c := match key with Some k => k | None => p_cursor p end).
  pose proof (Z.mod_pos_bound c (p_n p) ltac:(lia)) as Hc. set (idx := Z.to_nat (c mod p_n p)).
  assert (∃ q, p_shards q = p_shards p ∧ submit_to idx task payload q = (inr ph, p1)) as (q & Hq & Hs').
  { destruct key; [by exists p|by exists (next_rr p).2]. }
  apply submit_to_ok in Hs' as (e & h & e' & He & Hh & -> & ->). rewrite Hq in He.
  destruct (lookup_lt_is_Some_2 (p_shards p2) idx) as [e2 He2].
  { apply lookup_lt_Some in He. unfold p_n in Hn2. lia. }
  exists idx, e, h, e', e2. split_and!; [unfold idx; rewrite Z2Nat.id; [done|lia]|done|done|simpl; by rewrite Hq|done|].
  intros Hr. destruct (pool_pack_spec (Z.of_nat idx) h) as (Hpk & H1 & H2); [lia|done|].
  unfold pool_cancel. rewrite H1, H2, Hpk, (proj2 (Z.eqb_neq _ _)), Nat2Z.id by lia. by rewrite (at_shard_some _ _ _ e2).
Qed.

(** Registration reaches every shard, or the shards below the one that refused are asked
    to take it back and its status is returned. *)
Lemma register_loop_spec d k i l : (i + k = length l)%nat →
  let r := register_loop d k i l in
  r.1 = GPTPS_OK ∧ r.2 = take i l ++ ((λ e, (sh_register d e).2) <$> drop i l) ∧ Forall (λ e, (sh_register d e).1 = GPTPS_OK) (drop i l) ∨
  ∃ j e, (i ≤ j)%nat ∧ l !! j = Some e ∧ r.1 = (sh_register d e).1 ∧ r.1 ≠ GPTPS_OK ∧
    r.2 = unregister_below d j (take i l ++ ((λ e, (sh_register d e).2) <$> take (S j - i) (drop i l)) ++ drop (S j) l).
Proof.
  revert i l. induction k as [|k IH]; intros i l Hk; cbn [register_loop].
  - left. rewrite drop_ge, take_ge by lia. simpl. rewrite app_nil_r. by split_and!.
  - destruct (lookup_lt_is_Some_2 l i) as [e He]; [lia|]. rewrite (at_shard_some _ _ _ e He).
    set (l1 := <[i := _]> l). rewrite (drop_S l e i He).
    assert (take (S i) l1 = take i l ++ [(sh_register d e).2] ∧ ∀ n, (i < n)%nat → drop n l1 = drop n l) as [Ht Hd].
    { split; [|intros n Hn; unfold l1; by rewrite drop_insert_lt].
      rewrite (take_S_r l1 i (sh_register d e).2) by (unfold l1; rewrite list_lookup_insert_eq; [done|by eapply lookup_lt_Some]).
      unfold l1. by rewrite take_insert_ge. }
    case_decide as Hst.
    + destruct (IH (S i) l1) as [(H1 & H2 & H3)|(j & e' & Hj & Hl & H1 & H2 & H3)]; [unfold l1; rewrite length_insert; lia| |].
      * left. split; [done|]. rewrite Ht, (Hd (S i)) in * by lia. rewrite H2, <-app_assoc. split; [done|by constructor].
      * right. exists j, e'. unfold l1 in Hl. rewrite list_lookup_insert_ne in Hl by lia. split_and!; [lia|done..|].
        rewrite H3, Ht, (Hd (S i)), (Hd (S j)) by lia. rewrite <-app_assoc. f_equal. f_equal.
        replace (S j - i)%nat with (S (S j - S i))%nat by lia. done.
    + right. exists i, e. split_and!; [lia|done..|]. cbn [snd]. f_equal.
      rewrite <-(take_drop (S i) l1), Ht, (Hd (S i)) by lia. replace (S i - i)%nat with 1%nat by lia. by rewrite <-app_assoc.
Qed.
End pool.

(** ** The engine as a shard *)

(** On one thread, at one moment, with the overrides of one configuration file.  What a
    registration and its removal do with the lock released - the settings, the wait for
    work that there is none of yet - is not in it. *)
Definition shard_register (cfg : string → reg → reg) (tid : Z) (d : task_def) (e : engine) : status * engine :=
  match register_link None cfg tid d e with
  | (inl st, e) => (st, e)
  | (inr r, e) => (GPTPS_OK, register_settled r e)
  end.
Definition shard_unregister (tid : Z) (d : task_def) (e : engine) : engine :=
  match unregister_begin tid false (d_name d) REJECT_IF_BUSY e with
  | (_, Some (r, l), e) => (unregister_end r l e).1
  | (_, None, e) => e
  end.
Definition engine_shard (cfg : string → reg → reg) (tid now : Z) : shard_ops engine task_def := {|
  sh_submit task payload e := let '(r, e, _) := submit_internal tid now task payload no_options e in (r, e);
  sh_cancel h e := let '(st, e, _) := gptps_cancel h e in (st, e);
  sh_register := shard_register cfg tid;
  sh_unregister := shard_unregister tid;
  sh_dead_letter_count := e_dead_letter_count |}.

(** Two engines; the cursor is at the second.  The handle is cancelled after another
    submit has gone to the first. *)
#[local] Instance demo_ops : shard_ops engine task_def := engine_shard (λ _ g, g) 7 5.
Definition one_engine : engine :=
  Engine 100 2 0 {[1%positive := Reg "job" EXEC_INPROC 10 None (Policy 0 1 0 DEAD_LETTER) 0 true None false false false false None]}
    [1%positive] ∅ (λ _, []) 0 0 8 0 0 0 [] false 1000 0 false 1 (HandleIndex.Hidx [] 0) None [] 8 0 (λ _, true).
Definition two : pool engine := MkPool [one_engine; one_engine] 1.
Definition two1 : pool engine := (pool_submit "job" [1; 2] two).2.
Definition two2 : pool engine := (pool_submit "job" [3] two1).2.
Lemma pool_cancel_finds_its_shard_witness :
  ∃ e2 e2', p_shards two2 !! 1%nat = Some e2 ∧ (sh_cancel 1 e2).1 = GPTPS_OK ∧ e2' = (sh_cancel 1 e2).2 ∧
    pool_cancel (2 ^ 48 + 1) two2 = (GPTPS_OK, two2 <| p_shards ::= <[1%nat := e2']> |>).
Proof.
  assert (pool_submit "job" [1; 2] two = (inr (2 ^ 48 + 1), two1)) as Hs.
  { assert ((pool_submit "job" [1; 2] two).1 = inr (2 ^ 48 + 1)) as H by by vm_compute. rewrite <-H. apply surjective_pairing. }
  destruct (pool_cancel_finds_its_shard "job" [1; 2] None two two1 two2 (2 ^ 48 + 1)) as (idx & e & h & e' & e2 & Hi & He & Hh & _ & He2 & Hc).
  - by vm_compute.
  - by vm_compute.
  - exact Hs.
  - assert (idx = 1%nat) as -> by (apply Nat2Z.inj; rewrite Hi; by vm_compute).
    assert (h = 1) as -> by (injection He as <-; assert ((sh_submit "job" [1; 2] one_engine).1 = inr 1) as H1 by (by vm_compute); rewrite Hh in H1; by injection H1).
    assert ((sh_cancel 1 e2).1 = GPTPS_OK) as Hst.
    { transitivity (from_option (λ e, (sh_cancel 1 e).1) GPTPS_E_INVAL (p_shards two2 !! 1%nat)); [by rewrite He2|by vm_compute]. }
    exists e2, (sh_cancel 1 e2).2. split_and!; [done|done|done|]. rewrite <-Hst. apply Hc. lia.
Defined.

End Pool.
