(* ===== verification/Quota.v ===== *)
(** * The GPU quota: [src/addons/gptps_gpu_quota.c]

    A named resource of the engine, under one name: every operation is the engine's. *)

From S2P Require Import Prelude Engine Registry.

Module Quota.
Import Engine Registry.

Definition GPTPS_GPU_RESOURCE : string := "gpu".
Definition quota_set_total (total_units : Z) (e : engine) : status * engine :=
  gptps_define_resource None GPTPS_GPU_RESOURCE total_units e.
(** The settings entry is registered besides. *)
Definition quota_install (total_units : Z) (e : engine) : option engine :=
  let '(st, e) := quota_set_total total_units e in if decide (st = GPTPS_OK) then Some e else None.
Definition quota_set_task_units (tid : Z) (task_name : string) (units : Z) (e : engine) : status * engine :=
  gptps_set_task_resource_cost tid task_name GPTPS_GPU_RESOURCE units e.
Definition quota_in_use (e : engine) : Z := from_option fst 0 (gptps_resource_usage GPTPS_GPU_RESOURCE e).
Definition quota_total (e : engine) : Z := from_option snd 0 (gptps_resource_usage GPTPS_GPU_RESOURCE e).

Lemma res_index_name rs name i : res_index rs name = Some i → ∃ r, rs !! i = Some r ∧ rs_name r = name.
Proof.
  revert i. induction rs as [|r rs IH]; intros i; simpl; [done|]. case_decide as E; [intros [= <-]; by exists r|].
  destruct (res_index rs name) as [j|]; simpl; [|done]. intros [= <-]. by apply IH.
Qed.
Lemma res_index_alter rs name f i : (∀ r, rs_name (f r) = rs_name r) →
  res_index (alter (M := list resource) f i rs) name = res_index rs name.
Proof.
  intros Hf. revert i. induction rs as [|r rs IH]; intros [|i]; try done; [simpl; by rewrite Hf|].
  change (alter (M := list resource) f (S i) (r :: rs)) with (r :: alter (M := list resource) f i rs). cbn [res_index]. by rewrite IH.
Qed.
Lemma res_index_snoc rs name r : res_index rs name = None → rs_name r = name → res_index (rs ++ [r]) name = Some (length rs).
Proof.
  intros Hn Hr. induction rs as [|x rs IH]; simpl in *; [by rewrite decide_True|]. case_decide; [done|].
  destruct (res_index rs name); [done|]. by rewrite IH.
Qed.

(** A budget set is the budget reported, and what is in use does not change. *)
Lemma quota_total_set n e e' : quota_set_total n e = (GPTPS_OK, e') → quota_total e' = n ∧ quota_in_use e' = quota_in_use e.
Proof.
  unfold quota_set_total, gptps_define_resource, quota_total, quota_in_use, gptps_resource_usage. case_decide; [done|].
  destruct (e_stopping e); [done|]. destruct (ns_ok _ _); [|done]. cbn [negb]. unfold res_rebudget.
  destruct (res_index (e_resources e) GPTPS_GPU_RESOURCE) as [i|] eqn:Ei.
  - intros [= <-]. destruct (res_index_name _ _ _ Ei) as (r & Hr & _). cbn [e_resources update].
    rewrite res_index_alter by done. rewrite Ei. cbn [mbind option_bind]. rewrite list_lookup_alter_eq, Hr. done.
  - unfold ask_alloc. case_match; intros [= <-]. cbn [e_resources]. rewrite (res_index_snoc _ _ _ Ei) by done. cbn [mbind option_bind].
    by rewrite lookup_app_r, Nat.sub_diag by lia.
Qed.

End Quota.
