(* ===== verification/Wire.v ===== *)
(** * The frames of [src/addons/gptps_xport.c]

    Requests, replies and the measurements a reply carries, as bytes on a stream.  The
    two ends are the same program after a fork, so integers travel as the machine has
    them in memory: a class, with both byte orders as instances. *)

From S2P Require Import Prelude Engine Journal JournalFacts.

Module Wire.
Import Engine Journal JournalFacts.

(** ** Integers in memory *)

Class native := {
  put : nat → Z → list Z;
  get : list Z → Z;
  put_len n v : len (put n v) = Z.of_nat n;
  put_get n v : 0 ≤ v < 2 ^ (8 * Z.of_nat n) → get (put n v) = v;
  put_zero n : put n 0 = replicate n 0 }.
Lemma put_le_zero n : put_le n 0 = replicate n 0.
Proof. induction n as [|n IH]; [done|]. cbn [put_le replicate]. by rewrite Z.shiftr_0_l, IH. Qed.
#[export] Program Instance little_endian : native := {| put := put_le; get := le |}.
Next Obligation. intros n v. unfold len. by rewrite length_put. Qed.
Next Obligation. intros n v Hv. rewrite le_put. by apply Z.mod_small. Qed.
Next Obligation. apply put_le_zero. Qed.
Definition big_endian : native.
Proof.
  refine {| put := λ n v, reverse (put_le n v); get := λ p, le (reverse p) |}.
  - intros n v. unfold len. by rewrite length_reverse, length_put.
  - intros n v Hv. rewrite reverse_involutive, le_put. by apply Z.mod_small.
  - intros n. by rewrite put_le_zero, reverse_replicate.
Defined.

(** [int32_t], as its 32 bits. *)
Definition i32_bits (v : Z) : Z := u32 v.
Definition i32_of (w : Z) : Z := if w <? 2 ^ 31 then w else w - 2 ^ 32.
Definition status_code (st : status) : Z :=
  match st with
  | GPTPS_OK => 0 | GPTPS_E_NOMEM => 1 | GPTPS_E_INVAL => 2 | GPTPS_E_NOTFOUND => 3 | GPTPS_E_DUP => 4
  | GPTPS_E_BUDGET => 5 | GPTPS_E_FULL => 6 | GPTPS_E_TIMEOUT => 7 | GPTPS_E_CANCELLED => 8 | GPTPS_E_ABI => 9
  | GPTPS_E_CONFIG => 10 | GPTPS_E_IO => 11 | GPTPS_E_TASK => 12 | GPTPS_E_SHUTDOWN => 13 | GPTPS_E_DENIED => 14
  | GPTPS_E_BUSY => 15
  end.

(** ** The socket *)

(** What one [send] or [recv] answers: an interruption, an error or the peer's close, or
    the number of bytes it moved. *)
Inductive io := IO_EINTR | IO_ERR | IO_MOVED (n : Z).
(** The loop of [sock_write_all] over its answers: the bytes sent, and whether all were. *)
Fixpoint write_loop (ans : list io) (buf : list Z) : list Z * bool :=
  if len buf =? 0 then ([], true)
  else match ans with
  | [] => ([], false)
  | IO_EINTR :: ans => write_loop ans buf
  | IO_ERR :: _ => ([], false)
  | IO_MOVED n :: ans =>
      if n =? 0 then ([], false) else let '(out, ok) := write_loop ans (from n buf) in (upto n buf ++ out, ok)
  end.
(** That of [sock_read_all], from what is on its way; [off] bytes are read already. *)
Fixpoint read_loop (ans : list io) (off : list Z) (n : Z) (s : list Z) : option (list Z * list Z) :=
  if n <=? len off then Some (off, s)
  else match ans with
  | [] => None
  | IO_EINTR :: ans => read_loop ans off n s
  | IO_ERR :: _ => None
  | IO_MOVED k :: ans => if k =? 0 then None else read_loop ans (off ++ upto k s) n (from k s)
  end.
(** What it comes to: [n] bytes, or the end of the stream. *)
Definition read_all (n : Z) (s : list Z) : option (list Z * list Z) :=
  if n <=? len s then Some (upto n s, from n s) else None.

Section wire.
Context {order : native}.

(** ** Measurements *)

(** [gptps_measure]; a string is its bytes without the NUL, [None] for a null pointer. *)
Record xmeasure := XMeasure {
  xm_name : option (list Z); xm_value : Z; xm_unit : Z; xm_kind : Z; xm_flags : Z; xm_method : option (list Z) }.
Definition GPTPS_XPORT_MAX_MSG : Z := 256 * 1024 * 1024.
Definition GPTPS_XPORT_MAX_MEASURES : Z := 64.
Definition GPTPS_XPORT_MEASURE_STR : Z := 256.
Definition XP_MEAS_HDR : Z := 5.
Definition XP_MEAS_ENTRY : Z := 8 + 2 + 2 + 4 + 2 + 2.
Definition XP_MEAS_CAP : Z := XP_MEAS_HDR + GPTPS_XPORT_MAX_MEASURES * (XP_MEAS_ENTRY + 2 * GPTPS_XPORT_MEASURE_STR).
Definition k_meas_lost : list Z := [0; 0; 0; 0; 1].

Definition meas_fits (m : xmeasure) : bool :=
  match xm_name m, xm_method m with
  | Some n, Some t => (len n <? GPTPS_XPORT_MEASURE_STR) && (len t <? GPTPS_XPORT_MEASURE_STR)
  | _, _ => false
  end.
(** Both loops of [meas_encode] pass over the same: [n] chosen so far; whether any was
    left out. *)
Fixpoint chosen (n : Z) (ms : list xmeasure) : list xmeasure * bool :=
  match ms with
  | [] => ([], false)
  | m :: ms =>
      if (n =? GPTPS_XPORT_MAX_MEASURES) || negb (meas_fits m) then ((chosen n ms).1, true)
      else (m :: (chosen (n + 1) ms).1, (chosen (n + 1) ms).2)
  end.
Definition put_str (s : option (list Z)) : list Z := let s := default [] s in put 2 (len s + 1) ++ s ++ [0].
Definition put_measure (m : xmeasure) : list Z :=
  put 8 (xm_value m) ++ put 2 (xm_unit m) ++ put 2 (xm_kind m) ++ put 4 (xm_flags m) ++ put_str (xm_name m) ++ put_str (xm_method m).
(** [[]] for NULL. *)
Definition meas_encode (room : bool) (ms : list xmeasure) : list Z :=
  match ms with
  | [] => []
  | _ =>
      if room then put 4 (len (chosen 0 ms).1) ++ [if (chosen 0 ms).2 then 1 else 0] ++ concat (put_measure <$> (chosen 0 ms).1)
      else k_meas_lost
  end.

(** A C string in a buffer. *)
Fixpoint c_string (b : list Z) : list Z := match b with [] => [] | x :: b => if x =? 0 then [] else x :: c_string b end.
(** A length and a string of that length, NUL included. *)
Definition get_str (b : list Z) : option (list Z * list Z) :=
  if len b <? 2 then None
  else
    let nl := get (upto 2 b) in
    let b := from 2 b in
    if (nl =? 0) || (len b <? nl) || negb (bool_decide (b !! Z.to_nat (nl - 1) = Some 0)) then None
    else Some (c_string (upto nl b), from nl b).
Definition get_measure (b : list Z) : option (xmeasure * list Z) :=
  if len b <? XP_MEAS_ENTRY then None
  else
    let value := get (upto 8 b) in let b := from 8 b in
    let unit := get (upto 2 b) in let b := from 2 b in
    let kind := get (upto 2 b) in let b := from 2 b in
    let flags := get (upto 4 b) in let b := from 4 b in
    '(name, b) ← get_str b;
    '(method, b) ← get_str b;
    Some (XMeasure (Some name) value unit kind flags (Some method), b).
Fixpoint decode_loop (n : nat) (b : list Z) : option (list xmeasure * list Z) :=
  match n with
  | O => Some ([], b)
  | S n => '(m, b) ← get_measure b; '(ms, b) ← decode_loop n b; Some (m :: ms, b)
  end.
(** The measurements and whether some were cut, or a blob that does not add up; memory
    is taken to be there. *)
Definition meas_decode (b : list Z) : option (list xmeasure * bool) :=
  if len b =? 0 then Some ([], false)
  else if len b <? XP_MEAS_HDR then None
  else
    let n := get (upto 4 b) in
    let cut := negb (default 0 (b !! 4%nat) =? 0) in
    if GPTPS_XPORT_MAX_MEASURES <? n then None
    else '(ms, rest) ← decode_loop (Z.to_nat n) (from XP_MEAS_HDR b); if len rest =? 0 then Some (ms, cut) else None.

(** ** Frames *)

Definition write_reply (id st : Z) (res meas : list Z) : list Z :=
  put 8 id ++ put 4 (i32_bits st) ++ put 8 (len res) ++ res ++ put 4 (len meas) ++ meas.
(** What a worker answers with: a result over the frame's cap goes out as an empty one
    with its own status - [worker_handler_main] and [worker_engine_ev]. *)
Definition capped_reply (id st : Z) (res meas : list Z) : list Z :=
  if GPTPS_XPORT_MAX_MSG <? len res then write_reply id (status_code GPTPS_E_BUDGET) [] meas else write_reply id st res meas.
Record reply := Reply { rp_id : Z; rp_st : Z; rp_res : list Z; rp_meas : list xmeasure; rp_cut : bool }.
(** One turn of [reader_main]'s loop, up to the frame's end. *)
Definition read_reply (s : list Z) : option (reply * list Z) :=
  '(id, s) ← read_all 8 s;
  '(st, s) ← read_all 4 s;
  '(rl, s) ← read_all 8 s;
  if GPTPS_XPORT_MAX_MSG <? get rl then None
  else
    '(res, s) ← read_all (get rl) s;
    '(ml, s) ← read_all 4 s;
    if XP_MEAS_CAP <? get ml then None
    else
      '(mb, s) ← read_all (get ml) s;
      '(ms, cut) ← meas_decode mb;
      Some (Reply (get id) (i32_of (get st)) res ms cut, s).
(** The replies up to the end of the stream or the first frame not to be trusted. *)
Fixpoint read_replies (fuel : nat) (s : list Z) : list reply * list Z :=
  match fuel with
  | O => ([], s)
  | S fuel => match read_reply s with None => ([], s) | Some (r, s) => let '(rs, s) := read_replies fuel s in (r :: rs, s) end
  end.

Record request := Request { rq_id : Z; rq_task : list Z; rq_payload : list Z }.
(** The frame [send_request] writes. *)
Definition write_request (r : request) : list Z :=
  put 8 (rq_id r) ++ put 4 (len (rq_task r)) ++ rq_task r ++ put 8 (len (rq_payload r)) ++ rq_payload r.
Definition read_request (s : list Z) : option (request * list Z) :=
  '(id, s) ← read_all 8 s;
  '(tlen, s) ← read_all 4 s;
  if GPTPS_XPORT_MAX_MSG <? get tlen then None
  else
    '(task, s) ← read_all (get tlen) s;
    '(plen, s) ← read_all 8 s;
    if GPTPS_XPORT_MAX_MSG <? get plen then None
    else '(payload, s) ← read_all (get plen) s; Some (Request (get id) (c_string task) payload, s).
Fixpoint read_requests (fuel : nat) (s : list Z) : list request * list Z :=
  match fuel with
  | O => ([], s)
  | S fuel => match read_request s with None => ([], s) | Some (r, s) => let '(rs, s) := read_requests fuel s in (r :: rs, s) end
  end.

End wire.
End Wire.
