(* ===== verification/WireFacts.v ===== *)
(** * Frames read back

    A stream of frames, whatever the pieces the sockets cut it into, is read back to the
    requests and the replies that were sent, in either byte order. *)

From S2P Require Import Prelude Engine Journal JournalFacts Wire.

Module WireFacts.
Import Engine Journal JournalFacts Wire.

(** ** The socket's pieces *)

Lemma upto_from n b : upto n b ++ from n b = b.
Proof. apply take_drop. Qed.
(** What was sent is a prefix of the buffer, and all of it on success. *)
Lemma write_loop_prefix ans buf : let '(out, ok) := write_loop ans buf in out `prefix_of` buf ∧ (ok = true → out = buf).
Proof.
  revert buf. induction ans as [|a ans IH]; intros buf; simpl; (destruct (Z.eqb_spec (len buf) 0) as [H0|H0];
    [destruct buf; [done|unfold len in H0; simpl in H0; lia]|]).
  - split; [apply prefix_nil|done].
  - destruct a as [| |n]; [apply IH|split; [apply prefix_nil|done]|].
    destruct (n =? 0); [split; [apply prefix_nil|done]|]. specialize (IH (from n buf)).
    destruct (write_loop ans (from n buf)) as [out ok]. destruct IH as [[k Hk] Hok]. split.
    + exists k. by rewrite <-app_assoc, <-Hk, upto_from.
    + intros E. rewrite (Hok E). apply upto_from.
Qed.
(** [recv] gives no more than it was asked for, and no more than there is. *)
Fixpoint asked (ans : list io) (want there : Z) : Prop :=
  match ans with
  | [] => True
  | IO_MOVED k :: ans => 0 ≤ k ≤ want ∧ k ≤ there ∧ asked ans (want - k) (there - k)
  | _ :: ans => asked ans want there
  end.
(** Whatever pieces a read is served in, it takes exactly the next [n] bytes. *)
Lemma read_loop_exact ans off n s b s' :
  asked ans (n - len off) (len s) → len off ≤ n → read_loop ans off n s = Some (b, s') → off ++ s = b ++ s' ∧ len b = n.
Proof.
  revert off s. induction ans as [|a ans IH]; intros off s Ha Hn; simpl; (destruct (Z.leb_spec n (len off)); [intros [= <- <-]; split; [done|lia]|]);
    [done|]. destruct a as [| |k]; simpl in Ha; [by apply IH|done|]. destruct (Z.eqb_spec k 0) as [|Hk]; [done|].
  destruct Ha as (Hk2 & Hs & Ha). intros Hr.
  assert (len (off ++ upto k s) = len off + k ∧ len (from k s) = len s - k) as [E1 E2] by (rewrite len_app, len_upto, len_from; lia).
  destruct (IH (off ++ upto k s) (from k s)) as [H1 H2]; [|lia|done|].
  - rewrite E1, E2. by replace (n - (len off + k)) with (n - len off - k) by lia.
  - split; [|done]. by rewrite <-H1, <-app_assoc, upto_from.
Qed.
Lemma read_loop_all ans n s b s' : 0 ≤ n → asked ans n (len s) → read_loop ans [] n s = Some (b, s') → read_all n s = Some (b, s').
Proof.
  intros Hn Ha Hr. destruct (read_loop_exact ans [] n s b s') as [H1 H2]; [by rewrite Z.sub_0_r|done|done|].
  simpl in H1. subst s. unfold read_all. rewrite len_app, upto_app, from_app by done. pose proof (len_nonneg s').
  by destruct (Z.leb_spec n (len b + len s')); [|lia].
Qed.

(** ** One value after another *)

Lemma read_all_app n a b : len a = n → read_all n (a ++ b) = Some (a, b).
Proof.
  intros Hn. unfold read_all. rewrite len_app, upto_app, from_app by done. pose proof (len_nonneg b).
  by destruct (Z.leb_spec n (len a + len b)); [|lia].
Qed.
Section wire.
Context {order : native}.

Lemma read_put k n v b : k = Z.of_nat n → read_all k (put n v ++ b) = Some (put n v, b).
Proof. intros ->. apply read_all_app, put_len. Qed.
Lemma upto_put k n v b : k = Z.of_nat n → upto k (put n v ++ b) = put n v.
Proof. intros ->. apply upto_app, put_len. Qed.
Lemma from_put k n v b : k = Z.of_nat n → from k (put n v ++ b) = b.
Proof. intros ->. apply from_app, put_len. Qed.

Lemma length_native n v : length (put n v) = n.
Proof. pose proof (put_len n v) as E. unfold len at 1 in E. lia. Qed.
Lemma c_string_app s b : Forall (λ x, x ≠ 0) s → c_string (s ++ 0 :: b) = s.
Proof.
  induction 1 as [|x s Hx _ IH]; simpl; [done|]. by rewrite (proj2 (Z.eqb_neq _ _) Hx), IH.
Qed.
Lemma c_string_all s : Forall (λ x, x ≠ 0) s → c_string s = s.
Proof. induction 1 as [|x s Hx _ IH]; simpl; [done|]. by rewrite (proj2 (Z.eqb_neq _ _) Hx), IH. Qed.

(** ** Measurements *)

Record measure_ok (m : xmeasure) : Prop := {
  mo_value : 0 ≤ xm_value m < 2 ^ 64; mo_unit : 0 ≤ xm_unit m < 2 ^ 16; mo_kind : 0 ≤ xm_kind m < 2 ^ 16;
  mo_flags : 0 ≤ xm_flags m < 2 ^ 32;
  mo_name : Forall (λ x, x ≠ 0) (default [] (xm_name m)); mo_method : Forall (λ x, x ≠ 0) (default [] (xm_method m)) }.

Lemma get_put_str s b : len s < GPTPS_XPORT_MEASURE_STR → Forall (λ x, x ≠ 0) s → get_str (put_str (Some s) ++ b) = Some (s, b).
Proof.
  intros Hl Hs. unfold GPTPS_XPORT_MEASURE_STR in Hl. pose proof (len_nonneg s) as H0. pose proof (len_nonneg b) as Hb.
  unfold get_str, put_str. cbn [default from_option id]. rewrite <-!app_assoc.
  rewrite upto_put, from_put by done. rewrite !len_app, put_len, put_get by lia. change (len [0]) with 1.
  destruct (Z.ltb_spec (Z.of_nat 2 + (len s + (1 + len b))) 2); [lia|]. destruct (Z.eqb_spec (len s + 1) 0); [lia|].
  destruct (Z.ltb_spec (len s + (1 + len b)) (len s + 1)); [lia|]. cbn [orb].
  rewrite bool_decide_eq_true_2.
  - cbn [negb]. rewrite (app_assoc s [0] b). rewrite upto_app, from_app by (rewrite len_app; done).
    by rewrite (c_string_app s []).
  - replace (len s + 1 - 1) with (len s) by lia. unfold len. rewrite Nat2Z.id. rewrite lookup_app_r by lia. by rewrite Nat.sub_diag.
Qed.
Lemma len_put_str s : len (put_str (Some s)) = len s + 3.
Proof. unfold put_str. cbn [default from_option id]. rewrite !len_app, put_len. change (len [0]) with 1. lia. Qed.
Lemma fits_strs m : meas_fits m = true → ∃ n t, xm_name m = Some n ∧ xm_method m = Some t ∧ len n < 256 ∧ len t < 256.
Proof.
  unfold meas_fits. destruct (xm_name m) as [n|], (xm_method m) as [t|]; try done. intros [H1 H2]%andb_true_iff.
  exists n, t. by rewrite <-!Z.ltb_lt.
Qed.
Lemma len_put_measure m : meas_fits m = true → 20 + 2 ≤ len (put_measure m) ≤ 20 + 512.
Proof.
  intros (n & t & Hn & Ht & H1 & H2)%fits_strs. unfold put_measure. rewrite Hn, Ht, !len_app, !put_len, !len_put_str.
  pose proof (len_nonneg n). pose proof (len_nonneg t). lia.
Qed.
Lemma get_put_measure m b : measure_ok m → meas_fits m = true → get_measure (put_measure m ++ b) = Some (m, b).
Proof.
  intros [M1 M2 M3 M4 M5 M6] Hf. pose proof (len_put_measure m Hf) as Hl. destruct (fits_strs m Hf) as (n & t & Hn & Ht & H1 & H2).
  unfold get_measure. rewrite len_app. pose proof (len_nonneg b).
  destruct (Z.ltb_spec (len (put_measure m) + len b) XP_MEAS_ENTRY) as [Hc|_]; [unfold XP_MEAS_ENTRY in Hc; lia|].
  unfold put_measure. rewrite Hn, Ht in *. cbn [default from_option id] in *. rewrite <-!app_assoc.
  repeat (rewrite ?upto_put, ?from_put by done). rewrite !put_get by (simpl; lia). rewrite get_put_str by done. cbn [mbind option_bind].
  rewrite get_put_str by done. cbn [mbind option_bind]. destruct m. simpl in *. by subst.
Qed.

Lemma chosen_fits n ms : 0 ≤ n ≤ 64 → Forall (λ m, meas_fits m = true) (chosen n ms).1 ∧ len (chosen n ms).1 ≤ 64 - n.
Proof.
  revert n. induction ms as [|m ms IH]; intros n Hn; cbn [chosen fst snd]; [split; [done|change (len (@nil xmeasure)) with 0; lia]|].
  destruct (Z.eqb_spec n GPTPS_XPORT_MAX_MEASURES) as [E|E]; [by apply IH|]. unfold GPTPS_XPORT_MAX_MEASURES in E.
  destruct (meas_fits m) eqn:Em; [|by apply IH]. simpl. destruct (IH (n + 1)) as [H1 H2]; [lia|]. split; [by constructor|].
  unfold len in *. simpl. lia.
Qed.
Lemma chosen_ok n ms : Forall measure_ok ms → Forall measure_ok (chosen n ms).1.
Proof.
  intros Hok. revert n. induction Hok as [|m ms Hm _ IH]; intros n; simpl; [done|].
  destruct (_ || _); [apply IH|]. constructor; [done|apply IH].
Qed.
Lemma decode_entries ms b : Forall measure_ok ms → Forall (λ m, meas_fits m = true) ms →
  decode_loop (length ms) (concat (put_measure <$> ms) ++ b) = Some (ms, b).
Proof.
  intros Hok Hf. induction ms as [|m ms IH]; [done|]. inversion Hok; inversion Hf; subst. cbn [length decode_loop fmap list_fmap concat].
  rewrite <-app_assoc, get_put_measure by done. cbn [mbind option_bind]. by rewrite IH.
Qed.
Lemma len_entries ms : Forall (λ m, meas_fits m = true) ms → 22 * len ms ≤ len (concat (put_measure <$> ms)) ≤ 532 * len ms.
Proof.
  induction 1 as [|m ms Hm _ IH]; [change (22 * 0 ≤ 0 ≤ 532 * 0); lia|]. cbn [fmap list_fmap concat]. rewrite len_app. pose proof (len_put_measure m Hm).
  unfold len in *. cbn [length]. lia.
Qed.

(** What the parent learns of an item's measurements: those that fit, and whether any
    was left out. *)
Definition carried (room : bool) (ms : list xmeasure) : list xmeasure * bool :=
  match ms with [] => ([], false) | _ => if room then chosen 0 ms else ([], true) end.
Lemma meas_round_trip room ms : Forall measure_ok ms →
  meas_decode (meas_encode room ms) = Some (carried room ms) ∧ len (meas_encode room ms) ≤ XP_MEAS_CAP.
Proof.
  intros Hok. unfold meas_encode, carried. destruct ms as [|m ms]; [by split|]. set (l := m :: ms) in *.
  destruct (chosen_fits 0 l ltac:(lia)) as [Hf Hn]. pose proof (chosen_ok 0 l Hok) as Hc.
  destruct (chosen 0 l) as [cs cut]. cbn [fst snd] in *. pose proof (len_entries cs Hf) as Hs. pose proof (len_nonneg cs) as H0.
  destruct room.
  - set (body := concat _) in *. set (c := if cut then 1 else 0).
    assert (len (put 4 (len cs) ++ [c] ++ body) = 5 + len body) as Hl by (rewrite !len_app, put_len; change (len [c]) with 1; lia).
    rewrite Hl. split; [|unfold XP_MEAS_CAP, XP_MEAS_HDR, GPTPS_XPORT_MAX_MEASURES, XP_MEAS_ENTRY, GPTPS_XPORT_MEASURE_STR; lia].
    unfold meas_decode. rewrite Hl. destruct (Z.eqb_spec (5 + len body) 0); [lia|].
    destruct (Z.ltb_spec (5 + len body) XP_MEAS_HDR) as [Hc'|_]; [unfold XP_MEAS_HDR in Hc'; lia|].
    rewrite upto_put, put_get by (done || (simpl; lia)). destruct (Z.ltb_spec GPTPS_XPORT_MAX_MEASURES (len cs)) as [Hc'|_];
      [unfold GPTPS_XPORT_MAX_MEASURES in Hc'; lia|].
    rewrite app_assoc, (from_app XP_MEAS_HDR) by (rewrite len_app, put_len; done).
    replace (Z.to_nat (len cs)) with (length cs) by (unfold len; lia). unfold body. rewrite <-(app_nil_r (concat _)), decode_entries by done. cbn [mbind option_bind].
    rewrite lookup_app_l by (rewrite length_app, length_native; simpl; lia).
    rewrite lookup_app_r by (by rewrite length_native). rewrite length_native.
    unfold c. by destruct cut.
  - split; [|done]. change k_meas_lost with (replicate 4 0 ++ [1]). rewrite <-put_zero.
    assert (len (put 4 0 ++ [1]) = 5) as Hl by by rewrite len_app, put_len. unfold meas_decode. rewrite Hl.
    rewrite upto_put, put_get by (done || (simpl; lia)). rewrite from_all by by rewrite Hl.
    rewrite lookup_app_r by (by rewrite length_native). by rewrite length_native.
Qed.

(** ** Frames *)

(** What a worker has to send for an item: its answer, however large its result, and all
    that the item measured. *)
Record answer := Answer { an_id : Z; an_st : Z; an_res : list Z; an_room : bool; an_measures : list xmeasure }.
Record answer_ok (a : answer) : Prop := {
  ao_id : 0 ≤ an_id a < 2 ^ 64; ao_st : - 2 ^ 31 ≤ an_st a < 2 ^ 31; ao_measures : Forall measure_ok (an_measures a) }.
Definition reply_frame (a : answer) : list Z :=
  capped_reply (an_id a) (an_st a) (an_res a) (meas_encode (an_room a) (an_measures a)).
(** What the parent makes of it. *)
Definition received (a : answer) : reply :=
  let '(ms, cut) := carried (an_room a) (an_measures a) in
  if GPTPS_XPORT_MAX_MSG <? len (an_res a) then Reply (an_id a) (status_code GPTPS_E_BUDGET) [] ms cut
  else Reply (an_id a) (an_st a) (an_res a) ms cut.

Lemma i32_round_trip v : - 2 ^ 31 ≤ v < 2 ^ 31 → 0 ≤ i32_bits v < 2 ^ 32 ∧ i32_of (i32_bits v) = v.
Proof.
  intros Hv. unfold i32_bits, i32_of, u32. split; [apply Z.mod_pos_bound; lia|].
  destruct (Z.ltb_spec (v mod 2 ^ 32) (2 ^ 31)) as [Hm|Hm]; destruct (Z.le_gt_cases 0 v);
    try (rewrite Z.mod_small in * by lia; lia).
  all: rewrite <-(Z_mod_plus_full v 1), Z.mod_small in * by lia; lia.
Qed.
Lemma read_write_reply id st res meas ms cut s :
  0 ≤ id < 2 ^ 64 → - 2 ^ 31 ≤ st < 2 ^ 31 → len res ≤ GPTPS_XPORT_MAX_MSG → len meas ≤ XP_MEAS_CAP →
  meas_decode meas = Some (ms, cut) → read_reply (write_reply id st res meas ++ s) = Some (Reply id st res ms cut, s).
Proof.
  intros Hid Hst Hres Hmeas Hd. destruct (i32_round_trip st Hst) as [Hb Ho]. unfold read_reply, write_reply. rewrite <-!app_assoc.
  pose proof (len_nonneg res). pose proof (len_nonneg meas). assert (XP_MEAS_CAP < 2 ^ 32 ∧ GPTPS_XPORT_MAX_MSG < 2 ^ 64) as [? ?] by done.
  rewrite read_put by done. cbn [mbind option_bind]. rewrite read_put by done. cbn [mbind option_bind].
  rewrite read_put by done. cbn [mbind option_bind]. rewrite put_get by (simpl; lia).
  destruct (Z.ltb_spec GPTPS_XPORT_MAX_MSG (len res)); [lia|]. rewrite read_all_app by done. cbn [mbind option_bind].
  rewrite read_put by done. cbn [mbind option_bind]. rewrite put_get by (simpl; lia).
  destruct (Z.ltb_spec XP_MEAS_CAP (len meas)); [lia|]. rewrite read_all_app by done. cbn [mbind option_bind].
  rewrite Hd. cbn [mbind option_bind]. rewrite !put_get by (simpl; lia). by rewrite Ho.
Qed.
Lemma reply_round_trip a s : answer_ok a → read_reply (reply_frame a ++ s) = Some (received a, s).
Proof.
  intros [Hid Hst Hm]. destruct (meas_round_trip (an_room a) (an_measures a) Hm) as [Hd Hc]. unfold reply_frame, received, capped_reply.
  destruct (carried _ _) as [ms cut]. destruct (Z.ltb_spec GPTPS_XPORT_MAX_MSG (len (an_res a))) as [Hl|Hl];
    apply read_write_reply; try done; lia.
Qed.

Record request_ok (r : request) : Prop := {
  qo_id : 0 ≤ rq_id r < 2 ^ 64; qo_task : len (rq_task r) ≤ GPTPS_XPORT_MAX_MSG; qo_nul : Forall (λ x, x ≠ 0) (rq_task r);
  qo_payload : len (rq_payload r) ≤ GPTPS_XPORT_MAX_MSG }.
Lemma request_round_trip r s : request_ok r → read_request (write_request r ++ s) = Some (r, s).
Proof.
  intros [Hid Ht Hn Hp]. unfold read_request, write_request. rewrite <-!app_assoc.
  pose proof (len_nonneg (rq_task r)). pose proof (len_nonneg (rq_payload r)).
  assert (GPTPS_XPORT_MAX_MSG < 2 ^ 32 ∧ GPTPS_XPORT_MAX_MSG < 2 ^ 64) as [? ?] by done.
  rewrite read_put by done. cbn [mbind option_bind]. rewrite read_put by done. cbn [mbind option_bind].
  rewrite put_get by (simpl; lia). destruct (Z.ltb_spec GPTPS_XPORT_MAX_MSG (len (rq_task r))); [lia|].
  rewrite read_all_app by done. cbn [mbind option_bind]. rewrite read_put by done. cbn [mbind option_bind].
  rewrite put_get by (simpl; lia). destruct (Z.ltb_spec GPTPS_XPORT_MAX_MSG (len (rq_payload r))); [lia|].
  rewrite read_all_app by done. cbn [mbind option_bind]. rewrite put_get by (simpl; lia). rewrite c_string_all by done. by destruct r.
Qed.

Lemma read_replies_S n s : read_replies (S n) s =
  match read_reply s with None => ([], s) | Some (r, s) => let '(rs, s) := read_replies n s in (r :: rs, s) end.
Proof. done. Qed.
Lemma read_requests_S n s : read_requests (S n) s =
  match read_request s with None => ([], s) | Some (r, s) => let '(rs, s) := read_requests n s in (r :: rs, s) end.
Proof. done. Qed.

(** C33: the channel stays in step.  Whatever the workers' results and measurements are -
    a result past the frame's cap, more measurements than travel, no memory for them -
    the stream of their replies is read back frame by frame to the answers with their
    ids, and to its end; so are the requests the other way.  It holds in either byte
    order, and whatever pieces the socket moves: a write loop that succeeds has sent its
    buffer and nothing else, and a read loop that succeeds has taken the next bytes. *)
Theorem channel_in_step (answers : list answer) (requests : list request) :
  Forall answer_ok answers → Forall request_ok requests →
  read_replies (S (length answers)) (concat (reply_frame <$> answers)) = (received <$> answers, []) ∧
  read_requests (S (length requests)) (concat (write_request <$> requests)) = (requests, []) ∧
  (∀ ans buf out, write_loop ans buf = (out, true) → out = buf) ∧
  (∀ ans n s b s', 0 ≤ n → asked ans n (len s) → read_loop ans [] n s = Some (b, s') → read_all n s = Some (b, s')).
Proof.
  intros Ha Hr. split_and!; [| | |exact read_loop_all].
  - induction Ha as [|a l Hok _ IH]; [done|]. cbn [length fmap list_fmap concat]. rewrite read_replies_S, reply_round_trip by done.
    by rewrite IH.
  - induction Hr as [|r l Hok _ IH]; [done|]. cbn [length fmap list_fmap concat]. rewrite read_requests_S, request_round_trip by done.
    by rewrite IH.
  - intros ans buf out E. pose proof (write_loop_prefix ans buf) as H. rewrite E in H. by apply H.
Qed.

End wire.

(** ** A concrete stream *)

(** A failed task with two measurements, of which one has a name too long to travel, and
    a request for a task "ab". *)
Definition small_measure : xmeasure := XMeasure (Some [109; 101; 109]) 4096 1 1 0 (Some [111; 115]).
Definition long_measure : xmeasure := XMeasure (Some (replicate 256 97)) 7 1 2 0 (Some []).
Definition some_answers : list answer :=
  [Answer 1 0 [104; 105] true [small_measure; long_measure]; Answer 2 (-1) [] false [small_measure]].
Definition some_requests : list request := [Request 1 [97; 98] [1; 2; 3]; Request 2 [97] []].
Lemma channel_in_step_witness :
  read_replies (order := big_endian) 3 (concat (reply_frame (order := big_endian) <$> some_answers)) =
    ([Reply 1 0 [104; 105] [small_measure] true; Reply 2 (-1) [] [] true], []) ∧
  read_requests (order := big_endian) 3 (concat (write_request (order := big_endian) <$> some_requests)) = (some_requests, []).
Proof.
  assert (measure_ok small_measure ∧ measure_ok long_measure) as [H1 H2].
  { split; split; cbn [small_measure long_measure xm_value xm_unit xm_kind xm_flags xm_name xm_method default from_option id]; try lia.
    - repeat constructor; lia.
    - repeat constructor; lia.
    - apply Forall_replicate. lia.
    - constructor. }
  destruct (channel_in_step (order := big_endian) some_answers some_requests) as (Ha & Hr & _).
  - constructor; [|constructor; [|constructor]]; (split; cbn [an_id an_st an_measures]; [lia|lia|by repeat constructor]).
  - constructor; [|constructor; [|constructor]]; (split; cbn [rq_id rq_task rq_payload]; [lia|done|repeat constructor; lia|done]).
  - split; [|exact Hr]. etrans; [exact Ha|]. by vm_compute.
Defined.

End WireFacts.
