(* ===== verification/Xport.v ===== *)
(** * The worker-process transport of [src/addons/gptps_xport.c]

    The parent's side of each link - who is waiting for which reply, and what becomes of
    them when a link dies - and the worker's table of items in flight.  The frames are
    Wire.v's; a section under a lock is a function here, and what a socket, the
    worker's engine or a task answers is an argument. *)

From S2P Require Import Prelude Engine Journal Wire.

Module Xport.
Import Engine Journal Wire.

(** ** The worker, in engine mode *)

Section worker.
Context {order : native}.

(** An item in the worker's engine: its handle, the request it answers, and the
    measurements of its latest failed attempt, encoded. *)
Record inflight := Inflight { if_h : Z; if_id : Z; if_meas : list Z }.
#[export] Instance eta_inflight : Eta inflight := λ r, Inflight (if_h r) (if_id r) (if_meas r).
(** What the worker's callback reads of an event. *)
Record wevent := WEvent { we_kind : event_kind; we_handle : Z; we_status : status; we_result : list Z; we_measures : list xmeasure }.
Definition is_terminal (ev : wevent) : bool :=
  match we_kind ev with
  | EV_FINISHED | EV_DROPPED | EV_DEAD_LETTERED => true
  | EV_FAILED => bool_decide (we_status ev = GPTPS_E_CANCELLED)
  | _ => false
  end.
(** [c->tab[i] = c->tab[--c->n]]: the last entry takes the place of the one that goes. *)
Definition swap_remove (i : nat) (tab : list inflight) : list inflight :=
  match last tab with
  | Some x => take (length tab - 1) (<[i := x]> tab)
  | None => tab
  end.
Definition find_handle (h : Z) (tab : list inflight) : option (nat * inflight) := list_find (λ x, if_h x = h) tab.
(** [worker_engine_ev]: the table, and the reply written if the item is over. *)
Definition worker_engine_ev (room : bool) (ev : wevent) (tab : list inflight) : list inflight * option (list Z) :=
  if negb (is_terminal ev) then
    if decide (we_kind ev = EV_FAILED) then
      match find_handle (we_handle ev) tab with
      | Some (i, x) => (<[i := x <| if_meas := meas_encode room (we_measures ev) |>]> tab, None)
      | None => (tab, None)
      end
    else (tab, None)
  else
    match find_handle (we_handle ev) tab with
    | None => (tab, None)
    | Some (i, x) =>
        let finished := bool_decide (we_kind ev = EV_FINISHED) in
        let own := meas_encode room (we_measures ev) in
        let meas :=
          if finished || (bool_decide (we_kind ev = EV_FAILED) && negb (len own =? 0)) then own else if_meas x in
        (swap_remove i tab,
         Some (if finished then capped_reply (if_id x) (status_code GPTPS_OK) (we_result ev) meas
               else write_reply (if_id x) (status_code (we_status ev)) [] meas))
    end.
(** The main loop of [worker_engine_main], one request: [room] for the table, [ans] what
    the engine's submit says.  A request refused is answered at once. *)
Definition worker_request (room : bool) (ans : status * Z) (r : request) (tab : list inflight) : list inflight * option (list Z) :=
  if room then
    if decide (ans.1 = GPTPS_OK) then (tab ++ [Inflight ans.2 (rq_id r) []], None)
    else (tab, Some (write_reply (rq_id r) (status_code ans.1) [] []))
  else (tab, Some (write_reply (rq_id r) (status_code GPTPS_E_NOMEM) [] [])).
(** One turn of [worker_handler_main]. *)
Definition worker_handler (run : list Z → list Z → Z * list Z) (r : request) : list Z :=
  let '(st, res) := run (rq_task r) (rq_payload r) in capped_reply (rq_id r) st res [].
End worker.

(** ** The parent *)

Definition GPTPS_XPORT_DEFAULT_IN_FLIGHT : Z := 64.
(** [pending]: a request not yet answered.  What a blocking one is answered with is in
    the record on its thread's stack, [x_done] below. *)
Record pending := Pending { p_id : Z; p_is_async : bool }.
(** [xport_worker]. *)
Record xlink := XLink { k_pend : list pending; k_npend : Z; k_dead : bool }.
#[export] Instance eta_xlink : Eta xlink := λ r, XLink (k_pend r) (k_npend r) (k_dead r).
Record xport := MkXport {
  x_w : list xlink; x_max_in_flight : Z; x_cursor : Z; x_next_id : Z; x_alive : list bool; x_nalive : Z }.
#[export] Instance eta_xport : Eta xport := λ r,
  MkXport (x_w r) (x_max_in_flight r) (x_cursor r) (x_next_id r) (x_alive r) (x_nalive r).
(** [gptps_xport_open_ex], once its workers are there. *)
Definition xport_open (n : nat) (max_in_flight : Z) : xport :=
  MkXport (replicate n (XLink [] 0 false)) (if max_in_flight =? 0 then GPTPS_XPORT_DEFAULT_IN_FLIGHT else max_in_flight)
    0 0 (replicate n true) (Z.of_nat n).
Definition set_link (i : nat) (f : xlink → xlink) (x : xport) : xport := x <| x_w ::= alter (M := list xlink) f i |>.

Definition mark_dead (i : nat) (x : xport) : xport :=
  match x_alive x !! i with
  | Some true => x <| x_alive ::= <[i := false]> |> <| x_nalive ::= λ n, n - 1 |>
  | _ => x
  end.
(** The loop of [next_rr], at most [k] slots. *)
Fixpoint rr_loop (k : nat) (x : xport) : option nat * xport :=
  match k with
  | O => (None, x)
  | S k =>
      let cand := Z.to_nat (x_cursor x mod Z.of_nat (length (x_w x))) in
      let x := x <| x_cursor ::= λ c, u64 (c + 1) |> in
      if default false (x_alive x !! cand) then (Some cand, x) else rr_loop k x
  end.
Definition next_rr (x : xport) : option nat * xport :=
  if x_nalive x =? 0 then (None, x) else rr_loop (length (x_w x)) x.
Definition new_id (x : xport) : Z * xport := let id := u64 (x_next_id x + 1) in (id, x <| x_next_id := id |>).

Fixpoint take_id (id : Z) (l : list pending) : option (pending * list pending) :=
  match l with
  | [] => None
  | p :: l => if p_id p =? id then Some (p, l) else (λ q, (q.1, p :: q.2)) <$> take_id id l
  end.
Definition pend_take (i : nat) (id : Z) (x : xport) : option pending * xport :=
  match k ← x_w x !! i; take_id id (k_pend k) with
  | Some (p, l) => (Some p, set_link i (λ k, k <| k_pend := l |> <| k_npend ::= λ n, u32 (n - 1) |>) x)
  | None => (None, x)
  end.
(** The section of [send_request] that registers a record. *)
Definition register (i : nat) (p : pending) (x : xport) : status * xport :=
  match x_w x !! i with
  | None => (GPTPS_E_IO, x)
  | Some k =>
      if k_dead k then (GPTPS_E_IO, x)
      else if x_max_in_flight x <=? k_npend k then (GPTPS_E_FULL, x)
      else (GPTPS_OK, set_link i (λ k, k <| k_pend ::= cons p |> <| k_npend ::= λ n, u32 (n + 1) |>) x)
  end.
(** [fail_all]: the records it fails, blocking and asynchronous. *)
Definition fail_all (i : nat) (x : xport) : list pending * xport :=
  let x := set_link i (λ k, k <| k_dead := true |>) x in
  let x := mark_dead i x in
  (from_option k_pend [] (x_w x !! i), set_link i (λ k, k <| k_pend := [] |> <| k_npend := 0 |>) x).
Definition xport_live (x : xport) : Z := x_nalive x.
Definition xport_in_flight (x : xport) : Z := foldr (λ k n, k_npend k + n) 0 (x_w x).

(** ** Requests over time *)

(** What a caller hears of a request: its submit's status, or - returned by a blocking
    submit, or by the callback - the reply, or that the link died. *)
Inductive outcome := Refused (st : status) | Answered (r : reply) | Lost.
(** Where a submit is: its link and id chosen, its record registered, its frame only
    half written, or - blocking - waiting. *)
Inductive stage := Chosen | Registered | Broken | Waiting.
Record call := Call { c_async : bool; c_link : nat; c_stage : stage }.
#[export] Instance eta_call : Eta call := λ c, Call (c_async c) (c_link c) (c_stage c).
(** [w_calls]: the submits under way, by their ids; [w_done]: the answers in the records
    of the blocking ones; [w_log]: what callers have heard. *)
Record world := World { w_x : xport; w_calls : gmap Z call; w_done : gmap Z outcome; w_log : list (Z * outcome) }.

(** A record completed: the blocking waiter's, or the callback called. *)
Definition complete (p : pending) (o : outcome) (w : world) : world :=
  if p_is_async p then World (w_x w) (w_calls w) (w_done w) (w_log w ++ [(p_id p, o)])
  else World (w_x w) (w_calls w) (<[p_id p := o]> (w_done w)) (w_log w).
(** The end of [send_request] when half a frame is on the wire. *)
Definition retract (id : Z) (c : call) (w : world) : world :=
  let '(mine, x) := pend_take (c_link c) id (w_x w) in
  World x (delete id (w_calls w)) (delete id (w_done w))
    (if bool_decide (is_Some mine) || negb (c_async c) then w_log w ++ [(id, Refused GPTPS_E_IO)] else w_log w).

Inductive step : world → world → Prop :=
  (** [next_rr], by a thread that may take its time with what it chose. *)
  | st_rotate x C D L : step (World x C D L) (World (next_rr x).2 C D L)
  | st_id i async x C D L : (i < length (x_w x))%nat → x_next_id x + 1 < 2 ^ 64 →
      step (World x C D L) (World (new_id x).2 (<[(new_id x).1 := Call async i Chosen]> C) D L)
  | st_register id async i x C D L : C !! id = Some (Call async i Chosen) →
      step (World x C D L)
        (if decide ((register i (Pending id async) x).1 = GPTPS_OK)
         then World (register i (Pending id async) x).2 (<[id := Call async i Registered]> C) D L
         else World (register i (Pending id async) x).2 (delete id C) D (L ++ [(id, Refused (register i (Pending id async) x).1)]))
  (** The frame is written: an asynchronous submit returns its id. *)
  | st_written id async i x C D L : C !! id = Some (Call async i Registered) →
      step (World x C D L) (World x (if async : bool then delete id C else <[id := Call async i Waiting]> C) D L)
  | st_broken id async i x C D L : C !! id = Some (Call async i Registered) →
      step (World x C D L) (World x (<[id := Call async i Broken]> C) D L)
  | st_retract id async i x C D L : C !! id = Some (Call async i Broken) →
      step (World x C D L) (retract id (Call async i Broken) (World x C D L))
  (** The reader of a live link has read a frame. *)
  | st_reply i k r x C D L : x_w x !! i = Some k → k_dead k = false →
      step (World x C D L)
        (match pend_take i (rp_id r) x with
         | (Some p, x) => complete p (Answered r) (World x C D L)
         | (None, x) => World x C D L
         end)
  (** It has reached the stream's end, or a frame not to be trusted. *)
  | st_retire i k x C D L : x_w x !! i = Some k → k_dead k = false →
      step (World x C D L) (foldl (λ w p, complete p Lost w) (World (fail_all i x).2 C D L) (fail_all i x).1)
  (** A blocking submit sees its record done. *)
  | st_return id i o x C D L : C !! id = Some (Call false i Waiting) → D !! id = Some o →
      step (World x C D L) (World x (delete id C) (delete id D) (L ++ [(id, o)])).
Definition reachable (n : nat) (max_in_flight : Z) : world → Prop := rtc step (World (xport_open n max_in_flight) ∅ ∅ []).

End Xport.
