(* ===== verification/XportFacts.v ===== *)
(** * One outcome per request

    Whatever the interleaving of the submitting threads, the readers and the links that
    die, a request's caller hears of it once: the accounts of the records behind that. *)

From S2P Require Import Prelude Engine Journal Wire Xport.

Module XportFacts.
Import Engine Journal Wire Xport.

(** ** Counting records *)

Definition is_rec (b : bool) (id : Z) (p : pending) : Prop := p_id p = id ∧ p_is_async p = b.
#[local] Instance is_rec_dec b id p : Decision (is_rec b id p).
Proof. unfold is_rec. apply _. Defined.
(** The blocking, or the asynchronous, records of an id: in a list, and over the links. *)
Definition cnt (b : bool) (id : Z) (l : list pending) : nat := length (filter (is_rec b id) l).
Definition recs (b : bool) (id : Z) (ks : list xlink) : nat := sum_list ((λ k, cnt b id (k_pend k)) <$> ks).
Definition told (id : Z) (L : list (Z * outcome)) : nat := length (filter (λ e, e.1 = id) L).

Lemma cnt_cons b id p l : cnt b id (p :: l) = ((if decide (is_rec b id p) then 1 else 0) + cnt b id l)%nat.
Proof. unfold cnt. rewrite filter_cons. by destruct (decide _). Qed.
Lemma cnt_perm b id l l' : l ≡ₚ l' → cnt b id l = cnt b id l'.
Proof. intros H. unfold cnt. by rewrite H. Qed.
Lemma cnt_app b id l l' : cnt b id (l ++ l') = (cnt b id l + cnt b id l')%nat.
Proof. unfold cnt. by rewrite filter_app, length_app. Qed.
Lemma cnt_elem p l : p ∈ l → (1 ≤ cnt (p_is_async p) (p_id p) l)%nat.
Proof.
  intros (l1 & l2 & ->)%list_elem_of_split. rewrite (cnt_perm _ _ _ (p :: l1 ++ l2)) by (symmetry; apply Permutation_middle).
  rewrite cnt_cons, decide_True by done. lia.
Qed.
Lemma cnt_none b id l : (∀ p, p ∈ l → p_id p ≠ id) → cnt b id l = 0%nat.
Proof.
  induction l as [|p l IH]; intros H; [done|]. rewrite cnt_cons, decide_False, IH; [done| |].
  - intros q Hq. apply H. by right.
  - intros [E _]. apply (H p); [left|done].
Qed.
Lemma told_app id L L' : told id (L ++ L') = (told id L + told id L')%nat.
Proof. unfold told. by rewrite filter_app, length_app. Qed.
Lemma told_one id id' o : told id [(id', o)] = (if decide (id' = id) then 1 else 0)%nat.
Proof. unfold told. rewrite filter_cons. simpl. by destruct (decide (id' = id)). Qed.
Lemma told_elem id L : (1 ≤ told id L)%nat ↔ id ∈ L.*1.
Proof.
  induction L as [|[i o] L IH]; unfold told in *; simpl; [split; [simpl; lia|by intros ?%elem_of_nil]|].
  rewrite filter_cons, elem_of_cons. simpl. destruct (decide (i = id)) as [->|N]; simpl; [split; [by left|lia]|].
  rewrite IH. split; [by right|by intros [E|]].
Qed.
Lemma told_NoDup L : (∀ id, (told id L ≤ 1)%nat) → NoDup L.*1.
Proof.
  induction L as [|[i o] L IH]; intros H; [constructor|].
  assert (HC : ∀ id, told id ((i, o) :: L) = (told id [(i, o)] + told id L)%nat) by (intros id; apply (told_app id [_] L)).
  simpl. constructor.
  - intros E%told_elem. specialize (H i). rewrite HC, told_one, decide_True in H by done. lia.
  - apply IH. intros id. specialize (H id). rewrite HC in H. lia.
Qed.

Lemma recs_cons b id k ks : recs b id (k :: ks) = (cnt b id (k_pend k) + recs b id ks)%nat.
Proof. done. Qed.
Lemma recs_alter b id f i ks k : ks !! i = Some k →
  (recs b id (alter f i ks) + cnt b id (k_pend k) = recs b id ks + cnt b id (k_pend (f k)))%nat.
Proof.
  revert i. induction ks as [|k' ks IH]; intros [|i] E; [done..| |].
  - injection E as ->. change (alter f 0%nat (k :: ks)) with (f k :: ks). rewrite !recs_cons. lia.
  - change (alter f (S i) (k' :: ks)) with (k' :: alter f i ks). rewrite !recs_cons. specialize (IH i E). lia.
Qed.
Lemma recs_elem i ks k p : ks !! i = Some k → p ∈ k_pend k → (1 ≤ recs (p_is_async p) (p_id p) ks)%nat.
Proof.
  revert i. induction ks as [|k' ks IH]; intros [|i] E Hp; [done..| |]; rewrite recs_cons.
  - injection E as ->. pose proof (cnt_elem _ _ Hp). lia.
  - pose proof (IH i E Hp). lia.
Qed.
Lemma recs_pos b id ks : (1 ≤ recs b id ks)%nat → ∃ i k p, ks !! i = Some k ∧ p ∈ k_pend k ∧ p_id p = id.
Proof.
  induction ks as [|k ks IH]; [unfold recs; simpl; lia|]. rewrite recs_cons. intros H.
  destruct (cnt b id (k_pend k)) as [|m] eqn:E.
  - destruct IH as (i & k' & p & ?); [lia|]. by exists (S i), k', p.
  - unfold cnt in E. destruct (filter _ _) as [|p l] eqn:F; [done|].
    assert (Hp : p ∈ filter (is_rec b id) (k_pend k)) by (rewrite F; left).
    apply list_elem_of_filter in Hp as [[??] ?]. by exists 0%nat, k, p.
Qed.

Lemma recs_nil b id ks : (∀ k, k ∈ ks → k_pend k = []) → recs b id ks = 0%nat.
Proof.
  intros H. destruct (recs b id ks) as [|m] eqn:E; [done|]. destruct (recs_pos b id ks) as (i & k & p & Hk & Hp & _); [lia|].
  rewrite (H k) in Hp by (by eapply list_elem_of_lookup_2). by apply elem_of_nil in Hp.
Qed.
Lemma take_id_Some id l p l' : take_id id l = Some (p, l') → p_id p = id ∧ l ≡ₚ p :: l'.
Proof.
  revert p l'. induction l as [|q l IH]; intros p l' E; simpl in E; [done|].
  destruct (Z.eqb_spec (p_id q) id) as [Hq|Hq]; [by simplify_eq|].
  destruct (take_id id l) as [[p1 l1]|] eqn:E1; simplify_eq/=. destruct (IH p l1) as [? HP]; [done|].
  split; [done|]. rewrite HP. apply Permutation_swap.
Qed.
Lemma take_id_None id l : take_id id l = None → ∀ p, p ∈ l → p_id p ≠ id.
Proof.
  induction l as [|q l IH]; simpl; intros E p Hp; [by apply elem_of_nil in Hp|].
  destruct (Z.eqb_spec (p_id q) id) as [Hq|Hq]; [done|]. destruct (take_id id l); [done|].
  apply elem_of_cons in Hp as [->|Hp]; [done|by apply IH].
Qed.

(** ** The accounts *)

(** A submit under way owes its caller an outcome itself, unless it is asynchronous and
    its record is out; a blocking one whose record is out waits for that. *)
Definition held (c : option call) : nat :=
  match c with
  | Some c => if c_async c then match c_stage c with Chosen => 1 | _ => 0 end else 1
  | None => 0
  end.
Definition owing (c : option call) : nat :=
  match c with
  | Some c => if c_async c then 0 else match c_stage c with Chosen => 0 | _ => 1 end
  | None => 0
  end.
Definition given {A} (o : option A) : nat := match o with Some _ => 1 | None => 0 end.
Definition issued (next id : Z) : nat := if decide (1 ≤ id ≤ next) then 1 else 0.

(** [l]: the records taken from their list and not completed yet. *)
Record inv (l : list pending) (w : world) : Prop := {
  v_told : ∀ id, (told id (w_log w) + recs true id (x_w (w_x w)) + cnt true id l + held (w_calls w !! id) =
    issued (x_next_id (w_x w)) id)%nat;
  v_owed : ∀ id, (recs false id (x_w (w_x w)) + cnt false id l + given (w_done w !! id) = owing (w_calls w !! id))%nat;
  v_home : ∀ i k p c, x_w (w_x w) !! i = Some k → p ∈ k_pend k → w_calls w !! p_id p = Some c → c_link c = i;
  v_room : ∀ i k, x_w (w_x w) !! i = Some k → k_npend k = Z.of_nat (length (k_pend k)) ∧
    k_npend k ≤ x_max_in_flight (w_x w) ∧ (k_dead k = true → k_pend k = []);
  v_max : 0 ≤ x_max_in_flight (w_x w) < 2 ^ 32;
  v_next : 0 ≤ x_next_id (w_x w);
  v_own : ∀ id r, (id, Answered r) ∈ w_log w ∨ w_done w !! id = Some (Answered r) → rp_id r = id }.

(** Of one id: the cases of every account. *)
Ltac account id id' :=
  destruct (decide (id = id')) as [->|?]; rewrite ?lookup_insert_eq, ?lookup_delete_eq, ?lookup_insert_ne, ?lookup_delete_ne by done.

Lemma inv_complete p l o w : inv (p :: l) w → (∀ r, o = Answered r → rp_id r = p_id p) → inv l (complete p o w).
Proof.
  intros [H1 H2 H3 H4 H5 H6 H7] Ho. unfold complete. destruct (p_is_async p) eqn:Ea; constructor; simpl; try done.
  - intros id. specialize (H1 id). rewrite cnt_cons in H1. rewrite told_app, told_one.
    destruct (decide (p_id p = id)) as [E|E]; [rewrite decide_True in H1 by done; lia|].
    rewrite decide_False in H1 by (by intros [??]). lia.
  - intros id. specialize (H2 id). rewrite cnt_cons, decide_False in H2 by (intros [??]; congruence). lia.
  - intros id r [Hr|Hr]; [|by apply H7; right]. apply elem_of_app in Hr as [Hr|Hr%list_elem_of_singleton]; [by apply H7; left|].
    simplify_eq. by apply Ho.
  - intros id. specialize (H1 id). rewrite cnt_cons, decide_False in H1 by (intros [??]; congruence). lia.
  - intros id. specialize (H2 id). rewrite cnt_cons in H2. account id (p_id p).
    + rewrite decide_True in H2 by done. assert (owing (w_calls w !! p_id p) ≤ 1)%nat
        by (unfold owing; repeat case_match; lia). simpl. destruct (w_done w !! p_id p); simpl in *; lia.
    + rewrite decide_False in H2 by (by intros [??]). lia.
  - intros id r [Hr|Hr]; [by apply H7; left|]. account id (p_id p).
    + rewrite lookup_insert_eq in Hr. simplify_eq. by apply Ho.
    + rewrite lookup_insert_ne in Hr by done. apply H7. by right.
Qed.
Lemma inv_lost l w : inv l w → inv [] (foldl (λ w p, complete p Lost w) w l).
Proof. revert w. induction l as [|p l IH]; intros w H; simpl; [done|]. by apply IH, inv_complete. Qed.

(** ** The links *)

Lemma set_link_w i f x : x_w (set_link i f x) = alter f i (x_w x).
Proof. done. Qed.
Lemma set_link_lookup i f x j : x_w (set_link i f x) !! j = if decide (i = j) then f <$> x_w x !! j else x_w x !! j.
Proof.
  rewrite set_link_w. destruct (decide (i = j)) as [->|N];
    [apply list_lookup_alter_eq|by apply list_lookup_alter_ne].
Qed.
Lemma mark_dead_keeps i x : x_w (mark_dead i x) = x_w x ∧ x_max_in_flight (mark_dead i x) = x_max_in_flight x ∧
  x_next_id (mark_dead i x) = x_next_id x.
Proof. unfold mark_dead. by destruct (x_alive x !! i) as [[]|]. Qed.
Lemma rr_keeps k x : x_w (rr_loop k x).2 = x_w x ∧ x_max_in_flight (rr_loop k x).2 = x_max_in_flight x ∧
  x_next_id (rr_loop k x).2 = x_next_id x.
Proof.
  revert x. induction k as [|k IH]; intros x; [done|]. cbn [rr_loop]. case_match; [done|].
  destruct (IH (x <| x_cursor ::= λ c, u64 (c + 1) |>)) as (H1 & H2 & H3). split_and!; [exact H1|exact H2|exact H3].
Qed.
Lemma next_rr_keeps x : x_w (next_rr x).2 = x_w x ∧ x_max_in_flight (next_rr x).2 = x_max_in_flight x ∧
  x_next_id (next_rr x).2 = x_next_id x.
Proof. unfold next_rr. case_match; [done|apply rr_keeps]. Qed.

(** The invariant reads the links, the bound and the last id only. *)
Lemma inv_ext l x x' C D L : x_w x' = x_w x → x_max_in_flight x' = x_max_in_flight x → x_next_id x' = x_next_id x →
  inv l (World x C D L) → inv l (World x' C D L).
Proof. intros E1 E2 E3 [H1 H2 H3 H4 H5 H6 H7]. constructor; simpl in *; rewrite ?E1, ?E2, ?E3; done. Qed.

(** Records leave their list: their link's state afterwards is [f k]. *)
Lemma inv_leave i k f gone x C D L : x_w x !! i = Some k → k_pend k ≡ₚ gone ++ k_pend (f k) →
  (k_npend (f k) = Z.of_nat (length (k_pend (f k))) ∧ k_npend (f k) ≤ x_max_in_flight x ∧ (k_dead (f k) = true → k_pend (f k) = [])) →
  inv [] (World x C D L) → inv gone (World (set_link i f x) C D L).
Proof.
  intros Ek HP Hroom [H1 H2 H3 H4 H5 H6 H7]. simpl in *.
  assert (HR : ∀ b id, (recs b id (alter f i (x_w x)) + cnt b id gone = recs b id (x_w x))%nat).
  { intros b id. pose proof (recs_alter b id f i (x_w x) k Ek) as R. rewrite (cnt_perm b id _ _ HP) in R.
    rewrite cnt_app in R. lia. }
  constructor; simpl; try done.
  - intros id. specialize (H1 id). specialize (HR true id). change (cnt true id []) with 0%nat in H1. lia.
  - intros id. specialize (H2 id). specialize (HR false id). change (cnt false id []) with 0%nat in H2. lia.
  - intros j k' p c E Hp Hc. rewrite <-set_link_w, set_link_lookup in E. destruct (decide (i = j)) as [->|N]; [|by eapply H3].
    rewrite Ek in E. simplify_eq/=. eapply H3; [done| |done]. rewrite HP. apply elem_of_app. by right.
  - intros j k' E. rewrite <-set_link_w, set_link_lookup in E. destruct (decide (i = j)) as [->|N]; [|by eapply H4].
    rewrite Ek in E. by simplify_eq/=.
Qed.

Lemma inv_take i id p x x' C D L : pend_take i id x = (Some p, x') → inv [] (World x C D L) →
  p_id p = id ∧ inv [p] (World x' C D L).
Proof.
  unfold pend_take. intros E HI. destruct (x_w x !! i) as [k|] eqn:Ek; [simpl in E|done].
  destruct (take_id id (k_pend k)) as [[p' l']|] eqn:Et; simplify_eq/=.
  destruct (take_id_Some _ _ _ _ Et) as [? HP]. split; [done|].
  destruct (v_room _ _ HI i k Ek) as (Hn & Hm & Hd). pose proof (v_max _ _ HI) as Hx. simpl in Hm, Hx.
  assert (Hl : length (k_pend k) = S (length l')) by (by rewrite HP).
  eapply inv_leave; [done|exact HP| |done]. cbn [k_pend k_npend k_dead update].
  simpl. rewrite Hn, Hl, u32_small by lia. split_and!; [lia|lia|].
  intros Hk. rewrite (Hd Hk) in Hl. done.
Qed.
Lemma take_none i id x x' : pend_take i id x = (None, x') →
  x' = x ∧ ∀ k p, x_w x !! i = Some k → p ∈ k_pend k → p_id p ≠ id.
Proof.
  unfold pend_take. intros E. destruct (x_w x !! i) as [k|] eqn:Ek; simpl in E; [|by injection E as <-].
  destruct (take_id id (k_pend k)) as [[p' l']|] eqn:Et; simplify_eq/=. split; [done|].
  intros k' p ?. simplify_eq. by apply take_id_None.
Qed.
Lemma inv_fail i k x C D L : x_w x !! i = Some k → inv [] (World x C D L) →
  (fail_all i x).1 = k_pend k ∧ inv (k_pend k) (World (fail_all i x).2 C D L).
Proof.
  intros Ek HI. set (x1 := set_link i (λ k, k <| k_dead := true |>) x).
  destruct (mark_dead_keeps i x1) as (M1 & M2 & M3).
  assert (E1 : x_w (mark_dead i x1) !! i = Some (k <| k_dead := true |>))
    by (rewrite M1; unfold x1; by rewrite set_link_lookup, decide_True, Ek by done).
  change (fail_all i x) with (from_option k_pend [] (x_w (mark_dead i x1) !! i),
    set_link i (λ k, k <| k_pend := [] |> <| k_npend := 0 |>) (mark_dead i x1)).
  cbn [fst snd]. rewrite E1. split; [done|]. pose proof (v_max _ _ HI) as Hm. simpl in Hm.
  eapply (inv_ext _ (set_link i (λ k, k <| k_dead := true |> <| k_pend := [] |> <| k_npend := 0 |>) x)).
  - rewrite !set_link_w, M1. unfold x1. rewrite set_link_w. apply (list_eq (A := xlink)). intros j. rewrite !list_lookup_alter.
    destruct (decide (i = j)) as [->|]; [|done]. rewrite decide_True by done. by destruct (x_w x !! j).
  - simpl. by rewrite M2.
  - simpl. by rewrite M3.
  - eapply inv_leave; [done| |simpl; split_and!; [done|lia|done]|done]. simpl. by rewrite app_nil_r.
Qed.

(** ** The submits *)

(** An id nobody has anything to do with has no record. *)
Lemma no_record w id i k p : inv [] w → held (w_calls w !! id) = 0%nat ∧ owing (w_calls w !! id) = 0%nat →
  issued (x_next_id (w_x w)) id = 0%nat → x_w (w_x w) !! i = Some k → p ∈ k_pend k → p_id p ≠ id.
Proof.
  intros HI [Hh Ho] Hn Ek Hp <-. pose proof (recs_elem _ _ _ _ Ek Hp) as R.
  pose proof (v_told _ _ HI (p_id p)). pose proof (v_owed _ _ HI (p_id p)). destruct (p_is_async p); lia.
Qed.
Lemma held_owing c : held c = 0%nat → owing c = 0%nat.
Proof. destruct c as [[[] i []]|]; simpl; lia. Qed.

Lemma inv_new i async x C D L : x_next_id x + 1 < 2 ^ 64 → inv [] (World x C D L) →
  inv [] (World (new_id x).2 (<[(new_id x).1 := Call async i Chosen]> C) D L).
Proof.
  intros Hb HI. pose proof (v_next _ _ HI) as Hn. simpl in Hn. unfold new_id. cbn [fst snd]. rewrite u64_small by lia.
  set (id := x_next_id x + 1).
  assert (Hi : issued (x_next_id x) id = 0%nat) by (unfold issued; rewrite decide_False by lia; done).
  assert (Hh : held (C !! id) = 0%nat) by (pose proof (v_told _ _ HI id) as T; simpl in T; lia).
  assert (Hr := λ j k p, no_record _ id j k p HI (conj Hh (held_owing _ Hh)) Hi).
  destruct HI as [H1 H2 H3 H4 H5 H6 H7]. simpl in *. constructor; simpl; try done; [| | |lia].
  - intros id'. specialize (H1 id'). account id' id; unfold issued in *.
    + rewrite decide_True by lia. rewrite decide_False in H1 by lia. destruct async; simpl; lia.
    + rewrite H1. by repeat case_decide; try lia.
  - intros id'. specialize (H2 id'). account id' id; [|done]. rewrite H2, (held_owing _ Hh). by destruct async.
  - intros j k p c Ek Hp Hc. rewrite lookup_insert_ne in Hc by (symmetry; by eapply Hr). by eapply H3.
Qed.

(** A submit that goes on, as far as anyone else can tell. *)
Lemma inv_stage id c c' x C D L : C !! id = Some c → held (Some c') = held (Some c) → owing (Some c') = owing (Some c) →
  c_link c' = c_link c → inv [] (World x C D L) → inv [] (World x (<[id := c']> C) D L).
Proof.
  intros Ec Eh Eo El [H1 H2 H3 H4 H5 H6 H7]. cbn [w_x w_calls w_done w_log] in *. constructor; cbn [w_x w_calls w_done w_log]; try done.
  - intros id'. specialize (H1 id'). account id' id; [|done]. by rewrite Eh, <-Ec.
  - intros id'. specialize (H2 id'). account id' id; [|done]. by rewrite Eo, <-Ec.
  - intros i k p c0 Ek Hp Hc. destruct (decide (p_id p = id)) as [<-|N].
    + rewrite lookup_insert_eq in Hc. simplify_eq. rewrite El. by eapply H3.
    + rewrite lookup_insert_ne in Hc by done. by eapply H3.
Qed.
(** A submit that ends and says [o], its record out or taken back. *)
Lemma inv_end l id c (o : option outcome) x C D L : C !! id = Some c → (∀ p, p ∈ l → p_id p = id) →
  recs false id (x_w x) = 0%nat → given o = (held (Some c) + cnt true id l)%nat → (∀ r, o = Some (Answered r) → rp_id r = id) →
  inv l (World x C D L) → inv [] (World x (delete id C) (delete id D) (L ++ from_option (λ o, [(id, o)]) [] o)).
Proof.
  intros Ec Hl Hr Ho Hw [H1 H2 H3 H4 H5 H6 H7]. cbn [w_x w_calls w_done w_log] in *.
  assert (Hcnt : ∀ b id', id' ≠ id → cnt b id' l = 0%nat)
    by (intros b id' N; apply cnt_none; intros p Hp; rewrite (Hl p Hp); congruence).
  assert (Hadd : ∀ id', told id' (from_option (λ o, [(id, o)]) [] o) = (if decide (id = id') then given o else 0)%nat).
  { intros id'. destruct o as [o|]; simpl; [by rewrite told_one|by destruct (decide _)]. }
  constructor; cbn [w_x w_calls w_done w_log]; try done.
  - intros id'. specialize (H1 id'). rewrite told_app, Hadd. account id' id.
    + rewrite decide_True by done. rewrite Ec in H1. change (cnt true id []) with 0%nat. change (held None) with 0%nat. lia.
    + rewrite decide_False, (Hcnt true id') in * by congruence. change (cnt true id' []) with 0%nat. lia.
  - intros id'. specialize (H2 id'). account id' id; [by rewrite Hr|]. by rewrite Hcnt in H2 by done.
  - intros i k p c0 Ek Hp Hc. apply lookup_delete_Some in Hc as [_ Hc]. by eapply H3.
  - intros id' r [E|E].
    + apply elem_of_app in E as [E|E]; [by apply H7; left|]. destruct o as [o|]; simpl in E; [|by apply elem_of_nil in E].
      apply list_elem_of_singleton in E. simplify_eq. by apply Hw.
    + apply lookup_delete_Some in E as [_ E]. apply H7. by right.
Qed.
(** Its answer never arrived: nothing is recorded for it. *)
Lemma inv_end_unanswered id c (o : option outcome) x C D L : C !! id = Some c → owing (Some c) = 0%nat →
  given o = held (Some c) → (∀ r, o ≠ Some (Answered r)) →
  inv [] (World x C D L) → inv [] (World x (delete id C) D (L ++ from_option (λ o, [(id, o)]) [] o)).
Proof.
  intros Ec Eo Ho Hw HI. pose proof (v_owed _ _ HI id) as H2. simpl in H2. rewrite Ec, Eo in H2.
  assert (ED : delete id D = D) by (apply delete_id; destruct (D !! id); [simpl in H2; lia|done]). rewrite <-ED.
  eapply inv_end; [done|by intros p ?%elem_of_nil|lia| |by intros r ?%Hw|done].
  change (cnt true id []) with 0%nat. lia.
Qed.

Lemma inv_register id async i x C D L : C !! id = Some (Call async i Chosen) → inv [] (World x C D L) →
  inv [] (if decide ((register i (Pending id async) x).1 = GPTPS_OK)
    then World (register i (Pending id async) x).2 (<[id := Call async i Registered]> C) D L
    else World (register i (Pending id async) x).2 (delete id C) D (L ++ [(id, Refused (register i (Pending id async) x).1)])).
Proof.
  intros Ec HI. unfold register.
  assert (Href : ∀ st, inv [] (World x (delete id C) D (L ++ [(id, Refused st)])))
    by (intros st; by eapply (inv_end_unanswered _ _ (Some (Refused st))); destruct async).
  destruct (x_w x !! i) as [k|] eqn:Ek; [|by apply Href]. destruct (k_dead k) eqn:Ed; [by apply Href|].
  destruct (Z.leb_spec (x_max_in_flight x) (k_npend k)) as [|Hroom]; [by apply Href|]. clear Href. cbn [fst snd].
  rewrite decide_True by done. destruct HI as [H1 H2 H3 H4 H5 H6 H7]. cbn [w_x w_calls w_done w_log] in *.
  set (f := λ k, k <| k_pend ::= cons (Pending id async) |> <| k_npend ::= λ n, u32 (n + 1) |>).
  assert (HR : ∀ b id', recs b id' (alter f i (x_w x)) = (recs b id' (x_w x) + cnt b id' [Pending id async])%nat).
  { intros b id'. pose proof (recs_alter b id' f i (x_w x) k Ek) as R.
    change (k_pend (f k)) with ([Pending id async] ++ k_pend k) in R. rewrite cnt_app in R. lia. }
  constructor; cbn [w_x w_calls w_done w_log]; rewrite ?set_link_w; try done.
  - intros id'. specialize (H1 id'). rewrite HR, cnt_cons. unfold is_rec. simpl. change (cnt true id' []) with 0%nat in *. account id' id.
    + rewrite Ec in H1. destruct async; simpl in *; repeat case_decide; naive_solver lia.
    + rewrite decide_False by naive_solver. lia.
  - intros id'. specialize (H2 id'). rewrite HR, cnt_cons. unfold is_rec. simpl. change (cnt false id' []) with 0%nat in *. account id' id.
    + rewrite Ec in H2. destruct async; simpl in *; repeat case_decide; naive_solver lia.
    + rewrite decide_False by naive_solver. lia.
  - intros j k' p c Hk Hp Hc. rewrite <-set_link_w, set_link_lookup in Hk. destruct (decide (p_id p = id)) as [<-|Nid].
    + rewrite lookup_insert_eq in Hc. simplify_eq. destruct (decide (i = j)) as [->|N]; [done|]. by eapply (H3 j _ p (Call async i Chosen)).
    + rewrite lookup_insert_ne in Hc by done. destruct (decide (i = j)) as [->|N]; [|by eapply H3].
      rewrite Ek in Hk. simplify_eq/=. apply elem_of_cons in Hp as [->|Hp]; [done|]. by eapply H3.
  - intros j k' Hk. rewrite <-set_link_w, set_link_lookup in Hk. destruct (decide (i = j)) as [->|N]; [|by eapply H4].
    rewrite Ek in Hk. destruct (H4 j k Ek) as (Hn & Hm & Hd). simplify_eq/=. rewrite u32_small by lia.
    split_and!; [lia|lia|congruence].
Qed.

Lemma inv_retract id async i x C D L : C !! id = Some (Call async i Broken) → inv [] (World x C D L) →
  inv [] (retract id (Call async i Broken) (World x C D L)).
Proof.
  intros Ec HI. unfold retract. cbn [c_link c_async w_x w_calls w_done w_log].
  destruct (pend_take i id x) as [[p|] x'] eqn:Et.
  - destruct (inv_take _ _ _ _ _ _ _ _ Et HI) as [<- HI']. rewrite bool_decide_true by done. cbn [orb].
    pose proof (v_told _ _ HI' (p_id p)) as T. pose proof (v_owed _ _ HI' (p_id p)) as O. simpl in T, O. rewrite Ec in T, O.
    assert (Hi : ∀ b, (issued (x_next_id x') b ≤ 1)%nat) by (intros b; unfold issued; case_decide; lia). specialize (Hi (p_id p)).
    pose proof (cnt_elem p [p]) as P. specialize (P ltac:(left)).
    apply (inv_end [p] _ _ (Some (Refused GPTPS_E_IO)) _ _ _ _ Ec); [by intros q ->%list_elem_of_singleton| | |done|done].
    + destruct (p_is_async p), async; simpl in *; lia.
    + destruct (p_is_async p), async; simpl in *; lia.
  - destruct (take_none _ _ _ _ Et) as [-> Hno]. destruct async; cbn [negb orb]; rewrite ?orb_true_r.
    + rewrite bool_decide_false by (by intros [??]). cbn [orb].
      pose proof (v_owed _ _ HI id) as O. simpl in O. rewrite Ec in O. simpl in O. rewrite <-(app_nil_r L) at 1.
      apply (inv_end [] _ _ None _ _ _ _ Ec); [by intros ? ?%elem_of_nil|lia|done|done|done].
    + apply (inv_end [] _ _ (Some (Refused GPTPS_E_IO)) _ _ _ _ Ec); [by intros ? ?%elem_of_nil| |done|done|done].
      destruct (recs false id (x_w x)) as [|m] eqn:E; [done|]. destruct (recs_pos false id (x_w x)) as (j & k & p & Hk & Hp & Hi); [lia|].
      pose proof (v_home _ _ HI j k p (Call false i Broken) Hk Hp) as Hh. simpl in Hh. rewrite Hi in Hh. specialize (Hh Ec). subst j.
      by destruct (Hno k p Hk Hp).
Qed.

Lemma inv_step w w' : step w w' → inv [] w → inv [] w'.
Proof.
  intros [x C D L|i async x C D L _ Hb|id async i x C D L Ec|id async i x C D L Ec|id async i x C D L Ec|id async i x C D L Ec
    |i k r x C D L Ek _|i k x C D L Ek _|id i o x C D L Ec Ed] HI.
  - destruct (next_rr_keeps x) as (?&?&?). by eapply inv_ext.
  - by apply inv_new.
  - by apply inv_register.
  - destruct async; [|by eapply inv_stage]. rewrite <-(app_nil_r L). by apply (inv_end_unanswered _ _ None _ _ _ _ Ec).
  - by destruct async; eapply inv_stage.
  - by apply inv_retract.
  - destruct (pend_take i (rp_id r) x) as [[p|] x'] eqn:Et; [|by apply take_none in Et as [-> _]].
    destruct (inv_take _ _ _ _ _ _ _ _ Et HI) as [Hp HI']. apply inv_complete; [done|]. by intros r' [= <-].
  - destruct (inv_fail i k x C D L Ek HI) as [-> HI']. by apply inv_lost.
  - pose proof (v_owed _ _ HI id) as O. simpl in O. rewrite Ec, Ed in O. simpl in O.
    apply (inv_end [] _ _ (Some o) _ _ _ _ Ec); [by intros ? ?%elem_of_nil|lia|done| |done].
    intros r [= ->]. apply (v_own _ _ HI). by right.
Qed.
Lemma inv_reachable n m w : 0 ≤ m < 2 ^ 32 → reachable n m w → inv [] w.
Proof.
  intros Hm H. apply (rtc_ind_r (inv [])) in H; [done| |intros y z _ Hs; by apply inv_step].
  assert (Hk : ∀ k : xlink, k ∈ replicate n (XLink [] 0 false) → k = XLink [] 0 false) by (by intros k [-> _]%elem_of_replicate).
  assert (Hx : 0 ≤ x_max_in_flight (xport_open n m) < 2 ^ 32)
    by (simpl; unfold GPTPS_XPORT_DEFAULT_IN_FLIGHT; destruct (m =? 0); lia).
  constructor; cbn [w_x w_calls w_done w_log]; try done.
  - intros id. change (x_w (xport_open n m)) with (replicate n (XLink [] 0 false)). rewrite recs_nil by (by intros k ->%Hk).
    rewrite lookup_empty. simpl. unfold issued. by rewrite decide_False by lia.
  - intros id. change (x_w (xport_open n m)) with (replicate n (XLink [] 0 false)). rewrite recs_nil by (by intros k ->%Hk). done.
  - intros i k E. apply list_elem_of_lookup_2, Hk in E as ->. simpl in *. split_and!; [done|lia|done].
  - intros id r [E|E]; [by apply elem_of_nil in E|done].
Qed.

(** C34: the transport's contract with its callers, "exactly one outcome".  In any
    interleaving of submitting threads, readers and dying links, each request's caller
    hears of it at most once; what it hears as an answer is the reply to its own
    request; a link never holds more than [max_in_flight] records, and its counter
    counts them; a blocking submit waiting on a link that has died finds its record
    completed; and once no submit is under way and every link has died, every id that was
    handed out has had its outcome - also the ones whose frame was cut short while the
    reader was failing the link. *)
Theorem request_has_one_outcome n max_in_flight w : 0 ≤ max_in_flight < 2 ^ 32 → reachable n max_in_flight w →
  NoDup (w_log w).*1 ∧
  (∀ id r, (id, Answered r) ∈ w_log w → rp_id r = id) ∧
  (∀ k, k ∈ x_w (w_x w) → k_npend k = Z.of_nat (length (k_pend k)) ∧ k_npend k ≤ x_max_in_flight (w_x w)) ∧
  (∀ id i k, w_calls w !! id = Some (Call false i Waiting) → x_w (w_x w) !! i = Some k → k_dead k = true →
    is_Some (w_done w !! id)) ∧
  (w_calls w = ∅ → (∀ k, k ∈ x_w (w_x w) → k_dead k = true) → ∀ id, 1 ≤ id ≤ x_next_id (w_x w) ↔ id ∈ (w_log w).*1).
Proof.
  intros Hm HI%inv_reachable; [|done]. split_and!.
  - apply told_NoDup. intros id. pose proof (v_told _ _ HI id) as T. unfold issued in T. case_decide; lia.
  - intros id r E. apply (v_own _ _ HI). by left.
  - intros k [i E]%list_elem_of_lookup. destruct (v_room _ _ HI i k E) as (?&?&_). done.
  - intros id i k Ec Ek Hd. pose proof (v_owed _ _ HI id) as O. rewrite Ec in O. simpl in O.
    destruct (w_done w !! id) as [o|]; [done|]. exfalso. simpl in O. change (cnt false id []) with 0%nat in O.
    destruct (recs_pos false id (x_w (w_x w))) as (j & k' & p & Hk & Hp & Hi); [lia|].
    pose proof (v_home _ _ HI j k' p (Call false i Waiting) Hk Hp) as Hh. rewrite Hi in Hh. specialize (Hh Ec). simpl in Hh. subst j.
    assert (k' = k) as -> by congruence.
    destruct (v_room _ _ HI i k Ek) as (_ & _ & Hn). rewrite (Hn Hd) in Hp. by apply elem_of_nil in Hp.
  - intros HC Hd id. rewrite <-told_elem. pose proof (v_told _ _ HI id) as T. rewrite HC, lookup_empty in T. simpl in T.
    rewrite recs_nil in T; [change (cnt true id []) with 0%nat in T; unfold issued in T; case_decide; lia|].
    intros k Hk. specialize (Hd k Hk). apply list_elem_of_lookup in Hk as [i E]. by destruct (v_room _ _ HI i k E) as (_ & _ & Hn); apply Hn.
Qed.

(** An asynchronous request whose frame was cut short: the reader has failed its link,
    and told the callback, before the submit could take the record back. *)
Definition cut_short : world := World (MkXport [XLink [] 0 true] 4 0 1 [false] 0) ∅ ∅ [(1, Lost)].
Ltac evaluate := match goal with |- rtc step ?w _ => let v := eval vm_compute in w in change w with v end.
Lemma request_has_one_outcome_witness :
  w_log cut_short = [(1, Lost)] ∧ ∀ id, 1 ≤ id ≤ 1 ↔ id ∈ (w_log cut_short).*1.
Proof.
  assert (R : reachable 1 4 cut_short).
  { unfold reachable. evaluate.
    eapply rtc_l; [eapply (st_id 0 true); vm_compute; [lia|reflexivity]|]. evaluate.
    eapply rtc_l; [eapply (st_register 1 true 0); reflexivity|]. evaluate.
    eapply rtc_l; [eapply (st_broken 1 true 0); reflexivity|]. evaluate.
    eapply rtc_l; [eapply (st_retire 0); reflexivity|]. evaluate.
    eapply rtc_l; [eapply (st_retract 1 true 0); reflexivity|]. evaluate.
    apply rtc_refl. }
  split; [reflexivity|]. destruct (request_has_one_outcome 1 4 cut_short) as (_ & _ & _ & _ & H); [lia|exact R|].
  apply H; [reflexivity|]. by intros k ->%list_elem_of_singleton.
Defined.

End XportFacts.
