(* ===== verification/Remote.v ===== *)
(** * The remote wire codec: [src/addons/gptps_remote.c]

    Frames between machines, byte by byte in big-endian order: the header, the codes a
    status travels as, and the payload of a request.  What a decoder accepts is exactly
    what an encoder writes, within the cap, and it reads back to what was meant. *)

From S2P Require Import Prelude Engine Journal JournalFacts.
From Stdlib Require Import Btauto.

Module Remote.
Import Engine Journal JournalFacts.

(** ** Big-endian integers *)

Definition u8 (v : Z) : Z := Z.land v 255.
Definition at_ (p : list Z) (i : nat) : Z := default 0 (p !! i).
Definition put_u16 (v : Z) : list Z := [u8 (Z.shiftr v 8); u8 v].
Definition put_u32 (v : Z) : list Z := [u8 (Z.shiftr v 24); u8 (Z.shiftr v 16); u8 (Z.shiftr v 8); u8 v].
Definition put_u64 (v : Z) : list Z :=
  [u8 (Z.shiftr v 56); u8 (Z.shiftr v 48); u8 (Z.shiftr v 40); u8 (Z.shiftr v 32);
   u8 (Z.shiftr v 24); u8 (Z.shiftr v 16); u8 (Z.shiftr v 8); u8 v].
Definition get_u16 (p : list Z) : Z := Z.lor (Z.shiftl (at_ p 0) 8) (at_ p 1).
Definition get_u32 (p : list Z) : Z :=
  Z.lor (Z.lor (Z.lor (Z.shiftl (at_ p 0) 24) (Z.shiftl (at_ p 1) 16)) (Z.shiftl (at_ p 2) 8)) (at_ p 3).
Definition get_u64 (p : list Z) : Z :=
  Z.lor (Z.lor (Z.lor (Z.lor (Z.lor (Z.lor (Z.lor (Z.shiftl (at_ p 0) 56) (Z.shiftl (at_ p 1) 48))
    (Z.shiftl (at_ p 2) 40)) (Z.shiftl (at_ p 3) 32)) (Z.shiftl (at_ p 4) 24)) (Z.shiftl (at_ p 5) 16)) (Z.shiftl (at_ p 6) 8)) (at_ p 7).

(** ** Statuses *)

Definition GPTPS_RW_UNKNOWN : Z := 65535.
Definition status_to_wire (s : status) : Z :=
  match s with
  | GPTPS_OK => 0 | GPTPS_E_INVAL => 1 | GPTPS_E_NOTFOUND => 2 | GPTPS_E_BUDGET => 3 | GPTPS_E_TIMEOUT => 4
  | GPTPS_E_CANCELLED => 5 | GPTPS_E_IO => 6 | GPTPS_E_NOMEM => 7 | GPTPS_E_DENIED => 8 | GPTPS_E_FULL => 9
  | GPTPS_E_SHUTDOWN => 10 | GPTPS_E_TASK => 11 | GPTPS_E_DUP => 12 | GPTPS_E_ABI => 13 | GPTPS_E_CONFIG => 14
  | GPTPS_E_BUSY => 15
  end.
Definition status_from_wire (w : Z) : status :=
  match w with
  | 0 => GPTPS_OK | 1 => GPTPS_E_INVAL | 2 => GPTPS_E_NOTFOUND | 3 => GPTPS_E_BUDGET | 4 => GPTPS_E_TIMEOUT
  | 5 => GPTPS_E_CANCELLED | 6 => GPTPS_E_IO | 7 => GPTPS_E_NOMEM | 8 => GPTPS_E_DENIED | 9 => GPTPS_E_FULL
  | 10 => GPTPS_E_SHUTDOWN | 11 => GPTPS_E_TASK | 12 => GPTPS_E_DUP | 13 => GPTPS_E_ABI | 14 => GPTPS_E_CONFIG
  | 15 => GPTPS_E_BUSY
  | _ => GPTPS_E_IO
  end.

(** ** The header *)

Definition GPTPS_REMOTE_MAGIC : Z := 0x47505452.
Definition GPTPS_REMOTE_VERSION : Z := 1.
Definition GPTPS_REMOTE_HDR_SIZE : Z := 24.
Definition GPTPS_REMOTE_MAX_PAYLOAD : Z := 1024 * 1024.
Definition GPTPS_REMOTE_REQUEST : Z := 1.
Definition GPTPS_REMOTE_REPLY : Z := 2.
Definition GPTPS_REMOTE_CANCEL : Z := 3.
Definition GPTPS_REMOTE_PING : Z := 4.
Record remote_hdr := Hdr { h_magic : Z; h_version : Z; h_kind : Z; h_req_id : Z; h_status : Z; h_payload_len : Z }.

Definition encode_hdr (h : remote_hdr) : list Z :=
  put_u32 (h_magic h) ++ put_u16 (h_version h) ++ put_u16 (h_kind h) ++ put_u64 (h_req_id h) ++
  put_u32 (h_status h) ++ put_u32 (h_payload_len h).
(** [None] for [GPTPS_E_INVAL]. *)
Definition decode_hdr (inp : list Z) (max_payload : Z) : option remote_hdr :=
  if len inp <? GPTPS_REMOTE_HDR_SIZE then None
  else
    let max_payload := if max_payload =? 0 then GPTPS_REMOTE_MAX_PAYLOAD else max_payload in
    let h := Hdr (get_u32 inp) (get_u16 (from 4 inp)) (get_u16 (from 6 inp)) (get_u64 (from 8 inp))
                 (get_u32 (from 16 inp)) (get_u32 (from 20 inp)) in
    if negb (h_magic h =? GPTPS_REMOTE_MAGIC) then None
    else if negb (h_version h =? GPTPS_REMOTE_VERSION) then None
    else if negb ((h_kind h =? GPTPS_REMOTE_REQUEST) || (h_kind h =? GPTPS_REMOTE_REPLY) ||
                  (h_kind h =? GPTPS_REMOTE_CANCEL) || (h_kind h =? GPTPS_REMOTE_PING)) then None
    else if max_payload <? h_payload_len h then None
    else Some h.
Definition make_request (req_id payload_len : Z) : remote_hdr :=
  Hdr GPTPS_REMOTE_MAGIC GPTPS_REMOTE_VERSION GPTPS_REMOTE_REQUEST req_id 0 payload_len.
Definition make_reply (req_id : Z) (st : status) (payload_len : Z) : remote_hdr :=
  Hdr GPTPS_REMOTE_MAGIC GPTPS_REMOTE_VERSION GPTPS_REMOTE_REPLY req_id (status_to_wire st) payload_len.

(** ** The payload of a request *)

(** [room]: the size of the buffer.  The status, the bytes written, and [*len] after. *)
Definition encode_request (task item : list Z) (room : Z) : status * list Z * Z :=
  let total := u64 (u64 (4 + len task) + len item) in
  if 0xFFFFFFFF <? total then (GPTPS_E_INVAL, [], room)
  else if room <? total then (GPTPS_E_BUDGET, [], total)
  else (GPTPS_OK, put_u32 (len task) ++ task ++ item, total).
Definition decode_request (buf : list Z) : option (list Z * list Z) :=
  if len buf <? 4 then None
  else
    let tlen := get_u32 buf in
    if len buf - 4 <? tlen then None else Some (upto tlen (from 4 buf), from tlen (from 4 buf)).

(** ** Integers read back *)

Lemma put_le_get p : Forall byte p → put_le (length p) (le p) = p.
Proof.
  induction 1 as [|b p Hb _ IH]; [done|]. unfold byte in Hb. cbn [length put_le le].
  assert (Hhi : ∀ k, 8 ≤ k → Z.testbit b k = false).
  { intros k Hk. destruct (decide (b = 0)) as [->|]; [by rewrite Z.bits_0|]. apply Z.bits_above_log2; [lia|].
    assert (Z.log2 b < 8) by (apply Z.log2_lt_pow2; lia). lia. }
  f_equal.
  - apply Z.bits_inj'. intros k Hk. change 255 with (Z.ones 8).
    rewrite Z.land_spec, Z.lor_spec, Z.shiftl_spec, Z.testbit_ones_nonneg by lia. destruct (Z.ltb_spec k 8).
    + by rewrite (Z.testbit_neg_r _ (k - 8)), orb_false_r, andb_true_r by lia.
    + by rewrite andb_false_r, Hhi.
  - transitivity (put_le (length p) (le p)); [f_equal|done]. apply Z.bits_inj'. intros k Hk.
    rewrite Z.shiftr_spec, Z.lor_spec, Z.shiftl_spec, Hhi, orb_false_l by lia. by replace (k + 8 - 8) with k by lia.
Qed.
Lemma put_u16_le v : put_u16 v = reverse (put_le 2 v).
Proof. done. Qed.
Lemma put_u32_le v : put_u32 v = reverse (put_le 4 v).
Proof. unfold put_u32, u8. cbn [put_le]. rewrite !Z.shiftr_shiftr by lia. done. Qed.
Lemma put_u64_le v : put_u64 v = reverse (put_le 8 v).
Proof. unfold put_u64, u8. cbn [put_le]. rewrite !Z.shiftr_shiftr by lia. done. Qed.
Ltac by_bits := cbn [le reverse rev_append at_ lookup list_lookup default from_option id app]; rewrite ?Z.shiftl_0_l, ?Z.lor_0_r, ?Z.shiftl_lor, ?Z.shiftl_shiftl by lia;
  repeat match goal with |- context [Z.shiftl _ (8 + ?n)] => let m := eval vm_compute in (8 + n) in change (8 + n) with m end;
  apply Z.bits_inj'; intros k Hk; rewrite ?Z.lor_spec; btauto.
Lemma get_u16_le a b rest : get_u16 ([a; b] ++ rest) = le (reverse [a; b]).
Proof. unfold get_u16. by_bits. Qed.
Lemma get_u32_le a b c d rest : get_u32 ([a; b; c; d] ++ rest) = le (reverse [a; b; c; d]).
Proof. unfold get_u32. by_bits. Qed.
Lemma get_u64_le a b c d e f g h rest : get_u64 ([a; b; c; d; e; f; g; h] ++ rest) = le (reverse [a; b; c; d; e; f; g; h]).
Proof. unfold get_u64. by_bits. Qed.

(** A buffer of at least [n] bytes begins with [n] of them. *)
Lemma get_put_u16 v rest : 0 ≤ v < 2 ^ 16 → get_u16 (put_u16 v ++ rest) = v.
Proof. intros Hv. unfold put_u16. rewrite get_u16_le. change (le (put_le 2 v) = v). rewrite le_put. by apply Z.mod_small. Qed.
Lemma get_put_u32 v rest : 0 ≤ v < 2 ^ 32 → get_u32 (put_u32 v ++ rest) = v.
Proof.
  intros Hv. pose proof (put_u32_le v) as E. unfold put_u32 in *. rewrite get_u32_le, E, reverse_involutive, le_put.
  by apply Z.mod_small.
Qed.
Lemma get_put_u64 v rest : 0 ≤ v < 2 ^ 64 → get_u64 (put_u64 v ++ rest) = v.
Proof.
  intros Hv. pose proof (put_u64_le v) as E. unfold put_u64 in *. rewrite get_u64_le, E, reverse_involutive, le_put.
  by apply Z.mod_small.
Qed.
(** The bytes an integer was read from, and its range. *)
Lemma put_le_reverse p : Forall byte p → reverse (put_le (length p) (le (reverse p))) = p ∧ 0 ≤ le (reverse p) < 2 ^ (8 * len p).
Proof.
  intros Hp. assert (Hr : Forall byte (reverse p)) by by apply Forall_reverse. split.
  - rewrite <-(length_reverse p), put_le_get by done. apply reverse_involutive.
  - pose proof (le_range _ Hr) as H. unfold len in *. by rewrite length_reverse in H.
Qed.
Lemma put_get_u16 p : Forall byte p → 2 ≤ len p → put_u16 (get_u16 p) = upto 2 p ∧ 0 ≤ get_u16 p < 2 ^ 16.
Proof.
  intros Hp Hl. do 2 (destruct p as [|? p]; [unfold len in Hl; cbn [length] in Hl; lia|]). pose proof (get_u16_le z z0 p) as E. cbn [app] in E. rewrite E.
  rewrite put_u16_le. apply (put_le_reverse [z; z0]). exact (Forall_take _ 2%nat _ Hp).
Qed.
Lemma put_get_u32 p : Forall byte p → 4 ≤ len p → put_u32 (get_u32 p) = upto 4 p ∧ 0 ≤ get_u32 p < 2 ^ 32.
Proof.
  intros Hp Hl. do 4 (destruct p as [|? p]; [unfold len in Hl; cbn [length] in Hl; lia|]). pose proof (get_u32_le z z0 z1 z2 p) as E. cbn [app] in E. rewrite E.
  rewrite put_u32_le. apply (put_le_reverse [z; z0; z1; z2]). exact (Forall_take _ 4%nat _ Hp).
Qed.
Lemma put_get_u64 p : Forall byte p → 8 ≤ len p → put_u64 (get_u64 p) = upto 8 p ∧ 0 ≤ get_u64 p < 2 ^ 64.
Proof.
  intros Hp Hl. do 8 (destruct p as [|? p]; [unfold len in Hl; cbn [length] in Hl; lia|]).
  pose proof (get_u64_le z z0 z1 z2 z3 z4 z5 z6 p) as E. cbn [app] in E. rewrite E.
  rewrite put_u64_le. apply (put_le_reverse [z; z0; z1; z2; z3; z4; z5; z6]). exact (Forall_take _ 8%nat _ Hp).
Qed.
Lemma len_puts v : len (put_u16 v) = 2 ∧ len (put_u32 v) = 4 ∧ len (put_u64 v) = 8.
Proof. done. Qed.

(** ** What a decoder accepts *)

(** A header of this protocol within the cap. *)
Definition proper (cap : Z) (h : remote_hdr) : Prop :=
  h_magic h = GPTPS_REMOTE_MAGIC ∧ h_version h = GPTPS_REMOTE_VERSION ∧
  h_kind h ∈ [GPTPS_REMOTE_REQUEST; GPTPS_REMOTE_REPLY; GPTPS_REMOTE_CANCEL; GPTPS_REMOTE_PING] ∧
  0 ≤ h_req_id h < 2 ^ 64 ∧ 0 ≤ h_status h < 2 ^ 32 ∧ 0 ≤ h_payload_len h < 2 ^ 32 ∧ h_payload_len h ≤ cap.

Lemma kind_known k : (k =? GPTPS_REMOTE_REQUEST) || (k =? GPTPS_REMOTE_REPLY) || (k =? GPTPS_REMOTE_CANCEL) || (k =? GPTPS_REMOTE_PING) = true ↔
  k ∈ [GPTPS_REMOTE_REQUEST; GPTPS_REMOTE_REPLY; GPTPS_REMOTE_CANCEL; GPTPS_REMOTE_PING].
Proof. rewrite !orb_true_iff, !Z.eqb_eq, !elem_of_cons, elem_of_nil. tauto. Qed.
Lemma decode_encode h rest cap max : cap = (if max =? 0 then GPTPS_REMOTE_MAX_PAYLOAD else max) → proper cap h →
  decode_hdr (encode_hdr h ++ rest) max = Some h.
Proof.
  intros -> (Hm & Hv & Hk & Hq & Hs & Hp & Hcap).
  assert (Hkr : 0 ≤ h_kind h < 2 ^ 16) by (rewrite !elem_of_cons, elem_of_nil in Hk; unfold GPTPS_REMOTE_REQUEST,
    GPTPS_REMOTE_REPLY, GPTPS_REMOTE_CANCEL, GPTPS_REMOTE_PING in Hk; lia).
  destruct h as [mg vs kd rq st pl]. cbn [h_magic h_version h_kind h_req_id h_status h_payload_len] in *. subst mg vs.
  unfold decode_hdr, encode_hdr. cbn [h_magic h_version h_kind h_req_id h_status h_payload_len].
  rewrite <-!app_assoc.
  assert (Hl : len (put_u32 GPTPS_REMOTE_MAGIC ++ put_u16 GPTPS_REMOTE_VERSION ++ put_u16 kd ++ put_u64 rq ++ put_u32 st ++ put_u32 pl ++ rest) <? GPTPS_REMOTE_HDR_SIZE = false).
  { unfold GPTPS_REMOTE_HDR_SIZE. rewrite !len_app. pose proof (len_nonneg rest). apply Z.ltb_ge. unfold put_u16, put_u32, put_u64, len. cbn [length]. lia. }
  rewrite Hl. change (from 4 (put_u32 GPTPS_REMOTE_MAGIC ++ ?x)) with x.
  change (from 6 (put_u32 GPTPS_REMOTE_MAGIC ++ put_u16 GPTPS_REMOTE_VERSION ++ ?x)) with x.
  change (from 8 (put_u32 GPTPS_REMOTE_MAGIC ++ put_u16 GPTPS_REMOTE_VERSION ++ put_u16 kd ++ ?x)) with x.
  change (from 16 (put_u32 GPTPS_REMOTE_MAGIC ++ put_u16 GPTPS_REMOTE_VERSION ++ put_u16 kd ++ put_u64 rq ++ ?x)) with x.
  change (from 20 (put_u32 GPTPS_REMOTE_MAGIC ++ put_u16 GPTPS_REMOTE_VERSION ++ put_u16 kd ++ put_u64 rq ++ put_u32 st ++ ?x)) with x.
  rewrite !get_put_u32, !get_put_u16, get_put_u64 by (done || lia).
  cbn [h_magic h_version h_kind h_payload_len]. rewrite !Z.eqb_refl, (proj2 (kind_known kd) Hk). cbn [negb].
  by rewrite (proj2 (Z.ltb_ge _ _) Hcap).
Qed.
Lemma encode_decode inp h cap max : cap = (if max =? 0 then GPTPS_REMOTE_MAX_PAYLOAD else max) → Forall byte inp →
  decode_hdr inp max = Some h → proper cap h ∧ encode_hdr h = upto 24 inp.
Proof.
  intros -> Hb. unfold decode_hdr. destruct (Z.ltb_spec (len inp) GPTPS_REMOTE_HDR_SIZE) as [|Hl]; [done|].
  unfold GPTPS_REMOTE_HDR_SIZE in Hl.
  assert (Hf : ∀ n, 0 ≤ n ≤ 24 → Forall byte (from n inp) ∧ 24 - n ≤ len (from n inp)).
  { intros n Hn. split; [by apply Forall_drop|]. rewrite len_from by lia. lia. }
  destruct (put_get_u32 inp Hb ltac:(lia)) as [E0 _].
  destruct (Hf 4 ltac:(lia)) as [B4 L4], (Hf 6 ltac:(lia)) as [B6 L6], (Hf 8 ltac:(lia)) as [B8 L8],
    (Hf 16 ltac:(lia)) as [B16 L16], (Hf 20 ltac:(lia)) as [B20 L20].
  destruct (put_get_u16 _ B4 ltac:(lia)) as [E4 _], (put_get_u16 _ B6 ltac:(lia)) as [E6 _], (put_get_u64 _ B8 ltac:(lia)) as [E8 R8],
    (put_get_u32 _ B16 ltac:(lia)) as [E16 R16], (put_get_u32 _ B20 ltac:(lia)) as [E20 R20].
  cbn [h_magic h_version h_kind h_payload_len].
  destruct (Z.eqb_spec (get_u32 inp) GPTPS_REMOTE_MAGIC) as [Hm|]; [|done].
  destruct (Z.eqb_spec (get_u16 (from 4 inp)) GPTPS_REMOTE_VERSION) as [Hv|]; [|done]. cbn [negb].
  destruct (_ || _) eqn:Hk; [|done]. cbn [negb]. destruct (Z.ltb_spec (if max =? 0 then GPTPS_REMOTE_MAX_PAYLOAD else max) (get_u32 (from 20 inp))) as [|Hcap]; [done|].
  intros [= <-]. split; [unfold proper; cbn [h_magic h_version h_kind h_req_id h_status h_payload_len]; split_and!; first [assumption|lia|by apply kind_known]|].
  unfold encode_hdr. cbn [h_magic h_version h_kind h_req_id h_status h_payload_len]. rewrite E0, E4, E6, E8, E16, E20.
  clear -Hl. assert (Hn : (24 ≤ length inp)%nat) by (unfold len in Hl; lia). unfold upto, from. cbn.
  do 24 (destruct inp as [|? inp]; [cbn [length] in Hn; lia|]). done.
Qed.

Lemma status_wire c : status_to_wire (status_from_wire c) = c ∨ status_from_wire c = GPTPS_E_IO.
Proof. destruct c as [|p|p]; [by left| |by right]. repeat first [by left|by right|destruct p as [p|p|]]. Qed.
Lemma encode_request_spec task item room : 4 + len task + len item < 2 ^ 64 →
  match encode_request task item room with
  | (GPTPS_OK, buf, n) => n = len buf ∧ n ≤ room ∧ n < 2 ^ 32 ∧ decode_request buf = Some (task, item)
  | (GPTPS_E_BUDGET, _, n) => room < n ∧ n = 4 + len task + len item ∧ n < 2 ^ 32
  | (_, _, _) => 2 ^ 32 ≤ 4 + len task + len item
  end.
Proof.
  intros Hl. pose proof (len_nonneg task). pose proof (len_nonneg item). unfold encode_request.
  rewrite (u64_small (4 + len task)), u64_small by lia. destruct (Z.ltb_spec 0xFFFFFFFF (4 + len task + len item)); [lia|].
  destruct (Z.ltb_spec room (4 + len task + len item)); [lia|]. split_and!; [|done|lia|].
  - rewrite !len_app. destruct (len_puts (len task)) as (_ & -> & _). lia.
  - unfold decode_request. rewrite !len_app. destruct (len_puts (len task)) as (_ & E & _). rewrite E.
    rewrite (proj2 (Z.ltb_ge _ 4)) by lia. rewrite get_put_u32 by lia. rewrite (proj2 (Z.ltb_ge _ _)) by lia.
    rewrite (from_app 4) by done. by rewrite upto_app, from_app.
Qed.
Lemma decode_request_spec buf task item : Forall byte buf → len buf < 2 ^ 32 → decode_request buf = Some (task, item) →
  encode_request task item (len buf) = (GPTPS_OK, buf, len buf).
Proof.
  intros Hb Hl. unfold decode_request. destruct (Z.ltb_spec (len buf) 4) as [|H4]; [done|].
  destruct (put_get_u32 buf Hb H4) as [E R]. destruct (Z.ltb_spec (len buf - 4) (get_u32 buf)) as [|Ht]; [done|].
  intros [= <- <-]. set (n := get_u32 buf) in *.
  assert (Hn : len (from 4 buf) = len buf - 4) by (rewrite len_from by lia; lia).
  assert (H1 : len (upto n (from 4 buf)) = n) by (rewrite len_upto, Hn; lia).
  assert (H2 : len (from n (from 4 buf)) = len buf - 4 - n) by (rewrite len_from by lia; lia).
  unfold encode_request. rewrite H1, H2. rewrite (u64_small (4 + n)), u64_small by lia.
  replace (4 + n + (len buf - 4 - n)) with (len buf) by lia. rewrite (proj2 (Z.ltb_ge _ _)) by lia. rewrite Z.ltb_irrefl, E.
  unfold upto, from. by rewrite take_drop, take_drop.
Qed.

(** C35: the codec is exact.  A header of this protocol within the cap decodes to itself,
    whatever follows it; bytes a decoder accepts are the encoding of a header of this
    protocol within the cap - so no length past the cap is ever acted on, and no two
    frames mean the same.  A request fits the buffer it asks for and its payload reads
    back to the task and the item; the parts a decoder gives lie within the payload, and
    are what it was made of.  Every status survives the wire, and a code that is not known
    is an I/O failure. *)
Theorem remote_codec_exact max :
  let cap := if max =? 0 then GPTPS_REMOTE_MAX_PAYLOAD else max in
  (∀ h rest, proper cap h → decode_hdr (encode_hdr h ++ rest) max = Some h) ∧
  (∀ inp h, Forall byte inp → decode_hdr inp max = Some h → proper cap h ∧ encode_hdr h = upto 24 inp) ∧
  (∀ task item room, 4 + len task + len item < 2 ^ 64 →
    match encode_request task item room with
    | (GPTPS_OK, buf, n) => n = len buf ∧ n ≤ room ∧ n < 2 ^ 32 ∧ decode_request buf = Some (task, item)
    | (GPTPS_E_BUDGET, _, n) => room < n ∧ n = 4 + len task + len item ∧ n < 2 ^ 32
    | (_, _, _) => 2 ^ 32 ≤ 4 + len task + len item
    end) ∧
  (∀ buf task item, Forall byte buf → len buf < 2 ^ 32 → decode_request buf = Some (task, item) →
    encode_request task item (len buf) = (GPTPS_OK, buf, len buf)) ∧
  (∀ st, status_from_wire (status_to_wire st) = st) ∧
  (∀ c, (∀ st, status_to_wire st ≠ c) → status_from_wire c = GPTPS_E_IO).
Proof.
  cbn zeta. split_and!.
  - intros h rest. by apply decode_encode.
  - intros inp h. by apply encode_decode.
  - intros task item room Hl. apply encode_request_spec, Hl.
  - intros buf task item Hb Hl Hd. by apply decode_request_spec.
  - by intros [].
  - intros c Hc. destruct (status_wire c) as [E|E]; [by destruct (Hc (status_from_wire c))|done].
Qed.

(** A reply of 3 bytes to request 7, that says its task failed. *)
Lemma remote_codec_exact_witness :
  decode_hdr (encode_hdr (make_reply 7 GPTPS_E_TASK 3) ++ [1; 2; 3]) 0 = Some (make_reply 7 GPTPS_E_TASK 3) ∧
  status_from_wire (h_status (make_reply 7 GPTPS_E_TASK 3)) = GPTPS_E_TASK ∧
  decode_request [0; 0; 0; 2; 97; 98; 9] = Some ([97; 98], [9]) ∧ encode_request [97; 98] [9] 7 = (GPTPS_OK, [0; 0; 0; 2; 97; 98; 9], 7).
Proof.
  destruct (remote_codec_exact 0) as (H1 & _ & _ & H4 & H5 & _). split_and!.
  - apply H1. unfold proper. split_and!; first [reflexivity|(apply kind_known; reflexivity)|(vm_compute; intuition discriminate)].
  - apply H5.
  - reflexivity.
  - apply (H4 [0; 0; 0; 2; 97; 98; 9] [97; 98] [9]); [repeat constructor; lia|reflexivity|reflexivity].
Defined.

End Remote.
