(* ===== verification/Callbacks.v ===== *)
(** * Callbacks on threads the engine does not own

    The records of [src/engine.c] that say which threads are inside a callback of the
    engine - [cb_take_idle], [cb_enter_locked], [cb_leave] - so that a shutdown or a step
    from inside one is refused.  A record is a key of a store; a chain is the list of the
    records of a bucket, from its head.  Module CallbackFacts proves what they say. *)

From S2P Require Import Prelude.

Module Callbacks.

Definition GPTPS_CB_BUCKETS : Z := 64.
Definition GPTPS_CB_THREADS_MAX : Z := 1024.
Definition cb_bucket (tid : Z) : Z :=
  let tid := Z.lxor tid (Z.shiftr tid 33) in
  let tid := u64 (tid * 0xff51afd7ed558ccd) in
  let tid := Z.lxor tid (Z.shiftr tid 33) in
  Z.land tid (GPTPS_CB_BUCKETS - 1).

(** [gptps_cb_thread], and the engine's fields about them. *)
Record cb_thread := CbThread { c_tid : Z; c_depth : Z }.
#[export] Instance eta_cb_thread : Eta cb_thread := λ r, CbThread (c_tid r) (c_depth r).
Record callbacks := MkCallbacks {
  cb_store : gmap positive cb_thread; cb_threads : list (list positive); n_cb_threads : Z;
  cb_spare : list positive; cb_sealed : bool }.
#[export] Instance eta_callbacks : Eta callbacks := λ r,
  MkCallbacks (cb_store r) (cb_threads r) (n_cb_threads r) (cb_spare r) (cb_sealed r).
Definition no_callbacks : callbacks := MkCallbacks ∅ (replicate (Z.to_nat GPTPS_CB_BUCKETS) []) 0 [] false.

Definition cb_rec (s : callbacks) (p : positive) : cb_thread := default (CbThread 0 0) (cb_store s !! p).
Definition chain (s : callbacks) (b : Z) : list positive := default [] (cb_threads s !! Z.to_nat b).
Definition set_chain (b : Z) (f : list positive → list positive) (s : callbacks) : callbacks :=
  s <| cb_threads ::= alter (M := list (list positive)) f (Z.to_nat b) |>.
Definition set_rec (p : positive) (f : cb_thread → cb_thread) (s : callbacks) : callbacks := s <| cb_store ::= alter f p |>.

(** The loop of [cb_take_idle]: [n] buckets to go, from the [k]-th after the thread's own. *)
Fixpoint take_loop (n : nat) (k tid : Z) (any : bool) (s : callbacks) : option positive * callbacks :=
  match n with
  | O => (None, s)
  | S n =>
      let home := cb_bucket tid in
      let b := Z.land (home + k) (GPTPS_CB_BUCKETS - 1) in
      match list_find (λ p, c_depth (cb_rec s p) = 0) (chain s b) with
      | Some (i, p) =>
          let s := if negb (b =? home) then set_chain home (cons p) (set_chain b (delete i) s) else s in
          (Some p, set_rec p (λ t, t <| c_tid := tid |>) s)
      | None => if negb any && (n_cb_threads s <? GPTPS_CB_THREADS_MAX) then (None, s) else take_loop n (k + 1) tid any s
      end
  end.
Definition cb_take_idle (tid : Z) (any : bool) (s : callbacks) : option positive * callbacks :=
  take_loop (Z.to_nat GPTPS_CB_BUCKETS) 0 tid any s.

(** A record linked onto the chain of its thread. *)
Definition link_record (tid : Z) (p : positive) (s : callbacks) : callbacks :=
  set_chain (cb_bucket tid) (cons p) (s <| n_cb_threads ::= λ n, u32 (n + 1) |>).
(** Up to the last two lines of [cb_enter_locked]; [mem]: what [gptps_calloc] gives. *)
Definition cb_get (tid : Z) (mem : option positive) (s : callbacks) : option positive * callbacks :=
  match list_find (λ p, c_tid (cb_rec s p) = tid) (chain s (cb_bucket tid)) with
  | Some (_, p) => (Some p, s)
  | None =>
      match cb_take_idle tid false s with
      | (Some p, s) => (Some p, s)
      | (None, s) =>
          if cb_sealed s then
            match cb_spare s with
            | p :: spare => (Some p, link_record tid p (set_rec p (λ t, t <| c_tid := tid |>) (s <| cb_spare := spare |>)))
            | [] => cb_take_idle tid true s
            end
          else if n_cb_threads s <? GPTPS_CB_THREADS_MAX then
            match mem with
            | Some p => (Some p, link_record tid p (s <| cb_store ::= <[p := CbThread tid 0]> |>))
            | None => (None, s)
            end
          else (None, s)
      end
  end.
Definition cb_enter_locked (tid : Z) (mem : option positive) (s : callbacks) : option positive * callbacks :=
  match cb_get tid mem s with
  | (Some p, s) => (Some p, set_rec p (λ t, t <| c_depth ::= λ d, u32 (d + 1) |>) s)
  | (None, s) => (None, s)
  end.
Definition cb_leave (t : option positive) (s : callbacks) : callbacks :=
  match t with Some p => set_rec p (λ t, t <| c_depth ::= λ d, u32 (d - 1) |>) s | None => s end.
(** The loop of [bounded_seal] over the spare records. *)
Definition seal_records (ps : list positive) (s : callbacks) : callbacks :=
  s <| cb_store ::= λ m, foldr (λ p m, <[p := CbThread 0 0]> m) m ps |> <| cb_spare := ps |> <| cb_sealed := true |>.

Definition engine_is_reentrant (step_tid : Z) (owned : list Z) (tid : Z) : bool :=
  (step_tid =? tid) || existsb (λ t, t =? tid) owned.
Definition engine_in_callback (step_tid : Z) (owned : list Z) (tid : Z) (s : callbacks) : bool :=
  engine_is_reentrant step_tid owned tid ||
  match list_find (λ p, c_tid (cb_rec s p) = tid) (chain s (cb_bucket tid)) with
  | Some (_, p) => 0 <? c_depth (cb_rec s p)
  | None => false
  end.

(** ** Threads inside callbacks *)

(** What each thread keeps on its stack: what its calls of [cb_enter] gave, the innermost
    first. *)
Record cb_world := CbWorld { cw_s : callbacks; cw_in : Z → list (option positive) }.
Definition put_in (tid : Z) (l : list (option positive)) (f : Z → list (option positive)) : Z → list (option positive) :=
  λ t, if decide (t = tid) then l else f t.
Inductive cb_step : cb_world → cb_world → Prop :=
  | cb_enters tid mem s f : 0 ≤ tid < 2 ^ 64 → (∀ p, mem = Some p → cb_store s !! p = None) → Z.of_nat (length (f tid)) + 1 < 2 ^ 32 →
      cb_step (CbWorld s f) (CbWorld (cb_enter_locked tid mem s).2 (put_in tid ((cb_enter_locked tid mem s).1 :: f tid) f))
  | cb_leaves tid t l s f : f tid = t :: l → cb_step (CbWorld s f) (CbWorld (cb_leave t s) (put_in tid l f))
  | cb_seals ps s f : cb_sealed s = false → NoDup ps → (∀ p, p ∈ ps → cb_store s !! p = None) →
      n_cb_threads s + Z.of_nat (length ps) < 2 ^ 32 → cb_step (CbWorld s f) (CbWorld (seal_records ps s) f).
Definition cb_reachable : cb_world → Prop := rtc cb_step (CbWorld no_callbacks (λ _, [])).

End Callbacks.

(** * A thread inside a callback is known

    The records of the callback threads, whatever chain they are moved to and whichever
    thread takes them over, say of every thread whether it is inside a guarded callback. *)

Module CallbackFacts.
Import Callbacks.

(** The guarded callbacks a thread is in. *)
Fixpoint guarded (l : list (option positive)) : nat :=
  match l with [] => 0 | t :: l => (match t with Some _ => 1 | None => 0 end + guarded l)%nat end.
Lemma guarded_in l : (0 < guarded l)%nat ↔ ∃ p, Some p ∈ l.
Proof.
  induction l as [|[p|] l IH]; cbn; [split; [lia|by intros [p ?%elem_of_nil]]|split; [intros _; exists p; by left|lia]|].
  rewrite IH. split; [intros [p Hp]; exists p; by right|]. intros [p [?|Hp]%elem_of_cons]; [done|by exists p].
Qed.
Lemma guarded_le l : (guarded l ≤ length l)%nat.
Proof. induction l as [|[p|] l IH]; cbn; lia. Qed.

Definition linked (s : callbacks) : list positive := concat (cb_threads s).
(** The thread of a linked record, and how deep in callbacks it is. *)
Definition tid_of (s : callbacks) (p : positive) : Z := c_tid (cb_rec s p).
Definition depth_of (s : callbacks) (p : positive) : Z := c_depth (cb_rec s p).

Record inv (s : callbacks) (f : Z → list (option positive)) : Prop := {
  j_len : length (cb_threads s) = Z.to_nat GPTPS_CB_BUCKETS;
  j_nodup : NoDup (linked s ++ cb_spare s);
  j_store : ∀ p, p ∈ linked s ++ cb_spare s → is_Some (cb_store s !! p);
  j_home : ∀ b c p, cb_threads s !! b = Some c → p ∈ c → Z.to_nat (cb_bucket (tid_of s p)) = b;
  j_tids : ∀ p q, p ∈ linked s → q ∈ linked s → tid_of s p = tid_of s q → p = q;
  j_depth : ∀ p, p ∈ linked s → depth_of s p = Z.of_nat (guarded (f (tid_of s p)));
  j_in : ∀ tid p, Some p ∈ f tid → p ∈ linked s ∧ tid_of s p = tid;
  j_spare : ∀ p, p ∈ cb_spare s → depth_of s p = 0;
  j_n : n_cb_threads s = Z.of_nat (length (linked s));
  j_room : n_cb_threads s + Z.of_nat (length (cb_spare s)) < 2 ^ 32;
  j_stack : ∀ tid, Z.of_nat (length (f tid)) < 2 ^ 32;
  j_seal : cb_sealed s = false → cb_spare s = [] }.

Lemma bucket_range tid : 0 ≤ cb_bucket tid < GPTPS_CB_BUCKETS.
Proof.
  unfold cb_bucket. cbv zeta. change (GPTPS_CB_BUCKETS - 1) with (Z.ones 6). rewrite Z.land_ones by lia.
  apply Z.mod_pos_bound. done.
Qed.
Lemma chain_at s f b : inv s f → 0 ≤ b < GPTPS_CB_BUCKETS → cb_threads s !! Z.to_nat b = Some (chain s b).
Proof.
  intros HI Hb. unfold chain. destruct (cb_threads s !! Z.to_nat b) eqn:E; [done|]. apply lookup_ge_None in E.
  rewrite (j_len _ _ HI) in E. lia.
Qed.
Lemma linked_chain s p : p ∈ linked s ↔ ∃ b c, cb_threads s !! b = Some c ∧ p ∈ c.
Proof.
  unfold linked. induction (cb_threads s) as [|c cs IH]; cbn; [split; [by intros ?%elem_of_nil|by intros (b & c & ? & _)]|].
  rewrite elem_of_app, IH. split.
  - intros [Hp|(b & c' & ? & ?)]; [by exists 0%nat, c|by exists (S b), c'].
  - intros ([|b] & c' & Hb & Hp); cbn in Hb; [simplify_eq; by left|right; by exists b, c'].
Qed.
(** The search of a thread's chain finds its record if it has one. *)
Lemma find_tid s f tid : inv s f →
  match list_find (λ p, c_tid (cb_rec s p) = tid) (chain s (cb_bucket tid)) with
  | Some (_, p) => p ∈ linked s ∧ tid_of s p = tid
  | None => ∀ p, p ∈ linked s → tid_of s p ≠ tid
  end.
Proof.
  intros HI. pose proof (chain_at s f (cb_bucket tid) HI (bucket_range tid)) as Hc.
  destruct (list_find _ _) as [[i p]|] eqn:Hf.
  - apply list_find_Some in Hf as (Hi & Ht & _). split; [|done]. apply linked_chain. eexists _, _. split; [exact Hc|].
    by eapply list_elem_of_lookup_2.
  - intros p Hp <-. apply linked_chain in Hp as (b & c & Hb & Hp). pose proof (j_home _ _ HI b c p Hb Hp) as <-.
    rewrite Hc in Hb. simplify_eq. apply list_find_None in Hf. rewrite Forall_forall in Hf. by apply (Hf p Hp).
Qed.

(** A record that no thread is in becomes that of a thread with none. *)
Lemma inv_adopt s s' f tid p :
  inv s f → (∀ q, q ∈ linked s → tid_of s q ≠ tid) →
  (p ∈ linked s → depth_of s p = 0) →
  length (cb_threads s') = Z.to_nat GPTPS_CB_BUCKETS →
  NoDup (linked s' ++ cb_spare s') →
  (∀ q, q ∈ cb_spare s' → q ∈ cb_spare s ∧ q ≠ p) →
  (∀ q, q ∈ linked s' ↔ q = p ∨ q ∈ linked s) →
  (∀ b c q, cb_threads s' !! b = Some c → q ∈ c → if decide (q = p) then b = Z.to_nat (cb_bucket tid) else ∃ c0, cb_threads s !! b = Some c0 ∧ q ∈ c0) →
  cb_store s' !! p = Some (CbThread tid 0) → (∀ q, q ≠ p → cb_store s' !! q = cb_store s !! q) →
  n_cb_threads s' = Z.of_nat (length (linked s')) → n_cb_threads s' + Z.of_nat (length (cb_spare s')) < 2 ^ 32 →
  (cb_sealed s' = false → cb_spare s' = []) →
  inv s' f ∧ p ∈ linked s' ∧ tid_of s' p = tid.
Proof.
  intros HI Hno Hidle Hlen Hnd Hsp Hlk Hch Hp Hq Hn Hroom Hseal.
  assert (Hf : guarded (f tid) = 0%nat).
  { destruct (guarded (f tid)) as [|m] eqn:E; [done|]. destruct (proj1 (guarded_in (f tid))) as [q Hin]; [lia|].
    destruct (j_in _ _ HI tid q Hin) as [Hl Ht]. by destruct (Hno q Hl). }
  assert (Hrp : cb_rec s' p = CbThread tid 0) by (unfold cb_rec; by rewrite Hp).
  assert (Hrq : ∀ q, q ≠ p → cb_rec s' q = cb_rec s q) by (intros q Hne; unfold cb_rec; by rewrite Hq).
  assert (Htq : ∀ q, q ≠ p → tid_of s' q = tid_of s q) by (intros q Hne; unfold tid_of; by rewrite Hrq).
  assert (Htp : tid_of s' p = tid) by (unfold tid_of; by rewrite Hrp).
  assert (Hpin : ∀ t, Some p ∉ f t).
  { intros t Hin. destruct (j_in _ _ HI t p Hin) as [Hl Ht]. pose proof (j_depth _ _ HI p Hl) as Hd. rewrite Hidle, Ht in Hd by done.
    assert ((0 < guarded (f t))%nat) by (apply guarded_in; by exists p). lia. }
  split; [|split; [apply Hlk; by left|done]]. constructor; try done.
  - intros q Hin. destruct (decide (q = p)) as [->|Hne]; [by eexists|]. rewrite Hq by done. apply (j_store _ _ HI).
    apply elem_of_app in Hin as [Hin|Hin]; apply elem_of_app; [left; apply Hlk in Hin as [?|?]; done|right; by apply Hsp].
  - intros b c q Hb Hin. specialize (Hch b c q Hb Hin). destruct (decide (q = p)) as [->|Hne]; [by rewrite Htp|].
    destruct Hch as (c0 & Hc0 & Hin0). rewrite Htq by done. by eapply (j_home _ _ HI).
  - intros q1 q2 H1 H2 Ht. destruct (decide (q1 = p)) as [->|N1], (decide (q2 = p)) as [->|N2]; try done.
    + apply Hlk in H2 as [?|H2]; [done|]. rewrite Htp, (Htq q2) in Ht by done. by destruct (Hno q2 H2).
    + apply Hlk in H1 as [?|H1]; [done|]. rewrite Htp, (Htq q1) in Ht by done. by destruct (Hno q1 H1).
    + apply Hlk in H1 as [?|H1], H2 as [?|H2]; try done. rewrite !Htq in Ht by done. by apply (j_tids _ _ HI).
  - intros q Hin. destruct (decide (q = p)) as [->|Hne]; [unfold depth_of; rewrite Hrp, Htp, Hf; done|].
    apply Hlk in Hin as [?|Hin]; [done|]. unfold depth_of. rewrite Hrq, Htq by done. by apply (j_depth _ _ HI).
  - intros t q Hin. destruct (decide (q = p)) as [->|Hne]; [by destruct (Hpin t)|].
    destruct (j_in _ _ HI t q Hin) as [Hl Ht]. rewrite Htq by done. split; [|done]. apply Hlk. by right.
  - intros q Hin. destruct (Hsp q Hin) as [Hs Hne]. unfold depth_of. rewrite Hrq by done. by apply (j_spare _ _ HI).
  - apply (j_stack _ _ HI).
Qed.

(** ** The ways a record is got *)

Lemma concat_alter_cons (cs : list (list positive)) b c p : cs !! b = Some c → concat (alter (cons p) b cs) ≡ₚ p :: concat cs.
Proof.
  revert b. induction cs as [|c0 cs IH]; intros [|b] Hb; [done..| |].
  - done.
  - change (alter (cons p) (S b) (c0 :: cs)) with (c0 :: alter (cons p) b cs). cbn [concat]. rewrite (IH b Hb).
    symmetry. apply Permutation_middle.
Qed.
Lemma concat_alter_delete (cs : list (list positive)) b c i p : cs !! b = Some c → c !! i = Some p →
  concat cs ≡ₚ p :: concat (alter (delete i) b cs).
Proof.
  revert b. induction cs as [|c0 cs IH]; intros [|b] Hb Hi; [done..| |].
  - injection Hb as ->. change (alter (delete i) 0%nat (c :: cs)) with (delete i c :: cs). cbn [concat].
    rewrite app_comm_cons. apply Permutation_app_tail. by apply delete_Permutation.
  - change (alter (delete i) (S b) (c0 :: cs)) with (c0 :: alter (delete i) b cs). cbn [concat]. rewrite (IH b Hb Hi).
    symmetry. apply Permutation_middle.
Qed.
Lemma set_rec_lookup p g s q : cb_store (set_rec p g s) !! q = if decide (q = p) then g <$> cb_store s !! q else cb_store s !! q.
Proof.
  change (cb_store (set_rec p g s)) with (alter g p (cb_store s)). destruct (decide (q = p)) as [->|N];
    [apply lookup_alter_eq|by apply lookup_alter_ne].
Qed.

Lemma chain_NoDup s b c : cb_threads s !! b = Some c → NoDup (linked s) → NoDup c.
Proof.
  unfold linked. revert b. induction (cb_threads s) as [|c0 cs IH]; [done|]. cbn. intros b Hb Hnd.
  apply NoDup_app in Hnd as (H1 & _ & H2). destruct b as [|b]; cbn in Hb; [by simplify_eq|by eapply IH].
Qed.
(** A record whose links have been seen to hold it is taken over. *)
Lemma take_over s f tid k i p : inv s f → (∀ q, q ∈ linked s → tid_of s q ≠ tid) →
  let b := Z.land (cb_bucket tid + k) (GPTPS_CB_BUCKETS - 1) in
  chain s b !! i = Some p → depth_of s p = 0 →
  let s1 := if negb (b =? cb_bucket tid) then set_chain (cb_bucket tid) (cons p) (set_chain b (delete i) s) else s in
  let s2 := set_rec p (λ t, t <| c_tid := tid |>) s1 in inv s2 f ∧ p ∈ linked s2 ∧ tid_of s2 p = tid.
Proof.
  intros HI Hno b Hi Hd. set (home := cb_bucket tid). assert (Hbr : 0 ≤ b < GPTPS_CB_BUCKETS).
  { unfold b. change (GPTPS_CB_BUCKETS - 1) with (Z.ones 6). rewrite Z.land_ones by lia. by apply Z.mod_pos_bound. }
  pose proof (chain_at _ _ b HI Hbr) as Hcb. pose proof (chain_at _ _ home HI (bucket_range tid)) as Hch.
  assert (Hpl : p ∈ linked s) by (apply linked_chain; eexists _, _; split; [exact Hcb|by eapply list_elem_of_lookup_2]).
  assert (Hnd : NoDup (linked s)) by (pose proof (j_nodup _ _ HI) as H; by apply NoDup_app in H as (? & _ & _)).
  cbv zeta. set (s1 := if negb (b =? home) then _ else s).
  assert (Hs1 : cb_store s1 = cb_store s ∧ n_cb_threads s1 = n_cb_threads s ∧ cb_spare s1 = cb_spare s ∧
    length (cb_threads s1) = length (cb_threads s) ∧ linked s1 ≡ₚ linked s ∧
    cb_sealed s1 = cb_sealed s ∧
    (∀ b' c q, cb_threads s1 !! b' = Some c → q ∈ c → if decide (q = p) then b' = Z.to_nat home else ∃ c0, cb_threads s !! b' = Some c0 ∧ q ∈ c0)).
  { unfold s1. destruct (Z.eqb_spec b home) as [E|E]; cbn [negb].
    - split_and!; try done. intros b' c q Hb' Hq. destruct (decide (q = p)) as [->|N]; [|by exists c].
      rewrite E in Hcb, Hi. pose proof (j_home _ _ HI b' c p Hb' Hq) as <-.
      pose proof (j_home _ _ HI (Z.to_nat home) _ p Hcb (list_elem_of_lookup_2 _ _ _ Hi)) as <-. done.
    - assert (Hne : Z.to_nat b ≠ Z.to_nat home) by (pose proof (bucket_range tid); unfold home in *; lia).
      set (cs1 := alter (delete i) (Z.to_nat b) (cb_threads s)).
      assert (Hh1 : cs1 !! Z.to_nat home = Some (chain s home)) by (unfold cs1; by rewrite list_lookup_alter_ne).
      assert (Hth : cb_threads (set_chain home (cons p) (set_chain b (delete i) s)) = alter (cons p) (Z.to_nat home) cs1) by done.
      split_and!; try done.
      + rewrite Hth. unfold cs1. by rewrite !length_alter.
      + unfold linked. rewrite Hth, (concat_alter_cons _ _ _ _ Hh1). symmetry. by apply concat_alter_delete with (chain s b).
      + rewrite Hth. intros b' c q Hb' Hq. destruct (decide (b' = Z.to_nat home)) as [->|N1].
        * rewrite list_lookup_alter_eq, Hh1 in Hb'. cbn in Hb'. injection Hb' as <-.
          apply elem_of_cons in Hq as [->|Hq]; [by rewrite decide_True|].
          destruct (decide (q = p)) as [->|]; [done|]. by exists (chain s home).
        * rewrite list_lookup_alter_ne in Hb' by done. unfold cs1 in Hb'. destruct (decide (b' = Z.to_nat b)) as [->|N2].
          -- rewrite list_lookup_alter_eq, Hcb in Hb'. cbn in Hb'. injection Hb' as <-.
             pose proof (delete_Permutation _ _ _ Hi) as HP.
             assert (Hndc : NoDup (p :: delete i (chain s b))) by (rewrite <-HP; by eapply chain_NoDup).
             apply NoDup_cons in Hndc as [Hnp _]. destruct (decide (q = p)) as [->|Hqp]; [done|].
             exists (chain s b). split; [done|]. rewrite HP. by right.
          -- rewrite list_lookup_alter_ne in Hb' by done. destruct (decide (q = p)) as [->|Hqp]; [|by exists c].
             destruct N2. pose proof (j_home _ _ HI b' c p Hb' Hq) as <-.
             by rewrite (j_home _ _ HI (Z.to_nat b) _ p Hcb (list_elem_of_lookup_2 _ _ _ Hi)). }
  destruct Hs1 as (Est & En & Esp & Elen & HP & Esl & Hch1). clearbody s1.
  destruct (j_store _ _ HI p) as [t Ht]; [apply elem_of_app; by left|].
  assert (Hdt : c_depth t = 0) by (unfold depth_of, cb_rec in Hd; by rewrite Ht in Hd).
  apply (inv_adopt s); try done.
  - change (length (cb_threads s1) = Z.to_nat GPTPS_CB_BUCKETS). rewrite Elen. apply (j_len _ _ HI).
  - change (NoDup (linked s1 ++ cb_spare s1)). rewrite Esp, HP. apply (j_nodup _ _ HI).
  - change (∀ q, q ∈ cb_spare s1 → q ∈ cb_spare s ∧ q ≠ p). rewrite Esp. intros q Hq. split; [done|]. intros ->.
    pose proof (j_nodup _ _ HI) as H. apply NoDup_app in H as (_ & H & _). by apply (H p).
  - change (∀ q, q ∈ linked s1 ↔ q = p ∨ q ∈ linked s). intros q. rewrite HP. split; [by right|]. by intros [->|].
  - rewrite set_rec_lookup, decide_True, Est, Ht by done. cbn. by rewrite Hdt.
  - intros q Hq. by rewrite set_rec_lookup, decide_False, Est by done.
  - change (n_cb_threads s1 = Z.of_nat (length (linked s1))). rewrite En, HP. apply (j_n _ _ HI).
  - change (n_cb_threads s1 + Z.of_nat (length (cb_spare s1)) < 2 ^ 32). rewrite En, Esp. apply (j_room _ _ HI).
  - change (cb_sealed s1 = false → cb_spare s1 = []). rewrite Esl, Esp. apply (j_seal _ _ HI).
Qed.

(** The loop over the buckets: a record taken over, or - if it went all the way - none is
    idle. *)
Lemma take_loop_spec s f tid any n k : inv s f → (∀ q, q ∈ linked s → tid_of s q ≠ tid) →
  match take_loop n k tid any s with
  | (Some p, s') => inv s' f ∧ p ∈ linked s' ∧ tid_of s' p = tid
  | (None, s') => s' = s ∧ (any = true ∨ GPTPS_CB_THREADS_MAX ≤ n_cb_threads s →
      ∀ j p, k ≤ j < k + Z.of_nat n → p ∈ chain s (Z.land (cb_bucket tid + j) (GPTPS_CB_BUCKETS - 1)) → depth_of s p ≠ 0)
  end.
Proof.
  intros HI Hno. revert k. induction n as [|n IH]; intros k; cbn [take_loop]; [split; [done|]; intros _ j p; lia|].
  destruct (list_find _ _) as [[i p]|] eqn:Hf.
  - apply list_find_Some in Hf as (Hi & Hd & _). by apply (take_over s f tid k i p).
  - apply list_find_None in Hf. rewrite Forall_forall in Hf.
    destruct (negb any && (n_cb_threads s <? GPTPS_CB_THREADS_MAX)) eqn:Hs.
    + apply andb_prop in Hs as [Ha Hn]. apply Z.ltb_lt in Hn. split; [done|]. intros [->|]; [done|lia].
    + specialize (IH (k + 1)). destruct (take_loop n (k + 1) tid any s) as [[p|] s']; [done|]. destruct IH as [-> IH].
      split; [done|]. intros Hall j p Hj Hp. destruct (decide (j = k)) as [->|]; [by apply Hf|]. eapply (IH Hall j); [lia|done].
Qed.
Lemma take_idle_spec s f tid any : inv s f → (∀ q, q ∈ linked s → tid_of s q ≠ tid) →
  match cb_take_idle tid any s with
  | (Some p, s') => inv s' f ∧ p ∈ linked s' ∧ tid_of s' p = tid
  | (None, s') => s' = s ∧ (any = true ∨ GPTPS_CB_THREADS_MAX ≤ n_cb_threads s → ∀ p, p ∈ linked s → depth_of s p ≠ 0)
  end.
Proof.
  intros HI Hno. unfold cb_take_idle. pose proof (take_loop_spec s f tid any (Z.to_nat GPTPS_CB_BUCKETS) 0 HI Hno) as H.
  destruct (take_loop _ _ _ _ _) as [[p|] s']; [done|]. destruct H as [-> H]. split; [done|]. intros Hall p Hp.
  apply linked_chain in Hp as (b & c & Hb & Hp). pose proof (lookup_lt_Some _ _ _ Hb) as Hlt. rewrite (j_len _ _ HI) in Hlt.
  unfold GPTPS_CB_BUCKETS in Hlt. pose proof (bucket_range tid) as Hr. unfold GPTPS_CB_BUCKETS in Hr.
  apply (H Hall ((Z.of_nat b - cb_bucket tid) mod 64)); [pose proof (Z.mod_pos_bound (Z.of_nat b - cb_bucket tid) 64); unfold GPTPS_CB_BUCKETS; lia|].
  change (GPTPS_CB_BUCKETS - 1) with (Z.ones 6). rewrite Z.land_ones by lia. change (2 ^ 6) with 64.
  rewrite Z.add_mod_idemp_r by lia. replace (cb_bucket tid + (Z.of_nat b - cb_bucket tid)) with (Z.of_nat b) by lia.
  rewrite Z.mod_small by lia. unfold chain. by rewrite Nat2Z.id, Hb.
Qed.

Lemma link_record_ok s s0 f tid p : inv s f → (∀ q, q ∈ linked s → tid_of s q ≠ tid) → p ∉ linked s →
  cb_threads s0 = cb_threads s → n_cb_threads s0 = n_cb_threads s →
  cb_store s0 !! p = Some (CbThread tid 0) → (∀ q, q ≠ p → cb_store s0 !! q = cb_store s !! q) →
  NoDup (p :: linked s ++ cb_spare s0) → (∀ q, q ∈ cb_spare s0 → q ∈ cb_spare s) →
  n_cb_threads s + 1 + Z.of_nat (length (cb_spare s0)) < 2 ^ 32 → (cb_sealed s0 = false → cb_spare s0 = []) →
  inv (link_record tid p s0) f ∧ p ∈ linked (link_record tid p s0) ∧ tid_of (link_record tid p s0) p = tid.
Proof.
  intros HI Hno Hp Eth En Hsp Hsq Hnd Hspare Hroom Hseal. pose proof (chain_at _ _ _ HI (bucket_range tid)) as Hc.
  assert (Hth : cb_threads (link_record tid p s0) = alter (cons p) (Z.to_nat (cb_bucket tid)) (cb_threads s)) by (by rewrite <-Eth).
  assert (HP : linked (link_record tid p s0) ≡ₚ p :: linked s) by (unfold linked; rewrite Hth; by eapply concat_alter_cons).
  assert (Hn : n_cb_threads (link_record tid p s0) = n_cb_threads s + 1).
  { change (u32 (n_cb_threads s0 + 1) = n_cb_threads s + 1). rewrite En. pose proof (j_n _ _ HI). apply u32_small. lia. }
  apply (inv_adopt s); try done.
  - rewrite Hth, length_alter. apply (j_len _ _ HI).
  - change (NoDup (linked (link_record tid p s0) ++ cb_spare s0)). by rewrite HP.
  - change (∀ q, q ∈ cb_spare s0 → q ∈ cb_spare s ∧ q ≠ p). intros q Hq. split; [by apply Hspare|]. intros ->.
    apply NoDup_cons in Hnd as [Hnd _]. apply Hnd, elem_of_app. by right.
  - intros q. by rewrite HP, elem_of_cons.
  - rewrite Hth. intros b c q Hb Hq. destruct (decide (b = Z.to_nat (cb_bucket tid))) as [->|N].
    + rewrite list_lookup_alter_eq, Hc in Hb. cbn in Hb. injection Hb as <-. destruct (decide (q = p)) as [->|Hqp]; [done|].
      apply elem_of_cons in Hq as [?|Hq]; [done|]. by exists (chain s (cb_bucket tid)).
    + rewrite list_lookup_alter_ne in Hb by done. destruct (decide (q = p)) as [->|Hqp]; [|by exists c].
      destruct Hp. apply linked_chain. by exists b, c.
  - rewrite Hn, HP. cbn [length]. pose proof (j_n _ _ HI). lia.
  - change (n_cb_threads (link_record tid p s0) + Z.of_nat (length (cb_spare s0)) < 2 ^ 32). rewrite Hn. lia.
Qed.

Definition all_busy (s : callbacks) : Prop := ∀ p, p ∈ linked s → depth_of s p ≠ 0.
Lemma cb_get_spec s f tid mem : inv s f → (∀ p, mem = Some p → cb_store s !! p = None) →
  match cb_get tid mem s with
  | (Some p, s') => inv s' f ∧ p ∈ linked s' ∧ tid_of s' p = tid
  | (None, s') => s' = s ∧ (∀ q, q ∈ linked s → tid_of s q ≠ tid) ∧
      (mem = None ∨ all_busy s ∧ (cb_sealed s = true ∨ GPTPS_CB_THREADS_MAX ≤ n_cb_threads s))
  end.
Proof.
  intros HI Hmem. unfold cb_get. pose proof (find_tid s f tid HI) as Hfind. destruct (list_find _ _) as [[i p]|]; [done|].
  pose proof (take_idle_spec s f tid false HI Hfind) as Ht. destruct (cb_take_idle tid false s) as [[p|] s1]; [done|].
  destruct Ht as [-> Ht]. destruct (cb_sealed s) eqn:Hs.
  - destruct (cb_spare s) as [|p spare] eqn:Hsp.
    + pose proof (take_idle_spec s f tid true HI Hfind) as Ht'. destruct (cb_take_idle tid true s) as [[p|] s1]; [done|].
      destruct Ht' as [-> Ht']. split; [done|]. split; [done|]. right. split; [intros p; apply Ht'; by left|by left].
    + assert (Hin : p ∈ cb_spare s) by (rewrite Hsp; left).
      destruct (j_store _ _ HI p) as [t Hst]; [apply elem_of_app; by right|].
      assert (Hd0 : c_depth t = 0) by (pose proof (j_spare _ _ HI p Hin) as H; unfold depth_of, cb_rec in H; by rewrite Hst in H).
      pose proof (j_nodup _ _ HI) as Hnd. rewrite Hsp in Hnd. rewrite <-Permutation_middle in Hnd.
      apply link_record_ok with s; try done.
      * intros Hl. apply NoDup_cons in Hnd as [Hnd _]. apply Hnd, elem_of_app. by left.
      * rewrite set_rec_lookup, decide_True by done. change (cb_store (s <| cb_spare := spare |>)) with (cb_store s). rewrite Hst.
        cbn. by rewrite Hd0.
      * intros q Hq. by rewrite set_rec_lookup, decide_False by done.
      * change (∀ q, q ∈ spare → q ∈ cb_spare s). intros q Hq. rewrite Hsp. by right.
      * change (n_cb_threads s + 1 + Z.of_nat (length spare) < 2 ^ 32). pose proof (j_room _ _ HI) as H. rewrite Hsp in H. cbn in H. lia.
      * change (cb_sealed s = false → spare = []). by rewrite Hs.
  - destruct (Z.ltb_spec (n_cb_threads s) GPTPS_CB_THREADS_MAX) as [Hn|Hn].
    + destruct mem as [p|]; [|split; [done|split; [done|by left]]]. specialize (Hmem p eq_refl).
      assert (Hp : p ∉ linked s ++ cb_spare s) by (intros Hin; destruct (j_store _ _ HI p Hin); congruence).
      apply link_record_ok with s; try done.
      * intros Hl. apply Hp, elem_of_app. by left.
      * apply lookup_insert_eq.
      * intros q Hq. by apply lookup_insert_ne.
      * constructor; [done|]. apply (j_nodup _ _ HI).
      * change (n_cb_threads s + 1 + Z.of_nat (length (cb_spare s)) < 2 ^ 32). rewrite (j_seal _ _ HI Hs).
        unfold GPTPS_CB_THREADS_MAX in Hn. cbn. lia.
      * change (cb_sealed s = false → cb_spare s = []). apply (j_seal _ _ HI).
    + split; [done|]. split; [done|]. right. split; [intros p; apply Ht; by right|by right].
Qed.

(** ** The steps *)

Lemma inv_depth s f tid p l d : inv s f → p ∈ linked s → tid_of s p = tid → Z.of_nat (length l) < 2 ^ 32 →
  (∀ t, t ≠ p → Some t ∈ l → Some t ∈ f tid) → d = Z.of_nat (guarded l) →
  inv (set_rec p (λ t, t <| c_depth := d |>) s) (put_in tid l f).
Proof.
  intros HI Hp Ht Hl Hin Hd. set (s' := set_rec p _ s).
  destruct (j_store _ _ HI p) as [t Hst]; [apply elem_of_app; by left|].
  assert (Hrp : cb_rec s' p = CbThread tid d).
  { unfold cb_rec, s'. rewrite set_rec_lookup, decide_True, Hst by done. cbn. f_equal. unfold tid_of, cb_rec in Ht. by rewrite Hst in Ht. }
  assert (Hrq : ∀ q, q ≠ p → cb_rec s' q = cb_rec s q) by (intros q Hq; unfold cb_rec, s'; by rewrite set_rec_lookup, decide_False by done).
  assert (Htq : ∀ q, tid_of s' q = tid_of s q).
  { intros q. unfold tid_of. destruct (decide (q = p)) as [->|]; [rewrite Hrp; symmetry; exact Ht|by rewrite Hrq]. }
  change (linked s) with (linked s') in Hp.
  constructor; try (first [apply (j_len _ _ HI)|apply (j_nodup _ _ HI)|apply (j_n _ _ HI)|apply (j_room _ _ HI)|apply (j_seal _ _ HI)]).
  - intros q Hq. unfold s'. rewrite set_rec_lookup. destruct (decide (q = p)) as [->|]; [rewrite Hst; by eexists|]. by apply (j_store _ _ HI).
  - intros b c q Hb Hq. rewrite Htq. by eapply (j_home _ _ HI).
  - intros q1 q2 H1 H2. rewrite !Htq. by apply (j_tids _ _ HI).
  - intros q Hq. rewrite Htq. unfold put_in. destruct (decide (tid_of s q = tid)) as [E|E].
    + assert (q = p) as -> by (apply (j_tids _ _ HI); [done|done|congruence]). unfold depth_of. by rewrite Hrp.
    + assert (q ≠ p) by (intros ->; congruence). unfold depth_of. rewrite Hrq by done. by apply (j_depth _ _ HI).
  - intros t' q Hq. rewrite Htq. unfold put_in in Hq. destruct (decide (t' = tid)) as [->|]; [|by apply (j_in _ _ HI)].
    destruct (decide (q = p)) as [->|N]; [done|]. by apply (j_in _ _ HI), Hin.
  - intros q Hq. assert (q ≠ p).
    { intros ->. pose proof (j_nodup _ _ HI) as H. apply NoDup_app in H as (_ & H & _). by apply (H p). }
    unfold depth_of. rewrite Hrq by done. by apply (j_spare _ _ HI).
  - intros t'. unfold put_in. destruct (decide (t' = tid)); [done|]. apply (j_stack _ _ HI).
Qed.
Lemma inv_same s f tid l : inv s f → guarded l = guarded (f tid) → Z.of_nat (length l) < 2 ^ 32 →
  (∀ p, Some p ∈ l → Some p ∈ f tid) → inv s (put_in tid l f).
Proof.
  intros HI Hg Hl Hin. destruct HI as [H1 H2 H3 H4 H5 H6 H7 H8 H9 H10 H11 H12]. constructor; try done.
  - intros p Hp. rewrite H6 by done. unfold put_in. destruct (decide (tid_of s p = tid)) as [->|]; [by rewrite Hg|done].
  - intros t p Hp. unfold put_in in Hp. destruct (decide (t = tid)) as [->|]; [by apply H7, Hin|by apply H7].
  - intros t. unfold put_in. by destruct (decide (t = tid)).
Qed.

Lemma inv_cb_enter s f tid mem : inv s f → (∀ p, mem = Some p → cb_store s !! p = None) → Z.of_nat (length (f tid)) + 1 < 2 ^ 32 →
  inv (cb_enter_locked tid mem s).2 (put_in tid ((cb_enter_locked tid mem s).1 :: f tid) f).
Proof.
  intros HI Hmem Hl. unfold cb_enter_locked. pose proof (cb_get_spec s f tid mem HI Hmem) as Hg.
  destruct (cb_get tid mem s) as [[p|] s']; cbn [fst snd].
  - destruct Hg as (HI' & Hp & Ht).
    assert (E : set_rec p (λ t, t <| c_depth ::= λ d, u32 (d + 1) |>) s' =
      set_rec p (λ t, t <| c_depth := Z.of_nat (guarded (Some p :: f tid)) |>) s').
    { unfold set_rec. destruct s' as [st th n sp sl]. cbn. f_equal. apply map_eq. intros q. rewrite !lookup_alter.
      destruct (decide (p = q)) as [<-|]; [|done]. destruct (st !! p) as [t|] eqn:Hst; [|done]. cbn. do 2 f_equal.
      pose proof (j_depth _ _ HI' p Hp) as Hd. rewrite Ht in Hd. unfold depth_of, cb_rec in Hd. cbn in Hd. rewrite Hst in Hd. cbn in Hd.
      pose proof (guarded_le (f tid)). rewrite Hd, u32_small by lia. lia. }
    rewrite E. apply inv_depth; [done|done|done|cbn [length]; lia| |done].
    intros t Hne [?|Hin]%elem_of_cons; [congruence|done].
  - destruct Hg as (-> & _ & _). apply inv_same; [done|done|cbn [length]; lia|]. intros p [?|Hin]%elem_of_cons; [done|done].
Qed.
Lemma inv_cb_leave s f tid t l : inv s f → f tid = t :: l → inv (cb_leave t s) (put_in tid l f).
Proof.
  intros HI Hf. pose proof (j_stack _ _ HI tid) as Hl. rewrite Hf in Hl. cbn [length] in Hl. destruct t as [p|]; cbn [cb_leave].
  - destruct (j_in _ _ HI tid p) as [Hp Ht]; [rewrite Hf; by left|].
    assert (E : set_rec p (λ t, t <| c_depth ::= λ d, u32 (d - 1) |>) s = set_rec p (λ t, t <| c_depth := Z.of_nat (guarded l) |>) s).
    { unfold set_rec. destruct s as [st th n sp sl] eqn:Es. cbn. f_equal. apply map_eq. intros q. rewrite !lookup_alter.
      destruct (decide (p = q)) as [<-|]; [|done]. destruct (st !! p) as [t|] eqn:Hst; [|done]. cbn. do 2 f_equal.
      pose proof (j_depth _ _ HI p Hp) as Hd. rewrite Ht, Hf in Hd. unfold depth_of, cb_rec in Hd. cbn in Hd. rewrite Hst in Hd. cbn in Hd.
      pose proof (guarded_le l). rewrite Hd, u32_small by lia. lia. }
    rewrite E. apply inv_depth; [done|done|done|lia| |done]. intros t _ Hin. rewrite Hf. by right.
  - apply inv_same; [done|by rewrite Hf|lia|]. intros p Hin. rewrite Hf. by right.
Qed.
Lemma fold_insert_lookup ps (m : gmap positive cb_thread) q :
  foldr (λ p m, <[p := CbThread 0 0]> m) m ps !! q = if decide (q ∈ ps) then Some (CbThread 0 0) else m !! q.
Proof.
  induction ps as [|p ps IH]; [by rewrite decide_False by (by intros ?%elem_of_nil)|]. cbn.
  destruct (decide (q = p)) as [->|N]; [rewrite lookup_insert_eq, decide_True by left; done|]. rewrite lookup_insert_ne, IH by done.
  destruct (decide (q ∈ ps)); [rewrite decide_True by (by right); done|]. rewrite decide_False; [done|]. by intros [?|?]%elem_of_cons.
Qed.
Lemma inv_seal s f ps : inv s f → cb_sealed s = false → NoDup ps → (∀ p, p ∈ ps → cb_store s !! p = None) →
  n_cb_threads s + Z.of_nat (length ps) < 2 ^ 32 → inv (seal_records ps s) f.
Proof.
  intros HI Hs Hnd Hnew Hroom. set (s' := seal_records ps s).
  assert (Hl : ∀ q, cb_store s' !! q = if decide (q ∈ ps) then Some (CbThread 0 0) else cb_store s !! q) by (intros q; apply fold_insert_lookup).
  assert (Hdis : ∀ q, q ∈ linked s → q ∉ ps).
  { intros q Hq Hin. destruct (j_store _ _ HI q) as [t Ht]; [apply elem_of_app; by left|]. by rewrite Hnew in Ht. }
  assert (Hr : ∀ q, q ∈ linked s → cb_rec s' q = cb_rec s q) by (intros q Hq; unfold cb_rec; by rewrite Hl, decide_False by by apply Hdis).
  destruct HI as [H1 H2 H3 H4 H5 H6 H7 H8 H9 H10 H11 H12]. constructor; try done.
  - change (NoDup (linked s ++ ps)). apply NoDup_app. split; [by apply NoDup_app in H2 as (? & _ & _)|done].
  - change (∀ p, p ∈ linked s ++ ps → is_Some (cb_store s' !! p)). intros q Hq. rewrite Hl. destruct (decide (q ∈ ps)); [by eexists|].
    apply elem_of_app in Hq as [Hq|Hq]; [|done]. apply H3, elem_of_app. by left.
  - intros b c q Hb Hq. unfold tid_of. rewrite Hr; [by eapply H4|]. apply linked_chain. by exists b, c.
  - change (linked s') with (linked s). intros q1 q2 Hq1 Hq2. unfold tid_of. rewrite !Hr by done. by apply H5.
  - change (linked s') with (linked s). intros q Hq. unfold depth_of, tid_of. rewrite Hr by done. by apply H6.
  - change (linked s') with (linked s). intros t q Hq. unfold tid_of. destruct (H7 t q Hq) as [Hin Ht]. by rewrite Hr.
  - change (∀ p, p ∈ ps → depth_of s' p = 0). intros q Hq. unfold depth_of, cb_rec. by rewrite Hl, decide_True.
Qed.
Lemma inv_cb_reachable w : cb_reachable w → inv (cw_s w) (cw_in w).
Proof.
  intros H. apply (rtc_ind_r (λ w, inv (cw_s w) (cw_in w))) in H; [done| |].
  - constructor; cbn [cw_s cw_in].
    all: try done. all: try (by intros ? ?%elem_of_nil). all: try (by intros ? ? ?%elem_of_nil).
    { constructor. }
    intros b c p Hb Hp. apply lookup_replicate in Hb as [-> _]. by apply elem_of_nil in Hp.
  - intros y z _ [tid mem s f _ Hmem Hl|tid t l s f Hf|ps s f Hs Hnd Hnew Hroom] HI; cbn [cw_s cw_in] in *;
      [by apply inv_cb_enter|by apply inv_cb_leave|by apply inv_seal].
Qed.

(** A record that is not idle is held by its thread. *)
Lemma busy_held s f p : inv s f → p ∈ linked s → depth_of s p ≠ 0 → ∃ t, Some p ∈ f t.
Proof.
  intros HI Hp Hd. rewrite (j_depth _ _ HI p Hp) in Hd. exists (tid_of s p). destruct (proj1 (guarded_in (f (tid_of s p)))) as [q Hin]; [lia|].
  destruct (j_in _ _ HI (tid_of s p) q Hin) as [Hl Ht]. assert (p = q) as <- by (by apply (j_tids _ _ HI)). done.
Qed.
(** [engine_in_callback] sees the guarded callbacks a thread is in, and those only. *)
Lemma in_callback_guarded s f step_tid owned tid : inv s f →
  engine_in_callback step_tid owned tid s = engine_is_reentrant step_tid owned tid || (0 <? Z.of_nat (guarded (f tid))).
Proof.
  intros HI. unfold engine_in_callback. destruct (engine_is_reentrant step_tid owned tid); [done|cbn [orb]].
  pose proof (find_tid s f tid HI) as Hf. destruct (list_find _ _) as [[i p]|].
  - destruct Hf as [Hp Ht]. change (c_depth (cb_rec s p)) with (depth_of s p). by rewrite (j_depth _ _ HI p Hp), Ht.
  - destruct (guarded (f tid)) as [|m] eqn:E; [done|]. destruct (proj1 (guarded_in (f tid))) as [q Hin]; [lia|].
    destruct (j_in _ _ HI tid q Hin) as [Hl Ht]. by destruct (Hf q Hl).
Qed.

(** C36: at every moment of every run of threads entering and leaving callbacks - records
    made, moved from chain to chain and taken over, the engine sealed along the way - the test
    that refuses [gptps_shutdown] and [gptps_step] says of a thread that it is inside a
    callback exactly if it is one of the engine's own or is inside a callback it has a
    record for; and [cb_enter] leaves a callback without a record only for a thread that is
    inside no recorded one, when there is no memory for a record, or when every record is
    held by a thread inside a callback and no more may be made: the engine is sealed, or
    has its 1024 records. *)
Theorem callbacks_guarded : ∀ w, cb_reachable w → ∀ tid,
  (∀ step_tid owned, engine_in_callback step_tid owned tid (cw_s w) =
     engine_is_reentrant step_tid owned tid || (0 <? Z.of_nat (guarded (cw_in w tid)))) ∧
  (∀ mem, (∀ p, mem = Some p → cb_store (cw_s w) !! p = None) → (cb_enter_locked tid mem (cw_s w)).1 = None →
     guarded (cw_in w tid) = 0%nat ∧
     (mem = None ∨
      (∀ p, p ∈ linked (cw_s w) → ∃ t, Some p ∈ cw_in w t) ∧
      (cb_sealed (cw_s w) = true ∨ GPTPS_CB_THREADS_MAX ≤ Z.of_nat (length (linked (cw_s w)))))).
Proof.
  intros w Hw tid. pose proof (inv_cb_reachable w Hw) as HI. split; [intros step_tid owned; by apply in_callback_guarded|].
  intros mem Hmem. unfold cb_enter_locked. pose proof (cb_get_spec (cw_s w) (cw_in w) tid mem HI Hmem) as Hg.
  destruct (cb_get tid mem (cw_s w)) as [[p|] s']; [done|]. intros _. destruct Hg as (_ & Hno & Hwhy). split.
  - destruct (guarded (cw_in w tid)) as [|m] eqn:E; [done|]. destruct (proj1 (guarded_in (cw_in w tid))) as [q Hin]; [lia|].
    destruct (j_in _ _ HI tid q Hin) as [Hl Ht]. by destruct (Hno q Hl).
  - destruct Hwhy as [?|[Hb Hn]]; [by left|right]. rewrite <-(j_n _ _ HI). split; [|done]. intros p Hp. exact (busy_held _ _ p HI Hp (Hb p Hp)).
Qed.

(** A thread inside a callback on a record of its own, and another that gets none, for want
    of memory. *)
Definition one_inside : cb_world :=
  let r := cb_enter_locked 5 (Some 1%positive) no_callbacks in CbWorld r.2 (put_in 5 [r.1] (λ _, [])).
Lemma callbacks_guarded_witness :
  cb_reachable one_inside ∧
  engine_in_callback 0 [9] 5 (cw_s one_inside) = engine_is_reentrant 0 [9] 5 || (0 <? Z.of_nat (guarded (cw_in one_inside 5))) ∧
  engine_in_callback 0 [9] 5 (cw_s one_inside) = true ∧
  (cb_enter_locked 7 None (cw_s one_inside)).1 = None ∧ guarded (cw_in one_inside 7) = 0%nat.
Proof.
  assert (H : cb_reachable one_inside).
  { apply rtc_once. apply (cb_enters 5 (Some 1%positive) no_callbacks (λ _, [])); [lia| |cbn; lia]. by intros p [= <-]. }
  split; [exact H|]. split; [apply (proj1 (callbacks_guarded one_inside H 5))|]. split; [vm_compute; reflexivity|].
  assert (E : (cb_enter_locked 7 None (cw_s one_inside)).1 = None) by (vm_compute; reflexivity). split; [exact E|].
  apply (proj2 (callbacks_guarded one_inside H 7) None); [discriminate|exact E].
Defined.

End CallbackFacts.
