(* ===== verification/Addons.v ===== *)
(** * Add-ons and the seams they plug into

    The loader of [src/engine.c] - [gptps_load_addon], [addon_unwind],
    [gptps_addon_disable] - and what an add-on's setup registers: observers, admission
    constraints, the scheduler, task types, settings.  A library is what the system gives
    for its path; an add-on's code is a function, or steps of its thread.  Tags of loads
    are numbers, [None] for NULL; a task type is here its slot, its name, its tag and
    whether it is removed (Registry.v models the rest of it).  Module AddonWorld has the
    loads among the calls of other threads. *)

From S2P Require Import Prelude Engine Registry Toml Settings.

Module Addons.
Import Engine Registry Settings.

(** ** Data *)

(** [gptps_observer] and [gptps_constraint]: a function, its data, the tag. *)
Record hook := Hook { h_fn : Z; h_ud : Z; h_tag : option N }.
#[export] Instance hook_dec : EqDecision hook.
Proof. solve_decision. Defined.
(** [sched_fn], [sched_ud], [sched_owner]; the function 0 is NULL. *)
Record seam := Seam { sc_fn : Z; sc_ud : Z; sc_owner : string }.
Record rtype := Rtype { t_id : positive; t_name : string; t_tag : option N; t_removed : bool }.
#[export] Instance eta_rtype : Eta rtype := λ r, Rtype (t_id r) (t_name r) (t_tag r) (t_removed r).

(** [gptps_addon], as 64-bit machines lay it out. *)
Record addon := Addon {
  a_struct_size : Z; a_magic : Z; a_abi_version_major : Z; a_name : option string; a_seam : Z;
  a_setup : bool; a_ns : option string; a_disable : bool }.
Definition GPTPS_ABI_MAGIC : Z := 0x47505450.
Definition GPTPS_ABI_VERSION_MAJOR : Z := 2.
Definition GPTPS_ADDON_MIN_SIZE : Z := 48.
(** [GPTPS_STRUCT_HAS] of the two fields appended. *)
Definition has_ns (a : addon) : bool := 56 <=? a_struct_size a.
Definition has_disable (a : addon) : bool := 64 <=? a_struct_size a.
Definition ns_of (a : addon) : option string := if has_ns a then a_ns a else None.

(** [gptps_loaded]; [ld_node] is its address. *)
Record loaded := Loaded { ld_node : positive; ld_path : string; ld_addon : addon; ld_enabled : bool }.
#[export] Instance eta_loaded : Eta loaded := λ r, Loaded (ld_node r) (ld_path r) (ld_addon r) (ld_enabled r).

Section addons.
Context {W : Type}.
Notation settings := (settings W).

(** The fields of [struct gptps] the loader and the seams use. *)
Record seams := Seams {
  sm_observers : list hook; sm_constraints : list hook;
  sm_sched : seam; sm_sched_tag : option N; sm_undo : seam;
  sm_cur_ns : option string; sm_cur_ns_tid : Z; sm_loading : bool; sm_stopping : bool;
  sm_addons : list loaded; sm_setup_on : bool; sm_setup_tid : Z; sm_setup_tag : option N; sm_load_seq : N;
  sm_types : list rtype; sm_settings : settings }.
#[export] Instance eta_seams : Eta seams := λ r,
  Seams (sm_observers r) (sm_constraints r) (sm_sched r) (sm_sched_tag r) (sm_undo r)
    (sm_cur_ns r) (sm_cur_ns_tid r) (sm_loading r) (sm_stopping r)
    (sm_addons r) (sm_setup_on r) (sm_setup_tid r) (sm_setup_tag r) (sm_load_seq r) (sm_types r) (sm_settings r).
Implicit Types (s : seams) (tid : Z).

Definition setup_tag_here tid s : option N := if sm_setup_on s && (sm_setup_tid s =? tid) then sm_setup_tag s else None.
(** The namespace in force on a thread. *)
Definition window tid s : option string := if sm_cur_ns_tid s =? tid then sm_cur_ns s else None.

(** ** The seams *)

Definition new_hook tid (fn ud : Z) s : hook := Hook fn ud (setup_tag_here tid s).
(** [sealed]: [bounded_sealed]; [mem]: the allocation succeeds. *)
Definition register_hook (put : hook → seams → seams) tid (sealed mem : bool) (fn ud : Z) s : status * seams :=
  if fn =? 0 then (GPTPS_E_INVAL, s)
  else if sealed then (GPTPS_E_BUSY, s)
  else if negb mem then (GPTPS_E_NOMEM, s)
  else (GPTPS_OK, put (new_hook tid fn ud s) s).
Definition gptps_register_observer := register_hook (λ h s, s <| sm_observers ::= cons h |>).
Definition gptps_register_constraint := register_hook (λ h s, s <| sm_constraints ::= cons h |>).

(** The walk that unlinks the first match. *)
Fixpoint unlink_hook (fn ud : Z) (l : list hook) : option (list hook) :=
  match l with
  | [] => None
  | h :: l => if (h_fn h =? fn) && (h_ud h =? ud) then Some l else (h ::.) <$> unlink_hook fn ud l
  end.
Definition gptps_unregister_observer (fn ud : Z) s : status * seams :=
  if fn =? 0 then (GPTPS_E_INVAL, s)
  else match unlink_hook fn ud (sm_observers s) with
       | Some l => (GPTPS_OK, s <| sm_observers := l |>)
       | None => (GPTPS_E_NOTFOUND, s)
       end.
Definition gptps_unregister_constraint (fn ud : Z) s : status * seams :=
  if fn =? 0 then (GPTPS_E_INVAL, s)
  else match unlink_hook fn ud (sm_constraints s) with
       | Some l => (GPTPS_OK, s <| sm_constraints := l |>)
       | None => (GPTPS_E_NOTFOUND, s)
       end.

Definition owner_of (fn : Z) (owner : option string) : string :=
  match owner with Some o => if fn =? 0 then "" else String.substring 0 31 o | None => "" end.
Definition gptps_set_scheduler_ex tid (fn ud : Z) (owner : option string) (replace : bool) s : status * seams :=
  let sc := sm_sched s in
  let self := (fn =? 0) && match owner with Some o => negb (sc_owner sc =? "")%string && (o =? sc_owner sc)%string | None => false end in
  if negb replace && negb (sc_fn sc =? 0) && negb self then (GPTPS_E_BUSY, s)
  else
    let tag := setup_tag_here tid s in
    let s := if bool_decide (tag ≠ None ∧ sm_sched_tag s ≠ tag) then s <| sm_undo := sc |> else s in
    (GPTPS_OK, s <| sm_sched_tag := tag |> <| sm_sched := Seam fn ud (owner_of fn owner) |>).
Definition gptps_set_scheduler tid (fn ud : Z) s : status * seams := gptps_set_scheduler_ex tid fn ud (Some "host") true s.
Definition gptps_scheduler_owner s : option string :=
  if negb (sc_fn (sm_sched s) =? 0) && negb (sc_owner (sm_sched s) =? "")%string then Some (sc_owner (sm_sched s)) else None.

(** A type registered, from its link in the registry on; it goes when it has drained. *)
Definition live_type (name : string) s : option rtype :=
  snd <$> list_find (λ t, t_name t = name ∧ t_removed t = false) (sm_types s).
Definition register_type tid (id : positive) (name : string) s : status * seams :=
  match live_type name s with
  | Some _ => (GPTPS_E_DUP, s)
  | None => (GPTPS_OK, s <| sm_types ::= cons (Rtype id name (setup_tag_here tid s) false) |>)
  end.
(** The start of [unregister_task], for [only_tag] or ([None]) any.  [busy]: the work of
    the type is in the way. *)
Definition unregister_type (busy : bool) (name : string) (only_tag : option N) s : status * seams :=
  if sm_stopping s then (GPTPS_E_SHUTDOWN, s)
  else
    match live_type name s with
    | Some t =>
        if bool_decide (only_tag ≠ None ∧ t_tag t ≠ only_tag) then (GPTPS_E_NOTFOUND, s)
        else if busy then (GPTPS_E_BUSY, s)
        else (GPTPS_OK, s <| sm_types ::= map (λ u, if decide (t_id u = t_id t) then u <| t_removed := true |> else u) |>)
    | None => (GPTPS_E_NOTFOUND, s)
    end.
Definition unlink_type (id : positive) s : seams := s <| sm_types ::= filter (λ t, t_id t ≠ id) |>.

(** [gptps_register_setting]: the entry, then its tag. *)
Definition gptps_register_setting tid (sealed : bool) (w : W) (def : setting_def W) s : status * seams :=
  if sealed then (GPTPS_E_BUSY, s)
  else if negb (ns_ok (window tid s) (String.string_of_list_ascii (d_key def))) then (GPTPS_E_INVAL, s)
  else
    let '(r, st) := settings_add_owned (sm_settings s) w def None in
    if decide (st = GPTPS_OK) then
      let r := match setup_tag_here tid s with Some tag => set_tag r (d_key def) (Some tag) | None => r end in
      (GPTPS_OK, s <| sm_settings := r |>)
    else (st, s).
Definition api_settings_watch tid (cb : N) s : seams :=
  s <| sm_settings ::= λ r, watch_add r cb true (setup_tag_here tid s) |>.

(** ** Loading *)

(** What [gptps_dl_open], [gptps_dl_sym] and the library's [gptps_addon_init] give. *)
Inductive library := NoLibrary | NoSymbol | NoAddon | Init (a : addon).
Definition check_library (l : library) : status + addon :=
  match l with
  | NoLibrary => inl GPTPS_E_IO
  | NoSymbol | NoAddon => inl GPTPS_E_ABI
  | Init a =>
      if negb (a_magic a =? GPTPS_ABI_MAGIC) || negb (a_abi_version_major a =? GPTPS_ABI_VERSION_MAJOR) ||
         (a_struct_size a <? GPTPS_ADDON_MIN_SIZE) || bool_decide (a_name a = None)
      then inl GPTPS_E_ABI else inr a
  end.
Definition load_claim s : status * seams :=
  if sm_stopping s then (GPTPS_E_SHUTDOWN, s)
  else if sm_loading s then (GPTPS_E_BUSY, s)
  else (GPTPS_OK, s <| sm_loading := true |>).
Definition LOAD_RELEASE s : seams := s <| sm_loading := false |>.
Definition ns_taken (ns : string) s : bool := existsb (λ l, bool_decide (ns_of (ld_addon l) = Some ns)) (sm_addons s).
Definition claim_ns (a : addon) s : status :=
  match ns_of a with
  | Some ns => if negb (ns_token_valid ns) then GPTPS_E_ABI else if ns_taken ns s then GPTPS_E_DUP else GPTPS_OK
  | None => GPTPS_OK
  end.
(** [(const void * )++e->load_seq] *)
Definition next_tag s : N := ((sm_load_seq s + 1) mod 2 ^ 64)%N.
Definition open_window tid (ns : option string) s : seams :=
  s <| sm_cur_ns := ns |> <| sm_cur_ns_tid := tid |> <| sm_setup_tid := tid |> <| sm_setup_on := true |>
    <| sm_load_seq := next_tag s |> <| sm_setup_tag := if decide (next_tag s = 0%N) then None else Some (next_tag s) |>.
Definition close_window s : seams :=
  s <| sm_cur_ns := None |> <| sm_cur_ns_tid := 0 |> <| sm_setup_on := false |> <| sm_setup_tid := 0 |> <| sm_setup_tag := None |>.
Definition forget (tag : N) s : seams := s <| sm_settings ::= λ r, forget_tag r tag |>.

(** The first section of [addon_unwind]. *)
Definition unwind_seams (tag : N) s : seams :=
  let s := s <| sm_observers ::= filter (λ h, h_tag h ≠ Some tag) |> <| sm_constraints ::= filter (λ h, h_tag h ≠ Some tag) |> in
  if decide (sm_sched_tag s = Some tag) then s <| sm_sched := sm_undo s |> <| sm_sched_tag := None |> else s.
(** The oldest type of the load that is left. *)
Definition oldest_of (tag : N) s : option rtype := last (filter (λ t, t_tag t = Some tag ∧ t_removed t = false) (sm_types s)).
(** The loop: [busy] says of which types the engine refuses the removal. *)
Fixpoint unwind_types (fuel : nat) (busy : string → bool) (tag : N) s : seams :=
  match fuel with
  | O => s
  | S fuel =>
      match oldest_of tag s with
      | None => s
      | Some mine =>
          let '(st, s) := unregister_type (busy (t_name mine)) (t_name mine) (Some tag) s in
          if decide (st = GPTPS_OK) then unwind_types fuel busy tag (unlink_type (t_id mine) s)
          else if decide (st = GPTPS_E_NOTFOUND) then unwind_types fuel busy tag s
          else s
      end
  end.
Definition addon_unwind (busy : string → bool) (tag : N) s : seams :=
  let s := unwind_seams tag s in unwind_types (S (length (sm_types s))) busy tag s.
Definition publish (node : loaded) s : seams := s <| sm_addons ::= cons node |> <| sm_loading := false |>.

(** [gptps_load_addon] with no other thread about: [mem] is the node with its path, [setup]
    what the add-on's setup does. *)
Definition gptps_load_addon tid (sealed : bool) (path : string) (lib : library) (mem : option positive)
    (setup : seams → seams * status) (busy : string → bool) s : status * seams :=
  if sealed then (GPTPS_E_BUSY, s)
  else
    let '(st, s) := load_claim s in
    if decide (st = GPTPS_OK) then
      match check_library lib with
      | inl st => (st, LOAD_RELEASE s)
      | inr a =>
          let st := claim_ns a s in
          if decide (st = GPTPS_OK) then
            match mem with
            | None => (GPTPS_E_NOMEM, LOAD_RELEASE s)
            | Some node =>
                if a_setup a then
                  let s := open_window tid (ns_of a) s in
                  let tag := sm_load_seq s in
                  let '(s, st) := setup s in
                  if decide (st = GPTPS_OK) then (GPTPS_OK, publish (Loaded node path a true) (close_window s))
                  else (st, LOAD_RELEASE (addon_unwind busy tag (close_window (forget tag s))))
                else (GPTPS_OK, publish (Loaded node path a true) s)
            end
          else (st, LOAD_RELEASE s)
      end
    else (st, s).

(** ** Loaded add-ons *)

Definition gptps_addon_count s : nat := length (sm_addons s).
Record addon_info := AddonInfo {
  ai_name : option string; ai_ns : option string; ai_path : string; ai_seam : Z; ai_abi : Z; ai_enabled : bool }.
Definition gptps_addon_get_info (index : nat) s : status * option addon_info :=
  match sm_addons s !! index with
  | Some l => let a := ld_addon l in
      (GPTPS_OK, Some (AddonInfo (a_name a) (ns_of a) (ld_path l) (a_seam a) (a_abi_version_major a) (ld_enabled l)))
  | None => (GPTPS_E_NOTFOUND, None)
  end.
Definition set_enabled (node : positive) (b : bool) s : seams :=
  s <| sm_addons ::= map (λ l, if decide (ld_node l = node) then l <| ld_enabled := b |> else l) |>.
(** The namespace first, then the name. *)
Definition addon_named (ns_or_name : string) s : option loaded :=
  match snd <$> list_find (λ l, ns_of (ld_addon l) = Some ns_or_name) (sm_addons s) with
  | Some l => Some l
  | None => snd <$> list_find (λ l, a_name (ld_addon l) = Some ns_or_name) (sm_addons s)
  end.
(** [gptps_addon_disable] up to the call of the hook: the status if it returns already, or
    the node whose hook it calls. *)
Definition disable_begin (ns_or_name : string) s : (status + positive) * seams :=
  if sm_stopping s then (inl GPTPS_E_SHUTDOWN, s)
  else
    match addon_named ns_or_name s with
    | None => (inl GPTPS_E_NOTFOUND, s)
    | Some l =>
        if negb (ld_enabled l) then (inl GPTPS_OK, s)
        else if negb (has_disable (ld_addon l) && a_disable (ld_addon l)) then (inl GPTPS_E_INVAL, s)
        else (inr (ld_node l), set_enabled (ld_node l) false s)
    end.
(** And after it. *)
Definition disable_end (node : positive) (st : status) s : status * seams :=
  if decide (st = GPTPS_OK) then (GPTPS_OK, s) else (st, set_enabled node true s).

End addons.
Arguments seams W : clear implicits.
End Addons.

(** * Loads among other threads

    A load section by section - each constructor of [load_step] is a section of
    [gptps_load_addon] under a lock, or what it does between two - with the calls other
    threads and the add-on's own setup make in between. *)

Module AddonWorld.
Import Engine Settings Addons.

(** Where a thread is in [gptps_load_addon]; [st]: the status it will return. *)
Inductive phase :=
  | Claimed (lib : library) (path : string)                              (** [loading] is its *)
  | Named (node : positive) (path : string) (a : addon)                  (** the name is free, the node made *)
  | InSetup (node : positive) (path : string) (a : addon) (tag : N)      (** the add-on's code *)
  | SetupOk (node : positive) (path : string) (a : addon) (tag : N)
  | Ready (node : positive) (path : string) (a : addon)                  (** about to be published *)
  | SetupFailed (tag : N) (st : status)
  | Forgot (tag : N) (st : status)                                       (** its settings are gone *)
  | Closed (tag : N) (st : status)                                       (** the window is closed *)
  | Unwinding (tag : N) (st : status)                                    (** its hooks are gone *)
  | Removing (tag : N) (st : status) (name : string)
  | Draining (tag : N) (st : status) (id : positive)
  | Leaving (st : status).

Section world.
Context {W : Type}.

(** Beside the engine's fields and the loads that run: the tags of the loads whose setup
    succeeded, those of which the engine refused the removal of a type, the scheduler as
    others set it last, and the nodes whose disable hook runs. *)
Record aworld := AWorld {
  aw_s : seams W; aw_loads : gmap Z phase; aw_done : list N; aw_stuck : list N; aw_host : seam; aw_disabling : list positive }.
#[export] Instance eta_aworld : Eta aworld := λ r,
  AWorld (aw_s r) (aw_loads r) (aw_done r) (aw_stuck r) (aw_host r) (aw_disabling r).
Implicit Types (s : seams W) (w : aworld) (tid : Z).

Definition no_seam : seam := Seam 0 0 "".
Definition fresh_seams : seams W :=
  Seams [] [] no_seam None no_seam None 0 false false [] false 0 None 0 [] settings_create.
Definition aw_start : aworld := AWorld fresh_seams ∅ [] [] no_seam [].

(** Calls of a thread, or of the code the engine runs on it. *)
Inductive seam_call tid s : seams W → Prop :=
  | calls_observe sealed mem fn ud : seam_call tid s (gptps_register_observer tid sealed mem fn ud s).2
  | calls_constrain sealed mem fn ud : seam_call tid s (gptps_register_constraint tid sealed mem fn ud s).2
  | calls_unobserve fn ud : seam_call tid s (gptps_unregister_observer fn ud s).2
  | calls_unconstrain fn ud : seam_call tid s (gptps_unregister_constraint fn ud s).2
  | calls_register id name : id ∉ map t_id (sm_types s) → seam_call tid s (register_type tid id name s).2
  | calls_unregister busy name : seam_call tid s (unregister_type busy name None s).2
  | calls_drained t : t ∈ sm_types s → t_removed t = true → seam_call tid s (unlink_type (t_id t) s)
  | calls_setting sealed x def : seam_call tid s (gptps_register_setting tid sealed x def s).2
  | calls_watch cb : seam_call tid s (api_settings_watch tid cb s)
  | calls_publish p : s_tag p = None → seam_call tid s (s <| sm_settings ::= λ r, (settings_publish r p).1 |>)
  | calls_remove_task owner pre keep : seam_call tid s (s <| sm_settings ::= λ r, (remove_task r owner pre keep).1 |>)
  | calls_stop : seam_call tid s (s <| sm_stopping := true |>).

(** The add-on's code, or a watcher, may run on this thread. *)
Definition acts w tid : Prop :=
  match aw_loads w !! tid with
  | None | Some (InSetup _ _ _ _) | Some (Closed _ _) | Some (Ready _ _ _) => True
  | _ => False
  end.
Definition at_ w tid (ph : phase) : Prop := aw_loads w !! tid = Some ph.
Definition to tid (ph : phase) (s : seams W) w : aworld := w <| aw_s := s |> <| aw_loads ::= <[tid := ph]> |>.

Inductive load_step tid w : aworld → Prop :=
  | load_claims lib path : aw_loads w !! tid = None → (load_claim (aw_s w)).1 = GPTPS_OK →
      load_step tid w (to tid (Claimed lib path) (load_claim (aw_s w)).2 w)
  | load_unfit lib path st : at_ w tid (Claimed lib path) → check_library lib = inl st → load_step tid w (to tid (Leaving st) (aw_s w) w)
  | load_unnamed lib path a : at_ w tid (Claimed lib path) → check_library lib = inr a → claim_ns a (aw_s w) ≠ GPTPS_OK →
      load_step tid w (to tid (Leaving (claim_ns a (aw_s w))) (aw_s w) w)
  | load_no_memory lib path a : at_ w tid (Claimed lib path) → check_library lib = inr a → claim_ns a (aw_s w) = GPTPS_OK →
      load_step tid w (to tid (Leaving GPTPS_E_NOMEM) (aw_s w) w)
  | load_names lib path a node : at_ w tid (Claimed lib path) → check_library lib = inr a → claim_ns a (aw_s w) = GPTPS_OK →
      node ∉ map ld_node (sm_addons (aw_s w)) → load_step tid w (to tid (Named node path a) (aw_s w) w)
  | load_plain node path a : at_ w tid (Named node path a) → a_setup a = false → load_step tid w (to tid (Ready node path a) (aw_s w) w)
  | load_opens node path a : at_ w tid (Named node path a) → a_setup a = true → (sm_load_seq (aw_s w) + 1 < 2 ^ 64)%N →
      load_step tid w (to tid (InSetup node path a (next_tag (aw_s w))) (open_window tid (ns_of a) (aw_s w)) w)
  | load_set_up node path a tag : at_ w tid (InSetup node path a tag) →
      load_step tid w (to tid (SetupOk node path a tag) (aw_s w) w <| aw_done ::= cons tag |> <| aw_host := sm_sched (aw_s w) |>)
  | load_setup_fails node path a tag st : at_ w tid (InSetup node path a tag) → st ≠ GPTPS_OK →
      load_step tid w (to tid (SetupFailed tag st) (aw_s w) w)
  | load_ready node path a tag : at_ w tid (SetupOk node path a tag) → load_step tid w (to tid (Ready node path a) (close_window (aw_s w)) w)
  | load_publishes node path a : at_ w tid (Ready node path a) →
      load_step tid w (w <| aw_s := publish (Loaded node path a true) (aw_s w) |> <| aw_loads ::= delete tid |>)
  | load_forgets tag st : at_ w tid (SetupFailed tag st) → load_step tid w (to tid (Forgot tag st) (forget tag (aw_s w)) w)
  | load_closes tag st : at_ w tid (Forgot tag st) → load_step tid w (to tid (Closed tag st) (close_window (aw_s w)) w)
  | load_unhooks tag st : at_ w tid (Closed tag st) → load_step tid w (to tid (Unwinding tag st) (unwind_seams tag (aw_s w)) w)
  | load_scans tag st t : at_ w tid (Unwinding tag st) → oldest_of tag (aw_s w) = Some t →
      load_step tid w (to tid (Removing tag st (t_name t)) (aw_s w) w)
  | load_unwound tag st : at_ w tid (Unwinding tag st) → oldest_of tag (aw_s w) = None → load_step tid w (to tid (Leaving st) (aw_s w) w)
  | load_removes tag st name t busy : at_ w tid (Removing tag st name) → live_type name (aw_s w) = Some t →
      (unregister_type busy name (Some tag) (aw_s w)).1 = GPTPS_OK →
      load_step tid w (to tid (Draining tag st (t_id t)) (unregister_type busy name (Some tag) (aw_s w)).2 w)
  | load_missed tag st name busy : at_ w tid (Removing tag st name) → (unregister_type busy name (Some tag) (aw_s w)).1 = GPTPS_E_NOTFOUND →
      load_step tid w (to tid (Unwinding tag st) (aw_s w) w)
  | load_stuck tag st name busy : at_ w tid (Removing tag st name) →
      (unregister_type busy name (Some tag) (aw_s w)).1 ∉ [GPTPS_OK; GPTPS_E_NOTFOUND] →
      load_step tid w (to tid (Leaving st) (aw_s w) w <| aw_stuck ::= cons tag |>)
  | load_drained tag st id : at_ w tid (Draining tag st id) → load_step tid w (to tid (Unwinding tag st) (unlink_type id (aw_s w)) w)
  | load_leaves st : at_ w tid (Leaving st) → load_step tid w (w <| aw_s := LOAD_RELEASE (aw_s w) |> <| aw_loads ::= delete tid |>).

Inductive aw_step : aworld → aworld → Prop :=
  | step_loads tid w w' : load_step tid w w' → aw_step w w'
  | step_calls tid w s' : acts w tid → seam_call tid (aw_s w) s' → aw_step w (w <| aw_s := s' |>)
  | step_schedules tid w fn ud owner replace st s' : acts w tid →
      gptps_set_scheduler_ex tid fn ud owner replace (aw_s w) = (st, s') →
      aw_step w (w <| aw_s := s' |> <| aw_host ::= λ h,
        if decide (st = GPTPS_OK ∧ setup_tag_here tid (aw_s w) = None) then sm_sched s' else h |>)
  | step_disables w name node s' : disable_begin name (aw_s w) = (inr node, s') →
      aw_step w (w <| aw_s := s' |> <| aw_disabling ::= cons node |>)
  | step_disabled w node st : node ∈ aw_disabling w →
      aw_step w (w <| aw_s := (disable_end node st (aw_s w)).2 |> <| aw_disabling ::= filter (λ n, n ≠ node) |>).
Definition aw_reachable : aworld → Prop := rtc aw_step aw_start.

End world.
Arguments aworld W : clear implicits.
End AddonWorld.
