(* ===== verification/AddonFacts.v ===== *)
(** * What loads leave behind

    The tags of what is registered tell whose it is, in every run of loads among calls of
    other threads; a load that failed leaves nothing, and takes nothing else with it. *)

From S2P Require Import Prelude Engine Registry Toml Settings SettingsFacts Addons.

Module AddonFacts.
Import Engine Registry Settings SettingsFacts Addons AddonWorld.

(** The tag in force in the window, and the tags what is registered may still have. *)
Definition open_tag (ph : phase) : option N :=
  match ph with InSetup _ _ _ t | SetupOk _ _ _ t | SetupFailed t _ | Forgot t _ => Some t | _ => None end.
Definition set_tags (ph : phase) : option N := match ph with InSetup _ _ _ t | SetupFailed t _ => Some t | _ => None end.
Definition hook_tags (ph : phase) : option N :=
  match ph with InSetup _ _ _ t | SetupFailed t _ | Forgot t _ | Closed t _ => Some t | _ => None end.
Definition type_tags (ph : phase) : option N :=
  match ph with
  | InSetup _ _ _ t | SetupFailed t _ | Forgot t _ | Closed t _ | Unwinding t _ | Removing t _ _ | Draining t _ _ => Some t
  | _ => None
  end.
Definition addon_in (ph : phase) : option (positive * addon) :=
  match ph with Named n _ a | InSetup n _ a _ | SetupOk n _ a _ | Ready n _ a => Some (n, a) | _ => None end.

Section facts.
Context {W : Type}.
Implicit Types (s : seams W) (w : aworld W) (tid : Z).

Definition during (f : phase → option N) w (t : N) : Prop := ∃ tid ph, aw_loads w !! tid = Some ph ∧ f ph = Some t.
Definition owned (f : phase → option N) w (tag : option N) : Prop :=
  match tag with None => True | Some t => t ∈ aw_done w ∨ during f w t end.

Record tags_ok w : Prop := {
  o_one : ∀ tid ph, aw_loads w !! tid = Some ph → sm_loading (aw_s w) = true ∧ ∀ tid' ph', aw_loads w !! tid' = Some ph' → tid' = tid;
  o_open : ∀ tid ph t, aw_loads w !! tid = Some ph → open_tag ph = Some t →
    sm_setup_on (aw_s w) = true ∧ sm_setup_tid (aw_s w) = tid ∧ sm_setup_tag (aw_s w) = Some t;
  o_shut : sm_setup_on (aw_s w) = true → ∃ t, during open_tag w t;
  o_obs : ∀ h, h ∈ sm_observers (aw_s w) → owned hook_tags w (h_tag h);
  o_con : ∀ h, h ∈ sm_constraints (aw_s w) → owned hook_tags w (h_tag h);
  o_set : ∀ e, e ∈ s_list (sm_settings (aw_s w)) → owned set_tags w (s_tag e);
  o_watch : ∀ x, x ∈ s_watchers (sm_settings (aw_s w)) → w_off x = false → owned set_tags w (w_tag x);
  o_type : ∀ t, t ∈ sm_types (aw_s w) → t_removed t = false → owned type_tags w (t_tag t) ∨ ∃ g, t_tag t = Some g ∧ g ∈ aw_stuck w;
  o_sched : (∃ t, sm_sched_tag (aw_s w) = Some t ∧ during hook_tags w t ∧ sm_undo (aw_s w) = aw_host w) ∨
    (sm_sched (aw_s w) = aw_host w ∧ ∀ t, sm_sched_tag (aw_s w) = Some t → ¬ during hook_tags w t);
  o_seq : ∀ t, (sm_sched_tag (aw_s w) = Some t ∨ during type_tags w t) → (t ≤ sm_load_seq (aw_s w))%N }.

(** ** One load at a time *)

Lemma during_at f w tid ph t : tags_ok w → aw_loads w !! tid = Some ph → during f w t ↔ f ph = Some t.
Proof.
  intros HI Hat. split; [|intros H; by exists tid, ph]. intros (tid' & ph' & Hat' & Hf).
  destruct (o_one _ HI tid ph Hat) as [_ Hone]. rewrite (Hone tid' ph' Hat') in Hat'. congruence.
Qed.
(** The tag a call of a thread gives, if the thread may make one. *)
Lemma here_tag w tid t : tags_ok w → acts w tid → setup_tag_here tid (aw_s w) = Some t →
  ∃ node path a, aw_loads w !! tid = Some (InSetup node path a t).
Proof.
  intros HI Hact. unfold setup_tag_here. destruct (sm_setup_on (aw_s w)) eqn:Hon; [|done]. cbn [andb].
  destruct (Z.eqb_spec (sm_setup_tid (aw_s w)) tid) as [Ht|]; [|done]. intros Htag.
  destruct (o_shut _ HI Hon) as (t' & tid' & ph & Hat & Hop). destruct (o_open _ HI tid' ph t' Hat Hop) as (_ & Htid & Htag').
  assert (tid' = tid) as -> by congruence. assert (t' = t) as -> by congruence.
  unfold acts in Hact. rewrite Hat in Hact. destruct ph; try done; cbn in Hop; simplify_eq. by eexists _, _, _.
Qed.
Lemma owned_here f w tid : tags_ok w → acts w tid → (∀ node path a t, f (InSetup node path a t) = Some t) →
  owned f w (setup_tag_here tid (aw_s w)).
Proof.
  intros HI Hact Hf. destruct (setup_tag_here tid (aw_s w)) as [t|] eqn:Ht; [|done].
  destruct (here_tag w tid t HI Hact Ht) as (node & path & a & Hat). right. by exists tid, (InSetup node path a t).
Qed.

(** ** Calls *)

(** What calls change: nothing of the loads; and each thing registered is owned. *)
Lemma tags_ok_call w s : tags_ok w → sm_loading s = sm_loading (aw_s w) → sm_setup_on s = sm_setup_on (aw_s w) →
  sm_setup_tid s = sm_setup_tid (aw_s w) → sm_setup_tag s = sm_setup_tag (aw_s w) → sm_load_seq s = sm_load_seq (aw_s w) →
  sm_sched s = sm_sched (aw_s w) → sm_sched_tag s = sm_sched_tag (aw_s w) → sm_undo s = sm_undo (aw_s w) →
  (∀ h, h ∈ sm_observers s → h ∈ sm_observers (aw_s w) ∨ owned hook_tags w (h_tag h)) →
  (∀ h, h ∈ sm_constraints s → h ∈ sm_constraints (aw_s w) ∨ owned hook_tags w (h_tag h)) →
  (∀ e, e ∈ s_list (sm_settings s) → e ∈ s_list (sm_settings (aw_s w)) ∨ owned set_tags w (s_tag e)) →
  (∀ x, x ∈ s_watchers (sm_settings s) → x ∈ s_watchers (sm_settings (aw_s w)) ∨ owned set_tags w (w_tag x)) →
  (∀ t, t ∈ sm_types s → t_removed t = false → t ∈ sm_types (aw_s w) ∨ owned type_tags w (t_tag t)) →
  tags_ok (w <| aw_s := s |>).
Proof.
  intros [H1 H2 H3 H4 H5 H6 H7 H8 H9 H10] E1 E2 E3 E4 E5 E6 E7 E8 Ho Hc He Hw Ht.
  constructor; change (aw_s (w <| aw_s := s |>)) with s.
  - intros tid ph. rewrite E1. apply H1.
  - intros tid ph t. rewrite E2, E3, E4. apply H2.
  - rewrite E2. apply H3.
  - intros h Hh. by destruct (Ho h Hh) as [?%H4|?].
  - intros h Hh. by destruct (Hc h Hh) as [?%H5|?].
  - intros e Hh. by destruct (He e Hh) as [?%H6|?].
  - intros x Hx Hoff. destruct (Hw x Hx) as [?|?]; [by apply H7|done].
  - intros t Hin Hr. destruct (Ht t Hin Hr) as [?|?]; [by apply H8|by left].
  - rewrite E6, E7, E8. apply H9.
  - intros t. rewrite E5, E7. apply H10.
Qed.

Lemma unlink_hook_elem fn ud l l' : unlink_hook fn ud l = Some l' → ∀ h, h ∈ l' → h ∈ l.
Proof.
  revert l'. induction l as [|x l IH]; intros l'; [done|]. cbn. destruct (_ && _); [intros [= <-] h Hh; by right|].
  destruct (unlink_hook fn ud l) as [l0|]; [|done]. intros [= <-] h [->|Hh]%elem_of_cons; [by left|right]. by apply (IH l0).
Qed.
Lemma unlinked_elem (drop : setting W → bool) r e : e ∈ s_list (settings_unlink drop r).1 → e ∈ s_list r ∧ drop e = false.
Proof.
  unfold settings_unlink. rewrite unlink_filters. cbn. intros He. apply list_elem_of_In, filter_In in He as [? ?].
  rewrite list_elem_of_In. split; [done|by apply negb_true_iff].
Qed.
Lemma unlink_watchers (drop : setting W → bool) r : s_watchers (settings_unlink drop r).1 = s_watchers r.
Proof. unfold settings_unlink. by destruct (unlink drop (s_list r)). Qed.
Lemma put_in_elem key f (l : list (setting W)) e : e ∈ put_in key f l → e ∈ l ∨ ∃ e0, e0 ∈ l ∧ e = f e0.
Proof.
  induction l as [|x l IH]; [by intros ?%elem_of_nil|]. cbn. destruct (decide _).
  - intros [->|He]%elem_of_cons; [right; exists x; split; [left|done]|left; by right].
  - intros [->|He]%elem_of_cons; [left; left|]. destruct (IH He) as [?|(e0 & ? & ?)]; [left; by right|right; exists e0; split; [by right|done]].
Qed.

Lemma call_ok w tid s' : tags_ok w → acts w tid → seam_call tid (aw_s w) s' → tags_ok (w <| aw_s := s' |>).
Proof.
  intros HI Hact Hcall.
  assert (Hh : owned hook_tags w (setup_tag_here tid (aw_s w))) by by apply owned_here.
  assert (Hs : owned set_tags w (setup_tag_here tid (aw_s w))) by by apply owned_here.
  assert (Ht : owned type_tags w (setup_tag_here tid (aw_s w))) by by apply owned_here.
  assert (Hsame : tags_ok (w <| aw_s := aw_s w |>)) by (by destruct w).
  destruct Hcall.
  - unfold gptps_register_observer, register_hook. destruct (fn =? 0); [done|]. destruct sealed; [done|]. destruct mem; [|done]. cbn [negb snd].
    apply tags_ok_call; try done; try by left. intros h [->|]%elem_of_cons; [by right|by left].
  - unfold gptps_register_constraint, register_hook. destruct (fn =? 0); [done|]. destruct sealed; [done|]. destruct mem; [|done]. cbn [negb snd].
    apply tags_ok_call; try done; try by left. intros h [->|]%elem_of_cons; [by right|by left].
  - unfold gptps_unregister_observer. destruct (fn =? 0); [done|]. destruct (unlink_hook _ _ _) as [l|] eqn:E; [|done].
    apply tags_ok_call; try done; try by left. intros h Hin. left. by eapply unlink_hook_elem.
  - unfold gptps_unregister_constraint. destruct (fn =? 0); [done|]. destruct (unlink_hook _ _ _) as [l|] eqn:E; [|done].
    apply tags_ok_call; try done; try by left. intros h Hin. left. by eapply unlink_hook_elem.
  - unfold register_type. destruct (live_type name (aw_s w)); [done|]. apply tags_ok_call; try done; try by left.
    intros t [->|]%elem_of_cons _; [by right|by left].
  - unfold unregister_type. destruct (sm_stopping (aw_s w)); [done|]. destruct (live_type name (aw_s w)) as [t|]; [|done].
    rewrite bool_decide_false by naive_solver. destruct busy; [done|]. apply tags_ok_call; try done; try by left.
    intros u Hu Hr. left. cbn [snd] in Hu. change (u ∈ map (λ u, if decide (t_id u = t_id t) then u <| t_removed := true |> else u) (sm_types (aw_s w))) in Hu.
    apply list_elem_of_fmap in Hu as (u0 & -> & Hu0). by destruct (decide _).
  - apply tags_ok_call; try done; try by left. intros u Hu _. left. by apply list_elem_of_filter in Hu as [_ ?].
  - unfold gptps_register_setting. destruct sealed; [done|]. destruct (negb _); [done|].
    unfold settings_add_owned. destruct (setting_find _ _); [done|]. cbn [decide]. 
    destruct (setup_tag_here tid (aw_s w)) as [g|] eqn:Eg; cbn [snd]; apply tags_ok_call; try done; try by left.
    + intros e He. change (e ∈ put_in (d_key def) (λ e, e <| s_tag := Some g |>) (s_list (sm_settings (aw_s w)) ++ [entry_of def None (d_read def x VALUE_MAX)])) in He.
      apply put_in_elem in He as [[He| ->%list_elem_of_singleton]%elem_of_app|(e0 & _ & ->)]; [by left|by right|by right].
    + intros e He. change (e ∈ s_list (sm_settings (aw_s w)) ++ [entry_of def None (d_read def x VALUE_MAX)]) in He.
      apply elem_of_app in He as [He| ->%list_elem_of_singleton]; [by left|by right].
  - apply tags_ok_call; try done; try by left. intros x [->|Hx]%elem_of_cons; [by right|by left].
  - apply tags_ok_call; try done; try by left.
    + intros e He. change (e ∈ s_list (settings_publish (sm_settings (aw_s w)) p).1) in He. unfold settings_publish in He.
      destruct (setting_find (sm_settings (aw_s w)) (s_key p)); [by left|]. cbn in He. apply elem_of_app in He as [He| ->%list_elem_of_singleton]; [by left|right]. by rewrite H.
    + intros x Hx. left. change (x ∈ s_watchers (settings_publish (sm_settings (aw_s w)) p).1) in Hx. unfold settings_publish in Hx.
      by destruct (setting_find (sm_settings (aw_s w)) (s_key p)).
  - apply tags_ok_call; try done; try by left.
    + intros e He. left. by apply unlinked_elem in He as [? _].
    + intros x Hx. left. change (x ∈ s_watchers (remove_task (sm_settings (aw_s w)) owner pre keep).1) in Hx.
      unfold remove_task in Hx. by rewrite unlink_watchers in Hx.
  - apply tags_ok_call; try done; by left.
Qed.

(** ** The sections of a load *)

(** A list gets no longer, and what had the tag of the load keeps its owner or is gone. *)
Definition moved {A} (f : phase → option N) (tag : A → option N) (l l' : list A) w w' : Prop :=
  (∀ x, x ∈ l' → x ∈ l) ∧ ∀ t, during f w t → during f w' t ∨ t ∈ aw_done w' ∨ ∀ x, x ∈ l' → tag x ≠ Some t.
Lemma moved_owned {A} f (tag : A → option N) l l' w w' x : moved f tag l l' w w' → (∀ t, t ∈ aw_done w → t ∈ aw_done w') →
  x ∈ l' → owned f w (tag x) → owned f w' (tag x).
Proof.
  intros [_ Hm] Hd Hx. unfold owned. destruct (tag x) as [t|] eqn:Ht; [|done]. intros [?|Hdu]; [left; by apply Hd|].
  destruct (Hm t Hdu) as [?|[?|Hno]]; [by right|by left|]. by destruct (Hno x Hx).
Qed.
Lemma tags_ok_gen w w' : tags_ok w →
  (∀ tid ph, aw_loads w' !! tid = Some ph → sm_loading (aw_s w') = true ∧ ∀ tid' ph', aw_loads w' !! tid' = Some ph' → tid' = tid) →
  (∀ tid ph t, aw_loads w' !! tid = Some ph → open_tag ph = Some t →
    sm_setup_on (aw_s w') = true ∧ sm_setup_tid (aw_s w') = tid ∧ sm_setup_tag (aw_s w') = Some t) →
  (sm_setup_on (aw_s w') = true → ∃ t, during open_tag w' t) →
  (∀ t, t ∈ aw_done w → t ∈ aw_done w') → (∀ t, t ∈ aw_stuck w → t ∈ aw_stuck w') →
  moved hook_tags h_tag (sm_observers (aw_s w)) (sm_observers (aw_s w')) w w' →
  moved hook_tags h_tag (sm_constraints (aw_s w)) (sm_constraints (aw_s w')) w w' →
  moved set_tags s_tag (s_list (sm_settings (aw_s w))) (s_list (sm_settings (aw_s w'))) w w' →
  (∀ x, x ∈ s_watchers (sm_settings (aw_s w')) → w_off x = false → x ∈ s_watchers (sm_settings (aw_s w)) ∧
    ∀ t, w_tag x = Some t → during set_tags w t → during set_tags w' t ∨ t ∈ aw_done w') →
  (∀ t, t ∈ sm_types (aw_s w') → t_removed t = false → t ∈ sm_types (aw_s w) ∧
    ∀ g, t_tag t = Some g → during type_tags w g → during type_tags w' g ∨ g ∈ aw_done w' ∨ g ∈ aw_stuck w') →
  ((∃ t, sm_sched_tag (aw_s w') = Some t ∧ during hook_tags w' t ∧ sm_undo (aw_s w') = aw_host w') ∨
    (sm_sched (aw_s w') = aw_host w' ∧ ∀ t, sm_sched_tag (aw_s w') = Some t → ¬ during hook_tags w' t)) →
  (∀ t, (sm_sched_tag (aw_s w') = Some t ∨ during type_tags w' t) → (t ≤ sm_load_seq (aw_s w'))%N) →
  tags_ok w'.
Proof.
  intros HI H1 H2 H3 Hd Hst Ho Hc He Hw Ht H9 H10. constructor; try done.
  - intros h Hh. eapply moved_owned; [exact Ho|done|done|]. by apply (o_obs _ HI), Ho.
  - intros h Hh. eapply moved_owned; [exact Hc|done|done|]. by apply (o_con _ HI), Hc.
  - intros e Hin. eapply moved_owned; [exact He|done|done|]. by apply (o_set _ HI), He.
  - intros x Hx Hoff. destruct (Hw x Hx Hoff) as [Hx0 Hm]. pose proof (o_watch _ HI x Hx0 Hoff) as Hown.
    unfold owned in *. destruct (w_tag x) as [t|]; [|done]. destruct Hown as [?|Hdu]; [left; by apply Hd|].
    destruct (Hm t eq_refl Hdu); [by right|by left].
  - intros t Hin Hr. destruct (Ht t Hin Hr) as [Hin0 Hm]. destruct (o_type _ HI t Hin0 Hr) as [Hown|(g & Hg & Hin')].
    + unfold owned in *. destruct (t_tag t) as [g|]; [|by left]. destruct Hown as [?|Hdu]; [left; left; by apply Hd|].
      destruct (Hm g eq_refl Hdu) as [?|[?|?]]; [left; by right|left; by left|right; by exists g].
    + right. exists g. split; [done|by apply Hst].
Qed.

(** One phase to the next, on its thread. *)
Lemma tags_ok_move w w' tid ph ph' : tags_ok w → aw_loads w !! tid = Some ph → aw_loads w' = <[tid := ph']> (aw_loads w) →
  sm_loading (aw_s w') = sm_loading (aw_s w) →
  (∀ t, open_tag ph' = Some t → sm_setup_on (aw_s w') = true ∧ sm_setup_tid (aw_s w') = tid ∧ sm_setup_tag (aw_s w') = Some t) →
  (sm_setup_on (aw_s w') = true → open_tag ph' ≠ None) →
  (∀ t, t ∈ aw_done w → t ∈ aw_done w') → (∀ t, t ∈ aw_stuck w → t ∈ aw_stuck w') →
  (∀ h, h ∈ sm_observers (aw_s w') → h ∈ sm_observers (aw_s w) ∧ (hook_tags ph ≠ None → h_tag h = hook_tags ph → hook_tags ph' = hook_tags ph ∨ ∃ t, hook_tags ph = Some t ∧ t ∈ aw_done w')) →
  (∀ h, h ∈ sm_constraints (aw_s w') → h ∈ sm_constraints (aw_s w) ∧ (hook_tags ph ≠ None → h_tag h = hook_tags ph → hook_tags ph' = hook_tags ph ∨ ∃ t, hook_tags ph = Some t ∧ t ∈ aw_done w')) →
  (∀ e, e ∈ s_list (sm_settings (aw_s w')) → e ∈ s_list (sm_settings (aw_s w)) ∧ (set_tags ph ≠ None → s_tag e = set_tags ph → set_tags ph' = set_tags ph ∨ ∃ t, set_tags ph = Some t ∧ t ∈ aw_done w')) →
  (∀ x, x ∈ s_watchers (sm_settings (aw_s w')) → w_off x = false → x ∈ s_watchers (sm_settings (aw_s w)) ∧
    (set_tags ph ≠ None → w_tag x = set_tags ph → set_tags ph' = set_tags ph ∨ ∃ t, set_tags ph = Some t ∧ t ∈ aw_done w')) →
  (∀ t, t ∈ sm_types (aw_s w') → t_removed t = false → t ∈ sm_types (aw_s w) ∧
    (type_tags ph ≠ None → t_tag t = type_tags ph → type_tags ph' = type_tags ph ∨ ∃ g, type_tags ph = Some g ∧ (g ∈ aw_done w' ∨ g ∈ aw_stuck w'))) →
  ((∃ t, sm_sched_tag (aw_s w') = Some t ∧ hook_tags ph' = Some t ∧ sm_undo (aw_s w') = aw_host w') ∨
    (sm_sched (aw_s w') = aw_host w' ∧ ∀ t, sm_sched_tag (aw_s w') = Some t → hook_tags ph' ≠ Some t)) →
  (∀ t, (sm_sched_tag (aw_s w') = Some t ∨ type_tags ph' = Some t) → (t ≤ sm_load_seq (aw_s w'))%N) →
  tags_ok w'.
Proof.
  intros HI Hat Hl El Hop Hsh Hd Hst Ho Hc He Hw Ht Hsc Hsq. destruct (o_one _ HI tid ph Hat) as [Hload Hone].
  assert (Hat' : aw_loads w' !! tid = Some ph') by (rewrite Hl; apply lookup_insert_eq).
  assert (Hone' : ∀ tid' ph0, aw_loads w' !! tid' = Some ph0 → tid' = tid ∧ ph0 = ph').
  { intros tid' ph0. rewrite Hl. destruct (decide (tid' = tid)) as [->|]; [rewrite lookup_insert_eq; by intros [= <-]|].
    rewrite lookup_insert_ne by done. by intros ?%Hone. }
  assert (Hdu : ∀ f t, during f w t ↔ f ph = Some t) by (intros f t; by apply during_at with tid).
  assert (Hdu' : ∀ f t, during f w' t ↔ f ph' = Some t).
  { intros f t. split; [|intros ?; by exists tid, ph']. intros (tid' & ph0 & [-> ->]%Hone' & ?). done. }
  assert (Hmv : ∀ {A} f (tag : A → option N) l l', (∀ x, x ∈ l' → x ∈ l ∧ (f ph ≠ None → tag x = f ph → f ph' = f ph ∨ ∃ t, f ph = Some t ∧ t ∈ aw_done w')) →
    moved f tag l l' w w').
  { intros A f tag l l' H. split; [intros x Hx; by apply H|]. intros t [=Hf]%Hdu. rewrite Hdu'.
    destruct (decide (f ph' = Some t)); [by left|]. right. destruct (decide (t ∈ aw_done w')); [by left|right]. intros x Hx Htx.
    destruct (H x Hx) as [_ Hx']. destruct Hx' as [Heq|(t' & Ht' & ?)]; [by rewrite Hf|by rewrite Hf|congruence|].
    rewrite Hf in Ht'. by simplify_eq. }
  apply (tags_ok_gen w); try done.
  - intros tid' ph0 [-> ->]%Hone'. split; [by rewrite El|]. by intros ? ? [-> _]%Hone'.
  - intros tid' ph0 t [-> ->]%Hone'. apply Hop.
  - intros Hon%Hsh. destruct (open_tag ph') as [t|] eqn:E; [|done]. exists t. by apply Hdu'.
  - by apply Hmv.
  - by apply Hmv.
  - by apply Hmv.
  - intros x Hx Hoff. destruct (Hw x Hx Hoff) as [? Hx']. split; [done|]. intros t Ht' Hf%Hdu. rewrite Hdu'.
    destruct Hx' as [->|(t' & Ht'' & ?)]; [by rewrite Hf|by rewrite Hf|by left|right]. rewrite Hf in Ht''. by simplify_eq.
  - intros x Hx Hoff. destruct (Ht x Hx Hoff) as [? Hx']. split; [done|]. intros t Ht' Hf%Hdu. rewrite Hdu'.
    destruct Hx' as [->|(t' & Ht'' & ?)]; [by rewrite Hf|by rewrite Hf|by left|right]. rewrite Hf in Ht''. by simplify_eq.
  - destruct Hsc as [(t & H1 & H2 & H3)|[H1 H2]]; [left; exists t; split_and!; [done|by apply Hdu'|done]|right].
    split; [done|]. intros t Hs. rewrite Hdu'. by apply H2.
  - intros t. rewrite Hdu'. apply Hsq.
Qed.

(** Between loads that have no tag. *)
Definition quiet w : Prop := ∀ tid ph, aw_loads w !! tid = Some ph → open_tag ph = None ∧ type_tags ph = None.
Lemma quiet_during w f t : quiet w → f ∈ [open_tag; set_tags; hook_tags; type_tags] → ¬ during f w t.
Proof.
  intros Hq Hf (tid & ph & Hat & Ht). destruct (Hq tid ph Hat). rewrite !elem_of_cons, elem_of_nil in Hf.
  destruct ph; naive_solver.
Qed.
Ltac in_four := rewrite !elem_of_cons; tauto.
Lemma tags_ok_quiet w w' : tags_ok w → quiet w → quiet w' →
  (∀ tid ph, aw_loads w' !! tid = Some ph → sm_loading (aw_s w') = true ∧ ∀ tid' ph', aw_loads w' !! tid' = Some ph' → tid' = tid) →
  sm_observers (aw_s w') = sm_observers (aw_s w) → sm_constraints (aw_s w') = sm_constraints (aw_s w) →
  sm_settings (aw_s w') = sm_settings (aw_s w) → sm_types (aw_s w') = sm_types (aw_s w) →
  sm_sched (aw_s w') = sm_sched (aw_s w) → sm_sched_tag (aw_s w') = sm_sched_tag (aw_s w) → sm_setup_on (aw_s w') = sm_setup_on (aw_s w) →
  sm_load_seq (aw_s w') = sm_load_seq (aw_s w) →
  aw_done w' = aw_done w → aw_stuck w' = aw_stuck w → aw_host w' = aw_host w → tags_ok w'.
Proof.
  intros HI Hq Hq' Hone Eo Ec Es Et Esc Est Eon Esq Ed Estk Eh.
  assert (Hno : ∀ f t, f ∈ [open_tag; set_tags; hook_tags; type_tags] → ¬ during f w t) by (intros; by apply quiet_during).
  assert (Hno' : ∀ f t, f ∈ [open_tag; set_tags; hook_tags; type_tags] → ¬ during f w' t) by (intros; by apply quiet_during).
  assert (Hmv : ∀ {A} f (tag : A → option N) l, f ∈ [open_tag; set_tags; hook_tags; type_tags] → moved f tag l l w w').
  { intros A f tag l Hf. split; [done|]. intros t Hd. by destruct (Hno f t Hf). }
  apply (tags_ok_gen w); try done; rewrite ?Eo, ?Ec, ?Es, ?Et, ?Ed, ?Estk, ?Eh, ?Est, ?Esc, ?Esq; try done.
  - intros tid ph t Hat Ho. destruct (Hq' tid ph Hat). congruence.
  - rewrite Eon. intros Hon. destruct (o_shut _ HI Hon) as [t Hd]. destruct (Hno open_tag t); [in_four|done].
  - apply Hmv. in_four.
  - apply Hmv. in_four.
  - apply Hmv. in_four.
  - intros x Hx _. split; [done|]. intros t _ Hd. destruct (Hno set_tags t); [in_four|done].
  - intros x Hx _. split; [done|]. intros t _ Hd. destruct (Hno type_tags t); [in_four|done].
  - right. destruct (o_sched _ HI) as [(t & _ & Hd & _)|[H _]]; [destruct (Hno hook_tags t); [in_four|done]|].
    split; [done|]. intros t _. apply Hno'. in_four.
  - intros t [H|Hd]; [apply (o_seq _ HI); by left|]. destruct (Hno' type_tags t); [in_four|done].
Qed.

Lemma claimed_alone w tid : tags_ok w → sm_loading (aw_s w) = false → aw_loads w !! tid = None.
Proof. intros HI Hl. destruct (aw_loads w !! tid) as [ph|] eqn:E; [|done]. destruct (o_one _ HI tid ph E). congruence. Qed.
Lemma alone w tid ph tid' : tags_ok w → aw_loads w !! tid = Some ph → tid' ≠ tid → aw_loads w !! tid' = None.
Proof.
  intros HI Hat Hne. destruct (aw_loads w !! tid') as [ph'|] eqn:E; [|done]. destruct (o_one _ HI tid ph Hat) as [_ H].
  by destruct Hne, (H tid' ph' E).
Qed.

(** The load gives [loading] back. *)
Lemma load_gone w w' tid ph : tags_ok w → aw_loads w !! tid = Some ph → open_tag ph = None → type_tags ph = None →
  aw_loads w' = delete tid (aw_loads w) → quiet w ∧ ∀ tid' ph', aw_loads w' !! tid' ≠ Some ph'.
Proof.
  intros HI Hat Ho Ht Hl. split.
  - intros tid' ph' Hat'. destruct (o_one _ HI tid ph Hat) as [_ H]. rewrite (H tid' ph' Hat') in Hat'. by simplify_eq.
  - intros tid' ph'. rewrite Hl. destruct (decide (tid' = tid)) as [->|Hne]; [by rewrite lookup_delete_eq|].
    rewrite lookup_delete_ne by done. by rewrite (alone w tid ph).
Qed.

Lemma forget_list r tag e : e ∈ s_list (forget_tag (W := W) r tag) → e ∈ s_list r ∧ s_tag e ≠ Some tag.
Proof. intros [He Hd]%unlinked_elem. split; [done|]. by apply bool_decide_eq_false in Hd. Qed.
Lemma forget_watchers r tag x : x ∈ s_watchers (forget_tag (W := W) r tag) → w_off x = false → x ∈ s_watchers r ∧ w_tag x ≠ Some tag.
Proof.
  unfold forget_tag. rewrite unlink_watchers. intros Hx Hoff.
  change (x ∈ map (λ y : watcher, if decide (w_tag y = Some tag) then y <| w_off := true |> else y) (s_watchers r)) in Hx.
  apply list_elem_of_fmap in Hx as (x0 & -> & Hx0). by destruct (decide _).
Qed.
Lemma oldest_none tag s t : oldest_of tag s = None → t ∈ sm_types s → t_removed t = false → t_tag t ≠ Some tag.
Proof.
  unfold oldest_of. intros Hl%last_None Hin Hr Ht. assert (H : t ∈ filter (λ t, t_tag t = Some tag ∧ t_removed t = false) (sm_types s))
    by (by apply list_elem_of_filter). rewrite Hl in H. by apply elem_of_nil in H.
Qed.

Lemma unwind_fields tag s : let s' := unwind_seams tag s in
  sm_loading s' = sm_loading s ∧ sm_setup_on s' = sm_setup_on s ∧
  sm_observers s' = filter (λ h, h_tag h ≠ Some tag) (sm_observers s) ∧
  sm_constraints s' = filter (λ h, h_tag h ≠ Some tag) (sm_constraints s) ∧
  sm_settings s' = sm_settings s ∧ sm_types s' = sm_types s ∧ sm_load_seq s' = sm_load_seq s ∧
  if decide (sm_sched_tag s = Some tag) then sm_sched s' = sm_undo s ∧ sm_sched_tag s' = None
  else sm_sched s' = sm_sched s ∧ sm_sched_tag s' = sm_sched_tag s.
Proof. cbv zeta. unfold unwind_seams. destruct (decide (sm_sched_tag s = Some tag)) as [E|E]; cbn; by rewrite ?decide_True, ?decide_False by done. Qed.

(** A section that leaves the seams as they are. *)
Lemma load_moves w tid ph ph' : tags_ok w → aw_loads w !! tid = Some ph → open_tag ph' = open_tag ph → hook_tags ph' = hook_tags ph →
  set_tags ph' = set_tags ph → type_tags ph' = type_tags ph → tags_ok (to tid ph' (aw_s w) w).
Proof.
  intros HI Hat Eo Eh Es Et. assert (Hdu : ∀ f t, during f w t ↔ f ph = Some t) by (intros f t; by apply during_at with tid).
  apply (tags_ok_move w _ tid ph ph'); try done; change (aw_s (to tid ph' (aw_s w) w)) with (aw_s w); try (intros x Hx; split; [done|by left]).
  - rewrite Eo. intros t Ht. by apply (o_open _ HI tid ph).
  - rewrite Eo. intros Hon. destruct (o_shut _ HI Hon) as [t Hd]. apply Hdu in Hd. congruence.
  - rewrite Eh. destruct (o_sched _ HI) as [(t & H1 & H2%Hdu & H3)|[H1 H2]]; [left; by exists t|right]. split; [done|].
    intros t Ht. by rewrite <-Hdu; apply H2.
  - rewrite Et. intros t [H|H]; apply (o_seq _ HI); [by left|right; by apply Hdu].
Qed.

(** A section that may close the window or forget settings, but no hook. *)
Lemma load_moves_gen w tid ph ph' s' : tags_ok w → aw_loads w !! tid = Some ph → sm_loading s' = sm_loading (aw_s w) →
  (∀ t, open_tag ph' = Some t → open_tag ph = Some t ∧ sm_setup_on s' = sm_setup_on (aw_s w) ∧
    sm_setup_tid s' = sm_setup_tid (aw_s w) ∧ sm_setup_tag s' = sm_setup_tag (aw_s w)) →
  (sm_setup_on s' = true → open_tag ph' ≠ None) →
  sm_observers s' = sm_observers (aw_s w) → sm_constraints s' = sm_constraints (aw_s w) → sm_load_seq s' = sm_load_seq (aw_s w) →
  sm_sched s' = sm_sched (aw_s w) → sm_sched_tag s' = sm_sched_tag (aw_s w) → sm_undo s' = sm_undo (aw_s w) →
  hook_tags ph' = hook_tags ph → type_tags ph' = type_tags ph →
  (∀ e, e ∈ s_list (sm_settings s') → e ∈ s_list (sm_settings (aw_s w)) ∧ (set_tags ph' = set_tags ph ∨ s_tag e ≠ set_tags ph ∨ set_tags ph = None)) →
  (∀ x, x ∈ s_watchers (sm_settings s') → w_off x = false → x ∈ s_watchers (sm_settings (aw_s w)) ∧ (set_tags ph' = set_tags ph ∨ w_tag x ≠ set_tags ph ∨ set_tags ph = None)) →
  (∀ t, t ∈ sm_types s' → t_removed t = false → t ∈ sm_types (aw_s w)) →
  tags_ok (to tid ph' s' w).
Proof.
  intros HI Hat El Hop Hsh Eo Ec Esq Es Est Eu Eh Et Hset Hwatch Htype.
  assert (Hdu : ∀ f t, during f w t ↔ f ph = Some t) by (intros f t; by apply during_at with tid).
  apply (tags_ok_move w _ tid ph ph'); try done; change (aw_s (to tid ph' s' w)) with s'.
  - intros t Ht. destruct (Hop t Ht) as (Hph & -> & -> & ->). by apply (o_open _ HI tid ph).
  - rewrite Eo. intros h Hh. split; [done|by left].
  - rewrite Ec. intros h Hh. split; [done|by left].
  - intros e He. destruct (Hset e He) as [? Hor]. split; [done|]. intros ? ?. left. by destruct Hor as [?|[?|?]].
  - intros x Hx Hoff. destruct (Hwatch x Hx Hoff) as [? Hor]. split; [done|]. intros ? ?. left. by destruct Hor as [?|[?|?]].
  - intros t Ht Hr. split; [by apply Htype|]. intros ? ?. by left.
  - rewrite Eh, Est, Es, Eu. destruct (o_sched _ HI) as [(t & H1 & H2%Hdu & H3)|[H1 H2]]; [left; by exists t|right]. split; [done|].
    intros t Ht. rewrite <-Hdu. by apply H2.
  - rewrite Et, Est, Esq. intros t [H|H]; apply (o_seq _ HI); [by left|right; by apply Hdu].
Qed.

Lemma load_ok w tid w' : tags_ok w → load_step tid w w' → tags_ok w'.
Proof.
  intros HI Hstep.
  assert (Hdu : ∀ ph, aw_loads w !! tid = Some ph → ∀ f t, during f w t ↔ f ph = Some t) by (intros ph Hat f t; by apply during_at with tid).
  destruct Hstep as [lib path Hno Hcl|lib path st Hat _|lib path a Hat _ _|lib path a Hat _ _|lib path a node Hat _ _ _|node path a Hat _|
    node path a Hat _ Hseq|node path a tag Hat|node path a tag st Hat _|node path a tag Hat|node path a Hat|tag st Hat|tag st Hat|tag st Hat|
    tag st t Hat _|tag st Hat Hold|tag st name t busy Hat Hlive Hst|tag st name busy Hat _|tag st name busy Hat _|tag st id Hat|st Hat].
  - (* claims *) unfold load_claim in Hcl |- *. destruct (sm_stopping (aw_s w)); [done|]. destruct (sm_loading (aw_s w)) eqn:Hl; [done|].
    assert (Hnone : ∀ t, aw_loads w !! t = None) by (intros t; by apply claimed_alone).
    assert (Hat : ∀ t ph, aw_loads (to tid (Claimed lib path) (aw_s w <| sm_loading := true |>) w) !! t = Some ph → t = tid ∧ ph = Claimed lib path).
    { intros t ph. change (<[tid := Claimed lib path]> (aw_loads w) !! t = Some ph → t = tid ∧ ph = Claimed lib path).
      destruct (decide (t = tid)) as [->|]; [rewrite lookup_insert_eq; by intros [= <-]|]. by rewrite lookup_insert_ne, Hnone. }
    apply (tags_ok_quiet w); try done.
    + intros t ph. by rewrite Hnone.
    + intros t ph [_ ->]%Hat. done.
    + intros t ph [-> _]%Hat. split; [done|]. by intros t' ph' [-> _]%Hat.
  - by apply (load_moves w tid (Claimed lib path)).
  - by apply (load_moves w tid (Claimed lib path)).
  - by apply (load_moves w tid (Claimed lib path)).
  - by apply (load_moves w tid (Claimed lib path)).
  - by apply (load_moves w tid (Named node path a)).
  - (* opens *) set (t0 := next_tag (aw_s w)). assert (Hn : t0 = (sm_load_seq (aw_s w) + 1)%N) by (apply N.mod_small; lia).
    assert (Hw : sm_setup_tag (open_window tid (ns_of a) (aw_s w)) = Some t0) by (cbn; apply decide_False; lia).
    apply (tags_ok_move w _ tid (Named node path a) (InSetup node path a t0)); try done.
    + intros t [= <-]. by split_and!.
    + right. destruct (o_sched _ HI) as [(t & _ & H2%(Hdu _ Hat) & _)|[H1 H2]]; [done|]. split; [done|]. intros t Ht [= <-].
      pose proof (o_seq _ HI t0 (or_introl Ht)). lia.
    + intros t [H|[= <-]]; [|done]. pose proof (o_seq _ HI t (or_introl H)). change (t ≤ t0)%N. lia.
  - (* set up *) apply (tags_ok_move w _ tid (InSetup node path a tag) (SetupOk node path a tag)); try done.
    + intros t Ht. by apply (o_open _ HI tid (InSetup node path a tag)).
    + intros t Ht. by right.
    + intros h Hh. split; [done|]. intros _ _. right. exists tag. split; [done|by left].
    + intros h Hh. split; [done|]. intros _ _. right. exists tag. split; [done|by left].
    + intros e Hh. split; [done|]. intros _ _. right. exists tag. split; [done|by left].
    + intros x Hh _. split; [done|]. intros _ _. right. exists tag. split; [done|by left].
    + intros x Hh _. split; [done|]. intros _ _. right. exists tag. split; [done|left; by left].
    + right. by split.
    + intros t [H|H]; [|done]. apply (o_seq _ HI). by left.
  - by apply (load_moves w tid (InSetup node path a tag)).
  - by apply (load_moves_gen w tid (SetupOk node path a tag)); try (intros; split; [done|by right; right]).
  - (* publishes *) match goal with |- tags_ok ?v => destruct (load_gone w v tid _ HI Hat eq_refl eq_refl eq_refl) as [Hq Hno] end. apply (tags_ok_quiet w); try done.
    + intros t ph H. by destruct (Hno t ph).
    + intros t ph H. by destruct (Hno t ph).
  - (* forgets *) apply (load_moves_gen w tid (SetupFailed tag st)); try done.
    + intros e He. apply forget_list in He as [? ?]. split; [done|right; by left].
    + intros x Hx Hoff. apply forget_watchers in Hx as [? ?]; [|done]. split; [done|right; by left].
  - apply (load_moves_gen w tid (Forgot tag st)); try done; intros; (split; [done|by left]).
  - (* unhooks *) destruct (unwind_fields tag (aw_s w)) as (E1 & E2 & E3 & E4 & E5 & E6 & E7 & E8).
    apply (tags_ok_move w _ tid (Closed tag st) (Unwinding tag st)); try done.
    all: change (aw_s (to tid (Unwinding tag st) (unwind_seams tag (aw_s w)) w)) with (unwind_seams tag (aw_s w)); rewrite ?E2, ?E3, ?E4, ?E5, ?E6, ?E7.
    + intros Hon. by destruct (o_shut _ HI Hon) as [t Ht%(Hdu _ Hat)].
    + intros x Hx. apply list_elem_of_filter in Hx as [Hx1 Hx2]. split; [done|]. intros _ H. by destruct (Hx1 H).
    + intros x Hx. apply list_elem_of_filter in Hx as [Hx1 Hx2]. split; [done|]. intros _ H. by destruct (Hx1 H).
    + done.
    + done.
    + intros t Ht Hr. split; [done|by left].
    + right. destruct (decide _) as [Hd|Hd]; destruct E8 as [-> _].
      * destruct (o_sched _ HI) as [(t & _ & _ & ?)|[_ H2]]; [by split|]. destruct (H2 tag Hd). by apply (Hdu _ Hat).
      * destruct (o_sched _ HI) as [(t & H1 & [= <-]%(Hdu _ Hat) & _)|[H1 _]]; [done|by split].
    + destruct (decide _) as [Hd|Hd]; destruct E8 as [_ ->]; intros t [H|H]; try done; apply (o_seq _ HI); first [by left|right; by apply (Hdu _ Hat)].
  - by apply (load_moves w tid (Unwinding tag st)).
  - (* unwound *) apply (tags_ok_move w _ tid (Unwinding tag st) (Leaving st)); try done.
    + intros Hon. by destruct (o_shut _ HI Hon) as [t Ht%(Hdu _ Hat)].
    + intros t Ht Hr. split; [done|]. intros _ Htag. by destruct (oldest_none tag (aw_s w) t).
    + right. destruct (o_sched _ HI) as [(t & _ & H2%(Hdu _ Hat) & _)|[H1 _]]; [done|by split].
    + intros t [H|H]; [|done]. apply (o_seq _ HI). by left.
  - (* removes *) unfold unregister_type in *. destruct (sm_stopping (aw_s w)); [done|]. rewrite Hlive in *.
    destruct (bool_decide _); [done|]. destruct busy; [done|]. apply (load_moves_gen w tid (Removing tag st name)); try done.
    + intros Hon. by destruct (o_shut _ HI Hon) as [t' Ht%(Hdu _ Hat)].
    + intros; split; [done|by left].
    + intros; split; [done|by left].
    + intros u Hu Hr. cbn [snd] in Hu. change (u ∈ map (λ u, if decide (t_id u = t_id t) then u <| t_removed := true |> else u) (sm_types (aw_s w))) in Hu.
      apply list_elem_of_fmap in Hu as (u0 & -> & Hu0). by destruct (decide _).
  - by apply (load_moves w tid (Removing tag st name)).
  - (* stuck *) apply (tags_ok_move w _ tid (Removing tag st name) (Leaving st)); try done.
    + intros Hon. by destruct (o_shut _ HI Hon) as [t Ht%(Hdu _ Hat)].
    + intros t Ht. by right.
    + intros t Ht Hr. split; [done|]. intros _ Htag. right. exists tag. split; [done|right; by left].
    + right. destruct (o_sched _ HI) as [(t & _ & H2%(Hdu _ Hat) & _)|[H1 _]]; [done|by split].
    + intros t [H|H]; [|done]. apply (o_seq _ HI). by left.
  - (* drained *) apply (load_moves_gen w tid (Draining tag st id)); try done.
    + intros Hon. by destruct (o_shut _ HI Hon) as [t' Ht%(Hdu _ Hat)].
    + intros; split; [done|by left].
    + intros; split; [done|by left].
    + intros u Hu _. by apply list_elem_of_filter in Hu as [_ ?].
  - (* leaves *) match goal with |- tags_ok ?v => destruct (load_gone w v tid _ HI Hat eq_refl eq_refl eq_refl) as [Hq Hno] end. apply (tags_ok_quiet w); try done.
    + intros t ph H. by destruct (Hno t ph).
    + intros t ph H. by destruct (Hno t ph).
Qed.

(** ** The scheduler *)

Lemma schedule_ok w tid fn ud owner replace st s' : tags_ok w → acts w tid →
  gptps_set_scheduler_ex tid fn ud owner replace (aw_s w) = (st, s') →
  tags_ok (w <| aw_s := s' |> <| aw_host ::= λ h, if decide (st = GPTPS_OK ∧ setup_tag_here tid (aw_s w) = None) then sm_sched s' else h |>).
Proof.
  intros HI Hact. unfold gptps_set_scheduler_ex. destruct (_ && _ && negb _).
  { intros [= <- <-]. assert (E : w <| aw_s := aw_s w |> <| aw_host ::= λ h, if decide (GPTPS_E_BUSY = GPTPS_OK ∧ setup_tag_here tid (aw_s w) = None)
      then sm_sched (aw_s w) else h |> = w) by (destruct w; cbn; by rewrite decide_False by (by intros [])).
    by rewrite E. }
  set (tag := setup_tag_here tid (aw_s w)). set (s0 := if bool_decide _ then _ else _). match goal with |- (_, ?x) = _ → _ => set (sn := x) end. intros [= <- <-].
  assert (Hs0 : s0 = (aw_s w) <| sm_undo := sm_undo s0 |>) by (unfold s0; destruct (bool_decide _); [done|by destruct (aw_s w)]).
  assert (Hf : sm_loading sn = sm_loading (aw_s w) ∧ sm_setup_on sn = sm_setup_on (aw_s w) ∧ sm_setup_tid sn = sm_setup_tid (aw_s w) ∧
    sm_setup_tag sn = sm_setup_tag (aw_s w) ∧ sm_observers sn = sm_observers (aw_s w) ∧ sm_constraints sn = sm_constraints (aw_s w) ∧
    sm_settings sn = sm_settings (aw_s w) ∧ sm_types sn = sm_types (aw_s w) ∧ sm_load_seq sn = sm_load_seq (aw_s w)) by (unfold sn; by rewrite Hs0).
  destruct Hf as (E1 & E2 & E3 & E4 & E5 & E6 & E7 & E8 & E9).
  pose proof HI as [H1 H2 H3 H4 H5 H6 H7 H8 H9 H10].
  assert (Hsched : (∃ t, tag = Some t ∧ during hook_tags w t ∧ sm_undo sn = aw_host w) ∨ tag = None).
  { destruct tag as [t|] eqn:Et; [left|by right]. destruct (here_tag w tid t HI Hact Et) as (node & path & a & Hat).
    assert (Hdu : ∀ t', during hook_tags w t' ↔ Some t = Some t') by (intros t'; exact (during_at hook_tags w tid _ t' HI Hat)).
    exists t. split; [done|]. split; [by apply Hdu|]. change (sm_undo sn) with (sm_undo s0). unfold s0.
    destruct (bool_decide_reflect (Some t ≠ None ∧ sm_sched_tag (aw_s w) ≠ Some t)) as [[_ Hne]|Hn].
    - destruct H9 as [(t' & ? & [= <-]%Hdu & _)|[? _]]; done.
    - assert (Hs : sm_sched_tag (aw_s w) = Some t) by (destruct (decide (sm_sched_tag (aw_s w) = Some t)); [done|by destruct Hn]).
      destruct H9 as [(t' & ? & _ & ?)|[_ Hno]]; [done|]. destruct (Hno t Hs). by apply Hdu. }
 
  match goal with |- tags_ok ?v => set (wn := v) end. change sn with (aw_s wn) in E1, E2, E3, E4, E5, E6, E7, E8, E9.
  constructor.
  - intros t ph. rewrite E1. apply H1.
  - intros t ph g. rewrite E2, E3, E4. apply H2.
  - rewrite E2. apply H3.
  - rewrite E5. apply H4.
  - rewrite E6. apply H5.
  - rewrite E7. apply H6.
  - rewrite E7. apply H7.
  - rewrite E8. apply H8.
  - change (sm_sched_tag (aw_s wn)) with tag. destruct Hsched as [(t & Ht & Hd & Hu)|Ht].
    + left. exists t. split; [done|]. split; [done|]. change (sm_undo (aw_s wn)) with (sm_undo sn). rewrite Hu. symmetry. apply decide_False. rewrite Ht. by intros [].
    + right. split; [symmetry; by apply decide_True|]. by rewrite Ht.
  - rewrite E9. intros t [H|H]; [change (tag = Some t) in H|apply H10; by right].
    destruct Hsched as [(t' & Ht & Hd & _)|Ht]; [|by rewrite Ht in H]. apply H10. right. rewrite Ht in H. injection H as <-.
    destruct Hd as (tid' & ph & Hat & Hh). exists tid', ph. split; [done|]. by destruct ph.
Qed.

(** ** Runs *)

Lemma set_enabled_ok w node b : tags_ok w → tags_ok (w <| aw_s := set_enabled node b (aw_s w) |>).
Proof. intros HI. apply tags_ok_call; try done; by left. Qed.
Lemma ghost_ok w ds : tags_ok w → tags_ok (w <| aw_disabling := ds |>).
Proof. intros [H1 H2 H3 H4 H5 H6 H7 H8 H9 H10]. by constructor. Qed.
Lemma addon_named_in name s l : addon_named name s = Some l → l ∈ sm_addons s.
Proof.
  unfold addon_named. destruct (snd <$> list_find (λ l, ns_of _ = _) _) as [l'|] eqn:E1.
  - intros [= <-]. apply fmap_Some in E1 as ([i l0] & Hf & ->). apply list_find_Some in Hf as [? _]. by eapply list_elem_of_lookup_2.
  - intros ([i l0] & Hf & ->)%fmap_Some. apply list_find_Some in Hf as [? _]. by eapply list_elem_of_lookup_2.
Qed.
Lemma disable_begin_sets name s node s' : disable_begin name s = (inr node, s') →
  s' = set_enabled node false s ∧ ∃ l, l ∈ sm_addons s ∧ ld_node l = node ∧ ld_enabled l = true.
Proof.
  unfold disable_begin. destruct (sm_stopping s); [done|]. destruct (addon_named name s) as [l|] eqn:El; [|done].
  destruct (ld_enabled l) eqn:Hen; [|done]. destruct (has_disable _ && _); [|done]. intros [= <- <-]. split; [done|].
  exists l. split; [by apply addon_named_in in El|done].
Qed.
Lemma step_tags w w' : tags_ok w → aw_step w w' → tags_ok w'.
Proof.
  intros HI Hstep. revert HI. destruct Hstep as [tid x ? Hs|tid x s' Hact Hc|tid x fn ud owner replace st s' Hact Hs|x name node s' Hd|x node st Hin]; intros HI.
  - exact (load_ok x tid _ HI Hs).
  - exact (call_ok x tid s' HI Hact Hc).
  - exact (schedule_ok x tid fn ud owner replace st s' HI Hact Hs).
  - assert (E : s' = set_enabled node false (aw_s x)) by (by destruct (disable_begin_sets name (aw_s x) node s' Hd)).
    subst s'. exact (ghost_ok _ (node :: aw_disabling x) (set_enabled_ok x node false HI)).
  - unfold disable_end. destruct (decide (st = GPTPS_OK)).
    + assert (E : x = x <| aw_s := aw_s x |>) by (by destruct x). rewrite E in HI. exact (ghost_ok _ _ HI).
    + exact (ghost_ok _ _ (set_enabled_ok x node true HI)).
Qed.
Lemma start_ok : tags_ok aw_start.
Proof.
  constructor; cbn [aw_start aw_s aw_loads aw_host fresh_seams sm_observers sm_constraints sm_settings sm_types sm_sched sm_sched_tag sm_setup_on].
  all: try done. all: try (by intros ? ?%elem_of_nil).
  - by right.
  - by intros t [?|(tid & ph & ? & _)].
Qed.
Lemma reachable_tags w : aw_reachable w → tags_ok w.
Proof. intros H. apply (rtc_ind_r tags_ok) in H; [done|apply start_ok|]. intros y z _ Hs HI. by eapply step_tags. Qed.

(** ** What is taken away *)

Lemma unlink_hook_gone fn ud l l' h : unlink_hook fn ud l = Some l' → h ∈ l → h ∉ l' → h_fn h = fn ∧ h_ud h = ud.
Proof.
  revert l'. induction l as [|x l IH]; intros l'; [done|]. cbn. destruct (_ && _) eqn:E.
  - intros [= <-] [->|Hh]%elem_of_cons Hno; [|done]. apply andb_prop in E as [?%Z.eqb_eq ?%Z.eqb_eq]. done.
  - destruct (unlink_hook fn ud l) as [l0|]; [|done]. intros [= <-] [->|Hh]%elem_of_cons Hno; [destruct Hno; by left|].
    apply (IH l0 eq_refl Hh). intros Hin. apply Hno. by right.
Qed.
(** A hook stays, or its own unregistration takes it, or its load has failed. *)
Definition hook_kept (get : seams W → list hook) (unreg : Z → Z → seams W → status * seams W) w w' : Prop :=
  ∀ h, h ∈ get (aw_s w) → h ∈ get (aw_s w') ∨ aw_s w' = (unreg (h_fn h) (h_ud h) (aw_s w)).2 ∨
    ∃ tid t st, aw_loads w !! tid = Some (Closed t st) ∧ h_tag h = Some t.
Lemma hook_kept_same get unreg w w' : get (aw_s w') = get (aw_s w) → hook_kept get unreg w w'.
Proof. intros E h Hh. left. by rewrite E. Qed.
Lemma call_keeps w tid s' : seam_call tid (aw_s w) s' →
  hook_kept sm_observers gptps_unregister_observer w (w <| aw_s := s' |>) ∧
  hook_kept sm_constraints gptps_unregister_constraint w (w <| aw_s := s' |>) ∧ sm_addons s' = sm_addons (aw_s w).
Proof.
  intros Hc. destruct Hc.
  - unfold gptps_register_observer, register_hook. destruct (fn =? 0); [by split_and!; try by apply hook_kept_same|].
    destruct sealed; [by split_and!; try by apply hook_kept_same|]. destruct mem; [|by split_and!; try by apply hook_kept_same].
    split_and!; [|by apply hook_kept_same|done]. intros h Hh. left. by right.
  - unfold gptps_register_constraint, register_hook. destruct (fn =? 0); [by split_and!; try by apply hook_kept_same|].
    destruct sealed; [by split_and!; try by apply hook_kept_same|]. destruct mem; [|by split_and!; try by apply hook_kept_same].
    split_and!; [by apply hook_kept_same| |done]. intros h Hh. left. by right.
  - split_and!.
    + intros h Hh. destruct (decide (h ∈ sm_observers (gptps_unregister_observer fn ud (aw_s w)).2)) as [|Hno]; [by left|right; left].
      assert (h_fn h = fn ∧ h_ud h = ud) as [<- <-]; [|done]. unfold gptps_unregister_observer in Hno. destruct (fn =? 0); [done|].
      destruct (unlink_hook _ _ _) as [l|] eqn:E; [|done]. by eapply unlink_hook_gone.
    + unfold gptps_unregister_observer. apply hook_kept_same. destruct (fn =? 0); [done|]. by destruct (unlink_hook _ _ _).
    + unfold gptps_unregister_observer. destruct (fn =? 0); [done|]. by destruct (unlink_hook _ _ _).
  - split_and!.
    + unfold gptps_unregister_constraint. apply hook_kept_same. destruct (fn =? 0); [done|]. by destruct (unlink_hook _ _ _).
    + intros h Hh. destruct (decide (h ∈ sm_constraints (gptps_unregister_constraint fn ud (aw_s w)).2)) as [|Hno]; [by left|right; left].
      assert (h_fn h = fn ∧ h_ud h = ud) as [<- <-]; [|done]. unfold gptps_unregister_constraint in Hno. destruct (fn =? 0); [done|].
      destruct (unlink_hook _ _ _) as [l|] eqn:E; [|done]. by eapply unlink_hook_gone.
    + unfold gptps_unregister_constraint. destruct (fn =? 0); [done|]. by destruct (unlink_hook _ _ _).
  - unfold register_type. destruct (live_type _ _); by split_and!; try by apply hook_kept_same.
  - unfold unregister_type. destruct (sm_stopping (aw_s w)); [by split_and!; try by apply hook_kept_same|].
    destruct (live_type name (aw_s w)); [|by split_and!; try by apply hook_kept_same].
    destruct (bool_decide _); [by split_and!; try by apply hook_kept_same|]. by destruct busy; split_and!; try by apply hook_kept_same.
  - by split_and!; try by apply hook_kept_same.
  - unfold gptps_register_setting. destruct sealed; [by split_and!; try by apply hook_kept_same|].
    destruct (negb _); [by split_and!; try by apply hook_kept_same|]. destruct (settings_add_owned _ _ _ _) as [r st].
    by destruct (decide (st = GPTPS_OK)); split_and!; try by apply hook_kept_same.
  - by split_and!; try by apply hook_kept_same.
  - by split_and!; try by apply hook_kept_same.
  - by split_and!; try by apply hook_kept_same.
  - by split_and!; try by apply hook_kept_same.
Qed.
Lemma unregister_fields busy name tag s : let s' := (unregister_type busy name tag s).2 in
  sm_observers s' = sm_observers s ∧ sm_constraints s' = sm_constraints s ∧ sm_addons s' = sm_addons s.
Proof.
  unfold unregister_type. destruct (sm_stopping s); [done|]. destruct (live_type name s); [|done]. destruct (bool_decide _); [done|].
  by destruct busy.
Qed.
Lemma schedule_fields tid fn ud owner replace s : let s' := (gptps_set_scheduler_ex tid fn ud owner replace s).2 in
  sm_observers s' = sm_observers s ∧ sm_constraints s' = sm_constraints s ∧ sm_addons s' = sm_addons s.
Proof. unfold gptps_set_scheduler_ex. destruct (_ && _ && _); [done|]. by destruct (bool_decide _). Qed.
Lemma load_keeps w tid w' : load_step tid w w' →
  hook_kept sm_observers gptps_unregister_observer w w' ∧ hook_kept sm_constraints gptps_unregister_constraint w w'.
Proof.
  intros Hs. destruct Hs; try by (split; apply hook_kept_same).
  - unfold load_claim. destruct (sm_stopping _); [by split; apply hook_kept_same|]. by destruct (sm_loading _); split; apply hook_kept_same.
  - destruct (unwind_fields tag (aw_s w)) as (_ & _ & Eo & Ec & _).
    split; intros h Hh; (destruct (decide (h_tag h = Some tag)) as [|Hne]; [right; right; by exists tid, tag, st|left]).
    + change (h ∈ sm_observers (unwind_seams tag (aw_s w))). rewrite Eo. by apply list_elem_of_filter.
    + change (h ∈ sm_constraints (unwind_seams tag (aw_s w))). rewrite Ec. by apply list_elem_of_filter.
  - destruct (unregister_fields busy name (Some tag) (aw_s w)) as (Eo & Ec & _). by split; apply hook_kept_same.
Qed.
Lemma step_keeps w w' : aw_step w w' →
  hook_kept sm_observers gptps_unregister_observer w w' ∧ hook_kept sm_constraints gptps_unregister_constraint w w'.
Proof.
  intros Hs. destruct Hs as [tid x ? Hs|tid x s' Hact Hc|tid x fn ud owner replace st s' Hact Hs|x name node s' Hd|x node st Hin].
  - by eapply load_keeps.
  - by destruct (call_keeps x tid s' Hc) as (? & ? & _).
  - destruct (schedule_fields tid fn ud owner replace (aw_s x)) as (Eo & Ec & _). rewrite Hs in Eo, Ec. by split; apply hook_kept_same.
  - destruct (disable_begin_sets name (aw_s x) node s' Hd) as [-> _]. by split; apply hook_kept_same.
  - unfold disable_end. by destruct (decide _); split; apply hook_kept_same.
Qed.

(** C37: add-ons are loaded while other threads register and unregister, remove types, set
    the scheduler, and disable what is loaded.  In every state this reaches, no observer,
    constraint, setting or watcher carries the tag of a load whose setup failed and which
    has returned, nor does any task type the engine did not refuse to remove; with no
    load under way the scheduler is the one last set by another thread or a load that
    succeeded; and no observer or constraint is ever taken away but by a call that names
    it, or with the load it came from - a host's admission quota survives the failure of
    an add-on loaded beside it. *)
Theorem failed_load_leaves_nothing w : aw_reachable w →
  (∀ t, t ∉ aw_done w → (∀ tid ph, aw_loads w !! tid = Some ph → type_tags ph ≠ Some t) →
    (∀ h, h ∈ sm_observers (aw_s w) ++ sm_constraints (aw_s w) → h_tag h ≠ Some t) ∧
    (∀ e, e ∈ s_list (sm_settings (aw_s w)) → s_tag e ≠ Some t) ∧
    (∀ x, x ∈ s_watchers (sm_settings (aw_s w)) → w_off x = false → w_tag x ≠ Some t) ∧
    (∀ y, y ∈ sm_types (aw_s w) → t_removed y = false → t_tag y = Some t → t ∈ aw_stuck w)) ∧
  ((∀ tid, aw_loads w !! tid = None) → sm_sched (aw_s w) = aw_host w) ∧
  (∀ w', aw_step w w' →
    hook_kept sm_observers gptps_unregister_observer w w' ∧ hook_kept sm_constraints gptps_unregister_constraint w w').
Proof.
  intros Hr. pose proof (reachable_tags w Hr) as HI. split_and!; [|intros Hno|apply step_keeps].
  - intros t Hd Hno. assert (Hn : ∀ f, f ∈ [set_tags; hook_tags; type_tags] → ¬ during f w t).
    { intros f Hf (tid & ph & Hat & Ht). apply (Hno tid ph Hat). rewrite !elem_of_cons, elem_of_nil in Hf. destruct ph; naive_solver. }
    assert (Hown : ∀ f tag, f ∈ [set_tags; hook_tags; type_tags] → owned f w tag → tag ≠ Some t).
    { intros f tag Hf Ho ->. destruct Ho as [?|Hdu]; [done|by destruct (Hn f Hf)]. }
    split_and!.
    + intros h [Hh|Hh]%elem_of_app; apply (Hown hook_tags); [in_four|by apply (o_obs _ HI)|in_four|by apply (o_con _ HI)].
    + intros e He. apply (Hown set_tags); [in_four|by apply (o_set _ HI)].
    + intros x Hx Hoff. apply (Hown set_tags); [in_four|by apply (o_watch _ HI)].
    + intros y Hy Hrm Ht. destruct (o_type _ HI y Hy Hrm) as [Ho|(g & Hg & ?)]; [by destruct (Hown type_tags (t_tag y)); [in_four|..]|].
      rewrite Ht in Hg. by simplify_eq.
  - destruct (o_sched _ HI) as [(t & _ & (tid & ph & Hat & _) & _)|[? _]]; [by rewrite Hno in Hat|done].
Qed.

End facts.

(** An add-on registers an observer, a host thread a constraint; then the setup fails. *)
Definition quota_addon : addon := Addon 64 GPTPS_ABI_MAGIC GPTPS_ABI_VERSION_MAJOR (Some "quota"%string) 0 true (Some "quota"%string) true.
Lemma failed_load_leaves_nothing_witness : ∃ w : aworld unit, aw_reachable w ∧ aw_done w = [] ∧
  sm_constraints (aw_s w) = [Hook 7 0 None] ∧ (∀ h, h ∈ sm_observers (aw_s w) ++ sm_constraints (aw_s w) → h_tag h ≠ Some 1%N).
Proof.
  eexists. match goal with |- aw_reachable ?v ∧ _ => assert (H : aw_reachable v) end.
  { eapply rtc_l; [apply (step_loads 1), (load_claims 1 _ (Init quota_addon) "quota.so"); reflexivity|].
    eapply rtc_l; [apply (step_loads 1), (load_names 1 _ (Init quota_addon) "quota.so" quota_addon 1%positive); first [reflexivity|by intros ?%elem_of_nil]|].
    eapply rtc_l; [apply (step_loads 1), (load_opens 1 _ 1%positive "quota.so" quota_addon); reflexivity|].
    eapply rtc_l; [apply (step_calls 1); [exact I|apply (calls_observe 1 _ false true 5 0)]|].
    eapply rtc_l; [apply (step_calls 2); [exact I|apply (calls_constrain 2 _ false true 7 0)]|].
    eapply rtc_l; [apply (step_loads 1), (load_setup_fails 1 _ 1%positive "quota.so" quota_addon 1 GPTPS_E_INVAL); [reflexivity|discriminate]|].
    eapply rtc_l; [apply (step_loads 1), (load_forgets 1 _ 1 GPTPS_E_INVAL); reflexivity|].
    eapply rtc_l; [apply (step_loads 1), (load_closes 1 _ 1 GPTPS_E_INVAL); reflexivity|].
    eapply rtc_l; [apply (step_loads 1), (load_unhooks 1 _ 1 GPTPS_E_INVAL); reflexivity|].
    eapply rtc_l; [apply (step_loads 1), (load_unwound 1 _ 1 GPTPS_E_INVAL); reflexivity|].
    eapply rtc_l; [apply (step_loads 1), (load_leaves 1 _ GPTPS_E_INVAL); reflexivity|]. apply rtc_refl. }
  split; [exact H|]. split; [vm_compute; reflexivity|]. split; [vm_compute; reflexivity|].
  apply (proj1 (failed_load_leaves_nothing _ H) 1%N); [vm_compute; by intros ?%elem_of_nil|].
  intros tid ph. match goal with |- ?m !! _ = _ → _ => assert (E : m = ∅) by (vm_compute; reflexivity); rewrite E end. by rewrite lookup_empty.
Defined.
End AddonFacts.
