(* ===== verification/AddonNames.v ===== *)
(** * Names claimed, hooks run once

    In every run of loads: one load at a time, no namespace claimed twice, and no disable
    hook running twice at once. *)

From S2P Require Import Prelude Engine Registry Toml Settings Addons AddonFacts.

Module AddonNames.
Import Engine Registry Settings Addons AddonWorld AddonFacts.

Lemma NoDup_omap_inj {A B} (f : A → option B) l i j x y b : NoDup (omap f l) → l !! i = Some x → l !! j = Some y →
  f x = Some b → f y = Some b → i = j.
Proof.
  revert i j. induction l as [|z l IH]; [done|]. intros i j Hnd Hi Hj Hx Hy.
  assert (Hl : NoDup (omap f l)) by (cbn in Hnd; destruct (f z); [by apply NoDup_cons in Hnd as [_ ?]|done]).
  assert (Hz : ∀ k u, l !! k = Some u → f z = Some b → f u ≠ Some b).
  { intros k u Hk Hz Hu. cbn in Hnd. rewrite Hz in Hnd. apply NoDup_cons in Hnd as [Hno _]. apply Hno, list_elem_of_omap.
    exists u. split; [by eapply list_elem_of_lookup_2|done]. }
  destruct i as [|i], j as [|j]; cbn in Hi, Hj; simplify_eq; [done|by destruct (Hz j y Hj Hx)|by destruct (Hz i x Hi Hy)|].
  f_equal. by eapply IH.
Qed.

Section names.
Context {W : Type}.
Implicit Types (s : seams W) (w : aworld W) (tid : Z).

Definition names s : list string := omap (λ l, ns_of (ld_addon l)) (sm_addons s).
Definition nodes s : list positive := map ld_node (sm_addons s).

Lemma node_inj s l l' : NoDup (nodes s) → l ∈ sm_addons s → l' ∈ sm_addons s → ld_node l = ld_node l' → l = l'.
Proof.
  unfold nodes. change (map ld_node (sm_addons s)) with (ld_node <$> sm_addons s).
  intros Hnd [i Hi]%list_elem_of_lookup [i' Hi']%list_elem_of_lookup Hn.
  assert (i' = i) as -> by (eapply NoDup_lookup; [exact Hnd|by rewrite list_lookup_fmap, Hi'|by rewrite list_lookup_fmap, Hi, <-Hn]).
  congruence.
Qed.

Record names_ok w : Prop := {
  n_names : NoDup (names (aw_s w));
  n_valid : ∀ ns, ns ∈ names (aw_s w) → ns_token_valid ns = true;
  n_nodes : NoDup (nodes (aw_s w));
  n_load : ∀ tid ph n a, aw_loads w !! tid = Some ph → addon_in ph = Some (n, a) →
    n ∉ nodes (aw_s w) ∧ claim_ns a (aw_s w) = GPTPS_OK;
  n_once : NoDup (aw_disabling w);
  n_off : ∀ n, n ∈ aw_disabling w → ∃ l, l ∈ sm_addons (aw_s w) ∧ ld_node l = n ∧ ld_enabled l = false }.

Lemma taken_names ns s : ns_taken ns s = true ↔ ns ∈ names s.
Proof.
  unfold ns_taken, names. rewrite existsb_exists, list_elem_of_omap. split.
  - intros (l & Hl%list_elem_of_In & Hns%bool_decide_eq_true). by exists l.
  - intros (l & Hl & Hns). exists l. split; [by apply list_elem_of_In|by apply bool_decide_eq_true].
Qed.
Lemma claimed a s : claim_ns a s = GPTPS_OK → ∀ ns, ns_of a = Some ns → ns_token_valid ns = true ∧ ns ∉ names s.
Proof.
  unfold claim_ns. intros Hc ns Hns. rewrite Hns in Hc. destruct (ns_token_valid ns); [|done]. split; [done|].
  rewrite <-taken_names. by destruct (ns_taken ns s).
Qed.

(** Steps that leave the list of add-ons, and what the load holds, as they are. *)
Lemma names_ok_same w w' : names_ok w → sm_addons (aw_s w') = sm_addons (aw_s w) → aw_disabling w' = aw_disabling w →
  (∀ tid ph n a, aw_loads w' !! tid = Some ph → addon_in ph = Some (n, a) →
    ∃ tid' ph', aw_loads w !! tid' = Some ph' ∧ addon_in ph' = Some (n, a)) → names_ok w'.
Proof.
  intros [H1 H2 H3 H4 H5 H6] Ea Ed Hl. unfold names, nodes, claim_ns, ns_taken in *. constructor; unfold names, nodes, claim_ns, ns_taken; rewrite ?Ea, ?Ed; try done.
  intros tid ph n a Hat Hin. destruct (Hl tid ph n a Hat Hin) as (tid' & ph' & ? & ?). by eapply H4.
Qed.
Lemma names_ok_to w w' tid ph ph' : names_ok w → sm_addons (aw_s w') = sm_addons (aw_s w) → aw_disabling w' = aw_disabling w →
  aw_loads w !! tid = Some ph → aw_loads w' = <[tid := ph']> (aw_loads w) → (addon_in ph' = None ∨ addon_in ph' = addon_in ph) → names_ok w'.
Proof.
  intros HI Ea Ed Hat El Hph. apply (names_ok_same w); try done. intros tid' ph0 n a. rewrite El.
  destruct (decide (tid' = tid)) as [->|]; [rewrite lookup_insert_eq; intros [= <-] Hin|rewrite lookup_insert_ne by done; by exists tid', ph0].
  destruct Hph as [Hph|Hph]; rewrite Hph in Hin; [done|by exists tid, ph].
Qed.

Lemma set_enabled_names node b s : names (set_enabled node b s) = names s ∧ nodes (set_enabled node b s) = nodes s ∧
  ∀ a, claim_ns a (set_enabled node b s) = claim_ns a s.
Proof.
  assert (E : names (set_enabled node b s) = names s).
  { unfold names, set_enabled. change (sm_addons (s <| sm_addons ::= ?f |>)) with (f (sm_addons s)).
    apply list_omap_ext, Forall2_fmap_l, Forall_Forall2_diag, Forall_forall. intros l _. cbn. by destruct (decide (ld_node l = node)). }
  split; [done|]. split.
  - unfold nodes, set_enabled. change (sm_addons (s <| sm_addons ::= ?f |>)) with (f (sm_addons s)).
    rewrite map_map. apply map_ext. intros l. by destruct (decide (ld_node l = node)).
  - intros a. unfold claim_ns. destruct (ns_of a) as [ns|]; [|done]. destruct (ns_token_valid ns); [|done].
    assert (Ht : ns_taken ns (set_enabled node b s) = ns_taken ns s); [|by rewrite Ht].
    apply eq_true_iff_eq. by rewrite !taken_names, E.
Qed.
Lemma set_enabled_elem node b s l : l ∈ sm_addons s → (if decide (ld_node l = node) then l <| ld_enabled := b |> else l) ∈ sm_addons (set_enabled node b s).
Proof.
  intros Hl. pose (g := λ y : loaded, if decide (ld_node y = node) then y <| ld_enabled := b |> else y).
  change (g l ∈ g <$> sm_addons s). by apply list_elem_of_fmap_2.
Qed.

Lemma unwind_addons tag s : sm_addons (unwind_seams tag s) = sm_addons s.
Proof. unfold unwind_seams. by destruct (decide _). Qed.

Lemma load_names_ok w tid w' : tags_ok w → names_ok w → load_step tid w w' → names_ok w'.
Proof.
  intros HT HI Hstep.
  destruct Hstep as [lib path Hno Hcl|lib path st Hat _|lib path a Hat _ _|lib path a Hat _ _|lib path a node Hat _ Hcl Hnode|node path a Hat _|
    node path a Hat _ Hseq|node path a tag Hat|node path a tag st Hat _|node path a tag Hat|node path a Hat|tag st Hat|tag st Hat|tag st Hat|
    tag st t Hat _|tag st Hat Hold|tag st name t busy Hat Hlive Hst|tag st name busy Hat _|tag st name busy Hat _|tag st id Hat|st Hat].
  all: try by (eapply names_ok_to; [exact HI|reflexivity|reflexivity|exact Hat|reflexivity|first [by left|by right]]).
  - apply (names_ok_same w); try done.
    + unfold load_claim. destruct (sm_stopping _); [done|]. by destruct (sm_loading _).
    + intros tid' ph n a. change (<[tid := Claimed lib path]> (aw_loads w) !! tid' = Some ph → addon_in ph = Some (n, a) →
        ∃ tid' ph', aw_loads w !! tid' = Some ph' ∧ addon_in ph' = Some (n, a)).
      destruct (decide (tid' = tid)) as [->|]; [rewrite lookup_insert_eq; by intros [= <-]|rewrite lookup_insert_ne by done; by exists tid', ph].
  - destruct HI as [H1 H2 H3 H4 H5 H6]. constructor; try done. intros tid' ph n a0.
    change (<[tid := Named node path a]> (aw_loads w) !! tid' = Some ph → addon_in ph = Some (n, a0) → n ∉ nodes (aw_s w) ∧ claim_ns a0 (aw_s w) = GPTPS_OK).
    destruct (decide (tid' = tid)) as [->|]; [rewrite lookup_insert_eq; by intros [= <-] [= <- <-]|rewrite lookup_insert_ne by done; by apply H4].
  - (* published *) destruct (n_load _ HI tid _ node a Hat eq_refl) as [Hn Hcl]. pose proof (claimed a _ Hcl) as Hns.
    set (l := Loaded node path a true). set (w1 := w <| aw_s := _ |> <| aw_loads ::= _ |>).
    assert (Ea : sm_addons (aw_s w1) = l :: sm_addons (aw_s w)) by done.
    assert (Hgone : ∀ t ph, aw_loads w1 !! t ≠ Some ph) by (by apply (load_gone w w1 tid (Ready node path a))).
    constructor; unfold names, nodes; rewrite ?Ea.
    + cbn. destruct (ns_of a) as [ns|]; [|apply (n_names _ HI)]. constructor; [by apply Hns|apply (n_names _ HI)].
    + cbn. destruct (ns_of a) as [ns|]; [|apply (n_valid _ HI)]. intros x [->|Hx]%elem_of_cons; [by apply Hns|by apply (n_valid _ HI)].
    + constructor; [done|apply (n_nodes _ HI)].
    + intros t ph n a0 H. by destruct (Hgone t ph).
    + apply (n_once _ HI).
    + intros n Hn'. destruct (n_off _ HI n Hn') as (l0 & ? & ?). exists l0. split; [by right|done].
  - apply (names_ok_to w _ tid (Closed tag st) (Unwinding tag st)); try done; [|by left]. exact (unwind_addons tag (aw_s w)).
  - destruct (unregister_fields busy name (Some tag) (aw_s w)) as (_ & _ & Ea).
    by apply (names_ok_to w _ tid (Removing tag st name) (Draining tag st (t_id t))); try done; left.
  - apply (names_ok_same w); try done. intros tid' ph n a.
    change (delete tid (aw_loads w) !! tid' = Some ph → addon_in ph = Some (n, a) → ∃ tid' ph', aw_loads w !! tid' = Some ph' ∧ addon_in ph' = Some (n, a)).
    intros [_ Hl]%lookup_delete_Some Ha. by exists tid', ph.
Qed.

Lemma step_names_ok w w' : tags_ok w → names_ok w → aw_step w w' → names_ok w'.
Proof.
  intros HT HI Hs. revert HT HI. destruct Hs as [tid x ? Hs|tid x s' Hact Hc|tid x fn ud owner replace st s' Hact Hs|x name node s' Hd|x node st Hin]; intros HT HI.
  - exact (load_names_ok x tid _ HT HI Hs).
  - destruct (call_keeps x tid s' Hc) as (_ & _ & Ea). apply (names_ok_same x); try done. intros t ph n a ? ?. by exists t, ph.
  - destruct (schedule_fields tid fn ud owner replace (aw_s x)) as (_ & _ & Ea). rewrite Hs in Ea.
    apply (names_ok_same x); try done. intros t ph n a ? ?. by exists t, ph.
  - destruct (disable_begin_sets name (aw_s x) node s' Hd) as [-> (l & Hl & Hnode & Hen)].
    destruct (set_enabled_names node false (aw_s x)) as (E1 & E2 & E3). destruct HI as [H1 H2 H3 H4 H5 H6].
    set (x1 := x <| aw_s := _ |> <| aw_disabling ::= _ |>). assert (Es : aw_s x1 = set_enabled node false (aw_s x)) by done.
    constructor; rewrite ?Es, ?E1, ?E2; try done.
    + intros t ph n a Hat Ha. rewrite ?Es, ?E2, E3. by apply (H4 t ph).
    + change (aw_disabling x1) with (node :: aw_disabling x). constructor; [|done]. intros (l' & Hl' & Hn' & Hoff)%H6.
      assert (l' = l) by (apply (node_inj (aw_s x)); [done..|congruence]). congruence.
    + change (aw_disabling x1) with (node :: aw_disabling x). intros n [->|Hn]%elem_of_cons.
      * pose proof (set_enabled_elem node false _ l Hl) as He. rewrite decide_True in He by done. by eexists.
      * destruct (H6 n Hn) as (l' & Hl' & Hn' & Hoff). pose proof (set_enabled_elem node false _ l' Hl') as He.
        destruct (decide (ld_node l' = node)); by eexists.
  - destruct HI as [H1 H2 H3 H4 H5 H6]. unfold disable_end. destruct (decide (st = GPTPS_OK)) as [Hst|Hst].
    + constructor; try done.
      * apply NoDup_filter, H5.
      * intros m [_ Hn]%list_elem_of_filter. by apply H6.
    + destruct (set_enabled_names node true (aw_s x)) as (E1 & E2 & E3).
      set (x1 := x <| aw_s := _ |> <| aw_disabling ::= _ |>). assert (Es : aw_s x1 = set_enabled node true (aw_s x)) by done.
      constructor; rewrite ?Es, ?E1, ?E2; try done.
      * intros t ph n a Hat Ha. rewrite ?Es, ?E2, E3. by apply (H4 t ph).
      * apply NoDup_filter, H5.
      * intros m [Hne Hn]%list_elem_of_filter. destruct (H6 m Hn) as (l' & Hl' & Hn' & Hoff).
        pose proof (set_enabled_elem node true _ l' Hl') as He. rewrite decide_False in He by congruence. by exists l'.
Qed.
Lemma reachable_names w : aw_reachable w → names_ok w.
Proof.
  intros H. apply (rtc_ind_r (λ w, tags_ok w ∧ names_ok w)) in H; [by destruct H| |].
  - split; [apply start_ok|]. constructor; cbn; try done; try constructor; by intros ? ?%elem_of_nil.
  - intros y z _ Hs [HT HI]. split; [by eapply step_tags|by eapply step_names_ok].
Qed.

(** C38: in every run of loads and disables among calls of other threads, no two loaded
    add-ons have the same namespace and every namespace is a proper token; at most one
    load is under way, and the namespace it has claimed is still free when it publishes;
    and no add-on's disable hook runs twice at once, nor one of an add-on still marked
    enabled. *)
Theorem namespaces_are_claimed w : aw_reachable w →
  (∀ i j l l' ns, sm_addons (aw_s w) !! i = Some l → sm_addons (aw_s w) !! j = Some l' →
    ns_of (ld_addon l) = Some ns → ns_of (ld_addon l') = Some ns → i = j) ∧
  (∀ l ns, l ∈ sm_addons (aw_s w) → ns_of (ld_addon l) = Some ns → ns_token_valid ns = true) ∧
  (∀ tid tid' ph ph', aw_loads w !! tid = Some ph → aw_loads w !! tid' = Some ph' → tid = tid') ∧
  (∀ tid node path a ns l, aw_loads w !! tid = Some (Ready node path a) → ns_of a = Some ns → l ∈ sm_addons (aw_s w) →
    ns_of (ld_addon l) ≠ Some ns) ∧
  NoDup (aw_disabling w) ∧ (∀ l, l ∈ sm_addons (aw_s w) → ld_node l ∈ aw_disabling w → ld_enabled l = false).
Proof.
  intros Hr. pose proof (reachable_names w Hr) as HI. pose proof (reachable_tags w Hr) as HT. split_and!.
  - intros i j l l' ns Hi Hj Hl Hl'. pose proof (n_names _ HI) as Hnd. unfold names in Hnd. by eapply NoDup_omap_inj.
  - intros l ns Hl Hns. apply (n_valid _ HI). apply list_elem_of_omap. by exists l.
  - intros tid tid' ph ph' H1 H2. by apply (o_one _ HT tid' ph' H2) in H1.
  - intros tid node path a ns l Hat Hns Hl Hl'. destruct (n_load _ HI tid _ node a Hat eq_refl) as [_ Hc].
    apply (claimed a _ Hc ns Hns). apply list_elem_of_omap. by exists l.
  - apply (n_once _ HI).
  - intros l Hl Hd. destruct (n_off _ HI _ Hd) as (l' & Hl' & Hn & Hoff).
    assert (l' = l) by (apply (node_inj (aw_s w)); [apply (n_nodes _ HI)|done..]). congruence.
Qed.

End names.

(** An add-on loaded, with the name it claimed. *)
Lemma namespaces_are_claimed_witness : ∃ w : aworld unit, aw_reachable w ∧
  sm_addons (aw_s w) = [Loaded 1%positive "quota.so" quota_addon true] ∧ ns_token_valid "quota" = true ∧ NoDup (aw_disabling w).
Proof.
  eexists. match goal with |- aw_reachable ?v ∧ _ => assert (H : aw_reachable v) end.
  { eapply rtc_l; [apply (step_loads 1), (load_claims 1 _ (Init quota_addon) "quota.so"); reflexivity|].
    eapply rtc_l; [apply (step_loads 1), (load_names 1 _ (Init quota_addon) "quota.so" quota_addon 1%positive); first [reflexivity|by intros ?%elem_of_nil]|].
    eapply rtc_l; [apply (step_loads 1), (load_opens 1 _ 1%positive "quota.so" quota_addon); reflexivity|].
    eapply rtc_l; [apply (step_loads 1), (load_set_up 1 _ 1%positive "quota.so" quota_addon 1); reflexivity|].
    eapply rtc_l; [apply (step_loads 1), (load_ready 1 _ 1%positive "quota.so" quota_addon 1); reflexivity|].
    eapply rtc_l; [apply (step_loads 1), (load_publishes 1 _ 1%positive "quota.so" quota_addon); reflexivity|]. apply rtc_refl. }
  split; [exact H|]. split; [vm_compute; reflexivity|]. pose proof (namespaces_are_claimed _ H) as (_ & Hv & _ & _ & Hd & _).
  split; [|exact Hd]. apply (Hv (Loaded 1%positive "quota.so" quota_addon true)); [|reflexivity]. vm_compute. by left.
Defined.
End AddonNames.
