(* ===== verification/AddonLoad.v ===== *)
(** * A load on its own

    [gptps_load_addon] as one function is a run of its sections, and the loop of
    [addon_unwind] ends. *)

From S2P Require Import Prelude Engine Registry Toml Settings Addons AddonFacts.

Module AddonLoad.
Import Engine Registry Settings Addons AddonWorld AddonFacts.

Lemma filter_drops {A} (P Q : A → Prop) `{∀ x, Decision (P x), ∀ x, Decision (Q x)} (l : list A) x :
  x ∈ l → P x → ¬ Q x → (length (filter P (filter Q l)) < length (filter P l))%nat.
Proof.
  intros Hx HP HQ. assert (Hle : ∀ l : list A, (length (filter P (filter Q l)) ≤ length (filter P l))%nat).
  { clear. intros l. induction l as [|y l IH]; [done|]. rewrite !filter_cons. destruct (decide (Q y)), (decide (P y)); cbn [length]; rewrite ?filter_cons;
      repeat destruct (decide _); try done; cbn [length]; lia. }
  induction l as [|y l IH]; [by apply elem_of_nil in Hx|]. rewrite !filter_cons. apply elem_of_cons in Hx as [<-|Hx].
  - rewrite decide_False, decide_True by done. specialize (Hle l). cbn [length]. lia.
  - specialize (IH Hx). destruct (decide (Q y)); rewrite ?filter_cons; destruct (decide (P y)); cbn [length]; lia.
Qed.

Section load.
Context {W : Type}.
Implicit Types (s : seams W) (w : aworld W) (tid : Z).

(** Slots of types are distinct, and so are the names of those not removed. *)
Definition types_ok s : Prop :=
  NoDup (t_id <$> sm_types s) ∧
  ∀ t u, t ∈ sm_types s → u ∈ sm_types s → t_removed t = false → t_removed u = false → t_name t = t_name u → t = u.
Definition left_of (tag : N) s : list rtype := filter (λ t, t_tag t = Some tag ∧ t_removed t = false) (sm_types s).

Lemma oldest_live tag s t : types_ok s → oldest_of tag s = Some t →
  t ∈ sm_types s ∧ t_tag t = Some tag ∧ t_removed t = false ∧ live_type (t_name t) s = Some t.
Proof.
  intros [_ Hn] Hl. unfold oldest_of in Hl. apply last_Some in Hl as [l Hl].
  assert (Hin : t ∈ left_of tag s) by (unfold left_of; rewrite Hl; apply elem_of_app; right; by left).
  apply list_elem_of_filter in Hin as [[Ht Hr] Hin]. split_and!; try done. unfold live_type.
  destruct (list_find _ _) as [[i u]|] eqn:Hf; cbn.
  - apply list_find_Some in Hf as (Hi & [Hun Hur] & _). f_equal. apply Hn; try done. by eapply list_elem_of_lookup_2.
  - apply list_find_None in Hf. rewrite Forall_forall in Hf. by destruct (Hf t Hin).
Qed.
(** A type unregistered and drained is out of the registry. *)
Lemma removed_unlinked (t : rtype) (ts : list rtype) :
  filter (λ u, t_id u ≠ t_id t) (map (λ u, if decide (t_id u = t_id t) then u <| t_removed := true |> else u) ts) =
  filter (λ u, t_id u ≠ t_id t) ts.
Proof.
  induction ts as [|u ts IH]; [done|]. cbn [map]. rewrite !filter_cons. destruct (decide (t_id u = t_id t)) as [E|E].
  - rewrite decide_False by (intros Hu; by apply Hu). rewrite decide_False by (intros Hu; by apply Hu). done.
  - rewrite decide_True, decide_True by done. by rewrite IH.
Qed.
Lemma unlink_types_ok id s : types_ok s → types_ok (unlink_type id s).
Proof.
  intros [Hnd Hn]. split.
  - change (NoDup (t_id <$> filter (λ t, t_id t ≠ id) (sm_types s))). revert Hnd. clear Hn. induction (sm_types s) as [|t ts IH]; [done|].
    rewrite fmap_cons. intros [Ht Hnd]%NoDup_cons. rewrite filter_cons. destruct (decide _); [|by apply IH]. rewrite fmap_cons.
    constructor; [|by apply IH]. intros (u & Hu & [_ Hin]%list_elem_of_filter)%list_elem_of_fmap. apply Ht. rewrite Hu. by apply list_elem_of_fmap_2.
  - intros t u [_ Ht]%list_elem_of_filter [_ Hu]%list_elem_of_filter. by apply Hn.
Qed.
Lemma left_fewer tag s t : types_ok s → t ∈ left_of tag s → (length (left_of tag (unlink_type (t_id t) s)) < length (left_of tag s))%nat.
Proof.
  intros _ [Hp Hin]%list_elem_of_filter. apply (filter_drops _ (λ u, t_id u ≠ t_id t) _ t); [done..|]. by intros [].
Qed.

(** The loop ends: nothing of the load is left, or the engine refused. *)
Definition refused busy (tag : N) s : Prop := ∃ t, oldest_of tag s = Some t ∧
  (unregister_type (busy (t_name t)) (t_name t) (Some tag) s).1 ∉ [GPTPS_OK; GPTPS_E_NOTFOUND].
Lemma unwind_ends fuel busy tag s : types_ok s → (length (left_of tag s) < fuel)%nat →
  let s' := unwind_types fuel busy tag s in oldest_of tag s' = None ∨ refused busy tag s'.
Proof.
  revert s. induction fuel as [|fuel IH]; intros s Hok Hlen; [lia|]. cbn [unwind_types].
  destruct (oldest_of tag s) as [t|] eqn:Ho; [|by left]. destruct (oldest_live tag s t Hok Ho) as (Hin & Ht & Hr & Hl).
  destruct (unregister_type (busy (t_name t)) (t_name t) (Some tag) s) as [st s1] eqn:Eu.
  assert (Eu' := Eu). unfold unregister_type in Eu'. rewrite Hl, bool_decide_false in Eu' by (intros [_ []]; done).
  destruct (sm_stopping s); [injection Eu' as <- <-; rewrite !decide_False by done; right; exists t; split; [done|rewrite Eu; by intros Hx%list_elem_of_In; destruct Hx as [|[]]]|].
  destruct (busy (t_name t)) eqn:Eb; [injection Eu' as <- <-; rewrite !decide_False by done; right; exists t; split; [done|rewrite Eb, Eu; by intros Hx%list_elem_of_In; destruct Hx as [|[]]]|].
  injection Eu' as <- <-. rewrite decide_True by done.
  match goal with |- context [unlink_type (t_id t) ?x] => assert (E : unlink_type (t_id t) x = unlink_type (t_id t) s) end.
  { unfold unlink_type. destruct s. cbn. f_equal. apply removed_unlinked. }
  rewrite E. apply IH; [by apply unlink_types_ok|].
  assert (Hf : t ∈ left_of tag s) by (by apply list_elem_of_filter). pose proof (left_fewer tag s t Hok Hf). lia.
Qed.

(** The loop is a run of its sections. *)
Lemma unwind_runs fuel busy tag st tid w : types_ok (aw_s w) → (length (left_of tag (aw_s w)) < fuel)%nat →
  at_ w tid (Unwinding tag st) →
  ∃ w', rtc aw_step w w' ∧ aw_s w' = unwind_types fuel busy tag (aw_s w) ∧ aw_loads w' = <[tid := Leaving st]> (aw_loads w).
Proof.
  revert w. induction fuel as [|fuel IH]; intros w Hok Hlen Hat; [lia|]. cbn [unwind_types].
  destruct (oldest_of tag (aw_s w)) as [t|] eqn:Ho.
  2: { eexists. split; [eapply rtc_once, step_loads, load_unwound; [exact Hat|done]|done]. }
  destruct (oldest_live tag (aw_s w) t Hok Ho) as (Hin & Ht & Hr & Hl).
  set (w1 := to tid (Removing tag st (t_name t)) (aw_s w) w).
  assert (H1 : aw_step w w1) by (eapply step_loads, load_scans; done).
  assert (Hat1 : at_ w1 tid (Removing tag st (t_name t))) by apply lookup_insert_eq.
  destruct (unregister_type (busy (t_name t)) (t_name t) (Some tag) (aw_s w)) as [st1 s1] eqn:Eu.
  assert (Eu' := Eu). unfold unregister_type in Eu'. rewrite Hl, bool_decide_false in Eu' by (intros [_ []]; done).
  assert (Hstuck : st1 ∉ [GPTPS_OK; GPTPS_E_NOTFOUND] → s1 = aw_s w →
    ∃ w', rtc aw_step w w' ∧ aw_s w' = (if decide (st1 = GPTPS_OK) then unwind_types fuel busy tag (unlink_type (t_id t) s1)
      else if decide (st1 = GPTPS_E_NOTFOUND) then unwind_types fuel busy tag s1 else s1) ∧ aw_loads w' = <[tid := Leaving st]> (aw_loads w)).
  { intros Hno ->. rewrite !decide_False by (intros ->; apply Hno; rewrite !elem_of_cons; tauto).
    eexists. split; [eapply rtc_l; [exact H1|]; eapply rtc_once, step_loads, (load_stuck tid w1 tag st _ (busy (t_name t))); [exact Hat1|]; change (aw_s w1) with (aw_s w); by rewrite Eu|].
    split; [done|]. change (<[tid := Leaving st]> (<[tid := Removing tag st (t_name t)]> (aw_loads w)) = <[tid := Leaving st]> (aw_loads w)). by rewrite insert_insert_eq. }
  destruct (sm_stopping (aw_s w)); [injection Eu' as <- <-; apply Hstuck; [by intros Hx%list_elem_of_In; destruct Hx as [|[]]|done]|].
  destruct (busy (t_name t)) eqn:Eb; [injection Eu' as <- <-; apply Hstuck; [by intros Hx%list_elem_of_In; destruct Hx as [|[]]|done]|].
  injection Eu' as <- <-. rewrite decide_True by done. clear Hstuck.
  match goal with |- context [unlink_type (t_id t) ?x] => set (s1 := x) in *; assert (E : unlink_type (t_id t) s1 = unlink_type (t_id t) (aw_s w)) end.
  { unfold s1, unlink_type. destruct (aw_s w). cbn. f_equal. apply removed_unlinked. }
  set (w2 := to tid (Draining tag st (t_id t)) (unregister_type false (t_name t) (Some tag) (aw_s w1)).2 w1).
  assert (H2 : aw_step w1 w2) by (apply (step_loads tid), (load_removes tid w1 tag st (t_name t) t false); [exact Hat1|exact Hl|change (aw_s w1) with (aw_s w); by rewrite Eu]).
  assert (Hat2 : at_ w2 tid (Draining tag st (t_id t))) by apply lookup_insert_eq.
  set (w3 := to tid (Unwinding tag st) (unlink_type (t_id t) (aw_s w2)) w2).
  assert (H3 : aw_step w2 w3) by (by eapply step_loads, load_drained).
  assert (Es : aw_s w3 = unlink_type (t_id t) (aw_s w)).
  { change (aw_s w3) with (unlink_type (t_id t) (unregister_type false (t_name t) (Some tag) (aw_s w)).2). by rewrite Eu. }
  destruct (IH w3) as (w' & Hrun & Hs & Hloads).
  - rewrite Es. by apply unlink_types_ok.
  - rewrite Es. assert (Hf : t ∈ left_of tag (aw_s w)) by (by apply list_elem_of_filter). pose proof (left_fewer tag (aw_s w) t Hok Hf). lia.
  - apply lookup_insert_eq.
  - exists w'. split; [eapply rtc_l; [exact H1|]; eapply rtc_l; [exact H2|]; by eapply rtc_l; [exact H3|]|].
    split; [by rewrite Hs, Es, E|]. rewrite Hloads.
    change (aw_loads w3) with (<[tid := Unwinding tag st]> (<[tid := Draining tag st (t_id t)]> (<[tid := Removing tag st (t_name t)]> (aw_loads w)))).
    by rewrite !insert_insert_eq.
Qed.

(** ** Types in every run *)

Lemma flag_types_ok id s : types_ok s →
  types_ok (s <| sm_types ::= map (λ u, if decide (t_id u = id) then u <| t_removed := true |> else u) |>).
Proof.
  set (f := λ u : rtype, if decide (t_id u = id) then u <| t_removed := true |> else u).
  assert (Hf : ∀ u, t_id (f u) = t_id u ∧ t_name (f u) = t_name u ∧ (t_removed (f u) = false → f u = u)).
  { intros u. unfold f. by destruct (decide (t_id u = id)). }
  intros [Hnd Hn]. split.
  - change (NoDup (t_id <$> (f <$> sm_types s))). rewrite <-list_fmap_compose.
    rewrite (list_fmap_ext _ t_id); [done|]. intros i u _. by destruct (Hf u).
  - intros t u. change (t ∈ f <$> sm_types s → u ∈ f <$> sm_types s → t_removed t = false → t_removed u = false → t_name t = t_name u → t = u).
    intros (t0 & -> & Ht)%list_elem_of_fmap (u0 & -> & Hu)%list_elem_of_fmap Hrt Hru.
    destruct (Hf t0) as (_ & _ & Et), (Hf u0) as (_ & _ & Eu). pose proof (Et Hrt) as E1. pose proof (Eu Hru) as E2.
    rewrite E1 in Hrt |- *. rewrite E2 in Hru |- *. by apply Hn.
Qed.
Lemma unregister_types_ok busy name tag s : types_ok s → types_ok (unregister_type busy name tag s).2.
Proof.
  intros Hok. unfold unregister_type. destruct (sm_stopping s); [done|]. destruct (live_type name s) as [t|]; [|done].
  destruct (bool_decide _); [done|]. destruct busy; [done|]. by apply flag_types_ok.
Qed.
Lemma types_ok_same s s' : sm_types s' = sm_types s → types_ok s → types_ok s'.
Proof. unfold types_ok. by intros ->. Qed.
Lemma call_types_ok tid s s' : types_ok s → seam_call tid s s' → types_ok s'.
Proof.
  intros Hok Hc. destruct Hc; try done.
  - unfold gptps_register_observer, register_hook. by repeat case_match.
  - unfold gptps_register_constraint, register_hook. by repeat case_match.
  - unfold gptps_unregister_observer. destruct (fn =? 0); [done|]. by destruct (unlink_hook _ _ _).
  - unfold gptps_unregister_constraint. destruct (fn =? 0); [done|]. by destruct (unlink_hook _ _ _).
  - unfold register_type. destruct (live_type name s) as [t|] eqn:El; [done|]. destruct Hok as [Hnd Hn].
    assert (Hno : ∀ u, u ∈ sm_types s → t_removed u = false → t_name u ≠ name).
    { unfold live_type in El. apply fmap_None, list_find_None in El. rewrite Forall_forall in El. intros u Hu Hr Hnm. by apply (El u Hu). }
    split; [by constructor|]. intros t u [->|Ht]%elem_of_cons [->|Hu]%elem_of_cons Hrt Hru Hnm; [done| | |by apply Hn].
    + by destruct (Hno u Hu Hru).
    + by destruct (Hno t Ht Hrt).
  - by apply unregister_types_ok.
  - by apply unlink_types_ok.
  - unfold gptps_register_setting. destruct sealed; [done|]. destruct (negb _); [done|].
    destruct (settings_add_owned _ _ _ _) as [r st]. by destruct (decide (st = GPTPS_OK)).
Qed.
Lemma step_types_ok w w' : types_ok (aw_s w) → aw_step w w' → types_ok (aw_s w').
Proof.
  intros Hok Hs. revert Hok. destruct Hs as [tid x x' Hs|tid x s' Hact Hc|tid x fn ud owner replace st s' Hact Hs|x name node s' Hd|x node st Hin]; intros Hok.
  - destruct Hs; try done.
    + unfold load_claim. destruct (sm_stopping _) eqn:E1; [done|]. by destruct (sm_loading _) eqn:E2.
    + apply (types_ok_same (aw_s x)); [|done]. by destruct (unwind_fields tag (aw_s x)) as (_ & _ & _ & _ & _ & E & _).
    + by apply (unregister_types_ok busy name (Some tag)).
    + by apply (unlink_types_ok id).
  - by apply (call_types_ok tid (aw_s x)).
  - apply (types_ok_same (aw_s x)); [|done]. unfold gptps_set_scheduler_ex in Hs. destruct (_ && _ && _); [by injection Hs as <- <-|].
    destruct (bool_decide _); by injection Hs as <- <-.
  - by destruct (disable_begin_sets name (aw_s x) node s' Hd) as [-> _].
  - unfold disable_end. by destruct (decide (st = GPTPS_OK)).
Qed.
Lemma reachable_types w : aw_reachable w → types_ok (aw_s w).
Proof.
  intros H. apply (rtc_ind_r (λ w, types_ok (aw_s w))) in H; [done| |].
  - split; [by constructor|]. by intros t u ?%elem_of_nil.
  - intros y z _ Hs HI. by eapply step_types_ok.
Qed.
Lemma run_types w w' : types_ok (aw_s w) → rtc aw_step w w' → types_ok (aw_s w').
Proof. intros Hok Hrun. induction Hrun as [|x y z Hs _ IH]; [done|]. by apply IH, (step_types_ok x). Qed.

(** ** The whole function *)

(** The add-on's setup, as a run of calls made on its thread. *)
Definition setup_runs tid (path : string) (setup : seams W → seams W * status) : Prop :=
  ∀ w node a tag, at_ w tid (InSetup node path a tag) →
    ∃ w', rtc aw_step w w' ∧ aw_s w' = (setup (aw_s w)).1 ∧ aw_loads w' = aw_loads w.

Lemma release_runs tid st w s' loads : at_ w tid (Leaving st) → delete tid (aw_loads w) = loads → LOAD_RELEASE (aw_s w) = s' →
  ∃ w', rtc aw_step w w' ∧ aw_loads w' = loads ∧ aw_s w' = s'.
Proof. intros Hat <- <-. eexists. split; [by eapply rtc_once, step_loads, load_leaves|done]. Qed.
Lemma publish_runs tid node path a w s' loads : at_ w tid (Ready node path a) → delete tid (aw_loads w) = loads →
  publish (Loaded node path a true) (aw_s w) = s' → ∃ w', rtc aw_step w w' ∧ aw_loads w' = loads ∧ aw_s w' = s'.
Proof. intros Hat <- <-. eexists. split; [by eapply rtc_once, step_loads, load_publishes|done]. Qed.
Lemma run_then w w1 (P : aworld W → Prop) : rtc aw_step w w1 → (∃ w', rtc aw_step w1 w' ∧ P w') → ∃ w', rtc aw_step w w' ∧ P w'.
Proof. intros H1 (w' & H2 & HP). exists w'. split; [by etrans|done]. Qed.

Lemma here tid ph s w : at_ (to tid ph s w) tid ph.
Proof. apply lookup_insert_eq. Qed.
Lemma gone_again tid ph (m : gmap Z phase) : m !! tid = None → delete tid (<[tid := ph]> m) = m.
Proof. intros Hno. rewrite delete_insert_eq. by apply delete_id. Qed.

(** A setup that ran: what follows it. *)
Lemma failed_runs tid st tag busy w m : types_ok (aw_s w) → at_ w tid (SetupFailed tag st) → delete tid (aw_loads w) = m →
  ∃ w', rtc aw_step w w' ∧ aw_loads w' = m ∧ aw_s w' = LOAD_RELEASE (addon_unwind busy tag (close_window (forget tag (aw_s w)))).
Proof.
  intros Hok Hat Hm.
  set (w1 := to tid (Forgot tag st) (forget tag (aw_s w)) w). set (w2 := to tid (Closed tag st) (close_window (aw_s w1)) w1).
  set (w3 := to tid (Unwinding tag st) (unwind_seams tag (aw_s w2)) w2).
  assert (H3 : rtc aw_step w w3).
  { eapply rtc_l; [by eapply step_loads, load_forgets|]. eapply rtc_l; [eapply step_loads, load_closes, here|].
    eapply rtc_once, step_loads, load_unhooks, here. }
  destruct (unwind_fields tag (aw_s w2)) as (_ & _ & _ & _ & _ & Et & _).
  assert (Hok3 : types_ok (aw_s w3)) by (by apply (types_ok_same (aw_s w2))).
  destruct (unwind_runs (S (length (sm_types (aw_s w3)))) busy tag st tid w3 Hok3) as (w4 & H4 & Es & El);
    [unfold left_of; pose proof (length_filter (λ t, t_tag t = Some tag ∧ t_removed t = false) (sm_types (aw_s w3))); lia|apply here|].
  destruct (release_runs tid st w4 (LOAD_RELEASE (aw_s w4)) m) as (w5 & H5 & E6 & E5); [| |reflexivity|].
  - unfold at_. rewrite El. apply lookup_insert_eq.
  - rewrite El. change (aw_loads w3) with (<[tid := Unwinding tag st]> (<[tid := Closed tag st]> (<[tid := Forgot tag st]> (aw_loads w)))).
    rewrite !insert_insert_eq, delete_insert_eq. exact Hm.
  - exists w5. split; [etrans; [exact H3|]; by etrans|]. split; [done|]. rewrite E5, Es. unfold addon_unwind. reflexivity.
Qed.

Lemma ok_runs tid node path a tag w m : at_ w tid (InSetup node path a tag) → delete tid (aw_loads w) = m →
  ∃ w', rtc aw_step w w' ∧ aw_loads w' = m ∧ aw_s w' = publish (Loaded node path a true) (close_window (aw_s w)).
Proof.
  intros Hat Hm. set (w5 := to tid (SetupOk node path a tag) (aw_s w) w <| aw_done ::= cons tag |> <| aw_host := sm_sched (aw_s w) |>).
  apply (run_then w w5); [by eapply rtc_once, step_loads, load_set_up|].
  apply (run_then w5 (to tid (Ready node path a) (close_window (aw_s w5)) w5)); [eapply rtc_once, step_loads, load_ready, lookup_insert_eq|].
  apply (publish_runs tid node path a); [apply here| |done].
  change (delete tid (<[tid := Ready node path a]> (<[tid := SetupOk node path a tag]> (aw_loads w))) = m).
  rewrite insert_insert_eq, delete_insert_eq. exact Hm.
Qed.
(** From the node made to the end: the setup, if there is one, and what follows it. *)
Lemma named_runs tid node path a setup busy w m : types_ok (aw_s w) → at_ w tid (Named node path a) →
  (sm_load_seq (aw_s w) + 1 < 2 ^ 64)%N → setup_runs tid path setup → delete tid (aw_loads w) = m →
  ∃ w', rtc aw_step w w' ∧ aw_loads w' = m ∧ aw_s w' =
    (if a_setup a then
       let s := open_window tid (ns_of a) (aw_s w) in
       let tag := sm_load_seq s in
       let '(s, st) := setup s in
       if decide (st = GPTPS_OK) then (GPTPS_OK, publish (Loaded node path a true) (close_window s))
       else (st, LOAD_RELEASE (addon_unwind busy tag (close_window (forget tag s))))
     else (GPTPS_OK, publish (Loaded node path a true) (aw_s w))).2.
Proof.
  intros Hok Hat Hseq Hsetup Hm. destruct (a_setup a) eqn:Ea.
  2: { apply (run_then w (to tid (Ready node path a) (aw_s w) w)); [eapply rtc_once, step_loads, load_plain; [exact Hat|done]|].
       apply (publish_runs tid node path a); [apply here|change (delete tid (<[tid := Ready node path a]> (aw_loads w)) = m)|done].
       rewrite delete_insert_eq. exact Hm. }
  set (tag := next_tag (aw_s w)). set (w3 := to tid (InSetup node path a tag) (open_window tid (ns_of a) (aw_s w)) w).
  apply (run_then w w3); [by eapply rtc_once, step_loads, load_opens|].
  destruct (Hsetup w3 node a tag (here _ _ _ _)) as (w4 & H4 & Es4 & El4). apply (run_then w3 w4); [done|].
  change (aw_s w3) with (open_window tid (ns_of a) (aw_s w)) in Es4. cbv zeta.
  change (sm_load_seq (open_window tid (ns_of a) (aw_s w))) with tag.
  destruct (setup (open_window tid (ns_of a) (aw_s w))) as [s4 st]. cbn [fst] in Es4.
  assert (Hat4 : at_ w4 tid (InSetup node path a tag)) by (unfold at_; rewrite El4; apply here).
  assert (Hl4 : delete tid (aw_loads w4) = m).
  { rewrite El4. change (aw_loads w3) with (<[tid := InSetup node path a tag]> (aw_loads w)). rewrite delete_insert_eq. exact Hm. }
  assert (Hok4 : types_ok (aw_s w4)) by (by apply (run_types w3 w4)).
  destruct (decide (st = GPTPS_OK)) as [->|Hst]; cbn [snd]; rewrite <-Es4.
  - exact (ok_runs tid node path a tag w4 m Hat4 Hl4).
  - set (w5 := to tid (SetupFailed tag st) (aw_s w4) w4). apply (run_then w4 w5); [by eapply rtc_once, step_loads, load_setup_fails|].
    apply (failed_runs tid st tag busy w5); [done|apply here|].
    change (delete tid (<[tid := SetupFailed tag st]> (aw_loads w4)) = m). rewrite delete_insert_eq. exact Hl4.
Qed.

(** C39: [gptps_load_addon] run from beginning to end is a run of the sections the other
    theorems are about, whatever the library, whatever its setup does on its thread, and
    whatever types the engine refuses to remove: it returns, with the engine's fields as
    those sections leave them, and no load under way that was not before. *)
Theorem load_addon_is_a_run tid path lib mem setup busy w :
  aw_reachable w → aw_loads w !! tid = None → (sm_load_seq (aw_s w) + 1 < 2 ^ 64)%N →
  (∀ node, mem = Some node → node ∉ map ld_node (sm_addons (aw_s w))) → setup_runs tid path setup →
  ∃ w', rtc aw_step w w' ∧ aw_loads w' = aw_loads w ∧ aw_s w' = (gptps_load_addon tid false path lib mem setup busy (aw_s w)).2.
Proof.
  intros Hr Hno Hseq Hmem Hsetup. pose proof (reachable_types w Hr) as Hok. unfold gptps_load_addon.
  destruct (load_claim (aw_s w)) as [st s1] eqn:Ec. destruct (decide (st = GPTPS_OK)) as [->|Hst].
  2: { exists w. split; [done|]. split; [done|]. unfold load_claim in Ec. destruct (sm_stopping _); [by injection Ec|].
       destruct (sm_loading _); by injection Ec. }
  assert (Ec1 : (load_claim (aw_s w)).1 = GPTPS_OK) by by rewrite Ec.
  set (w1 := to tid (Claimed lib path) (load_claim (aw_s w)).2 w). assert (E1 : aw_s w1 = s1) by (change (aw_s w1) with (load_claim (aw_s w)).2; by rewrite Ec).
  assert (Es1 : s1 = aw_s w <| sm_loading := true |>).
  { unfold load_claim in Ec. destruct (sm_stopping _); [done|]. destruct (sm_loading _); [done|]. by injection Ec. }
  apply (run_then w w1); [by eapply rtc_once, step_loads, load_claims|].
  assert (Hat1 : at_ w1 tid (Claimed lib path)) by apply here.
  assert (Hleave : ∀ st w2, aw_step w1 w2 → aw_s w2 = s1 → aw_loads w2 = <[tid := Leaving st]> (aw_loads w1) →
    ∃ w', rtc aw_step w1 w' ∧ aw_loads w' = aw_loads w ∧ aw_s w' = LOAD_RELEASE s1).
  { intros st w2 H2 Es2 El2. apply (run_then w1 w2); [by apply rtc_once|]. apply (release_runs tid st); [| |by rewrite Es2].
    - unfold at_. rewrite El2. apply lookup_insert_eq.
    - rewrite El2. change (aw_loads w1) with (<[tid := Claimed lib path]> (aw_loads w)). rewrite insert_insert_eq. exact (gone_again tid _ _ Hno). }
  destruct (check_library lib) as [st|a] eqn:El; cbn [snd].
  { apply (Hleave st (to tid (Leaving st) (aw_s w1) w1)); [by eapply step_loads, load_unfit|exact E1|done]. }
  destruct (decide (claim_ns a s1 = GPTPS_OK)) as [Hcl|Hcl].
  2: { apply (Hleave (claim_ns a (aw_s w1)) (to tid (Leaving (claim_ns a (aw_s w1))) (aw_s w1) w1)); [|exact E1|done].
       eapply step_loads, load_unnamed; [exact Hat1|done|by rewrite E1]. }
  destruct mem as [node|]; cbn [snd].
  2: { apply (Hleave GPTPS_E_NOMEM (to tid (Leaving GPTPS_E_NOMEM) (aw_s w1) w1)); [|exact E1|done].
       eapply step_loads, load_no_memory; [exact Hat1|done|by rewrite E1]. }
  set (w2 := to tid (Named node path a) (aw_s w1) w1). apply (run_then w1 w2).
  { eapply rtc_once, step_loads, load_names; [exact Hat1|done|by rewrite E1|]. rewrite E1, Es1. by apply Hmem. }
  assert (Es2 : aw_s w2 = s1) by exact E1. rewrite <-Es2. apply named_runs; [|apply here| |done|].
  - rewrite Es2, Es1. exact Hok.
  - rewrite Es2, Es1. exact Hseq.
  - change (aw_loads w2) with (<[tid := Named node path a]> (<[tid := Claimed lib path]> (aw_loads w))).
    rewrite insert_insert_eq. exact (gone_again tid _ _ Hno).
Qed.

End load.

(** A setup that registers an observer and then fails. *)
Definition half_setup (s : seams unit) : seams unit * status := ((gptps_register_observer 1 false true 5 0 s).2, GPTPS_E_INVAL).
Lemma half_setup_runs path : setup_runs 1 path half_setup.
Proof.
  intros w node a tag Hat. eexists. split; [eapply rtc_once, (step_calls 1), (calls_observe 1 _ false true 5 0); unfold acts; by rewrite Hat|done].
Qed.
Lemma load_addon_is_a_run_witness :
  let s := (gptps_load_addon 1 false "quota.so" (Init quota_addon) (Some 1%positive) half_setup (λ _, false) fresh_seams).2 in
  sm_observers s = [] ∧ sm_load_seq s = 1%N ∧ ∃ w' : aworld unit, rtc aw_step aw_start w' ∧ aw_loads w' = ∅ ∧ aw_s w' = s.
Proof.
  split; [vm_compute; reflexivity|]. split; [vm_compute; reflexivity|].
  apply (load_addon_is_a_run 1 "quota.so" (Init quota_addon) (Some 1%positive) half_setup (λ _, false) aw_start).
  - apply rtc_refl.
  - reflexivity.
  - reflexivity.
  - intros node _ H. by apply elem_of_nil in H.
  - apply half_setup_runs.
Defined.
End AddonLoad.
