(* ===== verification/Bounded.v ===== *)
(** * Bounded mode

    The working set of a bounded engine, [src/engine.c]: what [bounded_seal] allocates at
    the first submit, the pool of items that [pool_take] and [item_free] pass around, and
    the slots of the arenas.  An item is its index in the pool, an arena its size; sizes
    are 64-bit [size_t]. *)

From S2P Require Import Prelude Engine.

Module Bounded.
Import Engine(status, GPTPS_OK, GPTPS_E_NOMEM, status_eq_dec).

Definition GPTPS_BOUNDED_HOST_THREADS : Z := 32.
Definition SIZE_MAX : Z := 2 ^ 64 - 1.
Definition sizeof_hslot : Z := 16.

Record bounded := MkBounded {
  b_max_items : Z; b_max_payload : Z; b_max_result : Z; b_nworkers : Z; b_nres : Z; b_sealed : bool;
  b_pool : option nat; b_free : list nat; b_at_pool : list bool;   (** per item: [where] is [GPTPS_Q_POOL] *)
  b_payload_arena : option Z; b_payload_stride : Z; b_snap_arena : option Z; b_pool_nres : Z;
  b_result_arena : option Z; b_result_stride : Z; b_nhidx : Z; b_spare : nat }.
#[export] Instance eta_bounded : Eta bounded := λ r,
  MkBounded (b_max_items r) (b_max_payload r) (b_max_result r) (b_nworkers r) (b_nres r) (b_sealed r)
    (b_pool r) (b_free r) (b_at_pool r) (b_payload_arena r) (b_payload_stride r) (b_snap_arena r) (b_pool_nres r)
    (b_result_arena r) (b_result_stride r) (b_nhidx r) (b_spare r).
(** A bounded engine as opened. *)
Definition opened (items payload result workers nres : Z) : bounded :=
  MkBounded items payload result workers nres false None [] [] None 0 None 0 None 0 0 0.

Definition size_mul (a b : Z) : option Z := if negb (a =? 0) && (SIZE_MAX / a <? b) then None else Some (a * b).
Fixpoint index_size (fuel : nat) (nn n : Z) : Z :=
  match fuel with
  | O => nn
  | S fuel => if nn <? u64 (2 * n) then index_size fuel (u64 (Z.shiftl nn 1)) n else nn
  end.
Definition stride (bytes : Z) : Z := u64 (u64 (bytes + 15) / 16 * 16).
(** [mem k]: the [k]-th allocation succeeds. *)
Definition bounded_seal (sizeof_item : Z) (mem : nat → bool) (b : bounded) : status * bounded :=
  if b_sealed b then (GPTPS_OK, b)
  else if SIZE_MAX / 4 <? b_max_items b then (GPTPS_E_NOMEM, b)
  else
    let n := b_max_items b in
    let pstride := stride (b_max_payload b) in
    let rstride := stride (b_max_result b) in
    let b1 := b <| b_payload_stride := pstride |> <| b_result_stride := rstride |> <| b_pool_nres := b_nres b |> in
    match size_mul n sizeof_item, size_mul n pstride, (m ← size_mul n (b_nres b); size_mul m 8), size_mul (u64 (b_nworkers b + 1)) rstride with
    | Some _, Some pay, Some snap, Some res =>
        let nn := index_size 64 64 n in
        let ncb := Z.to_nat (u64 (u64 (b_nworkers b + 1) + GPTPS_BOUNDED_HOST_THREADS)) in
        let arena k sz := if sz =? 0 then None else if mem k then Some sz else None in
        if negb (mem 0%nat) || (negb (pay =? 0) && negb (mem 1%nat)) || (negb (snap =? 0) && negb (mem 2%nat)) ||
           (negb (res =? 0) && negb (mem 3%nat)) || negb (mem 4%nat) then (GPTPS_E_NOMEM, b1)
        else if negb (forallb (λ k, mem (5 + k)%nat) (seq 0 ncb)) then (GPTPS_E_NOMEM, b1)
        else
          (GPTPS_OK, b1 <| b_pool := Some (Z.to_nat n) |> <| b_payload_arena := arena 1%nat pay |> <| b_snap_arena := arena 2%nat snap |>
                       <| b_result_arena := arena 3%nat res |> <| b_spare := ncb |> <| b_free := seq 0 (Z.to_nat n) |>
                       <| b_at_pool := replicate (Z.to_nat n) false |> <| b_nhidx := nn |> <| b_sealed := true |>)
    | _, _, _, _ => (GPTPS_E_NOMEM, b1)
    end.

Definition pool_take (b : bounded) : option nat * bounded :=
  match b_free b with
  | [] => (None, b)
  | i :: free => (Some i, b <| b_free := free |> <| b_at_pool ::= <[i := false]> |>)
  end.
(** [item_free] of an item of the pool. *)
Definition pool_give (i : nat) (b : bounded) : bounded :=
  if default false (b_at_pool b !! i) then b
  else b <| b_at_pool ::= <[i := true]> |> <| b_free ::= cons i |>.
(** Where the slots of item [i] begin, and the buffer of an executing thread. *)
Definition payload_slot (b : bounded) (i : nat) : option Z :=
  match b_payload_arena b with Some _ => Some (u64 (Z.of_nat i * b_payload_stride b)) | None => None end.
Definition snap_slot (b : bounded) (i : nat) : Z := u64 (u64 (Z.of_nat i * b_pool_nres b) * 8).
Definition result_buf (b : bounded) (slot : Z) : option Z :=
  match b_result_arena b with Some _ => Some (u64 (slot * b_result_stride b)) | None => None end.

(** ** Items in use *)

(** The items held by submits and queues, and those ever given out. *)
Record bworld := BWorld { bw_b : bounded; bw_held : list nat; bw_known : list nat }.
Inductive bstep (sizeof_item : Z) : bworld → bworld → Prop :=
  | b_seals mem b held known : bstep sizeof_item (BWorld b held known) (BWorld (bounded_seal sizeof_item mem b).2 held known)
  | b_takes i b b' held known : b_sealed b = true → pool_take b = (Some i, b') →
      bstep sizeof_item (BWorld b held known) (BWorld b' (i :: held) (i :: known))
  | b_gives i b held known : i ∈ held → bstep sizeof_item (BWorld b held known) (BWorld (pool_give i b) (filter (λ j, j ≠ i) held) known)
  | b_gives_again i b held known : i ∈ known → i ∉ held → bstep sizeof_item (BWorld b held known) (BWorld (pool_give i b) held known).

(** ** Sizes *)

Lemma size_mul_spec a b c : 0 ≤ a → 0 ≤ b → size_mul a b = Some c → c = a * b ∧ 0 ≤ c < 2 ^ 64.
Proof.
  intros Ha Hb. unfold size_mul. destruct (Z.eqb_spec a 0) as [->|Hne]; cbn [negb andb]; [intros [= <-]; lia|].
  destruct (Z.ltb_spec (SIZE_MAX / a) b) as [|Hle]; [done|]. intros [= <-]. split; [done|].
  assert (a * b ≤ a * (SIZE_MAX / a)) by nia. pose proof (Z.mul_div_le SIZE_MAX a). unfold SIZE_MAX in *. nia.
Qed.
Lemma stride_spec x : 0 ≤ x < 2 ^ 32 → x ≤ stride x < x + 16 ∧ stride x mod 16 = 0.
Proof.
  intros Hx. unfold stride. rewrite (u64_small (x + 15)) by lia. pose proof (Z.div_mod (x + 15) 16). pose proof (Z.mod_pos_bound (x + 15) 16).
  rewrite u64_small by lia. split; [lia|]. apply Z.mod_mul. lia.
Qed.
Lemma index_size_spec fuel e n : 0 ≤ n < 2 ^ 62 → 0 ≤ e → 64 ≤ e + Z.of_nat fuel → e ≤ 63 →
  ∃ k, e ≤ k ≤ 63 ∧ index_size fuel (2 ^ e) n = 2 ^ k ∧ 2 * n ≤ 2 ^ k.
Proof.
  intros Hn. revert e. induction fuel as [|fuel IH]; intros e He Hf Hle; [lia|]. cbn [index_size]. rewrite (u64_small (2 * n)) by lia.
  destruct (Z.ltb_spec (2 ^ e) (2 * n)) as [Hlt|Hge]; [|exists e; split_and!; [lia..|done|done]].
  assert (He' : e < 63). { destruct (decide (e = 63)) as [->|]; [|lia]. lia. }
  rewrite Z.shiftl_mul_pow2 by lia. replace (2 ^ e * 2 ^ 1) with (2 ^ (e + 1)) by (rewrite <-Z.pow_add_r by lia; done).
  assert (Hp : 2 ^ (e + 1) < 2 ^ 64) by (apply Z.pow_lt_mono_r; lia). rewrite u64_small by (split; [lia|done]).
  destruct (IH (e + 1)) as (k & Hk & -> & ?); [lia..|]. exists k. split_and!; [lia..|done|done].
Qed.

(** A slot of [s] bytes, [S] apart, of an arena of [m] of them. *)
Lemma slot_fits i m S s sz : 0 ≤ i < m → 0 ≤ s ≤ S → sz = m * S → 0 ≤ sz < 2 ^ 64 → u64 (i * S) = i * S ∧ i * S + s ≤ sz.
Proof. intros Hi Hs -> Hsz. assert (i * S + S ≤ m * S) by nia. split; [apply u64_small; nia|lia]. Qed.
Lemma slots_apart i j S s : i ≠ j → 0 ≤ s ≤ S → i * S + s ≤ j * S ∨ j * S + s ≤ i * S.
Proof. intros Hne Hs. destruct (decide (i < j)); [left; nia|right; nia]. Qed.

(** ** The pool in every run *)

Section run.
Variables sizeof_item items payload result workers nres : Z.
Hypotheses (Hitems : 0 < items < 2 ^ 64) (Hpayload : 0 ≤ payload < 2 ^ 32) (Hresult : 0 ≤ result < 2 ^ 32)
  (Hworkers : 0 ≤ workers < 2 ^ 32) (Hnres : 0 ≤ nres < 2 ^ 64).
Definition arena_of (sz : Z) : option Z := if sz =? 0 then None else Some sz.

(** What a seal that succeeded has made. *)
Record made (b : bounded) : Prop := {
  m_stride : b_payload_stride b = stride payload; m_rstride : b_result_stride b = stride result; m_nres : b_pool_nres b = nres;
  m_payload : b_payload_arena b = arena_of (items * stride payload) ∧ items * stride payload < 2 ^ 64;
  m_snap : b_snap_arena b = arena_of (items * nres * 8) ∧ items * nres * 8 < 2 ^ 64;
  m_result : b_result_arena b = arena_of ((workers + 1) * stride result) ∧ (workers + 1) * stride result < 2 ^ 64;
  m_index : ∃ k, 6 ≤ k ∧ b_nhidx b = 2 ^ k ∧ 2 * items ≤ 2 ^ k;
  m_spare : Z.of_nat (b_spare b) = workers + 1 + GPTPS_BOUNDED_HOST_THREADS }.
Record pool_ok (w : bworld) : Prop := {
  p_config : b_max_items (bw_b w) = items ∧ b_max_payload (bw_b w) = payload ∧ b_max_result (bw_b w) = result ∧
    b_nworkers (bw_b w) = workers ∧ b_nres (bw_b w) = nres;
  p_none : b_sealed (bw_b w) = false → bw_held w = [] ∧ bw_known w = [];
  p_made : b_sealed (bw_b w) = true → made (bw_b w);
  p_len : b_sealed (bw_b w) = true → length (b_at_pool (bw_b w)) = Z.to_nat items;
  p_nodup : b_sealed (bw_b w) = true → NoDup (bw_held w ++ b_free (bw_b w));
  p_all : b_sealed (bw_b w) = true → ∀ i, i ∈ bw_held w ++ b_free (bw_b w) ↔ (i < Z.to_nat items)%nat;
  p_held : ∀ i, i ∈ bw_held w → b_at_pool (bw_b w) !! i = Some false;
  p_known : ∀ i, i ∈ bw_known w → i ∉ bw_held w → b_at_pool (bw_b w) !! i = Some true }.

Lemma seal_made mem b : b_sealed b = false → b_max_items b = items → b_max_payload b = payload → b_max_result b = result →
  b_nworkers b = workers → b_nres b = nres → let b' := (bounded_seal sizeof_item mem b).2 in
  (b_max_items b' = items ∧ b_max_payload b' = payload ∧ b_max_result b' = result ∧ b_nworkers b' = workers ∧ b_nres b' = nres) ∧
  if b_sealed b' then made b' ∧ b_free b' = seq 0 (Z.to_nat items) ∧ b_at_pool b' = replicate (Z.to_nat items) false
  else b_at_pool b' = b_at_pool b.
Proof.
  intros Hs E1 E2 E3 E4 E5. unfold bounded_seal. rewrite Hs, E1. destruct (Z.ltb_spec (SIZE_MAX / 4) items) as [|Hmax]; [cbn; by rewrite Hs|].
  assert (Hn : 0 ≤ items < 2 ^ 62) by (change (SIZE_MAX / 4) with (2 ^ 62 - 1) in Hmax; lia).
  rewrite E2, E3, E4, E5.
  pose proof (stride_spec payload Hpayload) as [Hsp _]. pose proof (stride_spec result Hresult) as [Hsr _].
  destruct (size_mul items sizeof_item) as [x|]; [|cbn; by rewrite Hs].
  destruct (size_mul items (stride payload)) as [pay|] eqn:Ep; [|cbn; by rewrite Hs]. apply size_mul_spec in Ep as [-> Hp]; [|lia..].
  destruct (size_mul items nres) as [m|] eqn:Em; [|cbn; by rewrite Hs]. apply size_mul_spec in Em as [-> Hm]; [|lia..]. cbn [mbind option_bind].
  destruct (size_mul (items * nres) 8) as [snap|] eqn:Esn; [|cbn; by rewrite Hs]. apply size_mul_spec in Esn as [-> Hsn]; [|lia..].
  rewrite (u64_small (workers + 1)) by lia. unfold GPTPS_BOUNDED_HOST_THREADS. rewrite (u64_small (workers + 1 + 32)) by lia.
  destruct (size_mul (workers + 1) (stride result)) as [res|] eqn:Er; [|cbn; by rewrite Hs]. apply size_mul_spec in Er as [-> Hr]; [|lia..].
  destruct (_ || negb (mem 4%nat)) eqn:Hok; [cbn; by rewrite Hs|]. destruct (negb (forallb _ _)) eqn:Hcb; [cbn; by rewrite Hs|].
  apply orb_false_elim in Hok as [Hok _]. apply orb_false_elim in Hok as [Hok H3]. apply orb_false_elim in Hok as [Hok H2].
  apply orb_false_elim in Hok as [_ H1].
  assert (Harena : ∀ k sz, negb (sz =? 0) && negb (mem k) = false → (if sz =? 0 then None else if mem k then Some sz else None) = arena_of sz).
  { intros k sz H. unfold arena_of. destruct (sz =? 0); [done|]. by destruct (mem k). }
  rewrite (Harena 1%nat _ H1), (Harena 2%nat _ H2), (Harena 3%nat _ H3). split; [exact (conj E1 (conj E2 (conj E3 (conj E4 E5))))|].
  cbn -[index_size]. split; [|done]. constructor; cbn -[index_size]; try done.
  - split; [done|lia].
  - split; [done|lia].
  - split; [done|lia].
  - destruct (index_size_spec 64 6 items) as (k & Hk & Ek & ?); [lia..|]. exists k. split; [lia|]. by split.
  - unfold GPTPS_BOUNDED_HOST_THREADS. lia.
Qed.

Lemma pool_step w w' : pool_ok w → bstep sizeof_item w w' → pool_ok w'.
Proof.
  intros [(C1 & C2 & C3 & C4 & C5) Hnone Hmade Hlen Hnd Hall Hheld Hknown] Hs.
  destruct Hs as [mem b held known|i b b' held known Hsealed Ht|i b held known Hi|i b held known Hi Hni]; cbn [bw_b bw_held bw_known] in *.
  - destruct (b_sealed b) eqn:Hs0; [unfold bounded_seal; rewrite Hs0; constructor; cbn [snd bw_b bw_held bw_known]; rewrite ?Hs0; done|].
    destruct (Hnone eq_refl) as [-> ->]. pose proof (seal_made mem b Hs0 C1 C2 C3 C4 C5) as [HC HM].
    set (b' := (bounded_seal sizeof_item mem b).2) in *. destruct (b_sealed b') eqn:Hs'.
    + destruct HM as (HM & Hfree & Hat). constructor; cbn [bw_b bw_held bw_known app]; rewrite ?Hfree, ?Hat; try done; try (by intros i ?%elem_of_nil).
      * intros _. by rewrite length_replicate.
      * intros _. apply NoDup_seq.
      * intros _ i. rewrite elem_of_seq. lia.
    + constructor; cbn [bw_b bw_held bw_known app]; rewrite ?Hs'; try done; by intros i ?%elem_of_nil.
  - unfold pool_take in Ht. destruct (b_free b) as [|j free] eqn:Ef; [done|]. injection Ht as -> <-.
    specialize (Hlen Hsealed). specialize (Hnd Hsealed). specialize (Hall Hsealed). rewrite <-Permutation_middle in Hnd.
    assert (Hi : (i < Z.to_nat items)%nat) by (apply Hall, elem_of_app; right; by left).
    assert (Hni : i ∉ held) by (intros Hin; apply NoDup_cons in Hnd as [H _]; apply H, elem_of_app; by left).
    constructor; cbn [bw_b bw_held bw_known]; try done.
    + change (b_sealed b = false → i :: held = [] ∧ i :: known = []). by rewrite Hsealed.
    + intros _. destruct (Hmade Hsealed). by constructor.
    + intros _. change (length (<[i := false]> (b_at_pool b)) = Z.to_nat items). by rewrite length_insert.
    + intros _ k. change (k ∈ (i :: held) ++ free ↔ (k < Z.to_nat items)%nat). rewrite <-Hall. rewrite !elem_of_app, !elem_of_cons. tauto.
    + intros k Hk. change (<[i := false]> (b_at_pool b) !! k = Some false). destruct (decide (k = i)) as [->|Hne];
        [by rewrite list_lookup_insert_eq by lia|rewrite list_lookup_insert_ne by done]. apply Hheld. by apply elem_of_cons in Hk as [?|?].
    + intros k Hk Hno. change (<[i := false]> (b_at_pool b) !! k = Some true).
      assert (Hne : k ≠ i) by (intros ->; apply Hno; by left). rewrite list_lookup_insert_ne by done.
      apply elem_of_cons in Hk as [?|Hk]; [done|]. apply Hknown; [done|]. intros Hin. apply Hno. by right.
  - destruct (b_sealed b) eqn:Hsealed; [|destruct (Hnone eq_refl) as [-> _]; by apply elem_of_nil in Hi].
    specialize (Hlen eq_refl). specialize (Hnd eq_refl). specialize (Hall eq_refl). unfold pool_give. rewrite (Hheld i Hi). cbn [default from_option id].
    assert (Hlt : (i < Z.to_nat items)%nat) by (apply Hall, elem_of_app; by left).
    assert (Hnf : i ∉ b_free b) by (apply NoDup_app in Hnd as (_ & H & _); by apply H).
    constructor; cbn [bw_b bw_held bw_known]; try done.
    + change (b_sealed b = false → filter (λ j, j ≠ i) held = [] ∧ known = []). by rewrite Hsealed.
    + intros _. destruct (Hmade eq_refl). by constructor.
    + intros _. change (length (<[i := true]> (b_at_pool b)) = Z.to_nat items). by rewrite length_insert.
    + intros _. change (NoDup (filter (λ j, j ≠ i) held ++ i :: b_free b)). apply NoDup_app in Hnd as (H1 & H2 & H3). apply NoDup_app.
      split; [by apply NoDup_filter|]. split; [|by constructor]. intros k [Hk1 Hk2]%list_elem_of_filter [->|Hk]%elem_of_cons; [done|by apply (H2 k)].
    + intros _ k. change (k ∈ filter (λ j, j ≠ i) held ++ i :: b_free b ↔ (k < Z.to_nat items)%nat). rewrite <-Hall, !elem_of_app, elem_of_cons, list_elem_of_filter.
      destruct (decide (k = i)) as [->|]; tauto.
    + intros k [Hne Hk]%list_elem_of_filter. change (<[i := true]> (b_at_pool b) !! k = Some false). rewrite list_lookup_insert_ne by done. by apply Hheld.
    + intros k Hk Hno. change (<[i := true]> (b_at_pool b) !! k = Some true). destruct (decide (k = i)) as [->|Hne];
        [by rewrite list_lookup_insert_eq by lia|rewrite list_lookup_insert_ne by done]. apply Hknown; [done|]. intros Hin. by apply Hno, list_elem_of_filter.
  - unfold pool_give. rewrite (Hknown i Hi Hni). by constructor.
Qed.
Lemma pool_reachable w : rtc (bstep sizeof_item) (BWorld (opened items payload result workers nres) [] []) w → pool_ok w.
Proof.
  intros H. apply (rtc_ind_r pool_ok) in H; [done| |].
  - constructor; cbn; try done; by intros i ?%elem_of_nil.
  - intros y z _ Hs HI. by apply (pool_step y).
Qed.

(** A slot of an arena: where it begins, in an arena that holds it. *)
Lemma arena_slot m S s i : 0 ≤ i < m → 0 < s ≤ S → m * S < 2 ^ 64 →
  arena_of (m * S) = Some (m * S) ∧ u64 (i * S) = i * S ∧ 0 ≤ i * S ∧ i * S + s ≤ m * S.
Proof.
  intros Hi Hs Hm. assert (0 < m * S) by nia. unfold arena_of. destruct (Z.eqb_spec (m * S) 0); [lia|].
  destruct (slot_fits i m S s (m * S)) as [Hu ?]; [lia..|]. split_and!; [done|done|nia|done].
Qed.

Lemma payload_at b i : made b → 0 < payload → 0 ≤ Z.of_nat i < items →
  b_payload_arena b = Some (items * stride payload) ∧ payload_slot b i = Some (Z.of_nat i * stride payload) ∧
  0 ≤ Z.of_nat i * stride payload ∧ Z.of_nat i * stride payload + payload ≤ items * stride payload.
Proof.
  intros HM Hpos Hi. destruct (m_payload _ HM) as [Ea Hsz]. pose proof (stride_spec payload Hpayload) as [Hsp _].
  destruct (arena_slot items (stride payload) payload (Z.of_nat i) Hi) as (E1 & E2 & E3 & E4); [lia|done|].
  rewrite E1 in Ea. split; [done|]. split; [|done]. unfold payload_slot. by rewrite Ea, (m_stride _ HM), E2.
Qed.
Lemma snap_at b i : made b → 0 < nres → 0 ≤ Z.of_nat i < items →
  b_snap_arena b = Some (items * (nres * 8)) ∧ snap_slot b i = Z.of_nat i * (nres * 8) ∧
  0 ≤ Z.of_nat i * (nres * 8) ∧ Z.of_nat i * (nres * 8) + nres * 8 ≤ items * (nres * 8).
Proof.
  intros HM Hpos Hi. destruct (m_snap _ HM) as [Ea Hsz]. rewrite <-Z.mul_assoc in Ea, Hsz.
  destruct (arena_slot items (nres * 8) (nres * 8) (Z.of_nat i) Hi) as (E1 & E2 & E3 & E4); [lia|done|].
  rewrite E1 in Ea. split; [done|]. split; [|done]. unfold snap_slot.
  rewrite (m_nres _ HM), (u64_small (Z.of_nat i * nres)) by nia. by rewrite <-Z.mul_assoc.
Qed.
Lemma result_at b k : made b → 0 < result → 0 ≤ k ≤ workers →
  b_result_arena b = Some ((workers + 1) * stride result) ∧ result_buf b k = Some (k * stride result) ∧
  0 ≤ k * stride result ∧ k * stride result + result ≤ (workers + 1) * stride result.
Proof.
  intros HM Hpos Hk. destruct (m_result _ HM) as [Ea Hsz]. pose proof (stride_spec result Hresult) as [Hsr _].
  destruct (arena_slot (workers + 1) (stride result) result k) as (E1 & E2 & E3 & E4); [lia|lia|done|].
  rewrite E1 in Ea. split; [done|]. split; [|done]. unfold result_buf. by rewrite Ea, (m_rstride _ HM), E2.
Qed.

(** C40: a bounded engine, whatever its first submit found to allocate.  Once it is sealed
    the items in use are never more than the configured number, no item is in use twice -
    even when one is freed a second time - and a take fails only with all of them in use.
    Each item in use has a payload slot of the configured size, 16-byte aligned, within the
    arena and apart from every other item's, and a snapshot slot wide enough for every
    resource, apart likewise; each executing thread's result buffer lies within its arena
    and apart from the others'; and the handle index has a power of two of slots, at
    least twice the items. *)
Theorem bounded_pool_holds w : rtc (bstep sizeof_item) (BWorld (opened items payload result workers nres) [] []) w →
  b_sealed (bw_b w) = true → let b := bw_b w in
  (NoDup (bw_held w) ∧ Z.of_nat (length (bw_held w)) ≤ items ∧
    ((pool_take b).1 = None ↔ Z.of_nat (length (bw_held w)) = items)) ∧
  (0 < payload → ∀ i, i ∈ bw_held w → ∃ at_ sz, payload_slot b i = Some at_ ∧ b_payload_arena b = Some sz ∧
    0 ≤ at_ ∧ at_ mod 16 = 0 ∧ at_ + payload ≤ sz ∧
    ∀ j at_', j ∈ bw_held w → j ≠ i → payload_slot b j = Some at_' → at_ + payload ≤ at_' ∨ at_' + payload ≤ at_) ∧
  (0 < nres → ∀ i, i ∈ bw_held w → ∃ sz, b_snap_arena b = Some sz ∧ 0 ≤ snap_slot b i ∧ snap_slot b i + nres * 8 ≤ sz ∧
    ∀ j, j ∈ bw_held w → j ≠ i → snap_slot b i + nres * 8 ≤ snap_slot b j ∨ snap_slot b j + nres * 8 ≤ snap_slot b i) ∧
  (0 < result → ∀ k, 0 ≤ k ≤ workers → ∃ at_ sz, result_buf b k = Some at_ ∧ b_result_arena b = Some sz ∧ 0 ≤ at_ ∧ at_ + result ≤ sz ∧
    ∀ k' at_', 0 ≤ k' ≤ workers → k' ≠ k → result_buf b k' = Some at_' → at_ + result ≤ at_' ∨ at_' + result ≤ at_) ∧
  (∃ k, 6 ≤ k ∧ b_nhidx b = 2 ^ k ∧ 2 * items ≤ 2 ^ k).
Proof.
  intros Hrun Hs b. pose proof (pool_reachable w Hrun) as HI. pose proof (p_made _ HI Hs) as HM.
  pose proof (p_nodup _ HI Hs) as Hnd. pose proof (p_all _ HI Hs) as Hall. fold b in Hnd, Hall, HM.
  assert (Hlen : length (bw_held w ++ b_free b) = Z.to_nat items).
  { trans (length (seq 0 (Z.to_nat items))); [|by rewrite length_seq]. apply Permutation_length, NoDup_Permutation; [done|apply NoDup_seq|].
    intros i. rewrite Hall, elem_of_seq. lia. }
  rewrite length_app in Hlen.
  assert (Hin : ∀ i, i ∈ bw_held w → 0 ≤ Z.of_nat i < items).
  { intros i Hi. assert ((i < Z.to_nat items)%nat) by (apply Hall, elem_of_app; by left). lia. }
  pose proof (stride_spec payload Hpayload) as [Hsp Hmod]. pose proof (stride_spec result Hresult) as [Hsr _].
  split_and!.
  - by apply NoDup_app in Hnd as (? & _ & _).
  - lia.
  - unfold pool_take. destruct (b_free b) as [|i free]; cbn [length fst] in *; split; intros; try done; lia.
  - intros Hpos i Hi. destruct (payload_at b i HM Hpos (Hin i Hi)) as (Ea & Ei & ? & ?).
    exists (Z.of_nat i * stride payload), (items * stride payload). split_and!; try done.
    + by rewrite Z.mul_mod, Hmod, Z.mul_0_r by lia.
    + intros j at_' Hj Hne. destruct (payload_at b j HM Hpos (Hin j Hj)) as (_ & -> & _). intros [= <-].
      pose proof (slots_apart (Z.of_nat i) (Z.of_nat j) (stride payload) payload). lia.
  - intros Hpos i Hi. destruct (snap_at b i HM Hpos (Hin i Hi)) as (Ea & -> & ? & ?). exists (items * (nres * 8)). split_and!; try done.
    intros j Hj Hne. destruct (snap_at b j HM Hpos (Hin j Hj)) as (_ & -> & _).
    pose proof (slots_apart (Z.of_nat i) (Z.of_nat j) (nres * 8) (nres * 8)). lia.
  - intros Hpos k Hk. destruct (result_at b k HM Hpos Hk) as (Ea & Ei & ? & ?).
    exists (k * stride result), ((workers + 1) * stride result). split_and!; try done.
    intros k' at_' Hk' Hne. destruct (result_at b k' HM Hpos Hk') as (_ & -> & _). intros [= <-].
    pose proof (slots_apart k k' (stride result) result). lia.
  - apply (m_index _ HM).
Qed.

End run.

(** Two items of 100 bytes, both taken, one freed twice and taken again. *)
Lemma bounded_pool_holds_witness : ∃ w, rtc (bstep 256) (BWorld (opened 2 100 50 1 1) [] []) w ∧
  bw_held w = [0%nat; 1%nat] ∧ (pool_take (bw_b w)).1 = None ∧
  (∃ at_ sz, payload_slot (bw_b w) 1 = Some at_ ∧ b_payload_arena (bw_b w) = Some sz ∧ 0 ≤ at_ ∧ at_ mod 16 = 0 ∧ at_ + 100 ≤ sz).
Proof.
  eexists. match goal with |- rtc _ _ ?v ∧ _ => assert (H : rtc (bstep 256) (BWorld (opened 2 100 50 1 1) [] []) v) end.
  { eapply rtc_l; [apply (b_seals 256 (λ _, true))|].
    eapply rtc_l; [apply (b_takes 256 0); vm_compute; reflexivity|].
    eapply rtc_l; [apply (b_takes 256 1); vm_compute; reflexivity|].
    eapply rtc_l; [apply (b_gives 256 0); right; left|].
    eapply rtc_l; [apply (b_gives_again 256 0); [right; left|vm_compute; intros [?|[]%elem_of_nil]%elem_of_cons; discriminate]|].
    eapply rtc_l; [apply (b_takes 256 0); vm_compute; reflexivity|]. apply rtc_refl. }
  split; [exact H|]. split; [vm_compute; reflexivity|].
  destruct (bounded_pool_holds 256 2 100 50 1 1 ltac:(lia) ltac:(lia) ltac:(lia) ltac:(lia) ltac:(lia) _ H) as ((_ & _ & Hfull) & Hslot & _);
    [vm_compute; reflexivity|]. split; [apply Hfull; vm_compute; reflexivity|].
  destruct (Hslot ltac:(lia) 1%nat) as (at_ & sz & ? & ? & ? & ? & ? & _); [vm_compute; right; left|]. by exists at_, sz.
Defined.
End Bounded.
