(* ===== verification/Config.v ===== *)
(** * Limits, and the allocator

    [src/config.c]: the limits an engine opens with, from what is configured and what the
    machine has.  [src/alloc.c]: who a request for memory goes to, and with which sizes;
    what it answers is the host's or the C library's. *)

From S2P Require Import Prelude Engine.

Module Config.
Import Engine(status, GPTPS_OK, GPTPS_E_INVAL, status_eq_dec).

#[local] Existing Instance status_eq_dec.

(** ** The limits *)

(** [gptps_limits], and what [gptps_hal_detect] finds. *)
Record limits := Limits { max_concurrent_tasks : Z; max_memory_bytes : Z; max_intake_depth : Z }.
Record hwinfo := Hwinfo { cpu_count : Z; ram_bytes : Z }.
Definition GPTPS_MEM_FRACTION_NUM : Z := 3.
Definition GPTPS_MEM_FRACTION_DEN : Z := 4.
Definition GPTPS_MEM_FLOOR_BYTES : Z := 64 * 1024 * 1024.

(** [detect]: a status, and the machine. *)
Definition gptps_config_resolve (detect : status * hwinfo) (inp : option limits) : status * option limits :=
  let '(s, hw) := detect in
  if decide (s = GPTPS_OK) then
    let given f := match inp with Some l => if f l =? 0 then None else Some (f l) | None => None end in
    let conc := match given max_concurrent_tasks with Some c => c | None => cpu_count hw end in
    let conc := if conc =? 0 then 1 else conc in
    let mem :=
      match given max_memory_bytes with
      | Some m => m
      | None =>
          if negb (ram_bytes hw =? 0) then
            let m := u64 (ram_bytes hw / GPTPS_MEM_FRACTION_DEN * GPTPS_MEM_FRACTION_NUM) in
            if m =? 0 then GPTPS_MEM_FLOOR_BYTES else m
          else GPTPS_MEM_FLOOR_BYTES
      end in
    (GPTPS_OK, Some (Limits conc mem (match inp with Some l => max_intake_depth l | None => 0 end)))
  else (s, None).

(** The limits resolve if the machine can be looked at.  What is configured is kept; what
    is not comes from the machine, never zero and never more memory than it has - unless
    it has less than four bytes, when a fixed floor stands in. *)
Theorem limits_resolve st hw inp : 0 ≤ cpu_count hw < 2 ^ 32 → 0 ≤ ram_bytes hw < 2 ^ 64 →
  (∀ l, inp = Some l → 0 ≤ max_concurrent_tasks l < 2 ^ 32 ∧ 0 ≤ max_memory_bytes l < 2 ^ 64) →
  match gptps_config_resolve (st, hw) inp with
  | (s, None) => s = st ∧ st ≠ GPTPS_OK
  | (s, Some out) => s = GPTPS_OK ∧ st = GPTPS_OK ∧
      1 ≤ max_concurrent_tasks out < 2 ^ 32 ∧ 1 ≤ max_memory_bytes out < 2 ^ 64 ∧
      (∀ l, inp = Some l → max_intake_depth out = max_intake_depth l ∧
        (max_concurrent_tasks l ≠ 0 → max_concurrent_tasks out = max_concurrent_tasks l) ∧
        (max_memory_bytes l ≠ 0 → max_memory_bytes out = max_memory_bytes l)) ∧
      (4 ≤ ram_bytes hw → (∀ l, inp = Some l → max_memory_bytes l = 0) →
        4 * max_memory_bytes out ≤ 3 * ram_bytes hw ∧ 3 * ram_bytes hw < 4 * max_memory_bytes out + 12)
  end.
Proof.
  intros Hc Hr Hin. unfold gptps_config_resolve. destruct (decide (st = GPTPS_OK)) as [->|]; [|done].
  set (m := u64 _). assert (Em : m = ram_bytes hw / 4 * 3).
  { unfold m. apply u64_small. unfold GPTPS_MEM_FRACTION_NUM, GPTPS_MEM_FRACTION_DEN. pose proof (Z.div_mod (ram_bytes hw) 4).
    pose proof (Z.mod_pos_bound (ram_bytes hw) 4). lia. }
  pose proof (Z.div_mod (ram_bytes hw) 4) as Hdm. pose proof (Z.mod_pos_bound (ram_bytes hw) 4) as Hmb.
  assert (HM : let mem := if negb (ram_bytes hw =? 0) then if m =? 0 then GPTPS_MEM_FLOOR_BYTES else m else GPTPS_MEM_FLOOR_BYTES in
    1 ≤ mem < 2 ^ 64 ∧ (4 ≤ ram_bytes hw → 4 * mem ≤ 3 * ram_bytes hw ∧ 3 * ram_bytes hw < 4 * mem + 12)).
  { cbv zeta. unfold GPTPS_MEM_FLOOR_BYTES. destruct (Z.eqb_spec (ram_bytes hw) 0); cbn [negb]; [lia|]. destruct (Z.eqb_spec m 0); lia. }
  clearbody m. cbv zeta in HM. destruct inp as [l|].
  - destruct (Hin l eq_refl) as [Hlc Hlm]. split; [done|]. split; [done|]. cbn [max_concurrent_tasks max_memory_bytes max_intake_depth]. split_and!.
    + destruct (Z.eqb_spec (max_concurrent_tasks l) 0); [destruct (Z.eqb_spec (cpu_count hw) 0); lia|].
      destruct (Z.eqb_spec (max_concurrent_tasks l) 0); lia.
    + destruct (Z.eqb_spec (max_concurrent_tasks l) 0); [destruct (Z.eqb_spec (cpu_count hw) 0); lia|].
      destruct (Z.eqb_spec (max_concurrent_tasks l) 0); lia.
    + destruct (Z.eqb_spec (max_memory_bytes l) 0); [apply HM|lia].
    + destruct (Z.eqb_spec (max_memory_bytes l) 0); [apply HM|lia].
    + intros l' [= <-]. split; [done|]. split.
      * intros Hne. destruct (Z.eqb_spec (max_concurrent_tasks l) 0); [done|]. by destruct (Z.eqb_spec (max_concurrent_tasks l) 0).
      * intros Hne. by destruct (Z.eqb_spec (max_memory_bytes l) 0).
    + intros H4 Hz. rewrite (Hz l eq_refl). cbn. by apply HM.
  - split; [done|]. split; [done|]. cbn [max_concurrent_tasks max_memory_bytes max_intake_depth]. split_and!; try apply HM; try done.
    + destruct (Z.eqb_spec (cpu_count hw) 0); lia.
    + destruct (Z.eqb_spec (cpu_count hw) 0); lia.
    + intros H4 _. by apply HM.
Qed.

(** ** The allocator *)

(** [gptps_allocator]: its size, which of the functions it gives, and its data. *)
Record allocator := Allocator { al_struct_size : Z; al_malloc : bool; al_realloc : bool; al_free : bool; al_user : Z }.
Definition GPTPS_ALLOCATOR_MIN_SIZE : Z := 40.
(** What is asked of an allocator, and of whose; a pointer is a number, NULL is 0. *)
Inductive request := Malloc (size : Z) | Realloc (p size : Z) | Free (p : Z) | Calloc (n size : Z).
Inductive asked := Host (user : Z) (r : request) | Libc (r : request).
(** [g_alloc] and [g_have]. *)
Definition galloc : Type := option allocator.

Definition gptps_set_allocator (a : option allocator) (g : galloc) : status * galloc :=
  match a with
  | None => (GPTPS_OK, None)
  | Some a =>
      if al_struct_size a <? GPTPS_ALLOCATOR_MIN_SIZE then (GPTPS_E_INVAL, g)
      else if negb (al_malloc a) || negb (al_realloc a) || negb (al_free a) then (GPTPS_E_INVAL, g)
      else (GPTPS_OK, Some a)
  end.
Definition ask (g : galloc) (r : request) : asked := match g with Some a => Host (al_user a) r | None => Libc r end.
Definition gptps_malloc (g : galloc) (size : Z) : asked := ask g (Malloc size).
Definition gptps_realloc (g : galloc) (p size : Z) : asked := if p =? 0 then gptps_malloc g size else ask g (Realloc p size).
Definition gptps_free (g : galloc) (p : Z) : option asked := if p =? 0 then None else Some (ask g (Free p)).
(** The request, if any, and how many bytes of the answer are cleared. *)
Definition gptps_calloc (g : galloc) (n size : Z) : option (asked * Z) :=
  match g with
  | None => Some (Libc (Calloc n size), 0)
  | Some a =>
      if negb (n =? 0) && ((2 ^ 64 - 1) / n <? size) then None
      else let total := u64 (n * size) in Some (Host (al_user a) (Malloc (if negb (total =? 0) then total else 1)), total)
  end.

(** What a host's allocator is never asked: to resize or free NULL, for an array of no
    bytes, or for fewer bytes than the array has; a refused allocator changes nothing. *)
Theorem host_is_asked_soundly a n size p : 0 ≤ n < 2 ^ 64 → 0 ≤ size < 2 ^ 64 →
  (∀ s user, gptps_realloc (Some a) p s ≠ Host user (Realloc 0 s)) ∧ (∀ user, gptps_free (Some a) p ≠ Some (Host user (Free 0))) ∧
  match gptps_calloc (Some a) n size with
  | Some (Host user (Malloc bytes), cleared) => user = al_user a ∧ cleared = n * size ∧ 1 ≤ bytes < 2 ^ 64 ∧ n * size ≤ bytes
  | Some _ => False
  | None => 2 ^ 64 ≤ n * size
  end ∧
  (∀ b g, (gptps_set_allocator (Some b) g).1 ≠ GPTPS_OK → (gptps_set_allocator (Some b) g).2 = g).
Proof.
  intros Hn Hs. split_and!.
  - intros s user. unfold gptps_realloc, gptps_malloc, ask. destruct (Z.eqb_spec p 0); congruence.
  - intros user. unfold gptps_free, ask. destruct (Z.eqb_spec p 0); congruence.
  - unfold gptps_calloc. destruct (Z.eqb_spec n 0) as [->|Hne]; cbn [negb andb]; [rewrite Z.mul_0_l; cbn; split_and!; done|].
    pose proof (Z.mod_pos_bound (2 ^ 64 - 1) n) as Hm. pose proof (Z.div_mod (2 ^ 64 - 1) n ltac:(lia)) as Hd.
    set (q := (2 ^ 64 - 1) / n) in *. destruct (Z.ltb_spec q size) as [Hlt|Hle].
    + assert (n * (q + 1) ≤ n * size) by (apply Z.mul_le_mono_nonneg_l; lia). lia.
    + assert (n * size ≤ n * q) by (apply Z.mul_le_mono_nonneg_l; lia). assert (0 ≤ n * size) by (apply Z.mul_nonneg_nonneg; lia).
      rewrite u64_small by lia. destruct (Z.eqb_spec (n * size) 0); cbn [negb]; split_and!; try done; lia.
  - intros b g. unfold gptps_set_allocator. destruct (_ <? _); [done|]. by destruct (_ || _).
Qed.

End Config.
