(* ===== verification/Knobs.v ===== *)
(** * The engine's settings of [src/engine.c]

    What the registry's entries are bound to: the engine's own limits, each task type's
    knobs, the cells of the settings a host or an add-on defines, and the named resources.
    Settings.v has the registry, for accessors on any state [W]; here is the state they
    reach, [world], and the accessors.  A setting's shape (type, range, choices) is checked
    by [gval_ok] before a default or a file's value gets to it.  Registering and defining
    are in CfgFile.v, reading the configuration file in CfgApply.v. *)

From S2P Require Import Prelude Engine EngineApi Registry Toml TomlParse Settings Config.
From Stdlib Require Import Ascii SpecFloat.
From stdpp Require Import pretty.
Local Open Scope Z_scope.

Module Knobs.
Import Toml TomlParse Settings.
Import Engine EngineApi Registry.

Definition unstr (t : text) : string := String.string_of_list_ascii t.

(** ** Shapes *)

Record shape := Shape {
  sh_type : setting_type; sh_has_range : bool; sh_min : double; sh_max : double; sh_choices : option (list text) }.
Definition fzero : double := double_of_Z 0.
Definition plain (ty : setting_type) : shape := Shape ty false fzero fzero None.
Definition ranged (ty : setting_type) (mn mx : Z) : shape := Shape ty true (double_of_Z mn) (double_of_Z mx) None.

Definition beyond (s : shape) (x : double) : bool := sh_has_range s && (SFltb x (sh_min s) || SFltb (sh_max s) x).
(** The tests of where the conversions stop are left out, and the spaces skipped before a
    sign: a plain number has none and is converted to its end. *)
Definition gval_ok (s : shape) (v : text) : bool :=
  (length v <? VALUE_MAX)%nat &&
  match sh_type s with
  | SET_INT => plain_number v true && let '(x, range) := strtoll v in negb range && negb (beyond s (double_of_Z x))
  | SET_UINT => plain_number v true && negb (negative v) &&
                let '(x, range) := strtoull v in negb range && negb (beyond s (double_of_Z x))
  | SET_DOUBLE => plain_number v false && let x := strtod v in negb (not_finite x) && negb (beyond s x)
  | SET_BOOL => bool_decide (v = str "true") || bool_decide (v = str "false")
  | SET_ENUM => match sh_choices s with None => false | Some l => bool_decide (v ∈ l) end
  | SET_STRING => (length v <? VALUE_MAX)%nat
  end.

(** [gtype_zero]: the default where the definition gives none. *)
Definition gtype_zero (ty : setting_type) (choices : option (list text)) : text :=
  match ty with
  | SET_BOOL => str "false"
  | SET_ENUM => match choices with Some (c :: _) => c | _ => [] end
  | SET_STRING => []
  | _ => str "0"
  end.
Definition trim_default (ty : setting_type) (v : text) : text :=
  if bool_decide (ty = SET_STRING) || (VALUE_MAX <=? length v)%nat then v
  else reverse (skip_space (reverse (skip_space v))).

(** ** C's [strtod] on free text

    A range's bounds are converted from where they start, not held to the grammar of a
    value: the longest prefix that is a number, in decimal, in hexadecimal, infinite or
    not a number, and zero where there is none. *)
Definition lower (c : ascii) : ascii := if within "A" "Z" c then chr (code c + 32) else c.
Definition starts (w p : text) : bool := bool_decide (map lower (take (length w) p) = w).
Definition exponent_text (p : text) : text :=
  match digits (skip_sign p) with ([], _) => [] | (d, _) => take (length p - length (skip_sign p)) p ++ d end.
Definition number_prefix (p : text) : text :=
  let '(d1, r) := digits p in
  let '(d2, dot, r) := match r with
                       | c :: r' => if c =c "." then let '(d, r'') := digits r' in (d, ["."%char], r'') else ([], [], r)
                       | [] => ([], [], r)
                       end in
  match d1 ++ d2 with
  | [] => []
  | _ => d1 ++ dot ++ d2 ++
         match r with
         | c :: r' => if (c =c "e") || (c =c "E") then match exponent_text r' with [] => [] | x => c :: x end else []
         | [] => []
         end
  end.
Fixpoint hex_digits (p : text) : list Z * text :=
  match p with
  | c :: p' => match hexval c with Some h => let '(d, r) := hex_digits p' in (h :: d, r) | None => ([], p) end
  | [] => ([], [])
  end.
Definition hex_double (neg : bool) (p : text) : option double :=
  let '(d1, r) := hex_digits p in
  let '(d2, r) := match r with c :: r' => if c =c "." then hex_digits r' else ([], r) | [] => ([], r) end in
  let m := foldl (λ z h, z * 16 + h) 0 (d1 ++ d2) in
  let e := match r with
           | c :: r' => if (c =c "p") || (c =c "P") then match exponent_text r' with [] => 0 | x => whole_value x end else 0
           | [] => 0
           end in
  match d1 ++ d2 with
  | [] => None
  | _ => Some (binary_normalize 53 1024 (if neg then - m else m) (e - 4 * Z.of_nat (length d2)) neg)
  end.
Definition c_strtod (v : text) : double :=
  let p := skip_space v in
  let neg := negative p in
  let q := skip_sign p in
  if starts (str "inf") q then S754_infinity neg
  else if starts (str "nan") q then S754_nan
  else match (if starts (str "0x") q then hex_double neg (drop 2 q) else None) with
       | Some x => x
       | None => match number_prefix q with [] => fzero | n => strtod ((if neg then ["-"%char] else []) ++ n) end
       end.

(** The text past the first occurrence of [w]: [strstr]. *)
Fixpoint after_sub (w p : text) : option text :=
  if bool_decide (take (length w) p = w) then Some (drop (length w) p)
  else match p with [] => None | _ :: p' => after_sub w p' end.
(** [parse_range]: no range of an empty constraint, and [None] without a [".."]. *)
Definition parse_range (c : text) : option (option (double * double)) :=
  match c with
  | [] => Some None
  | _ => match after_sub (str "..") c with None => None | Some r => Some (Some (c_strtod c, c_strtod r)) end
  end.
(** [parse_choices]: the tokens between bars; an empty one at the end is none. *)
Fixpoint cut_bar (c : text) : text * option text :=
  match c with
  | [] => ([], None)
  | x :: c' => if x =c "|" then ([], Some c') else let '(t, r) := cut_bar c' in (x :: t, r)
  end.
Fixpoint choices_loop (fuel : nat) (c : text) : list text :=
  match fuel, c with
  | S f, _ :: _ => let '(t, r) := cut_bar c in t :: match r with Some c' => choices_loop f c' | None => [] end
  | _, _ => []
  end.
Definition parse_choices (c : text) : list text := choices_loop (length c) c.

(** ** What the accessors reach *)

Section world.
Context {H : Type}.

(** The engine, the fields of [struct gptps] that only settings have, the value cells of
    [gptps_owned_setting] and [gptps_task_local], and what a host's own accessors reach. *)
Record world := World {
  w_e : engine;
  w_conc_next : Z; w_sample_ms : Z; w_bnext_items : Z; w_bnext_payload : Z; w_bnext_result : Z;
  w_cells : gmap N text;
  w_host : H }.
#[export] Instance eta_world : Eta world := λ r,
  World (w_e r) (w_conc_next r) (w_sample_ms r) (w_bnext_items r) (w_bnext_payload r) (w_bnext_result r)
    (w_cells r) (w_host r).

Definition reader : Type := world → nat → text.
Definition writer : Type := world → text → world * status.
(** [snprintf] of a number, of a text; the number of a text, cast to 32 bits and not. *)
Definition rd_int (f : world → Z) : reader := λ w cap, take (cap - 1) (str (pretty (f w))).
Definition rd_text (f : world → text) : reader := λ w cap, take (cap - 1) (f w).
Definition wr_u64 (f : Z → world → world) : writer := λ w v, (f (strtoull v).1 w, GPTPS_OK).
Definition wr_u32 (f : Z → world → world) : writer := λ w v, (f (u32 (strtoull v).1) w, GPTPS_OK).

(** ** Core settings *)

(** The machine, as [gptps_hal_detect] reports it. *)
Variable detect : status * Config.hwinfo.

Definition sc_wr_maxmem : writer := λ w v,
  let mem := (strtoull v).1 in
  if mem =? 0 then
    match Config.gptps_config_resolve detect None with
    | (GPTPS_OK, Some l) => (w <| w_e ::= λ e, e <| e_max_memory_bytes := Config.max_memory_bytes l |> |>, GPTPS_OK)
    | _ => (w, GPTPS_E_CONFIG)
    end
  else (w <| w_e ::= λ e, e <| e_max_memory_bytes := mem |> |>, GPTPS_OK).

(** [reg_core_setting]'s arguments: the key, the shape, whether it is hot, the accessors. *)
Definition core (key : string) (s : shape) (hot : bool) (rd : reader) (wr : writer) : setting_def world :=
  Def (str key) (sh_type s) hot (sh_has_range s) (sh_min s) (sh_max s) (sh_choices s) rd wr.
Definition U32_MAX : Z := 4294967295.
(** The list [open_engine] registers, in order. *)
Definition core_settings : list (setting_def world) := [
  core "limits.max_memory_bytes" (plain SET_UINT) true (rd_int (λ w, e_max_memory_bytes (w_e w))) sc_wr_maxmem;
  core "limits.max_concurrent_tasks" (ranged SET_UINT 0 65536) false
    (rd_int w_conc_next) (wr_u32 (λ z w, w <| w_conc_next := z |>));
  core "limits.max_intake_depth" (ranged SET_UINT 0 U32_MAX) true
    (rd_int (λ w, e_max_intake_depth (w_e w))) (wr_u32 (λ z w, w <| w_e ::= λ e, e <| e_max_intake_depth := z |> |>));
  core "limits.shutdown_grace_ms" (ranged SET_UINT 0 U32_MAX) true
    (rd_int (λ w, e_shutdown_grace_ms (w_e w))) (wr_u32 (λ z w, w <| w_e ::= λ e, e <| e_shutdown_grace_ms := z |> |>));
  core "limits.max_dead_letters" (ranged SET_UINT 0 U32_MAX) true
    (rd_int (λ w, e_max_dead_letters (w_e w))) (wr_u32 (λ z w, w <| w_e ::= λ e, e <| e_max_dead_letters := z |> |>));
  core "stats.dead_letters_evicted" (plain SET_UINT) true
    (rd_int (λ w, e_dead_evicted (w_e w))) (wr_u64 (λ z w, w <| w_e ::= λ e, e <| e_dead_evicted := z |> |>));
  core "measure.sample_ms" (ranged SET_UINT 0 3600000) true
    (rd_int w_sample_ms) (wr_u32 (λ z w, w <| w_sample_ms := z |>));
  core "scheduler.reserve_after_skips" (ranged SET_UINT 0 U32_MAX) true
    (rd_int (λ w, e_reserve_after_skips (w_e w))) (wr_u32 (λ z w, w <| w_e ::= λ e, e <| e_reserve_after_skips := z |> |>));
  core "bounded.max_items" (ranged SET_UINT 0 U32_MAX) false
    (rd_int w_bnext_items) (wr_u64 (λ z w, w <| w_bnext_items := z |>));
  core "bounded.max_payload_bytes" (ranged SET_UINT 0 U32_MAX) false
    (rd_int w_bnext_payload) (wr_u32 (λ z w, w <| w_bnext_payload := z |>));
  core "bounded.max_result_bytes" (ranged SET_UINT 0 U32_MAX) false
    (rd_int w_bnext_result) (wr_u32 (λ z w, w <| w_bnext_result := z |>)) ].
Definition reg_core (w : world) (r : settings world) (d : setting_def world) : settings world :=
  let r := (settings_add_owned r w d None).1 in
  if decide (d_key d = str "stats.dead_letters_evicted") then settings_nosave r (d_key d) else r.
Definition open_settings (w : world) : settings world := foldl (reg_core w) settings_create core_settings.

(** ** A task type's knobs *)

Definition on_reg (r : rid) (f : reg → reg) (w : world) : world := w <| w_e ::= λ e, put_reg r f e |>.
Definition reg_int (f : reg → Z) (r : rid) : reader := rd_int (λ w, from_option f 0 (e_regs (w_e w) !! r)).
Definition policy_u32 (f : Z → failure_policy → failure_policy) (r : rid) : writer :=
  wr_u32 (λ z, on_reg r (λ g, g <| r_default_policy ::= f z |>)).
(** The cast to [int32_t] of what [strtol] gives. *)
Definition i32 (z : Z) : Z := if u32 z <? 2 ^ 31 then u32 z else u32 z - 2 ^ 32.
Definition ONFAIL_CHOICES : list text := [str "dead_letter"; str "requeue"; str "drop"].
Definition onfail_text (f : on_failure) : text :=
  match f with DROP => str "drop" | REQUEUE => str "requeue" | DEAD_LETTER => str "dead_letter" end.
Definition onfail_of (v : text) : on_failure :=
  if decide (v = str "drop") then DROP else if decide (v = str "requeue") then REQUEUE else DEAD_LETTER.

Record task_key := TaskKey { tk_leaf : text; tk_shape : shape; tk_rd : rid → reader; tk_wr : rid → writer }.
Definition TASK_KEYS : list task_key := [
  TaskKey (str "timeout_seconds") (ranged SET_UINT 0 U32_MAX)
    (reg_int (λ g, timeout_seconds (r_default_policy g))) (policy_u32 (λ z p, p <| timeout_seconds := z |>));
  TaskKey (str "max_retries") (ranged SET_UINT 0 U32_MAX)
    (reg_int (λ g, max_retries (r_default_policy g))) (policy_u32 (λ z p, p <| max_retries := z |>));
  TaskKey (str "retry_backoff_seconds") (ranged SET_UINT 0 U32_MAX)
    (reg_int (λ g, retry_backoff_seconds (r_default_policy g))) (policy_u32 (λ z p, p <| retry_backoff_seconds := z |>));
  TaskKey (str "mem_bytes") (plain SET_UINT)
    (reg_int r_default_cost) (λ r, wr_u64 (λ z, on_reg r (λ g, g <| r_default_cost := z |>)));
  TaskKey (str "priority") (ranged SET_INT (- 2147483648) 2147483647)
    (reg_int r_priority) (λ r w v, (on_reg r (λ g, g <| r_priority := i32 (strtoll v).1 |>) w, GPTPS_OK));
  TaskKey (str "on_failure") (Shape SET_ENUM false fzero fzero (Some ONFAIL_CHOICES))
    (λ r, rd_text (λ w, onfail_text (from_option (λ g, p_on_failure (r_default_policy g)) DEAD_LETTER (e_regs (w_e w) !! r))))
    (λ r w v, (on_reg r (λ g, g <| r_default_policy ::= λ p, p <| p_on_failure := onfail_of v |> |>) w, GPTPS_OK)) ].
Definition task_key_find (leaf : text) : option task_key :=
  snd <$> list_find (λ k, tk_leaf k = leaf) TASK_KEYS.

(** ** Named resources and value cells *)

Definition rs_rd_budget (ri : nat) : reader :=
  rd_int (λ w, from_option rs_budget 0 (e_resources (w_e w) !! ri)).
Definition rs_wr_budget (ri : nat) : writer :=
  wr_u64 (λ z w, w <| w_e ::= λ e, e <| e_resources ::= alter (λ x, x <| rs_budget := z |>) ri |> |>).
Definition rs_rd_cost (r : rid) (ri : nat) : reader :=
  rd_int (λ w, default 0 (g ← e_regs (w_e w) !! r; c ← r_res_cost g; c !! ri)).
Definition rs_wr_cost (r : rid) (ri : nat) : writer :=
  wr_u64 (λ z, on_reg r (λ g, g <| r_res_cost ::= fmap <[ri := z]> |>)).

(** [os_rd], [os_wr], [stl_rd] and [stl_wr]: a cell holds a text. *)
Definition cell_rd (c : N) : reader := rd_text (λ w, default [] (w_cells w !! c)).
Definition cell_wr (c : N) : writer := λ w v,
  if (VALUE_MAX <=? length v)%nat then (w, GPTPS_E_CONFIG)
  else (w <| w_cells ::= <[c := v]> |>, GPTPS_OK).

End world.
Arguments world : clear implicits.
Arguments reader : clear implicits.
Arguments writer : clear implicits.
Arguments task_key : clear implicits.
End Knobs.
