(* ===== verification/CfgFile.v ===== *)
(** * The configuration file in the engine: src/engine.c

    What the engine keeps of its file and its settings, [conf]; one entry of the file as the
    loader sees it; how a value is judged before it reaches a setting; and the passes that
    do not read a new file: values that waited for their setting ([cfg_apply_pending]), the
    values of a task as it registers ([apply_task_config]), the report of unused keys
    ([gptps_config_check]) and what a save asks ([cfg_in_file], [cfg_refused]).

    Module Defines, after it, has the calls that put entries in the registry, which end
    in such a pass.

    A message is the constructor of its format, [why], with the entry it is about.  The
    functions here are each thread's own passes from beginning to end; the points where a
    pass lets other threads in and looks again - a reload that swapped the file under
    [cfg_apply_pending] - are not in the model. *)

From S2P Require Import Prelude Engine EngineApi Registry Toml TomlParse Settings Config Knobs.
From Stdlib Require Import Ascii SpecFloat.
From stdpp Require Import pretty.

Local Open Scope Z_scope.

Module CfgFile.
Import Toml TomlParse Settings Engine EngineApi Registry Knobs.

(** ** Texts *)

(** Up to the first dot, and past it if there is one. *)
Fixpoint cut_dot (k : text) : text * option text :=
  match k with
  | [] => ([], None)
  | c :: k' => if c =c "." then ([], Some k') else let '(a, r) := cut_dot k' in (c :: a, r)
  end.
Definition first_of (k : text) : text := (cut_dot k).1.
(** [strrchr(k, '.') + 1], or all of it: [from] is where the part at hand starts. *)
Fixpoint last_from (from k : text) : text :=
  match k with [] => from | c :: k' => last_from (if c =c "." then k' else from) k' end.
Definition last_part (k : text) : text := last_from k k.
Definition has_sub (w p : text) : bool := bool_decide (is_Some (after_sub w p)).

(** ** One entry *)

Inductive toml_kind := K_INT | K_FLOAT | K_BOOL | K_STRING | K_ARRAY.
#[export] Instance toml_kind_dec : EqDecision toml_kind.
Proof. solve_decision. Defined.
Definition kind_of (v : toml_value) : toml_kind :=
  match v with TT_INT _ _ => K_INT | TT_DBL _ => K_FLOAT | TT_BOOL _ => K_BOOL | TT_STR => K_STRING | TT_ARR _ => K_ARRAY end.

Definition CFG_KEY_MAX : nat := 384.
Record cfg_item := CfgItem {
  it_key : text; it_text : text; it_line : Z; it_usable : bool; it_kind : toml_kind; it_index : nat }.
Definition cfg_item_at (i : nat) (x : toml_entry) : cfg_item :=
  let t := default [] (etext x) in
  CfgItem (dotted_at x CFG_KEY_MAX) (take (VALUE_MAX - 1) t) (line x)
    (match etext x with Some t => (length t <? VALUE_MAX)%nat | None => false end) (kind_of (value x)) i.

(** ** What is said *)

Inductive want := A_whole_number | A_number | True_or_false | A_string.
(** What a report says of a key nothing has used. *)
Inductive guess :=
  | Addon_owns (rname : text) | No_resource (rname : text)
  | No_task (cand : text) (best : option string)
  | Unused (near : option text) | Unused_near (first own : text).
Inductive why :=
  | Too_long                                        (* expects a single value, not a string of ... *)
  | Not_a_list (w : want) | Not_quoted (w : want) (drop : bool) | Put_quotes | Not_a (w : want)
  | Explained                                       (* gptps_settings_explain *)
  | Said_by (st : status)                           (* the registry's or the accessor's words *)
  | Long_key | Expects_paths | Addon_failed (path : text) (st : status)
  | Undefined (st : status) | Budget (y : why) | Cost (y : why)
  | No_default (hint : option text) | No_key (hint : option text) | A_table | No_table (own : text)
  | Report (g : guess).
Inductive level := LOG_ERROR | LOG_WARN.
#[export] Instance level_dec : EqDecision level.
Proof. solve_decision. Defined.
Record said := Said { sd_level : level; sd_item : cfg_item; sd_why : why }.

(** ** Judging a value *)

(** [cfg_kind_ok]: [None] when the file wrote the kind the key takes. *)
Definition cfg_kind_ok (ty : setting_type) (k : toml_kind) (t : text) : option why :=
  let want :=
    match ty with
    | SET_INT | SET_UINT => if decide (k = K_INT) then None else Some A_whole_number
    | SET_DOUBLE => if decide (k = K_INT) then None else if decide (k = K_FLOAT) then None else Some A_number
    | SET_BOOL => if decide (k = K_BOOL) then None else Some True_or_false
    | SET_ENUM | SET_STRING => if decide (k = K_STRING) then None else Some A_string
    end in
  match want with
  | None => None
  | Some w =>
      Some (if decide (k = K_ARRAY) then Not_a_list w
            else if decide (k = K_STRING) then
              Not_quoted w (if decide (ty = SET_BOOL) then bool_decide (t = str "true") || bool_decide (t = str "false")
                            else plain_number t (bool_decide (ty ≠ SET_DOUBLE)))
            else match w with A_string => Put_quotes | _ => Not_a w end)
  end.
Definition cfg_value_ok (s : shape) (it : cfg_item) : option why :=
  if negb (it_usable it) && bool_decide (it_kind it ≠ K_ARRAY) then Some Too_long
  else match cfg_kind_ok (sh_type s) (it_kind it) (it_text it) with
       | Some y => Some y
       | None => if gval_ok s (it_text it) then None else Some Explained
       end.

(** [gptps_toml_find_dotted], as an index that is there. *)
Definition find_at (t : gptps_toml) (key : text) : option nat :=
  let j := find_dotted_at t key in if 0 <=? j then Some (Z.to_nat j) else None.

(** ** The engine's tables *)

Definition CFG_OWN : list text :=
  map str ["limits"; "scheduler"; "stats"; "bounded"; "measure"; "resources"; "task_defaults"; "tasks"]%string.
Definition cfg_first_is (key : text) (table : string) : bool := bool_decide (first_of key = str table).
Definition has_table (key : text) : bool := bool_decide (is_Some (cut_dot key).2).
Definition cfg_core_key (key : text) : bool :=
  has_table key &&
  (cfg_first_is key "limits" || cfg_first_is key "scheduler" || cfg_first_is key "stats" ||
   cfg_first_is key "bounded" || cfg_first_is key "measure").
Definition cfg_is_resource (key : text) : bool :=
  has_prefix key (str "resources.") && bool_decide (length (str "resources.") < length key)%nat.

(** The loop of [cfg_near_table]: the nearest table so far and how far off it is. *)
Fixpoint near_loop (first : text) (best : nat * option text) (own : list text) : option (nat * text) :=
  match own with
  | [] => match best with (d, Some o) => Some (d, o) | (_, None) => None end
  | o :: own =>
      if decide (first = o) then None
      else let d := edit_distance first o 2 in
           near_loop first (if ((1 <=? d) && (d <? best.1))%nat then (d, Some o) else best) own
  end.
Definition cfg_near_table (first : text) : option (nat * text) :=
  if (length first <=? 3)%nat then None else near_loop first (3%nat, None) CFG_OWN.

(** ** The engine's configuration *)

Record task_schema := TaskSchema { ts_leaf : text; ts_shape : shape; ts_defval : text; ts_hot : bool }.
(** [gptps_task_local]: whose it is, the schema's leaf, and the cell of its value. *)
Record task_local := TaskLocal { tl_reg : positive; tl_leaf : text; tl_cell : N }.

Section conf.
Context {H : Type}.

(** The fields of [struct gptps] that settings and the file use.  [c_new] is the file a
    reload is applying; [c_published] and [c_addon_res] are the [published] and [addon]
    fields of the types and the resources; [c_setup] is the thread an add-on's setup runs
    on, with its load's tag; [c_calls] is what watchers have been told. *)
Record conf := Conf {
  c_w : world H; c_sets : settings (world H);
  c_schemas : list task_schema; c_locals : list task_local; c_published : gset positive; c_addon_res : gset nat;
  c_toml : option gptps_toml; c_gen : Z; c_new : option gptps_toml; c_reloading : bool; c_saving : nat;
  c_setup : option (Z * N); c_late : nat; c_opening : bool; c_reported : bool; c_due : bool;
  c_calls : list (N * text * text); c_log : list said }.
#[export] Instance eta_conf : Eta conf := λ r,
  Conf (c_w r) (c_sets r) (c_schemas r) (c_locals r) (c_published r) (c_addon_res r) (c_toml r) (c_gen r) (c_new r)
    (c_reloading r) (c_saving r) (c_setup r) (c_late r) (c_opening r) (c_reported r) (c_due r) (c_calls r) (c_log r).

Definition on_toml (f : gptps_toml → gptps_toml) (c : conf) : conf := c <| c_toml ::= fmap f |>.
Definition entries_in (t : option gptps_toml) : list toml_entry := from_option e [] t.
Definition cfg_say (l : level) (it : cfg_item) (y : why) (c : conf) : conf := c <| c_log ::= λ s, s ++ [Said l it y] |>.

(** ** Setting a value from the file *)

(** [None]: no setting has the key (now). *)
Definition cfg_set_from_file (c : conf) (it : cfg_item) : conf * option (status * why) :=
  match type_of (c_sets c) (it_key it) with
  | None => (c, None)
  | Some ty =>
      if negb (it_usable it) && bool_decide (it_kind it ≠ K_ARRAY) then (c, Some (GPTPS_E_CONFIG, Too_long))
      else match cfg_kind_ok ty (it_kind it) (it_text it) with
           | Some y => (c, Some (GPTPS_E_CONFIG, y))
           | None =>
               let '(r, w, st, calls) := set_value (c_sets c) (c_w c) (it_key it) (it_text it) false in
               let c := c <| c_sets := r |> <| c_w := w |> <| c_calls ::= λ l, l ++ calls |> in
               (c, if decide (st = GPTPS_E_NOTFOUND) then None else Some (st, Said_by st))
           end
  end.

(** One key, a subtree when the prefix ends in a dot, or every key when it is empty. *)
Definition wanted (prefix key : text) : bool :=
  match last prefix with
  | None => true
  | Some c => if c =c "." then has_prefix key prefix else bool_decide (key = prefix)
  end.
(** One turn of [cfg_apply_pending], at entry [i]. *)
Definition pending_at (prefix : text) (c : conf) (i : nat) : conf :=
  match entries_in (c_toml c) !! i with
  | None => c
  | Some x =>
      let it := cfg_item_at i x in
      if claimed x || negb (wanted prefix (it_key it)) then c
      else match cfg_set_from_file c it with
           | (c, None) => c
           | (c, Some (st, y)) =>
               let c := on_toml (λ t, claim_at t i) c in
               if decide (st = GPTPS_OK) then c
               else cfg_say LOG_ERROR it y (on_toml (λ t, refuse_at t i) (c <| c_late ::= S |>))
           end
  end.
Definition cfg_apply_pending (tid : Z) (prefix : text) (c : conf) : conf :=
  if c_reloading c || match c_setup c with Some (t, _) => t =? tid | None => false end then c
  else foldl (pending_at prefix) c (seq 0 (length (entries_in (c_toml c)))).

(** ** A task's values, as it registers *)

(** [task_key_put]: a validated value, into the definition. *)
Definition task_key_put (leaf v : text) (g : reg) : reg :=
  let p f := g <| r_default_policy ::= f |> in
  if decide (leaf = str "timeout_seconds") then p (λ p, p <| timeout_seconds := u32 (strtoull v).1 |>)
  else if decide (leaf = str "max_retries") then p (λ p, p <| max_retries := u32 (strtoull v).1 |>)
  else if decide (leaf = str "retry_backoff_seconds") then p (λ p, p <| retry_backoff_seconds := u32 (strtoull v).1 |>)
  else if decide (leaf = str "mem_bytes") then g <| r_default_cost := (strtoull v).1 |>
  else if decide (leaf = str "priority") then g <| r_priority := i32 (strtoll v).1 |>
  else if decide (leaf = str "on_failure") then p (λ p, p <| p_on_failure := onfail_of v |>)
  else g.
(** An entry's value for a key of shape [s], once it passes. *)
Definition good_value (s : shape) (t : gptps_toml) (key : text) : option (nat * text) :=
  j ← find_at t key; x ← e t !! j; v ← etext x;
  if bool_decide (cfg_kind_ok (sh_type s) (kind_of (value x)) v = None) && gval_ok s v then Some (j, v) else None.
Definition default_key (leaf : text) : text := take 399 (str "task_defaults." ++ leaf).
Definition named_key (name leaf : text) : text := take 399 (str "tasks." ++ name ++ str "." ++ leaf).
Definition task_config_key (name : text) (a : reg * gptps_toml) (k : task_key H) : reg * gptps_toml :=
  let '(g, t) := a in
  let g := match good_value (tk_shape k) t (default_key (tk_leaf k)) with
           | Some (_, v) => task_key_put (tk_leaf k) v g | None => g end in
  match good_value (tk_shape k) t (named_key name (tk_leaf k)) with
  | Some (j, v) => (task_key_put (tk_leaf k) v g, claim_at t j)
  | None => (g, t)
  end.
Definition apply_task_config (t : gptps_toml) (name : text) (g : reg) : reg * gptps_toml :=
  foldl (task_config_key name) (g, t) TASK_KEYS.

(** ** Near misses of a table *)

(** [cfg_typo_evidence]: [rest] is the key past its first part. *)
Definition cfg_typo_evidence (c : conf) (table rest : text) (d : nat) : bool :=
  if decide (table = str "resources") then bool_decide (d = 1%nat)
  else if decide (table = str "tasks" ∨ table = str "task_defaults") then
    has_sub (str ".resources.") rest ||
    existsb (λ k : task_key H, (edit_distance (last_part rest) (tk_leaf k) 2 <=? 2)%nat) TASK_KEYS
  else
    let fixed := take 511 (table ++ str "." ++ rest) in
    settings_has (c_sets c) fixed ||
    match closest (c_sets c) fixed with
    | Some g => let g := take 383 g in has_prefix g table && bool_decide (g !! length table = Some "."%char)
    | None => false
    end.

(** ** The report *)

Definition reg_names (c : conf) : list string := omap (λ r, r_name <$> e_regs (w_e (c_w c)) !! r) (e_registry (w_e (c_w c))).
(** The registered task whose table the key is in. *)
Definition task_of_key (c : conf) (rest : text) : option string :=
  snd <$> list_find (λ n, Is_true (has_prefix rest (str n ++ str "."))) (reg_names c).
Fixpoint nearest_name (cand : text) (best : nat * option string) (l : list string) : option string :=
  match l with
  | [] => best.2
  | n :: l => let d := edit_distance cand (str n) 3 in
              nearest_name cand (if (d <? best.1)%nat then (d, Some n) else best) l
  end.
Definition task_guess (c : conf) (rest : text) : option guess :=
  match task_of_key c rest with
  | Some n =>
      let r := drop (length (str n)) rest in
      if has_prefix r (str ".resources.") then
        let rn := drop (length (str ".resources.")) r in
        Some (match res_index (e_resources (w_e (c_w c))) (unstr rn) with
              | Some i => if bool_decide (i ∈ c_addon_res c) then Addon_owns rn else No_resource rn
              | None => No_resource rn
              end)
      else None
  | None =>
      let cand := take 255 (first_of rest) in Some (No_task cand (nearest_name cand (4%nat, None) (reg_names c)))
  end.
Definition report_of (c : conf) (hints : bool) (it : cfg_item) : guess :=
  let k := it_key it in
  match (if has_prefix k (str "tasks.") then task_guess c (drop 6 k) else None) with
  | Some g => g
  | None =>
      let own := if (length (first_of k) <? 64)%nat && has_table k then snd <$> cfg_near_table (first_of k) else None in
      match (if hints then closest (c_sets c) k else None), own with
      | Some g, _ => Unused (Some (take 383 g))
      | None, Some o => Unused_near (first_of k) o
      | None, None => Unused None
      end
  end.
Definition report_at (lvl : level) (hints : bool) (a : conf * nat) (i : nat) : conf * nat :=
  let '(c, n) := a in
  match entries_in (c_toml c) !! i with
  | None => (c, n)
  | Some x => if claimed x then (c, n)
              else let it := cfg_item_at i x in (cfg_say lvl it (Report (report_of c hints it)) c, S n)
  end.
Definition cfg_report (lvl : level) (hints : bool) (c : conf) : conf * nat :=
  foldl (report_at lvl hints) (c, 0%nat) (seq 0 (length (entries_in (c_toml c)))).
Definition cfg_report_first_submit (c : conf) : conf := (cfg_report LOG_WARN false c).1.
Definition gptps_config_check (c : conf) : status * conf :=
  let c := c <| c_reported := true |> in
  let '(c, n) := cfg_report LOG_ERROR true c in
  (if (negb (n =? 0) || negb (c_late c =? 0))%nat then GPTPS_E_CONFIG else GPTPS_OK, c).
(** What the first submit leaves for the dispatcher or the stepper, and what they do. *)
Definition ask_report (c : conf) : conf :=
  match c_toml c with
  | Some _ => if negb (c_opening c) && negb (c_reported c) then c <| c_reported := true |> <| c_due := true |> else c
  | None => c
  end.
Definition make_report (c : conf) : conf :=
  if c_due c then cfg_report_first_submit (c <| c_due := false |>) else c.

(** ** What a save asks *)

(** A double, truncated to an unsigned 64-bit count; the caller has checked its range. *)
Definition trunc_u64 (x : double) : Z :=
  match x with
  | S754_finite false m ex => if 0 <=? ex then Zpos m * 2 ^ ex else Zpos m / 2 ^ (- ex)
  | _ => 0
  end.
Definition gib_bytes (v : text) : Z := trunc_u64 (SFmul 53 1024 (strtod v) (double_of_Z 1073741824)).
Definition gib_shape : shape := ranged SET_DOUBLE 0 1000000000.

(** The value the loaded file gives a setting, in a buffer of [cap] bytes: 1 with it, 2
    when the engine refused it there, or 0. *)
Definition cfg_in_file (c : conf) (cap : nat) (key : text) : Z * text :=
  match c_toml c with
  | None => (0, [])
  | Some t =>
      let got j := match e t !! j with
                   | Some x => if refused x then (2, [])
                               else match etext x with Some v => (1, take (cap - 1) v) | None => (0, []) end
                   | None => (0, [])
                   end in
      match find_at t key with
      | Some j => got j
      | None =>
          if decide (key = str "limits.max_memory_bytes") then
            match find_at t (str "limits.max_memory_gb") with
            | Some j =>
                match e t !! j with
                | Some x =>
                    match etext x with
                    | Some v =>
                        if refused x || bool_decide (cfg_value_ok gib_shape (cfg_item_at j x) ≠ None) then (2, [])
                        else (1, take (cap - 1) (str (pretty (gib_bytes v))))
                    | None => if refused x then (2, []) else (0, [])
                    end
                | None => (0, [])
                end
            | None => (0, [])
            end
          else if has_prefix key (str "tasks.") && negb (has_sub (str ".resources.") (drop 6 key)) then
            let leaf := last_part key in
            match task_key_find (H := H) leaf with
            | Some _ => match find_at t (default_key leaf) with Some j => got j | None => (0, []) end
            | None => (0, [])
            end
          else (0, [])
      end
  end.
Definition cfg_refused (c : conf) (key : text) (v : option text) : bool :=
  match c_toml c with
  | None => false
  | Some t => match j ← find_at t key; e t !! j with
              | Some x => refused x && bool_decide (etext x = v)
              | None => false
              end
  end.

End conf.
Arguments conf : clear implicits.
End CfgFile.

(** * Defining settings, per-task settings and resources, registering a task: src/engine.c

    The calls that put entries in the registry, each with the configuration pass that gives
    what it defined the values the file has waiting.  Settings are made first and published
    together, so a call that runs out of memory publishes none; making one asks once for
    memory here, where the code asks a few times, and the definitions another thread makes
    meanwhile are not in the model.  Nor is what every call starts with: the refusals of a
    bounded engine once it is sealed (Bounded.v has the seal), and of one opened before a
    fork. *)

Local Open Scope Z_scope.

Module Defines.
Import Toml TomlParse Settings Engine EngineApi Registry Knobs CfgFile.

Section defines.
Context {H : Type}.
Implicit Types (c : conf H).
(** The calling thread, and the namespace window in force on it. *)
Variable tid : Z.
Variable ns : option string.

Definition on_engine (f : engine → engine) (c : conf H) : conf H := c <| c_w ::= λ w, w <| w_e ::= f |> |>.
Definition the_engine (c : conf H) : engine := w_e (c_w c).
Definition with_engine (e : engine) (c : conf H) : conf H := on_engine (λ _, e) c.
Definition task_prefix (name : string) : text := str "tasks." ++ str name ++ str ".".

(** ** One setting, made and published *)

Definition entry_def (key : text) (s : shape) (hot : bool) (rd : reader H) (wr : writer H) : setting_def (world H) :=
  Def key (sh_type s) hot (sh_has_range s) (sh_min s) (sh_max s) (sh_choices s) rd wr.
Definition publish (p : setting (world H)) (c : conf H) : conf H * bool :=
  let '(r, ok) := settings_publish (c_sets c) p in (c <| c_sets := r |>, ok).
(** [task_key_prepare]: the key is built in 320 bytes. *)
Definition task_key_prepare (r : rid) (name : string) (k : task_key H) (c : conf H) : setting (world H) :=
  settings_prepare (c_w c) (entry_def (take 319 (task_prefix name ++ tk_leaf k)) (tk_shape k) true (tk_rd k r) (tk_wr k r))
    (Some (Npos r)) None.
(** [task_local_prepare], then [local_publish]: a cell of its own, kept when the key was free. *)
Definition task_local_publish (r : rid) (name : string) (sc : task_schema) (c : conf H) : conf H :=
  let cell := fresh (dom (w_cells (c_w c))) in
  let v := take (VALUE_MAX - 1) (ts_defval sc) in
  let c' := c <| c_w ::= λ w, w <| w_cells ::= <[cell := v]> |> |> in
  let p := settings_prepare (c_w c')
             (entry_def (take 319 (task_prefix name ++ ts_leaf sc)) (ts_shape sc) (ts_hot sc) (cell_rd cell) (cell_wr cell))
             (Some (Npos r)) (Some v) in
  let '(c'', ok) := publish p c' in
  if ok : bool then c'' <| c_locals ::= cons (TaskLocal r (ts_leaf sc) cell) |> else c.
(** [res_cell_prepare], then [res_cell_publish]: a cost, and a budget. *)
Definition cost_publish (r : rid) (name rname : string) (ri : nat) (defval : option text) (c : conf H) : conf H :=
  (publish (settings_prepare (c_w c)
     (entry_def (take 383 (task_prefix name ++ str "resources." ++ str rname)) (plain SET_UINT) true
        (rs_rd_cost r ri) (rs_wr_cost r ri)) (Some (Npos r)) defval) c).1.
Definition budget_publish (rname : string) (ri : nat) (budget : Z) (c : conf H) : conf H :=
  (publish (settings_prepare (c_w c)
     (entry_def (take 383 (str "resources." ++ str rname)) (plain SET_UINT) true (rs_rd_budget ri) (rs_wr_budget ri))
     None (Some (str (pretty budget)))) c).1.

(** ** A new type's settings *)

(** The named resources the host defined, with their indices. *)
Definition host_resources (c : conf H) : list (nat * resource) :=
  filter (λ p, p.1 ∉ c_addon_res c) (imap pair (e_resources (the_engine c))).
Definition task_settings (r : rid) (name : string) (c : conf H) : status * conf H :=
  let costs := host_resources c in
  let '(ok, e) := ask_n (length (@TASK_KEYS H) + length (c_schemas c) + length costs) (the_engine c) in
  let c := with_engine e c in
  if negb ok then (GPTPS_E_NOMEM, c)
  else
    let c := foldl (λ c k, (publish (task_key_prepare r name k c) c).1) c TASK_KEYS in
    let c := foldl (λ c sc, task_local_publish r name sc c) c (c_schemas c) in
    let c := foldl (λ c p, cost_publish r name (rs_name p.2) p.1 None c) c costs in
    (GPTPS_OK, c <| c_published ::= union {[ r ]} |>).

(** ** Registering a task *)

Definition gptps_register_task (d : task_def) (c : conf H) : status * conf H :=
  let cfg (name : string) (g : reg) :=
    match c_toml c with Some t => (apply_task_config (H := H) t (str name) g).1 | None => g end in
  match register_link ns cfg tid d (the_engine c) with
  | (inl st, e) => (st, with_engine e c)
  | (inr r, e) =>
      let name := d_name d in
      let c := with_engine e c in
      let c := match e_regs e !! r with
               | Some g => on_toml (λ t, (apply_task_config (H := H) t (str name) g).2) c
               | None => c
               end in
      match task_settings r name c with
      | (GPTPS_OK, c) => (GPTPS_OK, on_engine (register_settled r) (cfg_apply_pending tid (task_prefix name) c))
      | (st, c) => (st, on_engine (register_task_undo r) c)
      end
  end.

(** ** Named resources *)

(** The types a definition makes a setting for: linked, not removed, and published. *)
Definition live_types (c : conf H) : list (rid * string) :=
  omap (λ r, g ← e_regs (the_engine c) !! r; if r_removed g : bool then None else Some (r, r_name g))
    (e_registry (the_engine c)).
Definition published_types (c : conf H) : list (rid * string) := filter (λ p, p.1 ∈ c_published c) (live_types c).
(** [gptps_define_resource], with the engine's half in Registry.v. *)
Definition gptps_define_resource (name : string) (budget : Z) (c : conf H) : status * conf H :=
  let e := the_engine c in
  let new := bool_decide (name ≠ ""%string) && negb (e_stopping e) && ns_ok ns name &&
             bool_decide (res_index (e_resources e) name = None) in
  let host := bool_decide (ns = None) in
  let '(ok, e) := if new && host then ask_n (S (length (live_types c))) e else (true, e) in
  if negb ok then (GPTPS_E_NOMEM, with_engine e c)
  else
    let ri := length (e_resources e) in
    let '(st, e) := Registry.gptps_define_resource ns name budget e in
    let c := with_engine e c in
    if bool_decide (st ≠ GPTPS_OK) || negb new then (st, c)
    else if host then
      let c := budget_publish name ri budget c in
      let c := foldl (λ c p, cost_publish p.1 p.2 name ri (Some (str "0")) c) c (published_types c) in
      let c := cfg_apply_pending tid (take 319 (str "resources." ++ str name)) c in
      (GPTPS_OK, cfg_apply_pending tid (str "tasks.") c)
    else (GPTPS_OK, c <| c_addon_res ::= union {[ ri ]} |>).

(** ** A host's and an add-on's settings *)

Definition gptps_register_setting (d : setting_def (world H)) (c : conf H) : status * conf H :=
  if negb (ns_ok ns (unstr (d_key d))) then (GPTPS_E_INVAL, c)
  else
    let '(r, st) := settings_add_owned (c_sets c) (c_w c) d None in
    let c := c <| c_sets := r |> in
    if bool_decide (st ≠ GPTPS_OK) then (st, c)
    else
      let c := match c_setup c with
               | Some (t, tag) => if t =? tid then c <| c_sets ::= λ r, set_tag r (d_key d) (Some tag) |> else c
               | None => c
               end in
      (GPTPS_OK, cfg_apply_pending tid (d_key d) c).

(** The shape a definition's constraint gives. *)
Definition shape_of (ty : setting_type) (constraint : text) : option shape :=
  match ty with
  | SET_ENUM => match constraint with [] => None | _ => Some (Shape ty false fzero fzero (Some (parse_choices constraint))) end
  | SET_INT | SET_UINT | SET_DOUBLE =>
      match parse_range constraint with
      | None => None
      | Some None => Some (plain ty)
      | Some (Some (mn, mx)) => Some (Shape ty true mn mx None)
      end
  | SET_BOOL | SET_STRING => Some (plain ty)
  end.
(** The default, and its check. *)
Definition default_of (s : shape) (default_val : option text) : option text :=
  let v := trim_default (sh_type s) (default (gtype_zero (sh_type s) (sh_choices s)) default_val) in
  if gval_ok s v then Some v else None.

Definition gptps_define_global (key : text) (ty : setting_type) (default_val : option text) (constraint : text)
    (restart : bool) (c : conf H) : status * conf H :=
  if decide (key = []) then (GPTPS_E_INVAL, c)
  else if negb (ns_ok ns (unstr key)) then (GPTPS_E_INVAL, c)
  else match s ← shape_of ty constraint; v ← default_of s default_val; Some (s, v) with
       | None => (GPTPS_E_CONFIG, c)
       | Some (s, v) =>
           let '(ok, e) := ask_n 2 (the_engine c) in
           let c := with_engine e c in
           if negb ok then (GPTPS_E_NOMEM, c)
           else
             let cell := fresh (dom (w_cells (c_w c))) in
             let '(st, c') := gptps_register_setting (entry_def key s (negb restart) (cell_rd cell) (cell_wr cell))
                                (c <| c_w ::= λ w, w <| w_cells ::= <[cell := take (VALUE_MAX - 1) v]> |> |>) in
             if decide (st = GPTPS_OK) then (GPTPS_OK, c') else (st, c)
       end.

(** A leaf is bare; an add-on's, inside its setup, is bare past its namespace. *)
Definition leaf_ok (leaf : text) : bool :=
  match ns with
  | None => negb (has_table leaf)
  | Some n => ns_ok ns (unstr leaf) && negb (has_table (drop (String.length n + 1) leaf))
  end.
Definition gptps_define_task_setting (leaf : text) (ty : setting_type) (default_val : option text) (constraint : text)
    (restart : bool) (c : conf H) : status * conf H :=
  if decide (leaf = []) then (GPTPS_E_INVAL, c)
  else if negb (leaf_ok leaf) then (GPTPS_E_INVAL, c)
  else match task_key_find (H := H) leaf with
       | Some _ => (GPTPS_E_DUP, c)
       | None =>
           match s ← shape_of ty constraint; v ← default_of s default_val; Some (s, v) with
           | None => (GPTPS_E_CONFIG, c)
           | Some (s, v) =>
               let '(ok, e) := ask_n 3 (the_engine c) in
               let c := with_engine e c in
               if negb ok then (GPTPS_E_NOMEM, c)
               else if decide (leaf ∈ map ts_leaf (c_schemas c)) then (GPTPS_E_DUP, c)
               else
                 let '(ok, e) := ask_n (length (live_types c)) (the_engine c) in
                 let c := with_engine e c in
                 if negb ok then (GPTPS_E_NOMEM, c)
                 else
                   let sc := TaskSchema leaf s v (negb restart) in
                   let c := foldl (λ c p, task_local_publish p.1 p.2 sc c) (c <| c_schemas ::= cons sc |>) (published_types c) in
                   (GPTPS_OK, cfg_apply_pending tid (str "tasks.") c)
           end
       end.

(** ** Reading and setting *)

(** [gptps_task_setting_str] on the type of the running item, with a buffer of [cap]. *)
Definition local_of (r : rid) (key : text) (c : conf H) : option task_local :=
  snd <$> list_find (λ l, tl_reg l = r ∧ tl_leaf l = key) (c_locals c).
Definition gptps_task_setting_str (r : rid) (key : text) (cap : nat) (c : conf H) : status * text :=
  if decide (cap = 0%nat) then (GPTPS_E_INVAL, [])
  else match local_of r key c with
       | Some l => (GPTPS_OK, cell_rd (tl_cell l) (c_w c) cap)
       | None => (GPTPS_E_NOTFOUND, [])
       end.
(** The text is a whole number to its end, past any leading white space, and in range. *)
Definition gptps_task_setting_int (r : rid) (key : text) (c : conf H) : status * option Z :=
  match gptps_task_setting_str r key VALUE_MAX c with
  | (GPTPS_OK, b) =>
      let p := skip_space b in
      if plain_number p true then
        let '(v, range) := strtoll p in if range : bool then (GPTPS_E_INVAL, None) else (GPTPS_OK, Some v)
      else (GPTPS_E_INVAL, None)
  | (st, _) => (st, None)
  end.

(** [gptps_settings_set_ex], and the key its message suggests. *)
Definition gptps_settings_set_ex (key v : text) (c : conf H) : status * conf H * option text :=
  let '(r, w, st, calls) := set_value (c_sets c) (c_w c) key v true in
  let c := c <| c_sets := r |> <| c_w := w |> <| c_calls ::= λ l, l ++ calls |> in
  (st, c, if decide (st = GPTPS_E_NOTFOUND) then take 383 <$> closest (c_sets c) key else None).

(** What [gptps_unregister_task] takes from the registry once the type is a tombstone: its
    own entries, and a host's under its prefix that is not a live sibling's. *)
Definition sibling_prefixes (name : string) (c : conf H) : list text :=
  omap (λ p : rid * string, if has_prefix (str p.2) (str name ++ str ".") then Some (task_prefix p.2) else None) (live_types c).
Definition remove_settings (r : rid) (name : string) (c : conf H) : conf H :=
  c <| c_sets ::= λ s, (remove_task s (Npos r) (Some (task_prefix name)) (sibling_prefixes name c)).1 |>
    <| c_locals ::= filter (λ l, tl_reg l ≠ r) |> <| c_published ::= λ s, s ∖ {[ r ]} |>.

End defines.
End Defines.
