(* ===== verification/CfgApply.v ===== *)
(** * Reading a configuration file into an engine: src/engine.c

    [gptps_open_ex] and [gptps_settings_reload], with the passes over the file they are made
    of: the keys that size the engine, the keys too long to hold, and [cfg_apply], which
    judges every other key.  What the parser itself says of a file it cannot take is
    TomlParse.v's, and not in the log here. *)

From S2P Require Import Prelude HandleIndex Engine EngineApi Registry Toml TomlParse Settings Config Knobs CfgFile.
From Stdlib Require Import Ascii SpecFloat.
From stdpp Require Import pretty.
Local Open Scope Z_scope.

Module CfgApply.
Import Toml TomlParse Settings Engine EngineApi Registry Knobs CfgFile Defines.

(** ** The keys that size the engine *)

(** [gptps_config], without its path. *)
Record gptps_config := GptpsConfig {
  cf_limits : Config.limits; cf_max_items : Z; cf_max_payload_bytes : Z; cf_max_result_bytes : Z;
  cf_max_dead_letters : Z; cf_shutdown_grace_ms : Z; cf_manual : bool }.
#[export] Instance eta_config : Eta gptps_config := λ r,
  GptpsConfig (cf_limits r) (cf_max_items r) (cf_max_payload_bytes r) (cf_max_result_bytes r) (cf_max_dead_letters r)
    (cf_shutdown_grace_ms r) (cf_manual r).
#[export] Instance eta_limits : Eta Config.limits := λ r,
  Config.Limits (Config.max_concurrent_tasks r) (Config.max_memory_bytes r) (Config.max_intake_depth r).

(** A row of the table [K]: the key, its shape, the field, and its assignment. *)
Record open_key := OpenKey {
  ok_key : text; ok_shape : shape; ok_get : gptps_config → Z; ok_put : Z → gptps_config → gptps_config }.
Definition OPEN_KEYS : list open_key := [
  OpenKey (str "limits.max_concurrent_tasks") (ranged SET_UINT 0 65536)
    (λ c, Config.max_concurrent_tasks (cf_limits c))
    (λ v c, c <| cf_limits ::= λ l, l <| Config.max_concurrent_tasks := u32 v |> |>);
  OpenKey (str "limits.max_memory_bytes") (plain SET_UINT)
    (λ c, Config.max_memory_bytes (cf_limits c)) (λ v c, c <| cf_limits ::= λ l, l <| Config.max_memory_bytes := v |> |>);
  OpenKey (str "limits.max_intake_depth") (ranged SET_UINT 0 U32_MAX)
    (λ c, Config.max_intake_depth (cf_limits c)) (λ v c, c <| cf_limits ::= λ l, l <| Config.max_intake_depth := u32 v |> |>);
  OpenKey (str "bounded.max_items") (ranged SET_UINT 0 U32_MAX) cf_max_items (λ v c, c <| cf_max_items := v |>);
  OpenKey (str "bounded.max_payload_bytes") (ranged SET_UINT 0 U32_MAX)
    cf_max_payload_bytes (λ v c, c <| cf_max_payload_bytes := u32 v |>);
  OpenKey (str "bounded.max_result_bytes") (ranged SET_UINT 0 U32_MAX)
    cf_max_result_bytes (λ v c, c <| cf_max_result_bytes := u32 v |>) ].

(** What [cfg_open_keys] works on: the file, the struct, the errors and what is logged. *)
Record opening := Opening { o_t : gptps_toml; o_c : gptps_config; o_bad : nat; o_log : list said }.
#[export] Instance eta_opening : Eta opening := λ r, Opening (o_t r) (o_c r) (o_bad r) (o_log r).
(** A key of the file, claimed and checked; [f] takes a good value. *)
Definition open_value (key : text) (s : shape) (f : text → gptps_config → gptps_config) (o : opening) : opening :=
  match find_at (o_t o) key with
  | None => o
  | Some j =>
      match e (o_t o) !! j with
      | None => o
      | Some x =>
          let it := cfg_item_at j x in
          let o := o <| o_t ::= λ t, claim_at t j |> in
          match cfg_value_ok s it with
          | Some y => o <| o_log ::= λ l, l ++ [Said LOG_ERROR it y] |> <| o_bad ::= S |>
          | None => o <| o_c ::= f (it_text it) |>
          end
      end
  end.
Definition take_key (o : opening) (k : open_key) : opening :=
  open_value (ok_key k) (ok_shape k)
    (λ v c, if ok_get k c =? 0 then ok_put k (strtoull v).1 c else c) o.
(** The two limits whose 0 is the file's "no limit": only checked when the struct has one. *)
Definition check_key (o : opening) (p : (gptps_config → Z) * string) : opening :=
  if p.1 (o_c o) =? 0 then o else open_value (str p.2) (ranged SET_UINT 0 U32_MAX) (λ _ c, c) o.
Definition cfg_open_keys (t : gptps_toml) (c : gptps_config) : opening :=
  let o := foldl take_key (Opening t c 0 []) OPEN_KEYS in
  let o := foldl check_key o [(cf_max_dead_letters, "limits.max_dead_letters"%string);
                              (cf_shutdown_grace_ms, "limits.shutdown_grace_ms"%string)] in
  open_value (str "limits.max_memory_gb") gib_shape
    (λ v c, if Config.max_memory_bytes (cf_limits c) =? 0
            then c <| cf_limits ::= λ l, l <| Config.max_memory_bytes := gib_bytes v |> |> else c) o.

(** ** The passes *)

Section apply.
Context {H : Type}.
Variable tid : Z.

(** The file [cfg_apply] is given: at open it is the engine's own, at a reload one the
    engine does not have yet. *)
Definition the_file (at_open : bool) (c : conf H) : list toml_entry := entries_in (if at_open then c_toml c else c_new c).
Definition on_file (at_open : bool) (f : gptps_toml → gptps_toml) (c : conf H) : conf H :=
  if at_open then on_toml f c else c <| c_new ::= fmap f |>.

(** The errors so far, and whether one was memory running out. *)
Record pass := Pass { p_c : conf H; p_bad : nat; p_oom : bool }.
#[export] Instance eta_pass : Eta pass := λ r, Pass (p_c r) (p_bad r) (p_oom r).

Section pass.
Variable at_open : bool.
Definition cfg_claim (it : cfg_item) (s : pass) : pass := s <| p_c ::= on_file at_open (λ t, claim_at t (it_index it)) |>.
(** [cfg_refuse], [cfg_say] and [++bad]. *)
Definition cfg_refuse (it : cfg_item) (y : why) (s : pass) : pass :=
  s <| p_c ::= λ c, cfg_say LOG_ERROR it y (on_file at_open (λ t, refuse_at t (it_index it)) c) |> <| p_bad ::= S |>.
Definition judge (it : cfg_item) (o : option why) (f : why → why) (s : pass) : pass :=
  match o with Some y => cfg_refuse it (f y) s | None => s end.
(** The same for a key that goes on waiting when its value is good. *)
Definition refuse_bad (it : cfg_item) (o : option why) (f : why → why) (s : pass) : pass :=
  match o with Some y => cfg_refuse it (f y) (cfg_claim it s) | None => s end.
(** A loop over the entries nothing has claimed. *)
Definition each_at (body : cfg_item → pass → pass) (s : pass) (i : nat) : pass :=
  match the_file at_open (p_c s) !! i with
  | Some x => if claimed x then s else body (cfg_item_at i x) s
  | None => s
  end.
Definition each (body : cfg_item → pass → pass) (s : pass) : pass :=
  foldl (each_at body) s (seq 0 (length (the_file at_open (p_c s)))).

(** [cfg_refuse_long_keys] *)
Definition long_key (it : cfg_item) (s : pass) : pass :=
  match the_file at_open (p_c s) !! it_index it with
  | Some x => if (length (dotted_of (section x) (key x)) <? CFG_KEY_MAX)%nat then s
              else cfg_refuse it Long_key (cfg_claim it s)
  | None => s
  end.
Definition cfg_refuse_long_keys (s : pass) : pass := each long_key s.

(** An entry found by its key, whether or not something has claimed it. *)
Definition on_key (key : text) (body : toml_entry → cfg_item → pass → pass) (s : pass) : pass :=
  match find_at (Toml (the_file at_open (p_c s)) []) key with
  | None => s
  | Some j => match the_file at_open (p_c s) !! j with
              | Some x => let it := cfg_item_at j x in body x it (cfg_claim it s)
              | None => s
              end
  end.
(** At a reload: the add-ons' shape, and the other spelling of [max_memory_bytes]. *)
Definition reload_addons (x : toml_entry) (it : cfg_item) (s : pass) : pass :=
  match etext x with Some _ => cfg_refuse it Expects_paths s | None => s end.
Definition reload_gib (_ : toml_entry) (it : cfg_item) (s : pass) : pass :=
  match cfg_value_ok gib_shape it with
  | Some y => cfg_refuse it y s
  | None =>
      match find_at (Toml (the_file at_open (p_c s)) []) (str "limits.max_memory_bytes") with
      | Some _ => s
      | None =>
          let c := p_c s in
          let '(r, w, st, calls) :=
            set_value (c_sets c) (c_w c) (str "limits.max_memory_bytes") (str (pretty (gib_bytes (it_text it)))) false in
          let s := s <| p_c := c <| c_sets := r |> <| c_w := w |> <| c_calls ::= λ l, l ++ calls |> |> in
          if decide (st = GPTPS_OK) then s else cfg_refuse it (Said_by st) s
      end
  end.

(** [resources]: each key defines one. *)
Definition apply_resource (it : cfg_item) (s : pass) : pass :=
  if negb (cfg_is_resource (it_key it)) then s
  else
    let s := cfg_claim it s in
    match cfg_value_ok (plain SET_UINT) it with
    | Some y => cfg_refuse it (Budget y) s
    | None =>
        let '(st, c) := Defines.gptps_define_resource tid None (unstr (drop 10 (it_key it))) (strtoull (it_text it)).1 (p_c s) in
        let s := s <| p_c := c |> in
        let s := if decide (st = GPTPS_E_NOMEM) then s <| p_oom := true |> else s in
        if decide (st = GPTPS_OK) then s else cfg_refuse it (Undefined st) s
    end.

(** Every key that names a setting. *)
Definition apply_setting (it : cfg_item) (s : pass) : pass :=
  match cfg_set_from_file (p_c s) it with
  | (c, None) => s <| p_c := c |>
  | (c, Some (st, y)) =>
      let s := cfg_claim it (s <| p_c := c |>) in
      let s := if decide (st = GPTPS_E_NOMEM) then s <| p_oom := true |> else s in
      if decide (st = GPTPS_OK) then s else cfg_refuse it y s
  end.

(** The schema whose leaf the key ends with: the longest, the newest of those. *)
Definition ends_with_leaf (key leaf : text) : bool :=
  (6 + length leaf + 1 <? length key)%nat && bool_decide (key !! (length key - length leaf - 1)%nat = Some "."%char) &&
  bool_decide (drop (length key - length leaf) key = leaf).
Fixpoint best_schema (key : text) (best : option task_schema) (l : list task_schema) : option task_schema :=
  match l with
  | [] => best
  | sc :: l =>
      let bl := match best with Some b => length (ts_leaf b) | None => 0%nat end in
      best_schema key (if (bl <? length (ts_leaf sc))%nat && ends_with_leaf key (ts_leaf sc) then Some sc else best) l
  end.
(** One dot between the task and the leaf, and no other. *)
Definition one_name (rest leaf : text) : bool := bool_decide (length (first_of rest) + 1 + length leaf = length rest)%nat.
(** The hint for [task_defaults]: the nearest of the built-in leaves. *)
Fixpoint default_hint (leaf : text) (best : nat * option text) (l : list (task_key H)) : option text :=
  match l with
  | [] => best.2
  | k :: l => let d := edit_distance leaf (tk_leaf k) 3 in
              default_hint leaf (if ((d <=? 3) && (d <? best.1))%nat then (d, Some (tk_leaf k)) else best) l
  end.
(** Per-task keys: checked now, applied when the task registers. *)
Definition apply_task_key (it : cfg_item) (s : pass) : pass :=
  let k := it_key it in
  if has_prefix k (str "task_defaults.") then
    let leaf := drop 14 k in
    match task_key_find (H := H) leaf with
    | Some tk => judge it (cfg_value_ok (tk_shape tk) it) id (cfg_claim it s)
    | None => cfg_refuse it (No_default (default_hint leaf (99%nat, None) TASK_KEYS)) (cfg_claim it s)
    end
  else if negb (has_prefix k (str "tasks.")) then s
  else match best_schema k None (c_schemas (p_c s)) with
       | Some sc => refuse_bad it (cfg_value_ok (ts_shape sc) it) id s
       | None =>
           let rest := drop 6 k in
           if has_sub (str ".resources.") rest then refuse_bad it (cfg_value_ok (plain SET_UINT) it) Cost s
           else let leaf := last_part k in
                match task_key_find (H := H) leaf with
                | Some tk => if one_name rest leaf then refuse_bad it (cfg_value_ok (tk_shape tk) it) id s else s
                | None => s
                end
       end.

(** The engine's own tables: a key no setting has is a typo. *)
Definition apply_core_key (it : cfg_item) (s : pass) : pass :=
  if cfg_core_key (it_key it) then
    let hint := take 383 <$> closest (c_sets (p_c s)) (it_key it) in cfg_refuse it (No_key hint) (cfg_claim it s)
  else s.
(** A value named like a table, and a near miss of a table's name. *)
Definition apply_table_name (it : cfg_item) (s : pass) : pass :=
  let first := first_of (it_key it) in
  if (64 <=? length first)%nat then s
  else match (cut_dot (it_key it)).2 with
       | None => if decide (first ∈ CFG_OWN) then cfg_refuse it A_table (cfg_claim it s) else s
       | Some rest =>
           match cfg_near_table first with
           | Some (d, own) => if cfg_typo_evidence (p_c s) own rest d then cfg_refuse it (No_table own) (cfg_claim it s) else s
           | None => s
           end
       end.

Definition cfg_apply (s : pass) : pass :=
  let s := if at_open then s
           else on_key (str "limits.max_memory_gb") reload_gib (on_key (str "addons") reload_addons s) in
  each apply_table_name (each apply_core_key (each apply_task_key (each apply_setting (each apply_resource s)))).
End pass.

(** ** A reload *)

(** [file] is the text at the path, if it can be read. *)
Definition gptps_settings_reload (file : option text) (c : conf H) : status * conf H :=
  if c_reloading c || bool_decide (is_Some (c_setup c)) || bool_decide (c_saving c ≠ 0%nat) then (GPTPS_E_BUSY, c)
  else
    let c := c <| c_reloading := true |> in
    match parse_buf <$> file with
    | None | Some (inr _) => (GPTPS_E_CONFIG, cfg_apply_pending tid [] (c <| c_reloading := false |>))
    | Some (inl t) =>
        let c := c <| c_late := 0%nat |> <| c_new := Some t |> in
        let s := cfg_apply false (cfg_refuse_long_keys false (Pass c 0 false)) in
        let c := p_c s in
        let c := c <| c_toml := c_new c |> <| c_new := None |> <| c_gen ::= λ g, u32 (g + 1) |> <| c_reloading := false |>
                   <| c_late ::= λ n, (n + p_bad s)%nat |> in
        let c := cfg_apply_pending tid [] c in
        (if (p_bad s =? 0)%nat then GPTPS_OK else if p_oom s then GPTPS_E_NOMEM else GPTPS_E_CONFIG, c)
    end.

(** ** Opening *)

(** [GPTPS_RESERVE_AFTER] and the two defaults; [GPTPS_LIMIT_NONE]. *)
Definition GPTPS_RESERVE_AFTER : Z := 8.
Definition GPTPS_SHUTDOWN_GRACE_MS_DEFAULT : Z := 30000.
Definition GPTPS_MAX_DEAD_LETTERS_DEFAULT : Z := 1024.
Definition GPTPS_LIMIT_NONE : Z := 4294967295.
Definition open_limit (v dflt : Z) : Z := if v =? 0 then dflt else if v =? GPTPS_LIMIT_NONE then 0 else v.

Variable detect : status * Config.hwinfo.
(** Whether the engine's own memory, locks and threads could be made, and the allocations
    that follow; what the host's accessors reach. *)
Variable made : bool.
Variable alloc : nat → bool.
Variable host : H.

Definition open_engine (cf : gptps_config) : status * option (conf H) :=
  match Config.gptps_config_resolve detect (Some (cf_limits cf)) with
  | (GPTPS_OK, Some l) =>
      if negb made then (GPTPS_E_NOMEM, None)
      else
        let items := cf_max_items cf in
        let payload := if items =? 0 then 0 else cf_max_payload_bytes cf in
        let result := if items =? 0 then 0 else cf_max_result_bytes cf in
        let e := Engine (Config.max_memory_bytes l) (Config.max_concurrent_tasks l) (Config.max_intake_depth l)
                   ∅ [] ∅ (λ _, []) 0 0 (open_limit (cf_max_dead_letters cf) GPTPS_MAX_DEAD_LETTERS_DEFAULT) 0 0 0 [] false
                   (open_limit (cf_shutdown_grace_ms cf) GPTPS_SHUTDOWN_GRACE_MS_DEFAULT) 0 (cf_manual cf) 1
                   (HandleIndex.HandleIndex.Hidx [] 0) None [] GPTPS_RESERVE_AFTER 0 alloc in
        let w := World e (Config.max_concurrent_tasks l) 0 items payload result ∅ host in
        (GPTPS_OK, Some (Conf w (open_settings detect w) [] [] ∅ ∅ None 0 None false 0 None 0 false false false [] []))
  | (GPTPS_OK, None) => (GPTPS_E_CONFIG, None)
  | (st, _) => (st, None)
  end.

(** The add-ons of the file: [load] is [gptps_load_addon] on this engine. *)
Variable load : text → conf H → status * conf H.
Definition load_one (it : cfg_item) (s : pass) (path : text) : pass :=
  let '(st, c) := load path (p_c s) in
  let s := s <| p_c := c |> in
  let s := if decide (st = GPTPS_E_NOMEM) then s <| p_oom := true |> else s in
  if decide (st = GPTPS_OK) then s
  else s <| p_c ::= cfg_say LOG_ERROR it (Addon_failed path st) |> <| p_bad ::= S |>.
Definition load_addons (x : toml_entry) (it : cfg_item) (s : pass) : pass :=
  let s := match etext x with
           | Some _ => s <| p_c ::= cfg_say LOG_ERROR it Expects_paths |> <| p_bad ::= S |>
           | None => s
           end in
  foldl (load_one it) s (match value x with TT_ARR l => l | _ => [] end).

(** The passes an engine just made is given with its file, after [cfg_open_keys]. *)
Definition open_passes (o : opening) (c : conf H) : pass :=
  let c := c <| c_toml := Some (o_t o) |> <| c_opening := true |> in
  let s := cfg_refuse_long_keys true (Pass c (o_bad o) false) in
  cfg_apply true (on_key true (str "addons") load_addons s).

(** [gptps_open_ex] with a path.  The engine, or the status and what was logged. *)
Definition gptps_open_ex (file : option text) (cf : gptps_config) : status * option (conf H) * list said :=
  match parse_buf <$> file with
  | None | Some (inr _) => (GPTPS_E_CONFIG, None, [])
  | Some (inl t) =>
      let o := cfg_open_keys t cf in
      match open_engine (o_c o) with
      | (GPTPS_OK, Some c) =>
          let s := open_passes o c in
          let c := p_c s <| c_late := 0%nat |> <| c_opening := false |> in
          let log := o_log o ++ c_log c in
          if (p_bad s + c_late (p_c s) =? 0)%nat then (GPTPS_OK, Some c, log)
          else (if p_oom s then GPTPS_E_NOMEM else GPTPS_E_CONFIG, None, log)
      | (st, _) => (st, None, o_log o)
      end
  end.

End apply.
Arguments pass : clear implicits.
End CfgApply.
