(* ===== verification/CfgFacts.v ===== *)
(** * Every key of a configuration file is accounted for

    Each pass over the file only adds marks, and every entry it marks refused is one error
    in the log and one in the count; what it claims without refusing passed the checks of
    what it is for.  [judged] says so of a pass, and passes compose. *)

From S2P Require Import Prelude HandleIndex Engine EngineApi Registry Toml TomlParse Settings Config ParseFacts SettingsFacts Knobs CfgFile CfgApply.
From Stdlib Require Import Ascii SpecFloat.
From stdpp Require Import pretty.
Local Open Scope Z_scope.

Module CfgFacts.
Import Toml TomlParse Settings Engine EngineApi Registry ParseFacts Knobs CfgFile Defines CfgApply.

(** ** Marks *)

Definition strip (x : toml_entry) : toml_entry := x <| claimed := false |> <| refused := false |>.
Record marked (x y : toml_entry) : Prop := {
  mk_same : strip x = strip y;
  mk_claimed : claimed x = true → claimed y = true;
  mk_refused : refused x = true → refused y = true }.
#[export] Instance marked_preorder : PreOrder marked.
Proof. split; [by split|]. intros x y z [? ? ?] [? ? ?]. split; [congruence|auto|auto]. Qed.
Lemma item_marked i x y : marked x y → cfg_item_at i x = cfg_item_at i y.
Proof.
  intros [Hs _ _]. destruct x, y. unfold strip in Hs. cbn in Hs. injection Hs as -> -> -> -> ->. done.
Qed.

Definition sound (f : list toml_entry) : Prop := Forall (λ x, refused x = true → claimed x = true) f.
(** The entries refused in [f'] and not in [f], as items. *)
Fixpoint newly (i : nat) (f f' : list toml_entry) : list cfg_item :=
  match f, f' with
  | x :: f, y :: f' => (if refused y && negb (refused x) then [cfg_item_at i y] else []) ++ newly (S i) f f'
  | _, _ => []
  end.
Lemma newly_same i f f' : Forall2 (λ x y, refused x = refused y) f f' → newly i f f' = [].
Proof.
  intros Hf. revert i. induction Hf as [|x y f f' Hxy _ IH]; intros i; [done|]. cbn. rewrite IH, Hxy.
  by destruct (refused y).
Qed.
Lemma newly_trans i f g h : Forall2 marked f g → Forall2 marked g h → newly i f h ≡ₚ newly i f g ++ newly i g h.
Proof.
  intros Hfg. revert i h. induction Hfg as [|x y f g Hxy _ IH]; intros i h Hgh; inversion_clear Hgh as [|? z ? h' Hyz Hgh'].
  { done. }
  cbn. rewrite (IH (S i) h' Hgh'), <-(item_marked i y z Hyz). destruct Hxy as [_ _ Hxy], Hyz as [_ _ Hyz].
  destruct (refused x), (refused y), (refused z); cbn; try (by specialize (Hxy eq_refl)); try (by specialize (Hyz eq_refl));
    rewrite ?app_nil_r; try done. by rewrite <-Permutation_middle.
Qed.
Lemma newly_none i f f' : newly i f f' = [] → Forall2 marked f f' → Forall (λ x, refused x = false) f → Forall (λ x, refused x = false) f'.
Proof.
  intros Hn Hm. revert i Hn. induction Hm as [|x y f f' _ _ IH]; intros i; [done|]. cbn.
  intros [Hy Hn]%app_nil Hf. inversion_clear Hf as [|? ? Hx Hf']. constructor; [|by eapply IH].
  rewrite Hx in Hy. by destruct (refused y).
Qed.

Definition refuses (f : list toml_entry) : nat := length (List.filter refused f).
Lemma refuses_newly i f f' : Forall2 marked f f' → refuses f' = (refuses f + length (newly i f f'))%nat.
Proof.
  intros Hm. revert i. induction Hm as [|x y f f' [_ _ Hr] _ IH]; intros i; [done|]. unfold refuses in *. cbn.
  specialize (IH (S i)). destruct (refused x), (refused y); cbn; try (by specialize (Hr eq_refl)); lia.
Qed.

(** A change of one entry's marks. *)
Lemma alter_marked k (m : toml_entry → toml_entry) f : (∀ x, marked x (m x)) → Forall2 marked f (alter m k f).
Proof.
  intros Hm. revert k. induction f as [|x f IH]; intros [|k]; constructor; [apply Hm| |done|apply IH].
  clear. by induction f; constructor.
Qed.
Lemma Forall2_eq_refl {A} (R : A → A → Prop) `{!Reflexive R} l : Forall2 R l l.
Proof. by induction l; constructor. Qed.
Lemma claim_newly i k f : newly i f (alter (λ x, x <| claimed := true |>) k f) = [].
Proof.
  apply newly_same. revert k. induction f as [|x f IH]; intros [|k]; constructor; [done| |done|apply IH].
  clear. by induction f; constructor.
Qed.
Lemma refuse_newly i k f x : f !! k = Some x → refused x = false →
  newly i f (alter (λ x, x <| refused := true |>) k f) = [cfg_item_at (i + k) x].
Proof.
  revert i k. induction f as [|y f IH]; intros i [|k]; [done|done| |].
  - intros [= ->] Hx. cbn. rewrite Hx. cbn. rewrite newly_same; [by rewrite Nat.add_0_r|]. by apply Forall2_eq_refl.
  - intros Hk Hx. change (alter ?m (S k) (y :: f)) with (y :: alter m k f). cbn [newly].
    rewrite (IH (S i) k Hk Hx). replace (S i + k)%nat with (i + S k)%nat by lia.
    by destruct (refused y).
Qed.
Lemma claim_marked x : marked x (x <| claimed := true |>).
Proof. by split. Qed.
Lemma refuse_marked x : marked x (x <| refused := true |>).
Proof. by split. Qed.

(** ** The registry only grows *)

Section registry.
Context {W : Type}.
(** The same entry, whatever its marks. *)
Record same (s s' : setting W) : Prop := {
  sm_key : s_key s' = s_key s; sm_type : s_type s' = s_type s; sm_valid : valid_value s' = valid_value s;
  sm_write : s_write s' = s_write s }.
#[export] Instance same_preorder : PreOrder same.
Proof. split; [by split|]. intros x y z [] []. split; congruence. Qed.
Definition reg_le (r r' : settings W) : Prop := ∃ l1 l2, s_list r' = l1 ++ l2 ∧ Forall2 same (s_list r) l1.
#[export] Instance reg_le_preorder : PreOrder reg_le.
Proof.
  split; [intros r; exists (s_list r), []; split; [by rewrite app_nil_r|by apply Forall2_eq_refl, _]|].
  intros r1 r2 r3 (a & b & E1 & H1) (c & d & E2 & H2). rewrite E1 in H2.
  apply Forall2_app_inv_l in H2 as (c1 & c2 & Hc1 & Hc2 & ->). exists c1, (c2 ++ d). rewrite <-app_assoc in E2.
  split; [done|]. by transitivity a.
Qed.
Definition reg_same (r r' : settings W) : Prop := Forall2 same (s_list r) (s_list r').
#[export] Instance reg_same_preorder : PreOrder reg_same.
Proof. split; [intros r; by apply Forall2_eq_refl, _|]. intros a b c H1 H2. unfold reg_same in *. by transitivity (s_list b). Qed.
Lemma reg_same_le r r' : reg_same r r' → reg_le r r'.
Proof. intros Hs. exists (s_list r'), []. by rewrite app_nil_r. Qed.

Lemma find_same k l l' s : Forall2 same l l' → find_in k l = Some s → ∃ s', find_in k l' = Some s' ∧ same s s'.
Proof.
  induction 1 as [|x y l l' Hxy _ IH]; [done|]. cbn. rewrite (sm_key _ _ Hxy). destruct (decide (s_key x = k)); [|done].
  intros [= <-]. by exists y.
Qed.
Lemma find_app_l k (l1 l2 : list (setting W)) s : find_in k l1 = Some s → find_in k (l1 ++ l2) = Some s.
Proof. induction l1 as [|x l1 IH]; [done|]. cbn. by destruct (decide _). Qed.
Lemma find_le r r' k s : reg_le r r' → setting_find r k = Some s → ∃ s', setting_find r' k = Some s' ∧ same s s'.
Proof.
  intros (l1 & l2 & E & Hs) Hf. destruct (find_same k _ l1 s Hs Hf) as (s' & Hf' & Hss).
  exists s'. split; [|done]. unfold setting_find. rewrite E. by apply find_app_l.
Qed.
Lemma find_same_back r r' k s' : reg_same r r' → setting_find r' k = Some s' → ∃ s, setting_find r k = Some s ∧ same s s'.
Proof.
  unfold reg_same, setting_find. induction 1 as [|x y l l' Hxy _ IH]; [done|]. cbn. rewrite (sm_key _ _ Hxy).
  destruct (decide (s_key x = k)); [|done]. intros [= <-]. by exists x.
Qed.
Lemma reg_same_keys r r' : reg_same r r' → map s_key (s_list r') = map s_key (s_list r).
Proof. induction 1 as [|x y l l' Hxy _ IH]; [done|]. cbn. by rewrite (sm_key _ _ Hxy), IH. Qed.
Lemma put_in_same k f l : (∀ s, same s (f s)) → Forall2 same l (put_in k f l).
Proof.
  intros Hf. induction l as [|x l IH]; [constructor|]. cbn. destruct (decide _); constructor; done. Qed.
Lemma set_entry_same k f r : (∀ s, same s (f s)) → reg_same r (set_entry k f r).
Proof. intros Hf. by apply put_in_same. Qed.
Lemma set_value_same r w k v live : reg_same r (set_value r w k v live).1.1.1.
Proof.
  unfold set_value. destruct (setting_find r k) as [s|]; [|reflexivity]. destruct (apply_entry s w _) as [w' st].
  destruct (decide (st = GPTPS_OK)); [|reflexivity]. by apply set_entry_same.
Qed.
Lemma append_le r e : reg_le r (settings_append e r).
Proof. exists (s_list r), [e]. split; [done|]. by apply Forall2_eq_refl, _. Qed.
Lemma publish_le r p : reg_le r (settings_publish r p).1.
Proof. unfold settings_publish. destruct (setting_find r _); [reflexivity|apply append_le]. Qed.
Lemma add_le r w d o : reg_le r (settings_add_owned r w d o).1.
Proof. unfold settings_add_owned. destruct (setting_find r _); [reflexivity|apply append_le]. Qed.
End registry.

(** ** What a claimed value passed *)

Section facts.
Context {H : Type}.
Implicit Types (c : conf H).

(** The keys read before the engine is there, with their shapes. *)
Definition SIZING : list (text * shape) :=
  map (λ k, (ok_key k, ok_shape k)) OPEN_KEYS ++
  [(str "limits.max_dead_letters", ranged SET_UINT 0 U32_MAX); (str "limits.shutdown_grace_ms", ranged SET_UINT 0 U32_MAX);
   (str "limits.max_memory_gb", gib_shape)].
(** A value that was claimed and not refused: taken by a setting, a resource's budget, a
    built-in knob of a task or of all of them, a size of the engine, or the add-ons' list. *)
Inductive accepted (r : settings (world H)) (it : cfg_item) : Prop :=
  | acc_setting s : setting_find r (it_key it) = Some s → it_usable it = true →
      cfg_kind_ok (s_type s) (it_kind it) (it_text it) = None → valid_value s (it_text it) = true → accepted r it
  | acc_resource : cfg_is_resource (it_key it) = true → cfg_value_ok (plain SET_UINT) it = None → accepted r it
  | acc_task (k : task_key H) : k ∈ TASK_KEYS → last_part (it_key it) = tk_leaf k → cfg_value_ok (tk_shape k) it = None →
      accepted r it
  | acc_size s : (it_key it, s) ∈ SIZING → cfg_value_ok s it = None → accepted r it
  | acc_addons : it_key it = str "addons" → accepted r it.
Lemma accepted_le r r' it : reg_le r r' → accepted r it → accepted r' it.
Proof.
  intros Hle [s Hf Hu Hk Hv|Hk Hv|k Hk Hl Hv|s Hk Hv|Hk]; [|by apply acc_resource|by eapply acc_task|by eapply acc_size|by apply acc_addons].
  destruct (find_le _ _ _ _ Hle Hf) as (s' & Hf' & Hs). eapply acc_setting; [done|done| |].
  - by rewrite (sm_type _ _ Hs).
  - by rewrite (sm_valid _ _ Hs).
Qed.

(** ** One pass *)

(** The file, the errors counted and logged, the registry, and whether a reload runs. *)
Record view := View { v_file : list toml_entry; v_n : nat; v_log : list said; v_reg : settings (world H); v_reloading : bool }.
Record judged (v v' : view) : Prop := {
  jd_marks : Forall2 marked (v_file v) (v_file v');
  jd_reg : reg_le (v_reg v) (v_reg v');
  jd_lock : v_reloading v' = v_reloading v;
  jd_log : ∃ l, v_log v' = v_log v ++ l ∧ v_n v' = (v_n v + length l)%nat ∧ Forall (λ s, sd_level s = LOG_ERROR) l ∧
             map sd_item l ≡ₚ newly 0 (v_file v) (v_file v');
  jd_fixed : ∀ i x x', v_file v !! i = Some x → v_file v' !! i = Some x' → claimed x = true → refused x' = refused x;
  jd_taken : ∀ i x', v_file v' !! i = Some x' → claimed x' = true → refused x' = false →
             (∃ x, v_file v !! i = Some x ∧ claimed x = true) ∨ accepted (v_reg v') (cfg_item_at i x') }.
#[export] Instance judged_preorder : PreOrder judged.
Proof.
  split.
  - intros v. split; [by apply Forall2_eq_refl, _|done|done| |naive_solver|naive_solver].
    exists []. rewrite app_nil_r. cbn. split_and!; [done|lia|done|]. rewrite newly_same; [done|]. by apply Forall2_eq_refl.
  - intros u v w H1 H2. split.
    + transitivity (v_file v); [apply H1|apply H2].
    + transitivity (v_reg v); [apply H1|apply H2].
    + rewrite (jd_lock _ _ H2). apply H1.
    + destruct (jd_log _ _ H1) as (l & El & En & Hl & Hp), (jd_log _ _ H2) as (l' & El' & En' & Hl' & Hp').
      exists (l ++ l'). rewrite El', El, En', En, length_app, app_assoc, map_app, Hp, Hp'. split_and!; [done|lia|by apply Forall_app|].
      symmetry. apply newly_trans; [apply H1|apply H2].
    + intros i x z Hx Hz Hc. destruct (Forall2_lookup_l _ _ _ _ _ (jd_marks _ _ H1) Hx) as (y & Hy & Hm).
      rewrite (jd_fixed _ _ H2 i y z Hy Hz (mk_claimed _ _ Hm Hc)). by apply (jd_fixed _ _ H1 i).
    + intros i z Hz Hc Hr. destruct (jd_taken _ _ H2 i z Hz Hc Hr) as [(y & Hy & Hcy)|Ha]; [|by right].
      pose proof (Forall2_lookup_lr _ _ _ _ _ _ (jd_marks _ _ H2) Hy Hz) as Hm.
      assert (Hry : refused y = false) by (destruct (refused y) eqn:E; [|done]; rewrite (mk_refused _ _ Hm E) in Hr; done).
      destruct (jd_taken _ _ H1 i y Hy Hcy Hry) as [?|Ha]; [by left|right].
      rewrite <-(item_marked i y z Hm). eapply accepted_le; [apply H2|done].
Qed.

Definition ok (v v' : view) : Prop := sound (v_file v) → judged v v' ∧ sound (v_file v').
#[export] Instance ok_preorder : PreOrder ok.
Proof.
  split; [by intros v Hv; split|]. intros u v w H1 H2 Hu. destruct (H1 Hu) as [J1 Hv], (H2 Hv) as [J2 Hw].
  split; [|done]. by transitivity v.
Qed.

Lemma sound_alter k (m : toml_entry → toml_entry) f : sound f → (∀ x, f !! k = Some x → refused (m x) = true → claimed (m x) = true) →
  sound (alter m k f).
Proof.
  intros Hf Hm. apply Forall_lookup. intros j x. rewrite list_lookup_alter. destruct (decide (k = j)) as [<-|].
  - intros (y & Hy & ->)%fmap_Some Hr. by apply Hm.
  - intros Hx. exact (Forall_lookup_1 _ _ _ _ Hf Hx).
Qed.
Definition with_claim (i : nat) (v : view) : view :=
  View (alter (λ x, x <| claimed := true |>) i (v_file v)) (v_n v) (v_log v) (v_reg v) (v_reloading v).
Lemma ok_claim i x v : v_file v !! i = Some x → accepted (v_reg v) (cfg_item_at i x) → ok v (with_claim i v).
Proof.
  intros Hx Ha Hs. split; [split; cbn|].
  - apply alter_marked, claim_marked.
  - done.
  - done.
  - exists []. rewrite app_nil_r, claim_newly. cbn. split_and!; [done|lia|done|done].
  - intros j y z. rewrite list_lookup_alter. destruct (decide (i = j)) as [<-|]; [|naive_solver].
    intros ->. by intros [= <-].
  - intros j y. rewrite list_lookup_alter. destruct (decide (i = j)) as [<-|]; [|naive_solver].
    rewrite Hx. intros [= <-] _ _. by right.
  - apply sound_alter; [done|]. by intros y _.
Qed.
Definition with_refuse (i : nat) (x : toml_entry) (y : why) (v : view) : view :=
  View (alter (λ x, x <| refused := true |>) i (alter (λ x, x <| claimed := true |>) i (v_file v))) (S (v_n v))
    (v_log v ++ [Said LOG_ERROR (cfg_item_at i x) y]) (v_reg v) (v_reloading v).
Lemma ok_refuse i x y v : v_file v !! i = Some x → claimed x = false → ok v (with_refuse i x y v).
Proof.
  intros Hx Hc Hs. assert (Hr : refused x = false).
  { destruct (refused x) eqn:E; [|done]. pose proof (Forall_lookup_1 _ _ _ _ Hs Hx E). congruence. }
  set (f1 := alter (λ x, x <| claimed := true |>) i (v_file v)).
  assert (Hx1 : f1 !! i = Some (x <| claimed := true |>)) by (unfold f1; by rewrite list_lookup_alter_eq, Hx).
  split; [split; unfold with_refuse; cbn [v_file v_n v_log v_reg v_reloading]; fold f1|].
  - transitivity f1; apply alter_marked; [apply claim_marked|apply refuse_marked].
  - done.
  - done.
  - exists [Said LOG_ERROR (cfg_item_at i x) y]. split_and!; [done|cbn; lia|by repeat constructor|].
    rewrite (newly_trans 0 _ f1) by (apply alter_marked; [apply claim_marked || apply refuse_marked]).
    rewrite (claim_newly 0 i (v_file v) : newly 0 (v_file v) f1 = []). by rewrite (refuse_newly 0 i f1 _ Hx1 Hr).
  - intros j z z' Hz. unfold f1. rewrite !list_lookup_alter. destruct (decide (i = j)) as [<-|]; [|naive_solver].
    rewrite Hx in Hz. injection Hz as <-. congruence.
  - intros j z. rewrite list_lookup_alter. destruct (decide (i = j)) as [<-|].
    + rewrite Hx1. by intros [= <-].
    + unfold f1. rewrite list_lookup_alter_ne by done. naive_solver.
  - unfold with_refuse. cbn [v_file]. fold f1. apply sound_alter; [apply sound_alter; [done|by intros]|].
    intros z. rewrite Hx1. by intros [= <-].
Qed.

(** An entry that a pass claimed and refuses only later. *)
Definition with_late (i : nat) (x : toml_entry) (y : why) (v : view) : view :=
  View (alter (λ x, x <| refused := true |>) i (v_file v)) (S (v_n v))
    (v_log v ++ [Said LOG_ERROR (cfg_item_at i x) y]) (v_reg v) (v_reloading v).
Lemma ok_late i x0 x y u v : ok u v → v_file u !! i = Some x0 → claimed x0 = false →
  v_file v !! i = Some x → claimed x = true → refused x = false → ok u (with_late i x y v).
Proof.
  intros Huv Hx0 Hc0 Hx Hc Hr Hu. destruct (Huv Hu) as [[Hm Hg Hl (l & El & En & Hf & Hp) Hxd Ht] Hv].
  assert (Hmv : Forall2 marked (v_file v) (alter (λ x, x <| refused := true |>) i (v_file v))) by apply alter_marked, refuse_marked.
  split; [split; unfold with_late; cbn [v_file v_n v_log v_reg v_reloading]|].
  - by transitivity (v_file v).
  - done.
  - done.
  - exists (l ++ [Said LOG_ERROR (cfg_item_at i x) y]). rewrite El, En, length_app, app_assoc, map_app, Hp.
    split_and!; [done|cbn; lia|apply Forall_app; split; [done|by repeat constructor]|].
    etransitivity; [|symmetry; by apply (newly_trans 0 _ (v_file v))]. by rewrite (refuse_newly 0 i _ x Hx Hr).
  - intros j z z' Hz. rewrite list_lookup_alter. destruct (decide (i = j)) as [<-|]; [congruence|]. intros Hz'. by apply (Hxd j).
  - intros j z. rewrite list_lookup_alter. destruct (decide (i = j)) as [<-|]; [rewrite Hx; by intros [= <-]|]. apply Ht.
  - apply sound_alter; [done|]. intros z. rewrite Hx. by intros [= <-].
Qed.

(** ** The configuration's views *)

Definition cview (at_open : bool) (c : conf H) : view :=
  View (the_file at_open c) (c_late c) (c_log c) (c_sets c) (c_reloading c).
Definition pview (at_open : bool) (s : pass H) : view :=
  View (the_file at_open (p_c s)) (p_bad s + c_late (p_c s)) (c_log (p_c s)) (c_sets (p_c s)) (c_reloading (p_c s)).
(** At a reload the file is not yet the engine's, so its own passes are held back. *)
Definition conf_ok (at_open : bool) (c c' : conf H) : Prop :=
  (at_open = false → c_reloading c = true) → ok (cview at_open c) (cview at_open c').
#[export] Instance conf_ok_preorder at_open : PreOrder (conf_ok at_open).
Proof.
  split; [by intros c _|]. intros a b c H1 H2 Ha Hs. destruct (H1 Ha Hs) as [J1 Hs1].
  destruct (H2 (λ E, eq_trans (jd_lock _ _ J1) (Ha E)) Hs1) as [J2 Hs2]. split; [|done]. by transitivity (cview at_open b).
Qed.
Definition pass_ok (at_open : bool) (s s' : pass H) : Prop :=
  (at_open = false → c_reloading (p_c s) = true) → ok (pview at_open s) (pview at_open s').
#[export] Instance pass_ok_preorder at_open : PreOrder (pass_ok at_open).
Proof.
  split; [by intros c _|]. intros a b c H1 H2 Ha Hs. destruct (H1 Ha Hs) as [J1 Hs1].
  destruct (H2 (λ E, eq_trans (jd_lock _ _ J1) (Ha E)) Hs1) as [J2 Hs2]. split; [|done]. by transitivity (pview at_open b).
Qed.
Lemma ok_shift n v v' : ok v v' →
  ok (View (v_file v) (n + v_n v) (v_log v) (v_reg v) (v_reloading v))
     (View (v_file v') (n + v_n v') (v_log v') (v_reg v') (v_reloading v')).
Proof.
  intros Hv Hs. destruct (Hv Hs) as [[Hm Hr Hl (l & El & En & Hf & Hp) Hx Ht] Hs']. split; [|done]. split; cbn; try done.
  exists l. split_and!; [done|lia|done|done].
Qed.
(** A pass that only does something to the configuration. *)
Lemma pass_conf at_open s c b : conf_ok at_open (p_c s) c → pass_ok at_open s (Pass c (p_bad s) b).
Proof. intros Hc Ha. exact (ok_shift (p_bad s) _ _ (Hc Ha)). Qed.

Lemma foldl_pre {A B} (R : A → A → Prop) `{!PreOrder R} (f : A → B → A) l a : (∀ a b, R a (f a b)) → R a (foldl f a l).
Proof. intros Hf. revert a. induction l as [|b l IH]; intros a; [done|]. cbn. transitivity (f a b); [apply Hf|apply IH]. Qed.

(** ** What leaves the file alone *)

Record kept (c c' : conf H) : Prop := {
  kp_toml : c_toml c' = c_toml c; kp_new : c_new c' = c_new c; kp_late : c_late c' = c_late c; kp_log : c_log c' = c_log c;
  kp_lock : c_reloading c' = c_reloading c; kp_reg : reg_le (c_sets c) (c_sets c') }.
#[export] Instance kept_preorder : PreOrder kept.
Proof.
  split; [by split|]. intros a b c [] []. split; try congruence. by transitivity (c_sets b).
Qed.
Lemma foldl_kept {B} (f : conf H → B → conf H) l c : (∀ c b, kept c (f c b)) → kept c (foldl f c l).
Proof. apply (foldl_pre kept). Qed.
Lemma kept_ok at_open c c' : kept c c' → conf_ok at_open c c'.
Proof.
  intros [Et En El Eg Ek Hr] _. unfold cview. replace (the_file at_open c') with (the_file at_open c)
    by (unfold the_file; by rewrite Et, En). rewrite El, Eg, Ek. intros Hs. split; [|done]. split; cbn; try done.
  - exists []. rewrite app_nil_r, newly_same by (by apply Forall2_eq_refl). cbn. split_and!; [done|lia|done|done].
  - naive_solver.
  - naive_solver.
Qed.
Lemma kept_sets c c' : c_toml c' = c_toml c → c_new c' = c_new c → c_late c' = c_late c → c_log c' = c_log c →
  c_reloading c' = c_reloading c → c_sets c' = c_sets c → kept c c'.
Proof. intros. split; try done. by replace (c_sets c') with (c_sets c). Qed.
Lemma engine_kept f c : kept c (on_engine f c).
Proof. by apply kept_sets. Qed.
Lemma publish_kept p c : kept c (publish p c).1.
Proof.
  unfold publish. pose proof (publish_le (c_sets c) p) as Hle. destruct (settings_publish (c_sets c) p) as [r b]. by split.
Qed.
Lemma local_kept (r : rid) name sc c : kept c (task_local_publish r name sc c).
Proof.
  unfold task_local_publish. set (c1 := c <| c_w ::= _ |>). set (p := settings_prepare _ _ _ _).
  pose proof (publish_kept p c1) as Hk. destruct (publish p c1) as [c2 [|]]; [|done]. cbn [fst] in Hk.
  transitivity c1; [by apply kept_sets|]. transitivity c2; [exact Hk|by apply kept_sets].
Qed.
Lemma set_from_file_kept c it : kept c (cfg_set_from_file c it).1 ∧ reg_same (c_sets c) (c_sets (cfg_set_from_file c it).1) ∧
  c_schemas (cfg_set_from_file c it).1 = c_schemas c.
Proof.
  unfold cfg_set_from_file. destruct (type_of (c_sets c) (it_key it)) as [ty|]; [|by split].
  destruct (negb (it_usable it) && _); [by split|]. destruct (cfg_kind_ok ty _ _); [by split|].
  pose proof (set_value_same (c_sets c) (c_w c) (it_key it) (it_text it) false) as Hs.
  destruct (set_value _ _ _ _ _) as [[[r w] st] calls]. cbn in Hs |- *. split; [|done]. by split; try done; apply reg_same_le.
Qed.
Lemma kind_not_array ty t : cfg_kind_ok ty K_ARRAY t ≠ None.
Proof. by destruct ty. Qed.
(** A value set is one the setting takes; a key left waiting has no setting, or one whose
    accessor says it is not there. *)
Lemma set_from_file_spec c it : match (cfg_set_from_file c it).2 with
  | Some (GPTPS_OK, _) => accepted (c_sets (cfg_set_from_file c it).1) it
  | Some _ => True
  | None => ∀ s, setting_find (c_sets c) (it_key it) = Some s → ∃ w, (s_write s w (it_text it)).2 = GPTPS_E_NOTFOUND
  end.
Proof.
  pose proof (set_from_file_kept c it) as (_ & Hsame & _). unfold cfg_set_from_file, type_of in *.
  destruct (setting_find (c_sets c) (it_key it)) as [s|] eqn:Hf; cbn [fmap option_fmap option_map] in *; [|done].
  destruct (negb (it_usable it) && _) eqn:Hu; [done|]. destruct (cfg_kind_ok (s_type s) _ _) eqn:Hk; [done|].
  assert (Hus : it_usable it = true).
  { destruct (it_usable it); [done|]. cbn in Hu. apply bool_decide_eq_false, dec_stable in Hu.
    rewrite Hu in Hk. by apply kind_not_array in Hk. }
  unfold set_value in *. rewrite Hf in *. change (typed s false (it_text it)) with (it_text it) in *.
  unfold apply_entry in *. destruct (valid_value s (it_text it)) eqn:Hv; cbn [negb] in *.
  - destruct (s_write s (c_w c) (it_text it)) as [w' st] eqn:Hw. destruct (decide (st = GPTPS_OK)) as [->|Hst].
    + cbn in Hsame |- *. destruct (find_le _ _ _ _ (reg_same_le _ _ Hsame) Hf) as (s' & Hf' & Hss).
      eapply acc_setting; [exact Hf'|done| |]; [by rewrite (sm_type _ _ Hss)|by rewrite (sm_valid _ _ Hss)].
    + cbn. destruct (decide (st = GPTPS_E_NOTFOUND)) as [->|]; [|by destruct st].
      intros s' [= <-]. exists (c_w c). by rewrite Hw.
  - done.
Qed.

(** ** The passes over the engine's own file *)

Lemma entries_claim i t : entries_in (fmap (λ t, claim_at t i) t) = alter (λ x, x <| claimed := true |>) i (entries_in t).
Proof. destruct t as [t|]; [done|]. by destruct i. Qed.
Lemma entries_refuse i t : entries_in (fmap (λ t, refuse_at t i) t) = alter (λ x, x <| refused := true |>) i (entries_in t).
Proof. destruct t as [t|]; [done|]. by destruct i. Qed.
Lemma file_claim at_open i c :
  the_file at_open (on_file at_open (λ t, claim_at t i) c) = alter (λ x, x <| claimed := true |>) i (the_file at_open c).
Proof. destruct at_open; apply entries_claim. Qed.
Lemma file_refuse at_open i c :
  the_file at_open (on_file at_open (λ t, refuse_at t i) c) = alter (λ x, x <| refused := true |>) i (the_file at_open c).
Proof. destruct at_open; apply entries_refuse. Qed.

Lemma pending_at_ok p c i : conf_ok true c (pending_at p c i).
Proof.
  unfold pending_at. destruct (entries_in (c_toml c) !! i) as [x|] eqn:Hx; [|done].
  destruct (claimed x || _) eqn:Hc; [done|]. apply orb_false_iff in Hc as [Hc _]. set (it := cfg_item_at i x).
  pose proof (set_from_file_kept c it) as (Hk & _). pose proof (set_from_file_spec c it) as Hs.
  destruct (cfg_set_from_file c it) as [c1 [[st y]|]]; cbn [fst snd] in *; [|by apply kept_ok].
  transitivity c1; [by apply kept_ok|]. rewrite <-(kp_toml _ _ Hk) in Hx. intros _.
  destruct (decide (st = GPTPS_OK)) as [->|].
  - replace (cview true (on_toml _ c1)) with (with_claim i (cview true c1))
      by (unfold cview, with_claim; cbn; by rewrite entries_claim). by eapply ok_claim.
  - replace (cview true (cfg_say _ _ _ _)) with (with_refuse i x y (cview true c1)); [by apply ok_refuse|].
    unfold cview, with_refuse. cbn [v_file v_n v_log v_reg v_reloading]. f_equal. cbn. by rewrite entries_refuse, entries_claim.
Qed.
Lemma pending_ok at_open tid p c : conf_ok at_open c (cfg_apply_pending tid p c).
Proof.
  unfold cfg_apply_pending. destruct (c_reloading c || _) eqn:Hl; [done|]. apply orb_false_iff in Hl as [Hl _].
  destruct at_open; [|intros Ha; by rewrite Ha in Hl]. apply (foldl_pre (conf_ok true)). intros. apply pending_at_ok.
Qed.

Lemma define_resource_ok at_open tid ns name budget c :
  conf_ok at_open c (gptps_define_resource tid ns name budget c).2.
Proof.
  unfold gptps_define_resource. destruct (if (_ : bool) then ask_n _ _ else _) as [[|] e1]; cbn [negb snd]; [|by apply kept_ok, engine_kept].
  destruct (Registry.gptps_define_resource ns name budget e1) as [st e2].
  destruct (bool_decide (st ≠ GPTPS_OK) || _); cbn [snd]; [by apply kept_ok, engine_kept|].
  destruct (bool_decide (ns = None)); cbn [snd].
  - etransitivity; [|apply pending_ok]. etransitivity; [|apply pending_ok]. apply kept_ok.
    etransitivity; [|apply foldl_kept; intros; apply publish_kept].
    etransitivity; [apply engine_kept|apply publish_kept].
  - apply kept_ok. by apply kept_sets.
Qed.
Lemma register_setting_ok tid ns d c : conf_ok true c (gptps_register_setting tid ns d c).2.
Proof.
  unfold gptps_register_setting. destruct (negb _); [done|]. pose proof (add_le (c_sets c) (c_w c) d None) as Hle.
  destruct (settings_add_owned _ _ _ _) as [r st]. cbn [fst] in Hle.
  assert (Hk : kept c (c <| c_sets := r |>)) by by split.
  destruct (bool_decide (st ≠ GPTPS_OK)); cbn [snd]; [by apply kept_ok|].
  etransitivity; [|apply pending_ok]. transitivity (c <| c_sets := r |>); [by apply kept_ok|].
  destruct (c_setup _) as [[t tag]|]; [|done]. destruct (t =? tid); [|done]. apply kept_ok. split; try done.
  cbn. apply reg_same_le. by apply set_entry_same.
Qed.
Lemma define_global_ok tid ns key ty dv con rs c : conf_ok true c (gptps_define_global tid ns key ty dv con rs c).2.
Proof.
  unfold gptps_define_global. destruct (decide (key = [])); [done|]. destruct (negb _); [done|].
  destruct (s ← shape_of ty con; v ← default_of s dv; Some (s, v)) as [[s v]|]; [|done].
  destruct (ask_n 2 _) as [[|] e]; cbn [negb snd]; [|by apply kept_ok, engine_kept].
  set (c1 := with_engine e c). set (c2 := c1 <| c_w ::= _ |>). set (d := entry_def _ _ _ _ _).
  pose proof (register_setting_ok tid ns d c2) as Hr. destruct (gptps_register_setting tid ns d c2) as [st c3].
  cbn [snd] in Hr. destruct (decide (st = GPTPS_OK)); cbn [snd]; [|by apply kept_ok, engine_kept].
  etransitivity; [|exact Hr]. apply kept_ok. by apply kept_sets.
Qed.
Lemma define_task_setting_ok tid ns leaf ty dv con rs c :
  conf_ok true c (gptps_define_task_setting tid ns leaf ty dv con rs c).2.
Proof.
  unfold gptps_define_task_setting. destruct (decide (leaf = [])); [done|]. destruct (negb _); [done|].
  destruct (task_key_find leaf); [done|].
  destruct (s ← shape_of ty con; v ← default_of s dv; Some (s, v)) as [[s v]|]; [|done].
  destruct (ask_n 3 _) as [[|] e1]; cbn [negb snd]; [|by apply kept_ok, engine_kept].
  destruct (decide _); [by apply kept_ok, engine_kept|].
  destruct (ask_n (length _) _) as [[|] e2]; cbn [negb snd]; [|by apply kept_ok; transitivity (with_engine e1 c); apply engine_kept].
  etransitivity; [|apply pending_ok]. apply kept_ok.
  etransitivity; [|apply foldl_kept; intros; apply local_kept]. by apply kept_sets.
Qed.
Lemma task_settings_kept (r : rid) name c : kept c (task_settings r name c).2.
Proof.
  unfold task_settings. destruct (ask_n _ _) as [[|] e]; cbn [negb snd]; [|by apply engine_kept].
  match goal with |- kept _ (update c_published _ ?x) => transitivity x; [|by apply kept_sets] end.
  etransitivity; [|apply foldl_kept; intros; apply publish_kept].
  etransitivity; [|apply foldl_kept; intros; apply local_kept].
  etransitivity; [|apply foldl_kept; intros; apply publish_kept]. apply engine_kept.
Qed.

(** ** A task's values *)

Lemma str_length s : length (str s) = String.length s.
Proof. induction s as [|a s IH]; [done|]. unfold str in *. cbn. by rewrite IH. Qed.
Lemma find_at_spec t k j : find_at t k = Some j → ∃ x, TomlParse.e t !! j = Some x ∧ full x = k.
Proof.
  unfold find_at, find_dotted_at. destruct (list_find _ _) as [[i x]|] eqn:Hf; [|done].
  apply list_find_Some in Hf as (Hx & Hd & _). destruct (Z.leb_spec 0 (Z.of_nat i)); [|lia]. rewrite Nat2Z.id. intros [= <-].
  exists x. split; [done|]. by apply is_dotted_full, Is_true_true.
Qed.
Lemma item_whole i x v : etext x = Some v → (length v < VALUE_MAX)%nat →
  it_text (cfg_item_at i x) = v ∧ it_usable (cfg_item_at i x) = true.
Proof.
  intros E Hl. unfold cfg_item_at. rewrite E. cbn [it_text it_usable default]. split; [apply take_ge; unfold VALUE_MAX in *; lia|].
  by apply Nat.ltb_lt.
Qed.
Lemma gval_length s v : gval_ok s v = true → (length v < VALUE_MAX)%nat.
Proof. unfold gval_ok. intros [Hl _]%andb_prop. by apply Nat.ltb_lt. Qed.
Lemma good_value_spec s t k j v : good_value s t k = Some (j, v) →
  ∃ x, TomlParse.e t !! j = Some x ∧ full x = k ∧ etext x = Some v ∧ cfg_value_ok s (cfg_item_at j x) = None.
Proof.
  unfold good_value. destruct (find_at t k) as [j'|] eqn:Hf; [|done]. cbn [mbind option_bind].
  destruct (find_at_spec _ _ _ Hf) as (x & Hx & Hk). rewrite Hx. cbn [mbind option_bind].
  destruct (etext x) as [v'|] eqn:Ev; [|done]. cbn [mbind option_bind].
  destruct (bool_decide _ && gval_ok s v') eqn:Hg; [|done]. intros [= -> ->]. apply andb_prop in Hg as [Hkd Hg].
  exists x. split_and!; [done|done|done|]. apply bool_decide_eq_true in Hkd.
  destruct (item_whole j x v Ev (gval_length _ _ Hg)) as [Et Eu]. unfold cfg_value_ok. rewrite Eu, Et.
  change (it_kind (cfg_item_at j x)) with (kind_of (value x)). by rewrite Hkd, Hg.
Qed.
Lemma last_from_app (f p q : text) : q ≠ [] → forallb (λ x, negb (x =c ".")) q = true → last_from f (p ++ "."%char :: q) = q.
Proof.
  intros Hq Hd. assert (Hn : ∀ g, last_from g q = g).
  { clear -Hd. induction q as [|x q IH]; [done|]. intros g. cbn in *. apply andb_prop in Hd as [Hc Hd].
    apply negb_true_iff in Hc. rewrite Hc. by apply IH. }
  revert f. induction p as [|x p IH]; intros f; cbn; [apply Hn|apply IH].
Qed.
Lemma task_leaf_plain (k : task_key H) : k ∈ TASK_KEYS → tk_leaf k ≠ [] ∧ forallb (λ x, negb (x =c ".")) (tk_leaf k) = true ∧
  (length (tk_leaf k) ≤ 21)%nat.
Proof.
  assert (Hall : Forall (λ k : task_key H, tk_leaf k ≠ [] ∧ forallb (λ x, negb (x =c ".")) (tk_leaf k) = true ∧
    (length (tk_leaf k) ≤ 21)%nat) TASK_KEYS) by (repeat constructor; cbn; (done || lia)).
  rewrite Forall_forall in Hall. apply Hall.
Qed.
Lemma named_key_leaf i x name (k : task_key H) : k ∈ TASK_KEYS → (length name ≤ 127)%nat → full x = named_key name (tk_leaf k) →
  last_part (it_key (cfg_item_at i x)) = tk_leaf k.
Proof.
  intros Hk Hn Hx. destruct (task_leaf_plain k Hk) as (Hl & Hd & Hlen). cbn [it_key cfg_item_at]. unfold dotted_at.
  change (dotted_of (section x) (key x)) with (full x). rewrite Hx. unfold named_key.
  change (str ".") with ["."%char]. set (p := str "tasks." ++ name ++ ["."%char] ++ tk_leaf k).
  assert (length p ≤ 155)%nat by (unfold p; rewrite !length_app; change (length (str "tasks.")) with 6%nat; cbn; lia).
  rewrite !(take_ge p) by (unfold CFG_KEY_MAX; lia). unfold p. rewrite app_assoc. unfold last_part. by apply last_from_app.
Qed.

Definition file_view (t : gptps_toml) (v : view) : view := View (TomlParse.e t) (v_n v) (v_log v) (v_reg v) (v_reloading v).
Lemma task_config_ok v name g t : (length name ≤ 127)%nat → ok (file_view t v) (file_view (apply_task_config (H := H) t name g).2 v).
Proof.
  intros Hn. unfold apply_task_config. assert (Hin : ∀ k : task_key H, k ∈ TASK_KEYS → k ∈ TASK_KEYS) by done. revert Hin.
  generalize (@TASK_KEYS H) at 1 3 as l. intros l. revert g t. induction l as [|k l IH]; intros g t Hin; [done|].
  cbn [foldl]. transitivity (file_view (task_config_key name (g, t) k).2 v).
  - unfold task_config_key. destruct (good_value (tk_shape k) t (named_key name (tk_leaf k))) as [[j w]|] eqn:Hg; [|done].
    destruct (good_value_spec _ _ _ _ _ Hg) as (x & Hx & Hk & _ & Hv). cbn [snd].
    refine (ok_claim j x _ _ _); [exact Hx|]. apply (acc_task _ _ k); [apply Hin; by constructor| |done].
    eapply named_key_leaf; [apply Hin; by constructor|done|done].
  - destruct (task_config_key name (g, t) k) as [g' t']. apply IH. intros k' Hk'. apply Hin. by constructor.
Qed.
Lemma register_link_name ns cfg tid d e r e' : register_link ns cfg tid d e = (inr r, e') → (length (str (d_name d)) ≤ 127)%nat.
Proof.
  unfold register_link, def_check. destruct (d_struct_size d <? _); [done|].
  destruct (Nat.ltb_spec TASK_NAME_MAX (String.length (d_name d))); [done|]. intros _. rewrite str_length. exact H0.
Qed.
Lemma register_task_ok tid ns d c : conf_ok true c (gptps_register_task tid ns d c).2.
Proof.
  unfold gptps_register_task. destruct (register_link _ _ _ _ _) as [[st|r] e1] eqn:Hl; cbn [snd]; [by apply kept_ok, engine_kept|].
  apply register_link_name in Hl. set (c1 := match e_regs e1 !! r with Some _ => _ | None => _ end).
  assert (H1 : conf_ok true c c1).
  { transitivity (with_engine e1 c); [by apply kept_ok, engine_kept|]. unfold c1.
    destruct (e_regs e1 !! r) as [g|]; [|done]. intros _. unfold cview. cbn.
    destruct (c_toml c) as [t|]; [|done]. exact (task_config_ok (cview true c) _ g t Hl). }
  pose proof (task_settings_kept r (d_name d) c1) as Hs. destruct (task_settings r (d_name d) c1) as [st c2]. cbn [snd] in Hs.
  assert (H2 : conf_ok true c c2) by (transitivity c1; [done|by apply kept_ok]).
  destruct st; cbn [snd]; (transitivity c2; [done|]); try by apply kept_ok, engine_kept.
  etransitivity; [apply pending_ok|]. by apply kept_ok, engine_kept.
Qed.

(** ** The bodies of the loops *)

Section bodies.
Variable at_open : bool.
(** A body is well behaved at an entry that nothing has claimed. *)
Definition body_ok (body : cfg_item → pass H → pass H) : Prop := ∀ s i x,
  the_file at_open (p_c s) !! i = Some x → claimed x = false → pass_ok at_open s (body (cfg_item_at i x) s).

Lemma claim_ok s i x : the_file at_open (p_c s) !! i = Some x → accepted (c_sets (p_c s)) (cfg_item_at i x) →
  pass_ok at_open s (cfg_claim at_open (cfg_item_at i x) s).
Proof.
  intros Hx Ha _. set (v := pview at_open s).
  replace (pview at_open (cfg_claim at_open (cfg_item_at i x) s)) with (with_claim i v); [by eapply ok_claim|].
  unfold v, pview, with_claim, cfg_claim. cbn. rewrite file_claim. by destruct at_open.
Qed.
Lemma claim_entry (s : pass H) i x : the_file at_open (p_c s) !! i = Some x →
  the_file at_open (p_c (cfg_claim at_open (cfg_item_at i x) s)) !! i = Some (x <| claimed := true |>).
Proof. intros Hx. unfold cfg_claim. cbn. by rewrite file_claim, list_lookup_alter_eq, Hx. Qed.
Lemma refused_not (s : pass H) i x : sound (the_file at_open (p_c s)) → the_file at_open (p_c s) !! i = Some x → claimed x = false →
  refused x = false.
Proof. intros Hs Hx Hc. destruct (refused x) eqn:E; [|done]. pose proof (Forall_lookup_1 _ _ _ _ Hs Hx E). congruence. Qed.
Lemma refuse_ok s i x y : the_file at_open (p_c s) !! i = Some x → claimed x = false →
  pass_ok at_open s (cfg_refuse at_open (cfg_item_at i x) y (cfg_claim at_open (cfg_item_at i x) s)).
Proof.
  intros Hx Hc _. set (v := pview at_open s).
  replace (pview at_open (cfg_refuse _ _ _ _)) with (with_refuse i x y v); [by apply ok_refuse|].
  unfold v, pview, with_refuse, cfg_refuse, cfg_claim. cbn.
  destruct at_open; cbn; by rewrite ?entries_refuse, ?entries_claim.
Qed.
Lemma refuse_file (s : pass H) i x y :
  the_file at_open (p_c (cfg_refuse at_open (cfg_item_at i x) y (cfg_claim at_open (cfg_item_at i x) s))) =
  alter (λ x, x <| refused := true |>) i (alter (λ x, x <| claimed := true |>) i (the_file at_open (p_c s))).
Proof. unfold cfg_refuse, cfg_claim. destruct at_open; cbn; by rewrite entries_refuse, entries_claim. Qed.
Lemma late_ok u s i x0 x y : pass_ok at_open u s → the_file at_open (p_c u) !! i = Some x0 → claimed x0 = false →
  the_file at_open (p_c s) !! i = Some x → claimed x = true → refused x = false →
  pass_ok at_open u (cfg_refuse at_open (cfg_item_at i x) y s).
Proof.
  intros Hus Hx0 Hc0 Hx Hc Hr Ha. pose proof (Hus Ha) as J.
  replace (pview at_open (cfg_refuse _ _ _ _)) with (with_late i x y (pview at_open s)); [by eapply ok_late|].
  unfold pview, with_late, cfg_refuse. cbn. destruct at_open; cbn; by rewrite entries_refuse.
Qed.
Lemma pass_only s s' : p_c s' = p_c s → p_bad s' = p_bad s → pass_ok at_open s s'.
Proof. intros Ec Eb _. unfold pview. by rewrite Ec, Eb. Qed.

Lemma each_ok body s : body_ok body → pass_ok at_open s (each at_open body s).
Proof.
  intros Hb. unfold each. apply (foldl_pre (pass_ok at_open)). intros s' i. unfold each_at.
  destruct (the_file at_open (p_c s') !! i) as [x|] eqn:Hx; [|done]. destruct (claimed x) eqn:Hc; [done|]. by apply Hb.
Qed.
Lemma refuse_bad_ok it o f s i x : it = cfg_item_at i x → the_file at_open (p_c s) !! i = Some x → claimed x = false →
  pass_ok at_open s (refuse_bad at_open it o f s).
Proof. intros -> Hx Hc. destruct o; [|done]. by apply refuse_ok. Qed.

Lemma long_ok : body_ok (long_key at_open).
Proof.
  intros s i x Hx Hc. unfold long_key. cbn [it_index cfg_item_at]. rewrite Hx. destruct (_ <? _)%nat; [done|]. by apply refuse_ok.
Qed.
Lemma setting_ok : body_ok (apply_setting at_open).
Proof.
  intros s i x Hx Hc. unfold apply_setting. set (it := cfg_item_at i x).
  pose proof (set_from_file_kept (p_c s) it) as (Hk & _). pose proof (set_from_file_spec (p_c s) it) as Hs.
  destruct (cfg_set_from_file (p_c s) it) as [c1 [[st y]|]]; cbn [fst snd] in *.
  2: { exact (pass_conf at_open s c1 _ (kept_ok _ _ _ Hk)). }
  set (s1 := s <| p_c := c1 |>). assert (H1 : pass_ok at_open s s1) by exact (pass_conf at_open s c1 _ (kept_ok _ _ _ Hk)).
  assert (Hx1 : the_file at_open (p_c s1) !! i = Some x).
  { cbn. unfold the_file in *. by rewrite (kp_toml _ _ Hk), (kp_new _ _ Hk). }
  transitivity s1; [done|]. set (s2 := cfg_claim at_open it s1).
  destruct (decide (st = GPTPS_OK)) as [->|Hst]; cbn [decide].
  - destruct (decide (GPTPS_OK = GPTPS_E_NOMEM)); [done|]. by apply claim_ok.
  - transitivity (cfg_refuse at_open it y s2); [by apply refuse_ok|].
    destruct (decide (st = GPTPS_E_NOMEM)); [|done]. by apply pass_only.
Qed.
Lemma core_ok : body_ok (apply_core_key at_open).
Proof. intros s i x Hx Hc. unfold apply_core_key. destruct (cfg_core_key _); [|done]. by apply refuse_ok. Qed.
Lemma table_ok : body_ok (apply_table_name at_open).
Proof.
  intros s i x Hx Hc. unfold apply_table_name. destruct (64 <=? _)%nat; [done|].
  destruct (cut_dot _).2 as [rest|].
  - destruct (cfg_near_table _) as [[d own]|]; [|done]. destruct (cfg_typo_evidence _ _ _ _); [|done]. by apply refuse_ok.
  - destruct (decide _); [|done]. by apply refuse_ok.
Qed.
Lemma task_key_find_spec leaf (k : task_key H) : task_key_find leaf = Some k → k ∈ TASK_KEYS ∧ tk_leaf k = leaf.
Proof.
  unfold task_key_find. destruct (list_find _ _) as [[i k']|] eqn:Hf; [|done]. intros [= ->].
  apply list_find_Some in Hf as (Hk & Hl & _). split; [by eapply list_elem_of_lookup_2|done].
Qed.
Lemma prefix_split k p : has_prefix k p = true → k = p ++ drop (length p) k.
Proof. unfold has_prefix. intros E%bool_decide_eq_true. by rewrite <-E at 1; rewrite take_drop. Qed.
Lemma default_leaf k (tk : task_key H) : has_prefix k (str "task_defaults.") = true → task_key_find (drop 14 k) = Some tk →
  tk ∈ TASK_KEYS ∧ last_part k = tk_leaf tk.
Proof.
  intros Hp [Hk Hl]%task_key_find_spec. split; [done|]. rewrite (prefix_split _ _ Hp), Hl.
  change (length (str "task_defaults.")) with 14%nat. destruct (task_leaf_plain tk Hk) as (Hne & Hd & _). rewrite Hl in Hne, Hd.
  change (str "task_defaults.") with (str "task_defaults" ++ ["."%char]). rewrite <-app_assoc. unfold last_part. by apply last_from_app.
Qed.
Lemma task_ok : body_ok (apply_task_key at_open).
Proof.
  intros s i x Hx Hc. unfold apply_task_key. set (it := cfg_item_at i x).
  destruct (has_prefix (it_key it) (str "task_defaults.")) eqn:Hd.
  - destruct (task_key_find (drop 14 (it_key it))) as [tk|] eqn:Hf; [|by apply refuse_ok].
    destruct (default_leaf _ _ Hd Hf) as [Hk Hl]. destruct (cfg_value_ok (tk_shape tk) it) eqn:Hv; cbn [judge]; [by apply refuse_ok|].
    apply claim_ok; [done|]. by apply (acc_task _ _ tk).
  - destruct (negb _); [done|]. destruct (best_schema _ _ _); [by eapply refuse_bad_ok|].
    destruct (has_sub _ _); [by eapply refuse_bad_ok|]. destruct (task_key_find _); [|done].
    destruct (one_name _ _); [|done]. by eapply refuse_bad_ok.
Qed.

(** Once claimed, an entry is as it was after any pass that is well behaved. *)
Lemma claimed_stays s s' i x : (at_open = false → c_reloading (p_c s) = true) → sound (the_file at_open (p_c s)) →
  pass_ok at_open s s' → the_file at_open (p_c s) !! i = Some x → claimed x = true → refused x = false →
  ∃ x', the_file at_open (p_c s') !! i = Some x' ∧ claimed x' = true ∧ refused x' = false ∧ cfg_item_at i x' = cfg_item_at i x.
Proof.
  intros Ha Hsd Hs Hx Hc Hr. destruct (Hs Ha Hsd) as [Jd _].
  destruct (Forall2_lookup_l _ _ _ _ _ (jd_marks _ _ Jd) Hx) as (x' & Hx' & Hm). exists x'.
  split_and!; [done|by apply Hm|by rewrite (jd_fixed _ _ Jd i x x' Hx Hx' Hc)|by rewrite (item_marked i x x' Hm)].
Qed.
Lemma resource_ok tid : body_ok (apply_resource tid at_open).
Proof.
  intros s i x Hx Hc. unfold apply_resource. set (it := cfg_item_at i x). destruct (cfg_is_resource (it_key it)) eqn:Hres; [|done].
  cbn [negb]. set (s1 := cfg_claim at_open it s).
  destruct (cfg_value_ok (plain SET_UINT) it) eqn:Hv; [by apply refuse_ok|].
  assert (H1 : pass_ok at_open s s1) by (by apply claim_ok; [|apply acc_resource]).
  pose proof (define_resource_ok at_open tid None (unstr (drop 10 (it_key it))) (strtoull (it_text it)).1 (p_c s1)) as Hd.
  destruct (Defines.gptps_define_resource _ _ _ _ _) as [st c2]. cbn [snd] in Hd.
  intros Ha Hsd. pose proof (claim_entry s i x Hx) as Hx1. pose proof (refused_not s i x Hsd Hx Hc) as Hr1.
  set (s2 := if decide (st = GPTPS_E_NOMEM) then s1 <| p_c := c2 |> <| p_oom := true |> else s1 <| p_c := c2 |>).
  assert (H2 : pass_ok at_open s1 s2).
  { unfold s2. destruct (decide (st = GPTPS_E_NOMEM)); by apply (pass_conf at_open s1 c2). }
  assert (H02 : pass_ok at_open s s2) by (by transitivity s1). cbv zeta. fold s2.
  destruct (decide (st = GPTPS_OK)); [by apply H02|]. destruct (H1 Ha Hsd) as [J1 Hsd1].
  destruct (claimed_stays s1 s2 i _ (λ E, eq_trans (jd_lock _ _ J1) (Ha E)) Hsd1 H2 Hx1 eq_refl Hr1) as (x2 & Hx2 & Hc2 & Hr2 & Ei).
  replace it with (cfg_item_at i x2) by (by rewrite Ei). by apply (late_ok s s2 i x x2).
Qed.
End bodies.

(** ** A whole file *)

(** Nothing has claimed the key [k]. *)
Definition free (k : text) (f : list toml_entry) : Prop := ∀ x, x ∈ f → full x = k → claimed x = false.
Lemma free_alter k i (m : toml_entry → toml_entry) f : (∀ x, full (m x) = full x) →
  (∀ x, f !! i = Some x → full x ≠ k) → free k f → free k (alter m i f).
Proof.
  intros Hm Hi Hf x (j & Hj)%list_elem_of_lookup. rewrite list_lookup_alter in Hj. destruct (decide (i = j)) as [<-|].
  - destruct (f !! i) as [y|] eqn:Hy; [|done]. injection Hj as <-. rewrite Hm. intros E. by destruct (Hi y).
  - intros E. apply (Hf x); [by eapply list_elem_of_lookup_2|done].
Qed.
Lemma long_free at_open k (s : pass H) : (length k < CFG_KEY_MAX)%nat → free k (the_file at_open (p_c s)) →
  free k (the_file at_open (p_c (cfg_refuse_long_keys at_open s))).
Proof.
  intros Hk. unfold cfg_refuse_long_keys, each. generalize (seq 0 (length (the_file at_open (p_c s)))) as l.
  intros l. revert s. induction l as [|i l IH]; intros s Hf; [done|]. cbn [foldl]. apply IH. unfold each_at.
  destruct (the_file at_open (p_c s) !! i) as [x|] eqn:Hx; [|done]. destruct (claimed x); [done|].
  unfold long_key. cbn [it_index cfg_item_at]. rewrite Hx. destruct (Nat.ltb_spec (length (dotted_of (section x) (key x))) CFG_KEY_MAX); [done|].
  rewrite refuse_file. apply free_alter; [done| |apply free_alter; [done| |done]].
  - intros z. rewrite list_lookup_alter_eq, Hx. intros [= <-]. change (full x ≠ k). unfold full. intros <-. lia.
  - intros z. rewrite Hx. intros [= <-]. unfold full. intros <-. lia.
Qed.

(** The keys a reload reads by their names. *)
Lemma on_key_ok at_open key body (s : pass H) : (∀ i x, the_file at_open (p_c s) !! i = Some x → full x = key → pass_ok at_open s (body x (cfg_item_at i x) (cfg_claim at_open (cfg_item_at i x) s))) →
  pass_ok at_open s (on_key at_open key body s).
Proof.
  intros Hb. unfold on_key. destruct (find_at _ key) as [j|] eqn:Hf; [|done].
  apply find_at_spec in Hf as (x & Hx & Hk). cbn [TomlParse.e] in Hx. rewrite Hx. by apply Hb.
Qed.
Lemma item_key i x : (length (full x) < CFG_KEY_MAX)%nat → it_key (cfg_item_at i x) = full x.
Proof. intros Hl. apply take_ge. change (dotted_of (section x) (key x)) with (full x). lia. Qed.
Lemma addons_ok at_open (s : pass H) : free (str "addons") (the_file at_open (p_c s)) →
  pass_ok at_open s (on_key at_open (str "addons") (reload_addons at_open) s).
Proof.
  intros Hf. apply on_key_ok. intros i x Hx Hk. unfold reload_addons.
  assert (Hc : claimed x = false) by (apply Hf; [by eapply list_elem_of_lookup_2|done]).
  destruct (etext x); [by apply refuse_ok|]. apply claim_ok; [done|]. apply acc_addons.
  rewrite item_key; [done|rewrite Hk; unfold CFG_KEY_MAX; cbn; lia].
Qed.
Lemma gib_ok (s : pass H) : free (str "limits.max_memory_gb") (the_file false (p_c s)) →
  pass_ok false s (on_key false (str "limits.max_memory_gb") (reload_gib false) s).
Proof.
  intros Hf. apply on_key_ok. intros i x Hx Hk. unfold reload_gib. set (it := cfg_item_at i x).
  assert (Hc : claimed x = false) by (apply Hf; [by eapply list_elem_of_lookup_2|done]).
  destruct (cfg_value_ok gib_shape it) eqn:Hv; [by apply refuse_ok|]. set (s1 := cfg_claim false it s).
  assert (H1 : pass_ok false s s1).
  { apply claim_ok; [done|]. apply (acc_size _ _ gib_shape); [|done]. unfold it.
    rewrite item_key, Hk by (rewrite Hk; unfold CFG_KEY_MAX; cbn; lia). unfold SIZING. apply elem_of_app. right. set_solver. }
  destruct (find_at _ _); [done|].
  pose proof (set_value_same (c_sets (p_c s1)) (c_w (p_c s1)) (str "limits.max_memory_bytes") (str (pretty (gib_bytes (it_text it)))) false) as Hs.
  destruct (set_value _ _ _ _ _) as [[[r w] st] calls]. cbn [fst] in Hs. set (c2 := p_c s1 <| c_sets := r |> <| c_w := w |> <| c_calls ::= λ l, l ++ calls |>).
  assert (H2 : pass_ok false s1 (s1 <| p_c := c2 |>)).
  { apply (pass_conf false s1 c2), kept_ok. split; try done. by apply reg_same_le. }
  destruct (decide (st = GPTPS_OK)); [by transitivity s1|]. intros Ha Hsd.
  pose proof (refused_not false s i x Hsd Hx Hc) as Hr.
  replace it with (cfg_item_at i (x <| claimed := true |>)) by done.
  apply (late_ok false s (s1 <| p_c := c2 |>) i x); try done; [by transitivity s1|].
  by apply (claim_entry false).
Qed.
Lemma each_passes at_open tid (s : pass H) : pass_ok at_open s
  (each at_open (apply_table_name at_open) (each at_open (apply_core_key at_open) (each at_open (apply_task_key at_open)
    (each at_open (apply_setting at_open) (each at_open (apply_resource tid at_open) s))))).
Proof.
  etransitivity; [apply (each_ok at_open (apply_resource tid at_open)), resource_ok|].
  etransitivity; [apply (each_ok at_open (apply_setting at_open)), setting_ok|].
  etransitivity; [apply (each_ok at_open (apply_task_key at_open)), task_ok|].
  etransitivity; [apply (each_ok at_open (apply_core_key at_open)), core_ok|].
  apply (each_ok at_open (apply_table_name at_open)), table_ok.
Qed.
Lemma addons_free s k : k ≠ str "addons" → free k (the_file false (p_c s)) →
  free k (the_file false (p_c (on_key (H := H) false (str "addons") (reload_addons false) s))).
Proof.
  intros Hne Hf. unfold on_key. destruct (find_at _ _) as [j|] eqn:Hj; [|done].
  apply find_at_spec in Hj as (x & Hx & Hk). cbn [TomlParse.e] in Hx. rewrite Hx. unfold reload_addons.
  assert (Hfc : free k (the_file false (p_c (cfg_claim false (cfg_item_at j x) s)))).
  { unfold cfg_claim. cbn [p_c]. change (it_index (cfg_item_at j x)) with j. change (p_c (update p_c ?f s)) with (f (p_c s)).
    rewrite file_claim. apply free_alter; [done| |done]. intros y. rewrite Hx. intros [= <-]. congruence. }
  destruct (etext x); [|done]. rewrite refuse_file. apply free_alter; [done| |apply free_alter; [done| |done]].
  - intros y. rewrite list_lookup_alter_eq, Hx. intros [= <-]. change (full x ≠ k). congruence.
  - intros y. rewrite Hx. intros [= <-]. congruence.
Qed.
Lemma apply_ok at_open tid (s : pass H) :
  (at_open = false → free (str "addons") (the_file false (p_c s)) ∧ free (str "limits.max_memory_gb") (the_file false (p_c s))) →
  pass_ok at_open s (cfg_apply tid at_open s).
Proof.
  intros Hf. unfold cfg_apply. destruct at_open; [apply each_passes|]. destruct (Hf eq_refl) as [Ha Hg].
  etransitivity; [|apply each_passes]. etransitivity; [by apply addons_ok|]. apply gib_ok. by apply addons_free.
Qed.
Lemma longs_ok at_open (s : pass H) : pass_ok at_open s (cfg_refuse_long_keys at_open s).
Proof. apply each_ok, long_ok. Qed.

End facts.

(** A file as it is parsed has no marks. *)
Definition unmarked (f : list toml_entry) : Prop := Forall (λ x, claimed x = false ∧ refused x = false) f.
Lemma scan_line_unmarked s ln l : unmarked (TomlParse.e (sc_t s)) → unmarked (TomlParse.e (sc_t (scan_line s ln l))).
Proof.
  intros Hu. unfold scan_line. pose proof (clean_ends l) as [Hs He]. destruct (clean l) as [|a raw] eqn:Hc; [done|].
  destruct (negb (sc_lost s) || _); [|done]. destruct (parse_line _ _ _ _) as [[t' sec']|er] eqn:Hp; [|done]. cbn [sc_t].
  destruct (is_header (a :: raw)) eqn:Hh.
  - destruct (header_line _ _ _ _ _ _ Hh Hp) as (_ & _ & -> & _). done.
  - destruct (key_line _ _ _ _ _ _ Hh Hs He Hp) as (k & val & tx & _ & -> & _). apply Forall_app_2; [done|]. by repeat constructor.
Qed.
Lemma parse_unmarked buf t : parse_buf buf = inl t → unmarked (TomlParse.e t).
Proof.
  unfold parse_buf. destruct (stray_cr 1 buf); [done|].
  assert (Hl : ∀ ls s ln, unmarked (TomlParse.e (sc_t s)) → unmarked (TomlParse.e (sc_t (scan_lines s ln ls)))).
  { induction ls as [|l ls IH]; intros s ln Hu; [done|]. cbn. by apply IH, scan_line_unmarked. }
  destruct (sc_bad _) eqn:Hb; [|done]. intros [= <-]. apply Hl. constructor.
Qed.
Lemma unmarked_free k f : unmarked f → free k f.
Proof. intros Hu x Hx _. by apply (proj1 (Forall_forall _ _) Hu x Hx). Qed.
Lemma unmarked_sound f : unmarked f → sound f.
Proof. intros Hu. eapply Forall_impl; [exact Hu|]. intros x [_ Hr]. congruence. Qed.
End CfgFacts.
