(* ===== verification/Configured.v ===== *)
(** * An engine opened with a configuration file

    What a key that no pass has claimed is waiting for; that an engine which opens has
    taken every key of its file or left it waiting; and that [gptps_config_check] passes
    exactly when every key of the file has been used and none refused. *)

From S2P Require Import Prelude HandleIndex Engine EngineApi Registry Toml TomlParse Settings Config ParseFacts SettingsFacts Knobs CfgFile CfgApply CfgFacts.
From Stdlib Require Import Ascii SpecFloat.
From stdpp Require Import pretty.
Local Open Scope Z_scope.

Module Configured.
Import Toml TomlParse Settings Engine EngineApi Registry ParseFacts SettingsFacts Knobs CfgFile Defines CfgApply CfgFacts.

Section waiting.
Context {H : Type}.
Implicit Types (c : conf H) (s : pass H).

(** ** What an unclaimed key waits for *)

(** The shape a task's key has, when a schema or the engine says so. *)
Definition task_shape (schemas : list task_schema) (k : text) : option shape :=
  match best_schema k None schemas with
  | Some sc => Some (ts_shape sc)
  | None =>
      let rest := drop 6 k in
      if has_sub (str ".resources.") rest then Some (plain SET_UINT)
      else match task_key_find (H := H) (last_part k) with
           | Some tk => if one_name rest (last_part k) then Some (tk_shape tk) else None
           | None => None
           end
  end.
(** A key that may wait: no setting has it (or the setting's accessor says it is not
    there), it is in none of the engine's own tables, it is neither one of them nor a
    near miss with a key of theirs, and a task's key has a value its setting will take. *)
Record waits c (it : cfg_item) : Prop := {
  wt_resource : cfg_is_resource (it_key it) = false;
  wt_setting : ∀ x, setting_find (c_sets c) (it_key it) = Some x → ∃ w, (s_write x w (it_text it)).2 = GPTPS_E_NOTFOUND;
  wt_defaults : has_prefix (it_key it) (str "task_defaults.") = false;
  wt_task : ∀ x, has_prefix (it_key it) (str "tasks.") = true → task_shape (c_schemas c) (it_key it) = Some x → cfg_value_ok x it = None;
  wt_core : cfg_core_key (it_key it) = false;
  wt_own : (length (first_of (it_key it)) < 64)%nat → first_of (it_key it) ∈ CFG_OWN → has_table (it_key it) = true;
  wt_near : ∀ rest d own, (length (first_of (it_key it)) < 64)%nat → (cut_dot (it_key it)).2 = Some rest →
    cfg_near_table (first_of (it_key it)) = Some (d, own) → cfg_typo_evidence c own rest d = false }.

(** ** Passes that settle every entry *)

(** What passes after the resources keep: the registry's entries and the schemas. *)
Definition quiet s s' : Prop := reg_same (c_sets (p_c s)) (c_sets (p_c s')) ∧ c_schemas (p_c s') = c_schemas (p_c s).
#[export] Instance quiet_preorder : PreOrder quiet.
Proof. split; [by intros s|]. intros a b d [H1 E1] [H2 E2]. split; [by etransitivity|congruence]. Qed.
Definition premises at_open s : Prop :=
  (at_open = false → c_reloading (p_c s) = true) ∧ sound (the_file at_open (p_c s)).
Lemma premises_ok at_open s s' : pass_ok at_open s s' → premises at_open s → premises at_open s' ∧
  Forall2 marked (the_file at_open (p_c s)) (the_file at_open (p_c s')).
Proof.
  intros Hp [Ha Hs]. destruct (Hp Ha Hs) as [J Hs']. split; [|apply J]. split; [|done].
  intros E. pose proof (jd_lock _ _ J) as El. cbn in El. rewrite El. by apply Ha.
Qed.
(** The entry at [i] is claimed, or [W] holds of it. *)
Definition settled at_open (W : conf H → cfg_item → Prop) (i : nat) s : Prop :=
  ∀ x, the_file at_open (p_c s) !! i = Some x → claimed x = true ∨ W (p_c s) (cfg_item_at i x).
Lemma settled_keeps at_open (W : conf H → cfg_item → Prop) i s s' :
  Forall2 marked (the_file at_open (p_c s)) (the_file at_open (p_c s')) →
  (∀ it, W (p_c s) it → W (p_c s') it) → settled at_open W i s → settled at_open W i s'.
Proof.
  intros Hm HW Hs x' Hx'. destruct (Forall2_lookup_r _ _ _ _ _ Hm Hx') as (x & Hx & Hxx).
  destruct (Hs x Hx) as [Hc|Hw]; [left; by apply Hxx|right]. rewrite <-(item_marked i x x' Hxx). by apply HW.
Qed.
Lemma each_settles at_open (R : pass H → pass H → Prop) `{!PreOrder R} (W : conf H → cfg_item → Prop) body s :
  (∀ s s', R s s' → pass_ok at_open s s') →
  (∀ s s' it, R s s' → W (p_c s) it → W (p_c s') it) →
  (∀ s i x, the_file at_open (p_c s) !! i = Some x → claimed x = false → R s (body (cfg_item_at i x) s)) →
  (∀ s i x, premises at_open s → the_file at_open (p_c s) !! i = Some x → claimed x = false →
     settled at_open W i (body (cfg_item_at i x) s)) →
  premises at_open s → ∀ i, settled at_open W i (each at_open body s).
Proof.
  intros HR HW Hb Hd Hs i. unfold each. set (n := length (the_file at_open (p_c s))).
  assert (Hat : ∀ s j, R s (each_at at_open body s j)).
  { intros s' j. unfold each_at. destruct (the_file at_open (p_c s') !! j) as [x|] eqn:Hx; [|done].
    destruct (claimed x) eqn:Hc; [done|]. by apply Hb. }
  assert (Hstep : ∀ l s, premises at_open s → settled at_open W i s → settled at_open W i (foldl (each_at at_open body) s l)).
  { intros l s' Hp Hi. pose proof (foldl_pre R (each_at at_open body) l s' Hat) as Hr.
    destruct (premises_ok _ _ _ (HR _ _ Hr) Hp) as [_ Hm]. eapply settled_keeps; [exact Hm| |exact Hi]. intros it. by apply HW. }
  assert (Hin : ∀ l s, premises at_open s → i ∈ l → settled at_open W i (foldl (each_at at_open body) s l)).
  { induction l as [|j l IH]; intros s' Hp; [by intros []%elem_of_nil|]. cbn [foldl].
    destruct (premises_ok _ _ _ (HR _ _ (Hat s' j)) Hp) as [Hp' _].
    intros [<-|Hi]%elem_of_cons; [|by apply IH]. apply Hstep; [done|]. unfold each_at.
    destruct (the_file at_open (p_c s') !! i) as [x|] eqn:Hx; [|intros y Hy; congruence].
    destruct (claimed x) eqn:Hc; [intros y Hy; left; congruence|]. by apply Hd. }
  destruct (decide (i < n)%nat); [apply Hin; [done|]; apply elem_of_seq; lia|].
  intros x Hx. exfalso. pose proof (foldl_pre R (each_at at_open body) (seq 0 n) s Hat) as Hr.
  destruct (premises_ok _ _ _ (HR _ _ Hr) Hs) as [_ Hm]. apply Forall2_length in Hm. apply lookup_lt_Some in Hx. lia.
Qed.

(** ** The five passes *)

Section five.
Variable at_open : bool.
Definition good s s' : Prop := pass_ok at_open s s' ∧ quiet s s'.
#[export] Instance good_preorder : PreOrder good.
Proof. split; [by intros s|]. intros a b d [H1 E1] [H2 E2]. split; by etransitivity. Qed.

Lemma claim_quiet it s : quiet s (cfg_claim at_open it s).
Proof. unfold quiet, cfg_claim. by destruct at_open. Qed.
Lemma refuse_quiet it y s : quiet s (cfg_refuse at_open it y s).
Proof. unfold quiet, cfg_refuse. by destruct at_open. Qed.
Lemma refuse_bad_quiet it o f s : quiet s (refuse_bad at_open it o f s).
Proof. destruct o; [|done]. etransitivity; [apply claim_quiet|apply refuse_quiet]. Qed.
Lemma refuse_only it y s :
  the_file at_open (p_c (cfg_refuse at_open it y s)) = alter (λ x, x <| refused := true |>) (it_index it) (the_file at_open (p_c s)).
Proof. unfold cfg_refuse. destruct at_open; cbn; by rewrite entries_refuse. Qed.
Lemma claim_settled (W : conf H → cfg_item → Prop) s i x : the_file at_open (p_c s) !! i = Some x →
  settled at_open W i (cfg_claim at_open (cfg_item_at i x) s).
Proof. intros Hx y. rewrite (claim_entry at_open s i x Hx). intros [= <-]. by left. Qed.
Lemma refuse_settled (W : conf H → cfg_item → Prop) s i x y : the_file at_open (p_c s) !! i = Some x →
  settled at_open W i (cfg_refuse at_open (cfg_item_at i x) y (cfg_claim at_open (cfg_item_at i x) s)).
Proof.
  intros Hx z. rewrite refuse_file, list_lookup_alter_eq, list_lookup_alter_eq, Hx. intros [= <-]. by left.
Qed.
Lemma now_settled (W : conf H → cfg_item → Prop) s i x : the_file at_open (p_c s) !! i = Some x → W (p_c s) (cfg_item_at i x) →
  settled at_open W i s.
Proof. intros Hx Hw y. rewrite Hx. intros [= <-]. by right. Qed.
Lemma refuse_bad_settled (W : conf H → cfg_item → Prop) o f s i x : the_file at_open (p_c s) !! i = Some x →
  (o = None → W (p_c s) (cfg_item_at i x)) → settled at_open W i (refuse_bad at_open (cfg_item_at i x) o f s).
Proof. intros Hx Hw. destruct o; [by apply refuse_settled|]. by eapply now_settled, Hw. Qed.

Definition W_setting (c : conf H) (it : cfg_item) : Prop :=
  ∀ x, setting_find (c_sets c) (it_key it) = Some x → ∃ w, (s_write x w (it_text it)).2 = GPTPS_E_NOTFOUND.
Definition W_task (c : conf H) (it : cfg_item) : Prop :=
  has_prefix (it_key it) (str "task_defaults.") = false ∧
  ∀ x, has_prefix (it_key it) (str "tasks.") = true → task_shape (c_schemas c) (it_key it) = Some x → cfg_value_ok x it = None.
Definition W_table (c : conf H) (it : cfg_item) : Prop :=
  ((length (first_of (it_key it)) < 64)%nat → first_of (it_key it) ∈ CFG_OWN → has_table (it_key it) = true) ∧
  ∀ rest d own, (length (first_of (it_key it)) < 64)%nat → (cut_dot (it_key it)).2 = Some rest →
    cfg_near_table (first_of (it_key it)) = Some (d, own) → cfg_typo_evidence c own rest d = false.
Lemma typo_same c c' own rest d : reg_same (c_sets c) (c_sets c') → cfg_typo_evidence c' own rest d = cfg_typo_evidence c own rest d.
Proof.
  intros Hs. unfold cfg_typo_evidence. assert (Ek : map s_key (s_list (c_sets c')) = map s_key (s_list (c_sets c))) by by apply reg_same_keys.
  assert (Eh : ∀ k, settings_has (c_sets c') k = settings_has (c_sets c) k).
  { intros k. unfold settings_has, setting_find. apply bool_decide_ext. rewrite <-!not_eq_None_Some, !find_in_None. by rewrite Ek. }
  assert (Ec : ∀ k, closest (c_sets c') k = closest (c_sets c) k) by (intros k; unfold closest; by rewrite Ek).
  by rewrite Eh, Ec.
Qed.

Lemma resource_settles tid s : premises at_open s → ∀ i,
  settled at_open (λ _ it, cfg_is_resource (it_key it) = false) i (each at_open (apply_resource tid at_open) s).
Proof.
  apply (each_settles at_open (pass_ok at_open)); [done|done|intros; by apply resource_ok|].
  intros s' i x Hp Hx Hc. unfold apply_resource. set (it := cfg_item_at i x).
  destruct (cfg_is_resource (it_key it)) eqn:Hr; cbn [negb]; [|by eapply now_settled].
  destruct (cfg_value_ok (plain SET_UINT) it) eqn:Hv; [by apply refuse_settled|].
  intros y Hy. left. set (s1 := cfg_claim at_open it s') in *.
  assert (H1 : pass_ok at_open s' s1) by (by apply claim_ok; [|apply acc_resource]).
  destruct (premises_ok _ _ _ H1 Hp) as [Hp1 _].
  pose proof (define_resource_ok at_open tid None (unstr (drop 10 (it_key it))) (strtoull (it_text it)).1 (p_c s1)) as Hd.
  destruct (Defines.gptps_define_resource _ _ _ _ _) as [st c2]. cbn [snd] in Hd.
  destruct (premises_ok _ _ _ (pass_conf at_open s1 c2 (p_oom s1) Hd) Hp1) as [_ Hm]. cbn [p_c] in Hm.
  destruct (Forall2_lookup_l _ _ _ _ _ Hm (claim_entry at_open s' i x Hx)) as (x2 & Hx2 & Hmk).
  assert (Hc2 : claimed x2 = true) by by apply Hmk.
  destruct (decide (st = GPTPS_E_NOMEM)); (destruct (decide (st = GPTPS_OK)); [cbn in Hy; congruence|]);
    rewrite refuse_only in Hy; change (it_index it) with i in Hy; rewrite list_lookup_alter_eq in Hy;
    change (the_file at_open (p_c ?z)) with (the_file at_open c2) in Hy; rewrite Hx2 in Hy; by injection Hy as <-.
Qed.

Lemma setting_quiet s it : quiet s (apply_setting at_open it s).
Proof.
  unfold apply_setting. pose proof (set_from_file_kept (p_c s) it) as (_ & Hs & Hc).
  destruct (cfg_set_from_file (p_c s) it) as [c1 [[st y]|]]; cbn [fst] in *; [|by split].
  transitivity (s <| p_c := c1 |>); [by split|]. transitivity (cfg_claim at_open it (s <| p_c := c1 |>)); [apply claim_quiet|].
  destruct (decide (st = GPTPS_E_NOMEM)); (destruct (decide (st = GPTPS_OK)); [done|]);
    (etransitivity; [|apply refuse_quiet]); done.
Qed.
Lemma setting_settles s : premises at_open s → ∀ i, settled at_open W_setting i (each at_open (apply_setting at_open) s).
Proof.
  apply (each_settles at_open good).
  - by intros ? ? [].
  - intros s1 s2 it [_ [Hs _]] Hw x Hx. destruct (find_same_back _ _ _ _ Hs Hx) as (x1 & Hx1 & Hxx).
    destruct (Hw x1 Hx1) as [w Ew]. exists w. by rewrite (sm_write _ _ Hxx).
  - intros s' i x Hx Hc. split; [by apply setting_ok|apply setting_quiet].
  - intros s' i x _ Hx Hc. unfold apply_setting. set (it := cfg_item_at i x).
    pose proof (set_from_file_kept (p_c s') it) as (Hk & Hs & _). pose proof (set_from_file_spec (p_c s') it) as Hw.
    destruct (cfg_set_from_file (p_c s') it) as [c1 [[st y]|]]; cbn [fst snd] in *.
    + assert (Hx1 : the_file at_open (p_c (s' <| p_c := c1 |>)) !! i = Some x).
      { cbn. unfold the_file in *. by rewrite (kp_toml _ _ Hk), (kp_new _ _ Hk). }
      destruct (decide (st = GPTPS_E_NOMEM)); (destruct (decide (st = GPTPS_OK)); [by apply (claim_settled W_setting (s' <| p_c := c1 |>))|]);
        exact (refuse_settled W_setting (s' <| p_c := c1 |>) i x y Hx1).
    + apply (now_settled W_setting _ i x).
      { cbn. unfold the_file in *. by rewrite (kp_toml _ _ Hk), (kp_new _ _ Hk). }
      intros z Hz. cbn in Hz. destruct (find_same_back _ _ _ _ Hs Hz) as (z1 & Hz1 & Hzz).
      destruct (Hw z1 Hz1) as [w Ew]. exists w. by rewrite (sm_write _ _ Hzz).
Qed.
Lemma task_quiet s it : quiet s (apply_task_key at_open it s).
Proof.
  unfold apply_task_key. destruct (has_prefix _ _).
  - destruct (task_key_find _) as [tk|]; [|etransitivity; [apply claim_quiet|apply refuse_quiet]].
    destruct (cfg_value_ok _ _); cbn [judge]; [etransitivity; [apply claim_quiet|apply refuse_quiet]|apply claim_quiet].
  - destruct (negb _); [done|]. destruct (best_schema _ _ _); [apply refuse_bad_quiet|].
    destruct (has_sub _ _); [apply refuse_bad_quiet|]. destruct (task_key_find _); [|done].
    destruct (one_name _ _); [apply refuse_bad_quiet|done].
Qed.
Lemma task_settles s : premises at_open s → ∀ i, settled at_open W_task i (each at_open (apply_task_key at_open) s).
Proof.
  apply (each_settles at_open good).
  - by intros ? ? [].
  - intros s1 s2 it [_ [_ Es]] [Hd Hw]. split; [done|]. by rewrite Es.
  - intros s' i x Hx Hc. split; [by apply task_ok|apply task_quiet].
  - intros s' i x _ Hx Hc. unfold apply_task_key. set (it := cfg_item_at i x).
    destruct (has_prefix (it_key it) (str "task_defaults.")) eqn:Hd.
    { destruct (task_key_find _) as [tk|]; [|by apply refuse_settled].
      destruct (cfg_value_ok _ _); cbn [judge]; [by apply refuse_settled|by apply claim_settled]. }
    destruct (has_prefix (it_key it) (str "tasks.")) eqn:Ht; cbn [negb].
    2: { apply (now_settled _ _ i x Hx). split; [done|]. intros z Hz. fold it in Hz. congruence. }
    destruct (best_schema (it_key it) None (c_schemas (p_c s'))) as [sc|] eqn:Hb.
    { apply refuse_bad_settled; [done|]. intros Ev. split; [done|]. intros z _. unfold task_shape. fold it. rewrite Hb. by intros [= <-]. }
    destruct (has_sub (str ".resources.") (drop 6 (it_key it))) eqn:Hr.
    { apply refuse_bad_settled; [done|]. intros Ev. split; [done|]. intros z _. unfold task_shape. fold it. rewrite Hb, Hr. by intros [= <-]. }
    destruct (task_key_find (last_part (it_key it))) as [tk|] eqn:Hf.
    + destruct (one_name _ _) eqn:Hn.
      * apply refuse_bad_settled; [done|]. intros Ev. split; [done|]. intros z _. unfold task_shape. fold it. rewrite Hb, Hr, Hf, Hn. by intros [= <-].
      * apply (now_settled _ _ i x Hx). split; [done|]. intros z _. unfold task_shape. fold it. by rewrite Hb, Hr, Hf, Hn.
    + apply (now_settled _ _ i x Hx). split; [done|]. intros z _. unfold task_shape. fold it. by rewrite Hb, Hr, Hf.
Qed.
Lemma core_quiet s it : quiet s (apply_core_key at_open it s).
Proof. unfold apply_core_key. destruct (cfg_core_key _); [|done]. etransitivity; [apply claim_quiet|apply refuse_quiet]. Qed.
Lemma core_settles s : premises at_open s → ∀ i,
  settled at_open (λ _ it, cfg_core_key (it_key it) = false) i (each at_open (apply_core_key at_open) s).
Proof.
  apply (each_settles at_open good); [by intros ? ? []|done|intros; split; [by apply core_ok|apply core_quiet]|].
  intros s' i x _ Hx Hc. unfold apply_core_key. destruct (cfg_core_key _) eqn:Hk; [by apply refuse_settled|by eapply now_settled].
Qed.
Lemma table_quiet s it : quiet s (apply_table_name at_open it s).
Proof.
  unfold apply_table_name. destruct (64 <=? _)%nat; [done|]. destruct (cut_dot _).2.
  - destruct (cfg_near_table _) as [[d own]|]; [|done]. destruct (cfg_typo_evidence _ _ _ _); [|done].
    etransitivity; [apply claim_quiet|apply refuse_quiet].
  - destruct (decide _); [|done]. etransitivity; [apply claim_quiet|apply refuse_quiet].
Qed.
Lemma table_keeps s1 s2 it : quiet s1 s2 → W_table (p_c s1) it → W_table (p_c s2) it.
Proof.
  intros [Hs _] [Ho Hn]. split; [done|]. intros rest d own Hl Hc Hnr. rewrite (typo_same _ _ own rest d Hs). by apply Hn.
Qed.
Lemma table_settles s : premises at_open s → ∀ i, settled at_open W_table i (each at_open (apply_table_name at_open) s).
Proof.
  apply (each_settles at_open good); [by intros ? ? []|intros ? ? ? [_ Hq]; by apply table_keeps
    |intros; split; [by apply table_ok|apply table_quiet]|].
  intros s' i x _ Hx Hc. unfold apply_table_name. set (it := cfg_item_at i x).
  destruct (Nat.leb_spec 64 (length (first_of (it_key it)))).
  { apply (now_settled _ _ i x Hx). split; fold it; intros; lia. }
  destruct (cut_dot (it_key it)).2 as [rest|] eqn:Hcut.
  - assert (Ho : has_table (it_key it) = true) by (unfold has_table; rewrite Hcut; by apply bool_decide_eq_true).
    destruct (cfg_near_table (first_of (it_key it))) as [[d own]|] eqn:Hnr.
    + destruct (cfg_typo_evidence (p_c s') own rest d) eqn:Ht; [by apply refuse_settled|].
      apply (now_settled _ _ i x Hx). split; fold it; [done|]. intros r d' o _ E1 E2. rewrite Hcut in E1. rewrite Hnr in E2. congruence.
    + apply (now_settled _ _ i x Hx). split; fold it; [done|]. intros r d' o _ _ E2. congruence.
  - destruct (decide (first_of (it_key it) ∈ CFG_OWN)); [by apply refuse_settled|].
    apply (now_settled _ _ i x Hx). split; fold it; [done|]. intros r d' o _ E1. congruence.
Qed.

Lemma each_quiet body s : (∀ s it, quiet s (body it s)) → quiet s (each at_open body s).
Proof.
  intros Hb. unfold each. apply (foldl_pre quiet). intros s' i. unfold each_at.
  destruct (the_file at_open (p_c s') !! i) as [x|]; [|done]. by destruct (claimed x).
Qed.
(** After the five passes each entry is claimed or waits. *)
Lemma passes_settle tid s : premises at_open s → ∀ i, settled at_open waits i
  (each at_open (apply_table_name at_open) (each at_open (apply_core_key at_open) (each at_open (apply_task_key at_open)
    (each at_open (apply_setting at_open) (each at_open (apply_resource tid at_open) s))))).
Proof.
  intros Hp i. set (s1 := each at_open (apply_resource tid at_open) s). set (s2 := each at_open (apply_setting at_open) s1).
  set (s3 := each at_open (apply_task_key at_open) s2). set (s4 := each at_open (apply_core_key at_open) s3).
  set (s5 := each at_open (apply_table_name at_open) s4).
  destruct (premises_ok at_open s s1) as [P1 _]; [apply each_ok, resource_ok|done|].
  destruct (premises_ok at_open s1 s2) as [P2 M2]; [apply each_ok, setting_ok|done|].
  destruct (premises_ok at_open s2 s3) as [P3 M3]; [apply each_ok, task_ok|done|].
  destruct (premises_ok at_open s3 s4) as [P4 M4]; [apply each_ok, core_ok|done|].
  destruct (premises_ok at_open s4 s5) as [P5 M5]; [apply each_ok, table_ok|done|].
  assert (Q3 : quiet s2 s3) by apply each_quiet, task_quiet. assert (Q4 : quiet s3 s4) by apply each_quiet, core_quiet.
  assert (Q5 : quiet s4 s5) by apply each_quiet, table_quiet.
  assert (Q35 : quiet s3 s5) by by transitivity s4. assert (Q25 : quiet s2 s5) by by transitivity s3.
  assert (M35 : Forall2 marked (the_file at_open (p_c s3)) (the_file at_open (p_c s5))) by by transitivity (the_file at_open (p_c s4)).
  assert (M25 : Forall2 marked (the_file at_open (p_c s2)) (the_file at_open (p_c s5))) by by transitivity (the_file at_open (p_c s3)).
  assert (M15 : Forall2 marked (the_file at_open (p_c s1)) (the_file at_open (p_c s5))) by by transitivity (the_file at_open (p_c s2)).
  pose proof (settled_keeps at_open (λ _ it, cfg_is_resource (it_key it) = false) i s1 s5 M15 (λ _ Hw, Hw) (resource_settles tid s Hp i)) as S1.
  assert (S2 : settled at_open W_setting i s5).
  { apply (settled_keeps at_open _ i s2 s5 M25); [|by apply setting_settles]. intros it Hw x Hx.
    destruct (find_same_back _ _ _ _ (proj1 Q25) Hx) as (x1 & Hx1 & Hxx). destruct (Hw x1 Hx1) as [w Ew]. exists w. by rewrite (sm_write _ _ Hxx). }
  assert (S3 : settled at_open W_task i s5).
  { apply (settled_keeps at_open _ i s3 s5 M35); [|by apply task_settles]. intros it [Hd Hw]. split; [done|]. by rewrite (proj2 Q35). }
  pose proof (settled_keeps at_open (λ _ it, cfg_core_key (it_key it) = false) i s4 s5 M5 (λ _ Hw, Hw) (core_settles s3 P3 i)) as S4.
  pose proof (table_settles s4 P4 i) as S5. intros x Hx.
  destruct (S1 x Hx) as [?|W1], (S2 x Hx) as [?|W2], (S3 x Hx) as [?|[W3 W3']], (S4 x Hx) as [?|W4], (S5 x Hx) as [?|[W5 W5']];
    try (by left). right. by split.
Qed.
End five.

(** ** The count of errors only grows *)

Definition bad_le s s' : Prop := (p_bad s ≤ p_bad s')%nat.
#[export] Instance bad_le_preorder : PreOrder bad_le.
Proof. split; unfold bad_le; [intros s; lia|intros a b d; lia]. Qed.
Lemma bad_refuse at_open it y s : bad_le s (cfg_refuse at_open it y (cfg_claim at_open it s)).
Proof. unfold bad_le. cbn. lia. Qed.
Lemma bad_refuse_bad at_open it o f s : bad_le s (refuse_bad at_open it o f s).
Proof. destruct o; [apply bad_refuse|done]. Qed.
Lemma bad_each at_open body s : (∀ s it, bad_le s (body it s)) → bad_le s (each at_open body s).
Proof.
  intros Hb. unfold each. apply (foldl_pre bad_le). intros s' i. unfold each_at.
  destruct (the_file at_open (p_c s') !! i) as [x|]; [|done]. by destruct (claimed x).
Qed.
Lemma bad_long at_open s it : bad_le s (long_key at_open it s).
Proof. unfold long_key. destruct (_ !! _); [|done]. destruct (_ <? _)%nat; [done|apply bad_refuse]. Qed.
Lemma bad_resource tid s it : bad_le s (apply_resource tid true it s).
Proof.
  unfold apply_resource. destruct (negb _); [done|]. destruct (cfg_value_ok _ _); [apply bad_refuse|].
  destruct (Defines.gptps_define_resource _ _ _ _ _) as [st c]. unfold bad_le.
  destruct (decide (st = GPTPS_E_NOMEM)), (decide (st = GPTPS_OK)); cbn; lia.
Qed.
Lemma bad_setting s it : bad_le s (apply_setting true it s).
Proof.
  unfold apply_setting. destruct (cfg_set_from_file _ _) as [c [[st y]|]]; [|unfold bad_le; cbn; lia]. unfold bad_le.
  destruct (decide (st = GPTPS_E_NOMEM)), (decide (st = GPTPS_OK)); cbn; lia.
Qed.
Lemma bad_task s it : bad_le s (apply_task_key true it s).
Proof.
  unfold apply_task_key. destruct (has_prefix _ _).
  - destruct (task_key_find _); [|apply bad_refuse]. destruct (cfg_value_ok _ _); [apply bad_refuse|unfold bad_le; cbn; lia].
  - destruct (negb _); [done|]. destruct (best_schema _ _ _); [apply bad_refuse_bad|].
    destruct (has_sub _ _); [apply bad_refuse_bad|]. destruct (task_key_find _); [|done].
    destruct (one_name _ _); [apply bad_refuse_bad|done].
Qed.
Lemma bad_core s it : bad_le s (apply_core_key true it s).
Proof. unfold apply_core_key. destruct (cfg_core_key _); [apply bad_refuse|done]. Qed.
Lemma bad_table s it : bad_le s (apply_table_name true it s).
Proof.
  unfold apply_table_name. destruct (64 <=? _)%nat; [done|]. destruct (cut_dot _).2.
  - destruct (cfg_near_table _) as [[d own]|]; [|done]. destruct (cfg_typo_evidence _ _ _ _); [apply bad_refuse|done].
  - destruct (decide _); [apply bad_refuse|done].
Qed.
Lemma bad_apply tid s : bad_le s (cfg_apply tid true s).
Proof.
  unfold cfg_apply. etransitivity; [apply (bad_each true (apply_resource tid true)); intros; apply bad_resource|].
  etransitivity; [apply (bad_each true (apply_setting true)); intros; apply bad_setting|].
  etransitivity; [apply (bad_each true (apply_task_key true)); intros; apply bad_task|].
  etransitivity; [apply (bad_each true (apply_core_key true)); intros; apply bad_core|].
  apply bad_each. intros. apply bad_table.
Qed.

(** ** Opening *)

Definition oview (r : settings (world H)) (o : opening) : view := View (TomlParse.e (o_t o)) (o_bad o) (o_log o) r false.
(** A step that counts no error is a pass over the file. *)
Definition opens r (o o' : opening) : Prop := (o_bad o ≤ o_bad o')%nat ∧ (o_bad o' = o_bad o → ok (oview r o) (oview r o')).
#[export] Instance opens_preorder r : PreOrder (opens r).
Proof.
  split; [by intros o|]. intros a b d [H1 E1] [H2 E2]. split; [lia|]. intros E.
  transitivity (oview r b); [apply E1|apply E2]; lia.
Qed.
Lemma open_value_ok r key x f o : (key, x) ∈ SIZING → (length key < CFG_KEY_MAX)%nat → opens r o (open_value key x f o).
Proof.
  intros Hk Hl. unfold open_value. destruct (find_at (o_t o) key) as [j|] eqn:Hf; [|done].
  destruct (find_at_spec _ _ _ Hf) as (en & Hen & Hfull). rewrite Hen.
  destruct (cfg_value_ok x (cfg_item_at j en)) eqn:Hv; split; try (cbn; lia). intros _.
  refine (ok_claim j en (oview r o) _ _); [exact Hen|]. apply (acc_size _ _ x); [|done]. rewrite item_key by by rewrite Hfull. by rewrite Hfull.
Qed.
Lemma open_keys_ok r t cf : opens r (Opening t cf 0 []) (cfg_open_keys t cf).
Proof.
  unfold cfg_open_keys. etransitivity; [|apply open_value_ok; [unfold SIZING; set_solver|unfold CFG_KEY_MAX; cbn; lia]].
  transitivity (foldl take_key (Opening t cf 0 []) OPEN_KEYS).
  - assert (Hall : ∀ l o, (∀ k, k ∈ l → k ∈ OPEN_KEYS) → opens r o (foldl take_key o l)); [|by apply Hall].
    induction l as [|k l IH]; intros o Hin; [done|]. cbn [foldl]. transitivity (take_key o k); [|apply IH; set_solver].
    apply open_value_ok; [unfold SIZING; apply elem_of_app; left; apply list_elem_of_fmap; exists k; split; [done|set_solver]|].
    assert (Hs : Forall (λ k, (length (ok_key k) < CFG_KEY_MAX)%nat) OPEN_KEYS) by (unfold CFG_KEY_MAX; repeat constructor; cbn; lia).
    rewrite Forall_forall in Hs. apply Hs. set_solver.
  - cbn [foldl].
    assert (Hc : ∀ o p, (str p.2, ranged SET_UINT 0 U32_MAX) ∈ SIZING → (length (str p.2) < CFG_KEY_MAX)%nat → opens r o (check_key o p)).
    { intros o p Hp Hl. unfold check_key. destruct (_ =? 0); [done|]. by apply open_value_ok. }
    etransitivity; apply Hc; unfold SIZING; cbn [snd]; first [set_solver|unfold CFG_KEY_MAX; cbn; lia].
Qed.

Lemma open_engine_fresh detect made alloc (host : H) cf c : open_engine detect made alloc host cf = (GPTPS_OK, Some c) →
  c_log c = [] ∧ c_late c = 0%nat ∧ c_reloading c = false.
Proof.
  unfold open_engine. destruct (Config.gptps_config_resolve _ _) as [st [l|]]; [|by destruct st].
  destruct st; try done. destruct (negb made); [done|]. by intros [= <-].
Qed.
Lemma premises_view s : sound (v_file (pview true s)) → premises true s.
Proof. by split. Qed.
Lemma opened_inv {A B C} (a : A) (b b' : B) (d d' : C) : (a, Some b, d) = (a, Some b', d') → b = b' ∧ d = d'.
Proof. by intros [= -> ->]. Qed.
(** A step of the load of the add-ons: without an error it is a pass. *)
Definition loads s s' : Prop := bad_le s s' ∧ (p_bad s' = p_bad s → pass_ok true s s').
#[export] Instance loads_preorder : PreOrder loads.
Proof.
  split; [by intros s|]. intros a b d [H1 E1] [H2 E2]. unfold bad_le in *. split; [unfold bad_le; lia|]. intros E.
  transitivity b; [apply E1|apply E2]; lia.
Qed.
(** What the last pass leaves, as the open gives it out. *)
Lemma open_finish t cf r file s : parse_buf file = inl t → (p_bad s + c_late (p_c s) = 0)%nat →
  (∀ i, settled true waits i s) → judged (oview r (Opening t cf 0 [])) (pview true s) →
  let c := p_c s <| c_late := 0%nat |> <| c_opening := false |> in
  [] ++ c_log (p_c s) = [] ∧ c_late c = 0%nat ∧ c_reloading c = false ∧
  ∃ t', parse_buf file = inl t' ∧ Forall2 marked (TomlParse.e t') (entries_in (c_toml c)) ∧
  ∀ i x, entries_in (c_toml c) !! i = Some x → refused x = false ∧
    if claimed x then accepted (c_sets c) (cfg_item_at i x) else waits c (cfg_item_at i x).
Proof.
  intros Hp Hb Hset J. pose proof (parse_unmarked _ _ Hp) as Hu. destruct (jd_log _ _ J) as (l & Elg & En & _ & Hnew).
  cbn in Elg, En. rewrite Hb in En. assert (l = []) as -> by (by destruct l). cbn in Hnew. apply Permutation_nil_l in Hnew.
  cbn zeta. split; [exact Elg|]. split; [done|]. split; [exact (jd_lock _ _ J)|]. exists t. split; [done|]. split; [exact (jd_marks _ _ J)|]. intros i x Hx.
  change (the_file true (p_c s) !! i = Some x) in Hx.
  assert (Hr : refused x = false).
  { pose proof (newly_none 0 _ _ (eq_sym Hnew) (jd_marks _ _ J)) as Hn. cbn in Hn. refine (Forall_lookup_1 _ _ i x (Hn _) Hx).
    eapply Forall_impl; [exact Hu|]. by intros ? []. }
  split; [done|]. destruct (claimed x) eqn:Hc.
  - destruct (jd_taken _ _ J i x Hx Hc Hr) as [(x0 & Hx0 & Hc0)|Ha]; [|exact Ha].
    pose proof (Forall_lookup_1 _ _ _ _ Hu Hx0) as [? _]. congruence.
  - destruct (Hset i x Hx) as [?|Hw]; [congruence|]. destruct Hw. by split.
Qed.
(** What a call that defines or sets something does, and what happens to the fields here
    meanwhile: an add-on's setup, and the rest of the engine, is a run of these. *)
Inductive call_step : conf H → conf H → Prop :=
  | Registers tid ns d c : call_step c (Defines.gptps_register_task tid ns d c).2
  | Defines_resource tid ns name budget c : call_step c (Defines.gptps_define_resource tid ns name budget c).2
  | Registers_setting tid ns d c : call_step c (gptps_register_setting tid ns d c).2
  | Defines_global tid ns key ty dv con rs c : call_step c (gptps_define_global tid ns key ty dv con rs c).2
  | Defines_task_setting tid ns leaf ty dv con rs c : call_step c (gptps_define_task_setting tid ns leaf ty dv con rs c).2
  | Sets key v c : call_step c (gptps_settings_set_ex key v c).1.2
  | Settles tid prefix c : call_step c (cfg_apply_pending tid prefix c)
  | Sets_up x c : call_step c (c <| c_setup := x |>)
  | Runs w c : call_step c (c <| c_w := w |>).
Lemma call_conf_ok c c' : call_step c c' → conf_ok true c c'.
Proof.
  intros [tid ns d c1|tid ns name b c1|tid ns d c1|tid ns key ty dv con rs c1|tid ns leaf ty dv con rs c1|key v c1|tid p c1|x c1|w c1].
  - apply register_task_ok.
  - apply define_resource_ok.
  - apply register_setting_ok.
  - apply define_global_ok.
  - apply define_task_setting_ok.
  - unfold gptps_settings_set_ex. pose proof (set_value_same (c_sets c1) (c_w c1) key v true) as Hs.
    destruct (set_value _ _ _ _ _) as [[[r w] st] calls]. apply kept_ok. split; try done. by apply reg_same_le.
  - apply pending_ok.
  - by apply kept_ok, kept_sets.
  - by apply kept_ok, kept_sets.
Qed.
Lemma calls_conf_ok c c' : rtc call_step c c' → conf_ok true c c'.
Proof. induction 1; [done|]. etransitivity; [by apply call_conf_ok|done]. Qed.

Section load.
(** [load] is [gptps_load_addon]; one that succeeds is the calls of the add-on's setup. *)
Variable load : text → conf H → status * conf H.
Hypothesis load_runs : ∀ p c, (load p c).1 = GPTPS_OK → rtc call_step c (load p c).2.
Lemma load_one_ok it s p : loads s (load_one load it s p).
Proof.
  unfold load_one. pose proof (λ E, calls_conf_ok _ _ (load_runs p (p_c s) E)) as Hl. destruct (load p (p_c s)) as [st c]. cbn [fst snd] in Hl.
  destruct (decide (st = GPTPS_OK)) as [->|Hst].
  - destruct (decide (GPTPS_OK = GPTPS_E_NOMEM)); [done|]. split; [unfold bad_le; cbn; lia|]. intros _. by apply (pass_conf true s c), Hl.
  - split; [unfold bad_le|intros E; exfalso; revert E]; destruct (decide (st = GPTPS_E_NOMEM)); cbn; lia.
Qed.
Lemma load_addons_ok s : loads s (on_key true (str "addons") (load_addons load) s).
Proof.
  unfold on_key. destruct (find_at _ _) as [j|] eqn:Hf; [|done].
  apply find_at_spec in Hf as (x & Hx & Hk). cbn [TomlParse.e] in Hx. rewrite Hx.
  transitivity (cfg_claim true (cfg_item_at j x) s).
  { split; [unfold bad_le; cbn; lia|]. intros _. apply claim_ok; [done|]. apply acc_addons.
    rewrite item_key; [done|rewrite Hk; unfold CFG_KEY_MAX; cbn; lia]. }
  unfold load_addons. set (s1 := cfg_claim true (cfg_item_at j x) s).
  etransitivity; [|apply (foldl_pre loads); intros; apply load_one_ok].
  destruct (etext x); [|done]. split; [unfold bad_le; cbn; lia|]. intros E. exfalso. cbn in E. lia.
Qed.

Lemma open_passes_ok tid t cf o c file : parse_buf file = inl t → opens (c_sets c) (Opening t cf 0 []) o →
  c_log c = [] → c_late c = 0%nat → c_reloading c = false →
  let s := open_passes tid load o c in (p_bad s + c_late (p_c s) = 0)%nat →
  o_log o = [] ∧ (∀ i, settled true waits i s) ∧ judged (oview (c_sets c) (Opening t cf 0 [])) (pview true s).
Proof.
  intros Hp Hk Eg El Ek s Hb. unfold open_passes in s.
  set (s0 := Pass (c <| c_toml := Some (o_t o) |> <| c_opening := true |>) (o_bad o) false) in *.
  set (s1 := cfg_refuse_long_keys true s0) in *. set (s2 := on_key true (str "addons") (load_addons load) s1) in *.
  assert (L12 : loads s1 s2) by apply load_addons_ok.
  assert (Hbad : p_bad s1 = 0%nat ∧ p_bad s2 = 0%nat ∧ o_bad o = 0%nat).
  { assert (B1 : bad_le s0 s1) by apply bad_each, bad_long. assert (B3 : bad_le s2 s) by apply bad_apply.
    destruct L12 as [B2 _]. unfold bad_le in *. change (p_bad s0) with (o_bad o) in B1. lia. }
  destruct Hbad as (Hb1 & Hb2 & Hb0). destruct Hk as [_ K1]. specialize (K1 Hb0).
  destruct (K1 (unmarked_sound _ (parse_unmarked _ _ Hp))) as [J1 Hs0].
  assert (Elog : o_log o = []).
  { destruct (jd_log _ _ J1) as (l & El' & En & _). cbn in El', En. rewrite El'. destruct l; [done|]. cbn in En. lia. }
  assert (Ev : pview true s0 = oview (c_sets c) o).
  { unfold pview, oview, s0. cbn. by rewrite El, Eg, Ek, Elog, Nat.add_0_r. }
  assert (P2 : pass_ok true s0 s2) by (transitivity s1; [apply longs_ok|apply L12; lia]).
  assert (P : pass_ok true s0 s) by (transitivity s2; [exact P2|by apply apply_ok]).
  assert (Hs : sound (v_file (pview true s0))) by by rewrite Ev.
  destruct (premises_ok true s0 s2 P2) as [Hp2 _]; [by apply premises_view|].
  destruct (P ltac:(done) Hs) as [J2 _]. rewrite Ev in J2. split; [done|].
  split; [exact (passes_settle true tid s2 Hp2)|exact (transitivity J1 J2)].
Qed.

Lemma open_read tid detect made alloc host file cf c log :
  gptps_open_ex tid detect made alloc host load (Some file) cf = (GPTPS_OK, Some c, log) →
  log = [] ∧ c_late c = 0%nat ∧ c_reloading c = false ∧
  ∃ t, parse_buf file = inl t ∧ Forall2 marked (TomlParse.e t) (entries_in (c_toml c)) ∧
  ∀ i x, entries_in (c_toml c) !! i = Some x → refused x = false ∧
    if claimed x then accepted (c_sets c) (cfg_item_at i x) else waits c (cfg_item_at i x).
Proof.
  unfold gptps_open_ex. cbn [fmap option_fmap option_map]. destruct (parse_buf file) as [t|] eqn:Hp; [|done].
  generalize (λ r, open_keys_ok r t cf). generalize (cfg_open_keys t cf). intros o Hk.
  destruct (open_engine detect made alloc host (o_c o)) as [st oc] eqn:Ho.
  destruct st, oc as [c0|]; try done. destruct (open_engine_fresh _ _ _ _ _ _ Ho) as (Eg & El & Ek).
  destruct (Nat.eqb_spec (p_bad (open_passes tid load o c0) + c_late (p_c (open_passes tid load o c0))) 0) as [Hb|Hb];
    [|by destruct (p_oom _)].
  pose proof (open_passes_ok tid t cf o c0 file Hp (Hk _) Eg El Ek Hb) as (Elog & Hset & J).
  intros [<- <-]%opened_inv. rewrite Elog, <-Hp. exact (open_finish t cf (c_sets c0) file _ Hp Hb Hset J).
Qed.

(** C6: A file is read whole or not at all.  When [gptps_open_ex] opens an engine with a
    file, the file parsed, nothing was logged as an error, no value was refused, and every
    key of the file was either claimed, its value having passed the checks of the setting,
    the resource, the task's knob or the size it is for, or is left waiting - and then no
    setting has it, it is in none of the engine's tables nor a near miss of one with a key
    of its, and if it is a task's its value is one the setting will take.  The load of an
    add-on that succeeds is the calls its setup makes; one that fails is an error. *)
Theorem open_judges_every_key tid detect made alloc host file cf c log :
  gptps_open_ex tid detect made alloc host load (Some file) cf = (GPTPS_OK, Some c, log) →
  log = [] ∧ c_late c = 0%nat ∧
  ∃ t, parse_buf file = inl t ∧ Forall2 marked (TomlParse.e t) (entries_in (c_toml c)) ∧
  ∀ i x, entries_in (c_toml c) !! i = Some x → refused x = false ∧
    if claimed x then accepted (c_sets c) (cfg_item_at i x) else waits c (cfg_item_at i x).
Proof. intros Ho. by destruct (open_read _ _ _ _ _ _ _ _ _ Ho) as (? & ? & _ & ?). Qed.

(** ** Between the opening and a check *)

(** A call, and the passes over the file that other parts of the engine make. *)
Inductive conf_step : conf H → conf H → Prop :=
  | Calls c c' : call_step c c' → conf_step c c'
  | Reloads tid file c : conf_step c (gptps_settings_reload tid file c).2
  | Forgets r name c : conf_step c (remove_settings r name c)
  | Asks c : conf_step c (ask_report c)
  | Reports c : conf_step c (make_report c)
  | Checks c : conf_step c (gptps_config_check c).2
  | Saves n c : conf_step c (c <| c_saving := n |>).

(** The engine's count of errors is the number of entries it has refused. *)
Record tallied c : Prop := {
  ta_sound : sound (entries_in (c_toml c));
  ta_late : c_late c = refuses (entries_in (c_toml c));
  ta_idle : c_reloading c = false }.
Lemma refuses_none f : refuses f = 0%nat ↔ Forall (λ x, refused x = false) f.
Proof.
  unfold refuses. induction f as [|x f IH]; [by split|]. rewrite Forall_cons. cbn. destruct (refused x); cbn; [by split; [|intros []]|].
  rewrite IH. naive_solver.
Qed.
Lemma judged_tally (v v' : view (H := H)) : judged v v' → v_n v = refuses (v_file v) → v_n v' = refuses (v_file v').
Proof.
  intros J En. destruct (jd_log _ _ J) as (l & _ & El & _ & Hp).
  rewrite (refuses_newly 0 _ _ (jd_marks _ _ J)), El, En, <-(Permutation_length Hp), length_map. done.
Qed.
Lemma tallied_ok c c' : conf_ok true c c' → tallied c → tallied c'.
Proof.
  intros Hc [Hs Hl Hi]. destruct (Hc ltac:(done) Hs) as [J Hs']. split; [exact Hs'| |].
  - exact (judged_tally _ _ J Hl).
  - rewrite <-Hi. exact (jd_lock _ _ J).
Qed.
Lemma tallied_same c c' : c_toml c' = c_toml c → c_late c' = c_late c → c_reloading c' = c_reloading c → tallied c → tallied c'.
Proof. intros Et El Ek [Hs Hl Hi]. split; rewrite ?Et, ?El, ?Ek; done. Qed.
Lemma reload_tallied tid file c : tallied c → tallied (gptps_settings_reload tid file c).2.
Proof.
  intros Hc. unfold gptps_settings_reload. destruct (_ || _); [done|].
  destruct (parse_buf <$> file) as [[t|er]|] eqn:Hp; cbn [snd].
  2-3: by eapply tallied_ok; [apply pending_ok|]; destruct Hc.
  destruct file as [f|]; [|done]. cbn in Hp. injection Hp as Hp. pose proof (parse_unmarked _ _ Hp) as Hu.
  set (s0 := Pass (c <| c_reloading := true |> <| c_late := 0%nat |> <| c_new := Some t |>) 0 false).
  assert (P : pass_ok false s0 (cfg_apply tid false (cfg_refuse_long_keys false s0))).
  { etransitivity; [apply longs_ok|]. apply apply_ok. intros _.
    split; (apply long_free; [unfold CFG_KEY_MAX; cbn; lia|by apply unmarked_free]). }
  revert P. generalize (cfg_apply tid false (cfg_refuse_long_keys false s0)). intros s P.
  destruct (P ltac:(done) (unmarked_sound _ Hu)) as [J Hs]. eapply tallied_ok; [apply pending_ok|]. split; cbn.
  - exact Hs.
  - rewrite Nat.add_comm. refine (judged_tally _ _ J _). cbn. symmetry. apply refuses_none.
    eapply Forall_impl; [exact Hu|]. by intros ? [].
  - done.
Qed.

(** The entries nothing has claimed, in the file's order, and the report of them. *)
Definition idle c (i : nat) : option cfg_item :=
  x ← entries_in (c_toml c) !! i; if claimed x then None else Some (cfg_item_at i x).
Definition unclaimed c : list cfg_item := omap (idle c) (seq 0 (length (entries_in (c_toml c)))).
Definition reported lvl hints c (it : cfg_item) : said := Said lvl it (Report (report_of c hints it)).
Lemma report_idle lvl hints c n i : report_at lvl hints (c, n) i =
  match idle c i with Some it => (cfg_say lvl it (Report (report_of c hints it)) c, S n) | None => (c, n) end.
Proof. unfold report_at, idle. destruct (_ !! i) as [x|]; [|done]. cbn. by destruct (claimed x). Qed.
Lemma report_loop lvl hints c l n :
  foldl (report_at lvl hints) (c, n) l =
  (c <| c_log ::= λ r, r ++ map (reported lvl hints c) (omap (idle c) l) |>, (n + length (omap (idle c) l))%nat).
Proof.
  revert c n. induction l as [|i l IH]; intros c n; cbn [foldl].
  - cbn. rewrite Nat.add_0_r. f_equal. destruct c. unfold update. cbn. by rewrite app_nil_r.
  - rewrite report_idle. cbn [omap list_omap]. destruct (idle c i) as [it|]; [|apply IH]. rewrite IH.
    change (idle (cfg_say lvl it (Report (report_of c hints it)) c)) with (idle c).
    change (reported lvl hints (cfg_say lvl it (Report (report_of c hints it)) c)) with (reported lvl hints c).
    cbn [length map]. f_equal; [|lia]. destruct c. unfold update. cbn. by rewrite <-app_assoc.
Qed.
Lemma check_report c : gptps_config_check c =
  (if bool_decide (unclaimed c = [] ∧ c_late c = 0%nat) then GPTPS_OK else GPTPS_E_CONFIG,
   c <| c_reported := true |> <| c_log ::= λ r, r ++ map (reported LOG_ERROR true c) (unclaimed c) |>).
Proof.
  unfold gptps_config_check, cfg_report. rewrite report_loop. change (idle (c <| c_reported := true |>)) with (idle c).
  change (omap (idle c) _) with (unclaimed c). change (reported LOG_ERROR true (c <| c_reported := true |>)) with (reported LOG_ERROR true c).
  cbn [fst snd]. f_equal. destruct (unclaimed c); cbn; [|done].
  destruct (c_late c); [by rewrite bool_decide_eq_true_2|]. rewrite bool_decide_eq_false_2; [done|]. by intros [].
Qed.
Lemma unclaimed_nil c : unclaimed c = [] ↔ Forall (λ x, claimed x = true) (entries_in (c_toml c)).
Proof.
  rewrite Forall_lookup. split.
  - intros E i x Hx. destruct (claimed x) eqn:Hc; [done|]. exfalso.
    assert (Hin : cfg_item_at i x ∈ unclaimed c); [|rewrite E in Hin; by apply elem_of_nil in Hin].
    apply list_elem_of_omap. exists i. unfold idle. rewrite Hx. cbn. rewrite Hc. split; [|done].
    apply elem_of_seq. apply lookup_lt_Some in Hx. lia.
  - intros Hall. destruct (unclaimed c) as [|y l] eqn:E; [done|]. exfalso.
    assert (Hin : y ∈ unclaimed c) by (rewrite E; constructor). apply list_elem_of_omap in Hin as (i & _ & Hi).
    unfold idle in Hi. destruct (_ !! i) as [x|] eqn:Hx; [|done]. cbn in Hi. by rewrite (Hall i x Hx) in Hi.
Qed.
Lemma step_tallied c c' : conf_step c c' → tallied c → tallied c'.
Proof.
  intros [c1 c2 Hs|tid file c1|r name c1|c1|c1|c1|n c1].
  - by apply tallied_ok, call_conf_ok.
  - apply reload_tallied.
  - by apply tallied_same.
  - unfold ask_report. destruct (c_toml c1) eqn:E; [|done]. destruct (_ && _); [|done]. by apply tallied_same.
  - unfold make_report, cfg_report_first_submit, cfg_report. destruct (c_due c1); [|done]. rewrite report_loop. by apply tallied_same.
  - rewrite check_report. by apply tallied_same.
  - by apply tallied_same.
Qed.

(** C7: The check a host makes before it starts is exact.  After a file was opened with and
    any calls since - tasks, resources and settings registered and defined, values set,
    files reloaded, types removed - [gptps_config_check] answers that all is well exactly
    when every key of the file now loaded has been used and its value accepted: a value that
    waited and was refused as its setting came counts, and the refusals of a file a reload
    replaced do not.  It logs one report for each key nothing has used, in the order of the
    file, and none else. *)
Theorem config_check_is_exact tid detect made alloc host file cf c0 log c :
  gptps_open_ex tid detect made alloc host load (Some file) cf = (GPTPS_OK, Some c0, log) → rtc conf_step c0 c →
  let '(st, c') := gptps_config_check c in
  (st = GPTPS_OK ↔ Forall (λ x, claimed x = true ∧ refused x = false) (entries_in (c_toml c))) ∧
  c_log c' = c_log c ++ map (reported LOG_ERROR true c) (unclaimed c).
Proof.
  intros Ho Hst. destruct (open_read _ _ _ _ _ _ _ _ _ Ho) as (_ & El & Ei & t & _ & _ & Hx).
  assert (T : tallied c0).
  { assert (Hr : Forall (λ x, refused x = false) (entries_in (c_toml c0))) by (apply Forall_lookup; intros i x Hi; by apply (Hx i)).
    split; [|by rewrite El; symmetry; apply refuses_none|done]. eapply Forall_impl; [exact Hr|]. congruence. }
  assert (T' : tallied c) by (clear -T Hst; induction Hst; [done|eauto using step_tallied]).
  rewrite check_report. split; [|done]. destruct T' as [_ Hl _].
  rewrite Forall_and, <-unclaimed_nil, <-refuses_none, <-Hl. case_bool_decide; naive_solver.
Qed.
End load.

End waiting.

(** ** Examples *)

Section examples.
Definition lines (l : list string) : text := str (String.concat (String (ascii_of_nat 10) "") l).
Definition quote : string := String (ascii_of_nat 34) "".
(** A machine of 4 processors and 8 GiB; two workers, stepped by hand. *)
Definition machine : status * Config.hwinfo := (GPTPS_OK, Config.Hwinfo 4 (2 ^ 33)).
Definition host_config : gptps_config := GptpsConfig (Config.Limits 2 0 0) 0 0 0 0 0 true.
(** An add-on whose setup defines one setting, and a host that defines another. *)
Definition np_load (p : text) (c : conf unit) : status * conf unit :=
  gptps_define_global 1 (Some "np"%string) (str "np.speed") SET_INT None (str "0..9") false c.
Definition host_call (c : conf unit) : conf unit :=
  (gptps_define_global 1 None (str "status.x") SET_INT None (str "0..100") false c).2.
Definition small_file : text := lines [
  "addons = [" ++ quote ++ "np.so" ++ quote ++ "]"; "[limits]"; "max_intake_depth = 5"; "max_dead_letters = 7"; "[np]"; "speed = 3";
  "[resources]"; "gpu = 4"; "[task_defaults]"; "priority = 2"; "[status]"; "x = 4"]%string.
Abbreviation small_open := (gptps_open_ex 1 machine true (λ _, true) tt np_load (Some small_file) host_config).
Definition in_conf {A} (f : conf unit → A) (o : status * option (conf unit) * list said) : option A := f <$> o.1.2.
Lemma np_runs p c : (np_load p c).1 = GPTPS_OK → rtc call_step c (np_load p c).2.
Proof. intros _. apply rtc_once, Defines_global. Qed.
Lemma opened_conf (o : status * option (conf unit) * list said) : (o.1.1, bool_decide (is_Some o.1.2)) = (GPTPS_OK, true) →
  ∃ c log, o = (GPTPS_OK, Some c, log).
Proof. destruct o as [[st [c|]] log]; cbn; [|done]. intros [= ->]. by exists c, log. Qed.
Lemma in_conf_some {A} (f : conf unit → A) st c log a : in_conf f (st, Some c, log) = Some a → f c = a.
Proof. by intros [= ->]. Qed.
Definition used (x : toml_entry) : bool := claimed x && negb (refused x).
Lemma all_used l : Forall (λ x, claimed x = true ∧ refused x = false) l ↔ forallb used l = true.
Proof.
  induction l as [|x l IH]; [by split|]. rewrite Forall_cons, IH. cbn. unfold used at 2.
  destruct (claimed x), (refused x); cbn; naive_solver.
Qed.
Lemma open_judges_every_key_witness :
  (∃ c log, small_open = (GPTPS_OK, Some c, log) ∧ log = [] ∧ c_late c = 0%nat ∧
     map claimed (entries_in (c_toml c)) = [true; true; true; true; true; true; false]).
Proof.
  assert (Ho : ∃ c log, small_open = (GPTPS_OK, Some c, log)) by (apply opened_conf; vm_compute; reflexivity).
  destruct Ho as (c & log & Ho). exists c, log. split; [exact Ho|].
  destruct (open_judges_every_key np_load np_runs _ _ _ _ _ _ _ _ _ Ho) as (Hl & Hn & _). split; [exact Hl|]. split; [exact Hn|].
  assert (Hm : in_conf (λ c, map claimed (entries_in (c_toml c))) small_open = Some [true; true; true; true; true; true; false])
    by (vm_compute; reflexivity).
  rewrite Ho in Hm. exact (in_conf_some _ _ _ _ _ Hm).
Defined.
Lemma config_check_is_exact_witness :
  (∃ c0 log, small_open = (GPTPS_OK, Some c0, log) ∧ (gptps_config_check c0).1 ≠ GPTPS_OK ∧
     rtc conf_step c0 (host_call c0) ∧ (gptps_config_check (host_call c0)).1 = GPTPS_OK).
Proof.
  assert (Ho : ∃ c log, small_open = (GPTPS_OK, Some c, log)) by (apply opened_conf; vm_compute; reflexivity).
  destruct Ho as (c & log & Ho). exists c, log. split; [exact Ho|].
  pose proof (config_check_is_exact np_load np_runs _ _ _ _ _ _ _ _ _ c Ho (rtc_refl _ _)) as Hx.
  assert (Hs : rtc conf_step c (host_call c)) by apply rtc_once, Calls, Defines_global.
  pose proof (config_check_is_exact np_load np_runs _ _ _ _ _ _ _ _ _ (host_call c) Ho Hs) as Hy.
  assert (Hn : in_conf (λ c, forallb used (entries_in (c_toml c))) small_open = Some false) by (vm_compute; reflexivity).
  assert (Ha : in_conf (λ c, forallb used (entries_in (c_toml (host_call c)))) small_open = Some true) by (vm_compute; reflexivity).
  rewrite Ho in Hn, Ha. apply in_conf_some in Hn, Ha.
  split; [|split; [exact Hs|]].
  - destruct (gptps_config_check c) as [st c']. intros Est. apply (proj1 Hx), all_used in Est. by rewrite Hn in Est.
  - destruct (gptps_config_check (host_call c)) as [st c']. by apply (proj1 Hy), all_used.
Defined.

(** ** Two spellings of the memory budget *)

Definition both_file : text := lines ["limits.max_memory_bytes = 0"; "limits.max_memory_gb = 1"]%string.
(** The same file gives one budget when it is opened and another when it is read again. *)
Example memory_gb_wins_at_open_only :
  in_conf (λ c, (e_max_memory_bytes (the_engine c), e_max_memory_bytes (the_engine (gptps_settings_reload 1 (Some both_file) c).2)))
    (gptps_open_ex 1 machine true (λ _, true) tt np_load (Some both_file) host_config) = Some (2 ^ 30, 3 * 2 ^ 31).
Proof. vm_compute. reflexivity. Qed.

(** ** An add-on's setting of a task *)

Definition priority_file : text := lines ["[task_defaults]"; "priority = 9"]%string.
Definition np_def : task_def := TaskDef 112 "resize" true 0 None None 0 (Policy 0 0 0 DEAD_LETTER) 0.
Definition with_np (c : conf unit) : conf unit :=
  (gptps_define_task_setting 1 (Some "np"%string) (str "np.priority") SET_INT (Some (str "1")) [] false
     (gptps_register_task 1 None np_def c).2).2.
(** The setting has its own default; a save is told the file gives it the built-in's. *)
Example save_asks_for_the_wrong_default :
  in_conf (λ c, ((λ s, s_read s (c_w (with_np c)) 256) <$> setting_find (c_sets (with_np c)) (str "tasks.resize.np.priority"),
                 cfg_in_file (with_np c) 256 (str "tasks.resize.np.priority")))
    (gptps_open_ex 1 machine true (λ _, true) tt np_load (Some priority_file) host_config) = Some (Some (str "1"), (1, str "9")).
Proof. vm_compute. reflexivity. Qed.
End examples.
End Configured.
